(* ===== verification/_CoqProject ===== *)
-Q . S2P
Prelude.v
PyFloat.v
Types.v
PolicyRuntime.v
Layout.v
State.v
CoreBase.v
Pools.v
PoolsInv.v
PoolsOps.v
PoolsThm.v
PoolsReaders.v
PoolsAlloc.v
PoolsAdmit.v
PoolsProps.v
Journal.v
JournalThm.v
Mirror.v
MirrorThm.v
Snapshot.v
SnapshotThm.v
Transfer.v
TransferThm.v
Disk.v
DiskInv.v
DiskOps.v
DiskMoves.v
DiskThm.v
DiskRun.v
DiskProps.v
ProgressOp.v
DiskLife.v
LocalDram.v
CopyLife.v
Core.v
Recover.v
Remote.v
RemoteOps.v
RemoteControl.v
RemoteSources.v
RemoteMain.v
PullLife.v
Protocol.v
RecoveryState.v
ProtocolThm.v
RecoveryThm.v
Guard.v
GuardOwn.v
GuardSafe.v
GuardLive.v
GuardDemo.v
Progress.v
ProgressThm.v
ProgressEnd.v
CoreClose.v
CoreCloseThm.v
DiskFiles.v
DiskFilesThm.v
ProgressDemo.v
Interact.v
PoolFiles.v
PoolFilesThm.v
PoolFilesDemo.v
Hints.v
HintsThm.v
Session.v
SessionThm.v
SessionDemo.v
Service.v
ServiceThm.v
ServiceDemo.v
Daemon.v
Startup.v
StartupThm.v
Channels.v
ChannelsThm.v
Mapping.v
MappingThm.v
Tracing.v
TracingThm.v
