(* ===== verification/Prelude.v ===== *)
(** * KVCR: shared vocabulary of the development

    KVCR ([src/src/kvcr]) caches the key-value blocks of an inference engine in local DRAM and in
    files, fetches them from other workers, and outlives the worker that filled it: a service
    owns the memory, and a Guard serves it, and hands it to the next worker, when one dies.
    This library models that program in Rocq and proves what its parts promise.  This file holds
    what all others share; this comment describes the whole development.

    ** How code becomes definitions

    A Python function becomes a function of the same name (with its object's name first where
    several share it).  Statements that change objects or raise are terms of [M S A] below: a
    state, a result that is a value or an exception, and the changes made before an exception
    kept.  The objects of a core refer to one another, so their state is one graph, [State.St];
    queues of the library are lists, dicts are [gmap]s or association lists where their order or
    aliasing matters, and an object that is shared is a reference into a store ([LocalDram],
    [Tracing]).  Integers are [Z] with their widths written out where the code packs them; floats
    are binary64 ([PyFloat]).

    Code outside the repository is never defined, but answers: msgspec's codec, SHA-256, BLAKE2b
    and the framework's callbacks are parameters; NIXL, the kernel, sockets, ZMQ, NVTX and the
    clock answer as an environment says that sees the calls so far.  What a theorem relies on is
    a named hypothesis or a class ([EvictionDecider], [WaitersOk], [DiskFriendly], [ClockLaws],
    [thread_rule], [connect_answers], [kernel_rules], [link_sem], the round trip of the codec),
    and a witness evaluates the theorem at an instance that satisfies it.

    Concurrency is by explicit interleaving: the journal's two processes as a step relation
    ([Journal.jstep]); the Guard's actor with the other threads' lock sections between its own
    ([Guard.sync]); the progress thread in turns that end where another thread can be seen
    ([Progress.thread_turn]); processes that meet in files or sockets as programs whose calls
    interleave one by one, each of them may die between any two ([Interact]).

    ** The parts, their files, and their code

    Values and policies.  [PyFloat]; [Types] ([types.py]); [PolicyRuntime] ([policy.py],
    [runtime/policy_runtime.py]): the policies, the invoker that contains them, the eviction
    queue with its suspended generator.  A policy may answer anything; what it answers never
    reaches past the queue ([invoker_contains_decisions]).

    Local DRAM.  [Layout] (residencies), [State] (the object graph), [CoreBase] (what the core
    does for its tiers), [Pools] ([backends/local_dram_pools.py]) with its invariant [PoolsInv],
    one lemma per operation in [PoolsOps], and the theorems of [PoolsThm], [PoolsReaders],
    [PoolsAlloc], [PoolsAdmit], [PoolsProps]: a slot is never given while anyone reads or fills
    it ([allocate_slots_safe], [readers_keep_their_slots]).  [LocalDram]
    ([backends/local_dram.py]): deposits, fetches, deliveries, copies, waiters; [CopyLife]: a
    copy's turns.

    Files.  [Disk] ([backends/local_disk.py]), [DiskInv], [DiskOps], [DiskMoves], [DiskThm],
    [DiskRun], [DiskProps], [DiskLife], with [ProgressOp] for the turns copies and file transfers
    share: slots are never shared ([disk_slots_never_shared]), a transfer reports once
    ([file_transfer_reports_once]).  [DiskFiles], [DiskFilesThm]: the files themselves
    ([files_all_or_nothing]).

    Remote memory.  [Remote], [RemoteOps], [RemoteControl] (the progress thread's half of
    [backends/remote_fw_dram.py], [remote_ops.py], [dangling_ops.py]), [RemoteSources]
    ([remote_sources.py]) and [RemoteMain] (the caller's half); [PullLife]: a pull ends only on
    evidence ([pull_ends_on_evidence]).

    NIXL and the progress thread.  [Transfer], [TransferThm] (registration, prepared grids,
    handles; [runtime/progress.py]); [Progress], [ProgressThm], [ProgressEnd] (the thread:
    [thread_accounts], [close_ends_thread]).

    The core and the cache.  [Core] ([runtime/core.py]) ties the tiers together; [CoreClose],
    [CoreCloseThm]: start, error reports and close ([close_spares_memory], [close_outcome]);
    [ProgressDemo]: runs of both.  [Startup], [StartupThm] ([api.py] and the claim of
    [service/recovery_journal.py]): a cache from its start to its close, and the checks of its
    configuration ([start_all_or_nothing], [pool_outlives_core]).  [Hints], [HintsThm] ([hints]):
    the router's envelopes ([hints_answered]).

    Recovery.  [Journal], [JournalThm] (the ring of [service/recovery_journal.py], under every
    interleaving: [journal_fifo], [drain_complete]); [Mirror], [MirrorThm] (records and their
    mirror: [mirror_replay], [mirror_accepts_wellformed], [carriers_agree]); [Snapshot],
    [SnapshotThm] (the handback region: [torn_write_discarded]); [RecoveryState], [RecoveryThm]
    (the Guard's recovery state: [release_then_claim], [serve_then_claim]); [Recover] (a core
    from a mirror: [failover_keeps_blocks], [recovery_restores_blocks]).

    The service.  [Protocol], [ProtocolThm] (messages, grants, frames; [service/protocol.py]:
    [grant_is_a_tiling]); [Channels], [ChannelsThm] ([runtime/control_channels.py]:
    [channel_accounts], [descriptors_accounted]); [Guard] ([service/guard.py]) with its abstract
    contract [GuardOwn], that it refines it [GuardSafe] ([ownership_kept]), that it answers
    [GuardLive] ([commands_answered]), [GuardDemo]; [Session], [SessionThm], [SessionDemo] (a
    claim from its connection to its release, client and handler: [session_safe]); [Service],
    [ServiceThm], [ServiceDemo] (registry and daemon of [service/server.py]: [main_gives_back],
    [registry_closes], [pools_accounted]); [Daemon] (probes of [health.py], the command line:
    [pool_sizes_exact]); [PoolFiles], [PoolFilesThm], [PoolFilesDemo] with [Interact]
    ([service/memory.py], purges: [pool_files_safe]); [Mapping], [MappingThm]
    ([service/memmap.py]: [map_pool_exact]).

    Annotations.  [Tracing], [TracingThm] ([_nvtx]): [traces_are_harmless],
    [payloads_isolated].

    ** How they interact

    A core is built over pools ([Startup.new_core]); its tiers call one another through the
    recursion [Core.calls]; what they submit runs in the progress thread and comes back through
    [poll_completed].  Every change of a published block is projected and put into the journal
    ([Mirror.observe_publish]), which the Guard's mirror reads ([RecoveryState]).  When the claimant
    dies, the Guard promotes a core from its mirror ([Guard], [Recover]) and later hands the
    records back past the pool ([Snapshot]); the next claim reads them ([Session],
    [Startup.claim_guarded_pool]).  The Guards are the registry's ([Service]), their pools' files
    [PoolFiles]'s.  The classes named above are where one file's theorems are proved against
    another's promise: the pools against any eviction decider and any waiter callback, the file
    tier against anything that keeps the pools' invariant, the progress thread against any agent,
    clock and backends, the Guard against any core.

    ** Bounds and fuel

    Loops without a structural measure take one; running out raises "out of fuel", an exit the
    invariants cover like any other, and where the code's result is at stake the fuel is shown to
    be enough:
    - [Pools.select_victims], [Disk.disk_evict]: a turn takes a live key of the queue that was
      not yielded yet, so the live keys and one more ([allocate_slots_safe] leaves no exception
      but [overflow]'s);
    - [Journal.drain]: frames in the ring ([drain_complete]); [RecoveryState.ring_frames]: the
      frames of a full ring, eight bytes each at least, and one read more;
    - [Snapshot.parse_frames]: bytes of the region; [Protocol.receive_loop]: the bytes asked for
      (each call brings one); [PoolFiles.write_pages]: likewise; [Daemon.count_digits]: the
      binary logarithm;
    - [LocalDram.resume_pass]: the waiters there are, as in the code; [Core.calls]: a depth of
      nested capacity waits, an argument of every theorem;
    - [Progress] and [ProgressEnd]: turns of the thread, [cleanup_turns] from the cleanup's own
      timeout; [GuardLive.rounds], [Session.beats], [Session.await_release], [Startup.kvcr_life],
      [Channels.channel_life], [Service.service_life], [Tracing.trace_life]: as many steps as one
      likes, since these run until they are stopped;
    - [Channels.MAX_RECV_BATCH] is the code's own.

    ** Not modelled, and why

    - Telemetry (gauges, durations, counters, [get_stats]), key history and query diagnostics,
      and logging: nothing else reads them; [abort] is a stub that answers False.
    - What is third party: NIXL, msgspec, ZMQ, NVTX, NumPy, the kernel, [argparse], [urlsplit],
      the HTTP and socket servers.  The records of options and the typing protocols are data
      without operations, and the other methods of [api.py] hand their arguments to the core.
    - Notification fields of a type other than the one written (a number for a flag).  Sets are
      iterated in the order of [elements].  When a turn of an operation raises, the fields that
      turn had already changed are as before it.
    - The capacity watermarks, which a core computes once as ceilings of float products, are an
      argument ([env_watermarks]).
    - Handler threads that race the close of the service meet it at the Guard ([GuardSafe]);
      [Service] runs their calls before the close begins.
    - Access by a single index and the buffer exports of a mapping; the descriptive contexts
      with which an operation's annotation starts. *)

From Stdlib Require Import ZArith Lia.
From Stdlib Require Export SpecFloat.
From stdpp Require Export base gmap sets list strings option numbers sorting.

(** ** Python exceptions and results *)

(** The exception classes the modelled code raises or catches.  The payload is
    the message (or the part of it that does not depend on formatting). *)
Inductive exn : Type :=
  | ValueError (msg : string)
  | TypeError (msg : string)
  | RuntimeError (msg : string)
  | KeyError (msg : string)
  | OverflowError (msg : string)
  | StructError (msg : string)
  | DecodeError (msg : string)
  | EOFError
  | RecoveryJournalError (msg : string)
  | RecoveryJournalTornError (msg : string)
  | RecoveryMirrorError (msg : string)
  | KVCRServiceError (msg : string)
  | KVCRGuardProtocolError (msg : string)
  | KVCRMsgFramingError (msg : string)
  | RemoteAgentCleanupError (msg : string)
  | OSError (errno : Z)
  | CallbackError (msg : string).

Inductive result (A : Type) : Type :=
  | Ret (a : A)
  | Raise (e : exn).
Arguments Ret {_} _.
Arguments Raise {_} _.

#[export] Instance exn_eq_dec : EqDecision exn.
Proof. solve_decision. Defined.
#[export] Instance result_eq_dec `{EqDecision A} : EqDecision (result A).
Proof. solve_decision. Defined.

#[export] Instance result_ret : MRet result := @Ret.
#[export] Instance result_bind : MBind result := λ A B f m,
  match m with Ret a => f a | Raise e => Raise e end.

Definition is_ret {A} (r : result A) : bool :=
  match r with Ret _ => true | Raise _ => false end.

(** [if c: raise e] *)
Definition guard_raise (c : bool) (e : exn) : result unit :=
  if c then Raise e else Ret tt.

(** ** State and exceptions

    A Python statement changes objects and may raise; the changes made before
    the exception stay.  [M S A] is a state transformer whose final state is
    returned on both exits. *)
Definition M (S A : Type) : Type := S → result A * S.

#[export] Instance M_ret S : MRet (M S) := λ A a s, (Ret a, s).
#[export] Instance M_bind S : MBind (M S) := λ A B f m s,
  match m s with
  | (Ret a, s') => f a s'
  | (Raise e, s') => (Raise e, s')
  end.

Definition raise {S A} (e : exn) : M S A := λ s, (Raise e, s).
Definition get {S} : M S S := λ s, (Ret s, s).
Definition gets {S A} (f : S → A) : M S A := λ s, (Ret (f s), s).
Definition put {S} (s : S) : M S unit := λ _, (Ret tt, s).
Definition modify {S} (f : S → S) : M S unit := λ s, (Ret tt, f s).
Definition lift {S A} (r : result A) : M S A := λ s, (r, s).

(** [try: m except Exception: h] and [try: m finally: f]; an exception of the
    finaliser replaces the pending one. *)
Definition try_except {S A} (m : M S A) (h : exn → M S A) : M S A := λ s,
  match m s with
  | (Ret a, s') => (Ret a, s')
  | (Raise e, s') => h e s'
  end.
Definition try_finally {S A} (m : M S A) (f : M S unit) : M S A := λ s,
  match m s with
  | (r, s') => match f s' with
               | (Ret _, s'') => (r, s'')
               | (Raise e, s'') => (Raise e, s'')
               end
  end.

(** [for x in l: f(x)] *)
Fixpoint for_each {S A} (l : list A) (f : A → M S unit) : M S unit :=
  match l with
  | [] => mret tt
  | x :: l => f x ;; for_each l f
  end.

(** [for x in l: acc = f(acc, x)] *)
Fixpoint fold_each {S A B} (f : B → A → M S B) (acc : B) (l : list A) : M S B :=
  match l with
  | [] => mret acc
  | x :: l => acc' ← f acc x; fold_each f acc' l
  end.

(** ** Triples over [M] *)

Definition triple {S A} (P : S → Prop) (m : M S A)
    (Q : A → S → Prop) (E : exn → S → Prop) : Prop :=
  ∀ s, P s →
    match m s with
    | (Ret a, s') => Q a s'
    | (Raise e, s') => E e s'
    end.

Section Triples.
Context {S : Type}.
Implicit Types (P : S → Prop) (E : exn → S → Prop).

Lemma triple_conseq {A} P P' (m : M S A) Q Q' E E' :
  triple P' m Q' E' → (∀ s, P s → P' s) → (∀ a s, Q' a s → Q a s) →
  (∀ e s, E' e s → E e s) → triple P m Q E.
Proof.
  intros Hm HP HQ HE s Hs. specialize (Hm s (HP s Hs)).
  destruct (m s) as [[a|e] s']; auto.
Qed.

Lemma triple_ret {A} (a : A) P (Q : A → S → Prop) E :
  (∀ s, P s → Q a s) → triple P (mret a) Q E.
Proof. intros H s Hs. by apply H. Qed.

Lemma triple_raise {A} e P (Q : A → S → Prop) E :
  (∀ s, P s → E e s) → triple P (raise e) Q E.
Proof. intros H s Hs. by apply H. Qed.

Lemma triple_bind {A B} (m : M S A) (f : A → M S B) P R Q E :
  triple P m R E → (∀ a, triple (R a) (f a) Q E) → triple P (m ≫= f) Q E.
Proof.
  intros Hm Hf s Hs. unfold mbind, M_bind. specialize (Hm s Hs).
  destruct (m s) as [[a|e] s']; [by apply Hf | done].
Qed.

Lemma triple_gets {A} (f : S → A) P (Q : A → S → Prop) E :
  (∀ s, P s → Q (f s) s) → triple P (gets f) Q E.
Proof. intros H s Hs. by apply H. Qed.

Lemma triple_modify (f : S → S) P (Q : unit → S → Prop) E :
  (∀ s, P s → Q tt (f s)) → triple P (modify f) Q E.
Proof. intros H s Hs. by apply H. Qed.

Lemma triple_for_each {A} (l : list A) (f : A → M S unit)
    (I : list A → S → Prop) E :
  (∀ x r, triple (I (x :: r)) (f x) (λ _, I r) E) →
  triple (I l) (for_each l f) (λ _, I []) E.
Proof.
  intros Hf. induction l as [|x l IH]; simpl.
  - by apply triple_ret.
  - eapply triple_bind; [apply Hf | intros []; apply IH].
Qed.

Lemma triple_try_finally {A} (m : M S A) f P (Q R : A → S → Prop) E :
  triple P m R (λ e s, ∀ s' r, f s = (r, s') → E e s' ∧
    ∀ e', r = Raise e' → E e' s') →
  (∀ a, triple (R a) f (λ _, Q a) E) →
  triple P (try_finally m f) Q E.
Proof.
  intros Hm Hf s Hs. unfold try_finally. specialize (Hm s Hs).
  destruct (m s) as [[a|e] s'].
  - specialize (Hf a s' Hm). destruct (f s') as [[u|e] s'']; done.
  - destruct (f s') as [[u|e'] s''] eqn:Ef; destruct (Hm _ _ eq_refl); eauto.
Qed.
End Triples.

(** ** Weakest preconditions: symbolic execution of [M] *)

Definition wp {S A} (m : M S A) (Q : A → S → Prop) (E : exn → S → Prop) (s : S) : Prop :=
  match m s with
  | (Ret a, s') => Q a s'
  | (Raise e, s') => E e s'
  end.

Section WP.
Context {S : Type}.
Implicit Types (s : S) (E : exn → S → Prop).

Lemma wp_ret {A} (a : A) Q E s : Q a s → wp (mret a) Q E s.
Proof. done. Qed.
Lemma wp_raise {A} e (Q : A → S → Prop) E s : E e s → wp (raise e) Q E s.
Proof. done. Qed.
Lemma wp_gets {A} (f : S → A) Q E s : Q (f s) s → wp (gets f) Q E s.
Proof. done. Qed.
Lemma wp_get (Q : S → S → Prop) E s : Q s s → wp get Q E s.
Proof. done. Qed.
Lemma wp_modify f Q E s : Q tt (f s) → wp (modify f) Q E s.
Proof. done. Qed.
Lemma wp_bind {A B} (m : M S A) (f : A → M S B) Q E s :
  wp m (λ a, wp (f a) Q E) E s → wp (m ≫= f) Q E s.
Proof. unfold wp, mbind, M_bind. by destruct (m s) as [[a|e] s']. Qed.
Lemma wp_mono {A} (m : M S A) Q Q' E E' s :
  wp m Q' E' s → (∀ a s', Q' a s' → Q a s') → (∀ e s', E' e s' → E e s') → wp m Q E s.
Proof. unfold wp. intros Hm HQ HE. destruct (m s) as [[a|e] s']; auto. Qed.
Lemma wp_use {A} P (m : M S A) Q Q' E E' s :
  triple P m Q' E' → P s → (∀ a s', Q' a s' → Q a s') → (∀ e s', E' e s' → E e s') →
  wp m Q E s.
Proof. intros Hm Hs. apply wp_mono. by apply Hm. Qed.
Lemma triple_wp {A} P (m : M S A) Q E : (∀ s, P s → wp m Q E s) → triple P m Q E.
Proof. done. Qed.
Lemma wp_try_except {A} (m : M S A) h Q E s :
  wp m Q (λ e, wp (h e) Q E) s → wp (try_except m h) Q E s.
Proof. unfold wp, try_except. by destruct (m s) as [[a|e] s']. Qed.

Lemma wp_try_finally {A} (m : M S A) f Q E s :
  wp m (λ a, wp f (λ _, Q a) E) (λ e, wp f (λ _, E e) E) s → wp (try_finally m f) Q E s.
Proof.
  unfold wp, try_finally. destruct (m s) as [[a|e] s']; by destruct (f s') as [[u|e'] s''].
Qed.

(** Loops with an invariant on the elements still to visit. *)
Lemma wp_for_each {A} (l : list A) f (I : list A → S → Prop) Q E s :
  I l s → (∀ x r s, I (x :: r) s → wp (f x) (λ _, I r) E s) → (∀ s, I [] s → Q tt s) →
  wp (for_each l f) Q E s.
Proof.
  intros Hs Hf HQ. revert s Hs. induction l as [|x l IH]; intros s Hs; simpl.
  - by apply wp_ret, HQ.
  - apply wp_bind. eapply wp_mono; [by apply Hf | | done]. intros [] s' Hs'. by apply IH.
Qed.
Lemma wp_fold_each {A B} (f : B → A → M S B) (l : list A) acc (I : B → list A → S → Prop) Q E s :
  I acc l s → (∀ acc x r s, I acc (x :: r) s → wp (f acc x) (λ acc', I acc' r) E s) →
  (∀ acc s, I acc [] s → Q acc s) → wp (fold_each f acc l) Q E s.
Proof.
  intros Hs Hf HQ. revert acc s Hs. induction l as [|x l IH]; intros acc s Hs; simpl.
  - by apply wp_ret, HQ.
  - apply wp_bind. eapply wp_mono; [by apply Hf | | done]. intros acc' s' Hs'. by apply IH.
Qed.
End WP.

(** Execute the next statements of an operation whose effect is explicit. *)
Ltac wp :=
  repeat (match goal with
  | |- wp (_ ≫= _) _ _ _ => apply wp_bind
  | |- wp (mret _) _ _ _ => apply wp_ret
  | |- wp (raise _) _ _ _ => apply wp_raise
  | |- wp (gets _) _ _ _ => apply wp_gets
  | |- wp get _ _ _ => apply wp_get
  | |- wp (modify _) _ _ _ => apply wp_modify
  end; cbn beta iota).

(** An operation keeps [I] on both exits. *)
Definition preserves {S A} (I : S → Prop) (m : M S A) : Prop :=
  triple I m (λ _, I) (λ _, I).

Section Preserves.
Context {S : Type} (I : S → Prop).

Lemma preserves_ret {A} (a : A) : preserves I (mret a).
Proof. by intros s Hs. Qed.
Lemma preserves_raise {A} e : preserves I (raise (A:=A) e).
Proof. by intros s Hs. Qed.
Lemma preserves_gets {A} (f : S → A) : preserves I (gets f).
Proof. by intros s Hs. Qed.
Lemma preserves_lift {A} (r : result A) : preserves I (lift r).
Proof. intros s Hs. unfold lift. by destruct r. Qed.
Lemma preserves_bind {A B} (m : M S A) (f : A → M S B) :
  preserves I m → (∀ a, preserves I (f a)) → preserves I (m ≫= f).
Proof. intros Hm Hf. eapply triple_bind; [apply Hm | apply Hf]. Qed.
Lemma preserves_for_each {A} (l : list A) (f : A → M S unit) :
  (∀ x, preserves I (f x)) → preserves I (for_each l f).
Proof. intros Hf. apply (triple_for_each l f (λ _, I)). intros x r. apply Hf. Qed.
Lemma preserves_fold_each {A B} (f : B → A → M S B) acc (l : list A) :
  (∀ acc x, preserves I (f acc x)) → preserves I (fold_each f acc l).
Proof.
  intros Hf. revert acc. induction l as [|x l IH]; intros acc; simpl; [apply preserves_ret|].
  apply preserves_bind; [apply Hf|intros acc'; apply IH].
Qed.
Lemma preserves_try_except {A} (m : M S A) h :
  preserves I m → (∀ e, preserves I (h e)) → preserves I (try_except m h).
Proof.
  intros Hm Hh s Hs. unfold try_except. specialize (Hm s Hs).
  destruct (m s) as [[a|e] s']; [done | by apply Hh].
Qed.
Lemma preserves_try_finally {A} (m : M S A) f :
  preserves I m → preserves I f → preserves I (try_finally m f).
Proof.
  intros Hm Hf s Hs. unfold try_finally. specialize (Hm s Hs).
  destruct (m s) as [[a|e] s']; specialize (Hf s' Hm);
    destruct (f s') as [[u|e'] s'']; done.
Qed.
End Preserves.

Create HintDb kvcr discriminated.
#[export] Hint Resolve preserves_ret preserves_raise preserves_gets
  preserves_lift preserves_try_except preserves_try_finally : kvcr.

(** Split the monadic structure of an operation whose parts keep an invariant. *)
Ltac preserve :=
  repeat first
    [ apply preserves_ret | apply preserves_raise | apply preserves_gets
    | apply preserves_lift
    | progress (eauto 2 with kvcr nocore)
    | apply preserves_bind; [| intros ? ]
    | apply preserves_for_each; intros ?
    | apply preserves_try_except; [| intros ? ]
    | apply preserves_try_finally
    | case_match ].

(** Only the syntax of the statements is followed: parts are left as goals. *)
Ltac statements :=
  repeat (match goal with
  | |- preserves _ (_ ≫= _) => apply preserves_bind; [|intros ?]
  | |- preserves _ (mret _) => apply preserves_ret
  | |- preserves _ (raise _) => apply preserves_raise
  | |- preserves _ (gets _) => apply preserves_gets
  | |- preserves _ (lift _) => apply preserves_lift
  | |- preserves _ (try_except _ _) => apply preserves_try_except; [|intros ?]
  | |- preserves _ (try_finally _ _) => apply preserves_try_finally
  | |- preserves _ (for_each _ _) => apply preserves_for_each; intros ?
  | |- preserves _ (fold_each _ _ _) => apply preserves_fold_each; intros ? ?
  | |- preserves _ (if _ then _ else _) => case_match
  | |- preserves _ (match _ with _ => _ end) => case_match
  end; cbn beta iota zeta).

(** ** Lists *)

Lemma submseteq_Forall {A} (P : A → Prop) (l k : list A) :
  l ⊆+ k → Forall P k → Forall P l.
Proof.
  intros [k' ->]%submseteq_Permutation. by intros [? _]%Forall_app.
Qed.

Lemma submseteq_NoDup {A} (l k : list A) : l ⊆+ k → NoDup k → NoDup l.
Proof.
  intros [k' ->]%submseteq_Permutation. by intros [? _]%list.NoDup_app.
Qed.

Lemma filter_submseteq {A} (P : A → Prop) `{!∀ x, Decision (P x)} (l : list A) :
  filter P l ⊆+ l.
Proof.
  induction l as [|x l IH]; [done|]. rewrite filter_cons.
  case_decide; [by apply submseteq_skip | by apply submseteq_cons].
Qed.

Lemma StronglySorted_weaken {A} (R R' : relation A) l :
  (∀ x y, R x y → R' x y) → StronglySorted R l → StronglySorted R' l.
Proof.
  intros HR. induction 1 as [|x l Hl IH Hx]; constructor; [done|].
  eapply list.Forall_impl; [exact Hx|]. auto.
Qed.

Lemma mapM_ext_Forall {A B} (f g : A → option B) (l : list A) :
  Forall (λ x, f x = g x) l → mapM f l = mapM g l.
Proof.
  induction 1 as [|x l Hx _ IH]; [done|]. unfold mapM in *. simpl. rewrite Hx.
  destruct (g x); simpl; [|done]. by rewrite IH.
Qed.

(** A symmetric relation between all pairs does not depend on the order. *)
Lemma StronglySorted_perm_sym {A} (R : relation A) l l' :
  (∀ x y, R x y → R y x) → l ≡ₚ l' → StronglySorted R l → StronglySorted R l'.
Proof.
  intros Hsym Hp. induction Hp as [|x l l' Hp IH|x y l|l1 l2 l3 _ IH1 _ IH2]; auto.
  - inversion 1 as [|? ? Hs Hf]; subst. constructor; [auto|]. by rewrite <- Hp.
  - inversion 1 as [|? ? Hs Hf]; subst. inversion Hs as [|? ? Hs' Hf']; subst.
    inversion Hf; subst. constructor; [by constructor|]. by constructor; [apply Hsym|].
Qed.

Lemma StronglySorted_lookup {A} (R : relation A) l i j x y :
  StronglySorted R l → i < j → l !! i = Some x → l !! j = Some y → R x y.
Proof.
  intros Hs. revert i j. induction Hs as [|z l Hs IH Hf]; intros i j Hij Hi Hj; [done|].
  destruct j as [|j]; [lia|]. destruct i as [|i]; simplify_eq/=.
  - rewrite list.Forall_forall in Hf. apply Hf. by eapply list_elem_of_lookup_2.
  - apply (IH i j); auto with lia.
Qed.

Lemma map_to_list_omap {A B} (f : A → option B) (m : gmap string A) :
  map_to_list (omap f m) ≡ₚ omap (λ x, pair x.1 <$> f x.2) (map_to_list m).
Proof.
  induction m as [|k a m Hk IH] using map_ind; [by rewrite omap_empty, !map_to_list_empty|].
  rewrite (map_to_list_insert m) by done. simpl. destruct (f a) as [b|] eqn:Hf; simpl.
  - rewrite (omap_insert_Some _ _ _ _ b) by done. rewrite map_to_list_insert; [by rewrite IH|].
    by rewrite lookup_omap, Hk.
  - rewrite omap_insert_None by done. rewrite delete_id; [done|]. by rewrite lookup_omap, Hk.
Qed.
