(* ===== verification/PyFloat.v ===== *)
(** * Python's [float]

    Clock readings, deadlines and eviction scores are Python floats, IEEE-754
    binary64 numbers.  They are modelled by the Standard Library's executable
    specification floats at precision 53 and maximal exponent 1024, with the
    operations the code uses and the facts about their comparison that the
    queue and deadline theorems need. *)

From Stdlib Require Import ZArith Lia.
From S2P Require Import Prelude.

Notation float := spec_float (only parsing).
#[export] Instance float_eq_dec : EqDecision float.
Proof. solve_decision. Defined.

Definition fadd : float → float → float := SFadd 53 1024.
Definition fsub : float → float → float := SFsub 53 1024.
Definition fmul : float → float → float := SFmul 53 1024.
Definition fdiv : float → float → float := SFdiv 53 1024.

Definition f_isfinite (x : float) : bool :=
  match x with S754_zero _ | S754_finite _ _ _ => true | _ => false end.

(** [float(n)]; the value is [None] where Python raises OverflowError. *)
Definition f_of_Z_inf (n : Z) : float := binary_normalize 53 1024 n 0 false.
Definition f_of_Z (n : Z) : option float :=
  if f_isfinite (f_of_Z_inf n) then Some (f_of_Z_inf n) else None.

Definition fzero : float := S754_zero false.

(** [math.ulp]: the least subnormal at zero, otherwise one unit in the last
    place of the magnitude. *)
Definition f_ulp (x : float) : float :=
  match x with
  | S754_zero _ => S754_finite false 1 (-1074)
  | S754_nan => S754_nan
  | S754_infinity _ => S754_infinity false
  | _ => SFulp 53 1024 x
  end.

(** [x == y], [x < y], [x >= y] *)
Definition feqb : float → float → bool := SFeqb.
Definition fltb : float → float → bool := SFltb.
Definition fgeb (x y : float) : bool := SFleb y x.

(** Finite floats are ordered lexicographically on sign, exponent and
    mantissa: [frank] is the triple compared. *)
Definition frank (x : float) : Z * Z * Z :=
  match x with
  | S754_zero _ => (0, 0, 0)%Z
  | S754_finite false m e => (1, e, Z.pos m)%Z
  | S754_finite true m e => (-1, - e, Z.neg m)%Z
  | _ => (0, 0, 0)%Z
  end.

Definition rank_lt (a b : Z * Z * Z) : Prop :=
  match a, b with
  | (a1, a2, a3), (b1, b2, b3) =>
      (a1 < b1 ∨ a1 = b1 ∧ (a2 < b2 ∨ a2 = b2 ∧ a3 < b3))%Z
  end.

Lemma rank_lt_irrefl a : ¬ rank_lt a a.
Proof. destruct a as [[??]?]; simpl; lia. Qed.
Lemma rank_lt_trans a b c : rank_lt a b → rank_lt b c → rank_lt a c.
Proof. destruct a as [[??]?], b as [[??]?], c as [[??]?]; simpl; lia. Qed.
Lemma rank_lt_total a b : rank_lt a b ∨ a = b ∨ rank_lt b a.
Proof.
  destruct a as [[x y] z], b as [[x' y'] z']; simpl.
  destruct (Z.lt_trichotomy x x') as [?|[->|?]]; [lia| |lia].
  destruct (Z.lt_trichotomy y y') as [?|[->|?]]; [lia| |lia].
  destruct (Z.lt_trichotomy z z') as [?|[->|?]]; [lia|auto|lia].
Qed.

Lemma fcompare_rank x y :
  f_isfinite x = true → f_isfinite y = true →
  ∃ c, SFcompare x y = Some c ∧
    match c with
    | Lt => rank_lt (frank x) (frank y)
    | Eq => frank x = frank y
    | Gt => rank_lt (frank y) (frank x)
    end.
Proof.
  intros Hx Hy.
  destruct x as [sx|sx| |[] mx ex], y as [sy|sy| |[] my ey];
    simpl in *; try discriminate; eexists; (split; [reflexivity|]); simpl;
    try lia; try reflexivity.
  - destruct (Z.compare_spec ex ey) as [->|?|?]; simpl; [|lia|lia].
    change (Pos.compare_cont Eq mx my) with (Pos.compare mx my).
    destruct (Pos.compare_spec mx my) as [->|?|?]; simpl; auto; lia.
  - destruct (Z.compare_spec ex ey) as [->|?|?]; simpl; [|lia|lia].
    change (Pos.compare_cont Eq mx my) with (Pos.compare mx my).
    destruct (Pos.compare_spec mx my) as [->|?|?]; simpl; auto; lia.
Qed.

Lemma feqb_rank x y : f_isfinite x = true → f_isfinite y = true →
  feqb x y = true ↔ frank x = frank y.
Proof.
  intros Hx Hy. destruct (fcompare_rank x y Hx Hy) as (c & Hc & H).
  unfold feqb, SFeqb. rewrite Hc. destruct c; split; try done.
  - intros E. rewrite E in H. by apply rank_lt_irrefl in H.
  - intros E. rewrite E in H. by apply rank_lt_irrefl in H.
Qed.

Lemma fltb_rank x y : f_isfinite x = true → f_isfinite y = true →
  fltb x y = true ↔ rank_lt (frank x) (frank y).
Proof.
  intros Hx Hy. destruct (fcompare_rank x y Hx Hy) as (c & Hc & H).
  unfold fltb, SFltb. rewrite Hc. destruct c; split; try done.
  - rewrite H. intros Hr. by apply rank_lt_irrefl in Hr.
  - intros Hr. by destruct (rank_lt_irrefl _ (rank_lt_trans _ _ _ H Hr)).
Qed.

(** Subtracting a zero leaves a finite float as it is. *)
Lemma fsub_zero_r x s : f_isfinite x = true → (∀ b, x ≠ S754_zero b) →
  fsub x (S754_zero s) = x.
Proof. destruct x; simpl; try done. intros _ H. by destruct (H s0). Qed.
