(* ===== verification/Types.v ===== *)
(** * Value types ([src/src/kvcr/types.py]) and label strings

    Enumerations and structs keep the source's constructor and field names.  A
    [BlockKey] is a Python [bytes] value and a label a [str]; both are
    [string], the type of byte sequences. *)

From Stdlib Require Import ZArith Lia Ascii.
From S2P Require Import Prelude PyFloat.

Notation BlockKey := string (only parsing).
Notation label := string (only parsing).

Inductive CacheTier := FW_G1 | FW_G2 | LOCAL_G2 | REMOTE_G2 | G3.
#[export] Instance CacheTier_eq_dec : EqDecision CacheTier.
Proof. solve_decision. Defined.
Definition tier_code (t : CacheTier) : nat :=
  match t with FW_G1 => 0 | FW_G2 => 1 | LOCAL_G2 => 2 | REMOTE_G2 => 3 | G3 => 4 end.
Definition tier_decode (n : nat) : option CacheTier :=
  [FW_G1; FW_G2; LOCAL_G2; REMOTE_G2; G3] !! n.
#[export] Instance CacheTier_countable : Countable CacheTier.
Proof. refine (inj_countable tier_code tier_decode _). by intros []. Defined.

Inductive PlacementAction := KEEP | DROP | COPY_TO | MOVE_TO.
#[export] Instance PlacementAction_eq_dec : EqDecision PlacementAction.
Proof. solve_decision. Defined.

Definition PlacementDecision : Type := PlacementAction * option CacheTier.

Record BlockMeta := {
  block_key : BlockKey;
  size_bytes : Z;
  meta_access_count : Z;
  meta_last_access : option float;
  resident_tiers : gset CacheTier;
  meta_position : Z }.

Record PlacementFailure := {
  attempted : PlacementDecision;
  failure_source : CacheTier;
  failure_reason : string;
  failure_count : Z }.

Inductive OpEntryStatus := SUCCESS | DROPPED | FAILED.
#[export] Instance OpEntryStatus_eq_dec : EqDecision OpEntryStatus.
Proof. solve_decision. Defined.

Record MemoryRef := {
  end_point_name : string;
  ref_label : label;
  element_index : Z }.

Record OpEntryResult := {
  status : OpEntryStatus;
  descriptors : option (list MemoryRef);
  release_handle : option Z }.

Definition entry_success (r : OpEntryResult) : bool :=
  bool_decide (status r = SUCCESS).

Inductive QueryStatus := HIT | FETCHING | FETCHABLE | MISS.

Record InventoryEvent := {
  ev_keys : list BlockKey;
  ev_tier : CacheTier;
  ev_removed : bool }.

(** ** [str.partition(":")]

    The text before the first colon, whether there is one, and the text after
    it. *)
Fixpoint partition_colon (s : string) : string * bool * string :=
  match s with
  | "" => ("", false, "")
  | String c s' =>
      if decide (c = ":"%char) then ("", true, s')
      else let '(p, sep, part) := partition_colon s' in (String c p, sep, part)
  end.

(** [label.partition(":")[0]]: the pool a label belongs to. *)
Definition pool_of (l : label) : string := (partition_colon l).1.1.

Definition has_colon (s : string) : bool := (partition_colon s).1.2.

Lemma partition_colon_join s :
  let '(p, sep, part) := partition_colon s in
  s = if sep then p +:+ String ":" part else p.
Proof.
  induction s as [|c s IH]; simpl; [done|].
  case_decide as Hc; [by rewrite Hc|].
  destruct (partition_colon s) as [[p sep] part]. destruct sep; by rewrite IH at 1.
Qed.

Lemma pool_of_no_colon s : has_colon s = false → pool_of s = s.
Proof.
  unfold has_colon, pool_of. pose proof (partition_colon_join s) as H.
  destruct (partition_colon s) as [[p sep] part]. simpl. by intros ->.
Qed.

Lemma has_colon_pool_of s : has_colon (pool_of s) = false.
Proof.
  unfold has_colon, pool_of. induction s as [|c s IH]; simpl; [done|].
  case_decide as Hc; [done|].
  destruct (partition_colon s) as [[p sep] part]. simpl in *.
  case_decide; [done|]. by destruct (partition_colon p) as [[??]?].
Qed.
