(* ===== verification/PolicyRuntime.v ===== *)
(** * Policies and the eviction queue

    [src/src/kvcr/policy.py] and [src/src/kvcr/runtime/policy_runtime.py]: the
    built-in policies, the invoker that contains what a custom policy may
    return or raise, and the eviction queue with its lazily invalidated heap and
    its candidate generator. *)

From Stdlib Require Import ZArith Lia.
From S2P Require Import Prelude PyFloat Types.

(** ** What a policy can answer *)

(** A policy method is user code: it returns some object or raises. *)
Inductive py_call (A : Type) := Returned (a : A) | Raised.
Arguments Returned {_} _.
Arguments Raised {_}.

(** The objects the invoker distinguishes: an [int], a [float], or anything
    else (a [bool] or a [str], say) as a score; a (action, tier) pair or
    anything else as a decision. *)
Inductive py_score := PyInt (n : Z) | PyFloat (x : float) | PyOtherScore.
Inductive py_decision :=
  | PyPair (a : PlacementAction) (t : option CacheTier)
  | PyOtherDecision.

(** The calls a policy has observed; a policy object may keep state, so its
    answers are functions of this history. *)
Inductive PolicyCall :=
  | CallDecideIngest (meta : BlockMeta) (source : CacheTier) (required_local : bool)
  | CallEvictionScore (meta : BlockMeta) (source : CacheTier)
  | CallDecideEviction (meta : BlockMeta) (source : CacheTier)
  | CallDecideRecovery (meta : BlockMeta) (failure : PlacementFailure)
  | CallOnIngest (meta : BlockMeta) (source : CacheTier)
  | CallOnRemove (meta : BlockMeta)
  | CallOnAlign (blocks : list BlockMeta) (use_current_time : bool).

Record KVCachePolicy := {
  required_tiers : gset CacheTier;
  p_decide_ingest : list PolicyCall → BlockMeta → CacheTier → bool → py_call py_decision;
  p_eviction_score : list PolicyCall → BlockMeta → CacheTier → py_call py_score;
  p_decide_eviction : list PolicyCall → BlockMeta → CacheTier → py_call py_decision;
  p_decide_recovery : list PolicyCall → BlockMeta → PlacementFailure → py_call py_decision }.

(** ** Built-in policies *)

Definition base_decide_recovery (_ : list PolicyCall) (_ : BlockMeta)
    (_ : PlacementFailure) : py_call py_decision := Returned (PyPair DROP None).

Definition fifo_decide_ingest (_ : list PolicyCall) (_ : BlockMeta)
    (_ : CacheTier) (_ : bool) : py_call py_decision := Returned (PyPair KEEP None).
Definition fifo_eviction_score (_ : list PolicyCall) (_ : BlockMeta)
    (_ : CacheTier) : py_call py_score := Returned (PyFloat fzero).
Definition fifo_decide_eviction (_ : list PolicyCall) (_ : BlockMeta)
    (_ : CacheTier) : py_call py_decision := Returned (PyPair DROP None).

Definition FIFOPolicy : KVCachePolicy := {|
  required_tiers := ∅;
  p_decide_ingest := fifo_decide_ingest;
  p_eviction_score := fifo_eviction_score;
  p_decide_eviction := fifo_decide_eviction;
  p_decide_recovery := base_decide_recovery |}.

Definition g3_decide_eviction (h : list PolicyCall) (meta : BlockMeta)
    (source : CacheTier) : py_call py_decision :=
  if decide (source = LOCAL_G2) then Returned (PyPair MOVE_TO (Some G3))
  else fifo_decide_eviction h meta source.

Definition G3FIFOPolicy : KVCachePolicy := {|
  required_tiers := required_tiers FIFOPolicy ∪ {[ G3 ]};
  p_decide_ingest := fifo_decide_ingest;
  p_eviction_score := fifo_eviction_score;
  p_decide_eviction := g3_decide_eviction;
  p_decide_recovery := base_decide_recovery |}.

(** -1.0 *)
Definition f_minus_one : float := SFopp (f_of_Z_inf 1).

(** [timestamp - max(meta.position, 0) * ulp(timestamp)]; the product converts
    the position to a float, which raises for a position beyond its range. *)
Definition lru_eviction_score (_ : list PolicyCall) (meta : BlockMeta)
    (_ : CacheTier) : py_call py_score :=
  let timestamp := default f_minus_one (meta_last_access meta) in
  match f_of_Z (Z.max (meta_position meta) 0) with
  | Some p => Returned (PyFloat (fsub timestamp (fmul p (f_ulp timestamp))))
  | None => Raised
  end.

Definition LRUPolicy : KVCachePolicy := {|
  required_tiers := ∅;
  p_decide_ingest := fifo_decide_ingest;
  p_eviction_score := lru_eviction_score;
  p_decide_eviction := fifo_decide_eviction;
  p_decide_recovery := base_decide_recovery |}.

Definition G3LRUPolicy : KVCachePolicy := {|
  required_tiers := required_tiers LRUPolicy ∪ {[ G3 ]};
  p_decide_ingest := fifo_decide_ingest;
  p_eviction_score := lru_eviction_score;
  p_decide_eviction := g3_decide_eviction;
  p_decide_recovery := base_decide_recovery |}.

(** ** [_PolicyInvoker]

    Each method takes what the policy call did and returns what KVCR acts on. *)

Definition invoke_eviction_score (call : py_call py_score)
    (previous_score : option float) : result (option float) :=
  match call with
  | Raised => Ret previous_score
  | Returned PyOtherScore => Ret previous_score
  | Returned (PyFloat x) => Ret (if f_isfinite x then Some x else previous_score)
  | Returned (PyInt n) =>
      (* math.isfinite converts the integer, outside the try block *)
      match f_of_Z n with
      | Some x => Ret (Some x)
      | None => Raise (OverflowError "int too large to convert to float")
      end
  end.

Definition invoke_decide_ingest (call : py_call py_decision)
    (required_local : bool) : PlacementDecision :=
  match call with
  | Raised => (KEEP, None)
  | Returned (PyPair KEEP None) => (KEEP, None)
  | Returned (PyPair DROP None) =>
      if required_local then (KEEP, None) else (DROP, None)
  | Returned _ => (KEEP, None)
  end.

Definition invoke_decide_eviction (allowed_eviction_moves : gset (CacheTier * CacheTier))
    (call : py_call py_decision) (source : CacheTier) : PlacementDecision :=
  match call with
  | Raised => (KEEP, None)
  | Returned (PyPair KEEP None) => (KEEP, None)
  | Returned (PyPair DROP None) => (DROP, None)
  | Returned (PyPair MOVE_TO (Some t)) =>
      if bool_decide ((source, t) ∈ allowed_eviction_moves)
      then (MOVE_TO, Some t) else (KEEP, None)
  | Returned _ => (KEEP, None)
  end.

Definition invoke_decide_recovery (call : py_call py_decision) : PlacementDecision :=
  match call with
  | Raised => (DROP, None)
  | Returned (PyPair DROP None) => (DROP, None)
  | Returned _ => (DROP, None)
  end.

(** ** [_EvictionQueue] *)

(** One heap tuple (score, sequence, key). *)
Record qentry := { e_score : float; e_seq : nat; e_key : BlockKey }.
#[export] Instance qentry_eq_dec : EqDecision qentry.
Proof. solve_decision. Defined.

(** Tuple order; sequence numbers are never reused, so the key is not reached. *)
Definition entry_ltb (a b : qentry) : bool :=
  if feqb (e_score a) (e_score b) then e_seq a <? e_seq b
  else fltb (e_score a) (e_score b).

(** [heapq] is used through push, pop, heapify and len: the heap is the bag of
    its entries and pop removes the least one. *)
Definition heappush (h : list qentry) (e : qentry) : list qentry := h ++ [e].
Fixpoint heappop (h : list qentry) : option (qentry * list qentry) :=
  match h with
  | [] => None
  | x :: r =>
      match heappop r with
      | None => Some (x, [])
      | Some (y, r') => if entry_ltb y x then Some (y, x :: r') else Some (x, r)
      end
  end.

Record EvictionQueue := {
  q_heap : list qentry;
  q_live : gmap BlockKey qentry;
  q_next_sequence : nat }.

Definition queue_init : EvictionQueue :=
  {| q_heap := []; q_live := ∅; q_next_sequence := 0 |}.

Definition with_heap (q : EvictionQueue) (h : list qentry) : EvictionQueue :=
  {| q_heap := h; q_live := q_live q; q_next_sequence := q_next_sequence q |}.

Definition queue_len (q : EvictionQueue) : nat := size (q_live q).

Definition queue_score (q : EvictionQueue) (key : BlockKey) : option float :=
  e_score <$> q_live q !! key.

(** [self._live.get(item[2]) is item] *)
Definition is_live (q : EvictionQueue) (item : qentry) : bool :=
  bool_decide (q_live q !! e_key item = Some item).

Definition compact (q : EvictionQueue) : EvictionQueue :=
  if decide (2 * size (q_live q) < length (q_heap q)) then
    with_heap q (filter (λ item, is_live q item = true) (q_heap q))
  else q.

Definition push_entry (q : EvictionQueue) (key : BlockKey) (score : float) : EvictionQueue :=
  let entry := {| e_score := score; e_seq := q_next_sequence q; e_key := key |} in
  {| q_heap := heappush (q_heap q) entry;
     q_live := <[key := entry]> (q_live q);
     q_next_sequence := S (q_next_sequence q) |}.

Definition queue_insert (q : EvictionQueue) (key : BlockKey) (score : float)
    : bool * EvictionQueue :=
  let previous := q_live q !! key in
  if match previous with Some p => feqb (e_score p) score | None => false end
  then (false, q)
  else
    (bool_decide (previous = None), compact (push_entry q key score)).

Definition queue_remove (q : EvictionQueue) (key : BlockKey) : bool * EvictionQueue :=
  (bool_decide (is_Some (q_live q !! key)),
   {| q_heap := q_heap q; q_live := delete key (q_live q);
      q_next_sequence := q_next_sequence q |}).

(** *** The [candidates] generator

    Its frame between two [next] calls: the keys yielded and the live entries
    popped so far.  [excluded] is the immutable argument. *)
Record Cands := { c_seen : gset BlockKey; c_skipped : list qentry }.
Definition cands_init : Cands := {| c_seen := ∅; c_skipped := [] |}.

(** The [finally] block: push back the entries that are still live. *)
Definition restore (q : EvictionQueue) (skipped : list qentry) : EvictionQueue :=
  foldl (λ q item, if is_live q item then with_heap q (heappush (q_heap q) item) else q)
    q skipped.

(** Run to the next [yield]; [n] bounds the pops and is the heap's length.  An
    exhausted generator runs its [finally] block at once. *)
Fixpoint cand_loop (n : nat) (excluded : gset BlockKey) (q : EvictionQueue) (c : Cands)
    : option BlockKey * EvictionQueue * Cands :=
  match n, heappop (q_heap q) with
  | S n, Some (item, h) =>
      let q' := with_heap q h in
      if is_live q item then
        let c' := {| c_seen := c_seen c; c_skipped := c_skipped c ++ [item] |} in
        if decide ((e_key item ∉ excluded) ∧ (e_key item ∉ c_seen c)) then
          (Some (e_key item), q',
           {| c_seen := {[ e_key item ]} ∪ c_seen c; c_skipped := c_skipped c' |})
        else cand_loop n excluded q' c'
      else cand_loop n excluded q' c
  | _, _ => (None, restore q (c_skipped c), {| c_seen := c_seen c; c_skipped := [] |})
  end.

Definition cand_next (excluded : gset BlockKey) (q : EvictionQueue) (c : Cands)
    : option BlockKey * EvictionQueue * Cands :=
  cand_loop (length (q_heap q)) excluded q c.

Definition cand_close (q : EvictionQueue) (c : Cands) : EvictionQueue :=
  restore q (c_skipped c).

(** Exhaust the generator: the keys of [for key in queue.candidates(excluded)]. *)
Fixpoint drain_queue (n : nat) (excluded : gset BlockKey) (q : EvictionQueue) (c : Cands)
    : list BlockKey * EvictionQueue :=
  match n with
  | 0 => ([], cand_close q c)
  | S n =>
      match cand_next excluded q c with
      | (Some k, q', c') => let '(ks, q'') := drain_queue n excluded q' c' in (k :: ks, q'')
      | (None, q', c') => ([], cand_close q' c')
      end
  end.
Definition candidates (excluded : gset BlockKey) (q : EvictionQueue)
    : list BlockKey * EvictionQueue :=
  drain_queue (S (length (q_heap q))) excluded q cands_init.

(** ** Order of entries *)

Definition entry_finite (e : qentry) : Prop := f_isfinite (e_score e) = true.

Definition entry_lt (a b : qentry) : Prop :=
  rank_lt (frank (e_score a)) (frank (e_score b)) ∨
  frank (e_score a) = frank (e_score b) ∧ e_seq a < e_seq b.

Lemma entry_ltb_lt a b : entry_finite a → entry_finite b →
  entry_ltb a b = true ↔ entry_lt a b.
Proof.
  intros Ha Hb. unfold entry_ltb, entry_lt.
  pose proof (feqb_rank _ _ Ha Hb) as He. pose proof (fltb_rank _ _ Ha Hb) as Hl.
  destruct (feqb (e_score a) (e_score b)); rewrite ?Nat.ltb_lt.
  - assert (frank (e_score a) = frank (e_score b)) as Heq by tauto.
    rewrite Heq. split; [tauto|]. intros [H|[_ H]]; [|done].
    by apply rank_lt_irrefl in H.
  - rewrite Hl. split; [tauto|]. intros [H|[Heq _]]; [done|].
    by apply He in Heq.
Qed.

Lemma entry_lt_irrefl a : ¬ entry_lt a a.
Proof. intros [H|[_ H]]; [by apply rank_lt_irrefl in H | lia]. Qed.
Lemma entry_lt_trans a b c : entry_lt a b → entry_lt b c → entry_lt a c.
Proof.
  unfold entry_lt. intros [H1|[E1 H1]] [H2|[E2 H2]].
  - left. eauto using rank_lt_trans.
  - left. by rewrite <- E2.
  - left. by rewrite E1.
  - right. split; [congruence | lia].
Qed.
Lemma entry_lt_total a b : e_seq a ≠ e_seq b → entry_lt a b ∨ entry_lt b a.
Proof.
  intros Hs. unfold entry_lt.
  destruct (rank_lt_total (frank (e_score a)) (frank (e_score b))) as [?|[E|?]]; auto.
  rewrite E. destruct (Nat.lt_trichotomy (e_seq a) (e_seq b)) as [|[|]]; auto; lia.
Qed.

(** [heappop] removes one entry, and no remaining entry is smaller. *)
Lemma heappop_spec h : Forall entry_finite h →
  match heappop h with
  | None => h = []
  | Some (e, r) => h ≡ₚ e :: r ∧ Forall (λ e', ¬ entry_lt e' e) r
  end.
Proof.
  induction h as [|x h IH]; intros Hf; simpl; [done|].
  apply Forall_cons_1 in Hf as [Hx Hf]. specialize (IH Hf).
  destruct (heappop h) as [[y r]|]; [|by subst].
  destruct IH as [Hp Hmin].
  assert (entry_finite y) as Hy.
  { rewrite Hp in Hf. by inversion Hf. }
  destruct (entry_ltb y x) eqn:E.
  - apply entry_ltb_lt in E; [|done..]. split.
    + rewrite Hp. apply Permutation_swap.
    + constructor; [|done]. intros Hxy.
      by destruct (entry_lt_irrefl _ (entry_lt_trans _ _ _ E Hxy)).
  - split; [done|]. rewrite Hp. constructor.
    + rewrite <- entry_ltb_lt by done. by rewrite E.
    + assert (¬ entry_lt y x) as Hyx by (rewrite <- entry_ltb_lt by done; by rewrite E).
      eapply list.Forall_impl; [exact Hmin|]. intros e He Hex.
      (* x <= y <= e contradicts e < x *)
      destruct (decide (e_seq e = e_seq y)) as [Es|Es].
      * apply Hyx. unfold entry_lt in *. rewrite <- Es.
        destruct (rank_lt_total (frank (e_score e)) (frank (e_score y))) as [|[Ee|?]].
        -- destruct He. by left.
        -- by rewrite <- Ee.
        -- destruct Hex as [Hex|[Hex ?]]; left; [by eapply rank_lt_trans|by rewrite <- Hex].
      * destruct (entry_lt_total e y Es) as [|Hye]; [done|].
        apply Hyx. by eapply entry_lt_trans.
Qed.

Lemma heappop_length h e r : heappop h = Some (e, r) → length h = S (length r).
Proof.
  revert e r. induction h as [|x h IH]; simpl; [done|]. intros e r.
  destruct (heappop h) as [[y r']|] eqn:E.
  - specialize (IH _ _ eq_refl). destruct (entry_ltb y x); intros [= <- <-]; simpl; lia.
  - intros [= <- <-]. destruct h as [|z h]; [done|]. simpl in E.
    by destruct (heappop h) as [[??]|]; [destruct (entry_ltb _ _)|].
Qed.

Lemma heappop_None h : heappop h = None → h = [].
Proof.
  destruct h as [|x h]; [done|]. simpl.
  by destruct (heappop h) as [[??]|]; [destruct (entry_ltb _ _)|].
Qed.

(** ** The queue invariant

    [held] are the entries popped by generators that have not closed yet. *)
Record queue_wf (q : EvictionQueue) (held : list qentry) : Prop := {
  wf_live : ∀ k e, q_live q !! k = Some e → e_key e = k ∧ e ∈ q_heap q ++ held;
  wf_seq : Forall (λ e, e_seq e < q_next_sequence q) (q_heap q ++ held);
  wf_uniq : NoDup (e_seq <$> q_heap q ++ held);
  wf_finite : Forall entry_finite (q_heap q ++ held) }.

Lemma is_live_true q e : is_live q e = true ↔ q_live q !! e_key e = Some e.
Proof. unfold is_live. by rewrite bool_decide_eq_true. Qed.

Lemma queue_wf_init : queue_wf queue_init [].
Proof. split; simpl; [intros k e; by rewrite lookup_empty | constructor..]. Qed.

(** Dropping dead entries, or moving entries between heap and generators,
    keeps the invariant. *)
Lemma queue_wf_filter q h h' held held' :
  queue_wf (with_heap q h) held →
  h' ++ held' ⊆+ h ++ held →
  (∀ e, q_live q !! e_key e = Some e → e ∈ h ++ held → e ∈ h' ++ held') →
  queue_wf (with_heap q h') held'.
Proof.
  intros [Hl Hs Hu Hf] Hsub Hkeep. simpl in *. split; simpl.
  - intros k e He. destruct (Hl k e He) as [<- Hin]. split; [done|]. by apply Hkeep.
  - by eapply submseteq_Forall.
  - eapply submseteq_NoDup; [|exact Hu]. by apply fmap_submseteq.
  - by eapply submseteq_Forall.
Qed.

Lemma with_heap_id q : with_heap q (q_heap q) = q.
Proof. by destruct q. Qed.

Lemma queue_wf_compact q held : queue_wf q held → queue_wf (compact q) held.
Proof.
  intros Hq. unfold compact. case_decide; [|done].
  eapply queue_wf_filter; [by rewrite with_heap_id|..].
  - apply submseteq_app; [apply filter_submseteq|done].
  - intros e He. rewrite !elem_of_app, list_elem_of_filter, is_live_true. tauto.
Qed.

Lemma queue_wf_push q held key score : f_isfinite score = true →
  queue_wf q held → queue_wf (push_entry q key score) held.
Proof.
  intros Hfin [Hl Hs Hu Hf]. unfold push_entry.
  set (entry := {| e_score := score; e_seq := q_next_sequence q; e_key := key |}).
  assert (Hp : heappush (q_heap q) entry ++ held ≡ₚ entry :: q_heap q ++ held).
  { unfold heappush. rewrite <- app_assoc. simpl. by rewrite <- Permutation_middle. }
  split; simpl.
  - intros k e. rewrite lookup_insert. case_decide as Hk; intros He.
    + inversion He; subst. split; [done|]. rewrite Hp. by left.
    + destruct (Hl k e He) as [? Hin]. split; [done|]. rewrite Hp. by right.
  - rewrite Hp. constructor; [simpl; lia|].
    eapply list.Forall_impl; [exact Hs|]. simpl. lia.
  - rewrite Hp. simpl. constructor; [|done].
    intros (e & He & Hin)%list_elem_of_fmap.
    rewrite list.Forall_forall in Hs. specialize (Hs e Hin). simpl in Hs. lia.
  - rewrite Hp. by constructor.
Qed.

Lemma queue_wf_insert q held key score : f_isfinite score = true →
  queue_wf q held → queue_wf (queue_insert q key score).2 held.
Proof.
  intros Hfin Hq. unfold queue_insert.
  destruct (match q_live q !! key with Some p => _ | None => _ end); [done|]. simpl.
  by apply queue_wf_compact, queue_wf_push.
Qed.

Lemma queue_wf_remove q held key : queue_wf q held → queue_wf (queue_remove q key).2 held.
Proof.
  intros [Hl Hs Hu Hf]. split; simpl; try done.
  intros k e [_ He]%lookup_delete_Some. by apply Hl.
Qed.

(** Pushing back a popped entry that is still live, or forgetting a dead one. *)
Lemma queue_wf_restore q c held :
  queue_wf q (c ++ held) → queue_wf (restore q c) held.
Proof.
  unfold restore. revert q. induction c as [|e c IH]; intros q Hq; simpl in *; [done|].
  apply IH. destruct (is_live q e) eqn:E.
  - eapply (queue_wf_filter q (q_heap q)); [by rewrite with_heap_id|..]; simpl.
    + unfold heappush. rewrite <- app_assoc. simpl. done.
    + intros e' _. unfold heappush. rewrite <- app_assoc. simpl. done.
  - assert (queue_wf (with_heap q (q_heap q)) (c ++ held)) as H;
      [|by rewrite with_heap_id in H].
    apply (queue_wf_filter q (q_heap q) _ (e :: c ++ held)).
    + by rewrite with_heap_id.
    + apply submseteq_app; [done|]. by apply submseteq_cons.
    + intros e' He'. rewrite !elem_of_app, elem_of_cons, elem_of_app.
      intros [?|[->|?]]; auto. apply is_live_true in He'. congruence.
Qed.

Lemma queue_wf_close q c held :
  queue_wf q (c_skipped c ++ held) → queue_wf (cand_close q c) held.
Proof. apply queue_wf_restore. Qed.

(** One pop of a well-formed queue. *)
Lemma queue_wf_pop q held item h :
  queue_wf q held → heappop (q_heap q) = Some (item, h) →
  q_heap q ≡ₚ item :: h ∧ Forall (λ e, ¬ entry_lt e item) h ∧
  (is_live q item = true → queue_wf (with_heap q h) (item :: held)) ∧
  (is_live q item = false → queue_wf (with_heap q h) held).
Proof.
  intros Hq Hpop. pose proof (wf_finite _ _ Hq) as [Hf _]%Forall_app.
  pose proof (heappop_spec _ Hf) as Hs. rewrite Hpop in Hs. destruct Hs as [Hp Hmin].
  split_and!; [done|done|..]; intros Hlive;
    (eapply (queue_wf_filter q (q_heap q)); [by rewrite with_heap_id|..]).
  - rewrite Hp. simpl. by rewrite Permutation_middle.
  - intros e _. rewrite Hp. simpl. by rewrite Permutation_middle.
  - rewrite Hp. simpl. by apply submseteq_cons.
  - intros e He. rewrite Hp. simpl. rewrite elem_of_cons. intros [->|?]; [|done].
    apply is_live_true in He. congruence.
Qed.

Lemma restore_live q c : q_live (restore q c) = q_live q.
Proof.
  unfold restore. revert q. induction c as [|e c IH]; intros q; simpl; [done|].
  rewrite IH. by destruct (is_live q e).
Qed.

(** What one [next] of the generator does. *)
Record next_yields (excluded : gset BlockKey) (q : EvictionQueue) (c : Cands)
    (item : qentry) (q' : EvictionQueue) (c' : Cands) : Prop := {
  ny_live : q_live q !! e_key item = Some item;
  ny_fresh : e_key item ∉ excluded ∪ c_seen c;
  ny_seen : c_seen c' = {[ e_key item ]} ∪ c_seen c;
  ny_same : q_live q' = q_live q;
  ny_skipped : ∀ e, e ∈ c_skipped c' → e ∈ c_skipped c ∨ e_key e ∈ excluded ∪ c_seen c';
  ny_least : ∀ e, e ∈ q_heap q → q_live q !! e_key e = Some e →
    e_key e ∉ excluded ∪ c_seen c → ¬ entry_lt e item;
  ny_shorter : length (q_heap q') < length (q_heap q) }.

Lemma cand_loop_spec n excluded q c held :
  length (q_heap q) ≤ n → queue_wf q (c_skipped c ++ held) →
  match cand_loop n excluded q c with
  | (Some k, q', c') => ∃ item, e_key item = k ∧
      next_yields excluded q c item q' c' ∧ queue_wf q' (c_skipped c' ++ held)
  | (None, q', c') => q_live q' = q_live q ∧ c_skipped c' = [] ∧ queue_wf q' held ∧
      ∀ e, e ∈ q_heap q → q_live q !! e_key e = Some e → e_key e ∈ excluded ∪ c_seen c
  end.
Proof.
  revert q c. induction n as [|n IH]; intros q c Hn Hq.
  { destruct (q_heap q) eqn:Eh; simpl in *; [|lia].
    split_and!; [apply restore_live | done | by apply queue_wf_restore | set_solver]. }
  simpl. destruct (heappop (q_heap q)) as [[item h]|] eqn:Epop; last first.
  { apply heappop_None in Epop. rewrite Epop.
    split_and!; [apply restore_live | done | by apply queue_wf_restore | set_solver]. }
  pose proof (heappop_length _ _ _ Epop) as Hlen.
  destruct (queue_wf_pop _ _ _ _ Hq Epop) as (Hp & Hmin & Hwl & Hwd).
  destruct (is_live q item) eqn:El.
  - specialize (Hwl eq_refl). clear Hwd.
    assert (Hw : queue_wf (with_heap q h) ((c_skipped c ++ [item]) ++ held)).
    { eapply (queue_wf_filter q h); [exact Hwl|..].
      - rewrite <- app_assoc. simpl. by rewrite (Permutation_middle (c_skipped c)).
      - intros e _. rewrite <- app_assoc. simpl.
        by rewrite (Permutation_middle (c_skipped c)). }
    apply is_live_true in El. case_decide as Hd.
    + exists item. split_and!; [done| |done]. split; simpl; try done; try set_solver; [|lia].
      intros e He _ _. rewrite Hp in He. apply elem_of_cons in He as [->|He];
        [apply entry_lt_irrefl|]. rewrite list.Forall_forall in Hmin. by apply Hmin.
    + specialize (IH (with_heap q h) {| c_seen := c_seen c; c_skipped := c_skipped c ++ [item] |}).
      simpl in IH. specialize (IH ltac:(lia) Hw).
      assert (e_key item ∈ excluded ∪ c_seen c) as Hex.
      { destruct (decide (e_key item ∈ excluded ∪ c_seen c)); [done|]. set_solver. }
      destruct (cand_loop n excluded (with_heap q h) _) as [[[k|] q'] c'].
      * destruct IH as (i & <- & [H1 H2 H3 H4 H5 H6 H7] & Hw'). exists i.
        split_and!; [done| |done]. simpl in *. split; try done; [..|lia].
        -- intros e [?|Hk]%H5; [|auto]. set_solver.
        -- intros e He Hl Hne. rewrite Hp in He. apply elem_of_cons in He as [->|He];
             [done|]. by apply H6.
      * destruct IH as (H1 & H2 & H3 & H4). simpl in *. split_and!; [done..|].
        intros e He Hl. rewrite Hp in He. apply elem_of_cons in He as [->|He]; auto.
  - specialize (Hwd eq_refl). clear Hwl.
    specialize (IH (with_heap q h) c ltac:(simpl; lia) Hwd). simpl in IH.
    assert (Hdead : ∀ e, q_live q !! e_key e = Some e → e ∈ q_heap q → e ∈ h).
    { intros e Hl He. rewrite Hp in He. apply elem_of_cons in He as [->|He]; [|done].
      apply is_live_true in Hl. congruence. }
    destruct (cand_loop n excluded (with_heap q h) c) as [[[k|] q'] c'].
    + destruct IH as (i & <- & [H1 H2 H3 H4 H5 H6 H7] & Hw'). exists i.
      split_and!; [done| |done]. simpl in *. split; try done; [|lia].
      intros e He Hl Hne. apply H6; auto.
    + destruct IH as (H1 & H2 & H3 & H4). split_and!; auto.
Qed.

(** ** Interleavings

    The queue and the frames of the open generators.  Insertions, removals and
    steps of any generator may come in any order: eviction decisions taken
    while a generator is suspended insert and remove keys. *)
Inductive queue_step : EvictionQueue * list Cands → EvictionQueue * list Cands → Prop :=
  | step_insert q gs key score : f_isfinite score = true →
      queue_step (q, gs) ((queue_insert q key score).2, gs)
  | step_remove q gs key : queue_step (q, gs) ((queue_remove q key).2, gs)
  | step_open q gs : queue_step (q, gs) (q, cands_init :: gs)
  | step_next q gs1 c gs2 excluded k q' c' :
      cand_next excluded q c = (k, q', c') →
      queue_step (q, gs1 ++ c :: gs2) (q', gs1 ++ c' :: gs2)
  | step_close q gs1 c gs2 :
      queue_step (q, gs1 ++ c :: gs2) (cand_close q c, gs1 ++ gs2).

Definition held_by (gs : list Cands) : list qentry := mjoin (c_skipped <$> gs).

Lemma queue_wf_perm q held held' : held ≡ₚ held' → queue_wf q held → queue_wf q held'.
Proof. intros E [? ? ? ?]. split; intros; by rewrite <- E; auto. Qed.

Lemma held_by_middle gs1 c gs2 :
  held_by (gs1 ++ c :: gs2) ≡ₚ c_skipped c ++ held_by (gs1 ++ gs2).
Proof.
  unfold held_by. rewrite !fmap_app, fmap_cons, !join_app. simpl.
  by rewrite Permutation_app_swap_app.
Qed.

Lemma queue_step_wf s s' : queue_step s s' →
  queue_wf s.1 (held_by s.2) → queue_wf s'.1 (held_by s'.2).
Proof.
  destruct 1 as [q gs key score Hf|q gs key|q gs|q gs1 c gs2 excluded k q' c' E|q gs1 c gs2];
    simpl; intros Hq.
  - by apply queue_wf_insert.
  - by apply queue_wf_remove.
  - done.
  - eapply queue_wf_perm in Hq; [|apply held_by_middle].
    pose proof (cand_loop_spec _ excluded q c _ (le_n _) Hq) as Hs.
    unfold cand_next in E. rewrite E in Hs.
    eapply queue_wf_perm; [symmetry; apply held_by_middle|].
    destruct k as [k|].
    + by destruct Hs as (? & _ & _ & ?).
    + destruct Hs as (_ & -> & ? & _). done.
  - eapply queue_wf_perm in Hq; [|apply held_by_middle]. by apply queue_wf_close.
Qed.

Definition live_lt (q : EvictionQueue) (k1 k2 : BlockKey) : Prop :=
  ∃ e1 e2, q_live q !! k1 = Some e1 ∧ q_live q !! k2 = Some e2 ∧ entry_lt e1 e2.

Lemma live_distinct_seq q held e1 e2 : queue_wf q held →
  q_live q !! e_key e1 = Some e1 → q_live q !! e_key e2 = Some e2 →
  e_key e1 ≠ e_key e2 → e_seq e1 ≠ e_seq e2.
Proof.
  intros Hq H1 H2 Hne Hs. apply Hne. f_equal.
  destruct (wf_live _ _ Hq _ _ H1) as [_ [i1 Hi1]%list_elem_of_lookup].
  destruct (wf_live _ _ Hq _ _ H2) as [_ [i2 Hi2]%list_elem_of_lookup].
  assert (i1 = i2) as ->; [|congruence].
  eapply NoDup_lookup; [exact (wf_uniq _ _ Hq)|..]; rewrite list_lookup_fmap.
  - rewrite Hi1. reflexivity.
  - rewrite Hi2. simpl. by f_equal.
Qed.

(** A whole iteration from a generator frame whose popped entries have been
    yielded or are excluded. *)
Lemma drain_spec n excluded q c :
  length (q_heap q) < n → queue_wf q (c_skipped c) →
  (∀ e, e ∈ c_skipped c → e_key e ∈ excluded ∪ c_seen c) →
  let '(ks, q') := drain_queue n excluded q c in
  StronglySorted (live_lt q) ks ∧ q_live q' = q_live q ∧ queue_wf q' [] ∧
  ∀ k, k ∈ ks ↔ k ∈ dom (q_live q) ∧ k ∉ excluded ∪ c_seen c.
Proof.
  revert q c. induction n as [|n IH]; intros q c Hn Hq Hsk; [lia|]. simpl.
  assert (queue_wf q (c_skipped c ++ [])) as Hq0 by by rewrite app_nil_r.
  pose proof (cand_loop_spec _ excluded q c [] (le_n _) Hq0) as Hs.
  fold (cand_next excluded q c) in Hs. clear Hq0.
  destruct (cand_next excluded q c) as [[[k|] q1] c1].
  - destruct Hs as (item & <- & Hy & Hw). rewrite app_nil_r in Hw.
    specialize (IH q1 c1). pose proof (ny_shorter _ _ _ _ _ _ Hy).
    specialize (IH ltac:(lia) Hw). destruct Hy as [H1 H2 H3 H4 H5 H6 _].
    assert (∀ e, e ∈ c_skipped c1 → e_key e ∈ excluded ∪ c_seen c1) as Hsk1.
    { intros e [He|He]%H5; [|done]. apply Hsk in He. set_solver. }
    specialize (IH Hsk1). destruct (drain_queue n excluded q1 c1) as [ks q2].
    destruct IH as (Hss & Hl & Hwf & Hks). split_and!; [..|congruence|done|].
    + constructor.
      * eapply StronglySorted_weaken; [|exact Hss]. unfold live_lt. by rewrite H4.
      * rewrite list.Forall_forall. intros k Hk. apply Hks in Hk as [Hd Hne].
        rewrite H4 in Hd. apply elem_of_dom in Hd as [e He].
        destruct (wf_live _ _ Hq _ _ He) as [Ek Hin]. rewrite <- Ek in *.
        exists item, e. split_and!; [done..|].
        apply elem_of_app in Hin as [Hin|Hin]; [|apply Hsk in Hin; set_solver].
        destruct (entry_lt_total item e) as [|Hlt]; [|done|].
        -- eapply live_distinct_seq; [exact Hq|done..|]. rewrite H3 in Hne. set_solver.
        -- destruct (H6 e); [done..|set_solver|done].
    + intros k. rewrite elem_of_cons, Hks, H4, H3. split.
      * intros [->|[? ?]]; [|set_solver]. split; [|done].
        apply elem_of_dom. by eexists.
      * intros [Hd Hk]. destruct (decide (k = e_key item)); [by left|right]. set_solver.
  - destruct Hs as (Hl & Hc & Hw & Hall). unfold cand_close. rewrite Hc. simpl.
    split_and!; [constructor|done|done|].
    intros k. split; [set_solver|]. intros [Hd Hk].
    apply elem_of_dom in Hd as [e He]. destruct (wf_live _ _ Hq _ _ He) as [<- Hin].
    destruct Hk. apply elem_of_app in Hin as [Hin|Hin]; auto.
Qed.

(** ** Properties *)

(** Whatever insertions, removals and (possibly nested or abandoned)
    candidate scans came before, once every generator is closed a scan visits
    each evictable key outside [excluded] exactly once, strictly by (score,
    insertion sequence), and leaves the evictable set as it was. *)
Theorem candidates_after_any_history q excluded :
  rtc queue_step (queue_init, []) (q, []) →
  let '(ks, q') := candidates excluded q in
  StronglySorted (live_lt q) ks ∧ NoDup ks ∧
  (∀ k, k ∈ ks ↔ k ∈ dom (q_live q) ∧ k ∉ excluded) ∧
  q_live q' = q_live q ∧ queue_wf q' [].
Proof.
  intros Hr.
  assert (queue_wf q []) as Hq.
  { apply (rtc_ind_r (λ s, queue_wf s.1 (held_by s.2)) (queue_init, []) queue_wf_init)
      in Hr; [done|]. intros y z _ Hyz. by apply queue_step_wf. }
  unfold candidates.
  pose proof (drain_spec (S (length (q_heap q))) excluded q cands_init (Nat.lt_succ_diag_r _) Hq)
    as Hd. specialize (Hd ltac:(set_solver)).
  destruct (drain_queue _ excluded q cands_init) as [ks q'].
  destruct Hd as (Hss & Hl & Hw & Hks). split_and!; try done.
  - clear -Hss. induction Hss as [|k ks _ IH Hk]; constructor; [|done].
    intros Hin. rewrite list.Forall_forall in Hk.
    destruct (Hk k Hin) as (e1 & e2 & H1 & H2 & Hlt). simplify_eq.
    by apply entry_lt_irrefl in Hlt.
  - intros k. rewrite Hks. set_solver.
Qed.

Definition demo_queue : EvictionQueue :=
  (queue_insert (queue_insert (queue_insert queue_init "a" (f_of_Z_inf 7)).2
     "b" (f_of_Z_inf 1)).2 "c" (f_of_Z_inf 2)).2.

Lemma demo_queue_reachable : rtc queue_step (queue_init, []) (demo_queue, []).
Proof.
  unfold demo_queue.
  eapply rtc_l; [apply (step_insert _ _ "a" (f_of_Z_inf 7)); reflexivity|].
  eapply rtc_l; [apply (step_insert _ _ "b" (f_of_Z_inf 1)); reflexivity|].
  eapply rtc_l; [apply (step_insert _ _ "c" (f_of_Z_inf 2)); reflexivity|].
  apply rtc_refl.
Qed.

Lemma candidates_after_any_history_witness :
  (candidates {[ "b" ]} demo_queue).1 = ["c"; "a"] ∧
  StronglySorted (live_lt demo_queue) ["c"; "a"].
Proof.
  pose proof (candidates_after_any_history demo_queue {[ "b" ]} demo_queue_reachable) as H.
  assert ((candidates {[ "b" ]} demo_queue).1 = ["c"; "a"]) as E by (vm_compute; reflexivity).
  destruct (candidates {[ "b" ]} demo_queue) as [ks q']. simpl in E. subst ks.
  split; [reflexivity | apply H].
Defined.

Lemma live_entries_bound q (l : list qentry) :
  NoDup l → Forall (λ e, q_live q !! e_key e = Some e) l → length l ≤ size (q_live q).
Proof.
  intros Hnd Hl. rewrite <- length_map_to_list, <- (length_fmap snd).
  apply submseteq_length, NoDup_submseteq; [done|].
  intros e He. rewrite list.Forall_forall in Hl. specialize (Hl e He).
  apply list_elem_of_fmap. exists (e_key e, e). split; [done|]. by apply elem_of_map_to_list.
Qed.

Lemma compact_bound q held : queue_wf q held →
  length (q_heap (compact q)) ≤ 2 * size (q_live (compact q)).
Proof.
  intros Hq. unfold compact. case_decide; [|lia]. simpl.
  etrans; [apply (live_entries_bound q)|lia].
  - apply NoDup_filter. pose proof (wf_uniq _ _ Hq) as Hu.
    rewrite fmap_app in Hu. apply list.NoDup_app in Hu as [Hu _].
    by eapply NoDup_fmap_1.
  - rewrite list.Forall_forall. intros e [He _]%list_elem_of_filter. by apply is_live_true.
Qed.

(** an insertion that records a new score leaves at most twice as many
    heap tuples as evictable keys, so stale tuples cannot accumulate. *)
Theorem insert_bounds_heap q key score :
  queue_wf q [] → f_isfinite score = true →
  (∀ p, q_live q !! key = Some p → feqb (e_score p) score = false) →
  let q' := (queue_insert q key score).2 in
  length (q_heap q') ≤ 2 * queue_len q'.
Proof.
  intros Hq Hfin Hnew. unfold queue_len, queue_insert.
  pose proof (compact_bound _ _ (queue_wf_push q [] key score Hfin Hq)).
  destruct (q_live q !! key) as [p|] eqn:E; [rewrite (Hnew p eq_refl)|]; done.
Qed.

Lemma insert_bounds_heap_witness :
  let q' := (queue_insert demo_queue "a" (f_of_Z_inf 3)).2 in
  length (q_heap q') ≤ 2 * queue_len q'.
Proof.
  apply insert_bounds_heap.
  - change [] with (held_by []).
    apply (rtc_ind_r (λ s, queue_wf s.1 (held_by s.2)) (queue_init, []) queue_wf_init
      (λ y z _ Hyz, queue_step_wf y z Hyz) (demo_queue, []) demo_queue_reachable).
  - reflexivity.
  - assert (q_live demo_queue !! "a" =
      Some {| e_score := f_of_Z_inf 7; e_seq := 0; e_key := "a" |}) as E
      by (vm_compute; reflexivity).
    intros p Hp. rewrite E in Hp. injection Hp as <-. vm_compute. reflexivity.
Defined.

(** The score KVCR stores for a key when [policy] is asked about [meta]. *)
Definition scored (policy : KVCachePolicy) (h : list PolicyCall) (meta : BlockMeta)
    (source : CacheTier) (previous : option float) : result (option float) :=
  invoke_eviction_score (p_eviction_score policy h meta source) previous.

(** Make the keys evictable in order, each with the score of its metadata. *)
Definition admit_all (policy : KVCachePolicy) (source : CacheTier)
    (q : EvictionQueue) (metas : list BlockMeta) : EvictionQueue :=
  foldl (λ q meta,
    match scored policy [] meta source (queue_score q (block_key meta)) with
    | Ret (Some score) => (queue_insert q (block_key meta) score).2
    | _ => q
    end) q metas.

Lemma queue_insert_fresh q key score : queue_wf q [] → f_isfinite score = true →
  q_live q !! key = None →
  q_live (queue_insert q key score).2 = <[key := {| e_score := score;
    e_seq := q_next_sequence q; e_key := key |}]> (q_live q) ∧
  q_next_sequence (queue_insert q key score).2 = S (q_next_sequence q).
Proof.
  intros Hq Hf E. unfold queue_insert. rewrite E. simpl. unfold compact. by case_decide.
Qed.

Lemma fifo_admit_inv metas q : queue_wf q [] →
  NoDup (block_key <$> metas) →
  (∀ m, m ∈ metas → q_live q !! block_key m = None) →
  let q' := admit_all FIFOPolicy LOCAL_G2 q metas in
  queue_wf q' [] ∧
  (∀ k, k ∈ dom (q_live q') ↔ k ∈ dom (q_live q) ∨ k ∈ block_key <$> metas) ∧
  (∀ k e, q_live q !! k = Some e → q_live q' !! k = Some e) ∧
  StronglySorted (live_lt q') (block_key <$> metas) ∧
  (∀ m, m ∈ metas → ∃ e, q_live q' !! block_key m = Some e ∧
    e_score e = fzero ∧ q_next_sequence q ≤ e_seq e).
Proof.
  revert q. induction metas as [|m metas IH]; intros q Hq Hnd Hfresh; simpl in *.
  { split_and!; try done; [set_solver|constructor|set_solver]. }
  apply NoDup_cons in Hnd as [Hm Hnd].
  assert (q_live q !! block_key m = None) as Em by (apply Hfresh; by left).
  destruct (queue_insert_fresh q (block_key m) fzero Hq eq_refl Em) as [El En].
  pose proof (queue_wf_insert q [] (block_key m) fzero eq_refl Hq) as Hq1.
  set (q1 := (queue_insert q (block_key m) fzero).2) in *.
  destruct (IH q1 Hq1 Hnd) as (H1 & H2 & H3 & H4 & H5).
  { intros m' Hm'. rewrite El, lookup_insert_ne; [apply Hfresh; by right|].
    intros E. apply Hm. rewrite E. by apply list_elem_of_fmap_2. }
  assert (Hk : q_live q1 !! block_key m = Some {| e_score := fzero;
    e_seq := q_next_sequence q; e_key := block_key m |})
    by (rewrite El; apply lookup_insert_eq).
  split_and!; [done| | | |].
  - intros k. rewrite H2, El, dom_insert_L, elem_of_cons. set_solver.
  - intros k e He. apply H3. rewrite El, lookup_insert_ne; [done|]. congruence.
  - constructor; [done|]. rewrite list.Forall_forall.
    intros k (m' & -> & Hm')%list_elem_of_fmap. destruct (H5 m' Hm') as (e & He & Es & Hle).
    eexists _, e. split_and!; [by apply H3|done|].
    right. simpl. rewrite Es. split; [done|]. lia.
  - intros m' [->|Hm']%elem_of_cons; [eexists; split_and!; [by apply H3|done|done]|].
    destruct (H5 m' Hm') as (e & He & Es & Hle). exists e. split_and!; [done..|lia].
Qed.

(** under the FIFO policy blocks are offered for eviction in exactly the
    order in which they became evictable. *)
Theorem fifo_evicts_in_admission_order (metas : list BlockMeta) :
  NoDup (block_key <$> metas) →
  (candidates ∅ (admit_all FIFOPolicy LOCAL_G2 queue_init metas)).1 = block_key <$> metas.
Proof.
  intros Hnd.
  destruct (fifo_admit_inv metas queue_init queue_wf_init Hnd) as (Hw & Hd & _ & Hs & _).
  { intros m _. apply lookup_empty. }
  set (q := admit_all _ _ _ _) in *. unfold candidates.
  pose proof (drain_spec (S (length (q_heap q))) ∅ q cands_init (Nat.lt_succ_diag_r _) Hw
    ltac:(set_solver)) as Hdr.
  destruct (drain_queue _ ∅ q cands_init) as [ks q']. destruct Hdr as (Hss & _ & _ & Hks).
  simpl. assert (Hanti : ∀ k1 k2, live_lt q k1 k2 → live_lt q k2 k1 → k1 = k2).
  { intros k1 k2 (e1 & e2 & ? & ? & H12) (e3 & e4 & ? & ? & H21). simplify_eq.
    by destruct (entry_lt_irrefl _ (entry_lt_trans _ _ _ H12 H21)). }
  assert (Hnds : ∀ l, StronglySorted (live_lt q) l → NoDup l).
  { intros l. induction 1 as [|k l _ IH Hk]; constructor; [|done].
    intros Hin. rewrite list.Forall_forall in Hk. destruct (Hk k Hin) as (e1 & e2 & ? & ? & Hlt).
    simplify_eq. by apply entry_lt_irrefl in Hlt. }
  apply (StronglySorted_unique_strong (live_lt q)); [|done|done|].
  - intros k1 k2 _ _. apply Hanti.
  - apply NoDup_Permutation; [by apply Hnds|done|]. intros k.
    rewrite Hks, Hd. set_solver.
Qed.

Definition demo_meta (k : BlockKey) : BlockMeta := {|
  block_key := k; size_bytes := 4096; meta_access_count := 0;
  meta_last_access := None; resident_tiers := {[ LOCAL_G2 ]}; meta_position := -1 |}.

Lemma fifo_evicts_in_admission_order_witness :
  (candidates ∅ (admit_all FIFOPolicy LOCAL_G2 queue_init
     (demo_meta <$> ["z"; "a"; "m"]))).1 = ["z"; "a"; "m"].
Proof.
  refine (eq_trans (fifo_evicts_in_admission_order (demo_meta <$> ["z"; "a"; "m"]) _) _).
  - apply (bool_decide_unpack _). vm_compute. exact I.
  - reflexivity.
Defined.

(** C40: a policy cannot make KVCR act outside its contract: admission is KEEP
    or DROP and never DROP for required-local work, eviction is KEEP, DROP or a
    configured move, a failed placement is always dropped; an answer of the
    wrong shape and an exception fall back to KEEP (DROP for recovery). *)
Theorem invoker_contains_decisions (allowed : gset (CacheTier * CacheTier)) call source required_local :
  invoke_decide_ingest call required_local ∈ [(KEEP, None); (DROP, None)] ∧
  (required_local = true → invoke_decide_ingest call required_local = (KEEP, None)) ∧
  (invoke_decide_eviction allowed call source ∈ [(KEEP, None); (DROP, None)] ∨
   ∃ t, invoke_decide_eviction allowed call source = (MOVE_TO, Some t) ∧
        (source, t) ∈ allowed ∧ call = Returned (PyPair MOVE_TO (Some t))) ∧
  invoke_decide_recovery call = (DROP, None) ∧
  (call = Raised → invoke_decide_ingest call required_local = (KEEP, None) ∧
    invoke_decide_eviction allowed call source = (KEEP, None)).
Proof.
  split_and!.
  - destruct call as [[[] [t|]|]|], required_local; simpl; set_solver.
  - intros ->. by destruct call as [[[] [t|]|]|].
  - destruct call as [[[] [t|]|]|]; simpl; try (left; set_solver).
    case_bool_decide; [right; eauto | left; set_solver].
  - by destruct call as [[[] [t|]|]|].
  - by intros ->.
Qed.

(** The score stored for a block is finite, and a raising policy, a
    non-number, a NaN or an infinity leaves the previous score in place.  The
    only exception that escapes is the conversion of an integer beyond the
    range of floats. *)
Theorem invoker_contains_scores call previous :
  (∀ p, previous = Some p → f_isfinite p = true) →
  match invoke_eviction_score call previous with
  | Ret (Some s) => f_isfinite s = true
  | Ret None => previous = None
  | Raise e => ∃ n, call = Returned (PyInt n) ∧ f_of_Z n = None
  end ∧
  (match call with
   | Raised | Returned PyOtherScore => True
   | Returned (PyFloat x) => f_isfinite x = false
   | Returned (PyInt _) => False
   end → invoke_eviction_score call previous = Ret previous).
Proof.
  intros Hp. destruct call as [[n|x|]|]; simpl.
  - split; [|done]. destruct (f_of_Z n) as [x|] eqn:E; [|eauto].
    unfold f_of_Z in E. destruct (f_isfinite (f_of_Z_inf n)) eqn:B; by simplify_eq.
  - destruct (f_isfinite x) eqn:E; [done|]. destruct previous as [p|]; simpl; auto.
  - destruct previous as [p|]; simpl; auto.
  - destruct previous as [p|]; simpl; auto.
Qed.

Lemma invoker_contains_scores_witness :
  invoke_eviction_score (Returned (PyFloat S754_nan)) (Some fzero) = Ret (Some fzero).
Proof.
  apply (invoker_contains_scores (Returned (PyFloat S754_nan)) (Some fzero)).
  - intros p [= <-]. reflexivity.
  - reflexivity.
Defined.

(** the containment of policy failures has a hole: an integer score too
    large for a float raises OverflowError out of the invoker instead of being
    treated as an invalid score. *)
Theorem eviction_score_overflow_escapes previous :
  invoke_eviction_score (Returned (PyInt (2 ^ 1024))) previous =
    Raise (OverflowError "int too large to convert to float").
Proof. reflexivity. Qed.

(** for a block that was accessed and has no sequence position the LRU
    score is its access time, so eviction is by recency. *)
Theorem lru_score_is_last_access h meta source t previous :
  meta_last_access meta = Some t → (meta_position meta ≤ 0)%Z →
  f_isfinite t = true → (∀ b, t ≠ S754_zero b) → f_isfinite (f_ulp t) = true →
  scored LRUPolicy h meta source previous = Ret (Some t).
Proof.
  intros Ht Hp Hf Hz Hu. unfold scored, LRUPolicy, lru_eviction_score. cbn [p_eviction_score].
  rewrite Ht, Z.max_r by done. cbn [default from_option id].
  change (f_of_Z 0) with (Some (S754_zero false)). cbn [invoke_eviction_score].
  assert (∃ b, fmul (S754_zero false) (f_ulp t) = S754_zero b) as [b Eb].
  { destruct (f_ulp t); try done; simpl; eauto. }
  by rewrite Eb, fsub_zero_r, Hf by done.
Qed.

Lemma lru_score_is_last_access_witness :
  scored LRUPolicy [] {| block_key := "k"; size_bytes := 1; meta_access_count := 1;
    meta_last_access := Some (f_of_Z_inf 1234); resident_tiers := {[ LOCAL_G2 ]};
    meta_position := -1 |} LOCAL_G2 None = Ret (Some (f_of_Z_inf 1234)).
Proof.
  apply lru_score_is_last_access.
  - reflexivity.
  - simpl. lia.
  - reflexivity.
  - intros b. vm_compute. discriminate.
  - vm_compute. reflexivity.
Defined.
