(* ===== verification/Layout.v ===== *)
(** * Key layouts and DRAM residencies

    The first part of [src/src/kvcr/backends/local_dram_pools.py]: matching the
    pieces of a request against a key's layout ([_layout_indices]) and the
    per-block residency object [_LocalDramResidency] with its methods. *)

From Stdlib Require Import ZArith Lia.
From S2P Require Import Prelude PyFloat Types.

(** ** Matching pieces *)

(** The dict built by [prepare_label_index]: a label's index, or [None] when
    the label occurs more than once. *)
Fixpoint label_index_from (i : nat) (layout : list label)
    (indices : gmap label (option nat)) : gmap label (option nat) :=
  match layout with
  | [] => indices
  | l :: layout =>
      label_index_from (S i) layout
        (<[ l := if decide (is_Some (indices !! l)) then None else Some i ]> indices)
  end.
Definition label_index (layout : list label) : gmap label (option nat) :=
  label_index_from 0 layout ∅.

(** [layout.count(l)] *)
Definition count_label (l : label) (layout : list label) : nat :=
  length (filter (λ l', l' = l) layout).

(** [layout.index(l)] for a label that occurs. *)
Definition index_of (l : label) (layout : list label) : option nat :=
  fst <$> list_find (λ l', l' = l) layout.

(** [[i for i, l in enumerate(layout) if l in labels]] *)
Fixpoint indices_in (i : nat) (labels : list label) (layout : list label) : list nat :=
  match layout with
  | [] => []
  | l :: layout =>
      if decide (l ∈ labels) then i :: indices_in (S i) labels layout
      else indices_in (S i) labels layout
  end.

(** [dict.get(label)] over [indices_by_label]: absent and ambiguous labels both
    give [None]. *)
Definition get_index (indices : gmap label (option nat)) (l : label) : option nat :=
  mjoin (indices !! l).

Definition layout_indices (layout requested : list label)
    (indices_by_label : option (gmap label (option nat))) : option (list nat) :=
  if decide (layout = requested) then Some (seq 0 (length layout))
  else if decide (requested = []) then None
  else if decide (NoDup requested) then
    match indices_by_label with
    | Some indices => mapM (get_index indices) requested
    | None =>
        if decide (Forall (λ l, count_label l layout = 1) requested)
        then mapM (λ l, index_of l layout) requested
        else None
    end
  else
    let indices := indices_in 0 requested layout in
    if decide (omap (λ i, layout !! i) indices = requested) then Some indices else None.

(** ** Residencies *)

Inductive LocalDramState := FILLING | READY | DISCARDING.
#[export] Instance LocalDramState_eq_dec : EqDecision LocalDramState.
Proof. solve_decision. Defined.

(** [_TransferRef]: one element of an agent's registered memory. *)
Record TransferRef := {
  tr_end_point : string;
  tr_element_index : Z;
  tr_label : label;
  tr_framework : bool }.
#[export] Instance TransferRef_eq_dec : EqDecision TransferRef.
Proof. solve_decision. Defined.

(** The [refs] field is a sparse dict until the residency is published. *)
Inductive Refs := RefsDict (d : gmap nat TransferRef) | RefsTuple (t : list TransferRef).

(** The cached [_layout], [_pool_counts] and [_cached_size] fields are functions
    of the immutable [slots] and are recomputed here. *)
Record Residency := {
  r_slots : list (label * Z);
  r_state : LocalDramState;
  r_claim_count : Z;
  r_retire_on_release : bool;
  r_key_layout : list label;
  r_pending_labels : option (gset label);
  r_pending_deposits : Z;
  r_writers : option (list Z);
  r_remote_indices : option (list nat);
  r_remote_cancelled : bool;
  r_refs : Refs;
  r_indices_by_label : option (gmap label (option nat));
  r_source_readers : Z }.

Definition layout_of (slots : list (label * Z)) : list label := slots.*1.
Definition r_layout (r : Residency) : list label := layout_of (r_slots r).

(** [bool(self.pending_labels)] *)
Definition pending_nonempty (r : Residency) : bool :=
  match r_pending_labels r with Some p => bool_decide (p ≠ ∅) | None => false end.

(** [__post_init__] *)
Definition new_residency (slots : list (label * Z)) (state : LocalDramState)
    (key_layout : option (list label)) (writers : option (list Z)) : Residency :=
  let pending := if decide (state = FILLING)
                 then Some (list_to_set (layout_of slots)) else None in
  let has_pending := match pending with Some p => bool_decide (p ≠ ∅) | None => false end in
  {| r_slots := slots; r_state := state; r_claim_count := 0;
     r_retire_on_release := false;
     r_key_layout := default (layout_of slots) key_layout;
     r_pending_labels := pending;
     r_pending_deposits := 0;
     r_writers := match writers with
                  | Some (_ :: _) => writers
                  | _ => if has_pending then Some (replicate (length slots) 0%Z) else writers
                  end;
     r_remote_indices := None; r_remote_cancelled := false;
     r_refs := RefsDict ∅; r_indices_by_label := None; r_source_readers := 0 |}.

(** Field updates of the mutable object. *)
Definition r_set_claims (n : Z) (r : Residency) : Residency :=
  {| r_slots := r_slots r; r_state := r_state r; r_claim_count := n;
     r_retire_on_release := r_retire_on_release r; r_key_layout := r_key_layout r;
     r_pending_labels := r_pending_labels r; r_pending_deposits := r_pending_deposits r;
     r_writers := r_writers r; r_remote_indices := r_remote_indices r;
     r_remote_cancelled := r_remote_cancelled r; r_refs := r_refs r;
     r_indices_by_label := r_indices_by_label r; r_source_readers := r_source_readers r |}.
Definition r_set_readers (n : Z) (r : Residency) : Residency :=
  {| r_slots := r_slots r; r_state := r_state r; r_claim_count := r_claim_count r;
     r_retire_on_release := r_retire_on_release r; r_key_layout := r_key_layout r;
     r_pending_labels := r_pending_labels r; r_pending_deposits := r_pending_deposits r;
     r_writers := r_writers r; r_remote_indices := r_remote_indices r;
     r_remote_cancelled := r_remote_cancelled r; r_refs := r_refs r;
     r_indices_by_label := r_indices_by_label r; r_source_readers := n |}.
Definition r_set_retire (b : bool) (r : Residency) : Residency :=
  {| r_slots := r_slots r; r_state := r_state r; r_claim_count := r_claim_count r;
     r_retire_on_release := b; r_key_layout := r_key_layout r;
     r_pending_labels := r_pending_labels r; r_pending_deposits := r_pending_deposits r;
     r_writers := r_writers r; r_remote_indices := r_remote_indices r;
     r_remote_cancelled := r_remote_cancelled r; r_refs := r_refs r;
     r_indices_by_label := r_indices_by_label r; r_source_readers := r_source_readers r |}.
Definition r_set_refs (f : Refs) (r : Residency) : Residency :=
  {| r_slots := r_slots r; r_state := r_state r; r_claim_count := r_claim_count r;
     r_retire_on_release := r_retire_on_release r; r_key_layout := r_key_layout r;
     r_pending_labels := r_pending_labels r; r_pending_deposits := r_pending_deposits r;
     r_writers := r_writers r; r_remote_indices := r_remote_indices r;
     r_remote_cancelled := r_remote_cancelled r; r_refs := f;
     r_indices_by_label := r_indices_by_label r; r_source_readers := r_source_readers r |}.
Definition r_set_index (d : option (gmap label (option nat))) (r : Residency) : Residency :=
  {| r_slots := r_slots r; r_state := r_state r; r_claim_count := r_claim_count r;
     r_retire_on_release := r_retire_on_release r; r_key_layout := r_key_layout r;
     r_pending_labels := r_pending_labels r; r_pending_deposits := r_pending_deposits r;
     r_writers := r_writers r; r_remote_indices := r_remote_indices r;
     r_remote_cancelled := r_remote_cancelled r; r_refs := r_refs r;
     r_indices_by_label := d; r_source_readers := r_source_readers r |}.
Definition r_set_fill (pending : option (gset label)) (deposits : Z)
    (writers : option (list Z)) (remote : option (list nat)) (cancelled : bool)
    (r : Residency) : Residency :=
  {| r_slots := r_slots r; r_state := r_state r; r_claim_count := r_claim_count r;
     r_retire_on_release := r_retire_on_release r; r_key_layout := r_key_layout r;
     r_pending_labels := pending; r_pending_deposits := deposits;
     r_writers := writers; r_remote_indices := remote;
     r_remote_cancelled := cancelled; r_refs := r_refs r;
     r_indices_by_label := r_indices_by_label r; r_source_readers := r_source_readers r |}.
Definition r_set_state (st : LocalDramState) (r : Residency) : Residency :=
  {| r_slots := r_slots r; r_state := st; r_claim_count := r_claim_count r;
     r_retire_on_release := r_retire_on_release r; r_key_layout := r_key_layout r;
     r_pending_labels := r_pending_labels r; r_pending_deposits := r_pending_deposits r;
     r_writers := r_writers r; r_remote_indices := r_remote_indices r;
     r_remote_cancelled := r_remote_cancelled r; r_refs := r_refs r;
     r_indices_by_label := r_indices_by_label r; r_source_readers := r_source_readers r |}.

(** [settle]: drop the fill bookkeeping once nothing is pending or in flight. *)
Definition settle (r : Residency) : Residency :=
  if pending_nonempty r then r
  else r_set_fill None (r_pending_deposits r)
    (if decide (r_pending_deposits r = 0%Z ∧ r_remote_indices r = None)
     then None else r_writers r)
    (r_remote_indices r) (r_remote_cancelled r) r.

(** Distinct elements in order of first occurrence: the keys of a Counter. *)
Fixpoint first_occurrences (seen : list string) (l : list string) : list string :=
  match l with
  | [] => []
  | x :: l => if decide (x ∈ seen) then first_occurrences seen l
              else x :: first_occurrences (x :: seen) l
  end.

(** Slots of [slots] that live in pool [p]. *)
Definition pool_count (slots : list (label * Z)) (p : string) : Z :=
  Z.of_nat (length (filter (λ x, pool_of x.1 = p) slots)).
Definition pool_counts (slots : list (label * Z)) : list (string * Z) :=
  (λ p, (p, pool_count slots p)) <$> first_occurrences [] (pool_of <$> layout_of slots).

(** [prepare_label_index] *)
Definition prepare_label_index (r : Residency) : Residency :=
  match r_indices_by_label r with
  | Some _ => r
  | None => r_set_index (Some (label_index (r_layout r))) r
  end.

(** [self.pending_labels and not self.pending_labels.isdisjoint(requested)] *)
Definition pending_overlaps (r : Residency) (requested : list label) : bool :=
  match r_pending_labels r with
  | Some p => bool_decide (¬ (p ## list_to_set requested))
  | None => false
  end.

Definition ready_indices (r : Residency) (requested : list label) : option (list nat) :=
  if pending_overlaps r requested then None
  else layout_indices (r_layout r) requested (r_indices_by_label r).

Definition can_wait_for_pieces (r : Residency) (requested : list label) : bool :=
  bool_decide (is_Some (layout_indices (r_layout r) requested (r_indices_by_label r))).

(** ** Facts about layouts *)

Lemma label_index_from_lookup layout i m l :
  label_index_from i layout m !! l =
    match m !! l, index_of l layout with
    | None, Some j => Some (if decide (count_label l layout = 1) then Some (i + j) else None)
    | None, None => None
    | Some v, None => Some v
    | Some _, Some _ => Some None
    end.
Proof.
  revert i m. induction layout as [|x layout IH]; intros i m; simpl.
  { unfold index_of. simpl. by destruct (m !! l). }
  rewrite IH. unfold index_of, count_label in *. simpl. rewrite filter_cons.
  destruct (decide (x = l)) as [->|Hne]; simpl.
  - rewrite lookup_insert_eq, Nat.add_0_r.
    destruct (list_find (λ l', l' = l) layout) as [[j y]|] eqn:E; simpl.
    + assert (0 < length (filter (λ l', l' = l) layout)) as Hpos.
      { apply list_find_Some in E as (Hy & -> & _).
        destruct (filter (λ l', l' = l) layout) eqn:Ef; simpl; [|lia].
        assert (l ∈ filter (λ l', l' = l) layout) as Hin; [|rewrite Ef in Hin; set_solver].
        apply list_elem_of_filter. split; [done|]. by eapply list_elem_of_lookup_2. }
      destruct (m !! l) as [v|]; simpl; [done|].
      rewrite decide_False by lia. done.
    + assert (filter (λ l', l' = l) layout = []) as ->.
      { apply list_find_None in E. destruct (filter _ layout) eqn:Ef; [done|].
        assert (s ∈ filter (λ l', l' = l) layout) as [H1 H2]%list_elem_of_filter
          by (rewrite Ef; left). rewrite list.Forall_forall in E. by destruct (E s H2). }
      simpl. destruct (m !! l) as [v|]; simpl; done.
  - rewrite lookup_insert_ne by done.
    destruct (list_find (λ l', l' = l) layout) as [[j y]|]; simpl; [|done].
    destruct (m !! l); [done|]. by rewrite Nat.add_succ_r.
Qed.

(** The cached index answers as the scan of the layout does. *)
Lemma get_index_label_index layout l :
  get_index (label_index layout) l =
    if decide (count_label l layout = 1) then index_of l layout else None.
Proof.
  unfold get_index, label_index. rewrite label_index_from_lookup, lookup_empty.
  destruct (index_of l layout) as [j|] eqn:E; simpl.
  - by case_decide.
  - by case_decide.
Qed.

Lemma index_of_lookup layout l i : index_of l layout = Some i → layout !! i = Some l.
Proof.
  unfold index_of. intros ([j y] & E & ->)%fmap_Some.
  apply list_find_Some in E as (E & -> & _). done.
Qed.

Lemma index_of_unique layout l : count_label l layout = 1 → is_Some (index_of l layout).
Proof.
  unfold count_label, index_of. intros Hc.
  destruct (list_find (λ l', l' = l) layout) as [[j y]|] eqn:E; [by eexists|].
  apply list_find_None in E. destruct (filter _ layout) eqn:Ef; [done|].
  assert (s ∈ filter (λ l', l' = l) layout) as [H1 H2]%list_elem_of_filter
    by (rewrite Ef; left). rewrite list.Forall_forall in E. by destruct (E s H2).
Qed.

Lemma indices_in_lookup i labels layout j :
  j ∈ indices_in i labels layout → ∃ k, j = i + k ∧
    ∃ l, layout !! k = Some l ∧ l ∈ labels.
Proof.
  revert i. induction layout as [|l layout IH]; intros i; simpl; [set_solver|].
  case_decide as Hl; [intros [->|Hj]%elem_of_cons|intros Hj].
  - exists 0. split; [lia|]. by exists l.
  - destruct (IH _ Hj) as (k & -> & Hk). exists (S k). split; [lia|done].
  - destruct (IH _ Hj) as (k & -> & Hk). exists (S k). split; [lia|done].
Qed.

Lemma indices_in_NoDup i labels layout : NoDup (indices_in i labels layout).
Proof.
  revert i. induction layout as [|l layout IH]; intros i; simpl; [constructor|].
  case_decide; [|done]. constructor; [|done].
  intros (k & ? & _)%indices_in_lookup. lia.
Qed.

Lemma indices_in_labels i labels layout pre : length pre = i →
  omap (λ j, (pre ++ layout) !! j) (indices_in i labels layout) =
    filter (λ l, l ∈ labels) layout.
Proof.
  revert i pre. induction layout as [|l layout IH]; intros i pre Hi; simpl; [done|].
  specialize (IH (S i) (pre ++ [l])). rewrite <- app_assoc in IH. simpl in IH.
  rewrite length_app in IH. simpl in IH. specialize (IH ltac:(lia)).
  rewrite filter_cons. case_decide as Hl; simpl; [|done].
  rewrite lookup_app_r by lia. rewrite Hi, Nat.sub_diag. simpl. f_equal. exact IH.
Qed.

Lemma omap_Some_fmap {A B} (f : A → option B) (l : list A) (k : list B) :
  Forall (λ x, is_Some (f x)) l → omap f l = k → f <$> l = Some <$> k.
Proof.
  intros Hl <-. induction Hl as [|x l [y Hy] _ IH]; simpl; [done|]. rewrite Hy. simpl.
  by f_equal.
Qed.

Lemma mapM_indices_NoDup (layout requested : list label) (idx : list nat) (f : label → option nat) :
  NoDup requested → (∀ l i, f l = Some i → layout !! i = Some l) →
  mapM f requested = Some idx →
  (λ i, layout !! i) <$> idx = Some <$> requested ∧ NoDup idx.
Proof.
  intros Hnd Hf Hm. apply mapM_Some in Hm.
  assert (Hmap : (λ i, layout !! i) <$> idx = Some <$> requested).
  { clear Hnd. induction Hm as [|l i requested idx Hl _ IH]; simpl; [done|].
    f_equal; [by apply Hf | exact IH]. }
  split; [done|]. apply (NoDup_fmap_1 (λ i, layout !! i)). rewrite Hmap.
  by apply NoDup_fmap_2; [apply _|].
Qed.

(** The indices pick the requested labels in the requested order. *)
Lemma layout_indices_picks (layout requested : list label) cached (idx : list nat) :
  (∀ d, cached = Some d → d = label_index layout) →
  layout_indices layout requested cached = Some idx →
  (λ i, layout !! i) <$> idx = Some <$> requested ∧ NoDup idx.
Proof.
  intros Hc. unfold layout_indices. case_decide as He.
  { intros [= <-]. subst requested. split; [|apply NoDup_seq].
    apply list_eq. intros i. rewrite !list_lookup_fmap.
    destruct (decide (i < length layout)) as [Hi|Hi].
    - rewrite lookup_seq_lt by done. simpl.
      destruct (lookup_lt_is_Some_2 layout i Hi) as [x Hx]. by rewrite Hx.
    - rewrite lookup_seq_ge, (lookup_ge_None_2 layout) by lia. done. }
  case_decide as Hr; [done|]. case_decide as Hnd.
  - destruct cached as [d|].
    + rewrite (Hc d eq_refl). apply mapM_indices_NoDup; [done|].
      intros l i. rewrite get_index_label_index. case_decide; [|done]. apply index_of_lookup.
    + case_decide; [|done]. apply mapM_indices_NoDup; [done|]. apply index_of_lookup.
  - case_decide as Hm; [|done]. intros [= <-]. split; [|apply indices_in_NoDup].
    apply omap_Some_fmap; [|done]. rewrite list.Forall_forall.
    intros j (k & -> & l & Hl & _)%indices_in_lookup. simpl. by rewrite Hl.
Qed.

(** The label index cached on a residency is an optimisation only. *)
Lemma layout_indices_cached layout requested :
  layout_indices layout requested (Some (label_index layout)) =
  layout_indices layout requested None.
Proof.
  unfold layout_indices. do 2 (case_decide; [done|]). case_decide; [|done].
  case_decide as Hu.
  - apply mapM_ext_Forall. eapply list.Forall_impl; [exact Hu|]. simpl.
    intros l Hl. by rewrite get_index_label_index, decide_True.
  - apply mapM_None. apply not_Forall_Exists in Hu; [|apply _].
    eapply Exists_impl; [exact Hu|]. simpl.
    intros l Hl. by rewrite get_index_label_index, decide_False.
Qed.

(** The label index of a residency, when built, is that of its layout. *)
Definition index_ok (r : Residency) : Prop :=
  ∀ d, r_indices_by_label r = Some d → d = label_index (r_layout r).

Lemma index_ok_prepare r : index_ok r → index_ok (prepare_label_index r).
Proof.
  unfold prepare_label_index. destruct (r_indices_by_label r) as [d|] eqn:Hd; [done|].
  intros _ d' [= <-]. done.
Qed.

(** ** Properties *)

(** whatever the request, the indices returned pick exactly the requested
    labels in the requested order and use no position of the layout twice, and
    the label index cached on a residency never changes the answer of the
    scan over its layout. *)
Theorem layout_indices_sound (layout requested : list label) cached :
  (∀ d, cached = Some d → d = label_index layout) →
  layout_indices layout requested cached = layout_indices layout requested None ∧
  ∀ idx, layout_indices layout requested cached = Some idx →
    (λ i, layout !! i) <$> idx = Some <$> requested ∧ NoDup idx.
Proof.
  intros Hc. split; [|intros idx; by apply layout_indices_picks].
  destruct cached as [d|]; [|done]. rewrite (Hc d eq_refl). apply layout_indices_cached.
Qed.

Lemma layout_indices_sound_witness :
  layout_indices ["a:k"; "a:v"; "b"] ["b"; "a:k"] (Some (label_index ["a:k"; "a:v"; "b"]))
    = Some [2; 0] ∧
  (λ i, ["a:k"; "a:v"; "b"] !! i) <$> [2; 0] = Some <$> ["b"; "a:k"].
Proof.
  split; [vm_compute; reflexivity|].
  apply (layout_indices_sound ["a:k"; "a:v"; "b"] ["b"; "a:k"]
    (Some (label_index ["a:k"; "a:v"; "b"]))).
  - by intros d [= <-].
  - vm_compute. reflexivity.
Defined.

(** a piece is served from a residency only when none of the requested
    labels is still waiting for a copy. *)
Theorem ready_indices_readable r requested idx :
  index_ok r →
  ready_indices r requested = Some idx →
  Forall (λ i, ∃ l slot, r_slots r !! i = Some (l, slot) ∧ l ∈ requested ∧
    ∀ p, r_pending_labels r = Some p → l ∉ p) idx.
Proof.
  intros Hc. unfold ready_indices. destruct (pending_overlaps r requested) eqn:Eo; [done|].
  intros Hi. destruct (layout_indices_picks _ _ _ _ Hc Hi) as [Hmap _].
  rewrite list.Forall_forall. intros i Hin.
  assert (r_layout r !! i ∈ Some <$> requested) as (l & Hl & Hreq)%list_elem_of_fmap.
  { rewrite <- Hmap. apply list_elem_of_fmap. eauto. }
  unfold r_layout, layout_of in Hl. rewrite list_lookup_fmap in Hl.
  apply fmap_Some in Hl as ([l' slot] & Hs & ->).
  exists l', slot. split_and!; [done|done|]. intros p Hp Hlp.
  unfold pending_overlaps in Eo. rewrite Hp in Eo. apply bool_decide_eq_false in Eo.
  apply Eo. intros Hdis. apply (Hdis l' Hlp). by apply elem_of_list_to_set.
Qed.

Definition demo_filling : Residency :=
  r_set_fill (Some {[ "a:v" ]}) 1 None None false
    (new_residency [("a:k", 3%Z); ("a:v", 5%Z)] FILLING None None).
Lemma ready_indices_readable_witness :
  ready_indices demo_filling ["a:v"] = None ∧
  Forall (λ i, ∃ l slot, r_slots demo_filling !! i = Some (l, slot) ∧ l ∈ ["a:k"] ∧
    ∀ p, r_pending_labels demo_filling = Some p → l ∉ p) [0].
Proof.
  split; [vm_compute; reflexivity|].
  apply (ready_indices_readable demo_filling ["a:k"] [0]).
  - intros d. discriminate.
  - vm_compute. reflexivity.
Defined.
