(* ===== verification/State.v ===== *)
(** * Shared state

    KVCR's backends are objects that hold references to one another and to the
    core's tables.  This file has the records of that object graph: block
    records ([src/src/kvcr/runtime/core.py]), the source state and attributes of
    the local DRAM pools ([backends/local_dram_pools.py]) and of the G3 tier
    ([backends/local_disk.py]), and the environment of one KVCR instance. *)

From Stdlib Require Import ZArith Lia.
From S2P Require Import Prelude PyFloat Types PolicyRuntime Layout.

(** Operation identities: a kind and a handle or a block key. *)
Inductive OpArg := ArgInt (n : Z) | ArgKey (k : BlockKey).
#[export] Instance OpArg_eq_dec : EqDecision OpArg.
Proof. solve_decision. Defined.
#[export] Instance OpArg_countable : Countable OpArg.
Proof.
  refine (inj_countable
    (λ a, match a with ArgInt n => inl n | ArgKey k => inr k end)
    (λ x, Some (match x with inl n => ArgInt n | inr k => ArgKey k end)) _).
  by intros [].
Defined.
Notation OpId := (string * OpArg)%type (only parsing).

(** [_FwMemResidency] of remote_sources.py: framework memory pinned for reading. *)
Record FwMem := mkFwMem { fw_descriptors : list TransferRef; fw_pin_handle : string }.

(** [_BlockRecord] of core.py.  Residencies are shared objects, so the record holds
    their references; [None] in [in_flight_ops] is the absent set. *)
Record BlockRecord := mkBlockRecord {
  b_fw_mem : option FwMem;
  b_local_dram : option nat;
  b_g3 : option nat;
  b_in_flight_ops : option (gset OpId);
  b_access_count : Z;
  b_last_access : option float;
  b_position : Z }.

Definition set_b_fw_mem (v : option FwMem) (b : BlockRecord) : BlockRecord :=
  mkBlockRecord v (b_local_dram b) (b_g3 b) (b_in_flight_ops b) (b_access_count b) (b_last_access b) (b_position b).
Definition set_b_local_dram (v : option nat) (b : BlockRecord) : BlockRecord :=
  mkBlockRecord (b_fw_mem b) v (b_g3 b) (b_in_flight_ops b) (b_access_count b) (b_last_access b) (b_position b).
Definition set_b_g3 (v : option nat) (b : BlockRecord) : BlockRecord :=
  mkBlockRecord (b_fw_mem b) (b_local_dram b) v (b_in_flight_ops b) (b_access_count b) (b_last_access b) (b_position b).
Definition set_b_in_flight_ops (v : option (gset OpId)) (b : BlockRecord) : BlockRecord :=
  mkBlockRecord (b_fw_mem b) (b_local_dram b) (b_g3 b) v (b_access_count b) (b_last_access b) (b_position b).
Definition set_b_access_count (v : Z) (b : BlockRecord) : BlockRecord :=
  mkBlockRecord (b_fw_mem b) (b_local_dram b) (b_g3 b) (b_in_flight_ops b) v (b_last_access b) (b_position b).
Definition set_b_last_access (v : option float) (b : BlockRecord) : BlockRecord :=
  mkBlockRecord (b_fw_mem b) (b_local_dram b) (b_g3 b) (b_in_flight_ops b) (b_access_count b) v (b_position b).
Definition set_b_position (v : Z) (b : BlockRecord) : BlockRecord :=
  mkBlockRecord (b_fw_mem b) (b_local_dram b) (b_g3 b) (b_in_flight_ops b) (b_access_count b) (b_last_access b) v.

Definition empty_record : BlockRecord := mkBlockRecord None None None None 0 None (-1).

(** [_G3Residency] of local_disk.py. *)
Record G3Residency := mkG3Residency {
  g_layout : list label;
  g_slots : list Z;
  g_claim_count : Z }.

(** [_G3TransferOp]: the fields fixed at submission, and [go_ident] for the object's
    identity.  Reservations and claims are pairs of a key and a residency reference. *)
Inductive G3Kind := KStore | KFill | KDeliver.
#[export] Instance G3Kind_eq_dec : EqDecision G3Kind.
Proof. solve_decision. Defined.
Record MemDescriptor := mkMemDescriptor {
  md_mem_type : string; md_addr : Z; md_size : Z; md_device : Z }.
Record G3TransferOp := mkG3TransferOp {
  go_ident : nat;
  go_op_id : OpId;
  go_kind : G3Kind;
  go_ordered_keys : list BlockKey;
  go_memory_descriptors : list MemDescriptor;
  go_file_descriptors : list MemDescriptor;
  go_deadline : float;
  go_reservations : list (BlockKey * nat);
  go_claims : list (BlockKey * nat);
  go_memory_refs : list TransferRef;
  go_lifecycle_handle : option Z;
  go_abandon_deadline : option float }.

(** The operations of [_LocalDram]: a deposit or fetch, and a delivery.  Other objects
    refer to them, so they live in a store of their own; the policy hints of a deposit are
    not modelled. *)

(** [_PendingResidencyOp] *)
Record ResidencyOp := mkResidencyOp {
  ro_op_id : OpId;
  ro_keys : gset BlockKey;
  ro_deadline : float;
  ro_claim_on_ready : bool;
  ro_request_id : option string;
  ro_results : gmap BlockKey OpEntryResult;
  ro_remote_fill_keys : gset BlockKey;
  ro_capacity_waiters : gset BlockKey;
  ro_sources : option (list (BlockKey * list TransferRef));
  ro_active_keys : gset BlockKey;
  ro_requested_layout : list label;
  ro_key_layout : option (list label);
  ro_fill_sources : gmap BlockKey CacheTier;
  ro_claimed_keys : gset BlockKey }.

Definition set_ro_results (v : gmap BlockKey OpEntryResult) (o : ResidencyOp) : ResidencyOp :=
  mkResidencyOp (ro_op_id o) (ro_keys o) (ro_deadline o) (ro_claim_on_ready o) (ro_request_id o) v (ro_remote_fill_keys o) (ro_capacity_waiters o) (ro_sources o) (ro_active_keys o) (ro_requested_layout o) (ro_key_layout o) (ro_fill_sources o) (ro_claimed_keys o).
Definition set_ro_remote_fill_keys (v : gset BlockKey) (o : ResidencyOp) : ResidencyOp :=
  mkResidencyOp (ro_op_id o) (ro_keys o) (ro_deadline o) (ro_claim_on_ready o) (ro_request_id o) (ro_results o) v (ro_capacity_waiters o) (ro_sources o) (ro_active_keys o) (ro_requested_layout o) (ro_key_layout o) (ro_fill_sources o) (ro_claimed_keys o).
Definition set_ro_capacity_waiters (v : gset BlockKey) (o : ResidencyOp) : ResidencyOp :=
  mkResidencyOp (ro_op_id o) (ro_keys o) (ro_deadline o) (ro_claim_on_ready o) (ro_request_id o) (ro_results o) (ro_remote_fill_keys o) v (ro_sources o) (ro_active_keys o) (ro_requested_layout o) (ro_key_layout o) (ro_fill_sources o) (ro_claimed_keys o).
Definition set_ro_active_keys (v : gset BlockKey) (o : ResidencyOp) : ResidencyOp :=
  mkResidencyOp (ro_op_id o) (ro_keys o) (ro_deadline o) (ro_claim_on_ready o) (ro_request_id o) (ro_results o) (ro_remote_fill_keys o) (ro_capacity_waiters o) (ro_sources o) v (ro_requested_layout o) (ro_key_layout o) (ro_fill_sources o) (ro_claimed_keys o).
Definition set_ro_claimed_keys (v : gset BlockKey) (o : ResidencyOp) : ResidencyOp :=
  mkResidencyOp (ro_op_id o) (ro_keys o) (ro_deadline o) (ro_claim_on_ready o) (ro_request_id o) (ro_results o) (ro_remote_fill_keys o) (ro_capacity_waiters o) (ro_sources o) (ro_active_keys o) (ro_requested_layout o) (ro_key_layout o) (ro_fill_sources o) v.

(** [_PendingDeliverOp] *)
Record DeliverOp := mkDeliverOp {
  do_op_id : OpId;
  do_keys : gset BlockKey;
  do_deadline : float;
  do_destinations : list (BlockKey * list TransferRef);
  do_results : gmap BlockKey OpEntryResult;
  do_active_keys : gset BlockKey;
  do_claimed_keys : gset BlockKey }.

Definition set_do_results (v : gmap BlockKey OpEntryResult) (o : DeliverOp) : DeliverOp :=
  mkDeliverOp (do_op_id o) (do_keys o) (do_deadline o) (do_destinations o) v (do_active_keys o) (do_claimed_keys o).
Definition set_do_active_keys (v : gset BlockKey) (o : DeliverOp) : DeliverOp :=
  mkDeliverOp (do_op_id o) (do_keys o) (do_deadline o) (do_destinations o) (do_results o) v (do_claimed_keys o).
Definition set_do_claimed_keys (v : gset BlockKey) (o : DeliverOp) : DeliverOp :=
  mkDeliverOp (do_op_id o) (do_keys o) (do_deadline o) (do_destinations o) (do_results o) (do_active_keys o) v.

(** [_LocalCopyOp]: the fields fixed at submission.  [lc_deposit_op] refers to the
    deposit the copy writes for. *)
Record LocalCopyOp := mkLocalCopyOp {
  lc_op_id : OpId;
  lc_deliver_op_id : option OpId;
  lc_ordered_keys : list BlockKey;
  lc_local_indices : list (list nat);
  lc_src_descriptors : list TransferRef;
  lc_dst_descriptors : list TransferRef;
  lc_deadline : float;
  lc_abandon_deadline : float;
  lc_backend : string;
  lc_deposit_op : option nat }.

(** ** Remote transfers ([backends/remote_ops.py], [remote_sources.py]) *)

Inductive TargetPullState :=
  START_WRITE | WAITING_WRITE_DONE | WAITING_TERMINAL | QUARANTINED | PULL_FINISHED.
#[export] Instance TargetPullState_eq_dec : EqDecision TargetPullState.
Proof. solve_decision. Defined.
Inductive SourceWriteState :=
  READY_TO_WRITE | NOTIFY_FAILURE | WRITING | CANCEL_PENDING | WRITE_FINISHED.
#[export] Instance SourceWriteState_eq_dec : EqDecision SourceWriteState.
Proof. solve_decision. Defined.

(** [_TargetPullOp]; its identity is [("target", handle)]. *)
Record TargetPull := mkTargetPull {
  tp_op_handle : Z;
  tp_keys : gset BlockKey;
  tp_deadline : float;
  tp_state : TargetPullState;
  tp_local_fill : bool;
  tp_remote_ctrl_ep : string;
  tp_ordered_keys : list BlockKey;
  tp_dst_descriptors : list (list TransferRef);
  tp_request_id : option string;
  tp_key_layout : list label;
  tp_success : bool;
  tp_completed_keys : gset BlockKey;
  tp_probe_sent : bool;
  tp_source_incarnation : option string;
  tp_uncertain : bool;
  tp_retried : bool }.

Definition set_tp_deadline (v : float) (o : TargetPull) : TargetPull :=
  mkTargetPull (tp_op_handle o) (tp_keys o) v (tp_state o) (tp_local_fill o) (tp_remote_ctrl_ep o) (tp_ordered_keys o) (tp_dst_descriptors o) (tp_request_id o) (tp_key_layout o) (tp_success o) (tp_completed_keys o) (tp_probe_sent o) (tp_source_incarnation o) (tp_uncertain o) (tp_retried o).
Definition set_tp_state (v : TargetPullState) (o : TargetPull) : TargetPull :=
  mkTargetPull (tp_op_handle o) (tp_keys o) (tp_deadline o) v (tp_local_fill o) (tp_remote_ctrl_ep o) (tp_ordered_keys o) (tp_dst_descriptors o) (tp_request_id o) (tp_key_layout o) (tp_success o) (tp_completed_keys o) (tp_probe_sent o) (tp_source_incarnation o) (tp_uncertain o) (tp_retried o).
Definition set_tp_success (v : bool) (o : TargetPull) : TargetPull :=
  mkTargetPull (tp_op_handle o) (tp_keys o) (tp_deadline o) (tp_state o) (tp_local_fill o) (tp_remote_ctrl_ep o) (tp_ordered_keys o) (tp_dst_descriptors o) (tp_request_id o) (tp_key_layout o) v (tp_completed_keys o) (tp_probe_sent o) (tp_source_incarnation o) (tp_uncertain o) (tp_retried o).
Definition set_tp_completed_keys (v : gset BlockKey) (o : TargetPull) : TargetPull :=
  mkTargetPull (tp_op_handle o) (tp_keys o) (tp_deadline o) (tp_state o) (tp_local_fill o) (tp_remote_ctrl_ep o) (tp_ordered_keys o) (tp_dst_descriptors o) (tp_request_id o) (tp_key_layout o) (tp_success o) v (tp_probe_sent o) (tp_source_incarnation o) (tp_uncertain o) (tp_retried o).
Definition set_tp_probe_sent (v : bool) (o : TargetPull) : TargetPull :=
  mkTargetPull (tp_op_handle o) (tp_keys o) (tp_deadline o) (tp_state o) (tp_local_fill o) (tp_remote_ctrl_ep o) (tp_ordered_keys o) (tp_dst_descriptors o) (tp_request_id o) (tp_key_layout o) (tp_success o) (tp_completed_keys o) v (tp_source_incarnation o) (tp_uncertain o) (tp_retried o).
Definition set_tp_source_incarnation (v : option string) (o : TargetPull) : TargetPull :=
  mkTargetPull (tp_op_handle o) (tp_keys o) (tp_deadline o) (tp_state o) (tp_local_fill o) (tp_remote_ctrl_ep o) (tp_ordered_keys o) (tp_dst_descriptors o) (tp_request_id o) (tp_key_layout o) (tp_success o) (tp_completed_keys o) (tp_probe_sent o) v (tp_uncertain o) (tp_retried o).
Definition set_tp_uncertain (v : bool) (o : TargetPull) : TargetPull :=
  mkTargetPull (tp_op_handle o) (tp_keys o) (tp_deadline o) (tp_state o) (tp_local_fill o) (tp_remote_ctrl_ep o) (tp_ordered_keys o) (tp_dst_descriptors o) (tp_request_id o) (tp_key_layout o) (tp_success o) (tp_completed_keys o) (tp_probe_sent o) (tp_source_incarnation o) v (tp_retried o).
Definition set_tp_retried (v : bool) (o : TargetPull) : TargetPull :=
  mkTargetPull (tp_op_handle o) (tp_keys o) (tp_deadline o) (tp_state o) (tp_local_fill o) (tp_remote_ctrl_ep o) (tp_ordered_keys o) (tp_dst_descriptors o) (tp_request_id o) (tp_key_layout o) (tp_success o) (tp_completed_keys o) (tp_probe_sent o) (tp_source_incarnation o) (tp_uncertain o) v.

(** [_SourceWriteOp]; its identity is [("source", sw_source_op)]. *)
Record SourceWrite := mkSourceWrite {
  sw_source_op : Z;
  sw_keys : gset BlockKey;
  sw_deadline : float;
  sw_state : SourceWriteState;
  sw_remote_agent : string;
  sw_op_handle : Z;
  sw_source_keys : list BlockKey;
  sw_dst_descriptors : list (list TransferRef);
  sw_src_descriptors : list (list TransferRef);
  sw_transfer_id : option Z;
  sw_success : bool;
  sw_completed_indices : list nat;
  sw_route : string * Z;
  sw_local_sources : option (list nat) }.

Definition set_sw_keys (v : gset BlockKey) (o : SourceWrite) : SourceWrite :=
  mkSourceWrite (sw_source_op o) v (sw_deadline o) (sw_state o) (sw_remote_agent o) (sw_op_handle o) (sw_source_keys o) (sw_dst_descriptors o) (sw_src_descriptors o) (sw_transfer_id o) (sw_success o) (sw_completed_indices o) (sw_route o) (sw_local_sources o).
Definition set_sw_state (v : SourceWriteState) (o : SourceWrite) : SourceWrite :=
  mkSourceWrite (sw_source_op o) (sw_keys o) (sw_deadline o) v (sw_remote_agent o) (sw_op_handle o) (sw_source_keys o) (sw_dst_descriptors o) (sw_src_descriptors o) (sw_transfer_id o) (sw_success o) (sw_completed_indices o) (sw_route o) (sw_local_sources o).
Definition set_sw_source_keys (v : list BlockKey) (o : SourceWrite) : SourceWrite :=
  mkSourceWrite (sw_source_op o) (sw_keys o) (sw_deadline o) (sw_state o) (sw_remote_agent o) (sw_op_handle o) v (sw_dst_descriptors o) (sw_src_descriptors o) (sw_transfer_id o) (sw_success o) (sw_completed_indices o) (sw_route o) (sw_local_sources o).
Definition set_sw_dst_descriptors (v : list (list TransferRef)) (o : SourceWrite) : SourceWrite :=
  mkSourceWrite (sw_source_op o) (sw_keys o) (sw_deadline o) (sw_state o) (sw_remote_agent o) (sw_op_handle o) (sw_source_keys o) v (sw_src_descriptors o) (sw_transfer_id o) (sw_success o) (sw_completed_indices o) (sw_route o) (sw_local_sources o).
Definition set_sw_src_descriptors (v : list (list TransferRef)) (o : SourceWrite) : SourceWrite :=
  mkSourceWrite (sw_source_op o) (sw_keys o) (sw_deadline o) (sw_state o) (sw_remote_agent o) (sw_op_handle o) (sw_source_keys o) (sw_dst_descriptors o) v (sw_transfer_id o) (sw_success o) (sw_completed_indices o) (sw_route o) (sw_local_sources o).
Definition set_sw_transfer_id (v : option Z) (o : SourceWrite) : SourceWrite :=
  mkSourceWrite (sw_source_op o) (sw_keys o) (sw_deadline o) (sw_state o) (sw_remote_agent o) (sw_op_handle o) (sw_source_keys o) (sw_dst_descriptors o) (sw_src_descriptors o) v (sw_success o) (sw_completed_indices o) (sw_route o) (sw_local_sources o).
Definition set_sw_success (v : bool) (o : SourceWrite) : SourceWrite :=
  mkSourceWrite (sw_source_op o) (sw_keys o) (sw_deadline o) (sw_state o) (sw_remote_agent o) (sw_op_handle o) (sw_source_keys o) (sw_dst_descriptors o) (sw_src_descriptors o) (sw_transfer_id o) v (sw_completed_indices o) (sw_route o) (sw_local_sources o).
Definition set_sw_completed_indices (v : list nat) (o : SourceWrite) : SourceWrite :=
  mkSourceWrite (sw_source_op o) (sw_keys o) (sw_deadline o) (sw_state o) (sw_remote_agent o) (sw_op_handle o) (sw_source_keys o) (sw_dst_descriptors o) (sw_src_descriptors o) (sw_transfer_id o) (sw_success o) v (sw_route o) (sw_local_sources o).
Definition set_sw_local_sources (v : option (list nat)) (o : SourceWrite) : SourceWrite :=
  mkSourceWrite (sw_source_op o) (sw_keys o) (sw_deadline o) (sw_state o) (sw_remote_agent o) (sw_op_handle o) (sw_source_keys o) (sw_dst_descriptors o) (sw_src_descriptors o) (sw_transfer_id o) (sw_success o) (sw_completed_indices o) (sw_route o) v.

(** [_SourcePinOp], with the same identity as its write. *)
Record SourcePin := mkSourcePin {
  sp_source_op : Z;
  sp_keys : gset BlockKey;
  sp_deadline : float;
  sp_remote_agent : string;
  sp_op_handle : Z;
  sp_ordered_keys : list BlockKey;
  sp_dst_descriptors : list (list TransferRef);
  sp_route : string * Z;
  sp_key_layout : list label;
  sp_framework_pins : gset string;
  sp_pending_pin_ids : gset Z;
  sp_acquire_attempted : bool }.

Definition set_sp_keys (v : gset BlockKey) (o : SourcePin) : SourcePin :=
  mkSourcePin (sp_source_op o) v (sp_deadline o) (sp_remote_agent o) (sp_op_handle o) (sp_ordered_keys o) (sp_dst_descriptors o) (sp_route o) (sp_key_layout o) (sp_framework_pins o) (sp_pending_pin_ids o) (sp_acquire_attempted o).
Definition set_sp_framework_pins (v : gset string) (o : SourcePin) : SourcePin :=
  mkSourcePin (sp_source_op o) (sp_keys o) (sp_deadline o) (sp_remote_agent o) (sp_op_handle o) (sp_ordered_keys o) (sp_dst_descriptors o) (sp_route o) (sp_key_layout o) v (sp_pending_pin_ids o) (sp_acquire_attempted o).
Definition set_sp_pending_pin_ids (v : gset Z) (o : SourcePin) : SourcePin :=
  mkSourcePin (sp_source_op o) (sp_keys o) (sp_deadline o) (sp_remote_agent o) (sp_op_handle o) (sp_ordered_keys o) (sp_dst_descriptors o) (sp_route o) (sp_key_layout o) (sp_framework_pins o) v (sp_acquire_attempted o).
Definition set_sp_acquire_attempted (v : bool) (o : SourcePin) : SourcePin :=
  mkSourcePin (sp_source_op o) (sp_keys o) (sp_deadline o) (sp_remote_agent o) (sp_op_handle o) (sp_ordered_keys o) (sp_dst_descriptors o) (sp_route o) (sp_key_layout o) (sp_framework_pins o) (sp_pending_pin_ids o) v.

(** [_PendingPinWait]: a framework pin request and the operations waiting on it. *)
Record PinWait := mkPinWait { pw_keys : list BlockKey; pw_op_ids : gset Z }.
(** [_RequestHint] *)
Record RequestHint := mkRequestHint {
  rh_source : option string;
  rh_block_hashes : gset Z;
  rh_failed : bool;
  rh_missing_keys : gset BlockKey }.
(** The framework's pinning callbacks. *)
Inductive PinCall := RequestPin (keys : list BlockKey) | PollPins | CancelPin (request : Z) | ReleasePin (pin : string).

(** What the remote tier's progress side hands to the main thread: operations, and the number
    of connected peers ([_ProgressUpdate]). *)
Inductive RemoteItem :=
  | ItemPull (op : TargetPull) | ItemWrite (op : SourceWrite) | ItemPin (op : SourcePin)
  | ItemUpdate (connected_remote_count : Z).

(** Items queued for the progress thread. *)
Inductive Submission :=
  | SubmitG3 (op : G3TransferOp) | SubmitCopy (op : LocalCopyOp)
  | SubmitPull (op : TargetPull) | SubmitWrite (op : SourceWrite) | SubmitMetadata (endpoint : string).

(** [_SourceState]: reader state shared with the progress thread.  Each operation
    on it holds its lock throughout and is one atomic step. *)
Record SourceState := mkSourceState {
  ss_index : gmap BlockKey (option nat);
  ss_active : gmap BlockKey nat;
  ss_operations : Z;
  ss_completions : list (list BlockKey * list nat * bool) }.

Definition set_ss_index (v : gmap BlockKey (option nat)) (x : SourceState) : SourceState :=
  mkSourceState v (ss_active x) (ss_operations x) (ss_completions x).
Definition set_ss_active (v : gmap BlockKey nat) (x : SourceState) : SourceState :=
  mkSourceState (ss_index x) v (ss_operations x) (ss_completions x).
Definition set_ss_operations (v : Z) (x : SourceState) : SourceState :=
  mkSourceState (ss_index x) (ss_active x) v (ss_completions x).
Definition set_ss_completions (v : list (list BlockKey * list nat * bool)) (x : SourceState) : SourceState :=
  mkSourceState (ss_index x) (ss_active x) (ss_operations x) v.

(** The mutable attributes of [_LocalDramPools]. *)
Record PoolState := mkPoolState {
  p_source : SourceState;
  p_draining : bool;
  p_free : gmap string (list Z);
  p_evictable : EvictionQueue;
  p_evictable_slots : gmap string Z;
  p_unscored : gset BlockKey;
  p_capacity_key : option BlockKey;
  p_claims : gmap Z (BlockKey * nat);
  p_next_handle : Z }.

Definition set_p_source (v : SourceState) (p : PoolState) : PoolState :=
  mkPoolState v (p_draining p) (p_free p) (p_evictable p) (p_evictable_slots p) (p_unscored p) (p_capacity_key p) (p_claims p) (p_next_handle p).
Definition set_p_draining (v : bool) (p : PoolState) : PoolState :=
  mkPoolState (p_source p) v (p_free p) (p_evictable p) (p_evictable_slots p) (p_unscored p) (p_capacity_key p) (p_claims p) (p_next_handle p).
Definition set_p_free (v : gmap string (list Z)) (p : PoolState) : PoolState :=
  mkPoolState (p_source p) (p_draining p) v (p_evictable p) (p_evictable_slots p) (p_unscored p) (p_capacity_key p) (p_claims p) (p_next_handle p).
Definition set_p_evictable (v : EvictionQueue) (p : PoolState) : PoolState :=
  mkPoolState (p_source p) (p_draining p) (p_free p) v (p_evictable_slots p) (p_unscored p) (p_capacity_key p) (p_claims p) (p_next_handle p).
Definition set_p_evictable_slots (v : gmap string Z) (p : PoolState) : PoolState :=
  mkPoolState (p_source p) (p_draining p) (p_free p) (p_evictable p) v (p_unscored p) (p_capacity_key p) (p_claims p) (p_next_handle p).
Definition set_p_unscored (v : gset BlockKey) (p : PoolState) : PoolState :=
  mkPoolState (p_source p) (p_draining p) (p_free p) (p_evictable p) (p_evictable_slots p) v (p_capacity_key p) (p_claims p) (p_next_handle p).
Definition set_p_capacity_key (v : option BlockKey) (p : PoolState) : PoolState :=
  mkPoolState (p_source p) (p_draining p) (p_free p) (p_evictable p) (p_evictable_slots p) (p_unscored p) v (p_claims p) (p_next_handle p).
Definition set_p_claims (v : gmap Z (BlockKey * nat)) (p : PoolState) : PoolState :=
  mkPoolState (p_source p) (p_draining p) (p_free p) (p_evictable p) (p_evictable_slots p) (p_unscored p) (p_capacity_key p) v (p_next_handle p).
Definition set_p_next_handle (v : Z) (p : PoolState) : PoolState :=
  mkPoolState (p_source p) (p_draining p) (p_free p) (p_evictable p) (p_evictable_slots p) (p_unscored p) (p_capacity_key p) (p_claims p) v.

(** The mutable attributes of [_G3]. *)
Record G3State := mkG3State {
  g3_free : list Z;
  g3_evictable : EvictionQueue;
  g3_evictable_slots : Z;
  g3_unscored : gset BlockKey;
  g3_pending_keys : gset BlockKey;
  g3_active : gmap OpId G3TransferOp }.

Definition set_g3_free (v : list Z) (g : G3State) : G3State :=
  mkG3State v (g3_evictable g) (g3_evictable_slots g) (g3_unscored g) (g3_pending_keys g) (g3_active g).
Definition set_g3_evictable (v : EvictionQueue) (g : G3State) : G3State :=
  mkG3State (g3_free g) v (g3_evictable_slots g) (g3_unscored g) (g3_pending_keys g) (g3_active g).
Definition set_g3_evictable_slots (v : Z) (g : G3State) : G3State :=
  mkG3State (g3_free g) (g3_evictable g) v (g3_unscored g) (g3_pending_keys g) (g3_active g).
Definition set_g3_unscored (v : gset BlockKey) (g : G3State) : G3State :=
  mkG3State (g3_free g) (g3_evictable g) (g3_evictable_slots g) v (g3_pending_keys g) (g3_active g).
Definition set_g3_pending_keys (v : gset BlockKey) (g : G3State) : G3State :=
  mkG3State (g3_free g) (g3_evictable g) (g3_evictable_slots g) (g3_unscored g) v (g3_active g).
Definition set_g3_active (v : gmap OpId G3TransferOp) (g : G3State) : G3State :=
  mkG3State (g3_free g) (g3_evictable g) (g3_evictable_slots g) (g3_unscored g) (g3_pending_keys g) v.

(** The mutable attributes of [_LocalDram]: the operation objects, the two tables of
    pending ones in insertion order, the queue of capacity waiters (an operation and a
    key), and the flag of [_resume_capacity_waiters]. *)
Record DramState := mkDramState {
  d_rops : gmap nat ResidencyOp;
  d_dops : gmap nat DeliverOp;
  d_next_op : nat;
  d_pending_rops : list (OpId * nat);
  d_pending_dops : list (OpId * nat);
  d_waiters : list (nat * BlockKey);
  d_resuming : bool }.

Definition set_d_rops (v : gmap nat ResidencyOp) (d : DramState) : DramState :=
  mkDramState v (d_dops d) (d_next_op d) (d_pending_rops d) (d_pending_dops d) (d_waiters d) (d_resuming d).
Definition set_d_dops (v : gmap nat DeliverOp) (d : DramState) : DramState :=
  mkDramState (d_rops d) v (d_next_op d) (d_pending_rops d) (d_pending_dops d) (d_waiters d) (d_resuming d).
Definition set_d_next_op (v : nat) (d : DramState) : DramState :=
  mkDramState (d_rops d) (d_dops d) v (d_pending_rops d) (d_pending_dops d) (d_waiters d) (d_resuming d).
Definition set_d_pending_rops (v : list (OpId * nat)) (d : DramState) : DramState :=
  mkDramState (d_rops d) (d_dops d) (d_next_op d) v (d_pending_dops d) (d_waiters d) (d_resuming d).
Definition set_d_pending_dops (v : list (OpId * nat)) (d : DramState) : DramState :=
  mkDramState (d_rops d) (d_dops d) (d_next_op d) (d_pending_rops d) v (d_waiters d) (d_resuming d).
Definition set_d_waiters (v : list (nat * BlockKey)) (d : DramState) : DramState :=
  mkDramState (d_rops d) (d_dops d) (d_next_op d) (d_pending_rops d) (d_pending_dops d) v (d_resuming d).
Definition set_d_resuming (v : bool) (d : DramState) : DramState :=
  mkDramState (d_rops d) (d_dops d) (d_next_op d) (d_pending_rops d) (d_pending_dops d) (d_waiters d) v.
Definition empty_dram : DramState := mkDramState ∅ ∅ 0 [] [] [] false.

(** The main-thread attributes of [_RemoteFWDram] and [_RemoteSources], with the core's
    [_framework_pin_keys]; [rt_callbacks] is what the framework was asked. *)
Record RemoteState := mkRemoteState {
  rt_hints : gmap string RequestHint;
  rt_closed : bool;
  rt_source_pins : list (Z * SourcePin);
  rt_pending_pins : list (Z * PinWait);
  rt_pending_keys : gmap BlockKey (gset Z);
  rt_pins_by_op : gmap Z (gset string);
  rt_releasing : gset string;
  rt_pin_keys : gmap string (gset BlockKey);
  rt_remote_count : Z;
  rt_callbacks : list PinCall }.

Definition set_rt_hints (v : gmap string RequestHint) (m : RemoteState) : RemoteState :=
  mkRemoteState v (rt_closed m) (rt_source_pins m) (rt_pending_pins m) (rt_pending_keys m) (rt_pins_by_op m) (rt_releasing m) (rt_pin_keys m) (rt_remote_count m) (rt_callbacks m).
Definition set_rt_closed (v : bool) (m : RemoteState) : RemoteState :=
  mkRemoteState (rt_hints m) v (rt_source_pins m) (rt_pending_pins m) (rt_pending_keys m) (rt_pins_by_op m) (rt_releasing m) (rt_pin_keys m) (rt_remote_count m) (rt_callbacks m).
Definition set_rt_source_pins (v : list (Z * SourcePin)) (m : RemoteState) : RemoteState :=
  mkRemoteState (rt_hints m) (rt_closed m) v (rt_pending_pins m) (rt_pending_keys m) (rt_pins_by_op m) (rt_releasing m) (rt_pin_keys m) (rt_remote_count m) (rt_callbacks m).
Definition set_rt_pending_pins (v : list (Z * PinWait)) (m : RemoteState) : RemoteState :=
  mkRemoteState (rt_hints m) (rt_closed m) (rt_source_pins m) v (rt_pending_keys m) (rt_pins_by_op m) (rt_releasing m) (rt_pin_keys m) (rt_remote_count m) (rt_callbacks m).
Definition set_rt_pending_keys (v : gmap BlockKey (gset Z)) (m : RemoteState) : RemoteState :=
  mkRemoteState (rt_hints m) (rt_closed m) (rt_source_pins m) (rt_pending_pins m) v (rt_pins_by_op m) (rt_releasing m) (rt_pin_keys m) (rt_remote_count m) (rt_callbacks m).
Definition set_rt_pins_by_op (v : gmap Z (gset string)) (m : RemoteState) : RemoteState :=
  mkRemoteState (rt_hints m) (rt_closed m) (rt_source_pins m) (rt_pending_pins m) (rt_pending_keys m) v (rt_releasing m) (rt_pin_keys m) (rt_remote_count m) (rt_callbacks m).
Definition set_rt_releasing (v : gset string) (m : RemoteState) : RemoteState :=
  mkRemoteState (rt_hints m) (rt_closed m) (rt_source_pins m) (rt_pending_pins m) (rt_pending_keys m) (rt_pins_by_op m) v (rt_pin_keys m) (rt_remote_count m) (rt_callbacks m).
Definition set_rt_pin_keys (v : gmap string (gset BlockKey)) (m : RemoteState) : RemoteState :=
  mkRemoteState (rt_hints m) (rt_closed m) (rt_source_pins m) (rt_pending_pins m) (rt_pending_keys m) (rt_pins_by_op m) (rt_releasing m) v (rt_remote_count m) (rt_callbacks m).
Definition set_rt_remote_count (v : Z) (m : RemoteState) : RemoteState :=
  mkRemoteState (rt_hints m) (rt_closed m) (rt_source_pins m) (rt_pending_pins m) (rt_pending_keys m) (rt_pins_by_op m) (rt_releasing m) (rt_pin_keys m) v (rt_callbacks m).
Definition set_rt_callbacks (v : list PinCall) (m : RemoteState) : RemoteState :=
  mkRemoteState (rt_hints m) (rt_closed m) (rt_source_pins m) (rt_pending_pins m) (rt_pending_keys m) (rt_pins_by_op m) (rt_releasing m) (rt_pin_keys m) (rt_remote_count m) v.
Definition empty_remote : RemoteState := mkRemoteState ∅ false [] [] ∅ ∅ ∅ ∅ 0 [].

(** What recovery sees of a record ([_RecoveryBlock] of recovery_journal.py). *)
Record RecoveryBlock := mkRecoveryBlock {
  rb_g2 : option (list (label * Z));
  rb_g3 : option (list label * list Z);
  rb_position : Z }.

(** Calls to the integration's callbacks and to the residency observer. *)
Inductive Event :=
  | EvInventory (ev : InventoryEvent) (accepted : bool)
  | EvResidency (key : BlockKey) (block : RecoveryBlock)
  | EvCapacity (request : list (string * Z)).

(** The object graph: block records, the residency objects they share, the
    tiers, the completion queues, and what has been observed outside (policy calls,
    published events, clock readings taken, items handed to the progress thread). *)
Record St := mkSt {
  s_records : gmap BlockKey BlockRecord;
  s_res : gmap nat Residency;
  s_next_res : nat;
  s_g3res : gmap nat G3Residency;
  s_next_g3 : nat;
  s_pools : PoolState;
  s_g3 : G3State;
  s_dram : DramState;
  s_pressure : gset string;
  s_closed : bool;
  s_outstanding : Z;
  s_sources_by_op : gmap OpId (gmap BlockKey nat);
  s_joined : gmap Z (gset BlockKey * gmap BlockKey OpEntryResult);
  s_completion_queue : list (Z * gmap BlockKey OpEntryResult);
  s_next_fill_handle : Z;
  s_next_op_handle : Z;
  s_remote_delivery_keys : gmap (option string) (gset BlockKey);
  s_remote : RemoteState;
  s_submitted : list Submission;
  s_calls : list PolicyCall;
  s_log : list Event;
  s_tick : nat }.

Definition set_s_records (v : gmap BlockKey BlockRecord) (s : St) : St :=
  mkSt v (s_res s) (s_next_res s) (s_g3res s) (s_next_g3 s) (s_pools s) (s_g3 s) (s_dram s) (s_pressure s) (s_closed s) (s_outstanding s) (s_sources_by_op s) (s_joined s) (s_completion_queue s) (s_next_fill_handle s) (s_next_op_handle s) (s_remote_delivery_keys s) (s_remote s) (s_submitted s) (s_calls s) (s_log s) (s_tick s).
Definition set_s_res (v : gmap nat Residency) (s : St) : St :=
  mkSt (s_records s) v (s_next_res s) (s_g3res s) (s_next_g3 s) (s_pools s) (s_g3 s) (s_dram s) (s_pressure s) (s_closed s) (s_outstanding s) (s_sources_by_op s) (s_joined s) (s_completion_queue s) (s_next_fill_handle s) (s_next_op_handle s) (s_remote_delivery_keys s) (s_remote s) (s_submitted s) (s_calls s) (s_log s) (s_tick s).
Definition set_s_next_res (v : nat) (s : St) : St :=
  mkSt (s_records s) (s_res s) v (s_g3res s) (s_next_g3 s) (s_pools s) (s_g3 s) (s_dram s) (s_pressure s) (s_closed s) (s_outstanding s) (s_sources_by_op s) (s_joined s) (s_completion_queue s) (s_next_fill_handle s) (s_next_op_handle s) (s_remote_delivery_keys s) (s_remote s) (s_submitted s) (s_calls s) (s_log s) (s_tick s).
Definition set_s_g3res (v : gmap nat G3Residency) (s : St) : St :=
  mkSt (s_records s) (s_res s) (s_next_res s) v (s_next_g3 s) (s_pools s) (s_g3 s) (s_dram s) (s_pressure s) (s_closed s) (s_outstanding s) (s_sources_by_op s) (s_joined s) (s_completion_queue s) (s_next_fill_handle s) (s_next_op_handle s) (s_remote_delivery_keys s) (s_remote s) (s_submitted s) (s_calls s) (s_log s) (s_tick s).
Definition set_s_next_g3 (v : nat) (s : St) : St :=
  mkSt (s_records s) (s_res s) (s_next_res s) (s_g3res s) v (s_pools s) (s_g3 s) (s_dram s) (s_pressure s) (s_closed s) (s_outstanding s) (s_sources_by_op s) (s_joined s) (s_completion_queue s) (s_next_fill_handle s) (s_next_op_handle s) (s_remote_delivery_keys s) (s_remote s) (s_submitted s) (s_calls s) (s_log s) (s_tick s).
Definition set_s_pools (v : PoolState) (s : St) : St :=
  mkSt (s_records s) (s_res s) (s_next_res s) (s_g3res s) (s_next_g3 s) v (s_g3 s) (s_dram s) (s_pressure s) (s_closed s) (s_outstanding s) (s_sources_by_op s) (s_joined s) (s_completion_queue s) (s_next_fill_handle s) (s_next_op_handle s) (s_remote_delivery_keys s) (s_remote s) (s_submitted s) (s_calls s) (s_log s) (s_tick s).
Definition set_s_g3 (v : G3State) (s : St) : St :=
  mkSt (s_records s) (s_res s) (s_next_res s) (s_g3res s) (s_next_g3 s) (s_pools s) v (s_dram s) (s_pressure s) (s_closed s) (s_outstanding s) (s_sources_by_op s) (s_joined s) (s_completion_queue s) (s_next_fill_handle s) (s_next_op_handle s) (s_remote_delivery_keys s) (s_remote s) (s_submitted s) (s_calls s) (s_log s) (s_tick s).
Definition set_s_dram (v : DramState) (s : St) : St :=
  mkSt (s_records s) (s_res s) (s_next_res s) (s_g3res s) (s_next_g3 s) (s_pools s) (s_g3 s) v (s_pressure s) (s_closed s) (s_outstanding s) (s_sources_by_op s) (s_joined s) (s_completion_queue s) (s_next_fill_handle s) (s_next_op_handle s) (s_remote_delivery_keys s) (s_remote s) (s_submitted s) (s_calls s) (s_log s) (s_tick s).
Definition set_s_pressure (v : gset string) (s : St) : St :=
  mkSt (s_records s) (s_res s) (s_next_res s) (s_g3res s) (s_next_g3 s) (s_pools s) (s_g3 s) (s_dram s) v (s_closed s) (s_outstanding s) (s_sources_by_op s) (s_joined s) (s_completion_queue s) (s_next_fill_handle s) (s_next_op_handle s) (s_remote_delivery_keys s) (s_remote s) (s_submitted s) (s_calls s) (s_log s) (s_tick s).
Definition set_s_closed (v : bool) (s : St) : St :=
  mkSt (s_records s) (s_res s) (s_next_res s) (s_g3res s) (s_next_g3 s) (s_pools s) (s_g3 s) (s_dram s) (s_pressure s) v (s_outstanding s) (s_sources_by_op s) (s_joined s) (s_completion_queue s) (s_next_fill_handle s) (s_next_op_handle s) (s_remote_delivery_keys s) (s_remote s) (s_submitted s) (s_calls s) (s_log s) (s_tick s).
Definition set_s_outstanding (v : Z) (s : St) : St :=
  mkSt (s_records s) (s_res s) (s_next_res s) (s_g3res s) (s_next_g3 s) (s_pools s) (s_g3 s) (s_dram s) (s_pressure s) (s_closed s) v (s_sources_by_op s) (s_joined s) (s_completion_queue s) (s_next_fill_handle s) (s_next_op_handle s) (s_remote_delivery_keys s) (s_remote s) (s_submitted s) (s_calls s) (s_log s) (s_tick s).
Definition set_s_sources_by_op (v : gmap OpId (gmap BlockKey nat)) (s : St) : St :=
  mkSt (s_records s) (s_res s) (s_next_res s) (s_g3res s) (s_next_g3 s) (s_pools s) (s_g3 s) (s_dram s) (s_pressure s) (s_closed s) (s_outstanding s) v (s_joined s) (s_completion_queue s) (s_next_fill_handle s) (s_next_op_handle s) (s_remote_delivery_keys s) (s_remote s) (s_submitted s) (s_calls s) (s_log s) (s_tick s).
Definition set_s_joined (v : gmap Z (gset BlockKey * gmap BlockKey OpEntryResult)) (s : St) : St :=
  mkSt (s_records s) (s_res s) (s_next_res s) (s_g3res s) (s_next_g3 s) (s_pools s) (s_g3 s) (s_dram s) (s_pressure s) (s_closed s) (s_outstanding s) (s_sources_by_op s) v (s_completion_queue s) (s_next_fill_handle s) (s_next_op_handle s) (s_remote_delivery_keys s) (s_remote s) (s_submitted s) (s_calls s) (s_log s) (s_tick s).
Definition set_s_completion_queue (v : list (Z * gmap BlockKey OpEntryResult)) (s : St) : St :=
  mkSt (s_records s) (s_res s) (s_next_res s) (s_g3res s) (s_next_g3 s) (s_pools s) (s_g3 s) (s_dram s) (s_pressure s) (s_closed s) (s_outstanding s) (s_sources_by_op s) (s_joined s) v (s_next_fill_handle s) (s_next_op_handle s) (s_remote_delivery_keys s) (s_remote s) (s_submitted s) (s_calls s) (s_log s) (s_tick s).
Definition set_s_next_fill_handle (v : Z) (s : St) : St :=
  mkSt (s_records s) (s_res s) (s_next_res s) (s_g3res s) (s_next_g3 s) (s_pools s) (s_g3 s) (s_dram s) (s_pressure s) (s_closed s) (s_outstanding s) (s_sources_by_op s) (s_joined s) (s_completion_queue s) v (s_next_op_handle s) (s_remote_delivery_keys s) (s_remote s) (s_submitted s) (s_calls s) (s_log s) (s_tick s).
Definition set_s_next_op_handle (v : Z) (s : St) : St :=
  mkSt (s_records s) (s_res s) (s_next_res s) (s_g3res s) (s_next_g3 s) (s_pools s) (s_g3 s) (s_dram s) (s_pressure s) (s_closed s) (s_outstanding s) (s_sources_by_op s) (s_joined s) (s_completion_queue s) (s_next_fill_handle s) v (s_remote_delivery_keys s) (s_remote s) (s_submitted s) (s_calls s) (s_log s) (s_tick s).
Definition set_s_remote_delivery_keys (v : gmap (option string) (gset BlockKey)) (s : St) : St :=
  mkSt (s_records s) (s_res s) (s_next_res s) (s_g3res s) (s_next_g3 s) (s_pools s) (s_g3 s) (s_dram s) (s_pressure s) (s_closed s) (s_outstanding s) (s_sources_by_op s) (s_joined s) (s_completion_queue s) (s_next_fill_handle s) (s_next_op_handle s) v (s_remote s) (s_submitted s) (s_calls s) (s_log s) (s_tick s).
Definition set_s_remote (v : RemoteState) (s : St) : St :=
  mkSt (s_records s) (s_res s) (s_next_res s) (s_g3res s) (s_next_g3 s) (s_pools s) (s_g3 s) (s_dram s) (s_pressure s) (s_closed s) (s_outstanding s) (s_sources_by_op s) (s_joined s) (s_completion_queue s) (s_next_fill_handle s) (s_next_op_handle s) (s_remote_delivery_keys s) v (s_submitted s) (s_calls s) (s_log s) (s_tick s).
Definition set_s_submitted (v : list Submission) (s : St) : St :=
  mkSt (s_records s) (s_res s) (s_next_res s) (s_g3res s) (s_next_g3 s) (s_pools s) (s_g3 s) (s_dram s) (s_pressure s) (s_closed s) (s_outstanding s) (s_sources_by_op s) (s_joined s) (s_completion_queue s) (s_next_fill_handle s) (s_next_op_handle s) (s_remote_delivery_keys s) (s_remote s) v (s_calls s) (s_log s) (s_tick s).
Definition set_s_calls (v : list PolicyCall) (s : St) : St :=
  mkSt (s_records s) (s_res s) (s_next_res s) (s_g3res s) (s_next_g3 s) (s_pools s) (s_g3 s) (s_dram s) (s_pressure s) (s_closed s) (s_outstanding s) (s_sources_by_op s) (s_joined s) (s_completion_queue s) (s_next_fill_handle s) (s_next_op_handle s) (s_remote_delivery_keys s) (s_remote s) (s_submitted s) v (s_log s) (s_tick s).
Definition set_s_log (v : list Event) (s : St) : St :=
  mkSt (s_records s) (s_res s) (s_next_res s) (s_g3res s) (s_next_g3 s) (s_pools s) (s_g3 s) (s_dram s) (s_pressure s) (s_closed s) (s_outstanding s) (s_sources_by_op s) (s_joined s) (s_completion_queue s) (s_next_fill_handle s) (s_next_op_handle s) (s_remote_delivery_keys s) (s_remote s) (s_submitted s) (s_calls s) v (s_tick s).
Definition set_s_tick (v : nat) (s : St) : St :=
  mkSt (s_records s) (s_res s) (s_next_res s) (s_g3res s) (s_next_g3 s) (s_pools s) (s_g3 s) (s_dram s) (s_pressure s) (s_closed s) (s_outstanding s) (s_sources_by_op s) (s_joined s) (s_completion_queue s) (s_next_fill_handle s) (s_next_op_handle s) (s_remote_delivery_keys s) (s_remote s) (s_submitted s) (s_calls s) (s_log s) v.

(** ** The environment of one KVCR instance

    Everything fixed at construction, with the code outside the repository as
    functions: the clock's readings, the policy object and the inventory sink
    ([true] when the callback returns, [false] when it raises). *)
Record Env := mkEnv {
  env_clock : nat → float;
  env_policy : KVCachePolicy;
  env_moves : gset (CacheTier * CacheTier);
  env_agent : string;
  env_framework_control : bool;
  env_backend : string;
  env_pool_layouts : list (string * Z);
  env_regions : gmap string (Z * Z * Z);
  env_sink : option (InventoryEvent → bool);
  env_capacity_callback : bool;
  env_watermarks : gmap string Z;
  env_has_g3 : bool;
  env_g3_slot_size : Z;
  env_g3_fds : list Z;
  env_g3_bytes_per_file : Z;
  env_g3_preflight : option (BlockKey → RecoveryBlock → bool);
  env_operation_timeout_ms : Z;
  env_abandon_timeout_ms : Z }.

(** [length // slot_size] of a pool. *)
Definition slot_total (E : Env) (p : string) : Z :=
  match env_regions E !! p with Some (_, len, size) => (len / size)%Z | None => 0%Z end.
Definition slot_size (E : Env) (p : string) : Z :=
  match env_regions E !! p with Some (_, _, size) => size | None => 0%Z end.
