(* ===== verification/CoreBase.v ===== *)
(** * The core services the memory tiers call

    The helpers of [_KVCRCore] ([src/src/kvcr/runtime/core.py]) that the local
    DRAM pools and the G3 tier use: block records and their metadata, policy
    calls, inventory events, capacity pressure, operation dependencies and
    completions. *)

From Stdlib Require Import ZArith Lia.
From S2P Require Import Prelude PyFloat Types PolicyRuntime Layout State.

(** ** Object access *)

(** Dereference a residency; references are never dangling. *)
Definition get_res (rid : nat) : M St Residency := λ s,
  match s_res s !! rid with
  | Some r => (Ret r, s)
  | None => (Raise (KeyError "residency"), s)
  end.
Definition upd_res (rid : nat) (f : Residency → Residency) : M St unit :=
  modify (λ s, set_s_res (alter f rid (s_res s)) s).
Definition alloc_res (r : Residency) : M St nat := λ s,
  (Ret (s_next_res s),
   set_s_next_res (S (s_next_res s)) (set_s_res (<[ s_next_res s := r ]> (s_res s)) s)).

Definition find_record (key : BlockKey) : M St (option BlockRecord) :=
  gets (λ s, s_records s !! key).
Definition upd_record (key : BlockKey) (f : BlockRecord → BlockRecord) : M St unit :=
  modify (λ s, set_s_records (alter f key (s_records s)) s).
Definition upd_pools (f : PoolState → PoolState) : M St unit :=
  modify (λ s, set_s_pools (f (s_pools s)) s).
Definition upd_source (f : SourceState → SourceState) : M St unit :=
  upd_pools (λ p, set_p_source (f (p_source p)) p).
Definition upd_g3 (f : G3State → G3State) : M St unit :=
  modify (λ s, set_s_g3 (f (s_g3 s)) s).

Definition emit (ev : Event) : M St unit :=
  modify (λ s, set_s_log (s_log s ++ [ev]) s).
Definition log_call (c : PolicyCall) : M St unit :=
  modify (λ s, set_s_calls (s_calls s ++ [c]) s).

(** ** Records *)

(** [_BlockRecord.add_in_flight_op], [discard_in_flight_op], [active_op_ids] *)
Definition add_in_flight_op (op : OpId) (b : BlockRecord) : BlockRecord :=
  set_b_in_flight_ops
    (Some (match b_in_flight_ops b with None => {[ op ]} | Some ops => {[ op ]} ∪ ops end)) b.
Definition discard_in_flight_op (op : OpId) (b : BlockRecord) : BlockRecord :=
  match b_in_flight_ops b with
  | None => b
  | Some ops =>
      let ops' := ops ∖ {[ op ]} in
      set_b_in_flight_ops (if decide (ops' = ∅) then None else Some ops') b
  end.
Definition active_op_ids (b : BlockRecord) : list OpId :=
  match b_in_flight_ops b with None => [] | Some ops => elements ops end.

(** [_block_record]: the record of a key, created on first use. *)
Definition block_record (key : BlockKey) : M St BlockRecord := λ s,
  match s_records s !! key with
  | Some b => (Ret b, s)
  | None => (Ret empty_record, set_s_records (<[ key := empty_record ]> (s_records s)) s)
  end.

Definition record_is_empty (b : BlockRecord) : bool :=
  bool_decide (b_fw_mem b = None) &&
  bool_decide (b_local_dram b = None) && bool_decide (b_g3 b = None) &&
  match b_in_flight_ops b with None => true | Some ops => bool_decide (ops = ∅) end.

(** [_prune_block_record] *)
Definition prune_block_record (key : BlockKey) : M St unit := modify (λ s,
  match s_records s !! key with
  | Some b => if record_is_empty b
              then set_s_records (delete key (s_records s)) s else s
  | None => s
  end).

(** [_block_meta] *)
Definition block_meta (key : BlockKey) (b : BlockRecord) (size : Z) : BlockMeta := {|
  block_key := key;
  size_bytes := size;
  meta_access_count := b_access_count b;
  meta_last_access := b_last_access b;
  resident_tiers :=
    (if decide (b_fw_mem b = None) then ∅ else {[ FW_G2 ]}) ∪
    (if decide (b_local_dram b = None) then ∅ else {[ LOCAL_G2 ]}) ∪
    (if decide (b_g3 b = None) then ∅ else {[ G3 ]});
  meta_position := b_position b |}.

Definition managed_tiers : gset CacheTier := {[ LOCAL_G2; G3 ]}.

(** What the residency observer is shown: complete residencies only
    ([_project_recovery_record]). *)
Definition complete_residency (r : Residency) : bool :=
  bool_decide (r_state r = READY) && negb (pending_nonempty r).
Definition observed_block (s : St) (b : BlockRecord) : RecoveryBlock := {|
  rb_g2 := match b_local_dram b ≫= λ rid, s_res s !! rid with
           | Some r => if complete_residency r then Some (r_slots r) else None
           | None => None
           end;
  rb_g3 := match b_g3 b ≫= λ gid, s_g3res s !! gid with
           | Some g => Some (g_layout g, g_slots g)
           | None => None
           end;
  rb_position := b_position b |}.

(** [_residency_observer(key, record)] *)
Definition observe_residency (key : BlockKey) (b : BlockRecord) : M St unit := λ s,
  emit (EvResidency key (observed_block s b)) s.

Section Core.
Context (E : Env).

Definition clock : M St float := λ s,
  (Ret (env_clock E (s_tick s)), set_s_tick (S (s_tick s)) s).

(** ** Policy calls *)

Definition policy_eviction_score (meta : BlockMeta) (source : CacheTier)
    (previous : option float) : M St (option float) := λ s,
  (log_call (CallEvictionScore meta source) ;;
   lift (invoke_eviction_score (p_eviction_score (env_policy E) (s_calls s) meta source)
     previous)) s.

Definition policy_decide_eviction (meta : BlockMeta) (source : CacheTier)
    : M St PlacementDecision := λ s,
  (log_call (CallDecideEviction meta source) ;;
   mret (invoke_decide_eviction (env_moves E)
     (p_decide_eviction (env_policy E) (s_calls s) meta source) source)) s.

Definition policy_decide_ingest (meta : BlockMeta) (source : CacheTier)
    (required_local : bool) : M St PlacementDecision := λ s,
  (log_call (CallDecideIngest meta source required_local) ;;
   mret (invoke_decide_ingest
     (p_decide_ingest (env_policy E) (s_calls s) meta source required_local)
     required_local)) s.

Definition policy_decide_recovery (meta : BlockMeta) (failure : PlacementFailure)
    : M St PlacementDecision := λ s,
  (log_call (CallDecideRecovery meta failure) ;;
   mret (invoke_decide_recovery
     (p_decide_recovery (env_policy E) (s_calls s) meta failure))) s.

(** [_on_ingest]: only the first managed residency is announced. *)
Definition on_ingest (meta : BlockMeta) (source : CacheTier) : M St unit :=
  if decide (size (resident_tiers meta ∩ managed_tiers) = 1)
  then log_call (CallOnIngest meta source) else mret tt.

(** [_on_remove]: only the loss of the last managed residency is announced. *)
Definition on_remove (meta : BlockMeta) : M St unit :=
  if decide (resident_tiers meta ∩ managed_tiers = ∅)
  then log_call (CallOnRemove meta) else mret tt.

(** ** Inventory, pressure, accesses *)

Definition publish_inventory (keys : list BlockKey) (tier : CacheTier) (removed : bool)
    : M St bool :=
  if decide (keys = []) then mret true
  else
    let event := {| ev_keys := keys; ev_tier := tier; ev_removed := removed |} in
    match env_sink E with
    | None => mret false
    | Some callback => emit (EvInventory event (callback event)) ;; mret (callback event)
    end.

(** [_update_capacity_pressure]; the request lists pools in configuration
    order. *)
Definition pressured_pools (reclaimable : gmap string Z) : gset string :=
  list_to_set (filter (λ name,
    let w := default 0%Z (env_watermarks E !! name) in
    w ≠ 0%Z ∧ (default 0%Z (reclaimable !! name) < w)%Z) (env_pool_layouts E).*1).

Definition core_update_capacity_pressure (reclaimable : gmap string Z) : M St unit :=
  if negb (env_capacity_callback E) then mret tt
  else
    let pressured := pressured_pools reclaimable in
    current ← gets s_pressure;
    modify (set_s_pressure pressured) ;;
    let newly := pressured ∖ current in
    if decide (newly = ∅) then mret tt
    else emit (EvCapacity ((λ name, (name, default 0%Z (env_watermarks E !! name))) <$>
                 filter (λ name, name ∈ newly) (env_pool_layouts E).*1)).

(** [_record_access]; a missing record is a KeyError. *)
Definition record_access (keys : list BlockKey) : M St unit :=
  now ← clock;
  for_each keys (λ key,
    b ← find_record key;
    match b with
    | None => raise (KeyError key)
    | Some _ => upd_record key (λ b,
        set_b_last_access (Some now) (set_b_access_count (b_access_count b + 1)%Z b))
    end).

(** ** Operations and completions *)

(** [_add_block_dependencies(op, new_operation=True)] *)
Definition add_block_dependencies (op : OpId) (keys : list BlockKey) : M St unit :=
  modify (λ s, set_s_outstanding (s_outstanding s + 1)%Z s) ;;
  for_each keys (λ key, block_record key ;; upd_record key (add_in_flight_op op)).

(** [_remove_block_dependencies] *)
Definition remove_block_dependencies (op : OpId) (keys : list BlockKey) : M St unit :=
  modify (λ s, set_s_outstanding (s_outstanding s - 1)%Z s) ;;
  for_each keys (λ key,
    b ← find_record key;
    match b with
    | None => mret tt
    | Some _ => upd_record key (discard_in_flight_op op) ;; prune_block_record key
    end).

(** [_complete]: results of a joined operation are held until every expected
    key has one. *)
Definition complete (op_handle : Z) (entries : gmap BlockKey OpEntryResult) : M St unit :=
  joined ← gets (λ s, s_joined s !! op_handle);
  match joined with
  | None => modify (λ s, set_s_completion_queue (s_completion_queue s ++ [(op_handle, entries)]) s)
  | Some (expected, completed) =>
      let completed' := entries ∪ completed in
      if decide (expected ⊆ dom completed') then
        modify (λ s, set_s_joined (delete op_handle (s_joined s)) s) ;;
        modify (λ s, set_s_completion_queue (s_completion_queue s ++ [(op_handle, completed')]) s)
      else
        modify (λ s, set_s_joined (<[ op_handle := (expected, completed') ]> (s_joined s)) s)
  end.

(** [_validate_expected_layout] for a given list of strings. *)
Fixpoint validate_labels (pools : list string) (seen : list label) (layout : list label)
    : result unit :=
  match layout with
  | [] => Ret tt
  | l :: layout =>
      let '(pool, sep, part) := partition_colon l in
      if decide (pool ∉ pools ∨ sep = true ∧ part ∈ [""; "*"]) then
        Raise (ValueError "expected layout must include configured local pools")
      else if sep then
        if decide (l ∈ seen) then Raise (ValueError "block part labels must be unique")
        else validate_labels pools (l :: seen) layout
      else validate_labels pools seen layout
  end.
Definition validate_expected_layout (layout : list label) : result (list label) :=
  if decide (layout = []) then
    Raise (ValueError "expected layout must include configured local pools")
  else validate_labels (env_pool_layouts E).*1 [] layout ≫= λ _, Ret layout.
End Core.
