(* ===== verification/Pools.v ===== *)
(** * Local DRAM pools

    [_LocalDramPools] of [src/src/kvcr/backends/local_dram_pools.py]: pool slots,
    residency claims, eviction and the source index shared with the progress
    thread.  The two calls that leave the component are parameters, as they are
    in the source: the core's eviction decision (the policy, and the G3 tier
    when configured) and the callback that resumes capacity waiters. *)

From Stdlib Require Import ZArith Lia.
From S2P Require Import Prelude PyFloat Types PolicyRuntime Layout State CoreBase.

(** ** Construction *)

(** (start, end) pairs in ascending order: [sorted] on a list of pairs. *)
Definition range_le (a b : Z * Z) : Prop :=
  (a.1 < b.1 ∨ a.1 = b.1 ∧ a.2 ≤ b.2)%Z.
#[export] Instance range_le_dec : RelDecision range_le.
Proof. unfold RelDecision, range_le. intros [??] [??]. simpl. apply _. Defined.

(** [any(left_end > right_start for adjacent pairs)] *)
Fixpoint adjacent_overlap (l : list (Z * Z)) : bool :=
  match l with
  | (_, e) :: (((s, _) :: _) as rest) => bool_decide (e > s)%Z || adjacent_overlap rest
  | _ => false
  end.

Definition region_ranges (regions : list (string * (Z * Z * Z))) : list (Z * Z) :=
  (λ '(_, (address, length, _)), (address, address + length)%Z) <$> regions.

Fixpoint build_regions (pools : list (string * Z * Z)) (layouts : list (string * Z))
    : result (list (string * (Z * Z * Z))) :=
  match pools, layouts with
  | (name, address, length) :: pools, (_, slot_size) :: layouts =>
      if decide (address ≤ 0)%Z then
        Raise (ValueError "local DRAM address must be positive")
      else if decide (length ≤ 0)%Z then
        Raise (ValueError "local DRAM pool size must be a positive integer")
      else if decide (length / slot_size = 0)%Z then
        Raise (ValueError "local DRAM pool must hold at least one block")
      else
        rest ← build_regions pools layouts;
        mret ((name, (address, length, slot_size)) :: rest)
  | _, _ => Ret []
  end.

Definition empty_source : SourceState := mkSourceState ∅ ∅ 0 [].
Definition pools_state (regions : list (string * (Z * Z * Z))) : PoolState :=
  mkPoolState empty_source false
    (list_to_map ((λ '(name, (_, length, size)), (name, seqZ 0 (length / size))) <$> regions))
    queue_init ∅ ∅ None ∅ 1.

(** [__init__]: the regions dict and the initial attributes. *)
Definition pools_init (pools : list (string * Z * Z)) (layouts : list (string * Z))
    (backend : string) : result (list (string * (Z * Z * Z)) * PoolState) :=
  if decide (pools.*1.*1 ≠ layouts.*1) then
    Raise (ValueError "local DRAM pools must match pool_layouts")
  else if decide (backend = "") then
    Raise (ValueError "local DRAM NIXL backend must be non-empty")
  else
    regions ← build_regions pools layouts;
    if adjacent_overlap (merge_sort range_le (region_ranges regions)) then
      Raise (ValueError "local DRAM pools must not overlap")
    else Ret (regions, pools_state regions).

(** [memory_regions]: name, address, element count and element size. *)
Definition memory_regions (regions : list (string * (Z * Z * Z)))
    : list (string * Z * Z * Z) :=
  (λ '(name, (address, length, size)), (name, address, length / size, size)%Z) <$> regions.

(** ** Counters *)

(** [for pool, count in counts: d[pool] += sign * count] *)
Definition bump (sign : Z) (counts : list (string * Z)) (d : gmap string Z) : gmap string Z :=
  foldl (λ d '(p, n), <[ p := (default 0 (d !! p) + sign * n)%Z ]> d) d counts.

(** [Counter(label.partition(":")[0] for label in layout)] *)
Definition required_counts (layout : list label) : list (string * Z) :=
  pool_counts ((λ l, (l, 0%Z)) <$> layout).

(** The answers of [acquire_readers]: None, False, or the claims. *)
Inductive AcquireResult :=
  | AcqRetry
  | AcqCaller
  | AcqClaims (claims : list (nat * nat * list TransferRef)).

Section Pools.
Context (E : Env).
Context (decide_eviction : BlockMeta → CacheTier → float → M St (PlacementDecision * bool)).
Context (resume_capacity_waiters : M St unit).

Definition descriptor (l : label) (slot : Z) : TransferRef :=
  {| tr_end_point := env_agent E; tr_element_index := slot; tr_label := l;
     tr_framework := false |}.
Definition descriptors_of (locations : list (label * Z)) : list TransferRef :=
  (λ '(l, slot), descriptor l slot) <$> locations.

(** [_size_bytes] *)
Definition residency_size (r : Residency) : Z :=
  foldr (λ '(p, n) acc, (slot_size E p * n + acc)%Z) 0%Z (pool_counts (r_slots r)).

(** ** Publishing sources *)

Definition mark_source_pending (key : BlockKey) : M St unit :=
  if env_framework_control E
  then upd_source (λ x, set_ss_index (<[ key := None ]> (ss_index x)) x)
  else mret tt.

(** [source_refs]: descriptors of some pieces, cached on the residency. *)
Definition source_refs (rid : nat) (indices : list nat) : M St (list TransferRef) :=
  fold_each (λ acc i,
    r ← get_res rid;
    match r_refs r with
    | RefsTuple t =>
        match t !! i with
        | Some ref => mret (acc ++ [ref])
        | None => raise (RuntimeError "tuple index out of range")
        end
    | RefsDict d =>
        match d !! i with
        | Some ref => mret (acc ++ [ref])
        | None =>
            match r_slots r !! i with
            | Some (l, slot) =>
                upd_res rid (r_set_refs (RefsDict (<[ i := descriptor l slot ]> d))) ;;
                mret (acc ++ [descriptor l slot])
            | None => raise (RuntimeError "tuple index out of range")
            end
        end
    end) [] indices.

Definition refs_nonempty (f : Refs) : bool :=
  match f with RefsDict d => bool_decide (d ≠ ∅) | RefsTuple t => bool_decide (t ≠ []) end.

Definition publish_source (key : BlockKey) (rid : nat) (refs : option (list TransferRef))
    : M St unit :=
  r ← get_res rid;
  if negb (env_framework_control E) || pending_nonempty r then mret tt
  else
    refs ← match refs with
           | Some refs => mret refs
           | None => if refs_nonempty (r_refs r)
                     then source_refs rid (seq 0 (length (r_slots r)))
                     else mret (descriptors_of (r_slots r))
           end;
    r ← get_res rid;
    if bool_decide (r_state r = READY) && negb (r_retire_on_release r) then
      upd_res rid (r_set_refs (RefsTuple refs)) ;;
      upd_source (λ x, set_ss_index (<[ key := Some rid ]> (ss_index x)) x)
    else mret tt.

(** *** Progress-side readers *)

(** The loop of [acquire_readers]; [None] is the early [return False].  Only the
    source index and the published residencies are read. *)
Fixpoint acquire_scan (s : St) (i : nat) (keys : list BlockKey)
    (destinations : list (list TransferRef)) (key_layout : list label)
    (allow_missing : bool) : option (list (nat * nat * list TransferRef)) :=
  match keys, destinations with
  | key :: keys, destination :: destinations =>
      let rest := acquire_scan s (S i) keys destinations key_layout allow_missing in
      let index := ss_index (p_source (s_pools s)) in
      match mjoin (index !! key) ≫= λ rid, pair rid <$> s_res s !! rid with
      | None =>
          if allow_missing && bool_decide (index !! key = None) then rest else None
      | Some (rid, r) =>
          if bool_decide (key_layout ≠ []) && bool_decide (key_layout ≠ r_key_layout r) then
            if allow_missing then rest else None
          else
            let requested := tr_label <$> destination in
            let available := match r_refs r with RefsTuple t => t | RefsDict _ => [] end in
            if decide (r_layout r = requested) then
              claims ← rest; Some ((i, rid, available) :: claims)
            else
              match layout_indices (r_layout r) requested (r_indices_by_label r) with
              | None => if allow_missing then rest else None
              | Some indices =>
                  claims ← rest;
                  Some ((i, rid, omap (λ j, available !! j) indices) :: claims)
              end
      end
  | _, _ => Some []
  end.

Definition acquire_readers (contended : bool) (keys : list BlockKey)
    (destinations : list (list TransferRef)) (key_layout : list label)
    (allow_missing : bool) : M St AcquireResult :=
  if contended then mret AcqRetry
  else
    s ← get;
    match acquire_scan s 0 keys destinations key_layout allow_missing with
    | None => mret AcqCaller
    | Some claims =>
        for_each claims (λ '(i, rid, _),
          upd_res rid (λ r, r_set_readers (r_source_readers r + 1)%Z r) ;;
          match keys !! i with
          | Some key => upd_source (λ x, set_ss_active (<[ key := rid ]> (ss_active x)) x)
          | None => raise (RuntimeError "tuple index out of range")
          end) ;;
        (if decide (claims = []) then mret tt
         else upd_source (λ x, set_ss_operations (ss_operations x + 1)%Z x)) ;;
        mret (AcqClaims claims)
    end.

Definition release_readers (keys : list BlockKey) (sources : list nat) (success : bool)
    : M St unit :=
  upd_source (λ x, set_ss_completions (ss_completions x ++ [(keys, sources, success)])
    (set_ss_operations (ss_operations x - 1)%Z x)).

(** ** Evictability *)

Definition remove_evictable (key : BlockKey) (rid : nat) : M St unit :=
  r ← get_res rid;
  upd_pools (λ p,
    let '(removed, q) := queue_remove (p_evictable p) key in
    let p := set_p_evictable q (set_p_unscored (p_unscored p ∖ {[ key ]}) p) in
    if removed
    then set_p_evictable_slots (bump (-1) (pool_counts (r_slots r)) (p_evictable_slots p)) p
    else p).

Definition can_evict (r : Residency) : bool :=
  bool_decide (r_state r = READY) && bool_decide (r_claim_count r = 0%Z) &&
  negb (r_retire_on_release r) && negb (pending_nonempty r).

Definition make_evictable (key : BlockKey) : M St unit :=
  b ← find_record key;
  match b with
  | None => raise (RuntimeError "missing block record")
  | Some b =>
      match b_local_dram b with
      | None => mret tt
      | Some rid =>
          r ← get_res rid;
          if negb (can_evict r) then mret tt
          else
            previous ← gets (λ s, queue_score (p_evictable (s_pools s)) key);
            score ← policy_eviction_score E (block_meta key b (residency_size r)) LOCAL_G2
                      previous;
            match score with
            | None => upd_pools (λ p, set_p_unscored ({[ key ]} ∪ p_unscored p) p)
            | Some score =>
                upd_pools (λ p,
                  let '(added, q) := queue_insert (p_evictable p) key score in
                  let p := set_p_evictable q (set_p_unscored (p_unscored p ∖ {[ key ]}) p) in
                  if added
                  then set_p_evictable_slots
                         (bump 1 (pool_counts (r_slots r)) (p_evictable_slots p)) p
                  else p)
            end
      end
  end.

Definition retry_unscored : M St unit :=
  keys ← gets (λ s, elements (p_unscored (s_pools s)));
  for_each keys make_evictable.

(** ** Slots and claims *)

(** [_free]: each slot is appended to its pool's queue. *)
Definition free_slots (locations : list (label * Z)) : M St unit :=
  for_each locations (λ '(l, slot),
    free ← gets (λ s, p_free (s_pools s) !! pool_of l);
    match free with
    | None => raise (KeyError (pool_of l))
    | Some q => upd_pools (λ p, set_p_free (<[ pool_of l := q ++ [slot] ]> (p_free p)) p)
    end).

Definition abandon_capacity_eviction (key : BlockKey) : M St unit :=
  upd_pools (λ p, if decide (p_capacity_key p = Some key) then set_p_capacity_key None p else p).

Definition acquire_claim (key : BlockKey) (rid : nat) : M St unit :=
  r ← get_res rid;
  if decide (r_state r = DISCARDING) then
    raise (RuntimeError "cannot claim discarded local DRAM entry")
  else
    remove_evictable key rid ;;
    upd_res rid (λ r, r_set_claims (r_claim_count r + 1)%Z r).

(** The retirement branch of [_after_last_claim]: the source is withdrawn before
    its slots can be reused. *)
Definition withdraw (key : BlockKey) (b : BlockRecord) (r : Residency) : M St unit :=
  upd_source (λ x, set_ss_index (delete key (ss_index x)) x) ;;
  upd_record key (set_b_local_dram None) ;;
  let b := set_b_local_dram None b in
  (if decide (r_state r = READY) then
     observe_residency key b ;;
     free_slots (r_slots r) ;;
     abandon_capacity_eviction key ;;
     on_remove (block_meta key b (residency_size r)) ;;
     if pending_nonempty r then mret tt
     else publish_inventory E [key] LOCAL_G2 true ;; mret tt
   else free_slots (r_slots r)) ;;
  prune_block_record key.

Definition after_last_claim (key : BlockKey) (rid : nat) : M St bool :=
  b ← find_record key;
  match b with
  | None => raise (KeyError key)
  | Some b =>
      r ← get_res rid;
      let retiring := negb (bool_decide (r_state r = READY)) || r_retire_on_release r in
      if decide (r_source_readers r ≠ 0%Z) then mret false
      else if negb retiring then make_evictable key ;; mret false
      else
        withdraw key b r ;;
        closed ← gets s_closed;
        draining ← gets (λ s, p_draining (s_pools s));
        (if closed || draining then mret tt else resume_capacity_waiters) ;;
        mret true
  end.

Definition release_claim (key : BlockKey) (rid : nat) : M St unit :=
  b ← find_record key;
  r ← get_res rid;
  if decide ((b ≫= b_local_dram) ≠ Some rid ∨ (r_claim_count r ≤ 0)%Z) then
    raise (RuntimeError "invalid local DRAM claim")
  else
    upd_res rid (r_set_claims (r_claim_count r - 1)%Z) ;;
    if decide (r_claim_count r - 1 = 0)%Z
    then after_last_claim key rid ;; mret tt
    else mret tt.

(** ** Capacity pressure *)

Definition reclaimable_slots : M St (gmap string Z) := gets (λ s,
  let p := s_pools s in
  let slots := map_imap (λ name free,
    Some (Z.of_nat (length free) + default 0 (p_evictable_slots p !! name))%Z) (p_free p) in
  foldl (λ slots '(key, rid),
    match queue_score (p_evictable p) key, s_res s !! rid with
    | Some _, Some r => bump (-1) (pool_counts (r_slots r)) slots
    | _, _ => slots
    end) slots (map_to_list (ss_active (p_source p)))).

Definition update_capacity_pressure : M St unit :=
  if negb (env_capacity_callback E) then mret tt
  else slots ← reclaimable_slots; core_update_capacity_pressure E slots.

(** ** Draining reader completions *)

(** Under the source lock: the reads of a completion end. *)
Definition drop_reader (key : BlockKey) (rid : nat) : M St unit :=
  r ← get_res rid;
  if decide (r_source_readers r ≤ 0)%Z then
    raise (RuntimeError "local DRAM source reader ownership lost")
  else
    upd_res rid (r_set_readers (r_source_readers r - 1)%Z) ;;
    if decide (r_source_readers r - 1 = 0)%Z then
      active ← gets (λ s, ss_active (p_source (s_pools s)) !! key);
      match active with
      | None => raise (KeyError key)
      | Some _ => upd_source (λ x, set_ss_active (delete key (ss_active x)) x)
      end
    else mret tt.

(** Then a residency nobody claims is retired or ranked. *)
Definition settle_reader (freed : bool) (x : BlockKey * nat) : M St bool :=
  let '(key, rid) := x in
  b ← find_record key;
  r ← get_res rid;
  if decide ((b ≫= b_local_dram) = Some rid ∧ r_claim_count r = 0%Z)
  then f ← after_last_claim key rid; mret (freed || f)
  else mret freed.

(** One completion: account the access, drop the readers, then retire or rank
    the residencies nobody else claims. *)
Definition drain_one (c : list BlockKey * list nat * bool) : M St bool :=
  let '(keys, sources, success) := c in
  (if success then record_access E keys else mret tt) ;;
  for_each (zip keys sources) (λ '((key, rid) : BlockKey * nat), drop_reader key rid) ;;
  fold_each settle_reader false (zip keys sources).

(** [n] bounds the completions taken; nothing adds to the queue meanwhile. *)
Fixpoint drain_loop (n : nat) (freed : bool) : M St bool :=
  match n with
  | 0 => mret freed
  | S n =>
      completions ← gets (λ s, ss_completions (p_source (s_pools s)));
      match completions with
      | [] => mret freed
      | c :: rest =>
          upd_source (set_ss_completions rest) ;;
          f ← drain_one c;
          drain_loop n (freed || f)
      end
  end.

Definition drain_source_completions : M St unit :=
  draining ← gets (λ s, p_draining (s_pools s));
  if (draining : bool) then mret tt
  else
    upd_pools (set_p_draining true) ;;
    n ← gets (λ s, length (ss_completions (p_source (s_pools s))));
    freed ← try_finally (drain_loop n false) (upd_pools (set_p_draining false));
    closed ← gets s_closed;
    if (freed && negb closed : bool) then resume_capacity_waiters else mret tt.

(** ** Claims of operations and of the framework *)

Definition memory_ref (location : label * Z) : MemoryRef :=
  {| end_point_name := env_agent E; ref_label := location.1; element_index := location.2 |}.

(** [_new_public_claim] *)
Definition new_public_claim (key : BlockKey) (rid : nat) (slots : option (list (label * Z)))
    : M St OpEntryResult :=
  acquire_claim key rid ;;
  handle ← gets (λ s, p_next_handle (s_pools s));
  upd_pools (λ p, set_p_claims (<[ handle := (key, rid) ]> (p_claims p))
                    (set_p_next_handle (handle + 1)%Z p)) ;;
  mret {| status := SUCCESS;
          descriptors := option_map (map memory_ref) slots;
          release_handle := Some handle |}.

Definition release (handles : list Z) : M St (list (Z * bool)) :=
  results ← fold_each (λ results handle,
    claim ← gets (λ s, p_claims (s_pools s) !! handle);
    match claim with
    | None => mret (results ++ [(handle, false)])
    | Some (key, rid) =>
        upd_pools (λ p, set_p_claims (delete handle (p_claims p)) p) ;;
        release_claim key rid ;;
        mret (results ++ [(handle, true)])
    end) [] handles;
  update_capacity_pressure ;;
  mret results.

Definition acquire_sources (keys : list BlockKey) (allow_filling : bool)
    : M St (gmap BlockKey nat) :=
  sources ← fold_each (λ sources key,
    if decide (is_Some (sources !! key)) then mret sources
    else
      b ← find_record key;
      match b ≫= b_local_dram with
      | None => mret sources
      | Some rid =>
          r ← get_res rid;
          if decide (r_state r = READY ∨ allow_filling = true ∧ r_state r = FILLING) then
            acquire_claim key rid ;; mret (<[ key := rid ]> sources)
          else mret sources
      end) (∅ : gmap BlockKey nat) keys;
  update_capacity_pressure ;;
  mret sources.

Definition release_sources (keys : list BlockKey) : M St unit :=
  for_each keys (λ key,
    b ← find_record key;
    match b ≫= b_local_dram with
    | None => raise (RuntimeError "local DRAM source state lost")
    | Some rid => release_claim key rid
    end) ;;
  update_capacity_pressure.

Definition retire_sources (keys : list BlockKey) : M St unit :=
  for_each (first_occurrences [] keys) (λ key,
    b ← find_record key;
    match b ≫= b_local_dram with
    | None => raise (RuntimeError "local DRAM source cannot retire")
    | Some rid =>
        r ← get_res rid;
        if decide (r_state r ≠ READY ∨ (r_claim_count r ≤ 0)%Z) then
          raise (RuntimeError "local DRAM source cannot retire")
        else
          upd_res rid (r_set_retire true) ;;
          if env_framework_control E
          then upd_source (λ x, set_ss_index (<[ key := None ]> (ss_index x)) x)
          else mret tt
    end).

Definition pools_close : M St unit :=
  drain_source_completions ;;
  upd_pools (set_p_claims ∅).

(** ** Allocation *)

Definition free_count (s : St) (name : string) : option Z :=
  (λ l, Z.of_nat (length l)) <$> p_free (s_pools s) !! name.

(** [all(len(free[name]) >= count)]; an unknown pool is a KeyError. *)
Fixpoint enough_free (required : list (string * Z)) : M St bool :=
  match required with
  | [] => mret true
  | (name, count) :: required =>
      free ← gets (λ s, free_count s name);
      match free with
      | None => raise (KeyError name)
      | Some n => if decide (n >= count)%Z then enough_free required else mret false
      end
  end.

(** [self._free_slots[name]] of every required pool, as [short()] reads them first. *)
Definition lookup_pools (required : list (string * Z)) : M St unit :=
  for_each required (λ '((name, _) : string * Z),
    free ← gets (λ s, free_count s name);
    match free with None => raise (KeyError name) | Some _ => mret tt end).

(** [short()]: pools still below the requirement given the slots [freed]. *)
Definition short (required : list (string * Z)) (freed : gmap string Z) (s : St) : list string :=
  (filter (λ '(name, count),
    (default 0 (free_count s name) + default 0 (freed !! name) < count)%Z) required).*1.

(** [[(label, free[pool].popleft()) for label in layout]] *)
Definition take_slots (layout : list label) : M St (list (label * Z)) :=
  fold_each (λ acc l,
    free ← gets (λ s, p_free (s_pools s) !! pool_of l);
    match free with
    | None => raise (KeyError (pool_of l))
    | Some [] => raise (RuntimeError "pop from an empty deque")
    | Some (slot :: q) =>
        upd_pools (λ p, set_p_free (<[ pool_of l := q ]> (p_free p)) p) ;;
        mret (acc ++ [(l, slot)])
    end) [] layout.

(** How the candidate loop ends: with enough victims, or with an early return. *)
Inductive SelectResult :=
  | Selected (victims : list (BlockKey * nat))
  | NoCandidate
  | EvictionPending.

Definition close_candidates (c : Cands) : M St unit :=
  upd_pools (λ p, set_p_evictable (cand_close (p_evictable p) c) p).

(** The [while deficient] loop under [closing(candidates)].  Each turn takes a
    key the generator has not yielded before; [n] bounds the turns. *)
Fixpoint select_victims (n : nat) (required : list (string * Z))
    (protected : gset BlockKey) (deadline : float) (c : Cands)
    (victims : list (BlockKey * nat)) (freed : gmap string Z) : M St SelectResult :=
  deficient ← gets (short required freed);
  if decide (deficient = []) then close_candidates c ;; mret (Selected victims)
  else
    match n with
    | 0 => raise (RuntimeError "out of fuel")
    | S n =>
        q ← gets (λ s, p_evictable (s_pools s));
        let '(key, q, c) := cand_next protected q c in
        upd_pools (set_p_evictable q) ;;
        match key with
        | None => mret NoCandidate
        | Some key =>
            b ← find_record key;
            match b, b ≫= b_local_dram with
            | Some b, Some rid =>
                r ← get_res rid;
                if decide (r_state r ≠ READY ∨ r_claim_count r ≠ 0%Z) then
                  close_candidates c ;;
                  raise (RuntimeError "invalid evictable local DRAM entry")
                else if decide (Forall (λ p, p ∉ deficient) (pool_counts (r_slots r)).*1) then
                  select_victims n required protected deadline c victims freed
                else if decide (r_source_readers r ≠ 0%Z) then
                  select_victims n required protected deadline c victims freed
                else
                  '(decision, eviction_pending) ←
                    try_except
                      (decide_eviction (block_meta key b (residency_size r)) LOCAL_G2 deadline)
                      (λ e, close_candidates c ;; raise e);
                  deficient ← gets (short required freed);
                  if decide (deficient = []) then
                    close_candidates c ;; mret (Selected victims)
                  else if (eviction_pending : bool) then
                    upd_pools (set_p_capacity_key (Some key)) ;;
                    close_candidates c ;; mret EvictionPending
                  else if decide (decision.1 = KEEP) then
                    select_victims n required protected deadline c victims freed
                  else
                    select_victims n required protected deadline c
                      (victims ++ [(key, rid)]) (bump 1 (pool_counts (r_slots r)) freed)
            | _, _ =>
                close_candidates c ;;
                raise (RuntimeError "invalid evictable local DRAM entry")
            end
        end
    end.

(** Free one selected victim. *)
Definition evict_victim (key : BlockKey) (rid : nat) : M St unit :=
  r ← get_res rid;
  remove_evictable key rid ;;
  upd_record key (set_b_local_dram None) ;;
  b ← find_record key;
  match b with
  | None => raise (KeyError key)
  | Some b =>
      observe_residency key b ;;
      on_remove (block_meta key b (residency_size r)) ;;
      prune_block_record key ;;
      free_slots (r_slots r)
  end.

Definition readers_of (s : St) (rid : nat) : Z :=
  match s_res s !! rid with Some r => r_source_readers r | None => 0%Z end.

Definition allocate_slots (layout : list label) (protected : gset BlockKey) (deadline : float)
    : M St (option (list (label * Z)) * list BlockKey * bool) :=
  let required := required_counts layout in
  enough ← enough_free required;
  if (enough : bool) then
    locations ← take_slots layout; mret (Some locations, [], false)
  else
    capacity_key ← gets (λ s, p_capacity_key (s_pools s));
    if decide (capacity_key ≠ None) then mret (None, [], true)
    else
      retry_unscored ;;
      lookup_pools required ;;
      n ← gets (λ s, size (q_live (p_evictable (s_pools s))));
      selected ← select_victims (S n) required protected deadline cands_init [] ∅;
      match selected with
      | NoCandidate => mret (None, [], false)
      | EvictionPending => mret (None, [], true)
      | Selected victims =>
          (* policy ran unlocked: a source may have claimed a victim meanwhile *)
          busy ← gets (λ s, existsb (λ '(_, rid), negb (readers_of s rid =? 0)%Z) victims);
          if (busy : bool) then mret (None, [], false)
          else
            for_each victims (λ '(key, _),
              upd_source (λ x, set_ss_index (delete key (ss_index x)) x)) ;;
            for_each victims (λ '((key, rid) : BlockKey * nat), evict_victim key rid) ;;
            locations ← take_slots layout;
            mret (Some locations, victims.*1, false)
      end.

(** ** Recovery *)

(** The label checks of one recovered residency: known pool, part labels proper
    and unique, the slot in range and named by nobody else. *)
Fixpoint occupy (slots : list (label * Z)) (labels : list label)
    (occupied : gmap string (gset Z)) : option (gmap string (gset Z)) :=
  match slots with
  | [] => Some occupied
  | (l, slot) :: slots =>
      let '(pool_name, separator, part) := partition_colon l in
      match env_regions E !! pool_name, occupied !! pool_name with
      | Some (_, length, size), Some taken =>
          if decide (separator = true ∧ (part ∈ [""; "*"] ∨ l ∈ labels)) then None
          else if decide (¬ (0 <= slot < length / size)%Z) then None
          else if decide (slot ∈ taken) then None
          else occupy slots (l :: labels) (<[ pool_name := {[ slot ]} ∪ taken ]> occupied)
      | _, _ => None
      end
  end.

Definition adopt_residency (occupied : gmap string (gset Z)) (key : BlockKey) (rid : nat)
    : M St (gmap string (gset Z)) :=
  r ← get_res rid;
  if decide (r_state r ≠ READY ∨ r_slots r = [] ∨ pending_nonempty r = true) then
    raise (ValueError "invalid local DRAM recovery slots")
  else
    match occupy (r_slots r) [] occupied with
    | None => raise (ValueError "invalid local DRAM recovery slots")
    | Some occupied =>
        declaration ← lift (validate_expected_layout E (r_key_layout r));
        if decide (declaration ≠ r_layout r) then
          raise (ValueError "invalid local DRAM recovery layout")
        else
          upd_res rid (λ r, prepare_label_index (r_set_refs (RefsDict ∅) r)) ;;
          publish_source key rid None ;;
          mret occupied
    end.

(** [adopt_recovery_slots]: the records in the mapping's iteration order. *)
Definition adopt_recovery_slots (records : list (BlockKey * BlockRecord)) : M St unit :=
  occupied ← fold_each (λ occupied '((key, b) : BlockKey * BlockRecord),
    match b_local_dram b with
    | None => mret occupied
    | Some rid => adopt_residency occupied key rid
    end) ((λ _, ∅) <$> env_regions E) records;
  upd_pools (set_p_free (map_imap (λ pool_name '(_, length, size),
    Some (filter (λ slot, slot ∉ default ∅ (occupied !! pool_name))
            (seqZ 0 (length / size)))) (env_regions E))).

Definition rank_recovered (records : list (BlockKey * BlockRecord)) : M St unit :=
  for_each records (λ '((key, b) : BlockKey * BlockRecord),
    if decide (b_local_dram b = None) then mret tt else make_evictable key).

(** [telemetry_state]: total, free, allocated and evictable slots. *)
Definition sum_values {A} (f : A → Z) (m : gmap string A) : Z :=
  foldr (λ x acc, f x.2 + acc)%Z 0%Z (map_to_list m).
Definition telemetry_state : M St (Z * Z * Z * Z) :=
  free ← gets (λ s, sum_values (λ l, Z.of_nat (length l)) (p_free (s_pools s)));
  slots ← reclaimable_slots;
  let total := sum_values (λ '(_, length, size), (length / size)%Z) (env_regions E) in
  mret (total, free, total - free, sum_values id slots - free)%Z.
End Pools.

(** [_KVCRCore._decide_eviction]; [resolve] is the G3 tier's [resolve_eviction]
    when that tier is configured. *)
Definition core_decide_eviction (E : Env)
    (resolve : option (BlockMeta → CacheTier → PlacementDecision → float →
                       M St (PlacementDecision * bool)))
    (meta : BlockMeta) (source : CacheTier) (deadline : float)
    : M St (PlacementDecision * bool) :=
  decision ← policy_decide_eviction E meta source;
  match resolve with
  | Some resolve_eviction => resolve_eviction meta source decision deadline
  | None => mret (decision, false)
  end.
