(* ===== verification/PoolsInv.v ===== *)
(** * The invariant of the local DRAM pools

    What [_LocalDramPools] promises about slots, claims, readers and eviction
    candidates, split by concern.  The ghost part [Ghost] names what is in
    flight at a given point: slots taken and not yet given to a residency, reads
    the progress thread is performing, claims held by operations, and queue
    entries held by suspended candidate generators. *)

From Stdlib Require Import ZArith Lia.
From S2P Require Import Prelude PyFloat Types PolicyRuntime Layout State CoreBase Pools.

(** ** Ownership *)

(** The residency each block record holds. *)
Definition own (s : St) : gmap BlockKey nat := omap b_local_dram (s_records s).

(** The slots of the residencies of an ownership map. *)
Definition res_slots (res : gmap nat Residency) (rid : nat) : list (label * Z) :=
  match res !! rid with Some r => r_slots r | None => [] end.
Definition slots_of (o : gmap BlockKey nat) (res : gmap nat Residency) : list (label * Z) :=
  map_to_list o ≫= λ x, res_slots res x.2.
(** Slot numbers in one pool. *)
Definition pslots (p : string) (l : list (label * Z)) : list Z :=
  (filter (λ x, pool_of x.1 = p) l).*2.

(** Occurrences, as the integer a counter holds. *)
Definition occ {A} `{EqDecision A} (x : A) (l : list A) : Z :=
  Z.of_nat (length (filter (λ y, y = x) l)).

Record Ghost := mkGhost {
  gh_held : list (label * Z);
  gh_reads : list (BlockKey * nat);
  gh_claims : list (BlockKey * nat);
  gh_ents : list qentry }.
Definition ghost0 : Ghost := mkGhost [] [] [] [].
Definition set_held (h : list (label * Z)) (g : Ghost) : Ghost :=
  mkGhost h (gh_reads g) (gh_claims g) (gh_ents g).
Definition set_reads (r : list (BlockKey * nat)) (g : Ghost) : Ghost :=
  mkGhost (gh_held g) r (gh_claims g) (gh_ents g).
Definition set_claims (c : list (BlockKey * nat)) (g : Ghost) : Ghost :=
  mkGhost (gh_held g) (gh_reads g) c (gh_ents g).
Definition set_ents (e : list qentry) (g : Ghost) : Ghost :=
  mkGhost (gh_held g) (gh_reads g) (gh_claims g) e.

(** *** Residency objects: references are live and nobody shares one. *)
Record heap_inv (o : gmap BlockKey nat) (res : gmap nat Residency) (next : nat) : Prop := {
  hi_alloc : ∀ k rid, o !! k = Some rid → is_Some (res !! rid);
  hi_fresh : ∀ rid, next ≤ rid → res !! rid = None;
  hi_index : ∀ rid r, res !! rid = Some r → index_ok r;
  hi_inj : ∀ k k' rid, o !! k = Some rid → o !! k' = Some rid → k = k' }.

(** *** Slots: each slot of each pool is free, owned or held, exactly once. *)
Record slots_inv (E : Env) (o : gmap BlockKey nat) (res : gmap nat Residency)
    (free : gmap string (list Z)) (held : list (label * Z)) : Prop := {
  si_dom : ∀ p, is_Some (free !! p) ↔ is_Some (env_regions E !! p);
  si_conserved : ∀ p, default [] (free !! p) ++ pslots p (slots_of o res) ++ pslots p held
                      ≡ₚ seqZ 0 (slot_total E p) }.

(** *** Candidates: ready, complete, unclaimed and not retiring. *)
Definition evictable (o : gmap BlockKey nat) (res : gmap nat Residency) (k : BlockKey) : Prop :=
  ∃ rid r, o !! k = Some rid ∧ res !! rid = Some r ∧ can_evict r = true.
(** The residencies of the keys in the queue. *)
Definition queued (q : EvictionQueue) (o : gmap BlockKey nat) : gmap BlockKey nat :=
  map_zip_with (λ rid _, rid) o (q_live q).
Record queue_inv (o : gmap BlockKey nat) (res : gmap nat Residency) (q : EvictionQueue)
    (counts : gmap string Z) (unscored : gset BlockKey) (ents : list qentry) : Prop := {
  qi_wf : queue_wf q ents;
  qi_live : ∀ k, is_Some (q_live q !! k) → evictable o res k;
  qi_unscored : ∀ k, k ∈ unscored → evictable o res k;
  qi_counts : ∀ p, default 0%Z (counts !! p) = pool_count (slots_of (queued q o) res) p }.

(** *** Readers: counts, the active table and the published index agree. *)
Definition completed_reads (src : SourceState) : list (BlockKey * nat) :=
  ss_completions src ≫= λ c, zip c.1.1 c.1.2.
Definition reads (src : SourceState) (inflight : list (BlockKey * nat)) : list (BlockKey * nat) :=
  inflight ++ completed_reads src.
Definition published (E : Env) (o : gmap BlockKey nat) (res : gmap nat Residency)
    (k : BlockKey) (rid : nat) : Prop :=
  env_framework_control E = true ∧ o !! k = Some rid ∧
  ∃ r, res !! rid = Some r ∧ r_state r = READY ∧
    pending_nonempty r = false ∧ r_retire_on_release r = false ∧
    r_refs r = RefsTuple (descriptors_of E (r_slots r)).
(** Cached descriptors, sparse or complete, are those of the slots. *)
Definition refs_ok (E : Env) (r : Residency) : Prop :=
  match r_refs r with
  | RefsDict d => ∀ i ref, d !! i = Some ref → descriptors_of E (r_slots r) !! i = Some ref
  | RefsTuple t => t = descriptors_of E (r_slots r)
  end.
Record reader_inv (E : Env) (o : gmap BlockKey nat) (res : gmap nat Residency)
    (src : SourceState) (inflight : list (BlockKey * nat)) : Prop := {
  ri_len : Forall (λ c : list BlockKey * list nat * bool, length c.1.1 = length c.1.2)
             (ss_completions src);
  ri_own : ∀ k rid, (k, rid) ∈ reads src inflight → o !! k = Some rid;
  ri_count : ∀ k rid r, o !! k = Some rid → res !! rid = Some r →
    r_source_readers r = occ (k, rid) (reads src inflight);
  ri_active : ∀ k rid, ss_active src !! k = Some rid ↔ (k, rid) ∈ reads src inflight;
  ri_refs : ∀ rid r, res !! rid = Some r → refs_ok E r;
  ri_index : ∀ k rid, ss_index src !! k = Some (Some rid) → published E o res k rid }.

(** *** Claims: each residency's count is the handles and operations that hold it. *)
Definition claimants (claims : gmap Z (BlockKey * nat)) (ops : list (BlockKey * nat))
    : list (BlockKey * nat) := (map_to_list claims).*2 ++ ops.
Record claim_inv (o : gmap BlockKey nat) (res : gmap nat Residency)
    (claims : gmap Z (BlockKey * nat)) (next : Z) (ops : list (BlockKey * nat)) : Prop := {
  ci_own : ∀ k rid, (k, rid) ∈ claimants claims ops → o !! k = Some rid;
  ci_count : ∀ k rid r, o !! k = Some rid → res !! rid = Some r →
    r_claim_count r = occ (k, rid) (claimants claims ops);
  ci_next : ∀ h, is_Some (claims !! h) → (h < next)%Z }.

Record pinv (E : Env) (g : Ghost) (s : St) : Prop := {
  pi_heap : heap_inv (own s) (s_res s) (s_next_res s);
  pi_slots : slots_inv E (own s) (s_res s) (p_free (s_pools s)) (gh_held g);
  pi_queue : queue_inv (own s) (s_res s) (p_evictable (s_pools s))
    (p_evictable_slots (s_pools s)) (p_unscored (s_pools s)) (gh_ents g);
  pi_readers : reader_inv E (own s) (s_res s) (p_source (s_pools s)) (gh_reads g);
  pi_claims : claim_inv (own s) (s_res s) (p_claims (s_pools s))
    (p_next_handle (s_pools s)) (gh_claims g) }.

(** What a call that may start or finish other work leaves: its caller's slots
    and queue entries are as before and its caller's claims still count. *)
Record gle (g g' : Ghost) : Prop := {
  gle_held : gh_held g' = gh_held g;
  gle_ents : gh_ents g' = gh_ents g;
  gle_claims : gh_claims g ⊆+ gh_claims g' }.
#[export] Instance gle_preorder : PreOrder gle.
Proof.
  split; [by split|]. intros a b c [] []. split; [congruence..|]. by etrans.
Qed.
Definition pinv_ext (E : Env) (g : Ghost) (s : St) : Prop := ∃ g', gle g g' ∧ pinv E g' s.

(** ** States the pools cannot tell apart *)
Record same_view (s s' : St) : Prop := {
  sv_own : own s' = own s;
  sv_res : s_res s' = s_res s;
  sv_next : s_next_res s' = s_next_res s;
  sv_pools : s_pools s' = s_pools s }.
#[export] Instance same_view_equiv : Equivalence same_view.
Proof.
  split; [by split | intros ?? []; by split | intros ??? [] []; split; congruence].
Qed.
#[export] Instance pinv_proper E g : Proper (same_view ==> iff) (pinv E g).
Proof.
  intros s s' [Ho Hr Hn Hp]. split; intros []; split;
    rewrite ?Ho, ?Hr, ?Hn, ?Hp in *; done.
Qed.

(** Operations of the other components that leave the pools alone. *)
Definition quiet {A} (m : M St A) (Err : exn → Prop) : Prop :=
  ∀ s, wp m (λ _, same_view s) (λ e s', Err e ∧ same_view s s') s.

Lemma quiet_ret {A} (a : A) Err : quiet (mret a) Err.
Proof. intros s. apply wp_ret. reflexivity. Qed.
Lemma quiet_gets {A} (f : St → A) Err : quiet (gets f) Err.
Proof. intros s. apply wp_gets. reflexivity. Qed.
Lemma quiet_modify f Err : (∀ s, same_view s (f s)) → quiet (modify f) Err.
Proof. intros H s. apply wp_modify, H. Qed.
Lemma quiet_bind {A B} (m : M St A) (f : A → M St B) Err :
  quiet m Err → (∀ a, quiet (f a) Err) → quiet (m ≫= f) Err.
Proof.
  intros Hm Hf s. apply wp_bind. eapply wp_mono; [apply Hm | | auto].
  intros a s' Hs. simpl in Hs. eapply wp_mono; [apply Hf|..]; simpl.
  - intros b s'' Hs'. by transitivity s'.
  - intros e s'' [He Hs']. split; [done|]. by transitivity s'.
Qed.
Lemma quiet_for_each {A} (l : list A) (f : A → M St unit) Err :
  (∀ x, quiet (f x) Err) → quiet (for_each l f) Err.
Proof.
  intros Hf. induction l as [|x l IH]; simpl; [apply quiet_ret|].
  apply quiet_bind; [apply Hf | intros _; exact IH].
Qed.
(** A quiet step may be skipped over in a proof about the pools. *)
Lemma wp_quiet {A} (m : M St A) Err Q Ex s :
  quiet m Err → (∀ a s', same_view s s' → Q a s') →
  (∀ e s', Err e → same_view s s' → Ex e s') → wp m Q Ex s.
Proof. intros Hm HQ HE. eapply wp_mono; [apply Hm|auto|]. intros e s' []. auto. Qed.

Ltac quiet_tac :=
  repeat match goal with
  | |- quiet (mret _) _ => apply quiet_ret
  | |- quiet (gets _) _ => apply quiet_gets
  | |- quiet (modify _) _ => apply quiet_modify; intros ?
  | |- quiet (_ ≫= _) _ => apply quiet_bind; [|intros ?]
  | |- quiet (for_each _ _) _ => apply quiet_for_each; intros ?
  | |- quiet (if ?b then _ else _) _ => destruct b
  | |- quiet (match ?b with Some _ => _ | None => _ end) _ => destruct b
  | |- quiet _ _ => solve [eauto 2 with kvcr nocore]
  end.

Lemma quiet_emit ev Err : quiet (emit ev) Err.
Proof. apply quiet_modify. by split. Qed.
Lemma quiet_log_call c Err : quiet (log_call c) Err.
Proof. apply quiet_modify. by split. Qed.
Lemma quiet_observe key b Err : quiet (observe_residency key b) Err.
Proof. intros s. exact (quiet_emit _ Err s). Qed.
#[export] Hint Resolve quiet_emit quiet_log_call quiet_observe : kvcr.
Lemma quiet_on_remove meta Err : quiet (on_remove meta) Err.
Proof. unfold on_remove. quiet_tac. Qed.
Lemma quiet_publish_inventory E keys tier removed Err :
  quiet (publish_inventory E keys tier removed) Err.
Proof. unfold publish_inventory. quiet_tac. Qed.
Lemma quiet_capacity E slots Err : quiet (core_update_capacity_pressure E slots) Err.
Proof. unfold core_update_capacity_pressure. quiet_tac. by split. Qed.
Lemma quiet_update_capacity_pressure E Err : quiet (update_capacity_pressure E) Err.
Proof.
  unfold update_capacity_pressure, reclaimable_slots. case_match; [apply quiet_ret|].
  apply quiet_bind; [apply quiet_gets | intros; apply quiet_capacity].
Qed.
Lemma quiet_find_record key Err : quiet (find_record key) Err.
Proof. apply quiet_gets. Qed.
Lemma own_prune s key b : s_records s !! key = Some b → record_is_empty b = true →
  omap b_local_dram (delete key (s_records s)) = own s.
Proof.
  intros Hb He. apply map_eq. intros k. unfold own. rewrite !lookup_omap.
  destruct (decide (k = key)) as [->|].
  - rewrite lookup_delete_eq, Hb. unfold record_is_empty in He. simpl.
    destruct (b_local_dram b); [|done]. simpl in He.
    by rewrite andb_false_r in He.
  - by rewrite lookup_delete_ne.
Qed.
Lemma quiet_prune key Err : quiet (prune_block_record key) Err.
Proof.
  apply quiet_modify. intros s. destruct (s_records s !! key) as [b|] eqn:Hb; [|done].
  destruct (record_is_empty b) eqn:He; [|done]. split; try done. by eapply own_prune.
Qed.
Lemma own_alter s key f : (∀ b, b_local_dram (f b) = b_local_dram b) →
  omap b_local_dram (alter f key (s_records s)) = own s.
Proof.
  intros Hf. apply map_eq. intros k. unfold own. rewrite !lookup_omap.
  rewrite lookup_alter. case_decide as Hk; [|done]. subst.
  destruct (s_records s !! k); simpl; [apply Hf | done].
Qed.
Lemma quiet_upd_record key f Err : (∀ b, b_local_dram (f b) = b_local_dram b) →
  quiet (upd_record key f) Err.
Proof. intros Hf. apply quiet_modify. intros s. split; try done. by apply own_alter. Qed.
#[export] Hint Resolve quiet_on_remove quiet_publish_inventory quiet_update_capacity_pressure
  quiet_find_record quiet_prune : kvcr.

(** Accesses are recorded on records that exist. *)
Lemma wp_record_access E keys Q Ex s :
  (∀ k, k ∈ keys → is_Some (own s !! k)) →
  (∀ s', same_view s s' → Q tt s') → wp (record_access E keys) Q Ex s.
Proof.
  intros Hk HQ. unfold record_access.
  apply wp_bind. unfold wp at 1. simpl.
  eapply (wp_for_each keys _ (λ r s', same_view s s' ∧ ∀ k, k ∈ r → is_Some (own s !! k))).
  - split; [by split|done].
  - intros k r s' [Hv Hr]. apply wp_bind, wp_gets.
    destruct (Hr k ltac:(left)) as [rid Hown]. rewrite <- (sv_own _ _ Hv) in Hown.
    unfold own in Hown. apply lookup_omap_Some in Hown as (b & _ & Hb). simpl. rewrite Hb.
    eapply wp_mono; [by apply (quiet_upd_record k _ (λ _, False))| |by intros ?? []].
    intros [] s'' Hv'. simpl in Hv'. split; [by etrans | set_solver].
  - intros s' [Hv _]. auto.
Qed.

(** ** Slots of ownership maps *)

#[export] Instance pslots_proper p : Proper ((≡ₚ) ==> (≡ₚ)) (pslots p).
Proof. intros l l' Hl. unfold pslots. by rewrite Hl. Qed.
#[export] Instance pool_count_proper : Proper ((≡ₚ) ==> (=) ==> (=)) pool_count.
Proof. intros l l' Hl p ? <-. unfold pool_count. by rewrite Hl. Qed.
#[export] Instance occ_proper {A} `{EqDecision A} (x : A) : Proper ((≡ₚ) ==> (=)) (occ x).
Proof. intros l l' Hl. unfold occ. by rewrite Hl. Qed.

Lemma pslots_app p l l' : pslots p (l ++ l') = pslots p l ++ pslots p l'.
Proof. unfold pslots. by rewrite filter_app, fmap_app. Qed.
Lemma pslots_cons p l slot r :
  pslots p ((l, slot) :: r) = if decide (pool_of l = p) then slot :: pslots p r else pslots p r.
Proof. unfold pslots. rewrite filter_cons. simpl. by case_decide. Qed.
Lemma pool_count_cons l slot r p :
  pool_count ((l, slot) :: r) p = ((if decide (pool_of l = p) then 1 else 0) + pool_count r p)%Z.
Proof. unfold pool_count. rewrite filter_cons. simpl. case_decide; simpl; lia. Qed.
Lemma pslots_length p l : Z.of_nat (length (pslots p l)) = pool_count l p.
Proof. unfold pslots, pool_count. by rewrite length_fmap. Qed.
Lemma pool_count_app l l' p : pool_count (l ++ l') p = (pool_count l p + pool_count l' p)%Z.
Proof. unfold pool_count. rewrite filter_app, length_app. lia. Qed.
Lemma pool_count_nonneg l p : (0 <= pool_count l p)%Z.
Proof. unfold pool_count. lia. Qed.
Lemma occ_app {A} `{EqDecision A} (x : A) l l' : occ x (l ++ l') = (occ x l + occ x l')%Z.
Proof. unfold occ. rewrite filter_app, length_app. lia. Qed.
Lemma occ_cons {A} `{EqDecision A} (x y : A) l :
  occ x (y :: l) = ((if decide (y = x) then 1 else 0) + occ x l)%Z.
Proof. unfold occ. rewrite filter_cons. case_decide; simpl; lia. Qed.
Lemma occ_middle {A} `{EqDecision A} (x y : A) l l' :
  occ x (l ++ y :: l') = ((if decide (y = x) then 1 else 0) + occ x (l ++ l'))%Z.
Proof. by rewrite <- Permutation_middle, occ_cons. Qed.
Lemma elem_of_middle {A} (x y : A) l l' : x ∈ l ++ y :: l' ↔ x = y ∨ x ∈ l ++ l'.
Proof. rewrite <- Permutation_middle. apply elem_of_cons. Qed.
Lemma occ_pos {A} `{EqDecision A} (x : A) l : (0 < occ x l)%Z ↔ x ∈ l.
Proof.
  induction l as [|y l IH]; [split; [by cbn|set_solver]|].
  rewrite occ_cons, elem_of_cons, <- IH. pose proof (Zle_0_nat (length (filter (λ y, y = x) l))).
  unfold occ in *. case_decide; [split; [by left|lia]|]. split; [right; lia|]. intros [?|?]; [done|lia].
Qed.
Lemma occ_nonneg {A} `{EqDecision A} (x : A) l : (0 <= occ x l)%Z.
Proof. unfold occ. lia. Qed.

Lemma occ_zero {A} `{EqDecision A} (x : A) l : x ∉ l → occ x l = 0%Z.
Proof. rewrite <- occ_pos. pose proof (occ_nonneg x l). lia. Qed.

Lemma slots_of_insert o res k rid : o !! k = None →
  slots_of (<[ k := rid ]> o) res ≡ₚ res_slots res rid ++ slots_of o res.
Proof. intros Hk. unfold slots_of. by rewrite (map_to_list_insert _ _ _ Hk). Qed.
Lemma slots_of_delete o res k rid : o !! k = Some rid →
  slots_of o res ≡ₚ res_slots res rid ++ slots_of (delete k o) res.
Proof.
  intros Hk. rewrite <- (slots_of_insert (delete k o)) by apply lookup_delete_eq.
  by rewrite insert_delete_id.
Qed.
Lemma slots_of_ext o res res' :
  (∀ k rid, o !! k = Some rid → res_slots res' rid = res_slots res rid) →
  slots_of o res' = slots_of o res.
Proof.
  intros H. unfold slots_of.
  assert (Forall (λ x : BlockKey * nat, res_slots res' x.2 = res_slots res x.2) (map_to_list o)) as HF.
  { apply list.Forall_forall. intros [k rid] Hin%elem_of_map_to_list. simpl. by eapply H. }
  induction HF as [|x l Hx _ IH]; [done|]. simpl. rewrite Hx. f_equal. exact IH.
Qed.
Lemma res_slots_alter f rid res rid' : (∀ r, r_slots (f r) = r_slots r) →
  res_slots (alter f rid res) rid' = res_slots res rid'.
Proof.
  intros Hf. unfold res_slots. rewrite lookup_alter. case_decide; [|done]. subst.
  destruct (res !! rid'); simpl; [apply Hf|done].
Qed.
Lemma slots_of_alter o res f rid : (∀ r, r_slots (f r) = r_slots r) →
  slots_of o (alter f rid res) = slots_of o res.
Proof. intros Hf. apply slots_of_ext. intros. by apply res_slots_alter. Qed.

(** [Counter] updates: a pool's count changes by the slots the residency has there. *)
Lemma first_occurrences_spec seen l :
  NoDup (first_occurrences seen l) ∧ ∀ x, x ∈ first_occurrences seen l ↔ x ∈ l ∧ x ∉ seen.
Proof.
  revert seen. induction l as [|y l IH]; intros seen; simpl; [split; [constructor|set_solver]|].
  case_decide as Hy.
  - destruct (IH seen) as [H1 H2]. split; [done|]. intros x. rewrite H2. set_solver.
  - destruct (IH (y :: seen)) as [H1 H2]. split.
    + constructor; [|done]. rewrite H2. set_solver.
    + intros x. rewrite elem_of_cons, H2.
      destruct (decide (x = y)); set_solver.
Qed.
Lemma bump_lookup sg (f : string → Z) ps d p : NoDup ps →
  default 0%Z (bump sg ((λ p, (p, f p)) <$> ps) d !! p) =
    (default 0 (d !! p) + if decide (p ∈ ps) then sg * f p else 0)%Z.
Proof.
  unfold bump. intros Hnd. revert d. induction Hnd as [|q ps Hq _ IH]; intros d.
  { simpl (foldl _ _ _). rewrite decide_False by set_solver. lia. }
  cbn [fmap list_fmap foldl]. rewrite IH. destruct (decide (p = q)) as [->|Hne].
  - rewrite lookup_insert_eq, (decide_False (P:=q ∈ ps)) by done.
    rewrite decide_True by set_solver. cbn. lia.
  - rewrite lookup_insert_ne by done. do 2 case_decide; set_solver || lia.
Qed.
Lemma bump_pool_counts sg sl d p :
  default 0%Z (bump sg (pool_counts sl) d !! p) = (default 0 (d !! p) + sg * pool_count sl p)%Z.
Proof.
  unfold pool_counts. rewrite bump_lookup by apply first_occurrences_spec.
  case_decide as Hp; [done|]. f_equal.
  enough (pool_count sl p = 0%Z) by lia. unfold pool_count.
  destruct (filter _ sl) as [|x l] eqn:Ef; [done|]. exfalso. apply Hp.
  apply first_occurrences_spec. split; [|set_solver].
  assert (x ∈ filter (λ x, pool_of x.1 = p) sl) as [<- Hx]%list_elem_of_filter
    by (rewrite Ef; left).
  unfold layout_of. apply list_elem_of_fmap. eexists; split; [done|].
  apply list_elem_of_fmap. by eexists.
Qed.

(** ** How the parts of the invariant change *)

Section Updates.
Context (E : Env).
Implicit Types (o : gmap BlockKey nat) (res : gmap nat Residency) (f : Residency → Residency).

(** *** A residency object is updated in place *)

Lemma heap_inv_alter o res next f rid : (∀ r, index_ok r → index_ok (f r)) →
  heap_inv o res next → heap_inv o (alter f rid res) next.
Proof.
  intros Hx [Ha Hf Hix Hi]. split; [| | |done].
  - intros k rid' Hk. rewrite lookup_alter. destruct (Ha k rid' Hk) as [r Hr].
    case_decide; subst; rewrite Hr; simpl; by eexists.
  - intros rid' Hr. rewrite lookup_alter. case_decide; subst; by rewrite Hf.
  - intros rid' r. rewrite lookup_alter. case_decide; [|eauto]. subst.
    destruct (res !! rid') eqn:Hr; [|done]. intros [= <-]. eauto.
Qed.

Lemma slots_inv_alter o res free held f rid : (∀ r, r_slots (f r) = r_slots r) →
  slots_inv E o res free held → slots_inv E o (alter f rid res) free held.
Proof. intros Hf [Hd Hc]. split; [done|]. intros p. by rewrite slots_of_alter. Qed.

Lemma evictable_alter o res f rid k :
  (∀ r, o !! k = Some rid → res !! rid = Some r → can_evict r = true → can_evict (f r) = true) →
  evictable o res k → evictable o (alter f rid res) k.
Proof.
  intros Hf (rid' & r & Ho & Hr & Hc). exists rid'. rewrite lookup_alter.
  case_decide; subst; rewrite ?Hr; simpl; eauto.
Qed.

Lemma queue_inv_alter o res q counts unscored ents f rid :
  (∀ r, r_slots (f r) = r_slots r) →
  (∀ k r, is_Some (q_live q !! k) ∨ k ∈ unscored → o !! k = Some rid →
     res !! rid = Some r → can_evict r = true → can_evict (f r) = true) →
  queue_inv o res q counts unscored ents → queue_inv o (alter f rid res) q counts unscored ents.
Proof.
  intros Hs Hf [Hw Hl Hu Hc]. split; [done|..].
  - intros k Hk. apply evictable_alter; [|auto]. intros r Ho Hr. by apply (Hf k); [left|..].
  - intros k Hk. apply evictable_alter; [|auto]. intros r Ho Hr. by apply (Hf k); [right|..].
  - intros p. by rewrite slots_of_alter.
Qed.

Lemma published_alter o res f rid k rid' :
  (∀ r, r_slots (f r) = r_slots r ∧ r_state (f r) = r_state r ∧
     r_pending_labels (f r) = r_pending_labels r ∧
     r_retire_on_release (f r) = r_retire_on_release r ∧ r_refs (f r) = r_refs r) →
  published E o res k rid' → published E o (alter f rid res) k rid'.
Proof.
  intros Hf (He & Ho & r & Hr & H1 & H2 & H3 & H4). do 2 (split; [done|]).
  rewrite lookup_alter. case_decide; [|by exists r]. subst. rewrite Hr. exists (f r).
  destruct (Hf r) as (F1 & F2 & F3 & F4 & F5). unfold pending_nonempty in *.
  rewrite F1, F2, F3, F4, F5. done.
Qed.

Lemma refs_alter res f rid : (∀ r, refs_ok E r → refs_ok E (f r)) →
  (∀ rid r, res !! rid = Some r → refs_ok E r) →
  ∀ rid' r, alter f rid res !! rid' = Some r → refs_ok E r.
Proof.
  intros Hf Href rid' r. rewrite lookup_alter. case_decide; [|eauto]. subst.
  destruct (res !! rid') eqn:Hr; [|done]. intros [= <-]. eauto.
Qed.
Lemma reader_inv_alter o res src fl f rid :
  (∀ r, r_source_readers (f r) = r_source_readers r) →
  (∀ r, refs_ok E r → refs_ok E (f r)) →
  (∀ k rid', ss_index src !! k = Some (Some rid') →
     published E o res k rid' → published E o (alter f rid res) k rid') →
  reader_inv E o res src fl → reader_inv E o (alter f rid res) src fl.
Proof.
  intros Hf Hrf Hp [Hn Ho Hc Ha Href Hi]. split; try done; [| |auto].
  - intros k rid' r Hk. rewrite lookup_alter. case_decide; [|eauto]. subst.
    destruct (res !! rid') as [r'|] eqn:Hr; [|done]. intros [= <-]. rewrite Hf. eauto.
  - by apply refs_alter.
Qed.

Lemma claim_inv_alter o res claims next ops f rid :
  (∀ r, r_claim_count (f r) = r_claim_count r) →
  claim_inv o res claims next ops → claim_inv o (alter f rid res) claims next ops.
Proof.
  intros Hf [Ho Hc Hn]. split; try done.
  intros k rid' r Hk. rewrite lookup_alter. case_decide; [|eauto]. subst.
  destruct (res !! rid') as [r'|] eqn:Hr; [|done]. intros [= <-]. rewrite Hf. eauto.
Qed.

(** *** Claims are taken and dropped *)

Lemma claim_inv_take o res claims next ops k rid :
  heap_inv o res next → o !! k = Some rid →
  ∀ nh, claim_inv o res claims nh ops →
  claim_inv o (alter (λ r, r_set_claims (r_claim_count r + 1)%Z r) rid res) claims nh
    ((k, rid) :: ops).
Proof.
  intros Hh Hk nh [Ho Hc Hn]. split; unfold claimants in *; try done.
  - intros k' rid'. rewrite elem_of_middle. intros [[= -> ->]|?]; [done|auto].
  - intros k' rid' r Hk'. rewrite lookup_alter, occ_middle.
    case_decide as Hr; subst.
    + pose proof (hi_inj _ _ _ Hh _ _ _ Hk Hk') as ->.
      destruct (res !! rid') as [r'|] eqn:Hr; [|done]. intros [= <-]. simpl.
      rewrite (Hc k' rid' r') by done. rewrite decide_True by done. lia.
    + intros Hr'. rewrite (Hc k' rid' r) by done. rewrite decide_False by congruence. lia.
Qed.

Lemma claim_inv_drop o res claims next ops k rid :
  heap_inv o res next → o !! k = Some rid →
  ∀ nh, claim_inv o res claims nh ((k, rid) :: ops) →
  claim_inv o (alter (λ r, r_set_claims (r_claim_count r - 1)%Z r) rid res) claims nh ops.
Proof.
  intros Hh Hk nh [Ho Hc Hn]. split; unfold claimants in *; try done.
  - intros k' rid' Hin. apply Ho, elem_of_middle. by right.
  - intros k' rid' r Hk'. specialize (Hc k' rid').
    rewrite lookup_alter. case_decide as Hr; subst.
    + pose proof (hi_inj _ _ _ Hh _ _ _ Hk Hk') as ->.
      destruct (res !! rid') as [r'|] eqn:Hr; [|done]. intros [= <-]. simpl.
      rewrite (Hc r'), occ_middle by done. rewrite decide_True by done. lia.
    + intros Hr'. rewrite (Hc r), occ_middle by done. rewrite decide_False by congruence. lia.
Qed.

Lemma claim_inv_ops o res claims nh ops ops' : ops ≡ₚ ops' →
  claim_inv o res claims nh ops → claim_inv o res claims nh ops'.
Proof.
  intros Hp [Ho Hc Hn]. split; unfold claimants in *; [| |done].
  - intros k rid. rewrite <- Hp. apply Ho.
  - intros k rid r Hk Hr. rewrite <- Hp. eauto.
Qed.

(** An operation's claim becomes a handle, and back. *)
Lemma claim_inv_publish o res claims nh ops k rid :
  claim_inv o res claims nh ((k, rid) :: ops) →
  claim_inv o res (<[ nh := (k, rid) ]> claims) (nh + 1) ops.
Proof.
  intros [Ho Hc Hn].
  assert (claims !! nh = None) as Hf.
  { destruct (claims !! nh) eqn:Hx; [|done]. specialize (Hn nh ltac:(by eexists)). lia. }
  assert (claimants (<[ nh := (k, rid) ]> claims) ops ≡ₚ claimants claims ((k, rid) :: ops)) as Hp.
  { unfold claimants. rewrite (map_to_list_insert _ _ _ Hf). simpl.
    by rewrite <- Permutation_middle. }
  split.
  - intros k' rid'. rewrite Hp. apply Ho.
  - intros k' rid' r. rewrite Hp. apply Hc.
  - intros h. rewrite lookup_insert. case_decide; [lia|]. intros Hs. specialize (Hn h Hs). lia.
Qed.

Lemma claim_inv_redeem o res claims nh ops k rid h : claims !! h = Some (k, rid) →
  claim_inv o res claims nh ops → claim_inv o res (delete h claims) nh ((k, rid) :: ops).
Proof.
  intros Hh [Ho Hc Hn].
  assert (claimants (delete h claims) ((k, rid) :: ops) ≡ₚ claimants claims ops) as Hp.
  { unfold claimants. rewrite <- Permutation_middle.
    assert (map_to_list claims ≡ₚ (h, (k, rid)) :: map_to_list (delete h claims)) as ->.
    { rewrite <- map_to_list_insert by apply lookup_delete_eq. by rewrite insert_delete_id. }
    done. }
  split.
  - intros k' rid'. rewrite Hp. apply Ho.
  - intros k' rid' r. rewrite Hp. apply Hc.
  - intros h' [x [_ Hx]%lookup_delete_Some]. apply Hn. by eexists.
Qed.
End Updates.

(** ** The eviction queue *)

Definition overflow (e : exn) : Prop := ∃ m, e = OverflowError m.

Lemma invoke_score_cases call previous : (∀ p, previous = Some p → f_isfinite p = true) →
  match invoke_eviction_score call previous with
  | Ret (Some x) => f_isfinite x = true
  | Ret None => previous = None
  | Raise e => overflow e
  end.
Proof.
  intros Hp. destruct call as [[n|x|]|]; simpl.
  - unfold f_of_Z. destruct (f_isfinite (f_of_Z_inf n)) eqn:B; [done|by eexists].
  - destruct (f_isfinite x) eqn:Ex; [done|]. by destruct previous; simpl; auto.
  - by destruct previous; simpl; auto.
  - by destruct previous; simpl; auto.
Qed.

Lemma queue_score_finite q ents k p : queue_wf q ents → queue_score q k = Some p →
  f_isfinite p = true.
Proof.
  intros Hq (e & He & ->)%fmap_Some. destruct (wf_live _ _ Hq _ _ He) as [_ Hin].
  pose proof (wf_finite _ _ Hq) as Hf. rewrite list.Forall_forall in Hf. by apply Hf.
Qed.

(** The policy call: a finite score, or none when there was none before. *)
Lemma wp_eviction_score E meta tier previous Q Ex s :
  (∀ p, previous = Some p → f_isfinite p = true) →
  (∀ x s', same_view s s' → f_isfinite x = true → Q (Some x) s') →
  (∀ s', same_view s s' → previous = None → Q None s') →
  (∀ e s', same_view s s' → overflow e → Ex e s') →
  wp (policy_eviction_score E meta tier previous) Q Ex s.
Proof.
  intros Hp HS HN HE. unfold wp, policy_eviction_score, mbind, M_bind, log_call, modify, lift.
  pose proof (invoke_score_cases (p_eviction_score (env_policy E) (s_calls s) meta tier)
    previous Hp) as Hc.
  destruct (invoke_eviction_score _ previous) as [[x|]|e].
  - by apply HS; [split|].
  - by apply HN; [split|].
  - by apply HE; [split|].
Qed.

Lemma queue_remove_live q k : q_live (queue_remove q k).2 = delete k (q_live q).
Proof. done. Qed.
Lemma compact_live q : q_live (compact q) = q_live q.
Proof. unfold compact. by case_decide. Qed.
Lemma queue_insert_live q k x :
  dom (q_live (queue_insert q k x).2) = {[ k ]} ∪ dom (q_live q) ∧
  (queue_insert q k x).1 = bool_decide (q_live q !! k = None).
Proof.
  unfold queue_insert. destruct (q_live q !! k) as [p|] eqn:Hk.
  - destruct (feqb (e_score p) x); simpl.
    + assert (k ∈ dom (q_live q)) by (apply elem_of_dom; by eexists).
      split; [set_solver | done].
    + rewrite compact_live. simpl. split; [apply dom_insert_L | done].
  - simpl. rewrite compact_live. simpl. split; [apply dom_insert_L | done].
Qed.

Lemma queued_lookup q o k :
  queued q o !! k = if decide (k ∈ dom (q_live q)) then o !! k else None.
Proof.
  unfold queued. rewrite map_lookup_zip_with. case_decide as Hd.
  - apply elem_of_dom in Hd as [e ->]. by destruct (o !! k).
  - apply not_elem_of_dom in Hd as ->. by destruct (o !! k).
Qed.
Lemma queued_ext q q' o : dom (q_live q') = dom (q_live q) → queued q' o = queued q o.
Proof. intros Hd. apply map_eq. intros k. by rewrite !queued_lookup, Hd. Qed.

Section QueueUpdates.
Implicit Types (o : gmap BlockKey nat) (res : gmap nat Residency).

Lemma queue_inv_remove o res q counts unscored ents k rid r :
  o !! k = Some rid → res !! rid = Some r → queue_inv o res q counts unscored ents →
  queue_inv o res (queue_remove q k).2
    (if (queue_remove q k).1 then bump (-1) (pool_counts (r_slots r)) counts else counts)
    (unscored ∖ {[ k ]}) ents.
Proof.
  intros Hk Hr [Hw Hl Hu Hc]. split.
  - by apply queue_wf_remove.
  - intros k'. rewrite queue_remove_live. intros [e [_ He]%lookup_delete_Some].
    apply Hl. by eexists.
  - intros k' Hk'. apply Hu. set_solver.
  - intros p. destruct (queue_remove q k).1 eqn:Erem; apply bool_decide_eq_true in Erem
      || apply bool_decide_eq_false in Erem.
    + rewrite bump_pool_counts, Hc.
      rewrite (slots_of_delete (queued q o) res k rid); last first.
      { rewrite queued_lookup, decide_True; [done|]. by apply elem_of_dom. }
      assert (queued (queue_remove q k).2 o = delete k (queued q o)) as ->.
      { apply map_eq. intros k'. rewrite lookup_delete, !queued_lookup. simpl.
        rewrite dom_delete_L. repeat case_decide; set_solver. }
      rewrite pool_count_app. unfold res_slots at 1. rewrite Hr. lia.
    + rewrite Hc. f_equal. f_equal. symmetry. apply queued_ext. simpl.
      rewrite dom_delete_L. apply not_elem_of_dom in Erem || idtac.
      assert (k ∉ dom (q_live q)) by (rewrite elem_of_dom; done). set_solver.
Qed.

Lemma queue_inv_insert o res q counts unscored ents k rid r x :
  f_isfinite x = true → o !! k = Some rid → res !! rid = Some r → can_evict r = true →
  queue_inv o res q counts unscored ents →
  queue_inv o res (queue_insert q k x).2
    (if (queue_insert q k x).1 then bump 1 (pool_counts (r_slots r)) counts else counts)
    (unscored ∖ {[ k ]}) ents.
Proof.
  intros Hx Hk Hr Hev [Hw Hl Hu Hc]. destruct (queue_insert_live q k x) as [Hd Hadd]. split.
  - by apply queue_wf_insert.
  - intros k' Hk'%elem_of_dom. rewrite Hd in Hk'.
    apply elem_of_union in Hk' as [->%elem_of_singleton|Hk']; [by exists rid, r|].
    apply Hl. by apply elem_of_dom.
  - intros k' Hk'. apply Hu. set_solver.
  - intros p. rewrite Hadd. case_bool_decide as Hn.
    + rewrite bump_pool_counts, Hc.
      assert (queued (queue_insert q k x).2 o = <[ k := rid ]> (queued q o)) as ->.
      { apply map_eq. intros k'. rewrite lookup_insert, !queued_lookup, Hd.
        repeat case_decide; subst; set_solver. }
      rewrite slots_of_insert, pool_count_app; last first.
      { rewrite queued_lookup, decide_False; [done|]. by apply not_elem_of_dom. }
      unfold res_slots at 1. rewrite Hr. lia.
    + rewrite Hc. f_equal. f_equal. symmetry. apply queued_ext. rewrite Hd.
      assert (k ∈ dom (q_live q)); [|set_solver]. apply elem_of_dom.
      by destruct (q_live q !! k).
Qed.

Lemma queue_inv_unscored o res q counts unscored ents k : evictable o res k →
  queue_inv o res q counts unscored ents → queue_inv o res q counts ({[ k ]} ∪ unscored) ents.
Proof. intros Hk [Hw Hl Hu Hc]. split; try done. intros k'. set_solver. Qed.
End QueueUpdates.

(** ** A record gives up its residency *)

Section Release.
Context (E : Env).
Implicit Types (o : gmap BlockKey nat) (res : gmap nat Residency).

Lemma heap_inv_delete o res next k : heap_inv o res next → heap_inv (delete k o) res next.
Proof.
  intros [Ha Hf Hix Hi]. split; [|done|done|].
  - intros k' rid [_ ?]%lookup_delete_Some. eauto.
  - intros k1 k2 rid [_ ?]%lookup_delete_Some [_ ?]%lookup_delete_Some. eauto.
Qed.

Lemma slots_inv_delete o res free held k rid : o !! k = Some rid →
  slots_inv E o res free held →
  slots_inv E (delete k o) res free (res_slots res rid ++ held).
Proof.
  intros Hk [Hd Hc]. split; [done|]. intros p. rewrite <- (Hc p).
  rewrite (slots_of_delete _ _ _ _ Hk), !pslots_app. solve_Permutation.
Qed.

Lemma slots_inv_held o res free held held' : held ≡ₚ held' →
  slots_inv E o res free held → slots_inv E o res free held'.
Proof. intros Hp [Hd Hc]. split; [done|]. intros p. by rewrite <- Hp. Qed.

Lemma queue_inv_delete o res q counts unscored ents k :
  q_live q !! k = None → k ∉ unscored → queue_inv o res q counts unscored ents →
  queue_inv (delete k o) res q counts unscored ents.
Proof.
  intros Hq Hu [Hw Hl Hun Hc].
  assert (∀ k', k' ≠ k → evictable o res k' → evictable (delete k o) res k') as Hev.
  { intros k' Hne (rid & r & Ho & Hr). exists rid, r. by rewrite lookup_delete_ne. }
  split; [done|..].
  - intros k' Hk'. apply Hev; [|auto]. intros ->. rewrite Hq in Hk'. by destruct Hk'.
  - intros k' Hk'. apply Hev; [|auto]. by intros ->.
  - intros p. rewrite Hc. f_equal. f_equal. apply map_eq. intros k'.
    rewrite !queued_lookup, lookup_delete. repeat case_decide; subst; try done.
    by apply not_elem_of_dom in Hq.
Qed.

Lemma reader_inv_delete o res src fl k :
  (∀ rid, (k, rid) ∉ reads src fl) → (∀ rid, ss_index src !! k ≠ Some (Some rid)) →
  reader_inv E o res src fl → reader_inv E (delete k o) res src fl.
Proof.
  intros Hk Hx [Hn Ho Hc Ha Href Hi]. split; try done.
  - intros k' rid Hin. rewrite lookup_delete_ne; [auto|]. intros ->. by eapply Hk.
  - intros k' rid r [_ ?]%lookup_delete_Some. eauto.
  - intros k' rid Hix. destruct (Hi _ _ Hix) as (He & Ho' & Hr). split_and!; [done| |done].
    rewrite lookup_delete_ne; [done|]. intros ->. by eapply Hx.
Qed.

Lemma claim_inv_delete o res claims nh ops k :
  (∀ rid, (k, rid) ∉ claimants claims ops) →
  claim_inv o res claims nh ops → claim_inv (delete k o) res claims nh ops.
Proof.
  intros Hk [Ho Hc Hn]. split; try done.
  - intros k' rid Hin. rewrite lookup_delete_ne; [auto|]. intros ->. by eapply Hk.
  - intros k' rid r [_ ?]%lookup_delete_Some. eauto.
Qed.

(** ** The source index and its readers *)

Lemma reader_inv_index o res src fl idx :
  (∀ k rid, idx !! k = Some (Some rid) → published E o res k rid) →
  reader_inv E o res src fl → reader_inv E o res (set_ss_index idx src) fl.
Proof. intros Hi [Hn Ho Hc Ha Href _]. by split. Qed.

Lemma reader_inv_unpublish o res src fl k :
  reader_inv E o res src fl → reader_inv E o res (set_ss_index (delete k (ss_index src)) src) fl.
Proof.
  intros Hr. apply reader_inv_index; [|done]. intros k' rid [_ H]%lookup_delete_Some.
  by apply (ri_index _ _ _ _ _ Hr).
Qed.
Lemma reader_inv_pending o res src fl k :
  reader_inv E o res src fl → reader_inv E o res (set_ss_index (<[ k := None ]> (ss_index src)) src) fl.
Proof.
  intros Hr. apply reader_inv_index; [|done]. intros k' rid. rewrite lookup_insert.
  case_decide; [done|]. apply (ri_index _ _ _ _ _ Hr).
Qed.
Lemma reader_inv_publish o res src fl k rid : published E o res k rid →
  reader_inv E o res src fl →
  reader_inv E o res (set_ss_index (<[ k := Some rid ]> (ss_index src)) src) fl.
Proof.
  intros Hp Hr. apply reader_inv_index; [|done]. intros k' rid'. rewrite lookup_insert.
  case_decide; [by intros [= <-]; subst|]. apply (ri_index _ _ _ _ _ Hr).
Qed.

(** Only the multiset of reads matters. *)
Lemma reader_inv_reads o res src src' fl fl' :
  reads src' fl' ≡ₚ reads src fl → ss_active src' = ss_active src →
  ss_index src' = ss_index src →
  Forall (λ c : list BlockKey * list nat * bool, length c.1.1 = length c.1.2)
    (ss_completions src') →
  reader_inv E o res src fl → reader_inv E o res src' fl'.
Proof.
  intros Hp Ha Hi Hl [_ Ho Hc Hac Href Hix]. split; [done|..].
  - intros k rid. rewrite Hp. apply Ho.
  - intros k rid r. rewrite Hp. apply Hc.
  - intros k rid. rewrite Hp, Ha. apply Hac.
  - done.
  - intros k rid. rewrite Hi. apply Hix.
Qed.

(** The caller takes a completion off the queue. *)
Lemma reader_inv_pop o res src fl c rest : ss_completions src = c :: rest →
  reader_inv E o res src fl →
  reader_inv E o res (set_ss_completions rest src) (zip c.1.1 c.1.2 ++ fl).
Proof.
  intros Hc Hr. apply (reader_inv_reads _ _ src _ fl); try done.
  - unfold reads, completed_reads. rewrite Hc. simpl. solve_Permutation.
  - pose proof (ri_len _ _ _ _ _ Hr) as Hl. rewrite Hc in Hl. by inversion Hl.
Qed.

(** A reader is dropped; the last one leaves the active table. *)
Lemma reader_inv_drop o res next src fl k rid r :
  heap_inv o res next → res !! rid = Some r → reader_inv E o res src ((k, rid) :: fl) →
  reader_inv E o (alter (r_set_readers (r_source_readers r - 1)) rid res)
    (if decide (r_source_readers r - 1 = 0)%Z
     then set_ss_active (delete k (ss_active src)) src else src) fl.
Proof.
  intros Hh Hr Hri. pose proof Hri as [Hl Ho Hc Ha Href Hi].
  assert (o !! k = Some rid) as Hk by (apply Ho; by left).
  assert (r_source_readers r - 1 = occ (k, rid) (reads src fl))%Z as Hrd.
  { rewrite (Hc k rid r) by done. unfold reads. simpl.
    rewrite occ_cons, decide_True by done. lia. }
  assert (∀ x, x ∈ reads src ((k, rid) :: fl) ↔ x = (k, rid) ∨ x ∈ reads src fl) as Hin.
  { intros x. unfold reads. simpl. apply elem_of_cons. }
  rewrite Hrd. set (src' := if decide _ then _ else src).
  assert (ss_completions src' = ss_completions src ∧ ss_index src' = ss_index src) as [Ec Ei].
  { unfold src'. by case_decide. }
  assert (reads src' fl = reads src fl) as Erd by (unfold reads, completed_reads; by rewrite Ec).
  split; rewrite ?Ec, ?Ei, ?Erd; [done|..].
  - intros k' rid' Hin'. apply Ho, Hin. by right.
  - intros k' rid' r' Hk'. rewrite lookup_alter. case_decide; subst.
    + pose proof (hi_inj _ _ _ Hh _ _ _ Hk Hk') as ->. rewrite Hr. by intros [= <-].
    + intros Hr'. rewrite (Hc k' rid' r') by done. unfold reads. simpl.
      rewrite occ_cons, decide_False by congruence. lia.
  - intros k' rid'. unfold src'. case_decide as Hz; simpl.
    + rewrite lookup_delete_Some, Ha, Hin.
      assert ((k, rid) ∉ reads src fl) as Hno by (rewrite <- occ_pos; lia).
      split.
      * intros [Hne [[= -> ->]|?]]; done.
      * intros Hx. split; [|by right]. intros ->.
        assert (o !! k' = Some rid') by (apply Ho, Hin; by right). by simplify_eq.
    + rewrite Ha, Hin. split; [|by right]. intros [[= -> ->]|?]; [|done].
      apply occ_pos. pose proof (occ_nonneg (k, rid) (reads src fl)). lia.
  - by apply refs_alter.
  - intros k' rid' Hix. apply published_alter; [done|]. auto.
Qed.

(** A reader is added. *)
Lemma reader_inv_add o res next src fl k rid :
  heap_inv o res next → o !! k = Some rid → reader_inv E o res src fl →
  reader_inv E o (alter (λ r, r_set_readers (r_source_readers r + 1) r) rid res)
    (set_ss_active (<[ k := rid ]> (ss_active src)) src) ((k, rid) :: fl).
Proof.
  intros Hh Hk [Hl Ho Hc Ha Href Hi].
  set (src' := set_ss_active _ src).
  assert (reads src' ((k, rid) :: fl) = (k, rid) :: reads src fl) as Erd by done.
  split; rewrite ?Erd; [done|..].
  - intros k' rid' [[= -> ->]|?]%elem_of_cons; auto.
  - intros k' rid' r' Hk'. rewrite lookup_alter, occ_cons. case_decide; subst.
    + pose proof (hi_inj _ _ _ Hh _ _ _ Hk Hk') as ->.
      destruct (res !! rid') as [r|] eqn:Hr; [|done]. intros [= <-]. simpl.
      rewrite (Hc k' rid' r) by done. rewrite decide_True by done. lia.
    + intros Hr'. rewrite (Hc k' rid' r') by done. rewrite decide_False by congruence. lia.
  - intros k' rid'. simpl. rewrite elem_of_cons, lookup_insert. case_decide; subst.
    + split; [intros [= ->]; by left|]. intros [[= ->]|Hin]; [done|].
      apply Ho in Hin. congruence.
    + rewrite Ha. split; [by right|]. intros [[= -> ->]|?]; done.
  - by apply refs_alter.
  - intros k' rid' Hix. apply published_alter; [done|]. auto.
Qed.
End Release.
