(* ===== verification/PoolsOps.v ===== *)
(** * The operations of the local DRAM pools keep the invariant

    Claims, readers, retirement and slot queues of
    [src/src/kvcr/backends/local_dram_pools.py], proved against the interface
    [WaitersOk] of the callback that resumes capacity waiters. *)

From Stdlib Require Import ZArith Lia.
From S2P Require Import Prelude PyFloat Types PolicyRuntime Layout State CoreBase Pools PoolsInv.

(** Handles given out keep their meaning; new ones are larger. *)
Record handles_le (s s' : St) : Prop := {
  hl_next : (p_next_handle (s_pools s) <= p_next_handle (s_pools s'))%Z;
  hl_same : ∀ h, (h < p_next_handle (s_pools s))%Z →
    p_claims (s_pools s') !! h = p_claims (s_pools s) !! h }.
#[export] Instance handles_le_preorder : PreOrder handles_le.
Proof.
  split; [split; done|]. intros a b c [H1 H2] [H3 H4]. split; [lia|].
  intros h Hh. rewrite H4 by lia. auto.
Qed.

(** What a call that may resume other work leaves. *)
Definition left_ok (E : Env) (g : Ghost) (s s' : St) : Prop :=
  pinv_ext E g s' ∧ handles_le s s'.
Definition failed_ok (E : Env) (g : Ghost) (s : St) (e : exn) (s' : St) : Prop :=
  overflow e ∧ left_ok E g s s'.

(** The promise of [resume_capacity_waiters] to the pools: it may take slots,
    claims and handles for the work it starts, and keeps everybody else's. *)
Class WaitersOk (E : Env) (resume : M St unit) : Prop :=
  resume_ok : ∀ g s, pinv E g s → wp resume (λ _, left_ok E g s) (failed_ok E g s) s.

(** An instance with nobody waiting. *)
#[export] Instance no_waiters_ok E : WaitersOk E (mret tt).
Proof. intros g s Hs. apply wp_ret. split; [by exists g | reflexivity]. Qed.

Lemma left_ok_refl E g s : pinv E g s → left_ok E g s s.
Proof. intros Hs. split; [by exists g | reflexivity]. Qed.
Lemma left_ok_trans E g g' s s' s'' :
  gle g g' → handles_le s s' → left_ok E g' s' s'' → left_ok E g s s''.
Proof.
  intros Hg Hh [(g'' & Hg' & Hp) Hh']. split; [|by transitivity s'].
  exists g''. split; [by transitivity g' | done].
Qed.
Lemma left_ok_weaken E x g s s' : left_ok E (set_claims (x :: gh_claims g) g) s s' →
  left_ok E g s s'.
Proof.
  intros [(g' & [Hh He Hc] & Hp) Hl]. split; [|done]. exists g'. split; [|done].
  split; [done..|]. simpl in Hc. etrans; [|exact Hc]. by apply submseteq_cons.
Qed.

(** Only the eviction queue and its counters differ. *)
Record queue_only (s s' : St) : Prop := {
  qo_own : own s' = own s;
  qo_res : s_res s' = s_res s;
  qo_next : s_next_res s' = s_next_res s;
  qo_source : p_source (s_pools s') = p_source (s_pools s);
  qo_draining : p_draining (s_pools s') = p_draining (s_pools s);
  qo_free : p_free (s_pools s') = p_free (s_pools s);
  qo_capacity : p_capacity_key (s_pools s') = p_capacity_key (s_pools s);
  qo_claims : p_claims (s_pools s') = p_claims (s_pools s);
  qo_handle : p_next_handle (s_pools s') = p_next_handle (s_pools s) }.
Lemma queue_only_of_view s s' : same_view s s' → queue_only s s'.
Proof. intros [H1 H2 H3 H4]. split; rewrite ?H4; done. Qed.
#[export] Instance queue_only_preorder : PreOrder queue_only.
Proof.
  split.
  - by split.
  - intros a b c [] []. split; congruence.
Qed.
Lemma queue_only_handles s s' : queue_only s s' → handles_le s s'.
Proof. intros []. split; [lia | intros; congruence]. Qed.
Lemma same_view_handles s s' : same_view s s' → handles_le s s'.
Proof. intros [_ _ _ H]. split; rewrite H; [lia | done]. Qed.

(** Claims, completions and the draining flag are as before. *)
Record calm (s s' : St) : Prop := {
  cl_claims : p_claims (s_pools s') = p_claims (s_pools s);
  cl_handle : p_next_handle (s_pools s') = p_next_handle (s_pools s);
  cl_draining : p_draining (s_pools s') = p_draining (s_pools s);
  cl_completions : ss_completions (p_source (s_pools s')) = ss_completions (p_source (s_pools s));
  cl_res : dom (s_res s) ⊆ dom (s_res s') }.
#[export] Instance calm_preorder : PreOrder calm.
Proof. split; [by split|]. intros a b c [] []. split; try congruence. by etransitivity. Qed.
Lemma calm_view s s' : same_view s s' → calm s s'.
Proof. intros [_ Hr _ H]. by split; rewrite ?Hr, ?H. Qed.
Lemma calm_queue s s' : queue_only s s' → calm s s'.
Proof. intros []. split; congruence. Qed.
Lemma calm_handles s s' : calm s s' → handles_le s s'.
Proof. intros []. split; [lia | intros; congruence]. Qed.

(** The queue part of the invariant may be replaced on its own. *)
Lemma pinv_queue_only E g s s' : queue_only s s' → pinv E g s →
  queue_inv (own s) (s_res s) (p_evictable (s_pools s')) (p_evictable_slots (s_pools s'))
    (p_unscored (s_pools s')) (gh_ents g) → pinv E g s'.
Proof.
  intros [] [Ha Hb Hc Hd He] Hq. split; congruence.
Qed.

Lemma wp_get_res rid r Q Ex (s : St) : s_res s !! rid = Some r → Q r s → wp (get_res rid) Q Ex s.
Proof. intros Hr HQ. unfold wp, get_res. by rewrite Hr. Qed.

Lemma own_record s key rid : own s !! key = Some rid →
  ∃ b, s_records s !! key = Some b ∧ b_local_dram b = Some rid.
Proof. unfold own. rewrite lookup_omap_Some. intros (b & ? & ?). by exists b. Qed.

(** ** Evictability *)

Section Ops.
Context (E : Env).

Lemma wp_remove_evictable key rid g Q Ex s :
  pinv E g s → own s !! key = Some rid →
  (∀ s', pinv E g s' → queue_only s s' →
     q_live (p_evictable (s_pools s')) !! key = None →
     key ∉ p_unscored (s_pools s') →
     dom (q_live (p_evictable (s_pools s'))) ⊆ dom (q_live (p_evictable (s_pools s))) → Q tt s') →
  wp (remove_evictable key rid) Q Ex s.
Proof.
  intros Hs Hk HQ. destruct (hi_alloc _ _ _ (pi_heap _ _ _ Hs) _ _ Hk) as [r Hr].
  unfold remove_evictable, upd_pools. wp. eapply wp_get_res; [done|]. wp.
  pose proof (queue_inv_remove _ _ _ _ _ _ _ _ _ Hk Hr (pi_queue _ _ _ Hs)) as Hq.
  destruct (queue_remove (p_evictable (s_pools s)) key) as [removed q'] eqn:Er.
  assert (q_live q' = delete key (q_live (p_evictable (s_pools s)))) as Hl.
  { change q' with (removed, q').2. rewrite <- Er. done. }
  apply HQ; destruct removed; simpl in *; rewrite ?Hl, ?lookup_delete_eq, ?dom_delete_L;
    try done; try set_solver.
  - eapply pinv_queue_only; [|exact Hs|exact Hq]. by split.
  - eapply pinv_queue_only; [|exact Hs|exact Hq]. by split.
Qed.

Lemma wp_make_evictable key g Q Ex s :
  pinv E g s → is_Some (s_records s !! key) →
  (∀ s', pinv E g s' → queue_only s s' → Q tt s') →
  (∀ e s', overflow e → pinv E g s' → queue_only s s' → Ex e s') →
  wp (make_evictable E key) Q Ex s.
Proof.
  intros Hs [b Hb] HQ HE. unfold make_evictable. apply wp_bind, wp_gets. rewrite Hb.
  destruct (b_local_dram b) as [rid|] eqn:Hd; [|apply wp_ret; by apply HQ].
  assert (own s !! key = Some rid) as Hk by (unfold own; rewrite lookup_omap, Hb; done).
  destruct (hi_alloc _ _ _ (pi_heap _ _ _ Hs) _ _ Hk) as [r Hr].
  apply wp_bind. eapply wp_get_res; [done|].
  destruct (can_evict r) eqn:Hev; simpl; [|apply wp_ret; by apply HQ].
  wp. pose proof (pi_queue _ _ _ Hs) as Hq.
  apply wp_eviction_score.
  - intros p Hp. eapply queue_score_finite; [apply (qi_wf _ _ _ _ _ _ Hq)|done].
  - intros x s' Hv Hx. unfold upd_pools. wp. rewrite (sv_pools _ _ Hv).
    pose proof (queue_inv_insert _ _ _ _ _ _ _ _ _ x Hx Hk Hr Hev Hq) as Hq'.
    destruct (queue_insert (p_evictable (s_pools s)) key x) as [added q']. simpl in Hq'.
    assert (queue_only s (set_s_pools (let p := set_p_evictable q' (set_p_unscored
      (p_unscored (s_pools s) ∖ {[ key ]}) (s_pools s)) in if added then set_p_evictable_slots
      (bump 1 (pool_counts (r_slots r)) (p_evictable_slots p)) p else p) s')) as Ho.
    { destruct Hv. by destruct added; split. }
    apply HQ; [|done]. eapply pinv_queue_only; [done..|]. by destruct added.
  - intros s' Hv _. unfold upd_pools. wp. rewrite (sv_pools _ _ Hv).
    assert (queue_only s (set_s_pools (set_p_unscored ({[ key ]} ∪ p_unscored (s_pools s))
      (s_pools s)) s')) as Ho.
    { destruct Hv. by split. }
    apply HQ; [|done]. eapply pinv_queue_only; [done..|]. simpl.
    apply queue_inv_unscored; [by exists rid, r | done].
  - intros e s' Hv He. apply HE; [done| |by apply queue_only_of_view]. by rewrite <- Hv.
Qed.

(** ** Slot queues *)

Lemma slots_inv_pool o res free l slot held : slots_inv E o res free ((l, slot) :: held) →
  is_Some (free !! pool_of l).
Proof.
  intros [Hd Hc]. apply Hd. specialize (Hc (pool_of l)). unfold slot_total in Hc.
  destruct (env_regions E !! pool_of l) as [[[??]?]|]; [by eexists|].
  assert (slot ∈ []) as []%not_elem_of_nil. change (@nil Z) with (seqZ 0 0). rewrite <- Hc.
  rewrite pslots_cons, decide_True by done. set_solver.
Qed.

Definition free_len (free : gmap string (list Z)) (p : string) : Z :=
  Z.of_nat (length (default [] (free !! p))).

Lemma wp_free_slots locs held o res Q Ex s :
  slots_inv E o res (p_free (s_pools s)) (locs ++ held) →
  (∀ free', slots_inv E o res free' held →
     (∀ p, free_len free' p = free_len (p_free (s_pools s)) p + pool_count locs p)%Z →
     Q tt (set_s_pools (set_p_free free' (s_pools s)) s)) →
  wp (free_slots locs) Q Ex s.
Proof.
  revert s. induction locs as [|[l slot] locs IH]; intros s Hs HQ; unfold free_slots; simpl.
  { wp. replace s with (set_s_pools (set_p_free (p_free (s_pools s)) (s_pools s)) s)
      by (by destruct s as [????? []]). apply HQ; [done|]. intros p. unfold pool_count. simpl. lia. }
  destruct (slots_inv_pool _ _ _ _ _ _ Hs) as [q Hq]. wp. rewrite Hq. unfold upd_pools. wp.
  apply IH.
  - simpl. destruct Hs as [Hd Hc]. split.
    + intros p. rewrite <- Hd, lookup_insert. case_decide; subst; [|done].
      rewrite Hq. split; by eexists.
    + intros p. rewrite <- (Hc p), lookup_insert. simpl. rewrite pslots_cons.
      case_decide; subst; [|done]. rewrite Hq. simpl. solve_Permutation.
  - intros free' Hf' Hlen. simpl. apply HQ; [done|]. intros p. rewrite Hlen. simpl.
    unfold free_len. rewrite lookup_insert, pool_count_cons. case_decide; subst; [|lia].
    rewrite Hq. simpl. rewrite length_app. simpl. lia.
Qed.

Lemma wp_take_slots_aux layout acc held o res Q Ex s :
  slots_inv E o res (p_free (s_pools s)) held →
  (∀ p, pool_count ((λ l, (l, 0%Z)) <$> layout) p <= free_len (p_free (s_pools s)) p)%Z →
  (∀ free' locs, locs.*1 = layout → slots_inv E o res free' (locs ++ held) →
     Q (acc ++ locs) (set_s_pools (set_p_free free' (s_pools s)) s)) →
  wp (fold_each (λ acc l,
    free ← gets (λ s, p_free (s_pools s) !! pool_of l);
    match free with
    | None => raise (KeyError (pool_of l))
    | Some [] => raise (RuntimeError "pop from an empty deque")
    | Some (slot :: q) =>
        upd_pools (λ p, set_p_free (<[ pool_of l := q ]> (p_free p)) p) ;;
        mret (acc ++ [(l, slot)])
    end) acc layout) Q Ex s.
Proof.
  revert acc held Q s. induction layout as [|l layout IH]; intros acc held Q s Hs Hn HQ; simpl.
  { wp. replace s with (set_s_pools (set_p_free (p_free (s_pools s)) (s_pools s)) s)
      by (by destruct s as [????? []]). rewrite <- (app_nil_r acc). by apply HQ. }
  assert (∃ slot q, p_free (s_pools s) !! pool_of l = Some (slot :: q)) as (slot & q & Hq).
  { specialize (Hn (pool_of l)). unfold free_len in Hn.
    rewrite fmap_cons, pool_count_cons, decide_True in Hn by done.
    pose proof (pool_count_nonneg ((λ l, (l, 0%Z)) <$> layout) (pool_of l)).
    destruct (p_free (s_pools s) !! pool_of l) as [[|slot q]|]; simpl in Hn; [lia| |lia].
    by exists slot, q. }
  wp. rewrite Hq. unfold upd_pools. wp. apply (IH _ ((l, slot) :: held)).
  - simpl. destruct Hs as [Hd Hc]. split.
    + intros p. rewrite <- Hd, lookup_insert. case_decide; subst; [|done].
      rewrite Hq. split; by eexists.
    + intros p. rewrite <- (Hc p), lookup_insert, pslots_cons.
      case_decide; subst; [|done]. rewrite Hq. simpl. solve_Permutation.
  - intros p. specialize (Hn p). unfold free_len in *. simpl.
    rewrite lookup_insert. rewrite fmap_cons, pool_count_cons in Hn.
    case_decide; subst; [|lia]. rewrite Hq in Hn. simpl in *. lia.
  - intros free' locs Hl Hf. rewrite <- app_assoc. simpl.
    apply (HQ free' ((l, slot) :: locs)); [simpl; by f_equal|]. simpl.
    eapply slots_inv_held; [|done]. solve_Permutation.
Qed.

Lemma wp_take_slots layout held o res Q Ex s :
  slots_inv E o res (p_free (s_pools s)) held →
  (∀ p, pool_count ((λ l, (l, 0%Z)) <$> layout) p <= free_len (p_free (s_pools s)) p)%Z →
  (∀ free' locs, locs.*1 = layout → slots_inv E o res free' (locs ++ held) →
     Q locs (set_s_pools (set_p_free free' (s_pools s)) s)) →
  wp (take_slots layout) Q Ex s.
Proof. intros Hs Hn HQ. by apply (wp_take_slots_aux layout [] held o res). Qed.

(** ** Parts of the state replaced on their own *)

Lemma pinv_source g s src fl :
  pinv E g s → reader_inv E (own s) (s_res s) src fl →
  pinv E (set_reads fl g) (set_s_pools (set_p_source src (s_pools s)) s).
Proof. intros [] Hr. by split. Qed.
Lemma pinv_free g s free held :
  pinv E g s → slots_inv E (own s) (s_res s) free held →
  pinv E (set_held held g) (set_s_pools (set_p_free free (s_pools s)) s).
Proof. intros [] Hr. by split. Qed.
Lemma set_reads_id g : set_reads (gh_reads g) g = g.
Proof. by destruct g. Qed.
Lemma set_held_id g : set_held (gh_held g) g = g.
Proof. by destruct g. Qed.
Lemma set_claims_id g : set_claims (gh_claims g) g = g.
Proof. by destruct g. Qed.

(** Which operation holds a claim does not matter. *)
Lemma pinv_perm_claims g s claims claims' : claims ≡ₚ claims' →
  pinv E (set_claims claims g) s → pinv E (set_claims claims' g) s.
Proof. intros Hp []. split; try done. by eapply claim_inv_ops. Qed.

(** Nothing refers to a residency without readers or claims. *)
Lemma unread g s key rid r : pinv E g s → own s !! key = Some rid →
  s_res s !! rid = Some r → r_source_readers r = 0%Z →
  ∀ rid', (key, rid') ∉ reads (p_source (s_pools s)) (gh_reads g).
Proof.
  intros Hs Hk Hr Hz rid' Hin. pose proof (pi_readers _ _ _ Hs) as Hri.
  pose proof (ri_own _ _ _ _ _ Hri _ _ Hin). simplify_eq.
  pose proof (ri_count _ _ _ _ _ Hri _ _ _ Hk Hr). apply occ_pos in Hin. lia.
Qed.
Lemma unclaimed g s key rid r : pinv E g s → own s !! key = Some rid →
  s_res s !! rid = Some r → r_claim_count r = 0%Z →
  ∀ rid', (key, rid') ∉ claimants (p_claims (s_pools s)) (gh_claims g).
Proof.
  intros Hs Hk Hr Hz rid' Hin. pose proof (pi_claims _ _ _ Hs) as Hci.
  pose proof (ci_own _ _ _ _ _ Hci _ _ Hin). simplify_eq.
  pose proof (ci_count _ _ _ _ _ Hci _ _ _ Hk Hr). apply occ_pos in Hin. lia.
Qed.
(** A residency that cannot be evicted is not in the queue. *)
Lemma unqueued g s key rid r : pinv E g s → own s !! key = Some rid →
  s_res s !! rid = Some r → can_evict r = false →
  q_live (p_evictable (s_pools s)) !! key = None ∧ key ∉ p_unscored (s_pools s).
Proof.
  intros Hs Hk Hr Hev. pose proof (pi_queue _ _ _ Hs) as Hq. split.
  - destruct (q_live _ !! key) eqn:Hl; [|done].
    destruct (qi_live _ _ _ _ _ _ Hq key ltac:(by eexists)) as (? & ? & ? & ? & ?). congruence.
  - intros Hu. destruct (qi_unscored _ _ _ _ _ _ Hq key Hu) as (? & ? & ? & ? & ?). congruence.
Qed.

Lemma own_drop s key : omap b_local_dram (alter (set_b_local_dram None) key (s_records s)) =
  delete key (own s).
Proof.
  apply map_eq. intros k. unfold own. rewrite lookup_omap, lookup_delete, lookup_alter.
  case_decide; subst; [|by rewrite lookup_omap]. by destruct (s_records s !! k).
Qed.

(** A record gives up an unused residency: its slots are in the caller's hands. *)
Lemma pinv_give_up g s s' key rid r :
  pinv E g s → own s !! key = Some rid → s_res s !! rid = Some r →
  r_source_readers r = 0%Z → r_claim_count r = 0%Z →
  q_live (p_evictable (s_pools s)) !! key = None → key ∉ p_unscored (s_pools s) →
  (∀ rid', ss_index (p_source (s_pools s)) !! key ≠ Some (Some rid')) →
  own s' = delete key (own s) → s_res s' = s_res s → s_next_res s' = s_next_res s →
  s_pools s' = s_pools s → pinv E (set_held (r_slots r ++ gh_held g) g) s'.
Proof.
  intros Hs Hk Hr Hrd Hcl Hq Hu Hix Ho Hres Hn Hp.
  assert (res_slots (s_res s) rid = r_slots r) as Hsl by (unfold res_slots; by rewrite Hr).
  split; simpl; rewrite ?Ho, ?Hres, ?Hn, ?Hp.
  - apply heap_inv_delete, Hs.
  - rewrite <- Hsl. apply slots_inv_delete; [done | apply Hs].
  - apply queue_inv_delete; [done..|apply Hs].
  - apply reader_inv_delete; [by eapply unread | done | apply Hs].
  - apply claim_inv_delete; [by eapply unclaimed | apply Hs].
Qed.
End Ops.

(** Skip a step that does not concern the pools. *)
Ltac wp_skip s' Hv :=
  lazymatch goal with
  | |- wp ?m _ _ _ =>
      eapply (wp_quiet m (λ _, False)); [solve [quiet_tac] | intros ? s' Hv | by intros ? ? []]
  end.


(** ** Claims *)

Section Claims.
Context (E : Env) (resume : M St unit) `{!WaitersOk E resume}.

(** Updating a residency's claim count; its owner is not queued. *)
Lemma pinv_claims g s rid f claims :
  pinv E g s → (∀ r, r_slots (f r) = r_slots r ∧ r_state (f r) = r_state r ∧
     r_pending_labels (f r) = r_pending_labels r ∧
     r_retire_on_release (f r) = r_retire_on_release r ∧ r_refs (f r) = r_refs r ∧
     r_indices_by_label (f r) = r_indices_by_label r) →
  (∀ r, r_source_readers (f r) = r_source_readers r) →
  (∀ k, own s !! k = Some rid →
     q_live (p_evictable (s_pools s)) !! k = None ∧ k ∉ p_unscored (s_pools s)) →
  claim_inv (own s) (alter f rid (s_res s)) (p_claims (s_pools s))
    (p_next_handle (s_pools s)) claims →
  pinv E (set_claims claims g) (set_s_res (alter f rid (s_res s)) s).
Proof.
  intros Hs Hf Hrd Hq Hc. split; simpl.
  - apply heap_inv_alter; [|apply Hs]. intros r Hi d Hd. unfold r_layout.
    destruct (Hf r) as (-> & _ & _ & _ & _ & Hx). rewrite Hx in Hd. by apply Hi.
  - apply slots_inv_alter, Hs. intros r. apply Hf.
  - apply queue_inv_alter; [intros r; apply Hf| |apply Hs].
    intros k r Hin Hk. destruct (Hq k Hk) as [H1 H2]. destruct Hin as [[? ?]|?]; [congruence|done].
  - apply reader_inv_alter; [done| | |apply Hs].
    { intros r. unfold refs_ok. destruct (Hf r) as (-> & _ & _ & _ & -> & _). done. }
    intros k rid' _. apply published_alter.
    intros r. destruct (Hf r) as (? & ? & ? & ? & ? & _). done.
  - done.
Qed.

Lemma wp_acquire_claim key rid r g Q Ex s :
  pinv E g s → own s !! key = Some rid → s_res s !! rid = Some r → r_state r ≠ DISCARDING →
  (∀ s', pinv E (set_claims ((key, rid) :: gh_claims g) g) s' → own s' = own s →
     p_claims (s_pools s') = p_claims (s_pools s) →
     p_next_handle (s_pools s') = p_next_handle (s_pools s) →
     s_res s' = alter (λ r, r_set_claims (r_claim_count r + 1)%Z r) rid (s_res s) → Q tt s') →
  wp (acquire_claim key rid) Q Ex s.
Proof.
  intros Hs Hk Hr Hst HQ. unfold acquire_claim. apply wp_bind. eapply wp_get_res; [done|].
  rewrite decide_False by done. apply wp_bind.
  eapply wp_remove_evictable; [done..|]. intros s1 H1 Hv1 Hq1 Hu1 _.
  unfold upd_res. wp. apply HQ.
  - apply pinv_claims; [done|done|done| |].
    + intros k Hk'. rewrite (qo_own _ _ Hv1) in Hk'.
      pose proof (hi_inj _ _ _ (pi_heap _ _ _ Hs) _ _ _ Hk Hk') as <-. done.
    + eapply claim_inv_take; [apply H1| |apply H1]. by rewrite (qo_own _ _ Hv1).
  - apply (qo_own _ _ Hv1).
  - apply (qo_claims _ _ Hv1).
  - apply (qo_handle _ _ Hv1).
  - simpl. by rewrite (qo_res _ _ Hv1).
Qed.

(** Retirement: the slots return to the pools. *)
Lemma wp_withdraw key b rid r g Q Ex s :
  pinv E g s → own s !! key = Some rid → s_res s !! rid = Some r →
  r_claim_count r = 0%Z → r_source_readers r = 0%Z → can_evict r = false →
  (∀ s', pinv E g s' → calm s s' → own s' = delete key (own s) → Q tt s') →
  wp (withdraw E key b r) Q Ex s.
Proof.
  intros Hs Hk Hr Hcl Hrd Hev HQ. destruct (unqueued _ _ _ _ _ _ Hs Hk Hr Hev) as [Hq Hu].
  unfold withdraw, upd_source, upd_pools at 1, upd_record. wp.
  match goal with |- wp _ _ _ ?x => set (s2 := x) end.
  assert (pinv E (set_held (r_slots r ++ gh_held g) g) s2) as Hs2.
  { eapply (pinv_give_up E g (set_s_pools (set_p_source (set_ss_index (delete key (ss_index
      (p_source (s_pools s)))) (p_source (s_pools s))) (s_pools s)) s) s2 key rid r); try done.
    - rewrite <- (set_reads_id g). apply pinv_source; [done|].
      apply reader_inv_unpublish, Hs.
    - intros rid'. simpl. by rewrite lookup_delete_eq.
    - exact (own_drop s key). }
  assert (calm s s2) as Hl2 by done.
  assert (own s2 = delete key (own s)) as Ho2 by exact (own_drop s key).
  clearbody s2. clear Hs.
  set (done' := λ s', pinv E g s' ∧ calm s s' ∧ own s' = delete key (own s)).
  assert (∀ s3 s4, same_view s3 s4 → done' s3 → done' s4) as Hview.
  { intros s3 s4 Hv (H1 & H2 & H3). split_and!; [by rewrite <- Hv| |by rewrite (sv_own _ _ Hv)].
    transitivity s3; [done|by apply calm_view]. }
  assert (∀ s3, same_view s2 s3 → ∀ Q Ex,
    (∀ s', done' s' → Q tt s') → wp (free_slots (r_slots r)) Q Ex s3) as Hfree.
  { intros s3 Hv Q' Ex' HQ'. pose proof (calm_view _ _ Hv) as Hc. rewrite Hv in Hs2.
    eapply wp_free_slots; [apply (pi_slots _ _ _ Hs2)|]. intros free' Hf _. apply HQ'. split_and!.
    - rewrite <- (set_held_id g). destruct Hs2. by split.
    - transitivity s2; [done|]. transitivity s3; [done|]. by split.
    - etransitivity; [|exact Ho2]. exact (sv_own _ _ Hv). }
  match goal with |- wp _ ?Q _ _ => assert (∀ s', done' s' → Q tt s') as Hrest end.
  { intros s3 Hd3. wp_skip s4 Hv4. destruct (Hview _ _ Hv4 Hd3) as (? & ? & ?).
    destruct a. by apply HQ. }
  case_decide as Hst; [|by eapply Hfree].
  wp. wp_skip s3 Hv3. wp. eapply Hfree; [done|]. intros s4 Hd4.
  unfold abandon_capacity_eviction, upd_pools. wp.
  match goal with |- wp _ _ _ ?x => set (s5 := x) end.
  assert (done' s5) as Hd5.
  { destruct Hd4 as (Hp4 & Hl4 & Ho4). unfold s5. case_decide; [|by destruct s4].
    split_and!; [by destruct Hp4; split| |done]. transitivity s4; [done|by split]. }
  clearbody s5. wp_skip s6 Hv6. destruct (pending_nonempty r).
  - apply wp_ret, Hrest. by eapply Hview.
  - wp. wp_skip s7 Hv7. apply wp_ret, Hrest. eapply Hview; [done|]. by eapply Hview.
Qed.

(** After the last claim; while completions are drained nobody is resumed. *)
Definition after_ok (g : Ghost) (s s' : St) : Prop :=
  left_ok E g s s' ∧ (p_draining (s_pools s) = true → pinv E g s' ∧ calm s s').
Lemma after_ok_calm g s s' : pinv E g s' → calm s s' → after_ok g s s'.
Proof. intros Hp Hc. split; [|done]. split; [by exists g|by apply calm_handles]. Qed.

Lemma wp_after_last_claim key rid r g s :
  pinv E g s → own s !! key = Some rid → s_res s !! rid = Some r → r_claim_count r = 0%Z →
  wp (after_last_claim E resume key rid)
    (λ _, after_ok g s) (λ e s', overflow e ∧ after_ok g s s') s.
Proof.
  intros Hs Hk Hr Hcl. destruct (own_record _ _ _ Hk) as (b & Hb & Hd).
  unfold after_last_claim. apply wp_bind, wp_gets. rewrite Hb.
  apply wp_bind. eapply wp_get_res; [done|].
  case_decide as Hrd; [apply wp_ret; by apply after_ok_calm|].
  set (retiring := negb (bool_decide (r_state r = READY)) || r_retire_on_release r).
  destruct retiring eqn:Hret; simpl; last first.
  { apply wp_bind. eapply (wp_make_evictable E key g); [done|by eexists|..].
    - intros s' Hp Hv. wp. apply after_ok_calm; [done|by apply calm_queue].
    - intros e s' He Hp Hv. split; [done|]. apply after_ok_calm; [done|by apply calm_queue]. }
  assert (can_evict r = false) as Hev.
  { unfold can_evict. unfold retiring in Hret. destruct (bool_decide (r_state r = READY));
      [|done]. simpl in Hret. rewrite Hret. by destruct (bool_decide _). }
  apply wp_bind. eapply wp_withdraw; [done..|]. intros s4 Hp4 Hc4 Ho4. wp.
  destruct (s_closed s4 || p_draining (s_pools s4)) eqn:Hcd; wp; [by apply after_ok_calm|].
  assert (p_draining (s_pools s) ≠ true) as Hnd.
  { rewrite <- (cl_draining _ _ Hc4). intros Hx. rewrite Hx, orb_true_r in Hcd. done. }
  apply calm_handles in Hc4.
  eapply wp_mono; [by apply (resume_ok g s4)|..]; simpl.
  - intros [] s5 H5. wp. split; [by eapply left_ok_trans|done].
  - intros e s5 [He H5]. split; [done|]. split; [by eapply left_ok_trans|done].
Qed.

Lemma wp_release_claim key rid g s :
  pinv E (set_claims ((key, rid) :: gh_claims g) g) s →
  wp (release_claim E resume key rid) (λ _, left_ok E g s) (failed_ok E g s) s.
Proof.
  intros Hs.
  assert ((key, rid) ∈ claimants (p_claims (s_pools s)) ((key, rid) :: gh_claims g)) as Hin.
  { unfold claimants. apply elem_of_middle. by left. }
  pose proof (ci_own _ _ _ _ _ (pi_claims _ _ _ Hs) _ _ Hin) as Hk.
  destruct (hi_alloc _ _ _ (pi_heap _ _ _ Hs) _ _ Hk) as [r Hr].
  pose proof (ci_count _ _ _ _ _ (pi_claims _ _ _ Hs) _ _ _ Hk Hr) as Hcnt.
  apply occ_pos in Hin. simpl in Hcnt.
  destruct (own_record _ _ _ Hk) as (b & Hb & Hd).
  unfold release_claim. apply wp_bind, wp_gets. apply wp_bind. eapply wp_get_res; [done|].
  rewrite Hb. simpl. rewrite Hd. rewrite decide_False; last first.
  { intros [?|?]; [done|lia]. }
  unfold upd_res. wp. set (s1 := set_s_res _ s).
  assert (pinv E g s1) as Hs1.
  { rewrite <- (set_claims_id g).
    assert (can_evict r = false) as Hev.
    { unfold can_evict. rewrite (bool_decide_false (r_claim_count r = 0%Z)) by lia.
      by rewrite andb_false_r. }
    assert (s1 = set_s_res (alter (λ r, r_set_claims (r_claim_count r - 1)%Z r) rid (s_res s)) s)
      as ->.
    { unfold s1. f_equal. apply map_eq. intros i. rewrite !lookup_alter.
      case_decide; [|done]. subst. by rewrite Hr. }
    apply (pinv_claims (set_claims ((key, rid) :: gh_claims g) g)); [done..| |].
    - intros k' Hk'. pose proof (hi_inj _ _ _ (pi_heap _ _ _ Hs) _ _ _ Hk Hk') as <-.
      by eapply unqueued.
    - eapply claim_inv_drop; [apply Hs|done|apply Hs]. }
  assert (handles_le s s1) as Hl1 by (split; simpl; done || lia).
  case_decide as Hz; wp; [|split; [by exists g|done]].
  eapply wp_mono; [eapply (wp_after_last_claim key rid); [exact Hs1|..]|..].
  - exact Hk.
  - unfold s1. simpl. by rewrite lookup_alter_eq, Hr.
  - done.
  - intros x s2 [H2 _]. wp. eapply left_ok_trans; [reflexivity|exact Hl1|exact H2].
  - intros e s2 [He [H2 _]]. split; [done|]. eapply left_ok_trans; [reflexivity|exact Hl1|exact H2].
Qed.
End Claims.
