(* ===== verification/PoolsThm.v ===== *)
(** * Claims and readers of the local DRAM pools: properties

    The public operations of [_LocalDramPools] on claims, and the protocol
    between the progress thread, which reads published sources, and the caller,
    which accounts for completed reads. *)

From Stdlib Require Import ZArith Lia.
From S2P Require Import Prelude PyFloat Types PolicyRuntime Layout State CoreBase Pools PoolsInv PoolsOps.

(** ** Handles *)

(** What [release] reports: a handle is good once. *)
Fixpoint redeemed (claims : gmap Z (BlockKey * nat)) (handles : list Z) : list (Z * bool) :=
  match handles with
  | [] => []
  | h :: handles =>
      (h, bool_decide (is_Some (claims !! h))) :: redeemed (delete h claims) handles
  end.

Lemma redeemed_ext m m' handles : (∀ h, h ∈ handles → m !! h = m' !! h) →
  redeemed m handles = redeemed m' handles.
Proof.
  revert m m'. induction handles as [|h handles IH]; intros m m' Hm; simpl; [done|].
  rewrite (Hm h) by set_solver. f_equal. apply IH. intros h' Hh'. rewrite !lookup_delete.
  case_decide; [done|]. apply Hm. set_solver.
Qed.

Section Claiming.
Context (E : Env).

Lemma wp_new_public_claim key rid r slots g Q Ex s :
  pinv E g s → own s !! key = Some rid → s_res s !! rid = Some r → r_state r ≠ DISCARDING →
  (∀ result s', pinv E g s' → own s' = own s →
     release_handle result = Some (p_next_handle (s_pools s)) →
     p_claims (s_pools s') !! p_next_handle (s_pools s) = Some (key, rid) →
     handles_le s s' → Q result s') →
  wp (new_public_claim E key rid slots) Q Ex s.
Proof.
  intros Hs Hk Hr Hst HQ. unfold new_public_claim. apply wp_bind.
  eapply wp_acquire_claim; [done..|]. intros s1 Hs1 Ho1 Hc1 Hn1 _.
  unfold upd_pools. wp. apply HQ; simpl; rewrite ?Hn1; try done.
  - rewrite <- (set_claims_id g). destruct Hs1 as [Ha Hb Hq Hrd Hci].
    split; simpl in *; try done.
    rewrite Hn1 in Hci. by apply claim_inv_publish.
  - by rewrite lookup_insert_eq.
  - split; simpl; rewrite ?Hn1, ?Hc1; [lia|]. intros h Hh. by rewrite lookup_insert_ne by lia.
Qed.

End Claiming.

Section Releasing.
Context (E : Env) (resume : M St unit) `{!WaitersOk E resume}.

(** releasing handles the pools have given out reports each one good exactly
    once (a repeated or already released handle is refused), gives up one claim
    per good handle and keeps everybody else's, retiring or ranking a residency
    when its last claim goes.  The bookkeeping errors ("invalid local DRAM claim")
    are unreachable; only the overflow of a policy score can escape. *)
Theorem release_redeems_once handles g s :
  pinv E g s → Forall (λ h, h < p_next_handle (s_pools s))%Z handles →
  wp (release E resume handles)
    (λ results s', results = redeemed (p_claims (s_pools s)) handles ∧ pinv_ext E g s')
    (λ e s', overflow e ∧ pinv_ext E g s') s.
Proof.
  intros Hs Hh. unfold release. apply wp_bind.
  eapply (wp_fold_each _ handles [] (λ acc rest s',
    acc ++ redeemed (p_claims (s_pools s')) rest = redeemed (p_claims (s_pools s)) handles ∧
    Forall (λ h, h < p_next_handle (s_pools s'))%Z rest ∧ pinv_ext E g s')).
  - split_and!; [done|done|]. by exists g.
  - clear Hs Hh. intros acc h rest s1 (Heq & Hlt & g' & Hg & Hs).
    apply Forall_cons in Hlt as [Hh Hlt]. wp.
    destruct (p_claims (s_pools s1) !! h) as [[key rid]|] eqn:Hc; wp.
    + unfold upd_pools. wp.
      eapply wp_mono; [apply (wp_release_claim E resume key rid g')|..].
      * destruct Hs as [Ha Hb Hq Hrd Hci]. split; simpl; try done. by apply claim_inv_redeem.
      * intros [] s' [(g2 & Hg2 & Hp) [Hn Hsame]]. wp. simpl in *. split_and!.
        -- rewrite <- Heq, <- app_assoc. simpl. rewrite Hc. f_equal. f_equal.
           apply redeemed_ext. intros h' Hin. rewrite list.Forall_forall in Hlt. auto.
        -- eapply list.Forall_impl; [exact Hlt|]. simpl. lia.
        -- exists g2. split; [by transitivity g'|done].
      * intros e s' [He [(g2 & Hg2 & Hp) _]]. split; [done|]. exists g2.
        split; [by transitivity g'|done].
    + split_and!; [|done|by exists g']. rewrite <- Heq, <- app_assoc. simpl. rewrite Hc.
      by rewrite delete_id.
  - intros acc s' (Heq & _ & g' & Hg & Hp). rewrite app_nil_r in Heq. wp. wp_skip s'' Hv. wp.
    split; [done|]. exists g'. split; [done|]. by rewrite <- Hv.
Qed.

End Releasing.

(** ** Claims of operations *)

Section Sources.
Context (E : Env).


(** [acquire_sources]: each claimed key gets one claim on its residency. *)
Lemma wp_acquire_sources keys allow_filling g s :
  pinv E g s →
  wp (acquire_sources E keys allow_filling)
    (λ sources s', pinv E (set_claims (map_to_list sources ++ gh_claims g) g) s' ∧
       own s' = own s ∧
       ∀ k rid, sources !! k = Some rid ↔ k ∈ keys ∧ own s !! k = Some rid ∧
         ∃ r, s_res s !! rid = Some r ∧
           (r_state r = READY ∨ allow_filling = true ∧ r_state r = FILLING))
    (λ _ _, False) s.
Proof.
  intros Hs. unfold acquire_sources. apply wp_bind.
  set (want := λ k rid, own s !! k = Some rid ∧ ∃ r, s_res s !! rid = Some r ∧
           (r_state r = READY ∨ allow_filling = true ∧ r_state r = FILLING)).
  eapply (wp_fold_each _ keys ∅ (λ sources rest s', ∃ done', keys = done' ++ rest ∧
    pinv E (set_claims (map_to_list sources ++ gh_claims g) g) s' ∧ own s' = own s ∧
    (∀ rid r', s_res s' !! rid = Some r' → ∃ r, s_res s !! rid = Some r ∧ r_state r' = r_state r) ∧
    ∀ k rid, sources !! k = Some rid ↔ k ∈ done' ∧ want k rid)).
  - exists []. split_and!; [done| |done|eauto|].
    + rewrite map_to_list_empty. simpl. by rewrite set_claims_id.
    + intros k rid. rewrite lookup_empty. set_solver.
  - intros sources key rest s' (done' & -> & Hp & Ho & Hst & Hsrc).
    case_decide as Hdup.
    { wp. exists (done' ++ [key]). rewrite <- app_assoc. split_and!; [done..|].
      intros k rid. rewrite Hsrc. destruct Hdup as [rid0 Hr0]. apply Hsrc in Hr0 as [Hd _].
      set_solver. }
    apply wp_bind, wp_gets.
    destruct (s_records s' !! key ≫= b_local_dram) as [rid|] eqn:Hd; last first.
    { wp. exists (done' ++ [key]). rewrite <- app_assoc. split_and!; [done..|].
      intros k rid. rewrite Hsrc. assert (¬ want key rid) as Hnw; [|set_solver].
      intros [Hk _]. rewrite <- Ho in Hk. unfold own in Hk. rewrite lookup_omap in Hk. congruence. }
    assert (own s' !! key = Some rid) as Hk by (unfold own; by rewrite lookup_omap).
    destruct (hi_alloc _ _ _ (pi_heap _ _ _ Hp) _ _ Hk) as [r Hr].
    destruct (Hst _ _ Hr) as (r0 & Hr0 & Hst0).
    apply wp_bind. eapply wp_get_res; [done|]. case_decide as Hready; last first.
    { wp. exists (done' ++ [key]). rewrite <- app_assoc. split_and!; [done..|].
      intros k rid'. rewrite Hsrc. assert (¬ want key rid') as Hnw; [|set_solver].
      intros (Hk' & r' & Hr' & Hs'). rewrite Ho in Hk. simplify_eq. rewrite Hst0 in Hready. done. }
    apply wp_bind. eapply wp_acquire_claim; [done..| |].
    { intros Hx. rewrite Hx in Hready. destruct Hready as [?|[_ ?]]; done. }
    intros s2 Hp2 Ho2 _ _ Hres2. wp. exists (done' ++ [key]). rewrite <- app_assoc.
    assert (sources !! key = None) as Hnone.
    { destruct (sources !! key) eqn:Hx; [|done]. exfalso. apply Hdup. by eexists. }
    split_and!; [done| |by rewrite Ho2| |].
    + eapply (pinv_perm_claims); [|exact Hp2]. simpl. by rewrite (map_to_list_insert _ _ _ Hnone).
    + intros rid' r'. rewrite Hres2, lookup_alter. case_decide; [|apply Hst]. subst.
      rewrite Hr. intros [= <-]. by exists r0.
    + intros k rid'. rewrite lookup_insert. case_decide as Hkk; subst.
      * assert (want k rid) as Hw. { split; [by rewrite <- Ho|]. exists r0. by rewrite <- Hst0. }
        split; [intros [= <-]; set_solver|]. intros [_ [Hk' _]]. destruct Hw. congruence.
      * rewrite Hsrc. set_solver.
  - intros sources s' (done' & -> & Hp & Ho & _ & Hsrc). wp. wp_skip s'' Hv. wp.
    split_and!; [by rewrite <- Hv|by rewrite (sv_own _ _ Hv)|].
    rewrite app_nil_r. exact Hsrc.
Qed.

End Sources.

Section ReleasingSources.
Context (E : Env) (resume : M St unit) `{!WaitersOk E resume}.

(** One claim of many is released. *)
Lemma wp_release_one key rid cl g s :
  pinv_ext E (set_claims ((key, rid) :: cl) g) s →
  own s !! key = Some rid ∧
  wp (release_claim E resume key rid) (λ _, pinv_ext E (set_claims cl g))
    (λ e s', overflow e ∧ pinv_ext E (set_claims cl g) s') s.
Proof.
  intros (g' & [Hh He Hc] & Hp). simpl in *.
  apply submseteq_Permutation in Hc as [rest Hc]. simpl in Hc.
  assert (pinv E (set_claims ((key, rid) :: cl ++ rest) g') s) as Hp1.
  { apply (pinv_perm_claims E g' s (gh_claims g')); [done|]. by rewrite set_claims_id. }
  assert (gle (set_claims cl g) (set_claims (cl ++ rest) g')) as Hle.
  { split; [done|done|]. simpl. by apply submseteq_inserts_r. }
  split.
  - eapply (ci_own _ _ _ _ _ (pi_claims _ _ _ Hp1)). unfold claimants. apply elem_of_middle.
    by left.
  - eapply wp_mono; [apply (wp_release_claim E resume key rid (set_claims (cl ++ rest) g') s); done|..].
    + intros [] s' [(g2 & Hg2 & Hp2) _]. exists g2. split; [by etransitivity|done].
    + intros e s' [Hov [(g2 & Hg2 & Hp2) _]]. split; [done|]. exists g2.
      split; [by etransitivity|done].
Qed.

Lemma wp_release_sources keys rids cl g s :
  length keys = length rids →
  pinv_ext E (set_claims (zip keys rids ++ cl) g) s →
  wp (release_sources E resume keys) (λ _, pinv_ext E (set_claims cl g))
    (λ e s', overflow e ∧ ∃ cl', pinv_ext E (set_claims (cl' ++ cl) g) s') s.
Proof.
  intros Hlen Hs. unfold release_sources. apply wp_bind.
  eapply (wp_for_each keys _ (λ rest s', ∃ rids, length rest = length rids ∧
    pinv_ext E (set_claims (zip rest rids ++ cl) g) s')).
  - by exists rids.
  - clear rids s Hlen Hs. intros key rest s ([|rid rids] & Hlen & Hs); simplify_eq/=.
    destruct (wp_release_one key rid _ g s Hs) as [Hk Hwp].
    apply wp_bind, wp_gets. destruct (own_record _ _ _ Hk) as (b & Hb & Hd).
    rewrite Hb. simpl. rewrite Hd. eapply wp_mono; [exact Hwp|..].
    + intros [] s' Hs'. by exists rids.
    + intros e s' [He Hs']. split; [done|]. by eexists.
  - clear. intros s ([|rid rids] & Hlen & g' & Hg & Hs); [|done]. wp_skip s' Hv. simpl in *.
    exists g'. split; [done|]. by rewrite <- Hv.
Qed.

End ReleasingSources.

Section Retiring.
Context (E : Env).

(** Marking a source for retirement: its publication ends at once. *)
Lemma pinv_retire g s key rid r :
  pinv E g s → own s !! key = Some rid → s_res s !! rid = Some r →
  (0 < r_claim_count r)%Z →
  pinv E g (if env_framework_control E
    then set_s_pools (set_p_source (set_ss_index (<[ key := None ]>
           (ss_index (p_source (s_pools s)))) (p_source (s_pools s))) (s_pools s))
           (set_s_res (alter (r_set_retire true) rid (s_res s)) s)
    else set_s_res (alter (r_set_retire true) rid (s_res s)) s).
Proof.
  intros Hs Hk Hr Hc. pose proof Hs as [Hh Hsl Hq Hrd Hci].
  assert (can_evict r = false) as Hev.
  { unfold can_evict. rewrite (bool_decide_false (r_claim_count r = 0%Z)) by lia.
    by rewrite andb_false_r. }
  destruct (unqueued _ _ _ _ _ _ Hs Hk Hr Hev) as [Hql Hqu].
  assert (reader_inv E (own s) (alter (r_set_retire true) rid (s_res s))
    (if env_framework_control E
     then set_ss_index (<[ key := None ]> (ss_index (p_source (s_pools s)))) (p_source (s_pools s))
     else p_source (s_pools s)) (gh_reads g)) as Hrd'.
  { destruct (env_framework_control E) eqn:Hfw.
    - apply reader_inv_alter; [done|done| |by apply reader_inv_pending].
      intros k rid' Hix Hp. destruct Hp as (Hf & Ho & r' & Hr' & Hp). split_and!; [done|done|].
      exists r'. split; [|done]. rewrite lookup_alter_ne; [done|]. intros <-.
      pose proof (hi_inj _ _ _ Hh _ _ _ Hk Ho) as <-. simpl in Hix.
      by rewrite lookup_insert_eq in Hix.
    - apply reader_inv_alter; [done|done| |done]. intros k rid' Hix (Hf & _). congruence. }
  assert (queue_inv (own s) (alter (r_set_retire true) rid (s_res s)) (p_evictable (s_pools s))
    (p_evictable_slots (s_pools s)) (p_unscored (s_pools s)) (gh_ents g)) as Hq'.
  { apply queue_inv_alter; [done| |done]. intros k r' Hin Hk'.
    pose proof (hi_inj _ _ _ Hh _ _ _ Hk Hk') as <-. destruct Hin as [[? ?]|?]; congruence. }
  assert (heap_inv (own s) (alter (r_set_retire true) rid (s_res s)) (s_next_res s)) as Hh'
    by (by apply heap_inv_alter).
  assert (slots_inv E (own s) (alter (r_set_retire true) rid (s_res s)) (p_free (s_pools s))
    (gh_held g)) as Hsl' by (by apply slots_inv_alter).
  assert (claim_inv (own s) (alter (r_set_retire true) rid (s_res s)) (p_claims (s_pools s))
    (p_next_handle (s_pools s)) (gh_claims g)) as Hci' by (by apply claim_inv_alter).
  by destruct (env_framework_control E); split.
Qed.

Lemma wp_retire_sources keys g s :
  pinv E g s →
  wp (retire_sources E keys)
    (λ _ s', pinv E g s' ∧ own s' = own s ∧ ∀ k, k ∈ keys → ∃ rid r,
       own s !! k = Some rid ∧ s_res s' !! rid = Some r ∧ r_retire_on_release r = true ∧
       r_state r = READY ∧ (0 < r_claim_count r)%Z)
    (λ _ s', pinv E g s' ∧ own s' = own s) s.
Proof.
  intros Hs. unfold retire_sources.
  eapply (wp_for_each _ _ (λ rest s', pinv E g s' ∧ own s' = own s ∧
    ∀ k, k ∈ first_occurrences [] keys → k ∉ rest → ∃ rid r,
       own s !! k = Some rid ∧ s_res s' !! rid = Some r ∧ r_retire_on_release r = true ∧
       r_state r = READY ∧ (0 < r_claim_count r)%Z)).
  - split_and!; [done..|]. done.
  - intros key rest s1 (Hs1 & Ho & Hdone). apply wp_bind, wp_gets.
    destruct (s_records s1 !! key ≫= b_local_dram) as [rid|] eqn:Hd; [|by wp].
    assert (own s1 !! key = Some rid) as Hk by (unfold own; by rewrite lookup_omap).
    destruct (hi_alloc _ _ _ (pi_heap _ _ _ Hs1) _ _ Hk) as [r Hr].
    apply wp_bind. eapply wp_get_res; [done|]. case_decide as Hbad; [by wp|].
    assert (r_state r = READY ∧ 0 < r_claim_count r)%Z as [Hst Hcl].
    { destruct (decide (r_state r = READY)); [|tauto].
      destruct (Z.lt_ge_cases 0 (r_claim_count r)); [done|tauto]. }
    pose proof (pinv_retire _ _ _ _ _ Hs1 Hk Hr Hcl) as Hp.
    unfold upd_source, upd_pools, upd_res. wp.
    destruct (env_framework_control E); wp;
      (split_and!; [exact Hp|exact Ho|]; simpl; intros k Hin Hnin;
       destruct (decide (k = key)) as [->|Hne];
       [exists rid, (r_set_retire true r); rewrite lookup_alter_eq, Hr;
        split_and!; [congruence|done..]|];
       destruct (Hdone k Hin ltac:(set_solver)) as (rid' & r' & Hk' & Hr' & ? & ? & ?);
       exists rid', r'; rewrite lookup_alter_ne; [done|]; intros <-;
       rewrite <- Ho in Hk'; by pose proof (hi_inj _ _ _ (pi_heap _ _ _ Hs1) _ _ _ Hk Hk')).
  - intros s' (Hp & Ho & Hdone). split_and!; [done..|]. intros k Hk. apply Hdone; [|set_solver].
    apply first_occurrences_spec. set_solver.
Qed.
End Retiring.
