(* ===== verification/PoolsReaders.v ===== *)
(** * Readers of published sources

    [acquire_readers] and [release_readers] run on the progress thread,
    [_drain_source_completions] on the caller; the shared [_SourceState] makes
    each of them atomic.  A claim on a source is exactly the slots that hold the
    requested pieces, and it protects them until the caller has accounted for
    the read. *)

From Stdlib Require Import ZArith Lia.
From S2P Require Import Prelude PyFloat Types PolicyRuntime Layout State CoreBase Pools PoolsInv PoolsOps PoolsThm.

(** What one answered claim is worth: the residency the record owns, complete
    and in service, and descriptors of the slots holding the requested labels. *)
Definition claim_good (E : Env) (s : St) (keys : list BlockKey)
    (destinations : list (list TransferRef)) (c : nat * nat * list TransferRef) : Prop :=
  ∃ key destination r, keys !! c.1.1 = Some key ∧ destinations !! c.1.1 = Some destination ∧
    own s !! key = Some c.1.2 ∧ s_res s !! c.1.2 = Some r ∧ r_state r = READY ∧
    r_retire_on_release r = false ∧
    tr_label <$> c.2 = tr_label <$> destination ∧
    Forall (λ ref, tr_end_point ref = env_agent E ∧
      (tr_label ref, tr_element_index ref) ∈ r_slots r) c.2.

(** The reads a set of claims starts. *)
Definition claim_reads (keys : list BlockKey) (claims : list (nat * nat * list TransferRef))
    : list (BlockKey * nat) :=
  omap (λ c, (λ key, (key, c.1.2)) <$> keys !! c.1.1) claims.

Section Readers.
Context (E : Env).

Lemma descriptors_lookup slots i :
  descriptors_of E slots !! i = (λ x, descriptor E x.1 x.2) <$> slots !! i.
Proof. unfold descriptors_of. rewrite list_lookup_fmap. by destruct (slots !! i) as [[]|]. Qed.

Lemma descriptors_good slots ref : ref ∈ descriptors_of E slots →
  tr_end_point ref = env_agent E ∧ (tr_label ref, tr_element_index ref) ∈ slots.
Proof. intros ([l slot] & -> & Hin)%list_elem_of_fmap. done. Qed.

Lemma descriptors_labels slots : tr_label <$> descriptors_of E slots = slots.*1.
Proof. unfold descriptors_of. rewrite <- list_fmap_compose. by apply list_fmap_ext; intros ? []. Qed.

(** The pieces picked out of the descriptors of a residency. *)
Lemma pick_pieces r requested indices :
  index_ok r → layout_indices (r_layout r) requested (r_indices_by_label r) = Some indices →
  let refs := omap (λ j, descriptors_of E (r_slots r) !! j) indices in
  tr_label <$> refs = requested ∧
  Forall (λ ref, tr_end_point ref = env_agent E ∧
    (tr_label ref, tr_element_index ref) ∈ r_slots r) refs.
Proof.
  intros Hok Hi refs. destruct (layout_indices_picks _ _ _ _ Hok Hi) as [Hmap _]. split.
  - unfold refs. clear refs Hi. unfold r_layout, layout_of in Hmap.
    revert requested Hmap. induction indices as [|j indices IH]; intros [|l requested] Hmap;
      simpl in Hmap; try done. injection Hmap as Hj Hmap.
    rewrite list_lookup_fmap in Hj. apply fmap_Some in Hj as ([l' slot] & Hs & ->).
    simpl. rewrite descriptors_lookup, Hs. simpl. f_equal. by apply IH.
  - apply list.Forall_forall. intros ref (j & _ & Hj)%list_elem_of_omap.
    apply descriptors_good. by eapply list_elem_of_lookup_2.
Qed.

Lemma acquire_scan_good g s keys0 dests0 i keys dests key_layout allow_missing claims :
  pinv E g s →
  (∀ j, keys0 !! (i + j) = keys !! j) → (∀ j, dests0 !! (i + j) = dests !! j) →
  acquire_scan s i keys dests key_layout allow_missing = Some claims →
  Forall (claim_good E s keys0 dests0) claims ∧
  (allow_missing = false → claims.*1.*1 = seq i (length claims) ∧
     length claims = min (length keys) (length dests)).
Proof.
  intros Hs. revert i dests claims.
  induction keys as [|key keys IH]; intros i dests claims Hk Hd Hsc; simpl in Hsc.
  { simplify_eq. split; [constructor|done]. }
  destruct dests as [|dest dests]; simpl in Hsc; [simplify_eq; split; [constructor|done]|].
  assert (∀ claims', acquire_scan s (S i) keys dests key_layout allow_missing = Some claims' →
    Forall (claim_good E s keys0 dests0) claims' ∧
    (allow_missing = false → claims'.*1.*1 = seq (S i) (length claims') ∧
       length claims' = min (length keys) (length dests))) as IH'.
  { intros claims' Hc. apply IH; [..|done]; intros j.
    - transitivity ((key :: keys) !! S j); [|done]. rewrite <- Hk. f_equal. lia.
    - transitivity ((dest :: dests) !! S j); [|done]. rewrite <- Hd. f_equal. lia. }
  clear IH. set (index := ss_index (p_source (s_pools s))) in *.
  destruct (mjoin (index !! key) ≫= _) as [[rid r]|] eqn:Hix.
  2: { destruct allow_missing; simpl in Hsc; [|done]. case_bool_decide; [|done].
       destruct (IH' _ Hsc). split; [done|done]. }
  apply bind_Some in Hix as (rid' & Hj & (r' & Hr & [= -> ->])%fmap_Some).
  assert (index !! key = Some (Some rid')) as Hj'
    by (destruct (index !! key) as [[]|]; simpl in Hj; congruence). clear Hj.
  destruct (ri_index _ _ _ _ _ (pi_readers _ _ _ Hs) _ _ Hj') as
    (_ & Ho & r0 & Hr0 & Hst & Hpend & Hret & Href).
  assert (r0 = r') as -> by congruence. rewrite Href in Hsc.
  destruct (bool_decide _ && bool_decide _).
  { destruct allow_missing; [|done]. destruct (IH' _ Hsc). split; done. }
  pose proof (hi_index _ _ _ (pi_heap _ _ _ Hs) _ _ Hr) as Hok.
  assert (keys0 !! i = Some key ∧ dests0 !! i = Some dest) as [Hki Hdi].
  { split; [rewrite <- (Nat.add_0_r i), Hk|rewrite <- (Nat.add_0_r i), Hd]; done. }
  assert (∀ refs claims', tr_label <$> refs = tr_label <$> dest →
    Forall (λ ref, tr_end_point ref = env_agent E ∧
      (tr_label ref, tr_element_index ref) ∈ r_slots r') refs →
    acquire_scan s (S i) keys dests key_layout allow_missing = Some claims' →
    Forall (claim_good E s keys0 dests0) ((i, rid', refs) :: claims') ∧
    (allow_missing = false → ((i, rid', refs) :: claims').*1.*1 =
        seq i (length ((i, rid', refs) :: claims')) ∧
       length ((i, rid', refs) :: claims') = min (length (key :: keys)) (length (dest :: dests))))
    as Hgood.
  { intros refs claims' Hl Hf Hc. destruct (IH' _ Hc) as [H1 H2]. split.
    - constructor; [|done]. by exists key, dest, r'.
    - intros Ha. destruct (H2 Ha) as [H3 H4]. split; [|simpl; by rewrite H4].
      simpl. f_equal. exact H3. }
  case_decide as Hlay.
  - apply bind_Some in Hsc as (claims' & Hc & [= <-]). apply Hgood; [|apply list.Forall_forall|done].
    + rewrite descriptors_labels. done.
    + intros ref. apply descriptors_good.
  - destruct (layout_indices _ _ _) as [indices|] eqn:Hli; last first.
    { destruct allow_missing; [|done]. destruct (IH' _ Hsc). split; done. }
    apply bind_Some in Hsc as (claims' & Hc & [= <-]).
    destruct (pick_pieces r' _ _ Hok Hli) as [H1 H2]. by apply Hgood.
Qed.
(** Only readers were added. *)
Record reads_only (s s' : St) : Prop := {
  ro_own : own s' = own s;
  ro_queue : p_evictable (s_pools s') = p_evictable (s_pools s);
  ro_calm : calm s s';
  ro_res : ∀ rid r, s_res s !! rid = Some r → ∃ n, s_res s' !! rid = Some (r_set_readers n r) }.
#[export] Instance reads_only_preorder : PreOrder reads_only.
Proof.
  split.
  - intros s. split; [done..|]. intros rid r Hr. exists (r_source_readers r). by destruct r.
  - intros a b c [H1 H2 H3 H4] [H1' H2' H3' H4']. split; [congruence..|by transitivity b|].
    intros rid r Hr. destruct (H4 _ _ Hr) as [n Hn]. destruct (H4' _ _ Hn) as [m Hm]. by exists m.
Qed.

(** The updates of [acquire_readers] for claims that are good. *)
Lemma wp_take_readers keys dests claims g s0 Q Ex s :
  pinv E g s → own s = own s0 → Forall (claim_good E s0 keys dests) claims →
  (∀ s', pinv E (set_reads (rev (claim_reads keys claims) ++ gh_reads g) g) s' →
     reads_only s s' → Q tt s') →
  wp (for_each claims (λ '(i, rid, _),
          upd_res rid (λ r, r_set_readers (r_source_readers r + 1)%Z r) ;;
          match keys !! i with
          | Some key => upd_source (λ x, set_ss_active (<[ key := rid ]> (ss_active x)) x)
          | None => raise (RuntimeError "tuple index out of range")
          end)) Q Ex s.
Proof.
  intros Hs Ho Hg. revert g s Hs Ho Q.
  induction Hg as [|[[i rid] refs] claims (key & dest & r & Hk & Hd & Hown & Hr & _) _ IH];
    intros g s Hs Ho Q HQ; simpl.
  { wp. apply HQ; [|reflexivity]. simpl. by rewrite set_reads_id. }
  simpl in *. unfold upd_res, upd_source, upd_pools. wp. rewrite Hk. wp.
  rewrite <- Ho in Hown.
  set (s1 := set_s_pools _ _).
  assert (pinv E (set_reads ((key, rid) :: gh_reads g) g) s1) as Hs1.
  { destruct Hs as [Hh Hsl Hq Hrd Hci]. split; simpl.
    - by apply heap_inv_alter.
    - by apply slots_inv_alter.
    - by apply queue_inv_alter.
    - by eapply reader_inv_add.
    - by apply claim_inv_alter. }
  apply (IH _ _ Hs1); [done|]. intros s' Hs' Ho'. apply HQ.
  - unfold claim_reads in *. simpl. rewrite Hk. simpl. rewrite <- app_assoc. done.
  - transitivity s1; [|done]. split; [done..| |].
    + split; try done. simpl. by rewrite dom_alter_L.
    + intros rid' r' Hr'. simpl. rewrite lookup_alter. case_decide; subst; rewrite Hr'; simpl.
      * by eexists.
      * exists (r_source_readers r'). by destruct r'.
Qed.

Lemma pinv_operations g s n :
  pinv E g s → pinv E g (set_s_pools (set_p_source (set_ss_operations n (p_source (s_pools s)))
    (s_pools s)) s).
Proof.
  intros Hs. rewrite <- (set_reads_id g). apply pinv_source; [done|].
  eapply reader_inv_reads; [..|apply Hs]; try done. apply (ri_len _ _ _ _ _ (pi_readers _ _ _ Hs)).
Qed.
End Readers.

Section Drop.
Context (E : Env).

(** One reader is dropped. *)
Lemma wp_drop_reader key rid fl g s :
  pinv E (set_reads ((key, rid) :: fl) g) s →
  wp (drop_reader key rid) (λ _ s', pinv E (set_reads fl g) s' ∧ calm s s') (λ _ _, False) s.
Proof.
  intros Hs. pose proof Hs as [Hh Hsl Hq Hrd Hci]. simpl in *.
  assert ((key, rid) ∈ reads (p_source (s_pools s)) ((key, rid) :: fl)) as Hin.
  { unfold reads. simpl. by left. }
  pose proof (ri_own _ _ _ _ _ Hrd _ _ Hin) as Hk.
  destruct (hi_alloc _ _ _ Hh _ _ Hk) as [r Hr].
  pose proof (ri_count _ _ _ _ _ Hrd _ _ _ Hk Hr) as Hcnt.
  pose proof (proj2 (occ_pos _ _) Hin).
  unfold drop_reader. apply wp_bind. eapply wp_get_res; [done|]. rewrite decide_False by lia.
  pose proof (reader_inv_drop _ _ _ _ _ _ _ _ _ Hh Hr Hrd) as Hrd'.
  assert (∀ src, reader_inv E (own s) (alter (r_set_readers (r_source_readers r - 1)) rid (s_res s))
      src fl → ss_completions src = ss_completions (p_source (s_pools s)) →
    let s' := set_s_pools (set_p_source src (s_pools s))
      (set_s_res (alter (r_set_readers (r_source_readers r - 1)) rid (s_res s)) s) in
    pinv E (set_reads fl g) s' ∧ calm s s') as Hdone.
  { intros src Hsrc Hcomp. split.
    - split; simpl; [by apply heap_inv_alter|by apply slots_inv_alter|by apply queue_inv_alter|
        done|by apply claim_inv_alter].
    - split; simpl; try done. by rewrite dom_alter_L. }
  unfold upd_res. wp. case_decide.
  - wp. simpl. apply (ri_active _ _ _ _ _ Hrd) in Hin. rewrite Hin.
    unfold upd_source, upd_pools. wp. by apply Hdone.
  - wp. destruct (Hdone _ Hrd' eq_refl) as [[] []]. by split; split.
Qed.

End Drop.

Section Drain.
Context (E : Env) (resume : M St unit) `{!WaitersOk E resume}.

(** One completion while draining: the invariant holds with the reads left. *)
Lemma wp_drain_one c g s :
  pinv E (set_reads (zip c.1.1 c.1.2 ++ gh_reads g) g) s →
  length c.1.1 = length c.1.2 → p_draining (s_pools s) = true →
  wp (drain_one E resume c) (λ _ s', pinv E g s' ∧ calm s s')
    (λ e s', overflow e ∧ pinv E g s' ∧ calm s s') s.
Proof.
  intros Hs Hlen Hd. destruct c as [[keys sources] success]. simpl in *. unfold drain_one.
  assert (∀ k rid, (k, rid) ∈ zip keys sources → own s !! k = Some rid) as Hown.
  { intros k rid Hin. apply (ri_own _ _ _ _ _ (pi_readers _ _ _ Hs)). unfold reads. simpl.
    set_solver. }
  apply wp_bind.
  match goal with |- wp _ ?Q _ _ => assert (∀ s', same_view s s' → Q tt s') as Hmain end.
  { intros s1 Hv. apply wp_bind.
    eapply (wp_for_each _ _ (λ rest s', pinv E (set_reads (rest ++ gh_reads g) g) s' ∧ calm s s')).
    - split; [by rewrite <- Hv|by apply calm_view].
    - intros [key rid] rest s2 [Hs2 Hc2]. eapply wp_mono; [by apply wp_drop_reader| |done].
      intros [] s3 [Hs3 Hc3]. split; [done|by transitivity s2].
    - intros s2 [Hs2 Hc2]. simpl in Hs2. rewrite set_reads_id in Hs2.
      eapply (wp_fold_each _ _ _ (λ _ rest s', rest ⊆ zip keys sources ∧ pinv E g s' ∧ calm s s')).
      + done.
      + clear s1 Hv s2 Hs2 Hc2. intros freed [key rid] rest s1 (Hsub & Hs1 & Hc1). unfold settle_reader.
        apply wp_bind, wp_gets.
        assert (is_Some (s_res s1 !! rid)) as [r Hr].
        { apply elem_of_dom, (cl_res _ _ Hc1), elem_of_dom.
          apply (hi_alloc _ _ _ (pi_heap _ _ _ Hs) key), Hown. set_solver. }
        apply wp_bind. eapply wp_get_res; [done|].
        case_decide as Hcond; [|wp; split_and!; [set_solver|done..]].
        destruct Hcond as [Hb Hcl]. apply wp_bind.
        eapply wp_mono; [eapply (wp_after_last_claim E resume key rid r g s1); try done|..].
        * unfold own. by rewrite lookup_omap.
        * intros f s2 [_ H2]. wp. destruct H2 as [H2 H3]; [by rewrite (cl_draining _ _ Hc1)|].
          split_and!; [set_solver|done|by transitivity s1].
        * intros e s2 [He [_ H2]]. destruct H2 as [H2 H3]; [by rewrite (cl_draining _ _ Hc1)|].
          split_and!; [done|done|by transitivity s1].
      + intros acc s3 (_ & ? & ?). done. }
  destruct success; [|by apply wp_ret, Hmain].
  apply wp_record_access; [|done]. intros k [i Hi]%list_elem_of_lookup.
  destruct (lookup_lt_is_Some_2 sources i) as [rid Hr].
  { rewrite <- Hlen. by eapply lookup_lt_Some. }
  exists rid. apply Hown. apply list_elem_of_lookup. exists i.
  by apply lookup_zip_Some.
Qed.

(** The loop takes every completion that is queued. *)
Lemma wp_drain_loop n freed g s :
  pinv E g s → p_draining (s_pools s) = true →
  length (ss_completions (p_source (s_pools s))) ≤ n →
  wp (drain_loop E resume n freed)
    (λ _ s', pinv E g s' ∧ ss_completions (p_source (s_pools s')) = [])
    (λ e s', overflow e ∧ pinv E g s') s.
Proof.
  revert freed s. induction n as [|n IH]; intros freed s Hs Hd Hn; simpl.
  { wp. split; [done|]. destruct (ss_completions _); [done|simpl in *; lia]. }
  wp. destruct (ss_completions (p_source (s_pools s))) as [|c rest] eqn:Hc; wp; [done|].
  unfold upd_source, upd_pools. wp.
  set (s1 := set_s_pools _ s).
  assert (pinv E (set_reads (zip c.1.1 c.1.2 ++ gh_reads g) g) s1) as Hs1.
  { apply pinv_source; [done|]. apply reader_inv_pop; [done|apply Hs]. }
  pose proof (ri_len _ _ _ _ _ (pi_readers _ _ _ Hs)) as Hlen. rewrite Hc in Hlen.
  apply Forall_cons in Hlen as [Hlen _].
  eapply wp_mono; [by apply (wp_drain_one c g s1)|..].
  - intros f s2 [Hs2 [? ? Hdr Hcomp ?]]. apply IH; [done|by rewrite Hdr|].
    rewrite Hcomp. simpl in *. lia.
  - intros e s2 (? & ? & _). done.
Qed.
End Drain.

(** ** Interleavings of the two threads

    The operations in flight on the progress thread and the shared state.  Each
    step holds the source lock, or runs on the caller between the steps of the
    progress thread. *)
Inductive reader_step (E : Env)
    : list (list (BlockKey * nat)) * St → list (list (BlockKey * nat)) * St → Prop :=
  | rs_acquire ops s keys dests key_layout allow_missing claims s' :
      acquire_readers false keys dests key_layout allow_missing s = (Ret (AcqClaims claims), s') →
      reader_step E (ops, s) (claim_reads keys claims :: ops, s')
  | rs_release ops1 op ops2 s success r s' :
      release_readers op.*1 op.*2 success s = (r, s') →
      reader_step E (ops1 ++ op :: ops2, s) (ops1 ++ ops2, s')
  | rs_drain ops s r s' :
      drain_source_completions E (mret tt) s = (r, s') →
      reader_step E (ops, s) (ops, s')
  | rs_claim ops s keys allow_filling r s' :
      acquire_sources E keys allow_filling s = (r, s') → reader_step E (ops, s) (ops, s')
  | rs_retire ops s keys r s' :
      retire_sources E keys s = (r, s') → reader_step E (ops, s) (ops, s').

Section Protocol.
Context (E : Env).

(** The result of a run, from its weakest precondition. *)
Lemma wp_run {A} (m : M St A) Q Ex s r s' : wp m Q Ex s → m s = (r, s') →
  match r with Ret a => Q a s' | Raise e => Ex e s' end.
Proof. unfold wp. intros Hm Heq. rewrite Heq in Hm. by destruct r. Qed.

Lemma pinv_perm_reads g s fl fl' : fl ≡ₚ fl' →
  pinv E (set_reads fl g) s → pinv E (set_reads fl' g) s.
Proof.
  intros Hp [Ha Hb Hc Hd He]. split; try done. simpl in *.
  eapply reader_inv_reads; [..|exact Hd]; try done; [|apply Hd]. unfold reads. by rewrite Hp.
Qed.

Lemma wp_acquire_readers keys dests key_layout allow_missing g s :
  pinv E g s →
  wp (acquire_readers false keys dests key_layout allow_missing)
    (λ res s', match res with
       | AcqRetry => False
       | AcqCaller => s' = s
       | AcqClaims claims =>
           pinv E (set_reads (claim_reads keys claims ++ gh_reads g) g) s' ∧ reads_only s s' ∧
           Forall (claim_good E s keys dests) claims ∧
           (allow_missing = false → length keys = length dests →
              claims.*1.*1 = seq 0 (length keys))
       end) (λ _ _, False) s.
Proof.
  intros Hs. unfold acquire_readers. wp.
  destruct (acquire_scan s 0 keys dests key_layout allow_missing) as [claims|] eqn:Hsc; [|by wp].
  destruct (acquire_scan_good E g s keys dests 0 keys dests key_layout allow_missing claims)
    as [Hgood Hall]; [done..|].
  wp. eapply wp_take_readers; [done|done|exact Hgood|]. intros s1 Hs1 Ho1.
  assert (allow_missing = false → length keys = length dests →
              claims.*1.*1 = seq 0 (length keys)) as Hseq.
  { intros Ha Hlen. destruct (Hall Ha) as [-> ->]. by rewrite Hlen, Nat.min_id. }
  apply (pinv_perm_reads _ _ _ (claim_reads keys claims ++ gh_reads g)) in Hs1; last first.
  { by rewrite <- Permutation_rev. }
  case_decide; unfold upd_source, upd_pools; wp; [done|].
  split_and!; [by apply pinv_operations| |done..].
  transitivity s1; [done|]. split; [done..|by split|]. intros rid r Hr.
  exists (r_source_readers r). by destruct r.
Qed.

Lemma wp_release_readers keys sources success fl g s :
  length keys = length sources → pinv E (set_reads (zip keys sources ++ fl) g) s →
  wp (release_readers keys sources success) (λ _ s', pinv E (set_reads fl g) s' ∧ own s' = own s)
    (λ _ _, False) s.
Proof.
  intros Hlen Hs. unfold release_readers, upd_source, upd_pools. wp. split; [|done].
  apply (pinv_source E (set_reads (zip keys sources ++ fl) g)); [done|].
  eapply reader_inv_reads; [..|apply (pi_readers _ _ _ Hs)]; try done.
  - unfold reads, completed_reads. simpl. rewrite bind_app. simpl. solve_Permutation.
  - simpl. apply Forall_app. split; [apply (ri_len _ _ _ _ _ (pi_readers _ _ _ Hs))|].
    by constructor.
Qed.

Lemma wp_drain g s :
  pinv E g s → p_draining (s_pools s) = false →
  wp (drain_source_completions E (mret tt))
    (λ _ s', pinv E g s' ∧ p_draining (s_pools s') = false ∧
       ss_completions (p_source (s_pools s')) = [])
    (λ e s', overflow e ∧ pinv E g s' ∧ p_draining (s_pools s') = false) s.
Proof.
  intros Hs Hd. unfold drain_source_completions. wp. rewrite Hd. unfold upd_pools. wp.
  apply wp_try_finally.
  eapply wp_mono; [apply (wp_drain_loop E (mret tt) _ false g); try done|..].
  - by destruct Hs; split.
  - intros f s2 [Hs2 Hc]. unfold upd_pools. wp.
    destruct (f && negb _); wp; (split_and!; [by destruct Hs2; split|done..]).
  - intros e s2 [He Hs2]. unfold upd_pools. wp. split_and!; [done|by destruct Hs2; split|done].
Qed.

(** What is owned is not free. *)
Lemma owned_not_free g s key rid l slot :
  pinv E g s → own s !! key = Some rid → (l, slot) ∈ res_slots (s_res s) rid →
  slot ∉ default [] (p_free (s_pools s) !! pool_of l).
Proof.
  intros Hs Hk Hin Hfree. pose proof (si_conserved _ _ _ _ _ (pi_slots _ _ _ Hs) (pool_of l)) as Hp.
  assert (NoDup (seqZ 0 (slot_total E (pool_of l)))) as Hnd by apply NoDup_seqZ.
  rewrite <- Hp in Hnd. apply list.NoDup_app in Hnd as (_ & Hdis & _).
  apply (Hdis slot Hfree). apply elem_of_app. left.
  unfold pslots. apply list_elem_of_fmap. exists (l, slot). split; [done|].
  apply list_elem_of_filter. split; [done|]. rewrite (slots_of_delete _ _ _ _ Hk). set_solver.
Qed.
End Protocol.

(** a reader is served only published sources: each claim names the
    residency its record owns, ready and not retiring, and the descriptors it
    gets are the slots of exactly the requested labels, in their order.  Unless
    missing blocks are allowed, either every block is claimed or nothing is. *)
Theorem reader_claims_exact (E : Env) keys destinations key_layout allow_missing g s :
  pinv E g s →
  wp (acquire_readers false keys destinations key_layout allow_missing)
    (λ res s', match res with
       | AcqRetry => False
       | AcqCaller => s' = s
       | AcqClaims claims =>
           Forall (claim_good E s keys destinations) claims ∧
           (allow_missing = false → length keys = length destinations →
              claims.*1.*1 = seq 0 (length keys)) ∧
           pinv E (set_reads (claim_reads keys claims ++ gh_reads g) g) s'
       end) (λ _ _, False) s.
Proof.
  intros Hs. eapply wp_mono; [by apply wp_acquire_readers| |done].
  intros [| |claims] s'; try done. intros (? & ? & ? & ?). done.
Qed.
(** The invariant along every interleaving. *)
Lemma reader_step_inv E ops s ops' s' cl :
  reader_step E (ops, s) (ops', s') → pinv E (mkGhost [] (mjoin ops) cl []) s →
  ∃ cl', pinv E (mkGhost [] (mjoin ops') cl' []) s'.
Proof.
  set (g := mkGhost [] (mjoin ops) cl []).
  intros Hstep Hs. inversion Hstep as [? ? keys dests kl am claims ? Hrun|ops1 op ops2 ? ok r ? Hrun|
    ? ? r ? Hrun|? ? keys fill r ? Hrun|? ? keys r ? Hrun]; subst.
  - destruct (wp_run _ _ _ _ _ _ (wp_acquire_readers E keys dests kl am g s Hs) Hrun) as [Hp _].
    by exists cl.
  - exists cl. assert (pinv E (set_reads (zip op.*1 op.*2 ++ mjoin (ops1 ++ ops2)) g) s) as Hs'.
    { eapply (pinv_perm_reads E g); [|exact Hs]. rewrite zip_fst_snd. simpl.
      rewrite !join_app. simpl. solve_Permutation. }
    pose proof (wp_run _ _ _ _ _ _ (wp_release_readers E op.*1 op.*2 ok _ g s
      ltac:(by rewrite !length_fmap) Hs') Hrun) as Hp. by destruct r as [u|e]; [destruct Hp|].
  - exists cl. destruct (p_draining (s_pools s)) eqn:Hd.
    + unfold drain_source_completions, gets, mbind, M_bind in Hrun. rewrite Hd in Hrun.
      by injection Hrun as <- <-.
    + pose proof (wp_run _ _ _ _ _ _ (wp_drain E g s Hs Hd) Hrun) as Hp.
      by destruct r; [destruct Hp|destruct Hp as (_ & Hp & _)].
  - pose proof (wp_run _ _ _ _ _ _ (wp_acquire_sources E keys fill g s Hs) Hrun) as Hp.
    destruct r as [src|e]; [|done]. destruct Hp as [Hp _]. by eexists.
  - pose proof (wp_run _ _ _ _ _ _ (wp_retire_sources E keys g s Hs) Hrun) as Hp.
    exists cl. by destruct r; destruct Hp.
Qed.

