(* ===== verification/PoolsAlloc.v ===== *)
(** * Allocation and eviction

    [_allocate_slots] of [src/src/kvcr/backends/local_dram_pools.py], proved
    against the interface [EvictionDecider] of the core's eviction decision. *)

From Stdlib Require Import ZArith Lia.
From S2P Require Import Prelude PyFloat Types PolicyRuntime Layout State CoreBase Pools PoolsInv PoolsOps PoolsThm PoolsReaders.

(** A victim: its key, the residency its record owns and the slots of it. *)
Notation Victim := (BlockKey * nat * list (label * Z))%type (only parsing).
Definition chosen (s : St) (v : Victim) : Prop :=
  own s !! v.1.1 = Some v.1.2 ∧
  ∃ r, s_res s !! v.1.2 = Some r ∧ can_evict r = true ∧ r_slots r = v.2.
Definition live_keys (s : St) : gset BlockKey := dom (q_live (p_evictable (s_pools s))).

(** The promise of the core's [_decide_eviction] to the allocator.  It may start
    moving the block elsewhere, and readers may come and go meanwhile; victims
    already selected stay eligible, so does this one when it is to be dropped,
    and no new candidate appears. *)
Class EvictionDecider (E : Env)
    (decide_eviction : BlockMeta → CacheTier → float → M St (PlacementDecision * bool)) : Prop :=
  decide_ok : ∀ g (victims : list Victim) key rid sl meta deadline s,
    pinv E g s → Forall (chosen s) ((key, rid, sl) :: victims) → block_key meta = key →
    wp (decide_eviction meta LOCAL_G2 deadline)
      (λ res s', left_ok E g s s' ∧ Forall (chosen s') victims ∧
         (res.2 = false → res.1.1 ≠ KEEP → chosen s' (key, rid, sl)) ∧
         live_keys s' ⊆ live_keys s)
      (λ _ _, False) s.

(** Without a G3 tier the decision is the policy's alone. *)
Lemma chosen_view s s' v : same_view s s' → chosen s v → chosen s' v.
Proof. intros [Ho Hr _ _]. unfold chosen. by rewrite Ho, Hr. Qed.

Lemma quiet_decide_eviction E meta source Err : quiet (policy_decide_eviction E meta source) Err.
Proof.
  intros s. unfold wp, policy_decide_eviction, log_call, modify, mbind, M_bind, mret, M_ret.
  by split.
Qed.

#[export] Instance plain_decider E : EvictionDecider E (core_decide_eviction E None).
Proof.
  intros g victims key rid sl meta deadline s Hs Hf _. unfold core_decide_eviction.
  apply wp_bind. eapply (wp_quiet _ (λ _, False)); [apply quiet_decide_eviction| |by intros ? ? []].
  intros d s' Hv. wp.
  assert (Forall (chosen s') ((key, rid, sl) :: victims)) as Hf'.
  { eapply list.Forall_impl; [exact Hf|]. intros v. by apply chosen_view. }
  unfold live_keys. rewrite (sv_pools _ _ Hv).
  split_and!; [|by inversion Hf'|by inversion Hf'|done].
  split; [|by apply same_view_handles]. exists g. by rewrite <- Hv.
Qed.

(** The progress thread starts reads while the policy runs. *)
Record ReadRequest := mkReadRequest {
  rq_keys : list BlockKey; rq_destinations : list (list TransferRef);
  rq_key_layout : list label; rq_allow_missing : bool }.
Definition decide_while_reading (E : Env) (requests : list ReadRequest)
    (meta : BlockMeta) (source : CacheTier) (deadline : float)
    : M St (PlacementDecision * bool) :=
  for_each requests (λ q, acquire_readers false (rq_keys q) (rq_destinations q)
    (rq_key_layout q) (rq_allow_missing q) ;; mret tt) ;;
  core_decide_eviction E None meta source deadline.

Lemma chosen_reads s s' v : reads_only s s' → chosen s v → chosen s' v.
Proof.
  intros [Ho _ _ Hr] (Hk & r & Hr' & Hev & Hsl). split; [by rewrite Ho|].
  destruct (Hr _ _ Hr') as [n Hn]. by exists (r_set_readers n r).
Qed.

#[export] Instance reading_decider E requests :
  EvictionDecider E (decide_while_reading E requests).
Proof.
  intros g victims key rid sl meta deadline s Hs Hf Hm. unfold decide_while_reading.
  apply wp_bind.
  eapply (wp_for_each requests _ (λ _ s', ∃ fl, pinv E (set_reads fl g) s' ∧ reads_only s s')).
  - exists (gh_reads g). rewrite set_reads_id. split; [done|reflexivity].
  - intros q rest s1 (fl & Hs1 & Hr1). apply wp_bind.
    eapply wp_mono; [by eapply wp_acquire_readers| |done].
    intros [| |claims] s2 Hres; [done|subst; wp; by exists fl|].
    destruct Hres as (Hs2 & Hr2 & _). wp. eexists. split; [exact Hs2|by transitivity s1].
  - intros s1 (fl & Hs1 & Hr1).
    assert (Forall (chosen s1) ((key, rid, sl) :: victims)) as Hf1.
    { eapply list.Forall_impl; [exact Hf|]. intros v. by apply chosen_reads. }
    eapply wp_mono; [by apply (plain_decider E (set_reads fl g) victims key rid sl)| |done].
    intros d s2 ([(g2 & [Hh He Hc] & Hp) Hl] & Hv & Hk & Hlive). split_and!; try done.
    + split; [by exists g2|]. transitivity s1; [|done]. apply calm_handles, Hr1.
    + unfold live_keys in *. by rewrite (ro_queue _ _ Hr1) in Hlive.
Qed.

(** ** Selection of victims *)

Definition victim_slots (vs : list Victim) : list (label * Z) := vs ≫= snd.

Lemma set_ents_id g : set_ents (gh_ents g) g = g.
Proof. by destruct g. Qed.

Lemma pinv_evictable E g s q ents :
  pinv E g s → queue_wf q ents → dom (q_live q) = dom (q_live (p_evictable (s_pools s))) →
  pinv E (set_ents ents g) (set_s_pools (set_p_evictable q (s_pools s)) s).
Proof.
  intros [Ha Hb [Hw Hl Hu Hc] Hd He] Hq Hdom. split; try done. simpl. split; [done| |done|].
  - intros k Hk%elem_of_dom. rewrite Hdom in Hk. by apply Hl, elem_of_dom.
  - intros p. rewrite Hc. by rewrite (queued_ext _ _ _ Hdom).
Qed.

Lemma wp_close_candidates E c g Q Ex s :
  pinv E (set_ents (c_skipped c ++ gh_ents g) g) s →
  (∀ s', pinv E g s' → own s' = own s → s_res s' = s_res s → live_keys s' = live_keys s →
     p_free (s_pools s') = p_free (s_pools s) → calm s s' → Q tt s') →
  wp (close_candidates c) Q Ex s.
Proof.
  intros Hs HQ. unfold close_candidates, upd_pools. wp.
  assert (dom (q_live (cand_close (p_evictable (s_pools s)) c)) =
    dom (q_live (p_evictable (s_pools s)))) as Hd by (unfold cand_close; by rewrite restore_live).
  apply HQ; try done. rewrite <- (set_ents_id g).
  apply (pinv_evictable E (set_ents (c_skipped c ++ gh_ents g) g)); [done| |done].
  apply queue_wf_close, (qi_wf _ _ _ _ _ _ (pi_queue _ _ _ Hs)).
Qed.

Lemma pinv_capacity E g s v : pinv E g s →
  pinv E g (set_s_pools (set_p_capacity_key v (s_pools s)) s).
Proof. by intros []. Qed.

(** [short() = []] means that every requirement is met. *)
Definition covered (required : list (string * Z)) (freed : string → Z) (s : St) : Prop :=
  Forall (λ x : string * Z, x.2 <= free_len (p_free (s_pools s)) x.1 + freed x.1)%Z required.
Lemma short_nil required freed s : short required freed s = [] →
  covered required (λ p, default 0%Z (freed !! p)) s.
Proof.
  unfold short, covered. intros Hn%fmap_nil_inv. apply list.Forall_forall. intros [p n] Hin. simpl.
  apply Z.nlt_ge. intros Hlt.
  assert ((p, n) ∈ filter (λ '(name, count), (default 0 (free_count s name) +
    default 0 (freed !! name) < count)%Z) required) as Hx; [|rewrite Hn in Hx; set_solver].
  apply list_elem_of_filter. split; [|done]. unfold free_count, free_len in *.
  destruct (p_free (s_pools s) !! p); simpl in *; lia.
Qed.

Section Select.
Context (E : Env) (decide_eviction : BlockMeta → CacheTier → float → M St (PlacementDecision * bool))
  `{!EvictionDecider E decide_eviction}.

Definition selected_ok (g : Ghost) (required : list (string * Z)) (s0 : St)
    (res : SelectResult) (s : St) : Prop :=
  left_ok E g s0 s ∧
  match res with
  | Selected victims => ∃ vs : list Victim, victims = vs.*1 ∧ Forall (chosen s) vs ∧
      NoDup (vs.*1.*1) ∧ covered required (pool_count (victim_slots vs)) s
  | _ => True
  end.

Lemma selected_ok_trans g g' required s s' res s'' :
  gle g g' → handles_le s s' → selected_ok g' required s' res s'' → selected_ok g required s res s''.
Proof. intros Hg Hh [Hl Hr]. split; [by eapply left_ok_trans|done]. Qed.

(** Leaving the loop closes the generator. *)
Lemma wp_finish required c (vs : list Victim) freed g s :
  pinv E (set_ents (c_skipped c ++ gh_ents g) g) s →
  Forall (chosen s) vs → NoDup (vs.*1.*1) →
  (∀ p, default 0%Z (freed !! p) = pool_count (victim_slots vs) p) →
  short required freed s = [] →
  wp (close_candidates c ;; mret (Selected vs.*1)) (selected_ok g required s) (λ _ _, False) s.
Proof.
  intros Hs Hch Hnd Hfreed Hshort. apply wp_bind. eapply wp_close_candidates; [exact Hs|].
  intros s' Hs' Ho Hr _ Hf Hc. wp. split; [split; [by exists g|by apply calm_handles]|].
  exists vs. split_and!; [done| |done|].
  - eapply list.Forall_impl; [exact Hch|]. intros v. unfold chosen. by rewrite Ho, Hr.
  - apply short_nil in Hshort. unfold covered in *. rewrite Hf.
    eapply list.Forall_impl; [exact Hshort|]. intros [p k]. simpl. by rewrite Hfreed.
Qed.

(** The ghost state of a suspended generator, after a call. *)
Lemma resuspend g g' c : gle (set_ents (c_skipped c ++ gh_ents g) g) g' →
  gle g (set_ents (gh_ents g) g') ∧
  g' = set_ents (c_skipped c ++ gh_ents (set_ents (gh_ents g) g')) (set_ents (gh_ents g) g').
Proof. intros [Hh He Hc]. simpl in *. split; [by split|]. rewrite <- He. by destruct g'. Qed.

Lemma victim_slots_snoc vs (v : Victim) p :
  pool_count (victim_slots (vs ++ [v])) p = (pool_count (victim_slots vs) p + pool_count v.2 p)%Z.
Proof.
  unfold victim_slots. rewrite bind_app. simpl. by rewrite app_nil_r, pool_count_app.
Qed.

Lemma wp_select n required protected deadline c (vs : list Victim) freed g s :
  pinv E (set_ents (c_skipped c ++ gh_ents g) g) s →
  Forall (chosen s) vs → NoDup (vs.*1.*1) → (∀ k, k ∈ vs.*1.*1 → k ∈ c_seen c) →
  (∀ p, default 0%Z (freed !! p) = pool_count (victim_slots vs) p) →
  size (live_keys s ∖ c_seen c) < n →
  wp (select_victims E decide_eviction n required protected deadline c (vs.*1) freed)
    (selected_ok g required s) (λ _ _, False) s.
Proof.
  revert c vs freed g s. induction n as [|n IH]; intros c vs freed g s Hs Hch Hnd Hseen Hfreed Hn;
    [lia|].
  simpl. apply wp_bind, wp_gets. case_decide as Hshort; [by eapply wp_finish|].
  wp. pose proof (cand_loop_spec (length (q_heap (p_evictable (s_pools s)))) protected
    (p_evictable (s_pools s)) c (gh_ents g) (le_n _)
    (qi_wf _ _ _ _ _ _ (pi_queue _ _ _ Hs))) as Hnext.
  unfold cand_next. destruct (cand_loop _ _ _ _) as [[[key|] q'] c']; unfold upd_pools; wp.
  2: { destruct Hnext as (Hl & _ & Hwf & _). split; [|done]. split; [|by split].
       exists g. split; [done|]. rewrite <- (set_ents_id g).
       eapply (pinv_evictable E (set_ents (c_skipped c ++ gh_ents g) g)); [done..|]. by rewrite Hl. }
  destruct Hnext as (item & <- & [Hlive Hfresh Hseen' Hsame _ _ _] & Hwf).
  set (s1 := set_s_pools (set_p_evictable q' (s_pools s)) s).
  assert (pinv E (set_ents (c_skipped c' ++ gh_ents g) g) s1) as Hs1.
  { eapply (pinv_evictable E (set_ents (c_skipped c ++ gh_ents g) g)); [done..|]. by rewrite Hsame. }
  assert (handles_le s s1) as Hh1 by (by split).
  assert (live_keys s1 = live_keys s) as Hlk by (unfold live_keys; simpl; by rewrite Hsame).
  assert (e_key item ∈ live_keys s) as Hin by (apply elem_of_dom; by eexists).
  assert (size (live_keys s ∖ c_seen c') < n) as Hn'.
  { rewrite Hseen'. eapply Nat.lt_le_trans; [|apply Nat.lt_succ_r, Hn].
    apply subset_size. set_solver. }
  assert (∀ k, k ∈ vs.*1.*1 → k ∈ c_seen c') as Hseen2 by set_solver.
  assert (Forall (chosen s1) vs) as Hch1 by done.
  destruct (qi_live _ _ _ _ _ _ (pi_queue _ _ _ Hs) (e_key item)) as (rid & r & Hk & Hr & Hev);
    [by eexists|].
  destruct (own_record _ _ _ Hk) as (b & Hb & Hd).
  unfold find_record. wp. change (s_records s1) with (s_records s). rewrite Hb. simpl. rewrite Hd.
  apply wp_bind. eapply wp_get_res; [done|].
  pose proof Hev as Hev'. unfold can_evict in Hev'.
  rewrite !andb_true_iff, !bool_decide_eq_true in Hev'. destruct Hev' as [[[Hst Hcl] _] _].
  rewrite decide_False by (intros [?|?]; done).
  assert (wp (select_victims E decide_eviction n required protected deadline c' vs.*1 freed)
    (selected_ok g required s) (λ _ _, False) s1) as Hcont.
  { eapply wp_mono; [apply IH; try done; by rewrite Hlk| |done].
    intros res s' Hok. by eapply selected_ok_trans. }
  case_decide; [done|]. case_decide; [done|]. apply wp_bind, wp_try_except.
  eapply wp_mono; [eapply (decide_ok _ vs (e_key item) rid (r_slots r)); [exact Hs1| |done]| |done].
  { constructor; [|done]. split; [done|]. by exists r. }
  intros [decision pending] s2 ([(g2 & Hg2 & Hs2) Hh2] & Hch2 & Hkeep & Hlk2). simpl in Hkeep.
  destruct (resuspend _ _ _ Hg2) as [Hgle Heq]. rewrite Heq in Hs2.
  assert (handles_le s s2) as Hh by (by transitivity s1).
  apply wp_bind, wp_gets. case_decide as Hshort2.
  { eapply wp_mono; [by eapply wp_finish| |done]. intros res s' Hok. by eapply selected_ok_trans. }
  assert (size (live_keys s2 ∖ c_seen c') < n) as Hn2.
  { eapply Nat.le_lt_trans; [|exact Hn']. apply subseteq_size. set_solver. }
  destruct pending.
  { apply wp_bind, wp_modify, wp_bind. eapply wp_close_candidates; [by apply pinv_capacity|].
    intros s3 Hs3 _ _ _ _ Hc3. wp. split; [|done]. split; [by eexists|].
    transitivity s2; [done|]. apply calm_handles in Hc3. destruct Hc3. by split. }
  case_decide as Hdec; simpl.
  - eapply wp_mono; [by apply IH| |done]. intros res s' Hok. by eapply selected_ok_trans.
  - change [(e_key item, rid)] with ([(e_key item, rid, r_slots r)].*1). rewrite <- fmap_app.
    eapply wp_mono; [apply IH; try done| |done].
    + apply Forall_app. split; [done|]. constructor; [by apply Hkeep|done].
    + rewrite !fmap_app. apply list.NoDup_app. split_and!; [done| |].
      * intros k Hkv Hkk. apply list_elem_of_singleton in Hkk. set_solver.
      * apply NoDup_singleton.
    + intros k. rewrite !fmap_app, elem_of_app. simpl. rewrite list_elem_of_singleton. set_solver.
    + intros p. rewrite bump_pool_counts, victim_slots_snoc, Hfreed. simpl. lia.
    + intros res s' Hok. by eapply selected_ok_trans.
Qed.
End Select.

(** ** Eviction of the selected victims *)

(** A victim nobody reads and no longer published. *)
Definition doomed (s : St) (v : Victim) : Prop :=
  chosen s v ∧ readers_of s v.1.2 = 0%Z ∧
  ∀ rid, ss_index (p_source (s_pools s)) !! v.1.1 ≠ Some (Some rid).

Section Evict.
Context (E : Env).

Lemma wp_evict_victim key rid sl g Q Ex s :
  pinv E g s → doomed s (key, rid, sl) →
  (∀ s', pinv E g s' → own s' = delete key (own s) → s_res s' = s_res s →
     p_source (s_pools s') = p_source (s_pools s) → calm s s' →
     (∀ p, free_len (p_free (s_pools s')) p =
        free_len (p_free (s_pools s)) p + pool_count sl p)%Z → Q tt s') →
  wp (evict_victim E key rid) Q Ex s.
Proof.
  intros Hs ((Hk & r & Hr & Hev & Hsl) & Hrd & Hix) HQ. simpl in *. subst sl.
  assert (r_source_readers r = 0%Z) as Hrd0 by (unfold readers_of in Hrd; by rewrite Hr in Hrd).
  assert (r_claim_count r = 0%Z) as Hcl.
  { unfold can_evict in Hev. rewrite !andb_true_iff, !bool_decide_eq_true in Hev. tauto. }
  unfold evict_victim. apply wp_bind. eapply wp_get_res; [done|]. apply wp_bind.
  eapply wp_remove_evictable; [done..|]. intros s1 Hs1 Hq1 Hl1 Hu1 _.
  unfold upd_record, find_record. wp.
  assert (is_Some (s_records s1 !! key)) as [b1 Hb1].
  { rewrite <- (qo_own _ _ Hq1) in Hk. destruct (own_record _ _ _ Hk) as (b & ? & _). by eexists. }
  set (s2 := set_s_records _ s1).
  assert (s_records s2 !! key = Some (set_b_local_dram None b1)) as Hb2.
  { unfold s2. simpl. by rewrite lookup_alter_eq, Hb1. }
  rewrite Hb2.
  assert (pinv E (set_held (r_slots r ++ gh_held g) g) s2 ∧ own s2 = delete key (own s)) as [Hs2 Ho2].
  { rewrite <- (qo_own _ _ Hq1). split; [|exact (own_drop s1 key)].
    eapply (pinv_give_up E g s1 s2 key rid r); try done.
    - by rewrite (qo_own _ _ Hq1).
    - by rewrite (qo_res _ _ Hq1).
    - by rewrite (qo_source _ _ Hq1).
    - exact (own_drop s1 key). }
  assert (s_res s2 = s_res s) as Hr2 by apply (qo_res _ _ Hq1).
  assert (p_source (s_pools s2) = p_source (s_pools s)) as Hp2 by apply (qo_source _ _ Hq1).
  assert (p_free (s_pools s2) = p_free (s_pools s)) as Hf2 by apply (qo_free _ _ Hq1).
  assert (calm s s2) as Hc2.
  { transitivity s1; [by apply calm_queue|]. by split. }
  clearbody s2. wp. wp_skip s3 Hv3. wp. wp_skip s4 Hv4. wp. wp_skip s5 Hv5. wp.
  assert (same_view s2 s5) as Hv by (transitivity s4; [by transitivity s3|done]).
  clear Hv3 Hv4 Hv5. pose proof (calm_view _ _ Hv) as Hc5. pose proof Hs2 as Hs5.
  rewrite Hv in Hs5. destruct Hv as [Ho5 Hr5 Hn5 Hp5].
  eapply wp_free_slots; [apply (pi_slots _ _ _ Hs5)|]. intros free' Hf' Hlen. apply HQ; simpl.
  - rewrite <- (set_held_id g). destruct Hs5. by split.
  - etransitivity; [exact Ho5|done].
  - by rewrite Hr5.
  - by rewrite Hp5.
  - transitivity s2; [done|]. transitivity s5; [done|by split].
  - intros p. by rewrite Hlen, Hp5, Hf2.
Qed.

Lemma wp_evict_victims (vs : list Victim) g Q Ex s :
  pinv E g s → Forall (doomed s) vs → NoDup (vs.*1.*1) →
  (∀ s', pinv E g s' → calm s s' →
     own s' = foldr (λ k o, delete k o) (own s) (rev (vs.*1.*1)) → s_res s' = s_res s →
     p_source (s_pools s') = p_source (s_pools s) →
     (∀ p, free_len (p_free (s_pools s')) p =
        free_len (p_free (s_pools s)) p + pool_count (victim_slots vs) p)%Z → Q tt s') →
  wp (for_each (vs.*1) (λ '((key, rid) : BlockKey * nat), evict_victim E key rid)) Q Ex s.
Proof.
  revert s Q. induction vs as [|[[key rid] sl] vs IH]; intros s Q Hs Hd Hnd HQ; simpl.
  { wp. apply HQ; try done. intros p. unfold pool_count. simpl. lia. }
  apply Forall_cons in Hd as [Hd Hds]. apply NoDup_cons in Hnd as [Hni Hnd]. simpl in *.
  apply wp_bind. eapply wp_evict_victim; [done..|].
  intros s1 Hs1 Ho1 Hr1 Hp1 Hc1 Hl1. apply IH; [done| |done|].
  - apply list.Forall_forall. intros [[k' rid'] sl'] Hin. rewrite list.Forall_forall in Hds.
    destruct (Hds _ Hin) as ((Hk & Hres) & Hrd & Hix). simpl in *. split_and!.
    + split; simpl; [|by rewrite Hr1]. rewrite Ho1, lookup_delete_ne; [done|].
      intros ->. apply Hni. apply list_elem_of_fmap. exists (k', rid'). split; [done|].
      apply list_elem_of_fmap. by exists (k', rid', sl').
    + unfold readers_of. simpl. by rewrite Hr1.
    + simpl. by rewrite Hp1.
  - intros s2 Hs2 Hc2 Ho2 Hr2 Hp2 Hl2. apply HQ; [done|by transitivity s1| |congruence..|].
    + rewrite Ho2, Ho1. simpl. by rewrite foldr_app.
    + intros p. rewrite Hl2, Hl1. simpl. rewrite pool_count_app. lia.
Qed.
End Evict.

(** ** [_allocate_slots] *)

Section Allocate.
Context (E : Env).

Lemma wp_retry_unscored g Q Ex s :
  pinv E g s → (∀ s', pinv E g s' → queue_only s s' → Q tt s') →
  (∀ e s', overflow e → pinv E g s' → queue_only s s' → Ex e s') →
  wp (retry_unscored E) Q Ex s.
Proof.
  intros Hs HQ HE. unfold retry_unscored. wp.
  eapply (wp_for_each _ _ (λ rest s', pinv E g s' ∧ queue_only s s' ∧
    ∀ k, k ∈ rest → is_Some (own s !! k))).
  - split_and!; [done|done|]. intros k Hk%elem_of_elements.
    destruct (qi_unscored _ _ _ _ _ _ (pi_queue _ _ _ Hs) k Hk) as (rid & r & Ho & _). by eexists.
  - intros k rest s1 (Hs1 & Hq1 & Hr). destruct (Hr k ltac:(left)) as [rid Hk].
    rewrite <- (qo_own _ _ Hq1) in Hk. destruct (own_record _ _ _ Hk) as (b & Hb & _).
    eapply wp_make_evictable; [done|by eexists|..].
    + intros s2 Hs2 Hq2. split_and!; [done|by transitivity s1|]. intros k' Hk'. apply Hr. by right.
    + intros e s2 He Hs2 Hq2. apply HE; [done..|by transitivity s1].
  - intros s' (? & ? & _). by apply HQ.
Qed.

Lemma free_count_some g s p : pinv E g s → is_Some (env_regions E !! p) →
  free_count s p = Some (free_len (p_free (s_pools s)) p).
Proof.
  intros Hs Hp. apply (si_dom _ _ _ _ _ (pi_slots _ _ _ Hs)) in Hp as [q Hq].
  unfold free_count, free_len. by rewrite Hq.
Qed.

Lemma wp_enough_free required g Q Ex s :
  pinv E g s → Forall (λ x : string * Z, is_Some (env_regions E !! x.1)) required →
  (covered required (λ _, 0%Z) s → Q true s) → Q false s →
  wp (enough_free required) Q Ex s.
Proof.
  intros Hs Hreq. induction Hreq as [|[p n] required Hp _ IH]; intros HT HF; simpl.
  { wp. apply HT. constructor. }
  wp. rewrite (free_count_some g s p) by done. case_decide as Hn; [|by wp].
  apply IH; [|done]. intros Hcov. apply HT. constructor; [simpl; lia|done].
Qed.

Lemma wp_lookup_pools required g (Q : unit → St → Prop) Ex s :
  pinv E g s → Forall (λ x : string * Z, is_Some (env_regions E !! x.1)) required →
  Q tt s → wp (lookup_pools required) Q Ex s.
Proof.
  intros Hs Hreq HQ. unfold lookup_pools. induction Hreq as [|[p n] required Hp _ IH]; simpl; [by wp|].
  wp. rewrite (free_count_some g s p) by done. by wp.
Qed.

(** Meeting the counts of a layout leaves room for each of its pieces. *)
Lemma covered_layout layout freed s :
  covered (required_counts layout) freed s → (∀ p, 0 <= freed p)%Z →
  ∀ p, (pool_count ((λ l, (l, 0%Z)) <$> layout) p <= free_len (p_free (s_pools s)) p + freed p)%Z.
Proof.
  unfold covered, required_counts, pool_counts. rewrite Forall_fmap, list.Forall_forall.
  intros Hc Hf p. set (sl := (λ l, (l, 0%Z)) <$> layout) in *.
  destruct (decide (p ∈ first_occurrences [] (pool_of <$> layout_of sl))) as [Hin|Hni].
  - by apply (Hc p).
  - assert (pool_count sl p = 0%Z) as ->; [|specialize (Hf p); unfold free_len; lia].
    unfold pool_count. destruct (filter _ sl) as [|x r] eqn:Ef; [done|]. exfalso. apply Hni.
    apply first_occurrences_spec. split; [|set_solver].
    assert (x ∈ filter (λ x, pool_of x.1 = p) sl) as [<- Hx]%list_elem_of_filter
      by (rewrite Ef; left).
    unfold layout_of. apply list_elem_of_fmap. eexists; split; [done|].
    apply list_elem_of_fmap. by eexists.
Qed.

Lemma required_pools layout : Forall (λ l, is_Some (env_regions E !! pool_of l)) layout →
  Forall (λ x : string * Z, is_Some (env_regions E !! x.1)) (required_counts layout).
Proof.
  rewrite !list.Forall_forall. intros Hl [p n] Hin.
  unfold required_counts, pool_counts in Hin. apply list_elem_of_fmap in Hin as (q & [= -> ->] & Hin).
  apply first_occurrences_spec in Hin as [Hin _]. apply list_elem_of_fmap in Hin as (l & -> & Hin).
  unfold layout_of in Hin. rewrite <- list_fmap_compose in Hin.
  apply list_elem_of_fmap in Hin as (l' & -> & Hin). by apply Hl.
Qed.

(** Withdrawing the victims from the source index. *)
Lemma wp_withdraw_sources (victims : list (BlockKey * nat)) g Q Ex s :
  pinv E g s →
  (∀ idx, let s' := set_s_pools (set_p_source (set_ss_index idx (p_source (s_pools s)))
       (s_pools s)) s in
     pinv E g s' → (∀ k, k ∈ victims.*1 → idx !! k = None) → Q tt s') →
  wp (for_each victims (λ '(key, _),
    upd_source (λ x, set_ss_index (delete key (ss_index x)) x))) Q Ex s.
Proof.
  intros Hs HQ.
  eapply (wp_for_each _ _ (λ rest s', ∃ idx done',
    s' = set_s_pools (set_p_source (set_ss_index idx (p_source (s_pools s))) (s_pools s)) s ∧
    pinv E g s' ∧ victims = done' ++ rest ∧ ∀ k, k ∈ done'.*1 → idx !! k = None)).
  - exists (ss_index (p_source (s_pools s))), []. split_and!; try done; [|set_solver].
    by destruct s as [????? [[] ????????] ????????????].
  - intros [key rid] rest s1 (idx & done' & -> & Hs1 & -> & Hd). unfold upd_source, upd_pools. wp.
    exists (delete key idx), (done' ++ [(key, rid)]). rewrite <- app_assoc.
    split_and!; [done| |done|].
    + rewrite <- (set_reads_id g). apply pinv_source; [done|].
      apply (reader_inv_unpublish E _ _ _ _ key), Hs1.
    + intros k. rewrite fmap_app, elem_of_app. intros [Hk|Hk%list_elem_of_singleton].
      * rewrite lookup_delete. case_decide; auto.
      * simpl in Hk. subst. apply lookup_delete_eq.
  - intros s1 (idx & done' & -> & Hs1 & -> & Hd). rewrite app_nil_r in *. by apply HQ.
Qed.
End Allocate.

(** What an allocation leaves: the slots it returns are in the caller's hands. *)
Definition allocated (E : Env) (g : Ghost) (layout : list label)
    (res : option (list (label * Z)) * list BlockKey * bool) (s s' : St) : Prop :=
  handles_le s s' ∧
  match res with
  | (Some locations, evicted, pending) =>
      locations.*1 = layout ∧ pending = false ∧ NoDup evicted ∧
      pinv_ext E (set_held (locations ++ gh_held g) g) s' ∧
      ∀ k, k ∈ evicted → own s' !! k = None
  | (None, evicted, _) => evicted = [] ∧ pinv_ext E g s'
  end.

Section AllocateThm.
Context (E : Env) (decide_eviction : BlockMeta → CacheTier → float → M St (PlacementDecision * bool))
  `{!EvictionDecider E decide_eviction}.

(** Taking the slots once there are enough of them. *)
Lemma wp_take_allocated layout evicted g0 g s0 s Ex :
  gle g0 g → handles_le s0 s → pinv E g s → NoDup evicted → (∀ k, k ∈ evicted → own s !! k = None) →
  (∀ p, pool_count ((λ l, (l, 0%Z)) <$> layout) p <= free_len (p_free (s_pools s)) p)%Z →
  wp (locations ← take_slots layout; mret (Some locations, evicted, false))
    (λ res, allocated E g0 layout res s0) Ex s.
Proof.
  intros Hg Hh Hs Hnd Hev Hlen. apply wp_bind.
  eapply wp_take_slots; [apply (pi_slots _ _ _ Hs)|done|].
  intros free' locs Hl Hf. wp. split; [by destruct Hh|]. split_and!; try done.
  exists (set_held (locs ++ gh_held g) g). split; [|by apply pinv_free].
  destruct Hg as [Hh' He Hc]. split; simpl; [by rewrite Hh'|done..].
Qed.

(** The second half: the victims are selected and free of readers, or not. *)
Lemma wp_evict_and_take layout (vs : list Victim) g0 g s0 s Ex :
  gle g0 g → handles_le s0 s → pinv E g s → Forall (chosen s) vs → NoDup (vs.*1.*1) →
  covered (required_counts layout) (pool_count (victim_slots vs)) s →
  wp (busy ← gets (λ s, existsb (λ '(_, rid), negb (readers_of s rid =? 0)%Z) (vs.*1));
      if (busy : bool) then mret (None, [], false)
      else
        for_each (vs.*1) (λ '(key, _),
          upd_source (λ x, set_ss_index (delete key (ss_index x)) x)) ;;
        for_each (vs.*1) (λ '((key, rid) : BlockKey * nat), evict_victim E key rid) ;;
        locations ← take_slots layout;
        mret (Some locations, vs.*1.*1, false))
    (λ res, allocated E g0 layout res s0) Ex s.
Proof.
  intros Hg Hh Hs Hch Hnd Hcov. wp.
  destruct (existsb _ (vs.*1)) eqn:Hbusy; wp; [split; [done|]; split; [done|by exists g]|].
  assert (∀ v, v ∈ vs → readers_of s v.1.2 = 0%Z) as Hidle.
  { intros v Hv. destruct (Z.eqb_spec (readers_of s v.1.2) 0) as [|Hne]; [done|].
    assert (existsb (λ '(_, rid), negb (readers_of s rid =? 0)%Z) (vs.*1) = true) as Ht;
      [|congruence].
    apply existsb_exists. exists v.1. split; [|destruct v as [[k rid] sl]; simpl in *; by
      rewrite (proj2 (Z.eqb_neq _ _) Hne)]. apply list_elem_of_In, list_elem_of_fmap. by exists v. }
  eapply wp_withdraw_sources; [done|]. intros idx s1 Hs1 Hidx. apply wp_bind.
  eapply (wp_evict_victims E vs g); [done| |done|].
  - apply list.Forall_forall. intros v Hv. rewrite list.Forall_forall in Hch. split_and!.
    + apply Hch, Hv.
    + by apply Hidle.
    + intros rid. simpl. rewrite Hidx; [done|]. apply list_elem_of_fmap. exists v.1.
      split; [done|]. apply list_elem_of_fmap. by exists v.
  - intros s2 Hs2 Hc2 Ho2 _ _ Hlen. eapply wp_take_allocated; [done| |done|done| |].
    + transitivity s; [done|]. apply calm_handles in Hc2. by destruct Hc2.
    + intros k Hk. rewrite Ho2. rewrite Permutation_rev in Hk. clear -Hk.
      induction (rev (vs.*1.*1)) as [|x l IH]; [set_solver|]. simpl. rewrite lookup_delete.
      case_decide; [done|]. apply IH. set_solver.
    + intros p. rewrite Hlen. simpl. apply covered_layout; [done|].
      intros q. apply pool_count_nonneg.
Qed.

End AllocateThm.
