(* ===== verification/PoolsAdmit.v ===== *)
(** * Construction, admission, publication and recovery of residencies

    The initial state of [_LocalDramPools], giving slots to a new residency,
    [source_refs] and [_publish_source], and [adopt_recovery_slots], which makes
    the allocator agree with recovered records. *)

From Stdlib Require Import ZArith Lia.
From S2P Require Import Prelude PyFloat Types PolicyRuntime Layout State CoreBase Pools PoolsInv PoolsOps PoolsThm PoolsReaders PoolsAlloc.

(** ** Descriptors and publication *)

Section Publish.
Context (E : Env).

(** Caching descriptors of an unpublished residency, or the complete tuple. *)
Lemma reader_inv_set_refs o res src fl rid r f :
  reader_inv E o res src fl → res !! rid = Some r → refs_ok E (r_set_refs f r) →
  (∃ d, r_refs r = RefsDict d) ∨ f = RefsTuple (descriptors_of E (r_slots r)) →
  reader_inv E o (alter (r_set_refs f) rid res) src fl.
Proof.
  intros Hrd Hr Hf Hcase. pose proof Hrd as [Hl Ho Hc Ha Href Hi]. split; try done.
  - intros k rid' r' Hk. rewrite lookup_alter. case_decide; [|eauto]. subst. rewrite Hr.
    intros [= <-]. simpl. eauto.
  - intros rid' r'. rewrite lookup_alter. case_decide; [|eauto]. subst. rewrite Hr.
    by intros [= <-].
  - intros k rid' Hix. destruct (Hi _ _ Hix) as (He & Hk & r' & Hr' & H1 & H2 & H3 & H4).
    split_and!; [done..|]. rewrite lookup_alter. case_decide; [|by exists r']. subst.
    assert (r' = r) as -> by congruence. rewrite Hr. exists (r_set_refs f r). split_and!; try done.
    destruct Hcase as [[d Hd]|Hcase]; [congruence|by subst f].
Qed.
Lemma pinv_set_refs g s rid r f :
  pinv E g s → s_res s !! rid = Some r → refs_ok E (r_set_refs f r) →
  (∃ d, r_refs r = RefsDict d) ∨ f = RefsTuple (descriptors_of E (r_slots r)) →
  pinv E g (set_s_res (alter (r_set_refs f) rid (s_res s)) s).
Proof.
  intros [Hh Hsl Hq Hrd Hci] Hr Hf Hcase. split; simpl.
  - by apply heap_inv_alter.
  - by apply slots_inv_alter.
  - by apply queue_inv_alter.
  - by eapply reader_inv_set_refs.
  - by apply claim_inv_alter.
Qed.

(** [source_refs] answers with the descriptors of the pieces asked for. *)
Lemma wp_source_refs rid indices g Q Ex s r :
  pinv E g s → s_res s !! rid = Some r → Forall (λ i, i < length (r_slots r)) indices →
  (∀ s' r', pinv E g s' → own s' = own s → calm s s' → s_res s' !! rid = Some r' →
     (∃ f, r' = r_set_refs f r) →
     Q (omap (λ i, descriptors_of E (r_slots r) !! i) indices) s') →
  wp (source_refs E rid indices) Q Ex s.
Proof.
  intros Hs Hr Hi HQ. unfold source_refs.
  eapply (wp_fold_each _ indices [] (λ acc rest s', ∃ f, pinv E g s' ∧ own s' = own s ∧
    calm s s' ∧ s_res s' !! rid = Some (r_set_refs f r) ∧
    Forall (λ i, i < length (r_slots r)) rest ∧
    acc ++ omap (λ i, descriptors_of E (r_slots r) !! i) rest =
      omap (λ i, descriptors_of E (r_slots r) !! i) indices)).
  - exists (r_refs r). split_and!; try done. by destruct r.
  - clear Hs HQ Hi. intros acc i rest s1 (f & Hs1 & Ho & Hc & Hr1 & Hi & Heq).
    apply Forall_cons in Hi as [Hlt Hi].
    destruct (lookup_lt_is_Some_2 _ _ Hlt) as [[l slot] Hslot].
    assert (descriptors_of E (r_slots r) !! i = Some (descriptor E l slot)) as Hd.
    { rewrite descriptors_lookup, Hslot. done. }
    simpl in Heq. rewrite Hd in Heq.
    pose proof (ri_refs _ _ _ _ _ (pi_readers _ _ _ Hs1) _ _ Hr1) as Hok. unfold refs_ok in Hok.
    simpl in Hok. apply wp_bind. eapply wp_get_res; [done|]. simpl.
    destruct f as [d|t].
    + destruct (d !! i) as [ref|] eqn:Hdi; wp.
      * exists (RefsDict d). rewrite (Hok _ _ Hdi) in Hd. injection Hd as ->.
        rewrite <- app_assoc. done.
      * rewrite Hslot. unfold upd_res. wp. exists (RefsDict (<[ i := descriptor E l slot ]> d)).
        simpl. split_and!; try done.
        -- eapply pinv_set_refs; [done|done| |left; by eexists]. unfold refs_ok. simpl.
           intros j ref. rewrite lookup_insert. case_decide; [|apply Hok]. by intros [= <-]; subst.
        -- transitivity s1; [done|]. split; try done. simpl. by rewrite dom_alter_L.
        -- by rewrite lookup_alter_eq, Hr1.
        -- by rewrite <- app_assoc.
    + subst t. rewrite Hd. wp. exists (RefsTuple (descriptors_of E (r_slots r))).
      by rewrite <- app_assoc.
  - intros acc s' (f & Hs' & Ho & Hc & Hr' & _ & Heq). rewrite app_nil_r in Heq. subst acc.
    eapply HQ; [done..|]. by exists f.
Qed.

Lemma omap_seq_id {A} (l : list A) : omap (λ i, l !! i) (seq 0 (length l)) = l.
Proof.
  cut (∀ pre, omap (λ i, (pre ++ l) !! i) (seq (length pre) (length l)) = l).
  { intros H. apply (H []). }
  induction l as [|x l IH]; intros pre; simpl; [done|].
  rewrite lookup_app_r, Nat.sub_diag by lia. simpl. f_equal.
  specialize (IH (pre ++ [x])). rewrite <- app_assoc, length_app in IH. simpl in IH.
  by rewrite Nat.add_1_r in IH.
Qed.

(** [_publish_source] with the default descriptors. *)
Lemma wp_publish_source key rid r g (Q : unit → St → Prop) Ex s :
  pinv E g s → own s !! key = Some rid → s_res s !! rid = Some r →
  (∀ s', pinv E g s' → own s' = own s → calm s s' →
     (env_framework_control E = true → pending_nonempty r = false → r_state r = READY →
      r_retire_on_release r = false →
      ss_index (p_source (s_pools s')) !! key = Some (Some rid)) → Q tt s') →
  wp (publish_source E key rid None) Q Ex s.
Proof.
  intros Hs Hk Hr HQ. unfold publish_source. apply wp_bind. eapply wp_get_res; [done|].
  destruct (negb (env_framework_control E) || pending_nonempty r) eqn:Hskip.
  { wp. apply HQ; try done. intros He Hp. by rewrite He, Hp in Hskip. }
  apply orb_false_iff in Hskip as [Hfw%negb_false_iff Hpend].
  apply wp_bind.
  match goal with |- wp _ ?Q _ _ => assert (∀ s1 f, pinv E g s1 → own s1 = own s → calm s s1 →
    s_res s1 !! rid = Some (r_set_refs f r) → Q (descriptors_of E (r_slots r)) s1) as Hrest end.
  { intros s1 f Hs1 Ho1 Hc1 Hr1. apply wp_bind. eapply wp_get_res; [done|]. simpl.
    destruct (bool_decide (r_state r = READY) && negb (r_retire_on_release r)) eqn:Hb; last first.
    { wp. apply HQ; try done. intros _ _ Hst Hret. by rewrite Hst, Hret, bool_decide_true in Hb. }
    apply andb_true_iff in Hb as [Hst%bool_decide_eq_true Hret%negb_true_iff].
    unfold upd_res, upd_source, upd_pools. wp.
    assert (pinv E g (set_s_res (alter (r_set_refs (RefsTuple (descriptors_of E (r_slots r)))) rid
      (s_res s1)) s1)) as Hs2 by (eapply pinv_set_refs; [done|done|done|by right]).
    apply HQ.
    - rewrite <- (set_reads_id g). apply pinv_source; [done|].
      apply reader_inv_publish; [|apply Hs2]. split_and!; [done|change (own s1 !! key = Some rid); by rewrite Ho1|].
      exists (r_set_refs (RefsTuple (descriptors_of E (r_slots r))) r). simpl.
      by rewrite lookup_alter_eq, Hr1.
    - done.
    - transitivity s1; [done|]. split; try done. simpl. by rewrite dom_alter_L.
    - intros. simpl. apply lookup_insert_eq. }
  destruct (refs_nonempty (r_refs r)).
  - eapply wp_source_refs; [done|done| |].
    { apply list.Forall_forall. intros i. rewrite elem_of_seq. lia. }
    intros s1 r1 Hs1 Ho1 Hc1 Hr1 [f ->].
    assert (length (r_slots r) = length (descriptors_of E (r_slots r))) as ->
      by (unfold descriptors_of; by rewrite length_fmap).
    rewrite omap_seq_id. by eapply Hrest.
  - apply wp_ret, (Hrest s (r_refs r)); try done. by destruct r.
Qed.
End Publish.

(** ** Construction *)

(** The state in which the pools of an instance start. *)
Definition initial_state (p : PoolState) : St :=
  mkSt ∅ ∅ 0 ∅ 0 p (mkG3State [] queue_init 0 ∅ ∅ ∅) empty_dram ∅ false 0 ∅ ∅ [] 1 1 ∅ empty_remote [] [] [] 0.

Definition apart (x y : Z * Z) : Prop := (x.2 <= y.1 ∨ y.2 <= x.1)%Z.

#[export] Instance range_le_total : Total range_le.
Proof. unfold range_le. intros [a b] [c d]. simpl. lia. Qed.
#[export] Instance range_le_trans : Transitive range_le.
Proof. unfold range_le. intros [a b] [c d] [e f]. simpl. lia. Qed.

Lemma adjacent_apart l : StronglySorted range_le l → adjacent_overlap l = false →
  StronglySorted apart l.
Proof.
  induction 1 as [|[a e] l Hs IH Hf]; intros Ho; [constructor|].
  destruct l as [|[a' e'] l]; [repeat constructor|].
  simpl in Ho. apply orb_false_iff in Ho as [Ho%bool_decide_eq_false Hrest].
  constructor; [by apply IH|]. constructor; [left; simpl; lia|].
  inversion Hs as [|? ? _ Hf']; subst. eapply list.Forall_impl; [exact Hf'|].
  intros [s' f'] Hr. left. unfold range_le in Hr. simpl in *. lia.
Qed.

Lemma build_regions_spec pools layouts regions :
  pools.*1.*1 = layouts.*1 → build_regions pools layouts = Ret regions →
  regions.*1 = layouts.*1 ∧
  Forall (λ x : string * (Z * Z * Z), 0 < x.2.1.1 ∧ 0 < x.2.1.2 ∧ x.2.1.2 / x.2.2 ≠ 0)%Z regions.
Proof.
  revert layouts regions. induction pools as [|[[name a] len] pools IH];
    intros [|[name' size] layouts] regions Hn Hb; simplify_eq/=; [by split|].
  repeat case_decide; simplify_eq. destruct (build_regions pools layouts) as [rest|] eqn:Er;
    simplify_eq/=. injection Hb as <-. destruct (IH layouts rest) as [Hn' Hf]; [done..|].
  split; [simpl; f_equal; exact Hn'|]. constructor; [simpl; lia|done].
Qed.

Lemma pinv_initial E regions :
  env_regions E = list_to_map regions → NoDup regions.*1 →
  pinv E ghost0 (initial_state (pools_state regions)).
Proof.
  intros HE Hnd.
  assert (∀ p, p_free (pools_state regions) !! p =
    (λ x : Z * Z * Z, seqZ 0 (x.1.2 / x.2)) <$> env_regions E !! p) as Hfree.
  { intros p. rewrite HE. simpl. clear -Hnd. induction regions as [|[n [[a l] z]] regions IH]; [done|].
    apply NoDup_cons in Hnd as [_ Hnd]. simpl. rewrite !lookup_insert. case_decide; [done|auto]. }
  split; simpl.
  - split; try done; intros k *; unfold own; simpl; rewrite ?omap_empty, ?lookup_empty; done.
  - split.
    + intros p. rewrite Hfree. by rewrite fmap_is_Some.
    + intros p. rewrite Hfree. unfold own, slots_of, slot_total. simpl.
      rewrite omap_empty, map_to_list_empty. simpl.
      destruct (env_regions E !! p) as [[[a l] z]|]; simpl; [by rewrite app_nil_r|done].
  - split; [apply queue_wf_init|..].
    + intros k [e He]. change (q_live _) with (∅ : gmap BlockKey qentry) in He.
      by rewrite lookup_empty in He.
    + set_solver.
    + intros p. unfold own. simpl. by rewrite omap_empty.
  - split; simpl.
    + constructor.
    + set_solver.
    + intros k rid r Hk. unfold own in Hk. simpl in Hk. by rewrite omap_empty in Hk.
    + intros k rid. rewrite lookup_empty. set_solver.
    + intros rid r Hr. by rewrite lookup_empty in Hr.
    + intros k rid Hk. by rewrite lookup_empty in Hk.
  - split; simpl.
    + unfold claimants. rewrite map_to_list_empty. set_solver.
    + intros k rid r Hk. unfold own in Hk. simpl in Hk. by rewrite omap_empty in Hk.
    + intros h [x Hx]. by rewrite lookup_empty in Hx.
Qed.

(** A configuration the pools accept puts them on disjoint address ranges,
    each with room for all of its slots, and the state they start in has every
    slot of every pool free exactly once. *)
Theorem pools_init_partition E pools layouts backend regions p :
  pools_init pools layouts backend = Ret (regions, p) → NoDup layouts.*1 →
  env_regions E = list_to_map regions →
  (∀ i j ri rj, i ≠ j → region_ranges regions !! i = Some ri →
     region_ranges regions !! j = Some rj → apart ri rj) ∧
  Forall (λ '(_, (address, length, size)), ∀ slot : Z, (0 < size)%Z →
     (0 <= slot < length / size)%Z →
     (address <= address + slot * size ∧ address + slot * size + size <= address + length)%Z)
    regions ∧
  pinv E ghost0 (initial_state p).
Proof.
  unfold pools_init. case_decide as Hn; [done|]. case_decide; [done|].
  destruct (build_regions pools layouts) as [rs|] eqn:Hb; [|done]. simpl.
  destruct (adjacent_overlap _) eqn:Ho; [done|]. intros [= -> <-] Hnd HE.
  destruct (build_regions_spec _ _ _ Hn Hb) as [Hnames _]. split_and!.
  - assert (StronglySorted apart (region_ranges regions)) as Hs.
    { eapply (StronglySorted_perm_sym apart); [unfold apart; tauto|apply (merge_sort_Permutation range_le)|].
      apply adjacent_apart; [apply StronglySorted_merge_sort; apply _|exact Ho]. }
    intros i j ri rj Hne Hi Hj. destruct (decide (i < j)) as [Hlt|Hge].
    + eapply (StronglySorted_lookup apart); [exact Hs|exact Hlt|done..].
    + assert (apart rj ri) as Ha; [|unfold apart in *; tauto].
      eapply (StronglySorted_lookup apart); [exact Hs|assert (j < i) as Hlt by lia; exact Hlt|done..].
  - apply list.Forall_forall. intros [name [[a len] size]] _ slot Hsz Hslot.
    assert (size * (len / size) <= len)%Z by (by apply Z.mul_div_le). nia.
  - apply pinv_initial; [done|]. by rewrite Hnames.
Qed.

(** ** Admission *)

Section Admit.
Context (E : Env).
Implicit Types (o : gmap BlockKey nat).

Lemma own_set s key rid : is_Some (s_records s !! key) →
  omap b_local_dram (alter (set_b_local_dram (Some rid)) key (s_records s)) =
  <[ key := rid ]> (own s).
Proof.
  intros [b Hb]. apply map_eq. intros k. unfold own. rewrite lookup_omap, lookup_insert, lookup_alter.
  case_decide; subst; [by rewrite Hb|by rewrite lookup_omap].
Qed.

(** A record takes a new residency made of slots its caller holds. *)
Lemma pinv_admit g s s' key r held :
  pinv E (set_held (r_slots r ++ held) g) s → own s !! key = None →
  r_claim_count r = 0%Z → r_source_readers r = 0%Z → index_ok r → refs_ok E r →
  own s' = <[ key := s_next_res s ]> (own s) →
  s_res s' = <[ s_next_res s := r ]> (s_res s) → s_next_res s' = S (s_next_res s) →
  s_pools s' = s_pools s → pinv E (set_held held g) s'.
Proof.
  intros [Hh Hsl Hq Hrd Hci] Hk Hcl Hr0 Hix Href Ho Hres Hn Hp. simpl in *.
  set (rid := s_next_res s) in *.
  assert (∀ k rid', own s !! k = Some rid' → rid' ≠ rid) as Hne.
  { intros k rid' Hk' ->. destruct (hi_alloc _ _ _ Hh _ _ Hk') as [r' Hr'].
    pose proof (hi_fresh _ _ _ Hh rid (le_n _)). congruence. }
  assert (∀ (o : gmap BlockKey nat), (∀ k rid', o !! k = Some rid' → rid' ≠ rid) →
    slots_of o (<[ rid := r ]> (s_res s)) = slots_of o (s_res s)) as Hext.
  { intros o Ho'. apply slots_of_ext. intros k rid' Hk'. unfold res_slots.
    by rewrite lookup_insert_ne by (symmetry; eauto). }
  assert (∀ k, evictable (own s) (s_res s) k →
    evictable (<[ key := rid ]> (own s)) (<[ rid := r ]> (s_res s)) k) as Hev.
  { intros k (rid' & r' & Hk' & Hr' & Hc). exists rid', r'. rewrite !lookup_insert_ne; try done.
    - symmetry. eauto.
    - intros ->. congruence. }
  split; rewrite ?Ho, ?Hres, ?Hn, ?Hp; simpl.
  - destruct Hh as [Ha Hf Hi Hj]. split.
    + intros k rid'. rewrite lookup_insert. case_decide.
      * intros [= <-]. rewrite lookup_insert_eq. by eexists.
      * intros Hk'. rewrite lookup_insert_ne by (symmetry; eauto). eauto.
    + intros rid' Hr. rewrite lookup_insert_ne by lia. apply Hf. lia.
    + intros rid' r'. rewrite lookup_insert. case_decide; [by intros [= <-]|eauto].
    + intros k k' rid'. rewrite !lookup_insert. repeat case_decide; subst; intros H1 H2;
        simplify_eq; try done; [by destruct (Hne _ _ H2)|by destruct (Hne _ _ H1)|eauto].
  - destruct Hsl as [Hd Hc]. split; [done|]. intros p. rewrite <- (Hc p).
    rewrite slots_of_insert, (Hext (own s)) by done.
    unfold res_slots. rewrite lookup_insert_eq, !pslots_app. solve_Permutation.
  - destruct Hq as [Hw Hl Hu Hc]. split; [done|auto..|].
    intros p. rewrite Hc. f_equal.
    assert (queued (p_evictable (s_pools s)) (<[ key := rid ]> (own s)) =
      queued (p_evictable (s_pools s)) (own s)) as ->.
    { apply map_eq. intros k. rewrite !queued_lookup, lookup_insert. repeat case_decide; subst; try done.
      exfalso. match goal with H : _ ∈ dom _ |- _ => apply elem_of_dom in H end.
      destruct (Hl _ ltac:(done)) as (? & ? & ? & _). congruence. }
    symmetry. apply Hext. intros k rid'. rewrite queued_lookup. case_decide; [eauto|done].
  - destruct Hrd as [Hlen Hro Hc Ha Hrf Hi]. split; try done.
    + intros k rid' Hin. rewrite lookup_insert_ne; [auto|]. intros ->. apply Hro in Hin. congruence.
    + intros k rid' r'. rewrite !lookup_insert. case_decide.
      * intros [= <-]. rewrite decide_True by done. intros [= <-]. rewrite Hr0. symmetry.
        apply occ_zero. intros Hin%Hro. congruence.
      * intros Hk'. rewrite decide_False by (symmetry; eauto). eauto.
    + intros rid' r'. rewrite lookup_insert. case_decide; [by intros [= <-]|eauto].
    + intros k rid' Hidx. destruct (Hi _ _ Hidx) as (He & Hk' & r' & Hr' & Hrest).
      split_and!; [done|rewrite lookup_insert_ne; [done|]; intros ->; congruence|].
      exists r'. rewrite lookup_insert_ne by (symmetry; eauto). done.
  - destruct Hci as [Hco Hc Hnx]. split; try done.
    + intros k rid' Hin. rewrite lookup_insert_ne; [auto|]. intros ->. apply Hco in Hin. congruence.
    + intros k rid' r'. rewrite !lookup_insert. case_decide.
      * intros [= <-]. rewrite decide_True by done. intros [= <-]. rewrite Hcl. symmetry.
        apply occ_zero. intros Hin%Hco. congruence.
      * intros Hk'. rewrite decide_False by (symmetry; eauto). eauto.
Qed.
End Admit.

(** ** Recovery *)

Section Recovery.
Context (E : Env).

(** The slots seen so far: distinct, in range, and exactly those occupied. *)
Record occupied_by (occupied : gmap string (gset Z)) (l : list (label * Z)) : Prop := {
  ob_dom : ∀ p, is_Some (occupied !! p) ↔ is_Some (env_regions E !! p);
  ob_known : Forall (λ x : label * Z, is_Some (env_regions E !! pool_of x.1)) l;
  ob_nodup : ∀ p, NoDup (pslots p l);
  ob_range : ∀ p, Forall (λ slot, 0 <= slot < slot_total E p)%Z (pslots p l);
  ob_set : ∀ p slot, slot ∈ default ∅ (occupied !! p) ↔ slot ∈ pslots p l }.

Lemma occupy_spec slots labels occupied occupied' l :
  occupied_by occupied l → occupy E slots labels occupied = Some occupied' →
  occupied_by occupied' (slots ++ l).
Proof.
  revert labels occupied l. induction slots as [|[lb slot] slots IH]; intros labels occupied l Ho;
    simpl; [by intros [= <-]|].
  destruct (partition_colon lb) as [[pool sep] part] eqn:Hpc.
  assert (pool_of lb = pool) as Hpool by (unfold pool_of; by rewrite Hpc).
  destruct (env_regions E !! pool) as [[[a len] size]|] eqn:Hreg; [|done].
  destruct (occupied !! pool) as [taken|] eqn:Htk; [|done].
  case_decide; [done|]. case_decide as Hrange; [done|]. case_decide as Hfresh; [done|].
  intros Hocc. apply (IH _ _ ((lb, slot) :: l)) in Hocc.
  - destruct Hocc as [H1 H2 H3 H4 H5].
    assert (slots ++ (lb, slot) :: l ≡ₚ (lb, slot) :: slots ++ l) as Hp
      by (by rewrite <- Permutation_middle).
    split; [done|by rewrite <- Hp|..]; intros p; [by rewrite <- Hp|by rewrite <- Hp|].
    intros x. by rewrite <- Hp.
  - destruct Ho as [Hd Hk Hnd Hr Hs].
    assert (slot ∉ pslots pool l) as Hni.
    { rewrite <- Hs, Htk. done. }
    split.
    + intros p. rewrite lookup_insert. case_decide; [|apply Hd]. subst. rewrite Hreg. split; by eexists.
    + constructor; [|done]. simpl. rewrite Hpool, Hreg. by eexists.
    + intros p. rewrite pslots_cons. case_decide; [|done]. constructor; [|done]. congruence.
    + intros p. rewrite pslots_cons. case_decide; [|done]. constructor; [|done].
      unfold slot_total. assert (p = pool) as -> by congruence. rewrite Hreg.
      destruct (decide (0 <= slot < len / size)%Z); [done|tauto].
    + intros p x. rewrite lookup_insert, pslots_cons. rewrite Hpool. case_decide; subst; simpl.
      * rewrite elem_of_union, elem_of_singleton, elem_of_cons, <- Hs, Htk. done.
      * apply Hs.
Qed.

Lemma occupied_by_perm occupied l l' : l ≡ₚ l' → occupied_by occupied l → occupied_by occupied l'.
Proof.
  intros Hp [H1 H2 H3 H4 H5]. split; [done|by rewrite <- Hp|..]; intros p;
    [by rewrite <- Hp|by rewrite <- Hp|]. intros x. by rewrite <- Hp.
Qed.

(** The free rows are the others. *)
Lemma occupied_free occupied l p : occupied_by occupied l →
  filter (λ slot, slot ∉ default ∅ (occupied !! p)) (seqZ 0 (slot_total E p)) ++ pslots p l
    ≡ₚ seqZ 0 (slot_total E p).
Proof.
  intros [_ _ Hnd Hr Hs]. apply NoDup_Permutation.
  - apply list.NoDup_app. split_and!; [apply NoDup_filter, NoDup_seqZ| |done].
    intros x [Hx _]%list_elem_of_filter Hin. by apply Hx, Hs.
  - apply NoDup_seqZ.
  - intros x. rewrite elem_of_app, list_elem_of_filter, Hs, elem_of_seqZ. split.
    + intros [[_ ?]|Hin]; [done|]. specialize (Hr p). rewrite list.Forall_forall in Hr.
      specialize (Hr _ Hin). lia.
    + intros Hx. destruct (decide (x ∈ pslots p l)); tauto.
Qed.

(** Everything but the slots: what recovered records satisfy before adoption. *)
Record recovered (s : St) : Prop := {
  rc_heap : heap_inv (own s) (s_res s) (s_next_res s);
  rc_queue : queue_inv (own s) (s_res s) (p_evictable (s_pools s))
    (p_evictable_slots (s_pools s)) (p_unscored (s_pools s)) [];
  rc_readers : reader_inv E (own s) (s_res s) (p_source (s_pools s)) [];
  rc_claims : claim_inv (own s) (s_res s) (p_claims (s_pools s))
    (p_next_handle (s_pools s)) [] }.

Lemma recovered_publish s key rid r :
  recovered s → own s !! key = Some rid → s_res s !! rid = Some r →
  env_framework_control E = true → pending_nonempty r = false → r_state r = READY →
  r_retire_on_release r = false → (∃ d, r_refs r = RefsDict d) →
  recovered (set_s_pools (set_p_source (set_ss_index (<[ key := Some rid ]> (ss_index (p_source
    (s_pools s)))) (p_source (s_pools s))) (s_pools s))
    (set_s_res (alter (r_set_refs (RefsTuple (descriptors_of E (r_slots r)))) rid (s_res s)) s)).
Proof.
  intros [Hh Hq Hrd Hci] Hk Hr Hfw Hpend Hst Hret [d Hd]. split; simpl.
  - by apply heap_inv_alter.
  - by apply queue_inv_alter.
  - apply reader_inv_publish.
    + split_and!; [done..|]. eexists. rewrite lookup_alter_eq, Hr. simpl. done.
    + eapply reader_inv_set_refs; [done|done|done|by right].
  - by apply claim_inv_alter.
Qed.

(** Adopting one residency changes its caches and publishes it. *)
Lemma wp_adopt_residency occupied key rid l (Q : gmap string (gset Z) → St → Prop) s :
  recovered s → own s !! key = Some rid →
  ss_index (p_source (s_pools s)) !! key = None → occupied_by occupied l →
  (∀ occupied' s', recovered s' → own s' = own s → s_records s' = s_records s →
     (∀ o, slots_of o (s_res s') = slots_of o (s_res s)) →
     (∀ k, k ≠ key → ss_index (p_source (s_pools s')) !! k = ss_index (p_source (s_pools s)) !! k) →
     occupied_by occupied' (res_slots (s_res s) rid ++ l) → Q occupied' s') →
  wp (adopt_residency E occupied key rid) Q (λ _ _, True) s.
Proof.
  intros Hs Hk Hidx Ho HQ. destruct (hi_alloc _ _ _ (rc_heap _ Hs) _ _ Hk) as [r Hr].
  unfold adopt_residency. apply wp_bind. eapply wp_get_res; [done|].
  case_decide as Hbad; [by wp|]. destruct (occupy E (r_slots r) [] occupied) as [occ'|] eqn:Hocc; [|by wp].
  assert (occupied_by occ' (res_slots (s_res s) rid ++ l)) as Ho'.
  { unfold res_slots. rewrite Hr. by eapply occupy_spec. }
  apply wp_bind. unfold lift, wp at 1. destruct (validate_expected_layout E (r_key_layout r)); [|done].
  case_decide; [by wp|]. unfold upd_res. wp.
  set (f := λ r, prepare_label_index (r_set_refs (RefsDict ∅) r)).
  assert (∀ r, r_slots (f r) = r_slots r ∧ r_state (f r) = r_state r ∧
    r_pending_labels (f r) = r_pending_labels r ∧ r_claim_count (f r) = r_claim_count r ∧
    r_retire_on_release (f r) = r_retire_on_release r ∧
    r_source_readers (f r) = r_source_readers r ∧ r_refs (f r) = RefsDict ∅ ∧
    can_evict (f r) = can_evict r ∧ (index_ok r → index_ok (f r))) as Hf.
  { intros r0. unfold f, prepare_label_index. simpl.
    destruct (r_indices_by_label r0) eqn:Hd; split_and!; try done.
    intros _ d [= <-]. done. }
  assert (∀ k rid', ss_index (p_source (s_pools s)) !! k = Some (Some rid') → rid' ≠ rid) as Hnp.
  { intros k rid' Hi ->. destruct (ri_index _ _ _ _ _ (rc_readers _ Hs) _ _ Hi) as (_ & Hk' & _).
    pose proof (hi_inj _ _ _ (rc_heap _ Hs) _ _ _ Hk Hk'). congruence. }
  set (s1 := set_s_res _ s).
  assert (recovered s1) as Hs1.
  { destruct Hs as [Hh Hq Hrd Hci]. split; simpl.
    - apply heap_inv_alter; [|done]. intros r0. apply Hf.
    - apply queue_inv_alter; [intros r0; apply Hf| |done].
      intros k r0 _ _ _. destruct (Hf r0) as (_ & _ & _ & _ & _ & _ & _ & -> & _). done.
    - apply reader_inv_alter; [intros r0; apply Hf| | |done].
      + intros r0 _. unfold refs_ok. destruct (Hf r0) as (_ & _ & _ & _ & _ & _ & -> & _). done.
      + intros k rid' Hi (He & Hk' & r' & Hr' & Hrest). split_and!; [done..|]. exists r'.
        rewrite lookup_alter_ne; [done|]. intros <-. by eapply Hnp.
    - apply claim_inv_alter; [|done]. intros r0. apply Hf. }
  assert (s_res s1 !! rid = Some (f r)) as Hr1 by (simpl; by rewrite lookup_alter_eq, Hr).
  assert (∀ o, slots_of o (s_res s1) = slots_of o (s_res s)) as Hsl
    by (intros o; apply slots_of_alter; intros r0; apply Hf).
  destruct (Hf r) as (F1 & F2 & F3 & F4 & F5 & F6 & F7 & _).
  unfold publish_source. wp. eapply wp_get_res; [exact Hr1|].
  destruct (negb (env_framework_control E) || pending_nonempty (f r)) eqn:Hskip; wp; [by apply HQ|].
  apply orb_false_iff in Hskip as [Hfw%negb_false_iff Hpend].
  rewrite F7. simpl. rewrite bool_decide_false by (by intros []). wp.
  eapply wp_get_res; [exact Hr1|].
  destruct (bool_decide (r_state (f r) = READY) && negb (r_retire_on_release (f r))) eqn:Hb; wp;
    [|by apply HQ].
  apply andb_true_iff in Hb as [Hst%bool_decide_eq_true Hret%negb_true_iff].
  unfold upd_res, upd_source, upd_pools. wp. simpl. apply HQ; simpl; try done.
  - exact (recovered_publish s1 key rid (f r) Hs1 Hk Hr1 Hfw Hpend Hst Hret (ex_intro _ _ F7)).
  - intros o. etransitivity; [|apply Hsl]. by apply slots_of_alter.
  - intros k Hne. by rewrite lookup_insert_ne.
Qed.

(** Adoption visits the records in any order. *)
Lemma wp_adopt_recovery_slots rs s :
  rs ≡ₚ map_to_list (s_records s) → recovered s → ss_index (p_source (s_pools s)) = ∅ →
  wp (adopt_recovery_slots E rs)
    (λ _ s', pinv E ghost0 s' ∧ own s' = own s) (λ _ _, True) s.
Proof.
  intros Hrs Hs Hix. unfold adopt_recovery_slots. apply wp_bind.
  eapply (wp_fold_each _ rs _ (λ occupied rest s', ∃ done' l,
    rs = done' ++ rest ∧ recovered s' ∧ own s' = own s ∧
    s_records s' = s_records s ∧
    (∀ o, slots_of o (s_res s') = slots_of o (s_res s)) ∧
    (∀ k, k ∉ done'.*1 → ss_index (p_source (s_pools s')) !! k = None) ∧
    occupied_by occupied l ∧
    l ≡ₚ omap (λ x, pair x.1 <$> b_local_dram x.2) done' ≫= λ x, res_slots (s_res s) x.2)).
  - exists [], []. split_and!; try done; [by intros k _; rewrite Hix, lookup_empty|].
    split; [|done|intros p; apply NoDup_nil_2|done|]; intros p.
    + by rewrite lookup_fmap, fmap_is_Some.
    + intros x. rewrite lookup_fmap. destruct (env_regions E !! p); simpl; set_solver.
  - intros occupied [key b] rest s1 (done' & l & Heq & Hs1 & Ho & Hrec & Hsl & Hidx & Hob & Hl).
    assert (s_records s !! key = Some b) as Hb.
    { apply elem_of_map_to_list. rewrite <- Hrs, Heq. set_solver. }
    assert (key ∉ done'.*1) as Hnew.
    { pose proof (NoDup_fst_map_to_list (s_records s)) as Hnd. rewrite <- Hrs, Heq, fmap_app in Hnd.
      apply list.NoDup_app in Hnd as (_ & Hd & _). intros Hin. apply (Hd _ Hin). simpl. left. }
    destruct (b_local_dram b) as [rid|] eqn:Hd; last first.
    { wp. exists (done' ++ [(key, b)]), l. rewrite <- app_assoc. split_and!; try done.
      - intros k Hk. apply Hidx. rewrite fmap_app in Hk. set_solver.
      - rewrite omap_app. simpl. rewrite Hd. simpl. by rewrite app_nil_r. }
    assert (own s1 !! key = Some rid) as Hk by (rewrite Ho; unfold own; by rewrite lookup_omap, Hb).
    eapply (wp_adopt_residency occupied key rid l); [done|done|by apply Hidx|done|].
    intros occ' s2 Hs2 Ho2 Hrec2 Hsl2 Hidx2 Hob2.
    exists (done' ++ [(key, b)]), (res_slots (s_res s1) rid ++ l). rewrite <- app_assoc.
    split_and!; try done; try congruence.
    + intros k Hnk. rewrite fmap_app in Hnk. rewrite Hidx2 by set_solver. apply Hidx. set_solver.
    + rewrite omap_app, bind_app. simpl. rewrite Hd. simpl. rewrite app_nil_r, <- Hl.
      assert (res_slots (s_res s1) rid = res_slots (s_res s) rid) as ->.
      { specialize (Hsl {[ key := rid ]}). unfold slots_of in Hsl.
        rewrite map_to_list_singleton in Hsl. simpl in Hsl. by rewrite !app_nil_r in Hsl. }
      solve_Permutation.
  - intros occupied s' (done' & l & Heq & Hs' & Ho & Hrec & Hsl & _ & Hob & Hl).
    rewrite app_nil_r in Heq. subst done'. unfold upd_pools. wp. split; [|exact Ho].
    destruct Hs' as [Hh Hq Hrd Hci]. split; try done. simpl.
    assert (slots_of (own s') (s_res s') ≡ₚ l) as Hall.
    { change (slots_of (own s') (s_res s') ≡ₚ l). rewrite Hsl, Ho, Hl. unfold slots_of, own.
      rewrite map_to_list_omap. by rewrite Hrs. }
    split.
    + intros p. rewrite map_lookup_imap. destruct (env_regions E !! p) as [[[??]?]|]; simpl;
        split; intros [? ?]; try done; by eexists.
    + intros p. change (own (set_s_pools _ s')) with (own s'). rewrite Hall. simpl.
      rewrite app_nil_r, <- (occupied_free _ _ p Hob) at 1.
      rewrite map_lookup_imap. unfold slot_total.
      destruct (env_regions E !! p) as [[[??]?]|]; simpl; [|done]. done.
Qed.

(** C33: when recovery hands over its records, adoption either refuses them or
    leaves every slot accounted for exactly once: the rows the records name are
    theirs alone and every other row is free. *)
Theorem adopt_recovery_slots_exact s :
  recovered s → ss_index (p_source (s_pools s)) = ∅ →
  wp (adopt_recovery_slots E (map_to_list (s_records s)))
    (λ _ s', pinv E ghost0 s' ∧ own s' = own s) (λ _ _, True) s.
Proof. by apply wp_adopt_recovery_slots. Qed.
End Recovery.
