(* ===== verification/PoolsProps.v ===== *)
(** * Pools at work: accounting, and concrete runs

    The capacity that [_reclaimable_slots] reports, the soundness of reader
    claims, and a small instance on which the properties of the pools are
    evaluated. *)

From Stdlib Require Import ZArith Lia.
From S2P Require Import Prelude PyFloat Types PolicyRuntime Layout State CoreBase Pools PoolsInv PoolsOps PoolsThm PoolsReaders PoolsAlloc PoolsAdmit.

(** ** Reclaimable slots *)

(** Slots of the queued residencies that nobody reads. *)
Definition idle_slots (s : St) : list (label * Z) :=
  filter (λ x : BlockKey * nat, readers_of s x.2 = 0%Z)
    (map_to_list (queued (p_evictable (s_pools s)) (own s))) ≫= λ x, res_slots (s_res s) x.2.

Section Reclaimable.
Context (E : Env).

Lemma reclaim_fold s (l : list (BlockKey * nat)) d p :
  Forall (λ x : BlockKey * nat, is_Some (s_res s !! x.2)) l →
  default 0%Z (foldl (λ slots '(key, rid),
    match queue_score (p_evictable (s_pools s)) key, s_res s !! rid with
    | Some _, Some r => bump (-1) (pool_counts (r_slots r)) slots
    | _, _ => slots
    end) d l !! p) =
  (default 0 (d !! p) - pool_count (filter (λ x : BlockKey * nat, x.1 ∈ live_keys s) l ≫=
     λ x, res_slots (s_res s) x.2) p)%Z.
Proof.
  intros Hl. revert d. induction Hl as [|[key rid] l [r Hr] _ IH]; intros d; simpl.
  { unfold pool_count. simpl. lia. }
  rewrite IH, filter_cons. unfold queue_score. simpl in *. rewrite Hr.
  destruct (q_live (p_evictable (s_pools s)) !! key) as [e|] eqn:He; simpl.
  - rewrite decide_True by (apply elem_of_dom; by eexists). simpl.
    assert (res_slots (s_res s) rid = r_slots r) as Hsl by (unfold res_slots; by rewrite Hr).
    rewrite bump_pool_counts, pool_count_app, Hsl. unfold mbind. lia.
  - rewrite decide_False; [done|]. by apply not_elem_of_dom.
Qed.

(** Readers of queued residencies are the active ones. *)
Lemma active_queued g s : pinv E g s →
  filter (λ x : BlockKey * nat, x.1 ∈ live_keys s) (map_to_list (ss_active (p_source (s_pools s))))
  ≡ₚ filter (λ x : BlockKey * nat, readers_of s x.2 ≠ 0%Z)
       (map_to_list (queued (p_evictable (s_pools s)) (own s))).
Proof.
  intros Hs. apply NoDup_Permutation.
  - apply NoDup_filter, NoDup_map_to_list.
  - apply NoDup_filter, NoDup_map_to_list.
  - intros [k rid]. rewrite !list_elem_of_filter, !elem_of_map_to_list, queued_lookup. simpl.
    pose proof (pi_readers _ _ _ Hs) as Hr. rewrite (ri_active _ _ _ _ _ Hr). split.
    + intros [Hlive Hin]. pose proof (ri_own _ _ _ _ _ Hr _ _ Hin) as Hk.
      rewrite decide_True by done. split; [|done]. unfold readers_of.
      destruct (hi_alloc _ _ _ (pi_heap _ _ _ Hs) _ _ Hk) as [r Hres]. rewrite Hres.
      rewrite (ri_count _ _ _ _ _ Hr _ _ _ Hk Hres). apply occ_pos in Hin. lia.
    + case_decide as Hlive; [|by intros [_ ?]]. intros [Hrd Hk]. split; [done|].
      destruct (hi_alloc _ _ _ (pi_heap _ _ _ Hs) _ _ Hk) as [r Hres].
      unfold readers_of in Hrd. rewrite Hres in Hrd. apply occ_pos.
      rewrite <- (ri_count _ _ _ _ _ Hr _ _ _ Hk Hres).
      pose proof (occ_nonneg (k, rid) (reads (p_source (s_pools s)) (gh_reads g))).
      rewrite <- (ri_count _ _ _ _ _ Hr _ _ _ Hk Hres) in *. lia.
Qed.

Lemma filter_partition {A} (P : A → Prop) `{!∀ x, Decision (P x)} (l : list A) :
  l ≡ₚ filter (λ x, ¬ P x) l ++ filter P l.
Proof.
  induction l as [|x l IH]; [done|]. rewrite !filter_cons.
  destruct (decide (P x)).
  - rewrite decide_False by tauto. rewrite <- Permutation_middle. by constructor.
  - rewrite decide_True by done. simpl. by constructor.
Qed.

(** the capacity reported for a pool is exactly its free slots plus the slots
    of the blocks that could be evicted now, those being read left out. *)
Theorem reclaimable_slots_exact g s p :
  pinv E g s → is_Some (env_regions E !! p) →
  ∃ slots, reclaimable_slots s = (Ret slots, s) ∧
    default 0%Z (slots !! p) =
      (free_len (p_free (s_pools s)) p + pool_count (idle_slots s) p)%Z.
Proof.
  intros Hs Hp. unfold reclaimable_slots, gets. eexists. split; [done|].
  rewrite reclaim_fold; last first.
  { apply list.Forall_forall. intros [k rid] Hin%elem_of_map_to_list. simpl.
    apply (ri_active _ _ _ _ _ (pi_readers _ _ _ Hs)) in Hin.
    apply (ri_own _ _ _ _ _ (pi_readers _ _ _ Hs)) in Hin.
    apply (hi_alloc _ _ _ (pi_heap _ _ _ Hs) _ _ Hin). }
  apply (si_dom _ _ _ _ _ (pi_slots _ _ _ Hs)) in Hp as [q Hq].
  rewrite map_lookup_imap, Hq. simpl. unfold free_len. rewrite Hq. simpl.
  rewrite (qi_counts _ _ _ _ _ _ (pi_queue _ _ _ Hs)). unfold slots_of at 1.
  rewrite (filter_partition (λ x : BlockKey * nat, readers_of s x.2 = 0%Z)
    (map_to_list (queued _ _))) at 1.
  rewrite bind_app, pool_count_app. fold (idle_slots s).
  rewrite <- (active_queued g s Hs). lia.
Qed.

End Reclaimable.

(** ** A small instance

    Two slots of sixteen bytes in one pool, the FIFO policy, readers enabled. *)

(** A block is stored, published and ranked. *)
Definition store_ready (E : Env) (key : BlockKey) (layout : list label) : M St unit :=
  locations ← take_slots layout;
  block_record key ;;
  rid ← alloc_res (new_residency locations READY None None);
  upd_record key (set_b_local_dram (Some rid)) ;;
  publish_source E key rid None ;;
  make_evictable E key.

Lemma wp_store_ready E key layout g s :
  pinv E g s → own s !! key = None →
  (∀ p, pool_count ((λ l, (l, 0%Z)) <$> layout) p <= free_len (p_free (s_pools s)) p)%Z →
  wp (store_ready E key layout) (λ _, pinv E g) (λ e s', overflow e ∧ pinv E g s') s.
Proof.
  intros Hs Hk Hlen. unfold store_ready. apply wp_bind.
  eapply wp_take_slots; [apply (pi_slots _ _ _ Hs)|done|]. intros free' locs _ Hf.
  apply (pinv_free E g) in Hf; [|done]. set (s1 := set_s_pools _ s) in *.
  assert (own s1 !! key = None) as Hk1 by done. clearbody s1.
  apply wp_bind.
  assert (∃ s2, wp (block_record key) (λ _ x, x = s2) (λ _ _, False) s1 ∧ same_view s1 s2 ∧
    is_Some (s_records s2 !! key)) as (s2 & Hw & Hv & Hrec).
  { unfold wp, block_record. destruct (s_records s1 !! key) as [b|] eqn:Hb.
    - exists s1. split_and!; [done|done|by eexists].
    - eexists. split_and!; [done| |simpl; rewrite lookup_insert_eq; by eexists]. split; try done.
      apply map_eq. intros k. unfold own. simpl. rewrite !lookup_omap, lookup_insert.
      case_decide; [|done]. subst. by rewrite Hb. }
  eapply wp_mono; [exact Hw| |done]. intros b ? ->.
  apply wp_bind. unfold wp at 1. simpl. apply wp_bind. unfold upd_record. wp.
  set (s3 := set_s_records _ _).
  set (r := new_residency locs READY None None) in *.
  assert (own s3 = <[ key := s_next_res s2 ]> (own s2)) as Ho3.
  { exact (own_set s2 key (s_next_res s2) Hrec). }
  assert (own s2 !! key = None) as Hk2 by (by rewrite (sv_own _ _ Hv)).
  assert (pinv E g s3) as Hs3.
  { rewrite <- (set_held_id g). rewrite Hv in Hf.
    eapply (pinv_admit E g s2 s3 key r); try done. }
  eapply (wp_publish_source E key (s_next_res s2) r g); [done| | |].
  - rewrite Ho3. apply lookup_insert_eq.
  - unfold s3. simpl. apply lookup_insert_eq.
  - intros s4 Hs4 Ho4 _ _. eapply (wp_make_evictable E key g); [done| | |].
    + assert (own s4 !! key = Some (s_next_res s2)) as Hk4 by (rewrite Ho4, Ho3; apply lookup_insert_eq).
      destruct (own_record _ _ _ Hk4) as (b4 & Hb4 & _). by eexists.
    + done.
    + done.
Qed.

Definition demo_regions : list (string * (Z * Z * Z)) := [("a", (4096, 32, 16)%Z)].
Definition demo_env : Env := {|
  env_clock := λ _, fzero; env_policy := FIFOPolicy; env_moves := ∅; env_agent := "w0"; env_backend := "POSIX";
  env_framework_control := true; env_pool_layouts := [("a", 16%Z)];
  env_regions := list_to_map demo_regions; env_sink := None; env_capacity_callback := false;
  env_watermarks := ∅; env_has_g3 := false; env_g3_slot_size := 16; env_g3_fds := [];
  env_g3_bytes_per_file := 0; env_g3_preflight := None; env_operation_timeout_ms := 1000;
  env_abandon_timeout_ms := 1000 |}.
Definition demo_empty : St := initial_state (pools_state demo_regions).
Definition demo_one : St := (store_ready demo_env "k1" ["a"] demo_empty).2.
Definition demo_full : St := (store_ready demo_env "k2" ["a"] demo_one).2.

Lemma demo_empty_ok : pinv demo_env ghost0 demo_empty.
Proof. apply pinv_initial; [done|]. apply NoDup_singleton. Qed.

(** The state after a store, from its invariant. *)
Lemma store_ready_ok E key layout g s :
  pinv E g s → own s !! key = None →
  (∀ p, pool_count ((λ l, (l, 0%Z)) <$> layout) p <= free_len (p_free (s_pools s)) p)%Z →
  pinv E g (store_ready E key layout s).2.
Proof.
  intros Hs Hk Hl. pose proof (wp_store_ready E key layout g s Hs Hk Hl) as Hw. unfold wp in Hw.
  destruct (store_ready E key layout s) as [[[]|e] s']; [done|by destruct Hw].
Qed.

Lemma demo_room s : free_len (p_free (s_pools s)) "a" = 1%Z ∨ free_len (p_free (s_pools s)) "a" = 2%Z →
  ∀ p, (pool_count ((λ l, (l, 0%Z)) <$> ["a"]) p <= free_len (p_free (s_pools s)) p)%Z.
Proof.
  intros Hf p. unfold pool_count. simpl. rewrite filter_cons. case_decide as Hp; simpl in *.
  - change (pool_of "a") with "a" in Hp. subst p. lia.
  - unfold free_len. lia.
Qed.

Lemma demo_one_ok : pinv demo_env ghost0 demo_one.
Proof.
  apply store_ready_ok; [apply demo_empty_ok|reflexivity|]. apply demo_room. right.
  vm_compute. reflexivity.
Qed.
Lemma demo_full_ok : pinv demo_env ghost0 demo_full.
Proof.
  apply store_ready_ok; [apply demo_one_ok|vm_compute; reflexivity|]. apply demo_room. left.
  vm_compute. reflexivity.
Qed.

(** ** Witnesses *)

Lemma run_fst {A} (m : M St A) s r : (m s).1 = r → m s = (r, (m s).2).
Proof. intros <-. by destruct (m s). Qed.

Lemma run_ret {A} (m : M St A) Q Ex s a : wp m Q Ex s → (m s).1 = Ret a → Q a (m s).2.
Proof. unfold wp. intros Hw Hr. destruct (m s) as [r s']. simpl in *. by subst r. Qed.


Definition demo_ref : TransferRef :=
  {| tr_end_point := "peer"; tr_element_index := 7; tr_label := "a"; tr_framework := true |}.
Definition demo_reading : St :=
  (acquire_readers false ["k1"] [[demo_ref]] [] false demo_full).2.


Lemma reader_claims_exact_witness :
  (acquire_readers false ["k1"] [[demo_ref]] [] false demo_full).1 =
    Ret (AcqClaims [(0, 0, [descriptor demo_env "a" 0])]) ∧
  Forall (claim_good demo_env demo_full ["k1"] [[demo_ref]])
    [(0, 0, [descriptor demo_env "a" 0])].
Proof.
  split; [vm_compute; reflexivity|].
  refine (proj1 (run_ret _ _ _ _ (AcqClaims [(0, 0, [descriptor demo_env "a" 0])]) (reader_claims_exact demo_env ["k1"] [[demo_ref]] [] false
    ghost0 demo_full demo_full_ok) _)).
  vm_compute. reflexivity.
Defined.

(** Both blocks can be evicted; one slot of capacity is lost while a read lasts. *)
Lemma reclaimable_slots_exact_witness :
  ∃ slots, reclaimable_slots demo_full = (Ret slots, demo_full) ∧
    default 0%Z (slots !! "a") = 2%Z.
Proof.
  destruct (reclaimable_slots_exact demo_env ghost0 demo_full "a" demo_full_ok) as (slots & Hr & Hs).
  - eexists. vm_compute. reflexivity.
  - exists slots. split; [exact Hr|]. rewrite Hs. vm_compute. reflexivity.
Defined.

Definition demo_claimed : St :=
  (new_public_claim demo_env "k1" 0 None demo_full).2.
Lemma demo_claimed_ok : pinv demo_env ghost0 demo_claimed.
Proof.
  pose proof (wp_new_public_claim demo_env "k1" 0
    (default (new_residency [] FILLING None None) (s_res demo_full !! 0)) None ghost0
    (λ _, pinv demo_env ghost0) (λ _ _, False) demo_full demo_full_ok) as Hw.
  unfold wp, demo_claimed in *.
  assert (∀ P, match new_public_claim demo_env "k1" 0 None demo_full with
    | (Ret _, s') => P s' | (Raise _, _) => False end → P (new_public_claim demo_env "k1" 0 None demo_full).2)
    as Hrun by (intros P; by destruct (new_public_claim _ _ _ _ _) as [[]]).
  apply Hrun, Hw; [vm_compute; reflexivity|vm_compute; reflexivity|vm_compute; discriminate|].
  intros result s' Hp _ _ _ _. exact Hp.
Qed.

(** A handle released twice: the second time it is refused. *)
Lemma release_redeems_once_witness :
  (release demo_env (mret tt) [1; 1]%Z demo_claimed).1 = Ret [(1%Z, true); (1%Z, false)] ∧
  pinv_ext demo_env ghost0 (release demo_env (mret tt) [1; 1]%Z demo_claimed).2.
Proof.
  split; [vm_compute; reflexivity|].
  refine (proj2 (run_ret _ _ _ _ _ (release_redeems_once demo_env (mret tt) [1; 1]%Z ghost0
    demo_claimed demo_claimed_ok _) _)).
  - repeat constructor.
  - vm_compute. reflexivity.
Defined.

Lemma pools_init_partition_witness :
  pools_init [("a", 4096, 32)%Z] [("a", 16%Z)] "UCX" = Ret (demo_regions, pools_state demo_regions) ∧
  pinv demo_env ghost0 (initial_state (pools_state demo_regions)).
Proof.
  split; [vm_compute; reflexivity|].
  refine (proj2 (proj2 (pools_init_partition demo_env [("a", 4096, 32)%Z] [("a", 16%Z)] "UCX"
    demo_regions (pools_state demo_regions) _ _ _))).
  - vm_compute. reflexivity.
  - apply NoDup_singleton.
  - reflexivity.
Defined.

(** A block recovered into slot one leaves slot zero free. *)
Definition demo_recovered : St :=
  set_s_records {[ "k" := set_b_local_dram (Some 0) empty_record ]}
    (set_s_next_res 1 (set_s_res {[ 0 := new_residency [("a", 1%Z)] READY None None ]} demo_empty)).
Lemma demo_recovered_ok : recovered demo_env demo_recovered.
Proof.
  assert (own demo_recovered = {[ "k" := 0 ]}) as Ho by reflexivity.
  pose proof demo_empty_ok as [_ _ Hq Hrd Hci]. split; rewrite ?Ho; simpl.
  - split.
    + intros k rid [<- <-]%lookup_singleton_Some. rewrite lookup_singleton_eq. by eexists.
    + intros rid Hr. rewrite lookup_singleton_ne by lia. done.
    + intros rid r [_ <-]%lookup_singleton_Some. by intros d Hd.
    + intros k k' rid [<- _]%lookup_singleton_Some [<- _]%lookup_singleton_Some. done.
  - split; [apply queue_wf_init|..].
    + intros k [e He]. change (q_live _) with (∅ : gmap BlockKey qentry) in He.
      by rewrite lookup_empty in He.
    + set_solver.
    + intros p. change (queued _ _) with (∅ : gmap BlockKey nat). reflexivity.
  - split; simpl.
    + constructor.
    + set_solver.
    + intros k rid r [<- <-]%lookup_singleton_Some. rewrite lookup_singleton_eq. by intros [= <-].
    + intros k rid. rewrite lookup_empty. set_solver.
    + intros rid r [_ <-]%lookup_singleton_Some. done.
    + intros k rid Hk. by rewrite lookup_empty in Hk.
  - split; simpl.
    + unfold claimants. rewrite map_to_list_empty. set_solver.
    + intros k rid r [<- <-]%lookup_singleton_Some. rewrite lookup_singleton_eq. by intros [= <-].
    + intros h [x Hx]. by rewrite lookup_empty in Hx.
Qed.
Lemma adopt_recovery_slots_exact_witness :
  let m := adopt_recovery_slots demo_env (map_to_list (s_records demo_recovered)) in
  p_free (s_pools (m demo_recovered).2) !! "a" = Some [0%Z] ∧
  pinv demo_env ghost0 (m demo_recovered).2.
Proof.
  split; [vm_compute; reflexivity|].
  refine (proj1 (run_ret _ _ _ _ _ (adopt_recovery_slots_exact demo_env demo_recovered
    demo_recovered_ok eq_refl) _)).
  vm_compute. reflexivity.
Defined.
