(* ===== verification/Journal.v ===== *)
(** * The recovery journal

    [RecoveryJournal] of [src/src/kvcr/service/recovery_journal.py]: a
    one-producer, one-consumer ring of typed keyed frames in shared memory.  A
    [Side] is the journal object of one process, [Shared] the memory both map: the
    three 64-bit cells of the header page and the ring behind it.  Bytes are
    integers below 256. *)

From Stdlib Require Import ZArith Lia.
From S2P Require Import Prelude.

(** ** Bytes *)

Notation bytes := (list Z) (only parsing).
Definition zlen {A} (l : list A) : Z := Z.of_nat (length l).

(** Little-endian encoding in a fixed number of bytes, and back. *)
Fixpoint le (n : nat) (v : Z) : bytes :=
  match n with 0 => [] | S n => (v mod 256)%Z :: le n (v / 256) end.
Fixpoint unle (l : bytes) : Z :=
  match l with [] => 0 | b :: l => b + 256 * unle l end%Z.

(** [m[a:b]] and [m[a:a+len(data)] = data] within the bounds of [m]. *)
Definition slice (a b : Z) (m : bytes) : bytes := take (Z.to_nat (b - a)) (drop (Z.to_nat a) m).
Definition splice (a : Z) (data m : bytes) : bytes :=
  take (Z.to_nat a) m ++ data ++ drop (Z.to_nat a + length data) m.

(** ** Frames *)

Definition ALIGNMENT : Z := 8.
Definition MAX_FRAME_SIZE : Z := 65535.
Definition FRAME_HEADER_SIZE : Z := 6.
Definition RECORD_BLOCK : Z := 1.
Definition RECORD_TYPES : list Z := [RECORD_BLOCK].

(** A frame's type, key and payload. *)
Notation Frame := (Z * bytes * bytes)%type (only parsing).

(** [struct.Struct("<HHH").pack] *)
Definition pack_header (a b c : Z) : result bytes :=
  if decide (Forall (λ v, 0 <= v < 65536)%Z [a; b; c])
  then Ret (le 2 a ++ le 2 b ++ le 2 c)
  else Raise (StructError "ushort format requires 0 <= number <= 65535").
Definition unpack_header (l : bytes) : Z * Z * Z :=
  (unle (take 2 l), unle (take 2 (drop 2 l)), unle (take 2 (drop 4 l))).

Definition frame_size (key payload : bytes) : Z := (FRAME_HEADER_SIZE + zlen key + zlen payload)%Z.
(** [frame_size + (-frame_size % _ALIGNMENT)] *)
Definition stored_size (size : Z) : Z := (size + (- size) mod ALIGNMENT)%Z.

(** [_pack_frame] for a [size] of at least the frame's own. *)
Definition pack_frame (record_type : Z) (key payload : bytes) (size : Z) : result bytes :=
  header ← pack_header (frame_size key payload) record_type (zlen key);
  mret (header ++ key ++ payload ++
        replicate (Z.to_nat (size - frame_size key payload)) 0%Z).

#[global] Arguments unpack_header : simpl never.
#[global] Arguments slice : simpl never.
#[global] Arguments splice : simpl never.

(** ** The shared cells and the journal objects *)

Record Shared := mkShared {
  sh_invalid : Z; sh_published : Z; sh_consumed : Z; sh_ring : bytes }.
Record Side := mkSide {
  jo_mapped : bool;
  jo_published_local : option Z;
  jo_consumed_local : option Z;
  jo_invalid_local : bool }.
Record Jrn := mkJrn { jr_side : Side; jr_sh : Shared }.

(** [__init__] *)
Definition new_side : Side := mkSide true None None false.

Definition set_published_local (v : option Z) (j : Jrn) : Jrn :=
  mkJrn (mkSide (jo_mapped (jr_side j)) v (jo_consumed_local (jr_side j))
    (jo_invalid_local (jr_side j))) (jr_sh j).
Definition set_consumed_local (v : option Z) (j : Jrn) : Jrn :=
  mkJrn (mkSide (jo_mapped (jr_side j)) (jo_published_local (jr_side j)) v
    (jo_invalid_local (jr_side j))) (jr_sh j).
Definition set_invalid_local (v : bool) (j : Jrn) : Jrn :=
  mkJrn (mkSide (jo_mapped (jr_side j)) (jo_published_local (jr_side j))
    (jo_consumed_local (jr_side j)) v) (jr_sh j).

(** [store_release] of a [c_uint64]. *)
Definition u64 (v : Z) : Z := (v mod 2 ^ 64)%Z.
Definition store_published (v : Z) (j : Jrn) : Jrn :=
  mkJrn (jr_side j) (mkShared (sh_invalid (jr_sh j)) (u64 v) (sh_consumed (jr_sh j)) (sh_ring (jr_sh j))).
Definition store_consumed (v : Z) (j : Jrn) : Jrn :=
  mkJrn (jr_side j) (mkShared (sh_invalid (jr_sh j)) (sh_published (jr_sh j)) (u64 v) (sh_ring (jr_sh j))).
Definition store_invalid (v : Z) (j : Jrn) : Jrn :=
  mkJrn (jr_side j) (mkShared (u64 v) (sh_published (jr_sh j)) (sh_consumed (jr_sh j)) (sh_ring (jr_sh j))).
Definition store_ring (v : bytes) (j : Jrn) : Jrn :=
  mkJrn (jr_side j) (mkShared (sh_invalid (jr_sh j)) (sh_published (jr_sh j)) (sh_consumed (jr_sh j)) v).

Definition require_mapping : M Jrn unit :=
  mapped ← gets (λ j, jo_mapped (jr_side j));
  if (mapped : bool) then mret tt else raise (RuntimeError "KVCR pool attachment is closed").

Definition is_invalid : M Jrn bool :=
  require_mapping ;;
  gets (λ j, negb (sh_invalid (jr_sh j) =? 0)%Z).

Definition invalidate_ : M Jrn bool :=
  modify (set_invalid_local true) ;;
  modify (store_invalid 1) ;;
  mret false.
Definition invalidate : M Jrn bool := require_mapping ;; invalidate_.
Definition fail {A} (message : string) : M Jrn A :=
  invalidate_ ;; raise (RecoveryJournalError message).

Definition reset : M Jrn unit :=
  require_mapping ;;
  modify (store_consumed 0) ;;
  modify (store_published 0) ;;
  modify (store_invalid 0) ;;
  modify (set_published_local (Some 0%Z)) ;;
  modify (set_consumed_local (Some 0%Z)) ;;
  modify (set_invalid_local false).

Section Journal.
(** [_capacity]: the ring's size, fixed by the pool's geometry. *)
Context (cap : Z).

Definition valid_cursors (published consumed : Z) : bool :=
  (published mod ALIGNMENT =? 0)%Z && (consumed mod ALIGNMENT =? 0)%Z &&
  (consumed <=? published)%Z && (published <=? consumed + cap)%Z.

(** [_write_ring] and [_read_ring]: one slice, or two when the frame wraps. *)
Definition write_ring (position : Z) (data ring : bytes) : bytes :=
  let first := Z.min (zlen data) (cap - position) in
  let ring := splice position (take (Z.to_nat first) data) ring in
  if decide (first < zlen data)%Z then splice 0 (drop (Z.to_nat first) data) ring else ring.
Definition read_ring (position length : Z) (ring : bytes) : bytes :=
  let first := Z.min length (cap - position) in
  let data := slice position (position + first) ring in
  if decide (first < length)%Z then data ++ slice 0 (length - first) ring else data.

(** [publish] up to the write: the cursor and the packed frame, or a rejection. *)
Definition publish_plan (record_type : Z) (key payload : bytes) : M Jrn (option (Z * bytes)) :=
  require_mapping ;;
  if decide (record_type ∉ RECORD_TYPES) then raise (ValueError "unknown journal record type")
  else
    invalid ← gets (λ j, jo_invalid_local (jr_side j));
    if (invalid : bool) then mret None
    else if decide (frame_size key payload > MAX_FRAME_SIZE)%Z then invalidate_ ;; mret None
    else
      let stored := stored_size (frame_size key payload) in
      local ← gets (λ j, jo_published_local (jr_side j));
      published ← match local with
                  | Some published => mret (Some published)
                  | None =>
                      invalid ← is_invalid;
                      if (invalid : bool) then modify (set_invalid_local true) ;; mret None
                      else gets (λ j, Some (sh_published (jr_sh j)))
                  end;
      match published with
      | None => mret None
      | Some published =>
          consumed ← gets (λ j, sh_consumed (jr_sh j));
          if negb (valid_cursors published consumed) then invalidate_ ;; mret None
          else if decide (stored > cap - (published - consumed))%Z then invalidate_ ;; mret None
          else
            frame ← lift (pack_frame record_type key payload stored);
            mret (Some (published, frame))
      end.

(** The last two statements: the cursor is stored after every byte. *)
Definition publish_commit (published : Z) (frame : bytes) : M Jrn unit :=
  modify (set_published_local (Some (published + zlen frame)%Z)) ;;
  modify (store_published (published + zlen frame)).

Definition publish (record_type : Z) (key payload : bytes) : M Jrn bool :=
  plan ← publish_plan record_type key payload;
  match plan with
  | None => mret false
  | Some (published, frame) =>
      modify (λ j, store_ring (write_ring (published mod cap) frame (sh_ring (jr_sh j))) j) ;;
      publish_commit published frame ;;
      mret true
  end.

(** [read_next] up to the load of the producer's cursor. *)
Definition read_begin : M Jrn (Z * Z) :=
  require_mapping ;;
  invalid ← gets (λ j, jo_invalid_local (jr_side j));
  if (invalid : bool) then raise (RecoveryJournalError "recovery journal is invalid")
  else
    local ← gets (λ j, jo_consumed_local (jr_side j));
    consumed ← match local with
               | Some consumed => mret consumed
               | None =>
                   invalid ← is_invalid;
                   if (invalid : bool)
                   then modify (set_invalid_local true) ;;
                        raise (RecoveryJournalError "recovery journal is invalid")
                   else
                     consumed ← gets (λ j, sh_consumed (jr_sh j));
                     modify (set_consumed_local (Some consumed)) ;;
                     mret consumed
               end;
    published ← gets (λ j, sh_published (jr_sh j));
    mret (consumed, published).

(** [read_next] from there on. *)
Definition read_at (consumed published : Z) : M Jrn (option Frame) :=
  if negb (valid_cursors published consumed) then fail "recovery journal cursor is invalid"
  else if decide (published = consumed) then
    invalid ← is_invalid;
    if (invalid : bool)
    then modify (set_invalid_local true) ;; raise (RecoveryJournalError "recovery journal is invalid")
    else mret None
  else
    ring ← gets (λ j, sh_ring (jr_sh j));
    let position := (consumed mod cap)%Z in
    let '(size, record_type, key_size) :=
      unpack_header (read_ring position FRAME_HEADER_SIZE ring) in
    if decide (size < FRAME_HEADER_SIZE + key_size)%Z then
      fail "journal frame has an invalid key size"
    else if decide (record_type ∉ RECORD_TYPES) then
      fail "journal frame has an unknown type"
    else
      let stored := stored_size size in
      if decide (stored > cap ∨ stored > published - consumed)%Z then
        fail "journal frame exceeds the published bytes"
      else
        let frame := read_ring position stored ring in
        if existsb (λ b, negb (b =? 0)%Z) (drop (Z.to_nat size) frame) then
          fail "journal frame padding is not zero"
        else
          modify (set_consumed_local (Some (consumed + stored)%Z)) ;;
          modify (store_consumed (consumed + stored)) ;;
          let key_end := (FRAME_HEADER_SIZE + key_size)%Z in
          mret (Some (record_type, slice FRAME_HEADER_SIZE key_end frame,
                      slice key_end size frame)).

Definition read_next : M Jrn (option Frame) :=
  cursors ← read_begin;
  read_at cursors.1 cursors.2.

(** [drain]: at most [n] frames. *)
Fixpoint drain (n : nat) : M Jrn (list Frame) :=
  match n with
  | 0 => raise (RuntimeError "out of fuel")
  | S n =>
      record ← read_next;
      match record with
      | None => mret []
      | Some record => rest ← drain n; mret (record :: rest)
      end
  end.
End Journal.

(** ** Encoding of integers *)

Lemma le_length n v : length (le n v) = n.
Proof. revert v. induction n as [|n IH]; intros v; simpl; [done|]. by rewrite IH. Qed.
Lemma unle_le n v : (0 <= v < 256 ^ Z.of_nat n)%Z → unle (le n v) = v.
Proof.
  revert v. induction n as [|n IH]; intros v Hv; simpl; [simpl in Hv; lia|].
  rewrite IH; [pose proof (Z.div_mod v 256 ltac:(lia)); lia|].
  rewrite Nat2Z.inj_succ, Z.pow_succ_r in Hv by lia.
  split; [apply Z.div_pos; lia|]. apply Z.div_lt_upper_bound; lia.
Qed.

Lemma unpack_pack a b c h rest : pack_header a b c = Ret h →
  unpack_header (h ++ rest) = (a, b, c) ∧ length h = 6.
Proof.
  unfold pack_header. case_decide as Hf; [|done]. intros [= <-].
  inversion Hf as [|? ? Ha Hf1]; subst. inversion Hf1 as [|? ? Hb Hf2]; subst.
  inversion Hf2 as [|? ? Hc _]; subst.
  pose proof (unle_le 2 a ltac:(simpl; lia)) as Ea. pose proof (unle_le 2 b ltac:(simpl; lia)) as Eb.
  pose proof (unle_le 2 c ltac:(simpl; lia)) as Ec.
  split; [|done]. unfold unpack_header. by repeat f_equal.
Qed.

Lemma stored_size_bounds n : (n <= stored_size n < n + 8 ∧ stored_size n mod 8 = 0)%Z.
Proof.
  unfold stored_size, ALIGNMENT. pose proof (Z.mod_pos_bound (- n) 8 ltac:(lia)). split; [lia|].
  pose proof (Z.div_mod (- n) 8 ltac:(lia)).
  replace (n + - n mod 8)%Z with (- (- n / 8) * 8)%Z by lia. apply Z.mod_mul. lia.
Qed.

(** ** The ring *)

Section Ring.
Context (cap : Z) (Hcap : (0 < cap)%Z).
Implicit Types (ring data : bytes).

(** The byte a cursor names. *)
Definition cell ring (i : Z) : option Z := ring !! Z.to_nat (i mod cap).
(** [data] lies in the ring from cursor [p]. *)
Definition stored ring (p : Z) data : Prop :=
  ∀ i : nat, i < length data → cell ring (p + Z.of_nat i) = data !! i.

Lemma mod_plus p i : (0 <= i < cap)%Z →
  ((p + i) mod cap = if decide (p mod cap + i < cap) then p mod cap + i
                     else p mod cap + i - cap)%Z.
Proof.
  intros Hi. pose proof (Z.mod_pos_bound p cap Hcap). rewrite <- Z.add_mod_idemp_l by lia.
  case_decide; [apply Z.mod_small; lia|].
  symmetry. apply (Z.mod_unique _ _ 1); lia.
Qed.

Lemma splice_length a data ring : (0 <= a)%Z → (a + zlen data <= zlen ring)%Z →
  length (splice a data ring) = length ring.
Proof.
  unfold splice, zlen. intros Ha Hl. rewrite !length_app, length_take, length_drop. lia.
Qed.
Lemma splice_lookup a data ring (j : nat) : (0 <= a)%Z → (a + zlen data <= zlen ring)%Z →
  splice a data ring !! j =
    if decide (a <= Z.of_nat j < a + zlen data)%Z then data !! (j - Z.to_nat a) else ring !! j.
Proof.
  unfold splice, zlen. intros Ha Hl. case_decide as Hj.
  - rewrite lookup_app_r; rewrite length_take; [|lia].
    rewrite lookup_app_l by lia. f_equal. lia.
  - destruct (decide (Z.of_nat j < a)%Z).
    + rewrite lookup_app_l by (rewrite length_take; lia). apply lookup_take_lt. lia.
    + rewrite lookup_app_r; rewrite length_take; [|lia]. rewrite lookup_app_r by lia.
      rewrite lookup_drop. f_equal. lia.
Qed.

Lemma write_ring_lookup position data ring (j : nat) :
  (0 <= position < cap)%Z → (zlen data <= cap)%Z → zlen ring = cap → (Z.of_nat j < cap)%Z →
  length (write_ring cap position data ring) = length ring ∧
  write_ring cap position data ring !! j =
    if decide (position <= Z.of_nat j < position + zlen data)%Z
    then data !! (j - Z.to_nat position)
    else if decide (Z.of_nat j + cap < position + zlen data)%Z
    then data !! (j + Z.to_nat (cap - position)) else ring !! j.
Proof.
  intros Hp Hd Hr Hj. unfold write_ring. unfold zlen in *.
  set (first := Z.min (Z.of_nat (length data)) (cap - position)).
  assert (zlen (take (Z.to_nat first) data) = first) as Hf.
  { unfold zlen. rewrite length_take. lia. }
  assert (zlen (drop (Z.to_nat first) data) = Z.of_nat (length data) - first)%Z as Hg.
  { unfold zlen. rewrite length_drop. lia. }
  assert (length (splice position (take (Z.to_nat first) data) ring) = length ring) as Hl1
    by (apply splice_length; unfold zlen in *; lia).
  case_decide as Hw.
  - split; [rewrite splice_length; unfold zlen in *; lia|].
    rewrite splice_lookup by (unfold zlen in *; lia). rewrite Hg.
    rewrite splice_lookup by (unfold zlen in *; lia). rewrite Hf.
    repeat case_decide; try lia; rewrite ?lookup_drop, ?lookup_take_lt by lia; try done; f_equal; lia.
  - split; [done|]. rewrite splice_lookup by (unfold zlen in *; lia). rewrite Hf.
    repeat case_decide; try lia; rewrite ?lookup_take_lt by lia; done.
Qed.

(** What is written is there, and the rest of a ring's length behind is kept. *)
Lemma write_ring_stored p data ring :
  (zlen data <= cap)%Z → zlen ring = cap →
  zlen (write_ring cap (p mod cap) data ring) = cap ∧
  stored (write_ring cap (p mod cap) data ring) p data ∧
  ∀ i, (p + zlen data - cap <= i < p)%Z →
    cell (write_ring cap (p mod cap) data ring) i = cell ring i.
Proof.
  intros Hd Hr. pose proof (Z.mod_pos_bound p cap Hcap) as Hp. split_and!.
  - unfold zlen. destruct (write_ring_lookup (p mod cap) data ring 0 Hp Hd Hr) as [-> _]; [lia|done].
  - intros i Hi. unfold cell.
    rewrite mod_plus by (unfold zlen in *; lia).
    destruct (write_ring_lookup (p mod cap) data ring
      (Z.to_nat (if decide (p mod cap + Z.of_nat i < cap)%Z then p mod cap + Z.of_nat i
                 else p mod cap + Z.of_nat i - cap)%Z) Hp Hd Hr) as [_ ->].
    { unfold zlen in *. case_decide; lia. }
    unfold zlen in *. repeat case_decide; try lia; f_equal; lia.
  - intros i Hi. unfold cell.
    assert (i mod cap = if decide (p mod cap + (i - p + cap) < cap) then p mod cap + (i - p + cap)
      else p mod cap + (i - p + cap) - cap)%Z as Him.
    { rewrite <- mod_plus by (unfold zlen in *; lia).
      replace (p + (i - p + cap))%Z with (i + 1 * cap)%Z by lia. by rewrite Z.mod_add by lia. }
    pose proof (Z.mod_pos_bound i cap Hcap).
    destruct (write_ring_lookup (p mod cap) data ring (Z.to_nat (i mod cap)) Hp Hd Hr) as [_ ->]; [lia|].
    unfold zlen in *. rewrite Z2Nat.id by lia.
    repeat case_decide; try lia; done.
Qed.

Lemma stored_app ring p d d' : stored ring p d → stored ring (p + zlen d) d' → stored ring p (d ++ d').
Proof.
  intros H1 H2 i Hi. rewrite length_app in Hi. destruct (decide (i < length d)).
  - rewrite lookup_app_l by done. by apply H1.
  - rewrite lookup_app_r by lia. rewrite <- H2 by lia. f_equal. unfold zlen. lia.
Qed.
Lemma stored_kept ring ring' p q data : (∀ i, (q <= i < p)%Z → cell ring' i = cell ring i) →
  (q <= p - zlen data)%Z → ∀ p', (q <= p')%Z → (p' + zlen data <= p)%Z →
  stored ring p' data → stored ring' p' data.
Proof.
  intros Hc Hq p' H1 H2 Hs i Hi. unfold zlen in *. rewrite Hc by lia. by apply Hs.
Qed.

(** Reading gives back what is stored. *)
Lemma read_ring_stored p data len ring :
  stored ring p data → zlen ring = cap → (0 <= len <= cap)%Z → (len <= zlen data)%Z →
  read_ring cap (p mod cap) len ring = take (Z.to_nat len) data.
Proof.
  intros Hs Hr Hl Hd. pose proof (Z.mod_pos_bound p cap Hcap) as Hp.
  unfold read_ring, slice. set (pos := (p mod cap)%Z) in *.
  set (first := Z.min len (cap - pos)).
  assert (∀ i : nat, (Z.of_nat i < len)%Z → ring !! Z.to_nat ((p + Z.of_nat i) mod cap) = data !! i)
    as Hcell by (intros i Hi; apply Hs; unfold zlen in *; lia).
  apply list_eq. intros i. destruct (decide (Z.of_nat i < len)%Z) as [Hi|Hi].
  - rewrite lookup_take_lt by lia. rewrite <- Hcell by done. rewrite mod_plus by lia. fold pos.
    unfold zlen in *. subst first. case_decide as Hwrap; case_decide as Hin.
    + rewrite lookup_app_l by (rewrite length_take, length_drop; lia).
      rewrite lookup_take_lt, lookup_drop by lia. f_equal. lia.
    + rewrite lookup_app_r; rewrite length_take, length_drop; [|lia].
      rewrite lookup_take_lt, lookup_drop by lia. f_equal. lia.
    + rewrite lookup_take_lt, lookup_drop by lia. f_equal. lia.
    + lia.
  - rewrite (lookup_ge_None_2 (take _ data)) by (rewrite length_take; unfold zlen in *; lia).
    apply lookup_ge_None_2. unfold zlen in *.
    case_decide; rewrite ?length_app, !length_take, !length_drop; subst first; lia.
Qed.
End Ring.
