(* ===== verification/JournalThm.v ===== *)
(** * The journal delivers what was published

    Correctness of the ring of [src/src/kvcr/service/recovery_journal.py] under
    every interleaving of its two processes, the producer's copy into the ring
    being visible byte by byte and its death possible at any point. *)

From Stdlib Require Import ZArith Lia.
From S2P Require Import Prelude Journal.

(** ** One frame *)

Definition good_frame (fr : Z * list Z * list Z) : Prop :=
  fr.1.1 ∈ RECORD_TYPES ∧ (frame_size fr.1.2 fr.2 <= MAX_FRAME_SIZE)%Z.
(** The padded bytes of a frame, and of a sequence of frames. *)
Definition enc (fr : Z * list Z * list Z) : list Z :=
  match pack_frame fr.1.1 fr.1.2 fr.2 (stored_size (frame_size fr.1.2 fr.2)) with
  | Ret b => b
  | Raise _ => []
  end.
Definition encs (frs : list (Z * list Z * list Z)) : list Z := frs ≫= enc.

Lemma zlen_app {A} (l k : list A) : zlen (l ++ k) = (zlen l + zlen k)%Z.
Proof. unfold zlen. rewrite length_app. lia. Qed.
Lemma zlen_nonneg {A} (l : list A) : (0 <= zlen l)%Z.
Proof. unfold zlen. lia. Qed.
Lemma zlen_replicate {A} n (x : A) : zlen (replicate n x) = Z.of_nat n.
Proof. unfold zlen. by rewrite length_replicate. Qed.

(** The layout of the bytes of a good frame. *)
Lemma enc_good fr : good_frame fr → ∃ h,
  pack_frame fr.1.1 fr.1.2 fr.2 (stored_size (frame_size fr.1.2 fr.2)) = Ret (enc fr) ∧
  pack_header (frame_size fr.1.2 fr.2) fr.1.1 (zlen fr.1.2) = Ret h ∧ length h = 6 ∧
  enc fr = h ++ fr.1.2 ++ fr.2 ++ replicate (Z.to_nat (stored_size (frame_size fr.1.2 fr.2)
    - frame_size fr.1.2 fr.2)) 0%Z ∧
  zlen (enc fr) = stored_size (frame_size fr.1.2 fr.2).
Proof.
  destruct fr as [[rt key] payload]. unfold good_frame. simpl. intros [Hrt Hsz].
  assert (∃ h, pack_header (frame_size key payload) rt (zlen key) = Ret h) as [h Hh].
  { unfold pack_header. rewrite decide_True; [by eexists|].
    apply list_elem_of_singleton in Hrt as ->. unfold frame_size, MAX_FRAME_SIZE, FRAME_HEADER_SIZE in *.
    pose proof (zlen_nonneg key). pose proof (zlen_nonneg payload).
    do 3 (apply Forall_cons; split; [unfold RECORD_BLOCK; lia|]). done. }
  destruct (unpack_pack _ _ _ _ [] Hh) as [_ Hlen].
  exists h. unfold enc. simpl. unfold pack_frame. rewrite Hh. simpl. split_and!; try done.
  rewrite !zlen_app, zlen_replicate. pose proof (stored_size_bounds (frame_size key payload)).
  unfold frame_size, FRAME_HEADER_SIZE in *. unfold zlen in *. lia.
Qed.

Lemma enc_bounds fr : good_frame fr → (8 <= zlen (enc fr) ∧ zlen (enc fr) mod 8 = 0)%Z.
Proof.
  intros Hg. destruct (enc_good fr Hg) as (h & _ & _ & _ & _ & ->).
  pose proof (stored_size_bounds (frame_size fr.1.2 fr.2)) as [Hb Hm]. split; [|done].
  assert (6 <= frame_size fr.1.2 fr.2)%Z.
  { unfold frame_size, FRAME_HEADER_SIZE, zlen. lia. }
  destruct (Z.eq_dec (stored_size (frame_size fr.1.2 fr.2)) 6%Z) as [He|]; [by rewrite He in Hm|].
  destruct (Z.eq_dec (stored_size (frame_size fr.1.2 fr.2)) 7%Z) as [He|]; [by rewrite He in Hm|]. lia.
Qed.
Lemma encs_aligned frs : Forall good_frame frs → (zlen (encs frs) mod 8 = 0)%Z.
Proof.
  induction 1 as [|fr frs Hg _ IH]; [done|].
  change (encs (fr :: frs)) with (enc fr ++ encs frs). rewrite zlen_app.
  rewrite Z.add_mod, IH by lia. destruct (enc_bounds fr Hg) as [_ ->]. done.
Qed.
Lemma encs_app l k : encs (l ++ k) = encs l ++ encs k.
Proof. unfold encs. apply bind_app. Qed.

(** Cutting the bytes of a frame where [read_next] cuts them. *)
Lemma enc_parse fr : good_frame fr →
  let size := frame_size fr.1.2 fr.2 in
  let key_end := (FRAME_HEADER_SIZE + zlen fr.1.2)%Z in
  unpack_header (take (Z.to_nat FRAME_HEADER_SIZE) (enc fr)) = (size, fr.1.1, zlen fr.1.2) ∧
  existsb (λ b, negb (b =? 0)%Z) (drop (Z.to_nat size) (enc fr)) = false ∧
  slice FRAME_HEADER_SIZE key_end (enc fr) = fr.1.2 ∧ slice key_end size (enc fr) = fr.2.
Proof.
  intros Hg size key_end. destruct (enc_good fr Hg) as (h & _ & Hh & Hlen & -> & _).
  destruct fr as [[rt key] payload]. simpl in *. fold size. subst key_end.
  assert (Z.to_nat FRAME_HEADER_SIZE = length h) as Hf by done.
  assert (Z.to_nat size = length (h ++ key ++ payload)) as Hs.
  { unfold size, frame_size, FRAME_HEADER_SIZE, zlen. rewrite !length_app. lia. }
  split_and!.
  - rewrite Hf, take_app_length. rewrite <- (app_nil_r h). by apply (unpack_pack _ _ _ _ [] Hh).
  - replace (h ++ key ++ payload ++ replicate (Z.to_nat (stored_size size - size)) 0%Z)
      with ((h ++ key ++ payload) ++ replicate (Z.to_nat (stored_size size - size)) 0%Z)
      by (by rewrite <- !app_assoc).
    rewrite Hs, drop_app_length. apply not_true_is_false. intros (b & Hb & Hne)%existsb_exists.
    apply list_elem_of_In, elem_of_replicate in Hb as [-> _]. done.
  - unfold slice. rewrite Hf, drop_app_length. apply take_app_length'. unfold zlen. lia.
  - unfold slice. rewrite app_assoc, drop_app_length'
      by (rewrite length_app; unfold FRAME_HEADER_SIZE, zlen in *; lia).
    apply take_app_length'. unfold size, frame_size, FRAME_HEADER_SIZE, zlen in *. lia.
Qed.

Section Protocol.
Context (cap : Z) (Hcap : (0 < cap)%Z).

(** The consumer parses the first frame behind its cursor. *)
Lemma read_at_frame fr rest c side sh :
  good_frame fr → stored cap (sh_ring sh) c (enc fr ++ encs rest) → zlen (sh_ring sh) = cap →
  (c mod 8 = 0)%Z → Forall good_frame rest →
  (zlen (enc fr ++ encs rest) <= cap)%Z →
  read_at cap c (c + zlen (enc fr ++ encs rest)) (mkJrn side sh) =
    (Ret (Some fr), store_consumed (c + zlen (enc fr))
       (set_consumed_local (Some (c + zlen (enc fr))%Z) (mkJrn side sh))).
Proof.
  intros Hg Hst Hring Hal Hrest Hle.
  destruct (enc_parse fr Hg) as (Hu & Hpad & Hkey & Hpay).
  destruct (enc_good fr Hg) as (_ & _ & _ & _ & _ & Hzl).
  pose proof (enc_bounds fr Hg) as [Hmin Hmod]. pose proof (encs_aligned rest Hrest) as Hrmod.
  pose proof (zlen_nonneg (encs rest)) as Hrn. rewrite zlen_app in *.
  unfold read_at, gets, mbind, M_bind. simpl.
  assert (valid_cursors cap (c + (zlen (enc fr) + zlen (encs rest))) c = true) as ->.
  { unfold valid_cursors, ALIGNMENT. rewrite !andb_true_iff, !Z.eqb_eq, !Z.leb_le.
    split_and!; try lia. rewrite Z.add_mod, (Z.add_mod (zlen (enc fr))), Hal, Hmod, Hrmod by lia. done. }
  simpl. rewrite decide_False by lia.
  assert (∀ len, (0 <= len <= zlen (enc fr))%Z →
    read_ring cap (c mod cap) len (sh_ring sh) = take (Z.to_nat len) (enc fr)) as Hread.
  { intros len Hl. rewrite (read_ring_stored cap Hcap c (enc fr ++ encs rest)); try done; try lia.
    - rewrite take_app_le; [done|]. unfold zlen in *. lia.
    - rewrite zlen_app. lia. }
  destruct fr as [[rt key] payload]. simpl in *. set (size := frame_size key payload) in *.
  assert (6 + zlen key + zlen payload = size)%Z as Hsize by done.
  pose proof (zlen_nonneg key). pose proof (zlen_nonneg payload).
  rewrite Hread by (unfold FRAME_HEADER_SIZE; lia).
  unfold unpack_header in Hu. injection Hu as -> -> ->.
  rewrite decide_False by (unfold FRAME_HEADER_SIZE; lia).
  destruct Hg as [Hrt _]. simpl in Hrt. rewrite decide_False by (intros Hn; by apply Hn).
  rewrite decide_False by (rewrite <- Hzl; lia). rewrite Hread by lia. rewrite <- Hzl.
  replace (take (Z.to_nat (zlen (enc (rt, key, payload)))) (enc (rt, key, payload)))
    with (enc (rt, key, payload)) by (unfold zlen; by rewrite Nat2Z.id, firstn_all).
  by rewrite Hpad, Hkey, Hpay.
Qed.
(** ** The two processes *)

(** The journal objects of the producer and the consumer, the memory they share, the
    frame the producer is copying (its cursor, bytes and content), the cursors the
    consumer has loaded, and for the specification: the frames whose [publish]
    returned true, those [read_next] returned, and whether a [publish] was refused. *)
Record Sys := mkSys {
  y_prod : Side; y_cons : Side; y_sh : Shared;
  y_writing : option (Z * list Z * (Z * list Z * list Z));
  y_reading : option (Z * Z);
  y_sent : list (Z * list Z * list Z);
  y_got : list (Z * list Z * list Z);
  y_refused : bool }.

(** A copy in progress: each byte of the ring is the old or the new one. *)
Definition torn (p : Z) (data ring ring' : list Z) : Prop :=
  length ring' = length ring ∧
  ∀ j : nat, ring' !! j = ring !! j ∨ ring' !! j = write_ring cap (p mod cap) data ring !! j.

Definition set_ring (v : list Z) (sh : Shared) : Shared :=
  mkShared (sh_invalid sh) (sh_published sh) (sh_consumed sh) v.

(** [publish] in three phases: the checks, the copy, the store of the cursor; and
    [read_next] in two: the loads, the parsing.  Either process may die and another
    attach, and either owner may invalidate. *)
Inductive jstep : Sys → Sys → Prop :=
| js_begin rt key payload prod cons sh reading sent got refused p b prod' sh' :
    publish_plan cap rt key payload (mkJrn prod sh) = (Ret (Some (p, b)), mkJrn prod' sh') →
    jstep (mkSys prod cons sh None reading sent got refused)
          (mkSys prod' cons sh' (Some (p, b, (rt, key, payload))) reading sent got refused)
| js_refuse rt key payload prod cons sh reading sent got refused prod' sh' :
    publish_plan cap rt key payload (mkJrn prod sh) = (Ret None, mkJrn prod' sh') →
    jstep (mkSys prod cons sh None reading sent got refused)
          (mkSys prod' cons sh' None reading sent got true)
| js_copy prod cons sh reading sent got refused p b fr ring' :
    torn p b (sh_ring sh) ring' →
    jstep (mkSys prod cons sh (Some (p, b, fr)) reading sent got refused)
          (mkSys prod cons (set_ring ring' sh) (Some (p, b, fr)) reading sent got refused)
| js_commit prod cons sh reading sent got refused p b fr prod' sh' :
    publish_commit p b (mkJrn prod (set_ring (write_ring cap (p mod cap) b (sh_ring sh)) sh)) =
      (Ret tt, mkJrn prod' sh') →
    jstep (mkSys prod cons sh (Some (p, b, fr)) reading sent got refused)
          (mkSys prod' cons sh' None reading (sent ++ [fr]) got refused)
| js_load prod cons sh writing sent got refused cursors cons' sh' :
    read_begin (mkJrn cons sh) = (Ret cursors, mkJrn cons' sh') →
    jstep (mkSys prod cons sh writing None sent got refused)
          (mkSys prod cons' sh' writing (Some cursors) sent got refused)
| js_load_fails prod cons sh writing sent got refused e cons' sh' :
    read_begin (mkJrn cons sh) = (Raise e, mkJrn cons' sh') →
    jstep (mkSys prod cons sh writing None sent got refused)
          (mkSys prod cons' sh' writing None sent got refused)
| js_read prod cons sh writing sent got refused c p r cons' sh' :
    read_at cap c p (mkJrn cons sh) = (r, mkJrn cons' sh') →
    jstep (mkSys prod cons sh writing (Some (c, p)) sent got refused)
          (mkSys prod cons' sh' writing None sent
             (got ++ match r with Ret (Some fr) => [fr] | _ => [] end) refused)
| js_attach_producer prod cons sh writing reading sent got refused :
    jstep (mkSys prod cons sh writing reading sent got refused)
          (mkSys new_side cons sh None reading sent got refused)
| js_attach_consumer prod cons sh writing reading sent got refused :
    jstep (mkSys prod cons sh writing reading sent got refused)
          (mkSys prod new_side sh writing None sent got refused)
| js_invalidate_producer prod cons sh reading sent got refused prod' sh' :
    invalidate (mkJrn prod sh) = (Ret false, mkJrn prod' sh') →
    jstep (mkSys prod cons sh None reading sent got refused)
          (mkSys prod' cons sh' None reading sent got refused)
| js_invalidate_consumer prod cons sh writing sent got refused cons' sh' :
    invalidate (mkJrn cons sh) = (Ret false, mkJrn cons' sh') →
    jstep (mkSys prod cons sh writing None sent got refused)
          (mkSys prod cons' sh' writing None sent got refused).

(** A journal just reset; the object that did it may be either side's. *)
Inductive started : Sys → Prop :=
| started_reset side sh side' sh' prod cons :
    reset (mkJrn side sh) = (Ret tt, mkJrn side' sh') → zlen (sh_ring sh) = cap →
    prod ∈ [side'; new_side] → cons ∈ [side'; new_side] →
    started (mkSys prod cons sh' None None [] [] false).

(** ** The invariant *)

Record jinv (y : Sys) (pending : list (Z * list Z * list Z)) : Prop := {
  ji_sent : y_sent y = y_got y ++ pending;
  ji_good : Forall good_frame (y_sent y);
  ji_ring : zlen (sh_ring (y_sh y)) = cap;
  ji_published : sh_published (y_sh y) = zlen (encs (y_sent y));
  ji_consumed : sh_consumed (y_sh y) = zlen (encs (y_got y));
  ji_stored : stored cap (sh_ring (y_sh y)) (zlen (encs (y_got y))) (encs pending);
  ji_fits : (zlen (encs pending) <= cap)%Z;
  ji_prod : jo_published_local (y_prod y) ∈ [None; Some (zlen (encs (y_sent y)))];
  ji_cons : jo_consumed_local (y_cons y) ∈ [None; Some (zlen (encs (y_got y)))];
  ji_prod_invalid : jo_invalid_local (y_prod y) = true → sh_invalid (y_sh y) ≠ 0%Z;
  ji_cons_invalid : jo_invalid_local (y_cons y) = true → sh_invalid (y_sh y) ≠ 0%Z;
  ji_writing : ∀ p b fr, y_writing y = Some (p, b, fr) →
    p = zlen (encs (y_sent y)) ∧ b = enc fr ∧ good_frame fr ∧
    (zlen (encs pending) + zlen b <= cap)%Z;
  ji_reading : ∀ c p, y_reading y = Some (c, p) →
    c = zlen (encs (y_got y)) ∧ ∃ l k, pending = l ++ k ∧ p = (c + zlen (encs l))%Z;
  ji_refused : y_refused y = true → sh_invalid (y_sh y) ≠ 0%Z ∧ y_writing y = None ∧
    (jo_invalid_local (y_prod y) = true ∨ jo_published_local (y_prod y) = None) }.

(** ** What the operations do *)

(** Only the invalid flags differ, and they only rise. *)
Record flagged (j j' : Jrn) : Prop := {
  fl_published : sh_published (jr_sh j') = sh_published (jr_sh j);
  fl_consumed : sh_consumed (jr_sh j') = sh_consumed (jr_sh j);
  fl_ring : sh_ring (jr_sh j') = sh_ring (jr_sh j);
  fl_plocal : jo_published_local (jr_side j') = jo_published_local (jr_side j);
  fl_clocal : jo_consumed_local (jr_side j') = jo_consumed_local (jr_side j);
  fl_rise : sh_invalid (jr_sh j) ≠ 0%Z → sh_invalid (jr_sh j') ≠ 0%Z;
  fl_local : jo_invalid_local (jr_side j') = true →
    jo_invalid_local (jr_side j) = true ∨ sh_invalid (jr_sh j') ≠ 0%Z }.

Lemma flagged_refl j : flagged j j.
Proof. split; auto. Qed.
Lemma invalidate_flagged j : flagged j (invalidate_ j).2 ∧ (invalidate_ j).1 = Ret false ∧
  sh_invalid (jr_sh (invalidate_ j).2) ≠ 0%Z ∧ jo_invalid_local (jr_side (invalidate_ j).2) = true.
Proof. destruct j as [[] []]. by split_and!; [split; simpl; auto|..]. Qed.
Lemma set_invalid_flagged j : sh_invalid (jr_sh j) ≠ 0%Z →
  flagged j (set_invalid_local true j).
Proof. destruct j as [[] []]. by split; simpl; auto. Qed.

(** What the checks of [publish] establish. *)
Definition accepted (fr : Z * list Z * list Z) (p : Z) (b : list Z) (j j' : Jrn) : Prop :=
  j' = j ∧ good_frame fr ∧ b = enc fr ∧ jo_invalid_local (jr_side j) = false ∧
  (jo_published_local (jr_side j) = Some p ∨
   jo_published_local (jr_side j) = None ∧ sh_invalid (jr_sh j) = 0%Z ∧ p = sh_published (jr_sh j)) ∧
  (zlen b <= cap - (p - sh_consumed (jr_sh j)))%Z.
Definition refused_in (j j' : Jrn) : Prop :=
  flagged j j' ∧ jo_invalid_local (jr_side j') = true ∧
  (jo_invalid_local (jr_side j) = true ∨ sh_invalid (jr_sh j') ≠ 0%Z).

Definition planned (fr : Z * list Z * list Z) (j : Jrn) (r : option (Z * list Z)) (j' : Jrn) : Prop :=
  match r with
  | Some (p, b) => accepted fr p b j j'
  | None => refused_in j j'
  end.

Lemma wp_require_mapping Q (E : exn → Jrn → Prop) j :
  (jo_mapped (jr_side j) = true → Q tt j) →
  (jo_mapped (jr_side j) = false → E (RuntimeError "KVCR pool attachment is closed") j) →
  wp require_mapping Q E j.
Proof. intros HQ HE. unfold require_mapping. wp. destruct (jo_mapped (jr_side j)); wp; auto. Qed.
Lemma wp_is_invalid Q (E : exn → Jrn → Prop) j : jo_mapped (jr_side j) = true →
  Q (negb (sh_invalid (jr_sh j) =? 0)%Z) j → wp is_invalid Q E j.
Proof. intros Hm HQ. unfold is_invalid. apply wp_bind, wp_require_mapping; [|congruence]. by wp. Qed.
Lemma wp_invalidate_none fr j E :
  wp (invalidate_ ;; mret None) (planned fr j) E j.
Proof.
  destruct (invalidate_flagged j) as (Hf & Hr & Hi & Hl). apply wp_bind.
  unfold wp at 1. destruct (invalidate_ j) as [r j']. simpl in *. subst r. wp.
  unfold planned, refused_in. auto.
Qed.

Lemma invalidate_run j j' : invalidate j = (Ret false, j') →
  flagged j j' ∧ jo_invalid_local (jr_side j') = true.
Proof.
  intros Hr. assert (wp invalidate (λ _ j', flagged j j' ∧ jo_invalid_local (jr_side j') = true)
    (λ _ _, True) j) as Hw.
  { unfold invalidate. apply wp_bind, wp_require_mapping; [|done]. intros _.
    destruct (invalidate_flagged j) as (Hf & He & _ & Hl).
    unfold wp. destruct (invalidate_ j) as [r k]. simpl in *. by rewrite He. }
  unfold wp in Hw. by rewrite Hr in Hw.
Qed.

(** When [publish] raises. *)
Definition unpublishable (rt : Z) (j : Jrn) : Prop :=
  jo_mapped (jr_side j) = false ∨ rt ∉ RECORD_TYPES.
Lemma publish_plan_post rt key payload j :
  wp (publish_plan cap rt key payload) (planned (rt, key, payload) j) (λ _ _, unpublishable rt j) j.
Proof.
  unfold publish_plan. apply wp_bind, wp_require_mapping; [|by left]. intros Hmap.
  case_decide as Hrt; [by apply wp_raise; right|]. wp.
  destruct (jo_invalid_local (jr_side j)) eqn:Hinv.
  { apply wp_ret. split_and!; auto using flagged_refl. }
  case_decide as Hsz; [apply wp_invalidate_none|].
  assert (good_frame (rt, key, payload)) as Hg.
  { split; simpl; [by destruct (decide (rt ∈ RECORD_TYPES))|lia]. }
  destruct (enc_good _ Hg) as (h & Hpack & _ & _ & _ & Hzl). simpl in Hpack, Hzl. wp.
  assert (∀ p, (jo_published_local (jr_side j) = Some p ∨ jo_published_local (jr_side j) = None ∧
      sh_invalid (jr_sh j) = 0%Z ∧ p = sh_published (jr_sh j)) →
    wp (consumed ← gets (λ j, sh_consumed (jr_sh j));
        if negb (valid_cursors cap p consumed) then invalidate_ ;; mret None
        else if decide (stored_size (frame_size key payload) > cap - (p - consumed))%Z
        then invalidate_ ;; mret None
        else frame ← lift (pack_frame rt key payload (stored_size (frame_size key payload)));
             mret (Some (p, frame))) (planned (rt, key, payload) j) (λ _ _, unpublishable rt j) j) as Hgo.
  { intros p Hp. wp. case_match; [apply wp_invalidate_none|].
    case_decide as Hroom; [apply wp_invalidate_none|]. rewrite Hpack. wp. unfold wp, lift. simpl.
    unfold accepted. split_and!; auto. lia. }
  destruct (jo_published_local (jr_side j)) as [p|] eqn:Hloc.
  - wp. apply (Hgo p). auto.
  - apply wp_bind, wp_is_invalid; [done|].
    destruct (Z.eqb_spec (sh_invalid (jr_sh j)) 0) as [Hz|Hz]; simpl.
    + wp. apply (Hgo (sh_published (jr_sh j))). auto.
    + wp. unfold planned, refused_in. split_and!; auto using set_invalid_flagged.
Qed.

(** The loads of [read_next]. *)
Definition began (j : Jrn) (cursors : Z * Z) (j' : Jrn) : Prop :=
  cursors.2 = sh_published (jr_sh j) ∧ jo_invalid_local (jr_side j) = false ∧
  (jo_consumed_local (jr_side j) = Some cursors.1 ∧ j' = j ∨
   jo_consumed_local (jr_side j) = None ∧ sh_invalid (jr_sh j) = 0%Z ∧
   cursors.1 = sh_consumed (jr_sh j) ∧ j' = set_consumed_local (Some cursors.1) j).
Lemma read_begin_post j : wp read_begin (began j) (λ _, flagged j) j.
Proof.
  unfold read_begin. apply wp_bind, wp_require_mapping; [|auto using flagged_refl]. intros Hmap. wp.
  destruct (jo_invalid_local (jr_side j)) eqn:Hinv; [apply wp_raise, flagged_refl|]. wp.
  destruct (jo_consumed_local (jr_side j)) as [c|] eqn:Hloc.
  - wp. unfold began. auto.
  - apply wp_bind, wp_is_invalid; [done|].
    destruct (Z.eqb_spec (sh_invalid (jr_sh j)) 0) as [Hz|Hz]; simpl; wp.
    + unfold began. split_and!; auto.
    + by apply set_invalid_flagged.
Qed.

Definition journal_invalid : exn := RecoveryJournalError "recovery journal is invalid".
(** A reader that has caught up finds the flag raised. *)
Definition gave_up (l : list (Z * list Z * list Z)) (j : Jrn) (e : exn) (j' : Jrn) : Prop :=
  l = [] ∧ flagged j j' ∧
  (jo_mapped (jr_side j) = true → e = journal_invalid ∧ sh_invalid (jr_sh j) ≠ 0%Z).
(** The parsing of [read_next] when the frames [l] lie between the cursors. *)
Definition parsed (c : Z) l (j : Jrn) (r : option (Z * list Z * list Z)) (j' : Jrn) : Prop :=
  match r with
  | None => l = [] ∧ j' = j ∧ sh_invalid (jr_sh j) = 0%Z
  | Some fr => ∃ l', l = fr :: l' ∧
      j' = store_consumed (c + zlen (enc fr)) (set_consumed_local (Some (c + zlen (enc fr))%Z) j)
  end.
Lemma read_at_post c l j :
  Forall good_frame l → stored cap (sh_ring (jr_sh j)) c (encs l) → zlen (sh_ring (jr_sh j)) = cap →
  (c mod 8 = 0)%Z → (zlen (encs l) <= cap)%Z →
  wp (read_at cap c (c + zlen (encs l))) (parsed c l j) (gave_up l j) j.
Proof.
  intros Hl Hst Hring Hal Hle. destruct l as [|fr l].
  - change (zlen (encs [])) with 0%Z. rewrite Z.add_0_r. unfold read_at.
    assert (valid_cursors cap c c = true) as ->.
    { unfold valid_cursors, ALIGNMENT. rewrite !andb_true_iff, !Z.eqb_eq, !Z.leb_le. lia. }
    simpl. rewrite decide_True by done. apply wp_bind. unfold is_invalid.
    apply wp_bind, wp_require_mapping; cycle 1.
    { intros Hm. split_and!; auto using flagged_refl. congruence. }
    intros _. wp. destruct (Z.eqb_spec (sh_invalid (jr_sh j)) 0) as [Hz|Hz]; simpl; wp; [done|].
    split_and!; auto using set_invalid_flagged.
  - apply Forall_cons in Hl as [Hg Hl]. change (encs (fr :: l)) with (enc fr ++ encs l) in *.
    destruct j as [side sh]. unfold wp. rewrite (read_at_frame fr l); try done. by exists l.
Qed.

(** ** The invariant is kept *)

Lemma u64_small v : (0 <= v < 2 ^ 64)%Z → u64 v = v.
Proof. intros. by apply Z.mod_small. Qed.

Lemma jinv_start y : started y → jinv y [].
Proof.
  destruct 1 as [side sh side' sh' prod cons Hr Hring Hp Hc].
  assert (side' = mkSide true (Some 0%Z) (Some 0%Z) false ∧
          sh' = mkShared 0 0 0 (sh_ring sh)) as [-> ->].
  { destruct side as [[] ? ? ?]; [|done]. injection Hr as <- <-. done. }
  split; simpl; try done.
  - intros i Hi. simpl in Hi. lia.
  - unfold zlen. simpl. lia.
  - apply list_elem_of_In in Hp as [<-|[<-|[]]]; simpl; set_solver.
  - apply list_elem_of_In in Hc as [<-|[<-|[]]]; simpl; set_solver.
  - apply list_elem_of_In in Hp as [<-|[<-|[]]]; done.
  - apply list_elem_of_In in Hc as [<-|[<-|[]]]; done.
Qed.

(** Raising flags on either side. *)
Lemma jinv_flag_producer y pending prod' sh' :
  jinv y pending → flagged (mkJrn (y_prod y) (y_sh y)) (mkJrn prod' sh') →
  (y_refused y = true → jo_invalid_local prod' = true ∨ jo_published_local prod' = None) →
  jinv (mkSys prod' (y_cons y) sh' (y_writing y) (y_reading y) (y_sent y) (y_got y) (y_refused y))
    pending.
Proof.
  intros [] [] Hr. simpl in *. split; simpl; rewrite ?fl_published0, ?fl_consumed0, ?fl_ring0,
    ?fl_plocal0; try done.
  - intros Hl. destruct (fl_local0 Hl); auto.
  - intros Hl. auto.
  - intros Hy. destruct (ji_refused0 Hy) as (? & ? & ?). rewrite <- fl_plocal0. split_and!; auto.
Qed.
Lemma jinv_flag_consumer y pending cons' sh' :
  jinv y pending → flagged (mkJrn (y_cons y) (y_sh y)) (mkJrn cons' sh') →
  jinv (mkSys (y_prod y) cons' sh' (y_writing y) None (y_sent y) (y_got y) (y_refused y)) pending.
Proof.
  intros [] []. simpl in *. split; simpl; rewrite ?fl_published0, ?fl_consumed0, ?fl_ring0,
    ?fl_clocal0; try done.
  - intros Hl. auto.
  - intros Hl. destruct (fl_local0 Hl); auto.
  - intros Hy. destruct (ji_refused0 Hy) as (? & ? & ?). split_and!; auto.
Qed.

(** A copy in progress leaves the published frames alone. *)
Lemma torn_cells p data ring ring' : torn p data ring ring' → (zlen data <= cap)%Z →
  zlen ring = cap → zlen ring' = cap ∧
  ∀ i, (p + zlen data - cap <= i < p)%Z → cell cap ring' i = cell cap ring i.
Proof.
  intros [Hlen Ht] Hd Hr. split; [unfold zlen in *; lia|]. intros i Hi.
  destruct (write_ring_stored cap Hcap p data ring Hd Hr) as (_ & _ & Hk).
  unfold cell in *. destruct (Ht (Z.to_nat (i mod cap))) as [?| ->]; [done|]. by apply Hk.
Qed.
Lemma jinv_copy y pending p b fr ring' :
  jinv y pending → y_writing y = Some (p, b, fr) → torn p b (sh_ring (y_sh y)) ring' →
  jinv (mkSys (y_prod y) (y_cons y) (set_ring ring' (y_sh y)) (y_writing y) (y_reading y)
    (y_sent y) (y_got y) (y_refused y)) pending.
Proof.
  intros Hj Hw Ht. destruct (ji_writing _ _ Hj _ _ _ Hw) as (-> & -> & Hg & Hroom).
  pose proof (zlen_nonneg (encs pending)).
  destruct (torn_cells _ _ _ _ Ht ltac:(lia) (ji_ring _ _ Hj)) as [Hlen Hk].
  destruct Hj. split; simpl; auto.
  rewrite ji_sent0, encs_app, zlen_app in Hk.
  apply (stored_kept cap (sh_ring (y_sh y)) _ _ _ _ Hk); try lia. done.
Qed.

Lemma jinv_commit y pending p b fr prod' sh' :
  jinv y pending → y_writing y = Some (p, b, fr) →
  publish_commit p b (mkJrn (y_prod y)
    (set_ring (write_ring cap (p mod cap) b (sh_ring (y_sh y))) (y_sh y))) =
    (Ret tt, mkJrn prod' sh') →
  (zlen (encs (y_sent y ++ [fr])) < 2 ^ 64)%Z →
  jinv (mkSys prod' (y_cons y) sh' None (y_reading y) (y_sent y ++ [fr]) (y_got y) (y_refused y))
    (pending ++ [fr]).
Proof.
  intros Hj Hw Hc Hsmall. destruct (ji_writing _ _ Hj _ _ _ Hw) as (-> & -> & Hg & Hroom).
  assert (encs (y_sent y ++ [fr]) = encs (y_sent y) ++ enc fr) as He
    by (rewrite encs_app; unfold encs; simpl; by rewrite app_nil_r).
  assert (encs (pending ++ [fr]) = encs pending ++ enc fr) as Hp
    by (rewrite encs_app; unfold encs; simpl; by rewrite app_nil_r).
  pose proof (zlen_nonneg (encs pending)). pose proof (zlen_nonneg (encs (y_sent y))).
  pose proof (zlen_nonneg (enc fr)).
  destruct (write_ring_stored cap Hcap (zlen (encs (y_sent y))) (enc fr) (sh_ring (y_sh y))
    ltac:(lia) (ji_ring _ _ Hj)) as (Hlen & Hst & Hk).
  injection Hc as <- <-. destruct Hj.
  rewrite He, zlen_app in Hsmall. split; simpl; rewrite ?He, ?Hp, ?zlen_app; auto.
  - by rewrite ji_sent0, app_assoc.
  - by apply Forall_app_2; [|constructor].
  - rewrite u64_small; lia.
  - rewrite ji_sent0, encs_app, zlen_app in Hst, Hk |- *. apply stored_app; [|done].
    apply (stored_kept cap (sh_ring (y_sh y)) _ _ _ _ Hk); try lia. done.
  - set_solver.
  - done.
  - intros c q Hr. destruct (ji_reading0 _ _ Hr) as (-> & l & k & -> & ->). split; [done|].
    exists l, (k ++ [fr]). by rewrite app_assoc.
  - intros Hr. destruct (ji_refused0 Hr) as (_ & Hn & _). congruence.
Qed.

Lemma jinv_got y pending fr l : jinv y pending → pending = fr :: l →
  y_sent y = (y_got y ++ [fr]) ++ l ∧ encs (y_got y ++ [fr]) = encs (y_got y) ++ enc fr ∧
  good_frame fr ∧ Forall good_frame l ∧ (zlen (encs (y_got y)) mod 8 = 0)%Z.
Proof.
  intros Hj ->. pose proof (ji_good _ _ Hj) as Hg. rewrite (ji_sent _ _ Hj) in Hg |- *.
  apply Forall_app in Hg as [Hgot Hg]. apply Forall_cons in Hg as [Hfr Hl]. split_and!; auto.
  - by rewrite <- app_assoc.
  - rewrite encs_app. unfold encs. simpl. by rewrite app_nil_r.
  - by apply encs_aligned.
Qed.

(** The consumer takes the oldest pending frame. *)
Lemma jinv_take y pending fr rest cons' sh' :
  jinv y pending → pending = fr :: rest → (zlen (encs (y_sent y)) < 2 ^ 64)%Z →
  mkJrn cons' sh' = store_consumed (zlen (encs (y_got y)) + zlen (enc fr))
    (set_consumed_local (Some (zlen (encs (y_got y)) + zlen (enc fr))%Z)
       (mkJrn (y_cons y) (y_sh y))) →
  jinv (mkSys (y_prod y) cons' sh' (y_writing y) None (y_sent y) (y_got y ++ [fr]) (y_refused y)) rest.
Proof.
  intros Hj Hp Hsmall [= -> ->]. destruct (jinv_got _ _ _ _ Hj Hp) as (Hs & He & Hg & Hl & _).
  pose proof (zlen_nonneg (encs (y_got y))). pose proof (zlen_nonneg (enc fr)).
  pose proof (zlen_nonneg (encs rest)).
  assert (zlen (encs (y_sent y)) = zlen (encs (y_got y)) + zlen (enc fr) + zlen (encs rest))%Z as Hz.
  { rewrite Hs, encs_app, He, !zlen_app. lia. }
  assert (encs pending = enc fr ++ encs rest) as Hep by (by subst pending).
  destruct Hj. rewrite Hep, zlen_app in *.
  split; simpl; rewrite ?He, ?zlen_app; auto.
  - rewrite u64_small; lia.
  - intros i Hi. rewrite <- Z.add_assoc.
    replace (zlen (enc fr) + Z.of_nat i)%Z with (Z.of_nat (length (enc fr) + i)) by (unfold zlen; lia).
    rewrite ji_stored0 by (rewrite length_app; lia). rewrite lookup_app_r by lia. f_equal. lia.
  - lia.
  - set_solver.
  - intros p b fr' Hw. destruct (ji_writing0 _ _ _ Hw) as (? & ? & ? & ?). split_and!; auto. lia.
  - done.
Qed.

(** The state of the consumer's side once its cursors are loaded. *)
Lemma jinv_load y pending cursors cons' sh' :
  jinv y pending → began (mkJrn (y_cons y) (y_sh y)) cursors (mkJrn cons' sh') →
  jinv (mkSys (y_prod y) cons' sh' (y_writing y) (Some cursors) (y_sent y) (y_got y) (y_refused y))
    pending.
Proof.
  intros Hj (Hp & Hni & Hc). simpl in *.
  assert (sh' = y_sh y ∧ cursors.1 = zlen (encs (y_got y)) ∧
    jo_consumed_local cons' = Some cursors.1 ∧ jo_invalid_local cons' = false) as (-> & Hg & Hl & Hn).
  { destruct Hc as [[Hl [= -> ->]]|(Hl & _ & Hg & [= -> ->])].
    - split_and!; auto. pose proof (ji_cons _ _ Hj) as Hin. rewrite Hl in Hin. set_solver.
    - split_and!; auto. by rewrite Hg, (ji_consumed _ _ Hj). }
  destruct Hj. split; simpl; auto.
  - rewrite Hl, Hg. set_solver.
  - congruence.
  - intros c p [= ->]. simpl in *. split; [done|]. exists pending, []. split; [by rewrite app_nil_r|].
    rewrite Hp, Hg, ji_published0, ji_sent0, encs_app, zlen_app. done.
Qed.
Lemma jinv_parse y l k : jinv y (l ++ k) →
  wp (read_at cap (zlen (encs (y_got y))) (zlen (encs (y_got y)) + zlen (encs l)))
    (parsed (zlen (encs (y_got y))) l (mkJrn (y_cons y) (y_sh y)))
    (gave_up l (mkJrn (y_cons y) (y_sh y))) (mkJrn (y_cons y) (y_sh y)).
Proof.
  intros Hj. pose proof (ji_good _ _ Hj) as Hg. rewrite (ji_sent _ _ Hj), !Forall_app in Hg.
  destruct Hg as (Hgot & Hl & _). pose proof (ji_stored _ _ Hj) as Hst.
  pose proof (ji_fits _ _ Hj) as Hf. rewrite encs_app in Hst, Hf. rewrite zlen_app in Hf.
  pose proof (zlen_nonneg (encs k)). apply read_at_post; auto.
  - simpl. intros i Hi. rewrite Hst by (rewrite length_app; lia). by rewrite lookup_app_l.
  - apply (ji_ring _ _ Hj).
  - by apply encs_aligned.
  - lia.
Qed.

Lemma jinv_begin y pending rt key payload prod' sh' p b :
  jinv y pending → y_writing y = None →
  accepted (rt, key, payload) p b (mkJrn (y_prod y) (y_sh y)) (mkJrn prod' sh') →
  jinv (mkSys prod' (y_cons y) sh' (Some (p, b, (rt, key, payload))) (y_reading y)
    (y_sent y) (y_got y) (y_refused y)) pending ∧ y_refused y = false.
Proof.
  intros Hj Hw ([= -> ->] & Hg & -> & Hni & Hp & Hroom). simpl in *.
  assert (p = zlen (encs (y_sent y))) as ->.
  { destruct Hp as [Hp|(_ & _ & ->)]; [|apply (ji_published _ _ Hj)].
    pose proof (ji_prod _ _ Hj) as Hin. rewrite Hp in Hin. set_solver. }
  assert (y_refused y = false) as Hnr.
  { destruct (y_refused y) eqn:Hr; [|done]. destruct (ji_refused _ _ Hj Hr) as (Hi & _ & [?|?]).
    - congruence.
    - destruct Hp as [Hp|(_ & Hz & _)]; congruence. }
  split; [|done]. rewrite (ji_consumed _ _ Hj), (ji_sent _ _ Hj), encs_app, zlen_app in Hroom.
  destruct Hj. split; simpl; auto.
  - intros p' b' fr' [= <- <- <-]. split_and!; auto. lia.
  - congruence.
Qed.
Lemma jinv_refuse y pending prod' sh' :
  jinv y pending → y_writing y = None →
  refused_in (mkJrn (y_prod y) (y_sh y)) (mkJrn prod' sh') →
  jinv (mkSys prod' (y_cons y) sh' None (y_reading y) (y_sent y) (y_got y) true) pending.
Proof.
  intros Hj Hw (Hf & Hl & Hi). pose proof (jinv_flag_producer _ _ _ _ Hj Hf ltac:(auto)) as Hj'.
  pose proof (ji_prod_invalid _ _ Hj') as Hpi. simpl in Hpi, Hl.
  rewrite Hw in Hj'. destruct Hj'. split; simpl; auto.
Qed.

(** Every step keeps the invariant while the cursors fit their cells. *)
Lemma jinv_step y y' pending : jinv y pending → jstep y y' → (zlen (encs (y_sent y')) < 2 ^ 64)%Z →
  ∃ pending', jinv y' pending'.
Proof.
  intros Hj Hs Hsmall. destruct Hs as
    [rt key payload prod cons sh reading sent got refused p b prod' sh' Hop
    |rt key payload prod cons sh reading sent got refused prod' sh' Hop
    |prod cons sh reading sent got refused p b fr ring' Ht
    |prod cons sh reading sent got refused p b fr prod' sh' Hop
    |prod cons sh writing sent got refused cursors cons' sh' Hop
    |prod cons sh writing sent got refused e cons' sh' Hop
    |prod cons sh writing sent got refused c p r cons' sh' Hop
    |prod cons sh writing reading sent got refused
    |prod cons sh writing reading sent got refused
    |prod cons sh reading sent got refused prod' sh' Hop
    |prod cons sh writing sent got refused cons' sh' Hop]; simpl in Hsmall.
  - pose proof (publish_plan_post rt key payload (mkJrn prod sh)) as Hp. unfold wp in Hp.
    rewrite Hop in Hp. exists pending. by apply (jinv_begin _ _ _ _ _ _ _ _ _ Hj).
  - pose proof (publish_plan_post rt key payload (mkJrn prod sh)) as Hp. unfold wp in Hp.
    rewrite Hop in Hp. exists pending. by apply (jinv_refuse _ _ _ _ Hj).
  - exists pending. by apply (jinv_copy _ _ _ _ _ _ Hj eq_refl).
  - exists (pending ++ [fr]). by apply (jinv_commit _ _ _ _ _ _ _ Hj eq_refl).
  - pose proof (read_begin_post (mkJrn cons sh)) as Hp. unfold wp in Hp. rewrite Hop in Hp.
    exists pending. by apply (jinv_load _ _ _ _ _ Hj).
  - pose proof (read_begin_post (mkJrn cons sh)) as Hp. unfold wp in Hp. rewrite Hop in Hp.
    exists pending. by apply (jinv_flag_consumer _ _ _ _ Hj).
  - destruct (ji_reading _ _ Hj _ _ eq_refl) as (Hc & l & k & -> & ->).
    pose proof (jinv_parse _ _ _ Hj) as Hp. unfold wp in Hp. simpl in Hc, Hp. subst c. rewrite Hop in Hp. destruct r as [[fr|]|e]; simpl in Hp.
    + destruct Hp as (l' & -> & Heq). exists (l' ++ k).
      by apply (jinv_take _ _ fr (l' ++ k) _ _ Hj).
    + destruct Hp as (-> & [= -> ->] & _). exists k. rewrite app_nil_r.
      by apply (jinv_flag_consumer _ _ _ _ Hj), flagged_refl.
    + destruct Hp as (-> & Hf & _). exists k. rewrite app_nil_r. by apply (jinv_flag_consumer _ _ _ _ Hj).
  - exists pending. destruct Hj. split; simpl in *; auto; try done; [set_solver|].
    intros Hr. destruct (ji_refused0 Hr) as (? & _). auto.
  - exists pending. destruct Hj. split; simpl in *; auto; try done. set_solver.
  - exists pending. destruct (invalidate_run _ _ Hop) as [Hf Hl].
    by apply (jinv_flag_producer _ _ _ _ Hj Hf); auto.
  - exists pending. destruct (invalidate_run _ _ Hop) as [Hf Hl].
    by apply (jinv_flag_consumer _ _ _ _ Hj Hf).
Qed.

Lemma jstep_sent y y' : jstep y y' → ∃ l, y_sent y' = y_sent y ++ l.
Proof. destruct 1; simpl; first [by exists [fr] | exists []; by rewrite app_nil_r]. Qed.

Lemma reachable_inv y0 y : started y0 → rtc jstep y0 y → (zlen (encs (y_sent y)) < 2 ^ 64)%Z →
  ∃ pending, jinv y pending.
Proof.
  intros H0 Hr. revert y Hr. refine (rtc_ind_r (λ y, _ → _) y0 _ _).
  - intros _. exists []. by apply jinv_start.
  - intros y z Hy Hs IH Hsmall. destruct (jstep_sent _ _ Hs) as [l Hl].
    destruct IH as [pending Hj].
    { rewrite Hl, encs_app, zlen_app in Hsmall. pose proof (zlen_nonneg (encs l)). lia. }
    by apply (jinv_step _ _ _ Hj Hs).
Qed.

(** ** What a reader sees *)

(** What [read_next] returns when the frames [pending] were published and not read:
    the oldest; and only a reader that has caught up learns that publication stopped. *)
Definition delivery (cons : Side) (sh : Shared) (pending : list (Z * list Z * list Z))
    : result (option (Z * list Z * list Z)) :=
  if negb (jo_mapped cons) then Raise (RuntimeError "KVCR pool attachment is closed")
  else if jo_invalid_local cons then Raise journal_invalid
  else if bool_decide (jo_consumed_local cons = None ∧ sh_invalid sh ≠ 0%Z) then Raise journal_invalid
  else match pending with
       | fr :: _ => Ret (Some fr)
       | [] => if (sh_invalid sh =? 0)%Z then Ret None else Raise journal_invalid
       end.

(** The cursors the reader loads are the ends of the pending frames. *)
Lemma jinv_cursors y pending cursors cons' sh' : jinv y pending →
  began (mkJrn (y_cons y) (y_sh y)) cursors (mkJrn cons' sh') →
  cursors = (zlen (encs (y_got y)), zlen (encs (y_got y)) + zlen (encs pending))%Z ∧
  sh' = y_sh y ∧ set_consumed_local None (mkJrn cons' sh') =
    set_consumed_local None (mkJrn (y_cons y) (y_sh y)).
Proof.
  intros Hj (Hp & _ & Hc). destruct cursors as [c p]. simpl in *.
  rewrite (ji_published _ _ Hj), (ji_sent _ _ Hj), encs_app, zlen_app in Hp.
  destruct Hc as [[Hl [= -> ->]]|(Hl & _ & Hg & [= -> ->])].
  - pose proof (ji_cons _ _ Hj) as Hin. rewrite Hl in Hin. split_and!; auto.
    assert (c = zlen (encs (y_got y))) by set_solver. subst. done.
  - rewrite (ji_consumed _ _ Hj) in Hg. subst. done.
Qed.

(** One [read_next] of a reader that is attached and has not seen the flag. *)
Definition healthy (cons : Side) (sh : Shared) : Prop :=
  jo_mapped cons = true ∧ jo_invalid_local cons = false ∧
  ¬ (jo_consumed_local cons = None ∧ sh_invalid sh ≠ 0%Z).
Lemma read_begin_healthy cons sh : healthy cons sh →
  ∃ cursors j', read_begin (mkJrn cons sh) = (Ret cursors, j') ∧ jo_mapped (jr_side j') = true.
Proof.
  intros (Hm & Hi & Hn). destruct cons as [m pl cl il], sh as [iv pb cs rg]. simpl in *. subst m il.
  unfold read_begin, is_invalid, require_mapping, gets, modify, mbind, M_bind. simpl.
  destruct cl as [c|]; simpl; [by eauto|].
  destruct (Z.eqb_spec iv 0); simpl; [by eauto|]. by destruct Hn.
Qed.

Lemma read_next_run y pending : jinv y pending → healthy (y_cons y) (y_sh y) →
  ∃ cons' sh', read_next cap (mkJrn (y_cons y) (y_sh y)) =
    (match pending with
     | fr :: _ => Ret (Some fr)
     | [] => if (sh_invalid (y_sh y) =? 0)%Z then Ret None else Raise journal_invalid
     end, mkJrn cons' sh') ∧
  ∀ fr rest, pending = fr :: rest → healthy cons' sh' ∧ sh_invalid sh' = sh_invalid (y_sh y) ∧
    mkJrn cons' sh' = store_consumed (zlen (encs (y_got y)) + zlen (enc fr))
      (set_consumed_local (Some (zlen (encs (y_got y)) + zlen (enc fr))%Z)
         (mkJrn (y_cons y) (y_sh y))).
Proof.
  intros Hj Hh. destruct (read_begin_healthy _ _ Hh) as (cursors & [cons1 sh1] & Hb & Hm).
  destruct Hh as (Hmap & Hinv & _).
  pose proof (read_begin_post (mkJrn (y_cons y) (y_sh y))) as Hp. unfold wp in Hp. rewrite Hb in Hp.
  pose proof (jinv_load _ _ _ _ _ Hj Hp) as Hj1.
  destruct (jinv_cursors _ _ _ _ _ Hj Hp) as (-> & -> & Hsame). simpl in Hm.
  unfold read_next, mbind, M_bind. rewrite Hb. simpl.
  rewrite <- (app_nil_r pending) in Hj1. pose proof (jinv_parse _ _ _ Hj1) as Hr. unfold wp in Hr.
  simpl in Hr. destruct (read_at cap _ _ _) as [r [cons' sh']] eqn:Hat. exists cons', sh'.
  destruct r as [[fr|]|e]; simpl in Hr.
  - destruct Hr as (l & -> & Heq). split; [done|]. intros fr' rest' [= <- <-].
    destruct (y_cons y) as [m pl cl il], cons1 as [m1 pl1 cl1 il1]. simpl in *. injection Hsame as <- <- <-.
    injection Heq as -> ->. unfold healthy. simpl. subst. split_and!; try done. by intros [??].
  - destruct Hr as (-> & _ & ->). done.
  - destruct Hr as (-> & _ & Hi). destruct (Hi Hm) as [-> Hne]. simpl in Hne.
    by rewrite (proj2 (Z.eqb_neq _ _) Hne).
Qed.

(** A reader that is not healthy reports it at once. *)
Lemma read_next_unhealthy cons sh : ¬ healthy cons sh →
  (read_next cap (mkJrn cons sh)).1 =
    Raise (if jo_mapped cons then journal_invalid else RuntimeError "KVCR pool attachment is closed").
Proof.
  intros Hn. destruct cons as [m pl cl il], sh as [iv pb cs rg]. unfold healthy in Hn. simpl in *.
  unfold read_next, read_begin, is_invalid, require_mapping, gets, modify, raise, mbind, M_bind. simpl.
  destruct m; simpl; [|done]. destruct il; simpl; [done|].
  destruct cl as [c|]; simpl; [by destruct Hn; split_and!; auto; intros [??]|].
  destruct (Z.eqb_spec iv 0) as [Hz|Hz]; simpl; [|done]. destruct Hn. split_and!; auto. by intros [??].
Qed.

(** [drain] takes everything that is left. *)
Lemma drain_run n y pending : jinv y pending → healthy (y_cons y) (y_sh y) →
  (zlen (encs (y_sent y)) < 2 ^ 64)%Z → length pending < n →
  (drain cap n (mkJrn (y_cons y) (y_sh y))).1 =
    if (sh_invalid (y_sh y) =? 0)%Z then Ret pending else Raise journal_invalid.
Proof.
  revert y pending. induction n as [|n IH]; intros y pending Hj Hh Hsmall Hlen; [lia|].
  destruct (read_next_run _ _ Hj Hh) as (cons' & sh' & Hr & Hnext). simpl. unfold mbind, M_bind.
  rewrite Hr. destruct pending as [|fr rest]; [by destruct (sh_invalid (y_sh y) =? 0)%Z|].
  destruct (Hnext fr rest eq_refl) as (Hh' & Hi & Heq).
  pose proof (jinv_take _ _ _ _ _ _ Hj eq_refl Hsmall Heq) as Hj'.
  specialize (IH _ _ Hj' Hh' Hsmall ltac:(simpl in Hlen; lia)). simpl in IH.
  destruct (drain cap n (mkJrn cons' sh')) as [r j']. simpl in IH. subst r. rewrite Hi.
  by destruct (sh_invalid (y_sh y) =? 0)%Z.
Qed.

(** The ring holds at most one frame per eight bytes. *)
Lemma pending_bound l : Forall good_frame l → (8 * zlen l <= zlen (encs l))%Z.
Proof.
  induction 1 as [|fr l Hg _ IH]; [done|]. change (encs (fr :: l)) with (enc fr ++ encs l).
  rewrite zlen_app. pose proof (enc_bounds fr Hg) as [? _]. unfold zlen in *. simpl. lia.
Qed.

(** ** The properties *)

(** C14: Under every interleaving of the producer's checks, byte-wise copy and cursor store
    with the reader's loads and parsing, with deaths, re-attachments and invalidations
    on either side, the frames read are a prefix of the frames whose [publish]
    succeeded, and [read_next] now returns exactly the oldest unread one; the flag is
    reported only to a reader that has caught up or has just attached. *)
Theorem journal_fifo y0 y : started y0 → rtc jstep y0 y → (zlen (encs (y_sent y)) < 2 ^ 64)%Z →
  ∃ pending, y_sent y = y_got y ++ pending ∧
    (read_next cap (mkJrn (y_cons y) (y_sh y))).1 = delivery (y_cons y) (y_sh y) pending.
Proof.
  intros H0 Hr Hsmall. destruct (reachable_inv _ _ H0 Hr Hsmall) as [pending Hj].
  exists pending. split; [apply (ji_sent _ _ Hj)|]. unfold delivery.
  destruct (decide (healthy (y_cons y) (y_sh y))) as [Hh|Hn].
  - destruct (read_next_run _ _ Hj Hh) as (cons' & sh' & -> & _). destruct Hh as (-> & -> & Hc).
    by rewrite bool_decide_false.
  - rewrite (read_next_unhealthy _ _ Hn). destruct (jo_mapped (y_cons y)) eqn:Hm; [simpl|done].
    destruct (jo_invalid_local (y_cons y)) eqn:Hi; [done|].
    rewrite bool_decide_true; [done|]. apply dec_stable. intros Hc. apply Hn. by split_and!.
Qed.

(** C24: Draining a journal whose producer is gone takes at most one read per eight bytes
    of the ring; it returns exactly the frames published and not yet read, and it
    returns only if no publication was ever refused. *)
Theorem drain_complete y0 y : started y0 → rtc jstep y0 y → (zlen (encs (y_sent y)) < 2 ^ 64)%Z →
  jo_mapped (y_cons y) = true →
  match (drain cap (S (Z.to_nat (cap / 8))) (mkJrn (y_cons y) (y_sh y))).1 with
  | Ret frames => y_sent y = y_got y ++ frames ∧ y_refused y = false
  | Raise e => e = journal_invalid ∧ sh_invalid (y_sh y) ≠ 0%Z
  end.
Proof.
  intros H0 Hr Hsmall Hm. destruct (reachable_inv _ _ H0 Hr Hsmall) as [pending Hj].
  destruct (decide (healthy (y_cons y) (y_sh y))) as [Hh|Hn].
  - assert (length pending < S (Z.to_nat (cap / 8))) as Hlen.
    { pose proof (ji_good _ _ Hj) as Hg. rewrite (ji_sent _ _ Hj) in Hg.
      apply Forall_app in Hg as [_ Hg]. pose proof (pending_bound _ Hg). pose proof (ji_fits _ _ Hj).
      assert (zlen pending <= cap / 8)%Z by (apply Z.div_le_lower_bound; lia). unfold zlen in *. lia. }
    rewrite (drain_run _ _ _ Hj Hh Hsmall Hlen).
    destruct (Z.eqb_spec (sh_invalid (y_sh y)) 0) as [Hz|Hz]; [|done].
    split; [apply (ji_sent _ _ Hj)|]. destruct (y_refused y) eqn:Hrf; [|done].
    by destruct (ji_refused _ _ Hj Hrf) as [? _].
  - assert (sh_invalid (y_sh y) ≠ 0%Z) as Hne.
    { destruct (jo_invalid_local (y_cons y)) eqn:Hi; [by apply (ji_cons_invalid _ _ Hj)|].
      intros Hz. apply Hn. split_and!; auto. by intros [_ ?]. }
    pose proof (read_next_unhealthy _ _ Hn) as Hr'. rewrite Hm in Hr'. simpl. unfold mbind, M_bind.
    destruct (read_next cap _) as [r j']. simpl in Hr'. by subst r.
Qed.

(** A refused publication is final: no later frame is published, by the same
    producer or by one that attaches afterwards, so the published frames never have a gap. *)
Theorem publish_never_resumes y0 y record_type key payload :
  started y0 → rtc jstep y0 y → (zlen (encs (y_sent y)) < 2 ^ 64)%Z → y_refused y = true →
  (publish cap record_type key payload (mkJrn (y_prod y) (y_sh y))).1 ≠ Ret true.
Proof.
  intros H0 Hr Hsmall Href. destruct (reachable_inv _ _ H0 Hr Hsmall) as [pending Hj].
  destruct (ji_refused _ _ Hj Href) as (Hi & Hw & _).
  pose proof (publish_plan_post record_type key payload (mkJrn (y_prod y) (y_sh y))) as Hp.
  unfold wp in Hp. unfold publish, mbind, M_bind.
  destruct (publish_plan _ _ _ _ _) as [[[[p b]|]|e] [prod' sh']]; try done.
  simpl in Hp. destruct (jinv_begin _ _ _ _ _ _ _ _ _ Hj Hw Hp) as [_ Hn]. congruence.
Qed.
End Protocol.

(** ** A run *)

Definition demo_frame : Z * list Z * list Z := (1%Z, [7; 8], [9; 9; 9])%Z.
Definition demo_ring : list Z := replicate 40 0%Z.
Definition demo_start : Sys :=
  let j := (reset (mkJrn new_side (mkShared 5 24 8 demo_ring))).2 in
  mkSys new_side (jr_side j) (jr_sh j) None None [] [] false.

Lemma demo_started : started 40 demo_start.
Proof.
  eapply (started_reset 40 new_side (mkShared 5 24 8 demo_ring)); [reflexivity..| |];
    repeat (first [left | right]).
Qed.
Lemma demo_run : ∃ y, rtc (jstep 40) demo_start y ∧ y_sent y = [demo_frame; demo_frame; demo_frame] ∧
  y_got y = [demo_frame] ∧ y_refused y = true ∧ jo_mapped (y_cons y) = true ∧
  (zlen (encs (y_sent y)) < 2 ^ 64)%Z.
Proof.
  eexists. split.
  { eapply rtc_l; [apply (js_begin 40 1 [7; 8]%Z [9; 9; 9]%Z); vm_compute; reflexivity|].
    eapply rtc_l; [eapply js_commit; vm_compute; reflexivity|].
    eapply rtc_l; [apply (js_begin 40 1 [7; 8]%Z [9; 9; 9]%Z); vm_compute; reflexivity|].
    eapply rtc_l; [eapply js_commit; vm_compute; reflexivity|].
    eapply rtc_l; [eapply js_load; vm_compute; reflexivity|].
    eapply rtc_l; [eapply js_read; vm_compute; reflexivity|].
    eapply rtc_l; [apply (js_begin 40 1 [7; 8]%Z [9; 9; 9]%Z); vm_compute; reflexivity|].
    eapply rtc_l; [eapply js_commit; vm_compute; reflexivity|].
    eapply rtc_l; [apply (js_refuse 40 1 [7; 8]%Z [9; 9; 9]%Z); vm_compute; reflexivity|].
    apply rtc_refl. }
  split_and!; vm_compute; reflexivity.
Qed.

Lemma journal_fifo_witness : ∃ y pending, rtc (jstep 40) demo_start y ∧ y_got y = [demo_frame] ∧
  y_sent y = y_got y ++ pending ∧
  (read_next 40 (mkJrn (y_cons y) (y_sh y))).1 = delivery (y_cons y) (y_sh y) pending.
Proof.
  destruct demo_run as (y & Hr & Hs & Hg & _ & _ & Hsm).
  destruct (journal_fifo 40 ltac:(lia) demo_start y demo_started Hr Hsm) as (pending & H1 & H2).
  by exists y, pending.
Defined.
Lemma drain_complete_witness : ∃ y, rtc (jstep 40) demo_start y ∧
  match (drain 40 6 (mkJrn (y_cons y) (y_sh y))).1 with
  | Ret frames => y_sent y = y_got y ++ frames ∧ y_refused y = false
  | Raise e => e = journal_invalid ∧ sh_invalid (y_sh y) ≠ 0%Z
  end.
Proof.
  destruct demo_run as (y & Hr & Hs & Hg & _ & Hm & Hsm). exists y. split; [done|].
  exact (drain_complete 40 ltac:(lia) demo_start y demo_started Hr Hsm Hm).
Defined.
Lemma publish_never_resumes_witness : ∃ y, rtc (jstep 40) demo_start y ∧
  (publish 40 1 [7]%Z [8]%Z (mkJrn (y_prod y) (y_sh y))).1 ≠ Ret true.
Proof.
  destruct demo_run as (y & Hr & _ & _ & Href & _ & Hsm). exists y. split; [done|].
  exact (publish_never_resumes 40 ltac:(lia) demo_start y 1 [7]%Z [8]%Z demo_started Hr Hsm Href).
Defined.
