(* ===== verification/Mirror.v ===== *)
(** * Recovery records and their mirror

    The record side of [src/src/kvcr/service/recovery_journal.py]: what of a block
    record survives its process ([_project_recovery_record]), what a reader accepts
    ([_decode_recovery_record]), the mirror a Guard keeps ([_RecoveryMirror]) and
    the observer that feeds the journal ([_attach_journal]).

    A [BlockValue] is a [_BlockRecord] with its residency objects inline: the mirror
    is the only owner of the objects its decoder made, or of those of a closed core. *)

From Stdlib Require Import ZArith Lia Ascii.
From S2P Require Import Prelude PyFloat Types Layout State Journal JournalThm.

Record BlockValue := mkBlockValue {
  v_fw_mem : bool;
  v_local_dram : option Residency;
  v_g3 : option G3Residency;
  v_in_flight_ops : option (gset OpId);
  v_access_count : Z;
  v_last_access : option float;
  v_position : Z }.

(** [bytes] keys on the wire. *)
Fixpoint key_bytes (k : BlockKey) : list Z :=
  match k with "" => [] | String c k => Z.of_nat (nat_of_ascii c) :: key_bytes k end.
Fixpoint bytes_key (l : list Z) : BlockKey :=
  match l with [] => "" | b :: l => String (ascii_of_nat (Z.to_nat b)) (bytes_key l) end.

(** ** Projection *)

Definition complete_dram (local_dram : option Residency) : bool :=
  match local_dram with
  | Some r => bool_decide (r_state r = READY) && negb (pending_nonempty r)
  | None => false
  end.
Definition is_recoverable (record : BlockValue) : bool :=
  match v_g3 record with Some _ => true | None => complete_dram (v_local_dram record) end.

Definition project_recovery_record (record : BlockValue) : RecoveryBlock :=
  {| rb_g2 := if complete_dram (v_local_dram record) then r_slots <$> v_local_dram record else None;
     rb_g3 := (λ disk, (g_layout disk, g_slots disk)) <$> v_g3 record;
     rb_position := v_position record |}.

(** ** Decoding *)

(** One label of a recovered layout; [seen] holds the labels before it. *)
Definition label_ok (pool_names : list string) (seen : gset label) (l : label) : bool :=
  let '(pool, separator, part) := partition_colon l in
  bool_decide (pool ∈ pool_names) &&
  negb (separator && (bool_decide (part = "" ∨ part = "*") || bool_decide (l ∈ seen))).
Fixpoint check_labels (pool_names : list string) (message : string) (seen : gset label)
    (labels : list label) : result unit :=
  match labels with
  | [] => mret tt
  | l :: labels =>
      if label_ok pool_names seen l then check_labels pool_names message ({[ l ]} ∪ seen) labels
      else Raise (ValueError message)
  end.

(** [_LocalDramResidency(slots, READY)] and [_G3Residency( *g3)]. *)
Definition recovered_value (rb : RecoveryBlock) : BlockValue :=
  {| v_fw_mem := false;
     v_local_dram := (λ slots, new_residency slots READY None None) <$> rb_g2 rb;
     v_g3 := (λ g, mkG3Residency g.1 g.2 0) <$> rb_g3 rb;
     v_in_flight_ops := None; v_access_count := 0; v_last_access := None;
     v_position := rb_position rb |}.

Section Codec.
(** msgspec's encoder, and its decoder of [_RecoveryBlock], which raises on
    malformed input. *)
Context (encode : RecoveryBlock → list Z) (decode : list Z → result RecoveryBlock).

Definition decode_recovery_record (payload : list Z) (pool_names : list string) : result BlockValue :=
  recovered ← decode payload;
  match rb_g3 recovered with
  | Some (layout, _) => check_labels pool_names "G3 recovery layout does not match the pool group" ∅ layout
  | None => mret tt
  end ;;
  check_labels pool_names "G2 recovery location does not match the pool group" ∅
    (layout_of (default [] (rb_g2 recovered))) ;;
  mret (recovered_value recovered).

(** ** [_RecoveryMirror] *)

Notation Mirror := (gmap BlockKey BlockValue).

(** Which exceptions [apply] converts: the decoder's and the checks'. *)
Definition malformed (e : exn) : bool :=
  match e with TypeError _ | ValueError _ | DecodeError _ => true | _ => false end.

Definition apply (pool_names : list string) (record_type : Z) (key payload : list Z)
    : M Mirror unit :=
  let block_key := bytes_key key in
  record ← try_except
    (if decide (record_type = RECORD_BLOCK)
     then lift (decode_recovery_record payload pool_names)
     else raise (ValueError "unknown recovery record type"))
    (λ e, raise (if malformed e then RecoveryMirrorError "recovery record is malformed" else e));
  match v_local_dram record, v_g3 record with
  | None, None => modify (delete block_key)
  | _, _ => modify <[block_key := record]>
  end.

Definition apply_all (pool_names : list string) (frames : list (Z * list Z * list Z)) : M Mirror unit :=
  for_each frames (λ fr, apply pool_names fr.1.1 fr.1.2 fr.2).

(** [adopt]: canonicalize one record of a closed core; [None] is a stale one. *)
Definition canonical_dram (r : Residency) : option Residency :=
  if decide (r_state r ≠ READY) then None
  else if pending_nonempty r then None
  else Some (r_set_refs (RefsDict ∅) (r_set_retire false (r_set_readers 0 (r_set_claims 0
         (r_set_fill (r_pending_labels r) 0 None None false r))))).
Definition canonical (record : BlockValue) : option BlockValue :=
  let record :=
    {| v_fw_mem := false;
       v_local_dram := v_local_dram record ≫= canonical_dram;
       v_g3 := (λ disk, mkG3Residency (g_layout disk) (g_slots disk) 0) <$> v_g3 record;
       v_in_flight_ops := None; v_access_count := 0; v_last_access := None;
       v_position := v_position record |} in
  if is_recoverable record then Some record else None.
Definition adopt (records : Mirror) : M Mirror unit := modify (λ _, omap canonical records).

Definition take_records : M Mirror Mirror :=
  records ← get;
  put ∅ ;;
  mret records.

(** [_recovery_frames] over the items of a table, in the dict's order. *)
Definition recovery_frames (items : list (BlockKey * BlockValue)) : list (Z * list Z * list Z) :=
  (λ kv, (RECORD_BLOCK, key_bytes kv.1, encode (project_recovery_record kv.2))) <$>
    filter (λ kv, is_recoverable kv.2) items.

(** ** [_attach_journal]: the observer's flag and the journal *)

Record Observer := mkObserver { o_enabled : bool; o_jrn : Jrn }.
Definition on_journal {A} (m : M Jrn A) : M Observer A := λ o,
  let '(r, j) := m (o_jrn o) in (r, mkObserver (o_enabled o) j).
Definition disable : M Observer unit := modify (λ o, mkObserver false (o_jrn o)).
(** [with suppress(Exception)] *)
Definition suppress {S A} (m : M S A) : M S unit := try_except (m ;; mret tt) (λ _, mret tt).

Definition observe_publish (cap : Z) (key : BlockKey) (record : BlockValue) : M Observer unit :=
  enabled ← gets o_enabled;
  if negb enabled then mret tt
  else
    let payload := encode (project_recovery_record record) in
    try_except
      (accepted ← on_journal (publish cap RECORD_BLOCK (key_bytes key) payload);
       if (accepted : bool) then mret tt else disable)
      (λ _, disable ;; suppress (on_journal invalidate)).

Definition preflight (cap : Z) (key : BlockKey) (record : BlockValue) (disk : G3Residency) : bool :=
  let candidate := mkBlockValue (v_fw_mem record) (v_local_dram record) (Some disk)
    (v_in_flight_ops record) (v_access_count record) (v_last_access record) (v_position record) in
  let payload := encode (project_recovery_record candidate) in
  let size := (FRAME_HEADER_SIZE + zlen (key_bytes key) + zlen payload)%Z in
  (size <=? MAX_FRAME_SIZE)%Z && (size + (- size) mod ALIGNMENT <=? cap)%Z.
End Codec.
