(* ===== verification/MirrorThm.v ===== *)
(** * What recovery carries over

    The theorems about [Mirror]: replaying what the observer published rebuilds the
    last state of every key, hostile frames leave only well-formed records, the two
    carriers of recovered state agree, and a publication that does not happen is
    always visible in the journal's flag. *)

From Stdlib Require Import ZArith Lia Ascii.
From S2P Require Import Prelude PyFloat Types Layout State Journal JournalThm Mirror.

(** ** Keys and shapes *)

Lemma bytes_key_bytes k : bytes_key (key_bytes k) = k.
Proof.
  induction k as [|c k IH]; simpl; [done|]. by rewrite Nat2Z.id, ascii_nat_embedding, IH.
Qed.

(** What [_RecoveryBlock]'s field types admit. *)
Record wire_valid (rb : RecoveryBlock) : Prop := {
  wv_g2 : ∀ slots, rb_g2 rb = Some slots → slots ≠ [] ∧ Forall (λ x, 0 <= x.2)%Z slots;
  wv_g3 : ∀ layout slots, rb_g3 rb = Some (layout, slots) →
    layout ≠ [] ∧ slots ≠ [] ∧ Forall (λ x, 0 <= x)%Z slots;
  wv_position : (-1 <= rb_position rb)%Z }.

(** A layout of configured pools whose parts are named once. *)
Fixpoint labels_ok (pool_names : list string) (seen : gset label) (labels : list label) : bool :=
  match labels with
  | [] => true
  | l :: labels => label_ok pool_names seen l && labels_ok pool_names ({[ l ]} ∪ seen) labels
  end.
Lemma check_labels_ok pool_names message seen labels :
  check_labels pool_names message seen labels =
    if labels_ok pool_names seen labels then Ret tt else Raise (ValueError message).
Proof.
  revert seen. induction labels as [|l labels IH]; intros seen; simpl; [done|].
  destruct (label_ok pool_names seen l); simpl; [apply IH|done].
Qed.

Definition layouts_ok (pool_names : list string) (rb : RecoveryBlock) : bool :=
  match rb_g3 rb with Some (layout, _) => labels_ok pool_names ∅ layout | None => true end &&
  labels_ok pool_names ∅ (layout_of (default [] (rb_g2 rb))).
Definition names_bytes (rb : RecoveryBlock) : bool :=
  match rb_g2 rb, rb_g3 rb with None, None => false | _, _ => true end.

Lemma project_names record :
  names_bytes (project_recovery_record record) = is_recoverable record.
Proof.
  unfold names_bytes, is_recoverable, project_recovery_record. simpl.
  destruct (v_g3 record), (v_local_dram record) as [r|]; simpl; try done; by destruct (_ && _).
Qed.

(** What [labels_ok] says: pools are configured, parts are named, and once. *)
Definition good_layout (pool_names : list string) (labels : list label) : Prop :=
  (∀ l, l ∈ labels → pool_of l ∈ pool_names ∧
     (has_colon l = true → (partition_colon l).2 ≠ "" ∧ (partition_colon l).2 ≠ "*")) ∧
  NoDup (filter (λ l, has_colon l = true) labels).
Lemma labels_ok_good pool_names seen labels : labels_ok pool_names seen labels = true →
  good_layout pool_names labels ∧ ∀ l, l ∈ labels → has_colon l = true → l ∉ seen.
Proof.
  revert seen. induction labels as [|l labels IH]; intros seen; simpl.
  { intros _. split; [split; [by intros l ?%not_elem_of_nil|constructor]|by intros l ?%not_elem_of_nil]. }
  intros [Hl (Hg & Hs)%IH]%andb_true_iff. destruct Hg as [Hg Hnd].
  unfold label_ok in Hl. destruct (partition_colon l) as [[pool sep] part] eqn:Hp.
  apply andb_true_iff in Hl as [Hpool%bool_decide_eq_true Hsep%negb_true_iff].
  assert (has_colon l = sep) as Hc by (unfold has_colon; by rewrite Hp).
  assert (sep = true → (part ≠ "" ∧ part ≠ "*") ∧ l ∉ seen) as Hpart.
  { intros ->. simpl in Hsep. apply orb_false_iff in Hsep as [H1%bool_decide_eq_false H2%bool_decide_eq_false].
    split; [split; intros ->; auto|done]. }
  split; [split|].
  - intros l' [->|Hl']%elem_of_cons; [|by apply Hg]. unfold pool_of. rewrite Hp. simpl.
    split; [done|]. rewrite Hc. intros Ht. by destruct (Hpart Ht).
  - destruct (decide (has_colon l = true)) as [Hd|Hd];
      [rewrite filter_cons_True by done|by rewrite filter_cons_False]. constructor; [|done].
    intros [_ Hin]%list_elem_of_filter. specialize (Hs l Hin Hd). set_solver.
  - intros l' [->|Hl']%elem_of_cons Ht; [rewrite Hc in Ht; by destruct (Hpart Ht)|].
    specialize (Hs l' Hl' Ht). set_solver.
Qed.

(** ** The mirror *)

Section Codec.
Context (encode : RecoveryBlock → list Z) (decode : list Z → result RecoveryBlock).
(** msgspec's documented contract: decoding an encoded value gives it back, decoding
    validates the field types, and malformed input raises [DecodeError]. *)
Hypothesis decode_encode : ∀ rb, wire_valid rb → decode (encode rb) = Ret rb.
Hypothesis decode_valid : ∀ payload rb, decode payload = Ret rb → wire_valid rb.
Hypothesis decode_raises : ∀ payload e, decode payload = Raise e → malformed e = true.
Context (pool_names : list string).
Notation Mirror := (gmap BlockKey BlockValue).

Lemma decode_record payload :
  decode_recovery_record decode payload pool_names =
    (rb ← decode payload;
     if layouts_ok pool_names rb then mret (recovered_value rb)
     else Raise (ValueError (if match rb_g3 rb with
                                | Some (layout, _) => labels_ok pool_names ∅ layout
                                | None => true end
       then "G2 recovery location does not match the pool group"
       else "G3 recovery layout does not match the pool group"))).
Proof.
  unfold decode_recovery_record. destruct (decode payload) as [rb|e]; [simpl|done].
  unfold layouts_ok. rewrite check_labels_ok.
  destruct (rb_g3 rb) as [[layout slots]|]; rewrite ?check_labels_ok; simpl;
    repeat (destruct (labels_ok _ _ _); simpl); done.
Qed.

(** The effect of one frame: the key's entry is replaced or dropped, or the frame is
    refused with [RecoveryMirrorError]. *)
Definition applied (key payload : list Z) (m : Mirror) : result Mirror :=
  match decode payload with
  | Ret rb =>
      if layouts_ok pool_names rb then
        Ret (if names_bytes rb then <[bytes_key key := recovered_value rb]> m
             else delete (bytes_key key) m)
      else Raise (RecoveryMirrorError "recovery record is malformed")
  | Raise _ => Raise (RecoveryMirrorError "recovery record is malformed")
  end.
Lemma apply_run key payload m :
  apply decode pool_names RECORD_BLOCK key payload m =
    match applied key payload m with
    | Ret m' => (Ret tt, m')
    | Raise e => (Raise e, m)
    end.
Proof.
  unfold apply, applied, mbind, M_bind, try_except. rewrite decide_True by done. unfold lift.
  rewrite decode_record. destruct (decode payload) as [rb|e] eqn:Hd; simpl.
  - destruct (layouts_ok pool_names rb); simpl; [|done].
    unfold names_bytes, recovered_value. simpl.
    destruct (rb_g2 rb), (rb_g3 rb); simpl; try done.
  - by rewrite (decode_raises _ _ Hd).
Qed.

(** *** Replay *)

Definition frame_of (kv : BlockKey * BlockValue) : Z * list Z * list Z :=
  (RECORD_BLOCK, key_bytes kv.1, encode (project_recovery_record kv.2)).
Definition publishable (kv : BlockKey * BlockValue) : Prop :=
  wire_valid (project_recovery_record kv.2) ∧
  layouts_ok pool_names (project_recovery_record kv.2) = true.
(** What a reader keeps of the last publication of a key. *)
Definition kept (record : BlockValue) : option BlockValue :=
  if is_recoverable record then Some (recovered_value (project_recovery_record record)) else None.
Definition last_published (k : BlockKey) (pubs : list (BlockKey * BlockValue)) : option BlockValue :=
  last (filter (λ kv, kv.1 = k) pubs) ≫= λ kv, kept kv.2.

Lemma replay_from pubs m0 : Forall publishable pubs →
  ∃ m, apply_all decode pool_names (frame_of <$> pubs) m0 = (Ret tt, m) ∧
    ∀ k, m !! k = if decide (k ∈ pubs.*1) then last_published k pubs else m0 !! k.
Proof.
  intros Hp. revert m0. induction Hp as [|[key v] pubs [Hw Hl] _ IH]; intros m0; [by exists m0|].
  simpl in Hw, Hl. unfold apply_all. simpl. unfold mbind, M_bind. rewrite apply_run. unfold applied.
  rewrite decode_encode by done. rewrite Hl, bytes_key_bytes, project_names.
  destruct (IH (match kept v with Some w => <[key := w]> m0 | None => delete key m0 end))
    as (m & Hm & Hk).
  exists m. split.
  { rewrite <- Hm. unfold kept. by destruct (is_recoverable v). }
  intros k. rewrite Hk. unfold last_published. rewrite filter_cons.
  change (list_fmap (string * BlockValue)%type string fst pubs) with (pubs.*1).
  destruct (decide (k ∈ pubs.*1)) as [Hin|Hout].
  - rewrite (decide_True (P := k ∈ key :: pubs.*1)) by set_solver.
    simpl. case_decide; [|done].
    destruct (filter (λ kv : BlockKey * BlockValue, kv.1 = k) pubs) as [|x l] eqn:Hf; [|done].
    exfalso. apply list_elem_of_fmap in Hin as (x & -> & Hx).
    assert (x ∈ filter (λ kv : BlockKey * BlockValue, kv.1 = x.1) pubs) as Hx'
      by (by apply list_elem_of_filter).
    rewrite Hf in Hx'. by apply not_elem_of_nil in Hx'.
  - assert (filter (λ kv : BlockKey * BlockValue, kv.1 = k) pubs = []) as Hf.
    { apply elem_of_nil_inv. intros x [<- Hx]%list_elem_of_filter. apply Hout.
      by apply list_elem_of_fmap_2. }
    simpl. rewrite Hf. destruct (decide (key = k)) as [->|Hne].
    + rewrite decide_True by set_solver. simpl. unfold kept.
      destruct (is_recoverable v); [by rewrite lookup_insert_eq|by rewrite lookup_delete_eq].
    + rewrite decide_False by set_solver.
      destruct (kept v); [by rewrite lookup_insert_ne|by rewrite lookup_delete_ne].
Qed.

(** C26: Replaying a core's publications into an empty mirror succeeds and leaves, for every
    key, what its last publication said: the complete residencies and the position, or
    nothing when that publication withdrew the key. *)
Theorem mirror_replay pubs : Forall publishable pubs →
  ∃ m, apply_all decode pool_names (frame_of <$> pubs) ∅ = (Ret tt, m) ∧
    ∀ k, m !! k = last_published k pubs.
Proof.
  intros Hp. destruct (replay_from pubs ∅ Hp) as (m & Hm & Hk). exists m. split; [done|].
  intros k. rewrite Hk. case_decide as Hin; [done|]. rewrite lookup_empty. symmetry.
  unfold last_published. destruct (last _) as [x|] eqn:Hlast; [|done].
  apply last_Some_elem_of, list_elem_of_filter in Hlast as [<- Hx].
  destruct Hin. by apply list_elem_of_fmap_2.
Qed.

(** *** Hostile frames *)

Record wf_value (v : BlockValue) : Prop := {
  wf_recoverable : is_recoverable v = true;
  wf_dram : ∀ r, v_local_dram v = Some r →
    r_slots r ≠ [] ∧ Forall (λ x, 0 <= x.2)%Z (r_slots r) ∧ good_layout pool_names (r_layout r) ∧
    r_key_layout r = r_layout r ∧ r_state r = READY ∧ pending_nonempty r = false ∧
    r_claim_count r = 0%Z ∧ r_source_readers r = 0%Z ∧ r_retire_on_release r = false ∧
    r_refs r = RefsDict ∅ ∧ r_indices_by_label r = None;
  wf_disk : ∀ d, v_g3 v = Some d →
    g_layout d ≠ [] ∧ g_slots d ≠ [] ∧ Forall (λ x, 0 <= x)%Z (g_slots d) ∧
    good_layout pool_names (g_layout d) ∧ g_claim_count d = 0%Z;
  wf_idle : v_fw_mem v = false ∧ v_in_flight_ops v = None ∧ v_access_count v = 0%Z ∧
    v_last_access v = None ∧ (-1 <= v_position v)%Z }.

Lemma recovered_wf rb : wire_valid rb → layouts_ok pool_names rb = true → names_bytes rb = true →
  wf_value (recovered_value rb).
Proof.
  intros [Hg2 Hg3 Hpos] [Hl3 Hl2]%andb_true_iff Hn.
  unfold recovered_value. split; simpl; try done.
  - unfold is_recoverable, names_bytes in *. simpl. destruct (rb_g3 rb); [done|].
    destruct (rb_g2 rb); [done|discriminate].
  - intros r. destruct (rb_g2 rb) as [slots|]; [|done]. simpl. intros [= <-].
    destruct (Hg2 _ eq_refl). split_and!; try done. by apply (labels_ok_good _ ∅).
  - intros d. destruct (rb_g3 rb) as [[layout slots]|]; [|done]. simpl. intros [= <-].
    destruct (Hg3 _ _ eq_refl) as (? & ? & ?). split_and!; try done.
    by apply (labels_ok_good _ ∅).
Qed.

(** C27: Whatever bytes are fed to a mirror, it raises nothing but [RecoveryMirrorError], and
    every record it holds afterwards names configured pools, complete non-empty slot
    lists and no claim, reader or operation of the process that died. *)
Theorem mirror_accepts_wellformed frames m :
  map_Forall (λ _, wf_value) m →
  wp (apply_all decode pool_names frames) (λ _ m', map_Forall (λ _, wf_value) m')
    (λ e m', (∃ msg, e = RecoveryMirrorError msg) ∧ map_Forall (λ _, wf_value) m') m.
Proof.
  intros Hm. apply (wp_for_each _ _ (λ _ m', map_Forall (λ _, wf_value) m')); [done| |done].
  clear m Hm. intros [[rt key] payload] rest m Hm. simpl. unfold wp.
  destruct (decide (rt = RECORD_BLOCK)) as [->|Hrt].
  - rewrite apply_run. unfold applied. destruct (decode payload) as [rb|e] eqn:Hd; [|by eauto].
    destruct (layouts_ok pool_names rb) eqn:Hl; [|by eauto].
    destruct (names_bytes rb) eqn:Hn.
    + apply map_Forall_insert_2; [|done]. by apply recovered_wf; [eapply decode_valid| |].
    + by apply map_Forall_delete.
  - unfold apply, mbind, M_bind, try_except. rewrite decide_False by done. simpl. by eauto.
Qed.

(** *** The two carriers *)

(** A Guard's mirror reads back whole: the frames of its table, in any order, rebuild
    for every key what the table's record lets a reader keep. *)
Lemma handback_replay (m : Mirror) items :
  items ≡ₚ map_to_list m → Forall publishable items →
  ∃ m', apply_all decode pool_names (recovery_frames encode items) ∅ = (Ret tt, m') ∧
    ∀ k, m' !! k = m !! k ≫= kept.
Proof.
  intros Hitems Hpub. set (l := filter (λ kv, is_recoverable kv.2) items).
  assert (recovery_frames encode items = frame_of <$> l) as -> by done.
  assert (Forall publishable l) as Hl by (by eapply submseteq_Forall; [apply filter_submseteq|]).
  destruct (replay_from l ∅ Hl) as (m' & Hm & Hk). exists m'. split; [done|].
  assert (∀ k v, (k, v) ∈ l ↔ m !! k = Some v ∧ is_recoverable v = true) as Hin.
  { intros k v. unfold l. rewrite list_elem_of_filter, Hitems, elem_of_map_to_list. simpl.
    rewrite Is_true_true. tauto. }
  intros k. rewrite Hk. clear Hm Hk. case_decide as Hmem.
  - unfold last_published. destruct (last _) as [[k' v]|] eqn:Hlast.
    + apply last_Some_elem_of, list_elem_of_filter in Hlast as [Hkk Hx]. simpl in Hkk. subst k'.
      apply Hin in Hx as [-> _]. done.
    + apply last_None in Hlast. apply list_elem_of_fmap in Hmem as ([k' v] & -> & Hx).
      assert ((k', v) ∈ filter (λ kv : BlockKey * BlockValue, kv.1 = k') l) as Hx'
        by (by apply list_elem_of_filter).
      simpl in Hlast. rewrite Hlast in Hx'. by apply not_elem_of_nil in Hx'.
  - rewrite lookup_empty. destruct (m !! k) as [v|] eqn:Hm; [|done]. simpl. unfold kept.
    destruct (is_recoverable v) eqn:Hr; [|done]. destruct Hmem.
    apply list_elem_of_fmap. by exists (k, v); split; [|apply Hin].
Qed.
End Codec.

(** A recovered residency has no piece index yet, and no empty set of pending pieces. *)
Definition forget (v : BlockValue) : BlockValue :=
  mkBlockValue (v_fw_mem v)
    ((λ r, r_set_index None (r_set_fill None (r_pending_deposits r) (r_writers r)
        (r_remote_indices r) (r_remote_cancelled r) r)) <$> v_local_dram v)
    (v_g3 v) (v_in_flight_ops v) (v_access_count v) (v_last_access v) (v_position v).

(** C34: The records a standing-down Guard keeps and the records read back from the frames of
    the same core describe the same pool. *)
Theorem carriers_agree record :
  (∀ r, v_local_dram record = Some r → r_key_layout r = r_layout r) →
  forget <$> canonical record = kept record.
Proof.
  intros Hlay. unfold canonical, kept, is_recoverable, project_recovery_record, recovered_value.
  destruct record as [fw [r|] g3 ops ac la pos]; simpl in *.
  - specialize (Hlay _ eq_refl). unfold canonical_dram, complete_dram, pending_nonempty.
    destruct r as [slots st cl ret kl pend dep wr ri rc refs ix rd]. unfold r_layout, layout_of in Hlay.
    simpl in *. subst kl. destruct st; simpl; try (by destruct g3).
    destruct pend as [pend|]; [|by destruct g3].
    destruct (bool_decide (pend ≠ ∅)) eqn:Hp; simpl; rewrite ?Hp; by destruct g3.
  - by destruct g3.
Qed.

(** ** The observer *)

Section Observer.
Context (encode : RecoveryBlock → list Z) (cap : Z) (Hcap : (0 < cap)%Z).

Lemma publish_post record_type key payload j :
  wp (publish cap record_type key payload)
    (λ accepted j', accepted = false → refused_in j j') (λ _ j', unpublishable record_type j) j.
Proof.
  unfold publish. apply wp_bind.
  eapply wp_mono; [apply (publish_plan_post cap record_type key payload j)| |done].
  intros [[p b]|] j' Hp; wp; [|done]. unfold publish_commit. wp. done.
Qed.

(** The observer never lets recovery miss a change silently.  It never raises into the
    allocator that called it; while it stays enabled every record handed to it was published;
    and once it is disabled the journal's flag is up, unless the pool was unmapped. *)
Theorem observer_never_silent key record o :
  o_enabled o = true →
  (jo_invalid_local (jr_side (o_jrn o)) = true → sh_invalid (jr_sh (o_jrn o)) ≠ 0%Z) →
  wp (observe_publish encode cap key record)
    (λ _ o',
       if o_enabled o'
       then publish cap RECORD_BLOCK (key_bytes key) (encode (project_recovery_record record)) (o_jrn o)
              = (Ret true, o_jrn o')
       else jo_mapped (jr_side (o_jrn o)) = false ∨ sh_invalid (jr_sh (o_jrn o')) ≠ 0%Z)
    (λ _ _, False) o.
Proof.
  intros Hen Hflag. unfold observe_publish. wp. rewrite Hen. simpl. apply wp_try_except, wp_bind.
  pose proof (publish_post RECORD_BLOCK (key_bytes key)
    (encode (project_recovery_record record)) (o_jrn o)) as Hp. unfold wp in Hp.
  unfold wp at 1, on_journal. destruct (publish _ _ _ _ _) as [[[]|e] j'] eqn:Hpub.
  - wp. simpl. by rewrite Hen.
  - destruct (Hp eq_refl) as (Hf & _ & Hi). unfold disable. wp. simpl. right.
    destruct Hi as [Hi|Hi]; [|done]. by apply (fl_rise _ _ Hf), Hflag.
  - destruct Hp as [Hm|Hrt]; [|by destruct Hrt; apply list_elem_of_singleton].
    unfold disable, suppress. wp. apply wp_try_except, wp_bind. unfold wp at 1, on_journal. simpl.
    destruct (invalidate j') as [[b|e'] j'']; wp; simpl; auto.
Qed.

(** A ring whose reader has caught up. *)
Definition drained (j : Jrn) : Prop :=
  jo_mapped (jr_side j) = true ∧ jo_invalid_local (jr_side j) = false ∧
  jo_published_local (jr_side j) = Some (sh_consumed (jr_sh j)) ∧
  (sh_consumed (jr_sh j) mod 8 = 0)%Z.

(** The disk tier's preflight is exact: it accepts a candidate residency precisely when a
    caught-up journal would accept the record that announces it. *)
Theorem preflight_exact key record disk j : drained j →
  (publish cap RECORD_BLOCK (key_bytes key) (encode (project_recovery_record
     (mkBlockValue (v_fw_mem record) (v_local_dram record) (Some disk) (v_in_flight_ops record)
        (v_access_count record) (v_last_access record) (v_position record)))) j).1 =
    Ret (preflight encode cap key record disk).
Proof.
  intros (Hm & Hi & Hp & Hal). unfold preflight. set (payload := encode _).
  destruct j as [[m pl cl il] [iv pb cs rg]]. simpl in *. subst.
  unfold publish, publish_plan, require_mapping, gets, mbind, M_bind. simpl.
  fold (frame_size (key_bytes key) payload). set (size := frame_size (key_bytes key) payload).
  change (size + - size mod ALIGNMENT)%Z with (stored_size size).
  destruct (decide (size > MAX_FRAME_SIZE)%Z) as [Hbig|Hsz].
  { simpl. rewrite (proj2 (Z.leb_gt _ _)) by lia. done. }
  rewrite (proj2 (Z.leb_le size _)) by lia. simpl.
  assert (valid_cursors cap cs cs = true) as ->.
  { unfold valid_cursors, ALIGNMENT. rewrite !andb_true_iff, !Z.eqb_eq, !Z.leb_le. lia. }
  simpl. destruct (decide (stored_size size > cap - (cs - cs))%Z) as [Hfull|Hfit].
  { rewrite (proj2 (Z.leb_gt _ _)) by lia. done. }
  rewrite (proj2 (Z.leb_le (stored_size size) _)) by lia.
  assert (good_frame (RECORD_BLOCK, key_bytes key, payload)) as Hg.
  { split; simpl; [by apply list_elem_of_singleton|]. fold size. lia. }
  destruct (enc_good _ Hg) as (h & Hpack & _). simpl in Hpack. unfold lift.
  fold size in Hpack. rewrite Hpack. done.
Qed.
End Observer.

(** ** A codec that satisfies the contract *)

Module Demo.

Fixpoint pos_bytes (p : positive) : list Z :=
  match p with xH => [] | xO p => 0%Z :: pos_bytes p | xI p => 1%Z :: pos_bytes p end.
Fixpoint bytes_pos (l : list Z) : option positive :=
  match l with
  | [] => Some xH
  | 0%Z :: l => xO <$> bytes_pos l
  | 1%Z :: l => xI <$> bytes_pos l
  | _ => None
  end.
Lemma bytes_pos_bytes p : bytes_pos (pos_bytes p) = Some p.
Proof. induction p as [p IH|p IH|]; simpl; rewrite ?IH; done. Qed.

Definition to_tuple (rb : RecoveryBlock) := (rb_g2 rb, rb_g3 rb, rb_position rb).
Definition of_tuple (t : option (list (label * Z)) * option (list label * list Z) * Z) :=
  mkRecoveryBlock t.1.1 t.1.2 t.2.

Definition wire_check (rb : RecoveryBlock) : bool :=
  match rb_g2 rb with
  | Some slots => bool_decide (slots ≠ [] ∧ Forall (λ x, 0 <= x.2)%Z slots)
  | None => true
  end &&
  match rb_g3 rb with
  | Some (layout, slots) => bool_decide (layout ≠ [] ∧ slots ≠ [] ∧ Forall (λ x, 0 <= x)%Z slots)
  | None => true
  end && (-1 <=? rb_position rb)%Z.
Lemma wire_check_valid rb : wire_check rb = true ↔ wire_valid rb.
Proof.
  unfold wire_check. rewrite !andb_true_iff, Z.leb_le. split.
  - intros [[H2 H3] Hp]. split; [intros slots Hs|intros layout slots Hs|done].
    + rewrite Hs in H2. by apply bool_decide_eq_true in H2.
    + rewrite Hs in H3. by apply bool_decide_eq_true in H3.
  - intros [H2 H3 Hp]. split_and!; [| |done].
    + destruct (rb_g2 rb) as [slots|]; [|done]. by apply bool_decide_eq_true, H2.
    + destruct (rb_g3 rb) as [[layout slots]|]; [|done]. by apply bool_decide_eq_true, H3.
Qed.

Definition encode (rb : RecoveryBlock) : list Z := pos_bytes (countable.encode (to_tuple rb)).
Definition decode (payload : list Z) : result RecoveryBlock :=
  match bytes_pos payload ≫= countable.decode with
  | Some t => if wire_check (of_tuple t) then Ret (of_tuple t) else Raise (DecodeError "validation")
  | None => Raise (DecodeError "malformed")
  end.

Lemma decode_encode rb : wire_valid rb → decode (encode rb) = Ret rb.
Proof.
  intros Hw. unfold decode, encode. rewrite bytes_pos_bytes. simpl. rewrite countable.decode_encode.
  replace (of_tuple (to_tuple rb)) with rb by (by destruct rb).
  by rewrite (proj2 (wire_check_valid rb) Hw).
Qed.
Lemma decode_valid payload rb : decode payload = Ret rb → wire_valid rb.
Proof.
  unfold decode. destruct (_ ≫= _) as [t|]; [|done]. destruct (wire_check _) eqn:Hc; [|done].
  intros [= <-]. by apply wire_check_valid.
Qed.
Lemma decode_raises payload e : decode payload = Raise e → malformed e = true.
Proof. unfold decode. destruct (_ ≫= _) as [t|]; [destruct (wire_check _)|]; by intros [= <-]. Qed.

Definition stored_block : BlockValue :=
  mkBlockValue true (Some (new_residency [("a", 3%Z)] READY None None)) None None 7 None 4.
Definition disk_block : BlockValue :=
  mkBlockValue false (Some (new_residency [("a", 1%Z)] FILLING None None))
    (Some (mkG3Residency ["a"] [5%Z] 2)) None 0 None 9.
Definition gone_block : BlockValue := mkBlockValue false None None None 0 None 4.
Definition pubs : list (BlockKey * BlockValue) :=
  [("k", stored_block); ("j", disk_block); ("k", gone_block); ("i", stored_block)].

Lemma pubs_publishable : Forall (publishable ["a"]) pubs.
Proof.
  repeat (apply Forall_cons; split; [split; [apply wire_check_valid; vm_compute; reflexivity|reflexivity]|]).
  apply Forall_nil_2.
Qed.
End Demo.

Lemma mirror_replay_witness :
  ∃ m, apply_all Demo.decode ["a"] (frame_of Demo.encode <$> Demo.pubs) ∅ = (Ret tt, m) ∧
    m !! "k" = None ∧ m !! "j" = Some (recovered_value (mkRecoveryBlock None (Some (["a"], [5%Z])) 9)).
Proof.
  destruct (mirror_replay Demo.encode Demo.decode Demo.decode_encode
    Demo.decode_valid Demo.decode_raises ["a"] Demo.pubs
    Demo.pubs_publishable) as (m & Hm & Hk).
  exists m. split; [exact Hm|]. rewrite !Hk. split; vm_compute; reflexivity.
Defined.
Lemma mirror_accepts_wellformed_witness :
  wp (apply_all Demo.decode ["a"] [(1, [7], [0; 9]); (3, [], [])]%Z)
    (λ _ m', map_Forall (λ _, wf_value ["a"]) m')
    (λ e m', (∃ msg, e = RecoveryMirrorError msg) ∧ map_Forall (λ _, wf_value ["a"]) m') ∅.
Proof.
  apply (mirror_accepts_wellformed Demo.decode Demo.decode_valid Demo.decode_raises ["a"]).
  apply map_Forall_empty.
Defined.
Lemma carriers_agree_witness : forget <$> canonical Demo.stored_block = kept Demo.stored_block ∧
  is_recoverable Demo.stored_block = true.
Proof. split; [apply carriers_agree; by intros r [= <-]|reflexivity]. Defined.
Lemma observer_never_silent_witness :
  let j := (reset (mkJrn new_side (mkShared 0 0 0 demo_ring))).2 in
  wp (observe_publish Demo.encode 40 "k" Demo.stored_block)
    (λ _ o', if o_enabled o'
       then publish 40 RECORD_BLOCK (key_bytes "k")
              (Demo.encode (project_recovery_record Demo.stored_block)) j = (Ret true, o_jrn o')
       else jo_mapped (jr_side j) = false ∨ sh_invalid (jr_sh (o_jrn o')) ≠ 0%Z)
    (λ _ _, False) (mkObserver true j).
Proof. intros j. by apply (observer_never_silent Demo.encode 40 "k" Demo.stored_block (mkObserver true j)). Defined.
Lemma preflight_exact_witness :
  (publish 40 RECORD_BLOCK (key_bytes "k") (Demo.encode (project_recovery_record
     (mkBlockValue true (v_local_dram Demo.stored_block) (Some (mkG3Residency ["a"] [5%Z] 0)) None 7 None 4)))
     (reset (mkJrn new_side (mkShared 0 0 0 demo_ring))).2).1 =
  Ret (preflight Demo.encode 40 "k" Demo.stored_block (mkG3Residency ["a"] [5%Z] 0)).
Proof.
  apply (preflight_exact Demo.encode 40 ltac:(lia) "k" Demo.stored_block (mkG3Residency ["a"] [5%Z] 0)).
  by split_and!.
Defined.
