(* ===== verification/Snapshot.v ===== *)
(** * The handback region

    The region a Guard leaves past a pool for the next claimant:
    [write_recovery_snapshot], [read_recovery_snapshot] and [read_handback] of
    [src/src/kvcr/service/recovery_journal.py], over the region operations of
    [KVCRPoolAttachment] ([src/src/kvcr/service/memory.py]) and the geometry helpers of
    [src/src/kvcr/service/memmap.py].  The state is the pool's file. *)

From Stdlib Require Import ZArith Lia.
From S2P Require Import Prelude Types State Journal JournalThm Mirror.

(** ** Geometry *)

Definition round_up (size alignment : Z) : Z := ((size + alignment - 1) / alignment * alignment)%Z.

Section Region.
(** [mmap.ALLOCATIONGRANULARITY], the huge-page size of the file's filesystem or 0, and
    the pool's [mapping_bytes]. *)
Context (granularity huge mapping_bytes : Z).

Definition align (size : Z) : Z := if decide (huge = 0%Z) then size else round_up size huge.
Definition region_offset : Z := align (round_up mapping_bytes granularity).

(** [os.ftruncate]: cut, or extend with zeros. *)
Definition ftruncate (size : Z) (file : list Z) : list Z :=
  take (Z.to_nat size) file ++ replicate (Z.to_nat size - length file) 0%Z.

(** [release_snapshot_region] *)
Definition release_snapshot_region (file : list Z) : list Z := ftruncate region_offset file.
(** [mapped_snapshot] *)
Definition mapped_snapshot (file : list Z) : option (list Z) :=
  if decide (zlen file - region_offset <= 0)%Z then None
  else Some (drop (Z.to_nat region_offset) file).
(** [snapshot_region] up to the yield: the file grown or cut to hold the region. *)
Definition open_region (size : Z) (file : list Z) : list Z :=
  ftruncate (region_offset + align size) file.
(** A write into the mapped region. *)
Definition store_region (a : Z) (data file : list Z) : list Z :=
  splice (region_offset + a) data file.

(** ** Writing *)

Definition SNAPSHOT_HEADER_SIZE : Z := 40.
(** [struct.Struct("<32sQ").pack] and [unpack_from]: a 32-byte digest and a size. *)
Definition pack_snapshot_header (digest : list Z) (size : Z) : list Z := digest ++ le 8 size.
Definition unpack_snapshot_header (l : list Z) : list Z * Z :=
  (take 32 l, unle (take 8 (drop 32 l))).

(** hashlib's SHA-256. *)
Context (sha256 : list Z → list Z).
Context (terms : list Z).

Fixpoint snapshot_body (frames : list (Z * list Z * list Z)) : result (list Z) :=
  match frames with
  | [] => Ret []
  | (record_type, key, payload) :: frames =>
      if decide (frame_size key payload > MAX_FRAME_SIZE)%Z
      then Raise (RecoveryJournalError "handback frame is too large")
      else
        frame ← pack_frame record_type key payload (frame_size key payload);
        rest ← snapshot_body frames;
        mret (frame ++ rest)
  end.

(** The states the file goes through when a body is written, the final one last: the
    region opened, the old header cleared, the body stored, the header stored. *)
Definition write_states (body file : list Z) : list (list Z) :=
  let f1 := open_region (SNAPSHOT_HEADER_SIZE + zlen body) file in
  let f2 := store_region 0 (replicate (Z.to_nat SNAPSHOT_HEADER_SIZE) 0%Z) f1 in
  let f3 := store_region SNAPSHOT_HEADER_SIZE body f2 in
  let f4 := store_region 0 (pack_snapshot_header (sha256 (terms ++ body)) (zlen body)) f3 in
  [f1; f2; f3; f4].

Definition write_recovery_snapshot (frames : list (Z * list Z * list Z)) : M (list Z) unit :=
  body ← lift (snapshot_body frames);
  if decide (body = []) then modify release_snapshot_region
  else modify (λ file, default file (last (write_states body file))).

(** ** Reading *)

(** The frames between [offset] and [end] of the region.  The fuel bounds the frames. *)
Fixpoint parse_frames (fuel : nat) (region : list Z) (offset end_ : Z)
    : list (Z * list Z * list Z) * option exn :=
  match fuel with
  | 0 => ([], Some (RuntimeError "out of fuel"))
  | S fuel =>
      if decide (end_ <= offset)%Z then ([], None)
      else if decide (end_ - offset < FRAME_HEADER_SIZE)%Z
      then ([], Some (RecoveryJournalError "handback frame header is truncated"))
      else
        let '(size, record_type, key_size) :=
          unpack_header (slice offset (offset + FRAME_HEADER_SIZE) region) in
        if decide (size < FRAME_HEADER_SIZE + key_size ∨ offset + size > end_)%Z
        then ([], Some (RecoveryJournalError "handback frame is malformed"))
        else if decide (record_type ∉ RECORD_TYPES)
        then ([], Some (RecoveryJournalError "handback frame has an unknown type"))
        else
          let key_start := (offset + FRAME_HEADER_SIZE)%Z in
          let key_end := (key_start + key_size)%Z in
          let '(frames, error) := parse_frames fuel region (offset + size) end_ in
          ((record_type, slice key_start key_end region, slice key_end (offset + size) region)
             :: frames, error)
  end.

(** [read_recovery_snapshot]: the frames yielded, and the exception that ended the
    iteration, if one did. *)
Definition read_recovery_snapshot (file : list Z) : list (Z * list Z * list Z) * option exn :=
  match mapped_snapshot file with
  | None => ([], None)
  | Some region =>
      let available := zlen region in
      if decide (available < SNAPSHOT_HEADER_SIZE)%Z
      then ([], Some (RecoveryJournalTornError "handback region is truncated"))
      else
        let '(digest, size) := unpack_snapshot_header region in
        if decide (size = 0)%Z
        then ([], Some (RecoveryJournalTornError "handback region is unfinished"))
        else if decide (size > available - SNAPSHOT_HEADER_SIZE)%Z
        then ([], Some (RecoveryJournalTornError "handback region length disagrees"))
        else if decide (digest ≠ sha256 (terms ++ slice SNAPSHOT_HEADER_SIZE (SNAPSHOT_HEADER_SIZE + size) region))
        then ([], Some (RecoveryJournalError "handback region is unfinished or was written for other terms"))
        else parse_frames (S (Z.to_nat size)) region SNAPSHOT_HEADER_SIZE (SNAPSHOT_HEADER_SIZE + size)
  end.

(** [read_handback]: the mirror of what was left, and the file, whose region is thrown
    away when its write never finished. *)
Definition read_handback (decode : list Z → result RecoveryBlock) (pool_names : list string)
    : M (list Z) (gmap BlockKey BlockValue) :=
  file ← get;
  let '(frames, error) := read_recovery_snapshot file in
  let '(r, mirror) := apply_all decode pool_names frames ∅ in
  match r, error with
  | Raise e, _ => raise e
  | Ret _, Some (RecoveryJournalTornError _) => modify release_snapshot_region ;; mret ∅
  | Ret _, Some e => raise e
  | Ret _, None => mret mirror
  end.
End Region.

(** ** What a region must not be replayed across *)

(** [bytes.fromhex] of lower-case digits. *)
Definition hex_digit (c : Ascii.ascii) : Z :=
  let n := Z.of_nat (Ascii.nat_of_ascii c) in if (n <? 97)%Z then (n - 48)%Z else (n - 87)%Z.
Fixpoint fromhex (s : string) : list Z :=
  match s with
  | String a (String b s) => (16 * hex_digit a + hex_digit b)%Z :: fromhex s
  | _ => []
  end.

(** [_PoolDescriptor], and the fields of [KVCRPoolSpec] the terms bind. *)
Record PoolDescriptor := mkPoolDescriptor {
  pd_name : string; pd_size_bytes : Z; pd_block_size_bytes : Z; pd_offset_bytes : Z }.
Record PoolSpec := mkPoolSpec {
  ps_generation : string; ps_journal_bytes : Z; ps_mapping_bytes : Z;
  ps_device : Z; ps_inode : Z }.

(** [struct.Struct("<QQQQ").pack] *)
Definition pack_terms (spec : PoolSpec) : result (list Z) :=
  let fields := [ps_journal_bytes spec; ps_mapping_bytes spec; ps_device spec; ps_inode spec] in
  if decide (Forall (λ v, 0 <= v < 2 ^ 64)%Z fields) then Ret (fields ≫= le 8)
  else Raise (StructError "int too large to convert").

Section Terms.
(** [msgspec.msgpack.encode] of the pool group. *)
Context (encode_pools : list PoolDescriptor → list Z).
Definition SNAPSHOT_DOMAIN : list Z := key_bytes "KVCR-HANDBACK" ++ [0%Z].
Definition canonical_pool_terms (compatibility_digest : string) (pools : list PoolDescriptor)
    (spec : PoolSpec) : result (list Z) :=
  packed ← pack_terms spec;
  mret (SNAPSHOT_DOMAIN ++ key_bytes compatibility_digest ++ [0%Z] ++
        fromhex (ps_generation spec) ++ encode_pools pools ++ packed).
End Terms.
