(* ===== verification/SnapshotThm.v ===== *)
(** * A handback is read whole or not at all

    Theorems about [Snapshot]: what was written is read back, a write that its process
    did not finish is recognized and thrown away, and a region written under other
    terms is refused. *)

From Stdlib Require Import ZArith Lia Ascii.
From S2P Require Import Prelude Types Layout State Journal JournalThm Mirror MirrorThm Snapshot.

(** ** Frames without padding *)

Definition raw (fr : Z * list Z * list Z) : list Z :=
  match pack_frame fr.1.1 fr.1.2 fr.2 (frame_size fr.1.2 fr.2) with Ret b => b | Raise _ => [] end.
Definition raws (frs : list (Z * list Z * list Z)) : list Z := frs ≫= raw.

Lemma raw_good fr : good_frame fr → ∃ h,
  pack_frame fr.1.1 fr.1.2 fr.2 (frame_size fr.1.2 fr.2) = Ret (raw fr) ∧
  pack_header (frame_size fr.1.2 fr.2) fr.1.1 (zlen fr.1.2) = Ret h ∧ length h = 6 ∧
  raw fr = h ++ fr.1.2 ++ fr.2 ∧ zlen (raw fr) = frame_size fr.1.2 fr.2.
Proof.
  intros Hg. destruct (enc_good fr Hg) as (h & _ & Hh & Hlen & _). exists h.
  assert (pack_frame fr.1.1 fr.1.2 fr.2 (frame_size fr.1.2 fr.2) = Ret (h ++ fr.1.2 ++ fr.2)) as Hp.
  { unfold pack_frame. rewrite Hh. simpl. by rewrite Z.sub_diag, app_nil_r. }
  unfold raw. rewrite Hp. split_and!; try done. unfold frame_size, FRAME_HEADER_SIZE.
  rewrite !zlen_app. unfold zlen. lia.
Qed.

Lemma slice_app a b pre m suf : a = zlen pre → b = (a + zlen m)%Z → slice a b (pre ++ m ++ suf) = m.
Proof.
  intros -> ->. unfold slice. replace (zlen pre + zlen m - zlen pre)%Z with (zlen m) by lia.
  unfold zlen. rewrite !Nat2Z.id, drop_app_length. apply take_app_length.
Qed.

Lemma snapshot_body_raws frs : Forall good_frame frs → snapshot_body frs = Ret (raws frs).
Proof.
  induction 1 as [|[[rt key] payload] frs Hg _ IH]; [done|]. cbn [snapshot_body].
  destruct (raw_good _ Hg) as (h & Hp & _). destruct Hg as [_ Hsz]. simpl in Hsz, Hp.
  rewrite decide_False by lia. rewrite Hp, IH. done.
Qed.

Lemma raws_bound frs : Forall good_frame frs → length frs <= length (raws frs).
Proof.
  induction 1 as [|fr frs Hg _ IH]; [done|]. change (raws (fr :: frs)) with (raw fr ++ raws frs).
  destruct (raw_good fr Hg) as (h & _ & _ & Hh & -> & _). rewrite !length_app. simpl. lia.
Qed.

Lemma parse_frames_run frs fuel pre suf : Forall good_frame frs → length frs < fuel →
  parse_frames fuel (pre ++ raws frs ++ suf) (zlen pre) (zlen pre + zlen (raws frs)) = (frs, None).
Proof.
  intros Hg. revert fuel pre. induction Hg as [|fr frs Hg _ IH]; intros fuel pre Hfuel;
    (destruct fuel as [|fuel]; [lia|]).
  - change (zlen (raws [])) with 0%Z. simpl. by rewrite decide_True by lia.
  - change (raws (fr :: frs)) with (raw fr ++ raws frs) in *. rewrite zlen_app.
    destruct (raw_good fr Hg) as (h & _ & Hh & Hlen & Hraw & Hz).
    pose proof (zlen_nonneg (raws frs)).
    specialize (IH fuel (pre ++ raw fr) ltac:(simpl in Hfuel; lia)). rewrite <- app_assoc, zlen_app in IH.
    rewrite <- (app_assoc (raw fr)).
    destruct fr as [[rt key] payload]. simpl in Hh, Hraw, Hz. destruct Hg as [Hrt Hsz]. simpl in Hrt, Hsz.
    assert (6 + zlen key + zlen payload = frame_size key payload)%Z as Hfs by done.
    pose proof (zlen_nonneg key). pose proof (zlen_nonneg payload). cbn [parse_frames].
    unfold FRAME_HEADER_SIZE. rewrite decide_False by lia. rewrite decide_False by lia.
    assert (slice (zlen pre) (zlen pre + 6) (pre ++ raw (rt, key, payload) ++ raws frs ++ suf) = h) as ->.
    { rewrite Hraw, <- app_assoc. apply slice_app; [done|]. unfold zlen. lia. }
    destruct (unpack_pack _ _ _ _ [] Hh) as [Hu _]. rewrite app_nil_r in Hu. rewrite Hu.
    rewrite decide_False by (unfold FRAME_HEADER_SIZE; lia).
    rewrite decide_False by (intros Hn; by apply Hn).
    rewrite <- Hz. rewrite Z.add_assoc. rewrite IH.
    unfold FRAME_HEADER_SIZE.
    assert (slice (zlen pre + 6) (zlen pre + 6 + zlen key)
      (pre ++ raw (rt, key, payload) ++ raws frs ++ suf) = key) as ->.
    { rewrite Hraw, <- !app_assoc, (app_assoc pre). apply slice_app; rewrite ?zlen_app; unfold zlen; lia. }
    assert (slice (zlen pre + 6 + zlen key) (zlen pre + zlen (raw (rt, key, payload)))
      (pre ++ raw (rt, key, payload) ++ raws frs ++ suf) = payload) as ->; [|done].
    rewrite Hz, Hraw, <- !app_assoc, (app_assoc pre), (app_assoc (pre ++ h)).
    apply slice_app; rewrite ?zlen_app; unfold zlen in *; lia.
Qed.

(** ** The region of a file *)

Section Region.
Context (granularity huge mapping_bytes : Z).
Hypothesis Hgran : (0 < granularity)%Z.
Hypothesis Hhuge : (0 <= huge)%Z.
Hypothesis Hmap : (0 <= mapping_bytes)%Z.
Notation off := (region_offset granularity huge mapping_bytes).

Lemma round_up_bounds size a : (0 < a)%Z → (size <= round_up size a < size + a)%Z ∧ (round_up size a mod a = 0)%Z.
Proof.
  intros Ha. unfold round_up. split; [|apply Z.mod_mul; lia].
  pose proof (Z.div_mod (size + a - 1) a ltac:(lia)). pose proof (Z.mod_pos_bound (size + a - 1) a Ha). lia.
Qed.
Lemma align_ge size : (size <= align huge size)%Z.
Proof.
  unfold align. case_decide; [lia|]. pose proof (round_up_bounds size huge ltac:(lia)). lia.
Qed.
Lemma offset_nonneg : (0 <= off)%Z.
Proof.
  unfold region_offset. pose proof (round_up_bounds mapping_bytes granularity Hgran).
  pose proof (align_ge (round_up mapping_bytes granularity)). lia.
Qed.

Lemma ftruncate_length size file : (0 <= size)%Z → zlen (ftruncate size file) = size.
Proof.
  intros Hs. unfold ftruncate, zlen. rewrite length_app, length_take, length_replicate. lia.
Qed.

(** The bytes past the pool. *)
Definition region (file : list Z) : list Z := drop (Z.to_nat off) file.
Lemma mapped_region file : (off < zlen file)%Z →
  mapped_snapshot granularity huge mapping_bytes file = Some (region file).
Proof. intros Hl. unfold mapped_snapshot. by rewrite decide_False by lia. Qed.

Lemma store_region_spec a data file : (0 <= a)%Z → (off + a + zlen data <= zlen file)%Z →
  zlen (store_region granularity huge mapping_bytes a data file) = zlen file ∧
  take (Z.to_nat off) (store_region granularity huge mapping_bytes a data file) =
    take (Z.to_nat off) file ∧
  region (store_region granularity huge mapping_bytes a data file) = splice a data (region file).
Proof.
  intros Ha Hl. pose proof offset_nonneg as Ho. unfold store_region, region, zlen in *.
  pose proof (splice_length (off + a) data file ltac:(lia) ltac:(unfold zlen; lia)) as Hlen.
  split_and!.
  - by rewrite Hlen.
  - apply list_eq. intros i. destruct (decide (Z.of_nat i < off)%Z).
    + rewrite !lookup_take_lt by lia. rewrite splice_lookup by (unfold zlen; lia).
      by rewrite decide_False by lia.
    + rewrite !lookup_take_ge by lia. done.
  - apply list_eq. intros i. rewrite lookup_drop, splice_lookup by (unfold zlen; lia).
    rewrite splice_lookup by (rewrite ?length_drop; unfold zlen; rewrite ?length_drop; lia).
    rewrite lookup_drop. repeat case_decide; try (unfold zlen in *; lia); [|done]. f_equal. lia.
Qed.

(** A header and a body stored at the front of a region. *)
Lemma splice_header_body (hdr body rg : list Z) : length hdr = 40 → (40 + zlen body <= zlen rg)%Z →
  splice 0 hdr (splice SNAPSHOT_HEADER_SIZE body rg) =
    hdr ++ body ++ drop (40 + length body) rg.
Proof.
  intros Hh Hl. unfold splice, SNAPSHOT_HEADER_SIZE, zlen in *. simpl. rewrite Hh. f_equal.
  change (Z.to_nat 40) with 40. rewrite drop_app_length'; [done|]. rewrite length_take. lia.
Qed.

(** ** A complete write *)

Context (sha256 : list Z → list Z) (Hsha : ∀ m, length (sha256 m) = 32) (terms : list Z).
Notation R body := (align huge (SNAPSHOT_HEADER_SIZE + zlen body)).
Notation header body := (pack_snapshot_header (sha256 (terms ++ body)) (zlen body)).
Notation read := (read_recovery_snapshot granularity huge mapping_bytes sha256 terms).
Notation write := (write_recovery_snapshot granularity huge mapping_bytes sha256 terms).

Lemma header_length body : length (header body) = 40.
Proof. unfold pack_snapshot_header. by rewrite length_app, Hsha, le_length. Qed.
Lemma unpack_header_app body rest : (zlen body < 2 ^ 64)%Z →
  unpack_snapshot_header (header body ++ rest) = (sha256 (terms ++ body), zlen body).
Proof.
  intros Hb. unfold unpack_snapshot_header, pack_snapshot_header. rewrite <- app_assoc. f_equal.
  - by rewrite take_app_length' by (by rewrite Hsha).
  - rewrite drop_app_length' by (by rewrite Hsha). rewrite take_app_length' by (by rewrite le_length).
    apply unle_le. pose proof (zlen_nonneg body). simpl. lia.
Qed.

(** Reading a region that holds a header, its body, and anything after. *)
Lemma read_header_body terms' body rest file :
  (off < zlen file)%Z → region file = header body ++ body ++ rest → body ≠ [] →
  (zlen body < 2 ^ 64)%Z →
  read_recovery_snapshot granularity huge mapping_bytes sha256 terms' file =
    if decide (sha256 (terms ++ body) ≠ sha256 (terms' ++ body))
    then ([], Some (RecoveryJournalError "handback region is unfinished or was written for other terms"))
    else parse_frames (S (Z.to_nat (zlen body))) (region file) 40 (40 + zlen body).
Proof.
  intros Hl Hr Hne Hb. unfold read_recovery_snapshot. rewrite mapped_region by done.
  rewrite Hr, unpack_header_app by done. unfold SNAPSHOT_HEADER_SIZE.
  assert (zlen (header body ++ body ++ rest) = 40 + zlen body + zlen rest)%Z as Hz.
  { rewrite !zlen_app. unfold zlen at 1. rewrite header_length. lia. }
  pose proof (zlen_nonneg body). pose proof (zlen_nonneg rest). rewrite Hz.
  assert (zlen body ≠ 0%Z). { unfold zlen. destruct body; [done|simpl; lia]. }
  rewrite decide_False by lia. rewrite decide_False by lia. rewrite decide_False by lia.
  rewrite (slice_app 40 (40 + zlen body)); [done| |done]. unfold zlen. by rewrite header_length.
Qed.

(** The steps of a write keep the file's size and the pool's own bytes. *)
Lemma write_states_spec body file : (mapping_bytes <= zlen file)%Z →
  ∃ f1 f2 f3 f4, write_states granularity huge mapping_bytes sha256 terms body file = [f1; f2; f3; f4] ∧
    f1 = open_region granularity huge mapping_bytes (SNAPSHOT_HEADER_SIZE + zlen body) file ∧
    Forall (λ f, zlen f = (off + R body)%Z ∧
      take (Z.to_nat mapping_bytes) f = take (Z.to_nat mapping_bytes) file) [f1; f2; f3; f4] ∧
    region f2 = replicate 40 0%Z ++ drop 40 (region f1) ∧
    region f3 = replicate 40 0%Z ++ body ++ drop (40 + length body) (region f1) ∧
    region f4 = header body ++ body ++ drop (40 + length body) (region f1).
Proof.
  intros Hfile. pose proof offset_nonneg as Ho. pose proof (zlen_nonneg body) as Hb.
  assert (mapping_bytes <= off)%Z as Hmo.
  { unfold region_offset. pose proof (round_up_bounds mapping_bytes granularity Hgran).
    pose proof (align_ge (round_up mapping_bytes granularity)). lia. }
  pose proof (align_ge (SNAPSHOT_HEADER_SIZE + zlen body)) as HR. unfold SNAPSHOT_HEADER_SIZE in HR.
  unfold write_states. change (Z.to_nat SNAPSHOT_HEADER_SIZE) with 40.
  set (f1 := open_region granularity huge mapping_bytes (SNAPSHOT_HEADER_SIZE + zlen body) file).
  set (f2 := store_region granularity huge mapping_bytes 0 (replicate 40 0%Z) f1).
  set (f3 := store_region granularity huge mapping_bytes SNAPSHOT_HEADER_SIZE body f2).
  set (f4 := store_region granularity huge mapping_bytes 0 (header body) f3).
  assert (zlen f1 = (off + R body)%Z) as L1
    by (apply ftruncate_length; unfold SNAPSHOT_HEADER_SIZE in *; lia).
  assert (take (Z.to_nat mapping_bytes) f1 = take (Z.to_nat mapping_bytes) file) as T1.
  { unfold f1, open_region, ftruncate. rewrite take_app_le.
    - rewrite take_take. f_equal. unfold SNAPSHOT_HEADER_SIZE in *. lia.
    - rewrite length_take. unfold zlen, SNAPSHOT_HEADER_SIZE in *. lia. }
  assert (∀ f g : list Z, take (Z.to_nat off) f = take (Z.to_nat off) g →
    take (Z.to_nat mapping_bytes) f = take (Z.to_nat mapping_bytes) g) as Tm.
  { intros f g Hfg. apply (f_equal (take (Z.to_nat mapping_bytes))) in Hfg.
    rewrite !take_take in Hfg. by replace (Z.to_nat mapping_bytes `min` Z.to_nat off)
      with (Z.to_nat mapping_bytes) in Hfg by lia. }
  destruct (store_region_spec 0 (replicate 40 0%Z) f1) as (L2 & T2 & R2);
    [lia|rewrite zlen_replicate; unfold SNAPSHOT_HEADER_SIZE in *; lia|fold f2 in L2, T2, R2].
  destruct (store_region_spec SNAPSHOT_HEADER_SIZE body f2) as (L3 & T3 & R3);
    [done|unfold SNAPSHOT_HEADER_SIZE in *; lia|fold f3 in L3, T3, R3].
  destruct (store_region_spec 0 (header body) f3) as (L4 & T4 & R4);
    [lia|unfold zlen at 1; rewrite header_length; unfold SNAPSHOT_HEADER_SIZE in *; lia|fold f4 in L4, T4, R4].
  assert (40 + zlen body <= zlen (region f1))%Z as Hreg.
  { unfold region, zlen in *. rewrite length_drop. unfold SNAPSHOT_HEADER_SIZE in *. lia. }
  assert (splice 0 (replicate 40 0%Z) (region f1) = replicate 40 0%Z ++ drop 40 (region f1)) as E2 by done.
  rewrite E2 in R2.
  assert (region f3 = replicate 40 0%Z ++ body ++ drop (40 + length body) (region f1)) as E3.
  { rewrite R3, R2. unfold splice, SNAPSHOT_HEADER_SIZE. change (Z.to_nat 40) with 40.
    rewrite take_app_length' by done. f_equal. f_equal.
    rewrite <- drop_drop, drop_app_length', drop_drop by done. f_equal. }
  exists f1, f2, f3, f4. split_and!; try done.
  - repeat (apply Forall_cons; split; [split; [lia|etransitivity; [|exact T1]; auto; apply Tm; congruence]|]).
    apply Forall_nil_2.
  - rewrite R4, E3. unfold splice. simpl. f_equal. rewrite header_length. done.
Qed.

Lemma region_size (body f : list Z) : (zlen f = off + R body)%Z → (40 <= R body)%Z ∧ (off < zlen f)%Z.
Proof.
  intros Hl. pose proof (align_ge (SNAPSHOT_HEADER_SIZE + zlen body)) as HR.
  unfold SNAPSHOT_HEADER_SIZE in *. pose proof (zlen_nonneg body). lia.
Qed.
Lemma release_empty file :
  mapped_snapshot granularity huge mapping_bytes
    (release_snapshot_region granularity huge mapping_bytes file) = None.
Proof.
  unfold mapped_snapshot, release_snapshot_region.
  rewrite ftruncate_length by apply offset_nonneg. by rewrite decide_True by lia.
Qed.

Lemma write_then_read frames file :
  Forall good_frame frames → (zlen (raws frames) < 2 ^ 64)%Z → (mapping_bytes <= zlen file)%Z →
  ∃ file', write frames file = (Ret tt, file') ∧ read file' = (frames, None) ∧
    take (Z.to_nat mapping_bytes) file' = take (Z.to_nat mapping_bytes) file.
Proof.
  intros Hg Hsize Hfile. unfold write_recovery_snapshot, modify, mbind, M_bind, lift.
  rewrite snapshot_body_raws by done. case_decide as Hnil.
  - assert (frames = []) as ->.
    { pose proof (raws_bound frames Hg) as Hb. rewrite Hnil in Hb. destruct frames; [done|simpl in Hb; lia]. }
    eexists. split; [done|]. unfold read_recovery_snapshot. rewrite release_empty.
    split; [done|]. unfold release_snapshot_region, ftruncate.
    assert (mapping_bytes <= off)%Z.
    { unfold region_offset. pose proof (round_up_bounds mapping_bytes granularity Hgran).
      pose proof (align_ge (round_up mapping_bytes granularity)). lia. }
    rewrite take_app_le by (rewrite length_take; unfold zlen in *; lia).
    rewrite take_take. f_equal. lia.
  - destruct (write_states_spec (raws frames) file Hfile) as (f1 & f2 & f3 & f4 & -> & _ & HF & _ & _ & H4).
    exists f4. split; [done|]. apply list.Forall_forall with (x := f4) in HF as [Hl Ht]; [|set_solver].
    split; [|done]. destruct (region_size _ _ Hl) as [_ Hoff].
    rewrite (read_header_body terms (raws frames) _ f4 Hoff H4 Hnil Hsize), H4, decide_False by auto.
    rewrite <- (parse_frames_run frames (S (Z.to_nat (zlen (raws frames)))) (header (raws frames))
      (drop (40 + length (raws frames)) (region f1)) Hg).
    + replace (zlen (header (raws frames))) with 40%Z; [done|].
      unfold zlen at 1. by rewrite header_length.
    + pose proof (raws_bound frames Hg). unfold zlen. lia.
Qed.

(** *** An unfinished write *)

(** A store in progress: each byte of the file is the old or the new one. *)
Definition between (f f' g : list Z) : Prop :=
  length g = length f ∧ ∀ j : nat, g !! j = f !! j ∨ g !! j = f' !! j.

Lemma read_zero_header file : (off + 40 <= zlen file)%Z →
  (∀ i, i < 40 → region file !! i = Some 0%Z) →
  read file = ([], Some (RecoveryJournalTornError "handback region is unfinished")).
Proof.
  intros Hl Hz. unfold read_recovery_snapshot. rewrite mapped_region by lia.
  assert (region file = replicate 40 0%Z ++ drop 40 (region file)) as Hr.
  { rewrite <- (take_drop 40 (region file)) at 1. f_equal. apply list_eq. intros i.
    destruct (decide (i < 40)) as [Hi|Hi].
    - rewrite lookup_take_lt by done. rewrite Hz by done. by rewrite lookup_replicate_2.
    - rewrite lookup_take_ge by lia. rewrite lookup_ge_None_2; [done|]. rewrite length_replicate. lia. }
  pose proof offset_nonneg. rewrite decide_False.
  2:{ unfold region, SNAPSHOT_HEADER_SIZE, zlen in *. rewrite length_drop. lia. }
  rewrite Hr. unfold unpack_snapshot_header. done.
Qed.


(** *** A handback *)

(** The state a Guard hands back reaches the next claimant whole.  Writing the frames of its
    table past the pool and reading them under the same terms rebuilds, for every key, what
    the table's record lets a reader keep; the pool's own bytes are not touched. *)
Theorem handback_round_trip encode decode pool_names (m : gmap BlockKey BlockValue) items file :
  (∀ rb, wire_valid rb → decode (encode rb) = Ret rb) →
  (∀ payload rb, decode payload = Ret rb → wire_valid rb) →
  (∀ payload e, decode payload = Raise e → malformed e = true) →
  items ≡ₚ map_to_list m → Forall (publishable pool_names) items →
  Forall good_frame (recovery_frames encode items) →
  (zlen (raws (recovery_frames encode items)) < 2 ^ 64)%Z → (mapping_bytes <= zlen file)%Z →
  ∃ file' m', write (recovery_frames encode items) file = (Ret tt, file') ∧
    read_handback granularity huge mapping_bytes sha256 terms decode pool_names file' = (Ret m', file') ∧
    (∀ k, m' !! k = m !! k ≫= kept) ∧
    take (Z.to_nat mapping_bytes) file' = take (Z.to_nat mapping_bytes) file.
Proof.
  intros H1 H2 H3 Hitems Hpub Hg Hsize Hfile.
  destruct (write_then_read _ file Hg Hsize Hfile) as (file' & Hw & Hr & Ht).
  destruct (handback_replay encode decode H1 H2 H3 pool_names m items Hitems Hpub) as (m' & Hm & Hk).
  exists file', m'. split_and!; try done.
  unfold read_handback, mbind, M_bind, get. by rewrite Hr, Hm.
Qed.

(** A frame too large for the format refuses the whole snapshot before the file is touched. *)
Theorem oversized_snapshot_refused frames file :
  Exists (λ fr, frame_size fr.1.2 fr.2 > MAX_FRAME_SIZE)%Z frames →
  Forall (λ fr, fr.1.1 ∈ RECORD_TYPES) frames →
  write frames file = (Raise (RecoveryJournalError "handback frame is too large"), file).
Proof.
  intros Hex Hty. assert (snapshot_body frames = Raise (RecoveryJournalError "handback frame is too large")) as Hb.
  { induction Hty as [|[[rt key] payload] frames Hrt _ IH]; [by inversion Hex|]. cbn [snapshot_body].
    case_decide as Hsz; [done|].
    destruct (raw_good (rt, key, payload)) as (h & Hp & _); [split; simpl in *; [done|lia]|].
    simpl in Hp. rewrite Hp. simpl. rewrite IH; [done|]. by inversion Hex. }
  unfold write_recovery_snapshot, mbind, M_bind, lift. by rewrite Hb.
Qed.

(** A finished region written under other terms is refused and kept: the claim fails, and
    the file still holds what was written. *)
Theorem other_terms_refused decode pool_names terms' frames file file' :
  frames ≠ [] → Forall good_frame frames → (zlen (raws frames) < 2 ^ 64)%Z →
  (mapping_bytes <= zlen file)%Z → write frames file = (Ret tt, file') →
  sha256 (terms' ++ raws frames) ≠ sha256 (terms ++ raws frames) →
  read_handback granularity huge mapping_bytes sha256 terms' decode pool_names file' =
    (Raise (RecoveryJournalError "handback region is unfinished or was written for other terms"), file').
Proof.
  intros Hne Hg Hsize Hfile Hw Hdig.
  assert (raws frames ≠ []) as Hnil.
  { pose proof (raws_bound frames Hg) as Hb. intros He. rewrite He in Hb. by destruct frames; simpl in Hb; [|lia]. }
  unfold write_recovery_snapshot, modify, mbind, M_bind, lift in Hw.
  rewrite snapshot_body_raws, decide_False in Hw by done.
  destruct (write_states_spec (raws frames) file Hfile) as (f1 & f2 & f3 & f4 & Hs & _ & HF & _ & _ & H4).
  rewrite Hs in Hw. injection Hw as <-. simpl.
  apply list.Forall_forall with (x := f4) in HF as [Hl Ht]; [|set_solver].
  destruct (region_size _ _ Hl) as [_ Hoff].
  unfold read_handback, mbind, M_bind, get.
  rewrite (read_header_body terms' (raws frames) _ f4 Hoff H4 Hnil Hsize).
  by rewrite decide_True by congruence.
Qed.
End Region.

(** ** Terms *)

(** A generation is 32 lower-case hexadecimal digits, a digest has no NUL byte. *)
Definition hex_char (c : ascii) : bool :=
  let n := Z.of_nat (nat_of_ascii c) in
  ((48 <=? n) && (n <=? 57) || (97 <=? n) && (n <=? 102))%Z.
Fixpoint hex_string (s : string) : bool :=
  match s with "" => true | String c s => hex_char c && hex_string s end.

Lemma hex_digit_inj a b : hex_char a = true → hex_char b = true → hex_digit a = hex_digit b → a = b.
Proof.
  unfold hex_char, hex_digit. set (x := Z.of_nat (nat_of_ascii a)). set (y := Z.of_nat (nat_of_ascii b)).
  intros Ha Hb He. assert (x = y).
  { destruct (Z.ltb_spec x 97), (Z.ltb_spec y 97);
      rewrite ?orb_true_iff, ?andb_true_iff, ?Z.leb_le in *; lia. }
  rewrite <- (ascii_nat_embedding a), <- (ascii_nat_embedding b). f_equal. unfold x, y in *. lia.
Qed.
Lemma hex_digit_bounds a : hex_char a = true → (0 <= hex_digit a < 16)%Z.
Proof.
  unfold hex_char, hex_digit. set (x := Z.of_nat (nat_of_ascii a)). intros Ha.
  destruct (Z.ltb_spec x 97); rewrite orb_true_iff, !andb_true_iff, !Z.leb_le in Ha; lia.
Qed.
Lemma fromhex_inj n s t : hex_string s = true → hex_string t = true →
  String.length s = 2 * n → String.length t = 2 * n → fromhex s = fromhex t → s = t.
Proof.
  revert s t. induction n as [|n IH]; intros s t Hs Ht Hls Hlt He.
  - by destruct s, t.
  - destruct s as [|a [|b s]], t as [|c [|d t]]; simpl in *; try lia; try discriminate.
    apply andb_true_iff in Hs as [Ha [Hb Hs]%andb_true_iff], Ht as [Hc [Hd Ht]%andb_true_iff].
    injection He as H1 H2.
    pose proof (hex_digit_bounds a Ha). pose proof (hex_digit_bounds b Hb).
    pose proof (hex_digit_bounds c Hc). pose proof (hex_digit_bounds d Hd).
    rewrite (hex_digit_inj a c), (hex_digit_inj b d) by (done || lia).
    by rewrite (IH s t) by (done || lia).
Qed.
Lemma fromhex_length n s : String.length s = 2 * n → length (fromhex s) = n.
Proof.
  revert s. induction n as [|n IH]; intros s Hs; [by destruct s|].
  destruct s as [|a [|b s]]; simpl in *; try lia. by rewrite IH by lia.
Qed.
Lemma le_inj n a b : (0 <= a < 256 ^ Z.of_nat n)%Z → (0 <= b < 256 ^ Z.of_nat n)%Z →
  le n a = le n b → a = b.
Proof. intros Ha Hb He. by rewrite <- (unle_le n a Ha), <- (unle_le n b Hb), He. Qed.
Lemma key_bytes_inj s t : key_bytes s = key_bytes t → s = t.
Proof. intros He. by rewrite <- (bytes_key_bytes s), <- (bytes_key_bytes t), He. Qed.

(** The text before the first NUL. *)
Lemma nul_split (a b a' b' : list Z) : 0%Z ∉ a → 0%Z ∉ a' → a ++ 0%Z :: b = a' ++ 0%Z :: b' → a = a' ∧ b = b'.
Proof.
  revert a'. induction a as [|x a IH]; intros [|x' a'] Ha Ha' He; simpl in *.
  - by injection He as ->.
  - injection He as <- _. set_solver.
  - injection He as -> _. set_solver.
  - injection He as <- He. destruct (IH a') as [-> ->]; set_solver.
Qed.

Lemma pack_terms_inv spec p : pack_terms spec = Ret p →
  p = le 8 (ps_journal_bytes spec) ++ le 8 (ps_mapping_bytes spec) ++
      le 8 (ps_device spec) ++ le 8 (ps_inode spec) ∧
  Forall (λ v, 0 <= v < 256 ^ Z.of_nat 8)%Z
    [ps_journal_bytes spec; ps_mapping_bytes spec; ps_device spec; ps_inode spec].
Proof.
  unfold pack_terms. case_decide as Hf; [|done]. intros He. split; [|exact Hf].
  apply (f_equal (λ r, match r with Ret x => x | Raise _ => [] end)) in He.
  rewrite <- He. cbn [mbind list_bind]. by rewrite app_nil_r.
Qed.
Lemma pack_terms_inj spec spec' p : pack_terms spec = Ret p → pack_terms spec' = Ret p →
  ps_journal_bytes spec = ps_journal_bytes spec' ∧ ps_mapping_bytes spec = ps_mapping_bytes spec' ∧
  ps_device spec = ps_device spec' ∧ ps_inode spec = ps_inode spec' ∧ length p = 32.
Proof.
  intros [Hp Hf]%pack_terms_inv [Hp' Hf']%pack_terms_inv. rewrite Hp in Hp'.
  rewrite !Forall_cons in Hf, Hf'. destruct Hf as (A1 & A2 & A3 & A4 & _), Hf' as (B1 & B2 & B3 & B4 & _).
  apply app_inj_1 in Hp' as [E1 Hp']; [|by rewrite !le_length].
  apply app_inj_1 in Hp' as [E2 Hp']; [|by rewrite !le_length].
  apply app_inj_1 in Hp' as [E3 E4]; [|by rewrite !le_length].
  split_and!; try (by eapply (le_inj 8)). rewrite Hp, !length_app, !le_length. done.
Qed.

(** Different pools have different terms: a digest, a pool group, a generation, a geometry or a
    file identity that differs changes the bytes a handback region is bound to. *)
Theorem terms_injective encode_pools digest digest' pools pools' spec spec' terms :
  (∀ p q, encode_pools p = encode_pools q → p = q) →
  0%Z ∉ key_bytes digest → 0%Z ∉ key_bytes digest' →
  hex_string (ps_generation spec) = true → String.length (ps_generation spec) = 32 →
  hex_string (ps_generation spec') = true → String.length (ps_generation spec') = 32 →
  canonical_pool_terms encode_pools digest pools spec = Ret terms →
  canonical_pool_terms encode_pools digest' pools' spec' = Ret terms →
  digest = digest' ∧ pools = pools' ∧ spec = spec'.
Proof.
  intros Hinj Hd Hd' Hg Hl Hg' Hl' Ht Ht'. unfold canonical_pool_terms in Ht, Ht'.
  destruct (pack_terms spec) as [p|] eqn:Hp; [|by inversion Ht].
  destruct (pack_terms spec') as [p'|] eqn:Hp'; [|by inversion Ht'].
  rewrite <- Ht' in Ht. apply (f_equal (λ r, match r with Ret x => x | Raise _ => [] end)) in Ht as He.
  cbn [mbind result_bind mret result_ret] in He. apply app_inj_1 in He as [E1 He]; [|done].
  apply nul_split in He as [Ek%key_bytes_inj He]; [|done..].
  apply app_inj_1 in He as [Eg He]; [|by rewrite !(fromhex_length 16)].
  assert (length p = 32 ∧ length p' = 32) as [L L'].
  { split; [by apply (pack_terms_inj spec spec)|by apply (pack_terms_inj spec' spec')]. }
  apply app_inj_2 in He as [Epo <-]; [|congruence].
  destruct (pack_terms_inj _ _ _ Hp Hp') as (? & ? & ? & ? & _).
  apply (fromhex_inj 16) in Eg; [|done..]. split_and!; [done|by apply Hinj|].
  destruct spec, spec'. simpl in *. by subst.
Qed.

(** ** Concrete regions *)

Module SnapDemo.
Definition sha (m : list Z) : list Z := le 32 (unle m).
Lemma sha_length m : length (sha m) = 32.
Proof. apply le_length. Qed.
Definition file : list Z := replicate 24 5%Z.
Definition frames : list (Z * list Z * list Z) := [(1, [7; 8], [9]); (1, [], [])]%Z.
Lemma frames_good : Forall good_frame frames.
Proof. repeat (apply Forall_cons; split; [split; [by left|done]|]). apply Forall_nil_2. Qed.
Definition items : list (BlockKey * BlockValue) := [("j", Demo.disk_block); ("i", Demo.gone_block)].
Definition table : gmap BlockKey BlockValue := <["j" := Demo.disk_block]> {[ "i" := Demo.gone_block ]}.
Definition encode_pools (pools : list PoolDescriptor) : list Z :=
  Demo.pos_bytes (countable.encode
    ((λ p, (pd_name p, pd_size_bytes p, pd_block_size_bytes p, pd_offset_bytes p)) <$> pools)).
Lemma encode_pools_inj p q : encode_pools p = encode_pools q → p = q.
Proof.
  unfold encode_pools. intros He%(f_equal Demo.bytes_pos). rewrite !Demo.bytes_pos_bytes in He.
  injection He as He%(inj countable.encode). revert q He.
  induction p as [|[] p IH]; intros [|[] q]; [done..|]. intros [= -> -> -> -> He]. by rewrite (IH q).
Qed.
Definition spec : PoolSpec := mkPoolSpec "0123456789abcdef0123456789abcdef" 8192 65536 3 4.
End SnapDemo.

Lemma handback_round_trip_witness : ∃ file' m',
  write_recovery_snapshot 16 0 24 SnapDemo.sha [1; 2]%Z (recovery_frames Demo.encode SnapDemo.items)
    SnapDemo.file = (Ret tt, file') ∧
  read_handback 16 0 24 SnapDemo.sha [1; 2]%Z Demo.decode ["a"] file' = (Ret m', file') ∧
  m' !! "i" = None.
Proof.
  destruct (handback_round_trip 16 0 24 ltac:(lia) ltac:(lia) ltac:(lia) SnapDemo.sha SnapDemo.sha_length
    [1; 2]%Z Demo.encode Demo.decode ["a"] SnapDemo.table SnapDemo.items SnapDemo.file
    Demo.decode_encode Demo.decode_valid Demo.decode_raises) as (file' & m' & H1 & H2 & H3 & _).
  - unfold SnapDemo.table. rewrite map_to_list_insert by done. by rewrite map_to_list_singleton.
  - repeat (apply Forall_cons; split;
      [split; [apply Demo.wire_check_valid; vm_compute; reflexivity|reflexivity]|]). apply Forall_nil_2.
  - apply Forall_cons. split; [split; [by left|vm_compute; discriminate]|apply Forall_nil_2].
  - vm_compute. reflexivity.
  - vm_compute. discriminate.
  - exists file', m'. split; [exact H1|]. split; [exact H2|]. rewrite H3. vm_compute. reflexivity.
Defined.
Lemma oversized_snapshot_refused_witness :
  write_recovery_snapshot 16 0 24 SnapDemo.sha [1; 2]%Z [(1%Z, [], replicate (Z.to_nat 65530) 0%Z)]
    SnapDemo.file = (Raise (RecoveryJournalError "handback frame is too large"), SnapDemo.file).
Proof.
  apply oversized_snapshot_refused.
  - apply Exists_cons_hd. unfold frame_size. cbn [fst snd]. rewrite zlen_replicate.
    unfold FRAME_HEADER_SIZE, MAX_FRAME_SIZE. change (zlen (@nil Z)) with 0%Z. lia.
  - apply Forall_cons. split; [by left|apply Forall_nil_2].
Defined.
Lemma other_terms_refused_witness : ∃ file',
  read_handback 16 0 24 SnapDemo.sha [3]%Z Demo.decode ["a"] file' =
    (Raise (RecoveryJournalError "handback region is unfinished or was written for other terms"), file').
Proof.
  eexists. eapply (other_terms_refused 16 0 24 ltac:(lia) ltac:(lia) ltac:(lia) SnapDemo.sha
    SnapDemo.sha_length [1; 2]%Z Demo.decode ["a"] [3]%Z SnapDemo.frames SnapDemo.file).
  - discriminate.
  - apply SnapDemo.frames_good.
  - vm_compute. reflexivity.
  - vm_compute. discriminate.
  - reflexivity.
  - vm_compute. discriminate.
Defined.
Lemma terms_injective_witness :
  ∃ terms, canonical_pool_terms SnapDemo.encode_pools "ab" [] SnapDemo.spec = Ret terms ∧
    ∀ digest pools, 0%Z ∉ key_bytes digest →
      canonical_pool_terms SnapDemo.encode_pools digest pools SnapDemo.spec = Ret terms → digest = "ab".
Proof.
  eexists. split; [reflexivity|]. intros digest pools Hd Ht.
  destruct (terms_injective SnapDemo.encode_pools digest "ab" pools [] SnapDemo.spec SnapDemo.spec _
    SnapDemo.encode_pools_inj Hd ltac:(vm_compute; set_solver) eq_refl eq_refl eq_refl eq_refl Ht eq_refl)
    as [-> _]. reflexivity.
Defined.
