(* ===== verification/Transfer.v ===== *)
(** * Registered memory and NIXL transfers

    The transfer half of [src/src/kvcr/runtime/progress.py]: resolving a memory
    reference to its registration ([_resolve_region]), the prepared descriptor grids
    ([prepare_memory], [_prepared_indices]) and the life of a transfer handle
    ([submit_transfer], [poll_transfer], [_release_transfer]); with the registration
    checks of [src/src/kvcr/runtime/core.py].  The NIXL agent is outside the
    repository: its answers are arguments. *)

From Stdlib Require Import ZArith Lia.
From S2P Require Import Prelude PyFloat Types Layout State.

(** ** Registrations *)

(** [RegionDescriptor] of [src/src/kvcr/types.py]. *)
Record RegionDescriptor := mkRegion {
  rd_mem_type : string;
  rd_device_Id : Z;
  rd_addr : Z;
  rd_stride : Z;
  rd_count : Z;
  rd_size : Z;
  rd_label : label }.
#[export] Instance RegionDescriptor_eq_dec : EqDecision RegionDescriptor.
Proof. solve_decision. Defined.

(** The framework's and KVCR's registrations by name, in dict order. *)
Definition RegionMaps : Type := list (string * RegionDescriptor) * list (string * RegionDescriptor).

(** [dict.get] *)
Fixpoint assoc {A} (k : string) (l : list (string * A)) : option A :=
  match l with [] => None | (k', a) :: l => if decide (k' = k) then Some a else assoc k l end.

(** [region.stride or region.size] *)
Definition pitch (r : RegionDescriptor) : Z := if decide (rd_stride r = 0%Z) then rd_size r else rd_stride r.

Definition uint64_max : Z := (2 ^ 64 - 1)%Z.
Definition in_range (minimum v : Z) : bool := (minimum <=? v)%Z && (v <=? uint64_max)%Z.

(** One turn of [_validate_memory_regions]; [counts] is the elements seen per type. *)
Definition validate_region (counts : gmap string Z) (region : RegionDescriptor) : result (gmap string Z) :=
  if negb (in_range 0 (rd_addr region) && in_range 1 (rd_size region) &&
           in_range 0 (rd_device_Id region) && in_range 0 (rd_stride region) &&
           in_range 1 (rd_count region))
  then Raise (ValueError "registration must be in uint64 range")
  else if decide (rd_stride region ≠ 0 ∧ rd_stride region < rd_size region)%Z
  then Raise (ValueError "registration stride must be zero or at least size")
  else if decide (rd_addr region + (rd_size region + (rd_count region - 1) * pitch region) > uint64_max)%Z
  then Raise (ValueError "registration extent exceeds uint64 address range")
  else if decide (rd_mem_type region = "")
  then Raise (ValueError "registration memory type must be a non-empty string")
  else
    let '(_, separator, part) := partition_colon (rd_label region) in
    if separator && bool_decide (part = "")
    then Raise (ValueError "registration name must be a pool or pool:part string")
    else
      let n := (default 0 (counts !! rd_mem_type region) + rd_count region)%Z in
      if decide (n > 2 ^ 31)%Z then Raise (ValueError "registration indices exceed int32 range")
      else Ret (<[rd_mem_type region := n]> counts).
Fixpoint validate_memory_regions (counts : gmap string Z) (regions : list RegionDescriptor)
    : result (gmap string Z) :=
  match regions with
  | [] => Ret counts
  | region :: regions => counts ← validate_region counts region; validate_memory_regions counts regions
  end.

Definition resolve_region (ref : TransferRef) (regions : RegionMaps) (agent_name : string)
    : result RegionDescriptor :=
  if decide (tr_end_point ref ≠ agent_name)
  then Raise (ValueError "memory reference has the wrong owning agent")
  else
    let '(framework, kvcr) := regions in
    let region :=
      if tr_framework ref then
        match assoc (tr_label ref) framework with
        | Some region => Some region
        | None => if has_colon (tr_label ref)
                  then assoc (pool_of (tr_label ref) +:+ ":*") framework else None
        end
      else assoc (pool_of (tr_label ref)) kvcr in
    match region with
    | None => Raise (ValueError "no registration")
    | Some region =>
        if decide (0 <= tr_element_index ref < rd_count region)%Z then Ret region
        else Raise (ValueError "memory reference element_index is outside its region")
    end.

(** [_address_descriptor] of core.py: the memory of one element. *)
Definition element (region : RegionDescriptor) (i : Z) : MemDescriptor :=
  mkMemDescriptor (rd_mem_type region) (rd_addr region + i * pitch region)%Z (rd_size region)
    (rd_device_Id region).
Definition address_descriptor (regions : RegionMaps) (agent_name : string) (ref : TransferRef)
    : result MemDescriptor :=
  region ← resolve_region ref regions agent_name;
  mret (element region (tr_element_index ref)).

(** ** Prepared grids *)

(** The registrations of one memory type, framework first, as [prepare_memory] lays
    them out. *)
Definition grid_entries (regions : RegionMaps) (mem_type : string) : list (bool * RegionDescriptor) :=
  filter (λ e, rd_mem_type e.2 = mem_type)
    (((λ kr, (true, kr.2)) <$> regions.1) ++ ((λ kr, (false, kr.2)) <$> regions.2)).

(** The two offset dicts of a grid: a registration's first row. *)
Definition Offsets : Type := gmap (bool * label) Z.
Fixpoint grid_offsets (offset : Z) (entries : list (bool * RegionDescriptor)) (offsets : Offsets) : Offsets :=
  match entries with
  | [] => offsets
  | (framework, region) :: entries =>
      grid_offsets (offset + rd_count region) entries (<[(framework, rd_label region) := offset]> offsets)
  end.

(** The rows NIXL expands a grid to: every element of every registration in turn. *)
Definition region_rows (region : RegionDescriptor) : list MemDescriptor :=
  element region <$> seqZ 0 (rd_count region).
Definition grid_rows (entries : list (bool * RegionDescriptor)) : list MemDescriptor :=
  entries ≫= λ e, region_rows e.2.

(** The transfers a progress thread owns. *)
Record TransferState := mkTransfer {
  x_handle : Z;
  x_remote : string;
  x_outcome : option bool }.

Record Prog := mkProg {
  g_prepared : gmap string (gmap string (Z * Offsets));
  g_catalogs : gmap string (string * RegionMaps);
  g_transfers : gmap Z TransferState;
  g_disconnected : gset string;
  g_next_transfer_id : Z }.

Definition set_prepared (v : gmap string (gmap string (Z * Offsets))) (p : Prog) : Prog :=
  mkProg v (g_catalogs p) (g_transfers p) (g_disconnected p) (g_next_transfer_id p).
Definition set_catalogs (v : gmap string (string * RegionMaps)) (p : Prog) : Prog :=
  mkProg (g_prepared p) v (g_transfers p) (g_disconnected p) (g_next_transfer_id p).
Definition set_transfers (v : gmap Z TransferState) (p : Prog) : Prog :=
  mkProg (g_prepared p) (g_catalogs p) v (g_disconnected p) (g_next_transfer_id p).
Definition set_disconnected (v : gset string) (p : Prog) : Prog :=
  mkProg (g_prepared p) (g_catalogs p) (g_transfers p) v (g_next_transfer_id p).
Definition set_next_transfer_id (v : Z) (p : Prog) : Prog :=
  mkProg (g_prepared p) (g_catalogs p) (g_transfers p) (g_disconnected p) v.

(** [by_type]'s keys in order of first registration. *)
Definition mem_types (regions : RegionMaps) : list string :=
  first_occurrences [] ((λ kr, rd_mem_type kr.2) <$> regions.1 ++ regions.2).

Section Grids.
(** [prep_xfer_dlist]: the handle of a grid, or its failure; and whether
    [release_dlist_handle] lets a handle go. *)
Context (prep_xfer_dlist : string → string → result (option Z)) (release_dlist_handle : Z → bool).
(** The agent's own name. *)
Context (nixl_agent_name : string).

Definition release_prepared (agent_name : string) : M Prog unit :=
  active ← gets (λ p, existsb (λ x, bool_decide (agent_name = "") || bool_decide (x_remote x = agent_name))
                          (map_to_list (g_transfers p)).*2);
  if (active : bool) then raise (RuntimeError "cannot release prepared memory with active transfers")
  else
    prepared ← gets (λ p, default ∅ (g_prepared p !! agent_name));
    for_each (map_to_list prepared) (λ x,
      if release_dlist_handle x.2.1
      then modify (λ p, set_prepared (alter (delete x.1) agent_name (g_prepared p)) p)
      else raise (RuntimeError "NIXL prepared memory did not close")) ;;
    modify (λ p, set_prepared (delete agent_name (g_prepared p)) p) ;;
    modify (λ p, set_catalogs (delete agent_name (g_catalogs p)) p).

Definition prepare_memory (agent_name : string) (regions : RegionMaps) (owner_name : option string)
    : M Prog unit :=
  already ← gets (λ p, bool_decide (is_Some (g_prepared p !! agent_name)));
  if (already : bool) then raise (RuntimeError "NIXL prepared memory is already initialized")
  else
    let owner := match owner_name with
                 | Some owner => owner
                 | None => if decide (agent_name = "") then nixl_agent_name else agent_name
                 end in
    modify (λ p, set_catalogs (<[agent_name := (owner, regions)]> (g_catalogs p)) p) ;;
    modify (λ p, set_prepared (<[agent_name := ∅]> (g_prepared p)) p) ;;
    try_except
      (for_each (mem_types regions) (λ mem_type,
        handle ← lift (prep_xfer_dlist agent_name mem_type);
        match handle with
        | None => raise (RuntimeError "prep_xfer_dlist returned None")
        | Some handle =>
            modify (λ p, set_prepared
              (alter (<[mem_type := (handle, grid_offsets 0 (grid_entries regions mem_type) ∅)]>)
                 agent_name (g_prepared p)) p)
        end))
      (λ e, release_prepared agent_name ;; raise e) ;;
    if decide (mem_types regions = []) then
      modify (λ p, set_prepared (delete agent_name (g_prepared p)) p) ;;
      modify (λ p, set_catalogs (delete agent_name (g_catalogs p)) p)
    else mret tt.
End Grids.

(** [_prepared_indices] with the catalog and grid of the agent at hand: the first
    reference picks the memory type, and every label is resolved once. *)
Definition IndexCache : Type := gmap (bool * label) (Z * Z).
Definition index_ref (regions : RegionMaps) (owner mem_type : string) (offsets : Offsets)
    (cache : IndexCache) (ref : TransferRef) : result (IndexCache * Z) :=
  match cache !! (tr_framework ref, tr_label ref) with
  | Some (count, offset) =>
      if decide (0 <= tr_element_index ref < count)%Z
      then Ret (cache, (offset + tr_element_index ref)%Z)
      else Raise (ValueError "memory reference element_index is outside its region")
  | None =>
      region ← resolve_region ref regions owner;
      if decide (rd_mem_type region ≠ mem_type)
      then Raise (ValueError "one NIXL descriptor list cannot mix memory types")
      else
        match offsets !! (tr_framework ref, rd_label region) with
        | None => Raise (KeyError (rd_label region))
        | Some offset =>
            mret (<[(tr_framework ref, tr_label ref) := (rd_count region, offset)]> cache,
                  (offset + tr_element_index ref)%Z)
        end
  end.
Fixpoint index_refs (regions : RegionMaps) (owner mem_type : string) (offsets : Offsets)
    (cache : IndexCache) (refs : list TransferRef) : result (list Z) :=
  match refs with
  | [] => Ret []
  | ref :: refs =>
      '(cache, i) ← index_ref regions owner mem_type offsets cache ref;
      rest ← index_refs regions owner mem_type offsets cache refs;
      mret (i :: rest)
  end.
Definition prepared_indices (agent_name : string) (descriptors : list TransferRef) (p : Prog)
    : result (Z * list Z) :=
  match g_catalogs p !! agent_name with
  | None => Raise (ValueError "no prepared memory for agent")
  | Some (owner, regions) =>
      match descriptors with
      | [] => Raise (RuntimeError "StopIteration")
      | first_ref :: refs =>
          first ← resolve_region first_ref regions owner;
          match g_prepared p !! agent_name ≫= (λ m, m !! rd_mem_type first) with
          | None => Raise (KeyError agent_name)
          | Some (handle, offsets) =>
              match offsets !! (tr_framework first_ref, rd_label first) with
              | None => Raise (KeyError (rd_label first))
              | Some offset =>
                  rest ← index_refs regions owner (rd_mem_type first) offsets
                    {[(tr_framework first_ref, tr_label first_ref) := (rd_count first, offset)]} refs;
                  mret (handle, (offset + tr_element_index first_ref)%Z :: rest)
              end
          end
      end
  end.

(** ** Transfers *)

(** What [check_xfer_state] and [transfer] answer: a state, or an exception, which may
    say that the peer disconnected. *)
Inductive XferAnswer := XDone | XProc | XPend | XErr | XOther | XRaise (disconnected : bool).
#[export] Instance XferAnswer_eq_dec : EqDecision XferAnswer.
Proof. solve_decision. Defined.

Definition upd_transfer (transfer_id : Z) (outcome : option bool) : M Prog unit :=
  modify (λ p, set_transfers
    (alter (λ x, mkTransfer (x_handle x) (x_remote x) outcome) transfer_id (g_transfers p)) p).
Definition note_disconnect (agent : string) : M Prog unit :=
  modify (λ p, set_disconnected ({[agent]} ∪ g_disconnected p) p).

(** [submit_transfer] once the handle is created: the transfer is owned before it is
    posted, whatever the post answers. *)
Definition submit_handle (handle : option Z) (remote_side_agent : string) (post : XferAnswer)
    : M Prog (Z * bool) :=
  match handle with
  | None => raise (RuntimeError "NIXL transfer creation returned None")
  | Some handle =>
      transfer_id ← gets (λ p, g_next_transfer_id p + 1)%Z;
      modify (set_next_transfer_id transfer_id) ;;
      modify (λ p, set_transfers
        (<[transfer_id := mkTransfer handle remote_side_agent None]> (g_transfers p)) p) ;;
      match post with
      | XDone => upd_transfer transfer_id (Some true) ;; mret (transfer_id, true)
      | XErr => upd_transfer transfer_id (Some false) ;; mret (transfer_id, false)
      | XProc | XPend => mret (transfer_id, true)
      | XOther => mret (transfer_id, false)
      | XRaise disconnected =>
          (if disconnected then note_disconnect remote_side_agent else mret tt) ;;
          mret (transfer_id, false)
      end
  end.

(** References into prepared memory, or raw addresses and file offsets. *)
Inductive Descs := DRefs (refs : list TransferRef) | DMems (mems : list MemDescriptor).
Definition descs_empty (d : Descs) : bool :=
  match d with DRefs [] | DMems [] => true | _ => false end.
Definition is_file (d : Descs) : bool :=
  match d with DMems (m :: _) => bool_decide (md_mem_type m = "FILE") | _ => false end.

(** [_make_transfer_descriptors]: one list has one memory type. *)
Definition make_transfer_descriptors (d : Descs) : result string :=
  match d with
  | DMems (m :: mems) =>
      if decide (Forall (λ m', md_mem_type m' = md_mem_type m) (m :: mems)) then Ret (md_mem_type m)
      else Raise (ValueError "one NIXL descriptor list cannot mix memory types")
  | _ => Raise (TypeError "raw descriptors expected")
  end.
Definition indices_of (agent_name : string) (d : Descs) (p : Prog) : result (Z * list Z) :=
  match d with
  | DRefs refs => prepared_indices agent_name refs p
  | DMems _ => match g_catalogs p !! agent_name with
               | None => Raise (ValueError "no prepared memory for agent")
               | Some _ => Raise (ValueError "memory transfers require _TransferRef entries")
               end
  end.

(** [submit_transfer]: [created] is the handle the agent makes, or its exception, and [post]
    its answer to the post. *)
Definition submit_transfer (local remote : Descs) (remote_side_agent : string)
    (created : result (option Z)) (post : XferAnswer) : M Prog (Z * bool) :=
  if descs_empty local || descs_empty remote
  then raise (ValueError "NIXL transfer descriptors must be non-empty")
  else if decide (remote_side_agent = "")
  then raise (ValueError "NIXL remote-side agent must be non-empty")
  else
    (if is_file local || is_file remote
     then lift (make_transfer_descriptors local) ;; lift (make_transfer_descriptors remote) ;; mret tt
     else p ← get; lift (indices_of "" local p) ;; lift (indices_of remote_side_agent remote p) ;; mret tt) ;;
    handle ← lift created;
    submit_handle handle remote_side_agent post.

(** [_release_transfer]: whether the agent let the handle go. *)
Definition release_transfer (transfer_id : Z) (released : bool) : M Prog bool :=
  if released
  then modify (λ p, set_transfers (delete transfer_id (g_transfers p)) p) ;; mret true
  else mret false.

(** [poll_transfer]: [answer] is what the agent says if it is asked, [released] whether it
    would let the handle go. *)
Definition poll_transfer (transfer_id : Z) (require_completion : bool) (answer : XferAnswer)
    (released : bool) : M Prog (option bool) :=
  state ← gets (λ p, g_transfers p !! transfer_id);
  match state with
  | None => raise (KeyError "unknown transfer")
  | Some state =>
      let finish (outcome : bool) : M Prog (option bool) :=
        done ← release_transfer transfer_id released;
        mret (if (done : bool) then Some outcome else None) in
      match x_outcome state with
      | Some true => finish true
      | Some false =>
          if negb require_completion then finish false
          else
            (match answer with XRaise true => note_disconnect (x_remote state) | _ => mret tt end) ;;
            match answer with
            | XDone => upd_transfer transfer_id (Some false) ;; finish false
            | XRaise true => upd_transfer transfer_id (Some false) ;; finish false
            | XProc | XPend => mret None
            | XErr | XOther | XRaise false => upd_transfer transfer_id (Some false) ;; mret None
            end
      | None =>
          (match answer with XRaise true => note_disconnect (x_remote state) | _ => mret tt end) ;;
          match answer with
          | XDone => upd_transfer transfer_id (Some true) ;; finish true
          | XProc | XPend => mret None
          | XRaise true => upd_transfer transfer_id (Some false) ;; finish false
          | XErr | XOther | XRaise false =>
              if require_completion
              then upd_transfer transfer_id (Some false) ;; mret None
              else upd_transfer transfer_id (Some false) ;; finish false
          end
      end
  end.

(** ** A progress iteration

    [_run_one_iteration] of the thread: publish, take submissions, poll the backends, advance
    every operation, publish again.  An operation is a value of type [Op] with an identity;
    [advance] is its [progress] method and the backends' [_poll] and [_flush] are the
    arguments [flushed]. *)

Section Loop.
Context {Op Item : Type} (op_id : Op → OpId) (item_of : Op → Item).
(** [progress]: the new operation object, whether it completed, whether work occurred. *)
Context (advance : Op → Op * bool * bool).

Record Loop := mkLoop {
  l_in_flight : list (OpId * Op);   (* a dict, in insertion order *)
  l_backlog : list Item;
  l_completed : list Item }.

(** [self._in_flight_ops[item.op_id] = item] *)
Fixpoint put_op (k : OpId) (op : Op) (l : list (OpId * Op)) : list (OpId * Op) :=
  match l with
  | [] => [(k, op)]
  | (k', op') :: l => if decide (k' = k) then (k', op) :: l else (k', op') :: put_op k op l
  end.

(** [_publish_completed] *)
Definition publish_completed (limit : nat) (s : Loop) : Loop * nat :=
  let n := Nat.min limit (length (l_backlog s)) in
  (mkLoop (l_in_flight s) (drop n (l_backlog s)) (l_completed s ++ take n (l_backlog s)), n).

(** Advance every operation of the snapshot: those that stay, and those done. *)
Fixpoint advance_all (ops : list (OpId * Op)) : list (OpId * Op) * list Item * bool :=
  match ops with
  | [] => ([], [], false)
  | (k, op) :: ops =>
      let '(op, finished, work) := advance op in
      let '(stay, completed, work') := advance_all ops in
      if (finished : bool) then (stay, item_of op :: completed, work || work')
      else ((k, op) :: stay, completed, work || work')
  end.

Definition run_one_iteration (batch_size : nat) (submissions : list Op) (flushed : list Item)
    (backend_work : bool) (s : Loop) : Loop * bool :=
  let '(s, published) := publish_completed batch_size s in
  let submissions := take batch_size submissions in
  let in_flight := foldl (λ l op, put_op (op_id op) op l) (l_in_flight s) submissions in
  let '(stay, completed_ops, work) := advance_all in_flight in
  let completed := flushed ++ completed_ops in
  let s := mkLoop stay (l_backlog s ++ completed) (l_completed s) in
  let '(s, published') := publish_completed (batch_size - published) s in
  (s, negb (bool_decide (length submissions = 0)) || backend_work || work ||
      negb (bool_decide (length completed = 0)) || bool_decide (0 < published + published')).
End Loop.
