(* ===== verification/TransferThm.v ===== *)
(** * Indices name the right memory, and handles outlive their transfers

    Theorems about [Transfer]: a prepared index is the row of the element the reference
    names, within NIXL's index range; and a transfer's result is reported only after
    the agent let its handle go. *)

From Stdlib Require Import ZArith Lia.
From S2P Require Import Prelude PyFloat Types Layout State Transfer.

(** ** Grids *)

Definition entry_key (e : bool * RegionDescriptor) : bool * label := (e.1, rd_label e.2).

Lemma region_rows_length r : (0 <= rd_count r)%Z → Z.of_nat (length (region_rows r)) = rd_count r.
Proof. intros Hc. unfold region_rows. rewrite length_fmap, length_seqZ. lia. Qed.

Lemma grid_offsets_other off entries m k : k ∉ entry_key <$> entries →
  grid_offsets off entries m !! k = m !! k.
Proof.
  revert off m. induction entries as [|[fw r] entries IH]; intros off m Hk; simpl in *; [done|].
  rewrite IH by set_solver. apply lookup_insert_ne. intros <-. set_solver.
Qed.
Lemma grid_offsets_lookup off entries m fw r : (fw, r) ∈ entries → NoDup (entry_key <$> entries) →
  Forall (λ e, 0 <= rd_count e.2)%Z entries → (0 <= off)%Z →
  ∃ o, grid_offsets off entries m !! (fw, rd_label r) = Some o ∧ (off <= o)%Z ∧
    (o + rd_count r <= off + Z.of_nat (length (grid_rows entries)))%Z ∧
    ∀ i, (0 <= i < rd_count r)%Z → grid_rows entries !! Z.to_nat (o - off + i) = Some (element r i).
Proof.
  revert off m. induction entries as [|[fw' r'] entries IH]; intros off m Hin Hnd Hc Hoff;
    [by apply not_elem_of_nil in Hin|].
  simpl in *. apply NoDup_cons in Hnd as [Hnin Hnd]. apply Forall_cons in Hc as [Hc' Hc]. simpl in Hc'.
  change (grid_rows ((fw', r') :: entries)) with (region_rows r' ++ grid_rows entries).
  pose proof (region_rows_length r' Hc') as Hlen. rewrite length_app.
  apply elem_of_cons in Hin as [[= -> ->]|Hin].
  - exists off. rewrite grid_offsets_other by done. split_and!; [apply lookup_insert_eq|lia|lia|].
    intros i Hi. rewrite lookup_app_l by lia. unfold region_rows. rewrite list_lookup_fmap, lookup_seqZ_lt by lia.
    simpl. do 2 f_equal. lia.
  - destruct (IH (off + rd_count r')%Z (<[(fw', rd_label r') := off]> m) Hin Hnd Hc ltac:(lia))
      as (o & Ho & Hge & Hle & Hrow).
    exists o. split_and!; [done|lia|lia|]. intros i Hi. rewrite lookup_app_r by lia.
    rewrite <- (Hrow i Hi). f_equal. lia.
Qed.

(** ** Well-formed registrations *)

Record regions_ok (regions : RegionMaps) : Prop := {
  ro_names : Forall (λ kr, kr.1 = rd_label kr.2) (regions.1 ++ regions.2);
  ro_framework : NoDup regions.1.*1;
  ro_kvcr : NoDup regions.2.*1;
  ro_counts : Forall (λ kr, 1 <= rd_count kr.2)%Z (regions.1 ++ regions.2) }.

Lemma assoc_in {A} k (l : list (string * A)) a : assoc k l = Some a → (k, a) ∈ l.
Proof.
  induction l as [|[k' a'] l IH]; simpl; [done|]. case_decide as Hk; [intros [= ->]; subst; left|].
  intros Ha. right. auto.
Qed.
Lemma resolve_in ref regions agent region : resolve_region ref regions agent = Ret region →
  (if tr_framework ref then ∃ k, (k, region) ∈ regions.1 else ∃ k, (k, region) ∈ regions.2) ∧
  (0 <= tr_element_index ref < rd_count region)%Z ∧ tr_end_point ref = agent.
Proof.
  unfold resolve_region. case_decide as Hep; [done|]. destruct regions as [framework kvcr].
  cbv zeta. set (found := if tr_framework ref then _ else _). intros Hr.
  assert (found = Some region ∧ (0 <= tr_element_index ref < rd_count region)%Z) as [Hf Hi].
  { destruct found as [r|]; [|discriminate]. case_decide; [|discriminate]. by injection Hr as ->. }
  split_and!; [|lia|lia|done]. unfold found in Hf. destruct (tr_framework ref); simpl.
  - destruct (assoc (tr_label ref) framework) eqn:Ha.
    + injection Hf as ->. eexists. by apply assoc_in.
    + destruct (has_colon (tr_label ref)); [|done]. eexists. by apply assoc_in.
  - eexists. by apply assoc_in.
Qed.

Lemma grid_keys_nodup regions mem_type : regions_ok regions →
  NoDup (entry_key <$> grid_entries regions mem_type).
Proof.
  intros [Hn Hf Hk _]. apply Forall_app in Hn as [Hn1 Hn2]. unfold grid_entries.
  assert (NoDup (entry_key <$> ((λ kr : string * RegionDescriptor, (true, kr.2)) <$> regions.1) ++
    ((λ kr, (false, kr.2)) <$> regions.2))) as Hall.
  { rewrite fmap_app, <- !list_fmap_compose. apply list.NoDup_app. split_and!.
    - replace ((entry_key ∘ (λ kr : string * RegionDescriptor, (true, kr.2))) <$> regions.1)
        with (pair true <$> regions.1.*1).
      + by apply NoDup_fmap; [intros ?? [=]|].
      + rewrite <- list_fmap_compose. apply list_fmap_ext. intros i x Hx. simpl.
        unfold entry_key. simpl. f_equal. by eapply (Forall_lookup_1 _ _ _ _ Hn1) in Hx.
    - intros x Hx1 Hx2. apply list_elem_of_fmap in Hx1 as (? & -> & _), Hx2 as (? & He & _). done.
    - replace ((entry_key ∘ (λ kr : string * RegionDescriptor, (false, kr.2))) <$> regions.2)
        with (pair false <$> regions.2.*1).
      + by apply NoDup_fmap; [intros ?? [=]|].
      + rewrite <- list_fmap_compose. apply list_fmap_ext. intros i x Hx. simpl.
        unfold entry_key. simpl. f_equal. by eapply (Forall_lookup_1 _ _ _ _ Hn2) in Hx. }
  eapply submseteq_NoDup; [|exact Hall]. apply fmap_submseteq, filter_submseteq.
Qed.
Lemma grid_counts regions mem_type : regions_ok regions →
  Forall (λ e, 0 <= rd_count e.2)%Z (grid_entries regions mem_type).
Proof.
  intros [_ _ _ Hc]. apply list.Forall_forall. intros [fw r] He. unfold grid_entries in He.
  apply list_elem_of_filter in He as [_ He]. apply elem_of_app in He.
  rewrite list.Forall_forall in Hc.
  destruct He as [He|He]; apply list_elem_of_fmap in He as (kr & [= -> ->] & Hkr); simpl;
    specialize (Hc kr); rewrite elem_of_app in Hc; [specialize (Hc (or_introl Hkr))|
    specialize (Hc (or_intror Hkr))]; lia.
Qed.
Lemma resolve_entry ref regions agent region : resolve_region ref regions agent = Ret region →
  (tr_framework ref, region) ∈ grid_entries regions (rd_mem_type region).
Proof.
  intros (Hin & _)%resolve_in. unfold grid_entries. apply list_elem_of_filter. split; [done|].
  apply elem_of_app. destruct (tr_framework ref); destruct Hin as [k Hk]; [left|right];
    apply list_elem_of_fmap; by exists (k, region).
Qed.

(** ** Indices *)

Section Indices.
Context (regions : RegionMaps) (owner : string).

(** Resolving each reference on its own, with no cache. *)
Definition plain_index (mem_type : string) (offsets : Offsets) (ref : TransferRef) : result Z :=
  region ← resolve_region ref regions owner;
  if decide (rd_mem_type region ≠ mem_type)
  then Raise (ValueError "one NIXL descriptor list cannot mix memory types")
  else match offsets !! (tr_framework ref, rd_label region) with
       | None => Raise (KeyError (rd_label region))
       | Some offset => mret (offset + tr_element_index ref)%Z
       end.
Fixpoint plain_indices (mem_type : string) (offsets : Offsets) (refs : list TransferRef) : result (list Z) :=
  match refs with
  | [] => Ret []
  | ref :: refs => i ← plain_index mem_type offsets ref;
                   rest ← plain_indices mem_type offsets refs; mret (i :: rest)
  end.

(** Every reference with these names resolves to the same registration, up to its range. *)
Definition names_region (fw : bool) (l : label) (region : RegionDescriptor) : Prop :=
  ∀ ref, tr_framework ref = fw → tr_label ref = l → tr_end_point ref = owner →
    resolve_region ref regions owner =
      if decide (0 <= tr_element_index ref < rd_count region)%Z then Ret region
      else Raise (ValueError "memory reference element_index is outside its region").
Lemma resolve_names ref region : resolve_region ref regions owner = Ret region →
  names_region (tr_framework ref) (tr_label ref) region.
Proof.
  intros Hr ref' Hfw Hl Hep. revert Hr. unfold resolve_region. rewrite Hfw, Hl.
  rewrite (decide_False (P := tr_end_point ref' ≠ owner)) by auto.
  case_decide; [done|]. destruct regions as [framework kvcr]. cbv zeta.
  destruct (if tr_framework ref then _ else _) as [r|]; [|done]. case_decide; [|done].
  by intros [= ->].
Qed.

Definition cache_ok (mem_type : string) (offsets : Offsets) (cache : IndexCache) : Prop :=
  ∀ fw l count offset, cache !! (fw, l) = Some (count, offset) →
    ∃ region, names_region fw l region ∧ count = rd_count region ∧
      rd_mem_type region = mem_type ∧ offsets !! (fw, rd_label region) = Some offset.

Lemma index_refs_plain mem_type offsets cache refs :
  cache_ok mem_type offsets cache → Forall (λ ref, tr_end_point ref = owner) refs →
  index_refs regions owner mem_type offsets cache refs = plain_indices mem_type offsets refs.
Proof.
  intros Hc Hep. revert cache Hc. induction Hep as [|ref refs Hr _ IH]; intros cache Hc; [done|].
  cbn [index_refs plain_indices]. unfold index_ref, plain_index.
  destruct (cache !! _) as [[count offset]|] eqn:Hcache.
  - destruct (Hc _ _ _ _ Hcache) as (region & Hn & -> & Hmt & Ho).
    rewrite (Hn ref eq_refl eq_refl Hr). case_decide as Hi; [|done]. cbn [mbind result_bind].
    rewrite decide_False by auto. rewrite Ho. cbn [mbind result_bind mret result_ret].
    by rewrite (IH cache Hc).
  - destruct (resolve_region ref regions owner) as [region|e] eqn:Hres; [|done].
    cbn [mbind result_bind]. case_decide as Hmt; [done|].
    destruct (offsets !! _) as [offset|] eqn:Ho; [|done]. cbn [mbind result_bind mret result_ret].
    rewrite IH; [done|]. intros fw l count offset'. unfold IndexCache.
    rewrite lookup_insert_Some. intros [[[= <- <-] [= <- <-]]|[_ Hold]]; [|by apply Hc].
    exists region. split_and!; try done. by apply resolve_names.
Qed.

(** The row of an index is the element the reference names. *)
Definition index_names (mem_type : string) (ref : TransferRef) (i : Z) : Prop :=
  (0 <= i)%Z ∧ ∃ d, address_descriptor regions owner ref = Ret d ∧ md_mem_type d = mem_type ∧
    grid_rows (grid_entries regions mem_type) !! Z.to_nat i = Some d.

Lemma plain_index_names mem_type ref i : regions_ok regions →
  plain_index mem_type (grid_offsets 0 (grid_entries regions mem_type) ∅) ref = Ret i →
  index_names mem_type ref i.
Proof.
  intros Hok. unfold plain_index. destruct (resolve_region ref regions owner) as [region|e] eqn:Hres; [|done].
  cbn [mbind result_bind]. case_decide as Hmt; [done|].
  pose proof (resolve_entry _ _ _ _ Hres) as Hin. destruct (resolve_in _ _ _ _ Hres) as (_ & Hi & _).
  rewrite Hmt in Hin.
  destruct (grid_offsets_lookup 0 _ ∅ _ _ Hin (grid_keys_nodup _ _ Hok) (grid_counts _ _ Hok) ltac:(lia))
    as (o & Ho & Hge & _ & Hrow).
  rewrite Ho. cbn [mret result_ret]. intros [= <-]. split; [lia|]. exists (element region (tr_element_index ref)).
  split_and!; [unfold address_descriptor; by rewrite Hres|done|].
  rewrite <- (Hrow _ Hi). f_equal. lia.
Qed.
Lemma plain_indices_names mem_type refs idx : regions_ok regions →
  plain_indices mem_type (grid_offsets 0 (grid_entries regions mem_type) ∅) refs = Ret idx →
  Forall2 (index_names mem_type) refs idx.
Proof.
  intros Hok. revert idx. induction refs as [|ref refs IH]; intros idx; cbn [plain_indices];
    [intros [= <-]; constructor|].
  destruct (plain_index _ _ ref) as [i|] eqn:Hi; [|done]. cbn [mbind result_bind].
  destruct (plain_indices _ _ refs) as [rest|] eqn:Hr; [|done]. intros [= <-].
  constructor; [by apply plain_index_names|by apply IH].
Qed.
End Indices.

(** The indices handed to NIXL address exactly the memory the references name.  Over the grids
    [prepare_memory] lays out, caching a label's resolution changes no answer: the result is
    that of resolving every reference on its own, and the row of each index is the
    element's own address, size and device. *)
Theorem prepared_indices_address agent_name refs p owner regions grids :
  regions_ok regions → g_catalogs p !! agent_name = Some (owner, regions) →
  g_prepared p !! agent_name = Some grids →
  (∀ mem_type h o, grids !! mem_type = Some (h, o) →
     o = grid_offsets 0 (grid_entries regions mem_type) ∅) →
  Forall (λ ref, tr_end_point ref = owner) refs →
  ∀ h idx, prepared_indices agent_name refs p = Ret (h, idx) ↔
    ∃ ref mem_type region o, head refs = Some ref ∧ resolve_region ref regions owner = Ret region ∧
      mem_type = rd_mem_type region ∧ grids !! mem_type = Some (h, o) ∧
      plain_indices regions owner mem_type o refs = Ret idx ∧
      Forall2 (index_names regions owner mem_type) refs idx.
Proof.
  intros Hok Hcat Hprep Hgrids Hep h idx. unfold prepared_indices. rewrite Hcat.
  destruct refs as [|first refs]; [split; [done|by intros (? & ? & ? & ? & [=] & _)]|].
  apply Forall_cons in Hep as [Hfirst Hep].
  destruct (resolve_region first regions owner) as [region|e] eqn:Hres; cycle 1.
  { split; [done|]. intros (? & ? & ? & ? & [= <-] & Hr & _). congruence. }
  cbn [mbind result_bind]. rewrite Hprep. simpl.
  destruct (grids !! rd_mem_type region) as [[h' o]|] eqn:Hg; cycle 1.
  { split; [done|]. intros (? & ? & ? & ? & [= <-] & Hr & -> & Hg' & _). congruence. }
  pose proof (Hgrids _ _ _ Hg) as Ho.
  pose proof (grid_offsets_lookup 0 _ ∅ _ _ (resolve_entry _ _ _ _ Hres)
    (grid_keys_nodup _ _ Hok) (grid_counts _ _ Hok) ltac:(lia)) as (off & Hoff & _).
  rewrite <- Ho in Hoff. rewrite Hoff.
  rewrite (index_refs_plain _ _ _ _ _ refs); [| |done]; cycle 1.
  { intros fw l count offset Hc. apply lookup_singleton_Some in Hc as [[= <- <-] [= <- <-]].
    exists region. split_and!; try done. by apply resolve_names. }
  assert (plain_indices regions owner (rd_mem_type region) o (first :: refs) =
    (rest ← plain_indices regions owner (rd_mem_type region) o refs;
     mret ((off + tr_element_index first)%Z :: rest))) as Hplain.
  { cbn [plain_indices]. unfold plain_index. rewrite Hres. cbn [mbind result_bind].
    rewrite decide_False by auto. rewrite Hoff. done. }
  split.
  - intros Hr. exists first, (rd_mem_type region), region, o.
    assert (h' = h ∧ plain_indices regions owner (rd_mem_type region) o (first :: refs) = Ret idx) as [-> Hp].
    { rewrite Hplain. destruct (plain_indices _ _ _ _ refs); [|done]. cbn in *. by injection Hr as -> ->. }
    split_and!; try done. apply plain_indices_names; [done|]. by rewrite <- Ho.
  - intros (? & ? & region' & o' & [= <-] & Hr & -> & Hg' & Hp & _).
    rewrite Hres in Hr. injection Hr as <-. rewrite Hg in Hg'. injection Hg' as <- <-.
    change (plain_indices regions owner (rd_mem_type region) o (first :: refs) = Ret idx) in Hp.
    rewrite Hplain in Hp. destruct (plain_indices _ _ _ _ refs); [|done]. cbn in *. by injection Hp as <-.
Qed.

(** ** Bounds *)

Definition type_rows (mem_type : string) (l : list RegionDescriptor) : list MemDescriptor :=
  filter (λ r, rd_mem_type r = mem_type) l ≫= region_rows.
Definition in_address_space (d : MemDescriptor) : Prop :=
  (0 <= md_addr d ∧ 0 < md_size d ∧ md_addr d + md_size d <= uint64_max)%Z.

Lemma validate_region_spec counts region counts' : validate_region counts region = Ret counts' →
  counts' = <[rd_mem_type region := (default 0 (counts !! rd_mem_type region) + rd_count region)%Z]> counts ∧
  (default 0 (counts !! rd_mem_type region) + rd_count region <= 2 ^ 31)%Z ∧ (1 <= rd_count region)%Z ∧
  Forall in_address_space (region_rows region).
Proof.
  unfold validate_region, in_range. destruct (negb _) eqn:Hr; [done|].
  apply negb_false_iff in Hr. rewrite !andb_true_iff, !Z.leb_le in Hr.
  case_decide as Hs; [done|]. case_decide as He; [done|]. case_decide; [done|].
  destruct (partition_colon _) as [[pool sep] part]. destruct (sep && _); [done|].
  case_decide as Hn; [done|]. intros [= <-]. split_and!; [done|lia|lia|].
  assert (rd_size region <= pitch region)%Z as Hp by (unfold pitch; case_decide; lia).
  apply list.Forall_forall. intros d Hd. unfold region_rows in Hd.
  apply list_elem_of_fmap in Hd as (i & -> & Hi). apply elem_of_seqZ in Hi.
  unfold in_address_space, element. simpl.
  assert (i * pitch region <= (rd_count region - 1) * pitch region)%Z by (apply Z.mul_le_mono_nonneg_r; lia).
  assert (0 <= i * pitch region)%Z by (apply Z.mul_nonneg_nonneg; lia). lia.
Qed.

Lemma validate_regions_rows counts l counts' mem_type :
  validate_memory_regions counts l = Ret counts' → (default 0 (counts !! mem_type) <= 2 ^ 31)%Z →
  (default 0 (counts !! mem_type) + Z.of_nat (length (type_rows mem_type l)) <= 2 ^ 31)%Z ∧
  Forall in_address_space (type_rows mem_type l).
Proof.
  revert counts. induction l as [|r l IH]; intros counts; cbn [validate_memory_regions].
  { intros _ Hc. split; [simpl; lia|by apply Forall_nil]. }
  destruct (validate_region counts r) as [c1|] eqn:Hv; [|done]. cbn [mbind result_bind]. intros Hl Hc.
  destruct (validate_region_spec _ _ _ Hv) as (-> & Hle & Hpos & Hrows). unfold type_rows.
  rewrite filter_cons. case_decide as Hmt.
  - destruct (IH _ Hl) as [Hsum Hall]; [rewrite <- Hmt, lookup_insert_eq; simpl; lia|].
    rewrite <- Hmt, lookup_insert_eq in Hsum. simpl in Hsum. rewrite Hmt in Hsum.
    cbn [mbind list_bind]. rewrite length_app, Nat2Z.inj_add, region_rows_length by lia.
    subst mem_type. split; [unfold type_rows in Hsum; simpl in *; lia|]. by apply Forall_app_2.
  - destruct (IH _ Hl) as [Hsum Hall]; [by rewrite lookup_insert_ne|].
    rewrite lookup_insert_ne in Hsum by done. done.
Qed.

Lemma grid_rows_type regions mem_type :
  grid_rows (grid_entries regions mem_type) = type_rows mem_type ((regions.1 ++ regions.2).*2).
Proof.
  unfold grid_entries, grid_rows, type_rows. rewrite fmap_app.
  assert (∀ b (l : list (string * RegionDescriptor)),
    filter (λ e : bool * RegionDescriptor, rd_mem_type e.2 = mem_type) ((λ kr, (b, kr.2)) <$> l) ≫=
      (λ e, region_rows e.2) = filter (λ r, rd_mem_type r = mem_type) l.*2 ≫= region_rows) as Hb.
  { intros b l. induction l as [|[k r] l IH]; [done|]. rewrite !fmap_cons, !filter_cons. simpl.
    case_decide; [|done]. cbn [mbind list_bind]. by rewrite IH. }
  by rewrite !filter_app, !bind_app, !Hb.
Qed.

(** Registrations the core accepts keep every index within NIXL's 32 bits and every element
    within 64-bit addresses. *)
Theorem accepted_regions_bounded regions counts mem_type :
  validate_memory_regions ∅ ((regions.1 ++ regions.2).*2) = Ret counts →
  (Z.of_nat (length (grid_rows (grid_entries regions mem_type))) <= 2 ^ 31)%Z ∧
  Forall in_address_space (grid_rows (grid_entries regions mem_type)).
Proof.
  intros Hv. rewrite grid_rows_type.
  destruct (validate_regions_rows ∅ _ _ mem_type Hv) as [Hn Hall]; [by rewrite lookup_empty|].
  rewrite lookup_empty in Hn. simpl in *. split; [lia|done].
Qed.

(** ** The life of a transfer *)

(** A progress thread's transfers, with what NIXL has said of each: completed, or cut off
    by a disconnection; and the transfers whose result was reported. *)
Record Life := mkLife {
  lf_prog : Prog; lf_done : gset Z; lf_cut : gset Z; lf_reported : gset Z }.

(** Whether a poll asks the agent. *)
Definition asks (p : Prog) (transfer_id : Z) (require_completion : bool) : bool :=
  match g_transfers p !! transfer_id with
  | Some x => match x_outcome x with None => true | Some outcome => require_completion && negb outcome end
  | None => false
  end.
Definition heard (asked : bool) (answer expected : XferAnswer) (transfer_id : Z) : gset Z :=
  if asked && bool_decide (answer = expected) then {[ transfer_id ]} else ∅.

Inductive life_step : Life → Life → Prop :=
| ls_submit handle remote post p p' transfer_id ok done cut reported :
    submit_handle (Some handle) remote post p = (Ret (transfer_id, ok), p') →
    life_step (mkLife p done cut reported)
      (mkLife p' (heard true post XDone transfer_id ∪ done) cut reported)
| ls_poll transfer_id require_completion answer released p p' r done cut reported :
    poll_transfer transfer_id require_completion answer released p = (r, p') →
    life_step (mkLife p done cut reported)
      (mkLife p' (heard (asks p transfer_id require_completion) answer XDone transfer_id ∪ done)
         (heard (asks p transfer_id require_completion) answer (XRaise true) transfer_id ∪ cut)
         (match r with Ret (Some _) => {[ transfer_id ]} | _ => ∅ end ∪ reported)).

Definition life_start : Life := mkLife (mkProg ∅ ∅ ∅ ∅ 0) ∅ ∅ ∅.

Record life_inv (y : Life) : Prop := {
  li_owned : ∀ t x, g_transfers (lf_prog y) !! t = Some x →
    (t <= g_next_transfer_id (lf_prog y))%Z ∧ t ∉ lf_reported y ∧
    (x_outcome x = Some true → t ∈ lf_done y);
  li_reported : ∀ t, t ∈ lf_reported y → (t <= g_next_transfer_id (lf_prog y))%Z }.

(** Everything a poll can do to the transfer it is about. *)
Lemma poll_cases t req answer released p r p' : poll_transfer t req answer released p = (r, p') →
  g_next_transfer_id p' = g_next_transfer_id p ∧
  match g_transfers p !! t with
  | None => r = Raise (KeyError "unknown transfer") ∧ p' = p
  | Some x =>
      (∃ b, r = Ret (Some b) ∧ released = true ∧ g_transfers p' = delete t (g_transfers p) ∧
         (b = true → x_outcome x = Some true ∨ asks p t req = true ∧ answer = XDone) ∧
         (req = true → x_outcome x = Some true ∨
            asks p t req = true ∧ (answer = XDone ∨ answer = XRaise true))) ∨
      (r = Ret None ∧ ∃ outcome, g_transfers p' = alter (λ x, mkTransfer (x_handle x) (x_remote x) outcome)
                                                 t (g_transfers p) ∧
         (outcome = Some true → x_outcome x = Some true ∨ asks p t req = true ∧ answer = XDone))
  end.
Proof.
  unfold poll_transfer, asks, release_transfer, upd_transfer, note_disconnect, gets, modify, raise, mret,
    M_ret, mbind, M_bind.
  destruct (g_transfers p !! t) as [[h rem outcome]|] eqn:Ht; [|by intros [= <- <-]].
  assert (∀ P : Prog → Prop, alter (λ x, mkTransfer (x_handle x) (x_remote x) outcome) t (g_transfers p)
    = g_transfers p) as Hid.
  { intros _. apply alter_id. intros x. rewrite Ht. by intros [= <-]. }
  assert (∀ f, delete t (alter f t (g_transfers p)) = delete t (g_transfers p)) as Hdel.
  { intros f. apply map_eq. intros i. destruct (decide (i = t)) as [->|];
      [by rewrite !lookup_delete_eq|by rewrite !lookup_delete_ne, lookup_alter_ne]. }
  specialize (Hid (λ _, True)).
  destruct outcome as [[]|], req, answer as [| | | | |[]], released; simpl; intros [= <- <-]; simpl;
    (split; [done|]); rewrite ?Hdel;
    first [ left; eexists; split_and!; [done|done|done| |]; naive_solver
          | right; split; [done|]; eexists; split;
            [first [symmetry; exact Hid | reflexivity]|]; naive_solver ].
Qed.

Lemma submit_cases handle remote post p t ok p' :
  submit_handle (Some handle) remote post p = (Ret (t, ok), p') →
  t = (g_next_transfer_id p + 1)%Z ∧ g_next_transfer_id p' = t ∧
  ∃ outcome, g_transfers p' = <[t := mkTransfer handle remote outcome]> (g_transfers p) ∧
    (outcome = Some true → post = XDone).
Proof.
  unfold submit_handle, upd_transfer, note_disconnect, gets, modify, mret, M_ret, mbind, M_bind.
  destruct post as [| | | | |[]]; simpl; intros [= <- _ <-]; simpl; split_and!; try done;
    eexists; (split; [rewrite ?alter_insert_eq; reflexivity|naive_solver]).
Qed.

Lemma life_inv_step y y' : life_inv y → life_step y y' → life_inv y'.
Proof.
  intros [Ho Hr] Hs. destruct Hs as [handle remote post p p' t ok done cut reported Hsub
    |t req answer released p p' r done cut reported Hpoll]; simpl in *.
  - destruct (submit_cases _ _ _ _ _ _ _ Hsub) as (Ht & Hn & outcome & Htr & Hout). split; simpl.
    + intros t' x. rewrite Htr, lookup_insert_Some. intros [[<- <-]|[Hne Hx]]; simpl.
      * split_and!; [lia| |].
        -- intros Hin. specialize (Hr _ Hin). lia.
        -- intros Ho1. unfold heard. simpl. rewrite bool_decide_true by auto. set_solver.
      * destruct (Ho _ _ Hx) as (? & ? & Hd). split_and!; [lia|done|]. intros Hsome. specialize (Hd Hsome). set_solver.
    + intros t' Hin. specialize (Hr _ Hin). lia.
  - destruct (poll_cases _ _ _ _ _ _ _ Hpoll) as [Hn Hc].
    destruct (g_transfers p !! t) as [x|] eqn:Hx.
    2: { destruct Hc as [-> ->]. split; simpl; [|set_solver]. intros t' x' Hx'.
         destruct (Ho _ _ Hx') as (? & ? & ?). set_solver. }
    destruct (Ho _ _ Hx) as (Hle & Hnr & Hd).
    destruct Hc as [(b & -> & _ & Htr & _)|(-> & outcome & Htr & Hout)]; split; simpl; rewrite ?Htr, ?Hn.
    + intros t' x'. rewrite lookup_delete_Some. intros [Hne Hx']. destruct (Ho _ _ Hx') as (? & ? & ?).
      set_solver.
    + intros t' [->%elem_of_singleton|Hin]%elem_of_union; [done|by apply Hr].
    + intros t' x'. rewrite lookup_alter_Some. intros [(<- & x0 & Hx0 & ->)|[Hne Hx']]; simpl.
      * split_and!; [done|set_solver|]. intros Heq. destruct (Hout Heq) as [H|[Hask Ha]];
          [specialize (Hd H); set_solver|]. unfold heard. rewrite Hask. simpl.
        rewrite bool_decide_true by done. set_solver.
      * destruct (Ho _ _ Hx') as (? & ? & ?). set_solver.
    + intros t' Hin. apply Hr. set_solver.
Qed.

(** C21: A transfer's result is reported once, only for a handle NIXL let go, and never too early: a
    success only after NIXL said the transfer completed, and, when completion is required
    because the memory must not be reused under DMA, any result only after completion or
    the loss of the peer. *)
Theorem transfer_reported_safely y t require_completion answer released b p' :
  rtc life_step life_start y →
  poll_transfer t require_completion answer released (lf_prog y) = (Ret (Some b), p') →
  let asked := asks (lf_prog y) t require_completion in
  let completed := t ∈ heard asked answer XDone t ∪ lf_done y in
  let cut := t ∈ heard asked answer (XRaise true) t ∪ lf_cut y in
  released = true ∧ t ∉ lf_reported y ∧ is_Some (g_transfers (lf_prog y) !! t) ∧
  g_transfers p' !! t = None ∧ (b = true → completed) ∧
  (require_completion = true → completed ∨ cut).
Proof.
  intros Hy Hpoll asked completed cut.
  assert (life_inv y) as [Ho Hr].
  { revert Hy. apply (rtc_ind_r (λ y, life_inv y)).
    - split; simpl; [intros t' x; by rewrite lookup_empty|set_solver].
    - intros z z' _ Hs Hz. by eapply life_inv_step. }
  destruct (poll_cases _ _ _ _ _ _ _ Hpoll) as [_ Hc].
  destruct (g_transfers (lf_prog y) !! t) as [x|] eqn:Hx; [|by destruct Hc].
  destruct (Ho _ _ Hx) as (_ & Hnr & Hd).
  destruct Hc as [(b' & [= <-] & -> & -> & Hb & Hq)|[[=] _]].
  assert (asks (lf_prog y) t require_completion = true → ∀ a, answer = a →
    t ∈ heard asked answer a t) as Hheard.
  { intros Hask a ->. unfold heard, asked. rewrite Hask. simpl. rewrite bool_decide_true by done. set_solver. }
  split_and!; try done.
  - by rewrite lookup_delete_eq.
  - intros Hbt. destruct (Hb Hbt) as [H|[Hask Ha]]; unfold completed;
      [specialize (Hd H); set_solver|specialize (Hheard Hask _ Ha); set_solver].
  - intros Hreq. unfold completed, cut. destruct (Hq Hreq) as [H|[Hask [Ha|Ha]]];
      [specialize (Hd H)|specialize (Hheard Hask _ Ha)|specialize (Hheard Hask _ Ha)]; set_solver.
Qed.

(** ** Concrete memory *)

Definition demo_regions : RegionMaps :=
  ([("a", mkRegion "DRAM" 0 4096 0 4 16 "a"); ("b:*", mkRegion "VRAM" 1 0 32 2 16 "b:*")],
   [("a", mkRegion "DRAM" 0 65536 0 2 16 "a")]).
Lemma demo_regions_ok : regions_ok demo_regions.
Proof.
  split; [repeat (apply Forall_cons; split; [reflexivity|]); apply Forall_nil_2| | |].
  - apply (bool_decide_unpack _). vm_compute. exact I.
  - apply (bool_decide_unpack _). vm_compute. exact I.
  - repeat (apply Forall_cons; split; [simpl; lia|]). apply Forall_nil_2.
Qed.
Definition demo_prog : Prog :=
  (prepare_memory (λ _ mem_type, Ret (Some (if decide (mem_type = "DRAM") then 1 else 2)%Z))
     (λ _, true) "w0" "" demo_regions None (mkProg ∅ ∅ ∅ ∅ 0)).2.
Definition demo_refs : list TransferRef :=
  [Build_TransferRef "w0" 3 "a" true; Build_TransferRef "w0" 1 "a:x" false;
   Build_TransferRef "w0" 0 "a" true].

Definition demo_grids : gmap string (Z * Offsets) :=
  <["DRAM" := (1%Z, grid_offsets 0 (grid_entries demo_regions "DRAM") ∅)]>
    {["VRAM" := (2%Z, grid_offsets 0 (grid_entries demo_regions "VRAM") ∅)]}.

Lemma prepared_indices_address_witness :
  prepared_indices "" demo_refs demo_prog = Ret (1, [3; 5; 0])%Z ∧
  Forall2 (index_names demo_regions "w0" "DRAM") demo_refs [3; 5; 0]%Z.
Proof.
  assert (prepared_indices "" demo_refs demo_prog = Ret (1, [3; 5; 0])%Z) as Hr by (vm_compute; reflexivity).
  split; [exact Hr|].
  eapply (prepared_indices_address "" demo_refs demo_prog "w0" demo_regions demo_grids) in Hr as
    (ref & mem_type & region & o & [= <-] & Hres & -> & _ & _ & Hf).
  - vm_compute in Hres. injection Hres as <-. exact Hf.
  - apply demo_regions_ok.
  - vm_compute. reflexivity.
  - vm_compute. reflexivity.
  - intros mem_type h o Hg. unfold demo_grids in Hg. apply lookup_insert_Some in Hg.
    destruct Hg as [[<- Heq]|[_ Hg]]; [by injection Heq|].
    apply lookup_singleton_Some in Hg as [<- Heq]. by injection Heq.
  - repeat (apply Forall_cons; split; [reflexivity|]). apply Forall_nil_2.
Defined.
Lemma accepted_regions_bounded_witness :
  (Z.of_nat (length (grid_rows (grid_entries demo_regions "DRAM"))) <= 2 ^ 31)%Z.
Proof.
  destruct (validate_memory_regions ∅ (demo_regions.1 ++ demo_regions.2).*2) as [counts|e] eqn:Hv.
  - apply (accepted_regions_bounded demo_regions counts "DRAM" Hv).
  - exfalso. vm_compute in Hv. discriminate Hv.
Defined.
Lemma demo_life : ∃ y, rtc life_step life_start y ∧
  poll_transfer 1 true XDone true (lf_prog y) =
    (Ret (Some false), set_transfers ∅ (lf_prog y)).
Proof.
  eexists. split.
  - eapply rtc_l; [eapply (ls_submit 7 "peer" XErr); vm_compute; reflexivity|].
    eapply rtc_l; [eapply (ls_poll 1 true XErr true); vm_compute; reflexivity|]. apply rtc_refl.
  - vm_compute. reflexivity.
Qed.
Lemma transfer_reported_safely_witness : ∃ y, rtc life_step life_start y ∧ (1%Z ∉ lf_reported y).
Proof.
  destruct demo_life as (y & Hy & Hp). exists y. split; [exact Hy|].
  apply (transfer_reported_safely y 1 true XDone true false (set_transfers ∅ (lf_prog y)) Hy Hp).
Defined.
