(* ===== verification/Disk.v ===== *)
(** * The file-backed tier

    [_G3] of [src/src/kvcr/backends/local_disk.py]: the slots of the files, the
    residencies in them, and the transfers that store, fill and deliver blocks; the
    state machine of a transfer ([_G3TransferOp]); and the claims on local DRAM it
    takes through [src/src/kvcr/runtime/core.py]. *)

From Stdlib Require Import ZArith Lia.
From S2P Require Import Prelude PyFloat Types PolicyRuntime Layout State CoreBase Pools Transfer.

(** ** Object access *)

Definition get_disk (gid : nat) : M St G3Residency := λ s,
  match s_g3res s !! gid with
  | Some g => (Ret g, s)
  | None => (Raise (KeyError "residency"), s)
  end.
Definition upd_disk (gid : nat) (f : G3Residency → G3Residency) : M St unit :=
  modify (λ s, set_s_g3res (alter f gid (s_g3res s)) s).
Definition alloc_disk (g : G3Residency) : M St nat := λ s,
  (Ret (s_next_g3 s),
   set_s_next_g3 (S (s_next_g3 s)) (set_s_g3res (<[ s_next_g3 s := g ]> (s_g3res s)) s)).
Definition g_set_claims (n : Z) (g : G3Residency) : G3Residency :=
  mkG3Residency (g_layout g) (g_slots g) n.


(** ** Construction *)

Record G3Config := mkG3Config {
  c_paths : list string;            (* resolved *)
  c_capacity_bytes_per_file : Z;
  c_backend : string }.

(** [__init__] before the files are opened: the bytes used of each file, and the tier. *)
Definition disk_init (page_size : Z) (config : G3Config) (slot_size : Z) : result (Z * G3State) :=
  let paths := c_paths config in
  if decide (paths = []) then Raise (ValueError "G3 requires at least one file path")
  else if decide (¬ NoDup paths) then Raise (ValueError "G3 file paths must be unique")
  else if decide (slot_size <= 0 ∨ slot_size mod page_size ≠ 0)%Z
  then Raise (ValueError "G3 slot size must be positive and page aligned")
  else
    let slots_per_file := (c_capacity_bytes_per_file config / slot_size)%Z in
    if decide (slots_per_file < 1)%Z
    then Raise (ValueError "G3 file capacity must contain at least one complete slot")
    else if decide (c_backend config = "") then Raise (ValueError "G3 NIXL backend must be non-empty")
    else Ret ((slots_per_file * slot_size)%Z,
              mkG3State (seqZ 0 (slots_per_file * Z.of_nat (length paths))) queue_init 0 ∅ ∅ ∅).

Section Disk.
Context (E : Env).
(** [resume_capacity_waiters] and [complete_fill] of [_LocalDram]; the registered memory;
    and what [raise_if_failed] of the progress thread finds.  A core with a G3 tier always
    has a local DRAM tier: [_KVCRCore.__init__] refuses the configuration otherwise. *)
Context (resume_capacity_waiters : M St unit).
Context (complete_fill : list BlockKey → bool → M St unit).
Context (regions : RegionMaps).
Context (progress_failure : St → option exn).

(** [_total_slots] *)
Definition total_slots : Z :=
  (Z.of_nat (length (env_g3_fds E)) * env_g3_bytes_per_file E / env_g3_slot_size E)%Z.
(** [_size_bytes] *)
Definition disk_size (g : G3Residency) : Z := (Z.of_nat (length (g_slots g)) * env_g3_slot_size E)%Z.
(** [_descriptor]: slots rotate over the files. *)
Definition file_descriptor (slot : Z) : MemDescriptor :=
  let files := Z.of_nat (length (env_g3_fds E)) in
  mkMemDescriptor "FILE" (slot / files * env_g3_slot_size E)%Z (env_g3_slot_size E)
    (default 0%Z (env_g3_fds E !! Z.to_nat (slot mod files))).

(** [self._kvcr._block_sizes[label.partition(":")[0]]] *)
Definition block_size (l : label) : result Z :=
  match assoc (pool_of l) (env_pool_layouts E) with
  | Some size => Ret size
  | None => Raise (KeyError (pool_of l))
  end.
(** [_descriptor_bytes] of core.py *)
Fixpoint layout_bytes (layout : list label) : result Z :=
  match layout with
  | [] => Ret 0%Z
  | l :: layout => n ← block_size l; rest ← layout_bytes layout; mret (n + rest)%Z
  end.

(** [_piece_slots] *)
Fixpoint piece_slots_from (layout : list label) (slots : list Z) : result (list (list Z)) :=
  match layout with
  | [] => Ret []
  | l :: layout =>
      n ← block_size l;
      let slots_per_piece := Z.to_nat (n / env_g3_slot_size E) in
      rest ← piece_slots_from layout (drop slots_per_piece slots);
      mret (take slots_per_piece slots :: rest)
  end.
Definition piece_slots (g : G3Residency) : result (list (list Z)) :=
  piece_slots_from (g_layout g) (g_slots g).

(** [_memory_chunks]: one slot-sized descriptor after another. *)
Definition chunks_of (d : MemDescriptor) : list MemDescriptor :=
  (λ i, mkMemDescriptor (md_mem_type d) (md_addr d + i * env_g3_slot_size E)%Z
          (env_g3_slot_size E) (md_device d)) <$>
    seqZ 0 ((md_size d + env_g3_slot_size E - 1) / env_g3_slot_size E).
Definition memory_chunks (ref : TransferRef) : result (list MemDescriptor) :=
  d ← address_descriptor regions (env_agent E) ref;
  mret (chunks_of d).
Fixpoint all_chunks (refs : list TransferRef) : result (list MemDescriptor) :=
  match refs with
  | [] => Ret []
  | ref :: refs => c ← memory_chunks ref; rest ← all_chunks refs; mret (c ++ rest)
  end.

(** ** Evictability *)

Definition disk_remove_evictable (key : BlockKey) : M St unit :=
  upd_g3 (λ g, set_g3_unscored (g3_unscored g ∖ {[ key ]}) g) ;;
  q ← gets (λ s, g3_evictable (s_g3 s));
  let '(removed, q) := queue_remove q key in
  upd_g3 (set_g3_evictable q) ;;
  if removed then
    b ← find_record key;
    match b with
    | None => raise (KeyError key)
    | Some b =>
        match b_g3 b with
        | None => raise (TypeError "NoneType has no slots")
        | Some gid =>
            g ← get_disk gid;
            upd_g3 (λ x, set_g3_evictable_slots (g3_evictable_slots x - Z.of_nat (length (g_slots g)))%Z x)
        end
    end
  else mret tt.

Definition disk_make_evictable (key : BlockKey) : M St unit :=
  b ← find_record key;
  match b, b ≫= b_g3 with
  | Some b, Some gid =>
      g ← get_disk gid;
      if decide (g_claim_count g ≠ 0)%Z then mret tt
      else
        previous ← gets (λ s, queue_score (g3_evictable (s_g3 s)) key);
        score ← policy_eviction_score E (block_meta key b (disk_size g)) G3 previous;
        match score with
        | None => upd_g3 (λ x, set_g3_unscored ({[ key ]} ∪ g3_unscored x) x)
        | Some score =>
            upd_g3 (λ x, set_g3_unscored (g3_unscored x ∖ {[ key ]}) x) ;;
            q ← gets (λ s, g3_evictable (s_g3 s));
            let '(added, q) := queue_insert q key score in
            upd_g3 (set_g3_evictable q) ;;
            if added
            then upd_g3 (λ x, set_g3_evictable_slots
                   (g3_evictable_slots x + Z.of_nat (length (g_slots g)))%Z x)
            else mret tt
        end
  | _, _ => mret tt
  end.

Definition disk_retry_unscored : M St unit :=
  keys ← gets (λ s, elements (g3_unscored (s_g3 s)));
  for_each keys disk_make_evictable.

(** ** Slots *)

Definition pop_free : M St (option Z) :=
  free ← gets (λ s, g3_free (s_g3 s));
  match free with
  | [] => mret None
  | slot :: free => upd_g3 (set_g3_free free) ;; mret (Some slot)
  end.
Definition free_disk_slots (slots : list Z) : M St unit :=
  upd_g3 (λ x, set_g3_free (g3_free x ++ slots) x).

(** [any(op_id[0] == "fetch" for op_id in record.in_flight_ops or ())] *)
Definition fetching (b : BlockRecord) : bool :=
  existsb (λ op : OpId, bool_decide (op.1 = "fetch")) (active_op_ids b).

Definition disk_close_candidates (c : Cands) : M St unit :=
  upd_g3 (λ x, set_g3_evictable (cand_close (g3_evictable x) c) x).

(** Evict one candidate and take the first of the freed slots. *)
Definition evict_disk (key : BlockKey) (b : BlockRecord) (g : G3Residency) : M St Z :=
  disk_remove_evictable key ;;
  upd_record key (set_b_g3 None) ;;
  let b := set_b_g3 None b in
  observe_residency key b ;;
  on_remove (block_meta key b (disk_size g)) ;;
  publish_inventory E [key] G3 true ;;
  prune_block_record key ;;
  free_disk_slots (g_slots g) ;;
  slot ← pop_free;
  match slot with
  | None => raise (RuntimeError "pop from an empty deque")
  | Some slot => mret slot
  end.

(** The candidate loop of [_allocate_slot] under [closing(candidates)], a key per turn. *)
Fixpoint disk_evict (n : nat) (protected : gset BlockKey) (c : Cands) : M St (option Z) :=
  match n with
  | 0 => raise (RuntimeError "out of fuel")
  | S n =>
      q ← gets (λ s, g3_evictable (s_g3 s));
      let '(key, q, c) := cand_next protected q c in
      upd_g3 (set_g3_evictable q) ;;
      match key with
      | None => mret None
      | Some key =>
          b ← find_record key;
          match b, b ≫= b_g3 with
          | Some b, Some gid =>
              g ← get_disk gid;
              if decide (g_claim_count g ≠ 0)%Z then
                disk_close_candidates c ;; raise (RuntimeError "invalid G3 eviction candidate")
              else if fetching b then disk_evict n protected c
              else
                decision ← policy_decide_eviction E (block_meta key b (disk_size g)) G3;
                if decide (decision.1 = KEEP) then disk_evict n protected c
                else
                  slot ← try_except (evict_disk key b g)
                           (λ e, disk_close_candidates c ;; raise e);
                  disk_close_candidates c ;;
                  mret (Some slot)
          | _, _ =>
              disk_close_candidates c ;; raise (RuntimeError "invalid G3 eviction candidate")
          end
      end
  end.

Definition allocate_slot (protected : gset BlockKey) : M St (option Z) :=
  slot ← pop_free;
  match slot with
  | Some slot => mret (Some slot)
  | None =>
      disk_retry_unscored ;;
      n ← gets (λ s, size (q_live (g3_evictable (s_g3 s))));
      disk_evict (S n) protected cands_init
  end.

(** [for _ in range(required)], stopped by the first refusal. *)
Fixpoint allocate_n (required : nat) (protected : gset BlockKey) (slots : list Z) : M St (list Z) :=
  match required with
  | 0 => mret slots
  | S required =>
      slot ← allocate_slot protected;
      match slot with
      | None => mret slots
      | Some slot => allocate_n required protected (slots ++ [slot])
      end
  end.

(** ** Reservations *)

Notation blocks := (list (BlockKey * list TransferRef)) (only parsing).

(** One turn of [_reserve]: skip the key, or take its slots, or give back what was taken. *)
Definition reserve_one (protected : gset BlockKey) (reservations : list (BlockKey * nat))
    (block : BlockKey * list TransferRef) : M St (list (BlockKey * nat)) :=
  let '(key, refs) := block in
  b ← find_record key;
  pending ← gets (λ s, bool_decide (key ∈ g3_pending_keys (s_g3 s)));
  if match b with None => true | Some b => bool_decide (b_g3 b ≠ None) || pending end
  then mret reservations
  else
    let layout := tr_label <$> refs in
    bytes ← lift (layout_bytes layout);
    let required := (bytes / env_g3_slot_size E)%Z in
    free ← gets (λ s, Z.of_nat (length (g3_free (s_g3 s))));
    (if decide (required > free)%Z then disk_retry_unscored else mret tt) ;;
    room ← gets (λ s, Z.of_nat (length (g3_free (s_g3 s))) + g3_evictable_slots (s_g3 s))%Z;
    if decide (required > room)%Z then mret reservations
    else
      slots ← allocate_n (Z.to_nat required) protected [];
      if decide (Z.of_nat (length slots) ≠ Z.max 0 required)
      then free_disk_slots slots ;; mret reservations
      else
        upd_g3 (λ x, set_g3_pending_keys ({[ key ]} ∪ g3_pending_keys x) x) ;;
        gid ← alloc_disk (mkG3Residency layout slots 0);
        mret (reservations ++ [(key, gid)]).
Definition reserve (blocks : blocks) (protected : gset BlockKey) : M St (list (BlockKey * nat)) :=
  fold_each (reserve_one protected) [] blocks.

Definition commit (reservation : BlockKey * nat) : M St unit :=
  let '(key, gid) := reservation in
  pending ← gets (λ s, bool_decide (key ∈ g3_pending_keys (s_g3 s)));
  if negb pending then raise (KeyError key)
  else
    upd_g3 (λ x, set_g3_pending_keys (g3_pending_keys x ∖ {[ key ]}) x) ;;
    b ← block_record key;
    if decide (b_g3 b ≠ None)
    then raise (RuntimeError "G3 destination became resident before commit")
    else
      upd_record key (set_b_g3 (Some gid)) ;;
      observe_residency key (set_b_g3 (Some gid) b) ;;
      disk_make_evictable key ;;
      publish_inventory E [key] G3 false ;;
      mret tt.

Definition rollback (reservations : list (BlockKey * nat)) : M St unit :=
  for_each reservations (λ '((key, gid) : BlockKey * nat),
    pending ← gets (λ s, bool_decide (key ∈ g3_pending_keys (s_g3 s)));
    if (pending : bool) then
      upd_g3 (λ x, set_g3_pending_keys (g3_pending_keys x ∖ {[ key ]}) x) ;;
      g ← get_disk gid;
      free_disk_slots (g_slots g)
    else mret tt).

(** ** Claims *)

Definition claim (keys : list BlockKey) : M St (list (BlockKey * nat) * list BlockKey) :=
  fold_each (λ '((claims, rejected) : list (BlockKey * nat) * list BlockKey) key,
    b ← find_record key;
    match b ≫= b_g3 with
    | None => mret (claims, rejected ++ [key])
    | Some gid =>
        disk_remove_evictable key ;;
        upd_disk gid (λ g, g_set_claims (g_claim_count g + 1) g) ;;
        mret (claims ++ [(key, gid)], rejected)
    end) ([], []) keys.

Definition release_disk_claim (c : BlockKey * nat) : M St unit :=
  let '(key, gid) := c in
  b ← find_record key;
  if decide ((b ≫= b_g3) ≠ Some gid) then raise (RuntimeError "G3 claim lost residency")
  else
    g ← get_disk gid;
    if decide (g_claim_count g <= 0)%Z then raise (RuntimeError "invalid G3 claim count")
    else
      upd_disk gid (λ g, g_set_claims (g_claim_count g - 1) g) ;;
      if decide (g_claim_count g - 1 = 0)%Z then disk_make_evictable key else mret tt.
Definition release_claims (claims : list (BlockKey * nat)) : M St unit :=
  for_each claims release_disk_claim.

(** ** Claims on local DRAM, kept by operation in the core *)

Definition sources_of (op_id : OpId) : M St (gmap BlockKey nat) :=
  gets (λ s, default ∅ (s_sources_by_op s !! op_id)).

Definition claim_local_dram_sources (op_id : OpId) (keys : list BlockKey) (allow_filling : bool)
    : M St (gmap BlockKey nat) :=
  sources ← sources_of op_id;
  claimed ← acquire_sources E (filter (λ key, sources !! key = None) keys) allow_filling;
  if decide (claimed = ∅) then mret sources
  else
    modify (λ s, set_s_sources_by_op (<[op_id := claimed ∪ sources]> (s_sources_by_op s)) s) ;;
    mret (claimed ∪ sources).

Definition release_local_dram_sources (op_id : OpId) (keys : option (list BlockKey)) : M St unit :=
  sources ← sources_of op_id;
  if decide (sources = ∅) then mret tt
  else
    let released : list BlockKey :=
      match keys with
      | None => (map_to_list sources).*1
      | Some keys => filter (λ key, key ∈ keys) (map_to_list sources).*1
      end in
    release_sources E resume_capacity_waiters released ;;
    modify (λ s, set_s_sources_by_op
      (alter (λ sources, filter (λ kr, kr.1 ∉ released) sources) op_id (s_sources_by_op s)) s) ;;
    rest ← sources_of op_id;
    if decide (rest = ∅)
    then modify (λ s, set_s_sources_by_op (delete op_id (s_sources_by_op s)) s)
    else mret tt.

Definition retire_local_sources (op_id : OpId) : M St unit :=
  sources ← sources_of op_id;
  if decide (sources = ∅) then mret tt
  else
    retire_sources E (map_to_list sources).*1 ;;
    release_local_dram_sources op_id None.

Definition recover_store_failure (key : BlockKey) (reason : string) : M St unit :=
  b ← find_record key;
  match b with
  | None => raise (KeyError key)
  | Some b =>
      match b_local_dram b with
      | None => raise (TypeError "NoneType has no layout")
      | Some rid =>
          r ← get_res rid;
          policy_decide_recovery E (block_meta key b (residency_size E r))
            {| attempted := (MOVE_TO, Some G3); failure_source := LOCAL_G2;
               failure_reason := reason; failure_count := 1 |} ;;
          retire_local_sources ("g3_store", ArgKey key)
      end
  end.


(** ** Starting transfers *)

Definition start_op (ident : nat) (op_id : OpId) (kind : G3Kind) (keys : list BlockKey)
    (memory files : list MemDescriptor) (deadline : float)
    (reservations claims : list (BlockKey * nat)) (memory_refs : list TransferRef)
    (lifecycle_handle : option Z) (abandon_deadline : option float) : G3TransferOp :=
  mkG3TransferOp ident op_id kind keys memory files deadline reservations claims memory_refs
    lifecycle_handle abandon_deadline.

(** [self._kvcr._progress.submit(op)] *)
Definition progress_submit (op : G3TransferOp) : M St unit :=
  failure ← gets progress_failure;
  match failure with
  | Some e => raise e
  | None => modify (λ s, set_s_submitted (s_submitted s ++ [SubmitG3 op]) s)
  end.

Definition submit (op : G3TransferOp) : M St unit :=
  active ← gets (λ s, bool_decide (is_Some (g3_active (s_g3 s) !! go_op_id op)));
  if (active : bool) then raise (RuntimeError "duplicate G3 operation")
  else
    upd_g3 (λ x, set_g3_active (<[go_op_id op := op]> (g3_active x)) x) ;;
    add_block_dependencies (go_op_id op) (go_ordered_keys op) ;;
    try_except (progress_submit op) (λ e,
      upd_g3 (λ x, set_g3_active (delete (go_op_id op) (g3_active x)) x) ;;
      remove_block_dependencies (go_op_id op) (go_ordered_keys op) ;;
      (if decide (go_kind op = KStore) then rollback (go_reservations op)
       else release_claims (go_claims op)) ;;
      raise e).

(** The slots of reserved or claimed residencies, in order. *)
Definition item_slots (items : list (BlockKey * nat)) : M St (list Z) :=
  fold_each (λ slots '((_, gid) : BlockKey * nat), g ← get_disk gid; mret (slots ++ g_slots g)) [] items.

(** [any(not preflight(...))]: the first refusal ends it. *)
Fixpoint preflights (preflight : BlockKey → RecoveryBlock → bool) (items : list (BlockKey * nat))
    : M St bool :=
  match items with
  | [] => mret true
  | (key, gid) :: items =>
      b ← find_record key;
      match b with
      | None => raise (KeyError key)
      | Some b =>
          accepted ← gets (λ s, preflight key (observed_block s (set_b_g3 (Some gid) b)));
          if (accepted : bool) then preflights preflight items else mret false
      end
  end.

Definition start_store (op_id : OpId) (blocks : blocks) (deadline : float) : M St bool :=
  let keys := blocks.*1 in
  reservations ← reserve blocks (list_to_set keys);
  if decide (length reservations ≠ length blocks) then rollback reservations ;; mret false
  else
    accepted ← match env_g3_preflight E with
               | None => mret true
               | Some preflight => preflights preflight reservations
               end;
    if negb accepted then rollback reservations ;; mret false
    else
      memory ← lift (all_chunks (blocks ≫= snd));
      slots ← item_slots reservations;
      ident ← gets (λ s, length (s_submitted s));
      submit (start_op ident op_id KStore reservations.*1 memory (file_descriptor <$> slots)
                deadline reservations [] [] None None) ;;
      mret true.

(** The descriptors of one claimed block: memory chunks, and the files of its pieces. *)
Fixpoint piece_descriptors (pieces : list (list Z)) (refs : list TransferRef) (indices : list nat)
    : result (list MemDescriptor * list MemDescriptor) :=
  match refs, indices with
  | ref :: refs, index :: indices =>
      chunks ← memory_chunks ref;
      match pieces !! index with
      | None => Raise (RuntimeError "list index out of range")
      | Some slots =>
          '(memory, files) ← piece_descriptors pieces refs indices;
          mret (chunks ++ memory, (file_descriptor <$> slots) ++ files)
      end
  | _, _ => Ret ([], [])
  end.

(** What [_start_read] accumulates: accepted claims, rejected keys, descriptors. *)
Record Read := mkRead {
  rd_accepted : list (BlockKey * nat);
  rd_rejected : list BlockKey;
  rd_memory : list MemDescriptor;
  rd_files : list MemDescriptor }.

Definition refs_for (blocks : blocks) (key : BlockKey) : list TransferRef := default [] (assoc key blocks).

Definition read_one (blocks : blocks) (a : Read) (c : BlockKey * nat) : M St Read :=
  let refs := refs_for blocks c.1 in
  g ← get_disk c.2;
  match layout_indices (g_layout g) (tr_label <$> refs) None with
  | None =>
      release_claims [c] ;;
      mret (mkRead (rd_accepted a) (rd_rejected a ++ [c.1]) (rd_memory a) (rd_files a))
  | Some indices =>
      pieces ← lift (piece_slots g);
      '(memory, files) ← lift (piece_descriptors pieces refs indices);
      mret (mkRead (rd_accepted a ++ [c]) (rd_rejected a) (rd_memory a ++ memory) (rd_files a ++ files))
  end.

Definition entries_for (keys : list BlockKey) (st : OpEntryStatus) : gmap BlockKey OpEntryResult :=
  list_to_map ((λ key, (key, {| status := st; descriptors := None; release_handle := None |})) <$> keys).

(** [setdefault(op_handle, (set(blocks), {}))] *)
Definition join_completion (op_handle : Z) (keys : list BlockKey) : M St unit :=
  modify (λ s, match s_joined s !! op_handle with
               | Some _ => s
               | None => set_s_joined (<[op_handle := (list_to_set keys, ∅)]> (s_joined s)) s
               end).

(** [deadline + (abandon_timeout_ms - operation_timeout_ms) / 1000] *)
Definition abandon_at (deadline : float) : float :=
  fadd deadline (fdiv (f_of_Z_inf (env_abandon_timeout_ms E - env_operation_timeout_ms E)) (f_of_Z_inf 1000)).

Definition kind_name (kind : G3Kind) : string :=
  match kind with KStore => "g3_store" | KFill => "g3_fill" | KDeliver => "g3_deliver" end.

Definition start_read (kind : G3Kind) (op_handle : Z) (blocks : blocks) (deadline : float) : M St bool :=
  '(claims, rejected) ← claim blocks.*1;
  a ← fold_each (read_one blocks) (mkRead [] rejected [] []) claims;
  let claims := rd_accepted a in
  if decide (rd_rejected a ≠ [] ∧ kind = KFill) then release_claims claims ;; mret false
  else
    (if decide (rd_rejected a = []) then mret tt
     else join_completion op_handle blocks.*1 ;; complete op_handle (entries_for (rd_rejected a) FAILED)) ;;
    if decide (claims = []) then mret true
    else if decide (length (remove_dups (md_mem_type <$> rd_memory a)) ≠ 1)
    then release_claims claims ;; mret false
    else
      lifecycle_handle ←
        (if decide (kind = KDeliver) then
           handle ← gets s_next_fill_handle;
           modify (set_s_next_fill_handle (handle - 1)%Z) ;; mret (Some handle)
         else mret None);
      ident ← gets (λ s, length (s_submitted s));
      submit (start_op ident (kind_name kind, ArgInt op_handle) kind claims.*1 (rd_memory a) (rd_files a)
                deadline [] claims
                (if decide (kind = KDeliver) then claims.*1 ≫= refs_for blocks else [])
                lifecycle_handle
                (if decide (kind = KDeliver) then Some (abandon_at deadline) else None)) ;;
      mret true.

Definition start_fill := start_read KFill.
Definition start_deliver := start_read KDeliver.

Definition resolve_eviction (meta : BlockMeta) (source : CacheTier) (decision : PlacementDecision)
    (deadline : float) : M St (PlacementDecision * bool) :=
  if decide (source ≠ LOCAL_G2 ∨ decision ≠ (MOVE_TO, Some G3)) then mret (decision, false)
  else
    let key := block_key meta in
    let keep : PlacementDecision := (KEEP, None) in
    b ← find_record key;
    match b, b ≫= b_local_dram with
    | Some b, Some _ =>
        pending ← gets (λ s, bool_decide (key ∈ g3_pending_keys (s_g3 s)));
        if decide (b_g3 b ≠ None) then mret ((DROP, None), false)
        else if (pending : bool) then mret (keep, false)
        else
          let op_id : OpId := ("g3_store", ArgKey key) in
          sources ← claim_local_dram_sources op_id [key] false;
          match sources !! key with
          | None => mret (keep, false)
          | Some rid =>
              try_except
                (r ← get_res rid;
                 refs ← source_refs E rid (seq 0 (length (r_slots r)));
                 started ← start_store op_id [(key, refs)] deadline;
                 if (started : bool) then mret (keep, true)
                 else recover_store_failure key "G3 destination unavailable" ;; mret (keep, false))
                (λ _, recover_store_failure key "store failed to start" ;; mret (keep, false))
          end
    | _, _ => mret (keep, false)
    end.


(** ** Completions *)

(** What the progress thread hands back: an operation and the flags of its object then. *)
Record G3Item := mkG3Item {
  gi_op : G3TransferOp;
  gi_uncertain : bool;
  gi_transfer_id : option Z;
  gi_success : bool }.

(** A destination a fill may still be recorded in. *)
Definition fill_destination (key : BlockKey) : M St bool :=
  b ← find_record key;
  match b ≫= b_local_dram with
  | None => mret false
  | Some rid =>
      r ← get_res rid;
      mret (bool_decide (r_state r ≠ DISCARDING) && bool_decide (r_remote_indices r ≠ None))
  end.
Fixpoint all_destinations (keys : list BlockKey) : M St bool :=
  match keys with
  | [] => mret true
  | key :: keys => ok ← fill_destination key; if (ok : bool) then all_destinations keys else mret false
  end.

Definition finish (item : G3Item) : M St unit :=
  let op := gi_op item in
  match go_kind op with
  | KStore =>
      if gi_success item then
        for_each (go_reservations op) commit ;;
        retire_local_sources (go_op_id op)
      else
        rollback (go_reservations op) ;;
        match go_ordered_keys op with
        | [key] => recover_store_failure key "transfer failed"
        | _ => raise (ValueError "not enough or too many values to unpack")
        end
  | KFill =>
      destinations ← (if gi_success item then all_destinations (go_ordered_keys op) else mret false);
      try_finally (complete_fill (go_ordered_keys op) destinations) (release_claims (go_claims op))
  | KDeliver =>
      try_finally (if gi_success item then record_access E (go_ordered_keys op) else mret tt)
        (release_claims (go_claims op)) ;;
      if gi_uncertain item then mret tt
      else
        match (go_op_id op).2 with
        | ArgInt op_handle =>
            complete op_handle (entries_for (go_ordered_keys op)
              (if gi_success item then SUCCESS else FAILED))
        | ArgKey _ => raise (TypeError "operation handle expected")
        end
  end.

(** One G3 item of [poll_main]. *)
Definition poll_item (item : G3Item) : M St unit :=
  let op := gi_op item in
  active ← gets (λ s, g3_active (s_g3 s) !! go_op_id op);
  if gi_uncertain item && bool_decide (is_Some (gi_transfer_id item)) then
    match active, (go_op_id op).2 with
    | None, _ => raise (RuntimeError "unknown uncertain G3 operation")
    | Some _, ArgInt op_handle => complete op_handle (entries_for (go_ordered_keys op) FAILED)
    | Some _, ArgKey _ => raise (TypeError "operation handle expected")
    end
  else
    upd_g3 (λ x, set_g3_active (delete (go_op_id op) (g3_active x)) x) ;;
    if decide (go_ident <$> active ≠ Some (go_ident op))
    then raise (RuntimeError "unknown completed G3 operation")
    else
      try_finally (finish item) (remove_block_dependencies (go_op_id op) (go_ordered_keys op)).

(** [poll_main]: other items are left to the caller. *)
Definition poll_main {Item} (g3_item : Item → option G3Item) (items : list Item) : M St (list Item) :=
  fold_each (λ unhandled item,
    match g3_item item with
    | None => mret (unhandled ++ [item])
    | Some g => poll_item g ;; mret unhandled
    end) [] items.

(** [close_main] before the files are closed. *)
Definition close_op (op : G3TransferOp) : M St unit :=
  (if decide (go_kind op = KStore) then
     rollback (go_reservations op) ;;
     for_each (go_ordered_keys op) abandon_capacity_eviction ;;
     release_local_dram_sources (go_op_id op) None
   else release_claims (go_claims op)) ;;
  remove_block_dependencies (go_op_id op) (go_ordered_keys op).
Definition close_main : M St unit :=
  ops ← gets (λ s, (map_to_list (g3_active (s_g3 s))).*2);
  for_each ops close_op ;;
  upd_g3 (set_g3_active ∅).

Definition is_ready (key : BlockKey) (layout : option (list label)) : M St bool :=
  b ← find_record key;
  match b ≫= b_g3 with
  | None => mret false
  | Some gid =>
      g ← get_disk gid;
      mret (match layout with None => true | Some layout => bool_decide (g_layout g = layout) end)
  end.

(** Total, free, allocated and evictable slots, and pending stores. *)
Definition disk_telemetry : M St (list Z) := gets (λ s,
  let g := s_g3 s in
  let free := Z.of_nat (length (g3_free g)) in
  [total_slots; free; (total_slots - free)%Z; g3_evictable_slots g; Z.of_nat (size (g3_pending_keys g))]).

(** ** Recovery *)

Fixpoint occupy_disk (slots : list Z) (occupied : gset Z) : option (gset Z) :=
  match slots with
  | [] => Some occupied
  | slot :: slots =>
      if decide (¬ (0 <= slot < total_slots)%Z ∨ slot ∈ occupied) then None
      else occupy_disk slots ({[ slot ]} ∪ occupied)
  end.

Definition adopt_disk_residency (occupied : gset Z) (record : BlockKey * BlockRecord) : M St (gset Z) :=
  let b := record.2 in
  match b_g3 b with
  | None => mret occupied
  | Some gid =>
      g ← get_disk gid;
      lift (validate_expected_layout E (g_layout g)) ;;
      bytes ← lift (layout_bytes (g_layout g));
      if decide (disk_size g ≠ bytes) then raise (ValueError "invalid G3 recovery slots")
      else
        match occupy_disk (g_slots g) occupied with
        | None => raise (ValueError "invalid G3 recovery slots")
        | Some occupied =>
            match b_local_dram b with
            | None => mret occupied
            | Some rid =>
                r ← get_res rid;
                if decide (g_layout g ≠ r_key_layout r)
                then raise (ValueError "G3 recovery layout does not match local DRAM")
                else mret occupied
            end
        end
  end.

Definition adopt_disk_slots (records : list (BlockKey * BlockRecord)) : M St unit :=
  occupied ← fold_each adopt_disk_residency ∅ records;
  upd_g3 (set_g3_free (filter (λ slot, slot ∉ occupied) (seqZ 0 total_slots))).

Definition rank_recovered_disk (records : list (BlockKey * BlockRecord)) : M St unit :=
  for_each records (λ '((key, b) : BlockKey * BlockRecord),
    if decide (b_g3 b = None) then mret tt else disk_make_evictable key).
End Disk.

(** ** A transfer in the progress thread

    [_G3TransferOp.progress] and [close]: the clock readings of a turn and NIXL's answers
    are arguments. *)

Record OpRun := mkOpRun {
  or_transfer_id : option Z;
  or_failure_latched : bool;
  or_uncertain : bool;
  or_success : bool }.
Definition run_init : OpRun := mkOpRun None false false false.

(** Completions a turn appends: memory events, and a copy of the operation. *)
Inductive G3Out :=
  | OutMemory (handle : Z) (quiesced : bool) (regions : list MemoryRef)
  | OutItem (item : G3Item).

Definition item_of (op : G3TransferOp) (o : OpRun) : G3Item :=
  mkG3Item op (or_uncertain o) (or_transfer_id o) (or_success o).

Definition report_memory (op : G3TransferOp) (quiesced : bool) : result G3Out :=
  match go_lifecycle_handle op with
  | None => Raise (RuntimeError "G3 delivery lost its memory lifecycle handle")
  | Some handle =>
      Ret (OutMemory handle quiesced
        ((λ ref, {| end_point_name := tr_end_point ref; ref_label := tr_label ref;
                    element_index := tr_element_index ref |}) <$> go_memory_refs op))
  end.

(** The clock's readings of one turn, in reading order, and what NIXL answers. *)
Record Turn := mkTurn {
  t_submit_at : float;
  t_poll_at : float;
  t_abandon_at : float;
  t_created : result (option Z);
  t_post : XferAnswer;
  t_answer : XferAnswer;
  t_released : bool }.

(** The second half of [progress]: an owned transfer is watched. *)
Definition watch (op : G3TransferOp) (t : Turn) (transfer_id : Z)
    (o : OpRun) (observed_work : bool) : M Prog (OpRun * list G3Out * bool * bool) :=
  let late := negb (or_failure_latched o) && fgeb (t_poll_at t) (go_deadline op) in
  let o := if late then mkOpRun (or_transfer_id o) true (or_uncertain o) (or_success o) else o in
  let observed_work := observed_work || late in
  result ← poll_transfer transfer_id true (t_answer t) (t_released t);
  match result with
  | None =>
      if or_failure_latched o && negb (or_uncertain o) &&
         match go_abandon_deadline op with None => false | Some d => fgeb (t_abandon_at t) d end
      then
        let o := mkOpRun (or_transfer_id o) (or_failure_latched o) true (or_success o) in
        memory ← lift (report_memory op false);
        mret (o, [memory; OutItem (item_of op o)], false, true)
      else mret (o, [], false, observed_work)
  | Some completed =>
      let o := mkOpRun None (or_failure_latched o) (or_uncertain o)
                 (completed && negb (or_failure_latched o)) in
      if or_uncertain o
      then memory ← lift (report_memory op true); mret (o, [memory], true, true)
      else mret (o, [], true, true)
  end.

(** [progress]: the new fields, the completions appended, whether the operation is done,
    and whether it worked.  The answer of [_report_memory] is the last thing that can
    fail. *)
Definition progress (nixl_agent_name : string) (op : G3TransferOp) (t : Turn) (o : OpRun)
    : M Prog (OpRun * list G3Out * bool * bool) :=
  match or_transfer_id o with
  | Some transfer_id => watch op t transfer_id o false
  | None =>
      if fgeb (t_submit_at t) (go_deadline op) then mret (o, [], true, true)
      else
        submitted ← try_except
          (x ← submit_transfer (DMems (go_memory_descriptors op)) (DMems (go_file_descriptors op))
                 nixl_agent_name (t_created t) (t_post t); mret (Some x))
          (λ _, mret None);
        match submitted with
        | None => mret (o, [], true, true)
        | Some (transfer_id, posted) =>
            watch op t transfer_id
              (mkOpRun (Some transfer_id) (negb posted) (or_uncertain o) (or_success o)) true
        end
  end.

(** [close] *)
Definition close_run (o : OpRun) : OpRun * bool :=
  (mkOpRun (or_transfer_id o) true (or_uncertain o) false,
   bool_decide (or_transfer_id o = None)).
