(* ===== verification/DiskInv.v ===== *)
(** * The invariant of the file-backed tier

    Where each slot of the files is: free, in the residency a block record holds, in the
    reservation of a store under way, or in the hand of a call that is not finished.
    [Hand] names what such a call holds; a call that raises may leave its hand behind, and
    no other operation ever takes those slots for free. *)

From Stdlib Require Import ZArith Lia.
From S2P Require Import Prelude PyFloat Types PolicyRuntime Layout State CoreBase Pools PoolsInv Transfer Disk.

Record Hand := mkHand {
  h_res : list (BlockKey * nat);
  h_slots : list Z;
  h_claims : list (BlockKey * nat);
  h_ents : list qentry }.
Definition hand0 : Hand := mkHand [] [] [] [].
Definition set_h_res (v : list (BlockKey * nat)) (h : Hand) : Hand :=
  mkHand v (h_slots h) (h_claims h) (h_ents h).
Definition set_h_slots (v : list Z) (h : Hand) : Hand := mkHand (h_res h) v (h_claims h) (h_ents h).
Definition set_h_claims (v : list (BlockKey * nat)) (h : Hand) : Hand :=
  mkHand (h_res h) (h_slots h) v (h_ents h).
Definition set_h_ents (v : list qentry) (h : Hand) : Hand :=
  mkHand (h_res h) (h_slots h) (h_claims h) v.

(** The disk residency each block record holds. *)
Definition down (s : St) : gmap BlockKey nat := omap b_g3 (s_records s).
Definition gslots (res : gmap nat G3Residency) (gid : nat) : list Z :=
  match res !! gid with Some g => g_slots g | None => [] end.
Definition slots_at (res : gmap nat G3Residency) (l : list (BlockKey * nat)) : list Z :=
  l ≫= λ x, gslots res x.2.
Definition op_list (active : gmap OpId G3TransferOp) : list G3TransferOp := (map_to_list active).*2.
Definition reserved (active : gmap OpId G3TransferOp) (h : Hand) : list (BlockKey * nat) :=
  (op_list active ≫= go_reservations) ++ h_res h.
Definition claimed (active : gmap OpId G3TransferOp) (h : Hand) : list (BlockKey * nat) :=
  (op_list active ≫= go_claims) ++ h_claims h.
(** Every block that has slots, with its residency. *)
Definition homes (o : gmap BlockKey nat) (r : list (BlockKey * nat)) : list (BlockKey * nat) :=
  map_to_list o ++ r.

(** A resident block nobody claims. *)
Definition idle (o : gmap BlockKey nat) (res : gmap nat G3Residency) (k : BlockKey) : Prop :=
  ∃ gid g, o !! k = Some gid ∧ res !! gid = Some g ∧ g_claim_count g = 0%Z.

Record home_inv (o : gmap BlockKey nat) (res : gmap nat G3Residency) (next : nat)
    (r : list (BlockKey * nat)) (pending : gset BlockKey) : Prop := {
  ho_alloc : ∀ gid, gid ∈ (homes o r).*2 → is_Some (res !! gid);
  ho_fresh : ∀ gid, next ≤ gid → res !! gid = None;
  ho_gids : NoDup (homes o r).*2;
  ho_keys : NoDup (homes o r).*1;
  ho_new : ∀ k gid g, (k, gid) ∈ r → res !! gid = Some g → g_claim_count g = 0%Z;
  ho_pending : ∀ k, k ∈ pending ↔ k ∈ r.*1 }.
Definition disk_slots_inv (E : Env) (o : gmap BlockKey nat) (res : gmap nat G3Residency)
    (r : list (BlockKey * nat)) (free hand : list Z) : Prop :=
  free ++ slots_at res (homes o r) ++ hand ≡ₚ seqZ 0 (total_slots E).
Record rank_inv (o : gmap BlockKey nat) (res : gmap nat G3Residency) (q : EvictionQueue)
    (count : Z) (unscored : gset BlockKey) (ents : list qentry) : Prop := {
  ra_wf : queue_wf q ents;
  ra_live : ∀ k, is_Some (q_live q !! k) → idle o res k;
  ra_unscored : ∀ k, k ∈ unscored → idle o res k;
  ra_count : count = Z.of_nat (length (slots_at res (map_to_list (queued q o)))) }.
Record hold_inv (o : gmap BlockKey nat) (res : gmap nat G3Residency)
    (claims : list (BlockKey * nat)) : Prop := {
  hl_own : ∀ k gid, (k, gid) ∈ claims → o !! k = Some gid;
  hl_count : ∀ k gid g, o !! k = Some gid → res !! gid = Some g →
    g_claim_count g = occ (k, gid) claims }.
(** A store reserves and a read claims, and the file descriptors of each are of its own
    blocks. *)
Definition op_fits (E : Env) (res : gmap nat G3Residency) (op : G3TransferOp) : Prop :=
  if decide (go_kind op = KStore)
  then go_claims op = [] ∧
    go_file_descriptors op = file_descriptor E <$> slots_at res (go_reservations op)
  else go_reservations op = [] ∧
    go_file_descriptors op ⊆ file_descriptor E <$> slots_at res (go_claims op).
Definition op_inv (E : Env) (res : gmap nat G3Residency) (active : gmap OpId G3TransferOp) : Prop :=
  ∀ id op, active !! id = Some op → go_op_id op = id ∧ op_fits E res op.

Record dinv (E : Env) (h : Hand) (s : St) : Prop := {
  di_home : home_inv (down s) (s_g3res s) (s_next_g3 s) (reserved (g3_active (s_g3 s)) h)
    (g3_pending_keys (s_g3 s));
  di_slots : disk_slots_inv E (down s) (s_g3res s) (reserved (g3_active (s_g3 s)) h)
    (g3_free (s_g3 s)) (h_slots h);
  di_rank : rank_inv (down s) (s_g3res s) (g3_evictable (s_g3 s)) (g3_evictable_slots (s_g3 s))
    (g3_unscored (s_g3 s)) (h_ents h);
  di_hold : hold_inv (down s) (s_g3res s) (claimed (g3_active (s_g3 s)) h);
  di_ops : op_inv E (s_g3res s) (g3_active (s_g3 s)) }.

(** Hands with the same contents, and a hand with more left behind. *)
Record heq (h h' : Hand) : Prop := {
  he_res : h_res h ≡ₚ h_res h';
  he_slots : h_slots h ≡ₚ h_slots h';
  he_claims : h_claims h ≡ₚ h_claims h';
  he_ents : h_ents h = h_ents h' }.
#[export] Instance heq_equiv : Equivalence heq.
Proof.
  split.
  - intros h. by split.
  - intros h h' []. by split.
  - intros a b c [] []. split; by etrans.
Qed.
Definition hplus (h l : Hand) : Hand :=
  mkHand (h_res h ++ h_res l) (h_slots h ++ h_slots l) (h_claims h ++ h_claims l) (h_ents h).
Definition dext (E : Env) (h : Hand) (s : St) : Prop := ∃ l, dinv E (hplus h l) s.

(** ** Permutations *)

#[export] Instance homes_proper o : Proper ((≡ₚ) ==> (≡ₚ)) (homes o).
Proof. intros r r' Hr. unfold homes. by rewrite Hr. Qed.
#[export] Instance slots_at_proper res : Proper ((≡ₚ) ==> (≡ₚ)) (slots_at res).
Proof. intros l l' Hl. unfold slots_at. by rewrite Hl. Qed.
Lemma slots_at_app res l l' : slots_at res (l ++ l') = slots_at res l ++ slots_at res l'.
Proof. apply bind_app. Qed.
Lemma slots_at_cons res k gid l : slots_at res ((k, gid) :: l) = gslots res gid ++ slots_at res l.
Proof. done. Qed.

Lemma home_inv_perm o res next r r' pending : r ≡ₚ r' →
  home_inv o res next r pending → home_inv o res next r' pending.
Proof.
  intros Hr [Ha Hf Hg Hk Hn Hp].
  assert (homes o r ≡ₚ homes o r') as Hh by by rewrite Hr.
  split; [| done | | | |].
  - intros gid. rewrite <- Hh. apply Ha.
  - by rewrite <- Hh.
  - by rewrite <- Hh.
  - intros k gid g. rewrite <- Hr. apply Hn.
  - intros k. rewrite <- Hr. apply Hp.
Qed.
Lemma hold_inv_perm o res c c' : c ≡ₚ c' → hold_inv o res c → hold_inv o res c'.
Proof.
  intros Hc [Ho Hn]. split.
  - intros k gid. rewrite <- Hc. apply Ho.
  - intros k gid g. rewrite <- Hc. apply Hn.
Qed.
Lemma disk_slots_perm E o res r r' free free' hand hand' :
  r ≡ₚ r' → free ++ hand ≡ₚ free' ++ hand' →
  disk_slots_inv E o res r free hand → disk_slots_inv E o res r' free' hand'.
Proof.
  unfold disk_slots_inv. intros Hr Hf <-. rewrite <- Hr.
  rewrite (Permutation_app_comm _ hand), (Permutation_app_comm _ hand').
  by rewrite !app_assoc, Hf.
Qed.

#[export] Instance dinv_proper E : Proper (heq ==> (=) ==> iff) (dinv E).
Proof.
  assert (∀ h h' s, heq h h' → dinv E h s → dinv E h' s) as Hw.
  { intros h h' s [Hr Hs Hc He] [H1 H2 H3 H4 H5]. rewrite He in H3.
    assert (reserved (g3_active (s_g3 s)) h ≡ₚ reserved (g3_active (s_g3 s)) h') as Hr'
      by (unfold reserved; by rewrite Hr).
    split; [| | done | | done].
    - by eapply home_inv_perm.
    - apply (disk_slots_perm _ _ _ _ _ _ _ _ _ Hr' (Permutation_app_head _ Hs) H2).
    - eapply hold_inv_perm; [|done]. unfold claimed. by rewrite Hc. }
  intros h h' Hh s ? <-. split; apply Hw; by symmetry.
Qed.
Lemma hplus_nil h : heq (hplus h hand0) h.
Proof. split; simpl; by rewrite ?app_nil_r. Qed.
Lemma dext_intro E h s : dinv E h s → dext E h s.
Proof. intros Hd. exists hand0. by rewrite hplus_nil. Qed.
(** Forgetting what is in hand. *)
Lemma dext_sub E h h' l s : heq h (hplus h' l) → dext E h s → dext E h' s.
Proof.
  intros Hh [x Hd]. exists (hplus l x). eapply dinv_proper; [|reflexivity|exact Hd].
  destruct Hh as [H1 H2 H3 H4]. split; simpl in *; rewrite ?H1, ?H2, ?H3, ?H4, ?app_assoc; done.
Qed.

(** ** Calls that leave the tier alone *)

Record same_disk (s s' : St) : Prop := {
  sd_down : down s' = down s;
  sd_res : s_g3res s' = s_g3res s;
  sd_next : s_next_g3 s' = s_next_g3 s;
  sd_g3 : s_g3 s' = s_g3 s }.
#[export] Instance same_disk_equiv : Equivalence same_disk.
Proof.
  split; [by split | intros ?? []; by split | intros ??? [] []; split; congruence].
Qed.
Lemma dinv_same E h s s' : same_disk s s' → dinv E h s → dinv E h s'.
Proof. intros [Hd Hr Hn Hg] []. split; rewrite ?Hd, ?Hr, ?Hn, ?Hg; done. Qed.
Lemma dext_same E h s s' : same_disk s s' → dext E h s → dext E h s'.
Proof. intros Hs [l Hd]. exists l. by eapply dinv_same. Qed.

Definition still {A} (m : M St A) : Prop := ∀ s, wp m (λ _, same_disk s) (λ _, same_disk s) s.
Lemma still_ret {A} (a : A) : still (mret a).
Proof. intros s. apply wp_ret. reflexivity. Qed.
Lemma still_raise {A} e : still (raise (A:=A) e).
Proof. intros s. apply wp_raise. reflexivity. Qed.
Lemma still_gets {A} (f : St → A) : still (gets f).
Proof. intros s. apply wp_gets. reflexivity. Qed.
Lemma still_lift {A} (r : result A) : still (lift r).
Proof. intros s. unfold wp, lift. by destruct r. Qed.
Lemma still_modify f : (∀ s, same_disk s (f s)) → still (modify f).
Proof. intros H s. apply wp_modify, H. Qed.
Lemma still_bind {A B} (m : M St A) (f : A → M St B) :
  still m → (∀ a, still (f a)) → still (m ≫= f).
Proof.
  intros Hm Hf s. apply wp_bind. eapply wp_mono; [apply Hm | | auto].
  intros a s' Hs. simpl in Hs. eapply wp_mono; [apply Hf|..]; simpl; intros ?? ?; by etrans.
Qed.
Lemma still_for_each {A} (l : list A) (f : A → M St unit) :
  (∀ x, still (f x)) → still (for_each l f).
Proof.
  intros Hf. induction l as [|x l IH]; simpl; [apply still_ret|].
  apply still_bind; [apply Hf | intros _; exact IH].
Qed.
Lemma still_fold_each {A B} (f : B → A → M St B) acc (l : list A) :
  (∀ b x, still (f b x)) → still (fold_each f acc l).
Proof.
  intros Hf. revert acc. induction l as [|x l IH]; intros acc; simpl; [apply still_ret|].
  apply still_bind; [apply Hf | intros ?; apply IH].
Qed.
Lemma wp_still {A} (m : M St A) Q Ex s :
  still m → (∀ a s', same_disk s s' → Q a s') → (∀ e s', same_disk s s' → Ex e s') → wp m Q Ex s.
Proof. intros Hm HQ HE. eapply wp_mono; [apply Hm | auto | auto]. Qed.

Ltac still_tac :=
  repeat match goal with
  | |- still (mret _) => apply still_ret
  | |- still (raise _) => apply still_raise
  | |- still (gets _) => apply still_gets
  | |- still (lift _) => apply still_lift
  | |- still (modify _) => apply still_modify; intros ?; by split
  | |- still (_ ≫= _) => apply still_bind; [|intros ?]
  | |- still (for_each _ _) => apply still_for_each; intros ?
  | |- still (fold_each _ _ _) => apply still_fold_each; intros ? ?
  | |- still _ => solve [eauto 2 with kvcr nocore]
  | |- still (if ?b then _ else _) => destruct b
  | |- still (match ?b with _ => _ end) => destruct b
  end.

Lemma still_get_res rid : still (get_res rid).
Proof. intros s. unfold wp, get_res. by destruct (s_res s !! rid). Qed.
Lemma still_get_disk gid : still (get_disk gid).
Proof. intros s. unfold wp, get_disk. by destruct (s_g3res s !! gid). Qed.
Lemma still_find_record key : still (find_record key).
Proof. apply still_gets. Qed.
Lemma still_emit ev : still (emit ev).
Proof. unfold emit. still_tac. Qed.
Lemma still_log_call c : still (log_call c).
Proof. unfold log_call. still_tac. Qed.
Lemma still_observe key b : still (observe_residency key b).
Proof. intros s. exact (still_emit _ s). Qed.
Lemma still_upd_pools f : still (upd_pools f).
Proof. unfold upd_pools. still_tac. Qed.
Lemma still_upd_source f : still (upd_source f).
Proof. apply still_upd_pools. Qed.
Lemma still_upd_res rid f : still (upd_res rid f).
Proof. unfold upd_res. still_tac. Qed.
Lemma still_clock E : still (clock E).
Proof. intros s. by split. Qed.
Lemma down_alter s key f : (∀ b, b_g3 (f b) = b_g3 b) →
  omap b_g3 (alter f key (s_records s)) = down s.
Proof.
  intros Hf. apply map_eq. intros k. unfold down. rewrite !lookup_omap, lookup_alter.
  case_decide as Hk; [|done]. subst. destruct (s_records s !! k); simpl; [apply Hf | done].
Qed.
Lemma still_upd_record key f : (∀ b, b_g3 (f b) = b_g3 b) → still (upd_record key f).
Proof. intros Hf. apply still_modify. intros s. split; try done. by apply down_alter. Qed.
Lemma record_empty_g3 b : record_is_empty b = true → b_g3 b = None.
Proof.
  unfold record_is_empty. rewrite !andb_true_iff. intros [[_ H] _].
  by apply bool_decide_eq_true in H.
Qed.
Lemma still_prune key : still (prune_block_record key).
Proof.
  apply still_modify. intros s. destruct (s_records s !! key) as [b|] eqn:Hb; [|done].
  destruct (record_is_empty b) eqn:He; [|done]. split; try done.
  apply map_eq. intros k. unfold down. simpl. rewrite !lookup_omap, lookup_delete.
  case_decide as Hk; [|done]. subst. rewrite Hb. simpl. symmetry. by apply record_empty_g3.
Qed.
Lemma still_block_record key : still (block_record key).
Proof.
  intros s. unfold wp, block_record. destruct (s_records s !! key) eqn:Hb; [done|].
  split; try done. apply map_eq. intros k. unfold down. simpl. rewrite !lookup_omap, lookup_insert.
  case_decide as Hk; [|done]. subst. by rewrite Hb.
Qed.
#[export] Hint Resolve still_get_res still_get_disk still_find_record still_emit still_log_call
  still_observe still_upd_pools still_upd_source still_upd_res still_clock still_prune
  still_block_record : kvcr.
Lemma still_access key now : still (upd_record key (λ b,
  set_b_last_access (Some now) (set_b_access_count (b_access_count b + 1)%Z b))).
Proof. by apply still_upd_record. Qed.
Lemma still_drop_dram key : still (upd_record key (set_b_local_dram None)).
Proof. by apply still_upd_record. Qed.
Lemma still_add_op key op : still (upd_record key (add_in_flight_op op)).
Proof. apply still_upd_record. by intros []. Qed.
Lemma still_discard_op key op : still (upd_record key (discard_in_flight_op op)).
Proof. apply still_upd_record. intros b. unfold discard_in_flight_op. by case_match. Qed.
Lemma still_on_remove meta : still (on_remove meta).
Proof. unfold on_remove. still_tac. Qed.
Lemma still_publish E keys tier removed : still (publish_inventory E keys tier removed).
Proof. unfold publish_inventory. still_tac. Qed.
Lemma still_pressure E slots : still (core_update_capacity_pressure E slots).
Proof. unfold core_update_capacity_pressure. still_tac. Qed.
#[export] Hint Resolve still_access still_drop_dram still_add_op still_discard_op still_on_remove
  still_publish still_pressure : kvcr.
Lemma still_score E meta tier previous : still (policy_eviction_score E meta tier previous).
Proof.
  intros s. unfold wp, policy_eviction_score, log_call, lift, mbind, M_bind, modify.
  by destruct (invoke_eviction_score _ _).
Qed.
Lemma still_decide E meta tier : still (policy_decide_eviction E meta tier).
Proof. intros s. by split. Qed.
Lemma still_recovery E meta f : still (policy_decide_recovery E meta f).
Proof. intros s. by split. Qed.
Lemma still_complete h entries : still (complete h entries).
Proof. unfold complete. still_tac. Qed.
Lemma still_add_dependencies op keys : still (add_block_dependencies op keys).
Proof. unfold add_block_dependencies. still_tac. Qed.
Lemma still_remove_dependencies op keys : still (remove_block_dependencies op keys).
Proof. unfold remove_block_dependencies. still_tac. Qed.
Lemma still_record_access E keys : still (record_access E keys).
Proof. unfold record_access. still_tac. Qed.
Lemma still_capacity E : still (update_capacity_pressure E).
Proof. unfold update_capacity_pressure, reclaimable_slots. still_tac. Qed.
#[export] Hint Resolve still_score still_decide still_recovery still_complete still_add_dependencies
  still_remove_dependencies still_record_access still_capacity : kvcr.

(** Claims on local DRAM. *)
Lemma still_remove_evictable key rid : still (remove_evictable key rid).
Proof. unfold remove_evictable. still_tac. Qed.
Lemma still_make_evictable E key : still (make_evictable E key).
Proof. unfold make_evictable. still_tac. Qed.
#[export] Hint Resolve still_remove_evictable still_make_evictable : kvcr.
Lemma still_acquire_claim key rid : still (acquire_claim key rid).
Proof. unfold acquire_claim. still_tac. Qed.
#[export] Hint Resolve still_acquire_claim : kvcr.
Lemma still_acquire_sources E keys filling : still (acquire_sources E keys filling).
Proof. unfold acquire_sources. still_tac. Qed.
Lemma still_source_refs E rid indices : still (source_refs E rid indices).
Proof. unfold source_refs. still_tac. Qed.
Lemma still_retire_sources E keys : still (retire_sources E keys).
Proof. unfold retire_sources. still_tac. Qed.
Lemma still_free_slots locations : still (free_slots locations).
Proof. unfold free_slots. still_tac. Qed.
Lemma still_abandon key : still (abandon_capacity_eviction key).
Proof. unfold abandon_capacity_eviction. still_tac. Qed.
#[export] Hint Resolve still_acquire_sources still_source_refs still_retire_sources still_free_slots
  still_abandon : kvcr.
Lemma still_withdraw E key b r : still (withdraw E key b r).
Proof. unfold withdraw. still_tac. Qed.
#[export] Hint Resolve still_withdraw : kvcr.
