(* ===== verification/DiskOps.v ===== *)
(** * The operations of the file-backed tier keep its invariant

    Ranking, allocation and eviction, reservations, claims: one lemma per operation of
    [Disk.v], each stating what is in hand afterwards. *)

From Stdlib Require Import ZArith Lia.
From S2P Require Import Prelude PyFloat Types PolicyRuntime Layout State CoreBase Pools PoolsInv Transfer Disk DiskInv.

(** What ranking leaves alone. *)
Record same_slots (s s' : St) : Prop := {
  ss_down : down s' = down s;
  ss_res : s_g3res s' = s_g3res s;
  ss_next : s_next_g3 s' = s_next_g3 s;
  ss_free : g3_free (s_g3 s') = g3_free (s_g3 s);
  ss_pending : g3_pending_keys (s_g3 s') = g3_pending_keys (s_g3 s);
  ss_ops : g3_active (s_g3 s') = g3_active (s_g3 s) }.
#[export] Instance same_slots_equiv : Equivalence same_slots.
Proof.
  split; [by split | intros ?? []; by split | intros ??? [] []; split; congruence].
Qed.
Lemma same_disk_slots s s' : same_disk s s' → same_slots s s'.
Proof. intros [? ? ? Hg]. split; rewrite ?Hg; done. Qed.

Lemma down_record s k gid : down s !! k = Some gid →
  ∃ b, s_records s !! k = Some b ∧ b_g3 b = Some gid.
Proof. unfold down. rewrite lookup_omap. intros (b & Hb & Hg)%bind_Some. eauto. Qed.
Lemma record_down s k b : s_records s !! k = Some b → down s !! k = b_g3 b.
Proof. intros Hb. unfold down. by rewrite lookup_omap, Hb. Qed.
Lemma no_record_down s k : s_records s !! k = None → down s !! k = None.
Proof. intros Hb. unfold down. by rewrite lookup_omap, Hb. Qed.

Lemma wp_get_disk gid g Q Ex s : s_g3res s !! gid = Some g → Q g s → wp (get_disk gid) Q Ex s.
Proof. intros Hg HQ. unfold wp, get_disk. by rewrite Hg. Qed.
Lemma wp_find_record key Q Ex s : Q (s_records s !! key) s → wp (find_record key) Q Ex s.
Proof. exact id. Qed.

(** Skip a step that does not concern the tier. *)
Ltac wp_still s' Hv :=
  lazymatch goal with
  | |- wp ?m _ _ _ =>
      eapply (wp_still m); [solve [still_tac] | intros ? s' Hv | intros ? s' Hv]
  end.

Lemma home_gid E h s k gid : dinv E h s → down s !! k = Some gid → ∃ g, s_g3res s !! gid = Some g.
Proof.
  intros Hd Hk. apply (ho_alloc _ _ _ _ _ (di_home _ _ _ Hd)). unfold homes.
  rewrite fmap_app, elem_of_app. left. apply list_elem_of_fmap. exists (k, gid). split; [done|].
  by apply elem_of_map_to_list.
Qed.
Lemma down_inj E h s k k' gid : dinv E h s → down s !! k = Some gid → down s !! k' = Some gid → k = k'.
Proof.
  intros Hd Hk Hk'. pose proof (ho_gids _ _ _ _ _ (di_home _ _ _ Hd)) as Hn.
  unfold homes in Hn. rewrite fmap_app in Hn. apply list.NoDup_app in Hn as (Hn & _ & _).
  apply elem_of_map_to_list, list_elem_of_lookup in Hk as [i Hi].
  apply elem_of_map_to_list, list_elem_of_lookup in Hk' as [j Hj].
  assert (i = j) as ->; [|congruence].
  eapply NoDup_lookup; [exact Hn|by rewrite list_lookup_fmap, Hi|by rewrite list_lookup_fmap, Hj].
Qed.

Section Rank.
Context (E : Env).
Implicit Types (h : Hand) (s : St).

(** *** The eviction queue *)

Lemma rank_inv_remove o res q n unscored ents k gid g :
  o !! k = Some gid → res !! gid = Some g → rank_inv o res q n unscored ents →
  rank_inv o res (queue_remove q k).2
    (if (queue_remove q k).1 then (n - Z.of_nat (length (g_slots g)))%Z else n)
    (unscored ∖ {[ k ]}) ents.
Proof.
  intros Hk Hg [Hw Hl Hu Hc]. split.
  - by apply queue_wf_remove.
  - intros k'. rewrite queue_remove_live. intros [e [_ He]%lookup_delete_Some]. apply Hl. by eexists.
  - intros k' Hk'. apply Hu. set_solver.
  - assert ((queue_remove q k).1 = bool_decide (is_Some (q_live q !! k))) as -> by done.
    case_bool_decide as Hin.
    + assert (queued q o = <[k := gid]> (delete k (queued q o))) as Hq.
      { rewrite insert_delete_id; [done|]. rewrite queued_lookup, decide_True; [done|].
        by apply elem_of_dom. }
      assert (queued (queue_remove q k).2 o = delete k (queued q o)) as ->.
      { apply map_eq. intros k'. rewrite lookup_delete, !queued_lookup. simpl.
        rewrite dom_delete_L. repeat case_decide; set_solver. }
      rewrite Hq, (map_to_list_insert _ _ _ (lookup_delete_eq _ _)) in Hc.
      rewrite slots_at_cons, length_app in Hc. unfold gslots in Hc. rewrite Hg in Hc. lia.
    + rewrite Hc. do 4 f_equal. symmetry. apply queued_ext. simpl. rewrite dom_delete_L.
      assert (k ∉ dom (q_live q)) by (rewrite elem_of_dom; done). set_solver.
Qed.

Lemma rank_inv_insert o res q n unscored ents k gid g x :
  f_isfinite x = true → o !! k = Some gid → res !! gid = Some g → g_claim_count g = 0%Z →
  rank_inv o res q n unscored ents →
  rank_inv o res (queue_insert q k x).2
    (if (queue_insert q k x).1 then (n + Z.of_nat (length (g_slots g)))%Z else n)
    (unscored ∖ {[ k ]}) ents.
Proof.
  intros Hx Hk Hg Hz [Hw Hl Hu Hc]. destruct (queue_insert_live q k x) as [Hd Hadd]. split.
  - by apply queue_wf_insert.
  - intros k' Hk'%elem_of_dom. rewrite Hd in Hk'.
    apply elem_of_union in Hk' as [->%elem_of_singleton|Hk']; [by exists gid, g|].
    apply Hl. by apply elem_of_dom.
  - intros k' Hk'. apply Hu. set_solver.
  - rewrite Hadd. case_bool_decide as Hn.
    + assert (queued (queue_insert q k x).2 o = <[ k := gid ]> (queued q o)) as ->.
      { apply map_eq. intros k'. rewrite lookup_insert, !queued_lookup, Hd.
        repeat case_decide; subst; set_solver. }
      rewrite map_to_list_insert, slots_at_cons, length_app; last first.
      { rewrite queued_lookup, decide_False; [done|]. by apply not_elem_of_dom. }
      unfold gslots. rewrite Hg. lia.
    + rewrite Hc. do 4 f_equal. symmetry. apply queued_ext. rewrite Hd.
      assert (k ∈ dom (q_live q)); [|set_solver]. apply elem_of_dom. by destruct (q_live q !! k).
Qed.

Lemma rank_inv_drop o res q n unscored ents k : k ∉ dom (q_live q) → rank_inv o res q n unscored ents →
  rank_inv o res (queue_remove q k).2 n (unscored ∖ {[ k ]}) ents.
Proof.
  intros Hk [Hw Hl Hu Hc]. split.
  - by apply queue_wf_remove.
  - intros k'. rewrite queue_remove_live. intros [e [_ He]%lookup_delete_Some]. apply Hl. by eexists.
  - intros k' Hk'. apply Hu. set_solver.
  - rewrite Hc. do 4 f_equal. symmetry. apply queued_ext. simpl. rewrite dom_delete_L. set_solver.
Qed.

(** The queue of a state is replaced. *)
Definition set_rank (q : EvictionQueue) (n : Z) (unscored : gset BlockKey) (s : St) : St :=
  set_s_g3 (mkG3State (g3_free (s_g3 s)) q n unscored (g3_pending_keys (s_g3 s)) (g3_active (s_g3 s))) s.
Lemma dinv_rank h s q n unscored ents :
  rank_inv (down s) (s_g3res s) q n unscored ents → dinv E h s →
  dinv E (set_h_ents ents h) (set_rank q n unscored s).
Proof. intros Hr [H1 H2 _ H4 H5]. by split. Qed.
Lemma set_h_ents_id h : set_h_ents (h_ents h) h = h.
Proof. by destruct h. Qed.

Lemma wp_disk_remove h key Q Ex s : dinv E h s →
  (∀ s', dinv E h s' → same_slots s s' → q_live (g3_evictable (s_g3 s')) !! key = None →
     key ∉ g3_unscored (s_g3 s') → Q tt s') →
  wp (disk_remove_evictable key) Q Ex s.
Proof.
  intros Hd HQ. unfold disk_remove_evictable, upd_g3. wp. simpl.
  pose proof (di_rank _ _ _ Hd) as Hr. case_bool_decide as Hin; wp.
  - destruct (ra_live _ _ _ _ _ _ Hr key Hin) as (gid & g & Hk & Hg & _).
    apply wp_find_record. simpl. destruct (down_record _ _ _ Hk) as (b & -> & ->). wp.
    eapply wp_get_disk; [exact Hg|]. wp. apply HQ.
    + rewrite <- (set_h_ents_id h).
      eapply (dinv_rank h s _ _ _ _ (rank_inv_remove _ _ _ _ _ _ _ _ _ Hk Hg Hr)) in Hd.
      simpl in Hd. by rewrite bool_decide_true in Hd by done.
    + by split.
    + simpl. apply lookup_delete_eq.
    + simpl. set_solver.
  - apply HQ.
    + rewrite <- (set_h_ents_id h).
      apply (dinv_rank h s _ _ _ _ (rank_inv_drop _ _ _ _ _ _ key ltac:(by rewrite elem_of_dom) Hr) Hd).
    + by split.
    + simpl. apply lookup_delete_eq.
    + simpl. set_solver.
Qed.

(** A score is finite, or absent where there was none. *)
Lemma wp_disk_score meta previous Q Ex s :
  (∀ p, previous = Some p → f_isfinite p = true) →
  (∀ x s', same_disk s s' → f_isfinite x = true → Q (Some x) s') →
  (∀ s', same_disk s s' → Q None s') → (∀ e s', overflow e → same_disk s s' → Ex e s') →
  wp (policy_eviction_score E meta G3 previous) Q Ex s.
Proof.
  intros Hp HS HN HE. unfold wp, policy_eviction_score, mbind, M_bind, log_call, modify, lift.
  pose proof (invoke_score_cases (p_eviction_score (env_policy E) (s_calls s) meta G3)
    previous Hp) as Hc.
  destruct (invoke_eviction_score _ previous) as [[x|]|e].
  - by apply HS; [split|].
  - by apply HN; split.
  - by apply HE; [|split].
Qed.

Lemma wp_disk_rank h key Q Ex s : dinv E h s →
  (∀ s', dinv E h s' → same_slots s s' → Q tt s') →
  (∀ e s', overflow e → dinv E h s' → same_slots s s' → Ex e s') →
  wp (disk_make_evictable E key) Q Ex s.
Proof.
  intros Hd HQ HE. unfold disk_make_evictable. wp. apply wp_find_record.
  destruct (s_records s !! key) as [b|] eqn:Hb; simpl; [|wp; by apply HQ].
  destruct (b_g3 b) as [gid|] eqn:Hg; [|wp; by apply HQ].
  pose proof (record_down _ _ _ Hb) as Hk. rewrite Hg in Hk.
  destruct (home_gid _ _ _ _ _ Hd Hk) as [g Hr]. wp. eapply wp_get_disk; [done|].
  case_decide as Hz; [wp; by apply HQ|]. wp.
  apply wp_disk_score.
  { intros p. eapply queue_score_finite, (di_rank _ _ _ Hd). }
  - intros x s1 Hv1 Hx. apply (dinv_same E h _ _ Hv1) in Hd.
    rewrite <- (sd_down _ _ Hv1) in Hk. rewrite <- (sd_res _ _ Hv1) in Hr.
    apply same_disk_slots in Hv1. unfold upd_g3. wp. simpl.
    destruct (queue_insert _ key x) as [added q] eqn:Hq.
    assert (∀ n, n = (if added then g3_evictable_slots (s_g3 s1) + Z.of_nat (length (g_slots g))
      else g3_evictable_slots (s_g3 s1))%Z →
      dinv E h (set_rank q n (g3_unscored (s_g3 s1) ∖ {[key]}) s1)) as Hd'.
    { intros n ->. rewrite <- (set_h_ents_id h). apply dinv_rank; [|done].
      pose proof (rank_inv_insert _ _ _ _ _ _ key gid g x Hx Hk Hr ltac:(lia) (di_rank _ _ _ Hd)) as Hi.
      by rewrite Hq in Hi. }
    destruct added; wp; (apply HQ; [by apply Hd' | by etransitivity; [exact Hv1|split]]).
  - intros s1 Hv1. apply (dinv_same E h _ _ Hv1) in Hd.
    rewrite <- (sd_down _ _ Hv1) in Hk. rewrite <- (sd_res _ _ Hv1) in Hr.
    apply same_disk_slots in Hv1. unfold upd_g3. wp. apply HQ.
    + rewrite <- (set_h_ents_id h). apply (dinv_rank h s1 (g3_evictable (s_g3 s1))); [|done].
      destruct (di_rank _ _ _ Hd) as [Hw Hl Hu Hc]. split; try done.
      intros k [->%elem_of_singleton|]%elem_of_union; [|auto]. exists gid, g.
      split_and!; [done|done|lia].
    + by etransitivity; [exact Hv1|split].
  - intros e s1 He Hv1. apply HE; [done|by eapply dinv_same|by apply same_disk_slots].
Qed.

Lemma wp_disk_retry h Q Ex s : dinv E h s →
  (∀ s', dinv E h s' → same_slots s s' → Q tt s') →
  (∀ e s', dinv E h s' → same_slots s s' → Ex e s') →
  wp (disk_retry_unscored E) Q Ex s.
Proof.
  intros Hd HQ HE. unfold disk_retry_unscored. wp.
  apply (wp_for_each _ _ (λ _ s', dinv E h s' ∧ same_slots s s')).
  - by split.
  - intros k r s1 [H1 Hs1]. apply (wp_disk_rank h); [done|..].
    + intros s2 H2 Hs2. split; [done|by etrans].
    + intros e s2 _ H2 Hs2. apply HE; [done|by etrans].
  - intros s1 [H1 Hs1]. by apply HQ.
Qed.

(** *** Free slots *)

Definition set_free (free : list Z) (s : St) : St := set_s_g3 (set_g3_free free (s_g3 s)) s.
Lemma dinv_free h s free hand : free ++ hand ≡ₚ g3_free (s_g3 s) ++ h_slots h →
  dinv E h s → dinv E (set_h_slots hand h) (set_free free s).
Proof.
  intros Hp [H1 H2 H3 H4 H5]. split; try done. by eapply disk_slots_perm; [reflexivity|symmetry|].
Qed.

Lemma wp_pop_free h Q Ex s : dinv E h s →
  (g3_free (s_g3 s) = [] → Q None s) →
  (∀ slot s', dinv E (set_h_slots (slot :: h_slots h) h) s' → down s' = down s →
     g3_pending_keys (s_g3 s') = g3_pending_keys (s_g3 s) → Q (Some slot) s') →
  wp pop_free Q Ex s.
Proof.
  intros Hd HN HS. unfold pop_free, upd_g3. wp. destruct (g3_free (s_g3 s)) as [|slot free] eqn:Hf.
  - wp. by apply HN.
  - wp. apply HS; [|done|done]. apply (dinv_free h s free); [|done]. rewrite Hf. simpl.
    by rewrite Permutation_middle.
Qed.
Lemma wp_free_disk h slots rest Q Ex s : dinv E h s → h_slots h ≡ₚ slots ++ rest →
  (∀ s', dinv E (set_h_slots rest h) s' → down s' = down s →
     g3_pending_keys (s_g3 s') = g3_pending_keys (s_g3 s) → Q tt s') →
  wp (free_disk_slots slots) Q Ex s.
Proof.
  intros Hd Hs HQ. unfold free_disk_slots, upd_g3. wp. apply HQ; [|done|done].
  apply (dinv_free h s); [|done]. by rewrite Hs, app_assoc.
Qed.
End Rank.

(** ** Eviction and allocation *)

Lemma map_to_list_take {A} (m : gmap BlockKey A) k a : m !! k = Some a →
  map_to_list m ≡ₚ (k, a) :: map_to_list (delete k m).
Proof.
  intros Hk. rewrite <- map_to_list_insert by apply lookup_delete_eq. by rewrite insert_delete_id.
Qed.
Lemma down_set s key v : is_Some (s_records s !! key) →
  omap b_g3 (alter (set_b_g3 v) key (s_records s)) =
    match v with None => delete key (down s) | Some gid => <[key := gid]> (down s) end.
Proof.
  intros [b Hb]. apply map_eq. intros k. unfold down. rewrite lookup_omap, lookup_alter.
  destruct (decide (key = k)) as [<-|Hne].
  - rewrite Hb. destruct v; simpl; by rewrite ?lookup_insert_eq, ?lookup_delete_eq.
  - destruct v; by rewrite ?lookup_insert_ne, ?lookup_delete_ne, lookup_omap by done.
Qed.

Section Evict.
Context (E : Env).
Implicit Types (h : Hand) (s : St).

(** Blocks only leave, and the pending stores are the same. *)
Record shrinks (s s' : St) : Prop := {
  sh_down : down s' ⊆ down s;
  sh_pending : g3_pending_keys (s_g3 s') = g3_pending_keys (s_g3 s) }.
#[export] Instance shrinks_preorder : PreOrder shrinks.
Proof. split; [by split|]. intros ??? [] []. split; [by etrans|congruence]. Qed.
Lemma slots_shrinks s s' : same_slots s s' → shrinks s s'.
Proof. intros []. split; [by rewrite ss_down0|done]. Qed.

(** An idle block leaves its slots in hand. *)
Lemma dinv_evict h s s' key gid g :
  dinv E h s → down s !! key = Some gid → s_g3res s !! gid = Some g → g_claim_count g = 0%Z →
  q_live (g3_evictable (s_g3 s)) !! key = None → key ∉ g3_unscored (s_g3 s) →
  down s' = delete key (down s) → s_g3res s' = s_g3res s → s_next_g3 s' = s_next_g3 s →
  s_g3 s' = s_g3 s →
  dinv E (set_h_slots (g_slots g ++ h_slots h) h) s'.
Proof.
  intros [[Ha Hf Hg Hk Hn Hp] Hs [Hw Hl Hu Hc] [Ho Hcnt] Hops] Hkey Hres Hz Hq Hun Hd Hr Hnx Hg3.
  pose proof (map_to_list_take _ _ _ Hkey) as Hm.
  set (r := reserved (g3_active (s_g3 s)) h) in *.
  assert (homes (down s) r ≡ₚ (key, gid) :: homes (delete key (down s)) r) as Hh
    by (unfold homes; by rewrite Hm).
  split; simpl; rewrite ?Hd, ?Hr, ?Hnx, ?Hg3.
  - rewrite Hh in Hg, Hk. apply NoDup_cons in Hg as [_ Hg], Hk as [_ Hk].
    split; try done. intros gid' Hin. apply Ha. rewrite Hh. by right.
  - unfold disk_slots_inv in *. unfold reserved in *. simpl. rewrite <- Hs, Hh, slots_at_cons.
    unfold gslots. rewrite Hres. fold r. solve_Permutation.
  - assert (∀ k, k ≠ key → idle (down s) (s_g3res s) k →
      idle (delete key (down s)) (s_g3res s) k) as Hid.
    { intros k Hne (gid' & g' & ? & ?). exists gid', g'. by rewrite lookup_delete_ne. }
    split; [done|..].
    + intros k Hk'. apply Hid; [|auto]. intros ->. rewrite Hq in Hk'. by destruct Hk'.
    + intros k Hk'. apply Hid; [|auto]. by intros ->.
    + rewrite Hc. do 4 f_equal. apply map_eq. intros k. rewrite !queued_lookup, lookup_delete.
      repeat case_decide; subst; try done. by apply not_elem_of_dom in Hq.
  - assert (∀ gid', (key, gid') ∉ claimed (g3_active (s_g3 s)) h) as Hno.
    { intros gid' Hin. pose proof (Ho _ _ Hin) as Hx. rewrite Hkey in Hx. injection Hx as <-.
      apply occ_pos in Hin. rewrite (Hcnt key gid g Hkey Hres) in Hz. lia. }
    split.
    + intros k gid' Hin. rewrite lookup_delete_ne; [by apply Ho|]. intros ->. by eapply Hno.
    + intros k gid' g' [_ Hk']%lookup_delete_Some. by apply Hcnt.
  - done.
Qed.

Lemma set_h_slots_id h : set_h_slots (h_slots h) h = h.
Proof. by destruct h. Qed.
Lemma dext_slots h s l : dinv E (set_h_slots (l ++ h_slots h) h) s → dext E h s.
Proof.
  intros Hd. eapply (dext_sub _ _ h (mkHand [] l [] [])); [|by apply dext_intro].
  split; simpl; rewrite ?app_nil_r; try done. by rewrite Permutation_app_comm.
Qed.

Lemma wp_evict_disk h key b gid g s :
  dinv E h s → s_records s !! key = Some b → b_g3 b = Some gid → s_g3res s !! gid = Some g →
  g_claim_count g = 0%Z →
  wp (evict_disk E key b g)
    (λ slot s', dinv E (set_h_slots (slot :: h_slots h) h) s' ∧ shrinks s s') (λ _, dext E h) s.
Proof.
  intros Hd Hb Hg Hr Hz. pose proof (record_down _ _ _ Hb) as Hk. rewrite Hg in Hk.
  unfold evict_disk. apply wp_bind. apply (wp_disk_remove E h); [done|].
  intros s1 H1 Hs1 Hq1 Hu1. unfold upd_record. wp.
  match goal with |- wp _ _ _ ?x => set (s2 := x) end.
  rewrite <- (ss_down _ _ Hs1) in Hk. rewrite <- (ss_res _ _ Hs1) in Hr.
  assert (down s2 = delete key (down s1)) as Hd2.
  { apply (down_set s1 key None). destruct (down_record _ _ _ Hk) as (b' & ? & _). by eexists. }
  pose proof (dinv_evict _ _ s2 _ _ _ H1 Hk Hr Hz Hq1 Hu1 Hd2 eq_refl eq_refl eq_refl) as H2.
  assert (shrinks s s2) as Hsh.
  { etransitivity; [by apply slots_shrinks|]. split; [|done]. rewrite Hd2. apply delete_subseteq. }
  clearbody s2. clear Hk Hr Hq1 Hu1 Hd2 Hs1 H1.
  set (between := λ s', dinv E (set_h_slots (g_slots g ++ h_slots h) h) s' ∧ shrinks s s').
  assert (∀ s3 s4, same_disk s3 s4 → between s3 → between s4) as Hstep.
  { intros s3 s4 Hv [H3 Hs3]. split; [by eapply dinv_same|]. etransitivity; [done|].
    by apply slots_shrinks, same_disk_slots. }
  assert (∀ s3, between s3 → dext E h s3) as Hlost by (intros s3 [? _]; by eapply dext_slots).
  assert (between s2) as Hb2 by done. clear H2 Hsh.
  do 4 (wp; let s3 := fresh "s" in wp_still s3 Hv;
    [apply (Hstep _ _ Hv) in Hb2; clear Hv | by apply Hlost; eapply Hstep]).
  destruct Hb2 as [H3 Hs3]. wp. apply (wp_free_disk E _ _ (h_slots h)  _ _ _ H3); [done|].
  intros t4 H4 Hd4 Hp4. change (dinv E (set_h_slots (h_slots h) h) t4) in H4.
  rewrite set_h_slots_id in H4. wp. apply (wp_pop_free E _ _ _ _ H4).
  - intros _. wp. by eapply dext_intro.
  - intros slot t5 H5 Hd5 Hp5. wp. split; [done|]. etransitivity; [exact Hs3|].
    split; [by rewrite Hd5, Hd4|congruence].
Qed.

(** *** The candidate loop *)

Lemma wp_disk_decide meta tier (Q : PlacementDecision → St → Prop) Ex s :
  (∀ d s', same_disk s s' → s_records s' = s_records s → Q d s') → wp (policy_decide_eviction E meta tier) Q Ex s.
Proof. intros HQ. by apply HQ; [split|]. Qed.

Lemma dinv_requeue h s q ents : queue_wf q ents →
  q_live q = q_live (g3_evictable (s_g3 s)) → dinv E h s →
  dinv E (set_h_ents ents h) (set_s_g3 (set_g3_evictable q (s_g3 s)) s).
Proof.
  intros Hq Hl Hd. apply (dinv_rank E h s q); [|done]. destruct (di_rank _ _ _ Hd) as [_ Hli Hu Hc].
  split; try done; rewrite ?Hl; try done. rewrite Hc. do 4 f_equal. symmetry. apply queued_ext.
  by rewrite Hl.
Qed.
Lemma wp_disk_close c h Q Ex s : dinv E (set_h_ents (c_skipped c ++ h_ents h) h) s →
  (∀ s', dinv E h s' → shrinks s s' → Q tt s') → wp (disk_close_candidates c) Q Ex s.
Proof.
  intros Hd HQ. unfold disk_close_candidates, upd_g3. wp. apply HQ; [|by split].
  rewrite <- (set_h_ents_id h). apply (dinv_requeue (set_h_ents (c_skipped c ++ h_ents h) h)); [..|done].
  - apply queue_wf_close, (di_rank _ _ _ Hd).
  - unfold cand_close. apply restore_live.
Qed.

Lemma wp_evicted c h key b g s0 s :
  dinv E (set_h_ents (c_skipped c ++ h_ents h) h) s → s_records s !! key = Some b →
  (∃ gid, b_g3 b = Some gid ∧ s_g3res s !! gid = Some g) → g_claim_count g = 0%Z → shrinks s0 s →
  wp (slot ← try_except (evict_disk E key b g) (λ e, disk_close_candidates c ;; raise e);
      disk_close_candidates c ;; mret (Some slot))
    (λ r s', shrinks s0 s' ∧ match r with
       | Some slot => dinv E (set_h_slots (slot :: h_slots h) h) s' | None => dinv E h s' end)
    (λ _, dext E h) s.
Proof.
  intros Hd Hb (gid & Hg & Hr) Hz Hsh. apply wp_bind, wp_try_except.
  eapply wp_mono; [by eapply wp_evict_disk|..].
  - intros slot s1 [H1 Hs1]. wp. apply (wp_disk_close c (set_h_slots (slot :: h_slots h) h)); [done|].
    intros s2 H2 Hs2. wp. split; [|done]. by do 2 (etransitivity; [done|]).
  - intros e s1 [l H1]. apply wp_bind. apply (wp_disk_close c (hplus h l)); [done|].
    intros s2 H2 _. wp. by exists l.
Qed.

Lemma wp_disk_evict n protected c h s0 s :
  dinv E (set_h_ents (c_skipped c ++ h_ents h) h) s → shrinks s0 s →
  size (dom (q_live (g3_evictable (s_g3 s))) ∖ c_seen c) < n →
  wp (disk_evict E n protected c)
    (λ r s', shrinks s0 s' ∧ match r with
       | Some slot => dinv E (set_h_slots (slot :: h_slots h) h) s' | None => dinv E h s' end)
    (λ _, dext E h) s.
Proof.
  revert c s. induction n as [|n IH]; intros c s Hd Hsh Hn; [lia|]. simpl. unfold upd_g3. wp.
  pose proof (cand_loop_spec (length (q_heap (g3_evictable (s_g3 s)))) protected
    (g3_evictable (s_g3 s)) c (h_ents h) (le_n _) (ra_wf _ _ _ _ _ _ (di_rank _ _ _ Hd))) as Hnext.
  unfold cand_next. destruct (cand_loop _ _ _ _) as [[[key|] q'] c']; wp.
  2: { destruct Hnext as (Hl & _ & Hwf & _). split; [by etransitivity; [|split]|].
       rewrite <- (set_h_ents_id h).
       by apply (dinv_requeue (set_h_ents (c_skipped c ++ h_ents h) h)). }
  destruct Hnext as (item & <- & [Hlive Hfresh Hseen Hsame _ _ _] & Hwf).
  pose proof (dinv_requeue _ _ _ _ Hwf Hsame Hd) as H1.
  match goal with |- wp _ _ _ ?x => set (s1 := x) in * end.
  change (dinv E (set_h_ents (c_skipped c' ++ h_ents h) h) s1) in H1.
  assert (shrinks s0 s1) as Hs1 by (by etransitivity; [|split]).
  destruct (ra_live _ _ _ _ _ _ (di_rank _ _ _ Hd) (e_key item)) as (gid & g & Hk & Hr & Hz);
    [by eexists|].
  destruct (down_record _ _ _ Hk) as (b & Hb & Hg).
  apply wp_find_record. change (s_records s1) with (s_records s). rewrite Hb. simpl. rewrite Hg. wp.
  eapply wp_get_disk; [exact Hr|]. rewrite decide_False by (intros ?; lia).
  assert (e_key item ∈ dom (q_live (g3_evictable (s_g3 s)))) as Hin by (apply elem_of_dom; by eexists).
  assert (∀ s2, dinv E (set_h_ents (c_skipped c' ++ h_ents h) h) s2 → same_disk s1 s2 →
    wp (disk_evict E n protected c')
    (λ r s', shrinks s0 s' ∧ match r with
       | Some slot => dinv E (set_h_slots (slot :: h_slots h) h) s' | None => dinv E h s' end)
    (λ _, dext E h) s2) as Hcont.
  { intros s2 H2 Hv2. apply IH; [done| |].
    - etransitivity; [done|]. by apply slots_shrinks, same_disk_slots.
    - rewrite (sd_g3 _ _ Hv2). unfold s1. simpl. rewrite Hsame, Hseen.
      eapply Nat.lt_le_trans; [|apply Nat.lt_succ_r, Hn]. apply subset_size. set_solver. }
  destruct (fetching b); [by apply Hcont|]. wp. apply wp_disk_decide. intros decision s2 Hv2 Hrec2.
  apply (dinv_same E _ _ _ Hv2) in H1 as H2. case_decide; [by apply Hcont|].
  eapply wp_evicted; [exact H2| |exists gid|exact Hz|].
  - by rewrite Hrec2.
  - by rewrite (sd_res _ _ Hv2).
  - etransitivity; [done|]. by apply slots_shrinks, same_disk_slots.
Qed.

Lemma wp_allocate_slot protected h s : dinv E h s →
  wp (allocate_slot E protected)
    (λ r s', shrinks s s' ∧ match r with
       | Some slot => dinv E (set_h_slots (slot :: h_slots h) h) s' | None => dinv E h s' end)
    (λ _, dext E h) s.
Proof.
  intros Hd. unfold allocate_slot. wp. apply (wp_pop_free E h); [done|..].
  - intros _. wp. apply (wp_disk_retry E h); [done|..].
    + intros s1 H1 Hs1. wp. apply wp_disk_evict.
      * simpl. by rewrite set_h_ents_id.
      * by apply slots_shrinks.
      * simpl. rewrite difference_empty_L, size_dom. lia.
    + intros e s1 H1 _. by apply dext_intro.
  - intros slot s1 H1 Hd1 Hp1. wp. split; [|done]. by split; [rewrite Hd1|].
Qed.

Lemma wp_allocate_n required protected slots h s :
  dinv E (set_h_slots (slots ++ h_slots h) h) s →
  wp (allocate_n E required protected slots)
    (λ slots' s', shrinks s s' ∧ dinv E (set_h_slots (slots' ++ h_slots h) h) s') (λ _, dext E h) s.
Proof.
  revert slots s. induction required as [|required IH]; intros slots s Hd; simpl; [by wp|].
  apply wp_bind. eapply wp_mono; [by apply wp_allocate_slot|..]; simpl.
  - intros [slot|] s1 [Hs1 H1]; [|by wp].
    eapply wp_mono; [apply IH| |done].
    + eapply dinv_proper; [|reflexivity|exact H1]. split; simpl; try done.
      rewrite <- app_assoc. simpl. by rewrite <- Permutation_middle.
    + intros slots' s2 [Hs2 H2]. split; [by etransitivity|done].
  - intros e s1 H1. eapply (dext_sub _ _ h (mkHand [] slots [] [])); [|exact H1].
    split; simpl; rewrite ?app_nil_r; try done. by rewrite Permutation_app_comm.
Qed.
End Evict.
