(* ===== verification/DiskMoves.v ===== *)
(** * Reservations and claims of the file-backed tier

    How the invariant changes when slots become a reservation, a reservation becomes a
    residency or is given back, a residency is claimed or released, and an operation takes
    over what its starter had in hand. *)

From Stdlib Require Import ZArith Lia.
From S2P Require Import Prelude PyFloat Types PolicyRuntime Layout State CoreBase Pools PoolsInv Transfer Disk DiskInv DiskOps.

Section Moves.
Context (E : Env).
Implicit Types (h : Hand) (s : St) (o : gmap BlockKey nat) (res : gmap nat G3Residency).

(** ** Residency objects *)

Lemma slots_at_ext res res' l :
  (∀ k gid, (k, gid) ∈ l → gslots res' gid = gslots res gid) → slots_at res' l = slots_at res l.
Proof.
  intros H. unfold slots_at. induction l as [|[k gid] l IH]; [done|]. simpl.
  rewrite (H k gid) by left. f_equal. apply IH. intros k' gid' Hin. apply (H k'). by right.
Qed.
Lemma rank_inv_res o res res' q n unscored ents :
  (∀ k gid, o !! k = Some gid → gslots res' gid = gslots res gid) →
  (∀ k, is_Some (q_live q !! k) ∨ k ∈ unscored → idle o res k → idle o res' k) →
  rank_inv o res q n unscored ents → rank_inv o res' q n unscored ents.
Proof.
  intros Hs Hi [Hw Hl Hu Hc]. split; [done|auto|auto|]. rewrite Hc. do 2 f_equal.
  symmetry. apply slots_at_ext. intros k gid Hin%elem_of_map_to_list. apply (Hs k).
  rewrite queued_lookup in Hin. by case_decide.
Qed.

(** An operation fits as long as the slots of its own blocks do not change. *)
Lemma op_inv_res res res' active h o :
  (∀ k gid, (k, gid) ∈ reserved active h ∨ o !! k = Some gid → gslots res' gid = gslots res gid) →
  hold_inv o res (claimed active h) → op_inv E res active → op_inv E res' active.
Proof.
  intros Hs Hh Hops id op Hid. destruct (Hops id op Hid) as [Heq Hfit]. split; [done|].
  assert (op ∈ op_list active) as Hin.
  { apply list_elem_of_fmap. exists (id, op). split; [done|]. by apply elem_of_map_to_list. }
  unfold op_fits in *. case_decide as Hk; destruct Hfit as [H1 H2]; (split; [done|]).
  - rewrite (slots_at_ext res); [done|]. intros k gid Hx. apply (Hs k). left.
    unfold reserved. apply elem_of_app. left. apply list_elem_of_bind. eauto.
  - rewrite (slots_at_ext res); [done|]. intros k gid Hx. apply (Hs k). right.
    apply (hl_own _ _ _ Hh). apply elem_of_app. left. apply list_elem_of_bind. eauto.
Qed.

Lemma elem_of_homes o r k gid : (k, gid) ∈ homes o r ↔ o !! k = Some gid ∨ (k, gid) ∈ r.
Proof. unfold homes. by rewrite elem_of_app, elem_of_map_to_list. Qed.
Lemma homes_key o r k : k ∈ (homes o r).*1 ↔ k ∈ dom o ∨ k ∈ r.*1.
Proof.
  unfold homes. rewrite fmap_app, elem_of_app. f_equiv. rewrite elem_of_dom, list_elem_of_fmap. split.
  - intros ([k' gid] & -> & Hin%elem_of_map_to_list). by exists gid.
  - intros [gid Hk]. exists (k, gid). split; [done|]. by apply elem_of_map_to_list.
Qed.
Lemma homes_gid o r k gid : (k, gid) ∈ homes o r → gid ∈ (homes o r).*2.
Proof. intros Hin. apply list_elem_of_fmap. by exists (k, gid). Qed.
Lemma homes_inj o r k k' gid : NoDup (homes o r).*2 →
  (k, gid) ∈ homes o r → (k', gid) ∈ homes o r → k = k'.
Proof.
  intros Hn [i Hi]%list_elem_of_lookup [j Hj]%list_elem_of_lookup.
  assert (i = j) as ->; [|congruence].
  eapply NoDup_lookup; [exact Hn|by rewrite list_lookup_fmap, Hi|by rewrite list_lookup_fmap, Hj].
Qed.
Lemma homes_cons o r x : homes o (x :: r) ≡ₚ x :: homes o r.
Proof. unfold homes. by rewrite <- Permutation_middle. Qed.

(** ** Slots become a reservation *)

Definition reserved_state (key : BlockKey) (g : G3Residency) (s : St) : St :=
  set_s_next_g3 (S (s_next_g3 s)) (set_s_g3res (<[s_next_g3 s := g]> (s_g3res s))
    (set_s_g3 (set_g3_pending_keys ({[ key ]} ∪ g3_pending_keys (s_g3 s)) (s_g3 s)) s)).

Lemma dinv_reserve h s key layout slots rest :
  dinv E h s → h_slots h = slots ++ rest → down s !! key = None →
  key ∉ g3_pending_keys (s_g3 s) →
  dinv E (set_h_res ((key, s_next_g3 s) :: h_res h) (set_h_slots rest h))
    (reserved_state key (mkG3Residency layout slots 0) s).
Proof.
  intros [[Ha Hf Hg Hk Hn Hp] Hs Hr Hh Hops] Hhand Hkey Hpend.
  set (gid := s_next_g3 s) in *. set (g := mkG3Residency layout slots 0).
  set (r := reserved (g3_active (s_g3 s)) h) in *.
  set (h' := set_h_res ((key, gid) :: h_res h) (set_h_slots rest h)).
  assert (reserved (g3_active (s_g3 s)) h' ≡ₚ (key, gid) :: r) as Hr'.
  { unfold reserved. simpl. by rewrite <- Permutation_middle. }
  assert (s_g3res s !! gid = None) as Hfresh by by apply Hf.
  assert (∀ k gid', (k, gid') ∈ homes (down s) r → gid' ≠ gid) as Hne.
  { intros k gid' Hin ->. destruct (Ha gid (homes_gid _ _ _ _ Hin)). congruence. }
  assert (∀ k gid', (k, gid') ∈ homes (down s) r →
    <[gid := g]> (s_g3res s) !! gid' = s_g3res s !! gid') as Hsame.
  { intros k gid' Hin. rewrite lookup_insert_ne; [done|]. intros <-. by eapply Hne. }
  assert (∀ k gid', down s !! k = Some gid' → (k, gid') ∈ homes (down s) r) as Hdown
    by (intros; apply elem_of_homes; auto).
  split; simpl; fold gid; change (down (reserved_state key g s)) with (down s).
  - eapply home_inv_perm; [by symmetry|]. split; rewrite ?homes_cons.
    + intros gid'. rewrite homes_cons. intros [->|Hin]%elem_of_cons; simpl; fold gid; [by rewrite lookup_insert_eq|].
      apply list_elem_of_fmap in Hin as ([k x] & -> & Hin). simpl. rewrite (Hsame k x Hin).
      apply Ha. by eapply homes_gid.
    + intros gid' Hle. rewrite lookup_insert_ne by lia. apply Hf. lia.
    + simpl. apply NoDup_cons. split; [|done]. intros Hin.
      apply list_elem_of_fmap in Hin as ([k x] & Heq & Hin). by eapply Hne.
    + simpl. apply NoDup_cons. split; [|done]. rewrite homes_key, <- Hp, elem_of_dom.
      intros [[x Hx]|?]; [congruence|done].
    + intros k x g' [[= -> ->]|Hin]%elem_of_cons.
      * rewrite lookup_insert_eq. by intros [= <-].
      * rewrite (Hsame k); [by apply (Hn k)|]. apply elem_of_homes. by right.
    + intros k. simpl. rewrite elem_of_union, elem_of_singleton, elem_of_cons. by rewrite Hp.
  - unfold disk_slots_inv in *. rewrite Hr', homes_cons, slots_at_cons.
    rewrite (slots_at_ext (s_g3res s)); last first.
    { intros k gid' Hin. unfold gslots. by rewrite (Hsame k). }
    unfold gslots. rewrite lookup_insert_eq. simpl. rewrite <- Hs, Hhand. fold r. solve_Permutation.
  - eapply rank_inv_res; [| |exact Hr].
    + intros k gid' Hin. unfold gslots. by rewrite (Hsame k) by auto.
    + intros k _ (gid' & g' & Hin & Hg'). exists gid', g'. rewrite (Hsame k); auto.
  - destruct Hh as [Ho Hc]. split; [done|]. intros k gid' g' Hin. rewrite (Hsame k); auto.
  - eapply (op_inv_res (s_g3res s) _ _ h (down s)); [|done|done]. intros k gid' Hin. unfold gslots.
    rewrite (Hsame k); [done|]. by apply elem_of_homes; destruct Hin; auto.
Qed.

(** ** A reservation is given back, or becomes a residency *)

Lemma dinv_unreserve h s key gid :
  dinv E (set_h_res ((key, gid) :: h_res h) h) s →
  dinv E (set_h_slots (gslots (s_g3res s) gid ++ h_slots h) h)
    (set_s_g3 (set_g3_pending_keys (g3_pending_keys (s_g3 s) ∖ {[ key ]}) (s_g3 s)) s).
Proof.
  intros [Hh Hs Hr Hc Hops].
  assert (reserved (g3_active (s_g3 s)) (set_h_res ((key, gid) :: h_res h) h) ≡ₚ
    (key, gid) :: reserved (g3_active (s_g3 s)) h) as Hres
    by (unfold reserved; simpl; by rewrite <- Permutation_middle).
  apply (home_inv_perm _ _ _ _ _ _ Hres) in Hh as [Ha Hf Hg Hk Hn Hp].
  rewrite homes_cons in Hg, Hk. apply NoDup_cons in Hg as [_ Hg], Hk as [Hkey Hk].
  split; simpl; try done.
  - split; try done.
    + intros gid' Hin. apply Ha. rewrite homes_cons. by right.
    + intros k gid' g Hin. apply (Hn k). by right.
    + intros k. rewrite elem_of_difference, not_elem_of_singleton, Hp. simpl. rewrite elem_of_cons.
      split; [by intros [[->|?] ?]|]. intros Hin. split; [by right|]. intros ->. apply Hkey.
      apply homes_key. by right.
  - unfold disk_slots_inv in *. rewrite <- Hs, Hres, homes_cons, slots_at_cons. simpl.
    unfold reserved. simpl. solve_Permutation.
Qed.

Lemma dinv_commit h s s' key gid :
  dinv E (set_h_res ((key, gid) :: h_res h) h) s →
  down s' = <[key := gid]> (down s) → s_g3res s' = s_g3res s → s_next_g3 s' = s_next_g3 s →
  s_g3 s' = set_g3_pending_keys (g3_pending_keys (s_g3 s) ∖ {[ key ]}) (s_g3 s) →
  down s !! key = None ∧ dinv E h s'.
Proof.
  intros [Hh Hs Hr [Ho Hc] Hops] Hd Hre Hnx Hg3.
  assert (reserved (g3_active (s_g3 s)) (set_h_res ((key, gid) :: h_res h) h) ≡ₚ
    (key, gid) :: reserved (g3_active (s_g3 s)) h) as Hres
    by (unfold reserved; simpl; by rewrite <- Permutation_middle).
  apply (home_inv_perm _ _ _ _ _ _ Hres) in Hh as [Ha Hf Hg Hk Hn Hp].
  set (r := reserved (g3_active (s_g3 s)) h) in *.
  assert (key ∉ (homes (down s) r).*1) as Hkey.
  { rewrite homes_cons in Hk. by apply NoDup_cons in Hk as [? _]. }
  assert (down s !! key = None) as Hnone.
  { rewrite homes_key in Hkey. apply not_elem_of_dom. tauto. }
  assert (homes (<[key := gid]> (down s)) r ≡ₚ homes (down s) ((key, gid) :: r)) as Hhomes.
  { rewrite homes_cons. unfold homes. by rewrite (map_to_list_insert _ _ _ Hnone). }
  split; [done|]. split; simpl; rewrite ?Hd, ?Hre, ?Hnx, ?Hg3; simpl; fold r.
  - split; rewrite ?Hhomes; try done.
    + intros gid' Hin. apply Ha. by rewrite <- Hhomes.
    + intros k gid' g Hin. apply (Hn k). by right.
    + intros k. rewrite elem_of_difference, not_elem_of_singleton, Hp. simpl. rewrite elem_of_cons.
      split; [by intros [[->|?] ?]|]. intros Hin. split; [by right|]. intros ->. apply Hkey.
      apply homes_key. by right.
  - unfold disk_slots_inv in *. rewrite <- Hs, Hres, Hhomes. done.
  - assert (∀ k, idle (down s) (s_g3res s) k → idle (<[key := gid]> (down s)) (s_g3res s) k) as Hi.
    { intros k (gid' & g & Hx & ?). exists gid', g. rewrite lookup_insert_ne; [done|].
      intros <-. congruence. }
    destruct Hr as [Hw Hl Hu Hcnt]. split; [done|auto|auto|]. rewrite Hcnt. do 4 f_equal.
    apply map_eq. intros k. rewrite !queued_lookup, lookup_insert. repeat case_decide; subst; try done.
    exfalso. destruct (Hl k) as (gid' & g & Hx & _); [by apply elem_of_dom|congruence].
  - split.
    + intros k gid' Hin. rewrite lookup_insert_ne; [by apply Ho|]. intros <-.
      rewrite (Ho _ _ Hin) in Hnone. done.
    + intros k gid' g. rewrite lookup_insert. case_decide as Heq; [|by apply Hc].
      intros [= <-] Hg'. subst k. rewrite (Hn key gid g) by (by left || done).
      symmetry. apply occ_zero. intros Hin. rewrite (Ho _ _ Hin) in Hnone. done.
  - done.
Qed.

(** ** A residency is claimed and released *)

Lemma gslots_alter f gid res gid' : (∀ g, g_slots (f g) = g_slots g) →
  gslots (alter f gid res) gid' = gslots res gid'.
Proof.
  intros Hf. unfold gslots. rewrite lookup_alter. case_decide; [|done]. subst.
  destruct (res !! gid'); simpl; [apply Hf|done].
Qed.

Lemma dinv_recount h s key gid f cl :
  dinv E h s → down s !! key = Some gid → (∀ g, g_slots (f g) = g_slots g) →
  q_live (g3_evictable (s_g3 s)) !! key = None → key ∉ g3_unscored (s_g3 s) →
  hold_inv (down s) (alter f gid (s_g3res s)) (claimed (g3_active (s_g3 s)) (set_h_claims cl h)) →
  dinv E (set_h_claims cl h) (set_s_g3res (alter f gid (s_g3res s)) s).
Proof.
  intros Hd Hkey Hf Hq Hu Hhold. pose proof (λ k, down_inj E h s k key gid Hd) as Hinj.
  destruct Hd as [[Ha Hfr Hg Hk Hn Hp] Hs Hr Hold Hops].
  set (r := reserved (g3_active (s_g3 s)) h) in *.
  assert (∀ l, slots_at (alter f gid (s_g3res s)) l = slots_at (s_g3res s) l) as Hsl.
  { intros l. apply slots_at_ext. intros. by apply gslots_alter. }
  assert (∀ k, (k, gid) ∉ r) as Hnr.
  { intros k Hin. unfold homes in Hg. rewrite fmap_app in Hg.
    apply list.NoDup_app in Hg as (_ & Hg & _). apply (Hg gid); apply list_elem_of_fmap.
    - exists (key, gid). split; [done|]. by apply elem_of_map_to_list.
    - by exists (k, gid). }
  split; simpl; fold r.
  - split; try done.
    + intros gid' Hin. rewrite lookup_alter. case_decide; subst; rewrite ?fmap_is_Some; by apply Ha.
    + intros gid' Hle. rewrite lookup_alter. case_decide; subst; by rewrite Hfr.
    + intros k gid' g Hin. rewrite lookup_alter. case_decide as Heq; [|by apply (Hn k)].
      subst gid'. by apply Hnr in Hin.
  - unfold disk_slots_inv in *. by rewrite Hsl.
  - eapply rank_inv_res; [| |exact Hr].
    + intros k gid' _. by apply gslots_alter.
    + intros k Hin (gid' & g & Hx & Hg' & Hz). exists gid', g. split; [done|]. split; [|done].
      rewrite lookup_alter_ne; [done|]. intros <-. rewrite (Hinj k Hx Hkey) in Hin.
      destruct Hin as [[? ?]|?]; [congruence|done].
  - exact Hhold.
  - eapply (op_inv_res (s_g3res s) _ _ h (down s)); [|exact Hold|exact Hops].
    intros. by apply gslots_alter.
Qed.

Lemma claimed_cons active h x cl : claimed active (set_h_claims (x :: cl) h) ≡ₚ x :: claimed active (set_h_claims cl h).
Proof. unfold claimed. simpl. by rewrite <- Permutation_middle. Qed.
Lemma set_h_claims_id h : set_h_claims (h_claims h) h = h.
Proof. by destruct h. Qed.

Lemma dinv_claim h s key gid :
  dinv E h s → down s !! key = Some gid →
  q_live (g3_evictable (s_g3 s)) !! key = None → key ∉ g3_unscored (s_g3 s) →
  dinv E (set_h_claims ((key, gid) :: h_claims h) h)
    (set_s_g3res (alter (λ g, g_set_claims (g_claim_count g + 1) g) gid (s_g3res s)) s).
Proof.
  intros Hd Hkey Hq Hu. eapply dinv_recount; [done|exact Hkey|done..|].
  destruct (di_hold _ _ _ Hd) as [Ho Hc].
  eapply hold_inv_perm; [by rewrite claimed_cons, set_h_claims_id|]. split.
  - intros k x [[= -> ->]|Hin]%elem_of_cons; [done|by apply Ho].
  - intros k x g Hk. rewrite lookup_alter, occ_cons. case_decide as Hx.
    + subst x. rewrite (down_inj _ _ _ _ _ _ Hd Hk Hkey) in *.
      destruct (s_g3res s !! gid) as [g0|] eqn:Hg0; [|done]. intros [= <-]. simpl.
      rewrite (Hc key gid g0) by done. rewrite decide_True by done. lia.
    + intros Hg. rewrite (Hc k x g) by done. rewrite decide_False by congruence. lia.
Qed.

Lemma dinv_release h s key gid :
  dinv E (set_h_claims ((key, gid) :: h_claims h) h) s →
  ∃ g, down s !! key = Some gid ∧ s_g3res s !! gid = Some g ∧ (0 < g_claim_count g)%Z ∧
  dinv E h (set_s_g3res (alter (λ g, g_set_claims (g_claim_count g - 1) g) gid (s_g3res s)) s).
Proof.
  intros Hd. destruct (di_hold _ _ _ Hd) as [Ho Hc].
  assert ((key, gid) ∈ claimed (g3_active (s_g3 s)) (set_h_claims ((key, gid) :: h_claims h) h)) as Hin
    by (rewrite claimed_cons; by left).
  pose proof (Ho _ _ Hin) as Hkey. destruct (home_gid _ _ _ _ _ Hd Hkey) as [g Hg].
  assert (0 < g_claim_count g)%Z as Hpos by (rewrite (Hc key gid g) by done; by apply occ_pos).
  exists g. split_and!; [done..|]. rewrite <- (set_h_claims_id h).
  assert (¬ idle (down s) (s_g3res s) key) as Hni.
  { intros (gid' & g' & H1 & H2 & H3). rewrite Hkey in H1. injection H1 as <-. rewrite Hg in H2.
    injection H2 as <-. lia. }
  pose proof (di_rank _ _ _ Hd) as [_ Hl Hu _].
  apply (dinv_recount (set_h_claims ((key, gid) :: h_claims h) h) s key); [done..| | |].
  - destruct (q_live _ !! key) eqn:Hq; [|done]. exfalso. by apply Hni, Hl.
  - intros Hx. by apply Hni, Hu.
  - simpl. change (set_h_claims (h_claims h) (set_h_claims ((key, gid) :: h_claims h) h)) with
      (set_h_claims (h_claims h) h). split.
    + intros k x Hk. apply Ho. rewrite claimed_cons. by right.
    + intros k x g' Hk.
      rewrite lookup_alter. case_decide as Hx.
      * subst x. rewrite (down_inj _ _ _ _ _ _ Hd Hk Hkey) in *. rewrite Hg. intros [= <-]. simpl.
        rewrite (Hc key gid g), claimed_cons, occ_cons, decide_True by done. lia.
      * intros Hg'. rewrite (Hc k x g'), claimed_cons, occ_cons, decide_False by congruence. lia.
Qed.

(** ** An operation takes over what its starter holds *)

Definition set_active (active : gmap OpId G3TransferOp) (s : St) : St :=
  set_s_g3 (set_g3_active active (s_g3 s)) s.
Lemma op_list_insert active id op : active !! id = None →
  op_list (<[id := op]> active) ≡ₚ op :: op_list active.
Proof. intros Hid. unfold op_list. by rewrite (map_to_list_insert _ _ _ Hid). Qed.
Lemma op_list_delete active id op : active !! id = Some op →
  op_list active ≡ₚ op :: op_list (delete id active).
Proof.
  intros Hid. rewrite <- (op_list_insert _ id) by apply lookup_delete_eq.
  by rewrite insert_delete_id.
Qed.
Definition with_op (op : G3TransferOp) (h : Hand) : Hand :=
  set_h_res (go_reservations op ++ h_res h) (set_h_claims (go_claims op ++ h_claims h) h).

Lemma dinv_moved h h' s active :
  reserved active h' ≡ₚ reserved (g3_active (s_g3 s)) h →
  claimed active h' ≡ₚ claimed (g3_active (s_g3 s)) h →
  h_slots h' = h_slots h → h_ents h' = h_ents h → op_inv E (s_g3res s) active → dinv E h s →
  dinv E h' (set_active active s).
Proof.
  intros Hr Hc Hs He Hop [H1 H2 H3 H4 _]. split; simpl; rewrite ?Hs, ?He.
  - eapply home_inv_perm; [symmetry; exact Hr|done].
  - eapply disk_slots_perm; [symmetry; exact Hr|reflexivity|done].
  - done.
  - eapply hold_inv_perm; [symmetry; exact Hc|done].
  - done.
Qed.
Lemma dinv_activate h s op :
  dinv E (with_op op h) s → g3_active (s_g3 s) !! go_op_id op = None →
  op_fits E (s_g3res s) op → dinv E h (set_active (<[go_op_id op := op]> (g3_active (s_g3 s))) s).
Proof.
  intros Hd Hid Hfit. eapply dinv_moved; [| | | | |exact Hd]; try done.
  - unfold reserved. rewrite (op_list_insert _ _ _ Hid). simpl. solve_Permutation.
  - unfold claimed. rewrite (op_list_insert _ _ _ Hid). simpl. solve_Permutation.
  - intros id op'. rewrite lookup_insert. case_decide as Heq; [|apply (di_ops _ _ _ Hd)].
    intros [= <-]. by subst.
Qed.
Lemma dinv_deactivate h s id op : dinv E h s → g3_active (s_g3 s) !! id = Some op →
  dinv E (with_op op h) (set_active (delete id (g3_active (s_g3 s))) s).
Proof.
  intros Hd Hid. eapply dinv_moved; [| | | | |exact Hd]; try done.
  - unfold reserved. rewrite (op_list_delete _ _ _ Hid). simpl. solve_Permutation.
  - unfold claimed. rewrite (op_list_delete _ _ _ Hid). simpl. solve_Permutation.
  - intros id' op' [_ Hin]%lookup_delete_Some. by apply (di_ops _ _ _ Hd).
Qed.
End Moves.
