(* ===== verification/DiskThm.v ===== *)
(** * The file-backed tier keeps its slots apart

    The public operations of [Disk.v] over the invariant of [DiskInv.v]: stores, fills and
    deliveries from their start to their completion, the resolution of an eviction, and
    shutdown.  What local DRAM promises the tier is the class [DiskFriendly]. *)

From Stdlib Require Import ZArith Lia.
From S2P Require Import Prelude PyFloat Types PolicyRuntime Layout State CoreBase Pools PoolsInv Transfer Disk DiskInv DiskOps DiskMoves.

(** The calls into local DRAM may start and finish work of the tier, and leave alone what
    their caller has in hand. *)
Class DiskFriendly (E : Env) (resume : M St unit) (complete_fill : list BlockKey → bool → M St unit) : Prop := {
  resume_friendly : ∀ h, preserves (dext E h) resume;
  fill_friendly : ∀ h keys success, preserves (dext E h) (complete_fill keys success) }.

(** An operation that uses up what [F] adds to the hand. *)
Definition spends (E : Env) {A} (F : Hand → Hand) (m : M St A) : Prop :=
  ∀ h s, dext E (F h) s → wp m (λ _, dext E h) (λ _, dext E h) s.
Lemma dext_hplus E h l s : dext E (hplus h l) s → dext E h s.
Proof. intros [x Hd]. exists (hplus l x). eapply dinv_proper; [|reflexivity|exact Hd].
  split; simpl; by rewrite ?app_assoc. Qed.
Lemma spends_intro E {A} F (m : M St A) : (∀ h l, hplus (F h) l = F (hplus h l)) →
  (∀ h s, dinv E (F h) s → wp m (λ _, dext E h) (λ _, dext E h) s) → spends E F m.
Proof.
  intros HF Hm h s [l Hd]. rewrite HF in Hd.
  eapply wp_mono; [exact (Hm _ _ Hd)|..]; simpl; intros; by eapply dext_hplus.
Qed.
Lemma preserves_still E h {A} (m : M St A) : still m → preserves (dext E h) m.
Proof. intros Hm s Hs. apply (wp_still m); [done|..]; intros; by eapply dext_same. Qed.

Section Starting.
Context (E : Env).
Implicit Types (h : Hand) (s : St).

(** ** Reservations *)

Definition with_res (rs : list (BlockKey * nat)) (h : Hand) : Hand := set_h_res (rs ++ h_res h) h.
Definition with_claims (cl : list (BlockKey * nat)) (h : Hand) : Hand := set_h_claims (cl ++ h_claims h) h.
Lemma with_res_ext rs h s : dinv E (with_res rs h) s → dext E h s.
Proof.
  intros Hd. apply (dext_sub _ (with_res rs h) _ (mkHand rs [] [] [])); [|by apply dext_intro].
  split; simpl; rewrite ?app_nil_r; try done. by rewrite Permutation_app_comm.
Qed.
Lemma with_claims_ext cl h s : dinv E (with_claims cl h) s → dext E h s.
Proof.
  intros Hd. apply (dext_sub _ (with_claims cl h) _ (mkHand [] [] cl [])); [|by apply dext_intro].
  split; simpl; rewrite ?app_nil_r; try done. by rewrite Permutation_app_comm.
Qed.
Lemma dext_with_res rs h s : dext E (with_res rs h) s → dext E h s.
Proof.
  apply (dext_sub _ _ h (mkHand rs [] [] [])). split; simpl; rewrite ?app_nil_r; try done.
  by rewrite Permutation_app_comm.
Qed.
Lemma dext_with_claims cl h s : dext E (with_claims cl h) s → dext E h s.
Proof.
  apply (dext_sub _ _ h (mkHand [] [] cl [])). split; simpl; rewrite ?app_nil_r; try done.
  by rewrite Permutation_app_comm.
Qed.

Lemma wp_reserve_one protected rs block h s :
  dinv E (with_res rs h) s →
  wp (reserve_one E protected rs block) (λ rs', dinv E (with_res rs' h)) (λ _, dext E h) s.
Proof.
  intros Hd. destruct block as [key refs]. unfold reserve_one. wp. apply wp_find_record. wp.
  match goal with |- wp (if ?c then _ else _) _ _ _ => destruct c eqn:Hc end; [by wp|].
  assert (down s !! key = None ∧ key ∉ g3_pending_keys (s_g3 s)) as [Hkey Hpend].
  { destruct (s_records s !! key) as [b|] eqn:Hb; [|done]. apply orb_false_iff in Hc as [H1 H2].
    apply bool_decide_eq_false in H1, H2. split; [|done]. rewrite (record_down _ _ _ Hb).
    by apply dec_stable. }
  clear Hc. wp. wp_still s1 Hv1; [|by eapply dext_same, with_res_ext]. wp.
  apply (dinv_same E _ _ _ Hv1) in Hd.
  assert (shrinks s s1) as Hsh1 by by apply slots_shrinks, same_disk_slots.
  match goal with |- wp _ (λ _, wp ?k _ _) ?Ex _ =>
    assert (∀ s2, dinv E (with_res rs h) s2 → shrinks s s2 →
      wp k (λ rs', dinv E (with_res rs' h)) Ex s2) as Hgo end.
  { intros s2 H2 Hsh2. wp. case_decide; [by wp|]. wp.
    eapply wp_mono; [eapply (wp_allocate_n E _ protected [] (with_res rs h));
      cbn [app]; by rewrite set_h_slots_id| |].
    2:{ intros e s3 H3. simpl in H3 |- *. by eapply dext_with_res. }
    intros slots s3 [Hsh3 H3]. simpl. case_decide.
    - apply wp_bind. eapply (wp_free_disk E _ slots (h_slots h)); [exact H3|done|].
      intros s4 H4 _ _. wp. change (dinv E (set_h_slots (h_slots (with_res rs h)) (with_res rs h)) s4) in H4.
      by rewrite set_h_slots_id in H4.
    - assert (down s3 !! key = None) as Hk3.
      { eapply lookup_weaken_None; [|apply Hsh3]. by eapply lookup_weaken_None; [|apply Hsh2]. }
      assert (key ∉ g3_pending_keys (s_g3 s3)) as Hp3.
      { rewrite (sh_pending _ _ Hsh3), (sh_pending _ _ Hsh2). done. }
      pose proof (dinv_reserve E _ s3 key (tr_label <$> refs) slots (h_slots h) H3 eq_refl Hk3 Hp3) as H4.
      unfold upd_g3, alloc_disk. wp. unfold wp. simpl.
      eapply dinv_proper; [|reflexivity|exact H4]. split; simpl; try done.
      rewrite <- app_assoc. simpl. by rewrite <- Permutation_middle. }
  clear Hkey Hpend. case_decide; [|wp; by apply Hgo]. 
  apply (wp_disk_retry E (with_res rs h)); [done|..].
  - intros s2 H2 Hs2. apply Hgo; [done|]. etransitivity; [done|]. by apply slots_shrinks.
  - intros e s2 H2 _. by eapply with_res_ext.
Qed.

Lemma wp_reserve blocks protected h s :
  dinv E h s → wp (reserve E blocks protected) (λ rs, dinv E (with_res rs h)) (λ _, dext E h) s.
Proof.
  intros Hd. unfold reserve. apply (wp_fold_each _ _ _ (λ rs _ s, dinv E (with_res rs h) s)).
  - unfold with_res. by destruct h.
  - intros rs block rest s1 H1. by apply wp_reserve_one.
  - done.
Qed.

Lemma in_reserved active h key gid rs : (key, gid) ∈ rs → (key, gid) ∈ reserved active (with_res rs h).
Proof. intros Hin. unfold reserved, with_res. simpl. rewrite !elem_of_app. auto. Qed.
Lemma with_res_cons x rs h : with_res (x :: rs) h = set_h_res (x :: h_res (with_res rs h)) (with_res rs h).
Proof. done. Qed.

(** Reservations given back are free again, and nothing else has moved. *)
Lemma wp_rollback rs h Q Ex s : dinv E (with_res rs h) s →
  (∀ s', dinv E h s' → down s' = down s → Q tt s') → wp (rollback rs) Q Ex s.
Proof.
  intros Hd HQ. unfold rollback.
  apply (wp_for_each _ _ (λ rs s', dinv E (with_res rs h) s' ∧ down s' = down s)).
  - done.
  - intros [key gid] rest s1 [H1 Hd1]. wp.
    assert ((key, gid) ∈ reserved (g3_active (s_g3 s1)) (with_res ((key, gid) :: rest) h)) as Hin
      by (apply in_reserved; left).
    rewrite bool_decide_true; last first.
    { apply (ho_pending _ _ _ _ _ (di_home _ _ _ H1)), list_elem_of_fmap. by exists (key, gid). }
    destruct (ho_alloc _ _ _ _ _ (di_home _ _ _ H1) gid) as [g Hg].
    { eapply homes_gid, elem_of_homes. by right. }
    rewrite with_res_cons in H1. apply dinv_unreserve in H1.
    unfold upd_g3. wp. eapply wp_get_disk; [exact Hg|].
    eapply (wp_free_disk E _ (g_slots g) (h_slots h)); [exact H1| |].
    + simpl. unfold gslots. by rewrite Hg.
    + intros s2 H2 Hd2 _. split; [|by rewrite Hd2].
      change (dinv E (set_h_slots (h_slots (with_res rest h)) (with_res rest h)) s2) in H2.
      by rewrite set_h_slots_id in H2.
  - intros s' [H' Hd']. apply HQ; [|done]. by destruct h.
Qed.

Lemma wp_commit x h s : dinv E (with_res [x] h) s → wp (commit E x) (λ _, dinv E h) (λ _, dext E h) s.
Proof.
  intros Hd. destruct x as [key gid]. unfold commit, upd_g3. wp.
  assert ((key, gid) ∈ reserved (g3_active (s_g3 s)) (with_res [(key, gid)] h)) as Hin
    by (apply in_reserved; left).
  rewrite bool_decide_true; last first.
  { apply (ho_pending _ _ _ _ _ (di_home _ _ _ Hd)), list_elem_of_fmap. by exists (key, gid). }
  simpl. wp. set (s1 := set_s_g3 _ s).
  assert (∀ s', down s' = <[key := gid]> (down s) → s_g3res s' = s_g3res s →
    s_next_g3 s' = s_next_g3 s → s_g3 s' = s_g3 s1 → down s !! key = None ∧ dinv E h s') as Hc.
  { intros s' Hd' Hr' Hn' Hg'. by apply (dinv_commit E h s s' key gid). }
  assert (down s !! key = None) as Hnone.
  { pose proof (ho_keys _ _ _ _ _ (di_home _ _ _ Hd)) as Hk. unfold homes in Hk.
    rewrite fmap_app in Hk. apply list.NoDup_app in Hk as (_ & Hk & _).
    destruct (down s !! key) as [x|] eqn:Hx; [|done]. exfalso. apply (Hk key); apply list_elem_of_fmap.
    - exists (key, x). split; [done|]. by apply elem_of_map_to_list.
    - by exists (key, gid). }
  assert (∃ b s2, block_record key s1 = (Ret b, s2) ∧ b_g3 b = None ∧ s_records s2 !! key = Some b ∧
    down s2 = down s ∧ s_g3res s2 = s_g3res s ∧ s_next_g3 s2 = s_next_g3 s ∧ s_g3 s2 = s_g3 s1)
    as (b & s2 & Hb & Hg & Hrec & Hd2 & Hr2 & Hn2 & Hg2).
  { pose proof (still_block_record key s1) as Hst. unfold wp, block_record in *.
    change (s_records s1) with (s_records s) in *. destruct (s_records s !! key) as [b|] eqn:Hb.
    - exists b, s1. rewrite (record_down _ _ _ Hb) in Hnone. done.
    - destruct Hst as [? ? ? ?]. eexists _, _. split_and!; try done. apply lookup_insert_eq. }
  unfold wp at 1. rewrite Hb. rewrite decide_False by (rewrite Hg; naive_solver).
  unfold upd_record. wp. set (s3 := set_s_records _ s2).
  assert (dinv E h s3) as H3.
  { apply Hc; try done. unfold s3, down. simpl. rewrite (down_set s2 key (Some gid)) by by eexists.
    by rewrite Hd2. }
  clearbody s3. clear Hc Hb Hrec Hd2 Hr2 Hn2 Hg2.
  wp_still s4 Hv4; [|by eapply dext_intro, dinv_same]. wp.
  apply (wp_disk_rank E h); [by eapply dinv_same|..].
  - intros s5 H5 _. wp. wp_still s6 Hv6; [|by eapply dext_intro, dinv_same]. wp. by eapply dinv_same.
  - intros e s5 _ H5 _. by apply dext_intro.
Qed.

Lemma spends_commits rs : spends E (with_res rs) (for_each rs (commit E)).
Proof.
  intros h s Hd. apply (wp_for_each _ _ (λ rs, dext E (with_res rs h))).
  - done.
  - intros x rest s1 [l H1]. eapply wp_mono; [apply (wp_commit x (hplus (with_res rest h) l))|..].
    + exact H1.
    + intros [] s2 H2. by exists l.
    + simpl. intros e s2 H2. by eapply dext_with_res, dext_hplus.
  - intros s' Hd'. eapply (dext_sub _ _ _ hand0); [|exact Hd']. by destruct h; rewrite hplus_nil.
Qed.

(** ** Claims *)

Lemma wp_claim keys h s :
  dinv E h s → wp (claim keys) (λ x, dinv E (with_claims x.1 h)) (λ _, dext E h) s.
Proof.
  intros Hd. unfold claim.
  apply (wp_fold_each _ _ _ (λ x _ s, dinv E (with_claims x.1 h) s)).
  - by destruct h.
  - intros [cl rejected] key rest s1 H1. wp. apply wp_find_record.
    destruct (s_records s1 !! key ≫= b_g3) as [gid|] eqn:Hg; [|by wp]. wp.
    apply (wp_disk_remove E (with_claims cl h)); [done|]. intros s2 H2 Hs2 Hq Hu.
    unfold upd_disk. wp. simpl.
    assert (down s2 !! key = Some gid) as Hk by (rewrite (ss_down _ _ Hs2); unfold down; by rewrite lookup_omap).
    pose proof (dinv_claim E _ _ _ _ H2 Hk Hq Hu) as H3.
    eapply dinv_proper; [|reflexivity|exact H3]. split; simpl; try done.
    rewrite <- app_assoc. simpl. by rewrite <- Permutation_middle.
  - done.
Qed.

Lemma wp_release_disk_claim x h s : dinv E (with_claims [x] h) s →
  wp (release_disk_claim E x) (λ _, dinv E h) (λ _, dinv E h) s.
Proof.
  intros Hd. destruct x as [key gid]. unfold release_disk_claim, upd_disk.
  destruct (dinv_release E h s key gid Hd) as (g & Hk & Hg & Hpos & H1).
  wp. apply wp_find_record. destruct (down_record _ _ _ Hk) as (b & Hb & Hbg). rewrite Hb. simpl.
  rewrite decide_False by (rewrite Hbg; naive_solver). wp. eapply wp_get_disk; [exact Hg|].
  rewrite decide_False by lia. wp.
  assert (alter (λ g0, g_set_claims (g_claim_count g - 1) g0) gid (s_g3res s) =
    alter (λ g0, g_set_claims (g_claim_count g0 - 1) g0) gid (s_g3res s)) as Heq.
  { apply map_eq. intros i. rewrite !lookup_alter. case_decide; [|done]. subst. by rewrite Hg. }
  case_decide; [|by wp]. apply (wp_disk_rank E h); done.
Qed.

Lemma spends_release_claims cl : spends E (with_claims cl) (release_claims E cl).
Proof.
  intros h s Hd. apply (wp_for_each _ _ (λ cl, dext E (with_claims cl h))).
  - done.
  - intros x rest s1 [l H1]. eapply wp_mono; [apply (wp_release_disk_claim x (hplus (with_claims rest h) l))|..].
    + exact H1.
    + intros [] s2 H2. by exists l.
    + simpl. intros e s2 H2. eapply dext_with_claims. by exists l.
  - intros s' Hd'. eapply (dext_sub _ _ _ hand0); [|exact Hd']. by destruct h; rewrite hplus_nil.
Qed.
End Starting.
