(* ===== verification/DiskRun.v ===== *)
(** * Transfers of the file-backed tier, from start to completion *)

From Stdlib Require Import ZArith Lia.
From S2P Require Import Prelude PyFloat Types PolicyRuntime Layout State CoreBase Pools PoolsInv Transfer Disk DiskInv DiskOps DiskMoves DiskThm.

Lemma wp_conj {S A} (m : M S A) Q Q' Ex Ex' s :
  wp m Q Ex s → wp m Q' Ex' s → wp m (λ a s', Q a s' ∧ Q' a s') (λ e s', Ex e s' ∧ Ex' e s') s.
Proof. unfold wp. by destruct (m s) as [[a|e] s']. Qed.

Section Starting.
Context (E : Env) (regions : RegionMaps) (progress_failure : St → option exn).
Implicit Types (h : Hand) (s : St).

Lemma with_op_res op h : go_claims op = [] → with_op op h = with_res (go_reservations op) h.
Proof. intros Hc. unfold with_op, with_res. rewrite Hc. by destruct h. Qed.
Lemma with_op_claims op h : go_reservations op = [] → with_op op h = with_claims (go_claims op) h.
Proof. intros Hc. unfold with_op, with_claims. rewrite Hc. by destruct h. Qed.

Lemma fits_kind res op : op_fits E res op →
  if decide (go_kind op = KStore) then go_claims op = [] else go_reservations op = [].
Proof. unfold op_fits. case_decide; by intros [? _]. Qed.

Lemma wp_submit op h s : dinv E (with_op op h) s → op_fits E (s_g3res s) op →
  wp (submit E progress_failure op) (λ _, dinv E h) (λ _, dext E h) s.
Proof.
  intros Hd Hfit. unfold submit, upd_g3. wp.
  case_bool_decide as Hid.
  { wp. apply fits_kind in Hfit. case_decide; rename Hfit into Hx.
    - rewrite with_op_res in Hd by done. by eapply with_res_ext.
    - rewrite with_op_claims in Hd by done. by eapply with_claims_ext. }
  wp. pose proof (dinv_activate E h s op Hd) as H1.
  set (s1 := set_s_g3 _ s). change (set_active _ s) with s1 in H1.
  assert (g3_active (s_g3 s1) !! go_op_id op = Some op) as Hin by apply lookup_insert_eq.
  assert (dinv E h s1) as H1'.
  { apply H1; [|done]. destruct (g3_active (s_g3 s) !! go_op_id op) eqn:Hx; [|done].
    exfalso. apply Hid. by eexists. }
  clearbody s1. clear H1 Hid Hd s Hfit.
  wp_still s2 Hv2; [|by eapply dext_intro, dinv_same].
  apply (dinv_same E _ _ _ Hv2) in H1'. rewrite <- (sd_g3 _ _ Hv2) in Hin. clear Hv2 s1.
  apply wp_try_except. unfold progress_submit. wp. destruct (progress_failure s2) as [e|]; wp; [|by destruct H1'].
  pose proof (dinv_deactivate E h s2 _ op H1' Hin) as H3.
  destruct (di_ops _ _ _ H1' _ _ Hin) as [_ Hfit%fits_kind].
  set (s3 := set_s_g3 _ s2). change (set_active _ s2) with s3 in H3. clearbody s3. clear H1' Hin s2.
  assert (∀ s4, same_disk s3 s4 → wp ((if decide (go_kind op = KStore) then rollback (go_reservations op)
       else release_claims E (go_claims op)) ;; raise (A:=unit) e) (λ _, dinv E h) (λ _, dext E h) s4) as Hend.
  { intros s4 Hv4. apply (dinv_same E _ _ _ Hv4) in H3. apply wp_bind.
    case_decide; rename Hfit into Hx.
    - rewrite with_op_res in H3 by done. eapply wp_rollback; [exact H3|]. intros s5 H5 _. wp.
      by apply dext_intro.
    - rewrite with_op_claims in H3 by done.
      eapply wp_mono; [apply (spends_release_claims E (go_claims op) h); by apply dext_intro|..]; [|done].
      intros [] s5 H5. by wp. }
  wp_still s4 Hv4; [by apply Hend|]. simpl in *.
  apply (dinv_same E _ _ _ Hv4) in H3. case_decide; rename Hfit into Hx.
  - rewrite with_op_res in H3 by done. by eapply with_res_ext.
  - rewrite with_op_claims in H3 by done. by eapply with_claims_ext.
Qed.

Lemma wp_item_slots rs h s : dinv E (with_res rs h) s →
  wp (item_slots rs) (λ l s', s' = s ∧ l = slots_at (s_g3res s) rs) (λ _ _, False) s.
Proof.
  intros Hd. assert (∀ k gid, (k, gid) ∈ rs → is_Some (s_g3res s !! gid)) as Ha.
  { intros k gid Hin. apply (ho_alloc _ _ _ _ _ (di_home _ _ _ Hd)). eapply homes_gid, elem_of_homes.
    right. by apply in_reserved. }
  clear Hd. unfold item_slots. change (slots_at (s_g3res s) rs) with ([] ++ slots_at (s_g3res s) rs).
  generalize (@nil Z). induction rs as [|[k gid] rs IH]; intros acc; simpl.
  - wp. by rewrite app_nil_r.
  - wp. destruct (Ha k gid) as [g Hg]; [by left|]. eapply wp_get_disk; [exact Hg|]. wp.
    eapply wp_mono; [apply IH| |done].
    + intros k' gid' Hin. apply (Ha k'). by right.
    + intros l s' [-> ->]. split; [done|]. unfold gslots. by rewrite Hg, app_assoc.
Qed.
Lemma still_preflights preflight items : still (preflights preflight items).
Proof.
  induction items as [|[key gid] items IH]; simpl; [apply still_ret|]. still_tac.
Qed.
#[local] Hint Resolve still_preflights : kvcr.

(** A store that does not start leaves nothing reserved. *)
Lemma wp_start_store op_id blocks deadline h s : dinv E h s →
  wp (start_store E regions progress_failure op_id blocks deadline) (λ _, dinv E h) (λ _, dext E h) s.
Proof.
  intros Hd. unfold start_store. apply wp_bind.
  eapply wp_mono; [by apply wp_reserve| |done]. intros rs s1 H1. simpl in H1.
  case_decide; [apply wp_bind; eapply wp_rollback; [exact H1|]; intros s2 H2 _; by wp|].
  apply wp_bind. assert (still (match env_g3_preflight E with
    | None => mret true | Some preflight => preflights preflight rs end)) as Hst
    by (destruct (env_g3_preflight E); still_tac).
  eapply wp_still; [exact Hst| |intros e s2 Hv; by eapply with_res_ext, dinv_same].
  intros accepted s2 Hv2. apply (dinv_same E _ _ _ Hv2) in H1. clear Hv2 Hst.
  destruct accepted; simpl; last first.
  { apply wp_bind. eapply wp_rollback; [exact H1|]. intros s3 H3 _. by wp. }
  apply wp_bind. unfold wp at 1, lift. destruct (all_chunks _ _ _) as [memory|e]; [|by eapply with_res_ext].
  apply wp_bind. eapply wp_mono; [by eapply wp_item_slots| |done]. intros slots s3 [-> ->]. wp.
  eapply wp_mono; [apply (wp_submit _ h)| |done].
  - rewrite with_op_res; done.
  - by unfold op_fits.
  - intros [] s4 H4. by wp.
Qed.

(** ** Reads *)

Lemma wp_submit_read op h s : go_kind op ≠ KStore → go_reservations op = [] →
  dinv E (with_claims (go_claims op) h) s →
  go_file_descriptors op ⊆ file_descriptor E <$> slots_at (s_g3res s) (go_claims op) →
  wp (submit E progress_failure op) (λ _, dinv E h) (λ _, dext E h) s.
Proof.
  intros Hk Hr Hd Hf. apply wp_submit.
  - by rewrite with_op_claims.
  - unfold op_fits. by rewrite decide_False.
Qed.

Lemma piece_slots_sub layout slots pieces : piece_slots_from E layout slots = Ret pieces →
  ∀ piece, piece ∈ pieces → piece ⊆ slots.
Proof.
  revert slots pieces. induction layout as [|l layout IH]; intros slots pieces; simpl.
  { intros [= <-] piece Hin. by apply elem_of_nil in Hin. }
  destruct (block_size E l) as [n|]; [|done]. cbn [mbind result_bind].
  destruct (piece_slots_from _ _ _) as [rest|] eqn:Hrest; [|done]. cbn [mbind result_bind mret result_ret].
  intros [= <-] piece [->|Hin]%elem_of_cons.
  - apply subseteq_take.
  - etrans; [by eapply IH|]. apply subseteq_drop.
Qed.
Lemma piece_descriptors_sub pieces refs indices memory files slots :
  (∀ piece, piece ∈ pieces → piece ⊆ slots) →
  piece_descriptors E regions pieces refs indices = Ret (memory, files) →
  files ⊆ file_descriptor E <$> slots.
Proof.
  intros Hp. revert indices memory files. induction refs as [|ref refs IH]; intros [|i indices] memory files; simpl;
    try (intros [= <- <-]; set_solver).
  destruct (memory_chunks _ _ ref) as [chunks|]; [|done]. cbn [mbind result_bind].
  destruct (pieces !! i) as [piece|] eqn:Hi; [|done].
  destruct (piece_descriptors _ _ _ _ _) as [[m f]|] eqn:Hrest; [|done].
  cbn [mbind result_bind mret result_ret]. intros [= <- <-] d [Hin|Hin]%elem_of_app; [|by eapply IH].
  apply list_elem_of_fmap in Hin as (x & -> & Hx). apply list_elem_of_fmap_2.
  eapply Hp; [by eapply list_elem_of_lookup_2|done].
Qed.

(** Claims change no slots. *)
Definition slots_are (f : nat → list Z) (s : St) : Prop := ∀ gid, gslots (s_g3res s) gid = f gid.
Lemma slots_are_still f {A} (m : M St A) : still m → preserves (slots_are f) m.
Proof.
  intros Hm s Hs. apply (wp_still m); [done|..]; intros x s' Hv gid; by rewrite (sd_res _ _ Hv).
Qed.
Lemma slots_are_g3 f g : preserves (slots_are f) (upd_g3 g).
Proof. by intros s Hs. Qed.
Lemma slots_are_count f gid n : preserves (slots_are f) (upd_disk gid (λ g, g_set_claims (n g) g)).
Proof. intros s Hs gid'. simpl. rewrite gslots_alter; [apply Hs|done]. Qed.
Lemma rank_slots f key : preserves (slots_are f) (disk_make_evictable E key).
Proof.
  unfold disk_make_evictable.
  repeat first [apply preserves_ret | apply slots_are_g3 | apply preserves_gets | case_match
    | apply slots_are_still; solve [eauto 2 with kvcr nocore] | apply preserves_bind; [|intros ?]].
Qed.
Lemma release_claims_slots f cl : preserves (slots_are f) (release_claims E cl).
Proof.
  apply preserves_for_each. intros [key gid]. unfold release_disk_claim.
  apply preserves_bind; [apply slots_are_still; still_tac|intros b].
  case_decide; [apply preserves_raise|].
  apply preserves_bind; [apply slots_are_still; still_tac|intros g].
  case_decide; [apply preserves_raise|].
  apply preserves_bind; [apply slots_are_count with (n := λ g, (g_claim_count g - 1)%Z)|intros _].
  case_decide; [apply rank_slots|apply preserves_ret].
Qed.

Lemma wp_release_single x h s : dinv E (with_claims [x] h) s →
  wp (release_claims E [x]) (λ _ s', dinv E h s' ∧ slots_are (gslots (s_g3res s)) s')
    (λ _, dinv E h) s.
Proof.
  intros Hd. eapply wp_mono; [eapply (wp_conj _ (λ _, dinv E h) _ (λ _, dinv E h))| |].
  - unfold release_claims. simpl. apply wp_bind.
    eapply wp_mono; [by apply wp_release_disk_claim| |done]. intros [] s' H. by wp.
  - by apply (release_claims_slots (gslots (s_g3res s)) [x] s).
  - done.
  - by intros e s' [? _].
Qed.

(** What [_start_read] has accepted so far. *)
Definition reading h (a : Read) (rest : list (BlockKey * nat)) (s : St) : Prop :=
  dinv E (with_claims (rd_accepted a ++ rest) h) s ∧
  rd_files a ⊆ file_descriptor E <$> slots_at (s_g3res s) (rd_accepted a).
Lemma slots_are_at res s l : slots_are (gslots res) s → slots_at (s_g3res s) l = slots_at res l.
Proof. intros Hs. apply slots_at_ext. intros k gid _. apply Hs. Qed.

Lemma wp_read_one blocks a c rest h s : reading h a (c :: rest) s →
  wp (read_one E regions blocks a c) (λ a', reading h a' rest) (λ _, dext E h) s.
Proof.
  intros [Hd Hf]. destruct c as [key gid]. unfold read_one. simpl.
  assert (down s !! key = Some gid) as Hk.
  { apply (hl_own _ _ _ (di_hold _ _ _ Hd)). unfold claimed, with_claims. simpl.
    rewrite !elem_of_app, elem_of_cons. auto. }
  destruct (home_gid _ _ _ _ _ Hd Hk) as [g Hg]. wp. eapply wp_get_disk; [exact Hg|].
  destruct (layout_indices _ _ _) as [indices|].
  - wp. unfold wp at 1, lift. destruct (piece_slots E g) as [pieces|e] eqn:Hp; [|by eapply with_claims_ext].
    wp. unfold wp at 1, lift.
    destruct (piece_descriptors _ _ _ _ _) as [[memory files]|e] eqn:Hpd; [|by eapply with_claims_ext].
    wp. split; simpl; [by rewrite <- app_assoc|]. rewrite slots_at_app, fmap_app.
    intros d [Hin|Hin]%elem_of_app; apply elem_of_app; [left; by apply Hf|right].
    unfold slots_at. simpl. rewrite app_nil_r. unfold gslots. rewrite Hg.
    eapply piece_descriptors_sub; [|exact Hpd|exact Hin]. by eapply piece_slots_sub.
  - wp. eapply wp_mono; [apply (wp_release_single (key, gid) (with_claims (rd_accepted a ++ rest) h))|..].
    + eapply dinv_proper; [|reflexivity|exact Hd]. split; simpl; try done.
      solve_Permutation.
    + intros [] s1 [H1 Hs1]. wp. split; [done|]. simpl. by rewrite (slots_are_at _ _ _ Hs1).
    + intros e s1 H1. exact (with_claims_ext _ _ _ _ H1).
Qed.

Lemma wp_start_read kind op_handle blocks deadline h s : kind ≠ KStore → dinv E h s →
  wp (start_read E regions progress_failure kind op_handle blocks deadline)
    (λ _, dext E h) (λ _, dext E h) s.
Proof.
  intros Hkind Hd. unfold start_read. apply wp_bind.
  eapply wp_mono; [by apply wp_claim| |done]. intros [claims rejected] s1 H1. simpl in H1.
  apply wp_bind. apply (wp_fold_each _ _ _ (λ a rest s, reading h a rest s)).
  { split; [done|]. simpl. set_solver. }
  { intros a c rest s2 H2. by apply wp_read_one. }
  clear s1 H1 claims rejected s Hd. intros a s [Hd Hf]. rewrite app_nil_r in Hd.
  set (cl := rd_accepted a) in *.
  assert (∀ (b : bool) s, dext E (with_claims cl h) s →
    wp (release_claims E cl ;; mret b) (λ _, dext E h) (λ _, dext E h) s) as Hgive.
  { intros b s' H'. apply wp_bind. eapply wp_mono; [by apply spends_release_claims| |done].
    intros [] s2 H2. by wp. }
  case_decide as Hrej; [by apply Hgive, dext_intro|].
  assert (∀ s', dinv E (with_claims cl h) s' → same_disk s s' →
    reading h (mkRead cl (rd_rejected a) (rd_memory a) (rd_files a)) [] s') as Hkeep.
  { intros s' H' Hv. split; [by rewrite app_nil_r|]. simpl. by rewrite (sd_res _ _ Hv). }
  apply wp_bind. match goal with |- wp ?m _ _ _ => assert (still m) as Hjoin end.
  { case_decide; [apply still_ret|]. unfold join_completion. still_tac.
    apply still_modify. intros s'. by case_match. }
  apply (wp_still _ _ _ _ Hjoin); [|intros e s1 Hv; eapply dext_same, with_claims_ext; done].
  clear Hjoin. intros _ s1 Hv1. apply (dinv_same E _ _ _ Hv1) in Hd. specialize (Hkeep _ Hd Hv1).
  destruct Hkeep as [_ Hf1]. simpl in Hf1. case_decide as Hcl.
  { wp. by eapply with_claims_ext. }
  case_decide; [by apply Hgive, dext_intro|].
  apply wp_bind. match goal with |- wp ?m _ _ _ => assert (still m) as Hhandle by (case_decide; still_tac) end.
  apply (wp_still _ _ _ _ Hhandle); [|intros e s2 Hv; eapply dext_same, with_claims_ext; done].
  clear Hhandle. intros handle s2 Hv2. apply (dinv_same E _ _ _ Hv2) in Hd.
  rewrite <- (sd_res _ _ Hv2) in Hf1. wp.
  eapply wp_mono; [apply (wp_submit_read _ h); simpl; done| |done].
  intros [] s3 H3. wp. by apply dext_intro.
Qed.
End Starting.

(** ** Completions, the resolution of an eviction, shutdown *)

Section Completing.
Context (E : Env) (resume : M St unit) (complete_fill : list BlockKey → bool → M St unit)
  `{!DiskFriendly E resume complete_fill} (regions : RegionMaps) (progress_failure : St → option exn).
Implicit Types (h : Hand) (s : St).

Lemma spends_id {A} (m : M St A) : (∀ h, preserves (dext E h) m) → spends E id m.
Proof. intros Hm h s Hd. by apply Hm. Qed.
Lemma friendly_still h {A} (m : M St A) : still m → preserves (dext E h) m.
Proof. apply preserves_still. Qed.

(** Split an operation into parts that leave the tier alone and calls into local DRAM. *)
Ltac friendly :=
  repeat match goal with
  | |- preserves _ (mret _) => apply preserves_ret
  | |- preserves _ (raise _) => apply preserves_raise
  | |- preserves _ (gets _) => apply preserves_gets
  | |- preserves _ resume => apply (resume_friendly (E:=E) (complete_fill:=complete_fill))
  | |- preserves _ (modify _) => apply friendly_still, still_modify; intros ?; by split
  | |- preserves _ (_ ≫= _) => apply preserves_bind; [|intros ?]
  | |- preserves _ (for_each _ _) => apply preserves_for_each; intros ?
  | |- preserves _ _ => solve [apply friendly_still; eauto 2 with kvcr nocore]
  | |- preserves _ (if ?b then _ else _) => destruct b
  | |- preserves _ (match ?b with _ => _ end) => destruct b
  end.

Lemma friendly_after_last_claim h key rid : preserves (dext E h) (after_last_claim E resume key rid).
Proof. unfold after_last_claim. friendly. Qed.
Lemma friendly_release_claim h key rid : preserves (dext E h) (release_claim E resume key rid).
Proof.
  unfold release_claim. friendly; apply friendly_after_last_claim.
Qed.
Lemma friendly_release_sources h keys : preserves (dext E h) (release_sources E resume keys).
Proof. unfold release_sources. friendly; apply friendly_release_claim. Qed.
Lemma friendly_release_local h op_id keys :
  preserves (dext E h) (release_local_dram_sources E resume op_id keys).
Proof.
  unfold release_local_dram_sources, sources_of. friendly; try apply friendly_release_sources.
Qed.
Lemma friendly_retire_local h op_id : preserves (dext E h) (retire_local_sources E resume op_id).
Proof. unfold retire_local_sources, sources_of. friendly; apply friendly_release_local. Qed.
Lemma friendly_recover h key reason : preserves (dext E h) (recover_store_failure E resume key reason).
Proof. unfold recover_store_failure. friendly; apply friendly_retire_local. Qed.

Lemma spends_rollback rs : spends E (with_res rs) (rollback rs).
Proof.
  apply spends_intro.
  - intros h l. unfold with_res, hplus. simpl. by rewrite app_assoc.
  - intros h s Hd. eapply wp_rollback; [exact Hd|]. intros s' Hd' _. by apply dext_intro.
Qed.
Lemma spends_bind F {A B} (m : M St A) (f : A → M St B) :
  spends E F m → (∀ a h, preserves (dext E h) (f a)) → spends E F (m ≫= f).
Proof.
  intros Hm Hf h s Hd. apply wp_bind. eapply wp_mono; [by apply Hm| |done].
  intros a s' Hd'. by apply Hf.
Qed.
(** The finaliser gives back the claims whatever the body does. *)
Lemma spends_finally cl (m : M St unit) : (∀ h, preserves (dext E h) m) →
  spends E (with_claims cl) (try_finally m (release_claims E cl)).
Proof.
  intros Hm h s Hd. apply wp_try_finally.
  eapply wp_mono; [by apply Hm|..]; intros ? s' Hd'; by apply spends_release_claims.
Qed.

Definition kind_fits (op : G3TransferOp) : Prop :=
  if decide (go_kind op = KStore) then go_claims op = [] else go_reservations op = [].

Lemma still_destination key : still (fill_destination key).
Proof. unfold fill_destination. still_tac. Qed.
Lemma still_destinations keys : still (all_destinations keys).
Proof.
  induction keys as [|key keys IH]; simpl; [apply still_ret|].
  apply still_bind; [apply still_destination|]. intros ok. destruct ok; [done|apply still_ret].
Qed.

Lemma spends_finish item : kind_fits (gi_op item) →
  spends E (with_op (gi_op item)) (finish E resume complete_fill item).
Proof.
  destruct item as [op uncertain transfer_id success]. unfold kind_fits. simpl. intros Hk h s Hd.
  unfold finish. simpl. destruct (go_kind op) eqn:Hkind; simpl in Hk.
  - rewrite with_op_res in Hd by done. revert h s Hd. destruct success.
    + apply spends_bind; [apply spends_commits|]. intros _ h. apply friendly_retire_local.
    + apply spends_bind; [apply spends_rollback|]. intros _ h.
      destruct (go_ordered_keys op) as [|key [|]]; [apply preserves_raise| |apply preserves_raise].
      apply friendly_recover.
  - rewrite with_op_claims in Hd by done. apply wp_bind.
    eapply wp_still; [destruct success; [apply still_destinations|apply still_ret]|..].
    + intros ok s1 Hv1. eapply spends_finally; [|by eapply dext_same].
      intros h'. apply (fill_friendly (resume:=resume)).
    + intros e s1 Hv1. eapply dext_with_claims, dext_same; done.
  - rewrite with_op_claims in Hd by done. revert h s Hd. apply spends_bind.
    + apply spends_finally. intros h. destruct success; [|apply preserves_ret].
      apply friendly_still, still_record_access.
    + intros _ h. destruct uncertain; [apply preserves_ret|].
      destruct (go_op_id op).2; [apply friendly_still, still_complete|apply preserves_raise].
Qed.

(** The object handed back is the one the tier submitted under that identity. *)
Definition same_object (item : G3Item) (s : St) : Prop :=
  ∀ op, g3_active (s_g3 s) !! go_op_id (gi_op item) = Some op →
    go_ident op = go_ident (gi_op item) → op = gi_op item.

Lemma wp_poll_item item h s : dext E h s → same_object item s →
  wp (poll_item E resume complete_fill item) (λ _, dext E h) (λ _, dext E h) s.
Proof.
  intros Hd Hsame. unfold poll_item. wp.
  case_match.
  { destruct (g3_active (s_g3 s) !! _); [destruct (go_op_id _).2|]; [|by wp|by wp].
    apply friendly_still; [apply still_complete|done]. }
  unfold upd_g3. wp. destruct Hd as [l Hd].
  destruct (g3_active (s_g3 s) !! go_op_id (gi_op item)) as [op|] eqn:Hop; simpl.
  - pose proof (dinv_deactivate E _ _ _ _ Hd Hop) as H1.
    destruct (di_ops _ _ _ Hd _ _ Hop) as [_ Hfit%fits_kind].
    set (s1 := set_s_g3 _ s). change (set_active _ s) with s1 in H1.
    assert (dext E (with_op op h) s1) as H2.
    { exists l. eapply dinv_proper; [|reflexivity|exact H1]. split; simpl; by rewrite ?app_assoc. }
    destruct (decide (Some (go_ident op) ≠ Some (go_ident (gi_op item)))) as [Hid|Hid].
    + wp. unfold with_op in H2. eapply (dext_sub _ _ h (mkHand (go_reservations op) [] (go_claims op) []));
        [|exact H2]. split; simpl; rewrite ?app_nil_r; try done; by rewrite Permutation_app_comm.
    + assert (op = gi_op item) as -> by (apply Hsame; [done|]; by apply dec_stable in Hid; injection Hid).
      apply wp_try_finally. eapply wp_mono; [apply (spends_finish item Hfit h s1 H2)|..];
        intros ? s2 H3; (apply friendly_still; [apply still_remove_dependencies|done]).
  - assert (dext E h (set_s_g3 (set_g3_active (delete (go_op_id (gi_op item)) (g3_active (s_g3 s))) (s_g3 s)) s)) as H1.
    { exists l. rewrite delete_id by done. by destruct Hd. }
    wp. done.
Qed.

Lemma friendly_resolve_eviction h meta source decision deadline :
  preserves (dext E h) (resolve_eviction E resume regions progress_failure meta source decision deadline).
Proof.
  unfold resolve_eviction, claim_local_dram_sources, sources_of.
  assert (∀ op_id blocks, preserves (dext E h)
    (start_store E regions progress_failure op_id blocks deadline)) as Hstart.
  { intros op_id blocks s [l Hd]. eapply wp_mono; [by apply wp_start_store|..]; simpl.
    - intros _ s' H'. by exists l.
    - intros e s' H'. by eapply dext_hplus. }
  friendly. apply preserves_try_except.
  - friendly; [apply Hstart|apply friendly_recover].
  - intros _. friendly. apply friendly_recover.
Qed.
Lemma friendly_start_read h kind op_handle blocks deadline : kind ≠ KStore →
  preserves (dext E h) (start_read E regions progress_failure kind op_handle blocks deadline).
Proof.
  intros Hk s [l Hd]. eapply wp_mono; [by apply wp_start_read|..]; simpl; intros; by eapply dext_hplus.
Qed.
Lemma friendly_rank h key : preserves (dext E h) (disk_make_evictable E key).
Proof. intros s [l Hd]. apply (wp_disk_rank E (hplus h l)); [done|..]; intros; by exists l. Qed.
End Completing.
