(* ===== verification/DiskProps.v ===== *)
(** * What the file-backed tier guarantees

    Over every sequence of its operations: slots are never shared, claimed blocks stay and
    transfers touch only their own blocks; file ranges of different slots are disjoint;
    recovered slots are adopted exactly or refused. *)

From Stdlib Require Import ZArith Lia.
From S2P Require Import Prelude PyFloat Types PolicyRuntime Layout State CoreBase Pools PoolsInv PoolsAdmit PoolsProps Transfer Disk DiskInv DiskOps DiskMoves DiskThm DiskRun.

(** ** Every sequence of operations *)

Section Running.
Context (E : Env) (resume : M St unit) (complete_fill : list BlockKey → bool → M St unit)
  `{!DiskFriendly E resume complete_fill} (regions : RegionMaps) (progress_failure : St → option exn).

(** The core's calls into the tier, in any order; between them the rest of the core runs. *)
Inductive disk_step : St → St → Prop :=
  | ds_resolve meta source decision deadline s :
      disk_step s (resolve_eviction E resume regions progress_failure meta source decision deadline s).2
  | ds_read kind op_handle blocks deadline s : kind ≠ KStore →
      disk_step s (start_read E regions progress_failure kind op_handle blocks deadline s).2
  | ds_poll item s : same_object item s →
      disk_step s (poll_item E resume complete_fill item s).2
  | ds_rank key s : disk_step s (disk_make_evictable E key s).2
  | ds_resume s : disk_step s (resume s).2
  | ds_rest s s' : same_disk s s' → disk_step s s'.

Lemma wp_snd {A} (m : M St A) (P : St → Prop) s : wp m (λ _, P) (λ _, P) s → P (m s).2.
Proof. unfold wp. by destruct (m s) as [[a|e] s']. Qed.
Lemma preserves_snd {A} (m : M St A) (P : St → Prop) s : preserves P m → P s → P (m s).2.
Proof. intros Hm Hs. apply wp_snd. by apply Hm. Qed.
Lemma disk_step_inv s s' : dext E hand0 s → disk_step s s' → dext E hand0 s'.
Proof.
  intros Hd Hs. revert Hd.
  destruct Hs as [meta source decision deadline t|kind op_handle blocks deadline t Hk|item t Hs|key t|t|t t' Hv];
    intros Hd.
  - eapply preserves_snd; [|done]. by apply (friendly_resolve_eviction E resume complete_fill).
  - eapply preserves_snd; [|done]. by apply friendly_start_read.
  - apply wp_snd. by eapply wp_poll_item.
  - eapply preserves_snd; [|done]. by eapply friendly_rank.
  - eapply preserves_snd; [|done]. by apply (resume_friendly (complete_fill:=complete_fill)).
  - by eapply dext_same.
Qed.

(** A core whose tier has just been constructed. *)
Record fresh_disk (page_size : Z) (config : G3Config) (s : St) : Prop := {
  fd_init : disk_init page_size config (env_g3_slot_size E) = Ret (env_g3_bytes_per_file E, s_g3 s);
  fd_files : length (env_g3_fds E) = length (c_paths config);
  fd_records : s_records s = ∅;
  fd_res : s_g3res s = ∅ }.
Lemma fresh_dinv page_size config s : fresh_disk page_size config s →
  dinv E hand0 s ∧ (0 < env_g3_slot_size E)%Z.
Proof.
  intros [Hi Hf Hrec Hres]. unfold disk_init in Hi.
  case_decide; [done|]. case_decide; [done|]. case_decide as Hslot; [done|]. case_decide; [done|].
  case_decide; [done|]. injection Hi as Hb Hg.
  assert (0 < env_g3_slot_size E)%Z by lia. split; [|done].
  assert (down s = ∅) as Hd by (unfold down; rewrite Hrec; apply omap_empty).
  split; rewrite ?Hd, ?Hres, <- ?Hg; simpl.
  - split; simpl; try done; try (intros; set_solver); constructor.
  - unfold disk_slots_inv, total_slots, homes. simpl. rewrite app_nil_r, Hf, <- Hb.
    by rewrite Z.mul_assoc, Z.div_mul, Z.mul_comm by lia.
  - split; simpl; [apply queue_wf_init| | |].
    + intros k. rewrite lookup_empty. by intros [? ?].
    + set_solver.
    + unfold queued. by rewrite map_zip_with_empty_l.
  - split; [intros; set_solver|]. intros k gid g. by rewrite lookup_empty.
  - intros id op. by rewrite lookup_empty.
Qed.

(** Every block with slots on disk: resident, or being stored. *)
Definition disk_blocks (s : St) : list (BlockKey * nat) :=
  homes (down s) (op_list (g3_active (s_g3 s)) ≫= go_reservations).

(** C16: Over every sequence of stores, fills, deliveries, completions and evictions of a newly
    opened tier, whatever local DRAM, the policy and the clock do: no slot is both free and
    used, or used by two blocks, and every slot is one of the files'; a block being read is
    still resident; and the file ranges an operation hands to NIXL are those of the blocks it
    reserved or claimed. *)
Theorem disk_slots_never_shared page_size config s0 s :
  fresh_disk page_size config s0 → rtc disk_step s0 s →
  let slots := g3_free (s_g3 s) ++ slots_at (s_g3res s) (disk_blocks s) in
  NoDup slots ∧ Forall (λ slot, 0 <= slot < total_slots E)%Z slots ∧
  ∀ op_id op, g3_active (s_g3 s) !! op_id = Some op → op_fits E (s_g3res s) op ∧
    ∀ key gid, (key, gid) ∈ go_claims op → down s !! key = Some gid.
Proof.
  intros Hf Hr. destruct (fresh_dinv _ _ _ Hf) as [H0 _]. apply dext_intro in H0.
  assert (dext E hand0 s) as [l Hd].
  { clear Hf. induction Hr as [|x y z Hxy _ IH]; [done|]. by eapply IH, disk_step_inv. }
  pose proof (di_slots _ _ _ Hd) as Hs. unfold disk_slots_inv in Hs.
  assert (g3_free (s_g3 s) ++ slots_at (s_g3res s) (disk_blocks s) ⊆+ seqZ 0 (total_slots E)) as Hsub.
  { rewrite <- Hs. apply submseteq_skips_l. unfold disk_blocks, homes, reserved.
    rewrite app_assoc, !slots_at_app, <- !app_assoc. apply submseteq_skips_l, submseteq_inserts_r.
    done. }
  split_and!.
  - eapply submseteq_NoDup; [exact Hsub|]. apply NoDup_seqZ.
  - eapply submseteq_Forall; [exact Hsub|]. apply list.Forall_forall. intros x. rewrite elem_of_seqZ. lia.
  - intros id op Hop. destruct (di_ops _ _ _ Hd _ _ Hop) as [_ Hfit]. split; [done|].
    intros key gid Hin. apply (hl_own _ _ _ (di_hold _ _ _ Hd)). apply elem_of_app. left.
    apply list_elem_of_bind. exists op. split; [done|]. apply list_elem_of_fmap.
    exists (id, op). split; [done|]. by apply elem_of_map_to_list.
Qed.
End Running.

(** ** Slots and file ranges *)

(** The file ranges of different slots never overlap, and every slot's range lies inside one
    of the files. *)
Theorem file_ranges_disjoint E page_size config g3 bytes slot slot' :
  disk_init page_size config (env_g3_slot_size E) = Ret (bytes, g3) →
  env_g3_bytes_per_file E = bytes → length (env_g3_fds E) = length (c_paths config) →
  NoDup (env_g3_fds E) → slot ∈ g3_free g3 → slot' ∈ g3_free g3 → slot ≠ slot' →
  let d := file_descriptor E slot in
  let d' := file_descriptor E slot' in
  (md_device d ∈ env_g3_fds E ∧ 0 <= md_addr d ∧ md_addr d + md_size d <= bytes)%Z ∧
  (md_device d ≠ md_device d' ∨ md_addr d + md_size d <= md_addr d' ∨ md_addr d' + md_size d' <= md_addr d)%Z.
Proof.
  intros Hi Hb Hf Hnd Hin Hin' Hne. unfold disk_init in Hi.
  case_decide; [done|]. case_decide; [done|]. case_decide as Hslot; [done|]. case_decide; [done|].
  case_decide; [done|]. injection Hi as Hbytes Hg. rewrite <- Hg in Hin, Hin'. simpl in Hin, Hin'.
  apply elem_of_seqZ in Hin, Hin'. rewrite <- Hf in Hin, Hin'.
  set (n := Z.of_nat (length (env_g3_fds E))) in *. set (k := (c_capacity_bytes_per_file config / _)%Z) in *.
  assert (0 < n)%Z by nia. set (size := env_g3_slot_size E) in *. assert (0 < size)%Z by lia.
  unfold file_descriptor. fold n size. simpl.
  assert (∀ x, 0 <= x < 0 + k * n → ∃ fd, env_g3_fds E !! Z.to_nat (x mod n) = Some fd ∧
    0 <= x / n < k)%Z as Hfd.
  { intros x Hx. pose proof (Z.mod_pos_bound x n ltac:(lia)).
    destruct (lookup_lt_is_Some_2 (env_g3_fds E) (Z.to_nat (x mod n))) as [fd Hfd]; [lia|].
    exists fd. split; [done|]. split; [apply Z.div_pos; lia|]. apply Z.div_lt_upper_bound; nia. }
  destruct (Hfd slot Hin) as (fd & Hx & Hq), (Hfd slot' Hin') as (fd' & Hx' & Hq').
  rewrite Hx, Hx'. simpl. split; [split; [by eapply list_elem_of_lookup_2|nia]|].
  destruct (decide (fd = fd')) as [<-|]; [right|by left].
  pose proof (NoDup_lookup _ _ _ _ Hnd Hx Hx') as Heq.
  pose proof (Z.mod_pos_bound slot n ltac:(lia)). pose proof (Z.mod_pos_bound slot' n ltac:(lia)).
  assert (slot mod n = slot' mod n)%Z as Hm by lia.
  pose proof (Z.div_mod slot n ltac:(lia)). pose proof (Z.div_mod slot' n ltac:(lia)).
  assert (slot / n ≠ slot' / n)%Z by (intros Hd; apply Hne; lia). nia.
Qed.

(** ** Recovery *)

Section Adoption.
Context (E : Env).

(** Recovered residencies, before their slots are adopted. *)
Record recovered_disk (s : St) : Prop := {
  rv_alloc : ∀ key gid, down s !! key = Some gid →
    ∃ g, s_g3res s !! gid = Some g ∧ g_claim_count g = 0%Z;
  rv_inj : ∀ key key' gid, down s !! key = Some gid → down s !! key' = Some gid → key = key';
  rv_fresh : ∀ gid, s_next_g3 s ≤ gid → s_g3res s !! gid = None;
  rv_queue : g3_evictable (s_g3 s) = queue_init;
  rv_slots : g3_evictable_slots (s_g3 s) = 0%Z;
  rv_unscored : g3_unscored (s_g3 s) = ∅;
  rv_pending : g3_pending_keys (s_g3 s) = ∅;
  rv_active : g3_active (s_g3 s) = ∅ }.

Definition occupies (occupied : gset Z) (l : list Z) : Prop :=
  NoDup l ∧ (∀ x, x ∈ occupied ↔ x ∈ l) ∧ Forall (λ slot, 0 <= slot < total_slots E)%Z l.
Lemma occupy_disk_spec slots occupied occupied' l :
  occupy_disk E slots occupied = Some occupied' → occupies occupied l → occupies occupied' (l ++ slots).
Proof.
  revert occupied l. induction slots as [|slot slots IH]; intros occupied l; simpl.
  { intros [= <-]. by rewrite app_nil_r. }
  case_decide as Hbad; [done|]. apply Decidable.not_or in Hbad as [Hrange Hout].
  intros Ho (Hn & He & Hf). rewrite (cons_middle slot l slots), app_assoc. apply (IH _ _ Ho). split_and!.
  - apply list.NoDup_app. split_and!; [done| |apply NoDup_singleton].
    intros x Hx ->%list_elem_of_singleton. by apply Hout, He.
  - intros x. rewrite elem_of_union, elem_of_singleton, elem_of_app, list_elem_of_singleton, He. tauto.
  - apply Forall_app. split; [done|]. constructor; [lia|done].
Qed.
Lemma occupies_free occupied l : occupies occupied l →
  filter (λ slot, slot ∉ occupied) (seqZ 0 (total_slots E)) ++ l ≡ₚ seqZ 0 (total_slots E).
Proof.
  intros (Hn & He & Hf). apply NoDup_Permutation.
  - apply list.NoDup_app. split_and!; [apply NoDup_filter, NoDup_seqZ| |done].
    intros x [Hx _]%list_elem_of_filter Hin. by apply Hx, He.
  - apply NoDup_seqZ.
  - intros x. rewrite elem_of_app, list_elem_of_filter, elem_of_seqZ, He.
    rewrite list.Forall_forall in Hf. destruct (decide (x ∈ l)) as [Hx|]; [|tauto].
    specialize (Hf x Hx). split; [lia|by right].
Qed.

(** The residencies of a list of records. *)
Definition disk_of (records : list (BlockKey * BlockRecord)) : list (BlockKey * nat) :=
  omap (λ x, pair x.1 <$> b_g3 x.2) records.
Definition bad_recovery (e : exn) : Prop := ∃ m, e = ValueError m ∨ e = KeyError m.

Lemma validate_labels_error pools seen layout e : validate_labels pools seen layout = Raise e → bad_recovery e.
Proof.
  revert seen. induction layout as [|l layout IH]; intros seen; simpl; [done|].
  destruct (partition_colon l) as [[pool sep] part]. repeat case_decide; destruct sep; intros Hr;
    try (injection Hr as <-; eexists; by left); by eapply IH.
Qed.
Lemma layout_bytes_error layout e : layout_bytes E layout = Raise e → bad_recovery e.
Proof.
  induction layout as [|l layout IH]; simpl; [done|]. unfold block_size.
  destruct (assoc _ _) as [n|]; simpl; [|intros [= <-]; eexists; by right].
  destruct (layout_bytes E layout) as [rest|e']; simpl; [done|]. intros [= <-]. by apply IH.
Qed.

Lemma wp_adopt_one occupied x l s :
  (∀ gid, b_g3 x.2 = Some gid → is_Some (s_g3res s !! gid)) → occupies occupied l →
  wp (adopt_disk_residency E occupied x)
    (λ occupied' s', s' = s ∧ occupies occupied' (l ++ slots_at (s_g3res s) (disk_of [x])))
    (λ e s', s' = s ∧ bad_recovery e) s.
Proof.
  intros Ha Ho. destruct x as [key b]. unfold adopt_disk_residency, disk_of. simpl in *.
  destruct (b_g3 b) as [gid|]; simpl; [|wp; by rewrite app_nil_r].
  destruct (Ha gid eq_refl) as [g Hg]. wp. eapply wp_get_disk; [exact Hg|]. wp.
  unfold wp at 1, lift, validate_expected_layout. case_decide; [split; [done|]; eexists; by left|].
  destruct (validate_labels _ _ _) as [u|e] eqn:Hv; simpl; [|split; [done|by eapply validate_labels_error]].
  wp. unfold wp at 1, lift.
  destruct (layout_bytes E (g_layout g)) as [bytes|e] eqn:Hb; [|split; [done|by eapply layout_bytes_error]].
  case_decide; [wp; split; [done|]; eexists; by left|].
  destruct (occupy_disk E (g_slots g) occupied) as [occupied'|] eqn:Hocc;
    [|wp; split; [done|]; eexists; by left].
  assert (occupies occupied' (l ++ slots_at (s_g3res s) [(key, gid)])) as Ho'.
  { unfold slots_at. simpl. rewrite app_nil_r. unfold gslots. rewrite Hg. by eapply occupy_disk_spec. }
  destruct (b_local_dram b) as [rid|]; [|by wp]. wp. unfold wp, get_res.
  destruct (s_res s !! rid) as [r|]; [|split; [done|]; eexists; by right].
  case_decide; unfold raise, mret, M_ret; [split; [done|]; eexists; by left|done].
Qed.

(** Once every slot is accounted for, the recovered state is one the tier can run from. *)
Lemma recovered_dinv s free : recovered_disk s →
  free ++ slots_at (s_g3res s) (map_to_list (down s)) ≡ₚ seqZ 0 (total_slots E) →
  dinv E hand0 (set_s_g3 (set_g3_free free (s_g3 s)) s).
Proof.
  intros [Ha Hi Hf Hq Hsl Hu Hp Hact] Hs.
  set (s' := set_s_g3 _ s). change (down s) with (down s') in *.
  assert (homes (down s') (reserved ∅ hand0) = map_to_list (down s')) as Hh by apply app_nil_r.
  split; simpl; rewrite ?Hq, ?Hsl, ?Hu, ?Hp, ?Hact.
  - split; rewrite ?Hh; try (intros; set_solver).
    + intros gid ([k x] & -> & Hin%elem_of_map_to_list)%list_elem_of_fmap.
      destruct (Ha _ _ Hin) as (g & Hg & _). by eexists.
    + apply NoDup_fmap_2_strong; [|apply NoDup_map_to_list].
      intros [k x] [k' x'] Hin%elem_of_map_to_list Hin'%elem_of_map_to_list. simpl. intros <-.
      f_equal. by eapply Hi.
    + apply NoDup_fst_map_to_list.
  - unfold disk_slots_inv. rewrite Hh. simpl. by rewrite app_nil_r.
  - split; simpl; [apply queue_wf_init| |set_solver|].
    + intros k. rewrite lookup_empty. by intros [? ?].
    + assert (queued queue_init (down s') = ∅) as ->; [|done].
      apply map_eq. intros k. rewrite queued_lookup, decide_False; [done|set_solver].
  - split; simpl; [intros; set_solver|]. intros k gid g Hk. destruct (Ha _ _ Hk) as (g' & -> & Hz).
    by intros [= <-].
  - intros id op. by rewrite lookup_empty.
Qed.

(** Adoption visits the records in any order. *)
Lemma wp_adopt_disk_slots rs s : rs ≡ₚ map_to_list (s_records s) → recovered_disk s →
  wp (adopt_disk_slots E rs)
    (λ _ s', dinv E hand0 s' ∧ down s' = down s ∧ s_g3res s' = s_g3res s ∧
       g3_free (s_g3 s') ++ slots_at (s_g3res s) (map_to_list (down s)) ≡ₚ seqZ 0 (total_slots E))
    (λ e s', s' = s ∧ bad_recovery e) s.
Proof.
  intros Hrs Hrec. pose proof (rv_alloc _ Hrec) as Ha. unfold adopt_disk_slots. apply wp_bind.
  pose proof (map_to_list_omap b_g3 (s_records s)) as Hperm. fold (down s) in Hperm.
  rewrite <- Hrs in Hperm. change (omap _ rs) with (disk_of rs) in Hperm.
  assert (∀ x gid, x ∈ rs → b_g3 x.2 = Some gid → is_Some (s_g3res s !! gid)) as Hres.
  { intros [k b] gid Hin Hb. rewrite Hrs in Hin. apply elem_of_map_to_list in Hin. destruct (Ha k gid) as (g & Hg & _); [|by eexists].
    unfold down. by rewrite lookup_omap, Hin. }
  apply (wp_fold_each _ _ _ (λ occupied rest s', s' = s ∧
    Forall (λ x, ∀ gid, b_g3 x.2 = Some gid → is_Some (s_g3res s !! gid)) rest ∧
    ∃ l, l ++ slots_at (s_g3res s) (disk_of rest) = slots_at (s_g3res s) (disk_of rs) ∧
      occupies occupied l)).
  - split_and!; [done|by apply list.Forall_forall; intros ????; eapply Hres|]. exists [].
    split; [done|]. split_and!; [constructor|set_solver|constructor].
  - intros occupied x rest s' (-> & Hall & l & Hl & Ho). apply Forall_cons in Hall as [Hx Hall].
    eapply wp_mono; [by apply wp_adopt_one| |done]. intros occupied' s' [-> Ho']. split_and!; [done|done|].
    eexists. split; [|exact Ho']. rewrite <- Hl, <- app_assoc. f_equal. rewrite <- slots_at_app.
    f_equal. unfold disk_of. by rewrite <- omap_app.
  - intros occupied s' (-> & _ & l & Hl & Ho). unfold upd_g3. wp. simpl.
    simpl in Hl. rewrite app_nil_r in Hl. subst l. apply occupies_free in Ho. rewrite <- Hperm in Ho.
    split_and!; [by apply recovered_dinv|done|done|done].
Qed.

(** Adopting the disk slots of recovered records either leaves every slot of the files free or in
    exactly one recovered block, in a state the tier can go on from, or refuses them and changes
    nothing. *)
Theorem adopt_disk_slots_exact s : recovered_disk s →
  wp (adopt_disk_slots E (map_to_list (s_records s)))
    (λ _ s', dinv E hand0 s' ∧ down s' = down s ∧ s_g3res s' = s_g3res s ∧
       g3_free (s_g3 s') ++ slots_at (s_g3res s) (map_to_list (down s)) ≡ₚ seqZ 0 (total_slots E))
    (λ e s', s' = s ∧ bad_recovery e) s.
Proof. by apply wp_adopt_disk_slots. Qed.
End Adoption.

(** ** Witnesses: a core with two files of two slots each *)

#[export] Instance idle_friendly E : DiskFriendly E (mret tt) (λ _ _, mret tt).
Proof. split; intros; apply preserves_ret. Qed.
(** Waiters that themselves evict to disk are as good. *)
#[export] Instance evicting_friendly E regions failure meta decision deadline :
  DiskFriendly E (resolve_eviction E (mret tt) regions failure meta LOCAL_G2 decision deadline ;; mret tt)
    (λ _ _, mret tt).
Proof.
  split; [|intros; apply preserves_ret]. intros h. apply preserves_bind; [|intros _; apply preserves_ret].
  apply (friendly_resolve_eviction E (mret tt) (λ _ _, mret tt)).
Qed.

Module DiskDemo.
Definition config : G3Config := mkG3Config ["/a"; "/b"] 40 "POSIX".
Definition env : Env := {|
  env_clock := λ _, fzero; env_policy := G3FIFOPolicy; env_moves := {[ (LOCAL_G2, G3) ]}; env_agent := "w0"; env_backend := "POSIX";
  env_framework_control := true; env_pool_layouts := [("a", 16%Z)];
  env_regions := list_to_map demo_regions; env_sink := None; env_capacity_callback := false;
  env_watermarks := ∅; env_has_g3 := true; env_g3_slot_size := 16; env_g3_fds := [7; 8]%Z;
  env_g3_bytes_per_file := 32; env_g3_preflight := None; env_operation_timeout_ms := 1000;
  env_abandon_timeout_ms := 3000 |}.
Definition regions : RegionMaps :=
  ([("f", mkRegion "DRAM" 0 8192 0 4 16 "f")], [("a", mkRegion "DRAM" 0 4096 0 2 16 "a")]).
Definition opened : St :=
  set_s_g3 (match disk_init 16 config 16 with Ret (_, g) => g | Raise _ => mkG3State [] queue_init 0 ∅ ∅ ∅ end)
    (initial_state (pools_state demo_regions)).
Definition with_block : St := (store_ready env "k1" ["a"] opened).2.
Definition meta : BlockMeta := block_meta "k1" empty_record 16.
Definition deadline : float := f_of_Z_inf 10.
Definition storing : St :=
  (resolve_eviction env (mret tt) regions (λ _, None) meta LOCAL_G2 (MOVE_TO, Some G3) deadline with_block).2.
(** The item NIXL's completion hands back. *)
Definition completed (id : OpId) (s : St) : G3Item :=
  mkG3Item (default (mkG3TransferOp 0 id KFill [] [] [] fzero [] [] [] None None) (g3_active (s_g3 s) !! id))
    false None true.
Definition store_id : OpId := ("g3_store", ArgKey "k1").
Definition stored : St := (poll_item env (mret tt) (λ _ _, mret tt) (completed store_id storing) storing).2.
Definition f_ref : TransferRef :=
  {| tr_end_point := "w0"; tr_element_index := 1; tr_label := "a"; tr_framework := false |}.
Definition delivering : St :=
  (start_read env regions (λ _, None) KDeliver 5 [("k1", [f_ref])] deadline stored).2.

(** The completion is that of the submitted object. *)
Lemma completed_same id s : is_Some (g3_active (s_g3 s) !! id) →
  (∀ op, g3_active (s_g3 s) !! id = Some op → go_op_id op = id) → same_object (completed id s) s.
Proof.
  intros [op Hop] Hid op' Hop' _. unfold completed in *. simpl in *. rewrite Hop in *. simpl in *.
  rewrite (Hid op eq_refl) in Hop'. rewrite Hop in Hop'. by injection Hop'.
Qed.
Lemma opened_fresh : fresh_disk env 16 config opened.
Proof. split; reflexivity. Qed.
Lemma runs : rtc (disk_step env (mret tt) (λ _ _, mret tt) regions (λ _, None)) opened delivering.
Proof.
  eapply rtc_l; [apply (ds_rest _ _ _ _ _ opened with_block); split; vm_compute; reflexivity|].
  eapply rtc_l; [apply (ds_resolve _ _ _ _ _ meta LOCAL_G2 (MOVE_TO, Some G3) deadline with_block)|].
  eapply rtc_l.
  { apply (ds_poll _ _ _ _ _ (completed store_id storing) storing), completed_same.
    - vm_compute. by eexists.
    - intros op. vm_compute. by intros [= <-]. }
  eapply rtc_l; [|apply rtc_refl].
  by apply (ds_read _ _ _ _ _ KDeliver 5 [("k1", [f_ref])] deadline stored).
Qed.
(** A recovered core: one block in two slots, which the second free list must not offer. *)
Definition recovered : St :=
  let s := initial_state (pools_state demo_regions) in
  set_s_records {[ "k9" := set_b_g3 (Some 0) empty_record ]}
    (set_s_g3res {[ 0 := mkG3Residency ["a"] [2%Z] 0 ]} (set_s_next_g3 1 s)).
Lemma recovered_ok : recovered_disk recovered.
Proof.
  assert (down recovered = {[ "k9" := 0 ]}) as Hd by (vm_compute; reflexivity).
  split; rewrite ?Hd; try done.
  - intros key gid [<- <-]%lookup_singleton_Some. by eexists.
  - intros k k' gid [<- <-]%lookup_singleton_Some [<- _]%lookup_singleton_Some. done.
  - intros gid Hle. simpl in *. rewrite lookup_singleton_ne; [done|lia].
Qed.
End DiskDemo.

Lemma disk_slots_never_shared_witness :
  g3_free (s_g3 DiskDemo.delivering) = [1; 2; 3]%Z ∧
  down DiskDemo.delivering = {[ "k1" := 0 ]} ∧
  (∀ op_id op, g3_active (s_g3 DiskDemo.delivering) !! op_id = Some op →
     ∀ key gid, (key, gid) ∈ go_claims op → down DiskDemo.delivering !! key = Some gid).
Proof.
  split; [vm_compute; reflexivity|]. split; [vm_compute; reflexivity|].
  intros op_id op Hop.
  exact (proj2 (proj2 (proj2 (disk_slots_never_shared DiskDemo.env (mret tt) (λ _ _, mret tt) DiskDemo.regions
    (λ _, None) 16 DiskDemo.config DiskDemo.opened DiskDemo.delivering DiskDemo.opened_fresh DiskDemo.runs))
    op_id op Hop)).
Defined.

Lemma file_ranges_disjoint_witness :
  file_descriptor DiskDemo.env 1 = mkMemDescriptor "FILE" 0 16 8 ∧
  (let d := file_descriptor DiskDemo.env 0 in let d' := file_descriptor DiskDemo.env 2 in
   md_device d ≠ md_device d' ∨ md_addr d + md_size d <= md_addr d' ∨ md_addr d' + md_size d' <= md_addr d)%Z.
Proof.
  split; [vm_compute; reflexivity|].
  refine (proj2 (file_ranges_disjoint DiskDemo.env 16 DiskDemo.config (s_g3 DiskDemo.opened) 32 0 2 _ _ _ _ _ _ _));
    try reflexivity.
  - repeat constructor; set_solver.
  - apply elem_of_seqZ. vm_compute. split; [by intros|done].
  - apply elem_of_seqZ. vm_compute. split; [by intros|done].
  - done.
Defined.

Lemma adopt_disk_slots_exact_witness :
  (adopt_disk_slots DiskDemo.env (map_to_list (s_records DiskDemo.recovered)) DiskDemo.recovered).1 = Ret tt ∧
  wp (adopt_disk_slots DiskDemo.env (map_to_list (s_records DiskDemo.recovered)))
    (λ _ s', dinv DiskDemo.env hand0 s' ∧ down s' = down DiskDemo.recovered ∧
       s_g3res s' = s_g3res DiskDemo.recovered ∧
       g3_free (s_g3 s') ++ slots_at (s_g3res DiskDemo.recovered) (map_to_list (down DiskDemo.recovered)) ≡ₚ
         seqZ 0 (total_slots DiskDemo.env))
    (λ e s', s' = DiskDemo.recovered ∧ bad_recovery e) DiskDemo.recovered.
Proof.
  split; [vm_compute; reflexivity|].
  exact (adopt_disk_slots_exact DiskDemo.env DiskDemo.recovered DiskDemo.recovered_ok).
Defined.
