(* ===== verification/ProgressOp.v ===== *)
(** * Transfers under way

    [_G3TransferOp.progress] of [src/src/kvcr/backends/local_disk.py] and
    [_LocalCopyOp.progress] of [backends/local_dram.py] watch a native transfer in the same
    way and differ in what they report.  This file has the shared turn, what an operation
    may report over its life, and that every sequence of turns keeps to it. *)

From Stdlib Require Import ZArith Lia.
From S2P Require Import Prelude PyFloat Types Layout State CoreBase Transfer TransferThm Disk.

(** A transfer under way: the thread's table, the operation's fields, what it has reported,
    and whether it was taken off the list. *)
Record Attempt {Out : Type} := mkAttempt {
  at_prog : Prog;
  at_run : OpRun;
  at_out : list Out;
  at_done : bool }.
Arguments Attempt : clear implicits.
Arguments mkAttempt {_} _ _ _ _.

Definition fresh_ids (p : Prog) : Prop :=
  ∀ id, is_Some (g_transfers p !! id) → (id <= g_next_transfer_id p)%Z.

(** A submission either leaves the thread as it was, or owns a transfer under a new identity. *)
Lemma submission local remote agent created post p :
  (∃ e, submit_transfer local remote agent created post p = (Raise e, p)) ∨
  ∃ handle posted p', submit_transfer local remote agent created post p =
      (Ret (g_next_transfer_id p + 1, posted)%Z, p') ∧
    submit_handle (Some handle) agent post p = (Ret (g_next_transfer_id p + 1, posted)%Z, p').
Proof.
  unfold submit_transfer. destruct (_ || _); [left; by eexists|].
  case_decide; [left; by eexists|]. unfold mbind, M_bind.
  match goal with |- context [match ?m p with _ => _ end] => assert (∃ r, m p = (r, p)) as [r Hr] end.
  { destruct (_ || _); unfold lift, get, mret, M_ret.
    - destruct (make_transfer_descriptors local); [|by eexists].
      destruct (make_transfer_descriptors remote); by eexists.
    - destruct (indices_of "" local p); [|by eexists]. destruct (indices_of agent remote p); by eexists. }
  rewrite Hr. destruct r as [u|e]; [|left; by eexists]. unfold lift.
  destruct created as [[handle|]|e]; [|left; by eexists|left; by eexists].
  right. exists handle. destruct (submit_handle (Some handle) agent post p) as [r p'] eqn:Hs.
  destruct r as [[id ok]|e].
  - destruct (submit_cases _ _ _ _ _ _ _ Hs) as [-> _]. by exists ok, p'.
  - exfalso. revert Hs. unfold submit_handle, upd_transfer, note_disconnect, gets, modify, mret, M_ret, mbind, M_bind.
    by destruct post as [| | | | |[]].
Qed.

(** ** Steps

    A turn of the operation, the rest of the thread running in between, and [close]. *)
Inductive op_step {Out} (progress : Turn → OpRun → M Prog (OpRun * list Out * bool * bool))
    : Attempt Out → Attempt Out → Prop :=
  | os_turn t p o out o' outs finished work p' :
      progress t o p = (Ret (o', outs, finished, work), p') →
      op_step progress (mkAttempt p o out false) (mkAttempt p' o' (out ++ outs) finished)
  | os_rest p p' o out finished :
      (∀ id, or_transfer_id o = Some id → g_transfers p' !! id = g_transfers p !! id) →
      (g_next_transfer_id p <= g_next_transfer_id p')%Z → fresh_ids p' →
      op_step progress (mkAttempt p o out finished) (mkAttempt p' o out finished)
  | os_close p o out :
      op_step progress (mkAttempt p o out false) (mkAttempt p (close_run o).1 out false).

(** A turn without what it says about its work. *)
Definition without_work {Out} (m : M Prog (OpRun * list Out * bool * bool))
    : M Prog (OpRun * list Out * bool) := x ← m; mret x.1.
Lemma without_work_ret {Out} (m : M Prog (OpRun * list Out * bool * bool)) p x p' :
  without_work m p = (Ret x, p') ↔ ∃ work, m p = (Ret (x, work), p').
Proof.
  unfold without_work, mbind, M_bind. destruct (m p) as [[[y w]|e] q]; simpl; split.
  - intros [= <- <-]. by exists w.
  - by intros [work [= <- <- <-]].
  - done.
  - by intros [work ?].
Qed.

(** ** The shared turn *)

Section Turns.
Context {Out : Type}.
(** The deadlines, what [_report_memory] appends or raises, the copy of the operation a
    report carries, and the transfer. *)
Context (deadline : float) (abandon : option float).
Context (report : bool → result Out) (item : OpRun → Out).
Context (src dst : Descs) (nixl_agent_name : string).

Definition watch_run (t : Turn) (transfer_id : Z) (o : OpRun) : M Prog (OpRun * list Out * bool) :=
  let late := negb (or_failure_latched o) && fgeb (t_poll_at t) deadline in
  let o := if late then mkOpRun (or_transfer_id o) true (or_uncertain o) (or_success o) else o in
  result ← poll_transfer transfer_id true (t_answer t) (t_released t);
  match result with
  | None =>
      if or_failure_latched o && negb (or_uncertain o) &&
         match abandon with None => false | Some d => fgeb (t_abandon_at t) d end
      then
        let o := mkOpRun (or_transfer_id o) (or_failure_latched o) true (or_success o) in
        memory ← lift (report false);
        mret (o, [memory; item o], false)
      else mret (o, [], false)
  | Some completed =>
      let o := mkOpRun None (or_failure_latched o) (or_uncertain o)
                 (completed && negb (or_failure_latched o)) in
      if or_uncertain o then memory ← lift (report true); mret (o, [memory], true)
      else mret (o, [], true)
  end.

Definition run_turn (t : Turn) (o : OpRun) : M Prog (OpRun * list Out * bool) :=
  match or_transfer_id o with
  | Some transfer_id => watch_run t transfer_id o
  | None =>
      if fgeb (t_submit_at t) deadline then mret (o, [], true)
      else
        submitted ← try_except
          (x ← submit_transfer src dst nixl_agent_name (t_created t) (t_post t); mret (Some x))
          (λ _, mret None);
        match submitted with
        | None => mret (o, [], true)
        | Some (transfer_id, posted) =>
            watch_run t transfer_id
              (mkOpRun (Some transfer_id) (negb posted) (or_uncertain o) (or_success o))
        end
  end.

(** ** What is reported *)

(** An operation that became uncertain has reported its memory and itself, and its memory
    once more when it ended. *)
Definition told (memory : bool → Out) (uncertain done : bool) (out : list Out) : Prop :=
  if uncertain then ∃ o, or_uncertain o = true ∧ is_Some (or_transfer_id o) ∧
    or_success o = false ∧
    out = [memory false; item o] ++ (if done then [memory true] else [])
  else out = [].
Definition told_opt (memory : option (bool → Out)) (uncertain done : bool) (out : list Out) : Prop :=
  match memory with
  | Some memory => told memory uncertain done out
  | None => uncertain = false ∧ out = []
  end.

(** An operation with an abandon deadline can report its memory. *)
Context (memory : option (bool → Out)).
Context (Hmemory : ∀ f b, memory = Some f → report b = Ret (f b)).
Context (Habandon : abandon ≠ None → memory ≠ None).

Record attempt_inv (a : Attempt Out) : Prop := {
  av_fresh : fresh_ids (at_prog a);
  av_owned : ∀ id, or_transfer_id (at_run a) = Some id → is_Some (g_transfers (at_prog a) !! id);
  av_done : at_done a = true → or_transfer_id (at_run a) = None;
  av_success : or_success (at_run a) = true →
    at_done a = true ∧ or_failure_latched (at_run a) = false;
  av_uncertain : or_uncertain (at_run a) = true →
    or_failure_latched (at_run a) = true ∧ (at_done a = false → is_Some (or_transfer_id (at_run a)));
  av_out : told_opt memory (or_uncertain (at_run a)) (at_done a) (at_out a) }.

(** The turns of an operation, whatever it says about its work. *)
Context (progress : Turn → OpRun → M Prog (OpRun * list Out * bool * bool)).
Context (Hturns : ∀ t o p, without_work (progress t o) p = run_turn t o p).

(** A turn that owns a transfer. *)
Lemma watch_turn t p o out id : fresh_ids p → is_Some (g_transfers p !! id) →
  or_transfer_id o = Some id → or_success o = false →
  (or_uncertain o = true → or_failure_latched o = true) →
  told_opt memory (or_uncertain o) false out →
  ∃ o' outs finished p', watch_run t id o p = (Ret (o', outs, finished), p') ∧
    attempt_inv (mkAttempt p' o' (out ++ outs) finished) ∧
    (finished = true → g_transfers p' !! id = None) ∧
    (or_success o' = true → or_failure_latched o = false).
Proof.
  intros Hf [x Hx] Hid Hsuc Hunc Hout. unfold watch_run.
  set (late := negb (or_failure_latched o) && fgeb (t_poll_at t) deadline).
  set (o1 := if late then _ else o).
  assert (or_transfer_id o1 = Some id ∧ or_success o1 = false ∧ or_uncertain o1 = or_uncertain o ∧
    (or_failure_latched o = true → or_failure_latched o1 = true) ∧
    (or_failure_latched o1 = false → or_failure_latched o = false)) as (Hid1 & Hs1 & Hu1 & Hl1 & Hl1').
  { unfold o1. destruct late eqn:Hlate; simpl; [|done]. unfold late in Hlate.
    apply andb_true_iff in Hlate as [Hlt%negb_true_iff _]. done. }
  clearbody o1 late. unfold mbind, M_bind.
  destruct (poll_transfer id true (t_answer t) (t_released t) p) as [r p'] eqn:Hpoll.
  destruct (poll_cases _ _ _ _ _ _ _ Hpoll) as [Hn Hc]. rewrite Hx in Hc.
  destruct Hc as [(b & -> & _ & Htr & _)|(-> & outcome & Htr & _)].
  - assert (fresh_ids p') as Hf'.
    { intros k Hk. rewrite Hn. apply Hf. rewrite Htr in Hk. destruct Hk as [y [_ Hy]%lookup_delete_Some].
      by eexists. }
    destruct (or_uncertain o1) eqn:Hu; simpl.
    + symmetry in Hu1. rewrite Hu1 in Hout. unfold told_opt in Hout.
      destruct memory as [f|] eqn:Hm; [|by destruct Hout].
      rewrite (Hmemory f true eq_refl). unfold lift, mret, M_ret. do 4 eexists. split; [done|].
      destruct Hout as (o2 & H1 & H2 & H3 & ->).
      split; [split; simpl; try done|].
      * rewrite (Hl1 (Hunc Hu1)), andb_false_r. done.
      * intros _. split; [auto|done].
      * rewrite Hm. by exists o2.
      * split; [intros _; by rewrite Htr, lookup_delete_eq|].
        intros [_ Hlt%negb_true_iff]%andb_true_iff. auto.
    + do 4 eexists. split; [done|]. rewrite app_nil_r. split; [split; simpl; try done|].
      * by intros [_ Hlt%negb_true_iff]%andb_true_iff.
      * rewrite <- Hu1 in Hout. unfold told_opt in *. by destruct memory.
      * split; [intros _; by rewrite Htr, lookup_delete_eq|].
        intros [_ Hlt%negb_true_iff]%andb_true_iff. auto.
  - assert (fresh_ids p' ∧ is_Some (g_transfers p' !! id)) as [Hf' Ho'].
    { rewrite Htr. split; [|rewrite lookup_alter_eq, Hx; by eexists]. intros k. rewrite Hn, Htr, lookup_alter.
      case_decide; [subst; rewrite fmap_is_Some|]; apply Hf. }
    destruct (or_failure_latched o1 && negb (or_uncertain o1) && _) eqn:Hab.
    + rewrite !andb_true_iff, negb_true_iff in Hab. destruct Hab as [[Hlt Hu] Hd].
      rewrite <- Hu1, Hu in Hout. unfold told_opt in Hout.
      destruct memory as [f|] eqn:Hm; [|destruct abandon; [by destruct Habandon|done]].
      simpl in Hout. subst out. rewrite (Hmemory f false eq_refl). unfold lift, mret, M_ret.
      do 4 eexists. split; [done|]. split; [split; simpl; try done|].
      * by rewrite Hid1; intros ? [= <-].
      * by rewrite Hs1.
      * rewrite Hm. eexists. split_and!; [..|reflexivity]; simpl; [done| |done]. rewrite Hid1. by eexists.
      * split; [done|]. by rewrite Hs1.
    + do 4 eexists. split; [done|]. rewrite app_nil_r. split; [split; simpl; try done|].
      * by rewrite Hid1; intros ? [= <-].
      * by rewrite Hs1.
      * intros Hu. split; [rewrite Hu1 in Hu; auto|]. intros _. by eexists.
      * by rewrite Hu1.
      * split; [done|]. by rewrite Hs1.
Qed.

(** Every turn returns, and keeps the invariant. *)
Lemma progress_turn t p o out : attempt_inv (mkAttempt p o out false) →
  ∃ o' outs finished work p', progress t o p = (Ret (o', outs, finished, work), p') ∧
    attempt_inv (mkAttempt p' o' (out ++ outs) finished) ∧
    (finished = true → ∀ id, or_transfer_id o = Some id → g_transfers p' !! id = None).
Proof.
  intros Ha. cut (∃ o' outs finished p', run_turn t o p = (Ret (o', outs, finished), p') ∧
    attempt_inv (mkAttempt p' o' (out ++ outs) finished) ∧
    (finished = true → ∀ id, or_transfer_id o = Some id → g_transfers p' !! id = None)).
  { intros (o' & outs & finished & p' & Hr & Hrest). rewrite <- Hturns in Hr.
    apply without_work_ret in Hr as [work Hr]. by exists o', outs, finished, work, p'. }
  destruct Ha as [Hf Ho _ Hs Hu Hout]. simpl in *.
  assert (or_success o = false) as Hs'.
  { destruct (or_success o); [|done]. by destruct (Hs eq_refl). }
  assert (or_uncertain o = true → or_failure_latched o = true) as Hu' by (intros H; by apply Hu).
  unfold run_turn. destruct (or_transfer_id o) as [id|] eqn:Hid.
  { destruct (watch_turn t p o out id Hf (Ho _ eq_refl) Hid Hs' Hu' Hout)
      as (o' & outs & finished & p' & Hw & Hi & Hg & _).
    do 4 eexists. split; [exact Hw|]. split; [done|]. intros Hfin ? [= <-]. auto. }
  assert (or_uncertain o = false) as Hun.
  { destruct (or_uncertain o); [|done]. destruct (Hu eq_refl) as [_ H]. by destruct (H eq_refl). }
  rewrite Hun in Hout.
  assert (∀ fin, attempt_inv (mkAttempt p o (out ++ []) fin)) as Hstop.
  { intros fin. rewrite app_nil_r. split; simpl; rewrite ?Hid, ?Hs', ?Hun; done. }
  destruct (fgeb _ _); [do 4 eexists; split; [done|]; split; [apply Hstop|done]|].
  unfold mbind, M_bind, try_except.
  destruct (submission src dst nixl_agent_name
    (t_created t) (t_post t) p) as [[e ->]|(handle & posted & p1 & -> & Hsub)]; simpl.
  { do 4 eexists. split; [done|]. split; [apply Hstop|done]. }
  destruct (submit_cases _ _ _ _ _ _ _ Hsub) as (_ & Hn & outcome & Htr & _).
  destruct (watch_turn t p1 (mkOpRun (Some (g_next_transfer_id p + 1)%Z) (negb posted) (or_uncertain o)
    (or_success o)) out (g_next_transfer_id p + 1)%Z) as (o' & outs & finished & p' & Hw & Hi & _ & _);
    simpl; rewrite ?Hun; try done.
  - intros k. rewrite Htr, Hn, lookup_insert. case_decide; [intros _; lia|]. intros Hk.
    specialize (Hf k Hk). lia.
  - rewrite Htr, lookup_insert_eq. by eexists.
  - rewrite Hun in Hw. do 4 eexists. split; [exact Hw|]. done.
Qed.

Lemma run_step_inv a a' : attempt_inv a → op_step progress a a' → attempt_inv a'.
Proof.
  intros Ha Hs. destruct Hs as [t p o out o' outs finished work p' Hp|p p' o out finished Hsame Hn Hf|p o out].
  - destruct (progress_turn t p o out Ha) as (? & ? & ? & ? & ? & Hp' & Hi & _).
    rewrite Hp in Hp'. by injection Hp' as <- <- <- <- <-.
  - destruct Ha as [_ Ho Hd Hsuc Hu Hout]. split; try done. simpl in *. intros id Hid.
    rewrite (Hsame id Hid). by apply Ho.
  - destruct Ha as [Hf Ho Hd Hsuc Hu Hout]. split; try done. simpl in *.
    intros Hunc. split; [done|]. by apply Hu.
Qed.

Definition started_at (p : Prog) : Attempt Out := mkAttempt p run_init [] false.
Lemma run_steps_inv p0 a : fresh_ids p0 → rtc (op_step progress) (started_at p0) a → attempt_inv a.
Proof.
  intros Hf. apply (rtc_ind_r attempt_inv).
  - split; simpl; try done. unfold told_opt. by destruct memory.
  - intros x y _ Hxy Hx. by eapply run_step_inv.
Qed.

(** What an observer may conclude from an operation's life. *)
Lemma run_life p0 a : fresh_ids p0 → rtc (op_step progress) (started_at p0) a →
  (or_success (at_run a) = true → at_done a = true ∧ or_failure_latched (at_run a) = false ∧
     or_uncertain (at_run a) = false) ∧
  told_opt memory (or_uncertain (at_run a)) (at_done a) (at_out a) ∧
  (at_done a = false → ∀ t, ∃ o' outs finished work p',
     progress t (at_run a) (at_prog a) = (Ret (o', outs, finished, work), p') ∧
     (finished = true → or_transfer_id o' = None ∧
        ∀ id, or_transfer_id (at_run a) = Some id → g_transfers p' !! id = None)).
Proof.
  intros Hf Hr. pose proof (run_steps_inv p0 a Hf Hr) as Ha. split_and!.
  - intros Hsuc. destruct (av_success _ Ha Hsuc) as [Hd Hl]. split_and!; [done..|].
    destruct (or_uncertain (at_run a)) eqn:Hu; [|done].
    destruct (av_uncertain _ Ha Hu) as [Hl' _]. congruence.
  - apply (av_out _ Ha).
  - intros Hd t. destruct a as [p o out d]. simpl in *. subst d.
    destruct (progress_turn t p o out Ha) as (o' & outs & finished & work & p' & Hp & Hi & Hg).
    do 5 eexists. split; [exact Hp|]. intros Hfin. split; [|by apply Hg].
    by apply (av_done _ Hi).
Qed.
End Turns.
