(* ===== verification/DiskLife.v ===== *)
(** * The life of a file transfer

    [_G3TransferOp.progress] turn by turn, whatever NIXL answers and the clock reads, with
    the rest of the progress thread running in between: what is reported, when, and that no
    transfer outlives its operation. *)

From Stdlib Require Import ZArith Lia.
From S2P Require Import Prelude PyFloat Types Layout State CoreBase Transfer TransferThm Disk ProgressOp.

Section Life.
Context (nixl_agent_name : string) (op : G3TransferOp).

Definition attempt_step : Attempt G3Out → Attempt G3Out → Prop :=
  op_step (progress nixl_agent_name op).

(** What a delivery that became uncertain has reported. *)
Definition regions_of : list MemoryRef :=
  (λ ref, {| end_point_name := tr_end_point ref; ref_label := tr_label ref;
             element_index := tr_element_index ref |}) <$> go_memory_refs op.
Definition reports (uncertain done : bool) (handle : Z) (out : list G3Out) : Prop :=
  if uncertain then ∃ item, gi_op item = op ∧ gi_uncertain item = true ∧
    is_Some (gi_transfer_id item) ∧ gi_success item = false ∧
    out = [OutMemory handle false regions_of; OutItem item] ++
          (if done then [OutMemory handle true regions_of] else [])
  else out = [].

(** The operation takes the shared turns. *)
Definition memory : option (bool → G3Out) :=
  (λ handle quiesced, OutMemory handle quiesced regions_of) <$> go_lifecycle_handle op.
Lemma report_memory_said f b : memory = Some f → report_memory op b = Ret (f b).
Proof.
  unfold memory, report_memory. destruct (go_lifecycle_handle op); [|done]. by intros [= <-].
Qed.
Notation turn_of := (run_turn (go_deadline op) (go_abandon_deadline op) (report_memory op)
  (λ o, OutItem (item_of op o)) (DMems (go_memory_descriptors op)) (DMems (go_file_descriptors op))
  nixl_agent_name).
Lemma watch_turns t id o w p : without_work (watch op t id o w) p =
  watch_run (go_deadline op) (go_abandon_deadline op) (report_memory op)
    (λ o, OutItem (item_of op o)) t id o p.
Proof.
  unfold without_work, watch, watch_run, mbind, M_bind.
  destruct (poll_transfer _ _ _ _ p) as [[[completed|]|e] p']; [| |done].
  - simpl. destruct (or_uncertain _); [|done]. unfold lift. by destruct (report_memory op true).
  - destruct (_ && _ && _); [|done]. unfold lift. by destruct (report_memory op false).
Qed.
Lemma progress_turns t o p : without_work (progress nixl_agent_name op t o) p = turn_of t o p.
Proof.
  unfold progress, run_turn. destruct (or_transfer_id o) as [id|]; [apply watch_turns|].
  destruct (fgeb _ _); [done|]. unfold without_work. unfold mbind at 1 2 4, M_bind at 1 2 4.
  destruct (try_except _ _ p) as [[[[id posted]|]|e] p1]; [|done|done]. apply watch_turns.
Qed.
Context (Habandon : go_abandon_deadline op = None ↔ go_lifecycle_handle op = None).

(** C32: Whatever NIXL answers and whenever the deadlines pass, a file transfer reports consistently:
    a turn never fails; when it ends NIXL holds no transfer of it any more; it succeeds only if
    no failure was latched before; and a delivery that runs past its abandon deadline is
    reported uncertain exactly once, its later end as quiesced exactly once, and never as a
    success. *)
Theorem file_transfer_reports_once p0 a : fresh_ids p0 →
  rtc attempt_step (mkAttempt p0 run_init [] false) a →
  (or_success (at_run a) = true → at_done a = true ∧ or_failure_latched (at_run a) = false ∧
     or_uncertain (at_run a) = false) ∧
  match go_lifecycle_handle op with
  | Some handle => reports (or_uncertain (at_run a)) (at_done a) handle (at_out a)
  | None => at_out a = []
  end ∧
  (at_done a = false → ∀ t, ∃ o' outs finished work p',
     progress nixl_agent_name op t (at_run a) (at_prog a) = (Ret (o', outs, finished, work), p') ∧
     (finished = true → or_transfer_id o' = None ∧
        ∀ id, or_transfer_id (at_run a) = Some id → g_transfers p' !! id = None)).
Proof.
  intros Hf Hr.
  destruct (run_life (go_deadline op) (go_abandon_deadline op) (report_memory op)
    (λ o, OutItem (item_of op o)) (DMems (go_memory_descriptors op)) (DMems (go_file_descriptors op))
    nixl_agent_name memory report_memory_said)
   
    with (progress := progress nixl_agent_name op) (p0 := p0) (a := a) as (Hsuc & Hout & Hturn).
  - intros Ha Hm. apply Ha, Habandon. unfold memory in Hm. by destruct (go_lifecycle_handle op).
  - exact progress_turns.
  - done.
  - exact Hr.
  - split; [done|]. split.
    + unfold told_opt, memory in Hout. destruct (go_lifecycle_handle op) as [handle|]; simpl in Hout; [|by destruct Hout].
      unfold reports, told in *. destruct (or_uncertain (at_run a)); [|done].
      destruct Hout as (o & H1 & H2 & H3 & ->). by exists (item_of op o).
    + exact Hturn.
Qed.
End Life.

(** ** Witness: a delivery that outlives both deadlines *)

Module LifeDemo.
Definition op : G3TransferOp :=
  mkG3TransferOp 0 ("g3_deliver", ArgInt 5) KDeliver ["k"] [mkMemDescriptor "DRAM" 4096 16 0]
    [mkMemDescriptor "FILE" 0 16 7] (f_of_Z_inf 10) [] [("k", 0)]
    [{| tr_end_point := "w0"; tr_element_index := 1; tr_label := "a"; tr_framework := true |}]
    (Some (-1)%Z) (Some (f_of_Z_inf 12)).
Definition start : Prog := mkProg ∅ ∅ ∅ ∅ 0.
Definition at_clock (n : Z) (answer : XferAnswer) : Turn :=
  mkTurn (f_of_Z_inf n) (f_of_Z_inf n) (f_of_Z_inf n) (Ret (Some 3%Z)) XProc answer true.
(** One turn, keeping the operation as it was if the turn failed. *)
Definition turn (t : Turn) (a : Attempt G3Out) : Attempt G3Out :=
  match progress "w0" op t (at_run a) (at_prog a) with
  | (Ret (o, outs, finished, _), p) => mkAttempt p o (at_out a ++ outs) finished
  | (Raise _, p) => mkAttempt p (at_run a) (at_out a) (at_done a)
  end.
Definition first : Attempt G3Out := turn (at_clock 1 XProc) (mkAttempt start run_init [] false).
Definition late : Attempt G3Out := turn (at_clock 11 XProc) first.
Definition abandoned : Attempt G3Out := turn (at_clock 13 XProc) late.
Definition ended : Attempt G3Out := turn (at_clock 20 XDone) abandoned.
Lemma turn_step t a : at_done a = false → is_ret (progress "w0" op t (at_run a) (at_prog a)).1 = true →
  attempt_step "w0" op a (turn t a).
Proof.
  destruct a as [p o out d]. unfold turn. simpl. intros ->.
  destruct (progress "w0" op t o p) as [[[[[o' outs] fin] w]|e] p'] eqn:Hp; [|done].
  intros _. by eapply os_turn.
Qed.
Lemma delivery_runs : rtc (attempt_step "w0" op) (mkAttempt start run_init [] false) ended.
Proof.
  eapply rtc_l; [by apply (turn_step (at_clock 1 XProc)); vm_compute|].
  eapply rtc_l; [by apply (turn_step (at_clock 11 XProc)); vm_compute|].
  eapply rtc_l; [by apply (turn_step (at_clock 13 XProc)); vm_compute|].
  eapply rtc_l; [by apply (turn_step (at_clock 20 XDone)); vm_compute|]. apply rtc_refl.
Qed.
End LifeDemo.

Lemma file_transfer_reports_once_witness :
  at_done LifeDemo.ended = true ∧ or_success (at_run LifeDemo.ended) = false ∧
  length (at_out LifeDemo.abandoned) = 2 ∧ length (at_out LifeDemo.ended) = 3 ∧
  reports LifeDemo.op true true (-1) (at_out LifeDemo.ended).
Proof.
  split_and!; [vm_compute; reflexivity..|].
  refine (proj1 (proj2 (file_transfer_reports_once "w0" LifeDemo.op _ LifeDemo.start LifeDemo.ended _ LifeDemo.delivery_runs))).
  - by split.
  - intros id [x Hx]. simpl in Hx. by rewrite lookup_empty in Hx.
Defined.
