(* ===== verification/LocalDram.v ===== *)
(** * Requests to local DRAM

    [_LocalDram] of [src/src/kvcr/backends/local_dram.py]: deposits, fetches and
    deliveries, the copies they submit and the completions that settle them, and the queue
    of requests waiting for capacity.  Operations refer to each other as objects do, by a
    reference into the store of [DramState]. *)

From Stdlib Require Import ZArith Lia.
From S2P Require Import Prelude PyFloat Types PolicyRuntime Layout State CoreBase Pools Transfer Disk.

(** [_SUCCESS_RESULT], [_FAILED_RESULT] and [_DROPPED_RESULT] of progress.py. *)
Definition plain_result (st : OpEntryStatus) : OpEntryResult :=
  {| status := st; descriptors := None; release_handle := None |}.

(** ** Dictionaries in insertion order *)

Definition dict_set {K A} `{EqDecision K} (k : K) (a : A) (l : list (K * A)) : list (K * A) :=
  if decide (k ∈ l.*1) then (λ x, if decide (x.1 = k) then (k, a) else x) <$> l
  else l ++ [(k, a)].
Definition dict_get {K A} `{EqDecision K} (k : K) (l : list (K * A)) : option A :=
  snd <$> (list_find (λ x, x.1 = k) l ≫= λ x, Some x.2).
Definition dict_pop {K A} `{EqDecision K} (k : K) (l : list (K * A)) : list (K * A) :=
  filter (λ x, x.1 ≠ k) l.
(** [setdefault(k, []).append(a)] *)
Definition dict_append {K A} `{EqDecision K} (k : K) (a : A) (l : list (K * list A))
    : list (K * list A) := dict_set k (default [] (dict_get k l) ++ [a]) l.

(** ** Operation objects *)

Definition get_rop (ref : nat) : M St ResidencyOp := λ s,
  match d_rops (s_dram s) !! ref with
  | Some o => (Ret o, s)
  | None => (Raise (KeyError "operation"), s)
  end.
Definition get_dop (ref : nat) : M St DeliverOp := λ s,
  match d_dops (s_dram s) !! ref with
  | Some o => (Ret o, s)
  | None => (Raise (KeyError "operation"), s)
  end.
Definition upd_dram (f : DramState → DramState) : M St unit :=
  modify (λ s, set_s_dram (f (s_dram s)) s).
Definition upd_rop (ref : nat) (f : ResidencyOp → ResidencyOp) : M St unit :=
  upd_dram (λ d, set_d_rops (alter f ref (d_rops d)) d).
Definition upd_dop (ref : nat) (f : DeliverOp → DeliverOp) : M St unit :=
  upd_dram (λ d, set_d_dops (alter f ref (d_dops d)) d).
(** A new object, entered in its table of pending operations. *)
Definition new_rop (o : ResidencyOp) : M St nat := λ s,
  let d := s_dram s in
  let ref := d_next_op d in
  (Ret ref, set_s_dram (set_d_next_op (S ref) (set_d_rops (<[ref := o]> (d_rops d))
     (set_d_pending_rops (dict_set (ro_op_id o) ref (d_pending_rops d)) d))) s).
Definition new_dop (o : DeliverOp) : M St nat := λ s,
  let d := s_dram s in
  let ref := d_next_op d in
  (Ret ref, set_s_dram (set_d_next_op (S ref) (set_d_dops (<[ref := o]> (d_dops d))
     (set_d_pending_dops (dict_set (do_op_id o) ref (d_pending_dops d)) d))) s).

(** [op.results[key] = result] *)
Definition set_result (ref : nat) (key : BlockKey) (result : OpEntryResult) : M St unit :=
  upd_rop ref (λ o, set_ro_results (<[key := result]> (ro_results o)) o).
Definition set_delivered (ref : nat) (key : BlockKey) (result : OpEntryResult) : M St unit :=
  upd_dop ref (λ o, set_do_results (<[key := result]> (do_results o)) o).

(** ** Fill bookkeeping of a residency *)

Definition r_set_pending (p : option (gset label)) (r : Residency) : Residency :=
  r_set_fill p (r_pending_deposits r) (r_writers r) (r_remote_indices r) (r_remote_cancelled r) r.
Definition r_set_deposits (n : Z) (r : Residency) : Residency :=
  r_set_fill (r_pending_labels r) n (r_writers r) (r_remote_indices r) (r_remote_cancelled r) r.
Definition r_set_writers (w : option (list Z)) (r : Residency) : Residency :=
  r_set_fill (r_pending_labels r) (r_pending_deposits r) w (r_remote_indices r) (r_remote_cancelled r) r.
Definition r_set_remote (i : option (list nat)) (cancelled : bool) (r : Residency) : Residency :=
  r_set_fill (r_pending_labels r) (r_pending_deposits r) (r_writers r) i cancelled r.

(** [writers[index] += 1] for each index. *)
Definition add_writers (indices : list nat) (r : Residency) : Residency :=
  r_set_writers ((λ w, foldl (λ w i, alter (λ n, n + 1)%Z i w) w indices) <$> r_writers r) r.
(** One [writers[index] -= 1] with its check. *)
Definition drop_writer (rid : nat) (i : nat) : M St unit :=
  r ← get_res rid;
  match r_writers r ≫= λ w, w !! i with
  | None => raise (TypeError "NoneType is not subscriptable")
  | Some n =>
      upd_res rid (λ r, r_set_writers (alter (λ n, n - 1)%Z i <$> r_writers r) r) ;;
      if decide (n - 1 < 0)%Z then raise (RuntimeError "local DRAM writer ownership lost")
      else mret tt
  end.
(** The indices whose piece is still pending. *)
Definition piece_pending (r : Residency) (i : nat) : bool :=
  match r_slots r !! i with
  | Some (l, _) => bool_decide (l ∈ default ∅ (r_pending_labels r))
  | None => false
  end.
Definition pending_indices (r : Residency) (indices : list nat) : list nat :=
  filter (λ i, piece_pending r i = true) indices.
(** [writers[index]] *)
Definition writers_at (r : Residency) (i : nat) : Z :=
  default 0%Z (r_writers r ≫= λ w, w !! i).
Definition slots_at (r : Residency) (indices : list nat) : list (label * Z) :=
  omap (λ i, r_slots r !! i) indices.

Notation blocks := (list (BlockKey * list TransferRef)) (only parsing).

(** What one pass over the keys of a request gathers for its copy. *)
Record Batch := mkBatch {
  bt_keys : list BlockKey;
  bt_indices : list (list nat);
  bt_src : list TransferRef;
  bt_dst : list TransferRef;
  bt_evicted : list BlockKey }.
Definition batch0 : Batch := mkBatch [] [] [] [] [].
Definition bt_add (key : BlockKey) (indices : list nat) (src dst : list TransferRef)
    (b : Batch) : Batch :=
  mkBatch (bt_keys b ++ [key]) (bt_indices b ++ [indices]) (bt_src b ++ src) (bt_dst b ++ dst)
    (bt_evicted b).
Definition bt_evict (keys : list BlockKey) (b : Batch) : Batch :=
  mkBatch (bt_keys b) (bt_indices b) (bt_src b) (bt_dst b) (bt_evicted b ++ keys).

(** A copy the progress thread hands back: its operation and the fields of the object then. *)
Record CopyItem := mkCopyItem {
  ci_op : LocalCopyOp;
  ci_transfer_id : option Z;
  ci_success : bool }.

(** The local variables of [_apply_fill_result]. *)
Record Settled := mkSettled {
  sd_offset : nat;
  sd_committed : list BlockKey;
  sd_failed : list BlockKey;
  sd_rops : list (OpId * nat);
  sd_queued : list (OpId * list BlockKey);
  sd_dops : list (OpId * nat);
  sd_deliver : list (OpId * list BlockKey) }.
Definition settled0 : Settled := mkSettled 0 [] [] [] [] [] [].

Section LocalDram.
Context (E : Env).
(** The core's eviction decision and [_start_local_fill], the recursive call of
    [_resume_capacity_waiters], and what [raise_if_failed] of the progress thread finds. *)
Context (decide_eviction : BlockMeta → CacheTier → float → M St (PlacementDecision * bool)).
Context (start_local_fill : CacheTier → blocks → option string → float → M St unit).
Context (resume_capacity_waiters : M St unit).
Context (progress_failure : St → option exn).

Notation release_claim := (release_claim E resume_capacity_waiters).
Notation release_sources := (release_sources E resume_capacity_waiters).
Notation drain_source_completions := (drain_source_completions E resume_capacity_waiters).
Notation update_capacity_pressure := (update_capacity_pressure E).

(** [sum(self._pools._regions[label.partition(":")[0]][2] for label in layout)] *)
Fixpoint region_bytes (layout : list label) : result Z :=
  match layout with
  | [] => Ret 0%Z
  | l :: layout =>
      match env_regions E !! pool_of l with
      | None => Raise (KeyError (pool_of l))
      | Some (_, _, size) => rest ← region_bytes layout; mret (size + rest)%Z
      end
  end.

(** [self._kvcr._clock() + operation_timeout_ms / 1000] *)
Definition operation_deadline : M St float :=
  now ← clock E;
  mret (fadd now (fdiv (f_of_Z_inf (env_operation_timeout_ms E)) (f_of_Z_inf 1000))).

(** [_progress.submit(_LocalCopyOp(...))] under the next fill handle. *)
Definition submit_copy (deliver_op_id : option OpId) (b : Batch) (deadline : float)
    (deposit_op : option nat) : M St unit :=
  handle ← gets s_next_fill_handle;
  let op := mkLocalCopyOp ("local_copy", ArgInt handle) deliver_op_id (bt_keys b) (bt_indices b)
    (bt_src b) (bt_dst b) deadline (abandon_at E deadline) (env_backend E) deposit_op in
  failure ← gets progress_failure;
  match failure with
  | Some e => raise e
  | None =>
      modify (λ s, set_s_submitted (s_submitted s ++ [SubmitCopy op]) s) ;;
      modify (set_s_next_fill_handle (handle - 1)%Z)
  end.

(** ** Completing operations *)

(** [_complete(cast(OpHandle, op.op_id[1]), op.results)] *)
Definition complete_op (op_id : OpId) (results : gmap BlockKey OpEntryResult) : M St unit :=
  match op_id.2 with
  | ArgInt handle => complete handle results
  | ArgKey _ => raise (TypeError "operation handle expected")
  end.

Definition finish_residency_if_ready (ref : nat) : M St unit :=
  o ← get_rop ref;
  pending ← gets (λ s, dict_get (ro_op_id o) (d_pending_rops (s_dram s)));
  if decide (size (ro_results o) ≠ size (ro_keys o) ∨ pending ≠ Some ref) then mret tt
  else
    (if decide ((ro_op_id o).1 = "fetch") then
       let succeeded : gset BlockKey :=
         dom (filter (λ kr : BlockKey * OpEntryResult, entry_success kr.2 = true) (ro_results o)) in
       modify (λ s, set_s_remote_delivery_keys
         (alter (λ keys, keys ∖ succeeded) (ro_request_id o) (s_remote_delivery_keys s)) s)
     else mret tt) ;;
    upd_rop ref (set_ro_capacity_waiters ∅) ;;
    upd_dram (λ d, set_d_pending_rops (dict_pop (ro_op_id o) (d_pending_rops d)) d) ;;
    upd_rop ref (set_ro_claimed_keys ∅) ;;
    (if decide (ro_claimed_keys o = ∅) then mret tt
     else release_sources (elements (ro_claimed_keys o))) ;;
    remove_block_dependencies (ro_op_id o) (elements (ro_keys o)) ;;
    o ← get_rop ref;
    complete_op (ro_op_id o) (ro_results o).

Definition finish_deliver_if_ready (ref : nat) : M St unit :=
  o ← get_dop ref;
  if decide (size (do_results o) ≠ size (do_keys o)) then mret tt
  else
    release_sources (elements (do_claimed_keys o ∖ do_active_keys o)) ;;
    upd_dop ref (set_do_claimed_keys ∅) ;;
    pending ← gets (λ s, dict_get (do_op_id o) (d_pending_dops (s_dram s)));
    match pending with
    | None => raise (KeyError "operation")
    | Some _ =>
        upd_dram (λ d, set_d_pending_dops (dict_pop (do_op_id o) (d_pending_dops d)) d) ;;
        remove_block_dependencies (do_op_id o) (elements (do_keys o)) ;;
        o ← get_dop ref;
        complete_op (do_op_id o) (do_results o)
    end.

(** ** Capacity waiters *)

Definition enqueue_capacity_waiter (ref : nat) (key : BlockKey) : M St unit :=
  o ← get_rop ref;
  if decide (key ∈ ro_capacity_waiters o)
  then raise (RuntimeError "duplicate local capacity waiter")
  else
    upd_dram (λ d, set_d_waiters (d_waiters d ++ [(ref, key)]) d) ;;
    upd_rop ref (λ o, set_ro_capacity_waiters ({[ key ]} ∪ ro_capacity_waiters o) o).

(** What an allocation that found no room leads to. *)
Definition wait_or_fail (ref : nat) (key : BlockKey) (waiting : bool) : M St unit :=
  if waiting then enqueue_capacity_waiter ref key
  else set_result ref key (plain_result FAILED).

(** ** Deposits *)

(** A new residency for a key: [_mark_source_pending] and the record's reference. *)
Definition install_residency (key : BlockKey) (r : Residency) : M St nat :=
  rid ← alloc_res r;
  mark_source_pending E key ;;
  upd_record key (set_b_local_dram (Some rid)) ;;
  mret rid.

(** The residency one key is deposited into and whether the deposit is all of it, or
    nothing when the key's result is decided or it waits for capacity. *)
Definition deposit_target (ref : nat) (key : BlockKey) (layout : list label)
    : M St (list BlockKey * option (nat * bool)) :=
  o ← get_rop ref;
  b ← block_record key;
  match b_local_dram b with
  | Some rid =>
      r ← get_res rid;
      if decide (r_state r = DISCARDING ∨ r_retire_on_release r = true ∨
                 (ro_key_layout o ≠ None ∧ ro_key_layout o ≠ Some (r_key_layout r)))
      then set_result ref key (plain_result FAILED) ;; mret ([], None)
      else mret ([], Some (rid, false))
  | None =>
      let declaration := match ro_key_layout o with Some ((_ :: _) as l) => l | _ => layout end in
      let local_layout := default layout (ro_key_layout o) in
      size_bytes ← lift (region_bytes local_layout);
      decision ← policy_decide_ingest E (block_meta key b size_bytes) FW_G2 (ro_claim_on_ready o);
      if decide (decision.1 = DROP)
      then set_result ref key (plain_result DROPPED) ;; mret ([], None)
      else
        '(locations, evicted, eviction_pending) ←
          allocate_slots E decide_eviction local_layout (ro_keys o) (ro_deadline o);
        match locations with
        | None => wait_or_fail ref key eviction_pending ;; mret (evicted, None)
        | Some locations =>
            let full_deposit := bool_decide (layout = local_layout) in
            rid ← install_residency key (new_residency locations FILLING (Some declaration)
                    (Some (replicate (length locations) (if full_deposit then 1 else 0)%Z)));
            mret (evicted, Some (rid, full_deposit))
        end
  end.

(** The deposit holds a claim and its copy will write these pieces. *)
Definition begin_copy (ref : nat) (key : BlockKey) (rid : nat) (indices : list nat)
    (src : list TransferRef) (slots : list (label * Z)) (b : Batch) : M St Batch :=
  upd_res rid (λ r, r_set_deposits (r_pending_deposits r + 1)
    (r_set_claims (r_claim_count r + 1) r))%Z ;;
  upd_rop ref (λ o, set_ro_active_keys ({[ key ]} ∪ ro_active_keys o) o) ;;
  mret (bt_add key indices src (descriptors_of E slots) b).

(** The pieces of an existing residency that still need a copy. *)
Definition deposit_pieces (ref : nat) (key : BlockKey) (rid : nat) (sources : list TransferRef)
    (b : Batch) : M St Batch :=
  upd_res rid prepare_label_index ;;
  r ← get_res rid;
  match layout_indices (r_layout r) (tr_label <$> sources) (r_indices_by_label r) with
  | None => set_result ref key (plain_result FAILED) ;; mret b
  | Some indices =>
      let selected := pending_indices r indices in
      if decide (selected = []) then
        o ← get_rop ref;
        result ← (if ro_claim_on_ready o then new_public_claim E key rid None
                  else mret (plain_result SUCCESS));
        set_result ref key result ;; mret b
      else
        match r_writers r with
        | None => raise (TypeError "NoneType is not subscriptable")
        | Some _ =>
            if decide (Forall (λ i, writers_at r i ≠ 0%Z) selected) then mret b
            else
              remove_evictable key rid ;;
              upd_res rid (add_writers selected) ;;
              let src := omap (λ '(source, i),
                if decide (i ∈ selected) then Some source else None) (zip sources indices) in
              begin_copy ref key rid selected src (slots_at r selected) b
        end
  end.

Definition deposit_one (ref : nat) (b : Batch) (key : BlockKey) : M St Batch :=
  o ← get_rop ref;
  if decide (is_Some (ro_results o !! key) ∨ key ∈ ro_capacity_waiters o ∨ key ∈ ro_active_keys o)
  then mret b
  else
    now ← clock E;
    if fgeb now (ro_deadline o) then set_result ref key (plain_result FAILED) ;; mret b
    else
      match ro_sources o ≫= dict_get key with
      | None => raise (KeyError key)
      | Some sources =>
          '(evicted, target) ← deposit_target ref key (tr_label <$> sources);
          let b := bt_evict evicted b in
          match target with
          | None => mret b
          | Some (rid, true) =>
              r ← get_res rid;
              begin_copy ref key rid (seq 0 (length (r_slots r))) sources (r_slots r) b
          | Some (rid, false) => deposit_pieces ref key rid sources b
          end
      end.

Definition start_deposits (ref : nat) (keys : list BlockKey) : M St unit :=
  o ← get_rop ref;
  if decide (ro_sources o = None) then raise (RuntimeError "deposit has no source descriptors")
  else
    b ← fold_each (deposit_one ref) batch0 keys;
    update_capacity_pressure ;;
    publish_inventory E (bt_evicted b) LOCAL_G2 true ;;
    finish_residency_if_ready ref ;;
    if decide (bt_keys b = []) then mret tt
    else submit_copy None b (ro_deadline o) (Some ref).

Definition deposit (op_handle : Z) (blocks : blocks) (no_evict : bool)
    (key_layout : option (list label)) : M St unit :=
  if decide (blocks = []) then complete op_handle ∅
  else
    deadline ← operation_deadline;
    let keys : gset BlockKey := list_to_set blocks.*1 in
    let op_id : OpId := ("deposit", ArgInt op_handle) in
    ref ← new_rop (mkResidencyOp op_id keys deadline no_evict None ∅ ∅ ∅ (Some blocks) ∅
                     [] key_layout ∅ ∅);
    add_block_dependencies op_id (elements keys) ;;
    start_deposits ref blocks.*1.

(** ** Fetches *)

(** [_reserve_fill]: whether slots were reserved, and whether to wait for them. *)
Definition reserve_fill (ref : nat) (key : BlockKey) (source : CacheTier) : M St (bool * bool) :=
  o ← get_rop ref;
  b ← block_record key;
  size_bytes ← lift (region_bytes (ro_requested_layout o));
  decision ← policy_decide_ingest E (block_meta key b size_bytes) source true;
  if decide (decision.1 = DROP) then mret (false, false)
  else
    '(locations, evicted, waiting) ←
      allocate_slots E decide_eviction (ro_requested_layout o) (ro_keys o) (ro_deadline o);
    (match locations with
     | None => mret tt
     | Some locations =>
         install_residency key (new_residency locations FILLING (ro_key_layout o) None) ;; mret tt
     end) ;;
    update_capacity_pressure ;;
    publish_inventory E evicted LOCAL_G2 true ;;
    mret (bool_decide (is_Some locations), waiting).

(** The pieces of a present residency: claim them, or wait for the ones still pending and
    ask for a fill of those nobody writes. *)
Definition fetch_pieces (ref : nat) (key : BlockKey) (rid : nat) (source : option CacheTier)
    : M St (option (list TransferRef)) :=
  upd_res rid prepare_label_index ;;
  o ← get_rop ref;
  r ← get_res rid;
  match layout_indices (r_layout r) (ro_requested_layout o) (r_indices_by_label r) with
  | None => set_result ref key (plain_result FAILED) ;; mret None
  | Some indices =>
      if negb (pending_overlaps r (ro_requested_layout o)) then
        record_access E [key] ;;
        result ← new_public_claim E key rid (Some (slots_at r indices));
        set_result ref key result ;; mret None
      else
        (if decide (key ∈ ro_claimed_keys o) then mret tt
         else
           acquire_claim key rid ;;
           upd_rop ref (λ o, set_ro_claimed_keys ({[ key ]} ∪ ro_claimed_keys o) o)) ;;
        if decide (source = None ∨ r_remote_indices r ≠ None) then mret None
        else if decide (r_writers r = None ∧ pending_indices r indices ≠ [])
        then raise (TypeError "NoneType is not subscriptable")
        else
          let missing := filter (λ i, writers_at r i = 0%Z) (pending_indices r indices) in
          if decide (missing = []) then mret None
          else
            remove_evictable key rid ;;
            upd_res rid (λ r, r_set_remote (Some missing) (r_remote_cancelled r) (add_writers missing r)) ;;
            upd_res rid (λ r, r_set_claims (r_claim_count r + 1)%Z r) ;;
            upd_rop ref (λ o, set_ro_remote_fill_keys ({[ key ]} ∪ ro_remote_fill_keys o) o) ;;
            mret (Some (descriptors_of E (slots_at r missing)))
  end.

Definition prepare_fetch (ref : nat) (key : BlockKey) : M St (option (list TransferRef)) :=
  o ← get_rop ref;
  b ← block_record key;
  let source := ro_fill_sources o !! key in
  now ← clock E;
  if fgeb now (ro_deadline o) then set_result ref key (plain_result FAILED) ;; mret None
  else
    match b_local_dram b with
    | Some rid =>
        r ← get_res rid;
        if decide (r_state r = DISCARDING) then
          wait_or_fail ref key (bool_decide (source ≠ None)) ;; mret None
        else if decide (ro_key_layout o ≠ None ∧ ro_key_layout o ≠ Some (r_key_layout r))
        then set_result ref key (plain_result FAILED) ;; mret None
        else fetch_pieces ref key rid source
    | None =>
        match source with
        | None => set_result ref key (plain_result FAILED) ;; mret None
        | Some tier =>
            '(reserved, waiting) ← reserve_fill ref key tier;
            if negb reserved then wait_or_fail ref key waiting ;; mret None
            else
              b ← block_record key;
              match b_local_dram b with
              | None => raise (TypeError "NoneType has no prepare_label_index")
              | Some rid => fetch_pieces ref key rid source
              end
        end
    end.

(** [fetch]: the destinations to fill, by key. *)
Definition fetch (op_handle : Z) (keys : list BlockKey) (sources : gmap BlockKey CacheTier)
    (request_id : option string) (deadline : float) (layout : list label)
    (key_layout : option (list label)) : M St blocks :=
  let ordered_keys := first_occurrences [] keys in
  if decide (ordered_keys = []) then complete op_handle ∅ ;; mret []
  else
    let op_id : OpId := ("fetch", ArgInt op_handle) in
    let set : gset BlockKey := list_to_set ordered_keys in
    ref ← new_rop (mkResidencyOp op_id set deadline true request_id ∅ ∅ ∅ None ∅ layout
                     key_layout sources ∅);
    add_block_dependencies op_id (elements set) ;;
    destinations ← fold_each (λ acc key,
      refs ← prepare_fetch ref key;
      match refs with
      | Some ((_ :: _) as refs) => mret (acc ++ [(key, refs)])
      | _ => mret acc
      end) [] ordered_keys;
    finish_residency_if_ready ref ;;
    mret destinations.

Definition resolve_fetch_waiter (ref : nat) (key : BlockKey) : M St bool :=
  refs ← prepare_fetch ref key;
  o ← get_rop ref;
  (match refs with
   | Some ((_ :: _) as refs) =>
       match ro_fill_sources o !! key with
       | None => raise (KeyError key)
       | Some source => start_local_fill source [(key, refs)] (ro_request_id o) (ro_deadline o)
       end
   | _ => mret tt
   end) ;;
  o ← get_rop ref;
  mret (bool_decide (is_Some (ro_results o !! key))).

(** ** Deliveries *)

Definition deliver_one (ref : nat) (now : float) (b : Batch) (key : BlockKey) : M St Batch :=
  o ← get_dop ref;
  if decide (is_Some (do_results o !! key) ∨ key ∈ do_active_keys o) then mret b
  else
    record ← find_record key;
    match record ≫= b_local_dram with
    | None => set_delivered ref key (plain_result FAILED) ;; mret b
    | Some rid =>
        r ← get_res rid;
        if bool_decide (r_state r = DISCARDING) || fgeb now (do_deadline o)
        then set_delivered ref key (plain_result FAILED) ;; mret b
        else
          match dict_get key (do_destinations o) with
          | None => raise (KeyError key)
          | Some destinations =>
              let labels := tr_label <$> destinations in
              upd_res rid prepare_label_index ;;
              r ← get_res rid;
              let indices := ready_indices r labels in
              if bool_decide (indices = None) && negb (can_wait_for_pieces r labels)
              then set_delivered ref key (plain_result FAILED) ;; mret b
              else
                (if decide (key ∈ do_claimed_keys o) then mret tt
                 else
                   acquire_claim key rid ;;
                   upd_dop ref (λ o, set_do_claimed_keys ({[ key ]} ∪ do_claimed_keys o) o)) ;;
                match indices with
                | None => mret b
                | Some indices =>
                    upd_dop ref (λ o, set_do_active_keys ({[ key ]} ∪ do_active_keys o) o) ;;
                    src ← source_refs E rid indices;
                    mret (mkBatch (bt_keys b ++ [key]) (bt_indices b) (bt_src b ++ src)
                            (bt_dst b ++ destinations) (bt_evicted b))
                end
          end
    end.

Definition start_deliveries (ref : nat) (keys : list BlockKey) : M St unit :=
  now ← clock E;
  o ← get_dop ref;
  b ← fold_each (deliver_one ref now) batch0 keys;
  update_capacity_pressure ;;
  (if decide (bt_keys b = []) then mret tt
   else submit_copy (Some (do_op_id o)) b (do_deadline o) None) ;;
  finish_deliver_if_ready ref.

Definition deliver (op_handle : Z) (blocks : blocks) (deadline : float) : M St unit :=
  let op_id : OpId := ("local_deliver", ArgInt op_handle) in
  let keys : gset BlockKey := list_to_set blocks.*1 in
  ref ← new_dop (mkDeliverOp op_id keys deadline blocks ∅ ∅ ∅);
  add_block_dependencies op_id (elements keys) ;;
  start_deliveries ref blocks.*1.

(** One key of [_finish_delivery_copy]. *)
Definition finish_delivered_key (op : option nat) (success : bool) (key : BlockKey) : M St unit :=
  record ← find_record key;
  claimed ← match op with
            | None => mret true
            | Some ref => o ← get_dop ref; mret (bool_decide (key ∈ do_claimed_keys o))
            end;
  match record ≫= b_local_dram with
  | None => raise (RuntimeError "local DRAM delivery state lost")
  | Some rid =>
      r ← get_res rid;
      if decide (claimed = false ∨ r_state r ≠ READY)
      then raise (RuntimeError "local DRAM delivery state lost")
      else
        (if (success : bool) then record_access E [key] else mret tt) ;;
        release_claim key rid ;;
        match op with
        | None => mret tt
        | Some ref =>
            o ← get_dop ref;
            if decide (key ∉ do_claimed_keys o) then raise (KeyError key)
            else
              upd_dop ref (λ o, set_do_active_keys (do_active_keys o ∖ {[ key ]})
                (set_do_claimed_keys (do_claimed_keys o ∖ {[ key ]}) o)) ;;
              set_delivered ref key (plain_result (if success then SUCCESS else FAILED))
        end
  end.

Definition finish_delivery_copy (op_id : OpId) (item : CopyItem) : M St unit :=
  op ← gets (λ s, dict_get op_id (d_pending_dops (s_dram s)));
  for_each (lc_ordered_keys (ci_op item)) (finish_delivered_key op (ci_success item)) ;;
  update_capacity_pressure ;;
  match op with None => mret tt | Some ref => finish_deliver_if_ready ref end.

(** ** Settling copies and fills *)

(** The commit of one key whose copy succeeded: some pieces became readable.  The answer
    is whether all of them are. *)
Definition commit_pieces (key : BlockKey) (rid : nat) (indices : list nat) (now : float)
    (source : CacheTier) (copied : option (list TransferRef)) : M St bool :=
  r ← get_res rid;
  let was_ready := bool_decide (r_state r = READY) in
  let pending := default ∅ (r_pending_labels r) in
  let written : gset label := list_to_set (layout_of (slots_at r indices)) in
  let rest := if decide (length indices = length (r_slots r)) then ∅ else pending ∖ written in
  if decide (pending = ∅) then mret false
  else
    upd_res rid (r_set_pending (Some rest)) ;;
    if decide (size rest = size pending) then mret false
    else
      upd_res rid (r_set_state READY) ;;
      upd_res rid prepare_label_index ;;
      let refs := if decide (indices = seq 0 (length (r_slots r))) then copied else None in
      publish_source E key rid refs ;;
      upd_record key (set_b_last_access (Some now)) ;;
      b ← find_record key;
      match b with
      | None => raise (KeyError key)
      | Some b =>
          (if was_ready then mret tt
           else on_ingest (block_meta key b (residency_size E r)) source) ;;
          if decide (rest = ∅) then observe_residency key b ;; mret true else mret false
      end.

(** The writer's own result, or the end of the remote fill for the fetches that asked. *)
Definition settle_writer (ref : nat) (key : BlockKey) (rid : nat) (key_success : bool)
    (sd : Settled) : M St Settled :=
  o ← get_rop ref;
  if decide (is_Some (ro_results o !! key)) then mret sd
  else
    result ← (if key_success && ro_claim_on_ready o then new_public_claim E key rid None
              else mret (plain_result (if key_success then SUCCESS else FAILED)));
    set_result ref key result ;;
    mret (mkSettled (sd_offset sd) (sd_committed sd) (sd_failed sd)
            (dict_set (ro_op_id o) ref (sd_rops sd)) (sd_queued sd) (sd_dops sd) (sd_deliver sd)).

Definition active_ops (key : BlockKey) : M St (list OpId) :=
  b ← find_record key; mret (match b with None => [] | Some b => active_op_ids b end).
Definition find_rop (op_id : OpId) : M St (option nat) :=
  gets (λ s, dict_get op_id (d_pending_rops (s_dram s))).
Definition find_dop (op_id : OpId) : M St (option nat) :=
  gets (λ s, dict_get op_id (d_pending_dops (s_dram s))).

Definition settle_fetch (key : BlockKey) (key_success : bool) (sd : Settled) (op_id : OpId)
    : M St Settled :=
  pending ← find_rop op_id;
  match pending with
  | None => mret sd
  | Some ref =>
      o ← get_rop ref;
      if decide (key ∉ ro_remote_fill_keys o) then mret sd
      else
        upd_rop ref (λ o, set_ro_remote_fill_keys (ro_remote_fill_keys o ∖ {[ key ]}) o) ;;
        if key_success then mret sd
        else
          set_result ref key (plain_result FAILED) ;;
          mret (mkSettled (sd_offset sd) (sd_committed sd) (sd_failed sd)
                  (dict_set op_id ref (sd_rops sd)) (sd_queued sd) (sd_dops sd) (sd_deliver sd))
  end.

(** An operation that waits for the key after it settled: another deposit is queued, a
    fetch or a delivery tries again. *)
Definition wake_delivery (key : BlockKey) (sd : Settled) (op_id : OpId) : M St Settled :=
  pending ← find_dop op_id;
  match pending with
  | None => mret sd
  | Some ref =>
      o ← get_dop ref;
      if decide (key ∉ do_keys o ∨ is_Some (do_results o !! key)) then mret sd
      else
        b ← find_record key;
        deliver ←
          (match b ≫= b_local_dram with
           | Some _ => mret (dict_append op_id key (sd_deliver sd))
           | None => set_delivered ref key (plain_result FAILED) ;; mret (sd_deliver sd)
           end);
        mret (mkSettled (sd_offset sd) (sd_committed sd) (sd_failed sd) (sd_rops sd)
                (sd_queued sd) (dict_set op_id ref (sd_dops sd)) deliver)
  end.
Definition wake_op (key : BlockKey) (writer : option nat) (sd : Settled) (op_id : OpId)
    : M St Settled :=
  own ← match writer with
        | None => mret false
        | Some ref => o ← get_rop ref; mret (bool_decide (ro_op_id o = op_id))
        end;
  if (own : bool) then mret sd
  else
    pending ← find_rop op_id;
    match pending with
    | None => wake_delivery key sd op_id
    | Some ref =>
        o ← get_rop ref;
        if decide (key ∉ ro_keys o ∨ is_Some (ro_results o !! key) ∨
                   key ∈ ro_capacity_waiters o ∨ key ∈ ro_active_keys o)
        then wake_delivery key sd op_id
        else if decide (ro_sources o ≠ None) then
          mret (mkSettled (sd_offset sd) (sd_committed sd) (sd_failed sd) (sd_rops sd)
                  (dict_append op_id key (sd_queued sd)) (sd_dops sd) (sd_deliver sd))
        else
          resolved ← resolve_fetch_waiter ref key;
          if negb resolved then mret sd
          else
            wake_delivery key
              (mkSettled (sd_offset sd) (sd_committed sd) (sd_failed sd)
                 (dict_set op_id ref (sd_rops sd)) (sd_queued sd) (sd_dops sd) (sd_deliver sd)) op_id
    end.

(** The end of the copy in the residency's bookkeeping. *)
Definition end_copy (rid : nat) (key : BlockKey) (indices : list nat) (writer : option nat)
    : M St unit :=
  for_each indices (drop_writer rid) ;;
  match writer with
  | Some ref =>
      o ← get_rop ref;
      if decide (key ∉ ro_active_keys o) then raise (KeyError key)
      else
        upd_rop ref (λ o, set_ro_active_keys (ro_active_keys o ∖ {[ key ]}) o) ;;
        upd_res rid (λ r, r_set_deposits (r_pending_deposits r - 1)%Z r)
  | None => upd_res rid (r_set_remote None false)
  end.

(** One key of [_apply_fill_result]. *)
Definition apply_one (success : bool) (source : CacheTier) (writer : option nat)
    (dst_descriptors : list TransferRef) (now : float) (sd : Settled)
    (entry : BlockKey * list nat) : M St Settled :=
  let '(key, indices) := entry in
  let start := sd_offset sd in
  let copied := if decide (dst_descriptors = []) then None
                else Some (take (length indices) (drop start dst_descriptors)) in
  b ← find_record key;
  match b ≫= b_local_dram with
  | None => raise (RuntimeError "local DRAM fill state lost")
  | Some rid =>
      r ← get_res rid;
      let key_success := success && bool_decide (r_state r ≠ DISCARDING) &&
        (bool_decide (writer ≠ None) || negb (r_remote_cancelled r)) in
      end_copy rid key indices writer ;;
      committed ← (if (key_success : bool) then commit_pieces key rid indices now source copied
                   else mret false);
      upd_res rid settle ;;
      let sd := mkSettled (start + length indices)
        (if (committed : bool) then sd_committed sd ++ [key] else sd_committed sd)
        (sd_failed sd) (sd_rops sd) (sd_queued sd) (sd_dops sd) (sd_deliver sd) in
      sd ← match writer with
           | Some ref => settle_writer ref key rid key_success sd
           | None => ops ← active_ops key; fold_each (settle_fetch key key_success) sd ops
           end;
      release_claim key rid ;;
      b ← find_record key;
      let sd := if decide ((b ≫= b_local_dram) = None)
                then mkSettled (sd_offset sd) (sd_committed sd) (sd_failed sd ++ [key]) (sd_rops sd)
                       (sd_queued sd) (sd_dops sd) (sd_deliver sd)
                else sd in
      ops ← active_ops key;
      fold_each (wake_op key writer) sd ops
  end.

Definition apply_fill_result (ordered_keys : list BlockKey) (local_indices : list (list nat))
    (success : bool) (source : CacheTier) (writer : option nat)
    (dst_descriptors : list TransferRef) : M St unit :=
  now ← clock E;
  sd ← fold_each (apply_one success source writer dst_descriptors now) settled0
         (zip ordered_keys local_indices);
  update_capacity_pressure ;;
  publish_inventory E (sd_committed sd) LOCAL_G2 false ;;
  for_each (sd_rops sd).*2 finish_residency_if_ready ;;
  for_each (sd_queued sd) (λ '((op_id, keys) : OpId * list BlockKey),
    pending ← find_rop op_id;
    match pending with None => mret tt | Some ref => start_deposits ref keys end) ;;
  for_each (sd_dops sd) (λ '((op_id, ref) : OpId * nat),
    start_deliveries ref (default [] (dict_get op_id (sd_deliver sd)))) ;;
  for_each (sd_failed sd) prune_block_record ;;
  resume_capacity_waiters.

(** [complete_fill]: the end of a fill from another tier. *)
Definition fill_indices (key : BlockKey) : M St (list nat) :=
  b ← find_record key;
  match b ≫= b_local_dram with
  | None => raise (RuntimeError "local DRAM fill state lost")
  | Some rid =>
      r ← get_res rid;
      match r_remote_indices r with
      | None => raise (RuntimeError "local DRAM fill state lost")
      | Some indices => mret indices
      end
  end.
Definition complete_fill (keys : list BlockKey) (success : bool) : M St unit :=
  indices ← fold_each (λ acc key, i ← fill_indices key; mret (acc ++ [i])) [] keys;
  apply_fill_result keys indices success REMOTE_G2 None [].

(** ** Discarding fills and expiring operations *)

Definition discard_residency (key : BlockKey) (rid : nat) : M St unit :=
  r ← get_res rid;
  (if decide (r_remote_indices r = None ∨ r_state r = FILLING ∧ r_pending_deposits r = 0%Z) then
     mark_source_pending E key ;; upd_res rid (r_set_state DISCARDING)
   else mret tt) ;;
  r ← get_res rid;
  if decide (r_remote_indices r = None) then mret tt
  else upd_res rid (r_set_remote (r_remote_indices r) true).

(** One operation that depends on a discarded key. *)
Definition discard_op (key : BlockKey) (rid : nat)
    (acc : list (OpId * nat) * list (OpId * nat)) (op_id : OpId)
    : M St (list (OpId * nat) * list (OpId * nat)) :=
  r ← get_res rid;
  pending ← find_rop op_id;
  rops ←
    (match pending with
     | None => mret acc.1
     | Some ref =>
         o ← get_rop ref;
         if decide (key ∈ ro_keys o ∧ ro_results o !! key = None ∧ key ∉ ro_capacity_waiters o ∧
                    (key ∈ ro_remote_fill_keys o ∨ r_state r = DISCARDING))
         then set_result ref key (plain_result FAILED) ;; mret (dict_set op_id ref acc.1)
         else mret acc.1
     end);
  pending ← find_dop op_id;
  dops ←
    (match pending with
     | None => mret acc.2
     | Some ref =>
         o ← get_dop ref;
         if decide (key ∈ do_keys o ∧ do_results o !! key = None ∧ r_state r = DISCARDING)
         then set_delivered ref key (plain_result FAILED) ;; mret (dict_set op_id ref acc.2)
         else mret acc.2
     end);
  mret (rops, dops).

Definition discard_one (acc : list (OpId * nat) * list (OpId * nat)) (key : BlockKey)
    : M St (list (OpId * nat) * list (OpId * nat)) :=
  b ← find_record key;
  match b ≫= b_local_dram with
  | None => raise (RuntimeError "local DRAM fill state lost")
  | Some rid =>
      r ← get_res rid;
      if decide (r_remote_indices r = None ∧ r_state r ≠ FILLING ∧ r_state r ≠ DISCARDING)
      then raise (RuntimeError "local DRAM fill state lost")
      else
        discard_residency key rid ;;
        ops ← active_ops key;
        fold_each (discard_op key rid) acc ops
  end.

Definition discard_fill (keys : list BlockKey) : M St unit :=
  '(rops, dops) ← fold_each discard_one ([], []) (first_occurrences [] keys);
  for_each rops.*2 finish_residency_if_ready ;;
  for_each dops.*2 finish_deliver_if_ready.

(** The keys an operation has no result for. *)
Definition waiting_keys (keys : gset BlockKey) (results : gmap BlockKey OpEntryResult)
    : gset BlockKey := keys ∖ dom results.

Definition expire_residency_op (now : float) (x : OpId * nat) : M St unit :=
  let '(op_id, ref) := x in
  pending ← find_rop op_id;
  o ← get_rop ref;
  if decide (pending = None) then mret tt
  else if negb (fgeb now (ro_deadline o)) then mret tt
  else if decide (op_id.1 = "deposit") then
    for_each (elements (waiting_keys (ro_keys o) (ro_results o))) (λ key,
      if decide (key ∈ ro_active_keys o) then mret tt
      else
        upd_rop ref (λ o, set_ro_capacity_waiters (ro_capacity_waiters o ∖ {[ key ]}) o) ;;
        set_result ref key (plain_result FAILED)) ;;
    finish_residency_if_ready ref
  else if decide (op_id.1 ≠ "fetch") then mret tt
  else
    let waiting := waiting_keys (ro_keys o) (ro_results o) in
    let remote := waiting ∩ ro_remote_fill_keys o in
    for_each (elements (waiting ∖ remote)) (λ key, set_result ref key (plain_result FAILED)) ;;
    if decide (remote = ∅) then finish_residency_if_ready ref
    else discard_fill (elements remote).

Definition expire_deliver_op (now : float) (x : OpId * nat) : M St unit :=
  let ref := x.2 in
  o ← get_dop ref;
  if negb (fgeb now (do_deadline o)) then mret tt
  else
    for_each (elements (waiting_keys (do_keys o) (do_results o) ∖ do_active_keys o))
      (λ key, set_delivered ref key (plain_result FAILED)) ;;
    finish_deliver_if_ready ref.

Definition expire_pending_ops (now : float) : M St unit :=
  rops ← gets (λ s, d_pending_rops (s_dram s));
  for_each rops (expire_residency_op now) ;;
  dops ← gets (λ s, d_pending_dops (s_dram s));
  for_each dops (expire_deliver_op now).

(** ** Completions from the progress thread *)

(** An item that still owns its transfer reports an uncertain copy: the requests fail and
    its memory stays claimed until the copy ends. *)
Definition fail_uncertain_copy (copy : LocalCopyOp) : M St unit :=
  match lc_deliver_op_id copy with
  | None =>
      match lc_deposit_op copy with
      | None => raise (TypeError "NoneType has no results")
      | Some ref =>
          for_each (lc_ordered_keys copy) (λ key, set_result ref key (plain_result FAILED)) ;;
          finish_residency_if_ready ref
      end
  | Some op_id =>
      op ← find_dop op_id;
      match op with
      | None => raise (KeyError "operation")
      | Some ref =>
          for_each (lc_ordered_keys copy) (λ key, set_delivered ref key (plain_result FAILED)) ;;
          finish_deliver_if_ready ref
      end
  end.

Definition finish_copy (item : CopyItem) : M St unit :=
  let copy := ci_op item in
  if decide (ci_transfer_id item ≠ None) then fail_uncertain_copy copy
  else
    lift (layout_bytes E (tr_label <$> lc_src_descriptors copy)) ;;
    match lc_deliver_op_id copy with
    | Some op_id => finish_delivery_copy op_id item
    | None =>
        apply_fill_result (lc_ordered_keys copy) (lc_local_indices copy) (ci_success item) FW_G2
          (lc_deposit_op copy) (if env_framework_control E then lc_dst_descriptors copy else [])
    end.

(** [poll_main]: other items are left to the caller. *)
Definition dram_poll_main {Item} (copy_item : Item → option CopyItem) (items : list Item)
    : M St (list Item) :=
  drain_source_completions ;;
  update_capacity_pressure ;;
  unhandled ← fold_each (λ unhandled item,
    match copy_item item with
    | None => mret (unhandled ++ [item])
    | Some copy => finish_copy copy ;; mret unhandled
    end) [] items;
  now ← clock E;
  expire_pending_ops now ;;
  mret unhandled.

(** ** Resuming capacity waiters *)

Definition pop_waiter (ref : nat) (key : BlockKey) : M St unit :=
  upd_dram (λ d, set_d_waiters (tail (d_waiters d)) d) ;;
  o ← get_rop ref;
  if decide (key ∉ ro_capacity_waiters o) then raise (KeyError key)
  else upd_rop ref (λ o, set_ro_capacity_waiters (ro_capacity_waiters o ∖ {[ key ]}) o).

(** The turn of one waiter: [true] when the pass goes on. *)
Definition resume_one : M St bool :=
  waiters ← gets (λ s, d_waiters (s_dram s));
  match waiters with
  | [] => raise (RuntimeError "deque index out of range")
  | (ref, key) :: rest =>
      o ← get_rop ref;
      pending ← find_rop (ro_op_id o);
      if decide (key ∉ ro_capacity_waiters o ∨ pending ≠ Some ref)
      then upd_dram (set_d_waiters rest) ;; mret true
      else if decide (is_Some (ro_results o !! key)) then pop_waiter ref key ;; mret true
      else
        now ← clock E;
        if fgeb now (ro_deadline o) then
          pop_waiter ref key ;;
          set_result ref key (plain_result FAILED) ;;
          finish_residency_if_ready ref ;; mret true
        else
          b ← block_record key;
          r ← match b_local_dram b with
              | None => mret None
              | Some rid => r ← get_res rid; mret (Some r)
              end;
          if decide (r_state <$> r = Some DISCARDING)
          then upd_dram (set_d_waiters (rest ++ [(ref, key)])) ;; mret true
          else
            pop_waiter ref key ;;
            if decide (ro_sources o ≠ None) then start_deposits ref [key] ;; mret true
            else
              resolve_fetch_waiter ref key ;;
              o ← get_rop ref;
              if decide (key ∈ ro_capacity_waiters o) then
                upd_dram (λ d, set_d_waiters
                  (match last (d_waiters d) with
                   | None => []
                   | Some w => w :: removelast (d_waiters d)
                   end) d) ;; mret false
              else finish_residency_if_ready ref ;; mret true
  end.
Fixpoint resume_pass (n : nat) : M St unit :=
  match n with
  | 0 => mret tt
  | S n => more ← resume_one; if (more : bool) then resume_pass n else mret tt
  end.

Definition resume_waiters : M St unit :=
  resuming ← gets (λ s, d_resuming (s_dram s));
  if (resuming : bool) then mret tt
  else
    upd_dram (set_d_resuming true) ;;
    try_finally
      (drain_source_completions ;;
       n ← gets (λ s, length (d_waiters (s_dram s)));
       resume_pass n)
      (upd_dram (set_d_resuming false) ;; update_capacity_pressure).
End LocalDram.

(** ** A copy in the progress thread

    [_LocalCopyOp.progress], [close] and [_report_memory], with the turns and the fields of
    the file-backed tier's operation. *)

(** A memory event of a copy (its handle, whether the memory is quiet again, the framework
    blocks it read, the memory it wrote and whether KVCR owns that) and the copy itself. *)
Inductive CopyOut :=
  | CopyMemory (handle : Z) (quiesced : bool) (source_blocks : option (list (BlockKey * list MemoryRef)))
      (destinations : list MemoryRef) (kvcr_owned : bool)
  | CopyBack (item : CopyItem).

Definition copy_item_of (copy : LocalCopyOp) (o : OpRun) : CopyItem :=
  mkCopyItem copy (or_transfer_id o) (or_success o).

Definition memory_refs (refs : list TransferRef) : list MemoryRef :=
  (λ ref, {| end_point_name := tr_end_point ref; ref_label := tr_label ref;
             element_index := tr_element_index ref |}) <$> refs.
(** [islice(sources, len(indices))] for each key. *)
Fixpoint source_blocks (keys : list BlockKey) (indices : list (list nat)) (sources : list TransferRef)
    : list (BlockKey * list MemoryRef) :=
  match keys, indices with
  | key :: keys, i :: indices =>
      (key, memory_refs (take (length i) sources)) ::
        source_blocks keys indices (drop (length i) sources)
  | _, _ => []
  end.
Definition report_copy_memory (copy : LocalCopyOp) (quiesced : bool) : result CopyOut :=
  match (lc_op_id copy).2 with
  | ArgKey _ => Raise (TypeError "operation handle expected")
  | ArgInt handle =>
      Ret (CopyMemory handle quiesced
        (match lc_deliver_op_id copy with
         | None => Some (source_blocks (lc_ordered_keys copy) (lc_local_indices copy) (lc_src_descriptors copy))
         | Some _ => None
         end)
        (memory_refs (lc_dst_descriptors copy)) (bool_decide (lc_deliver_op_id copy = None)))
  end.

Definition copy_watch (copy : LocalCopyOp) (t : Turn) (transfer_id : Z)
    (o : OpRun) (observed_work : bool) : M Prog (OpRun * list CopyOut * bool * bool) :=
  let late := negb (or_failure_latched o) && fgeb (t_poll_at t) (lc_deadline copy) in
  let o := if late then mkOpRun (or_transfer_id o) true (or_uncertain o) (or_success o) else o in
  let observed_work := observed_work || late in
  result ← poll_transfer transfer_id true (t_answer t) (t_released t);
  match result with
  | None =>
      if or_failure_latched o && negb (or_uncertain o) &&
         fgeb (t_abandon_at t) (lc_abandon_deadline copy)
      then
        let o := mkOpRun (or_transfer_id o) (or_failure_latched o) true (or_success o) in
        memory ← lift (report_copy_memory copy false);
        mret (o, [memory; CopyBack (copy_item_of copy o)], false, observed_work)
      else mret (o, [], false, observed_work)
  | Some completed =>
      let o := mkOpRun None (or_failure_latched o) (or_uncertain o)
                 (completed && negb (or_failure_latched o)) in
      if or_uncertain o
      then memory ← lift (report_copy_memory copy true); mret (o, [memory], true, true)
      else mret (o, [], true, true)
  end.
Definition copy_progress (nixl_agent_name : string) (copy : LocalCopyOp) (t : Turn) (o : OpRun)
    : M Prog (OpRun * list CopyOut * bool * bool) :=
  match or_transfer_id o with
  | Some transfer_id => copy_watch copy t transfer_id o false
  | None =>
      if fgeb (t_submit_at t) (lc_deadline copy) then mret (o, [], true, true)
      else
        submitted ← try_except
          (x ← submit_transfer (DRefs (lc_src_descriptors copy)) (DRefs (lc_dst_descriptors copy))
                 nixl_agent_name (t_created t) (t_post t); mret (Some x))
          (λ _, mret None);
        match submitted with
        | None => mret (o, [], true, true)
        | Some (transfer_id, posted) =>
            copy_watch copy t transfer_id
              (mkOpRun (Some transfer_id) (negb posted) (or_uncertain o) (or_success o)) true
        end
  end.
