(* ===== verification/CopyLife.v ===== *)
(** * The life of a copy within local DRAM

    [_LocalCopyOp.progress] turn by turn: the shared turns of ProgressOp, what a copy
    reports of the memory it reads and writes, and that it ends without a transfer. *)

From Stdlib Require Import ZArith Lia.
From S2P Require Import Prelude PyFloat Types Layout State CoreBase Transfer TransferThm Disk ProgressOp LocalDram.

(** The blocks of a report name the memory that is read, key by key. *)
Lemma source_blocks_refs keys indices sources :
  length keys = length indices → length sources = list_sum (length <$> indices) →
  (source_blocks keys indices sources).*1 = keys ∧
  (source_blocks keys indices sources) ≫= snd = memory_refs sources.
Proof.
  revert indices sources. induction keys as [|key keys IH]; intros [|i indices] sources Hk Hl; try done; csimpl in *.
  - by destruct sources.
  - destruct (IH indices (drop (length i) sources)) as [H1 H2]; [lia|rewrite length_drop; lia|].
    rewrite H1, H2. split; [done|]. unfold memory_refs. rewrite <- fmap_app. f_equal. apply take_drop.
Qed.

Section Life.
Context (nixl_agent_name : string) (copy : LocalCopyOp) (handle : Z).
Context (Hid : (lc_op_id copy).2 = ArgInt handle).

Definition copy_step : Attempt CopyOut → Attempt CopyOut → Prop :=
  op_step (copy_progress nixl_agent_name copy).

(** What a copy says of its memory: that of a deposit is the framework's and is written to
    KVCR's, that of a delivery is written to the framework's. *)
Definition copy_memory (quiesced : bool) : CopyOut :=
  CopyMemory handle quiesced
    (match lc_deliver_op_id copy with
     | None => Some (source_blocks (lc_ordered_keys copy) (lc_local_indices copy) (lc_src_descriptors copy))
     | Some _ => None
     end)
    (memory_refs (lc_dst_descriptors copy)) (bool_decide (lc_deliver_op_id copy = None)).
Definition copy_reports (uncertain done : bool) (out : list CopyOut) : Prop :=
  if uncertain then ∃ item, ci_op item = copy ∧ is_Some (ci_transfer_id item) ∧
    ci_success item = false ∧
    out = [copy_memory false; CopyBack item] ++ (if done then [copy_memory true] else [])
  else out = [].

Lemma report_copy_said b : report_copy_memory copy b = Ret (copy_memory b).
Proof. unfold report_copy_memory. by rewrite Hid. Qed.

Lemma copy_watch_turns t id o w p : without_work (copy_watch copy t id o w) p =
  watch_run (lc_deadline copy) (Some (lc_abandon_deadline copy)) (report_copy_memory copy)
    (λ o, CopyBack (copy_item_of copy o)) t id o p.
Proof.
  unfold without_work, copy_watch, watch_run, mbind, M_bind.
  destruct (poll_transfer _ _ _ _ p) as [[[completed|]|e] p']; [| |done].
  - simpl. destruct (or_uncertain _); [|done]. unfold lift. by rewrite report_copy_said.
  - destruct (_ && _ && _); [|done]. unfold lift. by rewrite report_copy_said.
Qed.
Lemma copy_turns t o p : without_work (copy_progress nixl_agent_name copy t o) p =
  run_turn (lc_deadline copy) (Some (lc_abandon_deadline copy)) (report_copy_memory copy)
    (λ o, CopyBack (copy_item_of copy o)) (DRefs (lc_src_descriptors copy))
    (DRefs (lc_dst_descriptors copy)) nixl_agent_name t o p.
Proof.
  unfold copy_progress, run_turn. destruct (or_transfer_id o) as [id|]; [apply copy_watch_turns|].
  destruct (fgeb _ _); [done|]. unfold without_work. unfold mbind at 1 2 4, M_bind at 1 2 4.
  destruct (try_except _ _ p) as [[[[id posted]|]|e] p1]; [|done|done]. apply copy_watch_turns.
Qed.

(** A copy within local DRAM never fails a turn and ends without a native transfer; it
    succeeds only if no failure was latched before; one that outlives its abandon deadline
    reports its memory uncertain and itself failed exactly once, and the memory quiet again
    exactly once, when NIXL lets go; and the blocks named in a deposit's report are the
    framework memory it reads, key by key. *)
Theorem local_copy_reports_once p0 a : fresh_ids p0 → rtc copy_step (started_at p0) a →
  length (lc_ordered_keys copy) = length (lc_local_indices copy) →
  length (lc_src_descriptors copy) = list_sum (length <$> lc_local_indices copy) →
  (or_success (at_run a) = true → at_done a = true ∧ or_failure_latched (at_run a) = false ∧
     or_uncertain (at_run a) = false) ∧
  copy_reports (or_uncertain (at_run a)) (at_done a) (at_out a) ∧
  (∀ quiesced blocks destinations owned, CopyMemory handle quiesced (Some blocks) destinations owned ∈ at_out a →
     blocks.*1 = lc_ordered_keys copy ∧ blocks ≫= snd = memory_refs (lc_src_descriptors copy)) ∧
  (at_done a = false → ∀ t, ∃ o' outs finished work p',
     copy_progress nixl_agent_name copy t (at_run a) (at_prog a) = (Ret (o', outs, finished, work), p') ∧
     (finished = true → or_transfer_id o' = None ∧
        ∀ id, or_transfer_id (at_run a) = Some id → g_transfers p' !! id = None)).
Proof.
  intros Hf Hr Hk Hl.
  destruct (run_life (lc_deadline copy) (Some (lc_abandon_deadline copy)) (report_copy_memory copy)
    (λ o, CopyBack (copy_item_of copy o)) (DRefs (lc_src_descriptors copy)) (DRefs (lc_dst_descriptors copy))
    nixl_agent_name (Some copy_memory)) with (progress := copy_progress nixl_agent_name copy)
    (p0 := p0) (a := a) as (Hsuc & Hout & Hturn); [|done|exact copy_turns|done|exact Hr|].
  { intros f b [= <-]. apply report_copy_said. }
  assert (copy_reports (or_uncertain (at_run a)) (at_done a) (at_out a)) as Hrep.
  { unfold copy_reports, told_opt, told in *. destruct (or_uncertain (at_run a)); [|done].
    destruct Hout as (o & _ & H2 & H3 & ->). by exists (copy_item_of copy o). }
  split_and!; [done..| |exact Hturn].
  intros q blocks dst owned Hin. unfold copy_reports in Hrep.
  assert (Some blocks = match lc_deliver_op_id copy with None => Some (source_blocks (lc_ordered_keys copy)
    (lc_local_indices copy) (lc_src_descriptors copy)) | Some _ => None end) as Hb.
  { destruct (or_uncertain (at_run a)); [|by rewrite Hrep in Hin; apply not_elem_of_nil in Hin].
    destruct Hrep as (item & _ & _ & _ & Heq). rewrite Heq in Hin. unfold copy_memory in Hin.
    destruct (at_done a); simpl in Hin; rewrite !list.elem_of_cons, ?list.elem_of_nil in Hin; intuition congruence. }
  destruct (lc_deliver_op_id copy); [done|]. injection Hb as ->. by apply source_blocks_refs.
Qed.
End Life.

(** ** Witness: a deposit's copy that outlives both deadlines *)

Module CopyDemo.
Definition copy : LocalCopyOp :=
  mkLocalCopyOp ("local_copy", ArgInt (-1)) None ["k1"; "k2"] [[0]; [0]]
    [Build_TransferRef "w0" 3 "a" true; Build_TransferRef "w0" 0 "a" true]
    [Build_TransferRef "w0" 1 "a:x" false; Build_TransferRef "w0" 0 "a:x" false]
    (f_of_Z_inf 10) (f_of_Z_inf 12) "POSIX" (Some 0).
Definition prepare (agent : string) : Prog → Prog := λ p,
  (prepare_memory (λ _ _, Ret (Some 1%Z)) (λ _, true) "w0" agent demo_regions None p).2.
Definition start : Prog := prepare "w0" (prepare "" (mkProg ∅ ∅ ∅ ∅ 0)).
Definition at_clock (n : Z) (answer : XferAnswer) : Turn :=
  mkTurn (f_of_Z_inf n) (f_of_Z_inf n) (f_of_Z_inf n) (Ret (Some 3%Z)) XProc answer true.
Definition turn (t : Turn) (a : Attempt CopyOut) : Attempt CopyOut :=
  match copy_progress "w0" copy t (at_run a) (at_prog a) with
  | (Ret (o, outs, finished, _), p) => mkAttempt p o (at_out a ++ outs) finished
  | (Raise _, p) => mkAttempt p (at_run a) (at_out a) (at_done a)
  end.
Definition abandoned : Attempt CopyOut :=
  turn (at_clock 13 XProc) (turn (at_clock 11 XProc) (turn (at_clock 1 XProc) (started_at start))).
Definition ended : Attempt CopyOut := turn (at_clock 20 XDone) abandoned.
Lemma copy_turn_step t a : at_done a = false → is_ret (copy_progress "w0" copy t (at_run a) (at_prog a)).1 = true →
  copy_step "w0" copy a (turn t a).
Proof.
  destruct a as [p o out d]. unfold turn. simpl. intros ->.
  destruct (copy_progress "w0" copy t o p) as [[[[[o' outs] fin] w]|e] p'] eqn:Hp; [|done].
  intros _. by eapply os_turn.
Qed.
Lemma copy_runs : rtc (copy_step "w0" copy) (started_at start) ended.
Proof.
  eapply rtc_l; [by apply (copy_turn_step (at_clock 1 XProc)); vm_compute|].
  eapply rtc_l; [by apply (copy_turn_step (at_clock 11 XProc)); vm_compute|].
  eapply rtc_l; [by apply (copy_turn_step (at_clock 13 XProc)); vm_compute|].
  eapply rtc_l; [by apply (copy_turn_step (at_clock 20 XDone)); vm_compute|]. apply rtc_refl.
Qed.
End CopyDemo.

Lemma local_copy_reports_once_witness :
  at_done CopyDemo.ended = true ∧ or_success (at_run CopyDemo.ended) = false ∧
  length (at_out CopyDemo.abandoned) = 2 ∧ length (at_out CopyDemo.ended) = 3 ∧
  copy_reports CopyDemo.copy (-1) true true (at_out CopyDemo.ended).
Proof.
  split_and!; [vm_compute; reflexivity..|].
  refine (proj1 (proj2 (local_copy_reports_once "w0" CopyDemo.copy (-1) _ CopyDemo.start CopyDemo.ended _
    CopyDemo.copy_runs _ _))); [reflexivity| |reflexivity..].
  intros id [x Hx]. vm_compute in Hx. discriminate.
Defined.
