(* ===== verification/Core.v ===== *)
(** * The core

    [_KVCRCore] of [src/src/kvcr/runtime/core.py]: the calls of the public interface, and
    the recursion between the tiers that the core ties together.  The remote tier
    ([backends/remote_fw_dram.py]) is a record of operations. *)

From Stdlib Require Import ZArith Lia.
From S2P Require Import Prelude PyFloat Types PolicyRuntime Layout State CoreBase Pools Transfer Disk LocalDram.

(** What the progress thread hands to the main thread. *)
Inductive Item := ItemG3 (g : G3Item) | ItemCopy (c : CopyItem) | ItemRemote (r : RemoteItem).
Definition g3_item (i : Item) : option G3Item := match i with ItemG3 g => Some g | _ => None end.
Definition copy_item (i : Item) : option CopyItem := match i with ItemCopy c => Some c | _ => None end.

(** The calls the core makes to [_RemoteFWDram]. *)
Record Remote := mkRemote {
  rm_query : BlockKey → option string → M St bool;
  rm_fetch : blocks → option string → float → Z → M St bool;
  rm_deliver : Z → blocks → option string → float → M St unit;
  rm_discard_hint : string → M St unit;
  (* with the core's services: resume, complete a fill, discard a fill *)
  rm_poll_main : M St unit → (list BlockKey → bool → M St unit) → (list BlockKey → M St unit) →
    list Item → M St unit;
  rm_close_main : M St unit → M St unit }.

Section Core.
Context (E : Env).
Context (regions : RegionMaps) (progress_failure : St → option exn).
Context (remote : Remote).

(** ** The recursion between the tiers

    Freed capacity resumes waiting requests, which allocate, evict and fill, which may
    free capacity again; [n] bounds the depth of that nesting. *)

Definition decide_eviction (resume : M St unit) :=
  core_decide_eviction E
    (if env_has_g3 E then Some (resolve_eviction E resume regions progress_failure) else None).

Definition start_local_fill (complete_fill : list BlockKey → bool → M St unit)
    (source : CacheTier) (blocks : blocks) (request_id : option string) (deadline : float)
    : M St unit :=
  if decide (blocks = []) then mret tt
  else
    fill_handle ← gets s_next_fill_handle;
    modify (set_s_next_fill_handle (fill_handle - 1)%Z) ;;
    started ←
      match source with
      | G3 => if env_has_g3 E
              then start_fill E regions progress_failure fill_handle blocks deadline
              else mret false
      | REMOTE_G2 => rm_fetch remote blocks request_id deadline fill_handle
      | _ => raise (ValueError "unsupported local fill source")
      end;
    if (started : bool) then mret tt else complete_fill blocks.*1 false.

Record Calls := mkCalls {
  call_resume : M St unit;
  call_fill : CacheTier → blocks → option string → float → M St unit }.
Definition no_calls : Calls :=
  mkCalls (raise (RuntimeError "out of fuel")) (λ _ _ _ _, raise (RuntimeError "out of fuel")).
Definition next_calls (c : Calls) : Calls :=
  mkCalls
    (resume_waiters E (decide_eviction (call_resume c)) (call_fill c) (call_resume c) progress_failure)
    (start_local_fill
       (complete_fill E (decide_eviction (call_resume c)) (call_fill c) (call_resume c) progress_failure)).
Fixpoint calls (n : nat) : Calls :=
  match n with 0 => no_calls | S n => next_calls (calls n) end.

Context (depth : nat).
Let resume := call_resume (calls depth).
Let fill := call_fill (calls depth).
Let evict := decide_eviction resume.

(** Whether a local DRAM tier is configured. *)
Context (local_dram : bool).

(** ** Request validation *)

(** [_validate_descriptors] *)
Fixpoint validate_refs (agent_name : string) (labels : list label) (refs : list TransferRef) : result unit :=
  match refs with
  | [] => Ret tt
  | ref :: refs =>
      region ← resolve_region ref regions agent_name;
      let '(pool, separator, part) := partition_colon (tr_label ref) in
      match assoc pool (env_pool_layouts E) with
      | None => Raise (ValueError "block descriptors must use configured pools")
      | Some block_size =>
          if decide (separator = true ∧ part ∈ [""; "*"])
          then Raise (ValueError "block descriptors must use configured pools")
          else if decide (rd_size region ≠ block_size)
          then Raise (ValueError "block descriptor has the wrong byte count")
          else if separator then
            if decide (tr_label ref ∈ labels)
            then Raise (ValueError "block part labels must be unique")
            else validate_refs agent_name (tr_label ref :: labels) refs
          else validate_refs agent_name labels refs
      end
  end.
(** Of an agent's memory: its own, or a peer's with that peer's registrations. *)
Definition validate_descriptors (agent_name : string) (refs : list TransferRef) : result unit :=
  if decide (refs = []) then Raise (ValueError "each block requires at least one _TransferRef")
  else validate_refs agent_name [] refs.
Definition normalize_descriptors (descriptors : list MemoryRef) : result (list TransferRef) :=
  if decide (descriptors = []) then Raise (ValueError "each block requires at least one MemoryRef")
  else
    let refs := (λ ref, {| tr_end_point := end_point_name ref; tr_element_index := element_index ref;
                           tr_label := ref_label ref; tr_framework := true |}) <$> descriptors in
    validate_refs (env_agent E) [] refs ≫= λ _, Ret refs.
Fixpoint normalize_blocks (l : list (BlockKey * list MemoryRef)) : result blocks :=
  match l with
  | [] => Ret []
  | (key, descriptors) :: l =>
      refs ← normalize_descriptors descriptors;
      rest ← normalize_blocks l;
      mret ((key, refs) :: rest)
  end.

(** ** Where a block can be read from *)

Definition local_residency (key : BlockKey) : M St (option Residency) :=
  b ← find_record key;
  match b ≫= b_local_dram with
  | None => mret None
  | Some rid => r ← get_res rid; mret (Some r)
  end.
Definition complete_local (r : Residency) : bool :=
  bool_decide (r_state r = READY) && negb (pending_nonempty r) &&
  bool_decide (length (r_slots r) = length (r_key_layout r)).
Definition has_complete_local (key : BlockKey) : M St bool :=
  r ← local_residency key;
  mret (match r with None => false | Some r => complete_local r end).
Definition is_local_resident (key : BlockKey) : M St bool :=
  r ← local_residency key;
  mret (match r with None => false | Some r => bool_decide (r_state r ≠ DISCARDING) end).
Definition disk_ready (key : BlockKey) (layout : option (list label)) : M St bool :=
  if env_has_g3 E then is_ready key layout else mret false.

(** A fetch of this request still fills the key. *)
Fixpoint fetching_locally (key : BlockKey) (request_id : option string) (ops : list OpId)
    : M St bool :=
  match ops with
  | [] => mret false
  | op_id :: ops =>
      if decide (op_id.1 ≠ "fetch") then fetching_locally key request_id ops
      else
        op ← find_rop op_id;
        match op with
        | None => fetching_locally key request_id ops
        | Some ref =>
            o ← get_rop ref;
            if decide (ro_request_id o = request_id ∧ ro_results o !! key = None) then mret true
            else fetching_locally key request_id ops
        end
  end.

(** ** [query]: the best path for one key. *)
Definition query_local (key : BlockKey) (request_id : option string)
    : M St (QueryStatus * option CacheTier) :=
  r ← local_residency key;
  b ← find_record key;
  match r_state <$> r with
  | Some READY => mret (HIT, Some LOCAL_G2)
  | Some FILLING => mret (FETCHING, Some LOCAL_G2)
  | _ =>
      if decide ((b ≫= b_g3) ≠ None) then mret (FETCHABLE, Some G3)
      else
        usable ← (if decide (request_id = None) then mret false else rm_query remote key request_id);
        if (usable : bool) then
          modify (λ s, set_s_remote_delivery_keys
            (<[request_id := {[ key ]} ∪ default ∅ (s_remote_delivery_keys s !! request_id)]>
               (s_remote_delivery_keys s)) s) ;;
          mret (FETCHABLE, Some REMOTE_G2)
        else mret (MISS, None)
  end.
Definition query_one (request_id : option string) (key : BlockKey)
    : M St (QueryStatus * option CacheTier) :=
  remote_keys ← gets (λ s, default ∅ (s_remote_delivery_keys s !! request_id));
  if decide (key ∉ remote_keys) then query_local key request_id
  else
    r ← local_residency key;
    b ← find_record key;
    filling ← (if decide (r_state <$> r = Some FILLING)
               then fetching_locally key request_id (match b with None => [] | Some b => active_op_ids b end)
               else mret false);
    if (filling : bool) then query_local key request_id
    else
      usable ← rm_query remote key request_id;
      if (usable : bool) then mret (FETCHABLE, Some REMOTE_G2)
      else
        complete ← has_complete_local key;
        if (complete : bool) then query_local key request_id else mret (MISS, None).
Definition query (keys : list BlockKey) (request_id : option string)
    : M St (list (QueryStatus * option CacheTier)) :=
  fold_each (λ acc key, status ← query_one request_id key; mret (acc ++ [status])) [] keys.

(** ** [deliver] *)

Definition next_op_handle : M St Z :=
  handle ← gets s_next_op_handle;
  modify (set_s_next_op_handle (handle + 1)%Z) ;;
  mret handle.

Inductive Route := RouteLocal | RouteDisk | RouteRemote.
#[local] Instance Route_eq_dec : EqDecision Route.
Proof. solve_decision. Defined.
Definition route (request_id : option string) (key : BlockKey) : M St Route :=
  remote_keys ← gets (λ s, default ∅ (s_remote_delivery_keys s !! request_id));
  preferred ←
    (if decide (key ∉ remote_keys) then mret false
     else
       complete ← has_complete_local key;
       if negb complete then mret true else rm_query remote key request_id);
  if (preferred : bool) then mret RouteRemote
  else
    resident ← is_local_resident key;
    if (resident : bool) then mret RouteLocal
    else
      on_disk ← disk_ready key None;
      mret (if (on_disk : bool) then RouteDisk else RouteRemote).
Definition routed (r : Route) (l : list (Route * (BlockKey * list TransferRef))) : blocks :=
  (filter (λ x, x.1 = r) l).*2.

Definition core_deliver (request : list (BlockKey * list MemoryRef)) (request_id : option string)
    : M St Z :=
  op_handle ← next_op_handle;
  deadline ← operation_deadline E;
  normalized ← lift (normalize_blocks request);
  routes ← fold_each (λ acc block,
    r ← route request_id block.1; mret (acc ++ [(r, block)])) [] normalized;
  let local_blocks := routed RouteLocal routes in
  let g3_blocks := routed RouteDisk routes in
  let remote_blocks := routed RouteRemote routes in
  (if decide (1 < length (filter (λ l, l ≠ []) [local_blocks; g3_blocks; remote_blocks])) then
     modify (λ s, set_s_joined (<[op_handle := (list_to_set request.*1, ∅)]> (s_joined s)) s)
   else mret tt) ;;
  (if decide (local_dram = true ∧ local_blocks ≠ [])
   then deliver E resume progress_failure op_handle local_blocks deadline
   else mret tt) ;;
  (if decide (g3_blocks = []) then mret tt
   else
     started ← (if env_has_g3 E
                then start_deliver E regions progress_failure op_handle g3_blocks deadline
                else mret false);
     if (started : bool) then mret tt
     else complete op_handle (entries_for g3_blocks.*1 FAILED)) ;;
  (if decide (remote_blocks = []) then
     if decide (request = []) then complete op_handle ∅ else mret tt
   else rm_deliver remote op_handle remote_blocks request_id deadline) ;;
  mret op_handle.

(** ** [deposit] *)

(** Every deposited piece belongs to the declared layout. *)
Definition pieces_belong (declaration : option (list label)) (blocks : blocks) : bool :=
  match declaration with
  | None => true
  | Some layout => bool_decide (Forall (λ block : BlockKey * list TransferRef,
      layout_indices layout (tr_label <$> block.2) (Some (label_index layout)) ≠ None) blocks)
  end.

(** A block on disk is only deposited with the layout it has there. *)
Definition check_disk_layout (declaration : option (list label))
    (block : BlockKey * list TransferRef) : M St unit :=
  let '(key, refs) := block in
  on_disk ← disk_ready key None;
  if negb on_disk then mret tt
  else
    b ← find_record key;
    match b with
    | None => raise (KeyError key)
    | Some b =>
        layout ← match declaration, b_local_dram b with
                 | Some declaration, _ => mret declaration
                 | None, Some rid => r ← get_res rid; mret (r_key_layout r)
                 | None, None => mret (tr_label <$> refs)
                 end;
        same ← disk_ready key (Some layout);
        if (same : bool) then mret tt
        else raise (ValueError "deposit layout must match existing G3 key layout")
    end.

Definition core_deposit (request : list (BlockKey * list MemoryRef)) (no_evict : bool)
    (expected_layout : option (list label)) : M St Z :=
  declaration ← lift (match expected_layout with
                      | None => Ret None
                      | Some layout => l ← validate_expected_layout E layout; mret (Some l)
                      end);
  op_handle ← next_op_handle;
  if negb local_dram then
    complete op_handle (entries_for request.*1 FAILED) ;; mret op_handle
  else
    blocks ← lift (normalize_blocks request);
    if negb (pieces_belong declaration blocks)
    then raise (ValueError "deposit pieces must belong to the local key layout")
    else
      drain_source_completions E resume ;;
      (if env_has_g3 E then for_each blocks (check_disk_layout declaration) else mret tt) ;;
      deposit E evict resume progress_failure op_handle blocks no_evict declaration ;;
      mret op_handle.

(** ** [fetch] *)

Definition fetch_source (request_id : option string) (requested : list label)
    (sources : gmap BlockKey CacheTier) (key : BlockKey) : M St (gmap BlockKey CacheTier) :=
  r ← local_residency key;
  if match r with None => false | Some r => bool_decide (is_Some (ready_indices r requested)) end
  then mret sources
  else
    on_disk ← disk_ready key None;
    if (on_disk : bool) then
      same ← disk_ready key (Some requested);
      if negb same then raise (ValueError "fetch layout must match existing G3 key layout")
      else mret (<[key := G3]> sources)
    else
      usable ← (if decide (request_id = None) then mret false else rm_query remote key request_id);
      mret (if (usable : bool) then <[key := REMOTE_G2]> sources else sources).

Definition core_fetch (keys : list BlockKey) (request_id : option string)
    (expected_layout : option (list label)) : M St Z :=
  requested ← lift (validate_expected_layout E (default [""] expected_layout));
  op_handle ← next_op_handle;
  let ordered_keys := first_occurrences [] keys in
  if negb local_dram then
    complete op_handle (entries_for ordered_keys FAILED) ;; mret op_handle
  else
    drain_source_completions E resume ;;
    sources ← fold_each (fetch_source request_id requested) ∅ ordered_keys;
    deadline ← operation_deadline E;
    destinations ← fetch E evict resume op_handle ordered_keys sources request_id deadline
                     requested (Some requested);
    for_each [G3; REMOTE_G2] (λ source,
      fill source (filter (λ block : BlockKey * list TransferRef,
        sources !! block.1 = Some source) destinations) request_id deadline) ;;
    mret op_handle.

(** ** [release], [discard_hint], [poll_completed] *)

Definition core_release (handles : list Z) : M St (list (Z * bool)) :=
  if negb local_dram then mret ((λ handle, (handle, false)) <$> handles)
  else release E resume handles.

Definition discard_hint (request_id : string) : M St unit :=
  modify (λ s, set_s_remote_delivery_keys
    (delete (Some request_id) (s_remote_delivery_keys s)) s) ;;
  rm_discard_hint remote request_id.

(** [items] are the completions left after the transfer errors among them were reported. *)
Definition poll_completed (items : list Item) : M St (list (Z * gmap BlockKey OpEntryResult)) :=
  failure ← gets progress_failure;
  match failure with
  | Some e => raise e
  | None =>
      closed ← gets s_closed;
      (if (closed : bool) then mret tt
       else
         items ← (if env_has_g3 E
                  then poll_main E resume
                         (complete_fill E evict fill resume progress_failure) g3_item items
                  else mret items);
         items ← (if local_dram
                  then dram_poll_main E evict fill resume progress_failure copy_item items
                  else mret items);
         let complete keys success :=
           if local_dram then complete_fill E evict fill resume progress_failure keys success
           else raise (RuntimeError "remote fetch completed without local DRAM") in
         let discard keys :=
           if local_dram then discard_fill E resume keys
           else raise (RuntimeError "remote fetch update without local DRAM") in
         rm_poll_main remote resume complete discard items) ;;
      completed ← gets s_completion_queue;
      modify (set_s_completion_queue []) ;;
      mret completed
  end.

(** ** [align_sequence] *)

(** The keys with a readable residency, with their first positions. *)
Definition aligned (ordered_keys : list BlockKey) : M St (list (BlockKey * Z)) :=
  '(_, records) ← fold_each (λ '((position, acc) : Z * list (BlockKey * Z)) key,
    r ← local_residency key;
    b ← find_record key;
    let readable := match b with
      | None => false
      | Some b => bool_decide (b_g3 b ≠ None) || bool_decide (r_state <$> r = Some READY)
      end in
    mret ((position + 1)%Z,
          if decide (key ∉ acc.*1 ∧ readable = true) then acc ++ [(key, position)] else acc))
    (0%Z, []) ordered_keys;
  mret records.

Definition record_size (b : BlockRecord) : M St Z :=
  match b_local_dram b, b_g3 b with
  | Some rid, _ => r ← get_res rid; mret (residency_size E r)
  | None, Some gid => g ← get_disk gid; mret (disk_size E g)
  | None, None => raise (TypeError "NoneType has no slots")
  end.

Definition align_one (timestamp : option float) (acc : list BlockMeta) (x : BlockKey * Z)
    : M St (list BlockMeta) :=
  let '(key, position) := x in
  b ← find_record key;
  match b with
  | None => raise (KeyError key)
  | Some b =>
      upd_record key (set_b_last_access timestamp) ;;
      (if decide (b_position b = position) then mret tt
       else
         upd_record key (set_b_position position) ;;
         r ← local_residency key;
         if bool_decide (b_g3 b ≠ None) || match r with None => false | Some r => negb (pending_nonempty r) end
         then observe_residency key (set_b_position position b) else mret tt) ;;
      size_bytes ← record_size b;
      mret (acc ++ [block_meta key (set_b_position position (set_b_last_access timestamp b)) size_bytes])
  end.

Definition latest_access (keys : list BlockKey) (s : St) : option float :=
  foldl (λ acc key,
    match s_records s !! key ≫= b_last_access, acc with
    | None, _ => acc
    | Some t, None => Some t
    | Some t, Some m => Some (if fltb m t then t else m)
    end) None keys.

Definition align_sequence (ordered_keys : list BlockKey) (use_current_time : bool) : M St unit :=
  records ← aligned ordered_keys;
  if decide (records = []) then mret tt
  else
    timestamp ← (if use_current_time then now ← clock E; mret (Some now)
                 else gets (latest_access records.*1));
    blocks ← fold_each (align_one timestamp) [] records;
    log_call (CallOnAlign blocks use_current_time) ;;
    for_each records.*1 (λ key,
      (if local_dram then make_evictable E key else mret tt) ;;
      (if env_has_g3 E then disk_make_evictable E key else mret tt)) ;;
    if local_dram then update_capacity_pressure E else mret tt.

(** ** Recovery and close *)

(** [adopt_recovery_records]: a core that holds no record takes over those of a mirror, given
    in the mapping's order; their residency objects are in the state already. *)
Definition admit_recovered (record : BlockKey * BlockRecord) : M St unit :=
  let '(key, b) := record in
  size_bytes ← record_size b;
  log_call (CallOnIngest (block_meta key b size_bytes)
    (if decide (b_local_dram b ≠ None ∨ env_has_g3 E = false) then LOCAL_G2 else G3)).
Definition adopt_recovery_records (records : list (BlockKey * BlockRecord)) : M St unit :=
  if decide (records = []) then mret tt
  else if negb local_dram
  then raise (RecoveryMirrorError "recovered records need a local DRAM tier")
  else if decide (env_has_g3 E = false ∧ Exists (λ x : BlockKey * BlockRecord, b_g3 x.2 ≠ None) records)
  then raise (RecoveryMirrorError "recovered G3 residency has no configured G3")
  else
    held ← gets s_records;
    if decide (held ≠ ∅)
    then raise (RecoveryMirrorError "recovered records need a core that holds none")
    else
      modify (set_s_records (list_to_map records)) ;;
      adopt_recovery_slots E records ;;
      (if env_has_g3 E then adopt_disk_slots E records else mret tt) ;;
      for_each records admit_recovered ;;
      rank_recovered E records ;;
      if env_has_g3 E then rank_recovered_disk E records else mret tt.

(** [_close_main_resources]: every stage runs, and the first error is raised at the end. *)
Definition run_stage (first_error : option exn) (stage : M St unit) : M St (option exn) :=
  try_except (stage ;; mret first_error)
    (λ e, mret (match first_error with None => Some e | Some _ => first_error end)).
Definition close_main_resources (close_hint_handlers : M St unit) : M St unit :=
  modify (set_s_remote_delivery_keys ∅) ;;
  e ← fold_each run_stage None
    ([close_hint_handlers] ++ (if env_has_g3 E then [close_main E resume] else []) ++
     (if local_dram then [pools_close E resume] else []) ++ [rm_close_main remote resume]);
  ops ← gets (λ s, (map_to_list (s_sources_by_op s)).*1);
  e ← fold_each (λ e op_id, run_stage e (release_local_dram_sources E resume op_id None)) e ops;
  match e with None => mret tt | Some e => raise e end.
End Core.
