(* ===== verification/Recover.v ===== *)
(** * A core from a mirror

    What the tiers of a dead core held, as its mirror describes it, becomes the state of a
    new core ([_KVCRCore.adopt_recovery_records] of [src/src/kvcr/runtime/core.py] with the
    adoption of both tiers): the new core shows exactly the mirror's blocks, keeps the
    invariants of both tiers, and refuses no mirror of a sound core. *)

From Stdlib Require Import ZArith Lia.
From S2P Require Import Prelude PyFloat Types PolicyRuntime Layout State CoreBase Pools PoolsInv PoolsOps PoolsAdmit Mirror Transfer Disk DiskInv DiskOps DiskRun DiskProps PoolsProps LocalDram Core.

(** ** What a core shows of its blocks *)

Definition core_view (s : St) : gmap BlockKey RecoveryBlock := observed_block s <$> s_records s.

(** ** Placing a mirror's records

    A mirror holds its residency objects inline; in a core they are shared objects, so
    taking a record over gives its objects references.  It holds no framework memory. *)
Definition place (x : BlockKey * BlockValue) : M St (BlockKey * BlockRecord) :=
  let v := x.2 in
  local_dram ← (match v_local_dram v with
                | None => mret None
                | Some r => rid ← alloc_res r; mret (Some rid)
                end);
  g3 ← (match v_g3 v with
        | None => mret None
        | Some g => gid ← alloc_disk g; mret (Some gid)
        end);
  mret (x.1, mkBlockRecord None local_dram g3 (v_in_flight_ops v) (v_access_count v)
               (v_last_access v) (v_position v)).
Definition recover (E : Env) (records : list (BlockKey * BlockValue)) : M St unit :=
  placed ← fold_each (λ acc x, r ← place x; mret (acc ++ [r])) [] records;
  adopt_recovery_records E true placed.

(** ** Sound views *)

(** All slots of a table, by tier. *)
Definition dram_slots (l : list (BlockKey * RecoveryBlock)) : list (label * Z) :=
  l ≫= λ x, default [] (rb_g2 x.2).
Definition file_slots (l : list (BlockKey * RecoveryBlock)) : list Z :=
  l ≫= λ x, default [] (snd <$> rb_g3 x.2).

(** What the tiers guarantee of a running core and adoption checks: layouts of configured
    pools, slots in range and used once, and one layout per block. *)
Record sound_block (E : Env) (rb : RecoveryBlock) : Prop := {
  so_some : rb_g2 rb ≠ None ∨ rb_g3 rb ≠ None;
  so_dram : ∀ slots, rb_g2 rb = Some slots → slots ≠ [] ∧
    validate_expected_layout E (layout_of slots) = Ret (layout_of slots);
  so_file : ∀ layout slots, rb_g3 rb = Some (layout, slots) → env_has_g3 E = true ∧
    validate_expected_layout E layout = Ret layout ∧
    layout_bytes E layout = Ret (Z.of_nat (length slots) * env_g3_slot_size E)%Z;
  so_layout : ∀ slots layout disk, rb_g2 rb = Some slots → rb_g3 rb = Some (layout, disk) →
    layout = layout_of slots }.
Record sound (E : Env) (l : list (BlockKey * RecoveryBlock)) : Prop := {
  so_keys : NoDup l.*1;
  so_blocks : Forall (λ x, sound_block E x.2) l;
  so_known : Forall (λ x : label * Z, is_Some (env_regions E !! pool_of x.1)) (dram_slots l);
  so_once : ∀ p, NoDup (pslots p (dram_slots l));
  so_range : ∀ p, Forall (λ slot, 0 <= slot < slot_total E p)%Z (pslots p (dram_slots l));
  so_files : NoDup (file_slots l) ∧ Forall (λ slot, 0 <= slot < total_slots E)%Z (file_slots l) }.

(** ** Sound slots are accepted *)

Section Accept.
Context (E : Env).

Lemma occupy_accepts slots labels seen occupied l : occupied_by E occupied l →
  validate_labels (env_pool_layouts E).*1 seen (layout_of slots) = Ret tt →
  (∀ x, has_colon x = true → x ∈ labels → x ∈ seen) →
  Forall (λ x : label * Z, is_Some (env_regions E !! pool_of x.1)) slots →
  (∀ p, NoDup (pslots p (slots ++ l))) →
  (∀ p, Forall (λ slot, 0 <= slot < slot_total E p)%Z (pslots p slots)) →
  is_Some (occupy E slots labels occupied).
Proof.
  revert labels seen occupied l. induction slots as [|[lb slot] slots IH];
    intros labels seen occupied l Ho Hv Hlab Hkn Hnd Hr; [by eexists|].
  simpl in *. apply Forall_cons in Hkn as [Hreg Hkn]. simpl in Hreg.
  destruct (partition_colon lb) as [[pool sep] part] eqn:Hpc. simpl in *.
  assert (pool_of lb = pool) as Hpool by (unfold pool_of; by rewrite Hpc).
  assert (has_colon lb = sep) as Hcol by (unfold has_colon; by rewrite Hpc).
  rewrite Hpool in Hreg. destruct Hreg as [[[a len] size] Hreg]. rewrite Hreg.
  assert (is_Some (occupied !! pool)) as [taken Htk] by (apply (ob_dom _ _ _ Ho); by eexists).
  rewrite Htk. case_decide as Hbad; [done|]. destruct (decide (sep = true ∧ lb ∈ seen)) as [[-> Hin]|Hfresh].
  { rewrite decide_True in Hv by done. done. }
  assert (¬ (sep = true ∧ lb ∈ labels)) as Hnl.
  { intros [-> Hin]. apply Hfresh. split; [done|]. apply Hlab; done. }
  rewrite decide_False by (intros [H1 [H2|H2]]; [apply Hbad; by right|by apply Hnl]).
  assert (0 <= slot < len / size)%Z as Hs.
  { specialize (Hr pool). rewrite pslots_cons, decide_True in Hr by done. apply Forall_cons in Hr as [Hr _].
    unfold slot_total in Hr. by rewrite Hreg in Hr. }
  rewrite decide_False by tauto.
  assert (slot ∉ taken) as Hni.
  { intros Hin. assert (slot ∈ pslots pool l) as Hin'.
    { apply (ob_set _ _ _ Ho pool slot). by rewrite Htk. }
    specialize (Hnd pool). rewrite pslots_cons, decide_True in Hnd by done. apply NoDup_cons in Hnd as [Hn _].
    apply Hn. rewrite pslots_app. apply elem_of_app. by right. }
  rewrite decide_False by done.
  apply (IH _ (if sep then lb :: seen else seen) _ ((lb, slot) :: l)).
  - assert (occupy E [(lb, slot)] [] occupied = Some (<[pool:={[slot]} ∪ taken]> occupied)) as Hone.
    { simpl. rewrite Hpc, Hreg, Htk. rewrite decide_False; [|intros [H1 [H2|H2]]; [apply Hbad; by right|by apply not_elem_of_nil in H2]].
      rewrite decide_False by tauto. by rewrite decide_False. }
    exact (occupy_spec E _ _ _ _ _ Ho Hone).
  - destruct sep; [|done]. rewrite decide_False in Hv; [done|]. intros Hin. by apply Hfresh.
  - intros x Hx [->|Hin]%elem_of_cons.
    + rewrite Hcol in Hx. rewrite Hx. left.
    + destruct sep; [right|]; by apply Hlab.
  - done.
  - intros p. specialize (Hnd p). by rewrite <- Permutation_middle.
  - intros p. specialize (Hr p). rewrite pslots_cons in Hr. case_decide; [by apply Forall_cons in Hr as [_ Hr]|done].
Qed.
End Accept.

(** ** Records that hold a list of blocks *)

Definition holds_dram (s : St) (b : BlockRecord) (rb : RecoveryBlock) : Prop :=
  match b_local_dram b, rb_g2 rb with
  | None, None => True
  | Some rid, Some slots => s_res s !! rid = Some (new_residency slots READY None None)
  | _, _ => False
  end.
Definition holds_file (s : St) (b : BlockRecord) (rb : RecoveryBlock) : Prop :=
  match b_g3 b, rb_g3 rb with
  | None, None => True
  | Some gid, Some (layout, slots) => s_g3res s !! gid = Some (mkG3Residency layout slots 0)
  | _, _ => False
  end.
Definition holds (s : St) (x : BlockKey * BlockRecord) (y : BlockKey * RecoveryBlock) : Prop :=
  x.1 = y.1 ∧ b_fw_mem x.2 = None ∧ b_in_flight_ops x.2 = None ∧ b_position x.2 = rb_position y.2 ∧
  holds_dram s x.2 y.2 ∧ holds_file s x.2 y.2.
Definition dram_refs (rs : list (BlockKey * BlockRecord)) : list nat := omap (λ x, b_local_dram x.2) rs.
Definition file_refs (rs : list (BlockKey * BlockRecord)) : list nat := omap (λ x, b_g3 x.2) rs.

Lemma Forall2_impl_left {A B} (P Q : A → B → Prop) l k :
  Forall2 P l k → (∀ x y, x ∈ l → P x y → Q x y) → Forall2 Q l k.
Proof.
  induction 1 as [|x y l k Hp Hf IH]; intros H; constructor.
  - apply H; [left|done].
  - apply IH. intros a b Ha. apply H. by right.
Qed.

Section Adopt.
Context (E : Env).

(** A sound residency is adopted, and no other residency changes. *)
Lemma wp_adopt_accepted occupied occupied' key rid slots s :
  s_res s !! rid = Some (new_residency slots READY None None) → slots ≠ [] →
  occupy E slots [] occupied = Some occupied' →
  validate_expected_layout E (layout_of slots) = Ret (layout_of slots) →
  wp (adopt_residency E occupied key rid)
    (λ o s', o = occupied' ∧ ∀ rid', rid' ≠ rid → s_res s' !! rid' = s_res s !! rid')
    (λ _ _, False) s.
Proof.
  intros Hr Hne Hocc Hlay. unfold adopt_residency. apply wp_bind. eapply wp_get_res; [done|].
  rewrite decide_False by (intros [H|[H|H]]; done). simpl. rewrite Hocc. apply wp_bind.
  unfold wp at 1, lift. rewrite Hlay. rewrite decide_False by (intros H; by apply H).
  unfold upd_res. wp. unfold publish_source. wp.
  eapply wp_get_res; [simpl; by rewrite lookup_alter_eq, Hr|]. simpl.
  assert (∀ f f' s1, s_res s1 = alter f rid (s_res s) →
    ∀ rid', rid' ≠ rid → (alter f' rid (s_res s1)) !! rid' = s_res s !! rid') as Hne'.
  { intros f f' s1 -> rid' Hd. by rewrite !lookup_alter_ne. }
  destruct (env_framework_control E); simpl; wp.
  - repeat apply wp_bind. eapply wp_get_res; [simpl; by rewrite lookup_alter_eq, Hr|]. simpl. unfold upd_source, upd_pools. wp.
    split; [done|]. simpl. eapply (Hne' _ _ (set_s_res _ s)). reflexivity.
  - split; [done|]. intros rid' Hd. simpl. by rewrite lookup_alter_ne.
Qed.

Lemma wp_adopt_dram_total rs blocks s : Forall2 (holds s) rs blocks → NoDup (dram_refs rs) →
  sound E blocks → wp (adopt_recovery_slots E rs) (λ _ _, True) (λ _ _, False) s.
Proof.
  intros Hh Hnd Hs. unfold adopt_recovery_slots. apply wp_bind.
  apply (wp_fold_each _ _ _ (λ occupied rest s', ∃ bd br l, blocks = bd ++ br ∧
    Forall2 (λ x y, holds_dram s' x.2 y.2) rest br ∧ NoDup (dram_refs rest) ∧
    l ≡ₚ dram_slots bd ∧ occupied_by E occupied l)).
  - exists [], blocks, []. split_and!; [done| |done|done|].
    + eapply Forall2_impl; [exact Hh|]. by intros x y (_ & _ & _ & _ & H & _).
    + split; [|done|intros p; apply NoDup_nil_2|done|]; intros p.
      * by rewrite lookup_fmap, fmap_is_Some.
      * intros x. rewrite lookup_fmap. destruct (env_regions E !! p); simpl; set_solver.
  - clear Hh Hnd. intros occupied [key b] rest s1 (bd & br & l & Hb & Hh & Hnd & Hl & Ho).
    apply Forall2_cons_inv_l in Hh as ([key' rb] & br' & Hd & Hrest & ->). simpl in Hd.
    pose proof (so_blocks _ _ Hs) as Hall. rewrite Hb in Hall. apply Forall_app in Hall as [_ Hall].
    apply Forall_cons in Hall as [Hsb _]. simpl in Hsb.
    assert (blocks = (bd ++ [(key', rb)]) ++ br') as Hb' by by rewrite <- app_assoc.
    unfold holds_dram in Hd. unfold dram_refs in Hnd. simpl in Hnd.
    destruct (b_local_dram b) as [rid|], (rb_g2 rb) as [slots|] eqn:Hg2; try done.
    + destruct (so_dram _ _ Hsb _ Hg2) as [Hne Hlay]. apply NoDup_cons in Hnd as [Hnin Hnd].
      assert (dram_slots (bd ++ [(key', rb)]) = dram_slots bd ++ slots) as Hds.
      { unfold dram_slots. rewrite bind_app. simpl. by rewrite Hg2, app_nil_r. }
      assert (∀ p, Forall (λ slot, 0 <= slot < slot_total E p)%Z (pslots p slots) ∧
        NoDup (pslots p (slots ++ l)) ∧ Forall (λ x : label * Z, is_Some (env_regions E !! pool_of x.1)) slots) as Hok.
      { intros p. pose proof (so_once _ _ Hs p) as H1. pose proof (so_range _ _ Hs p) as H2.
        pose proof (so_known _ _ Hs) as H3. rewrite Hb' in H1, H2, H3.
        unfold dram_slots in H1, H2, H3. rewrite bind_app in H1, H2, H3. fold (dram_slots (bd ++ [(key', rb)])) in H1, H2, H3.
        rewrite Hds in H1, H2, H3. rewrite !pslots_app in H1, H2.
        apply list.NoDup_app in H1 as (H1 & _). apply Forall_app in H2 as [H2 _]. apply Forall_app in H2 as [_ H2].
        apply Forall_app in H3 as [H3 _]. apply Forall_app in H3 as [_ H3]. split_and!; [done| |done].
        rewrite pslots_app, Hl. by rewrite Permutation_app_comm. }
      destruct (occupy_accepts E slots [] [] occupied l) as [occ' Hocc]; [done| |done|apply (Hok "")|apply Hok|apply Hok|].
      { unfold validate_expected_layout in Hlay. case_decide; [done|].
        destruct (validate_labels _ _ _) as [[]|]; [done|discriminate]. }
      eapply wp_mono; [by eapply wp_adopt_accepted| |done]. intros o s2 [-> Hres].
      exists (bd ++ [(key', rb)]), br', (slots ++ l). split_and!; [done| |done| |by eapply occupy_spec].
      * eapply Forall2_impl_left; [exact Hrest|]. intros x y Hx Hh. unfold holds_dram in *. destruct (b_local_dram x.2) as [rid'|] eqn:Hd'; [|done].
        destruct (rb_g2 y.2); [|done]. rewrite Hres; [done|]. intros ->. apply Hnin.
        apply list_elem_of_omap. by exists x.
      * rewrite Hds, Hl. apply Permutation_app_comm.
    + wp. exists (bd ++ [(key', rb)]), br', l. split_and!; [done|done|done| |done].
      unfold dram_slots. rewrite bind_app. simpl. by rewrite Hg2, !app_nil_r.
  - intros occupied s1 _. unfold upd_pools. by wp.
Qed.

(** *** Files *)

Lemma occupy_disk_accepts slots occupied l : occupies E occupied l → NoDup (l ++ slots) →
  Forall (λ slot, 0 <= slot < total_slots E)%Z slots → is_Some (occupy_disk E slots occupied).
Proof.
  revert occupied l. induction slots as [|slot slots IH]; intros occupied l Ho Hnd Hr; [by eexists|]. simpl.
  apply Forall_cons in Hr as [Hs Hr]. rewrite (cons_middle slot l slots), app_assoc in Hnd.
  assert (slot ∉ l) as Hni.
  { apply list.NoDup_app in Hnd as (Hnd & _). apply list.NoDup_app in Hnd as (_ & Hd & _).
    intros Hin. apply (Hd _ Hin). left. }
  assert (slot ∉ occupied) as Hno by (intros Hin; by apply Hni, Ho).
  rewrite decide_False by tauto. apply (IH _ (l ++ [slot])); [|done|done].
  eapply (occupy_disk_spec E [slot]); [|exact Ho]. simpl. by rewrite decide_False by tauto.
Qed.

(** The layout of the block in DRAM, where it is on disk too. *)
Definition same_layout (s : St) (b : BlockRecord) (rb : RecoveryBlock) : Prop :=
  ∀ rid, b_local_dram b = Some rid → ∃ r slots, s_res s !! rid = Some r ∧ rb_g2 rb = Some slots ∧
    r_key_layout r = layout_of slots.
Lemma wp_adopt_disk_total rs blocks s :
  Forall2 (λ x y, holds_file s x.2 y.2 ∧ same_layout s x.2 y.2) rs blocks → sound E blocks →
  wp (adopt_disk_slots E rs) (λ _ _, True) (λ _ _, False) s.
Proof.
  intros Hh Hs. unfold adopt_disk_slots. apply wp_bind.
  apply (wp_fold_each _ _ _ (λ occupied rest s', s' = s ∧ ∃ bd br, blocks = bd ++ br ∧
    Forall2 (λ x y, holds_file s x.2 y.2 ∧ same_layout s x.2 y.2) rest br ∧ occupies E occupied (file_slots bd))).
  - split; [done|]. exists [], blocks. split_and!; [done|done|]. split_and!; [constructor|set_solver|constructor].
  - clear Hh. intros occupied [key b] rest s' (-> & bd & br & Hb & Hh & Ho).
    apply Forall2_cons_inv_l in Hh as ([key' rb] & br' & [Hf Hlay] & Hrest & ->). simpl in Hf, Hlay.
    pose proof (so_blocks _ _ Hs) as Hall. rewrite Hb in Hall. apply Forall_app in Hall as [_ Hall].
    apply Forall_cons in Hall as [Hsb _]. simpl in Hsb.
    assert (blocks = (bd ++ [(key', rb)]) ++ br') as Hb' by by rewrite <- app_assoc.
    unfold adopt_disk_residency. simpl. unfold holds_file in Hf.
    destruct (b_g3 b) as [gid|], (rb_g3 rb) as [[layout slots]|] eqn:Hg3; try done.
    + wp. eapply wp_get_disk; [exact Hf|]. wp. destruct (so_file _ _ Hsb _ _ Hg3) as (_ & Hv & Hbytes).
      unfold wp at 1, lift. simpl. rewrite Hv. wp. unfold wp at 1, lift. rewrite Hbytes.
      rewrite decide_False by (intros H; apply H; unfold disk_size; simpl; lia).
      assert (file_slots (bd ++ [(key', rb)]) = file_slots bd ++ slots) as Hfs.
      { unfold file_slots. rewrite bind_app. simpl. by rewrite Hg3, app_nil_r. }
      destruct (so_files _ _ Hs) as [Hnd Hr]. rewrite Hb' in Hnd, Hr. unfold file_slots in Hnd, Hr.
      rewrite bind_app in Hnd, Hr. fold (file_slots (bd ++ [(key', rb)])) in Hnd, Hr. rewrite Hfs in Hnd, Hr.
      apply list.NoDup_app in Hnd as (Hnd & _). apply Forall_app in Hr as [Hr _]. apply Forall_app in Hr as [_ Hr].
      destruct (occupy_disk_accepts slots occupied (file_slots bd)) as [occ' Hocc]; [done..|]. simpl. rewrite Hocc.
      assert (∃ bd0 br0, blocks = bd0 ++ br0 ∧
        Forall2 (λ x y, holds_file s x.2 y.2 ∧ same_layout s x.2 y.2) rest br0 ∧ occupies E occ' (file_slots bd0)) as Hnext.
      { exists (bd ++ [(key', rb)]), br'. split_and!; [done|done|]. rewrite Hfs. by eapply occupy_disk_spec. }
      destruct (b_local_dram b) as [rid|] eqn:Hd; [|wp; by split].
      destruct (Hlay rid Hd) as (r & ds & Hr' & Hg2 & Hk). apply wp_bind. eapply wp_get_res; [exact Hr'|].
      rewrite Hk, (so_layout _ _ Hsb _ _ _ Hg2 Hg3). rewrite decide_False by (intros H; by apply H). wp; by split.
    + wp. split; [done|]. exists (bd ++ [(key', rb)]), br'. split_and!; [done|done|].
      unfold file_slots. rewrite bind_app. simpl. by rewrite Hg3, app_nil_r.
  - intros occupied s' _. unfold upd_g3. by wp.
Qed.
End Adopt.

(** ** What adoption and ranking leave alone *)

(** The part of a residency that is shown, and its layout. *)
Definition res_view (s : St) (rid : nat) : option (LocalDramState * list (label * Z) * bool * list label) :=
  (λ r, (r_state r, r_slots r, pending_nonempty r, r_key_layout r)) <$> s_res s !! rid.
Record steady (s s' : St) : Prop := {
  st_records : s_records s' = s_records s;
  st_res : ∀ rid, res_view s' rid = res_view s rid;
  st_g3res : s_g3res s' = s_g3res s }.
#[export] Instance steady_preorder : PreOrder steady.
Proof. split; [by split|]. intros a b c [] []. split; intros; etransitivity; eauto. Qed.

Lemma steady_view s s' : steady s s' → core_view s' = core_view s.
Proof.
  intros [Hr Hv Hg]. unfold core_view. rewrite Hr. apply map_eq. intros k. rewrite !lookup_fmap.
  destruct (s_records s !! k) as [b|]; [|done]. simpl. f_equal. unfold observed_block. rewrite Hg. f_equal.
  destruct (b_local_dram b) as [rid|]; simpl; [|done]. specialize (Hv rid). unfold res_view in Hv.
  destruct (s_res s' !! rid) as [r|], (s_res s !! rid) as [r'|]; simpl in *; try done.
  injection Hv as H1 H2 H3 H4. unfold complete_residency. by rewrite H1, H2, H3.
Qed.

Section Steady.
Context (s0 : St).
Notation keeps m := (preserves (steady s0) m).

Lemma steady_modify f : (∀ s, steady s (f s)) → keeps (modify f).
Proof. intros Hf s Hs. simpl. by etransitivity. Qed.
Lemma steady_get_res rid : keeps (get_res rid).
Proof. intros s Hs. unfold get_res. by destruct (s_res s !! rid). Qed.
Lemma steady_get_disk gid : keeps (get_disk gid).
Proof. intros s Hs. unfold get_disk. by destruct (s_g3res s !! gid). Qed.
Lemma steady_upd_pools f : keeps (upd_pools f).
Proof. by apply steady_modify. Qed.
Lemma steady_upd_source f : keeps (upd_source f).
Proof. by apply steady_modify. Qed.
Lemma steady_upd_g3 f : keeps (upd_g3 f).
Proof. by apply steady_modify. Qed.
Lemma steady_emit ev : keeps (emit ev).
Proof. by apply steady_modify. Qed.
Lemma steady_log_call c : keeps (log_call c).
Proof. by apply steady_modify. Qed.
Lemma steady_upd_res rid f :
  (∀ r, r_state (f r) = r_state r ∧ r_slots (f r) = r_slots r ∧
     r_pending_labels (f r) = r_pending_labels r ∧ r_key_layout (f r) = r_key_layout r) →
  keeps (upd_res rid f).
Proof.
  intros Hf. apply steady_modify. intros s. split; try done. intros rid'. unfold res_view. simpl.
  rewrite lookup_alter. case_decide; [subst|done]. destruct (s_res s !! rid') as [r|]; [|done]. simpl.
  destruct (Hf r) as (-> & -> & Hp & ->). unfold pending_nonempty. by rewrite Hp.
Qed.
Lemma steady_find key : keeps (find_record key).
Proof. apply preserves_gets. Qed.
Lemma steady_score E meta tier previous : keeps (policy_eviction_score E meta tier previous).
Proof.
  intros s Hs. unfold policy_eviction_score, mbind, M_bind, log_call, modify, lift.
  destruct (invoke_eviction_score _ previous); (etransitivity; [exact Hs|by split]).
Qed.
End Steady.
Create HintDb steady discriminated.
#[export] Hint Resolve steady_get_res steady_get_disk steady_upd_pools steady_upd_source steady_upd_g3
  steady_emit steady_log_call steady_find steady_score : steady.
(** Walk through an operation made of steady parts. *)
Ltac steady_tac :=
  repeat match goal with
  | |- preserves _ (mret _) => apply preserves_ret
  | |- preserves _ (raise _) => apply preserves_raise
  | |- preserves _ (gets _) => apply preserves_gets
  | |- preserves _ (lift _) => apply preserves_lift
  | |- preserves _ (_ ≫= _) => apply preserves_bind; [|intros ?]
  | |- preserves _ (for_each _ _) => apply preserves_for_each; intros ?
  | |- preserves _ (fold_each _ _ _) => apply preserves_fold_each; intros ? ?
  | |- preserves _ (upd_res _ _) => apply steady_upd_res; intros ?; by split_and!
  | |- preserves _ (if ?b then _ else _) => destruct b
  | |- preserves _ (match ?x with _ => _ end) => destruct x
  | |- preserves _ (let '_ := ?x in _) => destruct x
  | |- preserves _ _ => solve [eauto 2 with steady nocore]
  end.

Section Frames.
Context (E : Env) (s0 : St).
Notation keeps m := (preserves (steady s0) m).
Lemma steady_make_evictable key : keeps (make_evictable E key).
Proof. unfold make_evictable. steady_tac. Qed.
Lemma steady_disk_rank key : keeps (disk_make_evictable E key).
Proof. unfold disk_make_evictable. steady_tac. Qed.
Lemma steady_source_refs rid indices : keeps (source_refs E rid indices).
Proof. unfold source_refs. steady_tac. Qed.
Lemma steady_adopt rs : keeps (adopt_recovery_slots E rs).
Proof.
  unfold adopt_recovery_slots, adopt_residency, publish_source. steady_tac;
    try (apply steady_source_refs).
  apply steady_upd_res. intros r0. unfold prepare_label_index. simpl.
  destruct (r_indices_by_label r0); by split_and!.
Qed.
Lemma steady_adopt_disk rs : keeps (adopt_disk_slots E rs).
Proof. unfold adopt_disk_slots, adopt_disk_residency. steady_tac. Qed.
Lemma steady_admit x : keeps (admit_recovered E x).
Proof. unfold admit_recovered, record_size. steady_tac. Qed.
End Frames.

(** ** Placing *)

Record placed (s0 s : St) (rs : list (BlockKey * BlockRecord))
    (blocks : list (BlockKey * RecoveryBlock)) : Prop := {
  pl_holds : Forall2 (holds s) rs blocks;
  pl_dram : NoDup (dram_refs rs) ∧ Forall (λ rid, rid < s_next_res s) (dram_refs rs);
  pl_file : NoDup (file_refs rs) ∧ Forall (λ gid, gid < s_next_g3 s) (file_refs rs);
  pl_res : ∀ rid r, s_res s !! rid = Some r →
    rid < s_next_res s ∧ ∃ slots, r = new_residency slots READY None None;
  pl_g3res : ∀ gid g, s_g3res s !! gid = Some g → gid < s_next_g3 s ∧ g_claim_count g = 0%Z;
  pl_rest : s_records s = s_records s0 ∧ s_pools s = s_pools s0 ∧ s_g3 s = s_g3 s0 }.

Lemma refs_app {A} (f : BlockRecord → option A) (rs : list (BlockKey * BlockRecord)) x :
  omap (λ x, f x.2) (rs ++ [x]) = omap (λ x, f x.2) rs ++ (match f x.2 with Some a => [a] | None => [] end).
Proof. rewrite omap_app. simpl. by destruct (f x.2). Qed.

(** New references extend a list without repeats. *)
Lemma refs_next (l : list nat) next o : NoDup l ∧ Forall (λ i, i < next) l →
  (o = Some next ∨ o = None) →
  NoDup (l ++ (match o with Some a => [a] | None => [] end)) ∧
  Forall (λ i, i < (match o with Some _ => S next | None => next end))
    (l ++ (match o with Some a => [a] | None => [] end)).
Proof.
  intros [Hn Hf] [-> | ->]; [|by rewrite app_nil_r]. split.
  - apply list.NoDup_app. split_and!; [done| |apply NoDup_singleton].
    intros x Hx ->%list_elem_of_singleton. rewrite list.Forall_forall in Hf. specialize (Hf _ Hx). lia.
  - apply Forall_app. split; [|apply Forall_singleton; lia]. eapply list.Forall_impl; [exact Hf|]. simpl. lia.
Qed.

(** The objects of a block, in a state that has them at fresh references. *)
Definition placed_in (s : St) (rb : RecoveryBlock) : St :=
  let s1 := match rb_g2 rb with
            | None => s
            | Some slots => set_s_next_res (S (s_next_res s))
                (set_s_res (<[s_next_res s := new_residency slots READY None None]> (s_res s)) s)
            end in
  match rb_g3 rb with
  | None => s1
  | Some (layout, slots) => set_s_next_g3 (S (s_next_g3 s))
      (set_s_g3res (<[s_next_g3 s := mkG3Residency layout slots 0]> (s_g3res s)) s1)
  end.
Definition placed_record (s : St) (rb : RecoveryBlock) : BlockRecord :=
  mkBlockRecord None ((λ _, s_next_res s) <$> rb_g2 rb) ((λ _, s_next_g3 s) <$> rb_g3 rb)
    None 0 None (rb_position rb).
Lemma place_run key rb s :
  place (key, recovered_value rb) s = (Ret (key, placed_record s rb), placed_in s rb).
Proof.
  unfold place, recovered_value, placed_in, placed_record, alloc_res, alloc_disk, mbind, M_bind, mret, M_ret.
  simpl. destruct (rb_g2 rb) as [slots|], (rb_g3 rb) as [[layout disk]|]; done.
Qed.

Lemma placed_step s0 s rs blocks key rb : placed s0 s rs blocks →
  placed s0 (placed_in s rb) (rs ++ [(key, placed_record s rb)]) (blocks ++ [(key, rb)]).
Proof.
  intros [Hh Hd Hf Hr Hg Hs].
  assert (s_res (placed_in s rb) = match rb_g2 rb with None => s_res s
      | Some slots => <[s_next_res s := new_residency slots READY None None]> (s_res s) end ∧
    s_next_res (placed_in s rb) = (match (λ _, s_next_res s) <$> rb_g2 rb with Some _ => S (s_next_res s) | None => s_next_res s end) ∧
    s_g3res (placed_in s rb) = match rb_g3 rb with None => s_g3res s
      | Some (layout, slots) => <[s_next_g3 s := mkG3Residency layout slots 0]> (s_g3res s) end ∧
    s_next_g3 (placed_in s rb) = (match (λ _, s_next_g3 s) <$> rb_g3 rb with Some _ => S (s_next_g3 s) | None => s_next_g3 s end) ∧
    s_records (placed_in s rb) = s_records s ∧ s_pools (placed_in s rb) = s_pools s ∧ s_g3 (placed_in s rb) = s_g3 s)
    as (E1 & E2 & E3 & E4 & E5 & E6 & E7).
  { unfold placed_in. by destruct (rb_g2 rb), (rb_g3 rb) as [[??]|]. }
  assert (∀ rid r, s_res s !! rid = Some r → s_res (placed_in s rb) !! rid = Some r) as Hkr.
  { intros rid r Hrid. rewrite E1. destruct (rb_g2 rb); [|done]. rewrite lookup_insert_ne; [done|].
    intros <-. destruct (Hr _ _ Hrid). lia. }
  assert (∀ gid g, s_g3res s !! gid = Some g → s_g3res (placed_in s rb) !! gid = Some g) as Hkg.
  { intros gid g Hgid. rewrite E3. destruct (rb_g3 rb) as [[??]|]; [|done]. rewrite lookup_insert_ne; [done|].
    intros <-. destruct (Hg _ _ Hgid). lia. }
  split.
  - apply Forall2_app.
    + eapply Forall2_impl; [exact Hh|]. intros x y (H1 & H2 & H3 & H4 & H5 & H6). split_and!; [done..| |].
      * unfold holds_dram in *. destruct (b_local_dram x.2), (rb_g2 y.2); try done. by apply Hkr.
      * unfold holds_file in *. destruct (b_g3 x.2), (rb_g3 y.2) as [[??]|]; try done. by apply Hkg.
    + constructor; [|done]. split_and!; [done..| |]; unfold holds_dram, holds_file; simpl.
      * rewrite E1. destruct (rb_g2 rb); simpl; [|done]. by rewrite lookup_insert_eq.
      * rewrite E3. destruct (rb_g3 rb) as [[??]|]; simpl; [|done]. by rewrite lookup_insert_eq.
  - unfold dram_refs in *. rewrite refs_app, E2. apply refs_next; [done|]. simpl.
    destruct (rb_g2 rb); simpl; [by left|by right].
  - unfold file_refs in *. rewrite refs_app, E4. apply refs_next; [done|]. simpl.
    destruct (rb_g3 rb); simpl; [by left|by right].
  - intros rid r. rewrite E1, E2. destruct (rb_g2 rb) as [slots|]; simpl; [|apply Hr].
    intros [[<- <-]|[_ Hrid]]%lookup_insert_Some; [split; [lia|by eexists]|].
    destruct (Hr _ _ Hrid). split; [lia|done].
  - intros gid g. rewrite E3, E4. destruct (rb_g3 rb) as [[layout slots]|]; simpl; [|apply Hg].
    intros [[<- <-]|[_ Hgid]]%lookup_insert_Some; [split; [lia|done]|].
    destruct (Hg _ _ Hgid). split; [lia|done].
  - destruct Hs as (H1 & H2 & H3). split_and!; congruence.
Qed.

Lemma placed_all s0 blocks : placed s0 s0 [] [] →
  wp (fold_each (λ acc x, r ← place x; mret (acc ++ [r])) [] (prod_map id recovered_value <$> blocks))
    (λ rs s, placed s0 s rs blocks) (λ _ _, False) s0.
Proof.
  intros H0. apply (wp_fold_each _ _ _ (λ rs rest s, ∃ bd br, blocks = bd ++ br ∧
    rest = prod_map id recovered_value <$> br ∧ placed s0 s rs bd)).
  - by exists [], blocks.
  - intros rs x rest s (bd & [|[key rb] br] & -> & Hx & Hp); [done|]. simpl in Hx. injection Hx as -> ->.
    unfold wp, mbind, M_bind. rewrite place_run. simpl.
    exists (bd ++ [(key, rb)]), br. split_and!; [by rewrite <- app_assoc|done|]. by apply placed_step.
  - intros rs s (bd & br & -> & Hbr & Hp). destruct br; [|done]. by rewrite app_nil_r.
Qed.

Lemma NoDup_omap_inj {A B} (f : A → option B) (l : list A) x y b : NoDup (omap f l) →
  x ∈ l → y ∈ l → f x = Some b → f y = Some b → x = y.
Proof.
  induction l as [|a l IH]; intros Hn Hx Hy Hfx Hfy; [by apply not_elem_of_nil in Hx|].
  simpl in Hn. apply elem_of_cons in Hx as [->|Hx], Hy as [->|Hy].
  - done.
  - rewrite Hfx in Hn. apply NoDup_cons in Hn as [Hn _]. destruct Hn. apply list_elem_of_omap. by exists y.
  - rewrite Hfy in Hn. apply NoDup_cons in Hn as [Hn _]. destruct Hn. apply list_elem_of_omap. by exists x.
  - apply IH; try done. destruct (f a); [by apply NoDup_cons in Hn as [_ Hn]|done].
Qed.

(** ** Adoption as a whole *)

(** A core that has just opened its tiers. *)
Record fresh_core (E : Env) (s : St) : Prop := {
  fc_empty : s_records s = ∅ ∧ s_res s = ∅ ∧ s_g3res s = ∅;
  fc_pools : p_claims (s_pools s) = ∅ ∧ p_evictable (s_pools s) = queue_init ∧
    p_evictable_slots (s_pools s) = ∅ ∧ p_unscored (s_pools s) = ∅ ∧ p_source (s_pools s) = empty_source;
  fc_disk : g3_evictable (s_g3 s) = queue_init ∧ g3_evictable_slots (s_g3 s) = 0%Z ∧
    g3_unscored (s_g3 s) = ∅ ∧ g3_pending_keys (s_g3 s) = ∅ ∧ g3_active (s_g3 s) = ∅;
  fc_pinv : pinv E ghost0 s;
  fc_dinv : env_has_g3 E = true → dinv E hand0 s }.

Section Recovered.
Context (E : Env).

Lemma fresh_placed s : fresh_core E s → placed s s [] [].
Proof.
  intros [(_ & Hr & Hg) _ _ _ _]. split; try done; try (split; constructor).
  - intros rid r. by rewrite Hr, lookup_empty.
  - intros gid g. by rewrite Hg, lookup_empty.
Qed.

Section Placed.
Context (s0 s : St) (rs : list (BlockKey * BlockRecord)) (blocks : list (BlockKey * RecoveryBlock)).
Context (Hfresh : fresh_core E s0) (Hp : placed s0 s rs blocks) (Hkeys : NoDup blocks.*1).
Let s' := set_s_records (list_to_map rs) s.

Lemma placed_keys : rs.*1 = blocks.*1.
Proof using Hp.
  pose proof (pl_holds _ _ _ _ Hp) as H. clear -H. induction H as [|x y rs blocks Hx H IH]; [done|].
  rewrite !fmap_cons. f_equal; [apply Hx|exact IH].
Qed.
Lemma placed_perm : rs ≡ₚ map_to_list (s_records s').
Proof using Hp Hkeys. simpl. rewrite map_to_list_to_map; [done|]. by rewrite placed_keys. Qed.
Lemma placed_member k b : s_records s' !! k = Some b ↔ (k, b) ∈ rs.
Proof using Hp Hkeys. simpl. rewrite <- elem_of_list_to_map; [done|]. by rewrite placed_keys. Qed.
Lemma placed_own k rid : own s' !! k = Some rid ↔ ∃ b, (k, b) ∈ rs ∧ b_local_dram b = Some rid.
Proof using Hp Hkeys.
  unfold own. rewrite lookup_omap_Some. split; intros (b & H1 & H2); exists b; rewrite placed_member in *; by split.
Qed.
Lemma placed_down k gid : down s' !! k = Some gid ↔ ∃ b, (k, b) ∈ rs ∧ b_g3 b = Some gid.
Proof using Hp Hkeys.
  unfold down. rewrite lookup_omap_Some. split; intros (b & H1 & H2); exists b; rewrite placed_member in *; by split.
Qed.
Lemma placed_holds k b : (k, b) ∈ rs → ∃ rb, (k, rb) ∈ blocks ∧ holds s (k, b) (k, rb).
Proof using Hp.
  intros Hin. pose proof (pl_holds _ _ _ _ Hp) as H. apply list_elem_of_lookup in Hin as [i Hi].
  destruct (Forall2_lookup_l _ _ _ _ _ H Hi) as ([k' rb] & Hy & Hh). pose proof Hh as [Hk _]. simpl in Hk. subst k'.
  exists rb. split; [by eapply list_elem_of_lookup_2|done].
Qed.

Lemma placed_recovered : recovered E s'.
Proof using Hfresh Hp Hkeys.
  destruct (pl_rest _ _ _ _ Hp) as (_ & Hpools & _).
  destruct (fc_pools _ _ Hfresh) as (F1 & F2 & F3 & F4 & F5). rewrite <- Hpools in F1, F2, F3, F4, F5.
  assert (∀ rid r, s_res s' !! rid = Some r → ∃ slots, r = new_residency slots READY None None) as Hnew
    by (intros rid r Hr; by destruct (pl_res _ _ _ _ Hp _ _ Hr)).
  split; simpl; rewrite ?F1, ?F2, ?F3, ?F4, ?F5.
  - split.
    + intros k rid (b & Hin & Hb)%placed_own. destruct (placed_holds _ _ Hin) as (rb & _ & _ & _ & _ & _ & Hd & _).
      unfold holds_dram in Hd. simpl in Hd. rewrite Hb in Hd. destruct (rb_g2 rb); [by eexists|done].
    + intros rid Hle. destruct (s_res s !! rid) as [r|] eqn:Hr; [|done].
      destruct (pl_res _ _ _ _ Hp _ _ Hr). lia.
    + intros rid r Hr. destruct (Hnew _ _ Hr) as [slots ->]. by intros d [=].
    + intros k k' rid (b & Hin & Hb)%placed_own (b' & Hin' & Hb')%placed_own.
      assert ((k, b) = (k', b')) as [= -> _]; [|done].
      eapply (NoDup_omap_inj (λ x, b_local_dram x.2)); [apply (pl_dram _ _ _ _ Hp)|done..].
  - split; [apply queue_wf_init| |set_solver|].
    + intros k [e He]. change (q_live queue_init) with (∅ : gmap BlockKey qentry) in He. by rewrite lookup_empty in He.
    + intros p. assert (queued queue_init (own s') = ∅) as ->; [|done].
      apply map_eq. intros k. rewrite queued_lookup, decide_False; [done|set_solver].
  - split; simpl; [constructor|intros; set_solver| |intros k rid; rewrite lookup_empty; set_solver| |].
    + intros k rid r _ Hr. by destruct (Hnew _ _ Hr) as [slots ->].
    + intros rid r Hr. destruct (Hnew _ _ Hr) as [slots ->]. intros i ref. simpl. by rewrite lookup_empty.
    + intros k rid. by rewrite lookup_empty.
  - split; simpl.
    + unfold claimants. rewrite map_to_list_empty. set_solver.
    + intros k rid r _ Hr. by destruct (Hnew _ _ Hr) as [slots ->].
    + intros h [x Hx]. by rewrite lookup_empty in Hx.
Qed.

Lemma placed_recovered_disk : recovered_disk s'.
Proof using Hfresh Hp Hkeys.
  destruct (pl_rest _ _ _ _ Hp) as (_ & _ & Hg3).
  destruct (fc_disk _ _ Hfresh) as (F1 & F2 & F3 & F4 & F5). rewrite <- Hg3 in F1, F2, F3, F4, F5.
  split; try done.
  - intros k gid (b & Hin & Hb)%placed_down. destruct (placed_holds _ _ Hin) as (rb & _ & _ & _ & _ & _ & _ & Hd).
    unfold holds_file in Hd. simpl in Hd. rewrite Hb in Hd. destruct (rb_g3 rb) as [[layout slots]|]; [|done].
    by eexists.
  - intros k k' gid (b & Hin & Hb)%placed_down (b' & Hin' & Hb')%placed_down.
    assert ((k, b) = (k', b')) as [= -> _]; [|done].
    eapply (NoDup_omap_inj (λ x, b_g3 x.2)); [apply (pl_file _ _ _ _ Hp)|done..].
  - intros gid Hle. simpl in *. destruct (s_g3res s !! gid) as [g|] eqn:Hr; [|done].
    destruct (pl_g3res _ _ _ _ Hp _ _ Hr). lia.
Qed.

(** The placed records show the blocks. *)
Lemma placed_view : core_view s' = list_to_map blocks.
Proof using Hp Hkeys.
  apply map_eq. intros k. unfold core_view. rewrite lookup_fmap.
  destruct (s_records s' !! k) as [b|] eqn:Hb; simpl.
  - apply placed_member in Hb. destruct (placed_holds _ _ Hb) as (rb & Hin & _ & _ & _ & Hpos & Hd & Hf).
    symmetry. rewrite <- (elem_of_list_to_map (M := gmap BlockKey)) by done. simpl in *.
    assert (observed_block s' b = rb) as ->; [|done]. unfold observed_block. simpl. unfold holds_dram, holds_file in *.
    destruct rb as [g2 g3 pos]. simpl in *. rewrite Hpos. f_equal.
    + destruct (b_local_dram b) as [rid|], g2 as [slots|]; try done. simpl. by rewrite Hd.
    + destruct (b_g3 b) as [gid|], g3 as [[layout slots]|]; try done. simpl. by rewrite Hf.
  - symmetry. apply not_elem_of_list_to_map. rewrite <- placed_keys.
    intros Hin. apply list_elem_of_fmap in Hin as ([k' b] & -> & Hin). apply placed_member in Hin.
    simpl in *. congruence.
Qed.
End Placed.
End Recovered.

Section Whole.
Context (E : Env).

Lemma still_adopt rs : still (adopt_recovery_slots E rs).
Proof. unfold adopt_recovery_slots, adopt_residency, publish_source. still_tac. Qed.
Lemma quiet_get_disk gid : quiet (get_disk gid) (λ _, True).
Proof. intros s. unfold wp, get_disk. by destruct (s_g3res s !! gid). Qed.
Lemma quiet_get_res rid : quiet (get_res rid) (λ _, True).
Proof. intros s. unfold wp, get_res. by destruct (s_res s !! rid). Qed.
Lemma quiet_upd_g3 f : quiet (upd_g3 f) (λ _, True).
Proof. by apply quiet_modify. Qed.
Lemma quiet_score meta tier previous : quiet (policy_eviction_score E meta tier previous) (λ _, True).
Proof.
  intros s. unfold wp, policy_eviction_score, mbind, M_bind, log_call, modify, lift.
  by destruct (invoke_eviction_score _ previous).
Qed.
Lemma quiet_lift {A} (r : result A) : quiet (lift r) (λ _, True).
Proof. intros s. unfold wp, lift. by destruct r. Qed.
Lemma quiet_raise {A} e : quiet (raise (A:=A) e) (λ _, True).
Proof. by intros s. Qed.
Lemma quiet_fold_each {A B} (f : B → A → M St B) acc (l : list A) :
  (∀ acc x, quiet (f acc x) (λ _, True)) → quiet (fold_each f acc l) (λ _, True).
Proof.
  intros Hf. revert acc. induction l as [|x l IH]; intros acc; simpl; [apply quiet_ret|].
  apply quiet_bind; [apply Hf|]. intros acc'. apply IH.
Qed.
Hint Resolve quiet_get_disk quiet_get_res quiet_upd_g3 quiet_score quiet_lift quiet_raise : kvcr.
Ltac quieter :=
  repeat match goal with
  | |- quiet (fold_each _ _ _) _ => apply quiet_fold_each; intros ? ?
  | |- quiet (match ?x with _ => _ end) _ => destruct x
  | |- quiet _ _ => progress quiet_tac
  end.
Lemma quiet_adopt_disk rs : quiet (adopt_disk_slots E rs) (λ _, True).
Proof. unfold adopt_disk_slots, adopt_disk_residency. quieter. Qed.
Lemma quiet_disk_rank key : quiet (disk_make_evictable E key) (λ _, True).
Proof. unfold disk_make_evictable. quieter. Qed.
Lemma quiet_admit x : quiet (admit_recovered E x) (λ _, True).
Proof. unfold admit_recovered, record_size. quieter. Qed.
Lemma still_admit x : still (admit_recovered E x).
Proof. unfold admit_recovered, record_size. still_tac. Qed.

(** Steadiness of a state, as an outcome. *)
Lemma wp_steady {A} (m : M St A) s0 s : preserves (steady s0) m → steady s0 s →
  wp m (λ _, steady s0) (λ _, steady s0) s.
Proof. intros Hm Hs. exact (Hm s Hs). Qed.

(** *** The invariants of both tiers, and a view that stays *)

Record settled (s0 s : St) : Prop := {
  se_steady : steady s0 s;
  se_pinv : pinv E ghost0 s;
  se_dinv : env_has_g3 E = true → dinv E hand0 s }.
Definition settles {A} (s0 : St) (m : M St A) : Prop := ∀ s, settled s0 s →
  wp m (λ _ s', settled s0 s') (λ e s', overflow e ∧ settled s0 s') s.

Lemma settles_for_each {A} s0 (l : list A) (f : A → M St unit) :
  (∀ x, x ∈ l → settles s0 (f x)) → settles s0 (for_each l f).
Proof.
  induction l as [|x l IH]; intros Hf s Hs; simpl; [by wp|]. apply wp_bind.
  eapply wp_mono; [apply Hf; [left|done]| |done]. intros [] s' Hs'. apply IH; [|done].
  intros y Hy. apply Hf. by right.
Qed.
Lemma settles_bind {A B} s0 (m : M St A) (f : A → M St B) :
  settles s0 m → (∀ a, settles s0 (f a)) → settles s0 (m ≫= f).
Proof. intros Hm Hf s Hs. apply wp_bind. eapply wp_mono; [by apply Hm|intros a s'; apply Hf|done]. Qed.
Lemma settles_ret {A} s0 (a : A) : settles s0 (mret a).
Proof. intros s Hs. by wp. Qed.
Lemma settles_rank key s0 : is_Some (s_records s0 !! key) → settles s0 (make_evictable E key).
Proof.
  intros Hk s [H1 H2 H3]. eapply wp_mono;
    [apply wp_conj; [apply (wp_conj (make_evictable E key)); [apply (wp_steady _ _ _ (steady_make_evictable E s0 key) H1)|
      apply (still_make_evictable E key s)]|
      eapply (wp_make_evictable E key ghost0 (λ _ s', pinv E ghost0 s') (λ e s', overflow e ∧ pinv E ghost0 s'));
        [done|by rewrite (st_records _ _ H1)|done|done]]| |].
  - intros _ s' [[Hst Hsd] Hp]. split; [done|done|]. intros Hg. eapply dinv_same; [done|by apply H3].
  - intros e s' [[Hst Hsd] [He Hp]]. split; [done|]. split; [done|done|]. intros Hg. eapply dinv_same; [done|by apply H3].
Qed.
Lemma settles_disk_rank key s0 : env_has_g3 E = true → settles s0 (disk_make_evictable E key).
Proof.
  intros Hg s [H1 H2 H3]. eapply wp_mono;
    [apply wp_conj; [apply (wp_conj (disk_make_evictable E key)); [apply (wp_steady _ _ _ (steady_disk_rank E s0 key) H1)|
      apply (quiet_disk_rank key s)]|
      eapply (wp_disk_rank E hand0 key (λ _ s', dinv E hand0 s') (λ e s', overflow e ∧ dinv E hand0 s'));
        [by apply H3|done|done]]| |].
  - intros _ s' [[Hst Hsv] Hd]. split; [done|by apply (pinv_proper E ghost0 _ _ Hsv)|done].
  - intros e s' [[Hst [_ Hsv]] [He Hd]]. split; [done|]. split; [done|by apply (pinv_proper E ghost0 _ _ Hsv)|done].
Qed.

(** The policy hears of a block that has a residency. *)
Definition sized (s : St) (b : BlockRecord) : Prop :=
  match b_local_dram b, b_g3 b with
  | Some rid, _ => is_Some (s_res s !! rid)
  | None, Some gid => is_Some (s_g3res s !! gid)
  | None, None => False
  end.
Lemma steady_sized s0 s b : steady s0 s → sized s0 b → sized s b.
Proof.
  intros [_ Hv Hg]. unfold sized. rewrite Hg. destruct (b_local_dram b) as [rid|]; [|done].
  specialize (Hv rid). unfold res_view in Hv. intros [r Hr]. rewrite Hr in Hv.
  by apply fmap_Some in Hv as (r' & -> & _).
Qed.
Lemma settles_admit key b s0 : sized s0 b → settles s0 (admit_recovered E (key, b)).
Proof.
  intros Hb s [H1 H2 H3]. pose proof (steady_sized _ _ _ H1 Hb) as Hs.
  assert (wp (admit_recovered E (key, b)) (λ _ _, True) (λ _ _, False) s) as Hok.
  { unfold admit_recovered, record_size, log_call, sized in *. destruct (b_local_dram b) as [rid|].
    - destruct Hs as [r Hr]. repeat apply wp_bind. eapply wp_get_res; [done|]. by wp.
    - destruct (b_g3 b) as [gid|]; [|done]. destruct Hs as [g Hr]. repeat apply wp_bind.
      eapply wp_get_disk; [done|]. by wp. }
  pose proof (wp_steady _ _ _ (steady_admit E s0 (key, b)) H1) as Hst.
  pose proof (quiet_admit (key, b) s) as Hsv. pose proof (still_admit (key, b) s) as Hsd.
  eapply wp_mono; [exact (wp_conj _ _ _ _ _ _ Hok (wp_conj _ _ _ _ _ _ Hst (wp_conj _ _ _ _ _ _ Hsv Hsd)))| |by intros e s' [? _]].
  clear Hst Hsv Hsd.
  intros _ s' (_ & Hst & Hsv & Hsd). split; [done|by apply (pinv_proper E ghost0 _ _ Hsv)|].
  intros Hg. eapply dinv_same; [done|by apply H3].
Qed.

Section Placed.
Context (s0 s : St) (rs : list (BlockKey * BlockRecord)) (blocks : list (BlockKey * RecoveryBlock)).
Context (Hfresh : fresh_core E s0) (Hp : placed s0 s rs blocks) (Hsound : sound E blocks).
Let s' := set_s_records (list_to_map rs) s.
Let Hkeys := so_keys E blocks Hsound.

Lemma wp_recover_dram : wp (adopt_recovery_slots E rs)
  (λ _ s2, steady s' s2 ∧ pinv E ghost0 s2 ∧ same_disk s' s2) (λ _ _, False) s'.
Proof using Hfresh Hp Hsound.
  pose proof (wp_adopt_dram_total E rs blocks s' (pl_holds _ _ _ _ Hp) (proj1 (pl_dram _ _ _ _ Hp)) Hsound) as Hok.
  assert (wp (adopt_recovery_slots E rs) (λ _ s2, pinv E ghost0 s2 ∧ own s2 = own s') (λ _ _, True) s') as Hpi.
  { apply wp_adopt_recovery_slots; [by eapply placed_perm|by eapply placed_recovered|].
    simpl. destruct (pl_rest _ _ _ _ Hp) as (_ & -> & _).
    by destruct (fc_pools _ _ Hfresh) as (_ & _ & _ & _ & ->). }
  pose proof (wp_steady _ _ _ (steady_adopt E s' rs) (reflexivity s')) as Hst.
  pose proof (still_adopt rs s') as Hsd.
  eapply wp_mono; [exact (wp_conj _ _ _ _ _ _ Hok (wp_conj _ _ _ _ _ _ Hpi (wp_conj _ _ _ _ _ _ Hst Hsd)))| |by intros e s2 [? _]].
  by intros [] s2 (_ & [H1 _] & H2 & H3).
Qed.

(** What the disk tier looks at is still there after the DRAM tier has adopted. *)
Lemma dram_kept_layouts s2 : steady s' s2 →
  Forall2 (λ x y, holds_file s2 x.2 y.2 ∧ same_layout s2 x.2 y.2) rs blocks.
Proof using Hp.
  intros [_ Hv Hg]. eapply Forall2_impl; [exact (pl_holds _ _ _ _ Hp)|].
  intros x y (_ & _ & _ & _ & Hd & Hf). split.
  - unfold holds_file in *. by rewrite Hg.
  - intros rid Hrid. unfold holds_dram in Hd. rewrite Hrid in Hd. destruct (rb_g2 y.2) as [slots|] eqn:H2; [|done].
    specialize (Hv rid). unfold res_view in Hv. simpl in Hv. rewrite Hd in Hv. simpl in Hv.
    apply fmap_Some in Hv as (r & Hr & [= _ _ _ Hl]). exists r, slots. by rewrite <- Hl.
Qed.

Lemma wp_recover_disk s2 : env_has_g3 E = true → steady s' s2 → pinv E ghost0 s2 → same_disk s' s2 →
  wp (adopt_disk_slots E rs) (λ _ s3, settled s' s3) (λ _ _, False) s2.
Proof using Hfresh Hp Hsound.
  intros Hg3 Hst Hpi [Sd Sr Sn Sg].
  pose proof (wp_adopt_disk_total E rs blocks s2 (dram_kept_layouts _ Hst) Hsound) as Hok.
  assert (recovered_disk s2) as Hrec.
  { destruct (placed_recovered_disk E s0 s rs blocks Hfresh Hp Hkeys). split; rewrite ?Sd, ?Sr, ?Sn, ?Sg; done. }
  assert (wp (adopt_disk_slots E rs) (λ _ s3, dinv E hand0 s3) (λ _ _, True) s2) as Hd.
  { assert (rs ≡ₚ map_to_list (s_records s2)) as Hperm by (rewrite (st_records _ _ Hst); by eapply placed_perm).
    eapply wp_mono; [exact (wp_adopt_disk_slots E rs s2 Hperm Hrec)|by intros [] s3 (? & _)|done]. }
  pose proof (wp_steady _ _ _ (steady_adopt_disk E s' rs) Hst) as Hst'.
  pose proof (quiet_adopt_disk rs s2) as Hsv.
  eapply wp_mono; [exact (wp_conj _ _ _ _ _ _ Hok (wp_conj _ _ _ _ _ _ Hd (wp_conj _ _ _ _ _ _ Hst' Hsv)))| |by intros e s3 [? _]].
  intros [] s3 (_ & H1 & H2 & H3). split; [done|by apply (pinv_proper E ghost0 _ _ H3)|done].
Qed.

(** Every placed record has an object that says how large the block is. *)
Lemma placed_sized key b : (key, b) ∈ rs → sized s' b.
Proof using Hp Hsound.
  intros Hin. destruct (placed_holds _ _ _ _ Hp _ _ Hin) as (rb & Hrb & _ & _ & _ & _ & Hd & Hf).
  pose proof (so_blocks _ _ Hsound) as Hall. rewrite list.Forall_forall in Hall.
  destruct (so_some _ _ (Hall _ Hrb)) as [H|H]; simpl in *; unfold sized, holds_dram, holds_file in *; simpl in *.
  - by destruct (b_local_dram b) as [rid|], (rb_g2 rb) as [slots|].
  - destruct (b_local_dram b) as [rid|], (rb_g2 rb) as [slots|]; try done.
    by destruct (b_g3 b) as [gid|], (rb_g3 rb) as [[??]|].
Qed.

Lemma settles_recover_rest : settles s'
  (for_each rs (admit_recovered E) ;; rank_recovered E rs ;;
   if env_has_g3 E then rank_recovered_disk E rs else mret tt).
Proof using Hp Hsound.
  assert (∀ key b, (key, b) ∈ rs → s_records s' !! key = Some b) as Hin
    by (intros key b H; by eapply placed_member).
  apply settles_bind; [|intros _; apply settles_bind; [|intros _; destruct (env_has_g3 E) eqn:Hg3]].
  - apply settles_for_each. intros [key b] H. by apply settles_admit, placed_sized with key.
  - apply settles_for_each. intros [key b] H. case_decide; [apply settles_ret|].
    apply settles_rank. rewrite (Hin _ _ H). by eexists.
  - apply settles_for_each. intros [key b] H. case_decide; [apply settles_ret|by apply settles_disk_rank].
  - apply settles_ret.
Qed.

(** Blocks of a sound view with files need a disk tier. *)
Lemma placed_files : ¬ (env_has_g3 E = false ∧ Exists (λ x : BlockKey * BlockRecord, b_g3 x.2 ≠ None) rs).
Proof using Hp Hsound.
  intros [Hg H]. apply Exists_exists in H as ([key b] & Hin & Hb).
  destruct (placed_holds _ _ _ _ Hp _ _ Hin) as (rb & Hrb & _ & _ & _ & _ & _ & Hf).
  pose proof (so_blocks _ _ Hsound) as Hall. rewrite list.Forall_forall in Hall. specialize (Hall _ Hrb).
  unfold holds_file in Hf. simpl in *. destruct (b_g3 b) as [gid|]; [|done].
  destruct (rb_g3 rb) as [[layout slots]|] eqn:H3; [|done].
  destruct (so_file _ _ Hall _ _ H3) as [Hg' _]. congruence.
Qed.
End Placed.

(** ** A new core shows what the mirror held *)

Lemma wp_adopt_placed s0 s rs blocks : fresh_core E s0 → placed s0 s rs blocks → sound E blocks →
  blocks ≠ [] → let s' := set_s_records (list_to_map rs) s in
  wp (adopt_recovery_records E true rs) (λ _, settled s') (λ e s3, overflow e ∧ settled s' s3) s.
Proof.
  intros Hfresh Hp Hsound Hne s'. unfold adopt_recovery_records. rewrite decide_False.
  2: { intros ->. by apply Hne, (Forall2_nil_inv_l _ _ (pl_holds _ _ _ _ Hp)). }
  simpl. rewrite decide_False by (by eapply placed_files). apply wp_bind, wp_gets.
  destruct (pl_rest _ _ _ _ Hp) as (Hr & _ & _).
  rewrite decide_False by (rewrite Hr; intros H; apply H, (fc_empty _ _ Hfresh)).
  apply wp_bind, wp_modify, wp_bind. fold s'.
  eapply wp_mono; [by eapply wp_recover_dram| |done]. intros [] s2 (Hst & Hpi & Hsd).
  apply wp_bind. eapply (wp_mono _ _ (λ _, settled s') _ (λ _ _, False)); [| |done].
  - destruct (env_has_g3 E) eqn:Hg3; [by eapply wp_recover_disk|]. wp. split; [done|done|congruence].
  - intros [] s3 Hs3. by eapply settles_recover_rest.
Qed.

(** What recovering [view] must leave. *)
Definition restored (view : gmap BlockKey RecoveryBlock) (s : St) : Prop :=
  core_view s = view ∧ pinv E ghost0 s ∧ (env_has_g3 E = true → dinv E hand0 s).
Lemma wp_recover s0 blocks : fresh_core E s0 → sound E blocks →
  wp (recover E (prod_map id recovered_value <$> blocks))
    (λ _, restored (list_to_map blocks)) (λ e s, overflow e ∧ restored (list_to_map blocks) s) s0.
Proof.
  intros Hfresh Hsound. destruct (decide (blocks = [])) as [->|Hne].
  { destruct Hfresh as [(H1 & _ & _) _ _ H2 H3]. unfold wp. simpl. split_and!; [|done|done].
    unfold core_view. by rewrite H1. }
  unfold recover. apply wp_bind.
  eapply wp_mono; [by apply placed_all, fresh_placed with E| |done]. intros rs s Hp.
  assert (∀ s3, settled (set_s_records (list_to_map rs) s) s3 → restored (list_to_map blocks) s3) as Hend.
  { intros s3 [Hst Hpi Hd]. split_and!; [|done|done]. rewrite (steady_view _ _ Hst).
    eapply (placed_view s0); [exact Hp|by eapply so_keys]. }
  eapply wp_mono; [exact (wp_adopt_placed s0 s rs blocks Hfresh Hp Hsound Hne)|intros []; exact Hend|].
  intros e s3 [He Hs3]. split; [done|by apply Hend].
Qed.

(** C23: A core with freshly opened tiers takes over every record of a sound mirror, in whatever order
    the mirror lists them: adoption refuses nothing, afterwards the core shows exactly the
    mirror's blocks, and both tiers keep their invariants. The only error that can come out
    is the arithmetic of an eviction score when a block is ranked, and it loses nothing. *)
Theorem recovery_restores_blocks s0 blocks : fresh_core E s0 → sound E blocks →
  wp (recover E (prod_map id recovered_value <$> blocks))
    (λ _, restored (list_to_map blocks)) (λ e s, overflow e ∧ restored (list_to_map blocks) s) s0.
Proof. apply wp_recover. Qed.

End Whole.

(** ** The blocks of a running core are sound *)

Definition shown (rb : RecoveryBlock) : bool :=
  match rb_g2 rb, rb_g3 rb with None, None => false | _, _ => true end.
(** What the journal's reader has of a core: the blocks that have a complete residency. *)
Definition recoverable_view (s : St) : gmap BlockKey RecoveryBlock :=
  filter (λ x, shown x.2 = true) (core_view s).

Section Running.
Context (E : Env) (s : St) (l : list (BlockKey * RecoveryBlock)).
Context (Hl : l ≡ₚ map_to_list (recoverable_view s)).

Lemma running_sub : l ⊆+ prod_map id (observed_block s) <$> map_to_list (s_records s).
Proof using Hl.
  rewrite Hl. unfold recoverable_view, core_view. rewrite <- map_to_list_fmap.
  apply NoDup_submseteq; [apply NoDup_map_to_list|]. intros [k rb] Hin.
  apply elem_of_map_to_list in Hin. apply map_lookup_filter_Some in Hin as [Hin _].
  by apply elem_of_map_to_list.
Qed.
Lemma running_dram : dram_slots l ⊆+ slots_of (own s) (s_res s).
Proof using Hl.
  etransitivity; [apply (bind_submseteq _ _ _ running_sub)|]. unfold slots_of, own.
  rewrite map_to_list_omap. induction (map_to_list (s_records s)) as [|[k b] rs IH]; [done|].
  csimpl. destruct (b_local_dram b) as [rid|] eqn:Hd; csimpl.
  - apply submseteq_app; [|exact IH]. unfold res_slots.
    destruct (s_res s !! rid) as [r|]; [|done]. by destruct (complete_residency r); [|apply submseteq_nil_l].
  - exact IH.
Qed.
Lemma running_files : file_slots l ⊆+ DiskInv.slots_at (s_g3res s) (map_to_list (down s)).
Proof using Hl.
  etransitivity; [apply (bind_submseteq _ _ _ running_sub)|]. unfold DiskInv.slots_at, down.
  rewrite map_to_list_omap. induction (map_to_list (s_records s)) as [|[k b] rs IH]; [done|].
  csimpl. destruct (b_g3 b) as [gid|] eqn:Hd; csimpl; [|exact IH].
  apply submseteq_app; [|exact IH]. unfold gslots. by destruct (s_g3res s !! gid).
Qed.

Lemma running_pool g p : pinv E g s → pslots p (dram_slots l) ⊆+ seqZ 0 (slot_total E p).
Proof using Hl.
  intros Hp. pose proof (si_conserved _ _ _ _ _ (pi_slots _ _ _ Hp) p) as Hc. rewrite <- Hc.
  destruct (submseteq_Permutation _ _ running_dram) as [x Hx]. rewrite Hx, pslots_app.
  apply submseteq_inserts_l, submseteq_inserts_r, submseteq_inserts_r. done.
Qed.

Lemma running_sound g h : pinv E g s → dinv E h s →
  map_Forall (λ _, sound_block E) (recoverable_view s) → sound E l.
Proof using Hl.
  intros Hp Hd Hb.
  assert (∀ p, Forall (λ slot, 0 <= slot < slot_total E p)%Z (pslots p (dram_slots l))) as Hrange.
  { intros p. eapply submseteq_Forall; [by eapply running_pool|]. apply list.Forall_forall. intros x Hx.
    apply elem_of_seqZ in Hx. lia. }
  split; try done.
  - rewrite Hl. apply NoDup_fst_map_to_list.
  - rewrite Hl. by apply map_Forall_to_list in Hb; eapply list.Forall_impl; [exact Hb|intros []].
  - apply list.Forall_forall. intros [lb slot] Hin. simpl.
    specialize (Hrange (pool_of lb)). rewrite list.Forall_forall in Hrange.
    assert (slot ∈ pslots (pool_of lb) (dram_slots l)) as Hs.
    { unfold pslots. apply list_elem_of_fmap. exists (lb, slot). split; [done|]. by apply list_elem_of_filter. }
    specialize (Hrange _ Hs). unfold slot_total in Hrange.
    destruct (env_regions E !! pool_of lb); [by eexists|lia].
  - intros p. eapply submseteq_NoDup; [by eapply running_pool|apply NoDup_seqZ].
  - assert (file_slots l ⊆+ seqZ 0 (total_slots E)) as Hf.
    { pose proof (di_slots _ _ _ Hd) as Hs. unfold disk_slots_inv in Hs. rewrite <- Hs. unfold homes. rewrite slots_at_app.
      apply submseteq_inserts_l, submseteq_inserts_r, submseteq_inserts_r, running_files. }
    split; [eapply submseteq_NoDup; [exact Hf|apply NoDup_seqZ]|].
    eapply submseteq_Forall; [exact Hf|]. apply list.Forall_forall. intros x Hx.
    apply elem_of_seqZ in Hx. lia.
Qed.
End Running.

(** C15: Failover keeps the blocks. A core dies with any work in flight while its tiers keep their
    invariants; if its complete residencies have layouts that the configured pools accept,
    then a new core over the same pools and files takes over a mirror of them, in whatever
    order, without refusing one, and shows exactly the blocks the dead core had completely
    stored, with both tiers' invariants. *)
Theorem failover_keeps_blocks E g h s0 s l : pinv E g s → dinv E h s →
  map_Forall (λ _, sound_block E) (recoverable_view s) →
  l ≡ₚ map_to_list (recoverable_view s) → fresh_core E s0 →
  wp (recover E (prod_map id recovered_value <$> l))
    (λ _, restored E (recoverable_view s))
    (λ e s', overflow e ∧ restored E (recoverable_view s) s') s0.
Proof.
  intros Hp Hd Hb Hl Hfresh. assert (recoverable_view s = list_to_map l) as ->.
  { rewrite <- (list_to_map_to_list (M := gmap BlockKey) (recoverable_view s)). symmetry.
    apply list_to_map_proper; [|done]. rewrite Hl. apply NoDup_fst_map_to_list. }
  apply wp_recover; [done|by eapply running_sound].
Qed.

(** ** Witnesses: two blocks, one in both tiers and one in its files only *)

Module RecoverDemo.
Definition env : Env := DiskDemo.env.
Definition opened : St := DiskDemo.opened.
Definition blocks : list (BlockKey * RecoveryBlock) :=
  [("k1", mkRecoveryBlock (Some [("a", 1%Z)]) (Some (["a"], [0%Z])) 4);
   ("k2", mkRecoveryBlock None (Some (["a"], [2%Z])) 5)].
Lemma fresh : fresh_core env opened.
Proof.
  split; try (split_and!; reflexivity).
  - apply (pinv_proper env ghost0 (initial_state (pools_state demo_regions))); [by split|].
    apply pinv_initial; [done|]. apply NoDup_singleton.
  - intros _. exact (proj1 (fresh_dinv env (mret tt) (λ _ _, mret tt) (λ _, None) 16 DiskDemo.config opened DiskDemo.opened_fresh)).
Qed.
Lemma sound_blocks : sound env blocks.
Proof.
  split.
  - repeat constructor; set_solver.
  - apply Forall_cons. split; [|apply Forall_singleton]; split; simpl; try by (left + right).
    + by intros slots [= <-].
    + by intros layout slots [= <- <-].
    + by intros slots layout disk [= <-] [= <- <-].
    + by intros slots.
    + by intros layout slots [= <- <-].
    + by intros slots layout disk.
  - change (dram_slots blocks) with [("a" : label, 1%Z)]. apply Forall_singleton. by eexists.
  - intros p. change (dram_slots blocks) with [("a" : label, 1%Z)]. rewrite pslots_cons.
    case_decide; [apply NoDup_singleton|apply NoDup_nil_2].
  - intros p. change (dram_slots blocks) with [("a" : label, 1%Z)]. rewrite pslots_cons.
    case_decide as Hp; [|done]. simpl in Hp. apply Forall_singleton. subst p. by vm_compute.
  - split; [repeat constructor; set_solver|]. by repeat constructor.
Qed.
Definition taken_over : St := (recover env (prod_map id recovered_value <$> blocks) opened).2.
Lemma taken_over_ok : restored env (list_to_map blocks) taken_over.
Proof.
  pose proof (wp_recover env opened blocks fresh sound_blocks) as H. unfold wp in H.
  unfold taken_over. destruct (recover _ _ _) as [[[]|e] s]; [exact H|apply H].
Qed.
Lemma taken_over_view : recoverable_view taken_over = list_to_map blocks.
Proof. unfold recoverable_view. rewrite (proj1 taken_over_ok). vm_compute. reflexivity. Qed.
End RecoverDemo.

Lemma recovery_restores_blocks_witness :
  (recover RecoverDemo.env (prod_map id recovered_value <$> RecoverDemo.blocks) RecoverDemo.opened).1 = Ret tt ∧
  wp (recover RecoverDemo.env (prod_map id recovered_value <$> RecoverDemo.blocks))
    (λ _, restored RecoverDemo.env (list_to_map RecoverDemo.blocks))
    (λ e s, overflow e ∧ restored RecoverDemo.env (list_to_map RecoverDemo.blocks) s) RecoverDemo.opened.
Proof.
  split; [vm_compute; reflexivity|].
  exact (recovery_restores_blocks RecoverDemo.env RecoverDemo.opened RecoverDemo.blocks
    RecoverDemo.fresh RecoverDemo.sound_blocks).
Defined.

(** The core that took over dies too, and a third one takes over from it. *)
Lemma failover_keeps_blocks_witness :
  wp (recover RecoverDemo.env (prod_map id recovered_value <$> map_to_list (recoverable_view RecoverDemo.taken_over)))
    (λ _, restored RecoverDemo.env (recoverable_view RecoverDemo.taken_over))
    (λ e s', overflow e ∧ restored RecoverDemo.env (recoverable_view RecoverDemo.taken_over) s') RecoverDemo.opened.
Proof.
  destruct RecoverDemo.taken_over_ok as (_ & Hp & Hd).
  refine (failover_keeps_blocks RecoverDemo.env ghost0 hand0 RecoverDemo.opened RecoverDemo.taken_over _
    Hp (Hd eq_refl) _ (Permutation_refl _) RecoverDemo.fresh).
  rewrite RecoverDemo.taken_over_view. apply map_Forall_to_list.
  rewrite map_to_list_to_map by apply RecoverDemo.sound_blocks.
  eapply list.Forall_impl; [apply (so_blocks _ _ RecoverDemo.sound_blocks)|]. by intros [k rb].
Defined.
