(* ===== verification/Remote.v ===== *)
(** * Remote writes: messages, peers and their state

    The progress-thread half of [src/src/kvcr/backends/remote_fw_dram.py], with the messages of
    [remote_ops.py] and the state of [dangling_ops.py].  A target asks a source for blocks with
    a [start_write] on the control channel; the source writes them into the target's memory
    with NIXL, whose notification tells the target that the write is done.

    A process is its core (main-thread state, [State.v]) and its wire (progress-thread state).
    The control channel, the NIXL agent and [time.monotonic] are outside the repository: their
    answers are functions of the number of questions asked so far. *)

From Stdlib Require Import ZArith Lia.
From S2P Require Import Prelude PyFloat Types PolicyRuntime Layout State CoreBase Pools Transfer Disk LocalDram Core.

(** ** Control messages

    [msgspec] encodes and decodes them; the model exchanges the decoded values.  An absent
    field ([UNSET] or [None]) is [None]. *)

Inductive ControlBody :=
  | StartWrite (op_handle : Z) (remaining_timeout_ms : float) (keys : list BlockKey)
      (dst_descriptors : list (list TransferRef)) (key_layout : list label)
      (source_incarnation : option string)
  | TargetMetadata
  | TargetMetadataAck (op_handle : option Z)
  | WriteRefused (op_handle : Z) (reason : option string)
  | WriteProbe (op_handle : Z) (source_incarnation : option string)
  | WriteProbeAck (op_handle : Z) (terminal : bool) (dead_incarnation : option string).
(** [_PeerMessage] *)
Record ControlMessage := mkControlMessage {
  cm_target_agent : option string;
  cm_metadata : option string;
  cm_regions : option RegionMaps;
  cm_incarnation : option string;
  cm_sender_endpoint : option string;
  cm_source_endpoint : option string;
  cm_body : ControlBody }.
Definition message (body : ControlBody) : ControlMessage := mkControlMessage None None None None None None body.
Definition reply (sender : string) (body : ControlBody) : ControlMessage :=
  mkControlMessage None None None None (Some sender) None body.

(** The payload of a NIXL notification ([_write_done_notif]). *)
Record WriteDone := mkWriteDone {
  wd_op_handle : Z;
  wd_success : bool;
  wd_completed_indices : option (list Z);
  wd_terminal : bool }.
Definition write_done_notif (op_handle : Z) (success : bool) (completed_indices : list nat)
    (terminal : bool) : WriteDone :=
  mkWriteDone op_handle success
    (if success then Some (Z.of_nat <$> completed_indices) else None) terminal.

(** What a target operation hears in one turn: merged notifications, or a refusal. *)
Record PullEvent := mkPullEvent {
  pe_terminal : bool;
  pe_success : bool;
  pe_cancelled : bool;
  pe_completed_indices : option (list Z);
  pe_retry_metadata : option string }.
Definition refused_event : PullEvent := mkPullEvent true false false None None.
Definition retry_event (incarnation : string) : PullEvent :=
  mkPullEvent false false false None (Some incarnation).

(** ** State *)

(** [_SourceWriteStatus] *)
Record WriteStatus := mkWriteStatus {
  ws_submitted : bool;
  ws_cancel_requested : bool;
  ws_cancel_deadline : option float;
  ws_abandoned : bool }.
Definition new_status : WriteStatus := mkWriteStatus false false None false.
Definition set_submitted (s : WriteStatus) : WriteStatus :=
  mkWriteStatus true (ws_cancel_requested s) (ws_cancel_deadline s) (ws_abandoned s).
Definition set_cancel_requested (s : WriteStatus) : WriteStatus :=
  mkWriteStatus (ws_submitted s) true (ws_cancel_deadline s) (ws_abandoned s).
Definition set_cancel_deadline (d : float) (s : WriteStatus) : WriteStatus :=
  mkWriteStatus (ws_submitted s) (ws_cancel_requested s) (Some d) (ws_abandoned s).
Definition set_abandoned (s : WriteStatus) : WriteStatus :=
  mkWriteStatus (ws_submitted s) (ws_cancel_requested s) (ws_cancel_deadline s) true.

(** The outbound list: items for the main thread, and the errors it reports to the
    framework. *)
Inductive Outbound :=
  | OutRemote (item : RemoteItem)
  | OutTargetMemory (op_handle : Z) (quiesced : bool) (regions : list MemoryRef) (kvcr : bool)
  | OutSourceMemory (source_op : Z) (quiesced : bool) (blocks : list (BlockKey * list MemoryRef))
      (owners : list (BlockKey * bool))
  | OutStalled.

(** The operations in flight of the remote tier, by identity, in the dict's order. *)
Inductive InFlight := InPull (op : TargetPull) | InWrite (op : SourceWrite).

(** The progress-thread attributes of [_RemoteFWDram] and [_DanglingOps], with those of
    [_KVCRProgress] they use: the transfer table, the operations in flight, and the completed
    items for the main thread.  [w_sent] and [w_notified] are the messages and notifications
    given to the transports, with the channel's answer. *)
Record Wire := mkWire {
  w_prog : Prog;
  w_stop_requested : bool;
  w_in_flight : list (OpId * InFlight);
  w_sources : gmap string string;
  w_dead_incarnations : gset string;
  w_source_writes : gmap (string * Z) WriteStatus;
  w_last_progress_at : option float;
  w_source_stalled : bool;
  w_agents : gmap string (string * string * RegionMaps);
  w_generation : gmap string Z;
  w_acked : gset string;
  w_retry_after : gmap string float;
  w_refused : gmap Z PullEvent;
  w_pending_local : list (SourceWrite * list label);
  w_outbound : list Outbound;
  w_published_count : Z;
  w_completed : list Outbound;
  w_next_source_op : Z;
  w_sent : list (string * ControlMessage * bool);
  w_notified : list (string * WriteDone);
  w_tick : nat }.

Definition set_w_prog (v : Prog) (w : Wire) : Wire :=
  mkWire v (w_stop_requested w) (w_in_flight w) (w_sources w) (w_dead_incarnations w) (w_source_writes w) (w_last_progress_at w) (w_source_stalled w) (w_agents w) (w_generation w) (w_acked w) (w_retry_after w) (w_refused w) (w_pending_local w) (w_outbound w) (w_published_count w) (w_completed w) (w_next_source_op w) (w_sent w) (w_notified w) (w_tick w).
Definition set_w_stop_requested (v : bool) (w : Wire) : Wire :=
  mkWire (w_prog w) v (w_in_flight w) (w_sources w) (w_dead_incarnations w) (w_source_writes w) (w_last_progress_at w) (w_source_stalled w) (w_agents w) (w_generation w) (w_acked w) (w_retry_after w) (w_refused w) (w_pending_local w) (w_outbound w) (w_published_count w) (w_completed w) (w_next_source_op w) (w_sent w) (w_notified w) (w_tick w).
Definition set_w_in_flight (v : list (OpId * InFlight)) (w : Wire) : Wire :=
  mkWire (w_prog w) (w_stop_requested w) v (w_sources w) (w_dead_incarnations w) (w_source_writes w) (w_last_progress_at w) (w_source_stalled w) (w_agents w) (w_generation w) (w_acked w) (w_retry_after w) (w_refused w) (w_pending_local w) (w_outbound w) (w_published_count w) (w_completed w) (w_next_source_op w) (w_sent w) (w_notified w) (w_tick w).
Definition set_w_sources (v : gmap string string) (w : Wire) : Wire :=
  mkWire (w_prog w) (w_stop_requested w) (w_in_flight w) v (w_dead_incarnations w) (w_source_writes w) (w_last_progress_at w) (w_source_stalled w) (w_agents w) (w_generation w) (w_acked w) (w_retry_after w) (w_refused w) (w_pending_local w) (w_outbound w) (w_published_count w) (w_completed w) (w_next_source_op w) (w_sent w) (w_notified w) (w_tick w).
Definition set_w_dead_incarnations (v : gset string) (w : Wire) : Wire :=
  mkWire (w_prog w) (w_stop_requested w) (w_in_flight w) (w_sources w) v (w_source_writes w) (w_last_progress_at w) (w_source_stalled w) (w_agents w) (w_generation w) (w_acked w) (w_retry_after w) (w_refused w) (w_pending_local w) (w_outbound w) (w_published_count w) (w_completed w) (w_next_source_op w) (w_sent w) (w_notified w) (w_tick w).
Definition set_w_source_writes (v : gmap (string * Z) WriteStatus) (w : Wire) : Wire :=
  mkWire (w_prog w) (w_stop_requested w) (w_in_flight w) (w_sources w) (w_dead_incarnations w) v (w_last_progress_at w) (w_source_stalled w) (w_agents w) (w_generation w) (w_acked w) (w_retry_after w) (w_refused w) (w_pending_local w) (w_outbound w) (w_published_count w) (w_completed w) (w_next_source_op w) (w_sent w) (w_notified w) (w_tick w).
Definition set_w_last_progress_at (v : option float) (w : Wire) : Wire :=
  mkWire (w_prog w) (w_stop_requested w) (w_in_flight w) (w_sources w) (w_dead_incarnations w) (w_source_writes w) v (w_source_stalled w) (w_agents w) (w_generation w) (w_acked w) (w_retry_after w) (w_refused w) (w_pending_local w) (w_outbound w) (w_published_count w) (w_completed w) (w_next_source_op w) (w_sent w) (w_notified w) (w_tick w).
Definition set_w_source_stalled (v : bool) (w : Wire) : Wire :=
  mkWire (w_prog w) (w_stop_requested w) (w_in_flight w) (w_sources w) (w_dead_incarnations w) (w_source_writes w) (w_last_progress_at w) v (w_agents w) (w_generation w) (w_acked w) (w_retry_after w) (w_refused w) (w_pending_local w) (w_outbound w) (w_published_count w) (w_completed w) (w_next_source_op w) (w_sent w) (w_notified w) (w_tick w).
Definition set_w_agents (v : gmap string (string * string * RegionMaps)) (w : Wire) : Wire :=
  mkWire (w_prog w) (w_stop_requested w) (w_in_flight w) (w_sources w) (w_dead_incarnations w) (w_source_writes w) (w_last_progress_at w) (w_source_stalled w) v (w_generation w) (w_acked w) (w_retry_after w) (w_refused w) (w_pending_local w) (w_outbound w) (w_published_count w) (w_completed w) (w_next_source_op w) (w_sent w) (w_notified w) (w_tick w).
Definition set_w_generation (v : gmap string Z) (w : Wire) : Wire :=
  mkWire (w_prog w) (w_stop_requested w) (w_in_flight w) (w_sources w) (w_dead_incarnations w) (w_source_writes w) (w_last_progress_at w) (w_source_stalled w) (w_agents w) v (w_acked w) (w_retry_after w) (w_refused w) (w_pending_local w) (w_outbound w) (w_published_count w) (w_completed w) (w_next_source_op w) (w_sent w) (w_notified w) (w_tick w).
Definition set_w_acked (v : gset string) (w : Wire) : Wire :=
  mkWire (w_prog w) (w_stop_requested w) (w_in_flight w) (w_sources w) (w_dead_incarnations w) (w_source_writes w) (w_last_progress_at w) (w_source_stalled w) (w_agents w) (w_generation w) v (w_retry_after w) (w_refused w) (w_pending_local w) (w_outbound w) (w_published_count w) (w_completed w) (w_next_source_op w) (w_sent w) (w_notified w) (w_tick w).
Definition set_w_retry_after (v : gmap string float) (w : Wire) : Wire :=
  mkWire (w_prog w) (w_stop_requested w) (w_in_flight w) (w_sources w) (w_dead_incarnations w) (w_source_writes w) (w_last_progress_at w) (w_source_stalled w) (w_agents w) (w_generation w) (w_acked w) v (w_refused w) (w_pending_local w) (w_outbound w) (w_published_count w) (w_completed w) (w_next_source_op w) (w_sent w) (w_notified w) (w_tick w).
Definition set_w_refused (v : gmap Z PullEvent) (w : Wire) : Wire :=
  mkWire (w_prog w) (w_stop_requested w) (w_in_flight w) (w_sources w) (w_dead_incarnations w) (w_source_writes w) (w_last_progress_at w) (w_source_stalled w) (w_agents w) (w_generation w) (w_acked w) (w_retry_after w) v (w_pending_local w) (w_outbound w) (w_published_count w) (w_completed w) (w_next_source_op w) (w_sent w) (w_notified w) (w_tick w).
Definition set_w_pending_local (v : list (SourceWrite * list label)) (w : Wire) : Wire :=
  mkWire (w_prog w) (w_stop_requested w) (w_in_flight w) (w_sources w) (w_dead_incarnations w) (w_source_writes w) (w_last_progress_at w) (w_source_stalled w) (w_agents w) (w_generation w) (w_acked w) (w_retry_after w) (w_refused w) v (w_outbound w) (w_published_count w) (w_completed w) (w_next_source_op w) (w_sent w) (w_notified w) (w_tick w).
Definition set_w_outbound (v : list Outbound) (w : Wire) : Wire :=
  mkWire (w_prog w) (w_stop_requested w) (w_in_flight w) (w_sources w) (w_dead_incarnations w) (w_source_writes w) (w_last_progress_at w) (w_source_stalled w) (w_agents w) (w_generation w) (w_acked w) (w_retry_after w) (w_refused w) (w_pending_local w) v (w_published_count w) (w_completed w) (w_next_source_op w) (w_sent w) (w_notified w) (w_tick w).
Definition set_w_published_count (v : Z) (w : Wire) : Wire :=
  mkWire (w_prog w) (w_stop_requested w) (w_in_flight w) (w_sources w) (w_dead_incarnations w) (w_source_writes w) (w_last_progress_at w) (w_source_stalled w) (w_agents w) (w_generation w) (w_acked w) (w_retry_after w) (w_refused w) (w_pending_local w) (w_outbound w) v (w_completed w) (w_next_source_op w) (w_sent w) (w_notified w) (w_tick w).
Definition set_w_completed (v : list Outbound) (w : Wire) : Wire :=
  mkWire (w_prog w) (w_stop_requested w) (w_in_flight w) (w_sources w) (w_dead_incarnations w) (w_source_writes w) (w_last_progress_at w) (w_source_stalled w) (w_agents w) (w_generation w) (w_acked w) (w_retry_after w) (w_refused w) (w_pending_local w) (w_outbound w) (w_published_count w) v (w_next_source_op w) (w_sent w) (w_notified w) (w_tick w).
Definition set_w_next_source_op (v : Z) (w : Wire) : Wire :=
  mkWire (w_prog w) (w_stop_requested w) (w_in_flight w) (w_sources w) (w_dead_incarnations w) (w_source_writes w) (w_last_progress_at w) (w_source_stalled w) (w_agents w) (w_generation w) (w_acked w) (w_retry_after w) (w_refused w) (w_pending_local w) (w_outbound w) (w_published_count w) (w_completed w) v (w_sent w) (w_notified w) (w_tick w).
Definition set_w_sent (v : list (string * ControlMessage * bool)) (w : Wire) : Wire :=
  mkWire (w_prog w) (w_stop_requested w) (w_in_flight w) (w_sources w) (w_dead_incarnations w) (w_source_writes w) (w_last_progress_at w) (w_source_stalled w) (w_agents w) (w_generation w) (w_acked w) (w_retry_after w) (w_refused w) (w_pending_local w) (w_outbound w) (w_published_count w) (w_completed w) (w_next_source_op w) v (w_notified w) (w_tick w).
Definition set_w_notified (v : list (string * WriteDone)) (w : Wire) : Wire :=
  mkWire (w_prog w) (w_stop_requested w) (w_in_flight w) (w_sources w) (w_dead_incarnations w) (w_source_writes w) (w_last_progress_at w) (w_source_stalled w) (w_agents w) (w_generation w) (w_acked w) (w_retry_after w) (w_refused w) (w_pending_local w) (w_outbound w) (w_published_count w) (w_completed w) (w_next_source_op w) (w_sent w) v (w_tick w).
Definition set_w_tick (v : nat) (w : Wire) : Wire :=
  mkWire (w_prog w) (w_stop_requested w) (w_in_flight w) (w_sources w) (w_dead_incarnations w) (w_source_writes w) (w_last_progress_at w) (w_source_stalled w) (w_agents w) (w_generation w) (w_acked w) (w_retry_after w) (w_refused w) (w_pending_local w) (w_outbound w) (w_published_count w) (w_completed w) (w_next_source_op w) (w_sent w) (w_notified w) v.

(** A process: its core and its wire. *)
Record Peer := mkPeer { peer_core : St; peer_wire : Wire }.

(** ** The environment of a peer *)

Record RemoteEnv := mkRemoteEnv {
  re_core : Env;
  re_retry_interval_ms : Z;
  re_framework_pinning : bool;
  re_local_dram : bool;
  re_control : bool;
  re_endpoint : option string;
  re_metadata : option string;
  re_regions : RegionMaps;
  re_incarnation : string;
  re_agent_name : string;
  (* answers *)
  re_monotonic : nat → float;
  re_send : nat → bool;
  re_contended : nat → bool;
  re_created : nat → result (option Z);
  re_post : nat → XferAnswer;
  re_answer : nat → XferAnswer;
  re_released : nat → bool;
  re_metadata_kept : nat → bool;
  re_add_agent : nat → result (option string);
  re_remove_agent : nat → bool;
  re_prep : nat → string → string → result (option Z);
  re_unprep : nat → Z → bool }.

(** Run an operation of the core, of the wire, or of the transfer table. *)
Definition on_core {A} (m : M St A) : M Peer A := λ p,
  let '(r, s) := m (peer_core p) in (r, mkPeer s (peer_wire p)).
Definition on_wire {A} (m : M Wire A) : M Peer A := λ p,
  let '(r, w) := m (peer_wire p) in (r, mkPeer (peer_core p) w).
Definition upd_wire (f : Wire → Wire) : M Peer unit := on_wire (modify f).
Definition wget {A} (f : Wire → A) : M Peer A := on_wire (gets f).
Definition on_prog {A} (m : M Prog A) : M Peer A := on_wire (λ w,
  let '(r, g) := m (w_prog w) in (r, set_w_prog g w)).
(** The next answer of the world. *)
Definition ask {A} (answer : nat → A) : M Peer A := on_wire (λ w,
  (Ret (answer (w_tick w)), set_w_tick (S (w_tick w)) w)).
Definition outbound (o : Outbound) : M Peer unit :=
  upd_wire (λ w, set_w_outbound (w_outbound w ++ [o]) w).

Section Transport.
Context (R : RemoteEnv).
Notation E := (re_core R).

Definition rclock : M Peer float := on_core (clock E).

(** ** The control channel *)

(** [_invalidate_control_peer] *)
Definition invalidate_control_peer (endpoint : string) : M Peer unit := upd_wire (λ w,
  set_w_retry_after (delete endpoint (w_retry_after w))
    (set_w_acked (w_acked w ∖ {[ endpoint ]}) w)).

Definition is_ack (m : ControlMessage) : bool :=
  match cm_body m with TargetMetadataAck _ => true | _ => false end.
(** Whether a message may carry the registrations, must carry them while the peer has not
    acknowledged them, or waits for the retry interval. *)
Definition may_carry (m : ControlMessage) : bool :=
  match cm_body m with TargetMetadataAck _ | WriteRefused _ _ => false | _ => true end.
Definition must_carry (m : ControlMessage) : bool :=
  match cm_body m with TargetMetadata | StartWrite _ _ _ _ _ _ => true | _ => false end.
Definition retry_due (endpoint : string) : M Peer bool :=
  now ← rclock;
  after ← wget w_retry_after;
  mret (fgeb now (default fzero (after !! endpoint))).
Definition includes_metadata (endpoint : string) (m : ControlMessage) : M Peer bool :=
  acked ← wget w_acked;
  if negb (may_carry m) || bool_decide (endpoint ∈ acked) then mret false
  else if must_carry m then mret true
  else retry_due endpoint.
(** The fields [_send_control] fills in. *)
Definition stamp (endpoint : string) (carry : bool) (m : ControlMessage) : ControlMessage := {|
  cm_target_agent := Some (env_agent E);
  cm_metadata := if carry then re_metadata R else cm_metadata m;
  cm_regions := if carry then Some (re_regions R) else cm_regions m;
  cm_incarnation := Some (re_incarnation R);
  cm_sender_endpoint := match cm_sender_endpoint m with None => re_endpoint R | some => some end;
  cm_source_endpoint := if is_ack m then cm_source_endpoint m else Some endpoint;
  cm_body := cm_body m |}.
Definition send_control (endpoint : string) (payload : ControlMessage) : M Peer bool :=
  if negb (re_control R) || bool_decide (re_metadata R = None) then mret false
  else
    carry ← includes_metadata endpoint payload;
    sent ← ask (re_send R);
    upd_wire (λ w, set_w_sent (w_sent w ++ [(endpoint, stamp endpoint carry payload, sent)]) w) ;;
    if negb sent then invalidate_control_peer endpoint ;; mret false
    else
      (if (carry : bool)
       then now ← rclock;
            upd_wire (λ w, set_w_retry_after
              (<[endpoint := fadd now (fdiv (f_of_Z_inf (re_retry_interval_ms R)) (f_of_Z_inf 1000))]>
                 (w_retry_after w)) w)
       else mret tt) ;;
      mret true.

(** [_send_write_done]: a notification that fails is only logged. *)
Definition send_write_done (remote_agent : string) (op_handle : Z) (success : bool)
    (terminal : bool) : M Peer unit :=
  upd_wire (λ w, set_w_notified
    (w_notified w ++ [(remote_agent, write_done_notif op_handle success [] terminal)]) w).

(** ** Peers *)

(** [_unload_remote_agent] *)
Definition unload_remote_agent (remote_agent : string) : M Peer unit :=
  active ← wget (λ w, existsb (λ x, bool_decide (x_remote x = remote_agent))
                    (map_to_list (g_transfers (w_prog w))).*2);
  if (active : bool) then raise (RuntimeError "NIXL remote agent has active transfers")
  else
    unprep ← ask (re_unprep R);
    try_except
      (on_prog (release_prepared unprep remote_agent) ;;
       removed ← ask (re_remove_agent R);
       if (removed : bool) then mret tt else raise (RuntimeError "remove_remote_agent"))
      (λ _, raise (RemoteAgentCleanupError "NIXL remote agent cleanup failed")).

Definition next_generation (target_agent : string) : M Peer unit := upd_wire (λ w,
  set_w_generation (<[target_agent := (default 0 (w_generation w !! target_agent) + 1)%Z]> (w_generation w)) w).
Definition forget_agent (target_agent : string) : M Peer unit :=
  upd_wire (λ w, set_w_agents (delete target_agent (w_agents w)) w).

(** Registrations compare as dicts. *)
Definition same_regions (r r' : RegionMaps) : bool :=
  bool_decide ((list_to_map r.1 : gmap string RegionDescriptor) = list_to_map r'.1 ∧
               (list_to_map r.2 : gmap string RegionDescriptor) = list_to_map r'.2).
Definition region_names (regions : RegionMaps) : result unit :=
  if decide (Forall (λ x : string * RegionDescriptor, x.1 = rd_label x.2) (regions.1 ++ regions.2))
  then validate_memory_regions ∅ (regions.1 ++ regions.2).*2 ≫= λ _, Ret tt
  else Raise (ValueError "registration dictionary names must match region label").

(** The branch that loads a peer that is not cached. *)
Definition add_agent (target_agent : string) (metadata : option string) (regions : RegionMaps)
    : M Peer (string * string) :=
  match metadata with
  | None => raise (TypeError "missing target agent metadata")
  | Some target_metadata =>
      added ← ask (re_add_agent R);
      name ← on_wire (lift added);
      match name with
      | None | Some "" => raise (RuntimeError "add_remote_agent returned no agent name")
      | Some remote_agent =>
          owned ← wget (λ w,
            bool_decide (remote_agent = re_agent_name R) ||
            bool_decide (is_Some (g_prepared (w_prog w) !! remote_agent)) ||
            existsb (λ x, bool_decide (x.1.2 = remote_agent)) (map_to_list (w_agents w)).*2);
          if (owned : bool) then raise (RuntimeError "NIXL remote agent is already initialized")
          else
            prep ← ask (re_prep R);
            unprep ← ask (re_unprep R);
            try_except
              (on_prog (prepare_memory prep unprep (re_agent_name R) remote_agent regions
                          (Some target_agent)))
              (λ e, unload_remote_agent remote_agent ;; raise e) ;;
            upd_wire (λ w, set_w_agents
              (<[target_agent := (target_metadata, remote_agent, regions)]> (w_agents w)) w) ;;
            mret (target_agent, remote_agent)
      end
  end.

(** The cached route of a peer that disconnected is dropped unless NIXL kept it. *)
Definition recheck_disconnected (target_agent : string) : M Peer unit :=
  cached ← wget (λ w, w_agents w !! target_agent);
  gone ← wget (λ w, g_disconnected (w_prog w));
  match cached with
  | Some (_, remote_agent, _) =>
      if decide (remote_agent ∈ gone) then
        kept ← ask (re_metadata_kept R);
        (if (kept : bool) then mret tt
         else
           unprep ← ask (re_unprep R);
           on_prog (release_prepared unprep remote_agent) ;;
           forget_agent target_agent ;;
           next_generation target_agent) ;;
        on_prog (modify (λ g, set_disconnected (g_disconnected g ∖ {[ remote_agent ]}) g))
      else mret tt
  | None => mret tt
  end.

(** [_remote_agent]: the target's name and the NIXL agent it is loaded as. *)
Definition remote_agent (payload : ControlMessage) (fallback_target : option string)
    : M Peer (string * string) :=
  stop ← wget w_stop_requested;
  if (stop : bool) then raise (RuntimeError "KVCR progress is stopping")
  else
    match match cm_target_agent payload with None => fallback_target | some => some end with
    | None | Some "" => raise (TypeError "missing target agent")
    | Some target_agent =>
        let metadata := cm_metadata payload in
        let regions := default ([], []) (cm_regions payload) in
        (if decide (metadata = None) then mret tt else on_wire (lift (region_names regions))) ;;
        recheck_disconnected target_agent ;;
        cached ← wget (λ w, w_agents w !! target_agent);
        match cached with
        | Some (cached_metadata, remote_agent, cached_regions) =>
            if decide (metadata = None) then mret (target_agent, remote_agent)
            else if decide (metadata = Some cached_metadata ∧ same_regions regions cached_regions = true)
            then mret (target_agent, remote_agent)
            else
              unload_remote_agent remote_agent ;;
              forget_agent target_agent ;;
              next_generation target_agent ;;
              add_agent target_agent metadata regions
        | None => add_agent target_agent metadata regions
        end
    end.

(** [_ack_target_metadata] *)
Definition ack_target_metadata (payload : ControlMessage) : M Peer unit :=
  if decide (cm_metadata payload = None) then mret tt
  else
    match cm_sender_endpoint payload, cm_source_endpoint payload with
    | None, _ | Some "", _ | _, None | _, Some "" => mret tt
    | Some target_control_endpoint, Some source_control_endpoint =>
        send_control target_control_endpoint
          (reply source_control_endpoint
             (TargetMetadataAck
                (match cm_body payload with StartWrite h _ _ _ _ _ => Some h | _ => None end))) ;;
        mret tt
    end.

(** [_refuse_start_write] *)
Definition refuse_start_write (payload : ControlMessage) (op_handle : Z) (reason : option string)
    : M Peer unit :=
  match cm_sender_endpoint payload, cm_source_endpoint payload with
  | Some reply_to, Some reflected_self =>
      send_control reply_to (reply reflected_self (WriteRefused op_handle reason)) ;; mret tt
  | _, _ => mret tt
  end.

(** [_notify_start_write_failure] *)
Definition notify_start_write_failure (payload : ControlMessage) (op_handle : Z) : M Peer unit :=
  resolved ← try_except (x ← remote_agent payload None; mret (Some x))
    (λ e, match e with RemoteAgentCleanupError _ => raise e | _ => mret None end);
  match resolved with
  | Some (_, agent) => send_write_done agent op_handle false true
  | None =>
      stop ← wget w_stop_requested;
      refuse_start_write payload op_handle
        (if decide (cm_metadata payload = None ∧ stop = false) then Some "metadata_required" else None)
  end.
End Transport.
