(* ===== verification/RemoteOps.v ===== *)
(** * Remote writes: the two operations

    [_TargetPullOp.progress] and [_SourceWriteOp.progress] of
    [src/src/kvcr/backends/remote_ops.py], with the resilience policy of [dangling_ops.py]:
    cancellation, probes, uncertain memory and its quiescence.  An operation object is passed
    through its turns as a value; a turn returns the object, whether it completed, and whether
    it worked. *)

From Stdlib Require Import ZArith Lia.
From S2P Require Import Prelude PyFloat Types PolicyRuntime Layout State CoreBase Pools Transfer Disk LocalDram Core Remote.

Section Ops.
Context (R : RemoteEnv).
Notation E := (re_core R).

Definition memory_ref_of (ref : TransferRef) : MemoryRef :=
  {| end_point_name := tr_end_point ref; ref_label := tr_label ref; element_index := tr_element_index ref |}.
(** The grace period after a deadline. *)
Definition grace : float :=
  fdiv (f_of_Z_inf (env_abandon_timeout_ms E - env_operation_timeout_ms E)) (f_of_Z_inf 1000).

(** ** [_DanglingOps] *)

(** [check_source_progress] *)
Definition check_source_progress : M Peer bool :=
  stalled ← wget w_source_stalled;
  last ← wget w_last_progress_at;
  match last with
  | Some last =>
      if (stalled : bool) then mret false
      else
        now ← ask (re_monotonic R);
        if fgeb (fmul (fsub now last) (f_of_Z_inf 1000)) (f_of_Z_inf (env_operation_timeout_ms E))
        then upd_wire (set_w_source_stalled true) ;; outbound OutStalled ;; mret false
        else mret true
  | None => mret (negb stalled)
  end.
(** [begin_poll] *)
Definition begin_poll : M Peer unit :=
  polled_at ← ask (re_monotonic R);
  check_source_progress ;;
  upd_wire (set_w_last_progress_at (Some polled_at)).

Definition find_status (write_id : string * Z) : M Peer WriteStatus :=
  status ← wget (λ w, w_source_writes w !! write_id);
  match status with Some s => mret s | None => raise (KeyError "source write") end.
Definition upd_status (write_id : string * Z) (f : WriteStatus → WriteStatus) : M Peer unit :=
  upd_wire (λ w, set_w_source_writes (alter f write_id (w_source_writes w)) w).
Definition write_id (op : SourceWrite) : string * Z := ((sw_route op).1, sw_op_handle op).

(** [report_source]; a block without descriptors has no owner to name. *)
Definition owners_of (blocks : list (BlockKey * list TransferRef)) : option (list (BlockKey * bool)) :=
  mapM (λ '(key, refs), match refs with [] => None | ref :: _ => Some (key, tr_framework ref) end) blocks.
Definition report_source (op : SourceWrite) (quiesced : bool) : M Peer unit :=
  let blocks := zip (sw_source_keys op) (sw_src_descriptors op) in
  match owners_of blocks with
  | None => raise (RuntimeError "IndexError")
  | Some owners =>
      outbound (OutSourceMemory (sw_source_op op) quiesced
        (map (λ x : BlockKey * list TransferRef, (x.1, memory_ref_of <$> x.2)) blocks) owners)
  end.
(** [report_target] *)
Definition report_target (op : TargetPull) (quiesced : bool) : M Peer unit :=
  outbound (OutTargetMemory (tp_op_handle op) quiesced
    (memory_ref_of <$> concat (tp_dst_descriptors op)) (tp_local_fill op)).

(** [finish_source] *)
Definition finish_source (op : SourceWrite) : M Peer unit :=
  status ← wget (λ w, w_source_writes w !! write_id op);
  upd_wire (λ w, set_w_source_writes (delete (write_id op) (w_source_writes w)) w) ;;
  match status with
  | None => mret tt
  | Some status =>
      (match sw_local_sources op with
       | Some (rid :: rids) =>
           on_core (release_readers (sw_source_keys op) (rid :: rids) (sw_success op))
       | _ => mret tt
       end) ;;
      if ws_abandoned status then report_source op true else mret tt
  end.

(** [poll_source]: [transfer_id] is the operation's, which the caller has checked. *)
Definition poll_source (op : SourceWrite) (transfer_id : Z) (cancelling : bool) : M Peer (option bool) :=
  status ← find_status (write_id op);
  (if cancelling && bool_decide (ws_cancel_deadline status = None)
   then upd_status (write_id op) (set_cancel_deadline (fadd (sw_deadline op) grace)) ;;
        send_write_done (sw_remote_agent op) (sw_op_handle op) false false
   else mret tt) ;;
  answer ← ask (re_answer R);
  released ← ask (re_released R);
  result ← on_prog (poll_transfer transfer_id true answer released);
  status ← find_status (write_id op);
  (if bool_decide (result = None) && cancelling && negb (ws_abandoned status)
   then
     now ← rclock R;
     match ws_cancel_deadline status with
     | Some cancel_deadline =>
         if fgeb now cancel_deadline then
           upd_status (write_id op) set_abandoned ;;
           report_source op false ;;
           outbound (OutRemote (ItemWrite op))
         else mret tt
     | None => raise (TypeError "cancel_deadline")
     end
   else mret tt) ;;
  mret result.

(** [probe] *)
Definition probe (op : TargetPull) : M Peer bool :=
  send_control R (tp_remote_ctrl_ep op)
    (message (WriteProbe (tp_op_handle op) (tp_source_incarnation op))).
(** [poll_target] *)
Definition poll_target (op : TargetPull) : M Peer (TargetPull * bool) :=
  if tp_uncertain op then mret (op, false)
  else
    let op := set_tp_uncertain true op in
    report_target op false ;;
    outbound (OutRemote (ItemPull op)) ;;
    invalidate_control_peer (tp_remote_ctrl_ep op) ;;
    sent ← probe op;
    mret (op, sent).

(** ** [_SourceWriteOp] *)

(** Finish without a write: tell the target, and clean up. *)
Definition end_source (op : SourceWrite) (success notify : bool) : M Peer (SourceWrite * bool * bool) :=
  (if notify then send_write_done (sw_remote_agent op) (sw_op_handle op) success true else mret tt) ;;
  let op := set_sw_state WRITE_FINISHED (set_sw_success success op) in
  finish_source op ;;
  mret (op, true, true).

(** The second half of [progress]: an owned transfer is watched. *)
Definition watch_write (op : SourceWrite) (transfer_id : Z) (observed_work : bool)
    : M Peer (SourceWrite * bool * bool) :=
  status ← find_status (write_id op);
  late ← (if decide (sw_state op = CANCEL_PENDING) then mret false
          else if ws_cancel_requested status then mret true
          else now ← rclock R; mret (fgeb now (sw_deadline op)));
  let op := if (late : bool) then set_sw_state CANCEL_PENDING op else op in
  let observed_work := observed_work || late in
  let cancelling := bool_decide (sw_state op = CANCEL_PENDING) in
  result ← poll_source op transfer_id cancelling;
  match result with
  | None =>
      transfer ← on_prog (gets (λ g, g_transfers g !! transfer_id));
      match transfer with
      | None => raise (KeyError "transfer")
      | Some x => mret (if decide (x_outcome x = Some false) then set_sw_state CANCEL_PENDING op else op,
                        false, observed_work)
      end
  | Some success =>
      let op := set_sw_success (success && negb cancelling) (set_sw_transfer_id None op) in
      (if sw_success op then mret tt
       else send_write_done (sw_remote_agent op) (sw_op_handle op) false true) ;;
      let op := set_sw_state WRITE_FINISHED op in
      finish_source op ;;
      mret (op, true, true)
  end.

(** [submit_transfer("WRITE", ...)] of every descriptor; [None] is its exception. *)
Definition submit_write (op : SourceWrite) : M Peer (option (Z * bool)) :=
  created ← ask (re_created R);
  post ← ask (re_post R);
  try_except
    (x ← on_prog (submit_transfer (DRefs (concat (sw_src_descriptors op)))
                    (DRefs (concat (sw_dst_descriptors op))) (sw_remote_agent op) created post);
     mret (Some x))
    (λ _, mret None).

(** [progress] *)
Definition source_progress (op : SourceWrite) : M Peer (SourceWrite * bool * bool) :=
  status ← find_status (write_id op);
  match sw_transfer_id op with
  | Some transfer_id => watch_write op transfer_id false
  | None =>
      responsive ← check_source_progress;
      let op := if negb responsive || ws_cancel_requested status
                then set_sw_state NOTIFY_FAILURE op else op in
      late ← (if decide (sw_state op = NOTIFY_FAILURE) then mret true
              else now ← rclock R; mret (fgeb now (sw_deadline op)));
      if (late : bool) then end_source op false true
      else if decide (sw_state op ≠ READY_TO_WRITE)
      then raise (RuntimeError "KVCR source operation is not ready")
      else
        generation ← wget (λ w, default 0%Z (w_generation w !! (sw_route op).1));
        if decide ((sw_route op).1 ≠ "" ∧ generation ≠ (sw_route op).2)
        then mret (set_sw_state NOTIFY_FAILURE op, false, true)
        else if decide (sw_src_descriptors op = []) then end_source op true true
        else
          upd_status (write_id op) set_submitted ;;
          submitted ← submit_write op;
          match submitted with
          | None => end_source op false true
          | Some (transfer_id, posted) =>
              watch_write
                (set_sw_state (if (posted : bool) then WRITING else CANCEL_PENDING)
                   (set_sw_transfer_id (Some transfer_id) op)) transfer_id true
          end
  end.

(** [close] *)
Definition source_close (op : SourceWrite) : M Peer (SourceWrite * bool) :=
  finished ← (match sw_transfer_id op with
              | None => mret true
              | Some transfer_id =>
                  answer ← ask (re_answer R);
                  released ← ask (re_released R);
                  result ← on_prog (poll_transfer transfer_id true answer released);
                  mret (bool_decide (result ≠ None))
              end);
  if negb finished then mret (op, false)
  else
    let op := set_sw_transfer_id None op in
    send_write_done (sw_remote_agent op) (sw_op_handle op) false true ;;
    finish_source op ;;
    mret (op, true).

(** ** [_TargetPullOp] *)

(** [_notification_completed_indices]; [None] is its TypeError. *)
Definition notification_completed_indices (indices : option (list Z)) (requested_count : nat)
    : option (list nat) :=
  match indices with
  | Some indices =>
      if decide (length indices ≤ requested_count ∧
                 Forall (λ i, 0 <= i < Z.of_nat requested_count)%Z indices ∧ NoDup indices)
      then Some (Z.to_nat <$> indices) else None
  | None => None
  end.
Definition keys_at (keys : list BlockKey) (indices : list nat) : gset BlockKey :=
  list_to_set (omap (λ i, keys !! i) indices).

Definition fail_pull (op : TargetPull) : TargetPull * bool * bool :=
  (set_tp_state PULL_FINISHED (set_tp_success false op), true, true).

(** The [START_WRITE] turn. *)
Definition start_pull (op : TargetPull) (now : float) : M Peer (TargetPull * bool * bool) :=
  op ← (if tp_retried op
        then upd_wire (λ w, set_w_acked (w_acked w ∖ {[ tp_remote_ctrl_ep op ]}) w) ;; mret op
        else incarnation ← wget (λ w, w_sources w !! tp_remote_ctrl_ep op);
             mret (set_tp_source_incarnation incarnation op));
  if fgeb now (tp_deadline op) then mret (fail_pull op)
  else
    sent ← send_control R (tp_remote_ctrl_ep op)
      (message (StartWrite (tp_op_handle op)
        (fmul (fsub (tp_deadline op) now) (f_of_Z_inf 1000)) (tp_ordered_keys op)
        (tp_dst_descriptors op) (if tp_local_fill op then tp_key_layout op else [])
        (tp_source_incarnation op)));
    if negb sent then mret (fail_pull op)
    else mret (set_tp_state WAITING_WRITE_DONE op, false, true).

(** A terminal event. *)
Definition end_pull (op : TargetPull) (event : PullEvent) (now : float)
    : M Peer (TargetPull * bool * bool) :=
  if tp_uncertain op then
    report_target op true ;;
    mret (set_tp_state PULL_FINISHED op, true, true)
  else
    (* after cancellation, native success only permits cleanup *)
    let success := pe_success event && negb (pe_cancelled event) &&
      bool_decide (tp_state op = WAITING_WRITE_DONE) &&
      (negb (tp_local_fill op) || fltb now (tp_deadline op)) in
    let completed :=
      if success
      then keys_at (tp_ordered_keys op) <$>
             notification_completed_indices (pe_completed_indices event) (length (tp_ordered_keys op))
      else Some ∅ in
    let op := set_tp_completed_keys (default ∅ completed)
                (set_tp_success (success && bool_decide (completed ≠ None)) op) in
    mret (set_tp_state PULL_FINISHED op, true, true).

Definition awaiting (st : TargetPullState) : bool :=
  match st with WAITING_WRITE_DONE | WAITING_TERMINAL | QUARANTINED => true | _ => false end.

(** A cancelled or late write is probed, and then set aside. *)
Definition overdue_pull (op : TargetPull) : M Peer (TargetPull * bool * bool) :=
  if decide (tp_state op = WAITING_TERMINAL) then
    '(op, _) ← poll_target (set_tp_state QUARANTINED op);
    mret (op, false, true)
  else
    let op := set_tp_deadline (fadd (tp_deadline op) grace) (set_tp_state WAITING_TERMINAL op) in
    invalidate_control_peer (tp_remote_ctrl_ep op) ;;
    sent ← probe op;
    let op := set_tp_probe_sent sent op in
    (if tp_local_fill op then outbound (OutRemote (ItemPull op)) else mret tt) ;;
    mret (op, false, true).

(** No terminal event: wait, within the deadlines. *)
Definition await_pull (op : TargetPull) (cancelled : bool) (now : float)
    : M Peer (TargetPull * bool * bool) :=
  if decide (tp_state op = QUARANTINED) then
    '(op, work) ← poll_target op;
    mret (op, false, work)
  else if fgeb now (tp_deadline op) || cancelled && bool_decide (tp_state op = WAITING_WRITE_DONE)
  then overdue_pull op
  else if decide (tp_state op = WAITING_TERMINAL ∧ tp_probe_sent op = false) then
    sent ← probe op;
    mret (set_tp_probe_sent sent op, false, sent)
  else mret (op, false, false).

(** [progress] *)
Definition retry_of (op : TargetPull) (event : option PullEvent) : TargetPull :=
  match event ≫= pe_retry_metadata with
  | Some incarnation =>
      if decide (tp_state op = WAITING_WRITE_DONE ∧ tp_retried op = false)
      then set_tp_state START_WRITE (set_tp_retried true (set_tp_source_incarnation (Some incarnation) op))
      else op
  | None => op
  end.
Definition target_progress (op : TargetPull) (event : option PullEvent)
    : M Peer (TargetPull * bool * bool) :=
  now ← rclock R;
  let cancelled := match event with Some ev => pe_cancelled ev | None => false end in
  let op := retry_of op event in
  if decide (tp_state op = START_WRITE) then start_pull op now
  else
    match (if awaiting (tp_state op) then event else None) with
    | Some ev =>
        if pe_terminal ev then end_pull op ev now
        else await_pull op cancelled now
    | None => await_pull op cancelled now
    end.
End Ops.
