(* ===== verification/RemoteControl.v ===== *)
(** * Remote writes: the control protocol

    The handlers of [src/src/kvcr/backends/remote_fw_dram.py] for control messages and NIXL
    notifications, the source side that claims local DRAM or asks the main thread for sources,
    and one iteration of the progress thread for this tier. *)

From Stdlib Require Import ZArith Lia.
From S2P Require Import Prelude PyFloat Types PolicyRuntime Layout State CoreBase Pools Transfer Disk LocalDram Core Remote RemoteOps.

Definition target_id (op_handle : Z) : OpId := ("target", ArgInt op_handle).
Definition source_id (n : Z) : OpId := ("source", ArgInt n).

Section Control.
Context (R : RemoteEnv).
Notation E := (re_core R).

(** [progress._in_flight_ops] *)
Definition put_flight (id : OpId) (op : InFlight) : M Peer unit :=
  upd_wire (λ w, set_w_in_flight (dict_set id op (w_in_flight w)) w).
Definition pop_flight (id : OpId) : M Peer unit :=
  upd_wire (λ w, set_w_in_flight (dict_pop id (w_in_flight w)) w).
Definition find_pull (op_handle : Z) : M Peer (option TargetPull) :=
  op ← wget (λ w, dict_get (target_id op_handle) (w_in_flight w));
  mret (match op with Some (InPull op) => Some op | _ => None end).

(** ** Target side *)

(** [_handle_write_refused] *)
Definition refuse (op_handle : Z) (event : PullEvent) : M Peer unit :=
  upd_wire (λ w, set_w_refused (<[op_handle := event]> (w_refused w)) w).
Definition handle_write_refused (payload : ControlMessage) (op_handle : Z) (reason : option string)
    : M Peer unit :=
  match cm_sender_endpoint payload with
  | None => mret tt
  | Some endpoint =>
      op ← find_pull op_handle;
      match op with
      | None => mret tt
      | Some op =>
          if decide (tp_remote_ctrl_ep op ≠ endpoint) then mret tt
          else
            invalidate_control_peer endpoint ;;
            (* a delayed refusal must not evict a generation learned after this op *)
            upd_wire (λ w, if decide (w_sources w !! endpoint = tp_source_incarnation op)
                           then set_w_sources (delete endpoint (w_sources w)) w else w) ;;
            stop ← wget w_stop_requested;
            match cm_incarnation payload with
            | Some incarnation =>
                if decide ((reason = Some "metadata_required" ∨ reason = Some "source_restarted") ∧
                           incarnation ≠ "" ∧ tp_retried op = false ∧
                           tp_state op = WAITING_WRITE_DONE ∧ stop = false)
                then
                  now ← rclock R;
                  refuse op_handle
                    (if fltb now (tp_deadline op) then retry_event incarnation else refused_event)
                else refuse op_handle refused_event
            | None => refuse op_handle refused_event
            end
      end
  end.

(** [_handle_target_metadata_ack] *)
Definition learn_incarnation (endpoint incarnation : string) (op_handle : option Z) : M Peer unit :=
  upd_wire (λ w, set_w_sources (<[endpoint := incarnation]> (w_sources w)) w) ;;
  match op_handle with
  | None => mret tt
  | Some handle =>
      op ← find_pull handle;
      match op with
      | Some op =>
          if decide (tp_remote_ctrl_ep op = endpoint ∧ tp_source_incarnation op = None)
          then put_flight (target_id handle) (InPull (set_tp_source_incarnation (Some incarnation) op))
          else mret tt
      | None => mret tt
      end
  end.
Definition handle_target_metadata_ack (payload : ControlMessage) (op_handle : option Z) : M Peer unit :=
  match cm_sender_endpoint payload with
  | None | Some "" => mret tt
  | Some source_endpoint =>
      match cm_incarnation payload with
      | None | Some "" => mret tt
      | Some incarnation => learn_incarnation source_endpoint incarnation op_handle
      end ;;
      upd_wire (λ w, set_w_retry_after (delete source_endpoint (w_retry_after w))
                       (set_w_acked ({[ source_endpoint ]} ∪ w_acked w) w))
  end.

(** [handle_probe_ack] *)
Definition handle_probe_ack (payload : ControlMessage) (handle : Z) (terminal : bool)
    (dead_incarnation : option string) : M Peer unit :=
  match cm_sender_endpoint payload, cm_incarnation payload with
  | None, _ | _, None | _, Some "" => mret tt
  | Some endpoint, Some incarnation =>
      op ← find_pull handle;
      match op with
      | None => mret tt
      | Some op =>
          if decide (tp_remote_ctrl_ep op ≠ endpoint) then mret tt
          else
            let expected := tp_source_incarnation op in
            if decide (expected ≠ None ∧ expected ≠ Some "" ∧ dead_incarnation = expected) then
              upd_wire (λ w, set_w_sources (<[endpoint := incarnation]> (w_sources w)) w) ;;
              refuse handle refused_event
            else if decide (expected = Some incarnation ∧ terminal = true)
            then refuse handle refused_event
            else mret tt
      end
  end.

(** ** Source side *)

(** [_handle_target_metadata] *)
Definition handle_target_metadata (payload : ControlMessage) : M Peer unit :=
  try_except
    (remote_agent R payload None ;; ack_target_metadata R payload)
    (λ e, match e with RemoteAgentCleanupError _ => raise e | _ => mret tt end).

(** [handle_probe] *)
Definition handle_probe (payload : ControlMessage) (handle : Z) (expected : option string)
    : M Peer unit :=
  match cm_target_agent payload, cm_sender_endpoint payload, cm_source_endpoint payload with
  | Some target_agent, Some reply_to, Some endpoint =>
      if decide (target_agent = "" ∨ reply_to = "" ∨ endpoint = "") then mret tt
      else
        let ours := bool_decide (expected = None) || bool_decide (expected = Some (re_incarnation R)) in
        (if ours then
           (* a probe can overtake start_write: keep a cancellation fence *)
           upd_wire (λ w, set_w_source_writes
             (<[(target_agent, handle) :=
                  set_cancel_requested (default new_status (w_source_writes w !! (target_agent, handle)))]>
                (w_source_writes w)) w)
         else mret tt) ;;
        status ← wget (λ w, w_source_writes w !! (target_agent, handle));
        dead ← wget w_dead_incarnations;
        let terminal := ours && match status with None => true | Some s => negb (ws_submitted s) end in
        send_control R reply_to
          (reply endpoint (WriteProbeAck handle terminal
             (match expected with
              | Some e => if decide (e ≠ "" ∧ e ∈ dead) then Some e else None
              | None => None
              end))) ;;
        mret tt
  | _, _, _ => mret tt
  end.

(** [_queue_source_pin] *)
Definition queue_source_pin (op : SourceWrite) (key_layout : list label) : M Peer unit :=
  outbound (OutRemote (ItemPin
    (mkSourcePin (sw_source_op op) (sw_keys op) (sw_deadline op) (sw_remote_agent op) (sw_op_handle op)
       (sw_source_keys op) (sw_dst_descriptors op) (sw_route op) key_layout ∅ ∅ false))).

(** [_try_local_source_write]: [None] is contention, [Some false] asks for main-thread work. *)
Definition select_local (op : SourceWrite) (key_layout : list label) : M Peer AcquireResult :=
  if negb (re_local_dram R) then
    mret (if re_framework_pinning R then AcqCaller else AcqClaims [])
  else
    contended ← ask (re_contended R);
    on_core (acquire_readers contended (sw_source_keys op) (sw_dst_descriptors op) key_layout
               (negb (re_framework_pinning R))).
Definition prepared_write (op : SourceWrite) (claims : list (nat * nat * list TransferRef)) : SourceWrite :=
  let completed_indices := (λ c : nat * nat * list TransferRef, c.1.1) <$> claims in
  let partial := bool_decide (length claims ≠ length (sw_source_keys op)) in
  let keys := if partial then omap (λ i, sw_source_keys op !! i) completed_indices else sw_source_keys op in
  let dst := if partial then omap (λ i, sw_dst_descriptors op !! i) completed_indices
             else sw_dst_descriptors op in
  set_sw_local_sources (Some ((λ c : nat * nat * list TransferRef, c.1.2) <$> claims))
    (set_sw_completed_indices completed_indices
      (set_sw_dst_descriptors dst
        (set_sw_src_descriptors ((λ c : nat * nat * list TransferRef, c.2) <$> claims)
          (set_sw_source_keys keys
            (if partial then set_sw_keys (list_to_set keys) op else op))))).
Definition try_local_source_write (op : SourceWrite) (key_layout : list label) : M Peer (option bool) :=
  selected ← select_local op key_layout;
  match selected with
  | AcqRetry => mret None
  | AcqCaller => mret (Some false)
  | AcqClaims claims =>
      let op := prepared_write op claims in
      (* cleanup ownership is kept before native submission can start *)
      put_flight (source_id (sw_source_op op)) (InWrite op) ;;
      '(op, finished, _) ← source_progress R op;
      (if (finished : bool) then pop_flight (source_id (sw_source_op op))
       else put_flight (source_id (sw_source_op op)) (InWrite op)) ;;
      mret (Some true)
  end.

(** [_retry_local_sources] *)
Definition retry_one (op : SourceWrite) (key_layout : list label) : M Peer bool :=
  status ← find_status (write_id op);
  now ← rclock R;
  abandon ←
    (if fgeb now (sw_deadline op) || ws_cancel_requested status then mret true
     else
       responsive ← check_source_progress R;
       if negb responsive then mret true
       else
         generation ← wget (λ w, default 0%Z (w_generation w !! (sw_route op).1));
         mret (negb (generation =? (sw_route op).2)%Z));
  if (abandon : bool) then
    source_progress R (set_sw_state NOTIFY_FAILURE (set_sw_source_keys [] (set_sw_dst_descriptors [] op))) ;;
    mret true
  else
    prepared ← try_local_source_write op key_layout;
    match prepared with
    | None => upd_wire (λ w, set_w_pending_local (w_pending_local w ++ [(op, key_layout)]) w) ;; mret false
    | Some true => mret true
    | Some false => queue_source_pin op key_layout ;; mret true
    end.
Definition retry_local_sources : M Peer bool :=
  pending ← wget w_pending_local;
  upd_wire (set_w_pending_local []) ;;
  fold_each (λ work '((op, key_layout) : SourceWrite * list label),
    work' ← retry_one op key_layout; mret (work || work')) false pending.

(** [_handle_start_write] *)
Definition start_write_ok (remaining_timeout_ms : float) (keys : list BlockKey)
    (dst_descriptors : list (list TransferRef)) : bool :=
  f_isfinite remaining_timeout_ms && fltb fzero remaining_timeout_ms &&
  bool_decide (keys ≠ []) && bool_decide (NoDup keys) &&
  bool_decide (length keys = length dst_descriptors).
Definition clamp_timeout (remaining_timeout_ms : float) : float :=
  let limit := f_of_Z_inf (env_operation_timeout_ms E) in
  if fltb limit remaining_timeout_ms then limit else remaining_timeout_ms.

(** The peer is resolved and every destination lies in its registrations. *)
Definition setup_start_write (payload : ControlMessage) (dst_descriptors : list (list TransferRef))
    : M Peer (string * string) :=
  '(target_agent, agent) ← remote_agent R payload
    (match dst_descriptors with (ref :: _) :: _ => Some (tr_end_point ref) | _ => None end);
  cached ← wget (λ w, w_agents w !! target_agent);
  match cached with
  | None => raise (KeyError target_agent)
  | Some (_, _, regions) =>
      for_each dst_descriptors (λ descriptors,
        on_core (lift (validate_descriptors E regions target_agent descriptors))) ;;
      ack_target_metadata R payload ;;
      mret (target_agent, agent)
  end.

(** A request that is set up: refused, or accepted and started. *)
Definition accept_start_write (payload : ControlMessage) (op_handle : Z) (keys : list BlockKey)
    (dst_descriptors : list (list TransferRef)) (key_layout : list label) (expected : option string)
    (deadline : float) (target_agent agent : string) : M Peer unit :=
  status ← wget (λ w, w_source_writes w !! (target_agent, op_handle));
  match status with
  | Some status =>
      if ws_cancel_requested status && negb (ws_submitted status)
      then send_write_done agent op_handle false true else mret tt
  | None =>
      if decide (expected ≠ None ∧ expected ≠ Some (re_incarnation R))
      then refuse_start_write R payload op_handle (Some "source_restarted")
      else
        stop ← wget w_stop_requested;
        responsive ← (if (stop : bool) then mret false else check_source_progress R);
        if negb responsive then send_write_done agent op_handle false true
        else
          upd_wire (λ w, set_w_source_writes
            (<[(target_agent, op_handle) := new_status]> (w_source_writes w)) w) ;;
          n ← wget w_next_source_op;
          upd_wire (set_w_next_source_op (n + 1)%Z) ;;
          generation ← wget (λ w, default 0%Z (w_generation w !! target_agent));
          let op := mkSourceWrite n (list_to_set keys) deadline READY_TO_WRITE agent op_handle keys
                      dst_descriptors [] None false [] (target_agent, generation) (Some []) in
          prepared ← try_local_source_write op key_layout;
          match prepared with
          | None => upd_wire (λ w, set_w_pending_local (w_pending_local w ++ [(op, key_layout)]) w)
          | Some true => mret tt
          | Some false => queue_source_pin op key_layout
          end
  end.
Definition handle_start_write (payload : ControlMessage) (op_handle : Z)
    (remaining_timeout_ms : float) (keys : list BlockKey) (dst_descriptors : list (list TransferRef))
    (key_layout : list label) (expected : option string) : M Peer unit :=
  received_at ← rclock R;
  if negb (start_write_ok remaining_timeout_ms keys dst_descriptors)
  then notify_start_write_failure R payload op_handle
  else
    let deadline := fadd received_at (fdiv (clamp_timeout remaining_timeout_ms) (f_of_Z_inf 1000)) in
    ready ← try_except (x ← setup_start_write payload dst_descriptors; mret (Some x))
      (λ e, match e with RemoteAgentCleanupError _ => raise e | _ => mret None end);
    match ready with
    | None => notify_start_write_failure R payload op_handle
    | Some (target_agent, agent) =>
        accept_start_write payload op_handle keys dst_descriptors key_layout expected deadline
          target_agent agent
    end.

(** [_handle_malformed_start_write], of a map that says it is a [start_write]: what
    [msgspec.convert] makes of its header, and the fields that are of the right type. *)
Record RawStart := mkRawStart {
  rs_op_handle : option Z;
  rs_converted : option ControlMessage;
  rs_metadata : option string;
  rs_target_agent : option string;
  rs_sender_endpoint : option string;
  rs_source_endpoint : option string }.
Definition recovered_peer (raw : RawStart) : ControlMessage :=
  match rs_converted raw with
  | Some peer => peer
  | None =>
      mkControlMessage
        (match rs_metadata raw with None => rs_target_agent raw | Some _ => None end)
        (rs_metadata raw) None None (rs_sender_endpoint raw) (rs_source_endpoint raw) TargetMetadata
  end.
Definition handle_malformed_start_write (raw : RawStart) : M Peer unit :=
  match rs_op_handle raw with
  | None => mret tt
  | Some op_handle => notify_start_write_failure R (recovered_peer raw) op_handle
  end.

(** ** The thread *)

(** What [recv] brings: decoded messages, and the malformed ones that can be recovered. *)
Inductive Incoming := Decoded (m : ControlMessage) | MalformedStart (raw : RawStart).
Definition handle_message (m : ControlMessage) : M Peer unit :=
  match cm_body m with
  | StartWrite h timeout keys dst key_layout expected =>
      handle_start_write m h timeout keys dst key_layout expected
  | TargetMetadata => handle_target_metadata m
  | TargetMetadataAck h => handle_target_metadata_ack m h
  | WriteRefused h reason => handle_write_refused m h reason
  | WriteProbe h expected => handle_probe m h expected
  | WriteProbeAck h terminal dead => handle_probe_ack m h terminal dead
  end.
(** [_process_control_messages] *)
Definition process_control_messages (messages : list Incoming) : M Peer bool :=
  if negb (re_control R) then mret false
  else
    for_each messages (λ m, match m with
      | Decoded m => handle_message m
      | MalformedStart raw => handle_malformed_start_write raw
      end) ;;
    mret (bool_decide (messages ≠ [])).

(** [_poll_notifications]: the write_done payloads in arrival order, by operation. *)
Definition merge_notification (events : gmap Z PullEvent) (n : WriteDone) : gmap Z PullEvent :=
  let previous := events !! wd_op_handle n in
  let before (f : PullEvent → bool) := match previous with Some p => f p | None => false end in
  <[ wd_op_handle n :=
       mkPullEvent (wd_terminal n || before pe_terminal) (wd_success n)
         (before pe_cancelled || negb (wd_success n)) (wd_completed_indices n) None ]> events.
Definition poll_notifications (notifs : list WriteDone) : gmap Z PullEvent :=
  foldl merge_notification ∅ notifs.
(** Only terminal notifications outrank a refusal for the same operation. *)
Definition outranked (refusal : PullEvent) (native : option PullEvent) : bool :=
  match native with
  | Some native => pe_terminal native || bool_decide (pe_retry_metadata refusal ≠ None) && pe_cancelled native
  | None => false
  end.
Definition merge_refusals (refused events : gmap Z PullEvent) : gmap Z PullEvent :=
  map_fold (λ h refusal events, if outranked refusal (events !! h) then events else <[h := refusal]> events)
    events refused.

(** [poll_progress]; [endpoints] are the metadata requests among the submissions. *)
Definition request_metadata (endpoint : string) : M Peer unit :=
  acked ← wget w_acked;
  if decide (endpoint ∈ acked) then mret tt
  else
    due ← retry_due R endpoint;
    if (due : bool) then send_control R endpoint (message TargetMetadata) ;; mret tt else mret tt.
Definition poll_progress (endpoints : list string) (messages : list Incoming) (notifs : list WriteDone)
    : M Peer (gmap Z PullEvent * bool) :=
  begin_poll R ;;
  for_each endpoints request_metadata ;;
  handled ← process_control_messages messages;
  pending ← wget w_pending_local;
  stop ← wget w_stop_requested;
  retried ← (if bool_decide (pending ≠ []) && negb stop then retry_local_sources else mret false);
  refused ← wget w_refused;
  upd_wire (set_w_refused ∅) ;;
  let events := merge_refusals refused (poll_notifications notifs) in
  mret (events, bool_decide (endpoints ≠ []) || handled || retried || bool_decide (events ≠ ∅)).

(** [flush_progress]; the metrics of an update are not modelled. *)
Definition flush_progress : M Peer (list Outbound) :=
  count ← wget (λ w, Z.of_nat (size (w_agents w)));
  published ← wget w_published_count;
  items ← wget w_outbound;
  upd_wire (set_w_outbound []) ;;
  if decide (count = published) then mret items
  else
    upd_wire (set_w_published_count count) ;;
    mret (OutRemote (ItemUpdate count) :: items).

(** One operation of the snapshot. *)
Definition advance_op (acc : gmap Z PullEvent * list Outbound) (x : OpId * InFlight)
    : M Peer (gmap Z PullEvent * list Outbound) :=
  let '(events, done) := acc in
  let '(id, _) := x in
  op ← wget (λ w, dict_get id (w_in_flight w));
  match op with
  | None => mret acc
  | Some (InPull op) =>
      '(op, finished, _) ← target_progress R op (events !! tp_op_handle op);
      (if (finished : bool) then pop_flight id else put_flight id (InPull op)) ;;
      mret (delete (tp_op_handle op) events,
            if (finished : bool) then done ++ [OutRemote (ItemPull op)] else done)
  | Some (InWrite op) =>
      '(op, finished, _) ← source_progress R op;
      (if (finished : bool) then pop_flight id else put_flight id (InWrite op)) ;;
      mret (events, if (finished : bool) then done ++ [OutRemote (ItemWrite op)] else done)
  end.
(** [_run_one_iteration] for the remote tier's operations. *)
Definition run_iteration (submissions : list Submission) (messages : list Incoming)
    (notifs : list WriteDone) : M Peer unit :=
  for_each submissions (λ item, match item with
    | SubmitPull op => put_flight (target_id (tp_op_handle op)) (InPull op)
    | SubmitWrite op => put_flight (source_id (sw_source_op op)) (InWrite op)
    | _ => mret tt
    end) ;;
  '(events, _) ← poll_progress
    (omap (λ item, match item with SubmitMetadata ep => Some ep | _ => None end) submissions)
    messages notifs;
  in_flight ← wget w_in_flight;
  '(_, done) ← fold_each advance_op (events, []) in_flight;
  flushed ← flush_progress;
  upd_wire (λ w, set_w_completed (w_completed w ++ flushed ++ done) w).

(** [close_progress] *)
Definition close_progress : M Peer unit :=
  writes ← wget (λ w, map_to_list (w_source_writes w));
  for_each writes (λ x : (string * Z) * WriteStatus,
    cached ← wget (λ w, w_agents w !! x.1.1);
    match cached with
    | Some (_, agent, _) =>
        if ws_submitted x.2 then mret tt else send_write_done agent x.1.2 false true
    | None => mret tt
    end) ;;
  upd_wire (set_w_pending_local []).
(** [_TargetPullOp.close] *)
Definition target_close (op : TargetPull) : bool :=
  bool_decide (tp_state op = START_WRITE) || bool_decide (tp_state op = PULL_FINISHED).
End Control.
