(* ===== verification/RemoteSources.v ===== *)
(** * Remote writes: sources and framework pins

    [_RemoteSources] of [src/src/kvcr/backends/remote_sources.py], on the main thread: a write
    whose blocks are not all readable in local DRAM claims what it can, asks the framework to
    pin the rest, and is handed to the progress thread when its sources are known.  The
    framework's callbacks answer from the calls made so far. *)

From Stdlib Require Import ZArith Lia.
From S2P Require Import Prelude PyFloat Types PolicyRuntime Layout State CoreBase Pools Transfer Disk LocalDram Core.

(** A pin result: nothing, a handle with descriptors per key, or a value of another shape,
    of which a handle and the keys it names may still be readable. *)
Inductive PinResult :=
  | PinNone
  | PinDone (pin_handle : string) (pinned : list (BlockKey * option (list MemoryRef)))
  | PinMalformed (pin_handle : option string) (named : list BlockKey).

(** [_acquire_framework_sources]'s answers. *)
Inductive FrameworkSources :=
  | NoSources
  | PinsPending (pending_pins : list Z) (held : gset string)
  | PinsHeld (held : gset string).

Record PinCallbacks := mkPinCallbacks {
  pc_request : list PinCall → list BlockKey → result Z;
  pc_poll : list PinCall → list (Z * PinResult);
  pc_cancels : bool;
  pc_release : list PinCall → string → bool }.

Section Sources.
Context (E : Env) (resume : M St unit) (regions : RegionMaps) (progress_failure : St → option exn).
(** Whether local DRAM and framework pinning are configured, the callbacks, and the progress
    thread's route generations as this thread reads them. *)
Context (local_dram framework_pinning : bool) (callbacks : PinCallbacks).
Context (route_generation : string → Z).

(** [_progress.submit] *)
Definition submit_item (item : Submission) : M St unit :=
  failure ← gets progress_failure;
  match failure with
  | Some e => raise e
  | None => modify (λ s, set_s_submitted (s_submitted s ++ [item]) s)
  end.
Definition sid (n : Z) : OpId := ("source", ArgInt n).
Definition upd_remote (f : RemoteState → RemoteState) : M St unit :=
  modify (λ s, set_s_remote (f (s_remote s)) s).
Definition rget {A} (f : RemoteState → A) : M St A := gets (λ s, f (s_remote s)).
Definition call_pin (c : PinCall) : M St unit :=
  upd_remote (λ m, set_rt_callbacks (rt_callbacks m ++ [c]) m).
(** The operation object of an identity that is still registered. *)
Definition find_pin (n : Z) : M St (option SourcePin) := rget (λ m, dict_get n (rt_source_pins m)).
Definition upd_pin (n : Z) (f : SourcePin → SourcePin) : M St unit :=
  upd_remote (λ m, set_rt_source_pins
    ((λ x, if decide (x.1 = n) then (x.1, f x.2) else x) <$> rt_source_pins m) m).
Definition fw_mem_of (key : BlockKey) : M St (option FwMem) :=
  b ← find_record key; mret (b ≫= b_fw_mem).

(** ** Releasing pins *)

(** [_release_framework_pins]: a pin is released once no operation reads through it; its
    keys are kept until the framework accepts. *)
Definition pin_in_use (m : RemoteState) (pin : string) : bool :=
  existsb (λ x : Z * SourcePin, bool_decide (pin ∈ sp_framework_pins x.2)) (rt_source_pins m) ||
  existsb (λ x : Z * gset string, bool_decide (pin ∈ x.2)) (map_to_list (rt_pins_by_op m)).
Definition drop_fw_mem (pin : string) (key : BlockKey) : M St unit :=
  fw ← fw_mem_of key;
  if decide (fw_pin_handle <$> fw = Some pin)
  then upd_record key (set_b_fw_mem None) ;; prune_block_record key
  else mret tt.
Definition release_pin (pin : string) : M St unit :=
  m ← gets s_remote;
  if pin_in_use m pin then mret tt
  else
    match rt_pin_keys m !! pin with
    | None => mret tt
    | Some keys =>
        upd_remote (λ m, set_rt_releasing ({[ pin ]} ∪ rt_releasing m) m) ;;
        for_each (elements keys) (drop_fw_mem pin) ;;
        calls ← rget rt_callbacks;
        call_pin (ReleasePin pin) ;;
        if pc_release callbacks calls pin then
          upd_remote (λ m, set_rt_releasing (rt_releasing m ∖ {[ pin ]})
                             (set_rt_pin_keys (delete pin (rt_pin_keys m)) m))
        else mret tt
    end.
Definition release_framework_pins (pins : gset string) : M St unit :=
  for_each (elements pins) release_pin.
(** [retry_releases] *)
Definition retry_releases : M St unit := rget rt_releasing ≫= release_framework_pins.

(** [_discard_pin_result] *)
Definition note_pin_keys (pin : string) (keys : list BlockKey) : M St unit :=
  upd_remote (λ m, set_rt_pin_keys
    (<[pin := list_to_set keys ∪ default ∅ (rt_pin_keys m !! pin)]> (rt_pin_keys m)) m).
Definition discard_pin_result (result : PinResult) (keys : list BlockKey) : M St unit :=
  match result with
  | PinNone | PinMalformed None _ => mret tt
  | PinMalformed (Some pin) named => note_pin_keys pin (keys ++ named) ;; release_framework_pins {[ pin ]}
  | PinDone pin pinned => note_pin_keys pin (keys ++ pinned.*1) ;; release_framework_pins {[ pin ]}
  end.

(** ** Pending pins *)

(** [_remove_pending_pin_state] *)
Definition remove_pending_pin (request : Z) : M St (option PinWait) :=
  wait ← rget (λ m, dict_get request (rt_pending_pins m));
  match wait with
  | None => mret None
  | Some wait =>
      upd_remote (λ m, set_rt_pending_pins (dict_pop request (rt_pending_pins m)) m) ;;
      for_each (pw_keys wait) (λ key, upd_remote (λ m,
        match rt_pending_keys m !! key with
        | None => m
        | Some ids =>
            let ids := ids ∖ {[ request ]} in
            set_rt_pending_keys
              (if decide (ids = ∅) then delete key (rt_pending_keys m)
               else <[key := ids]> (rt_pending_keys m)) m
        end)) ;;
      mret (Some wait)
  end.
Definition cancel_pending_pin (request : Z) : M St unit :=
  if pc_cancels callbacks then call_pin (CancelPin request) else mret tt.

(** [_register_pending_pin] *)
Definition register_pending_pin (n request : Z) : M St unit :=
  wait ← rget (λ m, dict_get request (rt_pending_pins m));
  match wait with
  | None => mret tt
  | Some wait =>
      upd_remote (λ m, set_rt_pending_pins
        (dict_set request (mkPinWait (pw_keys wait) ({[ n ]} ∪ pw_op_ids wait)) (rt_pending_pins m)) m) ;;
      upd_pin n (λ op, set_sp_pending_pin_ids ({[ request ]} ∪ sp_pending_pin_ids op) op)
  end.

(** [_cancel_pending_pin_for_op] *)
Definition leave_wait (n request : Z) : M St unit :=
  wait ← rget (λ m, dict_get request (rt_pending_pins m));
  match wait with
  | None => mret tt
  | Some wait =>
      let ids := pw_op_ids wait ∖ {[ n ]} in
      upd_remote (λ m, set_rt_pending_pins
        (dict_set request (mkPinWait (pw_keys wait) ids) (rt_pending_pins m)) m) ;;
      if decide (ids = ∅) then remove_pending_pin request ;; cancel_pending_pin request else mret tt
  end.
Definition cancel_pending_pin_for_op (n : Z) : M St unit :=
  op ← find_pin n;
  match op with
  | None => mret tt
  | Some op =>
      for_each (elements (sp_pending_pin_ids op)) (leave_wait n) ;;
      upd_pin n (set_sp_pending_pin_ids ∅)
  end.

(** [_find_pending_pins]: the first pending request of each key, and the keys they cover. *)
Definition sorted_ids (ids : gset Z) : list Z := merge_sort Z.le (elements ids).
Definition find_pending_pins (keys : list BlockKey) : M St (list Z * list BlockKey) := rget (λ m,
  foldl (λ acc key,
    match head (filter (λ request, is_Some (dict_get request (rt_pending_pins m)))
                  (sorted_ids (default ∅ (rt_pending_keys m !! key)))) with
    | None => acc
    | Some request =>
        (if decide (request ∈ acc.1) then acc.1 else acc.1 ++ [request], acc.2 ++ [key])
    end) ([], []) keys).

(** [_pin_framework_keys] *)
Definition pin_framework_keys (keys : list BlockKey) : M St (option Z) :=
  if decide (keys = []) then mret None
  else
    calls ← rget rt_callbacks;
    call_pin (RequestPin keys) ;;
    match pc_request callbacks calls keys with
    | Raise _ => mret None
    | Ret request =>
        known ← rget (λ m, dict_get request (rt_pending_pins m));
        if decide (known ≠ None) then mret None
        else
          upd_remote (λ m, set_rt_pending_pins
            (dict_set request (mkPinWait keys ∅) (rt_pending_pins m)) m) ;;
          for_each keys (λ key, upd_remote (λ m, set_rt_pending_keys
            (<[key := {[ request ]} ∪ default ∅ (rt_pending_keys m !! key)]> (rt_pending_keys m)) m)) ;;
          mret (Some request)
    end.

(** [_acquire_framework_sources] *)
Definition pins_of (keys : list BlockKey) : M St (gset string) :=
  fold_each (λ pins key,
    fw ← fw_mem_of key;
    mret (match fw with None => pins | Some fw => {[ fw_pin_handle fw ]} ∪ pins end)) ∅ keys.
Definition acquire_framework_sources (keys : list BlockKey) : M St FrameworkSources :=
  if negb framework_pinning then mret NoSources
  else
    keys_to_pin ← fold_each (λ acc key,
      fw ← fw_mem_of key; mret (if decide (fw = None) then acc ++ [key] else acc)) [] keys;
    held ← pins_of keys;
    pending ←
      (if decide (keys_to_pin = []) then mret []
       else
         '(pending_pins, covered) ← find_pending_pins keys_to_pin;
         request ← pin_framework_keys (filter (λ key, key ∉ covered) keys_to_pin);
         mret (pending_pins ++ match request with None => [] | Some request => [request] end));
    if decide (pending ≠ []) then mret (PinsPending pending held)
    else
      held ← pins_of keys;
      mret (if decide (held = ∅) then NoSources else PinsHeld held).

(** ** Handing a write to the progress thread *)

(** What one key contributes: nothing, a wait for a copy in progress, a mismatch, or its
    index and descriptors. *)
Inductive KeySource := Skip | Wait | Mismatch | Pick (refs : list TransferRef).
Definition key_source (pin : SourcePin) (local_sources : gmap BlockKey nat) (destination : list TransferRef)
    (key : BlockKey) : M St KeySource :=
  let labels := tr_label <$> destination in
  match local_sources !! key with
  | Some rid =>
      r ← get_res rid;
      if decide (sp_key_layout pin ≠ [] ∧ sp_key_layout pin ≠ r_key_layout r) then mret Mismatch
      else
        match (if decide (r_state r = READY) then ready_indices r labels else None) with
        | Some indices => refs ← source_refs E rid indices; mret (Pick refs)
        | None => mret (if bool_decide (r_state r ≠ DISCARDING) && can_wait_for_pieces r labels
                        then Wait else Mismatch)
        end
  | None =>
      fw ← fw_mem_of key;
      match fw with
      | None => mret Skip
      | Some fw =>
          let layout := tr_label <$> fw_descriptors fw in
          if decide (sp_key_layout pin ≠ [] ∧ sp_key_layout pin ≠ layout) then mret Mismatch
          else
            match layout_indices layout labels None with
            | None => mret Mismatch
            | Some indices => mret (Pick (omap (λ i, fw_descriptors fw !! i) indices))
            end
      end
  end.
(** A key that cannot be served leaves the operation. *)
Definition drop_key (n : Z) (key : BlockKey) : M St unit :=
  upd_pin n (λ op, set_sp_keys (sp_keys op ∖ {[ key ]}) op) ;;
  b ← find_record key;
  match b with
  | None => raise (KeyError key)
  | Some _ => upd_record key (discard_in_flight_op (sid n)) ;; prune_block_record key
  end.

Record Selection := mkSelection { sel_indices : list nat; sel_sources : list (list TransferRef); sel_waiting : bool }.
Definition select_one (n : Z) (pin : SourcePin) (local_sources : gmap BlockKey nat)
    (sel : Selection) (x : nat * BlockKey) : M St Selection :=
  let '(i, key) := x in
  if decide (key ∉ sp_keys pin) then mret sel
  else
    source ← key_source pin local_sources (default [] (sp_dst_descriptors pin !! i)) key;
    match source with
    | Skip => mret sel
    | Wait => mret (mkSelection (sel_indices sel) (sel_sources sel) true)
    | Mismatch => drop_key n key ;; mret sel
    | Pick refs => mret (mkSelection (sel_indices sel ++ [i]) (sel_sources sel ++ [refs]) (sel_waiting sel))
    end.

Definition claim_sources (n : Z) (keys : list BlockKey) (allow_filling : bool) : M St (gmap BlockKey nat) :=
  if local_dram then claim_local_dram_sources E (sid n) keys allow_filling else sources_of (sid n).

(** The pins the write reads through, its own or another operation's. *)
Definition relevant_pins (local_sources : gmap BlockKey nat) (keys : list BlockKey) : M St (gset string) :=
  pins_of (filter (λ key, local_sources !! key = None) keys).

(** The operation handed over. *)
Definition write_of (n : Z) (pin : SourcePin) (sel : Selection) (force_failure : bool) : SourceWrite :=
  let completed_keys := omap (λ i, sp_ordered_keys pin !! i) (sel_indices sel) in
  mkSourceWrite n (if decide (completed_keys = []) then sp_keys pin else list_to_set completed_keys)
    (sp_deadline pin) (if force_failure then NOTIFY_FAILURE else READY_TO_WRITE)
    (sp_remote_agent pin) (sp_op_handle pin) completed_keys
    (omap (λ i, sp_dst_descriptors pin !! i) (sel_indices sel)) (sel_sources sel) None false
    (sel_indices sel) (sp_route pin) None.
Definition hand_over (n : Z) (pin : SourcePin) (sel : Selection) (force_failure : bool)
    (framework_pins : gset string) : M St unit :=
  upd_remote (λ m, set_rt_source_pins (dict_pop n (rt_source_pins m)) m) ;;
  remove_block_dependencies (sid n) (elements (sp_keys pin)) ;;
  let write := write_of n pin sel force_failure in
  add_block_dependencies (sid n) (elements (sw_keys write)) ;;
  upd_remote (λ m, set_rt_pins_by_op (<[n := framework_pins]> (rt_pins_by_op m)) m) ;;
  submit_item (SubmitWrite write).

(** [_submit_prepared_source_write] *)
Definition submit_prepared (n : Z) (force_failure : bool) : M St unit :=
  pin ← find_pin n;
  match pin with
  | None => raise (KeyError "source pin")
  | Some pin =>
      let '(route_name, generation) := sp_route pin in
      (* the name may have been routed anew while the operation queued *)
      let force_failure := force_failure ||
        bool_decide (route_name ≠ "") && negb (route_generation route_name =? generation)%Z in
      local_sources ← claim_sources n (elements (sp_keys pin)) false;
      sel ← fold_each (select_one n pin local_sources) (mkSelection [] [] false)
              (if force_failure then [] else imap pair (sp_ordered_keys pin));
      pin ← (found ← find_pin n; match found with Some p => mret p | None => raise (KeyError "source pin") end);
      let completed_keys := omap (λ i, sp_ordered_keys pin !! i) (sel_indices sel) in
      let retained := if sel_waiting sel then elements (sp_keys pin) else completed_keys in
      release_local_dram_sources E resume (sid n)
        (Some (filter (λ key, key ∉ retained) (map_to_list local_sources).*1)) ;;
      framework_pins ← relevant_pins local_sources retained;
      let unused := sp_framework_pins pin ∖ framework_pins in
      if sel_waiting sel then
        upd_pin n (set_sp_framework_pins framework_pins) ;;
        release_framework_pins unused
      else
        hand_over n pin sel force_failure framework_pins ;;
        release_framework_pins unused
  end.

(** [_resume_source_pin] *)
Definition overlaps_release (keys : list BlockKey) : M St bool :=
  m ← gets s_remote;
  fold_each (λ acc pin,
    if (acc : bool) then mret true
    else match rt_pin_keys m !! pin with
         | None => raise (KeyError pin)
         | Some held => mret (existsb (λ key, bool_decide (key ∈ held)) keys)
         end) false (elements (rt_releasing m)).
Definition resume_source_pin (n : Z) : M St unit :=
  pin ← find_pin n;
  match pin with
  | None => mret tt
  | Some pin =>
      now ← clock E;
      if fgeb now (sp_deadline pin) then submit_prepared n true
      else
        local_sources ← claim_sources n (elements (sp_keys pin)) true;
        let unresolved := filter (λ key, key ∈ sp_keys pin ∧ local_sources !! key = None) (sp_ordered_keys pin) in
        if decide (unresolved ≠ [] ∧ sp_acquire_attempted pin = false) then
          blocked ← overlaps_release unresolved;
          if (blocked : bool) then mret tt
          else
            upd_pin n (set_sp_acquire_attempted true) ;;
            sources ← acquire_framework_sources unresolved;
            match sources with
            | PinsPending pending held =>
                upd_pin n (λ op, set_sp_framework_pins (held ∪ sp_framework_pins op) op) ;;
                for_each pending (register_pending_pin n)
            | PinsHeld held =>
                upd_pin n (λ op, set_sp_framework_pins (held ∪ sp_framework_pins op) op) ;;
                submit_prepared n false
            | NoSources => submit_prepared n false
            end
        else submit_prepared n false
  end.

(** [start_source_pin] *)
Definition start_source_pin (op : SourcePin) : M St unit :=
  add_block_dependencies (sid (sp_source_op op)) (elements (sp_keys op)) ;;
  upd_remote (λ m, set_rt_source_pins (dict_set (sp_source_op op) op (rt_source_pins m)) m) ;;
  resume_source_pin (sp_source_op op).

(** [_expire_source_pin] *)
Definition expire_source_pin (n : Z) : M St unit :=
  cancel_pending_pin_for_op n ;; submit_prepared n true.

(** [_resolve_pending_source_pin] *)
Definition resolve_pending_source_pin (n request : Z) : M St unit :=
  pin ← find_pin n;
  match pin with
  | None => mret tt
  | Some pin =>
      if decide (request ∉ sp_pending_pin_ids pin) then mret tt
      else
        let ids := sp_pending_pin_ids pin ∖ {[ request ]} in
        upd_pin n (set_sp_pending_pin_ids ids) ;;
        if decide (ids ≠ ∅) then mret tt
        else
          relevant ← pins_of (elements (sp_keys pin));
          upd_pin n (set_sp_framework_pins relevant) ;;
          release_framework_pins (sp_framework_pins pin ∖ relevant) ;;
          resume_source_pin n
  end.

(** [_install_framework_pin] *)
Fixpoint normalize_pinned (pinned : list (BlockKey * option (list MemoryRef)))
    : result (list (BlockKey * option (list TransferRef))) :=
  match pinned with
  | [] => Ret []
  | (key, None) :: pinned => rest ← normalize_pinned pinned; mret ((key, None) :: rest)
  | (key, Some refs) :: pinned =>
      refs ← normalize_descriptors E regions refs;
      rest ← normalize_pinned pinned;
      mret ((key, Some refs) :: rest)
  end.
Definition check_pin (keys : list BlockKey) (result : PinResult)
    : option (string * list (BlockKey * option (list TransferRef))) :=
  match result with
  | PinDone pin pinned =>
      if decide ((list_to_set pinned.*1 : gset BlockKey) = list_to_set keys) then
        match normalize_pinned pinned with
        | Ret normalized => if decide (Exists (λ x, x.2 ≠ None) normalized) then Some (pin, normalized) else None
        | Raise _ => None
        end
      else None
  | _ => None
  end.
Definition install_one (pin : string) (x : BlockKey * option (list TransferRef)) : M St unit :=
  match x.2 with
  | None => mret tt
  | Some refs =>
      b ← block_record x.1;
      if decide (b_fw_mem b ≠ None) then mret tt
      else
        upd_record x.1 (set_b_fw_mem (Some (mkFwMem refs pin))) ;;
        note_pin_keys pin [x.1]
  end.
Definition install_framework_pin (keys : list BlockKey) (result : PinResult) : M St (option string) :=
  match check_pin keys result with
  | Some (pin, normalized) =>
      note_pin_keys pin [] ;;
      for_each normalized (install_one pin) ;;
      mret (Some pin)
  | None => discard_pin_result result keys ;; mret None
  end.

(** [_process_pending_pin_results] *)
Definition waiting_ops (request : Z) (wait : option PinWait) : M St (list (Z * SourcePin)) := rget (λ m,
  omap (λ n, match dict_get n (rt_source_pins m) with
             | Some op => if decide (request ∈ sp_pending_pin_ids op) then Some (n, op) else None
             | None => None
             end) (elements (default ∅ (pw_op_ids <$> wait)))).
Definition expire_waiter (request n : Z) : M St unit :=
  upd_pin n (λ op, set_sp_pending_pin_ids (sp_pending_pin_ids op ∖ {[ request ]}) op) ;;
  expire_source_pin n.
Definition process_pin_result (x : Z * PinResult) : M St unit :=
  let '(request, result) := x in
  wait ← remove_pending_pin request;
  ops ← waiting_ops request wait;
  let keys := default [] (pw_keys <$> wait) in
  if decide (ops = []) then discard_pin_result result keys
  else
    now ← clock E;
    let expired := (filter (λ x : Z * SourcePin, fgeb now (sp_deadline x.2) = true) ops).*1 in
    let active := (filter (λ x : Z * SourcePin, fltb now (sp_deadline x.2) = true) ops).*1 in
    if decide (active = []) then
      discard_pin_result result keys ;;
      for_each expired (expire_waiter request)
    else
      pin ← (match result with PinNone => mret None | _ => install_framework_pin keys result end);
      (match pin with
       | None => mret tt
       | Some pin => for_each active (λ n, upd_pin n (λ op, set_sp_framework_pins ({[ pin ]} ∪ sp_framework_pins op) op))
       end) ;;
      for_each expired (expire_waiter request) ;;
      for_each active (λ n, resolve_pending_source_pin n request) ;;
      match pin with None => mret tt | Some pin => release_framework_pins {[ pin ]} end.
Definition poll_pin_results : M St (list (Z * PinResult)) :=
  if negb framework_pinning then mret []
  else
    calls ← rget rt_callbacks;
    call_pin PollPins ;;
    mret (pc_poll callbacks calls).
Definition process_pending_pin_results : M St unit :=
  results ← poll_pin_results; for_each results process_pin_result.

(** [poll] *)
Definition poll_sources : M St unit :=
  process_pending_pin_results ;;
  now ← clock E;
  ops ← rget rt_source_pins;
  for_each ops (λ '((n, op) : Z * SourcePin),
    if fgeb now (sp_deadline op) then expire_source_pin n
    else
      current ← find_pin n;
      match current with
      | Some op => if decide (sp_pending_pin_ids op = ∅) then resume_source_pin n else mret tt
      | None => mret tt
      end).

(** [finish_source_write] *)
Definition finish_source_write (item : SourceWrite) : M St unit :=
  if decide (sw_state item ≠ WRITE_FINISHED ∧ sw_state item ≠ CANCEL_PENDING)
  then raise (RuntimeError "KVCR source operation returned to main")
  else if decide (sw_local_sources item ≠ None) then mret tt
  else
    let n := sw_source_op item in
    pins ← rget (λ m, rt_pins_by_op m !! n);
    upd_remote (λ m, set_rt_pins_by_op (delete n (rt_pins_by_op m)) m) ;;
    (if decide (sw_state item = WRITE_FINISHED) then
       remove_block_dependencies (sid n) (elements (sw_keys item)) ;;
       (if sw_success item
        then sources ← sources_of (sid n); record_access E (map_to_list sources).*1
        else mret tt) ;;
       release_local_dram_sources E resume (sid n) None
     else mret tt) ;;
    match pins with None => mret tt | Some pins => release_framework_pins pins end.

(** [_remove_source_pin] and [close] *)
Definition remove_source_pin (n : Z) : M St unit :=
  pin ← find_pin n;
  cancel_pending_pin_for_op n ;;
  upd_remote (λ m, set_rt_source_pins (dict_pop n (rt_source_pins m)) m) ;;
  match pin with
  | None => mret tt
  | Some pin =>
      remove_block_dependencies (sid n) (elements (sp_keys pin)) ;;
      release_local_dram_sources E resume (sid n) None ;;
      release_framework_pins (sp_framework_pins pin)
  end.
Definition sources_close : M St unit :=
  ops ← rget rt_source_pins;
  for_each ops.*1 remove_source_pin ;;
  requests ← rget (λ m, (rt_pending_pins m).*1);
  for_each requests (λ request, remove_pending_pin request ;; cancel_pending_pin request) ;;
  results ← poll_pin_results;
  for_each results (λ x : Z * PinResult, discard_pin_result x.2 []) ;;
  upd_remote (set_rt_pins_by_op ∅) ;;
  pins ← rget (λ m, (map_to_list (rt_pin_keys m)).*1);
  release_framework_pins (list_to_set pins) ;;
  left ← rget rt_pin_keys;
  if decide (left = ∅) then mret tt else raise (RuntimeError "KVCR could not release framework pins").
End Sources.
