(* ===== verification/RemoteMain.v ===== *)
(** * Remote reads: hints, pulls and the main thread

    The caller-side half of [_RemoteFWDram] ([src/src/kvcr/backends/remote_fw_dram.py]): request
    hints, starting a pull for a fetch or a delivery, and taking back what the progress thread
    completed.  [remote_tier] is the tier as the core sees it. *)

From Stdlib Require Import ZArith Lia.
From S2P Require Import Prelude PyFloat Types PolicyRuntime Layout State CoreBase Pools Transfer Disk LocalDram Core RemoteSources.

Section RemoteMain.
Context (E : Env) (regions : RegionMaps) (progress_failure : St → option exn).
Context (local_dram framework_pinning : bool) (callbacks : PinCallbacks) (route_generation : string → Z).
(** [RemoteFWDramOptions], and the key adapter's router hash where one is configured. *)
Context (opportunistic_query eager_ctrl_connect : bool) (encode_to_router : option (BlockKey → Z)).

Definition find_hint (request_id : option string) : M St (option RequestHint) :=
  rget (λ m, request_id ≫= λ id, rt_hints m !! id).
Definition set_hint (request_id : string) (hint : RequestHint) : M St unit :=
  upd_remote (λ m, set_rt_hints (<[request_id := hint]> (rt_hints m)) m).

(** ** Hints *)

(** [submit_hint]: a second source for the same request makes its hint unusable. *)
Definition submit_hint (src : option string) (block_hashes : gset Z) (request_id : option string)
    : M St unit :=
  conflict ← (match request_id with
    | None => mret false
    | Some id =>
        previous ← find_hint request_id;
        match previous with
        | Some previous =>
            if decide (rh_source previous ≠ src)
            then set_hint id (mkRequestHint (rh_source previous) (rh_block_hashes previous) true
                                (rh_missing_keys previous)) ;; mret true
            else set_hint id (mkRequestHint src block_hashes false ∅) ;; mret false
        | None => set_hint id (mkRequestHint src block_hashes false ∅) ;; mret false
        end
    end);
  match src with
  | Some endpoint =>
      if negb conflict && eager_ctrl_connect
      then submit_item progress_failure (SubmitMetadata endpoint) else mret tt
  | None => mret tt
  end.

(** [query] *)
Definition hint_query (key : BlockKey) (request_id : option string) : M St bool :=
  hint ← find_hint request_id;
  mret (match hint, encode_to_router with
        | Some hint, Some encode =>
            bool_decide (rh_source hint ≠ None) && negb (rh_failed hint) &&
            negb (bool_decide (key ∈ rh_missing_keys hint)) &&
            (opportunistic_query || bool_decide (encode key ∈ rh_block_hashes hint))
        | _, _ => false
        end).

Definition discard_request_hint (request_id : string) : M St unit :=
  upd_remote (λ m, set_rt_hints (delete request_id (rt_hints m)) m).
(** [_fail_request_hint] *)
Definition fail_request_hint (request_id : option string) : M St unit :=
  hint ← find_hint request_id;
  match request_id, hint with
  | Some id, Some hint =>
      set_hint id (mkRequestHint (rh_source hint) (rh_block_hashes hint) true (rh_missing_keys hint))
  | _, _ => mret tt
  end.

(** ** Starting a pull *)

(** The layout a local fill asks for. *)
Definition fill_layout (keys : list BlockKey) : M St (list label) :=
  match keys with
  | [] => raise (RuntimeError "tuple index out of range")
  | key :: _ =>
      b ← find_record key;
      match b ≫= b_local_dram with
      | None => raise (KeyError key)
      | Some rid => r ← get_res rid; mret (r_key_layout r)
      end
  end.
(** [_start_target_pull] *)
Definition start_target_pull (blocks : blocks) (request_id : option string) (deadline : float)
    (op_handle : Z) (local_fill : bool) : M St bool :=
  hint ← find_hint request_id;
  match hint with
  | None => mret false
  | Some hint =>
      match rh_source hint with
      | None => mret false
      | Some source =>
          if rh_failed hint || bool_decide (Forall (λ key, key ∈ rh_missing_keys hint) blocks.*1)
          then mret false
          else
            let wanted := filter (λ x : BlockKey * list TransferRef, x.1 ∉ rh_missing_keys hint) blocks in
            let keys := wanted.*1 in
            key_layout ← (if local_fill then fill_layout keys else mret []);
            let op := mkTargetPull op_handle (list_to_set blocks.*1) deadline START_WRITE local_fill source
                        keys wanted.*2 request_id key_layout false ∅ false None false false in
            add_block_dependencies ("target", ArgInt op_handle) (elements (tp_keys op)) ;;
            submit_item progress_failure (SubmitPull op) ;;
            (if negb local_fill && bool_decide (request_id ≠ None) then
               modify (λ s, set_s_remote_delivery_keys
                 (<[request_id := list_to_set keys ∪ default ∅ (s_remote_delivery_keys s !! request_id)]>
                    (s_remote_delivery_keys s)) s)
             else mret tt) ;;
            mret true
      end
  end.

(** [deliver] and [fetch] *)
Definition remote_deliver (op_handle : Z) (blocks : blocks) (request_id : option string) (deadline : float)
    : M St unit :=
  if decide (blocks = []) then complete op_handle ∅
  else
    started ← start_target_pull blocks request_id deadline op_handle false;
    if (started : bool) then mret tt
    else complete op_handle (list_to_map ((λ key, (key, plain_result FAILED)) <$> blocks.*1)).
Definition remote_fetch (blocks : blocks) (request_id : option string) (deadline : float) (op_handle : Z)
    : M St bool := start_target_pull blocks request_id deadline op_handle true.

(** ** Taking pulls back *)

Section Poll.
Context (resume : M St unit) (complete_fill : list BlockKey → bool → M St unit)
  (discard_fill : list BlockKey → M St unit).

(** What the source did not have is remembered. *)
Definition remember_missing (op : TargetPull) (completed_keys : gset BlockKey) : M St unit :=
  hint ← find_hint (tp_request_id op);
  match tp_request_id op, hint with
  | Some id, Some hint =>
      set_hint id (mkRequestHint (rh_source hint) (rh_block_hashes hint) (rh_failed hint)
        ((rh_missing_keys hint ∪ tp_keys op) ∖ completed_keys))
  | _, _ => mret tt
  end.
(** [_finish_target_pull] *)
Definition finish_target_pull (op : TargetPull) : M St unit :=
  (if decide (tp_state op = QUARANTINED) then mret tt
   else remove_block_dependencies ("target", ArgInt (tp_op_handle op)) (elements (tp_keys op))) ;;
  let completed_keys := if tp_success op then tp_completed_keys op else ∅ in
  (if tp_success op then remember_missing op completed_keys else fail_request_hint (tp_request_id op)) ;;
  if tp_local_fill op then
    (* a quarantined fill still owns the slots *)
    if decide (tp_state op = QUARANTINED) then mret tt
    else
      (if decide (completed_keys = ∅) then mret tt
       else complete_fill (filter (λ key, key ∈ completed_keys) (tp_ordered_keys op)) true) ;;
      if decide (completed_keys = tp_keys op) then mret tt
      else complete_fill (elements (tp_keys op ∖ completed_keys)) false
  else
    complete (tp_op_handle op)
      (set_to_map (λ key, (key, plain_result (if decide (key ∈ completed_keys) then SUCCESS else FAILED)))
         (tp_keys op)).

Definition finish_pull_item (op : TargetPull) : M St unit :=
  match tp_state op with
  | WAITING_TERMINAL =>
      if tp_local_fill op then discard_fill (elements (tp_keys op))
      else raise (RuntimeError "non-local target pull is waiting for terminal state")
  | QUARANTINED => finish_target_pull op
  | PULL_FINISHED =>
      if tp_uncertain op then
        remove_block_dependencies ("target", ArgInt (tp_op_handle op)) (elements (tp_keys op)) ;;
        if tp_local_fill op then complete_fill (elements (tp_keys op)) false else mret tt
      else finish_target_pull op
  | _ => raise (RuntimeError "KVCR target operation returned to main")
  end.

(** [poll_main] *)
Definition remote_item (item : Item) : M St unit :=
  match item with
  | ItemRemote (ItemPin op) =>
      start_source_pin E resume progress_failure local_dram framework_pinning callbacks route_generation op
  | ItemRemote (ItemWrite op) => finish_source_write E resume callbacks op
  | ItemRemote (ItemPull op) => finish_pull_item op
  | ItemRemote (ItemUpdate count) => upd_remote (set_rt_remote_count count)
  | _ => raise (TypeError "unsupported KVCR main item")
  end.
Definition remote_poll_main (items : list Item) : M St unit :=
  retry_releases callbacks ;;
  for_each items remote_item ;;
  closed ← rget rt_closed;
  if (closed : bool) then mret tt
  else poll_sources E resume regions progress_failure local_dram framework_pinning callbacks route_generation.
End Poll.

(** [close_main] *)
Definition remote_close_main (resume : M St unit) : M St unit :=
  closed ← rget rt_closed;
  if (closed : bool) then mret tt
  else
    upd_remote (set_rt_closed true) ;;
    upd_remote (set_rt_hints ∅) ;;
    sources_close E resume framework_pinning callbacks.

(** The tier as the core sees it. *)
Definition remote_tier : Remote :=
  mkRemote hint_query remote_fetch remote_deliver discard_request_hint remote_poll_main remote_close_main.
End RemoteMain.
