(* ===== verification/PullLife.v ===== *)
(** * The life of a pull

    Every sequence of turns of [_TargetPullOp.progress] ([src/src/kvcr/backends/remote_ops.py]),
    whatever it hears and however the channel and the clock answer: no turn fails, a
    [start_write] is sent again only after a refusal, the operation ends only on terminal
    evidence, succeeds only on a timely success that nothing cancelled, and tells the
    framework of uncertain memory exactly once and of its end exactly once. *)

From Stdlib Require Import ZArith Lia.
From S2P Require Import Prelude PyFloat Types PolicyRuntime Layout State CoreBase Pools PoolsInv PoolsAdmit PoolsProps Transfer Disk LocalDram Core Remote RemoteOps.

Section Life.
Context (R : RemoteEnv).

(** ** What an operation of the wire adds to its logs *)

(** [m] returns, appends [sent] to the messages and [out] to the outbound list, and leaves the
    transfer table, the writes and their statuses alone. *)
Record adds (p p' : Peer) (sent : list (string * ControlMessage * bool)) (out : list Outbound) : Prop := {
  ad_sent : w_sent (peer_wire p') = w_sent (peer_wire p) ++ sent;
  ad_out : w_outbound (peer_wire p') = w_outbound (peer_wire p) ++ out;
  ad_notified : w_notified (peer_wire p') = w_notified (peer_wire p);
  ad_writes : w_source_writes (peer_wire p') = w_source_writes (peer_wire p);
  ad_flight : w_in_flight (peer_wire p') = w_in_flight (peer_wire p);
  ad_prog : w_prog (peer_wire p') = w_prog (peer_wire p) }.
Lemma adds_refl p : adds p p [] [].
Proof. split; rewrite ?app_nil_r; reflexivity. Qed.
Lemma adds_trans a b c s s' o o' : adds a b s o → adds b c s' o' → adds a c (s ++ s') (o ++ o').
Proof. intros [] []. split; rewrite ?app_assoc; congruence. Qed.

Lemma rclock_run p : ∃ now p', rclock R p = (Ret now, p') ∧ adds p p' [] [].
Proof. do 2 eexists. split; [reflexivity|]. split; rewrite ?app_nil_r; reflexivity. Qed.
Lemma upd_wire_run f p : (∀ w, w_sent (f w) = w_sent w ∧ w_outbound (f w) = w_outbound w ∧
    w_notified (f w) = w_notified w ∧ w_source_writes (f w) = w_source_writes w ∧
    w_in_flight (f w) = w_in_flight w ∧ w_prog (f w) = w_prog w) →
  ∃ p', upd_wire f p = (Ret tt, p') ∧ adds p p' [] [].
Proof.
  intros Hf. destruct (Hf (peer_wire p)) as (H1 & H2 & H3 & H4 & H5 & H6).
  eexists. split; [reflexivity|]. split; rewrite ?app_nil_r; assumption.
Qed.
Lemma outbound_run o p : ∃ p', outbound o p = (Ret tt, p') ∧ adds p p' [] [o].
Proof. eexists. split; [reflexivity|]. split; rewrite ?app_nil_r; reflexivity. Qed.
Lemma invalidate_peer_run ep p : ∃ p', invalidate_control_peer ep p = (Ret tt, p') ∧ adds p p' [] [].
Proof. by apply upd_wire_run. Qed.
Lemma retry_due_run ep p : ∃ b p', retry_due R ep p = (Ret b, p') ∧ adds p p' [] [].
Proof. do 2 eexists. split; [reflexivity|]. split; rewrite ?app_nil_r; reflexivity. Qed.
Lemma includes_run ep m p : ∃ b p', includes_metadata R ep m p = (Ret b, p') ∧ adds p p' [] [].
Proof.
  destruct p as [s w]. unfold includes_metadata, mbind, M_bind. simpl. destruct (_ || _); [do 2 eexists; split; [reflexivity|apply adds_refl]|].
  destruct (must_carry m); [do 2 eexists; split; [reflexivity|apply adds_refl]|]. apply retry_due_run.
Qed.

(** A message is logged with the channel's answer, when there is a channel. *)
Lemma send_control_run ep m p : ∃ b p' carry, send_control R ep m p = (Ret b, p') ∧
  adds p p' (if negb (re_control R) || bool_decide (re_metadata R = None) then []
             else [(ep, stamp R ep carry m, b)]) [] ∧
  (b = true → negb (re_control R) || bool_decide (re_metadata R = None) = false).
Proof.
  unfold send_control. destruct (_ || _) eqn:Hc.
  { exists false, p, false. split_and!; [done|apply adds_refl|done]. }
  unfold mbind, M_bind. destruct (includes_run ep m p) as (carry & p1 & -> & H1).
  unfold ask, upd_wire, rclock, clock, on_core, on_wire, modify, mret, M_ret. simpl.
  destruct (re_send R _) eqn:Hb; simpl; [destruct carry; simpl|].
  all: eexists _, _, _; split; [reflexivity|]; split; [|done].
  all: eapply (adds_trans _ p1 _ [] [_] [] []); [exact H1|]; split; simpl; rewrite ?app_nil_r; reflexivity.
Qed.

(** ** What a turn does *)

(** The [start_write]s that a channel took. *)
Definition is_start (x : string * ControlMessage * bool) : bool :=
  x.2 && match cm_body x.1.2 with StartWrite _ _ _ _ _ _ => true | _ => false end.
Definition starts (sent : list (string * ControlMessage * bool)) : nat := length (filter (λ x, is_start x = true) sent).
Lemma starts_app a b : starts (a ++ b) = starts a + starts b.
Proof. unfold starts. by rewrite filter_app, length_app. Qed.

(** What never changes in a pull. *)
Record same_pull (op op' : TargetPull) : Prop := {
  sp_handle : tp_op_handle op' = tp_op_handle op;
  sp_all : tp_keys op' = tp_keys op;
  sp_fill : tp_local_fill op' = tp_local_fill op;
  sp_endpoint : tp_remote_ctrl_ep op' = tp_remote_ctrl_ep op;
  sp_ordered : tp_ordered_keys op' = tp_ordered_keys op;
  sp_dst : tp_dst_descriptors op' = tp_dst_descriptors op }.
Lemma same_refl op : same_pull op op.
Proof. done. Qed.
Lemma same_trans a b c : same_pull a b → same_pull b c → same_pull a c.
Proof. intros [] []. split; congruence. Qed.

Lemma probe_run op p : ∃ b p' sent, probe R op p = (Ret b, p') ∧ adds p p' sent [] ∧ starts sent = 0.
Proof.
  destruct (send_control_run (tp_remote_ctrl_ep op)
    (message (WriteProbe (tp_op_handle op) (tp_source_incarnation op))) p) as (b & p' & c & H & Ha & _).
  exists b, p'. eexists. split; [exact H|]. split; [exact Ha|].
  destruct (_ || _); [done|]. unfold starts. rewrite filter_cons_False; [done|]. unfold is_start. simpl. by destruct b.
Qed.
(** An uncertain destination as the framework hears of it. *)
Definition pull_memory (op : TargetPull) (quiesced : bool) : Outbound :=
  OutTargetMemory (tp_op_handle op) quiesced (memory_ref_of <$> concat (tp_dst_descriptors op)) (tp_local_fill op).
Lemma poll_target_run op p : tp_uncertain op = false → ∃ b p' sent,
  poll_target R op p = (Ret (set_tp_uncertain true op, b), p') ∧ starts sent = 0 ∧
  adds p p' sent [pull_memory op false; OutRemote (ItemPull (set_tp_uncertain true op))].
Proof.
  intros Hu. unfold poll_target. rewrite Hu. unfold mbind, M_bind.
  destruct (outbound_run (pull_memory op false) p) as (p1 & H1 & A1).
  change (report_target (set_tp_uncertain true op) false p = (Ret tt, p1)) in H1. rewrite H1.
  destruct (outbound_run (OutRemote (ItemPull (set_tp_uncertain true op))) p1) as (p2 & -> & A2).
  destruct (invalidate_peer_run (tp_remote_ctrl_ep (set_tp_uncertain true op)) p2) as (p3 & -> & A3).
  destruct (probe_run (set_tp_uncertain true op) p3) as (b & p4 & sent & -> & A4 & Hs).
  exists b, p4, sent. split_and!; [done..|].
  pose proof (adds_trans _ _ _ _ _ _ _ A1 (adds_trans _ _ _ _ _ _ _ A2 (adds_trans _ _ _ _ _ _ _ A3 A4))) as H.
  exact H.
Qed.

(** A turn of a pull that was told to start: it is sent, or it fails. *)
Lemma start_pull_run op now p : ∃ op' fin work p' sent,
  start_pull R op now p = (Ret (op', fin, work), p') ∧ adds p p' sent [] ∧ same_pull op op' ∧
  tp_retried op' = tp_retried op ∧ tp_uncertain op' = tp_uncertain op ∧
  if (fin : bool) then tp_state op' = PULL_FINISHED ∧ tp_success op' = false ∧ starts sent = 0
  else tp_state op' = WAITING_WRITE_DONE ∧ tp_success op' = tp_success op ∧ starts sent = 1.
Proof.
  unfold start_pull, mbind, M_bind.
  assert (∃ op1 p1, (if tp_retried op
    then upd_wire (λ w, set_w_acked (w_acked w ∖ {[ tp_remote_ctrl_ep op ]}) w) ;; mret op
    else incarnation ← wget (λ w, w_sources w !! tp_remote_ctrl_ep op);
         mret (set_tp_source_incarnation incarnation op)) p = (Ret op1, p1) ∧ adds p p1 [] [] ∧
    same_pull op op1 ∧ tp_retried op1 = tp_retried op ∧ tp_uncertain op1 = tp_uncertain op ∧
    tp_success op1 = tp_success op) as (op1 & p1 & Heq & A1 & Hsame & Hr & Hu & Hs).
  { destruct (tp_retried op) eqn:Hr.
    - edestruct (upd_wire_run (λ w, set_w_acked (w_acked w ∖ {[ tp_remote_ctrl_ep op ]}) w) p) as (p1 & H1 & A1); [done|].
      exists op, p1. unfold mbind, M_bind. rewrite H1. done.
    - exists (set_tp_source_incarnation (w_sources (peer_wire p) !! tp_remote_ctrl_ep op) op), p.
      split; [destruct p; reflexivity|]. split; [apply adds_refl|done]. }
  unfold mbind, M_bind in Heq. rewrite Heq. clear Heq. destruct (fgeb now (tp_deadline op1)).
  { exists (set_tp_state PULL_FINISHED (set_tp_success false op1)), true, true, p1, []. split; [done|]. split; [exact A1|]. split; [by destruct Hsame|]. by split_and!. }
  match goal with |- context [send_control R ?ep ?m p1] =>
    destruct (send_control_run ep m p1) as (b & p2 & c & -> & A2 & Hb) end.
  destruct b; simpl.
  - rewrite (Hb eq_refl) in A2. do 5 eexists. split; [reflexivity|].
    split; [exact (adds_trans _ _ _ _ _ _ _ A1 A2)|]. split_and!; try done; by destruct Hsame.
  - do 5 eexists. split; [reflexivity|]. split; [exact (adds_trans _ _ _ _ _ _ _ A1 A2)|].
    split_and!; try done; [by destruct Hsame|]. by destruct (_ || _).
Qed.

(** A terminal event ends a pull. *)
Lemma end_pull_run op event now p : ∃ op' p' out,
  end_pull op event now p = (Ret (op', true, true), p') ∧ adds p p' [] out ∧ same_pull op op' ∧
  tp_retried op' = tp_retried op ∧ tp_uncertain op' = tp_uncertain op ∧ tp_state op' = PULL_FINISHED ∧
  out = (if tp_uncertain op then [pull_memory op true] else []) ∧
  (tp_uncertain op = true → tp_success op' = tp_success op) ∧
  (tp_uncertain op = false → tp_success op' = true →
     pe_success event = true ∧ pe_cancelled event = false ∧ tp_state op = WAITING_WRITE_DONE ∧
     (tp_local_fill op = true → fltb now (tp_deadline op) = true) ∧
     ∃ indices, notification_completed_indices (pe_completed_indices event) (length (tp_ordered_keys op)) = Some indices ∧
       tp_completed_keys op' = keys_at (tp_ordered_keys op) indices).
Proof.
  unfold end_pull. destruct (tp_uncertain op) eqn:Hu.
  { destruct (outbound_run (pull_memory op true) p) as (p1 & H1 & A1).
    exists (set_tp_state PULL_FINISHED op), p1, [pull_memory op true].
    change (report_target op true p = (Ret tt, p1)) in H1. unfold mbind, M_bind. rewrite H1. by split_and!. }
  do 3 eexists. split; [reflexivity|]. split; [apply adds_refl|]. split_and!; try done.
  intros _. cbn [tp_success set_tp_state set_tp_completed_keys set_tp_success tp_completed_keys].
  destruct (pe_success event && negb (pe_cancelled event) && bool_decide (tp_state op = WAITING_WRITE_DONE) &&
    (negb (tp_local_fill op) || fltb now (tp_deadline op))) eqn:Hs; [|done].
  destruct (notification_completed_indices _ _) as [indices|]; [|done]. intros _.
  rewrite !andb_true_iff, negb_true_iff, orb_true_iff, negb_true_iff, bool_decide_eq_true in Hs.
  destruct Hs as [[[H1 H2] H3] H4]. split_and!; [done..| |by exists indices].
  intros Hf. destruct H4; congruence.
Qed.

(** ** What the main thread and the framework are told *)

(** A cancelled local fill is handed to the main thread, which fails its callers; a pull that
    outlives its grace period is reported as uncertain memory and handed over, once. *)
Definition told_cancel (op : TargetPull) (out : list Outbound) : Prop :=
  if tp_local_fill op
  then ∃ c, same_pull c op ∧ tp_state c = WAITING_TERMINAL ∧ tp_uncertain c = false ∧ out = [OutRemote (ItemPull c)]
  else out = [].
Definition told_uncertain (op : TargetPull) (out : list Outbound) : Prop :=
  ∃ before q, told_cancel op before ∧ same_pull q op ∧ tp_state q = QUARANTINED ∧
    out = before ++ [pull_memory op false; OutRemote (ItemPull q)].
Definition pull_reports (op : TargetPull) (out : list Outbound) : Prop :=
  match tp_state op with
  | START_WRITE | WAITING_WRITE_DONE => out = []
  | WAITING_TERMINAL => told_cancel op out
  | QUARANTINED => told_uncertain op out
  | PULL_FINISHED =>
      if tp_uncertain op then ∃ before, told_uncertain op before ∧ out = before ++ [pull_memory op true]
      else out = [] ∨ told_cancel op out
  end.

Lemma pull_memory_same op op' b : same_pull op op' → pull_memory op' b = pull_memory op b.
Proof. intros []. unfold pull_memory. congruence. Qed.
Lemma told_cancel_same op op' out : same_pull op op' → told_cancel op out → told_cancel op' out.
Proof.
  intros Hs. unfold told_cancel. rewrite (sp_fill _ _ Hs). destruct (tp_local_fill op); [|done].
  intros (c & Hc & H). exists c. split; [by eapply same_trans|done].
Qed.
Lemma told_uncertain_same op op' out : same_pull op op' → told_uncertain op out → told_uncertain op' out.
Proof.
  intros Hs (before & q & H1 & H2 & H3 & ->). exists before, q.
  split; [by eapply told_cancel_same|]. split; [by eapply same_trans|]. by rewrite (pull_memory_same op op').
Qed.

Lemma pull_reports_same op op' out : same_pull op op' → tp_state op' = tp_state op →
  tp_uncertain op' = tp_uncertain op → pull_reports op out → pull_reports op' out.
Proof.
  intros Hs Hst Hu. unfold pull_reports. rewrite Hst, Hu. destruct (tp_state op); try done.
  - by apply told_cancel_same.
  - by apply told_uncertain_same.
  - destruct (tp_uncertain op).
    + intros (before & H & ->). exists before. rewrite (pull_memory_same op op') by done.
      split; [by eapply told_uncertain_same|done].
    + intros [?|?]; [by left|]. right. by eapply told_cancel_same.
Qed.

(** ** Waiting *)

(** Where a waiting pull goes when it has not heard of the end. *)
Inductive waits (op op' : TargetPull) : list Outbound → Prop :=
  | waits_still : tp_state op' = tp_state op → tp_uncertain op' = tp_uncertain op → waits op op' []
  | waits_cancelled : tp_state op = WAITING_WRITE_DONE → tp_state op' = WAITING_TERMINAL → tp_uncertain op' = false →
      waits op op' (if tp_local_fill op then [OutRemote (ItemPull op')] else [])
  | waits_uncertain : tp_state op = WAITING_TERMINAL → tp_state op' = QUARANTINED → tp_uncertain op' = true →
      waits op op' [pull_memory op false; OutRemote (ItemPull op')].

Lemma overdue_pull_run op p : tp_uncertain op = false → awaiting (tp_state op) = true →
  tp_state op ≠ QUARANTINED → ∃ op' p' sent out,
  overdue_pull R op p = (Ret (op', false, true), p') ∧ adds p p' sent out ∧ starts sent = 0 ∧
  same_pull op op' ∧ tp_retried op' = tp_retried op ∧ tp_success op' = tp_success op ∧ waits op op' out.
Proof.
  intros Hu Haw Hnq. unfold overdue_pull. destruct (decide _) as [Hst|Hst].
  - destruct (poll_target_run (set_tp_state QUARANTINED op) p) as (b & p1 & sent & H1 & Hs & A1); [done|].
    unfold mbind, M_bind. rewrite H1. do 4 eexists. split; [reflexivity|]. split; [exact A1|]. split_and!; try done.
    by apply (waits_uncertain op (set_tp_uncertain true (set_tp_state QUARANTINED op))).
  - assert (tp_state op = WAITING_WRITE_DONE) as Hw by (by destruct (tp_state op)).
    match goal with |- context [probe R ?o] => set (op1 := o) end.
    unfold mbind, M_bind. destruct (invalidate_peer_run (tp_remote_ctrl_ep op1) p) as (p1 & -> & A1).
    destruct (probe_run op1 p1) as (b & p2 & sent & -> & A2 & Hs).
    pose proof (adds_trans _ _ _ _ _ _ _ A1 A2) as A. set (op2 := set_tp_probe_sent b op1).
    change (tp_local_fill op2) with (tp_local_fill op). destruct (tp_local_fill op) eqn:Hf.
    + destruct (outbound_run (OutRemote (ItemPull op2)) p2) as (p3 & -> & A3).
      exists op2, p3, sent, [OutRemote (ItemPull op2)]. split; [reflexivity|].
      split; [pose proof (adds_trans _ _ _ _ _ _ _ A A3) as H; by rewrite app_nil_r in H|].
      split_and!; try done. pose proof (waits_cancelled op op2 Hw eq_refl Hu) as H. by rewrite Hf in H.
    + exists op2, p2, sent, []. split; [reflexivity|]. split; [exact A|].
      split_and!; try done. pose proof (waits_cancelled op op2 Hw eq_refl Hu) as H. by rewrite Hf in H.
Qed.
Lemma await_pull_run op cancelled now p : awaiting (tp_state op) = true →
  tp_uncertain op = bool_decide (tp_state op = QUARANTINED) →
  ∃ op' work p' sent out,
  await_pull R op cancelled now p = (Ret (op', false, work), p') ∧ adds p p' sent out ∧ starts sent = 0 ∧
  same_pull op op' ∧ tp_retried op' = tp_retried op ∧ tp_success op' = tp_success op ∧ waits op op' out.
Proof.
  intros Haw Hu. unfold await_pull.
  assert (∃ op' work p' sent out, (Ret (op, false, false), p) = (Ret (op', false, work), p') ∧ adds p p' sent out ∧
    starts sent = 0 ∧ same_pull op op' ∧ tp_retried op' = tp_retried op ∧ tp_success op' = tp_success op ∧
    waits op op' out) as Hstay.
  { exists op, false, p, [], []. split; [done|]. split; [apply adds_refl|]. split_and!; try done. by apply waits_still. }
  destruct (decide (tp_state op = QUARANTINED)) as [Hq|Hq].
  { rewrite bool_decide_true in Hu by done. unfold poll_target. rewrite Hu. exact Hstay. }
  rewrite bool_decide_false in Hu by done. destruct (_ || _).
  { destruct (overdue_pull_run op p Hu Haw Hq) as (op' & p' & sent & out & H). by exists op', true, p', sent, out. }
  destruct (decide _) as [[Hst _]|_]; [|exact Hstay].
  unfold mbind, M_bind. destruct (probe_run op p) as (b & p1 & sent & -> & A1 & Hs).
  exists (set_tp_probe_sent b op), b, p1, sent, []. split; [reflexivity|]. split; [exact A1|].
  split_and!; try done. by apply waits_still.
Qed.

(** ** A life *)

(** What a pull has sent, has put on the outbound list and has heard so far, and whether it
    has ended. *)
Record History := mkHistory {
  hi_sent : list (string * ControlMessage * bool);
  hi_out : list Outbound;
  hi_heard : list PullEvent;
  hi_done : bool }.
Definition hear (event : option PullEvent) (h : History) : History :=
  mkHistory (hi_sent h) (hi_out h)
    (hi_heard h ++ match event with Some ev => [ev] | None => [] end) (hi_done h).
(** A turn between two states of the peer. *)
Definition took (p p' : Peer) (finished : bool) (h : History) : History :=
  mkHistory (hi_sent h ++ drop (length (w_sent (peer_wire p))) (w_sent (peer_wire p')))
    (hi_out h ++ drop (length (w_outbound (peer_wire p))) (w_outbound (peer_wire p')))
    (hi_heard h) finished.

(** The turns of a pull, in any states of the peer and with any events; between them an
    acknowledgement may tell it the incarnation of its source. *)
Inductive pull_life (op0 : TargetPull) : TargetPull → History → Prop :=
  | pull_born : pull_life op0 op0 (mkHistory [] [] [] false)
  | pull_learns op h incarnation : pull_life op0 op h → tp_source_incarnation op = None →
      pull_life op0 (set_tp_source_incarnation (Some incarnation) op) h
  | pull_turns op h event p op' finished work p' : pull_life op0 op h → hi_done h = false →
      target_progress R op event p = (Ret (op', finished, work), p') →
      pull_life op0 op' (took p p' finished (hear event h)).

Definition refusals (op : TargetPull) : nat := if tp_retried op then 1 else 0.
Definition ended_by (op : TargetPull) (h : History) (Q : PullEvent → Prop) : Prop :=
  ∃ ev, last (hi_heard h) = Some ev ∧ pe_terminal ev = true ∧ Q ev.
Definition good_news (op : TargetPull) (ev : PullEvent) : Prop :=
  pe_success ev = true ∧ pe_cancelled ev = false ∧
  ∃ indices, notification_completed_indices (pe_completed_indices ev) (length (tp_ordered_keys op)) = Some indices ∧
    tp_completed_keys op = keys_at (tp_ordered_keys op) indices.
Record pull_inv (op0 op : TargetPull) (h : History) : Prop := {
  pi_same : same_pull op0 op;
  pi_done : hi_done h = bool_decide (tp_state op = PULL_FINISHED);
  pi_uncertain : tp_state op ≠ PULL_FINISHED → tp_uncertain op = bool_decide (tp_state op = QUARANTINED);
  pi_starts : match tp_state op with
    | START_WRITE => starts (hi_sent h) = refusals op
    | PULL_FINISHED => starts (hi_sent h) = refusals op ∧ tp_uncertain op = false ∨
        starts (hi_sent h) = S (refusals op) ∧ ended_by op h (λ _, True)
    | _ => starts (hi_sent h) = S (refusals op)
    end;
  pi_retried : tp_retried op = true → Exists (λ ev, pe_retry_metadata ev ≠ None) (hi_heard h);
  pi_success : tp_success op = true → tp_state op = PULL_FINISHED ∧ hi_out h = [] ∧ ended_by op h (good_news op);
  pi_reports : pull_reports op (hi_out h) }.

Lemma took_adds p p' sent out finished h : adds p p' sent out →
  took p p' finished h = mkHistory (hi_sent h ++ sent) (hi_out h ++ out) (hi_heard h) finished.
Proof. intros []. unfold took. by rewrite ad_sent0, ad_out0, !drop_app_length. Qed.

Lemma hear_inv op0 op h event : hi_done h = false → pull_inv op0 op h →
  pull_inv op0 (retry_of op event) (hear event h).
Proof.
  intros Hd [Hsame Hdone Hunc Hst Hr Hsu Hrep].
  assert (tp_state op ≠ PULL_FINISHED) as Hnf by (rewrite Hdone in Hd; by apply bool_decide_eq_false in Hd).
  assert (tp_success op = false) as Hns by (destruct (tp_success op); [by destruct (Hsu eq_refl)|done]).
  assert (pull_inv op0 op (hear event h)) as Hinv.
  { split; try done; simpl.
    - destruct (tp_state op) eqn:?; done.
    - intros Ht. apply Exists_app. left. auto.
    - congruence. }
  unfold retry_of. destruct event as [ev|]; [|done]. simpl.
  destruct (pe_retry_metadata ev) as [inc|] eqn:Hev; [|done].
  destruct (decide _) as [[Hw Hret]|_]; [|done].
  unfold pull_reports in Hrep. unfold refusals in Hst. rewrite Hw in *. rewrite Hret in Hst. split; simpl; try done.
  - by destruct Hsame.
  - intros _. by apply Hunc.
  - intros _. apply Exists_app. right. constructor. congruence.
  - congruence.
Qed.

(** A pull that waits, after [out]. *)
Lemma waits_reports op op' out out' : same_pull op op' → awaiting (tp_state op) = true →
  waits op op' out' → pull_reports op out → pull_reports op' (out ++ out').
Proof.
  intros Hs Ha Hw. destruct Hw as [Hst Hu|Hn Hst Hu|Hst Hq Hu].
  - rewrite app_nil_r. by apply pull_reports_same.
  - unfold pull_reports. rewrite Hst, Hn. intros ->. unfold told_cancel. rewrite (sp_fill _ _ Hs).
    destruct (tp_local_fill op); [|done]. by exists op'.
  - unfold pull_reports. rewrite Hst, Hq. intros Hc. exists out, op'.
    rewrite (pull_memory_same op op') by done. split_and!; try done. by eapply told_cancel_same.
Qed.

(** The three kinds of turn keep the invariant. *)
Lemma wait_inv op0 op op' h sent out p p' : pull_inv op0 op h → tp_success op = false →
  awaiting (tp_state op) = true → adds p p' sent out → starts sent = 0 → same_pull op op' →
  tp_retried op' = tp_retried op → tp_success op' = tp_success op → waits op op' out →
  pull_inv op0 op' (took p p' false h).
Proof.
  intros [Hsame Hdone Hunc Hst Hr Hsu Hrep] Hns Haw A Hs Hs' Hr' Hsu' Hw.
  rewrite (took_adds _ _ _ _ _ _ A). pose proof (waits_reports _ _ _ _ Hs' Haw Hw Hrep) as Hrep'.
  assert (starts (hi_sent h ++ sent) = S (refusals op')) as Hst'.
  { rewrite starts_app, Hs, Nat.add_0_r. unfold refusals. rewrite Hr'. by destruct (tp_state op). }
  assert (awaiting (tp_state op') = true) as Haw'.
  { destruct Hw as [-> _|_ -> _|_ -> _]; [exact Haw|done|done]. }
  split; simpl; try done.
  - by eapply same_trans.
  - by destruct (tp_state op').
  - intros _. destruct Hw as [-> ->|_ -> ->|_ -> ->]; [|done..]. apply Hunc. by destruct (tp_state op).
  - by destruct (tp_state op').
  - by rewrite Hr'.
  - congruence.
Qed.
Lemma start_inv op0 op op' h sent p p' (fin : bool) : pull_inv op0 op h → tp_success op = false →
  tp_state op = START_WRITE → adds p p' sent [] → same_pull op op' →
  tp_retried op' = tp_retried op → tp_uncertain op' = tp_uncertain op →
  (if fin then tp_state op' = PULL_FINISHED ∧ tp_success op' = false ∧ starts sent = 0
   else tp_state op' = WAITING_WRITE_DONE ∧ tp_success op' = tp_success op ∧ starts sent = 1) →
  pull_inv op0 op' (took p p' fin h).
Proof.
  intros [Hsame Hdone Hunc Hst Hr Hsu Hrep] Hns Hstate A Hs Hr' Hu' Hfin.
  rewrite (took_adds _ _ _ _ _ _ A). unfold pull_reports in *. rewrite Hstate in *.
  rewrite Hunc in Hu' by done. rewrite Hrep. unfold refusals in Hst.
  destruct fin; destruct Hfin as (Hf & Hsu' & Hs'); split; simpl; rewrite ?Hf, ?starts_app, ?Hs'; try done.
  all: try (by eapply same_trans).
  all: try (unfold refusals; rewrite Hr'; lia).
  all: try (by rewrite Hr').
  all: try congruence.
  - left. split; [|done]. unfold refusals. rewrite Hr'. lia.
  - unfold pull_reports. rewrite Hf, Hu'. by left.
  - unfold pull_reports. by rewrite Hf.
Qed.
Lemma end_inv op0 op op' h ev out p p' : pull_inv op0 op h → tp_success op = false →
  awaiting (tp_state op) = true → last (hi_heard h) = Some ev → pe_terminal ev = true →
  adds p p' [] out → same_pull op op' →
  tp_retried op' = tp_retried op → tp_uncertain op' = tp_uncertain op → tp_state op' = PULL_FINISHED →
  out = (if tp_uncertain op then [pull_memory op true] else []) →
  (tp_success op' = true → tp_state op = WAITING_WRITE_DONE ∧ good_news op' ev) →
  pull_inv op0 op' (took p p' true h).
Proof.
  intros [Hsame Hdone Hunc Hst Hr Hsu Hrep] Hns Haw Hlast Hterm A Hs Hr' Hu' Hf Hout Hgood.
  rewrite (took_adds _ _ _ _ _ _ A), app_nil_r.
  assert (tp_uncertain op = bool_decide (tp_state op = QUARANTINED)) as Hu by (apply Hunc; by destruct (tp_state op)).
  split; simpl; rewrite ?Hf; try done.
  - by eapply same_trans.
  - right. split; [|by exists ev]. unfold refusals. rewrite Hr'. by destruct (tp_state op).
  - by rewrite Hr'.
  - intros Ht. destruct (Hgood Ht) as [Hw Hg]. split; [done|]. rewrite Hw in Hu. simpl in Hu. rewrite Hu in Hout. subst out.
    unfold pull_reports in Hrep. rewrite Hw in Hrep. rewrite Hrep. split; [done|]. by exists ev.
  - unfold pull_reports in *. rewrite Hf, Hu', Hout, Hu.
    destruct (tp_state op) eqn:Hstate; try done; simpl in *.
    + left. by rewrite Hrep.
    + right. rewrite app_nil_r. by eapply told_cancel_same.
    + exists (hi_out h). rewrite (pull_memory_same op op') by done. split; [|done]. by eapply told_uncertain_same.
Qed.

Lemma turn_inv op0 op h event p : pull_inv op0 op h → hi_done h = false →
  ∃ op' finished work p', target_progress R op event p = (Ret (op', finished, work), p') ∧
    pull_inv op0 op' (took p p' finished (hear event h)).
Proof.
  intros Hinv0 Hd. pose proof (hear_inv op0 op h event Hd Hinv0) as Hinv.
  unfold target_progress. set (op1 := retry_of op event) in *. set (h1 := hear event h) in *.
  assert (tp_state op1 ≠ PULL_FINISHED) as Hnf.
  { pose proof (pi_done _ _ _ Hinv) as Hdone. change (hi_done h1) with (hi_done h) in Hdone.
    rewrite Hd in Hdone. by apply symmetry, bool_decide_eq_false in Hdone. }
  assert (tp_success op1 = false) as Hns.
  { destruct (tp_success op1) eqn:Ht; [by destruct (pi_success _ _ _ Hinv Ht)|done]. }
  pose proof (pi_uncertain _ _ _ Hinv Hnf) as Hu.
  unfold mbind, M_bind. destruct (rclock_run p) as (now & p1 & -> & A1).
  destruct (decide (tp_state op1 = START_WRITE)) as [Hstart|Hstart].
  { destruct (start_pull_run op1 now p1) as (op' & fin & work & p2 & sent & -> & A2 & Hs & Hr & Hun & Hfin).
    do 4 eexists. split; [reflexivity|].
    exact (start_inv _ _ _ _ _ _ _ _ Hinv Hns Hstart (adds_trans _ _ _ _ _ _ _ A1 A2) Hs Hr Hun Hfin). }
  assert (awaiting (tp_state op1) = true) as Haw by (by destruct (tp_state op1)). rewrite Haw.
  assert (∀ cancelled, ∃ op' finished work p', await_pull R op1 cancelled now p1 = (Ret (op', finished, work), p') ∧
    pull_inv op0 op' (took p p' finished h1)) as Hwait.
  { intros cancelled. destruct (await_pull_run op1 cancelled now p1 Haw Hu) as
      (op' & work & p2 & sent & out & -> & A2 & Hs & Hs' & Hr & Hsu & Hw).
    do 4 eexists. split; [reflexivity|].
    exact (wait_inv _ _ _ _ _ _ _ _ Hinv Hns Haw (adds_trans _ _ _ _ _ _ _ A1 A2) Hs Hs' Hr Hsu Hw). }
  destruct event as [ev|]; [|apply Hwait]. destruct (pe_terminal ev) eqn:Hterm; [|apply Hwait].
  destruct (end_pull_run op1 ev now p1) as (op' & p2 & out & -> & A2 & Hs & Hr & Hun & Hf & Hout & Hx & Hgood).
  do 4 eexists. split; [reflexivity|].
  refine (end_inv _ _ _ _ ev _ _ _ Hinv Hns Haw _ Hterm (adds_trans _ _ _ _ _ _ _ A1 A2) Hs Hr Hun Hf Hout _).
  { unfold h1. simpl. by rewrite last_snoc. }
  intros Ht. destruct (tp_uncertain op1) eqn:Hun1; [rewrite Hx in Ht by done; congruence|].
  destruct (Hgood eq_refl Ht) as (G1 & G2 & G3 & _ & G4). split; [done|]. split_and!; [done..|].
  by rewrite (sp_ordered _ _ Hs).
Qed.

(** A pull as [_start_target_pull] makes it. *)
Definition new_pull (op : TargetPull) : Prop :=
  tp_state op = START_WRITE ∧ tp_retried op = false ∧ tp_uncertain op = false ∧ tp_success op = false.
Lemma pull_life_inv op0 op h : new_pull op0 → pull_life op0 op h → pull_inv op0 op h.
Proof.
  intros (H1 & H2 & H3 & H4) Hlife. induction Hlife as [|op h inc _ [] _|op h ev p op' fin work p' _ IH Hd Ht].
  - split; unfold pull_reports, refusals; rewrite ?H1, ?H2, ?H3, ?H4; try done.
  - assert (same_pull op (set_tp_source_incarnation (Some inc) op)) as Hs by (by split).
    split; try done; [by eapply same_trans|]. by apply (pull_reports_same op).
  - destruct (turn_inv op0 op h ev p IH Hd) as (? & ? & ? & ? & Heq & Hinv). rewrite Ht in Heq.
    by injection Heq as <- <- <- <-.
Qed.

(** C17: over any life of a pull, whatever it hears, however the control channel and the clock
    answer and whatever else its peer does between turns: every turn returns; at most one
    [start_write] is sent after the first, and only after the source asked for it; the pull
    ends only on a terminal event, or with every [start_write] it sent refused and no memory
    reported; it succeeds only on the last event it heard, a terminal success that nothing
    cancelled, with the keys that event names; and the main thread and the framework are told
    of cancellation and of uncertain memory once each, and of the end of uncertainty. *)
Theorem pull_ends_on_evidence op0 op h : new_pull op0 → pull_life op0 op h →
  same_pull op0 op ∧
  (hi_done h = false → ∀ event p, ∃ r p', target_progress R op event p = (Ret r, p')) ∧
  starts (hi_sent h) ≤ S (refusals op) ∧
  (tp_retried op = true → Exists (λ ev, pe_retry_metadata ev ≠ None) (hi_heard h)) ∧
  (hi_done h = true → starts (hi_sent h) = refusals op ∧ tp_uncertain op = false ∨ ended_by op h (λ _, True)) ∧
  (tp_success op = true → hi_done h = true ∧ hi_out h = [] ∧ ended_by op h (good_news op)) ∧
  pull_reports op (hi_out h).
Proof.
  intros Hnew Hlife. pose proof (pull_life_inv op0 op h Hnew Hlife) as Hinv. split_and!.
  - apply Hinv.
  - intros Hd ev p. destruct (turn_inv op0 op h ev p Hinv Hd) as (op' & fin & work & p' & -> & _). eauto.
  - pose proof (pi_starts _ _ _ Hinv). destruct (tp_state op); lia.
  - apply Hinv.
  - rewrite (pi_done _ _ _ Hinv). intros Hd%bool_decide_eq_true. pose proof (pi_starts _ _ _ Hinv) as H.
    rewrite Hd in H. destruct H as [?|[_ ?]]; auto.
  - intros Ht. destruct (pi_success _ _ _ Hinv Ht) as (Hf & Hout & He). split; [|done].
    rewrite (pi_done _ _ _ Hinv). by apply bool_decide_eq_true.
  - apply Hinv.
Qed.

(** ** Executing a life *)

Fixpoint run_pull (events : list (option PullEvent)) (x : TargetPull * History * Peer)
    : option (TargetPull * History * Peer) :=
  match events with
  | [] => Some x
  | event :: events =>
      let '(op, h, p) := x in
      if hi_done h then None
      else match target_progress R op event p with
           | (Ret (op', finished, _), p') => run_pull events (op', took p p' finished (hear event h), p')
           | (Raise _, _) => None
           end
  end.
Lemma run_pull_life op0 events op h p op' h' p' : pull_life op0 op h →
  run_pull events (op, h, p) = Some (op', h', p') → pull_life op0 op' h'.
Proof.
  revert op h p. induction events as [|ev events IH]; simpl; intros op h p Hl Hrun; [by simplify_eq|].
  destruct (hi_done h) eqn:Hd; [done|]. destruct (target_progress R op ev p) as [[[[op1 fin] work]|e] p1] eqn:Ht; [|done].
  eapply IH; [|exact Hrun]. by eapply pull_turns.
Qed.
End Life.

(** ** A demonstration: refused once, sent again, cancelled, quarantined and quiesced *)
Module PullDemo.
Definition core_env : Env := {|
  env_clock := λ i, f_of_Z_inf (Z.of_nat i); env_policy := FIFOPolicy; env_moves := ∅; env_agent := "tgt"; env_backend := "UCX";
  env_framework_control := true; env_pool_layouts := [("a", 16%Z)]; env_regions := ∅; env_sink := None;
  env_capacity_callback := false; env_watermarks := ∅; env_has_g3 := false; env_g3_slot_size := 16; env_g3_fds := [];
  env_g3_bytes_per_file := 0; env_g3_preflight := None; env_operation_timeout_ms := 1000;
  env_abandon_timeout_ms := 3000 |}.
Definition env : RemoteEnv := {|
  re_core := core_env; re_retry_interval_ms := 100; re_framework_pinning := false; re_local_dram := true; re_control := true;
  re_endpoint := Some "tcp://t"; re_metadata := Some "meta"; re_regions := ([], []); re_incarnation := "incT";
  re_agent_name := "tgt"; re_monotonic := λ _, fzero; re_send := λ _, true; re_contended := λ _, false;
  re_created := λ _, Ret (Some 7%Z); re_post := λ _, XProc; re_answer := λ _, XDone; re_released := λ _, true;
  re_metadata_kept := λ _, true; re_add_agent := λ _, Ret (Some "src"); re_remove_agent := λ _, true;
  re_prep := λ _ _ _, Ret (Some 5%Z); re_unprep := λ _ _, true |}.
Definition wire : Wire :=
  mkWire (mkProg ∅ ∅ ∅ ∅ 0) false [] ∅ ∅ ∅ None false ∅ ∅ ∅ ∅ ∅ [] [] 0 [] 1 [] [] 0.
Definition op : TargetPull :=
  mkTargetPull 4 {[ "k1" ]} (f_of_Z_inf 5) START_WRITE true "tcp://s" ["k1"] [[]] (Some "r1") ["a"] false ∅ false None
    false false.
Definition events : list (option PullEvent) :=
  [None; Some (retry_event "incS"); None; None; None; Some refused_event].
Definition ended : option (TargetPull * History * Peer) :=
  run_pull env events (op, mkHistory [] [] [] false, mkPeer (initial_state (pools_state demo_regions)) wire).
End PullDemo.

Lemma pull_ends_on_evidence_witness :
  match PullDemo.ended with
  | Some (op, h, _) => (hi_done h, tp_uncertain op, tp_retried op, starts (hi_sent h)) = (true, true, true, 2)
  | None => False
  end ∧
  match PullDemo.ended with Some (op, h, _) => pull_reports op (hi_out h) | None => False end.
Proof.
  split; [vm_compute; reflexivity|].
  destruct PullDemo.ended as [[[op h] p]|] eqn:He; [|vm_compute in He; discriminate].
  refine (proj2 (proj2 (proj2 (proj2 (proj2 (proj2 (pull_ends_on_evidence PullDemo.env PullDemo.op op h _ _))))))).
  - repeat split.
  - exact (run_pull_life _ _ _ _ _ _ _ _ _ (pull_born _ _) He).
Defined.
