(* ===== verification/Protocol.v ===== *)
(** * The service protocol

    The messages of [src/src/kvcr/service/protocol.py] with the checks their constructors
    make, the grant a client takes apart ([_grant_layout]), the pool layout checks of
    [config.py] and [memory.py], and the frames of [FramedConnection]
    ([src/src/kvcr/runtime/control_channels.py]).  [msgspec] is outside the repository: its
    codec is a parameter. *)

From Stdlib Require Import ZArith Lia Ascii.
From S2P Require Import Prelude Types Journal Mirror Snapshot.

(** ** Geometry *)

Definition JOURNAL_HEADER_BYTES : Z := 4096.
(** [_validate_positive_int] of an [int] *)
Definition validate_positive_int (name : string) (value : Z) : result unit :=
  guard_raise (value <=? 0)%Z (ValueError (name +:+ " must be positive")).
(** [_compute_pool_geometry] *)
Definition compute_pool_geometry (requested_bytes block_size_bytes : Z) : result (Z * Z) :=
  validate_positive_int "requested_bytes" requested_bytes ;;
  validate_positive_int "block_size_bytes" block_size_bytes ;;
  let block_count := (requested_bytes / block_size_bytes)%Z in
  guard_raise (block_count =? 0)%Z
    (ValueError "requested_bytes must hold at least one complete KV block") ;;
  mret ((block_count * block_size_bytes)%Z, block_count).
(** [_validate_pool_layout] *)
Definition validate_pool_layout (mapping_bytes journal_bytes : Z) : result unit :=
  validate_positive_int "mapping_bytes" mapping_bytes ;;
  validate_positive_int "journal_bytes" journal_bytes ;;
  guard_raise (journal_bytes <=? JOURNAL_HEADER_BYTES)%Z
    (ValueError "KVCR pool journal_bytes must exceed its 4096-byte header") ;;
  guard_raise (negb (journal_bytes mod JOURNAL_HEADER_BYTES =? 0)%Z)
    (ValueError "KVCR pool journal_bytes must be page aligned") ;;
  guard_raise (mapping_bytes <=? journal_bytes)%Z
    (ValueError "KVCR pool journal_bytes must be smaller than mapping_bytes").
(** [_PoolDescriptor]: its field constraints and [__post_init__]. *)
Definition make_pool_descriptor (name : string) (size_bytes block_size_bytes offset_bytes : Z)
    : result PoolDescriptor :=
  compute_pool_geometry size_bytes block_size_bytes ;;
  mret (mkPoolDescriptor name size_bytes block_size_bytes offset_bytes).

(** [_pool_filename] *)
Definition pool_id_char (c : ascii) : bool :=
  let n := nat_of_ascii c in
  (65 <=? n) && (n <=? 90) || (97 <=? n) && (n <=? 122) || (48 <=? n) && (n <=? 57) ||
  bool_decide (c = "_"%char) || bool_decide (c = "."%char) || bool_decide (c = "-"%char).
Definition pool_filename (pool_id generation : string) : result string :=
  if decide (pool_id = "" ∨ forallb pool_id_char (String.list_ascii_of_string pool_id) = false)
  then Raise (ValueError "KVCR pool_id contains a filename-unsafe character")
  else Ret ("kvcr-" +:+ pool_id +:+ "-" +:+ generation).

(** ** Tier configuration *)

Definition PoolLayouts := list (string * Z).
(** [_validate_pool_layouts] ([config.py]) *)
Fixpoint check_pool_layouts (layouts : PoolLayouts) : result unit :=
  match layouts with
  | [] => mret tt
  | (name, block_size) :: layouts =>
      guard_raise (has_colon name) (ValueError "pool_layouts pool names cannot contain a colon") ;;
      guard_raise (block_size <=? 0)%Z (ValueError "pool_layouts block size must be a positive integer") ;;
      check_pool_layouts layouts
  end.
Definition validate_pool_layouts (layouts : PoolLayouts) : result unit :=
  guard_raise (bool_decide (layouts = [])) (ValueError "pool_layouts must contain at least one pool") ;;
  check_pool_layouts layouts ;;
  guard_raise (bool_decide (¬ NoDup layouts.*1)) (ValueError "pool_layouts pool names must be unique") ;;
  guard_raise (bool_decide (1 < length layouts.*1 ∧ "" ∈ layouts.*1))
    (ValueError "pool_layouts cannot use an empty name with multiple pools").

(** [socket.inet_pton(AF_INET, host)]: four decimal octets without leading zeros, as [_Claim]
    asks of its [control_host]. *)
Definition octet (digits : string) : option Z :=
  let l := (λ c, Z.of_nat (nat_of_ascii c) - 48)%Z <$> String.list_ascii_of_string digits in
  let v := foldl (λ n d, 10 * n + d)%Z 0%Z l in
  if decide (Forall (λ d, 0 <= d < 10)%Z l ∧ 1 ≤ length l ≤ 3 ∧ (v <= 255)%Z ∧ (1 < length l → hd 0%Z l ≠ 0%Z))
  then Some v else None.
Fixpoint split_dots (part : list ascii) (s : list ascii) : list string :=
  match s with
  | [] => [String.string_of_list_ascii (rev part)]
  | c :: s => if decide (c = "."%char) then String.string_of_list_ascii (rev part) :: split_dots [] s
              else split_dots (c :: part) s
  end.
Definition inet_pton (host : string) : option (list Z) :=
  match mapM octet (split_dots [] (String.list_ascii_of_string host)) with
  | Some [a; b; c; d] => Some [a; b; c; d]
  | _ => None
  end.

(** [_G3Config] and [_TierConfig] *)
Record TierG3Config := mkG3Config {
  gc_paths : list string;
  gc_capacity_bytes_per_file : Z;
  gc_backend : string;
  gc_backend_options : list (string * string) }.
Record TierConfig := mkTierConfig {
  tc_pool_layouts : PoolLayouts;
  tc_g3 : option TierG3Config;
  tc_remote_fw_dram_backend : string }.
#[export] Instance TierG3Config_eq_dec : EqDecision TierG3Config.
Proof. solve_decision. Defined.
#[export] Instance TierConfig_eq_dec : EqDecision TierConfig.
Proof. solve_decision. Defined.
#[export] Instance PoolDescriptor_eq_dec : EqDecision PoolDescriptor.
Proof. solve_decision. Defined.

Section Tiers.
(** [os.path.realpath], and [mmap.PAGESIZE]. *)
Context (realpath : string → string) (page : Z).

Definition isabs (path : string) : bool :=
  match path with String c _ => bool_decide (c = "/"%char) | "" => false end.
Definition make_g3_config (g3 : TierG3Config) : result unit :=
  guard_raise (bool_decide (gc_paths g3 = []) || (gc_capacity_bytes_per_file g3 <=? 0)%Z ||
               bool_decide (gc_backend g3 = "")) (ValueError "invalid message payload") ;;
  guard_raise (negb (forallb isabs (gc_paths g3))) (ValueError "G3 paths must be absolute") ;;
  guard_raise (bool_decide (¬ NoDup (realpath <$> gc_paths g3)))
    (ValueError "G3 file paths must be unique").
(** [gcd] of the block sizes: the size of a slot. *)
Definition block_gcd (layouts : PoolLayouts) : Z := foldr Z.gcd 0%Z layouts.*2.
Definition make_tier_config (tier : TierConfig) : result unit :=
  guard_raise (bool_decide (tc_remote_fw_dram_backend tier = "")) (ValueError "invalid message payload") ;;
  validate_pool_layouts (tc_pool_layouts tier) ;;
  match tc_g3 tier with
  | None => mret tt
  | Some g3 =>
      make_g3_config g3 ;;
      let block_size_bytes := block_gcd (tc_pool_layouts tier) in
      guard_raise (negb (block_size_bytes mod page =? 0)%Z) (ValueError "G3 requires page-aligned slots") ;;
      guard_raise (gc_capacity_bytes_per_file g3 <? block_size_bytes)%Z
        (ValueError "G3 file capacity must contain at least one complete slot")
  end.

(** ** Claims and grants *)

(** [_Claim] *)
Record Claim := mkClaim {
  cl_guard_index : Z;
  cl_compatibility_digest : string;
  cl_tier_config : TierConfig;
  cl_control_host : string;
  cl_control_port : Z;
  cl_incarnation : option string }.
Definition make_claim (claim : Claim) : result unit :=
  guard_raise ((cl_guard_index claim <? 0)%Z || (cl_control_port claim <? 1)%Z ||
               (65535 <? cl_control_port claim)%Z || bool_decide (cl_incarnation claim = Some ""))
    (ValueError "invalid message payload") ;;
  make_tier_config (cl_tier_config claim) ;;
  guard_raise (bool_decide (inet_pton (cl_control_host claim) = None))
    (ValueError "not a literal IPv4 address").

(** [_Granted]; the version is a literal. *)
Record Granted := mkGranted {
  gr_guard_index : Z;
  gr_spec : PoolSpec;
  gr_tier_config : TierConfig;
  gr_pools : list PoolDescriptor;
  gr_dead_incarnations : list string;
  gr_heartbeat_enabled : bool }.

(** [_grant_layout] *)
Definition pool_matches (expected_offset : Z) (pool : PoolDescriptor) (layout : string * Z) : bool :=
  bool_decide ((pd_name pool, pd_block_size_bytes pool) = layout) &&
  (pd_offset_bytes pool =? expected_offset)%Z && (pd_size_bytes pool mod page =? 0)%Z.
Fixpoint grant_offsets (expected_offset : Z) (pools : list PoolDescriptor) (layouts : PoolLayouts)
    : result Z :=
  match pools, layouts with
  | pool :: pools, layout :: layouts =>
      if pool_matches expected_offset pool layout
      then grant_offsets (expected_offset + pd_size_bytes pool) pools layouts
      else Raise (KVCRGuardProtocolError "claim pool layout mismatch")
  | _, _ => Ret expected_offset
  end.
Definition grant_layout (response : Granted) (requested_guard_index : Z) (requested : TierConfig)
    : result (PoolSpec * list PoolDescriptor) :=
  guard_raise (negb (gr_guard_index response =? requested_guard_index)%Z)
    (KVCRGuardProtocolError "claim Guard mismatch") ;;
  guard_raise (bool_decide (gr_tier_config response ≠ requested))
    (KVCRGuardProtocolError "claim tier configuration mismatch") ;;
  let pools := gr_pools response in
  guard_raise (negb (length pools =? length (tc_pool_layouts requested)))
    (KVCRGuardProtocolError "claim pool count mismatch") ;;
  expected_offset ← grant_offsets (ps_journal_bytes (gr_spec response)) pools (tc_pool_layouts requested);
  guard_raise (negb (expected_offset =? ps_mapping_bytes (gr_spec response))%Z)
    (KVCRGuardProtocolError "claim pool sizes do not fill the allocation") ;;
  mret (gr_spec response, pools).
End Tiers.

(** ** Frames on a stream socket

    [FramedConnection._encode_frame] and [receive].  [recv(n)] returns between one and [n] of
    the bytes that remain, and nothing at the end of the stream; [chunk] is how many. *)

Definition MAX_FRAME_BYTES : Z := 1048576.
(** [struct.Struct("!I")] *)
Definition pack_length (n : Z) : list Z := rev (le 4 n).
Definition unpack_length (l : list Z) : Z := unle (rev l).

Section Framing.
Context {T : Type} (encode : T → list Z) (decode : list Z → result T).
Context (chunk : nat → nat → nat).

Definition encode_frame (message : T) : result (list Z) :=
  let payload := encode message in
  if decide (zlen payload > MAX_FRAME_BYTES)%Z then Raise (KVCRMsgFramingError "frame is too large")
  else Ret (pack_length (zlen payload) ++ payload).

(** The unread stream, and how many [recv] calls were made. *)
Definition Stream : Type := list Z * nat.
Definition recv (n : nat) : M Stream (list Z) := λ '(bytes, calls),
  let got := Nat.min (Nat.max 1 (chunk calls n)) (Nat.min n (length bytes)) in
  (Ret (take got bytes), (drop got bytes, S calls)).
(** [_receive_exact]; each call that continues brings a byte, so [length] calls are enough. *)
Fixpoint receive_loop (fuel length_ : nat) (chunks : list Z) : M Stream (list Z) :=
  if decide (length_ ≤ length chunks) then mret chunks
  else
    match fuel with
    | 0 => raise (RuntimeError "out of fuel")
    | S fuel =>
        data ← recv (length_ - length chunks);
        if decide (data = []) then
          if decide (chunks = []) then raise EOFError else raise (KVCRMsgFramingError "truncated frame")
        else receive_loop fuel length_ (chunks ++ data)
    end.
Definition receive_exact (length_ : nat) : M Stream (list Z) := receive_loop length_ length_ [].
Definition receive_after_header (header : list Z) : M Stream T :=
  let length_ := unpack_length header in
  if decide (length_ = 0 ∨ length_ > MAX_FRAME_BYTES)%Z
  then raise (KVCRMsgFramingError "invalid frame length")
  else
    payload ← receive_exact (Z.to_nat length_);
    match decode payload with
    | Ret message => mret message
    | Raise (ValueError _) => raise (KVCRGuardProtocolError "invalid message payload")
    | Raise (DecodeError _) => raise (KVCRMsgFramingError "invalid message payload")
    | Raise e => raise e
    end.
Definition receive : M Stream T := header ← receive_exact 4; receive_after_header header.
End Framing.
