(* ===== verification/RecoveryState.v ===== *)
(** * A Guard's recovery state

    [_RecoveryState] of [src/src/kvcr/service/guard.py]: the Guard's attachment to its pool, the
    descriptors of the claimed layout, the mirror of what the primary published, and the disk
    half it keeps for the next primary.  Composes the journal, the mirror and the handback
    region; whether the operating system refuses an operation is an argument of it. *)

From Stdlib Require Import ZArith Lia.
From S2P Require Import Prelude PyFloat Types Layout State Journal JournalThm Mirror Snapshot Protocol.

Notation Records := (gmap BlockKey BlockValue).

Record Recov := mkRecov {
  rv_pools : list PoolDescriptor;
  rv_attached : bool;
  rv_journal : option Side;
  rv_mirror : option (list string * Records);
  rv_g3_records : gmap BlockKey (G3Residency * Z);
  rv_shared : Shared;
  rv_file : list Z }.
Definition set_rv_pools v r := mkRecov v (rv_attached r) (rv_journal r) (rv_mirror r) (rv_g3_records r) (rv_shared r) (rv_file r).
Definition set_rv_attached v r := mkRecov (rv_pools r) v (rv_journal r) (rv_mirror r) (rv_g3_records r) (rv_shared r) (rv_file r).
Definition set_rv_journal v r := mkRecov (rv_pools r) (rv_attached r) v (rv_mirror r) (rv_g3_records r) (rv_shared r) (rv_file r).
Definition set_rv_mirror v r := mkRecov (rv_pools r) (rv_attached r) (rv_journal r) v (rv_g3_records r) (rv_shared r) (rv_file r).
Definition set_rv_g3_records v r := mkRecov (rv_pools r) (rv_attached r) (rv_journal r) (rv_mirror r) v (rv_shared r) (rv_file r).
Definition set_rv_shared v r := mkRecov (rv_pools r) (rv_attached r) (rv_journal r) (rv_mirror r) (rv_g3_records r) v (rv_file r).
Definition set_rv_file v r := mkRecov (rv_pools r) (rv_attached r) (rv_journal r) (rv_mirror r) (rv_g3_records r) (rv_shared r) v.

(** [_without_g3] and [_with_g3], over values. *)
Definition drop_g3 (v : BlockValue) : option BlockValue :=
  match v_local_dram v with
  | None => None
  | Some _ => Some (mkBlockValue (v_fw_mem v) (v_local_dram v) None (v_in_flight_ops v)
                      (v_access_count v) (v_last_access v) (v_position v))
  end.
Definition without_g3 (records : Records) : Records := omap drop_g3 records.
Definition g3_half (records : Records) : gmap BlockKey (G3Residency * Z) :=
  omap (λ v, (λ g, (g, v_position v)) <$> v_g3 v) records.
Definition put_g3 (v : option BlockValue) (g : option (G3Residency * Z)) : option BlockValue :=
  match g, v with
  | None, v => v
  | Some (g3, position), None => Some (mkBlockValue false None (Some g3) None 0 None position)
  | Some (g3, _), Some v => Some (mkBlockValue (v_fw_mem v) (v_local_dram v) (Some g3)
      (v_in_flight_ops v) (v_access_count v) (v_last_access v) (v_position v))
  end.
Definition with_g3 (records : Records) (g3_records : gmap BlockKey (G3Residency * Z)) : Records :=
  merge put_g3 records g3_records.

(** Which exceptions the Guard answers by going cold. *)
Definition recovery_error (e : exn) : bool :=
  match e with
  | RecoveryJournalError _ | RecoveryJournalTornError _ | RecoveryMirrorError _ => true
  | _ => false
  end.
(** [_RECOVERY_CAPACITY_ERRORS]: [ENOSPC], [EDQUOT] and [ENOMEM]. *)
Definition capacity_error (e : exn) : bool :=
  match e with OSError n => bool_decide (n ∈ [28; 122; 12]%Z) | _ => false end.

(** What the operating system does with a region write: all of it, or it refuses to open the
    region, or it fails while the region is open, which is then cut off. *)
Inductive WriteOutcome := Written | NotOpened (errno : Z) | Undone (errno : Z).

Section RecoveryState.
(** The ring's capacity, the file's geometry, and the codecs of the libraries. *)
Context (cap granularity huge : Z) (sha256 : list Z → list Z).
Context (encode : RecoveryBlock → list Z) (decode : list Z → result RecoveryBlock).
Context (encode_pools : list PoolDescriptor → list Z).
(** What the constructor is given. *)
Context (spec : PoolSpec) (compatibility_digest : string) (pool_sizes_bytes : list Z).

Definition on_ring {A} (m : M Jrn A) : M Recov A := λ r,
  match rv_journal r with
  | None => (Raise (TypeError "NoneType"), r)
  | Some side =>
      let '(a, j) := m (mkJrn side (rv_shared r)) in
      (a, set_rv_shared (jr_sh j) (set_rv_journal (Some (jr_side j)) r))
  end.
Definition on_records {A} (m : list string → M Records A) : M Recov A := λ r,
  match rv_mirror r with
  | None => (Raise (TypeError "NoneType"), r)
  | Some (names, t) =>
      let '(a, t') := m names t in (a, set_rv_mirror (Some (names, t')) r)
  end.
Definition on_file {A} (m : M (list Z) A) : M Recov A := λ r,
  let '(a, f) := m (rv_file r) in (a, set_rv_file f r).
Definition fresh_mirror (r : Recov) : list string * Records := (pd_name <$> rv_pools r, ∅).

(** [prepare]; [attached] is what mapping the pool's file answers. *)
Definition recovery_prepare (attached : option exn) : M Recov unit :=
  match attached with
  | Some e => raise e
  | None => modify (λ r, set_rv_journal (Some new_side) (set_rv_attached true r))
  end.

(** [configure] *)
Fixpoint pool_descriptors (offset : Z) (sizes : list Z) (layouts : PoolLayouts)
    : result (list PoolDescriptor) :=
  match sizes, layouts with
  | size :: sizes, (name, block_size) :: layouts =>
      pool ← make_pool_descriptor name size block_size offset;
      pools ← pool_descriptors (offset + size)%Z sizes layouts;
      mret (pool :: pools)
  | _, _ => Ret []
  end.
Definition terms_of (pools : list PoolDescriptor) : result (list Z) :=
  canonical_pool_terms encode_pools compatibility_digest pools spec.
Definition configure (pool_layouts : PoolLayouts) : M Recov unit :=
  if decide (length pool_layouts ≠ length pool_sizes_bytes)
  then raise (ValueError "pool layout must match the number of pools in the Guard")
  else
    pools ← lift (pool_descriptors (ps_journal_bytes spec) pool_sizes_bytes pool_layouts);
    mirror ← gets rv_mirror;
    mirror ← (match mirror with
      | Some mirror => mret mirror
      | None =>
          terms ← lift (terms_of pools);
          records ← on_file (read_handback granularity huge (ps_mapping_bytes spec) sha256 terms decode
                               (pd_name <$> pools));
          mret (pd_name <$> pools, records)
      end);
    modify (λ r, set_rv_mirror (Some mirror) (set_rv_pools pools r)).

(** [start_primary] *)
Definition start_primary : M Recov unit :=
  modify (λ r, match rv_mirror r with None => set_rv_mirror (Some (fresh_mirror r)) r | Some _ => r end) ;;
  on_ring reset.

(** [_drop_recovery] *)
Definition drop_recovery : M Recov unit := modify (set_rv_mirror None).

(** Read and mirror at most [n] frames: whether the last of them was there. *)
Fixpoint mirror_frames (n : nat) : M Recov bool :=
  match n with
  | 0 => mret true
  | S n =>
      frame ← on_ring (read_next cap);
      match frame with
      | None => mret false
      | Some frame =>
          on_records (λ names, apply decode names frame.1.1 frame.1.2 frame.2) ;;
          mirror_frames n
      end
  end.
Definition POLL_BATCH : nat := 64.
(** Frames in a full ring, and one read more. *)
Definition ring_frames : nat := S (Z.to_nat (cap / 8)).
(** Read to the end of the journal. *)
Definition mirror_all : M Recov unit :=
  more ← mirror_frames ring_frames;
  if (more : bool) then raise (RuntimeError "out of fuel") else mret tt.

(** [poll] *)
Definition recovery_poll : M Recov bool :=
  mirror ← gets rv_mirror;
  match mirror with
  | None => mret false
  | Some _ =>
      try_except (mirror_frames POLL_BATCH)
        (λ e, if recovery_error e then drop_recovery ;; mret false else raise e)
  end.

(** [invalidate_journal] *)
Definition invalidate_journal : M Recov unit :=
  journal ← gets rv_journal;
  match journal with
  | None => mret tt
  | Some _ => try_except (on_ring invalidate ;; mret tt) (λ _, mret tt)
  end.

(** [take_for_promotion] *)
Definition take_for_promotion : M Recov Records :=
  mirror ← gets rv_mirror;
  records ← (match mirror with
    | None => mret ∅
    | Some _ =>
        try_except (mirror_all ;; on_records (λ _, take_records))
          (λ e, if recovery_error e then drop_recovery ;; mret ∅ else raise e)
    end);
  modify (λ r, set_rv_mirror (Some (fresh_mirror r)) r) ;;
  mret records.

(** [prepare_to_serve] *)
Definition prepare_to_serve (records : Records) : M Recov Records :=
  modify (set_rv_g3_records (g3_half records)) ;;
  mret (without_g3 records).

(** [release_snapshot_region] *)
Definition release_region (truncated : option exn) : M Recov unit :=
  match truncated with
  | Some e => raise e
  | None => on_file (modify (release_snapshot_region granularity huge (ps_mapping_bytes spec)))
  end.

(** [_write_handback] *)
Definition write_handback (outcome : WriteOutcome) (records : Records) : M Recov unit :=
  pools ← gets rv_pools;
  terms ← lift (terms_of pools);
  let frames := recovery_frames encode (map_to_list records) in
  body ← lift (snapshot_body frames);
  match outcome with
  | Written => on_file (write_recovery_snapshot granularity huge (ps_mapping_bytes spec) sha256 terms frames)
  | NotOpened errno => raise (OSError errno)
  | Undone errno =>
      (if decide (body = []) then mret tt
       else on_file (modify (release_snapshot_region granularity huge (ps_mapping_bytes spec)))) ;;
      raise (OSError errno)
  end.

(** [hand_back] *)
Definition recovery_hand_back (outcome : WriteOutcome) (records : Records) : M Recov unit :=
  g3_records ← gets rv_g3_records;
  let records := with_g3 records g3_records in
  try_except (write_handback outcome records ;; on_records (λ _, adopt records))
    (λ e, if capacity_error e then drop_recovery else raise e) ;;
  modify (set_rv_g3_records ∅).

(** [release] *)
Definition recovery_release (outcome : WriteOutcome) : M Recov unit :=
  try_except
    (mirror_all ;;
     records ← on_records (λ _, take_records);
     write_handback outcome records)
    (λ e, if recovery_error e || capacity_error e then drop_recovery else raise e) ;;
  modify (set_rv_mirror None).

(** [close] *)
Definition recovery_close (closed : option exn) : M Recov unit :=
  attached ← gets rv_attached;
  if negb attached then mret tt
  else
    match closed with
    | Some e => raise e
    | None => modify (λ r, mkRecov [] false None None ∅ (rv_shared r) (rv_file r))
    end.
End RecoveryState.
