(* ===== verification/ProtocolThm.v ===== *)
(** * Grants and frames

    Theorems about [Protocol]: which grants a claimant takes, that a Guard's own layouts are among
    them, and that a stream of frames is read back whatever the socket's chunks. *)

From Stdlib Require Import ZArith Lia.
From S2P Require Import Prelude Types Layout State Journal JournalThm Mirror MirrorThm Snapshot SnapshotThm Protocol RecoveryState.

(** ** Grants *)

Section Grants.
Context (page : Z).

(** Pools laid out in order from one offset to another, each as asked. *)
Inductive tiling : Z → list PoolDescriptor → PoolLayouts → Z → Prop :=
  | tiling_nil e : tiling e [] [] e
  | tiling_cons e pool pools layout layouts end_ :
      (pd_name pool, pd_block_size_bytes pool) = layout → pd_offset_bytes pool = e →
      (pd_size_bytes pool mod page = 0)%Z →
      tiling (e + pd_size_bytes pool) pools layouts end_ → tiling e (pool :: pools) (layout :: layouts) end_.
Lemma grant_offsets_tiling e pools layouts end_ : length pools = length layouts →
  grant_offsets page e pools layouts = Ret end_ ↔ tiling e pools layouts end_.
Proof.
  revert e layouts. induction pools as [|pool pools IH]; intros e [|layout layouts] Hl; try done; simpl.
  { split; [intros [= ->]; constructor | by inversion 1]. }
  unfold pool_matches. destruct (bool_decide _ && _ && _) eqn:Hm.
  - apply andb_true_iff in Hm as [[H1%bool_decide_eq_true H2%Z.eqb_eq]%andb_true_iff H3%Z.eqb_eq].
    rewrite IH by (by injection Hl). split; [by constructor | by inversion 1].
  - split; [done|]. inversion 1; subst.
    by rewrite bool_decide_true, !(proj2 (Z.eqb_eq _ _)) in Hm.
Qed.

(** The bytes two pools of a tiling cover do not meet, and stay within its ends. *)
Lemma tiling_bounds e pools layouts end_ : tiling e pools layouts end_ → Forall (λ p, 0 <= pd_size_bytes p)%Z pools →
  (e <= end_)%Z ∧ Forall (λ p, e <= pd_offset_bytes p ∧ pd_offset_bytes p + pd_size_bytes p <= end_)%Z pools ∧
  StronglySorted (λ p q, pd_offset_bytes p + pd_size_bytes p <= pd_offset_bytes q)%Z pools.
Proof.
  induction 1 as [e|e pool pools layout layouts end_ _ Ho _ _ IH]; intros Hp; [split_and!; [lia | done | constructor]|].
  apply Forall_cons in Hp as [Hs (He & Hf & Hsort)%IH]. split_and!; [lia | |].
  - constructor; [lia|]. eapply list.Forall_impl; [exact Hf|]. simpl. lia.
  - constructor; [done|]. eapply list.Forall_impl; [exact Hf|]. simpl. lia.
Qed.

Definition answers (response : Granted) (index : Z) (tier : TierConfig) : Prop :=
  gr_guard_index response = index ∧ gr_tier_config response = tier ∧
  tiling (ps_journal_bytes (gr_spec response)) (gr_pools response) (tc_pool_layouts tier)
    (ps_mapping_bytes (gr_spec response)).
Lemma tiling_length e pools layouts end_ : tiling e pools layouts end_ → length pools = length layouts.
Proof. induction 1; simpl; congruence. Qed.
Lemma grant_layout_answers response index tier :
  (answers response index tier ∧ grant_layout page response index tier = Ret (gr_spec response, gr_pools response)) ∨
  (¬ answers response index tier ∧ ∃ msg, grant_layout page response index tier = Raise (KVCRGuardProtocolError msg)).
Proof.
  unfold grant_layout, answers, guard_raise, mbind, result_bind.
  destruct (Z.eqb_spec (gr_guard_index response) index) as [Hi|Hi]; simpl; [|right; split; [by intros [? _] | by eexists]].
  case_bool_decide as Ht; [right; split; [by intros (_ & ? & _) | by eexists]|].
  destruct (Nat.eqb_spec (length (gr_pools response)) (length (tc_pool_layouts tier))) as [Hl|Hl]; simpl.
  2:{ right. split; [|by eexists]. by intros (_ & _ & ?%tiling_length). }
  destruct (grant_offsets page _ _ _) as [end_|e] eqn:Ho.
  - assert (Hend : end_ = ps_mapping_bytes (gr_spec response) ↔ tiling (ps_journal_bytes (gr_spec response))
      (gr_pools response) (tc_pool_layouts tier) (ps_mapping_bytes (gr_spec response))).
    { rewrite <- grant_offsets_tiling by done. rewrite Ho. split; [by intros -> | by intros [= ->]]. }
    destruct (Z.eqb_spec end_ (ps_mapping_bytes (gr_spec response))) as [Hm|Hm]; simpl.
    + left. split; [|done]. split_and!; [done..|]. by apply Hend.
    + right. split; [|by eexists]. intros (_ & _ & Ht'). by apply Hm, Hend.
  - right. split.
    + intros (_ & _ & Ht'). apply (grant_offsets_tiling _ _ _ _ Hl) in Ht'. congruence.
    + clear Hi Hl Ht. revert Ho. generalize (ps_journal_bytes (gr_spec response)), (tc_pool_layouts tier).
      induction (gr_pools response) as [|pool pools IH]; intros o [|layout layouts]; simpl; try done.
      destruct (pool_matches page o pool layout); [apply IH|]. intros [= <-]. by eexists.
Qed.

(** C28: a claimant takes exactly the grants that answer its own claim, with the pools laid out in
    its own order and of its own block sizes from the end of the journal to the end of the
    mapping, and refuses every other as a protocol error; so no two pools of a grant it takes
    share a byte with each other, with the journal, or with what lies past the mapping. *)
Theorem grant_is_a_tiling response index tier :
  Forall (λ p, 0 <= pd_size_bytes p)%Z (gr_pools response) →
  match grant_layout page response index tier with
  | Ret (spec, pools) => spec = gr_spec response ∧ pools = gr_pools response ∧ answers response index tier ∧
      Forall (λ p, ps_journal_bytes spec <= pd_offset_bytes p ∧
                   pd_offset_bytes p + pd_size_bytes p <= ps_mapping_bytes spec)%Z pools ∧
      StronglySorted (λ p q, pd_offset_bytes p + pd_size_bytes p <= pd_offset_bytes q)%Z pools
  | Raise e => (∃ msg, e = KVCRGuardProtocolError msg) ∧ ¬ answers response index tier
  end.
Proof.
  intros Hp. destruct (grant_layout_answers response index tier) as [[Ha ->]|[Ha (msg & ->)]].
  - split_and!; try done; destruct Ha as (_ & _ & Ht); by destruct (tiling_bounds _ _ _ _ Ht Hp) as (_ & ? & ?).
  - split; [by eexists | done].
Qed.

(** What [configure] makes of a layout is a tiling. *)
Lemma pool_descriptors_tiling offset sizes layouts pools : length layouts = length sizes →
  Forall (λ s, s mod page = 0)%Z sizes → pool_descriptors offset sizes layouts = Ret pools →
  tiling offset pools layouts (offset + foldr Z.add 0 sizes)%Z ∧ Forall (λ p, 0 <= pd_size_bytes p)%Z pools.
Proof.
  revert offset layouts pools. induction sizes as [|size sizes IH]; intros offset [|[name block] layouts] pools Hl Hs Hd;
    try done; simpl in Hd.
  { injection Hd as <-. simpl. rewrite Z.add_0_r. by split; constructor. }
  apply Forall_cons in Hs as [Hs1 Hs].
  destruct (make_pool_descriptor name size block offset) as [pool|e] eqn:Hm; [|done]. simpl in Hd.
  destruct (pool_descriptors (offset + size) sizes layouts) as [pools'|e] eqn:Hd'; [|done]. injection Hd as <-.
  destruct (IH _ _ _ ltac:(by injection Hl) Hs Hd') as [Ht Hf].
  unfold make_pool_descriptor, compute_pool_geometry, validate_positive_int, guard_raise in Hm.
  destruct (size <=? 0)%Z eqn:Hsz; [done|]. destruct (block <=? 0)%Z; [done|]. simpl in Hm.
  destruct (_ =? 0)%Z; [done|]. injection Hm as <-. apply Z.leb_gt in Hsz. split.
  - constructor; simpl; [done..|]. by rewrite <- Z.add_assoc in Ht.
  - constructor; [simpl; lia | done].
Qed.

(** The pools a Guard configures for a claim are pools its claimant takes: when the service's
    page-aligned pool sizes fill the allocation, the grant of a configured Guard is never
    refused by the client that asked for it. *)
Theorem configured_grant_is_taken spec sizes tier pools index dead beats :
  length (tc_pool_layouts tier) = length sizes → Forall (λ s, s mod page = 0)%Z sizes →
  ps_mapping_bytes spec = (ps_journal_bytes spec + foldr Z.add 0 sizes)%Z →
  pool_descriptors (ps_journal_bytes spec) sizes (tc_pool_layouts tier) = Ret pools →
  grant_layout page (mkGranted index spec tier pools dead beats) index tier = Ret (spec, pools).
Proof.
  intros Hl Hs Hm Hd. destruct (pool_descriptors_tiling _ _ _ _ Hl Hs Hd) as [Ht _].
  destruct (grant_layout_answers (mkGranted index spec tier pools dead beats) index tier) as [[_ Hg]|[Ha _]]; [done|].
  destruct Ha. split_and!; try done. simpl. by rewrite Hm.
Qed.
End Grants.

(** ** Frames *)

Section Frames.
Context {T : Type} (encode : T → list Z) (decode : list Z → result T) (chunk : nat → nat → nat).
Notation receives := (receive decode chunk).
Notation receives_loop := (receive_loop chunk).

(** One call brings at least a byte of what there is, and no more than was asked for. *)
Lemma recv_some n bytes calls : 0 < n → bytes ≠ [] →
  ∃ got, 0 < got ≤ n ∧ got ≤ length bytes ∧ recv chunk n (bytes, calls) = (Ret (take got bytes), (drop got bytes, S calls)).
Proof.
  intros Hn Hb. exists (Nat.min (Nat.max 1 (chunk calls n)) (Nat.min n (length bytes))).
  assert (0 < length bytes) by (destruct bytes; [done | simpl; lia]). split_and!; [lia.. | done].
Qed.
Lemma receive_loop_run fuel n chunks bytes calls : n - length chunks ≤ fuel → length chunks ≤ n →
  n ≤ length chunks + length bytes →
  ∃ calls', receives_loop fuel n chunks (bytes, calls) =
    (Ret (chunks ++ take (n - length chunks) bytes), (drop (n - length chunks) bytes, calls')).
Proof.
  revert chunks bytes calls. induction fuel as [|fuel IH]; intros chunks bytes calls Hf Hc Hb; simpl.
  { rewrite decide_True by lia. replace (n - length chunks) with 0 by lia. rewrite app_nil_r. by eexists. }
  case_decide as Hd; [replace (n - length chunks) with 0 by lia; rewrite app_nil_r; by eexists|].
  destruct (recv_some (n - length chunks) bytes calls) as (got & Hg & Hgl & Hr); [lia | by destruct bytes; simpl in *; [lia|]|].
  unfold mbind, M_bind. rewrite Hr. assert (length (take got bytes) = got) as Hlt by (rewrite length_take; lia).
  rewrite decide_False by (intros He; rewrite He in Hlt; simpl in Hlt; lia).
  destruct (IH (chunks ++ take got bytes) (drop got bytes) (S calls)) as (calls' & IH');
    [rewrite ?length_app, ?length_drop; lia..|].
  exists calls'. rewrite IH', length_app, Hlt, <- app_assoc.
  replace (n - length chunks) with (got + (n - (length chunks + got))) by lia.
  by rewrite <- take_take_drop, drop_drop.
Qed.
Lemma receive_exact_run n bytes calls : n ≤ length bytes →
  ∃ calls', receive_exact chunk n (bytes, calls) = (Ret (take n bytes), (drop n bytes, calls')).
Proof. intros Hn. destruct (receive_loop_run n n [] bytes calls) as (c & Hr); simpl; [lia.. |]. exists c. by rewrite Nat.sub_0_r in Hr. Qed.

Lemma unpack_pack_length n : (0 <= n < 2 ^ 32)%Z → unpack_length (pack_length n) = n.
Proof. intros Hn. unfold unpack_length, pack_length. rewrite rev_involutive. by apply unle_le. Qed.

(** A message the peer can decode, and that is not empty on the wire. *)
Definition sendable (m : T) : Prop := encode m ≠ [] ∧ decode (encode m) = Ret m.
Lemma receive_body m bytes rest calls : sendable m → encode_frame encode m = Ret bytes →
  4 ≤ length bytes ∧ ∃ calls', receive_after_header decode chunk (take 4 bytes) (drop 4 bytes ++ rest, calls) = (Ret m, (rest, calls')).
Proof.
  intros [Hne Hd] Hf. unfold encode_frame in Hf. case_decide as Hsz; [done|].
  assert (bytes = pack_length (zlen (encode m)) ++ encode m) as -> by congruence. clear Hf.
  assert (Hlen : length (pack_length (zlen (encode m))) = 4) by (unfold pack_length; by rewrite length_rev, le_length).
  split; [rewrite length_app; lia|]. rewrite take_app_length', drop_app_length' by done. unfold receive_after_header.
  unfold MAX_FRAME_BYTES in *. pose proof (zlen_nonneg (encode m)). rewrite unpack_pack_length by lia.
  rewrite decide_False.
  2:{ intros [Hz|Hz]; [|lia]. unfold zlen in Hz. by destruct (encode m). }
  unfold mbind, M_bind. destruct (receive_exact_run (Z.to_nat (zlen (encode m))) (encode m ++ rest) calls) as (c2 & ->).
  { unfold zlen. rewrite length_app. lia. }
  unfold zlen. rewrite Nat2Z.id, take_app_length, drop_app_length, Hd. by exists c2.
Qed.
Lemma receive_one m bytes rest calls : sendable m → encode_frame encode m = Ret bytes →
  ∃ calls', receives (bytes ++ rest, calls) = (Ret m, (rest, calls')).
Proof.
  intros Hm Hf. pose proof (λ c, receive_body m bytes rest c Hm Hf) as Hb. destruct (Hb 0) as [Hl _].
  unfold receive, mbind, M_bind. destruct (receive_exact_run 4 (bytes ++ rest) calls) as (c1 & ->); [rewrite length_app; lia|].
  rewrite take_app_le, drop_app_le by done. apply Hb.
Qed.
(** [receive], once per message. *)
Fixpoint receive_all (n : nat) : M Stream (list T) :=
  match n with
  | 0 => mret []
  | S n => m ← receives; ms ← receive_all n; mret (m :: ms)
  end.

(** Whatever pieces the socket delivers a stream in, the messages framed at one end are the
    messages received at the other, one by one and in order, and what follows them is left
    unread. *)
Theorem frames_round_trip messages frames rest calls :
  Forall sendable messages → mapM (λ m, match encode_frame encode m with Ret b => Some b | Raise _ => None end) messages = Some frames →
  ∃ calls', receive_all (length messages) (concat frames ++ rest, calls) = (Ret messages, (rest, calls')).
Proof.
  revert frames calls. induction messages as [|m messages IH]; intros frames calls Hs Hf.
  { injection Hf as <-. by exists calls. }
  apply Forall_cons in Hs as [Hm Hs]. simpl in Hf.
  destruct (encode_frame encode m) as [bytes|e] eqn:He; [|done]. simpl in Hf.
  destruct (mapM _ messages) as [frames'|] eqn:Hf'; [|done]. injection Hf as <-.
  destruct (receive_one m bytes (concat frames' ++ rest) calls Hm He) as (c1 & Hr).
  destruct (IH _ c1 Hs eq_refl) as (c2 & Hrs). exists c2. simpl. unfold mbind, M_bind.
  by rewrite <- app_assoc, Hr, Hrs.
Qed.
End Frames.

(** ** Concrete grants and frames *)

Module GrantDemo.
Definition spec : PoolSpec := mkPoolSpec "0123456789abcdef0123456789abcdef" 8192 24576 3 4.
Definition tier : TierConfig := mkTierConfig [("a", 4096%Z); ("b", 2048%Z)] None "UCX".
Definition pools : list PoolDescriptor := [mkPoolDescriptor "a" 8192 4096 8192; mkPoolDescriptor "b" 8192 2048 16384].
Definition response : Granted := mkGranted 0 spec tier pools [] true.
(** A codec of two-byte messages, and a socket that delivers two bytes at a time. *)
Definition encode (m : Z * Z) : list Z := [m.1; m.2].
Definition decode (l : list Z) : result (Z * Z) :=
  match l with [a; b] => Ret (a, b) | _ => Raise (DecodeError "length") end.
Definition chunk (calls n : nat) : nat := 2.
End GrantDemo.

Lemma grant_is_a_tiling_witness :
  grant_layout 4096 GrantDemo.response 0 GrantDemo.tier = Ret (GrantDemo.spec, GrantDemo.pools) ∧
  StronglySorted (λ p q, pd_offset_bytes p + pd_size_bytes p <= pd_offset_bytes q)%Z GrantDemo.pools.
Proof.
  pose proof (grant_is_a_tiling 4096 GrantDemo.response 0 GrantDemo.tier
    ltac:(repeat constructor; simpl; lia)) as Hg.
  assert (grant_layout 4096 GrantDemo.response 0 GrantDemo.tier = Ret (GrantDemo.spec, GrantDemo.pools)) as Heq
    by (vm_compute; reflexivity).
  rewrite Heq in Hg. split; [exact Heq | apply Hg].
Defined.
Lemma configured_grant_is_taken_witness :
  grant_layout 4096 (mkGranted 7 GrantDemo.spec GrantDemo.tier GrantDemo.pools [] false) 7 GrantDemo.tier =
    Ret (GrantDemo.spec, GrantDemo.pools).
Proof.
  apply (configured_grant_is_taken 4096 GrantDemo.spec [8192; 8192]%Z GrantDemo.tier GrantDemo.pools 7 [] false);
    [reflexivity | repeat constructor | reflexivity | vm_compute; reflexivity].
Defined.
Lemma frames_round_trip_witness : ∃ calls', 
  receive_all GrantDemo.decode GrantDemo.chunk 2 ([0; 0; 0; 2; 5; 6; 0; 0; 0; 2; 7; 8; 9]%Z, 0) =
    (Ret [(5, 6); (7, 8)]%Z, ([9]%Z, calls')).
Proof.
  apply (frames_round_trip GrantDemo.encode GrantDemo.decode GrantDemo.chunk [(5, 6); (7, 8)]%Z
    [[0; 0; 0; 2; 5; 6]; [0; 0; 0; 2; 7; 8]]%Z [9]%Z 0).
  - repeat constructor; discriminate.
  - vm_compute. reflexivity.
Defined.
