(* ===== verification/RecoveryThm.v ===== *)
(** * What one primary leaves reaches the next

    The journal, the mirror and the handback region, composed by [RecoveryState]: the end of a
    primary, by its own release or by a Guard that served in its place, and the claim after it. *)

From Stdlib Require Import ZArith Lia.
From S2P Require Import Prelude PyFloat Types Layout State Journal JournalThm Mirror MirrorThm Snapshot SnapshotThm Protocol RecoveryState.

(** ** What a table keeps of itself *)

Lemma project_recovered rb : project_recovery_record (recovered_value rb) = rb.
Proof. destruct rb as [[slots|] [[layout gs]|] position]; reflexivity. Qed.
Lemma kept_project v w : kept v = Some w → project_recovery_record w = project_recovery_record v.
Proof. unfold kept. destruct (is_recoverable v); [|done]. intros [= <-]. apply project_recovered. Qed.
Lemma kept_publishable names k v w : publishable names (k, v) → kept v = Some w → publishable names (k, w).
Proof. unfold publishable. simpl. by intros ? ->%kept_project. Qed.
Lemma kept_frame encode k v w : kept v = Some w → frame_of encode (k, w) = frame_of encode (k, v).
Proof. unfold frame_of. simpl. by intros ->%kept_project. Qed.

(** ** The disk half *)

(** A Guard serves the DRAM half of a table and keeps the disk half; put together again they are
    the table, to whoever reads it back. *)
Lemma with_without_g3 records k :
  (with_g3 (without_g3 records) (g3_half records) !! k) ≫= kept = records !! k ≫= kept.
Proof.
  unfold with_g3, without_g3, g3_half. rewrite lookup_merge, !lookup_omap. unfold diag_None, put_g3.
  destruct (records !! k) as [v|]; [|done]. simpl.
  destruct v as [fw [r|] [g|] ops ac la pos]; unfold drop_g3; simpl; try done.
Qed.

Lemma with_g3_local records records' g3 k : records !! k = records' !! k →
  with_g3 records g3 !! k = with_g3 records' g3 !! k.
Proof. unfold with_g3. rewrite !lookup_merge. by intros ->. Qed.

Section Recovery.
Context (cap granularity huge : Z) (Hcap : (0 < cap)%Z) (Hgran : (0 < granularity)%Z) (Hhuge : (0 <= huge)%Z).
Context (sha256 : list Z → list Z) (Hsha : ∀ m, length (sha256 m) = 32).
Context (encode : RecoveryBlock → list Z) (decode : list Z → result RecoveryBlock).
(** The documented contract of the codec, as for the mirror. *)
Hypothesis decode_encode : ∀ rb, wire_valid rb → decode (encode rb) = Ret rb.
Hypothesis decode_valid : ∀ payload rb, decode payload = Ret rb → wire_valid rb.
Hypothesis decode_raises : ∀ payload e, decode payload = Raise e → malformed e = true.
Context (encode_pools : list PoolDescriptor → list Z).
Context (spec : PoolSpec) (Hmap : (0 <= ps_mapping_bytes spec)%Z) (digest : string) (sizes : list Z).

(** *** The journal's tail *)

Lemma mirror_frames_run n y pending r names t m :
  jinv cap y pending → healthy (y_cons y) (y_sh y) → sh_invalid (y_sh y) = 0%Z →
  (zlen (encs (y_sent y)) < 2 ^ 64)%Z → length pending < n →
  rv_journal r = Some (y_cons y) → rv_shared r = y_sh y → rv_mirror r = Some (names, t) →
  apply_all decode names pending t = (Ret tt, m) →
  ∃ cons' sh', mirror_frames cap decode n r =
    (Ret false, mkRecov (rv_pools r) (rv_attached r) (Some cons') (Some (names, m)) (rv_g3_records r) sh' (rv_file r)).
Proof.
  revert y pending r t. induction n as [|n IH]; intros y pending r t Hj Hh Hi Hsm Hlen Hrj Hrs Hrm Hm; [lia|].
  destruct (read_next_run _ Hcap _ _ Hj Hh) as (cons' & sh' & Hr & Hnext). simpl. unfold on_ring, mbind, M_bind.
  rewrite Hrj, Hrs, Hr, Hi. destruct pending as [|fr rest]; simpl.
  - exists cons', sh'. unfold apply_all in Hm. simpl in Hm. injection Hm as <-.
    unfold set_rv_shared, set_rv_journal. simpl. by rewrite Hrm.
  - destruct (Hnext fr rest eq_refl) as (Hh' & Hi' & Heq). unfold on_records. simpl. rewrite Hrm.
    unfold apply_all in Hm. simpl in Hm. unfold mbind, M_bind in Hm.
    destruct (apply decode names fr.1.1 fr.1.2 fr.2 t) as [[[]|e] t'] eqn:Ha; [|done].
    pose proof (jinv_take _ Hcap _ _ _ _ _ _ Hj eq_refl Hsm Heq) as Hj'.
    specialize (IH _ _ (set_rv_mirror (Some (names, t')) (set_rv_shared sh' (set_rv_journal (Some cons') r))) t'
      Hj' Hh' ltac:(simpl; congruence) Hsm ltac:(simpl in Hlen; lia) eq_refl eq_refl eq_refl Hm).
    destruct IH as (cons'' & sh'' & IH). exists cons'', sh''. exact IH.
Qed.

(** *** The handback, written and taken up *)

Notation names_of r := (pd_name <$> rv_pools r) (only parsing).
Notation writes := (write_handback granularity huge sha256 encode encode_pools spec digest).
Notation takes_up := (configure granularity huge sha256 decode encode_pools spec digest sizes).
Notation releases := (recovery_release cap granularity huge sha256 encode decode encode_pools spec digest).
Notation hands_back := (recovery_hand_back granularity huge sha256 encode encode_pools spec digest).
Notation table_frames t := (recovery_frames encode (map_to_list t)).

(** The pools a Guard runs are the ones it makes of the layouts and its own geometry. *)
Definition configured (layouts : PoolLayouts) r : Prop :=
  length layouts = length sizes ∧ pool_descriptors (ps_journal_bytes spec) sizes layouts = Ret (rv_pools r) ∧
  (∃ terms, terms_of encode_pools spec digest (rv_pools r) = Ret terms) ∧
  (ps_mapping_bytes spec <= zlen (rv_file r))%Z.
(** A table the region's format can carry. *)
Definition carried (names : list string) (t : Records) : Prop :=
  Forall (publishable names) (map_to_list t) ∧ Forall good_frame (table_frames t) ∧
  (zlen (raws (table_frames t)) < 2 ^ 64)%Z.

Lemma handed_back layouts r t : configured layouts r → carried (names_of r) t →
  ∃ file m, writes Written t r = (Ret tt, set_rv_file file r) ∧
    (∀ r', rv_pools r' = rv_pools r → rv_file r' = file → rv_mirror r' = None →
       takes_up layouts r' = (Ret tt, set_rv_mirror (Some (names_of r, m)) r')) ∧
    (∀ k, m !! k = t !! k ≫= kept) ∧
    take (Z.to_nat (ps_mapping_bytes spec)) file = take (Z.to_nat (ps_mapping_bytes spec)) (rv_file r).
Proof.
  intros (Hlen & Hpools & (terms & Hterms) & Hfile) (Hpub & Hgood & Hsize).
  destruct (handback_round_trip granularity huge (ps_mapping_bytes spec) Hgran Hhuge Hmap sha256 Hsha terms
    encode decode (names_of r) t (map_to_list t) (rv_file r) decode_encode decode_valid decode_raises
    (Permutation_refl _) Hpub Hgood Hsize Hfile) as (file & m & Hw & Hr & Hk & Ht).
  exists file, m. split_and!; try done.
  - unfold write_handback, mbind, M_bind, gets, lift. rewrite Hterms.
    rewrite (snapshot_body_raws _ Hgood). unfold on_file. by rewrite Hw.
  - intros r' Hp Hf Hm. unfold configure. rewrite decide_False by (by intros ?).
    unfold mbind, M_bind, gets, lift. rewrite Hpools, Hm, Hterms. unfold on_file. rewrite Hf, Hr.
    unfold modify. simpl. rewrite <- Hp. destruct r'. simpl in *. by subst.
Qed.

(** The table a primary leaves: what it was given, and what it published since. *)
Definition left_by (t final : Records) (pubs : list (BlockKey * BlockValue)) : Prop :=
  ∀ k, final !! k = if decide (k ∈ pubs.*1) then last_published k pubs else t !! k.

(** A journal whose reader is about to read what [pubs] published, and a mirror to put it in. *)
Definition tail_of (y0 y : Sys) (pubs : list (BlockKey * BlockValue)) r (t : Records) : Prop :=
  started cap y0 ∧ rtc (jstep cap) y0 y ∧ (zlen (encs (y_sent y)) < 2 ^ 64)%Z ∧
  y_sent y = y_got y ++ (frame_of encode <$> pubs) ∧ healthy (y_cons y) (y_sh y) ∧ sh_invalid (y_sh y) = 0%Z ∧
  rv_journal r = Some (y_cons y) ∧ rv_shared r = y_sh y ∧ rv_mirror r = Some (names_of r, t) ∧
  Forall (publishable (names_of r)) pubs.
Lemma mirror_all_run y0 y pubs r t final : tail_of y0 y pubs r t → left_by t final pubs →
  ∃ cons' sh', mirror_all cap decode r = (Ret tt, mkRecov (rv_pools r) (rv_attached r) (Some cons')
    (Some (names_of r, final)) (rv_g3_records r) sh' (rv_file r)).
Proof.
  intros (H0 & Hrun & Hsm & Hsent & Hh & Hi & Hrj & Hrs & Hrm & Hpub) Hleft.
  destruct (reachable_inv _ Hcap _ _ H0 Hrun Hsm) as [pending Hj].
  assert (pending = frame_of encode <$> pubs) as ->.
  { pose proof (ji_sent _ _ _ Hj) as Hs. rewrite Hsent in Hs. by apply app_inv_head in Hs. }
  destruct (replay_from encode decode decode_encode decode_valid decode_raises (names_of r) pubs t Hpub) as (m0 & Hm0 & Hk0).
  assert (m0 = final) as -> by (apply map_eq; intros k; by rewrite Hk0, Hleft).
  assert (Hlen : length (frame_of encode <$> pubs) < ring_frames cap).
  { pose proof (ji_good _ _ _ Hj) as Hg. rewrite Hsent in Hg. apply Forall_app in Hg as [_ Hg].
    pose proof (pending_bound _ Hg). pose proof (ji_fits _ _ _ Hj).
    assert (zlen (frame_of encode <$> pubs) <= cap / 8)%Z by (apply Z.div_le_lower_bound; lia).
    unfold ring_frames, zlen in *. lia. }
  destruct (mirror_frames_run _ _ _ _ _ _ _ Hj Hh Hi Hsm Hlen Hrj Hrs Hrm Hm0) as (cons' & sh' & Hmir).
  exists cons', sh'. unfold mirror_all, mbind, M_bind. by rewrite Hmir.
Qed.

(** C9: a primary that gives its pool up loses nothing it published.  Its Guard reads the
    journal to its end, under every interleaving the ring allows, writes the table out past the
    pool, and the next claim under the same layout reads back, for every key, the last thing
    published or what the primary itself was given; the pool's own bytes are not touched. *)
Theorem release_then_claim y0 y pubs r layouts t final :
  tail_of y0 y pubs r t → left_by t final pubs → configured layouts r → carried (names_of r) final →
  ∃ r1 r2 m, releases Written r = (Ret tt, r1) ∧ takes_up layouts r1 = (Ret tt, r2) ∧
    rv_mirror r2 = Some (names_of r, m) ∧ (∀ k, m !! k = final !! k ≫= kept) ∧ rv_pools r2 = rv_pools r ∧
    take (Z.to_nat (ps_mapping_bytes spec)) (rv_file r2) = take (Z.to_nat (ps_mapping_bytes spec)) (rv_file r).
Proof.
  intros Htail Hleft Hcfg Hcar. destruct (mirror_all_run _ _ _ _ _ _ Htail Hleft) as (cons' & sh' & Hmir).
  set (r0 := mkRecov (rv_pools r) (rv_attached r) (Some cons') (Some (names_of r, ∅)) (rv_g3_records r) sh' (rv_file r)).
  destruct (handed_back layouts r0 final Hcfg Hcar) as (file & m & Hw & Hc & Hk & Ht).
  exists (set_rv_mirror None (set_rv_file file r0)), (set_rv_mirror (Some (names_of r, m)) (set_rv_mirror None (set_rv_file file r0))), m.
  split_and!; try done; [|by apply Hc].
  unfold recovery_release, mbind, M_bind, try_except. rewrite Hmir. simpl.
  unfold on_records. simpl. match goal with |- context [writes Written final ?s] => change s with r0 end.
  by rewrite Hw.
Qed.

(** C22: a Guard that serves in a dead primary's place keeps what it cannot serve.  Promotion takes
    the whole table, journal tail included, and its core gets the DRAM half; whatever that core
    has made of its half when it is closed, the handback carries it with the disk half put back,
    and the next claim reads, for every key the core left alone, all the dead primary had. *)
Theorem serve_then_claim y0 y pubs r layouts t final :
  tail_of y0 y pubs r t → left_by t final pubs → configured layouts r →
  ∃ r1 r2, take_for_promotion cap decode r = (Ret final, r1) ∧
    prepare_to_serve final r1 = (Ret (without_g3 final), r2) ∧
    ∀ records, carried (names_of r) (with_g3 records (g3_half final)) →
      ∃ r3 r4 m, hands_back Written records r2 = (Ret tt, r3) ∧
        takes_up layouts (set_rv_mirror None r3) = (Ret tt, r4) ∧ rv_mirror r4 = Some (names_of r, m) ∧
        (∀ k, m !! k = with_g3 records (g3_half final) !! k ≫= kept) ∧
        (∀ k, records !! k = without_g3 final !! k → m !! k = final !! k ≫= kept) ∧
        take (Z.to_nat (ps_mapping_bytes spec)) (rv_file r4) = take (Z.to_nat (ps_mapping_bytes spec)) (rv_file r).
Proof.
  intros Htail Hleft Hcfg. destruct (mirror_all_run _ _ _ _ _ _ Htail Hleft) as (cons' & sh' & Hmir).
  destruct Htail as (_ & _ & _ & _ & _ & _ & _ & _ & Hrm & _).
  set (r1 := mkRecov (rv_pools r) (rv_attached r) (Some cons') (Some (names_of r, ∅)) (rv_g3_records r) sh' (rv_file r)).
  set (r2 := set_rv_g3_records (g3_half final) r1). exists r1, r2. split_and!; [| done |].
  { unfold take_for_promotion, mbind, M_bind, gets, try_except. rewrite Hrm. by rewrite Hmir. }
  intros records Hcar. destruct (handed_back layouts r2 _ Hcfg Hcar) as (file & m & Hw & Hc & Hk & Ht).
  set (r3 := set_rv_g3_records ∅ (set_rv_mirror (Some (names_of r, omap canonical (with_g3 records (g3_half final))))
    (set_rv_file file r2))).
  exists r3, (set_rv_mirror (Some (names_of r, m)) (set_rv_mirror None r3)), m.
  split_and!; try done; [| by apply Hc |].
  - unfold recovery_hand_back, mbind, M_bind, gets, try_except. simpl. by rewrite Hw.
  - intros k Hkk. by rewrite Hk, (with_g3_local _ _ _ _ Hkk), with_without_g3.
Qed.
End Recovery.

(** ** A run *)

Module RecDemo.
Definition spec : PoolSpec := mkPoolSpec "0123456789abcdef0123456789abcdef" 8 24 3 4.
Definition layouts : PoolLayouts := [("a", 8%Z)].
Definition pools : list PoolDescriptor := [mkPoolDescriptor "a" 16 8 8].
Definition ring : Shared := mkShared 5 24 8 (replicate 400 0%Z).
Definition start : Sys :=
  let j := (reset (mkJrn new_side ring)).2 in mkSys new_side (jr_side j) (jr_sh j) None None [] [] false.
Definition pubs : list (BlockKey * BlockValue) := [("k", Demo.stored_block)].
Definition final : Records := {[ "k" := recovered_value (project_recovery_record Demo.stored_block) ]}.
Lemma started : started 400 start.
Proof.
  eapply (started_reset 400 new_side ring); [reflexivity..| |]; repeat (first [left | right]).
Qed.
Lemma published_run : ∃ y, rtc (jstep 400) start y ∧ y_sent y = y_got y ++ (frame_of Demo.encode <$> pubs) ∧
  healthy (y_cons y) (y_sh y) ∧ sh_invalid (y_sh y) = 0%Z ∧ (zlen (encs (y_sent y)) < 2 ^ 64)%Z.
Proof.
  eexists. split.
  { eapply rtc_l; [apply (js_begin 400 1 (key_bytes "k")
      (Demo.encode (project_recovery_record Demo.stored_block))); vm_compute; reflexivity|].
    eapply rtc_l; [eapply js_commit; vm_compute; reflexivity|]. apply rtc_refl. }
  split_and!; [vm_compute; reflexivity | | vm_compute; reflexivity..].
  split_and!; [vm_compute; reflexivity..|]. by intros [_ []].
Qed.
Definition recov (y : Sys) : Recov :=
  mkRecov pools true (Some (y_cons y)) (Some (["a"], ∅)) ∅ (y_sh y) SnapDemo.file.
Lemma tail y : rtc (jstep 400) start y → y_sent y = y_got y ++ (frame_of Demo.encode <$> pubs) →
  healthy (y_cons y) (y_sh y) → sh_invalid (y_sh y) = 0%Z → (zlen (encs (y_sent y)) < 2 ^ 64)%Z →
  tail_of 400 Demo.encode start y pubs (recov y) ∅.
Proof.
  intros. split_and!; try done; [apply started|]. apply Forall_singleton. split; [|reflexivity].
  apply Demo.wire_check_valid. vm_compute. reflexivity.
Qed.
Lemma leaves : left_by ∅ final pubs.
Proof.
  intros k. unfold final, pubs. simpl. destruct (decide (k = "k")) as [->|Hk].
  - rewrite lookup_singleton_eq, decide_True by (by left). reflexivity.
  - rewrite lookup_singleton_ne by done. rewrite decide_False; [done|]. by intros ?%list_elem_of_singleton.
Qed.
Lemma runs_pools y : configured SnapDemo.encode_pools spec "ab" [16%Z] layouts (recov y).
Proof. split_and!; [reflexivity | reflexivity | by eexists | vm_compute; discriminate]. Qed.
Lemma carries : carried Demo.encode ["a"] final.
Proof.
  unfold carried, final. rewrite map_to_list_singleton. split_and!.
  - apply Forall_singleton. split; [|reflexivity]. apply Demo.wire_check_valid. vm_compute. reflexivity.
  - apply Forall_singleton. split; [by left | vm_compute; discriminate].
  - vm_compute. reflexivity.
Qed.
Lemma carries_back : carried Demo.encode ["a"] (with_g3 (without_g3 final) (g3_half final)).
Proof.
  assert (with_g3 (without_g3 final) (g3_half final) = final) as -> by (vm_compute; reflexivity). apply carries.
Qed.
End RecDemo.

Lemma release_then_claim_witness : ∃ r r2 m, rv_mirror r2 = Some (["a"], m) ∧
  rv_file r ≠ rv_file r2 ∧ m !! "k" = RecDemo.final !! "k".
Proof.
  destruct RecDemo.published_run as (y & H1 & H2 & H3 & H4 & H5).
  destruct (release_then_claim 400 16 0 ltac:(lia) ltac:(lia) ltac:(lia) SnapDemo.sha SnapDemo.sha_length
    Demo.encode Demo.decode Demo.decode_encode Demo.decode_valid Demo.decode_raises SnapDemo.encode_pools
    RecDemo.spec ltac:(vm_compute; discriminate) "ab" [16%Z] RecDemo.start y RecDemo.pubs (RecDemo.recov y)
    RecDemo.layouts ∅ RecDemo.final (RecDemo.tail y H1 H2 H3 H4 H5) RecDemo.leaves (RecDemo.runs_pools y)
    RecDemo.carries) as (r1 & r2 & m & _ & _ & Hm & Hk & _ & Ht).
  exists (set_rv_file [] r1), r2, m. split; [exact Hm|]. split; [|rewrite Hk; reflexivity].
  simpl. intros He. by rewrite <- He in Ht.
Defined.
Lemma serve_then_claim_witness : ∃ r4 m, rv_mirror r4 = Some (["a"], m) ∧ m !! "k" = RecDemo.final !! "k".
Proof.
  destruct RecDemo.published_run as (y & H1 & H2 & H3 & H4 & H5).
  destruct (serve_then_claim 400 16 0 ltac:(lia) ltac:(lia) ltac:(lia) SnapDemo.sha SnapDemo.sha_length
    Demo.encode Demo.decode Demo.decode_encode Demo.decode_valid Demo.decode_raises SnapDemo.encode_pools
    RecDemo.spec ltac:(vm_compute; discriminate) "ab" [16%Z] RecDemo.start y RecDemo.pubs (RecDemo.recov y)
    RecDemo.layouts ∅ RecDemo.final (RecDemo.tail y H1 H2 H3 H4 H5) RecDemo.leaves (RecDemo.runs_pools y))
    as (r1 & r2 & _ & _ & Hserve).
  destruct (Hserve (without_g3 RecDemo.final) RecDemo.carries_back) as (r3 & r4 & m & _ & _ & Hm & _ & Hk & _).
  exists r4, m. split; [exact Hm|]. by rewrite (Hk "k" eq_refl).
Defined.
