(* ===== verification/Guard.v ===== *)
(** * The Guard of a pool group

    [_Guard] and [_PoolLease] of [src/src/kvcr/service/guard.py]: one actor thread owns the
    pool's lease, endpoint, core and recovery state; callers reserve a transition under the
    phase lock, put a command in the mailbox and wait for its answer.

    The actor's operations are executed with the other threads' lock sections in between:
    [sync] runs whatever calls other threads make before the next section of the actor.  Every
    call out of the file (sockets, [pidfd], the core, the pool's file) answers as the
    environment of the step says, refusals included. *)

From Stdlib Require Import ZArith Lia.
From S2P Require Import Prelude PyFloat Types Layout State Journal Mirror Snapshot Protocol RecoveryState.

(** ** The core as a Guard uses it

    What the Guard calls of a [_KVCRCore].  The number is the moment of the call: what a core
    does also depends on its peers, its transfers and its threads.  A serving core reads the
    Guard's own set of dead incarnations, at every poll. *)
Class CoreOps (C : Type) := {
  core_new : nat → TierConfig → list PoolDescriptor → result C;
  core_prepare : nat → M C unit;
  core_prepared : nat → C → bool;
  core_failure : nat → C → option exn;
  core_adopt : nat → Records → M C unit;
  core_start : nat → M C unit;
  core_poll : gset string → nat → M C unit;
  core_close : nat → M C unit;
  core_quiescent : nat → C → bool;
  core_records : C → Records }.

(** ** State *)

(** [_Phase] *)
Inductive Phase :=
  | UNCONFIGURED | IDLE | STANDBY | PRIMARY | GUARD_FAILED | CLOSED
  | CLAIMING | RELEASING | PROMOTING.
#[export] Instance Phase_eq_dec : EqDecision Phase.
Proof. solve_decision. Defined.

Notation Address := (string * Z)%type (only parsing).
(** A lease is a pidfd object: a number, with the incarnation its claimant gave. *)
Record Lease := mkLease { le_id : nat; le_incarnation : option string }.
#[export] Instance Lease_eq_dec : EqDecision Lease.
Proof. solve_decision. Defined.
(** [_Command], with the number its future goes by. *)
Inductive Operation :=
  | OpClaim (lease : Lease) (tier : TierConfig) (bind : Address)
  | OpRelease (lease : Lease) | OpAbort (lease : Lease) | OpClose.
Record Command := mkCommand { cmd_id : nat; cmd_op : Operation }.

(** What the Guard observes and does that others can see. *)
Inductive Trace :=
  | Granted_to (l : Lease)       (* a claim's answer *)
  | Asked (l : Lease)            (* its holder's own release or abort is taken up *)
  | SawDeath (l : Lease)         (* the pidfd reported its exit *)
  | Killed (l : Lease)           (* SIGKILL was sent, or there was no process to send it to *)
  | Serves                       (* the core was started on the pool *)
  | Stops                        (* the core was closed *)
  | Refuses                      (* no claim is to be granted any more *)
  | Escalates (e : exn).         (* the service is told of a failure *)

Record Guard (C : Type) := mkGuard {
  gd_phase : Phase;
  gd_reserved : option Phase;
  gd_closing : bool;
  gd_failure : option exn;
  gd_current : option Lease;
  gd_closed_leases : list nat;
  gd_bind_address : option Address;
  gd_dead_incarnations : gset string;
  gd_control : bool;
  gd_configured : option TierConfig;
  gd_recovery : Recov;
  gd_core : option C;
  gd_orphans : list C;
  gd_pending : list Command;
  gd_commands : list Command;
  gd_answers : list (nat * result (list PoolDescriptor));
  gd_next : nat;
  gd_started : bool;
  gd_alive : bool;
  gd_closed : bool;
  gd_serving : bool;
  gd_resumable : bool;
  gd_refusing : bool;
  gd_last_heartbeat : option float;
  gd_fence_failed : option Lease;
  gd_owned : bool;
  gd_trace : list Trace;
  gd_tick : nat }.
#[global] Arguments mkGuard {C}.
#[global] Arguments gd_phase {C}.
#[global] Arguments gd_reserved {C}.
#[global] Arguments gd_closing {C}.
#[global] Arguments gd_failure {C}.
#[global] Arguments gd_current {C}.
#[global] Arguments gd_closed_leases {C}.
#[global] Arguments gd_bind_address {C}.
#[global] Arguments gd_dead_incarnations {C}.
#[global] Arguments gd_control {C}.
#[global] Arguments gd_configured {C}.
#[global] Arguments gd_recovery {C}.
#[global] Arguments gd_core {C}.
#[global] Arguments gd_orphans {C}.
#[global] Arguments gd_pending {C}.
#[global] Arguments gd_commands {C}.
#[global] Arguments gd_answers {C}.
#[global] Arguments gd_next {C}.
#[global] Arguments gd_started {C}.
#[global] Arguments gd_alive {C}.
#[global] Arguments gd_closed {C}.
#[global] Arguments gd_serving {C}.
#[global] Arguments gd_resumable {C}.
#[global] Arguments gd_refusing {C}.
#[global] Arguments gd_last_heartbeat {C}.
#[global] Arguments gd_fence_failed {C}.
#[global] Arguments gd_owned {C}.
#[global] Arguments gd_trace {C}.
#[global] Arguments gd_tick {C}.

Section Setters.
Context {C : Type}.
Definition set_gd_phase (v : Phase) (g : Guard C) : Guard C :=
  mkGuard v (gd_reserved g) (gd_closing g) (gd_failure g) (gd_current g) (gd_closed_leases g) (gd_bind_address g) (gd_dead_incarnations g) (gd_control g) (gd_configured g) (gd_recovery g) (gd_core g) (gd_orphans g) (gd_pending g) (gd_commands g) (gd_answers g) (gd_next g) (gd_started g) (gd_alive g) (gd_closed g) (gd_serving g) (gd_resumable g) (gd_refusing g) (gd_last_heartbeat g) (gd_fence_failed g) (gd_owned g) (gd_trace g) (gd_tick g).
Definition set_gd_reserved (v : option Phase) (g : Guard C) : Guard C :=
  mkGuard (gd_phase g) v (gd_closing g) (gd_failure g) (gd_current g) (gd_closed_leases g) (gd_bind_address g) (gd_dead_incarnations g) (gd_control g) (gd_configured g) (gd_recovery g) (gd_core g) (gd_orphans g) (gd_pending g) (gd_commands g) (gd_answers g) (gd_next g) (gd_started g) (gd_alive g) (gd_closed g) (gd_serving g) (gd_resumable g) (gd_refusing g) (gd_last_heartbeat g) (gd_fence_failed g) (gd_owned g) (gd_trace g) (gd_tick g).
Definition set_gd_closing (v : bool) (g : Guard C) : Guard C :=
  mkGuard (gd_phase g) (gd_reserved g) v (gd_failure g) (gd_current g) (gd_closed_leases g) (gd_bind_address g) (gd_dead_incarnations g) (gd_control g) (gd_configured g) (gd_recovery g) (gd_core g) (gd_orphans g) (gd_pending g) (gd_commands g) (gd_answers g) (gd_next g) (gd_started g) (gd_alive g) (gd_closed g) (gd_serving g) (gd_resumable g) (gd_refusing g) (gd_last_heartbeat g) (gd_fence_failed g) (gd_owned g) (gd_trace g) (gd_tick g).
Definition set_gd_failure (v : option exn) (g : Guard C) : Guard C :=
  mkGuard (gd_phase g) (gd_reserved g) (gd_closing g) v (gd_current g) (gd_closed_leases g) (gd_bind_address g) (gd_dead_incarnations g) (gd_control g) (gd_configured g) (gd_recovery g) (gd_core g) (gd_orphans g) (gd_pending g) (gd_commands g) (gd_answers g) (gd_next g) (gd_started g) (gd_alive g) (gd_closed g) (gd_serving g) (gd_resumable g) (gd_refusing g) (gd_last_heartbeat g) (gd_fence_failed g) (gd_owned g) (gd_trace g) (gd_tick g).
Definition set_gd_current (v : option Lease) (g : Guard C) : Guard C :=
  mkGuard (gd_phase g) (gd_reserved g) (gd_closing g) (gd_failure g) v (gd_closed_leases g) (gd_bind_address g) (gd_dead_incarnations g) (gd_control g) (gd_configured g) (gd_recovery g) (gd_core g) (gd_orphans g) (gd_pending g) (gd_commands g) (gd_answers g) (gd_next g) (gd_started g) (gd_alive g) (gd_closed g) (gd_serving g) (gd_resumable g) (gd_refusing g) (gd_last_heartbeat g) (gd_fence_failed g) (gd_owned g) (gd_trace g) (gd_tick g).
Definition set_gd_closed_leases (v : list nat) (g : Guard C) : Guard C :=
  mkGuard (gd_phase g) (gd_reserved g) (gd_closing g) (gd_failure g) (gd_current g) v (gd_bind_address g) (gd_dead_incarnations g) (gd_control g) (gd_configured g) (gd_recovery g) (gd_core g) (gd_orphans g) (gd_pending g) (gd_commands g) (gd_answers g) (gd_next g) (gd_started g) (gd_alive g) (gd_closed g) (gd_serving g) (gd_resumable g) (gd_refusing g) (gd_last_heartbeat g) (gd_fence_failed g) (gd_owned g) (gd_trace g) (gd_tick g).
Definition set_gd_bind_address (v : option Address) (g : Guard C) : Guard C :=
  mkGuard (gd_phase g) (gd_reserved g) (gd_closing g) (gd_failure g) (gd_current g) (gd_closed_leases g) v (gd_dead_incarnations g) (gd_control g) (gd_configured g) (gd_recovery g) (gd_core g) (gd_orphans g) (gd_pending g) (gd_commands g) (gd_answers g) (gd_next g) (gd_started g) (gd_alive g) (gd_closed g) (gd_serving g) (gd_resumable g) (gd_refusing g) (gd_last_heartbeat g) (gd_fence_failed g) (gd_owned g) (gd_trace g) (gd_tick g).
Definition set_gd_dead_incarnations (v : gset string) (g : Guard C) : Guard C :=
  mkGuard (gd_phase g) (gd_reserved g) (gd_closing g) (gd_failure g) (gd_current g) (gd_closed_leases g) (gd_bind_address g) v (gd_control g) (gd_configured g) (gd_recovery g) (gd_core g) (gd_orphans g) (gd_pending g) (gd_commands g) (gd_answers g) (gd_next g) (gd_started g) (gd_alive g) (gd_closed g) (gd_serving g) (gd_resumable g) (gd_refusing g) (gd_last_heartbeat g) (gd_fence_failed g) (gd_owned g) (gd_trace g) (gd_tick g).
Definition set_gd_control (v : bool) (g : Guard C) : Guard C :=
  mkGuard (gd_phase g) (gd_reserved g) (gd_closing g) (gd_failure g) (gd_current g) (gd_closed_leases g) (gd_bind_address g) (gd_dead_incarnations g) v (gd_configured g) (gd_recovery g) (gd_core g) (gd_orphans g) (gd_pending g) (gd_commands g) (gd_answers g) (gd_next g) (gd_started g) (gd_alive g) (gd_closed g) (gd_serving g) (gd_resumable g) (gd_refusing g) (gd_last_heartbeat g) (gd_fence_failed g) (gd_owned g) (gd_trace g) (gd_tick g).
Definition set_gd_configured (v : option TierConfig) (g : Guard C) : Guard C :=
  mkGuard (gd_phase g) (gd_reserved g) (gd_closing g) (gd_failure g) (gd_current g) (gd_closed_leases g) (gd_bind_address g) (gd_dead_incarnations g) (gd_control g) v (gd_recovery g) (gd_core g) (gd_orphans g) (gd_pending g) (gd_commands g) (gd_answers g) (gd_next g) (gd_started g) (gd_alive g) (gd_closed g) (gd_serving g) (gd_resumable g) (gd_refusing g) (gd_last_heartbeat g) (gd_fence_failed g) (gd_owned g) (gd_trace g) (gd_tick g).
Definition set_gd_recovery (v : Recov) (g : Guard C) : Guard C :=
  mkGuard (gd_phase g) (gd_reserved g) (gd_closing g) (gd_failure g) (gd_current g) (gd_closed_leases g) (gd_bind_address g) (gd_dead_incarnations g) (gd_control g) (gd_configured g) v (gd_core g) (gd_orphans g) (gd_pending g) (gd_commands g) (gd_answers g) (gd_next g) (gd_started g) (gd_alive g) (gd_closed g) (gd_serving g) (gd_resumable g) (gd_refusing g) (gd_last_heartbeat g) (gd_fence_failed g) (gd_owned g) (gd_trace g) (gd_tick g).
Definition set_gd_core (v : option C) (g : Guard C) : Guard C :=
  mkGuard (gd_phase g) (gd_reserved g) (gd_closing g) (gd_failure g) (gd_current g) (gd_closed_leases g) (gd_bind_address g) (gd_dead_incarnations g) (gd_control g) (gd_configured g) (gd_recovery g) v (gd_orphans g) (gd_pending g) (gd_commands g) (gd_answers g) (gd_next g) (gd_started g) (gd_alive g) (gd_closed g) (gd_serving g) (gd_resumable g) (gd_refusing g) (gd_last_heartbeat g) (gd_fence_failed g) (gd_owned g) (gd_trace g) (gd_tick g).
Definition set_gd_orphans (v : list C) (g : Guard C) : Guard C :=
  mkGuard (gd_phase g) (gd_reserved g) (gd_closing g) (gd_failure g) (gd_current g) (gd_closed_leases g) (gd_bind_address g) (gd_dead_incarnations g) (gd_control g) (gd_configured g) (gd_recovery g) (gd_core g) v (gd_pending g) (gd_commands g) (gd_answers g) (gd_next g) (gd_started g) (gd_alive g) (gd_closed g) (gd_serving g) (gd_resumable g) (gd_refusing g) (gd_last_heartbeat g) (gd_fence_failed g) (gd_owned g) (gd_trace g) (gd_tick g).
Definition set_gd_pending (v : list Command) (g : Guard C) : Guard C :=
  mkGuard (gd_phase g) (gd_reserved g) (gd_closing g) (gd_failure g) (gd_current g) (gd_closed_leases g) (gd_bind_address g) (gd_dead_incarnations g) (gd_control g) (gd_configured g) (gd_recovery g) (gd_core g) (gd_orphans g) v (gd_commands g) (gd_answers g) (gd_next g) (gd_started g) (gd_alive g) (gd_closed g) (gd_serving g) (gd_resumable g) (gd_refusing g) (gd_last_heartbeat g) (gd_fence_failed g) (gd_owned g) (gd_trace g) (gd_tick g).
Definition set_gd_commands (v : list Command) (g : Guard C) : Guard C :=
  mkGuard (gd_phase g) (gd_reserved g) (gd_closing g) (gd_failure g) (gd_current g) (gd_closed_leases g) (gd_bind_address g) (gd_dead_incarnations g) (gd_control g) (gd_configured g) (gd_recovery g) (gd_core g) (gd_orphans g) (gd_pending g) v (gd_answers g) (gd_next g) (gd_started g) (gd_alive g) (gd_closed g) (gd_serving g) (gd_resumable g) (gd_refusing g) (gd_last_heartbeat g) (gd_fence_failed g) (gd_owned g) (gd_trace g) (gd_tick g).
Definition set_gd_answers (v : list (nat * result (list PoolDescriptor))) (g : Guard C) : Guard C :=
  mkGuard (gd_phase g) (gd_reserved g) (gd_closing g) (gd_failure g) (gd_current g) (gd_closed_leases g) (gd_bind_address g) (gd_dead_incarnations g) (gd_control g) (gd_configured g) (gd_recovery g) (gd_core g) (gd_orphans g) (gd_pending g) (gd_commands g) v (gd_next g) (gd_started g) (gd_alive g) (gd_closed g) (gd_serving g) (gd_resumable g) (gd_refusing g) (gd_last_heartbeat g) (gd_fence_failed g) (gd_owned g) (gd_trace g) (gd_tick g).
Definition set_gd_next (v : nat) (g : Guard C) : Guard C :=
  mkGuard (gd_phase g) (gd_reserved g) (gd_closing g) (gd_failure g) (gd_current g) (gd_closed_leases g) (gd_bind_address g) (gd_dead_incarnations g) (gd_control g) (gd_configured g) (gd_recovery g) (gd_core g) (gd_orphans g) (gd_pending g) (gd_commands g) (gd_answers g) v (gd_started g) (gd_alive g) (gd_closed g) (gd_serving g) (gd_resumable g) (gd_refusing g) (gd_last_heartbeat g) (gd_fence_failed g) (gd_owned g) (gd_trace g) (gd_tick g).
Definition set_gd_started (v : bool) (g : Guard C) : Guard C :=
  mkGuard (gd_phase g) (gd_reserved g) (gd_closing g) (gd_failure g) (gd_current g) (gd_closed_leases g) (gd_bind_address g) (gd_dead_incarnations g) (gd_control g) (gd_configured g) (gd_recovery g) (gd_core g) (gd_orphans g) (gd_pending g) (gd_commands g) (gd_answers g) (gd_next g) v (gd_alive g) (gd_closed g) (gd_serving g) (gd_resumable g) (gd_refusing g) (gd_last_heartbeat g) (gd_fence_failed g) (gd_owned g) (gd_trace g) (gd_tick g).
Definition set_gd_alive (v : bool) (g : Guard C) : Guard C :=
  mkGuard (gd_phase g) (gd_reserved g) (gd_closing g) (gd_failure g) (gd_current g) (gd_closed_leases g) (gd_bind_address g) (gd_dead_incarnations g) (gd_control g) (gd_configured g) (gd_recovery g) (gd_core g) (gd_orphans g) (gd_pending g) (gd_commands g) (gd_answers g) (gd_next g) (gd_started g) v (gd_closed g) (gd_serving g) (gd_resumable g) (gd_refusing g) (gd_last_heartbeat g) (gd_fence_failed g) (gd_owned g) (gd_trace g) (gd_tick g).
Definition set_gd_closed (v : bool) (g : Guard C) : Guard C :=
  mkGuard (gd_phase g) (gd_reserved g) (gd_closing g) (gd_failure g) (gd_current g) (gd_closed_leases g) (gd_bind_address g) (gd_dead_incarnations g) (gd_control g) (gd_configured g) (gd_recovery g) (gd_core g) (gd_orphans g) (gd_pending g) (gd_commands g) (gd_answers g) (gd_next g) (gd_started g) (gd_alive g) v (gd_serving g) (gd_resumable g) (gd_refusing g) (gd_last_heartbeat g) (gd_fence_failed g) (gd_owned g) (gd_trace g) (gd_tick g).
Definition set_gd_serving (v : bool) (g : Guard C) : Guard C :=
  mkGuard (gd_phase g) (gd_reserved g) (gd_closing g) (gd_failure g) (gd_current g) (gd_closed_leases g) (gd_bind_address g) (gd_dead_incarnations g) (gd_control g) (gd_configured g) (gd_recovery g) (gd_core g) (gd_orphans g) (gd_pending g) (gd_commands g) (gd_answers g) (gd_next g) (gd_started g) (gd_alive g) (gd_closed g) v (gd_resumable g) (gd_refusing g) (gd_last_heartbeat g) (gd_fence_failed g) (gd_owned g) (gd_trace g) (gd_tick g).
Definition set_gd_resumable (v : bool) (g : Guard C) : Guard C :=
  mkGuard (gd_phase g) (gd_reserved g) (gd_closing g) (gd_failure g) (gd_current g) (gd_closed_leases g) (gd_bind_address g) (gd_dead_incarnations g) (gd_control g) (gd_configured g) (gd_recovery g) (gd_core g) (gd_orphans g) (gd_pending g) (gd_commands g) (gd_answers g) (gd_next g) (gd_started g) (gd_alive g) (gd_closed g) (gd_serving g) v (gd_refusing g) (gd_last_heartbeat g) (gd_fence_failed g) (gd_owned g) (gd_trace g) (gd_tick g).
Definition set_gd_refusing (v : bool) (g : Guard C) : Guard C :=
  mkGuard (gd_phase g) (gd_reserved g) (gd_closing g) (gd_failure g) (gd_current g) (gd_closed_leases g) (gd_bind_address g) (gd_dead_incarnations g) (gd_control g) (gd_configured g) (gd_recovery g) (gd_core g) (gd_orphans g) (gd_pending g) (gd_commands g) (gd_answers g) (gd_next g) (gd_started g) (gd_alive g) (gd_closed g) (gd_serving g) (gd_resumable g) v (gd_last_heartbeat g) (gd_fence_failed g) (gd_owned g) (gd_trace g) (gd_tick g).
Definition set_gd_last_heartbeat (v : option float) (g : Guard C) : Guard C :=
  mkGuard (gd_phase g) (gd_reserved g) (gd_closing g) (gd_failure g) (gd_current g) (gd_closed_leases g) (gd_bind_address g) (gd_dead_incarnations g) (gd_control g) (gd_configured g) (gd_recovery g) (gd_core g) (gd_orphans g) (gd_pending g) (gd_commands g) (gd_answers g) (gd_next g) (gd_started g) (gd_alive g) (gd_closed g) (gd_serving g) (gd_resumable g) (gd_refusing g) v (gd_fence_failed g) (gd_owned g) (gd_trace g) (gd_tick g).
Definition set_gd_fence_failed (v : option Lease) (g : Guard C) : Guard C :=
  mkGuard (gd_phase g) (gd_reserved g) (gd_closing g) (gd_failure g) (gd_current g) (gd_closed_leases g) (gd_bind_address g) (gd_dead_incarnations g) (gd_control g) (gd_configured g) (gd_recovery g) (gd_core g) (gd_orphans g) (gd_pending g) (gd_commands g) (gd_answers g) (gd_next g) (gd_started g) (gd_alive g) (gd_closed g) (gd_serving g) (gd_resumable g) (gd_refusing g) (gd_last_heartbeat g) v (gd_owned g) (gd_trace g) (gd_tick g).
Definition set_gd_owned (v : bool) (g : Guard C) : Guard C :=
  mkGuard (gd_phase g) (gd_reserved g) (gd_closing g) (gd_failure g) (gd_current g) (gd_closed_leases g) (gd_bind_address g) (gd_dead_incarnations g) (gd_control g) (gd_configured g) (gd_recovery g) (gd_core g) (gd_orphans g) (gd_pending g) (gd_commands g) (gd_answers g) (gd_next g) (gd_started g) (gd_alive g) (gd_closed g) (gd_serving g) (gd_resumable g) (gd_refusing g) (gd_last_heartbeat g) (gd_fence_failed g) v (gd_trace g) (gd_tick g).
Definition set_gd_trace (v : list Trace) (g : Guard C) : Guard C :=
  mkGuard (gd_phase g) (gd_reserved g) (gd_closing g) (gd_failure g) (gd_current g) (gd_closed_leases g) (gd_bind_address g) (gd_dead_incarnations g) (gd_control g) (gd_configured g) (gd_recovery g) (gd_core g) (gd_orphans g) (gd_pending g) (gd_commands g) (gd_answers g) (gd_next g) (gd_started g) (gd_alive g) (gd_closed g) (gd_serving g) (gd_resumable g) (gd_refusing g) (gd_last_heartbeat g) (gd_fence_failed g) (gd_owned g) v (gd_tick g).
Definition set_gd_tick (v : nat) (g : Guard C) : Guard C :=
  mkGuard (gd_phase g) (gd_reserved g) (gd_closing g) (gd_failure g) (gd_current g) (gd_closed_leases g) (gd_bind_address g) (gd_dead_incarnations g) (gd_control g) (gd_configured g) (gd_recovery g) (gd_core g) (gd_orphans g) (gd_pending g) (gd_commands g) (gd_answers g) (gd_next g) (gd_started g) (gd_alive g) (gd_closed g) (gd_serving g) (gd_resumable g) (gd_refusing g) (gd_last_heartbeat g) (gd_fence_failed g) (gd_owned g) (gd_trace g) v.
End Setters.

(** ** What a Guard runs against *)

(** Constants of the service and of the libraries, and the Guard's own settings. *)
Record Setup := mkSetup {
  su_cap : Z;
  su_granularity : Z;
  su_huge : Z;
  su_sha256 : list Z → list Z;
  su_encode : RecoveryBlock → list Z;
  su_decode : list Z → result RecoveryBlock;
  su_encode_pools : list PoolDescriptor → list Z;
  su_spec : PoolSpec;
  su_digest : string;
  su_sizes : list Z;
  su_heartbeat_timeout : option float }.

(** What other threads ask of a Guard: each is one section under the phase lock, or the [put]
    of a command they have reserved a transition for. *)
Inductive Call :=
  | CallClaim (lease : Lease) (tier : TierConfig) (bind : Address)
  | CallRelease (lease : Lease)
  | CallAbort (lease : Lease)
  | CallHeartbeat (lease : Lease)
  | CallBeginClose
  | CallRefuse
  | CallPut (i : nat).

(** The environment of a step: how each call out of the file answers (by the number of the
    call), and what the other threads do before each section of the actor. *)
Record GuardEnv := mkGuardEnv {
  ge_fails : nat → option exn;          (* sockets, the pool's file *)
  ge_pidfd : nat → option Z;            (* [poller.poll(0)] *)
  ge_kill : nat → option exn;           (* [signal.pidfd_send_signal] *)
  ge_now : nat → float;                 (* [time.monotonic()] *)
  ge_write : nat → WriteOutcome;
  ge_callers : nat → list Call }.

Definition POLLIN : Z := 1.
Definition closed_error : exn := KVCRServiceError "KVCR pool registry is closed".
Definition busy_error : exn := KVCRServiceError "KVCR Guard is busy".
Definition held_error : exn := KVCRServiceError "KVCR Guard is held by another worker".

Section Guard.
Context {C : Type} `{!CoreOps C}.
Context (U : Setup) (E : GuardEnv).
Notation G := (Guard C).

Definition note (t : Trace) : M G unit := modify (λ g, set_gd_trace (gd_trace g ++ [t]) g).
Definition next_tick : M G nat := λ g, (Ret (gd_tick g), set_gd_tick (S (gd_tick g)) g).
(** One call out of the file. *)
Definition ext : M G unit :=
  n ← next_tick;
  match ge_fails E n with None => mret tt | Some e => raise e end.
(** The same, its failure swallowed. *)
Definition ext_suppressed : M G unit := try_except ext (λ _, mret tt).
Definition on_recovery {A} (m : M Recov A) : M G A := λ g,
  let '(a, r) := m (gd_recovery g) in (a, set_gd_recovery r g).

(** [PidfdLiveness.fileno]: a closed pidfd has no descriptor.  No lease has none either. *)
Definition fileno (lease : option Lease) : M G unit :=
  match lease with
  | None => raise (TypeError "NoneType")
  | Some lease =>
      closed ← gets gd_closed_leases;
      if decide (le_id lease ∈ closed) then raise (ValueError "pidfd is closed") else mret tt
  end.
(** [_PoolLease.poll_pidfd] *)
Definition poll_pidfd (lease : option Lease) : M G (option Z) :=
  fileno lease ;;
  n ← next_tick;
  mret (ge_pidfd E n).
(** [PidfdLiveness.close] *)
Definition close_lease (lease : Lease) : M G unit :=
  modify (λ g, set_gd_closed_leases (le_id lease :: gd_closed_leases g) g).
(** [_PoolLease.clear_if_current] *)
Definition clear_if_current (lease : Lease) (g : G) : G :=
  if decide (gd_current g = Some lease) then set_gd_current None g else g.

(** ** The other threads' sections *)

(** [_reserve_claim] *)
Definition reserve_claim : M G unit :=
  g ← get;
  if gd_closing g then raise closed_error else
  match gd_failure g with
  | Some e => raise e
  | None =>
    match gd_reserved g with
    | Some _ => raise busy_error
    | None =>
        if decide (gd_phase g = PRIMARY) then
          flags ← poll_pidfd (gd_current g);
          match flags with
          | None => raise held_error
          | Some _ => raise busy_error
          end
        else if decide (gd_phase g = GUARD_FAILED ∨ gd_phase g = CLOSED) then raise closed_error
        else modify (set_gd_reserved (Some CLAIMING))
    end
  end.
(** The [_Command] a caller is about to put. *)
Definition new_command (op : Operation) : M G unit :=
  modify (λ g, set_gd_pending (gd_pending g ++ [mkCommand (gd_next g) op]) (set_gd_next (S (gd_next g)) g)).
(** [claim], up to the wait *)
Definition claim_pool (lease : Lease) (tier : TierConfig) (bind : Address) : M G unit :=
  reserve_claim ;; new_command (OpClaim lease tier bind).
(** [_end_lease], up to the wait *)
Definition end_lease (lease : Lease) (op : Operation) : M G unit :=
  g ← get;
  if gd_closing g || bool_decide (gd_current g ≠ Some lease) then mret tt else
  (match gd_reserved g with
   | Some PROMOTING => mret tt
   | Some _ => raise busy_error
   | None => modify (set_gd_reserved (Some RELEASING))
   end) ;;
  new_command op.
(** [heartbeat] *)
Definition heartbeat (lease : Lease) : M G unit :=
  g ← get;
  if bool_decide (su_heartbeat_timeout U = None) || bool_decide (gd_current g ≠ Some lease) ||
     gd_serving g || bool_decide (gd_reserved g = Some PROMOTING)
  then mret tt
  else
    n ← next_tick;
    modify (set_gd_last_heartbeat (Some (ge_now E n))).
(** [begin_close], while the actor runs *)
Definition begin_close : M G unit :=
  already ← gets gd_closing;
  modify (set_gd_closing true) ;;
  note Refuses ;;
  if (already : bool) then mret tt else new_command OpClose.
(** [_PoolRegistry.refuse_claims], as the Guard sees it *)
Definition refuse_claims : M G unit := modify (set_gd_refusing true) ;; note Refuses.
(** [self._commands.put(command)] *)
Definition put_command (i : nat) : M G unit :=
  modify (λ g, match gd_pending g !! i with
    | None => g
    | Some c => set_gd_commands (gd_commands g ++ [c])
                  (set_gd_pending (take i (gd_pending g) ++ drop (S i) (gd_pending g)) g)
    end).
Definition caller (call : Call) : M G unit :=
  match call with
  | CallClaim lease tier bind => claim_pool lease tier bind
  | CallRelease lease => end_lease lease (OpRelease lease)
  | CallAbort lease => end_lease lease (OpAbort lease)
  | CallHeartbeat lease => heartbeat lease
  | CallBeginClose => begin_close
  | CallRefuse => refuse_claims
  | CallPut i => put_command i
  end.
(** The actor reaches a section: whatever other threads did before it.  What a caller hears
    goes to its own thread. *)
Definition sync : M G unit :=
  n ← next_tick;
  for_each (ge_callers E n) (λ call, try_except (caller call) (λ _, mret tt)).
(** [with self._phase_lock: f] *)
Definition locked (f : G → G) : M G unit := sync ;; modify f.

(** ** The endpoint *)

(** [_PoolLease.bind]: whether this call made the listener. *)
Definition bind (address : Address) : M G bool :=
  bound ← gets gd_bind_address;
  match bound with
  | Some bound =>
      if decide (bound ≠ address) then raise (KVCRServiceError "KVCR Guard cannot be moved")
      else mret false
  | None =>
      try_except ext (λ e, raise (match e with OSError _ => KVCRServiceError "listener is unavailable" | _ => e end)) ;;
      modify (set_gd_bind_address (Some address)) ;;
      mret true
  end.
(** [_PoolLease.unbind] *)
Definition unbind : M G (option exn) :=
  bound ← gets gd_bind_address;
  modify (set_gd_bind_address None) ;;
  match bound with
  | None => mret None
  | Some _ => try_except (ext ;; mret None) (λ e, mret (Some e))
  end.
(** [_PoolLease.close] *)
Definition lease_close : M G unit :=
  lease ← gets gd_current;
  (match lease with
   | None => mret tt
   | Some lease => close_lease lease ;; modify (clear_if_current lease)
   end) ;;
  bound ← gets gd_bind_address;
  match bound with
  | None => mret tt
  | Some _ => ext ;; modify (set_gd_bind_address None)
  end.
(** [self._control.close()], and [_close_control] *)
Definition control_close : M G unit := ext.
Definition close_control : M G unit :=
  control ← gets gd_control;
  if (control : bool) then control_close ;; modify (set_gd_control false) else mret tt.

(** ** The core *)

Definition with_core {A} (m : M C A) : M G A := λ g,
  match gd_core g with
  | None => (Raise (TypeError "NoneType"), g)
  | Some core => let '(a, core') := m core in (a, set_gd_core (Some core') g)
  end.
(** [core.close()]: what was being served no longer is. *)
Definition stop_core : M G unit :=
  n ← next_tick;
  with_core (core_close n) ;;
  note Stops.
(** [_prepare_core] *)
Definition prepare_core : M G unit :=
  recovery ← gets gd_recovery;
  configured ← gets gd_configured;
  match rv_attached recovery, configured with
  | true, Some tier =>
      n ← next_tick;
      core ← lift (core_new n tier (rv_pools recovery));
      modify (set_gd_core (Some core)) ;;
      n ← next_tick;
      with_core (core_prepare n)
  | _, _ => raise (TypeError "NoneType")
  end.

(** ** Failures *)

(** [_escalate]: the callback may have the service refuse claims. *)
Definition escalate (e : exn) : M G unit := note (Escalates e) ;; ext_suppressed ;; sync.
(** [_fail] *)
Definition fail_guard (e : exn) : M G unit :=
  locked (λ g, set_gd_phase GUARD_FAILED (set_gd_failure (Some e) g)) ;;
  escalate e.
(** [_record_background_failure] *)
Definition record_background_failure (e : exn) : M G unit :=
  locked (λ g, set_gd_phase GUARD_FAILED (set_gd_failure (Some e) g)) ;;
  try_except
    (core ← gets gd_core;
     control ← gets gd_control;
     match core with
     | Some _ => stop_core
     | None => if (control : bool) then control_close else mret tt
     end)
    (λ _, mret tt) ;;
  escalate e.
Definition raise_failure : M G unit :=
  failure ← gets gd_failure;
  match failure with Some e => raise e | None => mret tt end.

(** ** The actor's operations *)

(** The recovery state's operations, at this Guard's settings. *)
Definition recover_configure (layouts : PoolLayouts) : M G unit :=
  on_recovery (configure (su_granularity U) (su_huge U) (su_sha256 U) (su_decode U) (su_encode_pools U)
                 (su_spec U) (su_digest U) (su_sizes U) layouts).
Definition recover_hand_back (records : Records) : M G unit :=
  n ← next_tick;
  on_recovery (recovery_hand_back (su_granularity U) (su_huge U) (su_sha256 U) (su_encode U)
                 (su_encode_pools U) (su_spec U) (su_digest U) (ge_write E n) records).
Definition recover_release : M G unit :=
  n ← next_tick;
  on_recovery (recovery_release (su_cap U) (su_granularity U) (su_huge U) (su_sha256 U) (su_encode U)
                 (su_decode U) (su_encode_pools U) (su_spec U) (su_digest U) (ge_write E n)).

(** [_refuse_incompatible] *)
Definition refuse_incompatible (tier : TierConfig) : M G unit :=
  configured ← gets gd_configured;
  match configured with
  | Some old => if decide (old ≠ tier)
      then raise (RecoveryMirrorError "KVCR pool was claimed with another tier configuration") else mret tt
  | None => mret tt
  end.
(** [_hand_back] *)
Definition hand_back : M G unit :=
  core ← gets gd_core;
  mirror ← gets (rv_mirror ∘ gd_recovery);
  match core, mirror with
  | Some _, Some _ =>
      stop_core ;;
      records ← with_core (gets core_records);
      recover_hand_back records ;;
      modify (set_gd_serving false ∘ set_gd_core None)
  | _, _ => raise (RecoveryMirrorError "a serving Guard has no state to hand back")
  end.
(** [_serve] *)
Definition serve (records : Records) : M G unit :=
  records ← on_recovery (prepare_to_serve records);
  core ← gets gd_core;
  match core with
  | None => raise (RecoveryMirrorError "Guard transport was not prepared")
  | Some _ =>
      n ← next_tick;
      with_core (core_adopt n records) ;;
      n ← next_tick;
      on_recovery (release_region (su_granularity U) (su_huge U) (su_spec U) (ge_fails E n)) ;;
      note Serves ;;
      n ← next_tick;
      with_core (core_start n) ;;
      modify (set_gd_serving true)
  end.
(** [_promote] *)
Definition promote : M G unit :=
  modify (set_gd_resumable false) ;;
  raise_failure ;;
  records ← on_recovery (take_for_promotion (su_cap U) (su_decode U));
  serve records.
(** [_promote_for] *)
Definition promote_for (lease : Lease) : M G unit :=
  try_finally
    (serving ← gets gd_serving;
     if (serving : bool) then mret tt else promote)
    (close_lease lease ;; locked (clear_if_current lease)) ;;
  locked (set_gd_phase STANDBY).

(** [_adopt] *)
Definition adopt_checks (tier : TierConfig) : M G unit :=
  raise_failure ;;
  refuse_incompatible tier ;;
  recover_configure (tc_pool_layouts tier) ;;
  modify (set_gd_configured (Some tier)).
Definition adopt_moves : M G unit :=
  serving ← gets gd_serving;
  (if (serving : bool) then hand_back ;; modify (set_gd_resumable true) else mret tt) ;;
  on_recovery start_primary ;;
  control ← gets gd_control;
  (if (control : bool) then control_close else mret tt) ;;
  modify (set_gd_control true) ;;
  prepare_core.
Definition adopt_primary (tier : TierConfig) : M G unit :=
  try_except (adopt_checks tier) (λ e, control_close ;; raise e) ;;
  try_except adopt_moves
    (λ e, control_close ;; record_background_failure e ;; raise e).

(** [_release] *)
Definition release_primary : M G unit :=
  modify (set_gd_resumable false) ;;
  raise_failure ;;
  serving ← gets gd_serving;
  core ← gets gd_core;
  (if (serving : bool) then
     hand_back ;;
     modify (λ g, set_gd_recovery (set_rv_mirror None (gd_recovery g)) g)
   else
     match core with
     | None => mret tt
     | Some core =>
         n ← next_tick;
         (if core_prepared n core then stop_core ;; modify (set_gd_control false)
          else modify (λ g, set_gd_orphans (gd_orphans g ++ [core]) g)) ;;
         modify (set_gd_core None)
     end) ;;
  mirror ← gets (rv_mirror ∘ gd_recovery);
  (match mirror with None => mret tt | Some _ => recover_release end) ;;
  close_control.

(** [_claim]: the pools it grants. *)
Definition commit_claim (lease : Lease) : M G (option (list PoolDescriptor)) :=
  sync ;;
  g ← get;
  if gd_closing g || gd_refusing g then mret None
  else
    modify (set_gd_phase PRIMARY ∘ set_gd_last_heartbeat None ∘ set_gd_current (Some lease)) ;;
    note (Granted_to lease) ;;
    mret (Some (rv_pools (gd_recovery g))).
Definition claim_error (e : exn) : exn :=
  match e with
  | ValueError msg | RecoveryMirrorError msg => KVCRServiceError msg
  | _ => e
  end.
(** Once [granted_fd] is there. *)
Definition claim_body (lease : Lease) (tier : TierConfig) : M G (list PoolDescriptor) :=
  ext ;;
  try_except ext (λ e, ext ;; raise e) ;;
  adopt_primary tier ;;
  granted ← commit_claim lease;
  match granted with
  | Some pools => mret pools
  | None =>
      release_primary ;;
      locked (set_gd_phase IDLE) ;;
      raise closed_error
  end.
Definition handle_claim (lease : Lease) (tier : TierConfig) (address : Address)
    : M G (list PoolDescriptor) :=
  bound_here ← bind address;
  try_except
    (ext ;;
     try_except (claim_body lease tier) (λ e, ext_suppressed ;; raise e))
    (λ e,
       (if (bound_here : bool) then
          unbind_error ← unbind;
          match unbind_error with Some u => escalate u | None => mret tt end
        else mret tt) ;;
       raise (claim_error e)).

(** [_stand_down] *)
Definition stand_down (lease : Lease) : M G unit :=
  try_finally
    (try_except release_primary (λ e, fail_guard e ;; raise e))
    (close_lease lease ;; locked (clear_if_current lease)) ;;
  locked (set_gd_phase IDLE).
(** [_abort] *)
Definition abort (lease : Lease) : M G unit :=
  g ← get;
  if gd_resumable g && negb (gd_serving g) && bool_decide (is_Some (rv_mirror (gd_recovery g)))
  then try_except (promote_for lease) (λ e, fail_guard e ;; raise e)
  else stand_down lease.

(** ** Between commands *)

(** [_poll]: the orphans that have registered are closed; a failed one stays. *)
Fixpoint poll_orphans (kept todo : list C) : M G unit :=
  match todo with
  | [] => modify (set_gd_orphans kept)
  | orphan :: todo =>
      n ← next_tick;
      if core_prepared n orphan then
        n ← next_tick;
        let '(closed, orphan') := core_close n orphan in
        match closed with
        | Ret _ => poll_orphans kept todo
        | Raise e => modify (set_gd_orphans (kept ++ orphan' :: todo)) ;; raise e
        end
      else poll_orphans (kept ++ [orphan]) todo
  end.
Definition raise_if_failed : M G unit :=
  core ← gets gd_core;
  match core with
  | None => mret tt
  | Some core =>
      n ← next_tick;
      match core_failure n core with Some e => raise e | None => mret tt end
  end.
Definition is_mirror_error (e : exn) : bool :=
  match e with RecoveryMirrorError _ => true | _ => false end.
Definition poll : M G bool :=
  failure ← gets gd_failure;
  match failure with
  | Some _ => mret false
  | None =>
      try_except
        (orphans ← gets gd_orphans;
         poll_orphans [] orphans ;;
         serving ← gets gd_serving;
         if (serving : bool) then
           n ← next_tick;
           dead ← gets gd_dead_incarnations;
           with_core (core_poll dead n) ;;
           mret false
         else
           raise_if_failed ;;
           on_recovery (recovery_poll (su_cap U) (su_decode U)))
        (λ e,
           (if is_mirror_error e then on_recovery invalidate_journal else mret tt) ;;
           record_background_failure e ;;
           mret false)
  end.

(** [_fence_missing_primary]; [ESRCH] is [ProcessLookupError]. *)
Definition ESRCH : Z := 3.
Definition fence_missing_primary (lease : option Lease) : M G bool :=
  try_except
    (fileno lease ;;
     n ← next_tick;
     match ge_kill E n with
     | None => mret true
     | Some e => if decide (e = OSError ESRCH) then mret true else raise e
     end)
    (λ e, match e with
      | OSError _ | ValueError _ => modify (set_gd_fence_failed lease) ;; mret false
      | _ => raise e
      end).

(** [_observe_holder] *)
Definition unobserved (g : G) : bool :=
  bool_decide (gd_reserved g ≠ None) || gd_closing g.
Definition heartbeat_fresh (g : G) (now : float) : bool :=
  match su_heartbeat_timeout U, gd_last_heartbeat g with
  | Some timeout, Some last => fltb (fsub now last) timeout
  | _, _ => true
  end.
(** The second section: whether this death is the actor's to act on. *)
Definition take_promotion (lease : option Lease) (flags : option Z) : M G bool :=
  sync ;;
  n ← next_tick;
  g ← get;
  if bool_decide (gd_current g ≠ lease) || unobserved g then mret false
  else if bool_decide (flags = None) && heartbeat_fresh g (ge_now E n) then mret false
  else modify (set_gd_reserved (Some PROMOTING)) ;; mret true.
Definition promote_missing (lease : option Lease) : M G unit :=
  fenced ← fence_missing_primary lease;
  if (fenced : bool) then
    (match lease with Some lease => note (Killed lease) | None => mret tt end) ;;
    promote ;;
    locked (set_gd_last_heartbeat None)
  else mret tt.
Definition promote_dead (lease : option Lease) (flags : Z) : M G unit :=
  if decide (Z.land flags POLLIN = 0)%Z then raise (OSError 0)
  else
    match lease with
    | None => raise (TypeError "NoneType")
    | Some lease =>
        note (SawDeath lease) ;;
        (match le_incarnation lease with
         | Some incarnation =>
             locked (λ g, set_gd_dead_incarnations ({[incarnation]} ∪ gd_dead_incarnations g) g)
         | None => mret tt
         end) ;;
        promote_for lease
    end.
Definition observe_holder : M G unit :=
  sync ;;
  g ← get;
  if bool_decide (gd_phase g ≠ PRIMARY) || unobserved g then mret tt
  else
    let lease := gd_current g in
    flags ← poll_pidfd lease;
    mine ← take_promotion lease flags;
    if (mine : bool) then
      try_finally
        (try_except
           (match flags with
            | None => promote_missing lease
            | Some flags => promote_dead lease flags
            end)
           fail_guard)
        (locked (set_gd_reserved None))
    else mret tt.

(** ** Closing *)

(** [_close_core] *)
Definition close_core_guarded (core : C) : M G (result unit * C) :=
  n ← next_tick;
  let '(closed, core) := core_close n core in
  n ← next_tick;
  mret (match closed with
    | Ret _ => Ret tt
    | Raise e => if core_quiescent n core then Ret tt else Raise e
    end, core).
Definition or_else (failure : option exn) (r : result unit) : option exn :=
  match failure, r with
  | Some e, _ => Some e
  | None, Raise e => Some e
  | None, Ret _ => None
  end.
Fixpoint close_orphans (failure : option exn) (kept todo : list C) : M G (option exn) :=
  match todo with
  | [] => modify (set_gd_orphans kept) ;; mret failure
  | orphan :: todo =>
      '(closed, orphan') ← close_core_guarded orphan;
      close_orphans (or_else failure closed) (if is_ret closed then kept else kept ++ [orphan']) todo
  end.
Definition close_current_core (failure : option exn) : M G (option exn) :=
  core ← gets gd_core;
  match core with
  | None => mret failure
  | Some core =>
      '(closed, core') ← close_core_guarded core;
      modify (set_gd_core (Some core')) ;;
      (if is_ret closed then note Stops else mret tt) ;;
      mret (or_else failure closed)
  end.
(** Run [m]; keep the first failure. *)
Definition give_back (m : M G unit) (failure : option exn) : M G (option exn) :=
  try_except (m ;; mret failure) (λ e, mret (or_else failure (Raise e))).
Definition recover_close : M G unit :=
  n ← next_tick;
  on_recovery (recovery_close (ge_fails E n)).
Definition raise_option (failure : option exn) : M G unit :=
  match failure with Some e => raise e | None => mret tt end.
(** [_close_resources] *)
Definition close_resources : M G unit :=
  orphans ← gets gd_orphans;
  failure ← close_orphans None [] orphans;
  failure ← close_current_core failure;
  raise_option failure ;;
  failure ← give_back close_control None;
  failure ← give_back recover_close failure;
  failure ← give_back lease_close failure;
  raise_option failure.
(** [_close] *)
Definition close_guard : M G unit :=
  close_resources ;;
  modify (set_gd_closed true) ;;
  locked (set_gd_phase CLOSED).
(** [reclaim_pool] *)
Definition reclaim_pool : M G unit :=
  g ← get;
  if negb (gd_owned g) || rv_attached (gd_recovery g) then mret tt
  else ext ;; modify (set_gd_owned false).

(** ** The actor *)

Definition answer (c : Command) (r : result (list PoolDescriptor)) : M G unit :=
  modify (λ g, set_gd_answers (gd_answers g ++ [(cmd_id c, r)]) g).
(** [self._ops] *)
Definition run_op (op : Operation) : M G (list PoolDescriptor) :=
  match op with
  | OpClaim lease tier address => handle_claim lease tier address
  | OpRelease lease => stand_down lease ;; mret []
  | OpAbort lease => abort lease ;; mret []
  | OpClose => close_guard ;; mret []
  end.
Definition lease_of (op : Operation) : option Lease :=
  match op with OpRelease lease | OpAbort lease => Some lease | _ => None end.
(** A release or an abort of a lease that is no longer the pool's is answered at once. *)
Definition revalidate (op : Operation) : M G bool :=
  match lease_of op with
  | None => mret true
  | Some lease =>
      sync ;;
      g ← get;
      if decide (gd_current g = Some lease)
      then modify (set_gd_reserved (Some RELEASING)) ;; note (Asked lease) ;; mret true
      else mret false
  end.
Definition is_close (op : Operation) : bool := match op with OpClose => true | _ => false end.
(** A command taken off the mailbox; whether the loop goes on. *)
Definition dispatch (c : Command) : M G bool :=
  current ← revalidate (cmd_op c);
  if negb current then answer c (Ret []) ;; mret true
  else
    failed ← try_except
      (r ← run_op (cmd_op c);
       locked (set_gd_reserved None) ;;
       answer c (Ret r) ;;
       mret None)
      (λ e,
         locked (set_gd_reserved None) ;;
         answer c (Raise e) ;;
         mret (Some e));
    if is_close (cmd_op c) then
      (match failed with
       | Some e => locked (λ g, set_gd_phase GUARD_FAILED (set_gd_failure (Some e) g))
       | None => mret tt
       end) ;;
      mret false
    else mret true.
(** One round of [_serve_commands]. *)
Definition serve_round : M G bool :=
  sync ;;
  commands ← gets gd_commands;
  match commands with
  | [] => observe_holder ;; poll ;; mret true
  | c :: rest => modify (set_gd_commands rest) ;; dispatch c
  end.
(** The [finally] of [_run]: whatever is queued is answered, and the thread ends. *)
Definition exit_actor : M G unit :=
  locked (set_gd_closing true) ;;
  note Refuses ;;
  commands ← gets gd_commands;
  for_each commands (λ c, answer c (Raise closed_error)) ;;
  modify (set_gd_alive false ∘ set_gd_commands []).
(** One round of [_run]. *)
Definition actor_turn : M G unit :=
  try_except
    (more ← serve_round;
     if (more : bool) then mret tt else exit_actor)
    (λ e, record_background_failure e ;; exit_actor).

(** ** Its owner's thread *)

(** [start]; [attached] is what mapping the pool's file answers. *)
Definition start_guard (attached : option exn) : M G unit :=
  started ← gets gd_started;
  if (started : bool) then raise (RuntimeError "Guard preparation was already attempted")
  else
    modify (set_gd_started true) ;;
    on_recovery (recovery_prepare attached) ;;
    ext ;;
    modify (set_gd_alive true).
(** [begin_close] when the actor does not run: the resources are closed inline. *)
Definition begin_close_inline : M G unit :=
  modify (set_gd_closing true) ;;
  note Refuses ;;
  closed ← gets gd_closed;
  if (closed : bool) then mret tt else close_resources ;; modify (set_gd_closed true).
(** A command put after the drain is answered by its own thread, which finds the actor gone. *)
Definition answer_racer : M G unit :=
  commands ← gets gd_commands;
  for_each commands (λ c, answer c (Raise closed_error)) ;;
  modify (set_gd_commands []).
End Guard.

(** ** Steps *)

Definition guard_new {C} (owned : bool) (shared : Shared) (file : list Z) : Guard C :=
  mkGuard UNCONFIGURED None false None None [] None ∅ false None (mkRecov [] false None None ∅ shared file)
    None [] [] [] [] 0 false false false false false false None None owned [] 0.

(** The actor's rounds, its owner's calls and the callers' sections, each against its own
    environment. *)
Inductive gstep {C} `{!CoreOps C} (U : Setup) : Guard C → Guard C → Prop :=
  | GStart E attached g : gstep U g (start_guard E attached g).2
  | GTurn E g : gd_alive g = true → gstep U g (actor_turn U E g).2
  | GCall E call g : gstep U g (caller U E call g).2
  | GCloseInline E g : gd_alive g = false → gstep U g (begin_close_inline E g).2
  | GReclaim E g : gd_alive g = false → gstep U g (reclaim_pool E g).2
  | GRacer g : gd_started g = true → gd_alive g = false → gstep U g (answer_racer g).2.
