(* ===== verification/GuardOwn.v ===== *)
(** * Who may write a pool: the abstract contract of a Guard

    The automaton a Guard's observable acts are to follow, and what the operations that neither
    grant, end nor take over a lease leave of the Guard: [drift]. *)

From Stdlib Require Import ZArith Lia.
From S2P Require Import Prelude PyFloat Types Layout State Journal Mirror Snapshot Protocol RecoveryState Guard.

(** ** The contract

    A pool is held by at most one primary; it stops being its holder by asking, or by exiting.
    The Guard serves from the pool only when no primary holds it, or it has killed the one that
    does; nothing is granted while the Guard serves, or once claims are refused. *)
Record Own := mkOwn {
  ow_holder : option Lease;
  ow_killed : bool;
  ow_serving : bool;
  ow_refused : bool }.
Definition own_start : Own := mkOwn None false false false.
Definition own_step (o : Own) (t : Trace) : option Own :=
  match t with
  | Granted_to l =>
      if decide (ow_holder o = None ∧ ow_serving o = false ∧ ow_refused o = false)
      then Some (mkOwn (Some l) false false false) else None
  | Asked l | SawDeath l =>
      if decide (ow_holder o = Some l)
      then Some (mkOwn None false (ow_serving o) (ow_refused o)) else None
  | Killed l =>
      if decide (ow_holder o = Some l)
      then Some (mkOwn (Some l) true (ow_serving o) (ow_refused o)) else None
  | Serves =>
      if decide (ow_serving o = false ∧ (ow_holder o = None ∨ ow_killed o = true))
      then Some (mkOwn (ow_holder o) (ow_killed o) true (ow_refused o)) else None
  | Stops => Some (mkOwn (ow_holder o) (ow_killed o) false (ow_refused o))
  | Refuses => Some (mkOwn (ow_holder o) (ow_killed o) (ow_serving o) true)
  | Escalates _ => Some o
  end.
Fixpoint own_run (o : Own) (l : list Trace) : option Own :=
  match l with
  | [] => Some o
  | t :: l => o ← own_step o t; own_run o l
  end.
Lemma own_run_app o l k : own_run o (l ++ k) = (o' ← own_run o l; own_run o' k).
Proof. revert o. induction l as [|t l IH]; intros o; simpl; [done|]. destruct (own_step o t); simpl; auto. Qed.

(** Acts that change nobody's right to the pool but the Guard's own. *)
Definition idle_act (t : Trace) : Prop :=
  match t with Stops | Refuses | Escalates _ => True | _ => False end.
Lemma own_run_idle o l : Forall idle_act l →
  ∃ o', own_run o l = Some o' ∧ ow_holder o' = ow_holder o ∧ ow_killed o' = ow_killed o ∧
    (ow_serving o' = true → ow_serving o = true ∧ Stops ∉ l) ∧
    (ow_refused o' = true → ow_refused o = true ∨ Refuses ∈ l).
Proof.
  revert o. induction l as [|t l IH]; intros o Hl; simpl.
  { exists o. repeat split; auto. by intros ?%elem_of_nil. }
  apply Forall_cons in Hl as [Ht Hl].
  destruct t; try done; simpl.
  - destruct (IH (mkOwn (ow_holder o) (ow_killed o) false (ow_refused o)) Hl) as (o' & -> & ? & ? & Hs & Hr).
    exists o'. repeat split; try done; [by destruct (Hs H1) | by destruct (Hs H1) |].
    intros [?|?]%Hr; [by left | right; by constructor].
  - destruct (IH (mkOwn (ow_holder o) (ow_killed o) (ow_serving o) true) Hl) as (o' & -> & ? & ? & Hs & Hr).
    exists o'. repeat split; try done; [by destruct (Hs H1) | |].
    + destruct (Hs H1) as [_ Hn]. by intros [?|?]%list.elem_of_cons.
    + intros _. right. by constructor.
  - destruct (IH o Hl) as (o' & -> & ? & ? & Hs & Hr).
    exists o'. repeat split; try done; [by destruct (Hs H1) | |].
    + destruct (Hs H1) as [_ Hn]. by intros [?|?]%list.elem_of_cons.
    + intros [?|?]%Hr; [by left | right; by constructor].
Qed.

(** ** Claims on their way to the actor *)

Definition is_claim (c : Command) : bool := match cmd_op c with OpClaim _ _ _ => true | _ => false end.
Definition claims {C} (g : Guard C) : nat :=
  length (filter (λ c, is_claim c = true) (gd_pending g ++ gd_commands g)).
(** A Guard that failed or closes grants nothing. *)
Definition doomed {C} (g : Guard C) : Prop := gd_failure g ≠ None ∨ gd_closing g = true.
(** With [n] claims being executed: at most one is under way, and then the transition is
    reserved for it and nobody holds the pool, whose phase says so. *)
Definition claims_ok {C} (n : nat) (g : Guard C) : Prop :=
  doomed g ∨
  ((gd_current g ≠ None → gd_phase g = PRIMARY) ∧ n + claims g ≤ 1 ∧
   (0 < n + claims g → gd_reserved g = Some CLAIMING ∧ gd_current g = None ∧ gd_phase g ≠ PRIMARY)).
Definition close_ok {C} (g : Guard C) : Prop :=
  Exists (λ c, is_close (cmd_op c) = true) (gd_pending g ++ gd_commands g) → gd_closing g = true.
(** A heartbeat is only awaited of a primary that does not have the Guard serving in its place. *)
Definition beats_ok {C} (g : Guard C) : Prop :=
  gd_phase g = PRIMARY → gd_last_heartbeat g ≠ None → gd_serving g = false ∨ gd_failure g ≠ None.

(** ** Drift *)

Record drift {C} (g g' : Guard C) : Prop := {
  dr_current : gd_current g' = gd_current g;
  dr_phase : gd_phase g' = gd_phase g;
  dr_failure : gd_failure g' = gd_failure g;
  dr_reserved : gd_reserved g ≠ None → gd_reserved g' = gd_reserved g;
  dr_closing : gd_closing g = true → gd_closing g' = true;
  dr_refusing : gd_refusing g = true → gd_refusing g' = true;
  dr_trace : ∃ l, gd_trace g' = gd_trace g ++ l ∧ Forall idle_act l ∧
    (Refuses ∈ l → gd_closing g' = true ∨ gd_refusing g' = true) ∧
    (gd_serving g' = gd_serving g ∨ (gd_serving g' = false ∧ Stops ∈ l));
  dr_claims n : claims_ok n g → claims_ok n g';
  dr_close : close_ok g → close_ok g';
  dr_beats : beats_ok g → beats_ok g' }.

(** What [dr_trace] asks, when nothing was done. *)
Lemma trace_same {C} (g g' : Guard C) : gd_trace g' = gd_trace g → gd_serving g' = gd_serving g →
  ∃ l, gd_trace g' = gd_trace g ++ l ∧ Forall idle_act l ∧
    (Refuses ∈ l → gd_closing g' = true ∨ gd_refusing g' = true) ∧
    (gd_serving g' = gd_serving g ∨ (gd_serving g' = false ∧ Stops ∈ l)).
Proof.
  intros -> ->. exists []. rewrite app_nil_r. repeat split; auto. by intros ?%elem_of_nil.
Qed.
Lemma drift_refl {C} (g : Guard C) : drift g g.
Proof.
  constructor; auto. exists []. rewrite app_nil_r. repeat split; auto.
  by intros ?%elem_of_nil.
Qed.
Lemma drift_trans {C} (g g1 g2 : Guard C) : drift g g1 → drift g1 g2 → drift g g2.
Proof.
  intros [] []. constructor; auto; try congruence.
  - intros H. rewrite dr_reserved1, dr_reserved0; auto. by rewrite dr_reserved0.
  - destruct dr_trace0 as (l1 & E1 & H1 & R1 & S1), dr_trace1 as (l2 & E2 & H2 & R2 & S2).
    exists (l1 ++ l2). rewrite E2, E1, app_assoc. split; [done|]. split; [by apply Forall_app|].
    split.
    + intros [?|?]%elem_of_app; [|auto]. destruct (R1 H); auto.
    + rewrite !elem_of_app. destruct S1 as [S1|[? ?]], S2 as [S2|[? ?]]; [left | right ..];
        split || idtac; auto; congruence.
Qed.

(** Changes to what the contract does not look at. *)
Lemma drift_same {C} (g g' : Guard C) :
  gd_current g' = gd_current g → gd_phase g' = gd_phase g → gd_failure g' = gd_failure g →
  gd_reserved g' = gd_reserved g → gd_closing g' = gd_closing g → gd_refusing g' = gd_refusing g →
  gd_trace g' = gd_trace g → gd_serving g' = gd_serving g → gd_pending g' = gd_pending g →
  gd_commands g' = gd_commands g → gd_last_heartbeat g' = gd_last_heartbeat g → drift g g'.
Proof.
  intros Ec Ep Ef Er Ecl Erf Et Es Epd Ecm Eh. constructor; try by apply trace_same.
  all: unfold claims_ok, doomed, claims, close_ok, beats_ok;
    by rewrite ?Ec, ?Ep, ?Ef, ?Er, ?Ecl, ?Erf, ?Es, ?Epd, ?Ecm, ?Eh.
Qed.
(** One more act that is the Guard's own. *)
Lemma drift_emit {C} t (g : Guard C) : idle_act t → t ≠ Refuses → drift g (set_gd_trace (gd_trace g ++ [t]) g).
Proof.
  intros Ht Hr. constructor; auto. exists [t]. repeat split; auto.
  by intros Hin%list.list_elem_of_singleton; subst t.
Qed.

(** [m] drifts, however it ends. *)
Definition drifts {C A} (m : M (Guard C) A) : Prop := ∀ g0, preserves (drift g0) m.
Lemma drifts_modify {C} (f : Guard C → Guard C) : (∀ g, drift g (f g)) → drifts (modify f).
Proof. intros Hf g0 g Hg. by eapply drift_trans. Qed.
Lemma drifts_emit {C} t : idle_act t → t ≠ Refuses → drifts (note (C:=C) t).
Proof. intros ? ?. apply drifts_modify. intros g. by apply drift_emit. Qed.
Lemma drifts_on_recovery {C A} (m : M Recov A) : drifts (on_recovery (C:=C) m).
Proof.
  intros g0 g Hg. unfold on_recovery. destruct (m (gd_recovery g)) as [[a|e] r];
    (eapply drift_trans; [exact Hg|]; by apply drift_same).
Qed.
Lemma drifts_on_core {C A} (m : M C A) : drifts (with_core (C:=C) m).
Proof.
  intros g0 g Hg. unfold with_core. destruct (gd_core g) as [core|]; [|done].
  destruct (m core) as [[a|e] core']; (eapply drift_trans; [exact Hg|]; by apply drift_same).
Qed.
Lemma drifts_next_tick {C} : drifts (next_tick (C:=C)).
Proof. intros g0 g Hg. eapply drift_trans; [exact Hg|]. by apply drift_same. Qed.
Lemma drifts_get {C} : drifts (get (S:=Guard C)).
Proof. by intros g0 g Hg. Qed.

Lemma drifts_wp {C A} (m : M (Guard C) A) :
  (∀ g0 g, drift g0 g → wp m (λ _, drift g0) (λ _, drift g0) g) → drifts m.
Proof. done. Qed.
Lemma drifts_use {C A} (m : M (Guard C) A) g0 : drifts m → preserves (drift g0) m.
Proof. auto. Qed.

(** Split an operation into statements that drift. *)
Ltac drift_step :=
  match goal with
  | |- preserves _ (mret _) => apply preserves_ret
  | |- preserves _ (raise _) => apply preserves_raise
  | |- preserves _ (gets _) => apply preserves_gets
  | |- preserves _ (lift _) => apply preserves_lift
  | |- preserves _ get => apply drifts_get
  | |- preserves _ next_tick => apply drifts_next_tick
  | |- preserves _ (on_recovery _) => apply drifts_on_recovery
  | |- preserves _ (with_core _) => apply drifts_on_core
  | |- preserves _ (note _) => apply drifts_emit; done
  | |- preserves _ (modify _) => apply drifts_modify; intros ?; apply drift_same; reflexivity
  | |- preserves _ (_ ≫= _) => apply preserves_bind; [| intros ? ]
  | |- preserves _ (for_each _ _) => apply preserves_for_each; intros ?
  | |- preserves _ (try_except _ _) => apply preserves_try_except; [| intros ? ]
  | |- preserves _ (try_finally _ _) => apply preserves_try_finally
  | |- preserves (drift _) _ => apply drifts_use; solve [eauto 2 with drift nocore]
  | |- _ => case_match
  end.
Ltac drifting := repeat drift_step.
Create HintDb drift discriminated.

Section Drift.
Context {C : Type} `{!CoreOps C} (U : Setup) (E : GuardEnv).
Notation G := (Guard C).
Implicit Types g : G.

Lemma claims_new c g : claims (set_gd_pending (gd_pending g ++ [c]) (set_gd_next (S (gd_next g)) g)) =
  claims g + (if is_claim c then 1 else 0).
Proof.
  unfold claims. simpl. rewrite !filter_app, !length_app.
  unfold filter at 2. simpl. destruct (is_claim c); simpl; lia.
Qed.
Lemma new_command_other op : is_claim (mkCommand 0 op) = false → is_close op = false →
  drifts (new_command (C:=C) op).
Proof.
  intros Hop Hcl. apply drifts_modify. intros g. set (c := mkCommand _ op).
  assert (Hc : is_claim c = false) by done.
  constructor; auto.
  - by apply trace_same.
  - intros n. unfold claims_ok, doomed. rewrite claims_new, Hc. simpl. by rewrite Nat.add_0_r.
  - unfold close_ok. simpl. rewrite !Exists_app, Exists_cons, Exists_nil. simpl. rewrite Hcl.
    intuition congruence.
Qed.
Lemma poll_pidfd_drifts lease : drifts (poll_pidfd (C:=C) E lease).
Proof. intros g0. unfold poll_pidfd, fileno. drifting. Qed.
Hint Resolve poll_pidfd_drifts : drift.

Lemma claim_drifts lease tier address : drifts (claim_pool (C:=C) E lease tier address).
Proof.
  apply drifts_wp. intros g0 g Hg. unfold claim_pool, reserve_claim. apply wp_bind, wp_bind, wp_get.
  destruct (gd_closing g) eqn:Hcl; [by apply wp_raise|].
  destruct (gd_failure g) as [f|] eqn:Hf; [by apply wp_raise|].
  destruct (gd_reserved g) as [r|] eqn:Hr; [by apply wp_raise|].
  case_decide as Hp.
  { apply wp_bind. eapply wp_mono; [apply (poll_pidfd_drifts _ g0 g Hg) | | done].
    intros flags s Hs. by destruct flags; apply wp_raise. }
  case_decide as Hp'; [by apply wp_raise|]. apply wp_modify, wp_modify.
  eapply drift_trans; [exact Hg|].
  set (g1 := set_gd_reserved (Some CLAIMING) g).
  assert (Hc : claims g1 = claims g) by done.
  constructor; auto.
  - by intros ?.
  - by apply trace_same.
  - intros n. unfold claims_ok, doomed. rewrite (claims_new _ g1), Hc. simpl. rewrite Hr, Hf, Hcl.
    intros [[?|?]|(Hcur & Hn & H0)]; [done | done |]. right.
    destruct (decide (0 < n + claims g)) as [Hl|Hl]; [by destruct (H0 Hl)|].
    split_and!; [done | lia |]. intros _. split_and!; [done | | done].
    destruct (gd_current g); [|done]. by destruct Hp; apply Hcur.
  - unfold close_ok. simpl. rewrite !Exists_app, Exists_cons, Exists_nil. simpl. intuition congruence.
Qed.
Lemma end_lease_drifts lease op : op = OpRelease lease ∨ op = OpAbort lease →
  drifts (end_lease (C:=C) lease op).
Proof.
  intros Hop g0 g Hg. unfold end_lease. apply wp_bind, wp_get.
  destruct (gd_closing g || _); [by apply wp_ret|]. apply wp_bind.
  assert (Hnew : drifts (new_command (C:=C) op)) by (apply new_command_other; by destruct Hop; subst).
  destruct (gd_reserved g) as [r|] eqn:Hr.
  - destruct r; try (by apply wp_raise); apply wp_ret; by apply Hnew.
  - apply wp_modify, Hnew. eapply drift_trans; [exact Hg|].
    constructor; auto; [by intros ? | |].
    + by apply trace_same.
    + intros n. unfold claims_ok, doomed. simpl. intros [?|(? & Hn & H0)]; [by left|]. right.
      change (claims (set_gd_reserved (Some RELEASING) g)) with (claims g).
      split_and!; [done..|]. intros Hl. destruct (H0 Hl). congruence.
Qed.
Lemma heartbeat_drifts lease : drifts (heartbeat (C:=C) U E lease).
Proof.
  apply drifts_wp. intros g0 g Hg. unfold heartbeat. apply wp_bind, wp_get.
  destruct (gd_serving g) eqn:Hs; [rewrite orb_true_r; by apply wp_ret|].
  destruct (_ || _); [by apply wp_ret|]. apply wp_bind. unfold wp at 1. simpl. apply wp_modify.
  eapply drift_trans; [exact Hg|]. constructor; auto.
  - by apply trace_same.
  - intros _ _ _. by left.
Qed.
Lemma drift_refuse g f : (∀ g, gd_closing (f g) = true ∨ gd_refusing (f g) = true) →
  drift g (f g) → gd_trace (f g) = gd_trace g →
  drift g (set_gd_trace (gd_trace (f g) ++ [Refuses]) (f g)).
Proof.
  intros Hf [] Ht. constructor; auto. exists [Refuses]. simpl. rewrite Ht.
  split; [done|]. split; [by repeat constructor|]. split; [intros _; apply Hf|].
  destruct dr_trace0 as (l & Hl & _ & _ & [?|[_ Hin]]); [by left|].
  rewrite Ht in Hl. assert (l = []) as ->; [|by apply elem_of_nil in Hin].
  apply (app_inv_head (gd_trace g)). by rewrite app_nil_r.
Qed.
Lemma drift_closes g : drift g (set_gd_trace (gd_trace g ++ [Refuses]) (set_gd_closing true g)).
Proof.
  apply (drift_refuse g (set_gd_closing true)); [by left | | done].
  constructor; auto; [by apply trace_same | intros n _; by left; right | by intros].
Qed.
Lemma begin_close_drifts : drifts (begin_close (C:=C)).
Proof.
  apply drifts_wp. intros g0 g Hg. unfold begin_close, note. wp. simpl.
  match goal with |- wp _ _ _ ?s => set (g1 := s) end.
  assert (H1 : drift g g1) by apply drift_closes.
  destruct (gd_closing g) eqn:Hcl; [apply wp_ret; by eapply drift_trans|].
  apply wp_modify. eapply drift_trans; [exact Hg|]. eapply drift_trans; [exact H1|].
  constructor; auto; [by apply trace_same | intros n _; by left; right | by intros].
Qed.
Lemma refuse_claims_drifts : drifts (refuse_claims (C:=C)).
Proof.
  apply drifts_wp. intros g0 g Hg. unfold refuse_claims, note. wp. eapply drift_trans; [exact Hg|].
  apply (drift_refuse g (set_gd_refusing true)); [by right | | done].
  constructor; auto. by apply trace_same.
Qed.
Lemma put_command_drifts i : drifts (put_command (C:=C) i).
Proof.
  apply drifts_modify. intros g. destruct (gd_pending g !! i) as [c|] eqn:Hi; [|apply drift_refl].
  match goal with |- drift _ ?s => set (g1 := s) end.
  assert (Hp : gd_pending g1 ++ gd_commands g1 ≡ₚ gd_pending g ++ gd_commands g).
  { simpl. rewrite <- (take_drop_middle _ _ _ Hi) at 3. solve_Permutation. }
  constructor; auto.
  - by apply trace_same.
  - intros n. unfold claims_ok, doomed. assert (claims g1 = claims g) as -> by (unfold claims; by rewrite Hp). done.
  - unfold close_ok. by rewrite Hp.
Qed.
Hint Resolve claim_drifts heartbeat_drifts begin_close_drifts refuse_claims_drifts put_command_drifts : drift.
Lemma caller_drifts call : drifts (caller (C:=C) U E call).
Proof.
  destruct call; simpl; eauto with drift; apply end_lease_drifts; auto.
Qed.
Lemma sync_drifts : drifts (sync (C:=C) U E).
Proof.
  intros g0. unfold sync. drifting. apply caller_drifts.
Qed.
Hint Resolve sync_drifts : drift.

(** *** Operations that drift *)

Lemma ext_drifts : drifts (ext (C:=C) E).
Proof. intros g0. unfold ext. drifting. Qed.
Hint Resolve ext_drifts : drift.
Lemma ext_suppressed_drifts : drifts (ext_suppressed (C:=C) E).
Proof. intros g0. unfold ext_suppressed. drifting. Qed.
Lemma bind_drifts address : drifts (bind (C:=C) E address).
Proof. intros g0. unfold bind. drifting. Qed.
Lemma unbind_drifts : drifts (unbind (C:=C) E).
Proof. intros g0. unfold unbind. drifting. Qed.
Lemma close_lease_drifts lease : drifts (close_lease (C:=C) lease).
Proof. intros g0. unfold close_lease. drifting. Qed.
Lemma close_control_drifts : drifts (close_control (C:=C) E).
Proof. intros g0. unfold close_control, control_close. drifting. Qed.
Lemma stop_core_drifts : drifts (stop_core (C:=C)).
Proof. intros g0. unfold stop_core. drifting. Qed.
Lemma prepare_core_drifts : drifts (prepare_core (C:=C)).
Proof. intros g0. unfold prepare_core. drifting. Qed.
Hint Resolve ext_suppressed_drifts bind_drifts unbind_drifts close_lease_drifts close_control_drifts
  stop_core_drifts prepare_core_drifts : drift.
Lemma escalate_drifts e : drifts (escalate (C:=C) U E e).
Proof. intros g0. unfold escalate. drifting. Qed.
Lemma raise_failure_drifts : drifts (raise_failure (C:=C)).
Proof. intros g0. unfold raise_failure. drifting. Qed.
Lemma refuse_incompatible_drifts tier : drifts (refuse_incompatible (C:=C) tier).
Proof. intros g0. unfold refuse_incompatible. drifting. Qed.
Hint Resolve escalate_drifts raise_failure_drifts refuse_incompatible_drifts : drift.
Lemma adopt_checks_drifts tier : drifts (adopt_checks (C:=C) U tier).
Proof. intros g0. unfold adopt_checks, recover_configure. drifting. Qed.
Lemma poll_orphans_drifts kept todo : drifts (poll_orphans (C:=C) kept todo).
Proof.
  revert kept. induction todo as [|orphan todo IH]; intros kept g0; simpl; drifting; by apply IH.
Qed.
Lemma raise_if_failed_drifts : drifts (raise_if_failed (C:=C)).
Proof. intros g0. unfold raise_if_failed. drifting. Qed.
Lemma fence_drifts lease : drifts (fence_missing_primary (C:=C) E lease).
Proof. intros g0. unfold fence_missing_primary, fileno. drifting. Qed.
Lemma answer_drifts c r : drifts (answer (C:=C) c r).
Proof. intros g0. unfold answer. drifting. Qed.
Hint Resolve adopt_checks_drifts poll_orphans_drifts raise_if_failed_drifts fence_drifts answer_drifts : drift.

Lemma close_orphans_drifts failure kept todo : drifts (close_orphans (C:=C) failure kept todo).
Proof.
  revert failure kept. induction todo as [|orphan todo IH]; intros failure kept g0; simpl;
    unfold close_core_guarded; drifting; apply IH.
Qed.
Lemma close_current_core_drifts failure : drifts (close_current_core (C:=C) failure).
Proof. intros g0. unfold close_current_core, close_core_guarded. drifting. Qed.
Lemma raise_option_drifts failure : drifts (raise_option (C:=C) failure).
Proof. intros g0. unfold raise_option. drifting. Qed.
Lemma recover_close_drifts : drifts (recover_close (C:=C) E).
Proof. intros g0. unfold recover_close. drifting. Qed.
Lemma give_back_drifts (m : M G unit) failure : drifts m → drifts (give_back m failure).
Proof. intros Hm g0. unfold give_back. drifting. Qed.
Hint Resolve close_orphans_drifts close_current_core_drifts raise_option_drifts recover_close_drifts
  give_back_drifts : drift.

(** The serving core has been closed since [g0]. *)
Definition stopped (g0 g : G) : Prop :=
  drift g0 g ∧ ∃ l, gd_trace g = gd_trace g0 ++ l ∧ Stops ∈ l.
Lemma stopped_drift g0 g g' : stopped g0 g → drift g g' → stopped g0 g'.
Proof.
  intros [Hd (l & Hl & Hin)] Hd'. split; [by eapply drift_trans|].
  destruct Hd' as [_ _ _ _ _ _ (l' & Hl' & _) _ _ _]. exists (l ++ l').
  rewrite Hl', Hl, app_assoc. split; [done|]. apply elem_of_app. by left.
Qed.
Lemma stopped_drifts g0 g : stopped g0 g → drift g0 g.
Proof. by intros []. Qed.
(** What drifts carries [stopped] along. *)
Lemma drifts_stopped {A} (m : M G A) g0 : drifts m → preserves (stopped g0) m.
Proof.
  intros Hm g Hg. specialize (Hm g g (drift_refl g)).
  destruct (m g) as [[a|e] g']; by eapply stopped_drift.
Qed.
Lemma stopped_serving g0 g : stopped g0 g → drift g0 (set_gd_core None (set_gd_serving false g)).
Proof.
  intros [[] (l & Hl & Hin)]. constructor; auto.
  - destruct dr_trace0 as (l' & Hl' & ? & ? & _). exists l'. repeat split; auto. right. split; [done|].
    rewrite Hl in Hl'. by apply (app_inv_head (gd_trace g0)) in Hl' as ->.
  - intros _ _ _. by left.
Qed.
Lemma hand_back_spec g :
  wp (hand_back U E) (λ _ g', drift g g' ∧ gd_serving g' = false) (λ _, drift g) g.
Proof.
  pose proof (drift_refl g) as Hg. unfold hand_back. wp.
  destruct (gd_core g); [|by apply wp_raise]. unfold compose.
  destruct (rv_mirror (gd_recovery g)); [|by apply wp_raise].
  apply wp_bind. unfold stop_core, note. wp.
  eapply wp_use with (P := drift g); [apply drifts_next_tick | done | | done].
  intros n s1 H1. apply wp_bind. eapply wp_use with (P := drift g); [apply drifts_on_core | done | | done].
  intros [] s2 H2. wp.
  eapply wp_use with (P := stopped g); [apply drifts_stopped, drifts_on_core | | | intros ? ?; apply stopped_drifts].
  { split; [eapply drift_trans; [exact H2 | by apply drift_emit]|].
    destruct H2 as [_ _ _ _ _ _ (l & Hl & _) _ _ _]. exists (l ++ [Stops]). simpl.
    rewrite Hl, app_assoc. split; [done|]. apply elem_of_app. right. by constructor. }
  intros records s3 H3. apply wp_bind. unfold recover_hand_back.
  eapply wp_use with (P := stopped g); [| exact H3 | | intros ? ?; apply stopped_drifts].
  { apply drifts_stopped. intros g1. drifting. }
  intros [] s4 H4. apply wp_modify. split; [by apply stopped_serving | done].
Qed.
Lemma hand_back_drifts : drifts (hand_back (C:=C) U E).
Proof.
  apply drifts_wp. intros g0 g Hg. eapply wp_mono; [apply hand_back_spec | |].
  - intros _ g' [H _]. by eapply drift_trans.
  - intros e g' H. by eapply drift_trans.
Qed.
Hint Resolve hand_back_drifts : drift.
Lemma adopt_moves_drifts : drifts (adopt_moves (C:=C) U E).
Proof. intros g0. unfold adopt_moves, control_close. drifting. Qed.
Lemma release_drifts : drifts (release_primary (C:=C) U E).
Proof. intros g0. unfold release_primary, recover_release. drifting. Qed.
Hint Resolve adopt_moves_drifts release_drifts : drift.
End Drift.
#[export] Hint Resolve poll_pidfd_drifts claim_drifts heartbeat_drifts begin_close_drifts refuse_claims_drifts put_command_drifts caller_drifts sync_drifts ext_drifts ext_suppressed_drifts bind_drifts unbind_drifts close_lease_drifts close_control_drifts stop_core_drifts prepare_core_drifts escalate_drifts raise_failure_drifts refuse_incompatible_drifts adopt_checks_drifts poll_orphans_drifts raise_if_failed_drifts fence_drifts answer_drifts close_orphans_drifts close_current_core_drifts raise_option_drifts recover_close_drifts hand_back_drifts adopt_moves_drifts release_drifts give_back_drifts : drift.
