(* ===== verification/GuardSafe.v ===== *)
(** * A Guard keeps its contract

    Every act of a reachable Guard is one the contract of [GuardOwn] allows, whatever its
    environment answers and however other threads' sections fall between its own. *)

From Stdlib Require Import ZArith Lia.
From S2P Require Import Prelude PyFloat Types Layout State Journal Mirror Snapshot Protocol RecoveryState Guard GuardOwn.

(** ** Where an operation stands *)

(** The pool's lease, who holds it by the acts so far, whether that one was killed, how many
    claims are being executed, which transition is reserved (when it matters); and whether what
    ties the Guard's serving, heartbeats and lease to the acts holds at this point. *)
Record At := mkAt {
  a_cur : option Lease;
  a_hold : option Lease;
  a_kill : bool;
  a_n : nat;
  a_serves : bool;
  a_beats : bool;
  a_res : option Phase;
  a_link : bool }.

Record Inv {C} (a : At) (g : Guard C) : Prop := {
  inv_cur : gd_current g = a_cur a;
  inv_own : ∃ o, own_run own_start (gd_trace g) = Some o ∧ ow_holder o = a_hold a ∧
    (a_kill a = true → ow_killed o = true) ∧
    (ow_refused o = true → gd_closing g = true ∨ gd_refusing g = true) ∧
    (a_serves a = true → ow_serving o = true → gd_serving g = true ∨ gd_failure g ≠ None);
  inv_claims : claims_ok (a_n a) g;
  inv_close : close_ok g;
  inv_beats : a_beats a = true → beats_ok g;
  inv_res : a_res a ≠ None → gd_reserved g = a_res a;
  inv_link : a_link a = true → a_hold a = a_cur a ∨ (a_cur a = None ∧ gd_closing g = true) }.

(** Between the actor's rounds. *)
Definition at_rest (c h : option Lease) : At := mkAt c h false 0 true true None true.
Definition Rest {C} (g : Guard C) : Prop := ∃ c h, Inv (at_rest c h) g.

Section Safe.
Context {C : Type} `{!CoreOps C} (U : Setup).
Notation G := (Guard C).
Implicit Types (g : G) (E : GuardEnv) (a : At).

Lemma inv_drift a g g' : Inv a g → drift g g' → Inv a g'.
Proof.
  intros [Ic (o & Ho & Hh & Hk & Hr & Hs) Icl Ico Ib Ir Il] [].
  constructor; auto; [congruence | | |].
  - destruct dr_trace as (l & Hl & Hid & Hre & Hse).
    destruct (own_run_idle o l Hid) as (o' & Ho' & Hh' & Hk' & Hs' & Hr').
    exists o'. rewrite Hl, own_run_app, Ho. simpl. split_and!; [done | congruence | | |].
    + intros ?. rewrite Hk'. auto.
    + intros [H|H]%Hr'; [|auto]. destruct (Hr H); auto.
    + intros Ha Hso. destruct (Hs' Hso) as [Hso' Hn]. rewrite dr_failure.
      destruct Hse as [->|[_ ?]]; [auto | done].
  - intros H. rewrite dr_reserved; auto. intros He. rewrite (Ir H) in He. auto.
  - intros H. destruct (Il H) as [|[? ?]]; auto.
Qed.
Lemma drifts_inv {A} a (m : M G A) : drifts m → triple (Inv a) m (λ _, Inv a) (λ _, Inv a).
Proof.
  intros Hm g Hg. specialize (Hm g g (drift_refl g)). destruct (m g) as [[x|e] g']; by eapply inv_drift.
Qed.

Lemma wp_drift {A} (m : M G A) Q Ex g :
  drifts m → (∀ x g', drift g g' → Q x g') → (∀ e g', drift g g' → Ex e g') → wp m Q Ex g.
Proof. intros Hm HQ HE. eapply wp_use with (P := drift g); [apply Hm | apply drift_refl | auto | auto]. Qed.
(** Nothing failed, and the Guard does not serve. *)
Definition idle g : Prop := gd_failure g = None ∧ gd_serving g = false.
Lemma drift_idle g g' : drift g g' → idle g → idle g'.
Proof.
  intros [_ _ Hf _ _ _ (l & _ & _ & _ & Hs) _ _ _] [? ?]. split; [congruence|].
  destruct Hs as [->|[? _]]; done.
Qed.
Lemma sync_wp E a Q Ex g : Inv a g → (∀ g', drift g g' → Inv a g' → Q tt g') → wp (sync U E) Q Ex g.
Proof.
  intros Hg HQ. unfold sync. apply wp_bind. unfold wp at 1. simpl.
  eapply (wp_for_each _ _ (λ _ g', drift g g' ∧ Inv a g')).
  - split; [by apply drift_same|]. eapply inv_drift; [exact Hg | by apply drift_same].
  - intros call r g' [Hd Hi]. apply wp_try_except. eapply wp_drift; [apply caller_drifts | |].
    + intros [] g'' Hd'. split; [by eapply drift_trans | by eapply inv_drift].
    + intros e g'' Hd'. apply wp_ret. split; [by eapply drift_trans | by eapply inv_drift].
  - intros g' [Hd Hi]. auto.
Qed.
Lemma locked_wp E a f Q Ex g : Inv a g → (∀ g', drift g g' → Inv a g' → Q tt (f g')) → wp (locked U E f) Q Ex g.
Proof. intros Hg HQ. unfold locked. apply wp_bind. eapply sync_wp; [done|]. intros. apply wp_modify. auto. Qed.

(** ** Failures *)

(** A Guard that failed has nothing left to promise but who holds the pool. *)
Lemma inv_fail a n g e : Inv a g →
  Inv (mkAt (a_cur a) (a_hold a) (a_kill a) n true true (a_res a) (a_link a))
    (set_gd_phase GUARD_FAILED (set_gd_failure (Some e) g)).
Proof.
  intros [Ic (o & Ho & Hh & Hk & Hr & Hs) Icl Ico Ib Ir Il]. constructor; simpl; auto.
  - exists o. split_and!; auto; by right.
  - by left; left.
  - by intros _ ?.
Qed.
Definition failed g : Prop := gd_failure g ≠ None.
Lemma drift_failed g g' : drift g g' → failed g → failed g'.
Proof. unfold failed. by intros [_ _ -> _ _ _ _ _ _ _]. Qed.
Definition at_failed a : At :=
  mkAt (a_cur a) (a_hold a) (a_kill a) (a_n a) true true (a_res a) (a_link a).
Lemma escalate_wp E a e Q Ex g : Inv a g → (∀ g', drift g g' → Inv a g' → Q tt g') → wp (escalate U E e) Q Ex g.
Proof.
  intros Hg HQ. unfold escalate, note. apply wp_bind, wp_modify, wp_bind.
  assert (Hd : drift g (set_gd_trace (gd_trace g ++ [Escalates e]) g)) by by apply drift_emit.
  assert (∀ g', drift g g' → wp (sync U E) Q Ex g') as Hsync.
  { intros g' Hd'. eapply sync_wp; [by eapply inv_drift|].
    intros g'' Hd'' ?. apply HQ; [by eapply drift_trans | done]. }
  apply wp_try_except. eapply wp_drift; [apply ext_drifts | |].
  - intros [] g' Hd'. apply Hsync. by eapply drift_trans.
  - intros e' g' Hd'. apply wp_ret, Hsync. by eapply drift_trans.
Qed.
Lemma fail_guard_wp E a e Q Ex g : Inv a g →
  (∀ g', Inv (at_failed a) g' → failed g' → Q tt g') → wp (fail_guard U E e) Q Ex g.
Proof.
  intros Hg HQ. unfold fail_guard. apply wp_bind. eapply locked_wp; [done|]. intros g' _ Hg'.
  eapply escalate_wp; [by apply (inv_fail a (a_n a))|]. intros g'' Hd Hi. apply HQ; [done|].
  by eapply drift_failed.
Qed.
Lemma record_background_failure_wp E a e Q Ex g : Inv a g →
  (∀ g', Inv (at_failed a) g' → failed g' → Q tt g') → wp (record_background_failure U E e) Q Ex g.
Proof.
  intros Hg HQ. unfold record_background_failure. apply wp_bind. eapply locked_wp; [done|]. intros g' _ Hg'.
  set (g1 := set_gd_phase _ _). assert (H1 : Inv (at_failed a) g1) by by apply (inv_fail a (a_n a)).
  assert (∀ g2, drift g1 g2 → wp (escalate U E e) Q Ex g2) as Hesc.
  { intros g2 Hd. eapply escalate_wp; [by eapply inv_drift|]. intros g'' Hd' Hi. apply HQ; [done|].
    eapply drift_failed; [exact Hd'|]. by eapply drift_failed. }
  apply wp_bind, wp_try_except. eapply wp_drift; [| |].
  - intros g0. unfold control_close. drifting.
  - intros [] g2 Hd. by apply Hesc.
  - intros e' g2 Hd. by apply wp_ret, Hesc.
Qed.

(** ** Serving *)

Lemma serve_wp E a records Q Ex g : Inv a g → a_serves a = true → idle g →
  (a_hold a = None ∨ a_kill a = true) →
  (∀ g', Inv (mkAt (a_cur a) (a_hold a) (a_kill a) (a_n a) true false (a_res a) (a_link a)) g' → Q tt g') →
  (∀ e g', Inv (mkAt (a_cur a) (a_hold a) (a_kill a) (a_n a) false false (a_res a) (a_link a)) g' → Ex e g') →
  wp (serve U E records) Q Ex g.
Proof.
  intros Hg Hsv Hid Hh HQ HE.
  assert (Hweak : ∀ g', Inv a g' → Inv (mkAt (a_cur a) (a_hold a) (a_kill a) (a_n a) false false (a_res a) (a_link a)) g').
  { intros g' [? (o & ? & ? & ? & ? & _) ? ? _ ? ?]. constructor; auto; [|done]. exists o. by split_and!. }
  assert (Hex : ∀ e g', drift g g' → Ex e g') by (intros e g' Hd; by eapply HE, Hweak, inv_drift).
  unfold serve. apply wp_bind. eapply wp_drift; [apply drifts_on_recovery | | by auto].
  intros records' g1 H1. apply wp_bind, wp_gets. destruct (gd_core g1); [|by apply wp_raise, Hex].
  apply wp_bind. eapply wp_drift; [apply drifts_next_tick | | intros; by eapply Hex, drift_trans].
  intros n g2 H2. apply (drift_trans _ _ _ H1) in H2. clear H1.
  apply wp_bind. eapply wp_drift; [apply drifts_on_core | | intros; by eapply Hex, drift_trans].
  intros [] g3 H3. apply (drift_trans _ _ _ H2) in H3. clear H2.
  apply wp_bind. eapply wp_drift; [apply drifts_next_tick | | intros; by eapply Hex, drift_trans].
  intros n' g4 H4. apply (drift_trans _ _ _ H3) in H4. clear H3.
  apply wp_bind. eapply wp_drift; [apply drifts_on_recovery | | intros; by eapply Hex, drift_trans].
  intros [] g5 H5. apply (drift_trans _ _ _ H4) in H5. clear H4.
  pose proof (inv_drift _ _ _ Hg H5) as Hi5. pose proof (drift_idle _ _ H5 Hid) as [Hf5 Hs5].
  unfold note. apply wp_bind, wp_modify, wp_bind.
  set (g6 := set_gd_trace _ _).
  assert (Inv (mkAt (a_cur a) (a_hold a) (a_kill a) (a_n a) false false (a_res a) (a_link a)) g6) as H6.
  { destruct Hi5 as [? (o & Ho & Hoh & Hok & Hor & Hos) ? ? _ ? ?]. constructor; auto; [|done].
    exists (mkOwn (ow_holder o) (ow_killed o) true (ow_refused o)). simpl.
    rewrite own_run_app, Ho. simpl. rewrite decide_True; [by split_and!|]. split; [|destruct Hh; [left; congruence | right; auto]].
    destruct (ow_serving o); [|done]. destruct (Hos Hsv eq_refl); congruence. }
  eapply wp_drift; [apply drifts_next_tick | | intros; by eapply HE, inv_drift].
  intros n'' g7 H7%(inv_drift _ _ _ H6). apply wp_bind.
  eapply wp_drift; [apply drifts_on_core | | intros; by eapply HE, inv_drift].
  intros [] g8 H8%(inv_drift _ _ _ H7). apply wp_modify, HQ.
  destruct H8 as [? (o & ? & ? & ? & ? & _) ? ? _ ? ?]. constructor; auto; [|done].
  exists o. by split_and!; auto.
Qed.

(** The Guard's own flags, weakened. *)
Lemma inv_weaken a a' g : Inv a g → a_cur a' = a_cur a → a_hold a' = a_hold a → a_n a' = a_n a →
  (a_kill a' = true → a_kill a = true) → (a_serves a' = true → a_serves a = true) →
  (a_beats a' = true → a_beats a = true) → (a_res a' = None ∨ a_res a' = a_res a) →
  (a_link a' = true → a_link a = true) → Inv a' g.
Proof.
  intros [? (o & ? & ? & ? & ? & ?) ? ? ? ? ?] Ec Eh En Ek Es Eb Er El.
  constructor; rewrite ?Ec, ?Eh, ?En; auto; [| by destruct Er as [->| ->]].
  exists o. split_and!; auto.
Qed.
(** Taking the pool over: the records are there or not, the core answers in the end. *)
Lemma promote_wp E a Q Ex g : Inv a g → a_serves a = true → gd_serving g = false ∨ failed g →
  (a_hold a = None ∨ a_kill a = true) →
  (∀ g', Inv (mkAt (a_cur a) (a_hold a) (a_kill a) (a_n a) true false (a_res a) (a_link a)) g' → Q tt g') →
  (∀ e g', Inv (mkAt (a_cur a) (a_hold a) (a_kill a) (a_n a) false false (a_res a) (a_link a)) g' → Ex e g') →
  wp (promote U E) Q Ex g.
Proof.
  intros Hg Hsv Hs Hh HQ HE. unfold promote. apply wp_bind, wp_modify.
  assert (Hex : ∀ e g', Inv a g' → Ex e g') by (intros; eapply HE, inv_weaken; try done; by right).
  set (g1 := set_gd_resumable false g).
  assert (H1 : Inv a g1) by (eapply inv_drift; [exact Hg | by apply drift_same]).
  apply wp_bind. unfold raise_failure. wp. destruct (gd_failure g1) eqn:Hf; [by apply wp_raise, Hex|].
  assert (gd_serving g1 = false) by by destruct Hs.
  apply wp_ret, wp_bind. eapply wp_drift; [apply drifts_on_recovery | | intros; by eapply Hex, inv_drift].
  intros records g2 H2. eapply serve_wp; eauto using inv_drift. by apply (drift_idle g1).
Qed.

(** ** Ending a lease *)

Definition at_cleared a : At :=
  mkAt None (a_hold a) (a_kill a) (a_n a) (a_serves a) (a_beats a) (a_res a) false.
Lemma inv_clear a g : Inv a g → Inv (at_cleared a) (set_gd_current None g).
Proof.
  intros [Hc ? Hcl ? ? ? ?]. constructor; auto; [|done]. simpl.
  destruct Hcl as [Hd|(? & ? & Hz)]; [by left|]. right. split; [done|]. split; [done|].
  intros Hl. by destruct (Hz Hl) as (? & ? & ?).
Qed.
(** The lease is closed, and the pool's no more. *)
Lemma drop_lease_wp E a lease Q Ex g : Inv a g → a_cur a = Some lease ∨ a_cur a = None →
  (∀ g', Inv (at_cleared a) g' → Q tt g') →
  wp (close_lease lease ;; locked U E (clear_if_current lease)) Q Ex g.
Proof.
  intros Hg Hc HQ. apply wp_bind, wp_modify.
  eapply locked_wp; [eapply inv_drift; [exact Hg | by apply drift_same]|]. intros g2 Hd Hi. apply HQ.
  unfold clear_if_current. destruct Hc as [Hc|Hc].
  - rewrite decide_True by (by rewrite (inv_cur _ _ Hi)). by apply inv_clear.
  - rewrite decide_False by (by rewrite (inv_cur _ _ Hi), Hc). eapply inv_weaken; try done. by right.
Qed.
(** A pool nobody holds comes to rest: the Guard no longer waits for heartbeats. *)
Lemma inv_free a p g : Inv a g → a_cur a = None → p ≠ PRIMARY → a_serves a = true →
  Inv (mkAt None (a_hold a) (a_kill a) (a_n a) true true (a_res a) (a_link a)) (set_gd_phase p g).
Proof.
  intros [Hc (o & ? & ? & ? & ? & Hs) Hcl ? ? ? Hl] Hn Hp Hsv. constructor; simpl; auto; [congruence | | | | by rewrite Hn in Hl].
  - exists o. split_and!; auto.
  - destruct Hcl as [Hd|(? & ? & Hz)]; [by left|]. right. split; [simpl; congruence|]. split; [done|].
    intros Hlt. by destruct (Hz Hlt) as (? & ? & ?).
  - intros _ ?. done.
Qed.

(** Where a lease's end leaves the Guard: nobody holds the pool. *)
Definition ended (n : nat) (r : option Phase) : At := mkAt None None false n true true r true.
(** While it ends: the lease is still the pool's. *)
Definition ending (c : option Lease) (n : nat) (sv bt : bool) (r : option Phase) : At :=
  mkAt c None false n sv bt r false.
Lemma inv_ended a g : Inv a g → a_cur a = None → a_hold a = None → a_serves a = true → a_beats a = true →
  Inv (ended (a_n a) (a_res a)) g.
Proof.
  intros [Hc (o & ? & Hh & ? & ? & ?) ? ? ? ? ?] Ec Eh Es Eb. constructor; simpl; auto; [congruence|].
  exists o. split_and!; auto; congruence.
Qed.

Lemma promote_for_wp E lease n r Q Ex g : Inv (ending (Some lease) n true true r) g →
  (∀ g', Inv (ended n r) g' → Q tt g') →
  (∀ e g', Inv (ending None n false false r) g' → Ex e g') →
  wp (promote_for U E lease) Q Ex g.
Proof.
  intros Hg HQ HE. unfold promote_for. apply wp_bind, wp_try_finally.
  assert (Hdone : ∀ b g', Inv (ending (Some lease) n true b r) g' →
    wp (close_lease lease ;; locked U E (clear_if_current lease))
      (λ _ s, wp (locked U E (set_gd_phase STANDBY)) Q Ex s) Ex g').
  { intros b g' Hi. eapply drop_lease_wp; [exact Hi | by left|]. intros g2 H2.
    eapply locked_wp; [exact H2|]. intros g3 _ H3. apply HQ.
    by apply (inv_ended _ _ (inv_free _ STANDBY _ H3 eq_refl ltac:(done) eq_refl)). }
  apply wp_bind, wp_gets. destruct (gd_serving g) eqn:Hs; [by eapply wp_ret, Hdone|].
  eapply promote_wp; [exact Hg | done | by left | by left | |].
  - intros g' Hi. by eapply Hdone.
  - intros e g' Hi. eapply drop_lease_wp; [exact Hi | by left|]. auto.
Qed.

Lemma stand_down_wp E lease n r Q Ex g : Inv (ending (Some lease) n true true r) g →
  (∀ g', Inv (ended n r) g' → Q tt g') → (∀ e g', Inv (ended n r) g' → Ex e g') →
  wp (stand_down U E lease) Q Ex g.
Proof.
  intros Hg HQ HE. unfold stand_down. apply wp_bind, wp_try_finally, wp_try_except.
  eapply wp_drift; [eauto with drift | |].
  - intros [] g' Hd. eapply drop_lease_wp; [by eapply inv_drift | by left|]. intros g2 H2.
    eapply locked_wp; [exact H2|]. intros g3 _ H3. apply HQ.
    by apply (inv_ended _ _ (inv_free _ IDLE _ H3 eq_refl ltac:(done) eq_refl)).
  - intros e g' Hd. apply wp_bind. eapply fail_guard_wp; [by eapply inv_drift|]. intros g2 H2 _.
    apply wp_raise. eapply drop_lease_wp; [exact H2 | by left|]. intros g3 H3. apply HE.
    by apply (inv_ended _ _ H3).
Qed.
Lemma abort_wp E lease n r Q Ex g : Inv (ending (Some lease) n true true r) g →
  (∀ g', Inv (ended n r) g' → Q tt g') → (∀ e g', Inv (ended n r) g' → Ex e g') →
  wp (abort U E lease) Q Ex g.
Proof.
  intros Hg HQ HE. unfold abort. apply wp_bind, wp_get. destruct (_ && _); [|by eapply stand_down_wp].
  apply wp_try_except. eapply promote_for_wp; [exact Hg | exact HQ|]. intros e g' Hi.
  apply wp_bind. eapply fail_guard_wp; [exact Hi|]. intros g2 H2 _. apply wp_raise, HE.
  by apply (inv_ended _ _ H2).
Qed.

(** ** Claims *)

(** A claim being executed, with the lease and the holder it found. *)
Definition claiming (c h : option Lease) (r : option Phase) : At := mkAt c h false 1 true true r true.
Definition granted (l : Lease) (r : option Phase) : At :=
  mkAt (Some l) (Some l) false 0 true true r true.

(** Nothing is left failing, and the Guard no longer serves, where a primary is taken up. *)
Lemma adopt_checks_wp tier g :
  wp (adopt_checks U tier) (λ _ g', drift g g' ∧ gd_failure g' = None) (λ _, drift g) g.
Proof.
  unfold adopt_checks, raise_failure. apply wp_bind. wp.
  destruct (gd_failure g) eqn:Hf; [by apply wp_raise, drift_refl|].
  apply wp_ret, wp_bind. eapply wp_drift; [eauto with drift | | auto]. intros [] g1 H1.
  apply wp_bind. eapply wp_drift; [apply drifts_on_recovery | | by intros; eapply drift_trans].
  intros [] g2 H2. apply wp_modify. assert (Hd : drift g g2) by by eapply drift_trans.
  split; [eapply drift_trans; [exact Hd | by apply drift_same]|]. simpl.
  by rewrite (dr_failure _ _ Hd).
Qed.
Definition quiet g0 g : Prop := drift g0 g ∧ gd_serving g = false.
Lemma quiet_drift g0 g g' : drift g g' → quiet g0 g → quiet g0 g'.
Proof.
  intros Hd [? ?]. split; [by eapply drift_trans|].
  destruct Hd as [_ _ _ _ _ _ (l & _ & _ & _ & [->|[? _]]) _ _ _]; done.
Qed.
Lemma quiet_wp {A} (m : M G A) g0 g : drifts m → quiet g0 g → wp m (λ _, quiet g0) (λ _, drift g0) g.
Proof.
  intros Hm Hq. eapply wp_drift; [exact Hm | |].
  - intros x g' Hd. by eapply quiet_drift.
  - intros e g' Hd. destruct Hq. by eapply drift_trans.
Qed.
Lemma adopt_moves_wp E g :
  wp (adopt_moves U E) (λ _, quiet g) (λ _, drift g) g.
Proof.
  unfold adopt_moves. apply wp_bind, wp_gets, wp_bind.
  eapply wp_mono with (Q' := λ _, quiet g) (E' := λ _, drift g); [| | done].
  - destruct (gd_serving g) eqn:Hs; [|by apply wp_ret; split; [apply drift_refl|]].
    apply wp_bind. eapply wp_mono; [apply hand_back_spec | | done].
    intros [] g1 H1. apply wp_modify. eapply quiet_drift; [|exact H1]. by apply drift_same.
  - intros [] g1 H1. unfold control_close. eapply quiet_wp; [|done]. intros g0. drifting.
Qed.

Lemma adopt_primary_wp E a tier Q Ex g : Inv a g → a_serves a = true → a_beats a = true →
  (∀ g', Inv a g' → idle g' → Q tt g') → (∀ e g', Inv (at_failed a) g' → Ex e g') →
  wp (adopt_primary U E tier) Q Ex g.
Proof.
  intros Hg Hs Hb HQ HE. unfold adopt_primary, control_close.
  assert (Hex : ∀ e g', drift g g' → Ex e g').
  { intros e g' Hd. apply HE. eapply (inv_weaken a); [by eapply inv_drift | done | done | done | done | by intros | by intros | by right | done]. }
  apply wp_bind, wp_try_except. eapply wp_mono; [apply adopt_checks_wp | |].
  2:{ intros e g1 H1. apply wp_bind. eapply wp_drift; [eauto with drift | |].
      - intros [] g2 H2. apply wp_raise, Hex. by apply (drift_trans _ g1).
      - intros e' g2 H2. apply Hex. by apply (drift_trans _ g1). }
  intros [] g1 [H1 Hf1]. apply wp_try_except. eapply wp_mono; [apply adopt_moves_wp | |].
  - intros [] g2 [H2 Hs2]. apply HQ; [by eapply inv_drift, H2; eapply inv_drift|].
    split; [|done]. by rewrite (dr_failure _ _ H2).
  - intros e g2 H2. apply wp_bind. eapply wp_drift; [eauto with drift | |].
    + intros [] g3 H3. apply wp_bind. eapply record_background_failure_wp.
      { eapply inv_drift; [|exact H3]. eapply inv_drift; [|exact H2]. by eapply inv_drift. }
      intros g4 H4 _. by apply wp_raise, HE.
    + intros e' g3 H3. apply Hex, (drift_trans _ g1), (drift_trans _ g2); done.
Qed.

(** The grant: nobody holds the pool, and the Guard is not serving from it. *)
Lemma inv_grant c h r g l : Inv (claiming c h r) g → idle g → gd_closing g = false → gd_refusing g = false →
  Inv (granted l r)
    (set_gd_trace (gd_trace g ++ [Granted_to l])
      (set_gd_phase PRIMARY (set_gd_last_heartbeat None (set_gd_current (Some l) g)))).
Proof.
  intros [Hc (o & Ho & Hh & Hk & Hr & Hs) Hcl Hco Hb Hres Hl] [Hf Hsv] Hclo Href.
  destruct Hcl as [[?|?]|(Hp & Hn & Hz)]; [done | congruence |]. simpl in *.
  destruct (Hz ltac:(lia)) as (Hr1 & Hr2 & Hr3). assert (c = None) as -> by congruence.
  assert (h = None) as -> by (destruct (Hl eq_refl) as [|[_ ?]]; congruence).
  constructor; simpl; auto.
  - exists (mkOwn (Some l) false false false). rewrite own_run_app, Ho. simpl.
    rewrite decide_True; [by split_and!|]. split_and!; [done | |].
    + destruct (ow_serving o); [|done]. destruct (Hs eq_refl eq_refl); congruence.
    + destruct (ow_refused o); [|done]. destruct (Hr eq_refl); congruence.
  - right. simpl. change (claims _) with (claims g) in *. split_and!; [done | unfold claims in *; simpl; lia |].
    unfold claims in *. simpl. lia.
  - by intros _ _ ?.
Qed.
Lemma handle_claim_wp E l tier address c h r Q Ex g : Inv (claiming c h r) g →
  (∀ pools g', Inv (granted l r) g' → Q pools g') →
  (∀ e g', Inv (claiming c h r) g' → Ex e g') →
  wp (handle_claim U E l tier address) Q Ex g.
Proof.
  intros Hg HQ HE. unfold handle_claim. apply wp_bind.
  eapply wp_drift; [apply bind_drifts | | by intros; eapply HE, inv_drift].
  intros bound_here g1 H1%(inv_drift _ _ _ Hg). apply wp_try_except.
  assert (Hexit : ∀ e g', Inv (claiming c h r) g' →
    wp ((if (bound_here : bool) then
           unbind_error ← unbind E;
           match unbind_error with Some u => escalate U E u | None => mret tt end
         else mret tt) ;; raise (claim_error e)) Q Ex g').
  { intros e g' Hi. apply wp_bind. eapply wp_drift; [intros g0; drifting | |].
    - intros [] g2 H2. by eapply wp_raise, HE, inv_drift.
    - intros e' g2 H2. by eapply HE, inv_drift. }
  apply wp_bind. eapply wp_drift; [apply ext_drifts | | by intros; eapply Hexit, inv_drift].
  intros [] g2 H2%(inv_drift _ _ _ H1). apply wp_try_except.
  assert (Hexit' : ∀ e g', Inv (claiming c h r) g' →
    wp (ext_suppressed E ;; raise e) Q (λ e, wp ((if (bound_here : bool) then
           unbind_error ← unbind E;
           match unbind_error with Some u => escalate U E u | None => mret tt end
         else mret tt) ;; raise (claim_error e)) Q Ex) g').
  { intros e g' Hi. apply wp_bind. eapply wp_drift; [apply ext_suppressed_drifts | |].
    - intros [] g3 H3. by eapply wp_raise, Hexit, inv_drift.
    - intros e' g3 H3. by eapply Hexit, inv_drift. }
  unfold claim_body. apply wp_bind. eapply wp_drift; [apply ext_drifts | | by intros; eapply Hexit', inv_drift].
  intros [] g3 H3%(inv_drift _ _ _ H2).
  apply wp_bind. eapply wp_drift; [intros g0; drifting | | by intros; eapply Hexit', inv_drift].
  intros [] g4 H4%(inv_drift _ _ _ H3).
  apply wp_bind. eapply adopt_primary_wp; [exact H4 | done | done | |].
  2:{ intros e g5 H5. by apply Hexit'. }
  intros g5 H5 Hid5. unfold commit_claim, note. apply wp_bind, wp_bind.
  eapply sync_wp; [exact H5|]. intros g6 Hd6 H6. pose proof (drift_idle _ _ Hd6 Hid5) as Hid6.
  apply wp_bind, wp_get. destruct (gd_closing g6 || gd_refusing g6) eqn:Href.
  - apply wp_ret, wp_bind. eapply wp_drift; [apply release_drifts | | by intros; eapply Hexit', inv_drift].
    intros [] g7 H7%(inv_drift _ _ _ H6). apply wp_bind. eapply locked_wp; [exact H7|].
    intros g8 _ [Hc (o & ? & ? & ? & ? & Hs) Hcl ? ? ? Hl]. apply wp_raise, Hexit'. constructor; simpl; auto.
    + exists o. by split_and!.
    + destruct Hcl as [Hd|(? & ? & Hz)]; [by left|]. right.
      destruct (Hz ltac:(simpl; lia)) as (? & ? & ?). by split_and!.
    + by intros _ ?.
  - apply orb_false_elim in Href as [? ?]. apply wp_bind, wp_modify, wp_bind, wp_modify, wp_ret, wp_ret, HQ.
    exact (inv_grant c h r g6 l H6 Hid6 ltac:(assumption) ltac:(assumption)).
Qed.

(** ** Between commands *)

(** At rest, with a transition reserved or not. *)
Definition held (c h : option Lease) (r : option Phase) : At := mkAt c h false 0 true true r true.
Lemma poll_wp E c h Q Ex g : Inv (at_rest c h) g →
  (∀ b g', Inv (at_rest c h) g' → Q b g') → (∀ e g', Inv (at_rest c h) g' → Ex e g') →
  wp (poll U E) Q Ex g.
Proof.
  intros Hg HQ HE. unfold poll. apply wp_bind, wp_gets. destruct (gd_failure g); [by apply wp_ret, HQ|].
  apply wp_try_except. eapply wp_drift; [intros g0; drifting | by intros; eapply HQ, inv_drift |].
  intros e g1 H1%(inv_drift _ _ _ Hg). apply wp_bind.
  eapply wp_drift with (g := g1); [intros g0; drifting | | by intros; eapply HE, inv_drift].
  intros [] g2 H2%(inv_drift _ _ _ H1). apply wp_bind. eapply record_background_failure_wp; [exact H2|].
  intros g3 H3 _. by apply wp_ret, HQ.
Qed.

Lemma no_claims n g : claims_ok n g → 0 < n ∨ gd_reserved g ≠ Some CLAIMING ∨ gd_current g ≠ None →
  doomed g ∨ claims g = 0.
Proof.
  intros [?|(_ & Hn & Hz)] Hor; [by left|]. right.
  destruct Hor as [?|Hor]; [lia|]. destruct (decide (claims g = 0)) as [|]; [done|].
  destruct (Hz ltac:(lia)) as (? & ? & _). by destruct Hor.
Qed.
(** The transition is over. *)
Lemma inv_reset a g : Inv a g → doomed g ∨ claims g = 0 → a_serves a = true → a_beats a = true → a_link a = true →
  Inv (at_rest (a_cur a) (a_hold a)) (set_gd_reserved None g).
Proof.
  intros [Hc (o & Ho & Hh & Hk & Hrf & Hs) Hcl Hco Hb Hr Hl] Hn Es Eb El. constructor; simpl; auto.
  - exists o. by split_and!; auto.
  - destruct Hn as [Hn|Hn]; [by left|]. destruct Hcl as [Hd|(? & _ & _)]; [by left|]. right.
    change (claims (set_gd_reserved None g)) with (claims g). rewrite Hn. by split_and!; [|lia|lia].
Qed.

(** The holder was killed, or was seen to have exited. *)
Lemma inv_act a g t h k : Inv a g → a_link a = false ∨ h = a_hold a →
  (∀ o, ow_holder o = a_hold a → own_step o t = Some (mkOwn h k (ow_serving o) (ow_refused o))) →
  Inv (mkAt (a_cur a) h k (a_n a) (a_serves a) (a_beats a) (a_res a) (a_link a)) (set_gd_trace (gd_trace g ++ [t]) g).
Proof.
  intros [Hc (o & Ho & Hh & Hk & Hrf & Hs) Hcl Hco Hb Hr Hl] Hhl Hstep. constructor; simpl; auto.
  - exists (mkOwn h k (ow_serving o) (ow_refused o)). rewrite own_run_app, Ho. simpl.
    rewrite (Hstep o Hh). by split_and!.
  - intros Ha. destruct Hhl as [|Hhl]; [congruence|]. rewrite Hhl. auto.
Qed.
Lemma own_killed o l : ow_holder o = Some l → own_step o (Killed l) = Some (mkOwn (Some l) true (ow_serving o) (ow_refused o)).
Proof. intros H. simpl. by rewrite decide_True. Qed.
Lemma own_death o l : ow_holder o = Some l → own_step o (SawDeath l) = Some (mkOwn None false (ow_serving o) (ow_refused o)).
Proof. intros H. simpl. by rewrite decide_True. Qed.
Lemma own_asked o l : ow_holder o = Some l → own_step o (Asked l) = Some (mkOwn None false (ow_serving o) (ow_refused o)).
Proof. intros H. simpl. by rewrite decide_True. Qed.
Lemma inv_ends l h n r g t : Inv (mkAt (Some l) h false n true true r true) g →
  t = SawDeath l ∨ t = Asked l →
  Inv (ending (Some l) n true true r) (set_gd_trace (gd_trace g ++ [t]) g).
Proof.
  intros Hg Ht. assert (h = Some l) as -> by (by destruct (inv_link _ _ Hg eq_refl) as [|[? _]]).
  apply (inv_act (mkAt (Some l) (Some l) false n true true r false) g t None false); [| by left |].
  - eapply inv_weaken; try done. by right.
  - intros o Ho. destruct Ht as [->| ->]; [by apply own_death | by apply own_asked].
Qed.

Lemma next_tick_wp (Q : nat → G → Prop) Ex g :
  (∀ g', drift g g' → Q (gd_tick g) g') → wp next_tick Q Ex g.
Proof. intros HQ. by apply HQ, drift_same. Qed.
Lemma take_promotion_wp E c h lease flags Q Ex g : Inv (at_rest c h) g → gd_phase g = PRIMARY →
  (∀ g', Inv (held c h (Some PROMOTING)) g' → c = lease → (flags = None → gd_serving g' = false ∨ failed g') → Q true g') →
  (∀ g', Inv (at_rest c h) g' → Q false g') →
  wp (take_promotion U E lease flags) Q Ex g.
Proof.
  intros Hg Hp HQ HQ'. unfold take_promotion. apply wp_bind. eapply sync_wp; [exact Hg|]. intros g1 Hd1 H1.
  apply wp_bind, next_tick_wp. intros g2 Hd2. pose proof (inv_drift _ _ _ H1 Hd2) as H2.
  assert (Hp2 : gd_phase g2 = PRIMARY) by (by rewrite (dr_phase _ _ Hd2), (dr_phase _ _ Hd1)).
  apply wp_bind, wp_get. unfold unobserved.
  destruct (bool_decide (gd_current g2 ≠ lease) || _) eqn:Hun; [by apply wp_ret, HQ'|].
  destruct (bool_decide (flags = None) && _) eqn:Hfr; [by apply wp_ret, HQ'|].
  apply orb_false_elim in Hun as [Hcur%bool_decide_eq_false_1%dec_stable [Hres%bool_decide_eq_false_1%dec_stable _]%orb_false_elim].
  apply wp_bind, wp_modify, wp_ret, HQ; [| pose proof (inv_cur _ _ H2); simpl in *; congruence |].
  - destruct H2 as [Hc (o & Ho & Hh & Hk & Hrf & Hs) Hcl Hco Hb Hr Hl]. constructor; simpl; auto.
    + by exists o.
    + destruct (no_claims 0 g2 Hcl) as [Hd|Hn]; [right; left; congruence | by left |].
      destruct Hcl as [Hd|(? & _ & _)]; [by left|]. right.
      change (claims (set_gd_reserved (Some PROMOTING) g2)) with (claims g2). rewrite Hn. by split_and!; [|lia|lia].
  - intros ->. simpl in Hfr. apply (inv_beats _ _ H2 eq_refl Hp2).
    unfold heartbeat_fresh in Hfr. destruct (su_heartbeat_timeout U), (gd_last_heartbeat g2); done.
Qed.

(** Whoever holds the pool is the lease the actor acts on. *)
Lemma inv_holder l h n r k g : Inv (mkAt (Some l) h k n true true r true) g → h = Some l.
Proof. intros Hg. by destruct (inv_link _ _ Hg eq_refl) as [|[? _]]. Qed.
Lemma serving_drift g g' : drift g g' → gd_serving g = false ∨ failed g → gd_serving g' = false ∨ failed g'.
Proof.
  intros Hd [H|H]; [|right; by eapply drift_failed]. left.
  by destruct Hd as [_ _ _ _ _ _ (l & _ & _ & _ & [->|[? _]]) _ _ _].
Qed.
Lemma promote_missing_wp E c h lease Q Ex g : Inv (held c h (Some PROMOTING)) g → c = lease →
  gd_serving g = false ∨ failed g →
  (∀ g', Inv (held c h (Some PROMOTING)) g' → Q tt g') →
  (∀ e g', Inv (mkAt c h false 0 false false (Some PROMOTING) true) g' → Ex e g') →
  wp (promote_missing U E lease) Q Ex g.
Proof.
  intros Hg <- Hs HQ HE. unfold promote_missing.
  assert (Hweak : ∀ sv b k g', Inv (mkAt c h k 0 sv b (Some PROMOTING) true) g' → Inv (mkAt c h false 0 false false (Some PROMOTING) true) g').
  { intros sv b k g' Hi. eapply inv_weaken; try done. by right. }
  apply wp_bind. destruct c as [l|].
  2:{ unfold fence_missing_primary. apply wp_try_except, wp_bind, wp_raise, wp_raise, HE. by eapply Hweak. }
  eapply wp_drift; [apply fence_drifts | | by intros; eapply HE, Hweak, inv_drift].
  intros [] g1 Hd1; [|by eapply wp_ret, HQ, inv_drift].
  pose proof (inv_drift _ _ _ Hg Hd1) as H1. pose proof (serving_drift _ _ Hd1 Hs) as Hs1. apply wp_bind.
  assert (h = Some l) as -> by by eapply inv_holder.
  unfold note. apply wp_modify.
  assert (H2 : Inv (mkAt (Some l) (Some l) true 0 true true (Some PROMOTING) true)
                 (set_gd_trace (gd_trace g1 ++ [Killed l]) g1)).
  { apply (inv_act _ _ _ (Some l) true H1); [by right|]. intros o Ho. by apply own_killed. }
  apply wp_bind. eapply promote_wp; [exact H2 | done | exact Hs1 | by right | |].
  - intros g3 H3. eapply locked_wp; [exact H3|].
    intros g4 _ [Hc (o & Ho & Hh & Hk & Hrf & Hsv) Hcl Hco Hb Hr Hl]. apply HQ. constructor; simpl; auto.
    + exists o. by split_and!.
    + by intros _ _ ?.
  - intros e g3 H3. by eapply HE, Hweak.
Qed.
Lemma promote_dead_wp E c h lease flags Q Ex g : Inv (held c h (Some PROMOTING)) g → c = lease →
  (∀ g', Inv (ended 0 (Some PROMOTING)) g' → Q tt g') →
  (∀ e c' h' g', Inv (mkAt c' h' false 0 false false (Some PROMOTING) true) g' → Ex e g') →
  wp (promote_dead U E lease flags) Q Ex g.
Proof.
  intros Hg <- HQ HE. unfold promote_dead.
  assert (Hex : ∀ e, Ex e g) by (intros e; eapply HE, inv_weaken; try done; by right).
  case_decide; [by apply wp_raise|]. destruct c as [l|]; [|by apply wp_raise].
  unfold note. apply wp_bind, wp_modify.
  pose proof (inv_ends _ _ _ _ _ (SawDeath l) Hg ltac:(by left)) as H1. apply wp_bind.
  match goal with |- wp _ _ _ ?s => set (g1 := s) in * end.
  assert (∀ g', Inv (ending (Some l) 0 true true (Some PROMOTING)) g' → wp (promote_for U E l) Q Ex g') as Hpr.
  { intros g' Hi. eapply promote_for_wp; [exact Hi | exact HQ|]. intros e g2 H2. eapply (HE e None None).
    destruct H2 as [Hc (o & Ho & Hh & Hk & Hrf & Hsv) Hcl Hco Hb Hr Hl]. constructor; simpl; auto. by exists o. }
  destruct (le_incarnation l); [|by apply wp_ret, Hpr].
  eapply locked_wp; [exact H1|]. intros g2 _ H2. eapply Hpr, inv_drift; [exact H2 | by apply drift_same].
Qed.
Lemma observe_holder_wp E c h Q Ex g : Inv (at_rest c h) g →
  (∀ c' h' g', Inv (at_rest c' h') g' → Q tt g') → (∀ e g', Inv (at_rest c h) g' → Ex e g') →
  wp (observe_holder U E) Q Ex g.
Proof.
  intros Hg HQ HE. unfold observe_holder. apply wp_bind. eapply sync_wp; [exact Hg|]. intros g1 _ H1.
  apply wp_bind, wp_get. destruct (bool_decide (gd_phase g1 ≠ PRIMARY) || _) eqn:Hph; [by eapply wp_ret, HQ|].
  apply orb_false_elim in Hph as [Hph%bool_decide_eq_false_1%dec_stable _].
  apply wp_bind. eapply wp_drift; [apply poll_pidfd_drifts | | by intros; eapply HE, inv_drift].
  intros flags g2 Hd2. pose proof (inv_drift _ _ _ H1 Hd2) as H2.
  apply wp_bind. eapply take_promotion_wp; [exact H2 | by rewrite (dr_phase _ _ Hd2) | |].
  2:{ intros g3 H3. by eapply wp_ret, HQ. }
  intros g3 H3 Hc Hs. apply wp_try_finally, wp_try_except.
  assert (Hend : ∀ c' h' Q' g', Inv (held c' h' (Some PROMOTING)) g' →
    (∀ g'', Inv (at_rest c' h') g'' → Q' tt g'') → wp (locked U E (set_gd_reserved None)) Q' Ex g').
  { intros c' h' Q' g' Hi HQ'. eapply locked_wp; [exact Hi|]. intros g'' _ Hi'. apply HQ'.
    apply (inv_reset _ _ Hi'); try done. eapply no_claims; [exact (inv_claims _ _ Hi')|].
    right; left. by rewrite (inv_res _ _ Hi'). }
  assert (Hfail : ∀ e c' h' g', Inv (mkAt c' h' false 0 false false (Some PROMOTING) true) g' →
    wp (fail_guard U E e) (λ u, wp (locked U E (set_gd_reserved None)) (λ _, Q u) Ex)
      (λ e, wp (locked U E (set_gd_reserved None)) (λ _, Ex e) Ex) g').
  { intros e c' h' g' Hi. eapply fail_guard_wp; [exact Hi|]. intros g4 H4 _.
    eapply (Hend c' h'); [exact H4|]. intros g5 H5. by eapply HQ. }
  destruct flags as [flags|].
  - eapply promote_dead_wp; [exact H3 | exact Hc | |].
    + intros g4 H4. eapply (Hend None None); [exact H4|]. intros g5 H5. by eapply HQ.
    + intros e c' h' g4 H4. by eapply Hfail.
  - eapply promote_missing_wp; [exact H3 | exact Hc | by apply Hs | |].
    + intros g4 H4. eapply Hend; [exact H4|]. intros g5 H5. by eapply HQ.
    + intros e g4 H4. by eapply Hfail.
Qed.

(** ** Closing *)

(** A Guard that closes is at rest whatever it still holds. *)
Definition closing g : Prop := gd_closing g = true.
Lemma drift_closing g g' : drift g g' → closing g → closing g'.
Proof. intros [_ _ _ _ Hcl _ _ _ _ _]. exact Hcl. Qed.
Lemma lease_close_wp E h (Q : unit → G → Prop) (Ex : exn → G → Prop) c g : Inv (at_rest c h) g → closing g →
  (∀ x c' g', Inv (at_rest c' h) g' → closing g' → Q x g') →
  (∀ e c' g', Inv (at_rest c' h) g' → closing g' → Ex e g') → wp (lease_close E) Q Ex g.
Proof.
  intros Hg Hcl HQ HE. unfold lease_close. apply wp_bind, wp_gets, wp_bind.
  assert (Hrest : ∀ c' g', Inv (at_rest c' h) g' → closing g' →
    wp (bound ← gets gd_bind_address; match bound with None => mret tt | Some _ => ext E ;; modify (set_gd_bind_address None) end) Q Ex g').
  { intros c' g' Hi Hcl'. eapply wp_drift; [intros g0; drifting | |].
    - intros x g2 Hd. eapply HQ; [by eapply inv_drift | by eapply drift_closing].
    - intros e g2 Hd. eapply HE; [by eapply inv_drift | by eapply drift_closing]. }
  rewrite (inv_cur _ _ Hg). simpl. destruct c as [l|]; [|by apply wp_ret, (Hrest None)].
  apply wp_bind, wp_modify, wp_modify. unfold clear_if_current.
  rewrite decide_True by exact (inv_cur _ _ Hg).
  apply (Hrest None); [|done]. pose proof (inv_clear _ _ Hg) as H1.
  destruct H1 as [Hc (o & Ho & Hh & Hk & Hrf & Hsv) Hcl' Hco Hb Hr Hl]. constructor; simpl; auto.
  by exists o.
Qed.
Lemma close_resources_wp E c h Q Ex g : Inv (at_rest c h) g → closing g →
  (∀ c' g', Inv (at_rest c' h) g' → closing g' → Q tt g') →
  (∀ e c' g', Inv (at_rest c' h) g' → closing g' → Ex e g') → wp (close_resources E) Q Ex g.
Proof.
  intros Hg Hcl HQ HE. unfold close_resources.
  assert (Hgo : ∀ {A} (m : M G A) Q' c' g', drifts m → Inv (at_rest c' h) g' → closing g' →
    (∀ x g'', Inv (at_rest c' h) g'' → closing g'' → Q' x g'') → wp m Q' Ex g').
  { intros A m Q' c' g' Hm Hi Hcl' HQ'. eapply wp_drift; [exact Hm | |].
    - intros x g2 Hd. apply HQ'; [by eapply inv_drift | by eapply drift_closing].
    - intros e g2 Hd. eapply HE; [by eapply inv_drift | by eapply drift_closing]. }
  apply wp_bind, wp_gets, wp_bind. eapply Hgo; eauto with drift. intros f1 g1 H1 C1.
  apply wp_bind. eapply Hgo; eauto with drift. intros f2 g2 H2 C2.
  apply wp_bind. eapply Hgo; eauto with drift. intros [] g3 H3 C3.
  apply wp_bind. eapply Hgo; eauto with drift. intros f4 g4 H4 C4.
  apply wp_bind. eapply Hgo; eauto with drift. intros f5 g5 H5 C5.
  apply wp_bind. unfold give_back. apply wp_try_except, wp_bind.
  eapply lease_close_wp; [exact H5 | exact C5 | |].
  - intros x c' g6 H6 C6. apply wp_ret. eapply Hgo; eauto with drift. intros [] g7 H7 C7. eauto.
  - intros e c' g6 H6 C6. apply wp_ret. eapply Hgo; eauto with drift. intros [] g7 H7 C7. eauto.
Qed.
(** Whatever becomes of the phase and the reservation of a Guard that closes. *)
Lemma inv_closing a g (f : G → G) : Inv a g → closing g → a_serves a = true → a_beats a = true → a_link a = true →
  gd_current (f g) = gd_current g → gd_trace (f g) = gd_trace g → gd_closing (f g) = gd_closing g →
  gd_serving (f g) = gd_serving g → gd_refusing (f g) = gd_refusing g →
  (gd_failure g ≠ None → gd_failure (f g) ≠ None) → beats_ok (f g) →
  Inv (at_rest (a_cur a) (a_hold a)) (f g).
Proof.
  intros [Hc (o & Ho & Hh & Hk & Hrf & Hsv) Hcl' Hco Hb Hr Hl] Hcl Es Eb El Ec Et Ecl Esv Er Ef Hbt.
  constructor; simpl; [congruence | | by left; right; rewrite Ecl | by intros _; rewrite Ecl | done | done | by rewrite Ecl; auto].
  exists o. rewrite Et, Ecl, Er, Esv. split_and!; auto; [done|]. intros _ Ho'. destruct (Hsv Es Ho'); auto.
Qed.
Lemma close_guard_wp E c h Q Ex g : Inv (at_rest c h) g → closing g →
  (∀ c' g', Inv (at_rest c' h) g' → closing g' → Q tt g') →
  (∀ e c' g', Inv (at_rest c' h) g' → closing g' → Ex e g') → wp (close_guard U E) Q Ex g.
Proof.
  intros Hg Hcl HQ HE. unfold close_guard. apply wp_bind. eapply close_resources_wp; [done.. | |exact HE].
  intros c' g1 H1 C1. apply wp_bind, wp_modify. eapply locked_wp with (a := at_rest c' h).
  { eapply inv_drift; [exact H1 | by apply drift_same]. }
  intros g2 Hd H2. assert (C2 : closing g2) by (eapply drift_closing; [exact Hd | done]).
  eapply HQ; [|done]. by apply (inv_closing _ g2 (set_gd_phase CLOSED) H2).
Qed.

(** ** The actor's rounds *)

Definition dispatched (op : Operation) : nat := match op with OpClaim _ _ _ => 1 | _ => 0 end.
Definition popped (c h : option Lease) (op : Operation) : At := mkAt c h false (dispatched op) true true None true.
Lemma inv_pop c h g x rest : Inv (at_rest c h) g → gd_commands g = x :: rest →
  Inv (popped c h (cmd_op x)) (set_gd_commands rest g) ∧
  (is_close (cmd_op x) = true → closing (set_gd_commands rest g)).
Proof.
  intros [Hc (o & Ho & Hh & Hk & Hrf & Hsv) Hcl Hco Hb Hr Hl] Hx.
  assert (Hperm : gd_pending g ++ gd_commands g ≡ₚ x :: gd_pending g ++ rest) by (rewrite Hx; solve_Permutation).
  split; [constructor; simpl; auto|].
  - by exists o.
  - assert (claims g = dispatched (cmd_op x) + claims (set_gd_commands rest g)) as Hcg.
    { unfold claims. rewrite Hperm. rewrite filter_cons. simpl.
      unfold is_claim at 1 2. destruct x as [i []]; simpl; done. }
    destruct Hcl as [Hd|(Hp & Hn & Hz)]; [by left|]. right. rewrite Hcg in *. done.
  - unfold close_ok in *. rewrite Hperm, Exists_cons in Hco. simpl. auto.
  - intros Hx'. unfold close_ok in Hco. rewrite Hperm, Exists_cons in Hco. apply Hco. by left.
Qed.

Lemma answer_inv a c r g (Q : unit → G → Prop) Ex : Inv a g → (∀ g', Inv a g' → Q tt g') → wp (answer c r) Q Ex g.
Proof. intros Hg HQ. apply wp_modify, HQ. eapply inv_drift; [exact Hg | by apply drift_same]. Qed.
(** The reservation ends with the command, then it is answered. *)
Definition over (n : nat) (r : option Phase) (c : option Lease) g : Prop :=
  closing g ∨ 0 < n ∨ (r ≠ None ∧ r ≠ Some CLAIMING) ∨ c ≠ None.
Lemma finish_wp {A} E c h n r x res (k : M G A) Q Ex g : Inv (mkAt c h false n true true r true) g → over n r c g →
  (∀ g', Inv (at_rest c h) g' → (closing g → closing g') → wp k Q Ex g') →
  wp (locked U E (set_gd_reserved None) ;; answer x res ;; k) Q Ex g.
Proof.
  intros Hg Hov HQ. apply wp_bind. eapply locked_wp; [exact Hg|]. intros g1 Hd H1.
  apply wp_bind, wp_modify, HQ; [|by apply (drift_closing g g1)].
  eapply inv_drift; [apply (inv_reset _ _ H1); try done | by apply drift_same].
  destruct Hov as [Hcl|Hov]; [left; right; by eapply drift_closing|].
  eapply no_claims; [exact (inv_claims _ _ H1)|].
  destruct Hov as [?|[[Hr Hr']|?]]; [by left | right; left; by rewrite (inv_res _ _ H1) | right; right].
  by rewrite (inv_cur _ _ H1).
Qed.
Lemma revalidate_wp E c h op Q Ex g : Inv (popped c h op) g →
  (∀ g', Inv (at_rest c h) g' → Q false g') →
  (∀ g', lease_of op = None → Inv (popped c h op) g' → drift g g' → Q true g') →
  (∀ l g', lease_of op = Some l → Inv (ending (Some l) 0 true true (Some RELEASING)) g' → Q true g') →
  wp (revalidate U E op) Q Ex g.
Proof.
  intros Hg HQ HQ1 HQ2. unfold revalidate.
  destruct (lease_of op) as [l|] eqn:Hop; [|by apply wp_ret, HQ1; [|done|apply drift_refl]].
  assert (Hn : dispatched op = 0) by by destruct op.
  apply wp_bind. eapply sync_wp; [exact Hg|]. intros g1 Hd1 H1. apply wp_bind, wp_get.
  unfold popped in H1. rewrite Hn in H1. case_decide as Hcur; [|by apply wp_ret, HQ].
  unfold note. apply wp_bind, wp_modify, wp_bind, wp_modify, wp_ret. apply (HQ2 l _ eq_refl).
  assert (c = Some l) as ->. { pose proof (inv_cur _ _ H1). simpl in *. congruence. }
  apply (inv_ends _ h); [|by right].
  destruct H1 as [Hc (o & Ho & Hh & Hk & Hrf & Hsv) Hcl Hco Hb Hr Hl]. constructor; simpl; auto.
  - by exists o.
  - destruct (no_claims 0 g1 Hcl) as [Hd|Hz]; [right; right; congruence | by left |].
    destruct Hcl as [Hd|(? & _ & _)]; [by left|]. right.
    change (claims (set_gd_reserved (Some RELEASING) g1)) with (claims g1). rewrite Hz. by split_and!; [|lia|lia].
Qed.

(** One command, run, answered, its transition over. *)
Definition attempt E (x : Command) : M G (option exn) :=
  try_except
    (r ← run_op U E (cmd_op x);
     locked U E (set_gd_reserved None) ;;
     answer x (Ret r) ;;
     mret None)
    (λ e,
       locked U E (set_gd_reserved None) ;;
       answer x (Raise e) ;;
       mret (Some e)).
Lemma attempt_over E x (Q : option exn → G → Prop) Ex g P :
  wp (run_op U E (cmd_op x)) (λ _, P) (λ _, P) g →
  (∀ g', P g' → ∃ c h n r, Inv (mkAt c h false n true true r true) g' ∧ over n r c g' ∧
    ∀ f g'', Inv (at_rest c h) g'' → (closing g' → closing g'') → Q f g'') →
  wp (attempt E x) Q Ex g.
Proof.
  intros Hop HP. unfold attempt. apply wp_try_except, wp_bind. eapply wp_mono; [exact Hop | |].
  - intros r g1 (c & h & n & r' & Hi & Ho & HQ)%HP. eapply finish_wp; [exact Hi | exact Ho|].
    intros g2 H2 C2. apply wp_ret. auto.
  - intros r g1 (c & h & n & r' & Hi & Ho & HQ)%HP. eapply finish_wp; [exact Hi | exact Ho|].
    intros g2 H2 C2. apply wp_ret. auto.
Qed.
Lemma attempt_wp E c h x Q Ex g :
  (lease_of (cmd_op x) = None ∧ Inv (popped c h (cmd_op x)) g) ∨
  (∃ l, lease_of (cmd_op x) = Some l ∧ Inv (ending (Some l) 0 true true (Some RELEASING)) g) →
  (is_close (cmd_op x) = true → closing g) →
  (∀ f c' h' g', Inv (at_rest c' h') g' → Q f g') → wp (attempt E x) Q Ex g.
Proof.
  intros Hg Hcl HQ. destruct Hg as [[Hl Hg]|(l & Hl & Hg)].
  - destruct (cmd_op x) as [lease tier address|?|?|] eqn:Hop; try done; simpl in *.
    + eapply (attempt_over _ _ _ _ _ (λ g', ∃ c' h' n r, Inv (mkAt c' h' false n true true r true) g' ∧ over n r c' g')).
      * rewrite Hop. simpl. eapply handle_claim_wp; [exact Hg | |].
        -- intros pools g' Hi. exists (Some lease), (Some lease), 0, None. split; [exact Hi|]. by right; right; right.
        -- intros e g' Hi. exists c, h, 1, None. split; [exact Hi|]. right; left. lia.
      * intros g' (c' & h' & n & r & Hi & Ho). exists c', h', n, r. eauto.
    + eapply (attempt_over _ _ _ _ _ (λ g', ∃ c', Inv (at_rest c' h) g' ∧ closing g')).
      * rewrite Hop. simpl. apply wp_bind. eapply close_guard_wp; [exact Hg | by apply Hcl | |]; eauto.
        intros c' g' Hi Hc. apply wp_ret. eauto.
      * intros g' (c' & Hi & Hc). exists c', h, 0, None. split; [exact Hi|]. split; [by left|]. eauto.
  - eapply (attempt_over _ _ _ _ _ (λ g', Inv (ended 0 (Some RELEASING)) g')).
    + destruct (cmd_op x) as [?|lease|lease|] eqn:Hop; simplify_eq/=; apply wp_bind;
        [eapply stand_down_wp | eapply abort_wp]; eauto; intros g' Hi; by apply wp_ret.
    + intros g' Hi. exists None, None, 0, (Some RELEASING). split; [exact Hi|]. split; [|eauto].
      right; right; left. by split.
Qed.
Lemma dispatch_wp E c h x Q Ex g : Inv (popped c h (cmd_op x)) g → (is_close (cmd_op x) = true → closing g) →
  (∀ b c' h' g', Inv (at_rest c' h') g' → Q b g') → wp (dispatch U E x) Q Ex g.
Proof.
  intros Hg Hcl HQ. unfold dispatch. apply wp_bind.
  assert (Hgo : ∀ g', (lease_of (cmd_op x) = None ∧ Inv (popped c h (cmd_op x)) g') ∨
      (∃ l, lease_of (cmd_op x) = Some l ∧ Inv (ending (Some l) 0 true true (Some RELEASING)) g') →
    (is_close (cmd_op x) = true → closing g') →
    wp (failed ← attempt E x;
        if is_close (cmd_op x) then
          (match failed with
           | Some e => locked U E (λ g, set_gd_phase GUARD_FAILED (set_gd_failure (Some e) g))
           | None => mret tt
           end) ;;
          mret false
        else mret true) Q Ex g').
  { intros g' Hi Hc. apply wp_bind. eapply attempt_wp; [exact Hi | exact Hc|]. intros f c' h' g1 H1.
    destruct (is_close _); [|by eapply wp_ret, HQ]. apply wp_bind. destruct f as [e|]; [|by eapply wp_ret, wp_ret, HQ].
    eapply locked_wp; [exact H1|]. intros g2 _ H2. eapply wp_ret, HQ. exact (inv_fail _ 0 _ e H2). }
  eapply revalidate_wp; [exact Hg | | |].
  - intros g1 H1. simpl. apply wp_bind. eapply answer_inv; [exact H1|]. intros g2 H2. by eapply wp_ret, HQ.
  - intros g1 Hl H1 Hd. apply Hgo; [by left|]. intros Hc. eapply drift_closing; [exact Hd|]. auto.
  - intros l g1 Hl H1. apply Hgo; [right; eauto|]. by destruct (cmd_op x).
Qed.

Lemma exit_actor_wp E a Q Ex g : Inv a g → a_serves a = true → a_beats a = true → a_link a = true →
  (∀ c h g', Inv (at_rest c h) g' → Q tt g') → wp (exit_actor U E) Q Ex g.
Proof.
  intros Hg Es Eb El HQ. unfold exit_actor, note. apply wp_bind. eapply locked_wp; [exact Hg|].
  intros g1 _ H1. apply wp_bind, wp_modify. pose proof (inv_drift _ _ _ H1 (drift_closes g1)) as H2.
  apply wp_bind, wp_gets, wp_bind.
  eapply (wp_for_each _ _ (λ _ g', Inv a g' ∧ closing g')); [split; [exact H2 | done] | |].
  - intros x r g' [Hi Hc]. apply wp_modify. split; [|done]. eapply inv_drift; [exact Hi | by apply drift_same].
  - intros g' [Hi Hc]. apply wp_modify. eapply HQ.
    apply (inv_closing _ _ (set_gd_alive false ∘ set_gd_commands []) Hi); try done.
    exact (inv_beats _ _ Hi Eb).
Qed.
Lemma rest_exit E g : Rest g → wp (exit_actor U E) (λ _, Rest) (λ _, Rest) g.
Proof. intros (c & h & Hg). eapply exit_actor_wp; [exact Hg | done..|]. intros c' h' g' Hi. by exists c', h'. Qed.
Lemma actor_turn_rest E g : Rest g → Rest (actor_turn U E g).2.
Proof.
  intros (c & h & Hg).
  assert (wp (actor_turn U E) (λ _, Rest) (λ _, Rest) g) as Hturn.
  { assert (Hfail : ∀ e g', Rest g' → wp (record_background_failure U E e ;; exit_actor U E) (λ _, Rest) (λ _, Rest) g').
    { intros e g' (c' & h' & Hi). apply wp_bind. eapply record_background_failure_wp; [exact Hi|].
      intros g2 H2 _. apply rest_exit. by exists c', h'. }
    assert (Hmore : ∀ b g', Rest g' → wp (if (b : bool) then mret tt else exit_actor U E) (λ _, Rest)
      (λ e, wp (record_background_failure U E e ;; exit_actor U E) (λ _, Rest) (λ _, Rest)) g').
    { intros [] g' Hi; [by apply wp_ret|]. destruct Hi as (c' & h' & Hi).
      eapply exit_actor_wp; [exact Hi | done..|]. intros c2 h2 g2 H2. by exists c2, h2. }
    unfold actor_turn, serve_round. apply wp_try_except, wp_bind, wp_bind.
    eapply sync_wp; [exact Hg|]. intros g1 _ H1. apply wp_bind, wp_gets.
    destruct (gd_commands g1) as [|x rest] eqn:Hx.
    - apply wp_bind. eapply observe_holder_wp; [exact H1 | |].
      + intros c2 h2 g2 H2. apply wp_bind. eapply poll_wp; [exact H2 | |].
        * intros b g3 H3. apply wp_ret, (Hmore true). by exists c2, h2.
        * intros e g3 H3. apply Hfail. by exists c2, h2.
      + intros e g2 H2. apply Hfail. by exists c, h.
    - apply wp_bind, wp_modify. destruct (inv_pop _ _ _ _ _ H1 Hx) as [H2 C2].
      eapply dispatch_wp; [exact H2 | exact C2|]. intros b c' h' g3 H3. apply Hmore. by exists c', h'. }
  unfold wp in Hturn. by destruct (actor_turn U E g) as [[]].
Qed.
Lemma drifts_rest {A} (m : M G A) g : drifts m → Rest g → Rest (m g).2.
Proof.
  intros Hm (c & h & Hg). exists c, h. specialize (Hm g g (drift_refl g)).
  destruct (m g) as [[x|e] g']; by eapply inv_drift.
Qed.
Lemma begin_close_inline_rest E g : Rest g → Rest (begin_close_inline E g).2.
Proof.
  intros (c & h & Hg).
  assert (wp (begin_close_inline E) (λ _, Rest) (λ _, Rest) g) as Hw.
  { unfold begin_close_inline, note. apply wp_bind, wp_modify, wp_bind, wp_modify.
    pose proof (inv_drift _ _ _ Hg (drift_closes g)) as H1. apply wp_bind, wp_gets.
    match goal with |- wp _ _ _ ?s => set (g1 := s) in * end.
    destruct (gd_closed g1); [apply wp_ret; by exists c, h|]. apply wp_bind.
    eapply close_resources_wp; [exact H1 | done | |].
    - intros c' g2 H2 _. apply wp_modify. exists c', h. eapply inv_drift; [exact H2 | by apply drift_same].
    - intros e c' g2 H2 _. by exists c', h. }
  unfold wp in Hw. by destruct (begin_close_inline E g) as [[]].
Qed.
Lemma start_rest E attached g : Rest g → Rest (start_guard E attached g).2.
Proof. apply drifts_rest. intros g0. unfold start_guard. drifting. Qed.
Lemma reclaim_rest E g : Rest g → Rest (reclaim_pool E g).2.
Proof. apply drifts_rest. intros g0. unfold reclaim_pool. drifting. Qed.
Lemma racer_rest g : Rest g → Rest (answer_racer g).2.
Proof.
  intros (c & h & Hg).
  assert (wp answer_racer (λ _, Rest) (λ _, Rest) g) as Hw.
  { unfold answer_racer. apply wp_bind, wp_gets, wp_bind.
    eapply (wp_for_each _ _ (λ _ g', Inv (at_rest c h) g')); [exact Hg | |].
    - intros x r g' Hi. apply wp_modify. eapply inv_drift; [exact Hi | by apply drift_same].
    - intros g' Hi. apply wp_modify. exists c, h.
      destruct Hi as [Hc (o & Ho & Hh & Hk & Hrf & Hsv) Hcl Hco Hb Hr Hl]. constructor; simpl; auto.
      + by exists o.
      + destruct Hcl as [Hd|(? & Hn & Hz)]; [by left|]. right.
        assert (claims (set_gd_commands [] g') ≤ claims g') as Hle.
        { unfold claims. simpl. rewrite app_nil_r, filter_app, length_app. lia. }
        simpl in *. split_and!; [done | lia | intros ?; apply Hz; lia].
      + unfold close_ok in *. simpl. rewrite app_nil_r. intros ?. apply Hco. apply Exists_app. by left. }
  unfold wp in Hw. by destruct (answer_racer g) as [[]].
Qed.
Lemma guard_new_rest owned shared file : Rest (guard_new (C:=C) owned shared file).
Proof.
  exists None, None. constructor; simpl; try done.
  - exists own_start. by split_and!.
  - right. by split_and!; [| unfold claims; simpl; lia | unfold claims; simpl; lia].
  - unfold close_ok. simpl. by rewrite Exists_nil.
  - by left.
Qed.
Lemma step_rest g g' : gstep U g g' → Rest g → Rest g'.
Proof.
  intros [] Hg; [by apply start_rest | by apply actor_turn_rest | | by apply begin_close_inline_rest
    | by apply reclaim_rest | by apply racer_rest].
  apply drifts_rest; [apply caller_drifts | done].
Qed.
Lemma reachable_rest owned shared file g : rtc (gstep U) (guard_new owned shared file) g → Rest g.
Proof.
  intros Hr. assert (∀ g0, rtc (gstep U) g0 g → Rest g0 → Rest g) as Hind.
  { induction 1; eauto using step_rest. }
  eapply Hind; [exact Hr | apply guard_new_rest].
Qed.

(** C2: whatever its environment answers, and however the sections of other threads fall
    between those of its actor, a Guard's acts follow the ownership contract: a pool is granted
    only when nobody holds it, the Guard does not serve from it and claims are not refused; a
    lease ends by its holder's own request or its observed exit; the Guard serves only from a
    pool nobody holds, or whose holder it has killed, and never twice at once. *)
Theorem ownership_kept owned shared file g :
  rtc (gstep U) (guard_new owned shared file) g →
  ∃ o, own_run own_start (gd_trace g) = Some o ∧
    (gd_failure g = None → gd_closing g = false → ow_holder o = gd_current g ∧
      (ow_serving o = true → gd_serving g = true)).
Proof.
  intros (c & h & Hg)%reachable_rest. destruct (inv_own _ _ Hg) as (o & Ho & Hh & _ & _ & Hs).
  exists o. split; [done|]. intros Hf Hcl. simpl in *. split.
  - pose proof (inv_cur _ _ Hg) as Hc. simpl in Hc. destruct (inv_link _ _ Hg eq_refl) as [Hl|[_ ?]]; simpl in *; congruence.
  - intros Hos. by destruct (Hs eq_refl Hos).
Qed.
End Safe.
