(* ===== verification/GuardLive.v ===== *)
(** * A Guard answers its mailbox

    What every operation leaves of the mailbox ([mails]), and that each command put there is
    answered, once and in the order it was put, whether the actor goes on or ends. *)

From Stdlib Require Import ZArith Lia.
From S2P Require Import Prelude PyFloat Types Layout State Journal Mirror Snapshot Protocol RecoveryState Guard.

(** The numbers of the commands answered, in the mailbox, and about to be put. *)
Definition ids {C} (g : Guard C) : list nat :=
  (gd_answers g).*1 ++ (cmd_id <$> gd_commands g) ++ (cmd_id <$> gd_pending g).
(** None is used twice, nor the ones in [held], nor one that is yet to come. *)
Definition fresh {C} (held : list nat) (g : Guard C) : Prop :=
  NoDup (held ++ ids g) ∧ Forall (λ i, i < gd_next g) (held ++ ids g).

(** Commands are only added at the end, and no future is set. *)
Record mail {C} (g g' : Guard C) : Prop := {
  ma_commands : ∃ l, gd_commands g' = gd_commands g ++ l;
  ma_answers : gd_answers g' = gd_answers g;
  ma_alive : gd_alive g' = gd_alive g;
  ma_fresh held : fresh held g → fresh held g' }.
Lemma mail_refl {C} (g : Guard C) : mail g g.
Proof. constructor; auto. exists []. by rewrite app_nil_r. Qed.
Lemma mail_trans {C} (g g1 g2 : Guard C) : mail g g1 → mail g1 g2 → mail g g2.
Proof.
  intros [(l1 & E1) A1 L1 F1] [(l2 & E2) A2 L2 F2]. constructor; [|congruence..|auto].
  exists (l1 ++ l2). by rewrite E2, E1, app_assoc.
Qed.
Lemma mail_same {C} (g g' : Guard C) : gd_commands g' = gd_commands g → gd_answers g' = gd_answers g →
  gd_alive g' = gd_alive g → gd_pending g' = gd_pending g → gd_next g' = gd_next g → mail g g'.
Proof.
  intros Ec Ea El Ep En. constructor; auto.
  - exists []. by rewrite app_nil_r.
  - unfold fresh, ids. by rewrite Ec, Ea, Ep, En.
Qed.
Definition mails {C A} (m : M (Guard C) A) : Prop := ∀ g0, preserves (mail g0) m.
Lemma mails_modify {C} (f : Guard C → Guard C) : (∀ g, mail g (f g)) → mails (modify f).
Proof. intros Hf g0 g Hg. by eapply mail_trans. Qed.
Lemma mails_on_recovery {C A} (m : M Recov A) : mails (on_recovery (C:=C) m).
Proof.
  intros g0 g Hg. unfold on_recovery. destruct (m (gd_recovery g)) as [[a|e] r];
    (eapply mail_trans; [exact Hg|]; by apply mail_same).
Qed.
Lemma mails_on_core {C A} (m : M C A) : mails (with_core (C:=C) m).
Proof.
  intros g0 g Hg. unfold with_core. destruct (gd_core g) as [core|]; [|done].
  destruct (m core) as [[a|e] core']; (eapply mail_trans; [exact Hg|]; by apply mail_same).
Qed.
Lemma mails_next_tick {C} : mails (next_tick (C:=C)).
Proof. intros g0 g Hg. eapply mail_trans; [exact Hg|]. by apply mail_same. Qed.
Lemma mails_use {C A} (m : M (Guard C) A) g0 : mails m → preserves (mail g0) m.
Proof. auto. Qed.
Create HintDb mail discriminated.

(** Split an operation into statements that leave the mailbox. *)
Ltac mail_step :=
  match goal with
  | |- preserves _ (mret _) => apply preserves_ret
  | |- preserves _ (raise _) => apply preserves_raise
  | |- preserves _ (gets _) => apply preserves_gets
  | |- preserves _ (lift _) => apply preserves_lift
  | |- preserves _ get => by intros ? ?
  | |- preserves _ next_tick => apply mails_next_tick
  | |- preserves _ (on_recovery _) => apply mails_on_recovery
  | |- preserves _ (with_core _) => apply mails_on_core
  | |- preserves _ (note _) => apply mails_modify; intros ?; apply mail_same; reflexivity
  | |- preserves _ (modify _) => apply mails_modify; intros ?; apply mail_same; reflexivity
  | |- preserves _ (_ ≫= _) => apply preserves_bind; [| intros ? ]
  | |- preserves _ (for_each _ _) => apply preserves_for_each; intros ?
  | |- preserves _ (try_except _ _) => apply preserves_try_except; [| intros ? ]
  | |- preserves _ (try_finally _ _) => apply preserves_try_finally
  | |- preserves (mail _) _ => apply mails_use; solve [eauto 2 with mail nocore]
  | |- _ => case_match
  end.
Ltac mailing := repeat mail_step.

Section Mail.
Context {C : Type} `{!CoreOps C} (U : Setup).
Notation G := (Guard C).
Implicit Types (g : G) (E : GuardEnv).

(** ** The callers' sections *)

Lemma new_command_mails op : mails (new_command (C:=C) op).
Proof.
  apply mails_modify. intros g. constructor; auto; [exists []; by rewrite app_nil_r|].
  intros held. unfold fresh, ids. simpl. rewrite fmap_app. simpl.
  set (l := held ++ _ ++ _) at 1 2. intros [Hn Hf].
  replace (held ++ _ ++ _ ++ _ ++ [gd_next g]) with (l ++ [gd_next g]) by (unfold l; by rewrite !app_assoc).
  rewrite list.NoDup_app, Forall_app, Forall_singleton. rewrite list.Forall_forall in Hf. split_and!; [done | | | |lia].
  - intros x Hx ->%list_elem_of_singleton. apply Hf in Hx. lia.
  - apply NoDup_singleton.
  - apply list.Forall_forall. intros x Hx%Hf. lia.
Qed.
Lemma put_command_mails i : mails (put_command (C:=C) i).
Proof.
  apply mails_modify. intros g. destruct (gd_pending g !! i) as [c|] eqn:Hi; [|apply mail_refl].
  constructor; simpl; auto; [by eexists|]. intros held.
  match goal with |- _ → fresh _ ?s => set (g1 := s) end.
  assert (Hp : ids g1 ≡ₚ ids g).
  { unfold ids. simpl. rewrite <- (take_drop_middle _ _ _ Hi) at 3. rewrite !fmap_app. simpl. solve_Permutation. }
  unfold fresh. by rewrite Hp.
Qed.
Hint Resolve new_command_mails put_command_mails : mail.
Lemma poll_pidfd_mails E lease : mails (poll_pidfd (C:=C) E lease).
Proof. intros g0. unfold poll_pidfd, fileno. mailing. Qed.
Hint Resolve poll_pidfd_mails : mail.
Lemma caller_mails E call : mails (caller (C:=C) U E call).
Proof.
  intros g0. destruct call; simpl; unfold claim_pool, reserve_claim, end_lease, heartbeat, begin_close, refuse_claims; mailing.
Qed.
Hint Resolve caller_mails : mail.
Lemma sync_mails E : mails (sync (C:=C) U E).
Proof. intros g0. unfold sync. mailing. Qed.
Lemma ext_mails E : mails (ext (C:=C) E).
Proof. intros g0. unfold ext. mailing. Qed.
Hint Resolve sync_mails ext_mails : mail.
(** [locked f], where [f] leaves the mailbox. *)
Lemma locked_mails E (f : G → G) : (∀ g, mail g (f g)) → mails (locked U E f).
Proof. intros Hf g0. unfold locked. apply preserves_bind; [by apply sync_mails | intros _; by apply mails_modify]. Qed.

(** ** The actor's operations *)

Lemma bind_mails E address : mails (bind (C:=C) E address).
Proof. intros g0. unfold bind. mailing. Qed.
Lemma stop_core_mails : mails (stop_core (C:=C)).
Proof. intros g0. unfold stop_core. mailing. Qed.
Lemma escalate_mails E e : mails (escalate (C:=C) U E e).
Proof. intros g0. unfold escalate, ext_suppressed. mailing. Qed.
Lemma raise_failure_mails : mails (raise_failure (C:=C)).
Proof. intros g0. unfold raise_failure. mailing. Qed.
Hint Resolve bind_mails stop_core_mails escalate_mails raise_failure_mails : mail.
Lemma fail_guard_mails E e : mails (fail_guard (C:=C) U E e).
Proof. intros g0. unfold fail_guard, locked. mailing. Qed.
Lemma record_background_failure_mails E e : mails (record_background_failure (C:=C) U E e).
Proof. intros g0. unfold record_background_failure, locked, control_close. mailing. Qed.
Lemma hand_back_mails E : mails (hand_back (C:=C) U E).
Proof. intros g0. unfold hand_back, recover_hand_back. mailing. Qed.
Lemma close_control_mails E : mails (close_control (C:=C) E).
Proof. intros g0. unfold close_control, control_close. mailing. Qed.
Hint Resolve fail_guard_mails record_background_failure_mails hand_back_mails close_control_mails : mail.
Lemma promote_mails E : mails (promote (C:=C) U E).
Proof. intros g0. unfold promote, serve. mailing. Qed.
Lemma release_mails E : mails (release_primary (C:=C) U E).
Proof. intros g0. unfold release_primary, recover_release. mailing. Qed.
Hint Resolve promote_mails release_mails : mail.
Lemma clear_mails E lease : mails (locked (C:=C) U E (clear_if_current lease)).
Proof. apply locked_mails. intros g. unfold clear_if_current. case_decide; by apply mail_same. Qed.
Hint Resolve clear_mails : mail.
Lemma promote_for_mails E lease : mails (promote_for (C:=C) U E lease).
Proof. intros g0. unfold promote_for, close_lease. mailing. unfold locked. mailing. Qed.
Lemma stand_down_mails E lease : mails (stand_down (C:=C) U E lease).
Proof. intros g0. unfold stand_down, close_lease. mailing. unfold locked. mailing. Qed.
Hint Resolve promote_for_mails stand_down_mails : mail.

Lemma abort_mails E lease : mails (abort (C:=C) U E lease).
Proof. intros g0. unfold abort. mailing. Qed.
Lemma prepare_core_mails : mails (prepare_core (C:=C)).
Proof. intros g0. unfold prepare_core. mailing. Qed.
Hint Resolve prepare_core_mails : mail.
Lemma adopt_primary_mails E tier : mails (adopt_primary (C:=C) U E tier).
Proof.
  intros g0. unfold adopt_primary, adopt_checks, adopt_moves, refuse_incompatible, recover_configure, control_close.
  mailing.
Qed.
Hint Resolve abort_mails adopt_primary_mails : mail.
Lemma handle_claim_mails E lease tier address : mails (handle_claim (C:=C) U E lease tier address).
Proof.
  intros g0. unfold handle_claim, claim_body, commit_claim, unbind, ext_suppressed, locked, compose. mailing.
Qed.
Lemma poll_orphans_mails kept todo : mails (poll_orphans (C:=C) kept todo).
Proof. revert kept. induction todo as [|orphan todo IH]; intros kept g0; simpl; mailing; by apply IH. Qed.
Hint Resolve poll_orphans_mails : mail.
Lemma poll_mails E : mails (poll (C:=C) U E).
Proof. intros g0. unfold poll, raise_if_failed. mailing. Qed.
Lemma observe_holder_mails E : mails (observe_holder (C:=C) U E).
Proof.
  intros g0. unfold observe_holder, take_promotion, promote_missing, promote_dead, fence_missing_primary, fileno, locked.
  mailing.
Qed.
Lemma close_orphans_mails failure kept todo : mails (close_orphans (C:=C) failure kept todo).
Proof.
  revert failure kept. induction todo as [|orphan todo IH]; intros failure kept g0; simpl;
    unfold close_core_guarded; mailing; apply IH.
Qed.
Hint Resolve close_orphans_mails : mail.
Lemma lease_close_mails E : mails (lease_close (C:=C) E).
Proof.
  intros g0. unfold lease_close, close_lease. apply preserves_bind; [mailing | intros lease].
  apply preserves_bind; [destruct lease as [l|]; [|mailing] | intros _; mailing].
  apply preserves_bind; [mailing | intros _]. apply mails_modify. intros g. unfold clear_if_current.
  case_decide; by apply mail_same.
Qed.
Hint Resolve lease_close_mails : mail.
Lemma close_guard_mails E : mails (close_guard (C:=C) U E).
Proof.
  intros g0. unfold close_guard, close_resources, close_current_core, close_core_guarded, give_back, recover_close,
    raise_option, locked. mailing.
Qed.
Hint Resolve handle_claim_mails poll_mails observe_holder_mails close_guard_mails : mail.
Lemma run_op_mails E op : mails (run_op (C:=C) U E op).
Proof. intros g0. destruct op; simpl; mailing. Qed.

(** ** What cannot raise *)

Definition silent {A} (m : M G A) : Prop := ∀ g, wp m (λ _ _, True) (λ _ _, False) g.
Lemma sync_silent E : silent (sync (C:=C) U E).
Proof.
  intros g. unfold sync. apply wp_bind. unfold wp at 1. simpl.
  apply (wp_for_each _ _ (λ _ _, True)); [done | | done]. intros call r g' _. apply wp_try_except.
  unfold wp. by destruct (caller U E call g') as [[]].
Qed.
Lemma locked_mail_wp E f (Q : unit → G → Prop) Ex g :
  (∀ g', mail g g' → Q tt (f g')) → wp (locked U E f) Q Ex g.
Proof.
  intros HQ. unfold locked. apply wp_bind. pose proof (sync_silent E g) as Hs.
  pose proof (sync_mails E g g (mail_refl g)) as Hm. unfold wp in *.
  destruct (sync U E g) as [[[]|e] g']; [by apply HQ | done].
Qed.

(** ** Answers *)

(** [g'] is [g] with one more command answered, and the rest of the mailbox where it was. *)
Definition one_answer (i : nat) g g' : Prop :=
  (∃ l, gd_commands g' = gd_commands g ++ l) ∧ gd_alive g' = gd_alive g ∧
  (∃ r, gd_answers g' = gd_answers g ++ [(i, r)]) ∧
  (∀ held, fresh (i :: held) g → fresh held g').
Lemma answer_one c r g : one_answer (cmd_id c) g (answer c r g).2.
Proof.
  split_and!; [exists []; by rewrite app_nil_r | done | by eexists |].
  intros held. unfold fresh, ids. simpl. rewrite fmap_app. simpl.
  assert (∀ l : list nat, held ++ ((gd_answers g).*1 ++ [cmd_id c]) ++ l ≡ₚ cmd_id c :: held ++ (gd_answers g).*1 ++ l) as Hp.
  { intros l. solve_Permutation. }
  by rewrite Hp.
Qed.
Lemma one_answer_mail i g g1 g2 : mail g g1 → one_answer i g1 g2 → one_answer i g g2.
Proof.
  intros [(l1 & E1) A1 L1 F1] ((l2 & E2) & L2 & (r & A2) & F2). split_and!; [| congruence | |auto].
  - exists (l1 ++ l2). by rewrite E2, E1, app_assoc.
  - exists r. by rewrite A2, A1.
Qed.
Lemma one_answer_after i g g1 g2 : one_answer i g g1 → mail g1 g2 → one_answer i g g2.
Proof.
  intros ((l1 & E1) & L1 & (r & A1) & F1) [(l2 & E2) A2 L2 F2]. split_and!; [| congruence | |auto].
  - exists (l1 ++ l2). by rewrite E2, E1, app_assoc.
  - exists r. by rewrite A2, A1.
Qed.
Lemma mails_wp {A} (m : M G A) (Q : A → G → Prop) Ex g : mails m →
  (∀ x g', mail g g' → Q x g') → (∀ e g', mail g g' → Ex e g') → wp m Q Ex g.
Proof. intros Hm HQ HE. eapply wp_use with (P := mail g); [apply Hm | apply mail_refl | auto | auto]. Qed.

(** The end of a command: its transition is over, it is answered, a failed close is final. *)
Lemma finish_answers {A} E c r (k : M G A) (Q : A → G → Prop) Ex g g' : mail g g' →
  (∀ g'', one_answer (cmd_id c) g g'' → wp k Q Ex g'') →
  wp (locked U E (set_gd_reserved None) ;; answer c r ;; k) Q Ex g'.
Proof.
  intros Hm HQ. apply wp_bind, locked_mail_wp. intros g1 H1. apply wp_bind, wp_modify, HQ.
  apply (one_answer_mail _ _ (set_gd_reserved None g1)); [|apply answer_one].
  eapply mail_trans; [exact Hm|]. eapply mail_trans; [exact H1 | by apply mail_same].
Qed.
Definition final E (c : Command) (failed : option exn) : M G bool :=
  if is_close (cmd_op c) then
    (match failed with
     | Some e => locked U E (λ g, set_gd_phase GUARD_FAILED (set_gd_failure (Some e) g))
     | None => mret tt
     end) ;; mret false
  else mret true.
Lemma final_answers E c failed g g' : one_answer (cmd_id c) g g' →
  wp (final E c failed) (λ _, one_answer (cmd_id c) g) (λ _ _, False) g'.
Proof.
  intros Ho. unfold final. destruct (is_close _); [|by apply wp_ret]. apply wp_bind.
  destruct failed; [|by apply wp_ret, wp_ret]. apply locked_mail_wp. intros g1 H1. apply wp_ret.
  eapply one_answer_after; [exact Ho|]. eapply mail_trans; [exact H1 | by apply mail_same].
Qed.
Lemma revalidate_silent E op g : wp (revalidate U E op) (λ _, mail g) (λ _ _, False) g.
Proof.
  unfold revalidate. destruct (lease_of _) as [lease|]; [|by apply wp_ret, mail_refl].
  apply wp_bind. pose proof (sync_silent E g) as Hs. pose proof (sync_mails E g g (mail_refl g)) as Hm.
  unfold wp at 1 in Hs. unfold wp at 1. destruct (sync U E g) as [[[]|e] g1]; [|done].
  apply wp_bind, wp_get. case_decide; [|by apply wp_ret].
  unfold note. apply wp_bind, wp_modify, wp_bind, wp_modify, wp_ret.
  eapply mail_trans; [exact Hm | by apply mail_same].
Qed.
(** Taken up, a command is answered: whatever its operation does. *)
Lemma dispatch_answers E c g :
  wp (dispatch U E c) (λ _, one_answer (cmd_id c) g) (λ _ _, False) g.
Proof.
  unfold dispatch. apply wp_bind. eapply wp_mono; [apply revalidate_silent | | done].
  intros current g' Hm. destruct current; simpl.
  - apply wp_bind, wp_try_except, wp_bind. eapply mails_wp; [apply run_op_mails | |].
    + intros r g1 H1. eapply finish_answers; [by apply (mail_trans _ g')|]. intros g2 H2. apply wp_ret.
      by apply (final_answers E c None).
    + intros e g1 H1. eapply finish_answers; [by apply (mail_trans _ g')|]. intros g2 H2. apply wp_ret.
      by apply (final_answers E c (Some e)).
  - apply wp_bind, wp_modify, wp_ret. eapply one_answer_mail; [exact Hm | apply answer_one].
Qed.

(** ** Rounds *)

Lemma drain_answers (cs : list Command) g :
  ∃ g', for_each cs (λ c, answer c (Raise closed_error)) g = (Ret tt, g') ∧
    (gd_answers g').*1 = (gd_answers g).*1 ++ (cmd_id <$> cs) ∧ gd_commands g' = gd_commands g ∧
    gd_pending g' = gd_pending g ∧ gd_next g' = gd_next g.
Proof.
  revert g. induction cs as [|c cs IH]; intros g0; simpl; [exists g0; by rewrite app_nil_r|].
  destruct (IH (answer c (Raise closed_error) g0).2) as (g' & Hg & Ha & Hc & Hp & Hn).
  exists g'. unfold mbind, M_bind. simpl in *. rewrite Hg. split_and!; try done.
  by rewrite Ha, fmap_app, <- app_assoc.
Qed.
Lemma exit_answers E g : ∃ l g', exit_actor U E g = (Ret tt, g') ∧ gd_alive g' = false ∧
  gd_commands g' = [] ∧ (gd_answers g').*1 = (gd_answers g).*1 ++ (cmd_id <$> gd_commands g) ++ l ∧
  ∀ held, fresh held g → fresh held g'.
Proof.
  assert (wp (exit_actor U E) (λ _ g', gd_alive g' = false ∧ gd_commands g' = [] ∧
    (∃ l, (gd_answers g').*1 = (gd_answers g).*1 ++ (cmd_id <$> gd_commands g) ++ l) ∧
    ∀ held, fresh held g → fresh held g') (λ _ _, False) g) as Hw.
  { unfold exit_actor, note. apply wp_bind, locked_mail_wp. intros g1 H1. apply wp_bind, wp_modify, wp_bind, wp_gets.
    match goal with |- wp _ _ _ ?s => set (g2 := s) end.
    assert (H2 : mail g g2) by (eapply mail_trans; [exact H1 | by apply mail_same]).
    destruct (drain_answers (gd_commands g2) g2) as (g3 & H3 & Ha & Hc & Hp & Hn).
    apply wp_bind. unfold wp at 1. rewrite H3. apply wp_modify.
    destruct H2 as [(l & El) Ea _ Hf]. split_and!; [done | done | |].
    - exists (cmd_id <$> l). simpl. by rewrite Ha, Ea, El, fmap_app.
    - intros held [Hnd Hlt]%Hf. unfold fresh, ids in *. simpl. rewrite Hp, Hn, Ha.
      rewrite <- app_assoc. by split. }
  unfold wp in Hw. destruct (exit_actor U E g) as [[[]|] g']; [|done].
  destruct Hw as (? & ? & (l & ?) & ?). by exists l, g'.
Qed.

(** What was answered, and what still waits, is what waited before and what came since. *)
Definition served (k : list nat) g g' : Prop :=
  (gd_answers g').*1 = (gd_answers g).*1 ++ k ∧
  (∃ l, k ++ (cmd_id <$> gd_commands g') = (cmd_id <$> gd_commands g) ++ l) ∧
  ∀ held, fresh held g → fresh held g'.
Lemma mail_served g g' : mail g g' → served [] g g'.
Proof.
  intros [(l & El) Ea _ Hf]. split_and!; [by rewrite Ea, app_nil_r | | done].
  exists (cmd_id <$> l). by rewrite El, fmap_app.
Qed.
Lemma served_trans k k' g g1 g2 : served k g g1 → served k' g1 g2 → served (k ++ k') g g2.
Proof.
  intros (A1 & (l1 & E1) & F1) (A2 & (l2 & E2) & F2). split_and!; [by rewrite A2, A1, app_assoc | | auto].
  exists (l1 ++ l2). by rewrite <- app_assoc, E2, app_assoc, E1, app_assoc.
Qed.
Lemma record_silent E e g : wp (record_background_failure U E e) (λ _, mail g) (λ _ _, False) g.
Proof.
  assert (wp (record_background_failure U E e) (λ _ _, True) (λ _ _, False) g) as Hs.
  { assert (∀ g', wp (escalate U E e) (λ _ _, True) (λ _ _, False) g') as Hesc.
    { intros g'. unfold escalate, note, ext_suppressed. apply wp_bind, wp_modify, wp_bind, wp_try_except.
      eapply mails_wp; [apply ext_mails | |]; intros ? ? _; [|apply wp_ret]; apply sync_silent. }
    unfold record_background_failure, control_close. apply wp_bind, locked_mail_wp. intros g1 _.
    apply wp_bind, wp_try_except. eapply mails_wp; [intros g0; mailing | |]; intros ? ? _; [|apply wp_ret]; apply Hesc. }
  pose proof (record_background_failure_mails E e g g (mail_refl g)) as Hm. unfold wp in *.
  by destruct (record_background_failure U E e g) as [[[]|] g'].
Qed.
(** One round of the actor. *)
Definition turned g g' : Prop := ∃ k, served k g g' ∧ (gd_commands g ≠ [] → k ≠ []) ∧
  (gd_alive g' = false → gd_alive g = false ∨ gd_commands g' = []).
Lemma exit_turned E k g g' : served k g g' → (gd_commands g ≠ [] → k ≠ [] ∨ gd_commands g' ≠ []) →
  turned g (exit_actor U E g').2.
Proof.
  intros Hs Hk. destruct (exit_answers E g') as (l & g2 & Hg2 & Hal & Hc & Ha & Hf). rewrite Hg2. simpl.
  exists (k ++ ((cmd_id <$> gd_commands g') ++ l)). split_and!.
  - eapply served_trans; [exact Hs|]. split_and!; [done | | done]. exists l. by rewrite Hc, app_nil_r.
  - intros [Hne|Hne]%Hk; [by destruct k|]. destruct k; [|done]. by destruct (gd_commands g').
  - by right.
Qed.
Lemma actor_turn_turned E g : turned g (actor_turn U E g).2.
Proof.
  assert (Hexit : ∀ k g', served k g g' → (gd_commands g ≠ [] → k ≠ [] ∨ gd_commands g' ≠ []) →
    wp (exit_actor U E) (λ _, turned g) (λ _ _, False) g').
  { intros k g' Hs Hk. pose proof (exit_turned E k g g' Hs Hk) as Ht.
    destruct (exit_answers E g') as (l & g2 & Hg2 & _). unfold wp. by rewrite Hg2 in *. }
  assert (Hfail : ∀ e g', mail g g' → wp (record_background_failure U E e ;; exit_actor U E)
    (λ _, turned g) (λ _ _, False) g').
  { intros e g' Hm. apply wp_bind. eapply wp_mono; [apply record_silent | | done]. intros [] g2 H2.
    assert (mail g g2) as [] by by eapply mail_trans. apply (Hexit []); [by apply mail_served|].
    intros Hne. right. destruct ma_commands0 as (l & ->). by destruct (gd_commands g). }
  assert (wp (actor_turn U E) (λ _, turned g) (λ _ _, False) g) as Hw.
  { unfold actor_turn, serve_round. apply wp_try_except, wp_bind, wp_bind.
    pose proof (sync_silent E g) as Hs. pose proof (sync_mails E g g (mail_refl g)) as Hm.
    unfold wp at 1 in Hs. unfold wp at 1. destruct (sync U E g) as [[[]|e] g1]; [|done].
    apply wp_bind, wp_gets. destruct (gd_commands g1) as [|c rest] eqn:Hc.
    - assert (He : gd_commands g = []). { destruct Hm as [(l & El) _ _ _]. rewrite Hc in El. by destruct (gd_commands g). }
      apply wp_bind. eapply mails_wp; [apply observe_holder_mails | |].
      2:{ intros e g2 H2. apply Hfail. by eapply mail_trans. }
      intros [] g2 H2. assert (Hm2 : mail g g2) by by eapply mail_trans.
      apply wp_bind. eapply mails_wp; [apply poll_mails | |].
      2:{ intros e g3 H3. apply Hfail. by eapply mail_trans. }
      intros b g3 H3. apply wp_ret, wp_ret. assert (Hm3 : mail g g3) by by eapply mail_trans.
      exists []. split_and!; [by apply mail_served | by rewrite He | ]. rewrite (ma_alive _ _ Hm3). by left.
    - apply wp_bind, wp_modify. eapply wp_mono; [apply dispatch_answers | | done].
      intros more g2 Ho. assert (Hsv : served [cmd_id c] g g2 ∧ gd_alive g2 = gd_alive g).
      { destruct Ho as ((l & El) & Hal & (r & Ar) & Hf). destruct Hm as [(l0 & E0) Ea Ealive Fr]. simpl in *.
        split; [|congruence]. split_and!.
        - by rewrite Ar, Ea, fmap_app.
        - exists (cmd_id <$> l0 ++ l). rewrite El.
          change ([cmd_id c] ++ (cmd_id <$> rest ++ l)) with (cmd_id <$> (c :: rest) ++ l).
          by rewrite <- Hc, E0, <- app_assoc, fmap_app.
        - intros held Hh%Fr. apply Hf. unfold fresh, ids in *. simpl in *. rewrite Hc in Hh. simpl in Hh.
          by rewrite <- !Permutation_middle in Hh. }
      destruct Hsv as [Hsv Hal]. destruct more; simpl.
      + apply wp_ret. exists [cmd_id c]. split_and!; [done | done | rewrite Hal; by left].
      + eapply wp_mono; [by apply (Hexit [cmd_id c]); [|by left] | done | done]. }
  unfold wp in Hw. by destruct (actor_turn U E g) as [[[]|] g'].
Qed.

(** The rounds an actor makes, each in its own environment, until its thread ends. *)
Fixpoint rounds (Es : list GuardEnv) (g : G) : G :=
  match Es with
  | [] => g
  | E :: Es => if gd_alive g then rounds Es (actor_turn U E g).2 else g
  end.
Lemma served_refl g : served [] g g.
Proof. apply mail_served, mail_refl. Qed.
Lemma served_length k g g' : served k g g' →
  length (gd_commands g) ≤ length k + length (gd_commands g').
Proof.
  intros (_ & (l & E) & _). apply (f_equal length) in E. rewrite !length_app, !length_fmap in E. lia.
Qed.
Lemma rounds_served Es m g : gd_alive g = true → m ≤ length Es → m ≤ length (gd_commands g) →
  ∃ k, served k g (rounds Es g) ∧ m ≤ length k.
Proof.
  revert m g. induction Es as [|E Es IH]; intros m g Ha Hm Hq; simpl in *.
  { exists []. split; [apply served_refl | done]. }
  rewrite Ha. destruct (actor_turn_turned E g) as (k1 & Hs1 & Hk1 & Hd1).
  pose proof (served_length _ _ _ Hs1) as Hl1. set (g1 := (actor_turn U E g).2) in *.
  destruct (gd_alive g1) eqn:Ha1.
  - assert (m - length k1 ≤ length Es) as Hm1.
    { destruct m as [|m]; [lia|]. destruct k1; [|simpl; lia]. destruct Hk1; [|done]. by destruct (gd_commands g); simpl in *; [lia|]. }
    destruct (IH (m - length k1) g1 Ha1 Hm1 ltac:(lia)) as (k2 & Hs2 & Hk2).
    exists (k1 ++ k2). split; [by eapply served_trans|]. rewrite length_app. lia.
  - exists k1. assert (rounds Es g1 = g1) as ->. { destruct Es; simpl; [done | by rewrite Ha1]. }
    split; [done|]. destruct (Hd1 eq_refl) as [?|Hc]; [congruence|]. rewrite Hc in Hl1. simpl in Hl1. lia.
Qed.

(** Futures are numbered apart. *)
Lemma mails_fresh {A} (m : M G A) g : mails m → fresh [] g → fresh [] (m g).2.
Proof. intros Hm Hf. specialize (Hm g g (mail_refl g)). destruct (m g) as [[]]; by apply (ma_fresh _ _ Hm). Qed.
Lemma step_fresh g g' : gstep U g g' → fresh [] g → fresh [] g'.
Proof.
  intros [E attached g0|E g0 Ha|E call g0|E g0 Ha|E g0 Ha|g0 Hst Ha] Hf.
  - assert (wp (start_guard E attached) (λ _, fresh []) (λ _, fresh []) g0) as Hw.
    { unfold start_guard. apply wp_bind, wp_gets. destruct (gd_started g0); [by apply wp_raise|].
      apply wp_bind, wp_modify, wp_bind.
      eapply mails_wp; [apply mails_on_recovery | | by intros e g1 H1; apply H1].
      intros [] g1 H1. apply wp_bind. eapply mails_wp; [apply ext_mails | | by intros e g2 H2; apply H2, H1].
      intros [] g2 H2. apply wp_modify. by apply (ma_fresh _ _ H2 []), (ma_fresh _ _ H1 []). }
    unfold wp in Hw. by destruct (start_guard E attached g0) as [[]].
  - destruct (actor_turn_turned E g0) as (k & (_ & _ & Hfr) & _). by apply Hfr.
  - apply mails_fresh; [apply caller_mails | done].
  - apply mails_fresh; [|done]. intros g1. unfold begin_close_inline, close_resources, close_current_core,
      close_core_guarded, give_back, recover_close, raise_option. mailing.
  - apply mails_fresh; [|done]. intros g1. unfold reclaim_pool. mailing.
  - unfold answer_racer, mbind, M_bind, gets. simpl.
    destruct (drain_answers (gd_commands g0) g0) as (g1 & -> & Ha' & Hc & Hp & Hn). simpl.
    unfold fresh, ids in *. simpl. rewrite Ha', Hp, Hn. by rewrite <- app_assoc.
Qed.
Lemma reachable_fresh owned shared file g : rtc (gstep U) (guard_new owned shared file) g → fresh [] g.
Proof.
  intros Hr. assert (∀ g0, rtc (gstep U) g0 g → fresh [] g0 → fresh [] g) as Hind.
  { induction 1; eauto using step_fresh. }
  eapply Hind; [exact Hr|]. split; [apply NoDup_nil_2 | apply Forall_nil_2].
Qed.

(** C19: a command in the mailbox of a Guard whose actor runs is answered after at most as many
    rounds as there are commands before it and itself, in the order they were put, and each once:
    whatever fails, whatever other threads do meanwhile, and also when the actor ends. *)
Theorem commands_answered owned shared file g Es :
  rtc (gstep U) (guard_new owned shared file) g → gd_alive g = true →
  length (gd_commands g) ≤ length Es →
  (∃ l, (gd_answers (rounds Es g)).*1 = (gd_answers g).*1 ++ (cmd_id <$> gd_commands g) ++ l) ∧
  NoDup (gd_answers (rounds Es g)).*1.
Proof.
  intros Hr%reachable_fresh Ha Hl.
  destruct (rounds_served Es _ g Ha Hl (le_n _)) as (k & (E & (l & El) & Hf) & Hk).
  split; [|apply Hf in Hr as [Hn _]; unfold ids in Hn; rewrite app_nil_l in Hn; by apply list.NoDup_app in Hn as [? _]].
  exists (drop (length (gd_commands g)) k). rewrite E. f_equal.
  apply (f_equal (take (length (gd_commands g)))) in El.
  rewrite take_app_le in El by done.
  rewrite (take_app_length' (cmd_id <$> gd_commands g)) in El by (by rewrite length_fmap). by rewrite <- El, take_drop.
Qed.
End Mail.
