(* ===== verification/GuardDemo.v ===== *)
(** * A Guard at work

    A concrete Guard, its core and its environments, for the witnesses of the Guard's theorems. *)

From Stdlib Require Import ZArith Lia.
From S2P Require Import Prelude PyFloat Types Layout State Journal JournalThm Mirror MirrorThm Snapshot SnapshotThm Protocol RecoveryState Guard GuardOwn GuardSafe GuardLive.

(** A core that holds the records it was given, and never fails. *)
Module StillCore.
#[global] Instance ops : CoreOps Records := {|
  core_new _ _ _ := Ret ∅;
  core_prepare _ := mret tt;
  core_prepared _ _ := true;
  core_failure _ _ := None;
  core_adopt _ records := put records;
  core_start _ := mret tt;
  core_poll _ _ := mret tt;
  core_close _ := mret tt;
  core_quiescent _ _ := true;
  core_records records := records |}.
End StillCore.

Module GuardDemo.
Definition setup : Setup := mkSetup 40 16 0 SnapDemo.sha Demo.encode Demo.decode SnapDemo.encode_pools
  (mkPoolSpec "0123456789abcdef0123456789abcdef" 8 24 3 4) "ab" [16%Z] None.
(** Nothing fails, the holder lives, and no other thread calls. *)
Definition calm : GuardEnv :=
  mkGuardEnv (λ _, None) (λ _, None) (λ _, None) (λ _, fzero) (λ _, Written) (λ _, []).
(** The same, with the holder gone. *)
Definition gone : GuardEnv :=
  mkGuardEnv (λ _, None) (λ _, Some 1%Z) (λ _, None) (λ _, fzero) (λ _, Written) (λ _, []).
Definition tier : TierConfig := mkTierConfig [("a", 8%Z)] None "UCX".
Definition first : Lease := mkLease 0 (Some "one").
Definition second : Lease := mkLease 1 (Some "two").
Definition fresh : Guard Records := guard_new true (mkShared 5 24 8 (replicate 40 0%Z)) SnapDemo.file.

(** A claim is made and taken up. *)
Definition claimed (l : Lease) (g : Guard Records) : Guard Records :=
  let g := (caller setup calm (CallClaim l tier ("10.0.0.1", 5555%Z)) g).2 in
  let g := (caller setup calm (CallPut 0) g).2 in
  (actor_turn setup calm g).2.
Definition started : Guard Records := (start_guard calm None fresh).2.
Definition held : Guard Records := claimed first started.
Definition standing : Guard Records := (actor_turn setup gone held).2.
Definition replaced : Guard Records := claimed second standing.
Lemma claimed_run l g : gd_alive ((caller setup calm (CallPut 0) (caller setup calm (CallClaim l tier ("10.0.0.1", 5555%Z)) g).2).2) = true →
  rtc (gstep setup) g (claimed l g).
Proof.
  intros Ha. eapply rtc_l; [apply (GCall setup calm)|]. eapply rtc_l; [apply (GCall setup calm)|].
  eapply rtc_l; [by apply (GTurn setup calm)|]. apply rtc_refl.
Qed.
Lemma replaced_reachable : rtc (gstep setup) fresh replaced.
Proof.
  eapply rtc_l; [apply (GStart setup calm None)|]. etrans; [apply (claimed_run first); vm_compute; reflexivity|].
  eapply rtc_l; [apply (GTurn setup gone); vm_compute; reflexivity|]. apply (claimed_run second). vm_compute. reflexivity.
Qed.
Lemma replaced_trace : gd_trace replaced =
  [Granted_to first; SawDeath first; Serves; Stops; Granted_to second].
Proof. vm_compute. reflexivity. Qed.
End GuardDemo.

Lemma ownership_kept_witness : ∃ o,
  own_run own_start [Granted_to GuardDemo.first; SawDeath GuardDemo.first; Serves; Stops; Granted_to GuardDemo.second]
    = Some o ∧ ow_holder o = Some GuardDemo.second.
Proof.
  destruct (ownership_kept GuardDemo.setup true (mkShared 5 24 8 (replicate 40 0%Z)) SnapDemo.file
    GuardDemo.replaced GuardDemo.replaced_reachable) as (o & Ho & Hh).
  rewrite GuardDemo.replaced_trace in Ho. exists o. split; [exact Ho|].
  destruct Hh as [-> _]; vm_compute; reflexivity.
Defined.
Lemma commands_answered_witness :
  let g := (caller GuardDemo.setup GuardDemo.calm (CallPut 0)
    (caller GuardDemo.setup GuardDemo.calm (CallClaim GuardDemo.first GuardDemo.tier ("10.0.0.1", 5555%Z)) GuardDemo.started).2).2 in
  ∃ l, (gd_answers (rounds GuardDemo.setup [GuardDemo.calm] g)).*1 = [0] ++ l.
Proof.
  intros g.
  destruct (commands_answered GuardDemo.setup true (mkShared 5 24 8 (replicate 40 0%Z)) SnapDemo.file g [GuardDemo.calm])
    as [[l Hl] _].
  - eapply rtc_l; [apply (GStart GuardDemo.setup GuardDemo.calm None)|].
    eapply rtc_l; [apply (GCall GuardDemo.setup GuardDemo.calm)|].
    eapply rtc_l; [apply (GCall GuardDemo.setup GuardDemo.calm)|]. apply rtc_refl.
  - vm_compute. reflexivity.
  - vm_compute. lia.
  - by exists l.
Defined.
