(* ===== verification/Progress.v ===== *)
(** * The progress thread

    The life of [_KVCRProgress] of [src/src/kvcr/runtime/progress.py]: one thread starts the
    NIXL agent, registers the memory, runs the backends' loop and, whatever happens, gives
    back what it holds.  [thread_turn] executes the thread up to the next point where another
    thread's writes can be seen; the methods the main thread calls ([start], [prepare],
    [submit], [take_completed], [is_quiescent], [close]) are sequences of atomic actions with
    turns of the thread wherever they wait.  The NIXL agent, the clock and the backends'
    callbacks are interfaces. *)

From Stdlib Require Import ZArith Lia.
From S2P Require Import Prelude PyFloat Types Layout State Transfer.

(** What the callbacks of the backends see: the transfers and prepared memory of the thread,
    and everything outside it. *)
Notation Port W := (Prog * W)%type.

(** The NIXL agent. *)
Class Agent (W : Type) := {
  create_agent : M W unit;
  register_memory : Z * Z * Z → string → M W Z;
  deregister_memory : Z → M W bool;
  prep_xfer_dlist : string → string → result (option Z);
  release_dlist_handle : Z → bool;
  get_agent_metadata : option (M W string) }.

(** [time.monotonic] and [time.sleep(_IDLE_WAIT_SECONDS)], in milliseconds. *)
Class Clock (W : Type) := {
  monotonic : W → Z;
  idle : W → W }.

(** The backends: operations that advance, and the callbacks of [__init__]. *)
Class Backend (W Op Req Ev Item : Type) := {
  bk_op_id : Op → OpId;
  bk_item : Op → Item;
  bk_progress : Op → option Ev → M (Port W) (Op * bool * bool);
  bk_op_close : Op → M (Port W) (Op * bool);
  bk_initialize : M (Port W) unit;
  bk_poll : list Req → M (Port W) ((OpId → option Ev) * bool);
  bk_flush : Port W → list Item * Port W;
  bk_close : M (Port W) unit }.

(** Where the thread is. *)
Inductive Pc :=
  | NotStarted
  | AtAgent                       (* [_initialize_nixl] *)
  | AtBranch                      (* prepared only, or activated already *)
  | AtEarlyRegister
  | AtActivation                  (* [_activate.wait()] *)
  | AtEarlyBackends
  | AtBackends | AtRegister
  | AtMetadata
  | AtLoop
  | AtCleanup
  | AtOps (deadline : Z)          (* [_close_progress_ops] *)
  | AtFinish (pending : option exn)
  | Dead.
#[export] Instance Pc_eq_dec : EqDecision Pc.
Proof. solve_decision. Defined.

(** What is submitted: an operation, an item for the backends, or [_STOP]. *)
Inductive Submitted (Op Req : Type) := SubOp (op : Op) | SubItem (item : Req) | SubStop.
Arguments SubOp {_ _} _.
Arguments SubItem {_ _} _.
Arguments SubStop {_ _}.

(** The thread with its queues and events.  [t_granted] and [t_released] are the
    registrations the agent gave out and took back; [t_emitted] and [t_taken] the items the
    thread finished and the main thread took. *)
Record Thread (W Op Req Item : Type) := mkThread {
  t_pc : Pc;
  t_port : Port W;
  t_agent : bool;
  t_metadata : option string;
  t_registrations : list Z;
  t_submissions : list (Submitted Op Req);
  t_loop : @Loop Op Item;
  t_ready : bool;
  t_prepare_ready : bool;
  t_activate : bool;
  t_close_requested : bool;
  t_stop_requested : bool;
  t_failure : option exn;
  t_granted : list Z;
  t_released : list Z;
  t_emitted : list Item;
  t_taken : list Item }.
Arguments mkThread {_ _ _ _}.
Arguments t_pc {_ _ _ _} _.
Arguments t_port {_ _ _ _} _.
Arguments t_agent {_ _ _ _} _.
Arguments t_metadata {_ _ _ _} _.
Arguments t_registrations {_ _ _ _} _.
Arguments t_submissions {_ _ _ _} _.
Arguments t_loop {_ _ _ _} _.
Arguments t_ready {_ _ _ _} _.
Arguments t_prepare_ready {_ _ _ _} _.
Arguments t_activate {_ _ _ _} _.
Arguments t_close_requested {_ _ _ _} _.
Arguments t_stop_requested {_ _ _ _} _.
Arguments t_failure {_ _ _ _} _.
Arguments t_granted {_ _ _ _} _.
Arguments t_released {_ _ _ _} _.
Arguments t_emitted {_ _ _ _} _.
Arguments t_taken {_ _ _ _} _.

Section Fields.
Context {W Op Req Item : Type}.
Notation T := (Thread W Op Req Item).
Definition set_t_pc (v : Pc) (s : T) : T :=
  mkThread v (t_port s) (t_agent s) (t_metadata s) (t_registrations s) (t_submissions s)
    (t_loop s) (t_ready s) (t_prepare_ready s) (t_activate s) (t_close_requested s)
    (t_stop_requested s) (t_failure s) (t_granted s) (t_released s) (t_emitted s) (t_taken s).
Definition set_t_port (v : Port W) (s : T) : T :=
  mkThread (t_pc s) v (t_agent s) (t_metadata s) (t_registrations s) (t_submissions s) (t_loop s)
    (t_ready s) (t_prepare_ready s) (t_activate s) (t_close_requested s) (t_stop_requested s)
    (t_failure s) (t_granted s) (t_released s) (t_emitted s) (t_taken s).
Definition set_t_agent (v : bool) (s : T) : T :=
  mkThread (t_pc s) (t_port s) v (t_metadata s) (t_registrations s) (t_submissions s) (t_loop s)
    (t_ready s) (t_prepare_ready s) (t_activate s) (t_close_requested s) (t_stop_requested s)
    (t_failure s) (t_granted s) (t_released s) (t_emitted s) (t_taken s).
Definition set_t_metadata (v : option string) (s : T) : T :=
  mkThread (t_pc s) (t_port s) (t_agent s) v (t_registrations s) (t_submissions s) (t_loop s)
    (t_ready s) (t_prepare_ready s) (t_activate s) (t_close_requested s) (t_stop_requested s)
    (t_failure s) (t_granted s) (t_released s) (t_emitted s) (t_taken s).
Definition set_t_registrations (v : list Z) (s : T) : T :=
  mkThread (t_pc s) (t_port s) (t_agent s) (t_metadata s) v (t_submissions s) (t_loop s)
    (t_ready s) (t_prepare_ready s) (t_activate s) (t_close_requested s) (t_stop_requested s)
    (t_failure s) (t_granted s) (t_released s) (t_emitted s) (t_taken s).
Definition set_t_submissions (v : list (Submitted Op Req)) (s : T) : T :=
  mkThread (t_pc s) (t_port s) (t_agent s) (t_metadata s) (t_registrations s) v (t_loop s)
    (t_ready s) (t_prepare_ready s) (t_activate s) (t_close_requested s) (t_stop_requested s)
    (t_failure s) (t_granted s) (t_released s) (t_emitted s) (t_taken s).
Definition set_t_loop (v : @Loop Op Item) (s : T) : T :=
  mkThread (t_pc s) (t_port s) (t_agent s) (t_metadata s) (t_registrations s) (t_submissions s) v
    (t_ready s) (t_prepare_ready s) (t_activate s) (t_close_requested s) (t_stop_requested s)
    (t_failure s) (t_granted s) (t_released s) (t_emitted s) (t_taken s).
Definition set_t_ready (v : bool) (s : T) : T :=
  mkThread (t_pc s) (t_port s) (t_agent s) (t_metadata s) (t_registrations s) (t_submissions s)
    (t_loop s) v (t_prepare_ready s) (t_activate s) (t_close_requested s) (t_stop_requested s)
    (t_failure s) (t_granted s) (t_released s) (t_emitted s) (t_taken s).
Definition set_t_prepare_ready (v : bool) (s : T) : T :=
  mkThread (t_pc s) (t_port s) (t_agent s) (t_metadata s) (t_registrations s) (t_submissions s)
    (t_loop s) (t_ready s) v (t_activate s) (t_close_requested s) (t_stop_requested s)
    (t_failure s) (t_granted s) (t_released s) (t_emitted s) (t_taken s).
Definition set_t_activate (v : bool) (s : T) : T :=
  mkThread (t_pc s) (t_port s) (t_agent s) (t_metadata s) (t_registrations s) (t_submissions s)
    (t_loop s) (t_ready s) (t_prepare_ready s) v (t_close_requested s) (t_stop_requested s)
    (t_failure s) (t_granted s) (t_released s) (t_emitted s) (t_taken s).
Definition set_t_close_requested (v : bool) (s : T) : T :=
  mkThread (t_pc s) (t_port s) (t_agent s) (t_metadata s) (t_registrations s) (t_submissions s)
    (t_loop s) (t_ready s) (t_prepare_ready s) (t_activate s) v (t_stop_requested s) (t_failure s)
    (t_granted s) (t_released s) (t_emitted s) (t_taken s).
Definition set_t_stop_requested (v : bool) (s : T) : T :=
  mkThread (t_pc s) (t_port s) (t_agent s) (t_metadata s) (t_registrations s) (t_submissions s)
    (t_loop s) (t_ready s) (t_prepare_ready s) (t_activate s) (t_close_requested s) v
    (t_failure s) (t_granted s) (t_released s) (t_emitted s) (t_taken s).
Definition set_t_failure (v : option exn) (s : T) : T :=
  mkThread (t_pc s) (t_port s) (t_agent s) (t_metadata s) (t_registrations s) (t_submissions s)
    (t_loop s) (t_ready s) (t_prepare_ready s) (t_activate s) (t_close_requested s)
    (t_stop_requested s) v (t_granted s) (t_released s) (t_emitted s) (t_taken s).
Definition set_t_granted (v : list Z) (s : T) : T :=
  mkThread (t_pc s) (t_port s) (t_agent s) (t_metadata s) (t_registrations s) (t_submissions s)
    (t_loop s) (t_ready s) (t_prepare_ready s) (t_activate s) (t_close_requested s)
    (t_stop_requested s) (t_failure s) v (t_released s) (t_emitted s) (t_taken s).
Definition set_t_released (v : list Z) (s : T) : T :=
  mkThread (t_pc s) (t_port s) (t_agent s) (t_metadata s) (t_registrations s) (t_submissions s)
    (t_loop s) (t_ready s) (t_prepare_ready s) (t_activate s) (t_close_requested s)
    (t_stop_requested s) (t_failure s) (t_granted s) v (t_emitted s) (t_taken s).
Definition set_t_emitted (v : list Item) (s : T) : T :=
  mkThread (t_pc s) (t_port s) (t_agent s) (t_metadata s) (t_registrations s) (t_submissions s)
    (t_loop s) (t_ready s) (t_prepare_ready s) (t_activate s) (t_close_requested s)
    (t_stop_requested s) (t_failure s) (t_granted s) (t_released s) v (t_taken s).
Definition set_t_taken (v : list Item) (s : T) : T :=
  mkThread (t_pc s) (t_port s) (t_agent s) (t_metadata s) (t_registrations s) (t_submissions s)
    (t_loop s) (t_ready s) (t_prepare_ready s) (t_activate s) (t_close_requested s)
    (t_stop_requested s) (t_failure s) (t_granted s) (t_released s) (t_emitted s) v.
End Fields.

Section Progress.
Context {W Op Req Ev Item : Type} `{!Agent W, !Clock W, !Backend W Op Req Ev Item}.
(** The configuration: [nixl_agent_name], [nixl_listen_port], [memory_regions] and
    [batch_size], where 0 is no limit. *)
Context (agent_name : option string) (listen_port : option Z) (memory_regions : RegionMaps)
        (batch_size : nat).
Notation T := (Thread W Op Req Item).

(** Run a callback, or an operation of the agent, on its part of the thread. *)
Definition on_port {A} (m : M (Port W) A) : M T A := λ s,
  let '(r, p) := m (t_port s) in (r, set_t_port p s).
Definition on_prog {A} (m : M Prog A) : M T A :=
  on_port (λ p, let '(r, g) := m p.1 in (r, (g, p.2))).
Definition on_world {A} (m : M W A) : M T A :=
  on_port (λ p, let '(r, w) := m p.2 in (r, (p.1, w))).

(** ** Start: the agent, the memory, the metadata *)

(** [_initialize_nixl] *)
Definition initialize_nixl : M T unit :=
  agent ← gets t_agent;
  match agent, agent_name, listen_port with
  | false, Some _, None => raise (RuntimeError "KVCR NIXL listen port is not configured")
  | false, Some _, Some _ => on_world create_agent ;; modify (set_t_agent true)
  | _, _, _ => mret tt
  end.

Definition region_list : list RegionDescriptor := memory_regions.1.*2 ++ memory_regions.2.*2.
Definition extent (region : RegionDescriptor) : Z :=
  (rd_size region + (rd_count region - 1) * pitch region)%Z.

(** [self.nixl_agent_name] *)
Definition own_name : M T string :=
  match agent_name with
  | Some name => if decide (name = "") then raise (RuntimeError "KVCR NIXL agent name is not configured")
                 else mret name
  | None => raise (RuntimeError "KVCR NIXL agent name is not configured")
  end.

Definition register_region (region : RegionDescriptor) : M T unit :=
  registration ← on_world (register_memory (rd_addr region, extent region, rd_device_Id region)
                             (rd_mem_type region));
  modify (λ s, set_t_granted (t_granted s ++ [registration]) s) ;;
  modify (λ s, set_t_registrations (t_registrations s ++ [registration]) s).

(** [_register_memory_regions] *)
Definition register_memory_regions : M T unit :=
  agent ← gets t_agent;
  if negb agent || bool_decide (region_list = []) then mret tt
  else
    for_each region_list register_region ;;
    name ← own_name;
    on_prog (prepare_memory prep_xfer_dlist release_dlist_handle name "" memory_regions None) ;;
    on_prog (prepare_memory prep_xfer_dlist release_dlist_handle name name memory_regions None).

(** [_capture_agent_metadata] *)
Definition capture_agent_metadata : M T unit :=
  agent ← gets t_agent;
  match agent, get_agent_metadata with
  | true, Some metadata => m ← on_world metadata; modify (set_t_metadata (Some m))
  | _, _ => mret tt
  end.

(** ** The loop *)

Definition room (used available : nat) : nat :=
  if decide (batch_size = 0) then available else batch_size - used.

(** [_publish_completed] with what is left of the batch, or with everything. *)
Definition publish_batch (used : nat) : M T nat := λ s,
  let '(l, n) := publish_completed (room used (length (l_backlog (t_loop s)))) (t_loop s) in
  (Ret n, set_t_loop l s).
Definition extend_backlog (items : list Item) : M T unit :=
  modify (λ s, set_t_emitted (t_emitted s ++ items) s) ;;
  modify (λ s, set_t_loop (mkLoop (l_in_flight (t_loop s)) (l_backlog (t_loop s) ++ items)
                             (l_completed (t_loop s))) s).

(** The submissions of one batch, those left, and whether [_STOP] ended it. *)
Fixpoint take_submissions (n : nat) (queue : list (Submitted Op Req))
    : list (Op + Req) * list (Submitted Op Req) * bool :=
  match n, queue with
  | 0, _ | _, [] => ([], queue, false)
  | S n, SubStop :: queue => ([], queue, true)
  | S n, SubOp op :: queue =>
      let '(items, queue, stop) := take_submissions n queue in (inl op :: items, queue, stop)
  | S n, SubItem item :: queue =>
      let '(items, queue, stop) := take_submissions n queue in (inr item :: items, queue, stop)
  end.

Definition set_in_flight (l : list (OpId * Op)) (s : T) : T :=
  set_t_loop (mkLoop l (l_backlog (t_loop s)) (l_completed (t_loop s))) s.
Definition enter_flight (k : OpId) (op : Op) : M T unit :=
  modify (λ s, set_in_flight (put_op k op (l_in_flight (t_loop s))) s).
Definition leave_flight (k : OpId) : M T unit :=
  modify (λ s, set_in_flight (filter (λ x, x.1 ≠ k) (l_in_flight (t_loop s))) s).

(** One turn of the loop over the operations: what completed so far, and whether any
    work occurred. *)
Definition advance_flight (events : OpId → option Ev) (acc : list Item * bool) (x : OpId * Op)
    : M T (list Item * bool) :=
  '(op, finished, work) ← on_port (bk_progress x.2 (events x.1));
  enter_flight x.1 op ;;
  if (finished : bool)
  then leave_flight x.1 ;; mret (acc.1 ++ [bk_item op], acc.2 || work)
  else mret (acc.1, acc.2 || work).

(** [_run_one_iteration] *)
Definition iteration : M T bool :=
  published ← publish_batch 0;
  queue ← gets t_submissions;
  let '(items, rest, stop) := take_submissions (room 0 (length queue)) queue in
  modify (set_t_submissions rest) ;;
  (if stop then modify (set_t_stop_requested true) else mret tt) ;;
  for_each items (λ item, match item with inl op => enter_flight (bk_op_id op) op | inr _ => mret tt end) ;;
  '(events, backend_work) ← on_port (bk_poll (omap (λ item, match item with inl _ => None | inr r => Some r end) items));
  in_flight ← gets (λ s, l_in_flight (t_loop s));
  '(completed_ops, work) ← fold_each (advance_flight events) ([], false) in_flight;
  p ← gets t_port;
  let '(flushed, p) := bk_flush p in
  modify (set_t_port p) ;;
  let completed := flushed ++ completed_ops in
  extend_backlog completed ;;
  published' ← publish_batch published;
  mret (negb (bool_decide (length items = 0)) || backend_work || work ||
        negb (bool_decide (length completed = 0)) || bool_decide (0 < published + published')).

(** ** Cleanup *)

(** One operation of [_close_progress_ops]: close it, or let it advance. *)
Definition close_flight (events : OpId → option Ev) (x : OpId * Op) : M T unit :=
  '(op, closed) ← on_port (bk_op_close x.2);
  enter_flight x.1 op ;;
  if (closed : bool) then leave_flight x.1
  else
    '(op, finished, _) ← on_port (bk_progress op (events x.1));
    enter_flight x.1 op ;;
    if (finished : bool) then leave_flight x.1 else mret tt.

(** One round of [_close_progress_ops]: whether it is over. *)
Definition close_ops_round (deadline : Z) : M T bool :=
  in_flight ← gets (λ s, l_in_flight (t_loop s));
  if decide (length in_flight = 0) then mret true
  else
    '(events, _) ← on_port (bk_poll []);
    in_flight ← gets (λ s, l_in_flight (t_loop s));
    for_each in_flight (close_flight events) ;;
    in_flight ← gets (λ s, l_in_flight (t_loop s));
    if decide (length in_flight = 0) then mret true
    else
      now ← gets (λ s, monotonic (t_port s).2);
      if decide (deadline <= now)%Z
      then raise (RuntimeError "KVCR progress operations did not close")
      else modify (λ s, set_t_port ((t_port s).1, idle (t_port s).2) s) ;; mret false.

(** One registration of [_close_nixl]: the ones that stay, and the first failure. *)
Definition deregister_one (acc : list Z * option exn) (registration : Z) : M T (list Z * option exn) :=
  '(released, failure) ← try_except
    (released ← on_world (deregister_memory registration); mret (released, acc.2))
    (λ e, mret (false, match acc.2 with None => Some e | Some _ => acc.2 end));
  if (released : bool)
  then modify (λ s, set_t_released (registration :: t_released s) s) ;; mret (acc.1, failure)
  else mret (acc.1 ++ [registration], failure).

(** [_close_nixl] *)
Definition close_nixl : M T unit :=
  active ← gets (λ s, g_transfers (t_port s).1);
  in_flight ← gets (λ s, l_in_flight (t_loop s));
  if decide (active ≠ ∅) then raise (RuntimeError "cannot close NIXL with active transfers")
  else if decide (length in_flight ≠ 0)
  then raise (RuntimeError "cannot close NIXL with unresolved operations")
  else
    names ← gets (λ s, (map_to_list (g_prepared (t_port s).1)).*1);
    for_each names (λ name, on_prog (release_prepared release_dlist_handle name)) ;;
    agent ← gets t_agent;
    registrations ← gets t_registrations;
    '(pending, failure) ←
      (if (agent : bool) then fold_each deregister_one ([], None) (rev registrations)
       else mret ([], None));
    modify (set_t_registrations (rev pending)) ;;
    (if decide (pending = [])
     then modify (set_t_metadata None) ;; modify (set_t_agent false) else mret tt) ;;
    match failure with
    | Some e => raise e
    | None => if decide (pending = []) then mret tt
              else raise (RuntimeError "NIXL memory registrations did not close")
    end.

(** [self._completed_backlog.extend(self._flush()); self._publish_completed(sys.maxsize)] *)
Definition flush_all : M T unit :=
  p ← gets t_port;
  let '(flushed, p) := bk_flush p in
  modify (set_t_port p) ;;
  extend_backlog flushed ;;
  modify (λ s, set_t_loop (publish_completed (length (l_backlog (t_loop s))) (t_loop s)).1 s).

(** The nested [finally] clauses of [_run]; [pending] is the exception that is under way. *)
Definition shut_down (pending : option exn) : M T unit :=
  try_finally (match pending with Some e => raise e | None => mret tt end)
    (try_finally flush_all (try_finally (on_port bk_close) close_nixl)).

(** ** The thread *)

(** [_run] up to the next point where it can see another thread's writes; an exception
    before the cleanup is the thread's failure. *)
Definition block (m : M T Pc) : T → T := λ s,
  match m s with
  | (Ret pc, s) => set_t_pc pc s
  | (Raise e, s) => set_t_pc AtCleanup (set_t_failure (Some e) s)
  end.
Definition at_agent : M T Pc :=
  initialize_nixl ;;
  closing ← gets t_close_requested;
  mret (if (closing : bool) then AtCleanup else AtBranch).
Definition at_register (next : Pc) : M T Pc :=
  register_memory_regions ;; modify (set_t_prepare_ready true) ;; mret next.
Definition at_metadata : M T Pc :=
  capture_agent_metadata ;; modify (set_t_ready true) ;; mret AtLoop.
Definition at_loop : M T Pc :=
  stop ← gets t_stop_requested;
  if (stop : bool) then mret AtCleanup
  else
    work ← iteration;
    (if (work : bool) then mret tt
     else modify (λ s, set_t_port ((t_port s).1, idle (t_port s).2) s)) ;;
    mret AtLoop.

(** [_OP_CLEANUP_TIMEOUT_SECONDS] *)
Definition cleanup_timeout : Z := 5000.

Definition thread_turn (s : T) : T :=
  match t_pc s with
  | NotStarted | Dead => s
  | AtAgent => block at_agent s
  | AtBranch => set_t_pc (if t_activate s then AtBackends else AtEarlyRegister) s
  | AtEarlyRegister => block (at_register AtActivation) s
  | AtActivation =>
      if t_activate s then set_t_pc (if t_close_requested s then AtCleanup else AtEarlyBackends) s else s
  | AtEarlyBackends => block (on_port bk_initialize ;; mret AtMetadata) s
  | AtBackends => block (on_port bk_initialize ;; mret AtRegister) s
  | AtRegister => block (at_register AtMetadata) s
  | AtMetadata => block at_metadata s
  | AtLoop => block at_loop s
  | AtCleanup =>
      set_t_pc (AtOps (monotonic (t_port s).2 + cleanup_timeout))
        (set_t_stop_requested true (set_t_prepare_ready true s))
  | AtOps deadline =>
      match close_ops_round deadline s with
      | (Ret true, s) => set_t_pc (AtFinish None) s
      | (Ret false, s) => s
      | (Raise e, s) => set_t_pc (AtFinish (Some e)) s
      end
  | AtFinish pending =>
      let s := match shut_down pending s with
               | (Ret _, s) => s
               | (Raise e, s) => match t_failure s with None => set_t_failure (Some e) s | Some _ => s end
               end in
      set_t_pc Dead (set_t_ready true s)
  end.
Fixpoint turns (n : nat) (s : T) : T := match n with 0 => s | S n => turns n (thread_turn s) end.

(** ** The main thread *)

Definition is_alive (s : T) : bool :=
  negb (bool_decide (t_pc s = NotStarted)) && negb (bool_decide (t_pc s = Dead)).

(** The main thread's atomic actions; [Take] is one [get_nowait]. *)
Inductive Act := Launch | Activate | RequestClose | Put (item : Submitted Op Req) | Take.
Definition act (a : Act) (s : T) : T :=
  match a with
  | Launch => if decide (t_pc s = NotStarted) then set_t_pc AtAgent s else s
  | Activate => set_t_activate true s
  | RequestClose => set_t_close_requested true s
  | Put item => set_t_submissions (t_submissions s ++ [item]) s
  | Take =>
      match l_completed (t_loop s) with
      | [] => s
      | item :: rest =>
          set_t_taken (t_taken s ++ [item])
            (set_t_loop (mkLoop (l_in_flight (t_loop s)) (l_backlog (t_loop s)) rest) s)
      end
  end.

(** The two threads interleave in any order. *)
Inductive step (s : T) : T → Prop :=
  | step_turn : step s (thread_turn s)
  | step_act a : step s (act a s).

(** [threading.Thread.start]; the events the main thread waits for, for as many turns as
    the other thread gets within the timeout. *)
Definition launch : M T unit :=
  pc ← gets t_pc;
  if decide (pc = NotStarted) then modify (act Launch)
  else raise (RuntimeError "threads can only be started once").
Definition thread_raise_if_failed : M T unit :=
  failure ← gets t_failure;
  match failure with Some e => raise e | None => mret tt end.
Definition wait_prepared (budget : nat) : M T unit :=
  modify (turns budget) ;;
  ready ← gets t_prepare_ready;
  if (ready : bool) then mret tt else raise (RuntimeError "KVCR progress preparation timed out").

(** [start] *)
Definition progress_start (prepare_budget budget : nat) : M T unit :=
  first ← gets (λ s, bool_decide (t_pc s = NotStarted) ||
                     negb (is_alive s || bool_decide (is_Some (t_failure s))));
  (if (first : bool) then modify (act Activate) ;; launch
   else wait_prepared prepare_budget ;; modify (act Activate)) ;;
  modify (turns budget) ;;
  ready ← gets t_ready;
  if (ready : bool) then thread_raise_if_failed
  else raise (RuntimeError "KVCR progress initialization timed out").

(** [prepare] *)
Definition progress_prepare (wait : bool) (budget : nat) : M T unit :=
  launch ;; if wait then wait_prepared budget ;; thread_raise_if_failed else mret tt.

(** [submit] *)
Definition submit_item (item : Submitted Op Req) : M T unit :=
  thread_raise_if_failed ;; modify (act (Put item)).

(** [take_completed] *)
Definition take_completed : M T (list Item) := λ s,
  let items := take (room 0 (length (l_completed (t_loop s)))) (l_completed (t_loop s)) in
  (Ret items, Nat.iter (length items) (act Take) s).

(** [is_quiescent] *)
Definition is_quiescent (s : T) : bool :=
  negb (is_alive s) &&
  negb (bool_decide (g_transfers (t_port s).1 ≠ ∅) || bool_decide (l_in_flight (t_loop s) ≠ []) ||
        bool_decide (g_prepared (t_port s).1 ≠ ∅) || bool_decide (t_registrations s ≠ [])).

(** [close]; [budget] is the turns the thread gets within [_JOIN_TIMEOUT_SECONDS]. *)
Definition progress_close (budget : nat) : M T unit :=
  alive ← gets is_alive;
  (if (alive : bool) then
     modify (act RequestClose) ;; modify (act Activate) ;; modify (act (Put SubStop)) ;;
     modify (turns budget) ;;
     alive ← gets is_alive;
     if (alive : bool) then raise (RuntimeError "KVCR progress thread did not stop") else mret tt
   else mret tt) ;;
  thread_raise_if_failed.

(** [__init__] *)
Definition initial (w : W) : T :=
  mkThread NotStarted (mkProg ∅ ∅ ∅ ∅ 0, w) false None [] [] (mkLoop [] [] [])
    false false false false false None [] [] [] [].
End Progress.
