(* ===== verification/ProgressThm.v ===== *)
(** * The progress thread ends, and accounts for what it held

    Theorems about [Progress]: whatever the interleaving with the main thread, the
    registrations the agent granted are the ones held and the ones given back, items are
    handed over once and in order, and a thread that ended without a failure holds nothing
    native; and a requested close is reached within a number of turns the state tells. *)

From Stdlib Require Import ZArith Lia.
From S2P Require Import Prelude PyFloat Types Layout State Transfer Progress.

(** ** The books of a thread *)

Section Books.
Context {W Op Req Ev Item : Type} `{!Agent W, !Clock W, !Backend W Op Req Ev Item}.
Context (agent_name : option string) (listen_port : option Z) (memory_regions : RegionMaps)
        (batch_size : nat).
Notation T := (Thread W Op Req Item).
Implicit Types s : T.

(** Nothing native remains. *)
Definition quiet (s : T) : Prop :=
  g_transfers (t_port s).1 = ∅ ∧ l_in_flight (t_loop s) = [] ∧ g_prepared (t_port s).1 = ∅.
Definition released_all (s : T) : Prop := quiet s ∧ t_registrations s = [].

Record books (s : T) : Prop := {
  bo_balance : t_granted s ≡ₚ t_registrations s ++ t_released s;
  bo_agent : t_agent s = false → t_registrations s = [];
  bo_fifo : t_emitted s = t_taken s ++ l_completed (t_loop s) ++ l_backlog (t_loop s) }.

(** What is left alone by everything but the end of the thread. *)
Definition frame (s s' : T) : Prop :=
  t_pc s' = t_pc s ∧ t_activate s' = t_activate s ∧ t_close_requested s' = t_close_requested s ∧
  t_failure s' = t_failure s ∧ t_prepare_ready s' = t_prepare_ready s.

Definition kept (s0 s : T) : Prop := books s ∧ frame s0 s.
Context (s0 : T).

Lemma on_port_kept {A} (m : M (Port W) A) : preserves (kept s0) (on_port m).
Proof. 
  intros s [[] Hf]. unfold on_port.
  destruct (m (t_port s)) as [[a|e] p]; (split; [by constructor|exact Hf]).
Qed.
Lemma on_prog_kept {A} (m : M Prog A) : preserves (kept s0) (on_prog m).
Proof. apply on_port_kept. Qed.
Lemma on_world_kept {A} (m : M W A) : preserves (kept s0) (on_world m).
Proof. apply on_port_kept. Qed.
Lemma modify_kept (f : T → T) : (∀ s, kept s0 s → kept s0 (f s)) → preserves (kept s0) (modify f).
Proof. intros Hf s Hs. by apply Hf. Qed.
Local Hint Resolve on_port_kept on_prog_kept on_world_kept : kvcr.
Local Opaque on_port on_prog on_world.

(** Split an operation into its statements; one that only sets a field no book mentions is
    closed at once. *)
Local Ltac keep :=
  repeat (progress (statements; try match goal with
  | |- preserves _ (on_port _) => apply on_port_kept
  | |- preserves _ (on_prog _) => apply on_prog_kept
  | |- preserves _ (on_world _) => apply on_world_kept
  | |- preserves _ (modify _) =>
      apply modify_kept; intros ? [[] ?]; (split; [by constructor|assumption])
  end)).

Lemma initialize_nixl_kept : preserves (kept s0) (initialize_nixl agent_name listen_port).
Proof. unfold initialize_nixl. keep. Qed.
Lemma own_name_kept : preserves (kept s0) (own_name agent_name).
Proof. unfold own_name. keep. Qed.
Lemma capture_agent_metadata_kept : preserves (kept s0) capture_agent_metadata.
Proof. unfold capture_agent_metadata. keep. Qed.

(** A granted registration is entered in the books at once, by a thread that has an agent. *)
Lemma register_regions_kept l :
  triple (λ s, kept s0 s ∧ t_agent s = true) (for_each l (register_region (W := W)))
    (λ _ s, kept s0 s ∧ t_agent s = true) (λ _, kept s0).
Proof.
  apply (triple_for_each l _ (λ _ s, kept s0 s ∧ t_agent s = true)).
  intros region _ s [Hs Ha]. pose proof (on_world_kept (register_memory
    (rd_addr region, extent region, rd_device_Id region) (rd_mem_type region)) s Hs) as Hw.
  unfold register_region, mbind, M_bind, modify. revert Hw. Local Transparent on_port on_prog on_world. unfold on_world, on_port at 1 2.
  destruct (register_memory _ _ _) as [[r|e] w]; intros Hw; [|exact Hw].
  destruct Hw as [[H1 H2 H3] Hf]. split; [split; [|done]|done].
  constructor; simpl in *; [|by intros Hx; rewrite Hx in Ha|done].
  rewrite H1. solve_Permutation.
Qed.
Lemma register_memory_regions_kept :
  preserves (kept s0) (register_memory_regions (Op := Op) (Req := Req) (Item := Item) agent_name memory_regions).
Proof.
  unfold register_memory_regions. apply triple_wp. intros s Hs. apply wp_bind, wp_gets.
  destruct (negb (t_agent s) || _) eqn:Ha; [by apply wp_ret|].
  apply orb_false_elim in Ha as [Ha%negb_false_iff _].
  apply wp_bind. eapply wp_use; [apply register_regions_kept|by split| |by intros].
  intros [] s' [Hs' _]. revert s' Hs'. change (preserves (kept s0)
    (name ← own_name agent_name;
     on_prog (prepare_memory prep_xfer_dlist release_dlist_handle name "" memory_regions None) ;;
     on_prog (Op := Op) (Req := Req) (Item := Item)
       (prepare_memory prep_xfer_dlist release_dlist_handle name name memory_regions None))).
  apply preserves_bind; [apply own_name_kept|intros name]. keep.
Qed.

(** ** The loop *)

Lemma publish_kept used : preserves (kept s0) (publish_batch (W := W) (Op := Op) (Req := Req) (Item := Item) batch_size used).
Proof.
  intros s [[H1 H2 H3] Hf]. unfold publish_batch, publish_completed. cbv zeta. split; [|done].
  constructor; simpl; [done..|]. by rewrite H3, <- !app_assoc, take_drop.
Qed.
Lemma extend_backlog_kept items :
  preserves (kept s0) (extend_backlog (W := W) (Op := Op) (Req := Req) (Item := Item) items).
Proof.
  intros s [[H1 H2 H3] Hf]. split; [|done]. constructor; simpl; [done..|].
  by rewrite H3, !app_assoc.
Qed.
Lemma enter_flight_kept k op : preserves (kept s0) (enter_flight (W := W) (Req := Req) (Item := Item) k op).
Proof. unfold enter_flight, set_in_flight. keep. Qed.
Lemma leave_flight_kept k : preserves (kept s0) (leave_flight (W := W) (Op := Op) (Req := Req) (Item := Item) k).
Proof. unfold leave_flight, set_in_flight. keep. Qed.
Lemma set_port_kept p : preserves (kept s0) (modify (set_t_port p)).
Proof. keep. Qed.

Local Hint Resolve publish_kept extend_backlog_kept enter_flight_kept leave_flight_kept : kvcr.

Lemma advance_flight_kept events acc x : preserves (kept s0) (advance_flight events acc x).
Proof. unfold advance_flight. keep; auto with kvcr. Qed.
Local Hint Resolve advance_flight_kept : kvcr.
Lemma iteration_kept : preserves (kept s0) (iteration (Ev := Ev) batch_size).
Proof.
  unfold iteration. apply preserves_bind; [apply publish_kept|intros published].
  apply preserves_bind; [apply preserves_gets|intros queue].
  destruct (take_submissions _ queue) as [[items rest] stop].
  keep; auto with kvcr.
Qed.

(** ** Cleanup *)

Lemma close_flight_kept events x : preserves (kept s0) (close_flight events x).
Proof. unfold close_flight. keep; auto with kvcr. Qed.
Local Hint Resolve close_flight_kept : kvcr.
Lemma close_ops_round_kept deadline :
  preserves (kept s0) (close_ops_round (Ev := Ev) deadline).
Proof. unfold close_ops_round. keep; auto with kvcr. Qed.
Lemma flush_all_kept : preserves (kept s0) (flush_all (Ev := Ev)).
Proof.
  unfold flush_all. keep; [auto with kvcr|]. apply modify_kept. intros s [[H1 H2 H3] Hf].
  split; [|done]. constructor; simpl; [done..|]. by rewrite H3, <- !app_assoc, take_drop.
Qed.

Lemma release_prepared_dom rel name x (D : gset string) :
  triple (λ p, g_transfers p = x ∧ dom (g_prepared p) ⊆ {[name]} ∪ D) (release_prepared rel name)
    (λ _ p, g_transfers p = x ∧ dom (g_prepared p) ⊆ D) (λ _ _, True).
Proof.
  apply triple_wp. intros p Hp. unfold release_prepared. wp.
  destruct (existsb _ _); [by apply wp_raise|]. wp.
  eapply (wp_mono _ _ _ _ (λ _ _, True)); [| |done].
  - apply (wp_for_each _ _ (λ _ p, g_transfers p = x ∧ dom (g_prepared p) ⊆ {[name]} ∪ D)
      (λ _ p, g_transfers p = x ∧ dom (g_prepared p) ⊆ {[name]} ∪ D)); [exact Hp| |intros ? H; exact H].
    intros [t h] r p' Hp'. case_match; wp; [|done]. simpl. by rewrite dom_alter_L.
  - intros [] p' [Hx HD]. wp. split; [done|]. simpl. rewrite dom_delete_L. set_solver.
Qed.

(** Every prepared grid is released, or the first refusal is raised. *)
Lemma release_all_prepared names :
  triple (λ s, kept s0 s ∧ g_transfers (t_port s).1 = ∅ ∧ l_in_flight (t_loop s) = [] ∧
               dom (g_prepared (t_port s).1) ⊆ list_to_set names)
    (for_each names (λ name, on_prog (release_prepared release_dlist_handle name)))
    (λ _ s, kept s0 s ∧ quiet s) (λ _, kept s0).
Proof.
  eapply triple_conseq; [|intros s Hs; exact Hs| |intros e s Hs; exact Hs].
  - apply (triple_for_each names _ (λ names s, kept s0 s ∧ g_transfers (t_port s).1 = ∅ ∧
      l_in_flight (t_loop s) = [] ∧ dom (g_prepared (t_port s).1) ⊆ list_to_set names)).
    intros name r s (Hk & Ht & Hf & Hd).
    pose proof (on_prog_kept (release_prepared release_dlist_handle name) s Hk) as Hk'.
    pose proof (release_prepared_dom release_dlist_handle name ∅ (list_to_set r) (t_port s).1 (conj Ht Hd)) as Hd'.
    revert Hk'. unfold on_prog, on_port. destruct (release_prepared _ _ _) as [[[]|e] g]; [|done].
    intros Hk'. by destruct Hd'.
  - intros [] s (Hk & Ht & Hf & Hd). split; [done|]. split_and!; [done..|].
    apply dom_empty_inv_L. set_solver.
Qed.

(** The registrations still to visit, those refused and those given back are the granted. *)
Definition deregistering (acc : list Z * option exn) (rest : list Z) (s : T) : Prop :=
  t_granted s ≡ₚ (acc.1 ++ rest) ++ t_released s ∧
  t_emitted s = t_taken s ++ l_completed (t_loop s) ++ l_backlog (t_loop s) ∧
  frame s0 s ∧ quiet s ∧ t_agent s = true.
Lemma deregister_all registrations acc s :
  deregistering acc registrations s →
  wp (fold_each deregister_one acc registrations) (λ acc, deregistering acc []) (λ _ _, False) s.
Proof.
  intros Hs. apply (wp_fold_each _ _ _ deregistering); [done| |done].
  intros [pending failure] reg r s' (Hb & Hf & Hfr & Hq & Ha). unfold deregister_one.
  apply wp_bind, wp_try_except, wp_bind. unfold on_world, on_port, wp at 1.
  destruct (deregister_memory reg _) as [[[]|e] w]; wp; split_and!; simpl in *; try done;
    rewrite Hb; solve_Permutation.
Qed.

(** [_close_nixl] ends without an exception only when nothing remains, and keeps the books
    either way. *)
Lemma close_nixl_releases :
  triple (kept s0) close_nixl (λ _ s, kept s0 s ∧ released_all s) (λ _, kept s0).
Proof.
  apply triple_wp. intros s Hk. unfold close_nixl. wp.
  case_decide as Ht; [by wp|]. case_decide as Hf; [by wp|]. wp.
  apply nil_length_inv in Hf.
  eapply wp_use; [apply release_all_prepared| |clear s Hk Ht Hf; intros [] s [Hk Hq]|done].
  { split_and!; [done..|]. intros x Hx. apply elem_of_list_to_set.
    apply elem_of_dom in Hx as [y Hy]. apply list_elem_of_fmap. exists (x, y).
    by rewrite elem_of_map_to_list. }
  destruct Hk as [[H1 H2 H3] Hfr]. wp. destruct (t_agent s) eqn:Ha.
  - eapply wp_mono; [apply deregister_all| |by intros].
    { split_and!; [|done..]. simpl. by rewrite <- (Permutation_rev (t_registrations s)). }
    intros [pending failure] s' (Hb & Hfi & Hfr' & Hq' & Ha'). wp. simpl in *.
    rewrite app_nil_r in Hb.
    case_decide as Hp; wp.
    + subst pending. assert (kept s0 (set_t_agent false (set_t_metadata None
        (set_t_registrations [] s')))) as Hfin by (split; [by constructor|done]).
      by destruct failure; wp.
    + assert (kept s0 (set_t_registrations (rev pending) s')) as Hfin.
      { split; [|done]. constructor; simpl; [by rewrite <- (Permutation_rev pending)|congruence|done]. }
      by destruct failure; wp.
  - wp. rewrite decide_True by done. wp. rewrite decide_True by done. wp.
    rewrite (H2 eq_refl) in H1. split_and!; [|done..].
    split; [|done]. by constructor.
Qed.

(** ** The end *)

Lemma flush_all_empties s : kept s0 s →
  wp (flush_all (Ev := Ev)) (λ _ s, kept s0 s ∧ l_backlog (t_loop s) = []) (λ _ _, False) s.
Proof.
  intros Hk. pose proof (flush_all_kept s Hk) as Hk'. revert Hk'. unfold flush_all, wp.
  unfold mbind, M_bind, gets. destruct (bk_flush (t_port s)) as [flushed p]. simpl. intros Hk'.
  split; [done|]. by rewrite Nat.min_id, drop_all.
Qed.
Lemma close_nixl_backlog : preserves (λ s, l_backlog (t_loop s) = []) close_nixl.
Proof.
  assert (∀ A (m : M (Port W) A), preserves (λ s, l_backlog (t_loop s) = []) (on_port (Req := Req) (Op := Op) m)) as Hp.
  { intros A m s Hs. unfold on_port. by destruct (m (t_port s)) as [[a|e] p]. }
  unfold close_nixl, deregister_one, on_prog, on_world.
  repeat (progress (statements; try match goal with
  | |- preserves _ (on_port _) => apply Hp
  | |- preserves _ (modify _) => by intros s Hs
  end)).
Qed.
Lemma finish_books pending :
  triple (kept s0) (shut_down (Ev := Ev) pending)
    (λ _ s, kept s0 s ∧ l_backlog (t_loop s) = [] ∧ released_all s ∧ pending = None)
    (λ _ s, kept s0 s ∧ l_backlog (t_loop s) = []).
Proof.
  apply triple_wp. intros s Hk. unfold shut_down. apply wp_try_finally.
  assert (∀ s, kept s0 s → wp (try_finally flush_all (try_finally (on_port bk_close) close_nixl))
    (λ _ s, kept s0 s ∧ l_backlog (t_loop s) = [] ∧ released_all s)
    (λ _ s, kept s0 s ∧ l_backlog (t_loop s) = []) s) as Htail.
  { clear s Hk. intros s Hk. apply wp_try_finally. eapply wp_mono; [by apply flush_all_empties| |by intros].
    intros [] s1 [Hk1 Hb1]. apply wp_try_finally.
    assert (∀ s, kept s0 s ∧ l_backlog (t_loop s) = [] → wp close_nixl
      (λ _ s, kept s0 s ∧ l_backlog (t_loop s) = [] ∧ released_all s)
      (λ _ s, kept s0 s ∧ l_backlog (t_loop s) = []) s) as Hn.
    { intros s' [Hk' Hb']. pose proof (close_nixl_backlog s' Hb') as H1. pose proof (close_nixl_releases s' Hk') as H2.
      unfold wp. destruct (close_nixl s') as [[[]|e] s'']; [|done]. by destruct H2. }
    pose proof (on_port_kept bk_close s1 Hk1) as Hc. unfold wp at 1. revert Hc.
    unfold on_port. destruct (bk_close (t_port s1)) as [[[]|e] p]; intros Hc.
    - by apply Hn.
    - eapply wp_mono; [by apply Hn| |done]. intros [] s' (? & ? & ?). by split. }
  destruct pending as [e|]; unfold wp at 1, raise, mret, M_ret.
  - eapply wp_mono; [by apply Htail| |done]. intros [] s' (? & ? & ?). by split.
  - eapply wp_mono; [by apply Htail| |done]. intros [] s' (? & ? & ?). by split_and!.
Qed.
End Books.

(** ** Every interleaving *)

Section Reach.
Context {W Op Req Ev Item : Type} `{!Agent W, !Clock W, !Backend W Op Req Ev Item}.
Context (agent_name : option string) (listen_port : option Z) (memory_regions : RegionMaps)
        (batch_size : nat).
Notation T := (Thread W Op Req Item).
Notation thread_turn := (thread_turn (W := W) (Op := Op) (Req := Req) (Ev := Ev) (Item := Item)
                    agent_name listen_port memory_regions batch_size).
Notation step := (step (W := W) (Op := Op) (Req := Req) (Ev := Ev) (Item := Item)
                    agent_name listen_port memory_regions batch_size).
Implicit Types s : T.

(** What each stage of the thread guarantees to the others. *)
Definition stage (s : T) : Prop :=
  match t_pc s with
  | NotStarted => l_backlog (t_loop s) = []
  | AtOps _ | AtFinish _ => t_prepare_ready s = true
  | Dead => t_ready s = true ∧ t_prepare_ready s = true ∧ l_backlog (t_loop s) = [] ∧
            (t_failure s = None → released_all s)
  | _ => True
  end.
Definition sound (s : T) : Prop := books s ∧ stage s.
Definition early (pc : Pc) : Prop :=
  match pc with NotStarted | AtOps _ | AtFinish _ | Dead => False | _ => True end.

Lemma books_of_kept {A} (m : M T A) : (∀ s0, preserves (kept s0) m) → preserves books m.
Proof.
  intros Hm s Hs. specialize (Hm s s). unfold kept in Hm.
  destruct (m s) as [[a|e] s']; by apply Hm.
Qed.
Lemma block_sound (m : M T Pc) s :
  triple books m (λ pc s, books s ∧ early pc) (λ _, books) → books s → sound (block m s).
Proof.
  intros Hm Hs. specialize (Hm s Hs). unfold block. destruct (m s) as [[pc|e] s'].
  - destruct Hm as [[H1 H2 H3] He]. split; [by constructor|]. unfold stage. simpl. by destruct pc.
  - destruct Hm as [H1 H2 H3]. split; [by constructor|done].
Qed.
Lemma block_early (m : M T Pc) s :
  triple books m (λ pc s, books s ∧ early pc) (λ _, books) → books s → early (t_pc (block m s)).
Proof. intros Hm Hs. specialize (Hm s Hs). unfold block. destruct (m s) as [[pc|e] s']; [apply Hm|done]. Qed.
Lemma early_not pc : early pc → pc ≠ NotStarted.
Proof. by intros He ->. Qed.
Local Tactic Notation "part" uconstr(H) := eapply triple_bind; [apply books_of_kept; intros s0; apply H | intros ?; cbn beta].
Local Ltac ends := intros s Hs; (split; [done|repeat case_match; done]).

Lemma at_agent_early : triple books (at_agent agent_name listen_port)
  (λ pc (s : T), books s ∧ early pc) (λ _, books).
Proof.
  unfold at_agent. part initialize_nixl_kept. eapply triple_bind; [apply preserves_gets|intros closing]. ends.
Qed.
Lemma at_register_early next : early next → triple books (at_register agent_name memory_regions next)
  (λ pc (s : T), books s ∧ early pc) (λ _, books).
Proof.
  intros Hn. unfold at_register. part register_memory_regions_kept.
  eapply triple_bind; [apply (triple_modify _ _ (λ _, books))|]; [intros s []; by constructor|].
  intros []. by apply triple_ret.
Qed.
Lemma at_metadata_early : triple books at_metadata (λ pc (s : T), books s ∧ early pc) (λ _, books).
Proof.
  unfold at_metadata. part capture_agent_metadata_kept.
  eapply triple_bind; [apply (triple_modify _ _ (λ _, books))|]; [intros s []; by constructor|].
  intros []. by apply triple_ret.
Qed.
Lemma at_loop_early : triple books (at_loop (Ev := Ev) batch_size)
  (λ pc (s : T), books s ∧ early pc) (λ _, books).
Proof.
  unfold at_loop. eapply triple_bind; [apply preserves_gets|intros stop]. destruct stop; [ends|].
  part iteration_kept. eapply (triple_bind _ _ _ (λ _, books)); [|intros []; ends].
  destruct a; [by intros s Hs|]. intros s []. by constructor.
Qed.
Lemma backends_early next : early next → triple books (on_port bk_initialize ;; mret next)
  (λ pc (s : T), books s ∧ early pc) (λ _, books).
Proof. intros Hn. part on_port_kept. by apply triple_ret. Qed.

Lemma round_sound deadline s : sound s → t_pc s = AtOps deadline → sound (thread_turn s).
Proof.
  intros [Hb Hs] Hpc. unfold stage in Hs. rewrite Hpc in Hs. unfold Progress.thread_turn. rewrite Hpc.
  pose proof (close_ops_round_kept s deadline s (conj Hb (conj eq_refl (conj eq_refl (conj eq_refl (conj eq_refl eq_refl)))))) as Hk.
  destruct (close_ops_round deadline s) as [[[]|e] s'];
    destruct Hk as [[H1 H2 H3] (Hp & _ & _ & _ & Hr)]; (split; [by constructor|]); unfold stage; simpl;
    rewrite ?Hp, ?Hpc; congruence.
Qed.
Lemma finish_sound pending s : sound s → t_pc s = AtFinish pending → sound (thread_turn s).
Proof.
  intros [Hb Hs] Hpc. unfold stage in Hs. rewrite Hpc in Hs. unfold Progress.thread_turn. rewrite Hpc.
  pose proof (finish_books s pending s (conj Hb (conj eq_refl (conj eq_refl (conj eq_refl (conj eq_refl eq_refl)))))) as Hk.
  destruct (shut_down pending s) as [[[]|e] s'].
  - destruct Hk as ([[H1 H2 H3] (_ & _ & _ & _ & Hr)] & Hl & Hq & _).
    split; [by constructor|]. unfold stage. simpl. split_and!; [done|congruence|done|done].
  - destruct Hk as ([[H1 H2 H3] (_ & _ & _ & Hfa & Hr)] & Hl).
    destruct (t_failure s') eqn:Hf; (split; [by constructor|]); unfold stage; simpl;
      (split_and!; [done|congruence|done|congruence]).
Qed.

Local Ltac blocks :=
  solve [apply at_agent_early | apply at_metadata_early | apply at_loop_early
        | by apply at_register_early | by apply backends_early].
(** Before its cleanup a thread goes to such a stage again, or to its cleanup. *)
Definition running (pc : Pc) : Prop :=
  match pc with NotStarted | AtCleanup | AtOps _ | AtFinish _ | Dead => False | _ => True end.
Lemma turn_early s : books s → running (t_pc s) → early (t_pc (thread_turn s)).
Proof.
  intros Hb Hr. unfold Progress.thread_turn. destruct (t_pc s) eqn:Hpc; try done;
    try (apply block_early; [blocks|done]).
  - by destruct (t_activate s).
  - destruct (t_activate s); [|by rewrite Hpc]. simpl. by destruct (t_close_requested s).
Qed.
Lemma turn_started s : books s → t_pc s ≠ NotStarted → t_pc (thread_turn s) ≠ NotStarted.
Proof.
  intros Hb Hns. destruct (t_pc s) eqn:Hpc; try done;
    try (by apply early_not, turn_early; [|rewrite Hpc]); unfold Progress.thread_turn; rewrite Hpc; try done.
  - pose proof (close_ops_round_kept s deadline s (conj Hb (conj eq_refl (conj eq_refl (conj eq_refl (conj eq_refl eq_refl)))))) as Hk.
    destruct (close_ops_round deadline s) as [[[]|e] s']; [done| |done].
    destruct Hk as [_ (Hp & _)]. by rewrite Hp, Hpc.
  - by rewrite Hpc.
Qed.
Lemma turn_sound s : sound s → sound (thread_turn s).
Proof.
  intros Hs. destruct (t_pc s) eqn:Hpc; try (by eapply round_sound); try (by eapply finish_sound);
    destruct Hs as [Hb Hst]; unfold Progress.thread_turn; rewrite Hpc;
    try (apply block_sound; [|done]); try blocks; try (by split).
  - destruct Hb; (split; [by constructor|]). unfold stage. simpl. by destruct (t_activate s).
  - destruct (t_activate s); [|by split]. destruct Hb.
    split; [by constructor|]. unfold stage. simpl. by destruct (t_close_requested s).
  - destruct Hb. split; [by constructor|]. done.
Qed.
Lemma act_sound a s : sound s → sound (act a s).
Proof.
  intros [Hb Hst]. destruct a; simpl; try (destruct Hb; (split; [by constructor|done])).
  - case_decide; [|by split]. destruct Hb. (split; [by constructor|done]).
  - destruct (l_completed (t_loop s)) as [|item rest] eqn:Hc; [by split|]. destruct Hb as [H1 H2 H3].
    split; [|done]. constructor; simpl; [done..|]. by rewrite H3, Hc, <- app_assoc.
Qed.
Lemma reachable_sound w s : rtc step (initial w) s → sound s.
Proof.
  intros Hr. assert (sound (initial (Op := Op) (Req := Req) (Item := Item) w)) as H0 by (by split).
  induction Hr as [s|s s1 s2 Hstep _ IH]; [done|]. apply IH.
  destruct Hstep; [by apply turn_sound|by apply act_sound].
Qed.

Local Ltac untaken Hp := unfold initialize_nixl, register_memory_regions, register_region, own_name,
  capture_agent_metadata, iteration, publish_batch, advance_flight, close_ops_round, close_flight,
  shut_down, flush_all, extend_backlog, close_nixl, deregister_one, enter_flight, leave_flight, on_prog, on_world;
  repeat (progress (statements; try match goal with
  | |- preserves _ (on_port _) => apply Hp
  | |- preserves _ _ => by intros ? ?
  end)).
(** Only the main thread takes items. *)
Lemma turn_taken s : t_taken (thread_turn s) = t_taken s.
Proof.
  set (P := λ s' : T, t_taken s' = t_taken s).
  assert (∀ A (m : M (Port W) A), preserves P (on_port m)) as Hp.
  { intros A m s' Hs'. unfold on_port. by destruct (m (t_port s')) as [[a|e] p]. }
  assert (∀ m : M T Pc, preserves P m → t_taken (block m s) = t_taken s) as Hblock.
  { intros m Hm. specialize (Hm s eq_refl). unfold block. by destruct (m s) as [[pc|e] s']. }
  unfold Progress.thread_turn. destruct (t_pc s) as [| | | | | | | | | | |deadline|pending|]; try done;
    try (apply Hblock; unfold at_agent, at_register, at_metadata, at_loop; untaken Hp).
  - by destruct (t_activate s).
  - assert (preserves P (close_ops_round deadline)) as Hr by untaken Hp. specialize (Hr s eq_refl).
    by destruct (close_ops_round deadline s) as [[[]|e] s'].
  - assert (preserves P (shut_down pending)) as Hr by untaken Hp. specialize (Hr s eq_refl).
    destruct (shut_down pending s) as [[[]|e] s']; [done|]. by destruct (t_failure s').
Qed.
Lemma turns_taken n s :
  t_taken (turns agent_name listen_port memory_regions batch_size n s) = t_taken s.
Proof. revert s. induction n as [|n IH]; intros s; simpl; [done|]. by rewrite IH, turn_taken. Qed.

(** [take_completed] takes the head of the queue. *)
Lemma take_items n s : n <= length (l_completed (t_loop s)) →
  Nat.iter n (act Take) s =
    set_t_taken (t_taken s ++ take n (l_completed (t_loop s)))
      (set_t_loop (mkLoop (l_in_flight (t_loop s)) (l_backlog (t_loop s)) (drop n (l_completed (t_loop s)))) s).
Proof.
  induction n as [|n IH]; intros Hn.
  - simpl. rewrite app_nil_r. destruct s as [?????? []]; reflexivity.
  - rewrite Nat.iter_succ, IH by lia. simpl.
    destruct (drop n (l_completed (t_loop s))) as [|x r] eqn:Hd.
    { apply (f_equal length) in Hd. rewrite length_drop in Hd. simpl in Hd. lia. }
    assert (l_completed (t_loop s) !! n = Some x) as Hx.
    { rewrite <- (Nat.add_0_r n), <- lookup_drop, Hd. done. }
    rewrite (take_S_r _ _ _ Hx), app_assoc.
    assert (drop (S n) (l_completed (t_loop s)) = r) as ->; [|done].
    replace (S n) with (n + 1) by lia. by rewrite <- drop_drop, Hd.
Qed.
Lemma take_reachable n s s' : rtc step s s' → rtc step s (Nat.iter n (act Take) s').
Proof.
  intros Hr. induction n as [|n IH]; [done|]. rewrite Nat.iter_succ. eapply rtc_r; [exact IH|apply step_act].
Qed.

(** A thread that ended without a failure is quiescent. *)
Lemma ended_quiescent s : sound s → t_pc s = Dead → t_failure s = None →
  is_quiescent s = true ∧ t_granted s ≡ₚ t_released s.
Proof.
  intros [[H1 _ _] Hst] Hd Hf. unfold stage in Hst. rewrite Hd in Hst.
  destruct Hst as (_ & _ & _ & Hq). destruct (Hq Hf) as [(Ht & Hfl & Hg) He].
  rewrite He in H1. split; [|done]. unfold is_quiescent, is_alive. by rewrite Hd, Ht, Hfl, Hg, He.
Qed.

(** C29: Under every interleaving of the progress thread with the main thread, the
    registrations NIXL granted are the ones held and the ones given back, and the completed
    items are handed over once and in order.  A thread that ended has set both events, so
    nothing waits for it forever, has published all its items, and if no exception ended it
    is quiescent with every registration given back. *)
Theorem thread_accounts (w : W) s : rtc step (initial w) s →
  t_granted s ≡ₚ t_registrations s ++ t_released s ∧
  t_emitted s = t_taken s ++ l_completed (t_loop s) ++ l_backlog (t_loop s) ∧
  (t_pc s = Dead → t_ready s = true ∧ t_prepare_ready s = true ∧ l_backlog (t_loop s) = [] ∧
    (t_failure s = None → is_quiescent s = true ∧ t_granted s ≡ₚ t_released s)).
Proof.
  intros Hs%reachable_sound. pose proof (ended_quiescent s Hs) as He.
  destruct Hs as [[H1 H2 H3] Hst]. split_and!; [done..|]. intros Hd. specialize (He Hd).
  unfold stage in Hst. rewrite Hd in Hst. destruct Hst as (Hr & Hp & Hb & _). by split_and!.
Qed.
End Reach.
