(* ===== verification/ProgressEnd.v ===== *)
(** * A requested close ends the thread

    Each turn of the progress thread brings the end nearer once a close was requested: a
    starting thread goes through the rest of its start, the loop takes its submissions until
    [_STOP], and the cleanup stops at its deadline. *)

From Stdlib Require Import ZArith Lia.
From S2P Require Import Prelude PyFloat Types Layout State Transfer Progress ProgressThm.

(** The monotonic clock: sleeping takes a millisecond or more, and no callback turns it
    back. *)
Class ClockLaws (W Op Req Ev Item : Type) `{!Agent W, !Clock W, !Backend W Op Req Ev Item} : Prop := {
  idle_advances : ∀ w : W, (monotonic w + 1 <= monotonic (idle w))%Z;
  poll_advances : ∀ items (p : Port W), (monotonic p.2 <= monotonic (bk_poll items p).2.2)%Z;
  progress_advances : ∀ op ev (p : Port W),
    (monotonic p.2 <= monotonic (bk_progress (Ev := Ev) op ev p).2.2)%Z;
  op_close_advances : ∀ op (p : Port W), (monotonic p.2 <= monotonic (bk_op_close op p).2.2)%Z }.

Section End_.
Context {W Op Req Ev Item : Type} `{!Agent W, !Clock W, !Backend W Op Req Ev Item}.
Context `{!ClockLaws W Op Req Ev Item}.
Context (agent_name : option string) (listen_port : option Z) (memory_regions : RegionMaps)
        (batch_size : nat).
Notation T := (Thread W Op Req Item).
Notation thread_turn := (thread_turn (W := W) (Op := Op) (Req := Req) (Ev := Ev) (Item := Item)
                    agent_name listen_port memory_regions batch_size).
Notation turns := (turns (W := W) (Op := Op) (Req := Req) (Ev := Ev) (Item := Item)
                    agent_name listen_port memory_regions batch_size).
Implicit Types s : T.

(** The turns a thread still takes, at most: one for each block of its start, one for each
    submission, and one for each millisecond of the cleanup. *)
Definition queued (s : T) : nat := if t_stop_requested s then 0 else length (t_submissions s).
Definition cleanup_turns : nat := 3 + Z.to_nat cleanup_timeout.
Definition turns_left (s : T) : nat :=
  match t_pc s with
  | NotStarted | Dead => 0
  | AtFinish _ => 1
  | AtOps deadline => 2 + Z.to_nat (deadline - monotonic (t_port s).2)
  | AtCleanup => cleanup_turns
  | AtLoop => cleanup_turns + queued s + 1
  | AtMetadata => cleanup_turns + queued s + 2
  | AtEarlyBackends | AtRegister => cleanup_turns + queued s + 3
  | AtActivation | AtBackends => cleanup_turns + queued s + 4
  | AtEarlyRegister => cleanup_turns + queued s + 5
  | AtBranch => cleanup_turns + queued s + 6
  | AtAgent => cleanup_turns + queued s + 7
  end.

(** A close was requested: the thread is activated, and [_STOP] is queued or was taken. *)
Definition asked (s : T) : Prop :=
  t_activate s = true ∧ (SubStop ∈ t_submissions s ∨ t_stop_requested s = true).

(** The queue and the flags a block does not touch. *)
Definition same_queue (s0 s : T) : Prop :=
  t_submissions s = t_submissions s0 ∧ t_stop_requested s = t_stop_requested s0 ∧ t_activate s = t_activate s0.
Lemma same_queue_asked s0 s : same_queue s0 s → asked s0 → asked s.
Proof. intros (Hq & Hs & Ha). unfold asked. by rewrite Hq, Hs, Ha. Qed.
Lemma same_queue_queued s0 s : same_queue s0 s → queued s = queued s0.
Proof. intros (Hq & Hs & Ha). unfold queued. by rewrite Hq, Hs. Qed.

Lemma on_port_queue {A} s0 (m : M (Port W) A) : preserves (same_queue s0) (on_port m).
Proof. intros s Hs. unfold on_port. by destruct (m (t_port s)) as [[a|e] p]. Qed.
Lemma publish_queue s0 used : preserves (same_queue s0) (publish_batch (W := W) batch_size used).
Proof. by intros s Hs. Qed.

(** Blocks that only use their own part of the thread. *)
Local Ltac private :=
  repeat (progress (statements; try match goal with
  | |- preserves _ (on_port _) => apply on_port_queue
  | |- preserves _ (publish_batch _ _) => apply publish_queue
  | |- preserves _ (modify _) => by intros ? ?
  end)).

Lemma initialize_nixl_queue s0 : preserves (same_queue s0) (initialize_nixl agent_name listen_port).
Proof. unfold initialize_nixl, on_world. private. Qed.
Lemma register_memory_regions_queue s0 :
  preserves (same_queue s0) (register_memory_regions (W := W) agent_name memory_regions).
Proof. unfold register_memory_regions, register_region, own_name, on_prog, on_world. private. Qed.
Lemma capture_agent_metadata_queue s0 : preserves (same_queue s0) (capture_agent_metadata (W := W)).
Proof. unfold capture_agent_metadata, on_world. private. Qed.

(** After the submissions are taken an iteration leaves the queue alone. *)
Definition iteration_rest (published : nat) (items : list (Op + Req)) : M T bool :=
  for_each items (λ item, match item with inl op => enter_flight (bk_op_id op) op | inr _ => mret tt end) ;;
  '(events, backend_work) ← on_port (bk_poll (omap (λ item, match item with inl _ => None | inr r => Some r end) items));
  in_flight ← gets (λ s, l_in_flight (t_loop s));
  '(completed_ops, work) ← fold_each (advance_flight events) ([], false) in_flight;
  p ← gets t_port;
  let '(flushed, p) := bk_flush p in
  modify (set_t_port p) ;;
  let completed := flushed ++ completed_ops in
  extend_backlog completed ;;
  published' ← publish_batch batch_size published;
  mret (negb (bool_decide (length items = 0)) || backend_work || work ||
        negb (bool_decide (length completed = 0)) || bool_decide (0 < published + published')).
Lemma iteration_rest_queue s0 published items : preserves (same_queue s0) (iteration_rest published items).
Proof.
  unfold iteration_rest, advance_flight, enter_flight, leave_flight, extend_backlog. private.
Qed.

(** A batch takes submissions while there are any, up to [_STOP]. *)
Lemma take_submissions_rest n (queue : list (Submitted Op Req)) items rest stop :
  take_submissions n queue = (items, rest, stop) →
  length rest <= length queue ∧ (SubStop ∈ queue → stop = true ∨ SubStop ∈ rest).
Proof.
  revert n items rest stop. induction queue as [|item queue IH]; intros [|n] items rest stop Ht;
    simpl in Ht; simplify_eq; simpl; auto.
  destruct item; [| |simplify_eq; auto];
    destruct (take_submissions n queue) as [[items' rest'] stop'] eqn:Hn; simplify_eq;
    apply IH in Hn as [Hl Hs]; (split; [lia|]); intros [[=]|Hin]%elem_of_cons; auto.
Qed.
Lemma take_submissions_nearer n (queue : list (Submitted Op Req)) items rest stop :
  take_submissions n queue = (items, rest, stop) → 0 < n → SubStop ∈ queue →
  length rest < length queue ∧ (stop = true ∨ SubStop ∈ rest).
Proof.
  intros Ht Hn Hin. pose proof (take_submissions_rest _ _ _ _ _ Ht) as [_ Hs]. split; [|auto].
  destruct n as [|n]; [lia|]. destruct queue as [|item queue]; [by apply not_elem_of_nil in Hin|].
  simpl in Ht. destruct item; [| |simplify_eq; simpl; lia];
    destruct (take_submissions n queue) as [[items' rest'] stop'] eqn:Hn'; simplify_eq;
    apply take_submissions_rest in Hn' as [Hl _]; simpl; lia.
Qed.

(** ** One turn *)

(** A block that leaves the queue alone and goes to a later stage, or to the cleanup. *)
Lemma block_asked (m : M T Pc) s (n : nat) :
  wp m (λ pc s', asked s' ∧ turns_left (set_t_pc pc s') < n) (λ _, asked) s →
  cleanup_turns < n → asked (block m s) ∧ turns_left (block m s) < n.
Proof. unfold wp, block. by destruct (m s) as [[pc|e] s']. Qed.
Lemma block_nearer (m : M T Pc) s (n : nat) :
  triple (same_queue s) m (λ pc s', same_queue s s' ∧ turns_left (set_t_pc pc s') < n) (λ _, same_queue s) →
  asked s → cleanup_turns < n → asked (block m s) ∧ turns_left (block m s) < n.
Proof.
  intros Hm Ha. apply block_asked. eapply (wp_use (same_queue s)); [exact Hm|done| |].
  - intros pc s' [Hq Hl]. split; [by apply (same_queue_asked s)|done].
  - intros e s' Hq. by apply (same_queue_asked s).
Qed.

Lemma iteration_nearer s : asked s → t_stop_requested s = false →
  wp (iteration batch_size) (λ _ s', asked s' ∧ queued s' < queued s)
    (λ _ s', asked s' ∧ queued s' < queued s) s.
Proof.
  intros [Ha [Hin|Hst]] Hns; [|congruence]. unfold iteration.
  apply wp_bind. unfold publish_batch at 1. unfold wp at 1.
  destruct (publish_completed _ _) as [l published]. cbn beta iota zeta. wp.
  change (t_submissions (set_t_loop l s)) with (t_submissions s).
  destruct (take_submissions _ (t_submissions s)) as [[items rest] stop] eqn:Ht.
  apply take_submissions_nearer in Ht as [Hl Hs]; [| |done].
  2: { unfold room. case_decide; [|lia]. destruct (t_submissions s); [by apply not_elem_of_nil in Hin|simpl; lia]. }
  apply wp_bind, wp_modify. apply wp_bind.
  set (s1 := set_t_submissions rest (set_t_loop l s)).
  assert (∀ s2, asked s2 → queued s2 < queued s → wp (iteration_rest published items)
    (λ _ s', asked s' ∧ queued s' < queued s) (λ _ s', asked s' ∧ queued s' < queued s) s2) as Hrest.
  { intros s2 Ha2 Hq2. pose proof (iteration_rest_queue s2 published items s2 (conj eq_refl (conj eq_refl eq_refl))) as Hr.
    unfold wp. destruct (iteration_rest published items s2) as [[b|e] s'];
      (split; [by apply (same_queue_asked s2)|by rewrite (same_queue_queued s2)]). }
  destruct stop; [apply wp_modify|apply wp_ret]; apply Hrest; unfold asked, queued; simpl; rewrite ?Hns; auto.
  - destruct (t_submissions s); [by apply not_elem_of_nil in Hin|simpl; lia].
  - destruct Hs as [|Hs]; [done|]. auto.
Qed.

Lemma later s pc : asked s → ∀ s', same_queue s s' → asked (set_t_pc pc s').
Proof. intros Ha s' Hq. by apply (same_queue_asked s). Qed.

Lemma round_queue s0 deadline : preserves (same_queue s0) (close_ops_round (Ev := Ev) (Item := Item) deadline).
Proof.
  unfold close_ops_round, close_flight, enter_flight, leave_flight. private.
Qed.
Lemma finish_queue s0 pending : preserves (same_queue s0) (shut_down (Ev := Ev) (Item := Item) (Req := Req) pending).
Proof.
  unfold shut_down, flush_all, extend_backlog, close_nixl, deregister_one, on_prog, on_world. private.
Qed.
Lemma round_pc s0 deadline : preserves (λ s, t_pc s = t_pc s0) (close_ops_round (Ev := Ev) (Item := Item) deadline).
Proof.
  assert (∀ A (m : M (Port W) A), preserves (λ s : T, t_pc s = t_pc s0) (on_port m)) as Hp.
  { intros A m s Hs. unfold on_port. by destruct (m (t_port s)) as [[a|e] p]. }
  unfold close_ops_round, close_flight, enter_flight, leave_flight.
  repeat (progress (statements; try match goal with
  | |- preserves _ (on_port _) => apply Hp
  | |- preserves _ (modify _) => by intros ? ?
  end)).
Qed.
(** The clock only goes forward. *)
Definition since (now : Z) (s : T) : Prop := (now <= monotonic (t_port s).2)%Z.
Lemma round_clock s deadline :
  wp (close_ops_round (Ev := Ev) deadline)
    (λ over s', over = false → (monotonic (t_port s).2 < deadline ∧
       monotonic (t_port s).2 + 1 <= monotonic (t_port s').2)%Z) (λ _ _, True) s.
Proof.
  unfold close_ops_round. wp. case_decide; [by wp|].
  set (now := monotonic (t_port s).2).
  assert (∀ A (m : M (Port W) A), (∀ p, monotonic p.2 <= monotonic (m p).2.2)%Z →
    preserves (since now) (on_port (Op := Op) (Req := Req) (Item := Item) m)) as Hp.
  { intros A m Hm s' Hs'. unfold since, on_port in *. specialize (Hm (t_port s')).
    destruct (m (t_port s')) as [[a|e] p]; simpl in *; lia. }
  apply wp_bind. eapply (wp_use (since now)); [apply Hp, poll_advances|unfold since; lia| |done].
  intros [events ?] s1 Hs1. wp.
  eapply (wp_use (since now) _ _ (λ _, since now) _ (λ _, since now)); [|exact Hs1| |done].
  - change (preserves (since now) (for_each (l_in_flight (t_loop s1)) (close_flight events))).
    unfold close_flight, enter_flight, leave_flight.
    repeat (progress (statements; try match goal with
    | |- preserves _ (on_port (bk_op_close _)) => apply Hp, op_close_advances
    | |- preserves _ (on_port (bk_progress _ _)) => apply Hp, progress_advances
    | |- preserves _ (modify _) => by intros ? ?
    end)).
  - intros [] s2 Hs2. wp. case_decide; [by wp|]. wp. case_decide; [by wp|]. wp. intros _.
    unfold since in Hs2. pose proof (idle_advances (t_port s2).2). simpl. lia.
Qed.
(** A block made of parts that leave the queue alone. *)
Lemma block_then {A} (m : M T A) (f : A → M T Pc) s (n : nat) :
  preserves (same_queue s) m →
  (∀ a s', same_queue s s' → wp (f a) (λ pc s', same_queue s s' ∧ turns_left (set_t_pc pc s') < n)
    (λ _, same_queue s) s') →
  triple (same_queue s) (m ≫= f) (λ pc s', same_queue s s' ∧ turns_left (set_t_pc pc s') < n)
    (λ _, same_queue s).
Proof. intros Hm Hf. eapply triple_bind; [exact Hm|]. intros a. exact (Hf a). Qed.

Lemma cleanup_starts m : 2 + Z.to_nat (m + cleanup_timeout - m) < cleanup_turns.
Proof. unfold cleanup_turns. replace (m + cleanup_timeout - m)%Z with cleanup_timeout by lia. lia. Qed.
Local Opaque cleanup_turns cleanup_timeout Z.add.
Local Ltac counted := unfold turns_left, queued; simpl; lia.
Local Ltac at_next s Hq :=
  split; [exact Hq|]; pose proof (same_queue_queued s _ Hq); unfold turns_left; simpl;
  unfold queued in *; simpl in *; lia.

Lemma at_loop_nearer s : asked s →
  asked (block (at_loop batch_size) s) ∧
  turns_left (block (at_loop batch_size) s) < cleanup_turns + queued s + 1.
Proof.
  intros Ha. apply block_asked; [|lia]. unfold at_loop. wp.
  destruct (t_stop_requested s) eqn:Hs; wp; [split; [done|counted]|].
  eapply wp_mono; [by apply iteration_nearer| |by intros e s' []].
  intros work s' [Ha' Hq]. wp.
  destruct work; wp; (split; [done|]); unfold turns_left; simpl; unfold queued in *; simpl in *; lia.
Qed.
Lemma round_nearer s deadline : t_pc s = AtOps deadline → asked s →
  asked (thread_turn s) ∧ turns_left (thread_turn s) < turns_left s.
Proof.
  intros Hpc Ha. unfold turns_left at 2. unfold Progress.thread_turn. rewrite Hpc.
  pose proof (round_queue s deadline s (conj eq_refl (conj eq_refl eq_refl))) as Hq.
  pose proof (round_clock s deadline) as Hc. unfold wp in Hc.
  destruct (close_ops_round deadline s) as [[[]|e] s'] eqn:He;
    (split; [by apply (same_queue_asked s)|]); [unfold turns_left; simpl; lia| |unfold turns_left; simpl; lia].
  destruct (Hc eq_refl). unfold turns_left.
  assert (t_pc s' = t_pc s) as ->; [|rewrite Hpc; lia].
  pose proof (round_pc s deadline s eq_refl) as Hp. by rewrite He in Hp.
Qed.
Lemma turn_nearer s : is_alive s = true → asked s →
  asked (thread_turn s) ∧ turns_left (thread_turn s) < turns_left s.
Proof.
  intros Hal Ha. destruct (t_pc s) eqn:Hpc; try (unfold is_alive in Hal; by rewrite Hpc in Hal);
    try (by eapply round_nearer);
    unfold turns_left at 2; unfold Progress.thread_turn; rewrite Hpc.
  - apply block_nearer; [|done|lia]. apply block_then; [apply initialize_nixl_queue|].
    intros [] s' Hq. wp. destruct (t_close_requested s'); at_next s Hq.
  - split; [exact Ha|]. destruct (t_activate s); counted.
  - apply block_nearer; [|done|lia]. apply block_then; [apply register_memory_regions_queue|].
    intros [] s' Hq. wp. at_next s Hq.
  - rewrite (proj1 Ha). split; [exact Ha|]. destruct (t_close_requested s); counted.
  - apply block_nearer; [|done|lia]. apply block_then; [apply on_port_queue|].
    intros [] s' Hq. wp. at_next s Hq.
  - apply block_nearer; [|done|lia]. apply block_then; [apply on_port_queue|].
    intros [] s' Hq. wp. at_next s Hq.
  - apply block_nearer; [|done|lia]. apply block_then; [apply register_memory_regions_queue|].
    intros [] s' Hq. wp. at_next s Hq.
  - apply block_nearer; [|done|lia]. apply block_then; [apply capture_agent_metadata_queue|].
    intros [] s' Hq. wp. at_next s Hq.
  - by apply at_loop_nearer.
  - split; [split; [apply Ha|by right]|]. unfold turns_left. simpl. apply cleanup_starts.
  - split; [|unfold turns_left; simpl; lia].
    pose proof (finish_queue s pending s (conj eq_refl (conj eq_refl eq_refl))) as Hq.
    destruct (shut_down pending s) as [[[]|e] s']; [by apply (same_queue_asked s)|].
    destruct (t_failure s'); by apply (same_queue_asked s).
Qed.

(** ** Close *)

Lemma turns_dead n s : t_pc s = Dead → turns n s = s.
Proof. intros Hp. induction n as [|n IH]; simpl; [done|]. unfold Progress.thread_turn. by rewrite Hp. Qed.
Lemma turns_end n s : sound s → t_pc s ≠ NotStarted → asked s → turns_left s <= n → t_pc (turns n s) = Dead.
Proof.
  revert s. induction n as [|n IH]; intros s Hso Hst Ha Hn.
  - destruct (t_pc s) eqn:Hp; try done; unfold turns_left in Hn; rewrite Hp in Hn;
      try lia; pose proof (cleanup_starts 0); lia.
  - destruct (decide (t_pc s = Dead)) as [Hd|Hd]; [by rewrite turns_dead|]. simpl.
    destruct (turn_nearer s) as [Ha' Hl]; [|done|].
    { unfold is_alive. by rewrite !bool_decide_eq_false_2. }
    apply IH; [by apply turn_sound|apply turn_started; [apply Hso|done]|done|lia].
Qed.

(** The deadline of the cleanup is never more than its timeout away. *)
Definition on_time (s : T) : Prop :=
  match t_pc s with AtOps d => (d <= monotonic (t_port s).2 + cleanup_timeout)%Z | _ => True end.
Lemma early_on_time s : early (t_pc s) → on_time s.
Proof. unfold on_time. by destruct (t_pc s). Qed.
Lemma round_on_time s deadline : t_pc s = AtOps deadline → on_time s → on_time (thread_turn s).
Proof.
  intros Hpc Ht. unfold on_time in Ht. rewrite Hpc in Ht. unfold Progress.thread_turn. rewrite Hpc.
  pose proof (round_clock s deadline) as Hc. unfold wp in Hc. pose proof (round_pc s deadline s eq_refl) as Hp.
  destruct (close_ops_round deadline s) as [[[]|e] s']; [done| |done].
  destruct (Hc eq_refl). unfold on_time. rewrite Hp, Hpc. lia.
Qed.
Lemma turn_on_time s : books s → on_time s → on_time (thread_turn s).
Proof.
  intros Hb Ht. destruct (t_pc s) eqn:Hpc; try (by eapply round_on_time);
    try (by apply early_on_time, turn_early; [|rewrite Hpc]); unfold Progress.thread_turn; rewrite Hpc; try done.
  unfold on_time. simpl. lia.
Qed.
Lemma act_on_time a s : on_time s → on_time (act a s).
Proof.
  destruct a; simpl; try done; [by case_decide|]. by destruct (l_completed (t_loop s)).
Qed.
Lemma reachable_on_time w s : rtc (step agent_name listen_port memory_regions batch_size) (initial w) s →
  sound s ∧ on_time s.
Proof.
  intros Hr. split; [by eapply reachable_sound|]. revert Hr.
  assert (on_time (initial (Op := Op) (Req := Req) (Item := Item) w)) as H0 by done.
  assert (sound (initial (Op := Op) (Req := Req) (Item := Item) w)) as H1 by (by split).
  induction 1 as [s|s s1 s2 Hstep _ IH]; [done|].
  destruct Hstep; apply IH; [apply turn_on_time|apply turn_sound|apply act_on_time|apply act_sound]; try done; apply H1.
Qed.
Lemma turns_bounded s : on_time s → turns_left s <= cleanup_turns + 7 + length (t_submissions s).
Proof.
  intros Ht. assert (queued s <= length (t_submissions s)) by (unfold queued; destruct (t_stop_requested s); lia).
  pose proof (cleanup_starts 0). unfold on_time in Ht. unfold turns_left. destruct (t_pc s); lia.
Qed.
Lemma turns_reachable n s s' : rtc (step agent_name listen_port memory_regions batch_size) s s' →
  rtc (step agent_name listen_port memory_regions batch_size) s (turns n s').
Proof.
  revert s'. induction n as [|n IH]; intros s' Hr; simpl; [done|]. apply IH.
  eapply rtc_r; [exact Hr|apply step_turn].
Qed.

(** The state in which [close] finds the thread when its join is over. *)
Lemma close_joins (w : W) s budget :
  rtc (step agent_name listen_port memory_regions batch_size) (initial w) s → is_alive s = true →
  cleanup_turns + 8 + length (t_submissions s) <= budget →
  ∃ t, t_pc t = Dead ∧ sound t ∧
    progress_close agent_name listen_port memory_regions batch_size budget s = thread_raise_if_failed t.
Proof.
  intros Hr Hal Hb. pose proof (reachable_on_time w s Hr) as [Hso Hot].
  set (s1 := act (Put SubStop) (act Activate (act RequestClose s))).
  assert (rtc (step agent_name listen_port memory_regions batch_size) (initial w) s1) as Hr1.
  { do 3 (eapply rtc_r; [|apply step_act]). done. }
  assert (t_pc (turns budget s1) = Dead) as Hd.
  { apply turns_end.
    - by eapply reachable_sound.
    - unfold is_alive in Hal. intros Hp. change (t_pc s1) with (t_pc s) in Hp. by rewrite Hp in Hal.
    - split; [done|]. left. apply elem_of_app. right. by left.
    - etransitivity; [by apply turns_bounded|].
      change (t_submissions s1) with (t_submissions s ++ [SubStop]). rewrite length_app. cbn [length]. lia. }
  exists (turns budget s1). split_and!; [done|by eapply reachable_sound, turns_reachable|].
  unfold progress_close, mbind, M_bind, gets, modify. rewrite Hal. fold s1.
  assert (is_alive (turns budget s1) = false) as -> by (unfold is_alive; by rewrite Hd). done.
Qed.

(** C18: A close of a running progress thread joins it within a number of turns bounded by its
    submissions and the cleanup timeout, whatever the thread was doing, even if its start, an
    operation, a callback or NIXL fails: it then raises the thread's failure, or returns with
    the thread quiescent and every registration given back to NIXL. *)
Theorem close_ends_thread (w : W) s budget :
  rtc (step agent_name listen_port memory_regions batch_size) (initial w) s → is_alive s = true →
  cleanup_turns + 8 + length (t_submissions s) <= budget →
  let '(r, s') := progress_close agent_name listen_port memory_regions batch_size budget s in
  t_pc s' = Dead ∧ r = match t_failure s' with None => Ret tt | Some e => Raise e end ∧
  (r = Ret tt → is_quiescent s' = true ∧ t_granted s' ≡ₚ t_released s').
Proof.
  intros Hr Hal Hb. destruct (close_joins w s budget Hr Hal Hb) as (t & Hd & Hs & ->).
  unfold thread_raise_if_failed, mbind, M_bind, gets. destruct (t_failure t) as [e|] eqn:Hf; simpl; rewrite Hf; [done|].
  split_and!; [done..|]. intros _. by apply ended_quiescent.
Qed.
End End_.
