(* ===== verification/CoreClose.v ===== *)
(** * The core and its progress thread

    What the main thread of [_KVCRCore] ([src/src/kvcr/runtime/core.py]) does with the
    progress thread: [start], the report of transfer errors ([_notify_transfer_errors]),
    [poll_completed] from the queue on, and [close], which gives the memory back; with the
    progress callbacks of the file-backed tier ([initialize_progress] and [close_progress] of
    [src/src/kvcr/backends/local_disk.py]) and the ones the core makes of them. *)

From Stdlib Require Import ZArith Lia.
From S2P Require Import Prelude PyFloat Types Layout State CoreBase Pools Transfer Core Remote Progress.

(** What the progress thread completes: what the remote tier sends out, of which all but work
    for its main half are the transfer errors of the framework, and the operations of the
    tiers. *)
Inductive Notice := FromRemote (o : Outbound) | FromTier (i : Item).
Definition as_error (n : Notice) : option Outbound :=
  match n with FromRemote (OutRemote _) | FromTier _ => None | FromRemote o => Some o end.
Definition as_work (n : Notice) : option Item :=
  match n with
  | FromRemote (OutRemote r) => Some (ItemRemote r)
  | FromRemote _ => None
  | FromTier i => Some i
  end.

(** The main thread's state: the progress thread, the core, [_resilience_errors] and
    [_pending_progress_items]; [mn_notified] is what the callback was given. *)
Record Main (W Op Req : Type) := mkMain {
  mn_thread : Thread W Op Req Notice;
  mn_core : St;
  mn_errors : list Outbound;
  mn_pending : list Item;
  mn_notified : list Outbound }.
Arguments mkMain {_ _ _}.
Arguments mn_thread {_ _ _} _.
Arguments mn_core {_ _ _} _.
Arguments mn_errors {_ _ _} _.
Arguments mn_pending {_ _ _} _.
Arguments mn_notified {_ _ _} _.

Section CoreClose.
Context {W Op Req Ev : Type} `{!Agent W, !Clock W, !Backend W Op Req Ev Notice}.
Context (agent_name : option string) (listen_port : option Z) (memory_regions : RegionMaps)
        (batch_size : nat).
Context (E : Env) (progress_failure : St → option exn) (remote : Remote) (depth : nat) (local_dram : bool).
(** [_on_resilience_event_callback], of the framework: it may raise, depending on what it was
    given before. *)
Context (on_resilience_event : list Outbound → Outbound → result unit).
Notation Main := (Main W Op Req).

Definition on_thread {A} (m : M (Thread W Op Req Notice) A) : M Main A := λ s,
  let '(r, t) := m (mn_thread s) in
  (r, mkMain t (mn_core s) (mn_errors s) (mn_pending s) (mn_notified s)).
Definition on_core {A} (m : M St A) : M Main A := λ s,
  let '(r, c) := m (mn_core s) in
  (r, mkMain (mn_thread s) c (mn_errors s) (mn_pending s) (mn_notified s)).

(** [start] *)
Definition core_start (prepare_budget budget : nat) : M Main unit :=
  on_thread (progress_start agent_name listen_port memory_regions batch_size prepare_budget budget).

(** [while self._resilience_errors: callback(self._resilience_errors.popleft())] *)
Fixpoint notify_each (errors : list Outbound) : M Main unit :=
  match errors with
  | [] => mret tt
  | e :: errors =>
      before ← gets mn_notified;
      modify (λ s, mkMain (mn_thread s) (mn_core s) errors (mn_pending s) (mn_notified s ++ [e])) ;;
      lift (on_resilience_event before e) ;;
      notify_each errors
  end.

(** [_notify_transfer_errors] *)
Definition notify_transfer_errors (progress_items : list Notice) : M Main unit :=
  modify (λ s, mkMain (mn_thread s) (mn_core s) (mn_errors s ++ omap as_error progress_items)
                 (mn_pending s ++ omap as_work progress_items) (mn_notified s)) ;;
  errors ← gets mn_errors;
  notify_each errors.

(** [poll_completed] *)
Definition core_poll_completed : M Main (list (Z * gmap BlockKey OpEntryResult)) :=
  on_thread thread_raise_if_failed ;;
  items ← on_thread (take_completed batch_size);
  notify_transfer_errors items ;;
  pending ← gets mn_pending;
  modify (λ s, mkMain (mn_thread s) (mn_core s) (mn_errors s) [] (mn_notified s)) ;;
  on_core (poll_completed E memory_regions progress_failure remote depth local_dram pending).

(** [while progress_items := self._progress.take_completed()], the other thread taking
    [schedule]'s turns before each round: whether the queue was found empty. *)
Fixpoint drain_completed (schedule : list nat) : M Main bool :=
  match schedule with
  | [] => mret false
  | n :: schedule =>
      on_thread (modify (turns agent_name listen_port memory_regions batch_size n)) ;;
      items ← on_thread (take_completed batch_size);
      if decide (length items = 0) then mret true
      else notify_transfer_errors items ;; drain_completed schedule
  end.

(** [close]: [false] means that it is still draining at the end of the schedule. *)
Definition core_close (close_hint_handlers : M St unit) (budget : nat) (schedule : list nat) : M Main bool :=
  closed ← gets (λ s, s_closed (mn_core s));
  if (closed : bool) then mret true
  else
    progress_error ← try_except
      (on_thread (progress_close agent_name listen_port memory_regions batch_size budget) ;; mret None)
      (λ e, mret (Some e));
    notify_transfer_errors [] ;;
    drained ← drain_completed schedule;
    if negb drained then mret false
    else
      quiescent ← gets (λ s, is_quiescent (mn_thread s));
      if negb quiescent
      then raise (default (RuntimeError "KVCR progress loop is not quiescent after close") progress_error)
      else
        on_core (modify (set_s_closed true)) ;;
        on_core (close_main_resources E memory_regions progress_failure remote depth local_dram
                   close_hint_handlers) ;;
        match progress_error with Some e => raise e | None => mret true end.

(** The life of a core: turns of the progress thread, the calls above, and calls that change
    the core or queue work for the progress thread. *)
Inductive main_step (m : Main) : Main → Prop :=
  | main_turn : main_step m (on_thread (modify (turns agent_name listen_port memory_regions batch_size 1)) m).2
  | main_prepare wait budget :
      main_step m (on_thread (progress_prepare agent_name listen_port memory_regions batch_size wait budget) m).2
  | main_start prepare_budget budget : main_step m (core_start prepare_budget budget m).2
  | main_submit item : main_step m (on_thread (submit_item item) m).2
  | main_poll : main_step m (core_poll_completed m).2
  | main_call (c : M St unit) : main_step m (on_core c m).2
  | main_close close_hint_handlers budget schedule :
      main_step m (core_close close_hint_handlers budget schedule m).2.
Definition main_initial (w : W) (c : St) : Main := mkMain (initial w) c [] [] [].
End CoreClose.
