(* ===== verification/CoreCloseThm.v ===== *)
(** * Memory is given back only when nothing native can reach it

    Theorems about [CoreClose]: the framework is told of every transfer error once and in
    order, and [close] touches the core's resources only when the progress thread has ended,
    holds nothing of NIXL's, and its errors were all reported. *)

From Stdlib Require Import ZArith Lia.
From S2P Require Import Prelude PyFloat Types Layout State CoreBase Pools Transfer Core Remote Progress ProgressThm ProgressEnd CoreClose.

Section Close.
Context {W Op Req Ev : Type} `{!Agent W, !Clock W, !Backend W Op Req Ev Notice}.
Context (agent_name : option string) (listen_port : option Z) (memory_regions : RegionMaps)
        (batch_size : nat).
Context (E : Env) (progress_failure : St → option exn) (remote : Remote) (depth : nat) (local_dram : bool).
Context (on_resilience_event : list Outbound → Outbound → result unit) (w : W).
Notation Main := (Main W Op Req).
Implicit Types m : Main.

(** The thread got here from its start, and the errors taken from it were reported, or wait
    in order. *)
Record told m : Prop := {
  to_reach : rtc (step agent_name listen_port memory_regions batch_size) (initial w) (mn_thread m);
  to_errors : omap as_error (t_taken (mn_thread m)) = mn_notified m ++ mn_errors m }.

Notation reached t := (rtc (step agent_name listen_port memory_regions batch_size) (initial w) t).

(** What reporting leaves alone. *)
Definition aside (m0 m : Main) : Prop := mn_thread m = mn_thread m0 ∧ mn_core m = mn_core m0.

(** An error is reported once: it leaves the queue before the callback sees it. *)
Lemma notify_each_told errors m : told m → mn_errors m = errors →
  wp (notify_each on_resilience_event errors)
    (λ _ m', told m' ∧ mn_errors m' = [] ∧ aside m m') (λ _ m', told m' ∧ aside m m') m.
Proof.
  revert m. induction errors as [|e errors IH]; intros m Ht He; [by apply wp_ret|].
  destruct Ht as [Hr Hq]. simpl. apply wp_bind, wp_gets, wp_bind, wp_modify, wp_bind.
  set (m1 := mkMain _ _ _ _ _).
  assert (told m1) as Ht1 by (constructor; [done|]; simpl; by rewrite Hq, He, <- app_assoc).
  unfold lift, wp at 1. destruct (on_resilience_event (mn_notified m) e); [|done].
  eapply wp_mono; [by apply IH|..]; [intros [] m'|intros e' m']; unfold aside; simpl; naive_solver.
Qed.
Lemma notify_told items m : reached (mn_thread m) →
  omap as_error (t_taken (mn_thread m)) = mn_notified m ++ mn_errors m ++ omap as_error items →
  wp (notify_transfer_errors on_resilience_event items)
    (λ _ m', told m' ∧ mn_errors m' = [] ∧ aside m m') (λ _ m', told m' ∧ aside m m') m.
Proof.
  intros Hr Hq. unfold notify_transfer_errors. apply wp_bind, wp_modify, wp_bind, wp_gets.
  eapply wp_mono; [apply notify_each_told; [by constructor|done]|..]; done.
Qed.

(** Taking items and reporting the errors among them. *)
Lemma take_told m : told m →
  wp (on_thread (take_completed batch_size))
    (λ items m', reached (mn_thread m') ∧ mn_core m' = mn_core m ∧
       omap as_error (t_taken (mn_thread m')) = mn_notified m' ++ mn_errors m' ++ omap as_error items ∧
       mn_errors m' = mn_errors m ∧
       l_completed (t_loop (mn_thread m)) = items ++ l_completed (t_loop (mn_thread m')) ∧
       items = take (room batch_size 0 (length (l_completed (t_loop (mn_thread m)))))
                 (l_completed (t_loop (mn_thread m))) ∧
       t_pc (mn_thread m') = t_pc (mn_thread m) ∧ t_failure (mn_thread m') = t_failure (mn_thread m))
    (λ _ _, False) m.
Proof.
  intros [Hr Hq]. unfold on_thread, take_completed, wp. set (t := mn_thread m) in *.
  set (n := room batch_size 0 _). set (items := take n _).
  assert (length items <= length (l_completed (t_loop t))) as Hle by (unfold items; rewrite length_take; lia).
  assert (take (length items) (l_completed (t_loop t)) = items) as Hti.
  { unfold items. rewrite length_take. destruct (decide (n <= length (l_completed (t_loop t)))).
    - f_equal. lia.
    - rewrite !firstn_all2 by lia. done. }
  pose proof (take_reachable _ _ _ _ (length items) _ _ Hr) as Hr'. cbv zeta.
  fold t. fold n. fold items. rewrite (take_items (length items) t Hle) in Hr' |- *.
  cbn beta iota. split_and!; simpl; try done.
  - by rewrite Hti, omap_app, Hq, <- app_assoc.
  - rewrite <- Hti at 1. by rewrite take_drop.
Qed.
Lemma turns_told n m : told m →
  wp (on_thread (modify (turns agent_name listen_port memory_regions batch_size n)))
    (λ _ m', told m' ∧ mn_core m' = mn_core m ∧ mn_errors m' = mn_errors m ∧
       mn_thread m' = turns agent_name listen_port memory_regions batch_size n (mn_thread m))
    (λ _ _, False) m.
Proof.
  intros [Hr Hq]. unfold on_thread, modify, wp. split_and!; try done. constructor; simpl.
  - by apply turns_reachable.
  - by rewrite turns_taken.
Qed.
(** Turns of the thread, and actions of the main thread other than taking an item. *)
Definition goes (t0 t : Thread W Op Req Notice) : Prop :=
  rtc (step agent_name listen_port memory_regions batch_size) t0 t ∧ t_taken t = t_taken t0.
Lemma turns_goes t0 n :
  preserves (goes t0) (modify (turns agent_name listen_port memory_regions batch_size n)).
Proof. intros t [Hr Ht]. split; [by apply turns_reachable|by rewrite turns_taken]. Qed.
Lemma act_goes t0 a : a ≠ Take → preserves (goes t0) (modify (act a)).
Proof.
  intros Ha t [Hr Ht]. split; [eapply rtc_r; [exact Hr|apply step_act]|].
  destruct a; simpl; try done. by case_decide.
Qed.
Local Ltac going := unfold progress_start, progress_prepare, submit_item, progress_close, wait_prepared,
    launch, thread_raise_if_failed;
  repeat (progress (statements; try match goal with
  | |- preserves _ (modify (turns _ _ _ _ _)) => apply turns_goes
  | |- preserves _ (modify (act _)) => by apply act_goes
  end)).
Lemma prepare_goes t0 wait budget :
  preserves (goes t0) (progress_prepare agent_name listen_port memory_regions batch_size wait budget).
Proof. going. Qed.
Lemma start_goes t0 prepare_budget budget :
  preserves (goes t0) (progress_start agent_name listen_port memory_regions batch_size prepare_budget budget).
Proof. going. Qed.
Lemma submit_goes t0 item : preserves (goes t0) (submit_item item).
Proof. going. Qed.
Lemma close_goes t0 budget :
  preserves (goes t0) (progress_close agent_name listen_port memory_regions batch_size budget).
Proof. going. Qed.

Lemma on_thread_told {A} (f : M (Thread W Op Req Notice) A) m : (∀ t0, preserves (goes t0) f) → told m →
  let Q m' := told m' ∧ mn_core m' = mn_core m ∧ mn_errors m' = mn_errors m in
  wp (on_thread f) (λ _, Q) (λ _, Q) m.
Proof.
  intros Hf [Hr Hq]. specialize (Hf (mn_thread m) (mn_thread m) (conj (rtc_refl _ _) eq_refl)).
  unfold wp, on_thread. destruct (f (mn_thread m)) as [[a|e] t]; destruct Hf as [Hs Ht];
    (split; [constructor; simpl; [by etransitivity|by rewrite Ht]|done]).
Qed.

(** A queue of which a batch takes nothing is empty. *)
Lemma room_empty {A} (l : list A) : take (room batch_size 0 (length l)) l = [] → l = [].
Proof.
  unfold room. destruct l as [|x l]; [done|]. case_decide; [done|]. by destruct batch_size.
Qed.
Lemma drain_told schedule m : told m → mn_errors m = [] →
  wp (drain_completed agent_name listen_port memory_regions batch_size on_resilience_event schedule)
    (λ b m', told m' ∧ mn_core m' = mn_core m ∧
       (b = true → mn_errors m' = [] ∧ l_completed (t_loop (mn_thread m')) = []))
    (λ _ m', told m' ∧ mn_core m' = mn_core m) m.
Proof.
  revert m. induction schedule as [|n schedule IH]; intros m Ht He; simpl; [by apply wp_ret|].
  apply wp_bind. eapply wp_mono; [by apply turns_told| |done].
  intros [] m1 (Ht1 & Hc1 & He1 & _). apply wp_bind.
  eapply wp_mono; [by apply take_told| |done].
  intros items m2 (Hr2 & Hc2 & Hq2 & He2 & Hl2 & Hi2 & _). case_decide as Hn.
  - apply nil_length_inv in Hn. subst items. apply wp_ret. rewrite Hn in *. simpl in *.
    split_and!; [constructor; [done|]|congruence|]; [by rewrite Hq2, app_nil_r|]. intros _.
    split; [congruence|]. rewrite <- Hl2. by apply room_empty.
  - apply wp_bind. eapply wp_mono; [by apply notify_told| |].
    + intros [] m3 (Ht3 & He3 & _ & Hc3). eapply wp_mono; [by apply IH|..];
        [intros b m4 (? & ? & ?)|intros e m4 [? ?]]; (split; [done|]); [split; [congruence|done]|congruence].
    + intros e m3 (? & _ & ?). split; [done|congruence].
Qed.
(** A quiescent thread published all it completed, and gave back what it held. *)
Lemma quiescent_done (t : Thread W Op Req Notice) : sound t → is_quiescent t = true →
  l_backlog (t_loop t) = [] ∧ t_granted t ≡ₚ t_released t.
Proof.
  intros [[H1 _ _] Hst] Hq. unfold is_quiescent in Hq.
  apply andb_true_iff in Hq as [Hal Hq]. rewrite !negb_true_iff in Hq, Hal.
  rewrite !orb_false_iff in Hq. destruct Hq as [_ Hreg%bool_decide_eq_false].
  apply dec_stable in Hreg. rewrite Hreg in H1. split; [|done].
  unfold is_alive in Hal. rewrite andb_false_iff, !negb_false_iff, !bool_decide_eq_true in Hal.
  unfold stage in Hst. destruct Hal as [Hp|Hp]; rewrite Hp in Hst; [done|apply Hst].
Qed.

(** The end of [close] only changes the core. *)
Lemma close_quiet (error : option exn) m (P : Main → Prop) c1 c2 (close_main : M St unit) :
  (∀ c, P (mkMain (mn_thread m) c (mn_errors m) (mn_pending m) (mn_notified m))) →
  wp (on_core (W := W) (Op := Op) (Req := Req) (modify c1) ;; on_core close_main ;;
      match error with Some e => raise e | None => mret c2 end) (λ _ : bool, P) (λ _, P) m.
Proof.
  intros HP. apply wp_bind. unfold on_core at 1, modify, wp at 1. apply wp_bind.
  unfold on_core, wp at 1. simpl. destruct (close_main _) as [[[]|e] c]; [|by apply HP].
  destruct error; [apply wp_raise|apply wp_ret]; by apply HP.
Qed.

Notation close := (core_close agent_name listen_port memory_regions batch_size E progress_failure remote
                     depth local_dram on_resilience_event).
(** Nothing was given back, or nothing native remains and all errors were reported. *)
Definition safe (m m' : Main) : Prop :=
  mn_core m' = mn_core m ∨
  (is_quiescent (mn_thread m') = true ∧ t_granted (mn_thread m') ≡ₚ t_released (mn_thread m') ∧
   mn_notified m' = omap as_error (t_emitted (mn_thread m'))).
Lemma core_close_told close_hint_handlers budget schedule m : told m →
  wp (close close_hint_handlers budget schedule) (λ _ m', told m' ∧ safe m m') (λ _ m', told m' ∧ safe m m') m.
Proof.
  intros Ht. unfold core_close.
  apply wp_bind, wp_gets. destruct (s_closed (mn_core m)); [apply wp_ret; by split; [|left]|].
  apply wp_bind, wp_try_except, wp_bind.
  set (rest := λ progress_error : option exn, _).
  assert (∀ error m1, told m1 ∧ mn_core m1 = mn_core m ∧ mn_errors m1 = mn_errors m →
    rest error m1) as Hrest.
  2: { eapply wp_mono; [apply (on_thread_told _ m (λ t0, close_goes t0 budget) Ht)|
         intros [] m1 H1|intros e m1 H1]; apply wp_ret; by apply Hrest. }
  clear Ht. intros error m1 (Ht & Hc1 & _). unfold rest. apply wp_bind.
  destruct Ht as [Hr1 Hq1]. eapply wp_mono; [apply (notify_told []); [done|by rewrite app_nil_r]| |].
  2: { intros e m2 (Ht2 & _ & Hc2). split; [done|]. left. congruence. }
  intros [] m2 (Ht2 & He2 & _ & Hc2). apply wp_bind. eapply wp_mono; [by apply drain_told| |].
  2: { intros e m3 [Ht3 Hc3]. split; [done|]. left. congruence. }
  intros drained m3 (Ht3 & Hc3 & Hd). destruct drained; [|apply wp_ret; (split; [done|left; congruence])].
  destruct (Hd eq_refl) as [He3 Hl3]. apply wp_bind, wp_gets.
  destruct (is_quiescent (mn_thread m3)) eqn:Hquiet; [|apply wp_raise; (split; [done|left; congruence])].
  apply close_quiet. intros c. destruct Ht3 as [Hr3 Hq3]. split; [by constructor|right]. simpl.
  apply reachable_sound in Hr3. destruct (quiescent_done _ Hr3 Hquiet) as [Hb Hg].
  split_and!; [done..|]. destruct Hr3 as [[_ _ ->] _]. by rewrite Hl3, Hb, app_nil_r, Hq3, He3, app_nil_r.
Qed.

(** ** The life of a core *)

Notation main_step := (main_step agent_name listen_port memory_regions batch_size E progress_failure remote
                         depth local_dram on_resilience_event).
Lemma wp_final {A} (f : M Main A) (P : Main → Prop) m : wp f (λ _, P) (λ _, P) m → P (f m).2.
Proof. unfold wp. by destruct (f m) as [[a|e] m']. Qed.
Lemma wp_told {A} (f : M (Thread W Op Req Notice) A) m :
  (∀ t0, preserves (goes t0) f) → told m → told (on_thread f m).2.
Proof.
  intros Hf Ht. apply wp_final. eapply wp_mono; [by apply on_thread_told|..]; by intros ? ? [].
Qed.
Lemma core_poll_told m : told m →
  told (core_poll_completed memory_regions batch_size E progress_failure remote depth local_dram
          on_resilience_event m).2.
Proof.
  intros Ht. apply wp_final. unfold core_poll_completed. apply wp_bind.
  eapply wp_mono; [apply on_thread_told; [|exact Ht]|..]; [intros t0; by unfold thread_raise_if_failed; statements| |by intros e m1 []].
  intros [] m1 (Ht1 & _ & He1). apply wp_bind. eapply wp_mono; [by apply take_told| |done].
  intros items m2 (Hr2 & _ & Hq2 & _). apply wp_bind.
  eapply wp_mono; [by apply notify_told| |by intros e m3 []].
  intros [] m3 ([Hr3 Hq3] & _). apply wp_bind, wp_gets, wp_bind, wp_modify.
  unfold on_core, wp. destruct (poll_completed _ _ _ _ _ _ _ _) as [[a|e] c]; by constructor.
Qed.
Lemma main_told c m : rtc main_step (main_initial w c) m → told m.
Proof.
  intros Hr. assert (told (main_initial w c)) as H0 by (by constructor).
  induction Hr as [m|m m1 m2 Hs _ IH]; [done|]. apply IH. destruct Hs.
  - apply wp_told; [|done]. intros t0. apply turns_goes.
  - apply wp_told; [|done]. intros t0. apply prepare_goes.
  - apply wp_told; [|done]. intros t0. apply start_goes.
  - apply wp_told; [|done]. intros t0. apply submit_goes.
  - by apply core_poll_told.
  - destruct H0 as [Hr Hq]. unfold on_core. destruct (c0 (mn_core m)) as [r c']. by constructor.
  - apply wp_final. eapply wp_mono; [by apply core_close_told|..]; by intros ? ? [].
Qed.


(** ** The outcome *)

Context `{!ClockLaws W Op Req Ev Notice}.
Context (reports : ∀ before e, on_resilience_event before e = Ret tt).

Lemma notify_each_ok errors m :
  wp (notify_each on_resilience_event errors) (λ _ m', aside m m') (λ _ _, False) m.
Proof.
  revert m. induction errors as [|e errors IH]; intros m; simpl; [by apply wp_ret|].
  apply wp_bind, wp_gets, wp_bind, wp_modify, wp_bind. rewrite reports. unfold lift, wp at 1.
  eapply wp_mono; [apply IH| |done]. done.
Qed.
Lemma notify_ok items m :
  wp (notify_transfer_errors on_resilience_event items) (λ _ m', aside m m') (λ _ _, False) m.
Proof.
  unfold notify_transfer_errors. apply wp_bind, wp_modify, wp_bind, wp_gets.
  eapply wp_mono; [apply notify_each_ok| |done]. done.
Qed.
(** The queue of a thread that ended is drained, whatever the schedule. *)
Definition ended (t t' : Thread W Op Req Notice) : Prop :=
  t_pc t' = Dead ∧ t_failure t' = t_failure t ∧ is_quiescent t' = is_quiescent t.
Lemma drain_ok t schedule m : ended t (mn_thread m) →
  length (l_completed (t_loop (mn_thread m))) < length schedule →
  wp (drain_completed agent_name listen_port memory_regions batch_size on_resilience_event schedule)
    (λ drained m', drained = true ∧ mn_core m' = mn_core m ∧ ended t (mn_thread m')) (λ _ _, False) m.
Proof.
  revert m. induction schedule as [|n schedule IH]; intros m (Hd & Hf & Hq) Hl; simpl in *; [lia|].
  apply wp_bind. unfold on_thread at 1, modify, wp at 1. rewrite turns_dead by done.
  apply wp_bind. unfold on_thread, take_completed, wp at 1. cbv zeta. simpl.
  set (items := take _ _).
  assert (length items <= length (l_completed (t_loop (mn_thread m)))) as Hle
    by (unfold items; rewrite length_take; lia).
  rewrite take_items by done. case_decide as Hn; [by apply wp_ret|].
  apply wp_bind. eapply wp_mono; [apply notify_ok| |done]. intros [] m1 [Ht1 Hc1]. simpl in *.
  eapply wp_mono; [apply IH|..]; try done.
  - rewrite Ht1. by split_and!.
  - rewrite Ht1. simpl. rewrite length_drop. lia.
  - intros b m2 (? & ? & ?). split_and!; congruence.
Qed.

Notation close_main := (close_main_resources E memory_regions progress_failure remote depth local_dram).
(** What [close] comes to when its thread ended as [t]. *)
Definition outcome close_hint_handlers (t : Thread W Op Req Notice) m (r : result bool) m' : Prop :=
  if is_quiescent t then
    let '(rc, c) := close_main close_hint_handlers (set_s_closed true (mn_core m)) in
    mn_core m' = c ∧
    r = match rc, t_failure t with
        | Raise e, _ | Ret _, Some e => Raise e
        | Ret _, None => Ret true
        end
  else mn_core m' = mn_core m ∧ ∃ e, t_failure t = Some e ∧ r = Raise e.

Lemma close_main_outcome close_hint_handlers t m m1 : is_quiescent t = true → mn_core m1 = mn_core m →
  wp (on_core (modify (set_s_closed true)) ;; on_core (close_main close_hint_handlers) ;;
      match t_failure t with Some e => raise e | None => mret true end)
    (λ b, outcome close_hint_handlers t m (Ret b)) (λ e, outcome close_hint_handlers t m (Raise e)) m1.
Proof.
  intros Hq Hc. unfold outcome. rewrite Hq, <- Hc. apply wp_bind. unfold on_core at 1, modify, wp at 1.
  apply wp_bind. unfold on_core, wp at 1. simpl.
  destruct (close_main close_hint_handlers _) as [[[]|e] c]; [|done].
  destruct (t_failure t); [by apply wp_raise|by apply wp_ret].
Qed.

End Close.
