(* ===== verification/DiskFiles.v ===== *)
(** * The files of the file-backed tier

    How [_G3] of [src/src/kvcr/backends/local_disk.py] owns its files ([_open_files],
    [_close_files] and the end of [__init__]), and how the progress thread registers them with
    NIXL ([initialize_progress], [close_progress]).  The operating system and the NIXL agent
    are interfaces; the ledger [f_held] is the descriptors the tier opened and has not
    closed. *)

From Stdlib Require Import ZArith Lia.
From S2P Require Import Prelude PyFloat Types Layout State Disk.

(** ** Ownership *)

(** The calls of [os], [fcntl] and [pathlib] on the tier's files; [is_direct] is the flag
    [O_DIRECT]. *)
Class FileOS (V : Type) := {
  has_o_direct : bool;
  make_parents : string → M V unit;
  os_open : string → bool → M V Z;
  os_close : Z → M V unit;
  same_open_file : Z → Z → V → result bool;
  flock_exclusive : Z → M V unit;
  fchmod_private : Z → M V unit;
  file_size : Z → V → result Z;
  fallocate : Z → Z → M V unit }.

Record Files (V : Type) := mkFiles {
  f_owner : list Z;
  f_direct : list Z;
  f_held : list Z;
  f_os : V }.
Arguments mkFiles {_} _ _ _ _.
Arguments f_owner {_} _.
Arguments f_direct {_} _.
Arguments f_held {_} _.
Arguments f_os {_} _.

Section Files.
Context {V : Type} `{!FileOS V}.
Context (bytes_per_file : Z).
Notation F := (Files V).

Definition on_os {A} (m : M V A) : M F A := λ s,
  let '(r, v) := m (f_os s) in (r, mkFiles (f_owner s) (f_direct s) (f_held s) v).
Definition ask_os {A} (f : V → result A) : M F A := λ s, (f (f_os s), s).

Definition open_fd (path : string) (direct : bool) : M F Z :=
  fd ← on_os (os_open path direct);
  modify (λ s, mkFiles (f_owner s) (f_direct s) (fd :: f_held s) (f_os s)) ;;
  mret fd.
Fixpoint without (fd : Z) (l : list Z) : list Z :=
  match l with [] => [] | fd' :: l => if decide (fd' = fd) then l else fd' :: without fd l end.
(** A descriptor is gone even if [close] reports an error. *)
Definition close_fd (fd : Z) : M F unit :=
  modify (λ s, mkFiles (f_owner s) (f_direct s) (without fd (f_held s)) (f_os s)) ;;
  on_os (os_close fd).

(** [any(os.path.sameopenfile(owner, fd) for fd in self._owner_fds)] *)
Fixpoint aliases (owner : Z) (fds : list Z) : M F bool :=
  match fds with
  | [] => mret false
  | fd :: fds =>
      same ← ask_os (same_open_file owner fd);
      if (same : bool) then mret true else aliases owner fds
  end.

(** The checks of one owned file, and its descriptor for direct access. *)
Definition check_file (path : string) (owner : Z) : M F Z :=
  owners ← gets f_owner;
  alias ← aliases owner owners;
  if (alias : bool) then raise (ValueError "G3 file paths must not alias the same file")
  else
    on_os (flock_exclusive owner) ;;
    on_os (fchmod_private owner) ;;
    size ← ask_os (file_size owner);
    (if decide (size = 0)%Z then on_os (fallocate owner bytes_per_file)
     else if decide (size ≠ bytes_per_file) then raise (ValueError "G3 file has incompatible size")
     else mret tt) ;;
    direct ← open_fd path true;
    same ← ask_os (same_open_file owner direct);
    if (same : bool) then mret direct
    else close_fd direct ;; raise (RuntimeError "G3 file path changed while opening").

Definition open_file (path : string) : M F unit :=
  on_os (make_parents path) ;;
  owner ← open_fd path false;
  direct ← try_except (check_file path owner) (λ e, close_fd owner ;; raise e);
  modify (λ s, mkFiles (f_owner s ++ [owner]) (f_direct s ++ [direct]) (f_held s) (f_os s)).

(** [_open_files] *)
Definition open_files (paths : list string) : M F unit :=
  if negb has_o_direct then raise (RuntimeError "G3 file storage requires O_DIRECT")
  else for_each paths open_file.

(** [_close_files] *)
Definition close_files : M F unit :=
  fds ← gets (λ s, f_direct s ++ f_owner s);
  errors ← fold_each (λ errors fd,
    try_except (close_fd fd ;; mret errors) (λ _, mret (S errors))) 0 fds;
  modify (λ s, mkFiles [] [] (f_held s) (f_os s)) ;;
  if decide (errors = 0) then mret tt else raise (RuntimeError "failed to close G3 file resources").

(** The end of [__init__]. *)
Definition own_files (paths : list string) : M F unit :=
  try_except (open_files paths) (λ e, close_files ;; raise e).
End Files.

(** [__init__]: the checks of [disk_init], then the files. *)
Definition disk_open `{!FileOS V} (page_size : Z) (config : G3Config) (slot_size : Z)
    : M (Files V) (Z * G3State) :=
  '(bytes_per_file, g) ← lift (disk_init page_size config slot_size);
  own_files bytes_per_file (c_paths config) ;;
  mret (bytes_per_file, g).

(** ** Registration by the progress thread *)

Definition Options : Type := gmap string string.

(** [_normalize_g3_backend_options] *)
Definition normalize_g3_backend_options (backend : string) (options : Options) : Options :=
  if decide (backend = "POSIX" ∧ Forall (λ name, options !! name = None) ["use_uring"; "use_aio"; "use_posix_aio"])
  then <["use_aio" := "true"]> options
  else options.

(** The agent's plugins and their configurations. *)
Class FileAgent (V : Type) := {
  plugin_list : V → list string;
  created_backends : V → list string;
  create_backend : string → Options → M V unit;
  backend_params : string → V → Options;
  register_files : list (Z * Z * Z) → string → M V (option Z);
  deregister_files : Z → string → M V bool }.

(** [self._nixl_agent] and [self._file_registration] *)
Record DiskPort := mkDiskPort { dp_agent : bool; dp_registration : option Z }.

Section Registration.
Context {V : Type} `{!FileAgent V}.
(** [config.backend], [config.backend_options], [_bytes_per_file] and [_direct_fds]. *)
Context (backend : string) (options : Options) (bytes_per_file : Z) (fds : list Z).
Notation P := (DiskPort * V)%type.

Definition on_agent {A} (m : M V A) : M P A := λ s,
  let '(r, v) := m s.2 in (r, (s.1, v)).
Definition set_port (f : DiskPort → DiskPort) : M P unit := modify (λ s, (f s.1, s.2)).

(** [initialize_progress] of [_G3]; [has_agent] is whether the thread's agent is there. *)
Definition disk_initialize_progress (has_agent : bool) : M P unit :=
  if negb has_agent then raise (RuntimeError "KVCR NIXL agent is not initialized")
  else
    set_port (λ d, mkDiskPort true (dp_registration d)) ;;
    plugins ← gets (λ s, plugin_list s.2);
    if decide (backend ∉ plugins) then raise (RuntimeError "NIXL plugin is not available")
    else
      let configured := normalize_g3_backend_options backend options in
      created ← gets (λ s, created_backends s.2);
      params ← gets (λ s, backend_params backend s.2);
      (if decide (backend ∉ created) then on_agent (create_backend backend configured)
       else if decide (Exists (λ kv, params !! kv.1 ≠ Some kv.2) (map_to_list configured))
       then raise (ValueError "incompatible options for NIXL backend")
       else mret tt) ;;
      registration ← on_agent (register_files ((λ fd, (0, bytes_per_file, fd)%Z) <$> fds) backend);
      set_port (λ d, mkDiskPort (dp_agent d) registration) ;;
      if decide (registration = None) then raise (RuntimeError "failed to register G3 files") else mret tt.

(** [close_progress] of [_G3]; [transferring] is whether an operation still has a native
    transfer. *)
Definition disk_close_progress (transferring : bool) : M P unit :=
  if transferring then raise (RuntimeError "cannot deregister G3 files with active transfers")
  else
    try_finally
      (registration ← gets (λ s, dp_registration s.1);
       match registration with
       | None => mret tt
       | Some registration =>
           agent ← gets (λ s, dp_agent s.1);
           if negb agent then raise (RuntimeError "G3 NIXL agent is not initialized")
           else
             released ← on_agent (deregister_files registration backend);
             if (released : bool) then set_port (λ d, mkDiskPort (dp_agent d) None)
             else raise (RuntimeError "G3 registration did not close")
       end)
      (set_port (λ d, mkDiskPort false (dp_registration d))).
End Registration.
