(* ===== verification/DiskFilesThm.v ===== *)
(** * Files are owned together or not at all

    Theorems about [DiskFiles]: the tier holds exactly the descriptors it has recorded, an
    initialisation that fails has closed all it opened, and closing closes everything. *)

From Stdlib Require Import ZArith Lia.
From S2P Require Import Prelude PyFloat Types Layout State Disk DiskFiles.

Section Files.
Context {V : Type} `{!FileOS V} (bytes_per_file : Z).
Notation F := (Files V).
Implicit Types s : F.

(** The descriptors held are the recorded ones, and [extra]. *)
Definition holds (extra : list Z) (s0 s : F) : Prop :=
  f_owner s = f_owner s0 ∧ f_direct s = f_direct s0 ∧ f_held s ≡ₚ extra ++ f_held s0.

Lemma without_elem fd l : fd ∈ l → fd :: without fd l ≡ₚ l.
Proof.
  induction l as [|fd' l IH]; [by intros ?%not_elem_of_nil|]. intros Hin. simpl.
  case_decide as Hd; [by subst|]. apply elem_of_cons in Hin as [->|Hin]; [done|].
  rewrite <- (IH Hin) at 2. apply Permutation_swap.
Qed.
Lemma without_held fd l k : l ≡ₚ fd :: k → without fd l ≡ₚ k.
Proof.
  intros Hl. apply (Permutation_cons_inv (a := fd)). rewrite <- Hl. apply without_elem. rewrite Hl. by left.
Qed.

Lemma on_os_holds {A} (m : M V A) extra s0 s : holds extra s0 s →
  wp (on_os m) (λ _, holds extra s0) (λ _, holds extra s0) s.
Proof. intros Hs. unfold wp, on_os. by destruct (m (f_os s)) as [[a|e] v]. Qed.
Lemma open_fd_holds path direct extra s0 s : holds extra s0 s →
  wp (open_fd path direct) (λ fd, holds (fd :: extra) s0) (λ _, holds extra s0) s.
Proof.
  intros Hs. unfold open_fd. apply wp_bind. eapply wp_mono; [by apply on_os_holds| |done].
  intros fd s1 (Ho & Hd & Hh). wp. split_and!; simpl; [done..|]. by rewrite Hh.
Qed.
Lemma close_fd_holds fd extra s0 s : holds (fd :: extra) s0 s →
  wp (close_fd fd) (λ _, holds extra s0) (λ _, holds extra s0) s.
Proof.
  intros (Ho & Hd & Hh). unfold close_fd. apply wp_bind, wp_modify. apply on_os_holds.
  split_and!; simpl; [done..|]. by apply without_held.
Qed.
Lemma aliases_holds owner fds extra s0 s : holds extra s0 s →
  wp (aliases owner fds) (λ _, holds extra s0) (λ _, holds extra s0) s.
Proof.
  intros Hs. induction fds as [|fd fds IH]; simpl; [by apply wp_ret|]. apply wp_bind.
  unfold ask_os, wp at 1. destruct (same_open_file owner fd (f_os s)) as [[]|e]; [by apply wp_ret|exact IH|done].
Qed.

(** [os.path.sameopenfile] of two descriptors the process holds answers. *)
Context (fstat_answers : ∀ fd fd' (v : V), is_ret (same_open_file fd fd' v) = true).

Lemma check_file_holds path owner extra s0 s : holds extra s0 s →
  wp (check_file bytes_per_file path owner) (λ direct, holds (direct :: extra) s0) (λ _, holds extra s0) s.
Proof.
  intros Hs. unfold check_file. apply wp_bind, wp_gets, wp_bind.
  eapply wp_mono; [by apply aliases_holds| |done]. intros alias s1 Hs1.
  destruct alias; [by apply wp_raise|].
  apply wp_bind. eapply wp_mono; [by apply on_os_holds| |done]. intros [] s2 Hs2.
  apply wp_bind. eapply wp_mono; [by apply on_os_holds| |done]. intros [] s3 Hs3.
  apply wp_bind. unfold ask_os at 1, wp at 1. destruct (file_size owner (f_os s3)) as [size|e]; [|done].
  apply wp_bind. eapply (wp_mono _ _ (λ _, holds extra s0) _ (λ _, holds extra s0)); [| |done].
  { case_decide; [by apply on_os_holds|]. case_decide; [by apply wp_raise|by apply wp_ret]. }
  intros [] s4 Hs4. apply wp_bind. eapply wp_mono; [by apply open_fd_holds| |done].
  intros direct s5 Hs5. cbn beta in Hs5. apply wp_bind. unfold ask_os, wp at 1.
  pose proof (fstat_answers owner direct (f_os s5)) as Ha.
  destruct (same_open_file owner direct (f_os s5)) as [[]|e]; [by apply wp_ret| |done].
  apply wp_bind. eapply wp_mono; [by apply close_fd_holds| |done]. intros [] s6 Hs6. by apply wp_raise.
Qed.

(** Files are recorded in pairs, and held as recorded. *)
Definition owned (n : nat) s : Prop :=
  length (f_owner s) = n ∧ length (f_direct s) = n ∧ f_held s ≡ₚ f_direct s ++ f_owner s.
Lemma holds_owned n s0 s : owned n s0 → holds [] s0 s → owned n s.
Proof. intros (H1 & H2 & H3) (Ho & Hd & Hh). unfold owned. rewrite Ho, Hd, Hh. by split_and!. Qed.
Lemma open_file_owned path n s : owned n s →
  wp (open_file bytes_per_file path) (λ _, owned (S n)) (λ _, owned n) s.
Proof.
  intros Hn. assert (holds [] s s) as Hs by done. unfold open_file. apply wp_bind.
  eapply wp_mono; [by apply on_os_holds| |intros e s1 H1; by eapply holds_owned]. intros [] s1 H1.
  apply wp_bind. eapply wp_mono; [by apply open_fd_holds| |intros e s2 H2; by eapply holds_owned].
  intros owner s2 H2. cbn beta in H2. apply wp_bind, wp_try_except.
  eapply wp_mono; [by apply check_file_holds| |].
  - intros direct s3 H3. cbn beta in H3. destruct H3 as (Ho & Hd & Hh). wp. destruct Hn as (H1' & H2' & H3'). unfold owned. simpl.
    rewrite Ho, Hd, !length_app, Hh, H3'. split_and!; simpl; [lia|lia|]. solve_Permutation.
  - intros e s3 H3. cbn beta in H3. apply wp_bind.
    eapply wp_mono; [by apply close_fd_holds| |intros e' s4 H4; by eapply holds_owned].
    intros [] s4 H4. apply wp_raise. by eapply holds_owned.
Qed.
Lemma open_files_owned paths s : owned 0 s →
  wp (open_files bytes_per_file paths) (λ _, owned (length paths)) (λ _ s', ∃ n, owned n s') s.
Proof.
  intros Hs. unfold open_files. destruct (negb has_o_direct); [apply wp_raise; by exists 0|].
  assert (∀ n, owned n s → wp (for_each paths (open_file bytes_per_file)) (λ _, owned (n + length paths))
    (λ _ s', ∃ n, owned n s') s) as H; [|by apply (H 0)].
  clear Hs. revert s. induction paths as [|path paths IH]; intros s n Hn; simpl.
  - apply wp_ret. by rewrite Nat.add_0_r.
  - apply wp_bind. eapply wp_mono; [by apply open_file_owned| |intros e s1 H1; by exists n].
    intros [] s1 H1. rewrite <- Nat.add_succ_comm. by apply IH.
Qed.

(** ** Closing *)

(** Each recorded descriptor is closed, whatever [close] reports. *)
Lemma close_each_holds fds errors s : f_held s ≡ₚ fds →
  wp (fold_each (λ errors fd, try_except (close_fd fd ;; mret errors) (λ _, mret (S errors))) errors fds)
    (λ _ s', f_held s' = []) (λ _ _, False) s.
Proof.
  revert errors s. induction fds as [|fd fds IH]; intros errors s Hs; simpl.
  - apply wp_ret. by apply Permutation_nil_r.
  - apply wp_bind, wp_try_except, wp_bind. unfold close_fd. apply wp_bind, wp_modify.
    unfold on_os, wp at 1. simpl. apply without_held in Hs.
    destruct (os_close fd (f_os s)) as [[[]|e] v]; wp; by apply IH.
Qed.
Lemma close_files_closes n s : owned n s →
  let Q s' := f_owner s' = [] ∧ f_direct s' = [] ∧ f_held s' = [] in
  wp close_files (λ _, Q) (λ _, Q) s.
Proof.
  intros (_ & _ & Hh) Q. unfold close_files. apply wp_bind, wp_gets, wp_bind.
  eapply wp_mono; [by apply close_each_holds| |done]. intros errors s1 H1. wp.
  case_decide; wp; by split_and!.
Qed.

End Files.
