(* ===== verification/ProgressDemo.v ===== *)
(** * A core that starts, works and closes

    Concrete runs of [Progress], [CoreClose] and [DiskFiles]: an agent that grants every
    registration, a backend with the file-backed tier's callbacks and operations that take a
    few polls, and a file system of regular files.  The witnesses of the theorems are taken
    from them. *)

From Stdlib Require Import ZArith Lia.
From S2P Require Import Prelude PyFloat Types Layout State CoreBase Pools Transfer Disk DiskProps Core Remote Progress ProgressThm ProgressEnd CoreClose CoreCloseThm DiskFiles DiskFilesThm.

Module ProgressDemo.
(** The tier's registration, the clock, and whether the agent refuses to deregister files. *)
Definition World : Type := DiskPort * (Z * bool).
#[export] Instance demo_agent : Agent World := {|
  create_agent := mret tt;
  register_memory := λ region _, mret region.1.1;
  deregister_memory := λ _, mret true;
  prep_xfer_dlist := λ _ _, Ret (Some 1%Z);
  release_dlist_handle := λ _, true;
  get_agent_metadata := Some (mret "agent") |}.
#[export] Instance demo_clock : Clock World := {|
  monotonic := λ w, w.2.1;
  idle := λ w, (w.1, (w.2.1 + 1, w.2.2)%Z) |}.
#[export] Instance demo_file_agent : FileAgent (Z * bool) := {|
  plugin_list := λ _, ["POSIX"];
  created_backends := λ _, [];
  create_backend := λ _ _, mret tt;
  backend_params := λ _ _, ∅;
  register_files := λ _ _, mret (Some 9%Z);
  deregister_files := λ _ _ v, (Ret (negb v.2), v) |}.
(** The file-backed tier's callbacks in the progress thread's state. *)
Definition on_tier (m : M World unit) : M (Port World) unit := λ p,
  let '(r, w) := m p.2 in (r, (p.1, w)).
(** An operation: its name, and the polls it takes. *)
#[export] Instance demo_backend : Backend World (Z * nat) unit unit Notice := {|
  bk_op_id := λ op, ("op", ArgInt op.1);
  bk_item := λ op, FromRemote OutStalled;
  bk_progress := λ op _, mret ((op.1, pred op.2), bool_decide (op.2 <= 1), true);
  bk_op_close := λ op, mret (op, false);
  bk_initialize := on_tier (disk_initialize_progress "POSIX" ∅ 32 [7; 8]%Z true);
  bk_poll := λ _, mret (λ _, None, false);
  bk_flush := λ p, ([], p);
  bk_close := on_tier (disk_close_progress "POSIX" false) |}.
#[export] Instance demo_laws : ClockLaws World (Z * nat) unit unit Notice.
Proof. split; intros; simpl; lia. Qed.

Definition demo_world (refuses : bool) : World := (mkDiskPort false None, (0%Z, refuses)).
Definition demo_thread : Type := Thread World (Z * nat) unit Notice.
Notation demo_turns := (turns (Ev := unit) (Some "w0") (Some 5555%Z) DiskDemo.regions 64).

(** Started and at work: an operation submitted, one turn of the loop taken. *)
Definition working (refuses : bool) : demo_thread :=
  demo_turns 1 (act (Put (SubOp (1%Z, 3)))
    (demo_turns 5 (act Launch (act Activate (initial (demo_world refuses)))))).
Definition closing (refuses : bool) : demo_thread :=
  demo_turns 8 (act (Put SubStop) (act Activate (act RequestClose (working refuses)))).

(** The thread registers its memory and the files, works, and gives everything back. *)
Example working_thread : t_pc (working false) = AtLoop ∧ t_granted (working false) = [8192; 4096]%Z ∧
  dp_registration (t_port (working false)).2.1 = Some 9%Z ∧ length (l_in_flight (t_loop (working false))) = 1.
Proof. vm_compute. auto. Qed.
Example closed_thread : t_pc (closing false) = Dead ∧ t_failure (closing false) = None ∧
  is_quiescent (closing false) = true ∧ t_released (closing false) = [8192; 4096]%Z ∧
  dp_registration (t_port (closing false)).2.1 = None.
Proof. vm_compute. auto. Qed.
(** [is_quiescent] does not look at the registration of the tier's files: a thread whose
    agent refuses to give it back is quiescent all the same. *)
Example quiescent_misses_files : t_pc (closing true) = Dead ∧ is_quiescent (closing true) = true ∧
  t_failure (closing true) = Some (RuntimeError "G3 registration did not close") ∧
  dp_registration (t_port (closing true)).2.1 = Some 9%Z.
Proof. vm_compute. auto. Qed.

Notation demo_step := (step (Ev := unit) (Some "w0") (Some 5555%Z) DiskDemo.regions 64).
Lemma working_reached refuses : rtc demo_step (initial (demo_world refuses)) (working refuses).
Proof.
  unfold working. apply turns_reachable. eapply rtc_r; [|apply step_act]. apply turns_reachable.
  do 2 (eapply rtc_r; [|apply step_act]). apply rtc_refl.
Qed.
Lemma closing_reached refuses : rtc demo_step (initial (demo_world refuses)) (closing refuses).
Proof.
  unfold closing. apply turns_reachable. do 3 (eapply rtc_r; [|apply step_act]). apply working_reached.
Qed.

(** A core on this thread, whose remote tier has nothing to do. *)
Definition idle_remote : Core.Remote :=
  mkRemote (λ _ _, mret false) (λ _ _ _ _, mret false) (λ _ _ _ _, mret tt) (λ _, mret tt)
    (λ _ _ _ _, mret tt) (λ _, mret tt).
Definition reports (before : list Outbound) (e : Outbound) : result unit := Ret tt.
Definition demo_core : Type := Main World (Z * nat) unit.
Notation demo_initial := (main_initial (demo_world false) DiskDemo.opened).
Definition demo_started : demo_core :=
  (core_start (Ev := unit) (Some "w0") (Some 5555%Z) DiskDemo.regions 64 0 5 demo_initial).2.
Definition demo_busy : demo_core :=
  (on_thread (submit_item (SubOp (1%Z, 3))) demo_started).2.
Notation demo_close := (core_close (Ev := unit) (Some "w0") (Some 5555%Z) DiskDemo.regions 64 DiskDemo.env
  (λ _, None) idle_remote 1 true reports (mret tt) (cleanup_turns + 9) [0; 0; 0]).
Lemma busy_reached : rtc (main_step (Ev := unit) (Some "w0") (Some 5555%Z) DiskDemo.regions 64 DiskDemo.env
  (λ _, None) idle_remote 1 true reports) demo_initial demo_busy.
Proof.
  unfold demo_busy, demo_started. eapply rtc_l; [apply (main_start _ _ _ _ _ _ _ _ _ _ _ 0 5)|].
  eapply rtc_l; [apply (main_submit _ _ _ _ _ _ _ _ _ _ _ (SubOp (1%Z, 3)))|]. apply rtc_refl.
Qed.
(** The operation in flight is never completed: the cleanup drops it after it advanced to its
    end. *)
Example demo_closed : (demo_close demo_busy).1 = Ret true ∧ s_closed (mn_core (demo_close demo_busy).2) = true ∧
  mn_notified (demo_close demo_busy).2 = [].
Proof. vm_compute. auto. Qed.

Lemma thread_accounts_witness : t_granted (closing false) ≡ₚ t_released (closing false).
Proof.
  destruct (thread_accounts (Some "w0") (Some 5555%Z) DiskDemo.regions 64 (demo_world false) (closing false)
    (closing_reached false)) as (_ & _ & H).
  destruct (H eq_refl) as (_ & _ & _ & H'). by destruct (H' eq_refl).
Defined.
Lemma close_ends_thread_witness :
  t_pc (progress_close (Ev := unit) (Some "w0") (Some 5555%Z) DiskDemo.regions 64 (cleanup_turns + 8)
          (working false)).2 = Dead.
Proof.
  pose proof (close_ends_thread (Some "w0") (Some 5555%Z) DiskDemo.regions 64 (demo_world false)
    (working false) (cleanup_turns + 8) (working_reached false) eq_refl) as H.
  assert (t_submissions (working false) = []) as Hs by (vm_compute; reflexivity).
  rewrite Hs in H. specialize (H ltac:(rewrite Nat.add_0_r; reflexivity)).
  destruct (progress_close _ _ _ _ (cleanup_turns + 8) (working false)) as [r s']. apply H.
Defined.
End ProgressDemo.

(** A directory of regular files of the configured size: descriptors are numbered from 3. *)
Module FilesDemo.
#[export] Instance demo_files : FileOS Z := {|
  has_o_direct := true;
  make_parents := λ _, mret tt;
  os_open := λ _ _ n, (Ret n, n + 1)%Z;
  os_close := λ _, mret tt;
  same_open_file := λ a b _, Ret (bool_decide (a + 1 = b)%Z);
  flock_exclusive := λ _, mret tt;
  fchmod_private := λ _, mret tt;
  file_size := λ _ _, Ret 32%Z;
  fallocate := λ _ _, mret tt |}.
Example opened_pair : (own_files 32 ["/a"; "/b"] (mkFiles [] [] [] 3%Z)).2 = mkFiles [3; 5]%Z [4; 6]%Z [6; 5; 4; 3]%Z 7%Z.
Proof. vm_compute. reflexivity. Qed.
End FilesDemo.
