(* ===== verification/Interact.v ===== *)
(** * Programs that share a world

    Code of several processes that meet in an outside world (files and their locks): a
    program is a tree of calls, the calls of different processes interleave one by one, and a
    process may die between any two of its calls.  Triples are proved for one process at a
    time: its assertions must be stable under what the others guarantee, and every call it
    makes keeps the world's invariant and its own guarantee; [run_safe] puts them together. *)

From S2P Require Import Prelude.

(** ** Programs *)

Section Programs.
Context {Sys : Type → Type}.

(** A call's answer may be an exception, on which the program goes on. *)
Inductive Prog (A : Type) : Type :=
  | Done (r : result A)
  | Call {B : Type} (c : Sys B) (k : result B → Prog A).
Arguments Done {_} _.
Arguments Call {_ _} _ _.

#[export] Instance Prog_ret : MRet Prog := λ A a, Done (Ret a).
Fixpoint prog_bind {A B} (f : A → Prog B) (p : Prog A) : Prog B :=
  match p with
  | Done (Ret a) => f a
  | Done (Raise e) => Done (Raise e)
  | Call c k => Call c (λ r, prog_bind f (k r))
  end.
#[export] Instance Prog_bind : MBind Prog := @prog_bind.
Definition call {A} (c : Sys A) : Prog A := Call c Done.
Definition fail {A} (e : exn) : Prog A := Done (Raise e).
(** [try: p except: h], where [h] may raise again, and [try: p finally: f] *)
Fixpoint catch {A} (p : Prog A) (h : exn → Prog A) : Prog A :=
  match p with
  | Done (Ret a) => Done (Ret a)
  | Done (Raise e) => h e
  | Call c k => Call c (λ r, catch (k r) h)
  end.
Fixpoint finally {A} (p : Prog A) (f : Prog unit) : Prog A :=
  match p with
  | Done r => prog_bind (λ _, Done r) f
  | Call c k => Call c (λ r, finally (k r) f)
  end.
Fixpoint each {A} (l : list A) (f : A → Prog unit) : Prog unit :=
  match l with [] => mret tt | x :: l => f x ;; each l f end.
End Programs.
Arguments Prog Sys A : clear implicits.
Arguments Done {_ _} _.
Arguments Call {_ _ _} _ _.

(** ** Interleaving *)

Section World.
Context {Sys : Type → Type} {W X : Type}.
(** What a call of process [pid] may answer, and make of the world; and its death. *)
Context (sem : nat → ∀ B, Sys B → W → result B → W → Prop) (die : nat → W → W).

(** The programs under way, and the world. *)
Notation Procs := (gmap nat (Prog Sys X)).
Inductive pstep : Procs * W → Procs * W → Prop :=
  | pstep_call pid B (c : Sys B) k ps w r w' :
      ps !! pid = Some (Call c k) → sem pid B c w r w' → pstep (ps, w) (<[pid := k r]> ps, w')
  | pstep_die pid ps w : pstep (ps, w) (delete pid ps, die pid w).

(** ** Rely and guarantee *)

Context (I : W → Prop) (G : nat → W → W → Prop).

(** A step of another process, and any number of them. *)
Definition other (pid : nat) (w w' : W) : Prop := I w ∧ I w' ∧ ∃ pid', pid' ≠ pid ∧ G pid' w w'.
Definition rely (pid : nat) : W → W → Prop := rtc (other pid).
Definition stable (pid : nat) (P : W → Prop) : Prop := ∀ w w', other pid w w' → P w → P w'.

Lemma stable_rely pid P w w' : stable pid P → rely pid w w' → P w → P w'.
Proof. intros Hs Hr. induction Hr as [|w w1 w2 Hw _ IH]; [done|]. intros HP. by eapply IH, Hs. Qed.

(** From [w] on, whatever the others do, each call of the program keeps the invariant and the
    guarantee, and its end satisfies [Q] or [E]. *)
Fixpoint safe {A} (pid : nat) (Q : A → W → Prop) (E : exn → W → Prop) (p : Prog Sys A) (w : W) : Prop :=
  match p with
  | Done r => ∀ w1, rely pid w w1 → match r with Ret a => Q a w1 | Raise e => E e w1 end
  | Call c k => ∀ w1 r w2, rely pid w w1 → I w1 → sem pid _ c w1 r w2 →
      I w2 ∧ G pid w1 w2 ∧ safe pid Q E (k r) w2
  end.
Definition ptriple {A} (pid : nat) (P : W → Prop) (p : Prog Sys A) (Q : A → W → Prop) (E : exn → W → Prop) : Prop :=
  ∀ w, P w → safe pid Q E p w.

Lemma safe_rely {A} pid Q E (p : Prog Sys A) w w' : rely pid w w' → safe pid Q E p w → safe pid Q E p w'.
Proof.
  intros Hr. destruct p as [r|B c k]; simpl.
  - intros Hs w1 H1. apply Hs. by etransitivity.
  - intros Hs w1 r w2 H1. apply Hs. by etransitivity.
Qed.
Lemma safe_mono {A} pid (Q Q' : A → W → Prop) (E E' : exn → W → Prop) p w :
  (∀ a w, Q' a w → Q a w) → (∀ e w, E' e w → E e w) → safe pid Q' E' p w → safe pid Q E p w.
Proof.
  intros HQ HE. revert w. induction p as [r|B c k IH]; intros w Hs; simpl in *.
  - intros w1 H1. specialize (Hs w1 H1). destruct r; auto.
  - intros w1 r w2 H1 HI Hc. destruct (Hs w1 r w2 H1 HI Hc) as (? & ? & ?). auto.
Qed.

Lemma stable_pure pid (φ : Prop) : stable pid (λ _, φ).
Proof. by intros w w' _. Qed.
Lemma stable_and pid P Q : stable pid P → stable pid Q → stable pid (λ w, P w ∧ Q w).
Proof. intros HP HQ w w' Ho [? ?]. eauto. Qed.
Lemma stable_given pid (φ : Prop) P : (φ → stable pid P) → stable pid (λ w, φ ∧ P w).
Proof. intros HP w w' Ho [? ?]. split; [done|]. by eapply HP. Qed.
Lemma stable_exists {Y} pid (P : Y → W → Prop) : (∀ y, stable pid (P y)) → stable pid (λ w, ∃ y, P y w).
Proof. intros HP w w' Ho [y Hy]. exists y. by eapply HP. Qed.

Lemma ptriple_mono {A} pid P P' (p : Prog Sys A) Q Q' E E' :
  ptriple pid P' p Q' E' → (∀ w, P w → P' w) → (∀ a w, Q' a w → Q a w) → (∀ e w, E' e w → E e w) →
  ptriple pid P p Q E.
Proof. intros Hp HP HQ HE w Hw. eapply safe_mono; [exact HQ|exact HE|]. by apply Hp, HP. Qed.
Lemma ptriple_ret {A} pid P (a : A) (Q : A → W → Prop) E :
  stable pid P → (∀ w, P w → Q a w) → ptriple pid P (mret a) Q E.
Proof. intros Hst HQ w Hw w1 Hr. apply HQ. by eapply stable_rely. Qed.
Lemma ptriple_fail {A} pid P e (Q : A → W → Prop) (E : exn → W → Prop) :
  stable pid P → (∀ w, P w → E e w) → ptriple pid P (fail e) Q E.
Proof. intros Hst HE w Hw w1 Hr. apply HE. by eapply stable_rely. Qed.
Lemma ptriple_done {A} pid P (r : result A) :
  stable pid P → ptriple pid P (Done r) (λ a w, r = Ret a ∧ P w) (λ e w, r = Raise e ∧ P w).
Proof. intros Hst w Hw w1 Hr. destruct r; (split; [done|]); by eapply stable_rely. Qed.
(** A call, from a stable assertion to a stable one for each answer. *)
Lemma ptriple_call {A} pid P (c : Sys A) (Q : A → W → Prop) (E : exn → W → Prop) :
  stable pid P → (∀ a, stable pid (Q a)) → (∀ e, stable pid (E e)) →
  (∀ w r w', I w → P w → sem pid A c w r w' →
     I w' ∧ G pid w w' ∧ match r with Ret a => Q a w' | Raise e => E e w' end) →
  ptriple pid P (call c) Q E.
Proof.
  intros HP HQ HE Hc w Hw w1 r w2 Hr HI Hs.
  destruct (Hc w1 r w2 HI (stable_rely _ _ _ _ HP Hr Hw) Hs) as (HI2 & HG & Hr2).
  split_and!; [done..|]. intros w3 Hr3. destruct r; by eapply stable_rely.
Qed.
Lemma ptriple_bind {A B} pid P (p : Prog Sys A) (f : A → Prog Sys B) R Q E :
  ptriple pid P p R E → (∀ a, ptriple pid (R a) (f a) Q E) → ptriple pid P (p ≫= f) Q E.
Proof.
  intros Hp Hf w Hw. specialize (Hp w Hw). clear Hw P. unfold mbind, Prog_bind. revert w Hp.
  induction p as [[a|e]|C c k IH]; intros w Hp; simpl in *.
  - apply Hf. by apply Hp.
  - exact Hp.
  - intros w1 r w2 H1 HI Hc. destruct (Hp w1 r w2 H1 HI Hc) as (? & ? & ?). auto.
Qed.
Lemma ptriple_catch {A} pid P (p : Prog Sys A) h (Q : A → W → Prop) E E' :
  ptriple pid P p Q E' → (∀ e, ptriple pid (E' e) (h e) Q E) → ptriple pid P (catch p h) Q E.
Proof.
  intros Hp Hh w Hw. specialize (Hp w Hw). clear Hw P. revert w Hp.
  induction p as [[a|e]|C c k IH]; intros w Hp; simpl in *.
  - exact Hp.
  - apply Hh. by apply Hp.
  - intros w1 r w2 H1 HI Hc. destruct (Hp w1 r w2 H1 HI Hc) as (? & ? & ?). auto.
Qed.
Lemma ptriple_finally {A} pid P (p : Prog Sys A) f (Q R : A → W → Prop) (E E' : exn → W → Prop) :
  ptriple pid P p R E' →
  (∀ a, ptriple pid (R a) f (λ _, Q a) E) → (∀ e, ptriple pid (E' e) f (λ _, E e) E) →
  ptriple pid P (finally p f) Q E.
Proof.
  intros Hp HQ HE w Hw. specialize (Hp w Hw). clear Hw P. revert w Hp.
  induction p as [r|C c k IH]; intros w Hp; simpl in *.
  - assert (∀ r', safe pid (λ _, match r' with Ret a => Q a | Raise e => E e end) E f w →
      safe pid Q E (prog_bind (λ _, Done r') f) w) as Hb.
    { clear. revert w. induction f as [[[]|e]|C c k IH]; intros w r' Hs; simpl in *.
      - intros w1 H1. specialize (Hs w1 H1). by destruct r'.
      - exact Hs.
      - intros w1 r w2 H1 HI Hc. destruct (Hs w1 r w2 H1 HI Hc) as (? & ? & ?). auto. }
    apply Hb. specialize (Hp w (rtc_refl _ _)). destruct r as [a|e]; [by apply HQ|by apply HE].
  - intros w1 r w2 H1 HI Hc. destruct (Hp w1 r w2 H1 HI Hc) as (? & ? & ?). auto.
Qed.
Lemma ptriple_each {A} pid (l : list A) f (J : W → Prop) E :
  stable pid J → (∀ x, x ∈ l → ptriple pid J (f x) (λ _, J) E) → ptriple pid J (each l f) (λ _, J) E.
Proof.
  intros Hst. induction l as [|x l IH]; intros Hf; simpl; [by apply ptriple_ret|].
  eapply ptriple_bind; [apply Hf; by left|]. intros []. apply IH. intros y Hy. apply Hf. by right.
Qed.

(** Programs that are safe on their own are safe together. *)
Lemma run_safe (Q : nat → X → W → Prop) (E : nat → exn → W → Prop) ps w ps' w' :
  (∀ pid w, I w → I (die pid w) ∧ G pid w (die pid w)) →
  rtc pstep (ps, w) (ps', w') → I w →
  (∀ pid p, ps !! pid = Some p → safe pid (Q pid) (E pid) p w) →
  I w' ∧ (∀ pid p, ps' !! pid = Some p → safe pid (Q pid) (E pid) p w').
Proof.
  intros Hdie. remember (ps, w) as c. remember (ps', w') as c'. intros Hr. revert ps w Heqc.
  induction Hr as [c|c c1 c2 Hs _ IH]; intros ps w -> HI Hps; [simplify_eq; auto|].
  inversion Hs as [pid B call k ps0 w0 r w1 Hpid Hc|pid ps0 w0]; subst.
  - destruct (Hps _ _ Hpid w r w1 (rtc_refl _ _) HI Hc) as (HI1 & HG & Hk).
    apply (IH eq_refl _ _ eq_refl HI1). intros pid' p Hp.
    destruct (decide (pid' = pid)) as [->|Hne]; [rewrite lookup_insert_eq in Hp; by simplify_eq|].
    rewrite lookup_insert_ne in Hp by done. eapply safe_rely; [|by apply Hps].
    apply rtc_once. split_and!; [done..|]. by exists pid.
  - destruct (Hdie pid w HI) as [HI1 HG]. apply (IH eq_refl _ _ eq_refl HI1). intros pid' p Hp.
    apply lookup_delete_Some in Hp as [Hne Hp]. eapply safe_rely; [|by apply Hps].
    apply rtc_once. split_and!; [done..|]. by exists pid.
Qed.
End World.

#[global] Arguments prog_bind : simpl never.
#[global] Arguments Prog_bind : simpl never.
#[global] Arguments catch : simpl never.
#[global] Arguments finally : simpl never.
