(* ===== verification/PoolFiles.v ===== *)
(** * Pool files and their locks

    The files of the pools of [src/src/kvcr/service/memory.py], as daemons, workers and purges
    share them: a pool's file is created and locked under its directory's guard
    ([_KVCRPoolOwner]), attached under a lock of its own ([KVCRPoolAttachment.attach_fd]), and
    reclaimed by a purge only if nobody holds its lock ([_reclaim_pool_if_orphaned],
    [_purge_orphaned_pools_in] of [src/src/kvcr/service/server.py]); the directories come from
    [src/src/kvcr/service/memmap.py].  The calls of the operating system are interleaved one by
    one; processes die at any point, which drops their locks. *)

From Stdlib Require Import ZArith Lia Ascii.
From S2P Require Import Prelude Snapshot Interact Protocol.

(** ** The operating system *)

(** A directory and a name in it; [st_dev] and [st_ino] of a file. *)
Notation Path := (string * string)%type.
Notation Identity := (Z * Z)%type.
Record FileStat := mkFileStat { fs_identity : Identity; fs_regular : bool; fs_mode : Z; fs_size : Z }.

Inductive FileCall : Type → Type :=
  | SUuid : FileCall string
  | SMounts : FileCall (list (list string))
  | SBlockSize (mount : string) : FileCall Z
  | SMkdir (directory : string) (mode : Z) : FileCall unit
  | SIsDir (directory : string) : FileCall bool
  | SCreate (path : Path) (mode : Z) : FileCall Z
  | SOpen (path : Path) : FileCall Z
  | SOpenDir (directory : string) : FileCall Z
  | SReceive : FileCall Z
  | SFlock (fd : Z) (exclusive nonblocking : bool) : FileCall unit
  | SFstat (fd : Z) : FileCall FileStat
  | SStat (path : Path) : FileCall FileStat
  | SIsLink (path : Path) : FileCall bool
  | SClose (fd : Z) : FileCall unit
  | SUnlink (path : Path) : FileCall unit
  | SFchmod (fd mode : Z) : FileCall unit
  | SFtruncate (fd size : Z) : FileCall unit
  | SFallocate (fd offset size : Z) : FileCall unit
  | SPwrite (fd size offset : Z) : FileCall Z
  | SMap (fd size : Z) : FileCall unit
  | SUnmap : FileCall unit
  | SGlob (directory : string) : FileCall (list string).

Inductive Target := TFile (ino : Identity) | TDir (directory : string).
#[export] Instance Target_eq_dec : EqDecision Target.
Proof. solve_decision. Defined.
(** An open file: its process, what it is of, and its lock, which may be exclusive. *)
Record OpenFile := mkOpenFile { of_pid : nat; of_target : Target; of_lock : option bool }.

(** The directories, the open files, every path created so far, the process that created each
    file, and the unlinks: by whom, of what, and whether another process held its lock. *)
Record Disk := mkDisk {
  k_entries : gmap Path Identity;
  k_inodes : gmap Identity FileStat;
  k_fds : gmap Z OpenFile;
  k_created : gset Path;
  k_owner : gmap Identity nat;
  k_unlinks : list (nat * Path * bool) }.
Definition set_k_fds (v : gmap Z OpenFile) (w : Disk) : Disk :=
  mkDisk (k_entries w) (k_inodes w) v (k_created w) (k_owner w) (k_unlinks w).
Definition set_k_inodes (v : gmap Identity FileStat) (w : Disk) : Disk :=
  mkDisk (k_entries w) v (k_fds w) (k_created w) (k_owner w) (k_unlinks w).

(** Somebody else than [pid] holds a lock on the file. *)
Definition locked_by_other (pid : nat) (ino : Identity) (w : Disk) : bool :=
  existsb (λ x, negb (bool_decide (of_pid x.2 = pid)) && bool_decide (of_target x.2 = TFile ino) &&
                bool_decide (is_Some (of_lock x.2))) (map_to_list (k_fds w)).
(** The process works under the exclusive guard of a directory. *)
Definition guards (pid : nat) (directory : string) (w : Disk) : Prop :=
  ∃ fd, k_fds w !! fd = Some (mkOpenFile pid (TDir directory) (Some true)).
(** An inode nothing refers to may be used again. *)
Definition unused (ino : Identity) (w : Disk) : Prop :=
  (∀ path, k_entries w !! path ≠ Some ino) ∧ (∀ fd f, k_fds w !! fd = Some f → of_target f ≠ TFile ino).
Definition compatible (fd : Z) (f : OpenFile) (exclusive : bool) (w : Disk) : Prop :=
  ∀ fd' f', fd' ≠ fd → k_fds w !! fd' = Some f' → of_target f' = of_target f →
    of_lock f' = None ∨ (exclusive = false ∧ of_lock f' = Some false).

Definition ENOENT : Z := 2.
(** A call succeeds, or raises an [OSError] and changes nothing. *)
Definition succeeds {B} (f : B → Disk → Prop) (w : Disk) (r : result B) (w' : Disk) : Prop :=
  (∃ b, r = Ret b ∧ f b w') ∨ (∃ errno, r = Raise (OSError errno) ∧ w' = w).
Definition open_new (pid : nat) (target : Target) (fd : Z) (w w' : Disk) : Prop :=
  k_fds w !! fd = None ∧ w' = set_k_fds (<[fd := mkOpenFile pid target None]> (k_fds w)) w.

(** What the calls do.  Documented behaviour of the system: a lock belongs to an open file and
    is gone with it; [close] lets go of the descriptor even when it raises; [SReceive] is a
    descriptor that came over a socket, a fresh open file ([_open_pool_fd]) of some file.  That
    a name with a fresh uuid4 was never used before is part of [SCreate]. *)
Definition file_sem (pid : nat) B (c : FileCall B) (w : Disk) : result B → Disk → Prop :=
  match c with
  | SUuid | SMounts | SBlockSize _ | SMkdir _ _ | SIsDir _ | SFallocate _ _ _ | SMap _ _ | SUnmap
  | SIsLink _ | SGlob _ => succeeds (λ _ w', w' = w) w
  | SCreate path mode => succeeds (λ fd w', ∃ ino,
      path ∉ k_created w ∧ unused ino w ∧ k_fds w !! fd = None ∧
      w' = mkDisk (<[path := ino]> (k_entries w)) (<[ino := mkFileStat ino true mode 0]> (k_inodes w))
             (<[fd := mkOpenFile pid (TFile ino) None]> (k_fds w)) ({[path]} ∪ k_created w)
             (<[ino := pid]> (k_owner w)) (k_unlinks w)) w
  | SOpen path => succeeds (λ fd w', ∃ ino,
      k_entries w !! path = Some ino ∧ open_new pid (TFile ino) fd w w') w
  | SOpenDir directory => succeeds (λ fd w', open_new pid (TDir directory) fd w w') w
  | SReceive => succeeds (λ fd w', ∃ ino,
      is_Some (k_inodes w !! ino) ∧ open_new pid (TFile ino) fd w w') w
  | SFlock fd exclusive _ => succeeds (λ _ w', ∃ f,
      k_fds w !! fd = Some f ∧ of_pid f = pid ∧ compatible fd f exclusive w ∧
      w' = set_k_fds (<[fd := mkOpenFile pid (of_target f) (Some exclusive)]> (k_fds w)) w) w
  | SFstat fd => succeeds (λ st w', w' = w ∧ ∃ f ino,
      k_fds w !! fd = Some f ∧ of_target f = TFile ino ∧ k_inodes w !! ino = Some st) w
  | SStat path => λ r w', w' = w ∧
      match r with
      | Ret st => ∃ ino, k_entries w !! path = Some ino ∧ k_inodes w !! ino = Some st
      | Raise e => ∃ errno, e = OSError errno ∧ (errno = ENOENT → k_entries w !! path = None)
      end
  | SClose fd => λ r w', (r = Ret tt ∨ ∃ errno, r = Raise (OSError errno)) ∧
      w' = match k_fds w !! fd with
           | Some f => if decide (of_pid f = pid) then set_k_fds (delete fd (k_fds w)) w else w
           | None => w
           end
  | SUnlink path => succeeds (λ _ w', ∃ ino, k_entries w !! path = Some ino ∧
      w' = mkDisk (delete path (k_entries w)) (k_inodes w) (k_fds w) (k_created w) (k_owner w)
             (k_unlinks w ++ [(pid, path,
                negb (bool_decide (k_owner w !! ino = Some pid)) && locked_by_other pid ino w)])) w
  | SFchmod fd mode => succeeds (λ _ w', ∃ f ino st,
      k_fds w !! fd = Some f ∧ of_target f = TFile ino ∧ k_inodes w !! ino = Some st ∧
      w' = set_k_inodes (<[ino := mkFileStat (fs_identity st) (fs_regular st) mode (fs_size st)]> (k_inodes w)) w) w
  | SFtruncate fd size => succeeds (λ _ w', ∃ f ino st,
      k_fds w !! fd = Some f ∧ of_target f = TFile ino ∧ k_inodes w !! ino = Some st ∧
      w' = set_k_inodes (<[ino := mkFileStat (fs_identity st) (fs_regular st) (fs_mode st) size]> (k_inodes w)) w) w
  | SPwrite _ size _ => succeeds (λ count w', w' = w ∧ (0 <= count <= size)%Z) w
  end.
(** The end of a process closes its files. *)
Definition process_dies (pid : nat) (w : Disk) : Disk :=
  set_k_fds (filter (λ x, of_pid x.2 ≠ pid) (k_fds w)) w.

(** ** Names and directories *)

(** [_hugetlbfs_mounts]: the mounts of huge pages, largest pages first, in their order in the
    file for equal ones; [SMounts] are the fields of the lines of [/proc/self/mounts]. *)
Notation FProg := (Prog FileCall).
Fixpoint insert_mount (m : string * Z) (ms : list (string * Z)) : list (string * Z) :=
  match ms with
  | [] => [m]
  | m' :: ms' => if (m'.2 <? m.2)%Z then m :: ms else m' :: insert_mount m ms'
  end.
Fixpoint read_mounts (lines : list (list string)) (mounts : list (string * Z)) : FProg (list (string * Z)) :=
  match lines with
  | [] => mret mounts
  | (_ :: mount :: kind :: _) :: lines =>
      if decide (kind = "hugetlbfs") then
        m ← catch (page ← call (SBlockSize mount); mret [(mount, page)])
              (λ e, match e with OSError _ => mret [] | _ => fail e end);
        read_mounts lines (mounts ++ m)
      else read_mounts lines mounts
  | _ :: lines => read_mounts lines mounts
  end.
Definition hugetlbfs_mounts : FProg (list (string * Z)) :=
  lines ← catch (call SMounts) (λ e, match e with OSError _ => mret [] | _ => fail e end);
  mounts ← read_mounts lines [];
  mret (foldl (λ ms m, insert_mount m ms) [] mounts).
Definition SUBDIR : string := "kvcr".
Definition subdirectory (mount : string) : string := mount +:+ "/" +:+ SUBDIR.
(** [create_pool] *)
Fixpoint create_huge {A} (mounts : list (string * Z)) (size : Z) (create : string → Z → FProg A) (otherwise : FProg A)
    : FProg A :=
  match mounts with
  | [] => otherwise
  | (mount, page) :: mounts =>
      r ← catch (call (SMkdir (subdirectory mount) 448) ;;
                 a ← create (subdirectory mount) (round_up size page); mret (Some a))
            (λ e, match e with OSError _ => mret None | _ => fail e end);
      match r with
      | Some a => mret a
      | None => create_huge mounts size create otherwise
      end
  end.
Definition create_pool {A} (hugetlb_enabled : bool) (pool_dir : string) (size : Z) (create : string → Z → FProg A) : FProg A :=
  mounts ← (if hugetlb_enabled then hugetlbfs_mounts else mret []);
  create_huge mounts size create (create pool_dir size).
(** [pool_dirs] *)
Fixpoint check_dirs (mounts : list (string * Z)) : FProg (list string) :=
  match mounts with
  | [] => mret []
  | (mount, _) :: mounts =>
      isdir ← call (SIsDir (subdirectory mount));
      link ← (if isdir : bool then call (SIsLink (mount, SUBDIR)) else mret true);
      dirs ← check_dirs mounts;
      mret (if isdir && negb link then subdirectory mount :: dirs else dirs)
  end.
Definition pool_dirs : FProg (list string) := mounts ← hugetlbfs_mounts; check_dirs mounts.

(** ** Locks *)

(** [_CONTENTION_ERRNOS]: [EWOULDBLOCK], [EAGAIN] and [EACCES] of Linux. *)
Definition CONTENTION_ERRNOS : list Z := [11; 11; 13]%Z.
Definition try_lock_pool (fd : Z) (exclusive : bool) : FProg bool :=
  catch (call (SFlock fd exclusive true) ;; mret true)
    (λ e, match e with
          | OSError errno => if decide (errno ∈ CONTENTION_ERRNOS) then mret false else fail e
          | _ => fail e
          end).
(** [_pool_dir_guard], with the block it guards *)
Definition pool_dir_guard {A} (directory : string) (exclusive : bool) (body : FProg A) : FProg A :=
  fd ← call (SOpenDir directory);
  finally (call (SFlock fd exclusive false) ;; body) (call (SClose fd)).
(** [_unlink_if_identity] *)
Definition unlink_if_identity (path : Path) (identity : Identity) : FProg unit :=
  st ← catch (st ← call (SStat path); mret (Some st))
         (λ e, if decide (e = OSError ENOENT) then mret None else fail e);
  match st with
  | None => mret tt
  | Some st => if decide (fs_identity st = identity) then call (SUnlink path) else mret tt
  end.
(** [_reclaim_pool_if_orphaned] *)
Definition reclaim_pool_if_orphaned (path : Path) : FProg bool :=
  opened ← catch (fd ← call (SOpen path); mret (Some fd))
             (λ e, match e with OSError _ => mret None | _ => fail e end);
  match opened with
  | None => mret false
  | Some fd =>
      finally (
        locked ← try_lock_pool fd true;
        if negb locked then mret false else
        st ← call (SFstat fd);
        if negb (fs_regular st) then mret false else
        unlink_if_identity path (fs_identity st) ;; mret true)
      (call (SClose fd))
  end.

(** ** Pages *)

Section Pages.
(** [os.sysconf("SC_PAGESIZE")], and whether the platform has [posix_fallocate]. *)
Context (page : Z) (has_fallocate : bool).
(** [ENOSYS] and [EOPNOTSUPP] *)
Definition UNSUPPORTED_ERRNOS : list Z := [38; 95]%Z.
Definition EIO : Z := 5.
Fixpoint write_pages (fuel : nat) (fd position end_ : Z) : FProg unit :=
  match fuel with
  | 0 => fail (RuntimeError "out of fuel")
  | S fuel =>
      if (position <? end_)%Z then
        count ← call (SPwrite fd (Z.min page (end_ - position)) position);
        if (count =? 0)%Z then fail (OSError EIO) else
        write_pages fuel fd (position + count)%Z end_
      else mret tt
  end.
(** [_populate_pages]: every write takes a byte at least. *)
Definition populate_pages (fd offset length : Z) : FProg unit :=
  reserved ← (if has_fallocate
              then catch (call (SFallocate fd offset length) ;; mret true)
                     (λ e, match e with
                           | OSError errno => if decide (errno ∈ UNSUPPORTED_ERRNOS) then mret false else fail (OSError errno)
                           | _ => fail e
                           end)
              else mret false);
  if reserved : bool then mret tt else
  write_pages (S (Z.to_nat length)) fd offset (offset + length)%Z.

(** ** The owner of a pool's file *)

Definition POOL_MODE : Z := 384.
(** [KVCRPoolSpec] and its [__post_init__] *)
Record KVCRPoolSpec := mkKVCRPoolSpec {
  kp_pool_id : string; kp_path : Path; kp_generation : string; kp_identity : Identity;
  kp_mapping_bytes : Z; kp_journal_bytes : Z }.
Definition is_absolute (directory : string) : bool :=
  match directory with String c _ => bool_decide (c = "/"%char) | "" => false end.
Definition make_pool_spec (pool_id : string) (path : Path) (generation : string) (identity : Identity)
    (mapping_bytes journal_bytes : Z) : result KVCRPoolSpec :=
  guard_raise (negb (is_absolute path.1)) (ValueError "KVCR pool path must be absolute") ;;
  filename ← pool_filename pool_id generation;
  guard_raise (negb (bool_decide (path.2 = filename)))
    (ValueError "KVCR pool path does not match its identity and generation") ;;
  validate_pool_layout mapping_bytes journal_bytes ;;
  mret (mkKVCRPoolSpec pool_id path generation identity mapping_bytes journal_bytes).

Record PoolOwner := mkPoolOwner { po_spec : KVCRPoolSpec; po_file_descriptor : option Z }.

(** The file, created and locked under the guard of its directory. *)
Definition create_locked (pool_id generation : string) (path : Path) (pool_size_bytes journal_bytes : Z)
    : FProg (KVCRPoolSpec * Z) :=
  fd ← call (SCreate path POOL_MODE);
  st ← call (SFstat fd);
  let identity := fs_identity st in
  catch (
    spec ← Done (make_pool_spec pool_id path generation identity pool_size_bytes journal_bytes);
    locked ← try_lock_pool fd false;
    if negb locked then fail (RuntimeError "KVCR pool is already owned") else
    mret (spec, fd))
  (λ e, call (SClose fd) ;; unlink_if_identity path identity ;; fail e).
(** [_KVCRPoolOwner._create] *)
Definition create_owner (pool_id : string) (pool_size_bytes journal_bytes : Z) (directory : string) (backing_bytes : Z)
    : FProg PoolOwner :=
  generation ← call SUuid;
  filename ← Done (pool_filename pool_id generation);
  let path := (directory, filename) in
  created ← pool_dir_guard directory false (create_locked pool_id generation path pool_size_bytes journal_bytes);
  let '(spec, fd) := created in
  catch (
    call (SFchmod fd POOL_MODE) ;;
    call (SFtruncate fd backing_bytes) ;;
    populate_pages fd 0 backing_bytes ;;
    call (SMap fd backing_bytes) ;; call SUnmap)
  (λ e, call (SClose fd) ;; unlink_if_identity path (kp_identity spec) ;; fail e) ;;
  mret (mkPoolOwner spec (Some fd)).
(** [_KVCRPoolOwner.allocate] *)
Definition allocate (hugetlb_enabled : bool) (pool_id : string) (pool_size_bytes journal_bytes : Z) (pool_dir : string)
    : FProg PoolOwner :=
  Done (validate_pool_layout pool_size_bytes journal_bytes) ;;
  create_pool hugetlb_enabled pool_dir pool_size_bytes (create_owner pool_id pool_size_bytes journal_bytes).
(** [_KVCRPoolOwner.close]: what is left of the owner, if nothing is raised. *)
Definition owner_close (owner : PoolOwner) : FProg PoolOwner :=
  match po_file_descriptor owner with
  | Some fd => call (SClose fd)
  | None => mret tt
  end ;;
  unlink_if_identity (kp_path (po_spec owner)) (kp_identity (po_spec owner)) ;;
  mret (mkPoolOwner (po_spec owner) None).

(** ** The attachment of a pool *)

Record Attachment := mkAttachment { at_file_descriptor : option Z; at_mapped : bool; at_spec : KVCRPoolSpec }.
(** [KVCRPoolAttachment.attach_fd]; the mapping is made last, so a failure finds none.  A
    [PermissionError] is an [OSError]. *)
Definition check_attached (spec : KVCRPoolSpec) (st : FileStat) : result unit :=
  guard_raise (negb (fs_regular st)) (ValueError "KVCR pool is not a regular file") ;;
  guard_raise (negb (fs_mode st =? POOL_MODE)%Z) (OSError 1) ;;
  guard_raise (negb (bool_decide (fs_identity st = kp_identity spec)))
    (ValueError "KVCR pool identity does not match the grant") ;;
  guard_raise (fs_size st <? kp_mapping_bytes spec)%Z (ValueError "KVCR pool is smaller than the grant describes").
Definition attach_fd (fd : Z) (spec : KVCRPoolSpec) : FProg Attachment :=
  catch (
    locked ← try_lock_pool fd false;
    if negb locked then fail (RuntimeError "KVCR pool is exclusively locked by another process") else
    st ← call (SFstat fd);
    Done (check_attached spec st) ;;
    call (SMap fd (kp_mapping_bytes spec)) ;;
    mret (mkAttachment (Some fd) true spec))
  (λ e, call (SClose fd) ;; fail e).
(** [KVCRPoolAttachment.attach] *)
Definition attach (spec : KVCRPoolSpec) : FProg Attachment :=
  fd ← call (SOpen (kp_path spec));
  attach_fd fd spec.
(** [KVCRPoolAttachment.close]: a mapping with views left does not unmap, and raises. *)
Definition attachment_close (a : Attachment) : FProg Attachment :=
  (if at_mapped a then call SUnmap else mret tt) ;;
  match at_file_descriptor a with
  | Some fd => call (SClose fd)
  | None => mret tt
  end ;;
  mret (mkAttachment None false (at_spec a)).
End Pages.

(** ** Purges *)

(** [_ORPHANED_POOL_NAME]: [kvcr-], something, [-] and 32 digits *)
Definition hex_char (c : ascii) : bool :=
  let n := nat_of_ascii c in (48 <=? n) && (n <=? 57) || (97 <=? n) && (n <=? 102).
Definition orphaned_pool_name (name : string) : bool :=
  let l := String.list_ascii_of_string name in
  let digits := drop (length l - 32) l in
  let before := take (length l - 32) l in
  bool_decide (7 <= length before) && bool_decide (take 5 before = String.list_ascii_of_string "kvcr-") &&
  bool_decide (last before = Some "-"%char) && bool_decide (length digits = 32) && forallb hex_char digits &&
  forallb (λ c, negb (bool_decide (c = "010"%char))) before.
(** [_purge_orphaned_pools_in] *)
Definition purge_one (directory name : string) : FProg unit :=
  let path := (directory, name) in
  if negb (orphaned_pool_name name) then mret tt else
  link ← call (SIsLink path);
  if link : bool then mret tt else
  catch (call (SStat path) ;; reclaim_pool_if_orphaned path ;; mret tt)
    (λ e, match e with OSError _ => mret tt | _ => fail e end).
Definition purge_orphaned_pools_in (directory : string) : FProg unit :=
  pool_dir_guard directory true (
    names ← call (SGlob directory);
    each names (purge_one directory)).
(** [_purge_orphaned_pools] *)
Definition purge_orphaned_pools (pool_dir : string) : FProg unit :=
  purge_orphaned_pools_in pool_dir ;;
  directories ← pool_dirs;
  each directories (λ directory,
    catch (purge_orphaned_pools_in directory) (λ e, match e with OSError _ => mret tt | _ => fail e end)).

(** ** Processes *)

(** What the processes of a node do with pools, and what they then hold: a daemon that serves
    its pool, one that also ended, a Guard that attaches by name, a worker that attaches what
    it was sent, one that attached and left, and a purge at the start of a daemon. *)
Inductive Agent :=
  | Creator (hugetlb : bool) (pool_id : string) (pool_size_bytes journal_bytes : Z) (pool_dir : string)
  | Ended (hugetlb : bool) (pool_id : string) (pool_size_bytes journal_bytes : Z) (pool_dir : string)
  | GuardOf (spec : KVCRPoolSpec)
  | Worker (spec : KVCRPoolSpec)
  | Visitor (spec : KVCRPoolSpec)
  | Purger (pool_dir : string).
Inductive Held := HOwner (owner : PoolOwner) | HAttachment (a : Attachment) | HEnded (path : Path) | HNothing.

Section Processes.
Context (page : Z) (has_fallocate : bool).
Definition program (a : Agent) : FProg Held :=
  match a with
  | Creator hugetlb pool_id size journal dir =>
      owner ← allocate page has_fallocate hugetlb pool_id size journal dir; mret (HOwner owner)
  | Ended hugetlb pool_id size journal dir =>
      owner ← allocate page has_fallocate hugetlb pool_id size journal dir;
      owner ← owner_close owner; mret (HEnded (kp_path (po_spec owner)))
  | GuardOf spec => a ← attach spec; mret (HAttachment a)
  | Worker spec => fd ← call SReceive; a ← attach_fd fd spec; mret (HAttachment a)
  | Visitor spec => fd ← call SReceive; a ← attach_fd fd spec; attachment_close a ;; mret HNothing
  | Purger dir => purge_orphaned_pools dir ;; mret HNothing
  end.
End Processes.
