(* ===== verification/PoolFilesThm.v ===== *)
(** * Pool files and their locks: nothing in use is unlinked

    The rely-guarantee proof of [PoolFiles]: the locks of open files are compatible, a name is
    created once and its entry is taken away only by the owner of the file or under the
    exclusive guard of its directory and the exclusive lock of the file.  From it: no purge
    unlinks a pool somebody holds, and a pool stays in place from its creation until its owner
    closes it, whatever daemons, workers and purges do meanwhile and wherever they die. *)

From Stdlib Require Import ZArith Lia.
From S2P Require Import Prelude Snapshot Interact Protocol PoolFiles.

Definition lock_rule (w : Disk) : Prop := ∀ fd fd' f f',
  fd ≠ fd' → k_fds w !! fd = Some f → k_fds w !! fd' = Some f' → of_target f = of_target f' →
  of_lock f = Some true → of_lock f' = None.
Record disk_ok (w : Disk) : Prop := mk_disk_ok {
  ok_locks : lock_rule w;
  ok_entries : ∀ path ino, k_entries w !! path = Some ino → path ∈ k_created w;
  ok_identity : ∀ ino st, k_inodes w !! ino = Some st → fs_identity st = ino;
  ok_unlinks : Forall (λ u, u.2 = false) (k_unlinks w) }.

(** What licenses a process to take an entry away. *)
Definition may_unlink (pid : nat) (path : Path) (ino : Identity) (w : Disk) : Prop :=
  k_owner w !! ino = Some pid ∨
  (guards pid path.1 w ∧ ∃ fd, k_fds w !! fd = Some (mkOpenFile pid (TFile ino) (Some true))).
(** What a process promises the others at each of its calls. *)
Record promise (pid : nat) (w w' : Disk) : Prop := mk_promise {
  pr_fds : ∀ fd f, of_pid f ≠ pid → k_fds w !! fd = Some f ↔ k_fds w' !! fd = Some f;
  pr_removed : ∀ path ino, k_entries w !! path = Some ino →
    k_entries w' !! path = Some ino ∨ (k_entries w' !! path = None ∧ may_unlink pid path ino w);
  pr_added : ∀ path ino, k_entries w' !! path = Some ino →
    k_entries w !! path = Some ino ∨ path ∉ k_created w;
  pr_created : k_created w ⊆ k_created w';
  pr_owner : ∀ path ino, k_entries w !! path = Some ino → k_owner w' !! ino = k_owner w !! ino }.

(** A process unlinks only with a licence. *)
Definition allowed (pid : nat) {B} (c : FileCall B) (w : Disk) : Prop :=
  match c with
  | SUnlink path => ∀ ino, k_entries w !! path = Some ino → may_unlink pid path ino w
  | _ => True
  end.

Lemma promise_refl pid w : promise pid w w.
Proof. split; auto; set_solver. Qed.
(** The files of a process change, its own only. *)
Lemma promise_fds pid w fds :
  (∀ fd f, of_pid f ≠ pid → k_fds w !! fd = Some f ↔ fds !! fd = Some f) →
  promise pid w (set_k_fds fds w).
Proof. intros H. split; simpl; auto; set_solver. Qed.

Lemma disk_ok_fds w fds :
  disk_ok w → lock_rule (set_k_fds fds w) → disk_ok (set_k_fds fds w).
Proof. intros [? ? ? ?] ?. by split. Qed.
Lemma lock_rule_new w fd f :
  lock_rule w → of_lock f = None → lock_rule (set_k_fds (<[fd := f]> (k_fds w)) w).
Proof.
  intros Hl Hn fd1 fd2 f1 f2 Hne H1 H2 Ht Hlock. simpl in *.
  apply lookup_insert_Some in H1 as [[<- <-]|[? H1]]; [congruence|].
  apply lookup_insert_Some in H2 as [[<- <-]|[? H2]]; [done|]. eauto.
Qed.
Lemma lock_rule_sub w fds : fds ⊆ k_fds w → lock_rule w → lock_rule (set_k_fds fds w).
Proof.
  intros Hsub Hl fd1 fd2 f1 f2 Hne H1 H2. simpl in *. apply (Hl fd1 fd2 f1 f2 Hne); by eapply lookup_weaken.
Qed.
Lemma locked_by_other_spec pid ino w :
  locked_by_other pid ino w = true →
  ∃ fd f, k_fds w !! fd = Some f ∧ of_pid f ≠ pid ∧ of_target f = TFile ino ∧ is_Some (of_lock f).
Proof.
  unfold locked_by_other. rewrite existsb_exists. intros ([fd f] & Hin & Hb). simpl in Hb.
  apply list_elem_of_In, elem_of_map_to_list in Hin. exists fd, f.
  rewrite !andb_true_iff, negb_true_iff, bool_decide_eq_false, !bool_decide_eq_true in Hb. tauto.
Qed.

Lemma open_keeps pid target fd w w' :
  disk_ok w → open_new pid target fd w w' → disk_ok w' ∧ promise pid w w'.
Proof.
  intros Hok [Hfd ->]. split; [apply disk_ok_fds; [done|]; by apply lock_rule_new; [apply Hok|]|].
  apply promise_fds. intros fd' f Hne. rewrite lookup_insert_Some. naive_solver.
Qed.
Lemma create_keeps pid path ino mode fd w :
  disk_ok w → path ∉ k_created w → unused ino w → k_fds w !! fd = None →
  let w' := mkDisk (<[path := ino]> (k_entries w)) (<[ino := mkFileStat ino true mode 0]> (k_inodes w))
    (<[fd := mkOpenFile pid (TFile ino) None]> (k_fds w)) ({[path]} ∪ k_created w)
    (<[ino := pid]> (k_owner w)) (k_unlinks w) in
  disk_ok w' ∧ promise pid w w'.
Proof.
  intros Hok Hpath [Hu1 Hu2] Hfd w'. split; split; simpl.
  - by apply lock_rule_new; [apply Hok|].
  - intros path' ino'. rewrite lookup_insert_Some. intros [[<- _]|[_ He]]; [set_solver|].
    apply (ok_entries _ Hok) in He. set_solver.
  - intros ino' st. rewrite lookup_insert_Some. intros [[<- <-]|[_ He]]; [done|]. by apply Hok.
  - apply Hok.
  - intros fd' f Hne. rewrite lookup_insert_Some. naive_solver.
  - intros path' ino' He. left. rewrite lookup_insert_ne; [done|]. intros <-.
    by apply (ok_entries _ Hok) in He.
  - intros path' ino'. rewrite lookup_insert_Some. naive_solver.
  - set_solver.
  - intros path' ino' He. rewrite lookup_insert_ne; [done|]. intros <-. by apply (Hu1 path').
Qed.
Lemma flock_keeps pid fd f exclusive w :
  disk_ok w → k_fds w !! fd = Some f → of_pid f = pid → compatible fd f exclusive w →
  let w' := set_k_fds (<[fd := mkOpenFile pid (of_target f) (Some exclusive)]> (k_fds w)) w in
  disk_ok w' ∧ promise pid w w'.
Proof.
  intros Hok Hfd Hpid Hc w'. split.
  - apply disk_ok_fds; [done|]. intros fd1 fd2 f1 f2 Hne H1 H2 Ht Hlock. simpl in *.
    apply lookup_insert_Some in H1 as [[<- <-]|[Hn1 H1]]; apply lookup_insert_Some in H2 as [[<- <-]|[Hn2 H2]];
      simpl in *; try done.
    + simplify_eq. destruct (Hc fd2 f2) as [?|[? ?]]; [done..|congruence].
    + destruct (Hc fd1 f1) as [?|[? ?]]; try done; congruence.
    + by eapply (ok_locks _ Hok fd1 fd2).
  - apply promise_fds. intros fd' f' Hne. rewrite lookup_insert_Some. split; [|naive_solver].
    intros H. right. split; [|done]. intros <-. congruence.
Qed.
Lemma unlink_keeps pid path ino w :
  disk_ok w → k_entries w !! path = Some ino → may_unlink pid path ino w →
  let w' := mkDisk (delete path (k_entries w)) (k_inodes w) (k_fds w) (k_created w) (k_owner w)
    (k_unlinks w ++ [(pid, path, negb (bool_decide (k_owner w !! ino = Some pid)) && locked_by_other pid ino w)]) in
  disk_ok w' ∧ promise pid w w'.
Proof.
  intros Hok He Hmay w'. split; split; simpl; try apply Hok.
  - intros path' ino'. rewrite lookup_delete_Some. intros [_ ?]. by eapply ok_entries.
  - apply Forall_app. split; [apply Hok|]. constructor; [|done]. simpl.
    destruct (bool_decide_reflect (k_owner w !! ino = Some pid)) as [|Hno]; [done|]. simpl.
    apply not_true_iff_false. intros (fd' & f' & Hf' & Hne & Ht & [b Hb])%locked_by_other_spec.
    destruct Hmay as [?|[_ [fd Hfd]]]; [done|].
    assert (fd ≠ fd') by (intros <-; simplify_eq).
    assert (of_lock f' = None) by (by eapply (ok_locks _ Hok fd fd')). congruence.
  - done.
  - intros path' ino' He'. destruct (decide (path' = path)) as [->|Hne].
    + simplify_eq. right. by rewrite lookup_delete_eq.
    + left. by rewrite lookup_delete_ne.
  - intros path' ino'. rewrite lookup_delete_Some. naive_solver.
  - done.
  - done.
Qed.
Lemma close_keeps pid fd w :
  disk_ok w →
  let w' := match k_fds w !! fd with
            | Some f => if decide (of_pid f = pid) then set_k_fds (delete fd (k_fds w)) w else w
            | None => w
            end in
  disk_ok w' ∧ promise pid w w'.
Proof.
  intros Hok. simpl. destruct (k_fds w !! fd) as [f|] eqn:Hfd; [|by split; [|apply promise_refl]].
  case_decide as Hpid; [|by split; [|apply promise_refl]]. split.
  - apply disk_ok_fds; [done|]. by apply lock_rule_sub; [apply delete_subseteq|apply Hok].
  - apply promise_fds. intros fd' f' Hne. rewrite lookup_delete_Some. split; [|naive_solver].
    intros H. split; [|done]. intros <-. congruence.
Qed.
Lemma inode_keeps pid ino st mode size w :
  disk_ok w → k_inodes w !! ino = Some st →
  let w' := set_k_inodes (<[ino := mkFileStat (fs_identity st) (fs_regular st) mode size]> (k_inodes w)) w in
  disk_ok w' ∧ promise pid w w'.
Proof.
  intros Hok Hi. split; [|split; simpl; auto; set_solver]. destruct Hok as [? ? Hid ?]. split; simpl; auto.
  intros ino' st'. rewrite lookup_insert_Some. intros [[<- <-]|[_ H]]; [exact (Hid _ _ Hi)|exact (Hid _ _ H)].
Qed.

(** Every call a process is allowed keeps the invariant and the promise, and so does the
    death of a process. *)
Lemma call_keeps pid B (c : FileCall B) w r w' :
  disk_ok w → allowed pid c w → file_sem pid B c w r w' → disk_ok w' ∧ promise pid w w'.
Proof.
  intros Hok Hal Hc. assert (disk_ok w ∧ promise pid w w) as Hsame by (split; [done|apply promise_refl]).
  destruct c; simpl in Hc;
    try (destruct Hc as [(b & _ & Hc)|(errno & _ & ->)]; [|exact Hsame]);
    try (by subst w'); try (by destruct Hc as [-> _]).
  - destruct Hc as (ino & ? & ? & ? & ->). by apply create_keeps.
  - destruct Hc as (ino & _ & Hc). by eapply open_keeps.
  - by eapply open_keeps.
  - destruct Hc as (ino & _ & Hc). by eapply open_keeps.
  - destruct Hc as (f & ? & ? & ? & ->). by apply flock_keeps.
  - destruct Hc as [_ ->]. by apply close_keeps.
  - destruct Hc as (ino & He & ->). apply unlink_keeps; [done..|]. by apply Hal.
  - destruct Hc as (f & ino & st & _ & _ & ? & ->). by apply inode_keeps.
  - destruct Hc as (f & ino & st & _ & _ & ? & ->). by apply inode_keeps.
Qed.
Lemma death_keeps pid w : disk_ok w → disk_ok (process_dies pid w) ∧ promise pid w (process_dies pid w).
Proof.
  intros Hok. split; [apply disk_ok_fds; [done|]; by apply lock_rule_sub; [apply map_filter_subseteq|apply Hok]|].
  apply promise_fds. intros fd f Hne. rewrite map_lookup_filter_Some. naive_solver.
Qed.

(** ** Assertions of one process *)

(** What is said of the world besides the own files: the entries, the names used, the owners. *)
Notation Facts := (gmap Path Identity → gset Path → gmap Identity nat → Prop).
Definition nothing : Facts := λ _ _ _, True.
(** The name can only be of this file. *)
Definition tied (path : Path) (ino : Identity) : Facts := λ e c _, path ∈ c ∧ ∀ i, e !! path = Some i → i = ino.
(** It is gone for good. *)
Definition gone (path : Path) : Facts := λ e c _, path ∈ c ∧ e !! path = None.

Definition lost (path : Path) (w : Disk) : Prop := gone path (k_entries w) (k_created w) (k_owner w).

Section Process.
Context (pid : nat).
Notation prog_triple := (ptriple file_sem disk_ok promise pid).

Definition mine (w : Disk) : gmap Z OpenFile := filter (λ x, of_pid x.2 = pid) (k_fds w).
(** The name can only be of this file, which is ours. *)
Definition ours (path : Path) (ino : Identity) : Facts := λ e c o,
  path ∈ c ∧ ∀ i, e !! path = Some i → i = ino ∧ o !! i = Some pid.
Definition present (path : Path) (ino : Identity) : Facts := λ e c o,
  path ∈ c ∧ e !! path = Some ino ∧ o !! ino = Some pid.
(** Our open files are [m], and [R] holds. *)
Definition At (m : gmap Z OpenFile) (R : Facts) (w : Disk) : Prop :=
  mine w = m ∧ R (k_entries w) (k_created w) (k_owner w).
Definition keeps (m : gmap Z OpenFile) (R : Facts) : Prop := stable disk_ok promise pid (At m R).

Lemma mine_lookup w fd f : mine w !! fd = Some f ↔ k_fds w !! fd = Some f ∧ of_pid f = pid.
Proof. unfold mine. by rewrite map_lookup_filter_Some. Qed.
Lemma mine_other w w' : other disk_ok promise pid w w' → mine w' = mine w.
Proof.
  intros (_ & _ & pid' & Hne & Hp). apply map_eq. intros fd. apply option_eq. intros f.
  rewrite !mine_lookup. split; intros [Hf Hpid]; (split; [|done]);
    apply (pr_fds _ _ _ Hp); done || congruence.
Qed.
Lemma keeps_facts m R :
  (∀ w w' pid', disk_ok w → pid' ≠ pid → promise pid' w w' → mine w = m →
     R (k_entries w) (k_created w) (k_owner w) → R (k_entries w') (k_created w') (k_owner w')) →
  keeps m R.
Proof.
  intros HR w w' Ho [Hm Hw]. split; [by rewrite (mine_other _ _ Ho)|].
  destruct Ho as (Hok & _ & pid' & Hne & Hp). eauto.
Qed.
Lemma keeps_nothing m : keeps m nothing.
Proof. by apply keeps_facts. Qed.
Lemma keeps_tied m path ino : keeps m (tied path ino).
Proof.
  apply keeps_facts. intros w w' pid' Hok Hne Hp _ [Hc Ht]. split; [by apply (pr_created _ _ _ Hp)|].
  intros i Hi. destruct (pr_added _ _ _ Hp _ _ Hi) as [?|?]; [by apply Ht|done].
Qed.
Lemma keeps_ours m path ino : keeps m (ours path ino).
Proof.
  apply keeps_facts. intros w w' pid' Hok Hne Hp _ [Hc Ht]. split; [by apply (pr_created _ _ _ Hp)|].
  intros i Hi. destruct (pr_added _ _ _ Hp _ _ Hi) as [He|?]; [|done].
  rewrite (pr_owner _ _ _ Hp _ _ He). by apply Ht.
Qed.
Lemma keeps_gone m path : keeps m (gone path).
Proof.
  apply keeps_facts. intros w w' pid' Hok Hne Hp _ [Hc Ht]. split; [by apply (pr_created _ _ _ Hp)|].
  apply eq_None_not_Some. intros [i Hi]. destruct (pr_added _ _ _ Hp _ _ Hi) as [?|?]; [congruence|done].
Qed.
(** Our file stays while we hold a lock on it, or share the guard of its directory. *)
Definition protects (m : gmap Z OpenFile) (path : Path) (ino : Identity) : Prop :=
  (∃ fd b, m !! fd = Some (mkOpenFile pid (TFile ino) (Some b))) ∨
  (∃ fd b, m !! fd = Some (mkOpenFile pid (TDir path.1) (Some b))).
Lemma keeps_present m path ino : protects m path ino → keeps m (present path ino).
Proof.
  intros Hm. apply keeps_facts. intros w w' pid' Hok Hne Hp Hmine (Hc & He & Ho).
  split; [by apply (pr_created _ _ _ Hp)|]. split; [|by rewrite (pr_owner _ _ _ Hp _ _ He)].
  destruct (pr_removed _ _ _ Hp _ _ He) as [?|[_ [?|[[fdg Hg] [fdl Hl]]]]]; [done|congruence|]. exfalso.
  assert (∀ fd fd' t b, m !! fd = Some (mkOpenFile pid t (Some b)) →
    k_fds w !! fd' = Some (mkOpenFile pid' t (Some true)) → False) as Hno.
  { intros fd fd' t b Hfd Hfd'. subst m. apply mine_lookup in Hfd as [Hfd _].
    assert (fd' ≠ fd) by (intros ->; congruence).
    by pose proof (ok_locks _ Hok fd' fd _ _ ltac:(done) Hfd' Hfd eq_refl eq_refl). }
  destruct Hm as [(fd & b & Hfd)|(fd & b & Hfd)]; eauto.
Qed.

(** ** Calls *)

Definition os (e : exn) : Prop := ∃ errno, e = OSError errno.
(** Calls that touch neither the own files nor the entries. *)
Definition quiet {B} (c : FileCall B) : Prop :=
  match c with
  | SCreate _ _ | SOpen _ | SOpenDir _ | SReceive | SFlock _ _ _ | SClose _ | SUnlink _ => False
  | _ => True
  end.
Lemma quiet_same B (c : FileCall B) w r w' : quiet c → file_sem pid B c w r w' →
  k_fds w' = k_fds w ∧ k_entries w' = k_entries w ∧ k_created w' = k_created w ∧ k_owner w' = k_owner w ∧
  ∀ e, r = Raise e → os e.
Proof.
  intros Hq Hc. destruct c; simpl in Hq; try done; simpl in Hc.
  all: try (destruct Hc as [(b & -> & Hc)|(errno & -> & ->)]; [|by (split_and!; try done; intros e [= <-]; eexists)]).
  all: repeat match goal with
       | H : _ ∧ _ |- _ => destruct H
       | H : ∃ _, _ |- _ => destruct H
       end; subst; try (by split_and!).
  destruct r as [st|e]; [by split_and!|].
  match goal with H : ∃ _, _ |- _ => destruct H as (errno & -> & _) end.
  split_and!; [done..|]. intros e [= <-]. by eexists.
Qed.
Definition failed (m : gmap Z OpenFile) (R : Facts) : exn → Disk → Prop := λ e w, os e ∧ At m R w.
Lemma stable_failed m R e : keeps m R → stable disk_ok promise pid (failed m R e).
Proof. intros H. by apply stable_and; [apply stable_pure|]. Qed.

Lemma t_quiet {B} (c : FileCall B) m R : quiet c → keeps m R →
  prog_triple (At m R) (call c) (λ _, At m R) (failed m R).
Proof.
  intros Hq HR. apply ptriple_call; [done|done|intros; by apply stable_failed|].
  intros w r w' Hok [Hm Hw] Hc.
  destruct (call_keeps pid _ c w r w' Hok) as [? ?]; [by destruct c|done|].
  destruct (quiet_same _ _ _ _ _ Hq Hc) as (Ef & Ee & Ec & Eo & Her). split_and!; [done..|].
  assert (At m R w') as Hat by (split; [by unfold mine; rewrite Ef|by rewrite Ee, Ec, Eo]).
  destruct r as [a|e]; [done|]. split; [by apply Her|done].
Qed.

Lemma mine_insert w fd f : of_pid f = pid → mine (set_k_fds (<[fd := f]> (k_fds w)) w) = <[fd := f]> (mine w).
Proof. intros Hf. unfold mine. simpl. by apply map_filter_insert_True. Qed.
Lemma mine_delete w fd : mine (set_k_fds (delete fd (k_fds w)) w) = delete fd (mine w).
Proof. unfold mine. simpl. apply map_filter_delete. Qed.
Lemma mine_none w fd : k_fds w !! fd = None → mine w !! fd = None.
Proof. intros H. apply eq_None_not_Some. intros [f Hf]. apply mine_lookup in Hf as [? _]. congruence. Qed.

(** A new open file. *)
Definition opened (m : gmap Z OpenFile) (target : Target) (R : Facts) (fd : Z) (w : Disk) : Prop :=
  m !! fd = None ∧ At (<[fd := mkOpenFile pid target None]> m) R w.
Lemma at_opened m R R' target fd w w' :
  At m R w → open_new pid target fd w w' →
  (R (k_entries w) (k_created w) (k_owner w) → R' (k_entries w) (k_created w) (k_owner w)) → opened m target R' fd w'.
Proof.
  intros [<- Hw] [Hfd ->] HR. split; [by apply mine_none|]. split; [by rewrite mine_insert|]. by apply HR.
Qed.
Lemma stable_opened m target R fd :
  (m !! fd = None → keeps (<[fd := mkOpenFile pid target None]> m) R) →
  stable disk_ok promise pid (opened m target R fd).
Proof. intros H. apply stable_given, H. Qed.

Lemma t_open_dir directory m R :
  keeps m R → (∀ fd, keeps (<[fd := mkOpenFile pid (TDir directory) None]> m) R) →
  prog_triple (At m R) (call (SOpenDir directory)) (opened m (TDir directory) R) (failed m R).
Proof.
  intros HR HR'. apply ptriple_call; [done|intros; by apply stable_opened|intros; by apply stable_failed|].
  intros w r w' Hok Hat Hc.
  destruct (call_keeps pid _ (SOpenDir directory) w r w' Hok) as [? ?]; [done..|]. split_and!; [done..|].
  destruct Hc as [(fd & -> & Hc)|(errno & -> & ->)]; [by eapply at_opened|by split; [eexists|]].
Qed.
Lemma t_open path m :
  prog_triple (At m nothing) (call (SOpen path))
    (λ fd w, ∃ ino, opened m (TFile ino) (tied path ino) fd w) (failed m nothing).
Proof.
  apply ptriple_call; [apply keeps_nothing| |intros; apply stable_failed, keeps_nothing|].
  { intros fd. apply stable_exists. intros ino. apply stable_opened. intros; apply keeps_tied. }
  intros w r w' Hok Hat Hc.
  destruct (call_keeps pid _ (SOpen path) w r w' Hok) as [? ?]; [done..|]. split_and!; [done..|].
  destruct Hc as [(fd & -> & ino & He & Hc)|(errno & -> & ->)]; [|by split; [eexists|]].
  exists ino. eapply at_opened; [done..|]. intros _. split; [by eapply ok_entries|]. intros i Hi. congruence.
Qed.
Lemma t_receive m :
  prog_triple (At m nothing) (call SReceive) (λ fd w, ∃ ino, opened m (TFile ino) nothing fd w) (failed m nothing).
Proof.
  apply ptriple_call; [apply keeps_nothing| |intros; apply stable_failed, keeps_nothing|].
  { intros fd. apply stable_exists. intros ino. apply stable_opened. intros; apply keeps_nothing. }
  intros w r w' Hok Hat Hc.
  destruct (call_keeps pid _ SReceive w r w' Hok) as [? ?]; [done..|]. split_and!; [done..|].
  destruct Hc as [(fd & -> & ino & _ & Hc)|(errno & -> & ->)]; [|by split; [eexists|]].
  exists ino. by eapply at_opened.
Qed.
Lemma t_create path mode m :
  (∀ fd ino, m !! fd = None → protects (<[fd := mkOpenFile pid (TFile ino) None]> m) path ino) →
  prog_triple (At m nothing) (call (SCreate path mode))
    (λ fd w, ∃ ino, opened m (TFile ino) (present path ino) fd w) (failed m nothing).
Proof.
  intros Hpr. apply ptriple_call; [apply keeps_nothing| |intros; apply stable_failed, keeps_nothing|].
  { intros fd. apply stable_exists. intros ino. apply stable_opened. intros. by apply keeps_present, Hpr. }
  intros w r w' Hok Hat Hc.
  destruct (call_keeps pid _ (SCreate path mode) w r w' Hok) as [? ?]; [done..|]. split_and!; [done..|].
  destruct Hc as [(fd & -> & ino & Hp & Hu & Hfd & ->)|(errno & -> & ->)]; [|by split; [eexists|]].
  destruct Hat as [<- _]. exists ino. split; [by apply mine_none|].
  split; [by apply (mine_insert w)|]. unfold present. simpl. rewrite !lookup_insert_eq. set_solver.
Qed.
Lemma t_flock fd target l exclusive nonblocking m R :
  m !! fd = Some (mkOpenFile pid target l) → keeps m R →
  keeps (<[fd := mkOpenFile pid target (Some exclusive)]> m) R →
  prog_triple (At m R) (call (SFlock fd exclusive nonblocking))
    (λ _, At (<[fd := mkOpenFile pid target (Some exclusive)]> m) R) (failed m R).
Proof.
  intros Hfd HR HR'. apply ptriple_call; [done..|intros; by apply stable_failed|].
  intros w r w' Hok Hat Hc.
  destruct (call_keeps pid _ (SFlock fd exclusive nonblocking) w r w' Hok) as [? ?]; [done..|]. split_and!; [done..|].
  destruct Hc as [(b & -> & f & Hf & Hpid & _ & ->)|(errno & -> & ->)]; [|by split; [eexists|]].
  destruct Hat as [<- Hw]. apply mine_lookup in Hfd as [Hfd _]. simplify_eq.
  split; [by apply mine_insert|done].
Qed.
Lemma t_close fd f m R :
  m !! fd = Some f → keeps m R → keeps (delete fd m) R →
  prog_triple (At m R) (call (SClose fd)) (λ _, At (delete fd m) R) (failed (delete fd m) R).
Proof.
  intros Hfd HR HR'. apply ptriple_call; [done..|intros; by apply stable_failed|].
  intros w r w' Hok Hat Hc.
  destruct (call_keeps pid _ (SClose fd) w r w' Hok) as [? ?]; [done..|]. split_and!; [done..|].
  destruct Hc as [Hr ->]. destruct Hat as [<- Hw]. apply mine_lookup in Hfd as [-> Hpid].
  rewrite decide_True by done.
  assert (At (delete fd (mine w)) R (set_k_fds (delete fd (k_fds w)) w)) by (split; [apply mine_delete|done]).
  destruct Hr as [->|(errno & ->)]; [done|]. split; [by eexists|done].
Qed.
Lemma t_fstat fd target ino l m R :
  m !! fd = Some (mkOpenFile pid target l) → target = TFile ino → keeps m R →
  prog_triple (At m R) (call (SFstat fd)) (λ st w, fs_identity st = ino ∧ At m R w) (failed m R).
Proof.
  intros Hfd -> HR.
  apply ptriple_call; [done|intros; apply stable_and; [apply stable_pure|done]|intros; by apply stable_failed|].
  intros w r w' Hok Hat Hc.
  destruct (call_keeps pid _ (SFstat fd) w r w' Hok) as [? ?]; [done..|]. split_and!; [done..|].
  destruct Hc as [(st & -> & -> & f & ino' & Hf & Ht & Hi)|(errno & -> & ->)]; [|by split; [eexists|]].
  split; [|done]. destruct Hat as [<- _]. apply mine_lookup in Hfd as [Hfd _]. simplify_eq/=.
  by apply (ok_identity _ Hok).
Qed.

(** ** Unlinking *)

(** [R] licenses the removal. *)
Definition licensed (m : gmap Z OpenFile) (R : Facts) (path : Path) (ino : Identity) : Prop :=
  ∀ e c o, R e c o → path ∈ c ∧ ∀ i, e !! path = Some i → i = ino ∧
    (o !! i = Some pid ∨
     ((∃ fd, m !! fd = Some (mkOpenFile pid (TDir path.1) (Some true))) ∧
      ∃ fd, m !! fd = Some (mkOpenFile pid (TFile ino) (Some true)))).
Lemma licensed_tied m R path ino w : licensed m R path ino → At m R w →
  path ∈ k_created w ∧ ∀ i, k_entries w !! path = Some i → i = ino ∧ may_unlink pid path ino w.
Proof.
  intros Hlic [Hm HR]. destruct (Hlic _ _ _ HR) as [Hc Hi]. split; [done|]. intros i He.
  destruct (Hi i He) as [-> Hmay]. split; [done|]. destruct Hmay as [?|[[fdg Hg] [fd Hf]]]; [by left|].
  subst m. apply mine_lookup in Hg as [? _]. apply mine_lookup in Hf as [? _]. right. split; by eexists.
Qed.
Definition ended (m : gmap Z OpenFile) : exn → Disk → Prop := λ e w, os e ∧ mine w = m.
Lemma stable_mine m : stable disk_ok promise pid (λ w, mine w = m).
Proof. intros w w' Ho Hm. by rewrite (mine_other _ _ Ho). Qed.
Lemma stable_ended m e : stable disk_ok promise pid (ended m e).
Proof. apply stable_and; [apply stable_pure|apply stable_mine]. Qed.
Lemma failed_ended m R e w : failed m R e w → ended m e w.
Proof. by intros [? [? _]]. Qed.

Lemma t_stat path ino m R : keeps m R → licensed m R path ino →
  prog_triple (At m R) (call (SStat path)) (λ st w, fs_identity st = ino ∧ At m R w)
    (λ e w, ended m e w ∧ (e = OSError ENOENT → At m (gone path) w)).
Proof.
  intros HR Hlic. apply ptriple_call; [done|intros; apply stable_and; [apply stable_pure|done]| |].
  { intros e w w' Ho [He Hg]. split; [by eapply stable_ended|]. intros Heq. eapply keeps_gone; eauto. }
  intros w r w' Hok Hat Hc.
  destruct (call_keeps pid _ (SStat path) w r w' Hok) as [? ?]; [done..|]. split_and!; [done..|].
  destruct Hc as [-> Hc]. destruct (licensed_tied _ _ _ _ _ Hlic Hat) as [Hp Hi]. destruct r as [st|e].
  - destruct Hc as (i & He & Hst). split; [|done]. rewrite (ok_identity _ Hok _ _ Hst). by apply Hi.
  - destruct Hc as (errno & -> & Hno). destruct Hat as [Hm _]. split; [split; [by eexists|done]|].
    intros [= ->]. split; [done|]. split; [done|]. by apply Hno.
Qed.
Lemma t_unlink path ino m R : keeps m R → licensed m R path ino →
  prog_triple (At m R) (call (SUnlink path)) (λ _, At m (gone path)) (ended m).
Proof.
  intros HR Hlic. apply ptriple_call; [done|intros; apply keeps_gone|intros; apply stable_ended|].
  intros w r w' Hok Hat Hc. destruct (licensed_tied _ _ _ _ _ Hlic Hat) as [Hp Hi].
  destruct (call_keeps pid _ (SUnlink path) w r w' Hok) as [? ?]; [|done|].
  { intros i He. destruct (Hi i He) as [-> ?]. done. }
  split_and!; [done..|]. destruct Hat as [Hm _].
  destruct Hc as [(b & -> & i & He & ->)|(errno & -> & ->)]; [|by split; [eexists|]].
  split; [done|]. split; [done|]. simpl. by rewrite lookup_delete_eq.
Qed.
(** A licensed removal: after it the file has no name. *)
Lemma unlink_if_identity_spec path ino m R : keeps m R → licensed m R path ino →
  prog_triple (At m R) (unlink_if_identity path ino) (λ _, At m (gone path)) (ended m).
Proof.
  intros HR Hlic. unfold unlink_if_identity.
  apply (ptriple_bind _ _ _ _ _ _ _ (λ st w, match st with
    | None => At m (gone path) w
    | Some st => fs_identity st = ino ∧ At m R w
    end)).
  - eapply ptriple_catch.
    + eapply ptriple_bind; [by apply t_stat|]. intros st. simpl.
      apply ptriple_ret; [apply stable_and; [apply stable_pure|done]|done].
    + intros e. simpl. case_decide as He.
      * apply ptriple_ret; [|by intros w [_ ?]; auto].
        apply stable_and; [apply stable_ended|]. intros w w' Ho Hg Heq. eapply keeps_gone; eauto.
      * apply ptriple_fail; [|by intros w [? _]].
        apply stable_and; [apply stable_ended|]. intros w w' Ho Hg Heq. eapply keeps_gone; eauto.
  - intros [st|]; simpl; [|by apply ptriple_ret; [apply keeps_gone|]].
    case_decide as Heq.
    + eapply ptriple_mono; [by eapply t_unlink|by intros w [_ ?]|done|done].
    + intros w [? _]. done.
Qed.

(** ** Locks and purges *)

Definition locked (m : gmap Z OpenFile) (fd : Z) (target : Target) (b : bool) : gmap Z OpenFile :=
  <[fd := mkOpenFile pid target (Some b)]> m.
Lemma try_lock_spec fd target exclusive m R :
  m !! fd = Some (mkOpenFile pid target None) → keeps m R → keeps (locked m fd target exclusive) R →
  prog_triple (At m R) (try_lock_pool fd exclusive)
    (λ b, At (if b : bool then locked m fd target exclusive else m) R) (failed m R).
Proof.
  intros Hfd HR HR'. unfold try_lock_pool. eapply ptriple_catch.
  - eapply ptriple_bind; [by eapply t_flock|]. intros []. by apply ptriple_ret.
  - intros e. destruct e as [| | | | | | | | | | | | | | |errno|];
      try (apply ptriple_fail; [by apply stable_failed|done]).
    case_decide; [apply ptriple_ret; [by apply stable_failed|by intros w [_ ?]]|].
    apply ptriple_fail; [by apply stable_failed|done].
Qed.
(** Only [OSError]s: a handler for them catches everything. *)
Lemma catch_os {A} P (p : Prog FileCall A) h Q m R : keeps m R →
  prog_triple P p Q (failed m R) →
  (∀ errno, prog_triple (At m R) (h errno) Q (failed m R)) →
  prog_triple P (catch p (λ e, match e with OSError errno => h errno | _ => fail e end)) Q (failed m R).
Proof.
  intros HR Hp Hh. eapply ptriple_catch; [done|]. intros e.
  destruct e as [| | | | | | | | | | | | | | |errno|];
    try (apply ptriple_fail; [by apply stable_failed|done]).
  eapply ptriple_mono; [apply Hh|by intros w [_ ?]|done|done].
Qed.

(** One more open file than [m], in whatever state, and its end. *)
Definition extra (m : gmap Z OpenFile) (fd : Z) (R : Facts) (w : Disk) : Prop :=
  ∃ f, At (<[fd := f]> m) R w.
Definition solid (R : Facts) : Prop := ∀ m, keeps m R.
Lemma stable_extra m fd R : solid R → stable disk_ok promise pid (extra m fd R).
Proof. intros HR. apply stable_exists. intros f. apply HR. Qed.
Lemma solid_nothing : solid nothing.
Proof. intros m. apply keeps_nothing. Qed.
Lemma solid_tied path ino : solid (tied path ino).
Proof. intros m. apply keeps_tied. Qed.
Lemma solid_ours path ino : solid (ours path ino).
Proof. intros m. apply keeps_ours. Qed.
Lemma solid_gone path : solid (gone path).
Proof. intros m. apply keeps_gone. Qed.
Lemma close_new fd m R : m !! fd = None → (∀ f, keeps (<[fd := f]> m) R) → keeps m R →
  prog_triple (extra m fd R) (call (SClose fd)) (λ _, At m R) (failed m R).
Proof.
  intros Hfd HR HR' w [f Hw]. revert w Hw.
  pose proof (t_close fd f (<[fd:=f]> m) R (lookup_insert_eq _ _ _) (HR _)) as Hc.
  rewrite (delete_insert_id m fd f Hfd) in Hc. by apply Hc.
Qed.
Lemma at_nothing m R w : At m R w → At m nothing w.
Proof. by intros [? _]. Qed.

(** A purge that says it reclaimed a file took its name away; no descriptor is left. *)
Definition reclaimed (path : Path) (b : bool) : Facts := if b then gone path else nothing.
Lemma solid_reclaimed path b : solid (reclaimed path b).
Proof. destruct b; [apply solid_gone|apply solid_nothing]. Qed.
Lemma reclaim_body path fd fdg ino m :
  m !! fdg = Some (mkOpenFile pid (TDir path.1) (Some true)) → m !! fd = None →
  prog_triple (At (<[fd:=mkOpenFile pid (TFile ino) None]> m) (tied path ino))
    (locked ← try_lock_pool fd true;
     if negb locked then mret false else
     st ← call (SFstat fd);
     if negb (fs_regular st) then mret false else
     unlink_if_identity path (fs_identity st) ;; mret true)
    (λ b, extra m fd (reclaimed path b)) (λ e w, os e ∧ extra m fd nothing w).
Proof.
  intros Hg Hfd. assert (fdg ≠ fd) as Hne by (intros ->; congruence).
  set (m0 := <[fd:=mkOpenFile pid (TFile ino) None]> m).
  assert (∀ f R w, At (<[fd:=f]> m) R w → extra m fd nothing w) as Hex.
  { intros f R w Hw. exists f. by eapply at_nothing. }
  set (ml := locked m0 fd (TFile ino) true).
  assert (ml = <[fd:=mkOpenFile pid (TFile ino) (Some true)]> m) as Hml by apply insert_insert_eq.
  assert (∀ R, solid R → ∀ e, stable disk_ok promise pid (λ w, os e ∧ extra m fd R w)) as Hse.
  { intros R HR e. by apply stable_and; [apply stable_pure|apply stable_extra]. }
  eapply ptriple_bind.
  { eapply ptriple_mono; [eapply (try_lock_spec fd (TFile ino) true m0 (tied path ino))|done| |].
    - by apply lookup_insert_eq.
    - apply keeps_tied.
    - apply keeps_tied.
    - intros b w Hw. exact Hw.
    - intros e w [? ?]. eauto. }
  intros [|]; cbn beta iota delta [negb].
  2:{ apply ptriple_ret; [apply keeps_tied|]. intros w. apply Hex. }
  fold ml. eapply ptriple_bind.
  { eapply ptriple_mono; [eapply (t_fstat fd (TFile ino) ino _ ml (tied path ino))|done| |].
    - by apply lookup_insert_eq.
    - done.
    - apply keeps_tied.
    - intros st w Hw. exact Hw.
    - intros e w [? Hw]. rewrite Hml in Hw. eauto. }
  intros st w [Hst Hw]. subst ino. revert w Hw. destruct (negb (fs_regular st)).
  { apply ptriple_ret; [apply keeps_tied|]. intros w Hw. rewrite Hml in Hw. by eapply Hex. }
  eapply (ptriple_bind _ _ _ _ _ _ _ (λ _, At ml (gone path))).
  - eapply ptriple_mono; [eapply (unlink_if_identity_spec path (fs_identity st) ml (tied path (fs_identity st)))|done|done|].
    + apply keeps_tied.
    + intros en c o [Hc Ht]. split; [done|]. intros i Hi. split; [by apply Ht|]. right.
      split; [exists fdg|exists fd; by apply lookup_insert_eq].
      unfold ml, locked, m0. by rewrite !lookup_insert_ne.
    + intros e w [? Hm]. rewrite Hml in Hm. split; [done|]. eexists. by split.
  - intros _. apply ptriple_ret; [apply keeps_gone|]. intros w Hw. rewrite Hml in Hw. by eexists.
Qed.
Lemma reclaim_spec path m fdg :
  m !! fdg = Some (mkOpenFile pid (TDir path.1) (Some true)) →
  prog_triple (At m nothing) (reclaim_pool_if_orphaned path)
    (λ b, At m (reclaimed path b)) (failed m nothing).
Proof.
  intros Hg. unfold reclaim_pool_if_orphaned.
  apply (ptriple_bind _ _ _ _ _ _ _ (λ o w, match o with
    | None => At m nothing w
    | Some fd => ∃ ino, opened m (TFile ino) (tied path ino) fd w
    end)).
  { eapply catch_os; [apply keeps_nothing| |].
    - eapply ptriple_bind; [apply t_open|]. intros fd. apply ptriple_ret; [|done].
      apply stable_exists. intros ino. apply stable_opened. intros; apply keeps_tied.
    - intros errno. by apply ptriple_ret; [apply keeps_nothing|]. }
  intros [fd|]; [|by apply ptriple_ret; [apply keeps_nothing|]].
  intros w (ino & Hfd & Hw). revert w Hw. eapply ptriple_finally.
  - by eapply reclaim_body.
  - intros b. simpl. eapply ptriple_mono; [by apply (close_new fd m (reclaimed path b)); intros; try apply solid_reclaimed|done|done|].
    intros e w [? ?]. split; [done|]. by eapply at_nothing.
  - intros e w [? Hw]. revert w Hw. eapply ptriple_mono; [by apply (close_new fd m nothing); intros; try apply solid_nothing|done|done|].
    intros e' w' [He' Hw']. done.
Qed.

Lemma extra_nothing m fd f R w : At (<[fd := f]> m) R w → extra m fd nothing w.
Proof. intros Hw. exists f. by eapply at_nothing. Qed.
Lemma purge_one_spec directory name m fdg :
  m !! fdg = Some (mkOpenFile pid (TDir directory) (Some true)) →
  prog_triple (At m nothing) (purge_one directory name) (λ _, At m nothing) (failed m nothing).
Proof.
  intros Hg. pose proof (keeps_nothing m) as Hk. unfold purge_one.
  destruct (negb (orphaned_pool_name name)); [by apply ptriple_ret|].
  eapply ptriple_bind; [by apply t_quiet|]. intros [|]; [by apply ptriple_ret|].
  apply catch_os; [done| |intros; by apply ptriple_ret].
  eapply ptriple_bind; [by apply t_quiet|]. intros st.
  eapply ptriple_bind; [by apply (reclaim_spec (directory, name) m fdg)|]. intros b.
  apply ptriple_ret; [apply solid_reclaimed|]. intros w. apply at_nothing.
Qed.
(** A purge leaves no descriptor open, whether it ends or raises. *)
Lemma purge_in_spec directory m :
  prog_triple (At m nothing) (purge_orphaned_pools_in directory) (λ _, At m nothing) (failed m nothing).
Proof.
  unfold purge_orphaned_pools_in, pool_dir_guard.
  eapply ptriple_bind; [by apply t_open_dir; intros; apply keeps_nothing|]. intros fd w [Hfd Hw]. revert w Hw.
  apply (ptriple_finally _ _ _ _ _ _ _ _ (λ _, extra m fd nothing) _ (λ e w, os e ∧ extra m fd nothing w)).
  - set (mg := <[fd:=mkOpenFile pid (TDir directory) (Some true)]> m).
    eapply (ptriple_bind _ _ _ _ _ _ _ (λ _, At mg nothing)).
    { eapply ptriple_mono; [eapply (t_flock fd (TDir directory) None true)|done| |].
      - apply lookup_insert_eq.
      - apply keeps_nothing.
      - apply keeps_nothing.
      - intros [] w. by rewrite insert_insert_eq.
      - intros e w [? Hw]. split; [done|]. by eexists. }
    intros _. eapply ptriple_mono with (P' := At mg nothing) (Q' := λ _, At mg nothing) (E' := failed mg nothing); [|done| |].
    + eapply ptriple_bind; [apply t_quiet; [done|apply keeps_nothing]|]. intros names.
      apply ptriple_each; [apply keeps_nothing|]. intros name _. apply (purge_one_spec _ _ _ fd), lookup_insert_eq.
    + intros [] w Hw. by eexists.
    + intros e w [? Hw]. split; [done|]. by eexists.
  - intros []. apply close_new; [done|intros; apply keeps_nothing..].
  - intros e w [? Hw]. revert w Hw.
    eapply ptriple_mono; [by apply (close_new fd m nothing); intros; try apply keeps_nothing|done|done|by intros].
Qed.

Lemma read_mounts_spec lines mounts m :
  prog_triple (At m nothing) (read_mounts lines mounts) (λ _, At m nothing) (failed m nothing).
Proof.
  pose proof (keeps_nothing m) as Hk. revert mounts. induction lines as [|l lines IH]; intros mounts; cbn [read_mounts].
  { by apply ptriple_ret. }
  do 3 (destruct l as [|? l]; [apply IH|]). case_decide; [|apply IH].
  eapply ptriple_bind; [|intros ?; apply IH].
  apply catch_os; [done| |intros; by apply ptriple_ret].
  eapply ptriple_bind; [by apply t_quiet|]. intros page. by apply ptriple_ret.
Qed.
Lemma hugetlbfs_mounts_spec m :
  prog_triple (At m nothing) hugetlbfs_mounts (λ _, At m nothing) (failed m nothing).
Proof.
  pose proof (keeps_nothing m) as Hk. unfold hugetlbfs_mounts.
  eapply ptriple_bind; [apply catch_os; [done|by apply t_quiet|intros; by apply ptriple_ret]|]. intros lines.
  eapply ptriple_bind; [apply read_mounts_spec|]. intros mounts. by apply ptriple_ret.
Qed.
Lemma pool_dirs_spec m : prog_triple (At m nothing) pool_dirs (λ _, At m nothing) (failed m nothing).
Proof.
  pose proof (keeps_nothing m) as Hk. unfold pool_dirs. eapply ptriple_bind; [apply hugetlbfs_mounts_spec|].
  intros mounts. induction mounts as [|[mount page] mounts IH]; cbn [check_dirs]; [by apply ptriple_ret|].
  eapply ptriple_bind; [by apply t_quiet|]. intros isdir.
  eapply (ptriple_bind _ _ _ _ _ _ _ (λ _, At m nothing)).
  { destruct isdir; [by apply t_quiet|by apply ptriple_ret]. }
  intros link. eapply ptriple_bind; [apply IH|]. intros dirs. by apply ptriple_ret.
Qed.
Lemma purge_spec pool_dir m :
  prog_triple (At m nothing) (purge_orphaned_pools pool_dir) (λ _, At m nothing) (failed m nothing).
Proof.
  pose proof (keeps_nothing m) as Hk. unfold purge_orphaned_pools.
  eapply ptriple_bind; [apply purge_in_spec|]. intros [].
  eapply ptriple_bind; [apply pool_dirs_spec|]. intros dirs. apply ptriple_each; [done|]. intros dir _.
  apply catch_os; [done|apply purge_in_spec|intros; by apply ptriple_ret].
Qed.

(** ** Attachments *)

Lemma check_attached_identity spec st : check_attached spec st = Ret tt → fs_identity st = kp_identity spec.
Proof.
  unfold check_attached. destruct (fs_regular st); [|done]. simpl. destruct (_ =? _)%Z; [|done]. simpl.
  destruct (bool_decide_reflect (fs_identity st = kp_identity spec)); done.
Qed.
Definition attached (m : gmap Z OpenFile) (fd : Z) (spec : KVCRPoolSpec) (R : Facts) (a : Attachment) (w : Disk) : Prop :=
  a = mkAttachment (Some fd) true spec ∧ At (locked m fd (TFile (kp_identity spec)) false) R w.
(** An attachment holds a shared lock of the very file of its grant; a failure leaves no
    descriptor behind. *)
Lemma attach_fd_spec fd ino spec m R :
  m !! fd = None → (∀ f, keeps (<[fd := f]> m) R) → keeps m R →
  prog_triple (At (<[fd := mkOpenFile pid (TFile ino) None]> m) R) (attach_fd fd spec)
    (attached m fd spec R) (λ _, At m R).
Proof.
  intros Hfd HR HR'. set (m0 := <[fd := mkOpenFile pid (TFile ino) None]> m).
  set (ml := locked m0 fd (TFile ino) false).
  assert (ml = <[fd:=mkOpenFile pid (TFile ino) (Some false)]> m) as Hml by apply insert_insert_eq.
  assert (keeps ml R) as Hkl by (rewrite Hml; apply HR).
  assert (∀ e w, failed ml R e w → extra m fd R w) as Hex.
  { intros e w [_ Hw]. rewrite Hml in Hw. by eexists. }
  unfold attach_fd. apply (ptriple_catch _ _ _ _ _ _ _ _ _ (λ _, extra m fd R)).
  - eapply ptriple_bind.
    { eapply ptriple_mono; [eapply (try_lock_spec fd (TFile ino) false m0 R)|done| |].
      - apply lookup_insert_eq.
      - apply HR.
      - apply Hkl.
      - intros b w Hw. exact Hw.
      - intros e w [_ Hw]. by eexists. }
    intros [|]; cbn beta iota delta [negb]; fold ml.
    2:{ apply ptriple_fail; [apply HR|]. intros w Hw. by eexists. }
    eapply ptriple_bind.
    { eapply ptriple_mono; [eapply (t_fstat fd (TFile ino) ino _ ml R)|done| |apply Hex];
        [apply lookup_insert_eq|done..]. }
    intros st w [Hst Hw]. revert w Hw. eapply ptriple_bind.
    { eapply ptriple_mono; [by apply (ptriple_done _ _ _ _ (At ml R))|done| |].
      - intros a w Hw. exact Hw.
      - intros e w [_ Hw]. rewrite Hml in Hw. by eexists. }
    intros [] w [Hchk Hw]. revert w Hw.
    eapply ptriple_bind; [eapply ptriple_mono; [by apply (t_quiet _ ml R)|done|done|apply Hex]|]. intros [].
    apply ptriple_ret; [done|]. intros w Hw. split; [done|].
    apply check_attached_identity in Hchk. rewrite <- Hchk, Hst. by rewrite Hml in Hw.
  - intros e. eapply ptriple_bind.
    { eapply ptriple_mono; [by apply (close_new fd m R)|done|done|by intros ? w [_ ?]]. }
    intros []. by apply ptriple_fail.
Qed.
Lemma attachment_close_spec fd spec m f :
  m !! fd = None →
  prog_triple (At (<[fd := f]> m) nothing) (attachment_close (mkAttachment (Some fd) true spec))
    (λ _, At m nothing) (λ _ w, True).
Proof.
  intros Hfd. unfold attachment_close. cbn [at_file_descriptor at_mapped at_spec].
  eapply ptriple_bind; [eapply ptriple_mono; [by apply (t_quiet _ (<[fd:=f]> m) nothing); [|apply keeps_nothing]|done..]|].
  intros []. eapply ptriple_bind.
  { eapply ptriple_mono; [by apply (close_new fd m nothing); intros; try apply keeps_nothing| |done|done].
    intros w Hw. by eexists. }
  intros []. apply ptriple_ret; [apply keeps_nothing|done].
Qed.

(** ** Pages *)

Section Reserve.
Context (page : Z) (Hpage : (0 < page)%Z) (has_fallocate : bool).

(** The writes stay within their range, and the fuel is enough. *)
Lemma t_pwrite fd size position m R : keeps m R →
  prog_triple (At m R) (call (SPwrite fd size position)) (λ count w, (0 <= count <= size)%Z ∧ At m R w) (failed m R).
Proof.
  intros HR. apply ptriple_call; [done|intros; apply stable_and; [apply stable_pure|done]|intros; by apply stable_failed|].
  intros w r w' Hok Hat Hc.
  destruct (call_keeps pid _ (SPwrite fd size position) w r w' Hok) as [? ?]; [done..|]. split_and!; [done..|].
  destruct Hc as [(c & -> & -> & Hc)|(errno & -> & ->)]; [done|by split; [eexists|]].
Qed.
Lemma write_pages_spec fuel fd position end_ m R : keeps m R → 0 < fuel → (end_ - position < Z.of_nat fuel)%Z →
  prog_triple (At m R) (write_pages page fuel fd position end_) (λ _, At m R) (failed m R).
Proof.
  intros HR. revert position. induction fuel as [|fuel IH]; intros position Hpos Hfuel; cbn [write_pages]; [lia|].
  destruct (Z.ltb_spec position end_); [|by apply ptriple_ret].
  eapply ptriple_bind; [by apply t_pwrite|]. intros count w [Hc Hw]. revert w Hw.
  destruct (Z.eqb_spec count 0) as [->|Hne].
  - apply ptriple_fail; [done|]. intros w Hw. split; [by eexists|done].
  - apply IH; lia.
Qed.
Lemma populate_pages_spec fd offset length m R : keeps m R →
  prog_triple (At m R) (populate_pages page has_fallocate fd offset length) (λ _, At m R) (failed m R).
Proof.
  intros HR. unfold populate_pages. eapply (ptriple_bind _ _ _ _ _ _ _ (λ _, At m R)).
  { destruct has_fallocate; [|by apply ptriple_ret]. apply catch_os; [done| |].
    - eapply ptriple_bind; [by apply t_quiet|]. intros []. by apply ptriple_ret.
    - intros errno. case_decide; [by apply ptriple_ret|]. apply ptriple_fail; [done|].
      intros w Hw. split; [by eexists|done]. }
  intros [|]; [by apply ptriple_ret|]. apply write_pages_spec; [done|lia..].
Qed.

(** ** Owners *)

(** The pool's file, under its name, with the lock its creation took. *)
Definition owns (owner : PoolOwner) (w : Disk) : Prop := ∃ fd,
  po_file_descriptor owner = Some fd ∧
  k_fds w !! fd = Some (mkOpenFile pid (TFile (kp_identity (po_spec owner))) (Some false)) ∧
  present (kp_path (po_spec owner)) (kp_identity (po_spec owner)) (k_entries w) (k_created w) (k_owner w).
Lemma at_mine w : At (mine w) nothing w.
Proof. done. Qed.
Lemma stable_owns owner : stable disk_ok promise pid (owns owner).
Proof.
  intros w w' Ho (fd & Hpo & Hfd & Hp).
  assert (mine w !! fd = Some (mkOpenFile pid (TFile (kp_identity (po_spec owner))) (Some false))) as Hm
    by (by apply mine_lookup).
  destruct (keeps_present (mine w) (kp_path (po_spec owner)) (kp_identity (po_spec owner))) with (w := w) (w' := w')
    as [Hm' Hp']; [left; by exists fd, false|done|done|].
  exists fd. split; [done|]. split; [|done]. rewrite <- Hm' in Hm. by apply mine_lookup in Hm as [? _].
Qed.
Lemma make_pool_spec_fields pool_id path generation identity mapping journal spec :
  make_pool_spec pool_id path generation identity mapping journal = Ret spec →
  kp_path spec = path ∧ kp_identity spec = identity.
Proof.
  unfold make_pool_spec. destruct (negb (is_absolute _)); [done|]. simpl.
  destruct (pool_filename _ _) as [n|]; [|done]. simpl. destruct (negb _); [done|]. simpl.
  destruct (validate_pool_layout _ _) as [[]|]; [|done]. simpl. by intros [= <-].
Qed.
(** The clean-up of a creation that failed. *)
Lemma abandon_spec {A} fd path ino m e (Q : A → Disk → Prop) : m !! fd = None →
  prog_triple (extra m fd (ours path ino))
    (call (SClose fd) ;; unlink_if_identity path ino ;; fail e) Q (λ _ _, True).
Proof.
  intros Hfd. eapply ptriple_bind.
  { eapply ptriple_mono; [apply (close_new fd m (ours path ino) Hfd); intros; apply keeps_ours|done..]. }
  intros []. eapply ptriple_bind.
  { eapply ptriple_mono; [eapply (unlink_if_identity_spec path ino m (ours path ino))|done|done|done].
    - apply keeps_ours.
    - intros en c o [Hc Ho]. split; [done|]. intros i Hi. destruct (Ho i Hi) as [-> ?]. split; [done|by left]. }
  intros []. apply ptriple_fail; [apply keeps_gone|done].
Qed.
Lemma present_ours path ino en c o : present path ino en c o → ours path ino en c o.
Proof. intros (? & He & Ho). split; [done|]. intros i Hi. simplify_eq. done. Qed.
Lemma extra_ours m fd f path ino w : At (<[fd := f]> m) (present path ino) w → extra m fd (ours path ino) w.
Proof. intros [? Hp]. exists f. split; [done|]. by apply present_ours. Qed.

(** What the guarded part leaves: the file locked, beside the guard. *)
Definition created_under (m : gmap Z OpenFile) (g : Z) (path : Path) (a : KVCRPoolSpec * Z) (w : Disk) : Prop :=
  kp_path a.1 = path ∧ m !! a.2 = None ∧ a.2 ≠ g ∧
  extra (<[a.2 := mkOpenFile pid (TFile (kp_identity a.1)) (Some false)]> m) g (present path (kp_identity a.1)) w.
Lemma create_locked_spec pool_id generation path size journal m g :
  m !! g = None →
  prog_triple (At (<[g := mkOpenFile pid (TDir path.1) (Some false)]> m) nothing)
    (create_locked pool_id generation path size journal)
    (λ a w, created_under m g path a w) (λ _ _, True).
Proof.
  intros Hg. set (mg := <[g := mkOpenFile pid (TDir path.1) (Some false)]> m). unfold create_locked.
  assert (∀ m' fd, mg !! fd = None → m' !! g = mg !! g → ∀ ino, keeps m' (present path ino)) as Hkeep.
  { intros m' fd Hfd Hm' ino. apply keeps_present. right. exists g, false. rewrite Hm'. apply lookup_insert_eq. }
  eapply ptriple_bind.
  { eapply ptriple_mono; [apply (t_create path _ mg)|done|done|done].
    intros fd ino Hfd. right. exists g, false. rewrite lookup_insert_ne; [apply lookup_insert_eq|].
    intros ->. unfold mg in Hfd. by rewrite lookup_insert_eq in Hfd. }
  intros fd w (ino & Hfd & Hw). revert w Hw.
  assert (fd ≠ g) as Hne by (intros ->; unfold mg in Hfd; by rewrite lookup_insert_eq in Hfd).
  assert (m !! fd = None) as Hfdm by (unfold mg in Hfd; by rewrite lookup_insert_ne in Hfd).
  assert (∀ f, keeps (<[fd := f]> mg) (present path ino)) as Hk.
  { intros f. eapply Hkeep; [done|]. by rewrite lookup_insert_ne. }
  eapply ptriple_bind.
  { eapply ptriple_mono; [eapply (t_fstat fd (TFile ino) ino None _ (present path ino))|done| |done];
      [apply lookup_insert_eq|done|apply Hk|done]. }
  intros st w [Hst Hw]. revert w Hw. cbv zeta. rewrite Hst.
  eapply ptriple_catch; [|intros e; by apply (abandon_spec fd path ino mg e)].
  eapply ptriple_bind.
  { eapply ptriple_mono; [apply (ptriple_done _ _ _ _ (At (<[fd:=mkOpenFile pid (TFile ino) None]> mg) (present path ino))), Hk|done| |].
    - intros spec w Hw. exact Hw.
    - intros e w [_ Hw]. by eapply extra_ours. }
  intros spec w [Hspec Hw]. revert w Hw. apply make_pool_spec_fields in Hspec as [Hpath Hid].
  eapply ptriple_bind.
  { eapply ptriple_mono; [eapply (try_lock_spec fd (TFile ino) false _ (present path ino))|done| |].
    - apply lookup_insert_eq.
    - apply Hk.
    - unfold locked. rewrite insert_insert_eq. apply Hk.
    - intros b w Hw. exact Hw.
    - intros e w [_ Hw]. by eapply extra_ours. }
  intros [|]; cbn beta iota delta [negb].
  2:{ apply ptriple_fail; [apply Hk|]. intros w. apply extra_ours. }
  unfold locked. rewrite insert_insert_eq. apply ptriple_ret; [apply Hk|]. intros w Hw.
  split_and!; simpl; [done..|]. exists (mkOpenFile pid (TDir path.1) (Some false)). rewrite Hid.
  by rewrite insert_insert_ne.
Qed.
Lemma t_any {B} (c : FileCall B) : (∀ w, allowed pid c w) →
  prog_triple (λ _, True) (call c) (λ _ _, True) (λ _ _, True).
Proof.
  intros Hal. apply ptriple_call; [apply stable_pure|intros; apply stable_pure..|].
  intros w r w' Hok _ Hc. destruct (call_keeps pid _ c w r w' Hok (Hal w) Hc). by destruct r.
Qed.
Definition created (m : gmap Z OpenFile) (path : Path) (a : KVCRPoolSpec * Z) (w : Disk) : Prop :=
  kp_path a.1 = path ∧ m !! a.2 = None ∧
  At (<[a.2 := mkOpenFile pid (TFile (kp_identity a.1)) (Some false)]> m) (present path (kp_identity a.1)) w.
Lemma guarded_creation pool_id generation path size journal m :
  prog_triple (At m nothing)
    (pool_dir_guard path.1 false (create_locked pool_id generation path size journal))
    (created m path) (λ _ _, True).
Proof.
  unfold pool_dir_guard. eapply ptriple_bind.
  { eapply ptriple_mono; [by apply t_open_dir; intros; apply keeps_nothing|done..]. }
  intros g w [Hg Hw]. revert w Hw.
  apply (ptriple_finally _ _ _ _ _ _ _ _ (created_under m g path) _ (λ _ _, True)).
  - eapply ptriple_bind.
    { eapply ptriple_mono; [eapply (t_flock g (TDir path.1) None false)|done|done|done];
        [apply lookup_insert_eq|apply keeps_nothing..]. }
    intros []. rewrite insert_insert_eq. by apply create_locked_spec.
  - intros [spec fd] w (Hpath & Hfd & Hne & Hw). cbn [fst snd] in *. revert w Hw.
    set (m1 := <[fd:=mkOpenFile pid (TFile (kp_identity spec)) (Some false)]> m).
    assert (∀ m', m' !! fd = m1 !! fd → keeps m' (present path (kp_identity spec))) as Hk.
    { intros m' Hm'. apply keeps_present. left. exists fd, false. rewrite Hm'. apply lookup_insert_eq. }
    eapply ptriple_mono; [apply (close_new g m1)|done| |done].
    + unfold m1. by rewrite lookup_insert_ne.
    + intros f. apply Hk. by rewrite lookup_insert_ne.
    + by apply Hk.
    + by intros [] w Hw.
  - intros e. by apply t_any.
Qed.
(** A pool that was created is in place, under its lock. *)
Lemma create_owner_spec pool_id size journal directory backing :
  prog_triple (λ _, True) (create_owner page has_fallocate pool_id size journal directory backing)
    owns (λ _ _, True).
Proof.
  intros w _. generalize (at_mine w). generalize (mine w). intros m. revert w.
  pose proof (keeps_nothing m) as Hkm. unfold create_owner.
  eapply ptriple_bind; [eapply ptriple_mono; [by apply (t_quiet _ m nothing)|done..]|]. intros generation.
  eapply ptriple_bind.
  { eapply ptriple_mono; [by apply (ptriple_done _ _ _ _ (At m nothing))|done| |done]. intros n w [_ Hw]. exact Hw. }
  intros filename. eapply ptriple_bind; [apply (guarded_creation _ _ (directory, filename))|].
  intros [spec fd] w (Hpath & Hfd & Hw). cbn [fst snd] in *. revert w Hw.
  set (m1 := <[fd:=mkOpenFile pid (TFile (kp_identity spec)) (Some false)]> m). cbv zeta.
  set (R := present (directory, filename) (kp_identity spec)).
  assert (keeps m1 R) as Hk.
  { apply keeps_present. left. exists fd, false. apply lookup_insert_eq. }
  eapply (ptriple_bind _ _ _ _ _ _ _ (λ _, At m1 R)).
  { eapply (ptriple_catch _ _ _ _ _ _ _ _ _ (failed m1 R)).
    - do 3 (eapply ptriple_bind; [by (apply t_quiet || apply populate_pages_spec)|intros []]).
      eapply ptriple_bind; [by apply t_quiet|intros []]. by apply t_quiet.
    - intros e. eapply ptriple_mono; [apply (abandon_spec fd (directory, filename) (kp_identity spec) m e)|
        |intros a w Hw; exact Hw|done]; [done|]. intros w [_ Hw]. by eapply extra_ours. }
  intros []. apply ptriple_ret; [done|]. intros w [Hm Hp]. exists fd. simpl. split_and!; [done| |by rewrite Hpath].
  apply mine_lookup. rewrite Hm. apply lookup_insert_eq.
Qed.
Lemma allocate_spec hugetlb pool_id size journal pool_dir :
  prog_triple (λ _, True) (allocate page has_fallocate hugetlb pool_id size journal pool_dir) owns (λ _ _, True).
Proof.
  unfold allocate. eapply ptriple_bind.
  { eapply ptriple_mono; [apply (ptriple_done _ _ _ _ (λ _, True)), stable_pure|done|done|done]. }
  intros []. unfold create_pool.
  eapply (ptriple_bind _ _ _ _ _ _ _ (λ _ _, True)).
  { destruct hugetlb; [|apply ptriple_ret; [apply stable_pure|done]]. intros w _. generalize (at_mine w). generalize (mine w).
    intros m. revert w. eapply ptriple_mono; [apply (hugetlbfs_mounts_spec m)|done..]. }
  intros mounts. induction mounts as [|[mount pg] mounts IH]; cbn [create_huge].
  { eapply ptriple_mono; [apply create_owner_spec|done..]. }
  eapply (ptriple_bind _ _ _ _ _ _ _ (λ o w, match o with Some ow => owns ow w | None => True end)).
  - eapply (ptriple_catch _ _ _ _ _ _ _ _ _ (λ _ _, True)).
    + eapply ptriple_bind; [by apply t_any|]. intros []. eapply ptriple_bind.
      { eapply ptriple_mono; [apply create_owner_spec|done..]. }
      intros ow. apply ptriple_ret; [apply stable_owns|done].
    + intros e. destruct e as [| | | | | | | | | | | | | | |errno|];
        (apply ptriple_fail || apply ptriple_ret); (apply stable_pure || done).
  - intros [ow|]; [|apply IH]. apply ptriple_ret; [apply stable_owns|done].
Qed.
(** Closing an owner takes the name of its pool away, and only that name. *)
Lemma owner_close_spec owner :
  prog_triple (λ w, owns owner w) (owner_close owner)
    (λ o w, po_spec o = po_spec owner ∧ lost (kp_path (po_spec owner)) w) (λ _ _, True).
Proof.
  intros w (fd & Hpo & Hfd & Hp). unfold owner_close. rewrite Hpo.
  set (path := kp_path (po_spec owner)) in *. set (ino := kp_identity (po_spec owner)) in *.
  assert (mine w !! fd = Some (mkOpenFile pid (TFile ino) (Some false))) as Hm by (by apply mine_lookup).
  assert (At (mine w) (ours path ino) w) as Hw by (split; [done|by apply present_ours]).
  revert Hm Hw. generalize (mine w). clear Hp Hfd. intros m0 Hm Hw. revert w Hw.
  eapply ptriple_bind.
  { eapply ptriple_mono; [by eapply (t_close fd _ m0 (ours path ino)); [|apply keeps_ours..]|done..]. }
  intros []. eapply ptriple_bind.
  { eapply ptriple_mono; [eapply (unlink_if_identity_spec path ino _ (ours path ino))|done|intros a w Hw; exact Hw|done].
    - apply keeps_ours.
    - intros en c o [Hc Ho]. split; [done|]. intros i Hi. destruct (Ho i Hi) as [-> ?]. split; [done|by left]. }
  intros []. apply ptriple_ret; [apply keeps_gone|by intros w [_ ?]].
Qed.

(** ** Processes together *)

Definition holds (h : Held) (w : Disk) : Prop :=
  match h with
  | HOwner owner => owns owner w
  | HAttachment a => ∃ fd, at_file_descriptor a = Some fd ∧
      k_fds w !! fd = Some (mkOpenFile pid (TFile (kp_identity (at_spec a))) (Some false))
  | HEnded path => lost path w
  | HNothing => True
  end.
Lemma stable_lost path : stable disk_ok promise pid (lost path).
Proof. intros w w' Ho Hl. by destruct (keeps_gone (mine w) path w w' Ho) as [_ ?]. Qed.
Lemma stable_holds h : stable disk_ok promise pid (holds h).
Proof.
  destruct h as [owner|a|path|]; simpl; [apply stable_owns| |apply stable_lost|apply stable_pure].
  intros w w' Ho (fd & Ha & Hfd). exists fd. split; [done|].
  assert (mine w !! fd = Some (mkOpenFile pid (TFile (kp_identity (at_spec a))) (Some false))) as Hm
    by (by apply mine_lookup).
  rewrite <- (mine_other _ _ Ho) in Hm. by apply mine_lookup in Hm as [? _].
Qed.
Lemma attached_holds m fd spec R a w : attached m fd spec R a w → holds (HAttachment a) w.
Proof.
  intros [-> [Hm _]]. exists fd. split; [done|]. simpl. apply (mine_lookup w). rewrite Hm. apply lookup_insert_eq.
Qed.
(** Whatever it is given, a process keeps its promises, and holds what it ends with. *)
Lemma program_spec a :
  prog_triple (λ _, True) (program page has_fallocate a) holds (λ _ _, True).
Proof.
  assert (∀ (A : Type) (p : Prog FileCall A) Q E, (∀ m, prog_triple (At m nothing) p Q E) → prog_triple (λ _, True) p Q E)
    as Hany by (intros A p Q E Hp w _; apply (Hp (mine w) w (at_mine w))).
  destruct a as [hugetlb pool_id size journal dir|hugetlb pool_id size journal dir|spec|spec|spec|dir]; unfold program.
  - eapply ptriple_bind; [apply allocate_spec|]. intros owner.
    apply ptriple_ret; [apply (stable_holds (HOwner owner))|done].
  - eapply ptriple_bind; [apply allocate_spec|]. intros owner.
    eapply ptriple_bind; [apply owner_close_spec|]. intros owner' w [Heq Hw]. revert w Hw. rewrite Heq.
    apply ptriple_ret; [apply stable_lost|done].
  - apply Hany. intros m. unfold attach. eapply (ptriple_bind _ _ _ _ _ _ _ (λ a, holds (HAttachment a))).
    + eapply ptriple_bind; [eapply ptriple_mono; [apply t_open|done..]|]. intros fd w (ino & Hfd & Hw). revert w Hw.
      eapply ptriple_mono; [by eapply (attach_fd_spec fd ino spec m); intros; try apply keeps_tied|done|
        intros a w; apply attached_holds|done].
    + intros a. apply ptriple_ret; [apply (stable_holds (HAttachment a))|done].
  - apply Hany. intros m. eapply ptriple_bind; [eapply ptriple_mono; [apply t_receive|done..]|].
    intros fd w (ino & Hfd & Hw). revert w Hw. eapply (ptriple_bind _ _ _ _ _ _ _ (λ a, holds (HAttachment a))).
    + eapply ptriple_mono; [by eapply (attach_fd_spec fd ino spec m); intros; try apply keeps_nothing|done|
        intros a w; apply attached_holds|done].
    + intros a. apply ptriple_ret; [apply (stable_holds (HAttachment a))|done].
  - apply Hany. intros m. eapply ptriple_bind; [eapply ptriple_mono; [apply t_receive|done..]|].
    intros fd w (ino & Hfd & Hw). revert w Hw. eapply ptriple_bind.
    { eapply ptriple_mono; [by eapply (attach_fd_spec fd ino spec m); intros; try apply keeps_nothing|done| |done].
      intros a w Hw. exact Hw. }
    intros a w [-> Hw]. revert w Hw. eapply ptriple_bind; [by apply attachment_close_spec|].
    intros a. apply ptriple_ret; [apply keeps_nothing|done].
  - apply Hany. intros m. eapply ptriple_bind; [eapply ptriple_mono; [apply purge_spec|done..]|].
    intros []. apply ptriple_ret; [apply keeps_nothing|done].
Qed.
End Reserve.
End Process.

Section Node.
Context (page : Z) (Hpage : (0 < page)%Z) (has_fallocate : bool).

(** C4: Daemons, Guards, workers and purges of one node share the pool files, every call of the
    operating system a step of its own and every process dying anywhere: no process unlinks a
    file of another one while anybody else holds a lock on it, an exclusive lock stands alone,
    a daemon that serves finds its pool's file under its name with the lock it took, whatever
    purges ran, an attached worker holds a shared lock of the very file of its grant, and the
    name of a closed pool never comes back. *)
Theorem pool_files_safe (agents : gmap nat Agent) w ps w' :
  disk_ok w →
  rtc (pstep file_sem process_dies) (program page has_fallocate <$> agents, w) (ps, w') →
  Forall (λ u, u.2 = false) (k_unlinks w') ∧ lock_rule w' ∧
  ∀ pid h, ps !! pid = Some (Done (Ret h)) → holds pid h w'.
Proof.
  intros Hok Hrun.
  destruct (run_safe file_sem process_dies disk_ok promise (λ pid, holds pid) (λ _ _ _, True) _ _ _ _ death_keeps Hrun Hok)
    as [Hok' Hps].
  { intros pid p Hp. apply lookup_fmap_Some in Hp as (a & <- & _). by apply program_spec. }
  split_and!; [apply Hok'..|]. intros pid h Hh. apply (Hps pid _ Hh w' (rtc_refl _ _)).
Qed.
End Node.
