(* ===== verification/PoolFilesDemo.v ===== *)
(** * Pool files: runs

    An executable reading of the calls of [PoolFiles], given what the operating system answers,
    and a run of a daemon and a purge that meet on a pool. *)

From Stdlib Require Import ZArith Lia.
From S2P Require Import Prelude Snapshot Interact Protocol PoolFiles PoolFilesThm.

(** What the system chooses: an errno, a name, a descriptor and an inode, a list, a flag. *)
Inductive Answer :=
  | AErr (errno : Z) | AOk | AName (name : string) | AFd (fd : Z) (ino : Identity)
  | ANames (names : list string) | AFlag (b : bool).

Definition free_fd (fd : Z) (w : Disk) : bool := bool_decide (k_fds w !! fd = None).
Definition unused_b (ino : Identity) (w : Disk) : bool :=
  forallb (λ x, negb (bool_decide (x.2 = ino))) (map_to_list (k_entries w)) &&
  forallb (λ x, negb (bool_decide (of_target x.2 = TFile ino))) (map_to_list (k_fds w)).
Definition compatible_b (fd : Z) (f : OpenFile) (exclusive : bool) (w : Disk) : bool :=
  forallb (λ x, bool_decide (x.1 = fd) || negb (bool_decide (of_target x.2 = of_target f)) ||
     bool_decide (of_lock x.2 = None) || (negb exclusive && bool_decide (of_lock x.2 = Some false)))
    (map_to_list (k_fds w)).
Definition give {A} (a : A) (w : Disk) : option (result A * Disk) := Some (Ret a, w).

Definition file_exec (pid : nat) {B} (c : FileCall B) (a : Answer) (w : Disk) : option (result B * Disk) :=
  match a with
  | AErr errno =>
      match c with
      | SClose _ => None
      | SStat path => if bool_decide (errno = ENOENT) && negb (bool_decide (k_entries w !! path = None))
                      then None else Some (Raise (OSError errno), w)
      | _ => Some (Raise (OSError errno), w)
      end
  | _ =>
  match c in FileCall B return option (result B * Disk) with
  | SUuid => match a with AName n => give n w | _ => None end
  | SMounts => give [] w
  | SBlockSize _ => None
  | SMkdir _ _ => give tt w
  | SIsDir _ => match a with AFlag b => give b w | _ => None end
  | SCreate path mode =>
      match a with
      | AFd fd ino =>
          if bool_decide (path ∉ k_created w) && unused_b ino w && free_fd fd w then
            give fd (mkDisk (<[path := ino]> (k_entries w)) (<[ino := mkFileStat ino true mode 0]> (k_inodes w))
              (<[fd := mkOpenFile pid (TFile ino) None]> (k_fds w)) ({[path]} ∪ k_created w)
              (<[ino := pid]> (k_owner w)) (k_unlinks w))
          else None
      | _ => None
      end
  | SOpen path =>
      match a, k_entries w !! path with
      | AFd fd _, Some ino =>
          if free_fd fd w then give fd (set_k_fds (<[fd := mkOpenFile pid (TFile ino) None]> (k_fds w)) w) else None
      | _, _ => None
      end
  | SOpenDir dir =>
      match a with
      | AFd fd _ =>
          if free_fd fd w then give fd (set_k_fds (<[fd := mkOpenFile pid (TDir dir) None]> (k_fds w)) w) else None
      | _ => None
      end
  | SFlock fd exclusive _ =>
      match k_fds w !! fd with
      | Some f =>
          if bool_decide (of_pid f = pid) && compatible_b fd f exclusive w
          then give tt (set_k_fds (<[fd := mkOpenFile pid (of_target f) (Some exclusive)]> (k_fds w)) w) else None
      | None => None
      end
  | SFstat fd =>
      match k_fds w !! fd with
      | Some (mkOpenFile _ (TFile ino) _) => match k_inodes w !! ino with Some st => give st w | None => None end
      | _ => None
      end
  | SStat path =>
      match k_entries w !! path with
      | Some ino => match k_inodes w !! ino with Some st => give st w | None => None end
      | None => None
      end
  | SIsLink _ => match a with AFlag b => give b w | _ => None end
  | SClose fd =>
      match k_fds w !! fd with
      | Some f => if decide (of_pid f = pid) then give tt (set_k_fds (delete fd (k_fds w)) w) else None
      | None => None
      end
  | SFchmod fd mode =>
      match k_fds w !! fd with
      | Some (mkOpenFile _ (TFile ino) _) =>
          match k_inodes w !! ino with
          | Some st => give tt (set_k_inodes (<[ino := mkFileStat (fs_identity st) (fs_regular st) mode (fs_size st)]> (k_inodes w)) w)
          | None => None
          end
      | _ => None
      end
  | SFtruncate fd size =>
      match k_fds w !! fd with
      | Some (mkOpenFile _ (TFile ino) _) =>
          match k_inodes w !! ino with
          | Some st => give tt (set_k_inodes (<[ino := mkFileStat (fs_identity st) (fs_regular st) (fs_mode st) size]> (k_inodes w)) w)
          | None => None
          end
      | _ => None
      end
  | SUnlink path =>
      match k_entries w !! path with
      | Some ino =>
          give tt (mkDisk (delete path (k_entries w)) (k_inodes w) (k_fds w) (k_created w) (k_owner w)
             (k_unlinks w ++ [(pid, path,
                negb (bool_decide (k_owner w !! ino = Some pid)) && locked_by_other pid ino w)]))
      | None => None
      end
  | SReceive =>
      match a with
      | AFd fd ino =>
          if bool_decide (is_Some (k_inodes w !! ino)) && free_fd fd w
          then give fd (set_k_fds (<[fd := mkOpenFile pid (TFile ino) None]> (k_fds w)) w) else None
      | _ => None
      end
  | SPwrite _ size _ => if (0 <=? size)%Z then give size w else None
  | SFallocate _ _ _ | SMap _ _ | SUnmap => give tt w
  | SGlob _ => match a with ANames l => give l w | _ => None end
  end
  end.

Lemma unused_b_spec ino w : unused_b ino w = true → unused ino w.
Proof.
  unfold unused_b. rewrite andb_true_iff, !forallb_forall. intros [He Hf]. split.
  - intros path Hp. specialize (He (path, ino)). rewrite <- list_elem_of_In, elem_of_map_to_list in He.
    specialize (He Hp). simpl in He. by rewrite bool_decide_true in He.
  - intros fd f Hfd Ht. specialize (Hf (fd, f)). rewrite <- list_elem_of_In, elem_of_map_to_list in Hf.
    specialize (Hf Hfd). simpl in Hf. by rewrite bool_decide_true in Hf.
Qed.
Lemma compatible_b_spec fd f exclusive w : compatible_b fd f exclusive w = true → compatible fd f exclusive w.
Proof.
  unfold compatible_b. rewrite forallb_forall. intros H fd' f' Hne Hfd' Ht.
  specialize (H (fd', f')). rewrite <- list_elem_of_In, elem_of_map_to_list in H. specialize (H Hfd'). simpl in H.
  rewrite (bool_decide_false (fd' = fd)), (bool_decide_true (of_target f' = of_target f)) in H by done. simpl in H.
  apply orb_true_iff in H as [H|H]; [left; by apply bool_decide_eq_true in H|].
  right. apply andb_true_iff in H as [Hx H]. apply bool_decide_eq_true in H. by destruct exclusive.
Qed.
(** What the executable reading does, the system may do. *)
Lemma file_exec_sound pid B (c : FileCall B) a w r w' :
  file_exec pid c a w = Some (r, w') → file_sem pid B c w r w'.
Proof.
  unfold file_exec, give. intros H. destruct c; repeat case_match; simplify_eq; simpl;
    repeat match goal with
    | H : _ && _ = true |- _ => apply andb_true_iff in H as [? ?]
    | H : bool_decide _ = true |- _ => apply bool_decide_eq_true in H
    | H : unused_b _ _ = true |- _ => apply unused_b_spec in H
    | H : compatible_b _ _ _ _ = true |- _ => apply compatible_b_spec in H
    | H : free_fd _ _ = true |- _ => apply bool_decide_eq_true in H
    | H : (_ <=? _)%Z = true |- _ => apply Z.leb_le in H
    end;
    try (by right; eexists); try (by left; eexists); try (by left; repeat eexists; eauto);
    try (by split; [|eexists]);
    try (split; [by left|]; match goal with H : k_fds _ !! _ = _ |- _ => rewrite H end; by rewrite decide_True).
  - left. exists fd. split; [done|]. by exists ino.
  - left. exists fd. split; [done|]. by exists ino.
  - split; [done|]. exists errno. split; [done|]. intros ->.
    match goal with H : _ && _ = false |- _ => rewrite bool_decide_true in H by done; simpl in H end.
    match goal with H : negb _ = false |- _ => apply negb_false_iff in H; by apply bool_decide_eq_true in H end.
Qed.

(** ** Schedules *)

Definition turn (ps : gmap nat (FProg Held)) (w : Disk) (pid : nat) (a : Answer)
    : option (gmap nat (FProg Held) * Disk) :=
  match ps !! pid with
  | Some (Call c k) =>
      match file_exec pid c a w with
      | Some (r, w') => Some (<[pid := k r]> ps, w')
      | None => None
      end
  | _ => None
  end.
Fixpoint play (sched : list (nat * Answer)) (ps : gmap nat (FProg Held)) (w : Disk)
    : option (gmap nat (FProg Held) * Disk) :=
  match sched with
  | [] => Some (ps, w)
  | (pid, a) :: sched => match turn ps w pid a with Some (ps, w) => play sched ps w | None => None end
  end.
Lemma play_sound sched ps w ps' w' :
  play sched ps w = Some (ps', w') → rtc (pstep file_sem process_dies) (ps, w) (ps', w').
Proof.
  revert ps w. induction sched as [|[pid a] sched IH]; intros ps w; simpl; [by intros [= <- <-]|].
  unfold turn. destruct (ps !! pid) as [[r|B c k]|] eqn:Hp; [done| |done].
  destruct (file_exec pid c a w) as [[r w1]|] eqn:He; [|done]. intros H.
  eapply rtc_l; [|by apply IH]. eapply pstep_call; [done|]. by eapply file_exec_sound.
Qed.

Module PoolFilesDemo.
(** An orphan of a daemon that died is in the directory. *)
Definition digits : string := "0123456789abcdef0123456789abcdef".
Definition orphan : Path := ("/dev/shm", "kvcr-old-" +:+ digits).
Definition start : Disk :=
  mkDisk {[orphan := (1, 7)%Z]} {[(1, 7)%Z := mkFileStat (1, 7)%Z true 384 8192]} ∅ {[orphan]} {[(1, 7)%Z := 9]} [].
Definition pool : Path := ("/dev/shm", "kvcr-pool_0-" +:+ digits).
Definition spec : KVCRPoolSpec := mkKVCRPoolSpec "pool_0" pool digits (1, 8)%Z 16384 8192.
Definition agents : gmap nat Agent :=
  {[1 := Creator false "pool_0" 16384 8192 "/dev/shm"; 2 := Purger "/dev/shm"; 3 := Worker spec]}.
(** The daemon makes its pool; a worker attaches it; the purge of another daemon takes the
    orphan and finds the pool in use. *)
Definition schedule : list (nat * Answer) :=
  [(1, AName digits); (1, AFd 10 (0, 0)%Z); (1, AOk); (1, AFd 11 (1, 8)%Z); (2, AFd 20 (0, 0)%Z); (1, AOk); (1, AOk); (1, AOk);
   (2, AOk); (2, ANames ["kvcr-old-" +:+ digits; "kvcr-pool_0-" +:+ digits; "other"]);
   (2, AFlag false); (2, AOk); (2, AFd 21 (0, 0)%Z); (2, AOk); (2, AOk); (1, AOk); (2, AOk); (2, AOk); (2, AOk);
   (1, AOk); (1, AOk); (3, AFd 30 (1, 8)%Z); (3, AOk); (3, AOk); (3, AOk);
   (2, AFlag false); (2, AOk); (2, AFd 22 (0, 0)%Z); (2, AErr 11); (2, AOk); (2, AOk); (2, AErr 2); (1, AOk); (1, AOk)].
Definition final := play schedule (program 4096 true <$> agents) start.
Definition end_ps : gmap nat (FProg Held) := match final with Some (ps, _) => ps | None => ∅ end.
Definition end_disk : Disk := match final with Some (_, w) => w | None => start end.
Lemma start_ok : disk_ok start.
Proof.
  split.
  - intros fd fd' f f' _ H. exfalso. revert H. unfold start. cbn [k_fds]. by rewrite lookup_empty.
  - intros path ino. unfold start. cbn [k_entries k_created]. rewrite lookup_singleton_Some. intros [<- _]. set_solver.
  - intros ino st. unfold start. cbn [k_inodes]. rewrite lookup_singleton_Some. by intros [<- <-].
  - constructor.
Qed.
Lemma run_of_schedule :
  rtc (pstep file_sem process_dies) (program 4096 true <$> agents, start) (end_ps, end_disk).
Proof.
  apply (play_sound schedule). change (final = Some (end_ps, end_disk)).
  assert (match final with Some _ => true | None => false end = true) as Hs by (vm_compute; reflexivity).
  unfold end_ps, end_disk. by destruct final as [[ps w]|].
Qed.
(** After the run the daemon's pool is in place and the orphan is gone. *)
Lemma pool_files_safe_witness :
  disk_ok start ∧
  end_ps !! 1 = Some (Done (Ret (HOwner (mkPoolOwner spec (Some 11%Z))))) ∧
  end_ps !! 2 = Some (Done (Ret HNothing)) ∧
  end_ps !! 3 = Some (Done (Ret (HAttachment (mkAttachment (Some 30%Z) true spec)))) ∧
  k_unlinks end_disk = [(2, orphan, false)] ∧
  holds 1 (HOwner (mkPoolOwner spec (Some 11%Z))) end_disk ∧
  holds 3 (HAttachment (mkAttachment (Some 30%Z) true spec)) end_disk.
Proof.
  pose proof (pool_files_safe 4096 eq_refl true agents start end_ps end_disk start_ok run_of_schedule) as (_ & _ & Hh).
  split; [exact start_ok|].
  assert (end_ps !! 1 = Some (Done (Ret (HOwner (mkPoolOwner spec (Some 11%Z)))))) as H1 by (vm_compute; reflexivity).
  assert (end_ps !! 3 = Some (Done (Ret (HAttachment (mkAttachment (Some 30%Z) true spec))))) as H3
    by (vm_compute; reflexivity).
  split_and!; [exact H1|vm_compute; reflexivity|exact H3|vm_compute; reflexivity|exact (Hh 1 _ H1)|exact (Hh 3 _ H3)].
Defined.
End PoolFilesDemo.
