(* ===== verification/Hints.v ===== *)
(** * Router hints

    The envelopes a router attaches to requests ([src/src/kvcr/hints]): parsing them with the
    supported types ([parser.py]), the one type there is ([fetch.py]), and the dispatcher that
    gives every hint to its handler and reports every result ([dispatcher.py]). *)

From Stdlib Require Import ZArith Lia.
From S2P Require Import Prelude Types State CoreBase RemoteSources RemoteMain.

(** ** What a router sends *)

(** A decoded value: [VMap] is a [Mapping], [VStruct] a [msgspec.Struct] by its attributes. *)
Inductive Value :=
  | VNone
  | VBool (b : bool)
  | VInt (n : Z)
  | VStr (s : string)
  | VList (l : list Value)
  | VMap (m : list (string * Value))
  | VStruct (fields : list (string * Value))
  | VOther.

Fixpoint field (name : string) (fields : list (string * Value)) : option Value :=
  match fields with
  | [] => None
  | (k, v) :: fields => if decide (k = name) then Some v else field name fields
  end.
(** [getattr(v, name, None)] *)
Definition getattr (v : Value) (name : string) : Value :=
  match v with VStruct fields => default VNone (field name fields) | _ => VNone end.
Definition is_string (v : Value) (s : string) : bool :=
  match v with VStr x => bool_decide (x = s) | _ => false end.

(** ** Results ([results.py]) *)

Inductive HintStatus := ACCEPTED | REJECTED.
Record HintResult := mkHintResult {
  hr_action_id : option string;
  hr_action_type : string;
  hr_status : HintStatus;
  hr_reason : option string;
  hr_request_id : option string;
  hr_message_id : option string }.

(** The core, what the hint modules logged once, the results reported, and whether the
    dispatcher is closed. *)
Record HintState := mkHintState {
  h_core : St;
  h_issues : gset string;
  h_warnings : list string;
  h_errors : gset string;
  h_reports : list HintResult;
  h_closed : bool }.
Definition set_h_core (v : St) (s : HintState) : HintState :=
  mkHintState v (h_issues s) (h_warnings s) (h_errors s) (h_reports s) (h_closed s).
Definition set_h_closed (v : bool) (s : HintState) : HintState :=
  mkHintState (h_core s) (h_issues s) (h_warnings s) (h_errors s) (h_reports s) v.
Definition log_issue (issue : string) (s : HintState) : HintState :=
  mkHintState (h_core s) ({[issue]} ∪ h_issues s) (h_warnings s ++ [issue]) (h_errors s) (h_reports s) (h_closed s).
Definition log_error (issue : string) (s : HintState) : HintState :=
  mkHintState (h_core s) (h_issues s) (h_warnings s) ({[issue]} ∪ h_errors s) (h_reports s) (h_closed s).
Definition add_report (r : HintResult) (s : HintState) : HintState :=
  mkHintState (h_core s) (h_issues s) (h_warnings s) (h_errors s) (h_reports s ++ [r]) (h_closed s).
(** An operation of the core. *)
Definition on_core {A} (m : M St A) : M HintState A := λ s,
  let '(r, c) := m (h_core s) in (r, set_h_core c s).

(** ** Parsing *)

(** A warning is logged once per issue. *)
Definition warn_once (issue : string) : M HintState unit :=
  issues ← gets h_issues;
  if decide (issue ∈ issues) then mret tt else modify (log_issue issue).
(** [_warn_version_mismatch] *)
Definition warn_version_mismatch (supported : string) (received : Value) (issue : string) : M HintState unit :=
  if is_string received supported then mret tt else warn_once issue.
(** [reject_hint] *)
Definition reject_hint (action_id : option string) (action_type reason : string) (message_id : option string)
    (supported : bool) : M HintState HintResult :=
  warn_once ("rejected:" +:+ (if supported then action_type else "unknown") +:+ ":" +:+ reason) ;;
  mret (mkHintResult action_id action_type REJECTED (Some reason) None message_id).
(** [hint_message_id] *)
Definition hint_message_id (envelope : Value) : option string :=
  match getattr envelope "message_id" with VStr id => Some id | _ => None end.

Section Parser.
Context {Hint : Type}.
(** [HintType]: its parser raises [ValueError] with the reason of a rejection. *)
Record HintType := mkHintType {
  ht_action_type : string;
  ht_version : string;
  ht_parse : option string → list (string * Value) → result Hint }.
Context (types : gmap string HintType).

(** One action of an envelope, with what it is rejected as: its type and reason, and whether
    the type is a supported one. *)
Definition parse_action (raw : Value) (message_id : option string) : M HintState (Hint + HintResult) :=
  let rejected action_id action_type reason supported :=
    r ← reject_hint action_id action_type reason message_id supported; mret (inr r) in
  match raw with
  | VStruct _ =>
      match getattr raw "action_id" with
      | VStr action_id =>
          match getattr raw "action_type" with
          | VStr action_type =>
              match types !! action_type with
              | None => rejected (Some action_id) action_type "unsupported_action_type" false
              | Some hint_type =>
                  warn_version_mismatch (ht_version hint_type) (getattr raw "action_version")
                    (action_type +:+ "-version-mismatch") ;;
                  match getattr raw "payload" with
                  | VMap payload =>
                      match ht_parse hint_type (Some action_id) payload with
                      | Ret hint => mret (inl hint)
                      | Raise (ValueError reason) => rejected (Some action_id) action_type reason true
                      | Raise _ => rejected (Some action_id) action_type "invalid_hint" true
                      end
                  | _ => rejected (Some action_id) action_type "invalid_payload" true
                  end
              end
          | _ => rejected (Some action_id) "unknown" "invalid_hint" true
          end
      | _ => rejected None "unknown" "invalid_hint" true
      end
  | _ => rejected None "unknown" "invalid_hint" true
  end.
Definition PROTOCOL_VERSION : string := "0.1".
(** [parse_hints] *)
Definition parse_hints (envelope : Value) : M HintState (list Hint * list HintResult) :=
  match envelope with
  | VStruct _ =>
      warn_version_mismatch PROTOCOL_VERSION (getattr envelope "protocol_version") "protocol-version-mismatch" ;;
      match getattr envelope "actions" with
      | VList raw_actions =>
          fold_each (λ acc raw,
            r ← parse_action raw (hint_message_id envelope);
            mret (match r with
                  | inl hint => (acc.1 ++ [hint], acc.2)
                  | inr result => (acc.1, acc.2 ++ [result])
                  end)) ([], []) raw_actions
      | _ => raise (ValueError "invalid router hint")
      end
  | _ => raise (ValueError "invalid router hint")
  end.

(** ** Dispatch *)

Context (progress_failure : St → option exn).
(** The type and id of a parsed hint, and the handlers of the types. *)
Context (hint_type_of : Hint → string) (hint_id : Hint → option string).
Context (handler_submit : Hint → option string → option string → M HintState unit) (handler_close : string → M HintState unit).

Definition hints_raise_if_failed : M HintState unit :=
  failure ← gets (λ s, progress_failure (h_core s));
  match failure with Some e => raise e | None => mret tt end.
(** [report] *)
Definition report (result : HintResult) : M HintState unit := modify (add_report result).
(** [_warn_handler_error] *)
Definition warn_handler_error (action_type phase : string) : M HintState unit :=
  errors ← gets h_errors;
  let issue := phase +:+ ":" +:+ action_type in
  if decide (issue ∈ errors) then mret tt else modify (log_error issue).
(** [_submit_to_handler] *)
Definition submit_to_handler (hint : Hint) (request_id message_id : option string) : M HintState unit :=
  try_except (handler_submit hint request_id message_id) (λ _,
    hints_raise_if_failed ;;
    warn_handler_error (hint_type_of hint) "submit" ;;
    report (mkHintResult (hint_id hint) (hint_type_of hint) REJECTED (Some "handler_error") request_id message_id)).
Definition with_request (request_id : option string) (r : HintResult) : HintResult :=
  mkHintResult (hr_action_id r) (hr_action_type r) (hr_status r) (hr_reason r) request_id (hr_message_id r).
(** [HintDispatcher.submit] *)
Definition dispatcher_submit (envelope : Value) (request_id : option string) : M HintState unit :=
  hints_raise_if_failed ;;
  parsed ← parse_hints envelope;
  for_each parsed.2 (λ result, report (with_request request_id result)) ;;
  for_each parsed.1 (λ hint, submit_to_handler hint request_id (hint_message_id envelope)).
(** [HintDispatcher.close] *)
Definition dispatcher_close : M HintState unit :=
  closed ← gets h_closed;
  if closed : bool then mret tt else
  modify (set_h_closed true) ;;
  for_each (map_to_list types).*1 (λ action_type,
    try_except (handler_close action_type) (λ _, warn_handler_error action_type "close")).
End Parser.
Arguments HintType : clear implicits.

(** ** [kv.fetch] ([fetch.py]) *)

Definition KV_FETCH_ACTION_TYPE : string := "kv.fetch".
Record KVFetchHint := mkKVFetchHint {
  fh_action_id : option string; fh_source_endpoint : string; fh_block_hashes : gset Z }.
Fixpoint fetch_hashes (l : list Value) (hashes : gset Z) : result (gset Z) :=
  match l with
  | [] => mret hashes
  | VInt n :: l =>
      if decide (0 <= n < 2 ^ 64)%Z then fetch_hashes l ({[n]} ∪ hashes)
      else Raise (ValueError "invalid router hint")
  | _ :: _ => Raise (ValueError "invalid router hint")
  end.
(** [_parse_kv_fetch] *)
Definition parse_kv_fetch (action_id : option string) (payload : list (string * Value)) : result KVFetchHint :=
  guard_raise (bool_decide (is_Some (field "no_retain" payload))) (ValueError "no_retain is not currently supported") ;;
  guard_raise (negb (is_string (default (VStr "copy") (field "mode" payload)) "copy"))
    (ValueError "only copy mode is currently supported") ;;
  match default VNone (field "source_control_endpoint" payload), default VNone (field "block_hashes" payload) with
  | VNone, _ => Raise (ValueError "source-less hints are not currently supported")
  | VStr source, VList block_hashes =>
      if decide (source = "") then Raise (ValueError "invalid router hint") else
      hashes ← fetch_hashes block_hashes ∅;
      guard_raise (bool_decide (hashes = ∅)) (ValueError "invalid router hint") ;;
      mret (mkKVFetchHint action_id source hashes)
  | _, _ => Raise (ValueError "invalid router hint")
  end.
Definition KV_FETCH : HintType KVFetchHint := mkHintType KV_FETCH_ACTION_TYPE "1.0" parse_kv_fetch.
(** [_HINT_TYPES], by action type *)
Definition HINT_TYPES : gmap string (HintType KVFetchHint) := {[KV_FETCH_ACTION_TYPE := KV_FETCH]}.

Section Fetch.
Context (progress_failure : St → option exn) (eager_ctrl_connect : bool).
(** [_FetchHintHandler] *)
Definition fetch_submit (hint : KVFetchHint) (request_id message_id : option string) : M HintState unit :=
  on_core (submit_hint progress_failure eager_ctrl_connect (Some (fh_source_endpoint hint)) (fh_block_hashes hint) request_id) ;;
  report (mkHintResult (fh_action_id hint) KV_FETCH_ACTION_TYPE ACCEPTED None request_id message_id).
Definition fetch_close (action_type : string) : M HintState unit := mret tt.
Definition core_submit_hints (envelope : Value) (request_id : option string) : M HintState unit :=
  dispatcher_submit HINT_TYPES progress_failure (λ _, KV_FETCH_ACTION_TYPE) fh_action_id fetch_submit envelope request_id.
End Fetch.
