(* ===== verification/HintsThm.v ===== *)
(** * Router hints: every hint has one result

    Every action of an envelope is reported exactly once, the accepted ones are what the core
    was given, and a router cannot grow what is remembered about warnings. *)

From Stdlib Require Import ZArith Lia.
From S2P Require Import Prelude Types State CoreBase RemoteSources RemoteMain Hints.

(** Only the log of issues may differ. *)
Definition same_but_issues (s s' : HintState) : Prop :=
  h_core s' = h_core s ∧ h_errors s' = h_errors s ∧ h_reports s' = h_reports s ∧ h_closed s' = h_closed s.
#[export] Instance same_but_issues_preorder : PreOrder same_but_issues.
Proof.
  split; [by intros s|]. intros s1 s2 s3 (? & ? & ? & ?) (? & ? & ? & ?).
  unfold same_but_issues. split_and!; congruence.
Qed.
Definition action_id_of (raw : Value) : option string :=
  match getattr raw "action_id" with VStr id => Some id | _ => None end.

(** ** Parsing *)

Lemma warn_once_same issue s : wp (warn_once issue) (λ _, same_but_issues s) (λ _ _, False) s.
Proof. unfold warn_once. wp. by case_decide; wp. Qed.
Lemma warn_version_same supported received issue s :
  wp (warn_version_mismatch supported received issue) (λ _, same_but_issues s) (λ _ _, False) s.
Proof. unfold warn_version_mismatch. destruct (is_string _ _); [by wp|]. apply warn_once_same. Qed.

Section Parser.
Context {Hint : Type} (types : gmap string (@HintType Hint)).

(** A hint comes from the parser of a supported type; a rejection is of the action. *)
Definition answers (message_id : option string) (raw : Value) (r : Hint + HintResult) : Prop :=
  match r with
  | inl hint => ∃ action_type hint_type payload,
      types !! action_type = Some hint_type ∧ ht_parse hint_type (action_id_of raw) payload = Ret hint
  | inr result => ∃ action_type reason,
      result = mkHintResult (action_id_of raw) action_type REJECTED (Some reason) None message_id
  end.
Lemma parse_action_answers raw message_id s :
  wp (parse_action types raw message_id) (λ r s', same_but_issues s s' ∧ answers message_id raw r) (λ _ _, False) s.
Proof.
  assert (∀ action_id action_type reason supported s1,
    action_id = action_id_of raw → same_but_issues s s1 →
    wp (r ← reject_hint action_id action_type reason message_id supported; mret (inr r))
      (λ r s', same_but_issues s s' ∧ answers message_id raw r) (λ _ _, False) s1) as Hrej.
  { intros action_id action_type reason supported s1 -> Hs. unfold reject_hint. wp.
    eapply wp_mono; [apply warn_once_same| |done]. intros [] s2 H2. wp.
    split; [by etransitivity|]. by eexists _, _. }
  assert (same_but_issues s s) as Hrefl by done. revert Hrej. unfold parse_action, action_id_of.
  destruct raw as [|b|n|x|l|m|fields|]; intros Hrej; try by apply Hrej.
  destruct (getattr (VStruct fields) "action_id") as [|b|n|action_id|l|m|fs|] eqn:Hid; try by apply Hrej.
  destruct (getattr (VStruct fields) "action_type") as [|b|n|action_type|l|m|fs|]; try by apply Hrej.
  destruct (types !! action_type) as [hint_type|] eqn:Ht; [|by apply Hrej].
  wp. eapply wp_mono; [apply warn_version_same| |done]. intros [] s1 H1.
  destruct (getattr (VStruct fields) "payload") as [|b|n|x|l|payload|fs|]; try by apply Hrej.
  destruct (ht_parse hint_type (Some action_id) payload) as [hint|e] eqn:Hp; [|by destruct e; apply Hrej].
  wp. split; [done|]. exists action_type, hint_type, payload. by unfold action_id_of; rewrite Hid.
Qed.

Definition lefts (rs : list (Hint + HintResult)) : list Hint := omap (λ r, match r with inl h => Some h | inr _ => None end) rs.
Definition rights (rs : list (Hint + HintResult)) : list HintResult := omap (λ r, match r with inl _ => None | inr x => Some x end) rs.
(** The hints and the rejections, each in the order of the envelope. *)
Lemma parse_hints_answers envelope s :
  wp (parse_hints types envelope)
    (λ parsed s', same_but_issues s s' ∧ ∃ actions rs, getattr envelope "actions" = VList actions ∧
       Forall2 (answers (hint_message_id envelope)) actions rs ∧ parsed = (lefts rs, rights rs))
    (λ e s', same_but_issues s s' ∧ e = ValueError "invalid router hint") s.
Proof.
  unfold parse_hints. destruct envelope as [|b|n|x|l|m|fields|]; try by wp.
  wp. eapply wp_mono; [apply warn_version_same| |done]. intros [] s1 H1.
  destruct (getattr (VStruct fields) "actions") as [|b|n|x|actions|m|fs|]; try by wp.
  set (mid := hint_message_id (VStruct fields)).
  eapply (wp_fold_each _ _ _ (λ acc rest s', same_but_issues s s' ∧ ∃ done_ rs, actions = done_ ++ rest ∧
    Forall2 (answers mid) done_ rs ∧ acc = (lefts rs, rights rs))).
  - split; [done|]. by exists [], [].
  - intros acc raw rest s2 (H2 & done_ & rs & -> & Hrs & ->). wp.
    eapply wp_mono; [apply parse_action_answers| |done]. intros r s3 [H3 Hr]. wp.
    split; [by etransitivity|]. exists (done_ ++ [raw]), (rs ++ [r]).
    rewrite <- app_assoc. split; [done|]. split; [by apply Forall2_app; [|constructor]|].
    unfold lefts, rights. rewrite !omap_app. destruct r; simpl; by rewrite ?app_nil_r.
  - intros acc s2 (H2 & done_ & rs & Hd & Hrs & ->). rewrite app_nil_r in Hd. subst done_.
    split; [done|]. by exists actions, rs.
Qed.
End Parser.

(** ** [kv.fetch] *)

Definition fetchable (hint : KVFetchHint) : Prop :=
  fh_source_endpoint hint ≠ "" ∧ fh_block_hashes hint ≠ ∅ ∧ ∀ n, n ∈ fh_block_hashes hint → (0 <= n < 2 ^ 64)%Z.
Lemma fetch_hashes_range l hashes hashes' :
  fetch_hashes l hashes = Ret hashes' → (∀ n, n ∈ hashes → (0 <= n < 2 ^ 64)%Z) →
  ∀ n, n ∈ hashes' → (0 <= n < 2 ^ 64)%Z.
Proof.
  revert hashes. induction l as [|v l IH]; intros hashes; cbn [fetch_hashes]; [by intros [= <-]|].
  destruct v; try done. case_decide as Hn; [|done]. intros Hl Hh. eapply IH; [done|]. set_solver.
Qed.
Lemma parse_kv_fetch_sound action_id payload hint :
  parse_kv_fetch action_id payload = Ret hint → fh_action_id hint = action_id ∧ fetchable hint.
Proof.
  unfold parse_kv_fetch. destruct (bool_decide _); [done|]. simpl. destruct (negb _); [done|]. simpl.
  destruct (default VNone (field "source_control_endpoint" payload)); try done.
  destruct (default VNone (field "block_hashes" payload)); try done. case_decide; [done|].
  destruct (fetch_hashes l ∅) as [hashes|] eqn:Hh; [|done]. simpl.
  destruct (bool_decide_reflect (hashes = ∅)); [done|]. simpl. intros [= <-].
  split; [done|]. split_and!; [done..|]. eapply fetch_hashes_range; [done|set_solver].
Qed.

(** ** Dispatch *)

Section Dispatch.
Context (progress_failure : St → option exn) (eager_ctrl_connect : bool).
Notation submit := (core_submit_hints progress_failure eager_ctrl_connect).
Definition store_hint (request_id : option string) (hint : KVFetchHint) : M St unit :=
  submit_hint progress_failure eager_ctrl_connect (Some (fh_source_endpoint hint)) (fh_block_hashes hint) request_id.
Definition accepted (request_id message_id : option string) (hint : KVFetchHint) : HintResult :=
  mkHintResult (fh_action_id hint) KV_FETCH_ACTION_TYPE ACCEPTED None request_id message_id.

(** Storing a hint raises the failure of the progress thread and nothing else. *)
Lemma submit_hint_raises src hashes request_id (c : St) :
  wp (submit_hint progress_failure eager_ctrl_connect src hashes request_id)
    (λ _ _, True) (λ e c', progress_failure c' = Some e) c.
Proof.
  unfold submit_hint. apply wp_bind.
  apply (wp_mono _ _ (λ _ _, True) _ (λ _ _, False)); [|intros conflict c1 _|done].
  - destruct request_id as [id|]; [|done]. unfold find_hint, set_hint, upd_remote, rget. wp.
    case_match; [|by wp]. by case_decide; wp.
  - destruct src as [endpoint|]; [|by wp]. destruct (negb conflict && eager_ctrl_connect); [|by wp].
    unfold submit_item. wp. by destruct (progress_failure c1) as [e|] eqn:Hf; wp.
Qed.
Lemma submit_to_handler_stores hint request_id message_id s :
  wp (submit_to_handler progress_failure (λ _, KV_FETCH_ACTION_TYPE) fh_action_id
        (fetch_submit progress_failure eager_ctrl_connect) hint request_id message_id)
    (λ _ s', store_hint request_id hint (h_core s) = (Ret tt, h_core s') ∧
       h_reports s' = h_reports s ++ [accepted request_id message_id hint])
    (λ e s', progress_failure (h_core s') = Some e) s.
Proof.
  unfold submit_to_handler, fetch_submit. apply wp_try_except, wp_bind.
  pose proof (submit_hint_raises (Some (fh_source_endpoint hint)) (fh_block_hashes hint) request_id (h_core s)) as Hr.
  unfold store_hint. unfold wp at 1. unfold on_core. unfold wp in Hr.
  destruct (submit_hint _ _ _ _ _ _) as [[[]|e] c]; [by unfold report; wp|].
  unfold hints_raise_if_failed. wp. simpl. by rewrite Hr; wp.
Qed.
Lemma submit_all_stores hints request_id message_id s :
  wp (for_each hints (λ hint, submit_to_handler progress_failure (λ _, KV_FETCH_ACTION_TYPE) fh_action_id
        (fetch_submit progress_failure eager_ctrl_connect) hint request_id message_id))
    (λ _ s', for_each hints (store_hint request_id) (h_core s) = (Ret tt, h_core s') ∧
       h_reports s' = h_reports s ++ (accepted request_id message_id <$> hints))
    (λ e s', progress_failure (h_core s') = Some e) s.
Proof.
  revert s. induction hints as [|hint hints IH]; intros s; cbn [for_each fmap list_fmap]; [by wp; rewrite app_nil_r|].
  wp. eapply wp_mono; [apply submit_to_handler_stores| |done]. intros [] s1 [H1 Hr1].
  eapply wp_mono; [apply IH| |done]. intros [] s2 [H2 Hr2]. split.
  - unfold mbind, M_bind. by rewrite H1.
  - by rewrite Hr2, Hr1, <- app_assoc.
Qed.
Lemma report_all request_id results s :
  wp (for_each results (λ result, report (with_request request_id result)))
    (λ _ s', h_core s' = h_core s ∧ h_reports s' = h_reports s ++ (with_request request_id <$> results)) (λ _ _, False) s.
Proof.
  revert s. induction results as [|x results IH]; intros s; cbn [for_each fmap list_fmap]; [by wp; rewrite app_nil_r|].
  wp. unfold report at 1. wp. eapply wp_mono; [apply IH| |done]. intros [] s1 [H1 Hr1].
  split; [done|]. rewrite Hr1. simpl. by rewrite <- app_assoc.
Qed.

Lemma answered_once message_id actions rs :
  Forall2 (answers HINT_TYPES message_id) actions rs →
  Forall fetchable (lefts rs) ∧
  (fh_action_id <$> lefts rs) ++ (hr_action_id <$> rights rs) ≡ₚ action_id_of <$> actions ∧
  Forall (λ x, hr_status x = REJECTED ∧ is_Some (hr_reason x) ∧ hr_message_id x = message_id) (rights rs).
Proof.
  induction 1 as [|raw r actions rs Hr _ (IHf & IHp & IHr)]; [done|]. destruct r as [hint|result]; simpl.
  - destruct Hr as (action_type & hint_type & payload & Ht & Hp).
    unfold HINT_TYPES in Ht. apply lookup_singleton_Some in Ht as [_ <-]. apply parse_kv_fetch_sound in Hp as [Hid Hf].
    split_and!; [by constructor| |done]. rewrite Hid. by f_equiv.
  - destruct Hr as (action_type & reason & ->). split_and!; [done| |by constructor].
    cbn [hr_action_id]. rewrite <- IHp. symmetry. apply Permutation_middle.
Qed.

(** C25: Submitting the hints of a request reports every action of the envelope exactly once,
    under its id, with the request and the message it came with: an action is either rejected
    with a reason, or accepted as a fetch of at least one 64-bit hash from a named source that
    was stored in the core, in the order of the envelope.  Nothing but a malformed envelope,
    of which nothing is reported or stored, and the failure of the progress thread raises. *)
Theorem hints_answered envelope request_id s :
  let '(r, s') := submit envelope request_id s in
  let message_id := hint_message_id envelope in
  match r with
  | Ret _ => ∃ actions hints rejections,
      getattr envelope "actions" = VList actions ∧
      h_reports s' = h_reports s ++ rejections ++ (accepted request_id message_id <$> hints) ∧
      (hr_action_id <$> rejections) ++ (fh_action_id <$> hints) ≡ₚ action_id_of <$> actions ∧
      Forall (λ x, hr_status x = REJECTED ∧ is_Some (hr_reason x) ∧
        hr_request_id x = request_id ∧ hr_message_id x = message_id) rejections ∧
      Forall fetchable hints ∧
      for_each hints (store_hint request_id) (h_core s) = (Ret tt, h_core s')
  | Raise e => progress_failure (h_core s') = Some e ∨
      (e = ValueError "invalid router hint" ∧ h_reports s' = h_reports s ∧ h_core s' = h_core s)
  end.
Proof.
  enough (wp (submit envelope request_id) (λ _ s', ∃ actions hints rejections,
      getattr envelope "actions" = VList actions ∧
      h_reports s' = h_reports s ++ rejections ++ (accepted request_id (hint_message_id envelope) <$> hints) ∧
      (hr_action_id <$> rejections) ++ (fh_action_id <$> hints) ≡ₚ action_id_of <$> actions ∧
      Forall (λ x, hr_status x = REJECTED ∧ is_Some (hr_reason x) ∧
        hr_request_id x = request_id ∧ hr_message_id x = hint_message_id envelope) rejections ∧
      Forall fetchable hints ∧ for_each hints (store_hint request_id) (h_core s) = (Ret tt, h_core s'))
    (λ e s', progress_failure (h_core s') = Some e ∨
      (e = ValueError "invalid router hint" ∧ h_reports s' = h_reports s ∧ h_core s' = h_core s)) s) as H.
  { revert H. unfold wp. by destruct (submit envelope request_id s) as [[[]|e] s']. }
  unfold core_submit_hints, dispatcher_submit, hints_raise_if_failed. wp.
  destruct (progress_failure (h_core s)) as [e|] eqn:Hf; wp; [by left|].
  eapply wp_mono; [apply parse_hints_answers| |].
  2:{ intros e s1 [(Hc & _ & Hr & _) ->]. right. by rewrite Hc, Hr. }
  intros parsed s1 [(Hc1 & _ & Hr1 & _) (actions & rs & Ha & Hrs & ->)]. cbn [fst snd]. wp.
  apply answered_once in Hrs as (Hfetch & Hperm & Hrej).
  eapply wp_mono; [apply report_all| |done]. intros [] s2 [Hc2 Hr2].
  eapply wp_mono; [apply submit_all_stores| |intros e s3 He; by left]. intros [] s3 [Hc3 Hr3].
  exists actions, (lefts rs), (with_request request_id <$> rights rs). split_and!; [done| | | |done|].
  - by rewrite Hr3, Hr2, Hr1, <- app_assoc.
  - rewrite <- Hperm, (comm (++)), <- list_fmap_compose. by f_equiv.
  - apply Forall_fmap. eapply list.Forall_impl; [exact Hrej|]. by intros x (? & ? & ?).
  - by rewrite <- Hc1, <- Hc2.
Qed.
End Dispatch.

(** ** What is remembered about warnings *)

Definition FETCH_REASONS : list string :=
  ["no_retain is not currently supported"; "only copy mode is currently supported";
   "source-less hints are not currently supported"; "invalid router hint"].
(** Every issue the hint modules can log. *)
Definition HINT_ISSUES : list string :=
  ["protocol-version-mismatch"; "kv.fetch-version-mismatch"; "rejected:unknown:invalid_hint";
   "rejected:unknown:unsupported_action_type"] ++
  ((λ reason, "rejected:kv.fetch:" +:+ reason) <$> FETCH_REASONS ++ ["invalid_hint"; "invalid_payload"]).
Definition warned_once (s : HintState) : Prop :=
  NoDup (h_warnings s) ∧ (∀ i, i ∈ h_issues s ↔ i ∈ h_warnings s) ∧ h_warnings s ⊆ HINT_ISSUES.

Lemma fetch_hashes_reason l hashes reason :
  fetch_hashes l hashes = Raise (ValueError reason) → reason ∈ FETCH_REASONS.
Proof.
  assert ("invalid router hint" ∈ FETCH_REASONS) as Hin by set_solver.
  revert hashes. induction l as [|v l IH]; intros hashes; cbn [fetch_hashes]; [done|].
  destruct v; try (by intros [= <-]). case_decide; [apply IH|by intros [= <-]].
Qed.
Lemma parse_kv_fetch_reason action_id payload reason :
  parse_kv_fetch action_id payload = Raise (ValueError reason) → reason ∈ FETCH_REASONS.
Proof.
  unfold parse_kv_fetch. destruct (bool_decide _); [intros [= <-]; set_solver|]. simpl.
  destruct (negb _); [intros [= <-]; set_solver|]. simpl.
  destruct (default VNone (field "source_control_endpoint" payload)); try (intros [= <-]; set_solver).
  destruct (default VNone (field "block_hashes" payload)); try (intros [= <-]; set_solver).
  case_decide; [intros [= <-]; set_solver|].
  destruct (fetch_hashes l ∅) as [hashes|e] eqn:Hh; simpl.
  - destruct (bool_decide _); simpl; [intros [= <-]; set_solver|done].
  - intros [= ->]. by eapply fetch_hashes_reason.
Qed.
Lemma warn_once_bounded issue : issue ∈ HINT_ISSUES → preserves warned_once (warn_once issue).
Proof.
  intros Hin. unfold warn_once. apply triple_wp. intros s (Hnd & Heq & Hsub). wp.
  case_decide as Hi; wp; [done|]. split_and!; simpl.
  - apply NoDup_app. split; [done|]. split; [|apply NoDup_singleton]. rewrite Heq in Hi. set_solver.
  - intros i. rewrite elem_of_union, elem_of_singleton, elem_of_app, list_elem_of_singleton, Heq. tauto.
  - set_solver.
Qed.
Lemma warn_version_bounded supported received issue :
  issue ∈ HINT_ISSUES → preserves warned_once (warn_version_mismatch supported received issue).
Proof. intros Hin. unfold warn_version_mismatch. statements. by apply warn_once_bounded. Qed.
Lemma reject_bounded (action_id : option string) (action_type reason : string) (message_id : option string) (supported : bool) :
  "rejected:" +:+ (if supported then action_type else "unknown") +:+ ":" +:+ reason ∈ HINT_ISSUES →
  preserves warned_once (reject_hint action_id action_type reason message_id supported).
Proof. intros Hin. unfold reject_hint. statements. by apply warn_once_bounded. Qed.
Lemma fetch_issue reason : reason ∈ FETCH_REASONS ++ ["invalid_hint"; "invalid_payload"] →
  "rejected:" +:+ KV_FETCH_ACTION_TYPE +:+ ":" +:+ reason ∈ HINT_ISSUES.
Proof.
  intros Hr. apply elem_of_app. right. apply list_elem_of_fmap. by exists reason.
Qed.
Lemma parse_action_bounded raw message_id : preserves warned_once (parse_action HINT_TYPES raw message_id).
Proof.
  unfold parse_action. cbv zeta.
  assert (∀ (action_id : option string) (action_type reason : string) (supported : bool),
    "rejected:" +:+ (if supported then action_type else "unknown") +:+ ":" +:+ reason ∈ HINT_ISSUES →
    preserves warned_once (r ← reject_hint action_id action_type reason message_id supported;
      (mret (inr r) : M HintState (KVFetchHint + HintResult)))) as Hrej.
  { intros. statements. by apply reject_bounded. }
  assert ("rejected:unknown:invalid_hint" ∈ HINT_ISSUES) as Hinv by (vm_compute; set_solver).
  destruct raw as [|b|n|x|l|m|fields|]; try by apply Hrej.
  destruct (getattr (VStruct fields) "action_id"); try by apply Hrej.
  destruct (getattr (VStruct fields) "action_type") as [|b|n|action_type|l|m|fs|]; try by apply Hrej.
  destruct (HINT_TYPES !! action_type) as [hint_type|] eqn:Ht; [|apply Hrej; vm_compute; set_solver].
  unfold HINT_TYPES in Ht. apply lookup_singleton_Some in Ht as [<- <-].
  apply preserves_bind; [apply warn_version_bounded; vm_compute; set_solver|]. intros _.
  destruct (getattr (VStruct fields) "payload") as [|b|n|x|l|payload|fs|];
    try (apply Hrej, fetch_issue; set_solver).
  destruct (ht_parse KV_FETCH (Some s) payload) as [hint|e] eqn:Hp; [apply preserves_ret|].
  destruct e; apply Hrej, fetch_issue; try set_solver.
  apply elem_of_app. left. by eapply parse_kv_fetch_reason.
Qed.
Lemma on_core_bounded {A} (m : M St A) : preserves warned_once (on_core m).
Proof. intros s Hs. unfold on_core. by destruct (m (h_core s)) as [[a|e] c]. Qed.

Section Bounded.
Context (progress_failure : St → option exn) (eager_ctrl_connect : bool).
Lemma report_bounded result : preserves warned_once (report result).
Proof. by intros s Hs. Qed.
Lemma submit_bounded envelope request_id :
  preserves warned_once (core_submit_hints progress_failure eager_ctrl_connect envelope request_id).
Proof.
  unfold core_submit_hints, dispatcher_submit, hints_raise_if_failed, submit_to_handler, warn_handler_error,
    hints_raise_if_failed, fetch_submit, parse_hints.
  statements; try apply report_bounded; try apply on_core_bounded; try apply parse_action_bounded.
  - apply warn_version_bounded. vm_compute. set_solver.
  - by intros s Hs.
Qed.

(** Whatever envelopes a router sends, an issue is warned about at most once and no more
    than ten issues are ever remembered: the text of a hint cannot make the set grow. *)
Theorem hint_issues_bounded (envelopes : list (Value * option string)) core :
  let s' := (for_each envelopes (λ x, try_except
    (core_submit_hints progress_failure eager_ctrl_connect x.1 x.2) (λ _, mret tt))
    (mkHintState core ∅ [] ∅ [] false)).2 in
  NoDup (h_warnings s') ∧ size (h_issues s') = length (h_warnings s') ∧ length (h_warnings s') ≤ 10.
Proof.
  assert (preserves warned_once (for_each envelopes (λ x, try_except
    (core_submit_hints progress_failure eager_ctrl_connect x.1 x.2) (λ _, mret tt)))) as Hp.
  { statements. apply submit_bounded. }
  specialize (Hp (mkHintState core ∅ [] ∅ [] false)). cbv zeta.
  assert (warned_once (mkHintState core ∅ [] ∅ [] false)) as H0.
  { split_and!; simpl; [constructor|set_solver..]. }
  specialize (Hp H0). set (m := for_each _ _ _) in *. clearbody m.
  assert (warned_once m.2) as (Hnd & Heq & Hsub) by (by destruct m as [[[]|e] s']).
  split; [done|]. assert (h_issues m.2 = list_to_set (h_warnings m.2)) as -> by set_solver.
  rewrite size_list_to_set by done. split; [done|].
  change 10 with (length HINT_ISSUES). by apply submseteq_length, NoDup_submseteq.
Qed.
End Bounded.
