(* ===== verification/Session.v ===== *)
(** * The session of a claimant

    One claim, from the connection to the release: the client ([KVCRClient.claim],
    [KVCRPoolHold] with its heartbeat thread, of [src/src/kvcr/service/protocol.py]) and the
    thread of the service that handles the connection ([_RequestHandler],
    [_ThreadingUnixServer.dispatch] of [src/src/kvcr/service/server.py]).  The three threads
    meet in the messages of the socket, the descriptors that cross it and the lock of the hold;
    their calls are interleaved one by one, every call may raise, and each may die anywhere. *)

From Stdlib Require Import ZArith Lia.
From S2P Require Import Prelude Snapshot Interact Protocol.

(** ** Messages and state *)

Inductive Up := UClaim (claim : Claim) (pidfd : bool) | UHeartbeat | URelease (activated : bool).
Inductive Down := DGranted (grant : Granted) | DReleased | DError (message : string).

(** The variables of [claim] and the fields of the hold it returns. *)
Record Locals := mkLocals {
  lv_pool : option Z;
  lv_listener : option Z;
  lv_attachment : option Z;
  lv_grant_received : bool;
  lv_heartbeat_enabled : bool;
  lv_release_attempted : bool }.
Definition no_locals : Locals := mkLocals None None None false false false.
Definition set_pool (v : option Z) (l : Locals) : Locals :=
  mkLocals v (lv_listener l) (lv_attachment l) (lv_grant_received l) (lv_heartbeat_enabled l) (lv_release_attempted l).
Definition set_listener (v : option Z) (l : Locals) : Locals :=
  mkLocals (lv_pool l) v (lv_attachment l) (lv_grant_received l) (lv_heartbeat_enabled l) (lv_release_attempted l).
Definition set_attachment (v : option Z) (l : Locals) : Locals :=
  mkLocals (lv_pool l) (lv_listener l) v (lv_grant_received l) (lv_heartbeat_enabled l) (lv_release_attempted l).
Definition set_attempted (l : Locals) : Locals :=
  mkLocals (lv_pool l) (lv_listener l) (lv_attachment l) (lv_grant_received l) (lv_heartbeat_enabled l) true.

(** What is recorded: a lease was given back, and whether the claimant could reach the pool
    then; a heartbeat was sent, and whether a release was before; a descriptor was closed, and
    whether the process had it. *)
Inductive Event := EvFreed (access : bool) | EvBeat (late : bool) | EvClose (own : bool).

(** The unread messages, the open descriptors with their process, the client's variables,
    whether the service has the Guard that is asked for, the lock of the hold, [_heartbeat_stop], whether the heartbeat thread runs; and for the proof: whether the
    claimant maps the pool, whether a grant was sent, whether a release was, and the events. *)
Record Link := mkLink {
  lk_up : list Up;
  lk_down : list (Down * nat);
  lk_files : gmap Z nat;
  lk_locals : Locals;
  lk_guard : bool;
  lk_lock : option nat;
  lk_stop : bool;
  lk_started : bool;
  lk_access : bool;
  lk_granted : bool;
  lk_quit : bool;
  lk_events : list Event }.
Definition up_with (v : list Up) (w : Link) : Link :=
  mkLink v (lk_down w) (lk_files w) (lk_locals w) (lk_guard w) (lk_lock w) (lk_stop w) (lk_started w) (lk_access w) (lk_granted w) (lk_quit w) (lk_events w).
Definition down_with (v : list (Down * nat)) (w : Link) : Link :=
  mkLink (lk_up w) v (lk_files w) (lk_locals w) (lk_guard w) (lk_lock w) (lk_stop w) (lk_started w) (lk_access w) (lk_granted w) (lk_quit w) (lk_events w).
Definition files_with (v : gmap Z nat) (w : Link) : Link :=
  mkLink (lk_up w) (lk_down w) v (lk_locals w) (lk_guard w) (lk_lock w) (lk_stop w) (lk_started w) (lk_access w) (lk_granted w) (lk_quit w) (lk_events w).
Definition locals_with (v : Locals) (w : Link) : Link :=
  mkLink (lk_up w) (lk_down w) (lk_files w) v (lk_guard w) (lk_lock w) (lk_stop w) (lk_started w) (lk_access w) (lk_granted w) (lk_quit w) (lk_events w).
Definition lock_with (v : option nat) (w : Link) : Link :=
  mkLink (lk_up w) (lk_down w) (lk_files w) (lk_locals w) (lk_guard w) v (lk_stop w) (lk_started w) (lk_access w) (lk_granted w) (lk_quit w) (lk_events w).
Definition stopped (w : Link) : Link :=
  mkLink (lk_up w) (lk_down w) (lk_files w) (lk_locals w) (lk_guard w) (lk_lock w) true (lk_started w) (lk_access w) (lk_granted w) (lk_quit w) (lk_events w).
Definition started (w : Link) : Link :=
  mkLink (lk_up w) (lk_down w) (lk_files w) (lk_locals w) (lk_guard w) (lk_lock w) (lk_stop w) true (lk_access w) (lk_granted w) (lk_quit w) (lk_events w).
Definition access_with (v : bool) (w : Link) : Link :=
  mkLink (lk_up w) (lk_down w) (lk_files w) (lk_locals w) (lk_guard w) (lk_lock w) (lk_stop w) (lk_started w) v (lk_granted w) (lk_quit w) (lk_events w).
Definition granted (w : Link) : Link :=
  mkLink (lk_up w) (lk_down w) (lk_files w) (lk_locals w) (lk_guard w) (lk_lock w) (lk_stop w) (lk_started w) (lk_access w) true (lk_quit w) (lk_events w).
Definition quit (w : Link) : Link :=
  mkLink (lk_up w) (lk_down w) (lk_files w) (lk_locals w) (lk_guard w) (lk_lock w) (lk_stop w) (lk_started w) (lk_access w) (lk_granted w) true (lk_events w).
Definition event (e : Event) (w : Link) : Link :=
  mkLink (lk_up w) (lk_down w) (lk_files w) (lk_locals w) (lk_guard w) (lk_lock w) (lk_stop w) (lk_started w) (lk_access w) (lk_granted w) (lk_quit w) (lk_events w ++ [e]).

(** ** Calls *)

Inductive LinkCall : Type → Type :=
  (** the client *)
  | LConnect : LinkCall unit
  | LPidfdOpen : LinkCall Z
  | LSend (m : Up) : LinkCall unit
  | LReceive (with_fds : bool) : LinkCall (Down * list Z)
  | LAttach (fd : Z) : LinkCall unit
  | LDetach (fd : Z) : LinkCall unit
  | LAddress : LinkCall unit
  | LStart : LinkCall unit
  | LAdopt (fd : Z) : LinkCall unit
  | LHangUp : LinkCall unit
  | LGet : LinkCall Locals
  | LSet (l : Locals) : LinkCall unit
  | LStop : LinkCall unit
  | LLock : LinkCall unit
  | LUnlock : LinkCall unit
  (** its heartbeat thread *)
  | LBegin : LinkCall unit
  | LWait : LinkCall bool
  | LIsStopped : LinkCall bool
  (** any process *)
  | LClose (fd : Z) : LinkCall unit
  (** the service *)
  | HReceive (with_fds : bool) : LinkCall (Up * option Z)
  | HSend (m : Down) (fds : list Z) : LinkCall unit
  | HPeerPidfd : LinkCall Z
  | HPeerPid : LinkCall Z
  | HFdinfoPid (fd : Z) : LinkCall (option Z)
  | HGuard : LinkCall (option (list string * bool))
  | HClaim (claim : Claim) (pidfd : Z) : LinkCall (PoolSpec * list PoolDescriptor * Z)
  | HOpenPool (spec : PoolSpec) : LinkCall Z
  | HFstat (fd : Z) : LinkCall (Z * Z)
  | HNoTimeout : LinkCall unit
  | HRelease (activated : bool) : LinkCall unit
  | HHeartbeat : LinkCall unit
  | HFail : LinkCall unit.
Notation LProg := (Prog LinkCall).

Definition client : nat := 1.
Definition heartbeat_thread : nat := 2.
Definition service : nat := 3.

(** A call answers, or raises and changes nothing. *)
Definition does {B} (f : B → Link → Prop) (w : Link) (r : result B) (w' : Link) : Prop :=
  (∃ b, r = Ret b ∧ f b w') ∨ (∃ e, r = Raise e ∧ w' = w).
Definition new_file (pid : nat) (fd : Z) (w w' : Link) : Prop :=
  lk_files w !! fd = None ∧ w' = files_with (<[fd := pid]> (lk_files w)) w.
Definition sent (pid : nat) (m : Up) (w : Link) : Link :=
  let w := up_with (lk_up w ++ [m]) w in
  match m with
  | URelease _ => quit w
  | UHeartbeat => event (EvBeat (lk_quit w)) w
  | UClaim _ _ => w
  end.
Definition freed (w : Link) : Link := event (EvFreed (lk_access w)) w.

(** What the calls do.  A message that was not sent whole may have crossed all the same; a
    reply that cannot be decoded, and descriptors nobody asked for, are lost with it; [attach_fd]
    and [close] of an attachment keep to what [PoolFiles] shows of them; closing a descriptor
    that is open succeeds; [registry.claim] takes the pidfd if it answers, needs the Guard, and
    Guards are not added once the service runs. *)
Definition link_sem (pid : nat) B (c : LinkCall B) (w : Link) : result B → Link → Prop :=
  match c with
  | LConnect | LAddress | LHangUp | HPeerPid | HFdinfoPid _ | HFstat _ | HNoTimeout | HHeartbeat | HFail =>
      does (λ _ w', w' = w) w
  | HGuard => λ r w', w' = w ∧ ∃ g, r = Ret g ∧ bool_decide (is_Some g) = lk_guard w
  | LPidfdOpen | HPeerPidfd | HOpenPool _ => does (λ fd w', new_file pid fd w w') w
  | LSend m => λ r w', (∃ e, r = Raise e ∧ w' = w) ∨ ((r = Ret tt ∨ ∃ e, r = Raise e) ∧ w' = sent pid m w)
  | LReceive with_fds => λ r w',
      (∃ e, r = Raise e ∧ w' = w) ∨
      ∃ m count rest, lk_down w = (m, count) :: rest ∧
        ((∃ e, r = Raise e ∧ w' = down_with rest w) ∨
         (∃ fds, r = Ret (m, fds) ∧ (if with_fds then length fds = count else fds = []) ∧ NoDup fds ∧
            (∀ fd, fd ∈ fds → lk_files w !! fd = None) ∧
            w' = files_with (list_to_map ((λ fd, (fd, pid)) <$> fds) ∪ lk_files w) (down_with rest w)))
  | LAttach fd => λ r w',
      (r = Ret tt ∧ w' = access_with true w) ∨
      (∃ e, r = Raise e ∧ w' = event (EvClose (bool_decide (lk_files w !! fd = Some pid))) (files_with (delete fd (lk_files w)) w))
  | LDetach fd => λ r w',
      (r = Ret tt ∧ w' = event (EvClose (bool_decide (lk_files w !! fd = Some pid)))
                           (access_with false (files_with (delete fd (lk_files w)) w))) ∨
      (∃ e, r = Raise e ∧ w' = w)
  | LStart => does (λ _ w', w' = started w) w
  | LAdopt fd => does (λ _ w', w' = files_with (delete fd (lk_files w)) w) w
  | LGet => λ r w', r = Ret (lk_locals w) ∧ w' = w
  | LSet l => λ r w', r = Ret tt ∧ w' = locals_with l w
  | LStop => λ r w', r = Ret tt ∧ w' = stopped w
  | LLock => λ r w', r = Ret tt ∧ lk_lock w = None ∧ w' = lock_with (Some pid) w
  | LUnlock => λ r w', r = Ret tt ∧ w' = if decide (lk_lock w = Some pid) then lock_with None w else w
  | LBegin => λ r w', r = Ret tt ∧ lk_started w = true ∧ w' = w
  | LWait | LIsStopped => λ r w', r = Ret (lk_stop w) ∧ w' = w
  | LClose fd => λ r w', (if decide (lk_files w !! fd = Some pid) then r = Ret tt else ∃ errno, r = Raise (OSError errno)) ∧
      w' = event (EvClose (bool_decide (lk_files w !! fd = Some pid))) (files_with (delete fd (lk_files w)) w)
  | HReceive with_fds => λ r w',
      (∃ e, r = Raise e ∧ w' = w) ∨
      ∃ m rest, lk_up w = m :: rest ∧
        ((∃ e, r = Raise e ∧ w' = up_with rest w) ∨
         (r = Ret (m, None) ∧ w' = up_with rest w) ∨
         (with_fds = true ∧ ∃ claim fd, m = UClaim claim true ∧ r = Ret (m, Some fd) ∧ new_file pid fd (up_with rest w) w'))
  | HSend m fds => λ r w',
      let after := down_with (lk_down w ++ [(m, length fds)]) w in
      let after := match m with DGranted _ => granted after | _ => after end in
      (∃ e, r = Raise e ∧ w' = w) ∨ ((r = Ret tt ∨ ∃ e, r = Raise e) ∧ w' = after)
  | HClaim _ pidfd => does (λ a w', lk_guard w = true ∧ new_file pid a.2 (files_with (delete pidfd (lk_files w)) w) w') w
  | HRelease _ => λ r w', (∃ e, r = Raise e ∧ w' = w) ∨ ((r = Ret tt ∨ ∃ e, r = Raise e) ∧ w' = freed w)
  end.
(** A process that dies lets go of everything. *)
Definition link_dies (pid : nat) (w : Link) : Link :=
  let w := files_with (filter (λ x, x.2 ≠ pid) (lk_files w)) w in
  if decide (pid = client) then access_with false w else w.

(** ** The client *)

Definition suppress_os (p : LProg unit) : LProg unit :=
  catch p (λ e, match e with OSError _ => mret tt | _ => fail e end).
Definition quietly (p : LProg unit) : LProg unit := catch p (λ _, mret tt).
Definition connection_lost (e : exn) : bool := match e with OSError _ | EOFError => true | _ => false end.
Definition close_opt (fd : option Z) : LProg unit :=
  match fd with Some fd => suppress_os (call (LClose fd)) | None => mret tt end.
(** [_send_release] *)
Definition send_release (activated : bool) : LProg unit :=
  call (LSend (URelease activated)) ;;
  reply ← call (LReceive false);
  match reply.1 with
  | DReleased => mret tt
  | DError message => fail (KVCRServiceError message)
  | DGranted _ => fail (KVCRGuardProtocolError "invalid message payload")
  end.
(** [_close_quietly] *)
Definition close_quietly : LProg unit := quietly (call LHangUp).
(** The clean-up of [claim]; a [KVCRSocketError] is a [KVCRServiceError]. *)
Definition claim_failed {A} (e : exn) : LProg A :=
  l ← call LGet;
  close_opt (lv_listener l) ;;
  close_opt (lv_pool l) ;;
  local_access_stopped ← match lv_attachment l with
    | None => mret true
    | Some fd => catch (call (LDetach fd) ;; mret true) (λ _, mret false)
    end;
  (if local_access_stopped : bool then quietly (send_release false) else mret tt) ;;
  close_quietly ;;
  if negb (lv_grant_received l) && connection_lost e
  then fail (KVCRServiceError "KVCR-Service claim failed") else fail e.

Section Client.
Context (realpath : string → string) (page : Z).
(** The body of [claim]; a reply that brings other descriptors than its kind has is refused by
    [receive_with_fd], which closes them. *)
Definition claim_exchange (request : Claim) : LProg (PoolSpec * list PoolDescriptor) :=
  pidfd ← catch (fd ← call LPidfdOpen; mret (Some fd)) (λ e, match e with OSError _ => mret None | _ => fail e end);
  match pidfd with
  | None => call (LSend (UClaim request false))
  | Some fd => finally (call (LSend (UClaim request true))) (call (LClose fd))
  end ;;
  reply ← call (LReceive true);
  match reply with
  | (DGranted grant, [pool_fd; listener_fd]) =>
      call (LSet (mkLocals (Some pool_fd) (Some listener_fd) None true (gr_heartbeat_enabled grant) false)) ;;
      layout ← Done (grant_layout page grant (cl_guard_index request) (cl_tier_config request));
      call (LSet (mkLocals None (Some listener_fd) None true (gr_heartbeat_enabled grant) false)) ;;
      call (LAttach pool_fd) ;;
      call (LSet (mkLocals None (Some listener_fd) (Some pool_fd) true (gr_heartbeat_enabled grant) false)) ;;
      call LAddress ;;
      (if gr_heartbeat_enabled grant then call LStart else mret tt) ;;
      mret layout
  | (DError message, []) => fail (KVCRServiceError message)
  | (DReleased, fds) => each fds (λ fd, call (LClose fd)) ;; fail (KVCRGuardProtocolError "invalid message payload")
  | (_, fds) => each fds (λ fd, call (LClose fd)) ;; fail (KVCRMsgFramingError "unexpected number of file descriptors")
  end.
(** [KVCRClient.claim] *)
Definition client_claim (request : Claim) : LProg (PoolSpec * list PoolDescriptor) :=
  Done (make_claim realpath page request) ;;
  call LConnect ;;
  catch (claim_exchange request) claim_failed.
End Client.

(** [KVCRPoolHold.hand_listener_to] *)
Definition hand_listener_to : LProg unit :=
  l ← call LGet;
  match lv_listener l with
  | None => mret tt
  | Some fd => call (LAdopt fd) ;; call (LSet (set_listener None l))
  end.
(** [KVCRPoolHold.release] *)
Definition hold_release (activated : bool) : LProg unit :=
  l ← call LGet;
  if lv_release_attempted l then mret tt else
  match lv_attachment l with
  | Some fd => call (LDetach fd) ;; call (LSet (set_attachment None l))
  | None => mret tt
  end ;;
  call LStop ;;
  l ← call LGet;
  match lv_listener l with
  | Some fd => suppress_os (call (LClose fd)) ;; call (LSet (set_listener None l))
  | None => mret tt
  end ;;
  l ← call LGet;
  call (LSet (set_attempted l)) ;;
  catch (call LLock ;; finally (send_release activated) (call LUnlock) ;; call LHangUp)
    (λ e, close_quietly ;;
          if connection_lost e then fail (KVCRServiceError "KVCR-Service release failed") else fail e).
(** [_heartbeat]: each beat waits for the period or the stop. *)
Fixpoint beats (fuel : nat) : LProg unit :=
  match fuel with
  | 0 => mret tt
  | S fuel =>
      stop ← call LWait;
      if stop : bool then mret tt else
      call LLock ;;
      again ← finally (
          stop ← call LIsStopped;
          if stop : bool then mret false else
          catch (call (LSend UHeartbeat) ;; mret true) (λ e, match e with OSError _ => mret false | _ => fail e end))
        (call LUnlock);
      if again : bool then beats fuel else mret tt
  end.
Definition hold_heartbeat (fuel : nat) : LProg unit := call LBegin ;; beats fuel.

(** ** The service *)

Definition ENOPROTOOPT : Z := 92.
(** [_verify_peer_pidfd] *)
Definition verify_peer_pidfd (worker_pidfd : Z) : LProg unit :=
  pids ← catch (peer_pid ← call HPeerPid; worker_pid ← call (HFdinfoPid worker_pidfd); mret (peer_pid, worker_pid))
           (λ e, match e with
                 | OSError _ | ValueError _ => fail (KVCRServiceError "cannot verify worker pidfd")
                 | _ => fail e
                 end);
  if (pids.1 <=? 0)%Z || negb (bool_decide (pids.2 = Some pids.1))
  then fail (KVCRServiceError "worker pidfd does not match socket peer") else mret tt.
Definition close_transferred (worker_pidfd : option Z) : LProg unit :=
  match worker_pidfd with Some fd => call (LClose fd) | None => mret tt end.
(** [PidfdLiveness.from_peer_socket], and whether the pidfd is the kernel's own. *)
Definition from_peer_socket (worker_pidfd : option Z) : LProg Z :=
  pidfd ← catch
    (catch (fd ← call HPeerPidfd; mret (fd, true))
      (λ e, match e with
            | OSError errno =>
                if negb (errno =? ENOPROTOOPT)%Z then fail e else
                match worker_pidfd with
                | None => fail (KVCRServiceError "worker pidfd is required without SO_PEERPIDFD")
                | Some fd => verify_peer_pidfd fd ;; mret (fd, false)
                end
            | _ => fail e
            end))
    (λ e, close_transferred worker_pidfd ;; fail e);
  (if pidfd.2 : bool then close_transferred worker_pidfd else mret tt) ;;
  mret pidfd.1.
(** [PidfdLiveness.close] *)
Definition liveness_close (pidfd : Z) : LProg unit := suppress_os (call (LClose pidfd)).
(** [_open_pool_fd] *)
Definition open_pool_fd (spec : PoolSpec) : LProg Z :=
  pool_fd ← call (HOpenPool spec);
  catch (identity ← call (HFstat pool_fd);
         if decide (identity = (ps_device spec, ps_inode spec)) then mret tt
         else fail (KVCRServiceError "KVCR pool file does not match its grant"))
    (λ e, call (LClose pool_fd) ;; fail e) ;;
  mret pool_fd.
Definition is_service_error (e : exn) : bool :=
  match e with KVCRServiceError _ | KVCRGuardProtocolError _ | KVCRMsgFramingError _ => true | _ => false end.
Definition is_protocol_error (e : exn) : bool :=
  match e with KVCRGuardProtocolError _ | KVCRMsgFramingError _ => true | _ => false end.
(** [_send_error] *)
Definition send_error (message : string) : LProg unit := suppress_os (call (HSend (DError message) [])).
(** [_release_or_fail] *)
Definition release_or_fail (activated : bool) : LProg bool :=
  catch (call (HRelease activated) ;; mret true)
    (λ e, if is_service_error e then send_error "refused" ;; mret false else call HFail ;; mret false).
(** [_ThreadingUnixServer.dispatch] *)
Definition server_dispatch (compatibility_digest : string) (request : Claim) (pidfd : Z) : LProg (Granted * Z) :=
  if negb (bool_decide (cl_compatibility_digest request = compatibility_digest))
  then fail (KVCRServiceError "KVCR compatibility digest does not match the service") else
  guard ← call HGuard;
  claimed ← call (HClaim request pidfd);
  let '(spec, pools, listener_fd) := claimed in
  match guard with
  | None => fail (KVCRServiceError "KVCR claim succeeded without a Guard")
  | Some (dead_incarnations, heartbeat_enabled) =>
      mret (mkGranted (cl_guard_index request) spec (cl_tier_config request) pools dead_incarnations heartbeat_enabled,
            listener_fd)
  end.
(** The messages the decoders of the service take. *)
Definition receive_claim : LProg (Claim * option Z) :=
  received ← call (HReceive true);
  match received with
  | (UClaim claim _, fd) => mret (claim, fd)
  | (_, _) => fail (KVCRGuardProtocolError "invalid message payload")
  end.
Definition receive_hold : LProg (option bool) :=
  received ← call (HReceive false);
  match received.1 with
  | UHeartbeat => mret None
  | URelease activated => mret (Some activated)
  | UClaim _ _ => fail (KVCRGuardProtocolError "invalid message payload")
  end.
Definition attempt {A} (p : LProg A) : LProg (A + exn) :=
  catch (a ← p; mret (inl a)) (λ e, mret (inr e)).
(** [_await_release], for so many messages *)
Fixpoint await_release (fuel : nat) : LProg unit :=
  match fuel with
  | 0 => mret tt
  | S fuel =>
      message ← attempt receive_hold;
      match message with
      | inr e =>
          if connection_lost e then mret tt
          else if is_protocol_error e then send_error "protocol" ;; await_release fuel
          else fail e
      | inl None => call HHeartbeat ;; await_release fuel
      | inl (Some activated) =>
          committed ← release_or_fail activated;
          if committed : bool then suppress_os (call (HSend DReleased [])) else mret tt
      end
  end.
(** [handle] with a grant *)
Definition deliver_grant (fuel : nat) (grant : Granted) (listener_fd : Z) : LProg unit :=
  opened ← attempt (open_pool_fd (gr_spec grant));
  match opened with
  | inr _ =>
      call (LClose listener_fd) ;;
      release_or_fail false ;;
      send_error "KVCR could not open the pool"
  | inl pool_fd =>
      finally (quietly (call HNoTimeout ;; call (HSend (DGranted grant) [pool_fd; listener_fd])))
        (suppress_os (call (LClose pool_fd)) ;; suppress_os (call (LClose listener_fd))) ;;
      await_release fuel
  end.
(** [_RequestHandler.handle] *)
Definition handle (compatibility_digest : string) (fuel : nat) : LProg unit :=
  received ← attempt receive_claim;
  match received with
  | inr e =>
      if connection_lost e then mret tt
      else if is_protocol_error e then send_error "protocol"
      else fail e
  | inl (request, worker_pidfd) =>
      liveness ← attempt (from_peer_socket worker_pidfd);
      match liveness with
      | inr _ => send_error "refused"
      | inl pidfd =>
          grant ← attempt (server_dispatch compatibility_digest request pidfd);
          match grant with
          | inr _ => liveness_close pidfd ;; send_error "refused"
          | inl (grant, listener_fd) => deliver_grant fuel grant listener_fd
          end
      end
  end.

(** ** The three threads *)

Inductive Party :=
  | PClaimant (request : Claim) (adopts activated : bool) (tries : nat)
  | PHeartbeat (fuel : nat)
  | PHandler (digest : string) (fuel : nat).
(** The claimant takes the pool, may hand its listener on, and releases; a release that raised
    is tried again. *)
Fixpoint release_until (tries : nat) (activated : bool) : LProg unit :=
  match tries with
  | 0 => mret tt
  | S tries => catch (hold_release activated) (λ _, release_until tries activated)
  end.
Section Parties.
Context (realpath : string → string) (page : Z).
Definition party (p : Party) : LProg unit :=
  match p with
  | PClaimant request adopts activated tries =>
      client_claim realpath page request ;;
      (if adopts then catch hand_listener_to (λ _, mret tt) else mret tt) ;;
      release_until tries activated
  | PHeartbeat fuel => hold_heartbeat fuel
  | PHandler digest fuel => handle digest fuel
  end.
End Parties.
