(* ===== verification/SessionThm.v ===== *)
(** * The session of a claimant: nothing is given back while it is in use

    The rely-guarantee proof of [Session]: a lease is released or taken back only when the
    claimant cannot reach the pool any more and never will, no heartbeat follows a release,
    and no descriptor is closed twice or left behind, under any interleaving. *)

From Stdlib Require Import ZArith Lia.
From S2P Require Import Prelude Snapshot Interact Protocol Session.

Definition is_grant (m : Down) : bool := match m with DGranted _ => true | _ => false end.
Definition good (e : Event) : Prop :=
  match e with EvFreed access => access = false | EvBeat late => late = false | EvClose own => own = true end.
Definition is_freed (e : Event) : bool := match e with EvFreed _ => true | _ => false end.
Definition was_freed (w : Link) : bool := existsb is_freed (lk_events w).
Lemma was_freed_event e w : is_freed e = false → was_freed (event e w) = was_freed w.
Proof. intros He. unfold was_freed. simpl. rewrite existsb_app. simpl. by rewrite He, !orb_false_r. Qed.
Record link_ok (w : Link) : Prop := mk_link_ok {
  ok_quit : lk_quit w = true → lk_access w = false;
  ok_beats : lk_quit w = true → lk_started w = true → lk_stop w = true;
  ok_access : lk_access w = true → lk_granted w = true;
  ok_down : ∀ m n, (m, n) ∈ lk_down w → is_grant m = true → lk_granted w = true;
  ok_up : ∀ a, URelease a ∈ lk_up w → lk_quit w = true;
  ok_freed : was_freed w = true → lk_quit w = true ∨ lk_granted w = false;
  ok_events : Forall good (lk_events w) }.

(** The variables only the client changes. *)
Record View := mkView {
  vw_locals : Locals; vw_access : bool; vw_quit : bool; vw_stop : bool; vw_started : bool }.
Definition view (w : Link) : View :=
  mkView (lk_locals w) (lk_access w) (lk_quit w) (lk_stop w) (lk_started w).
Record link_promise (pid : nat) (w w' : Link) : Prop := mk_link_promise {
  lp_files : ∀ fd p, p ≠ pid → lk_files w !! fd = Some p ↔ lk_files w' !! fd = Some p;
  lp_view : pid ≠ client → view w' = view w;
  lp_guard : lk_guard w' = lk_guard w;
  lp_granted : lk_granted w = true → lk_granted w' = true;
  lp_ungranted : pid ≠ service → lk_granted w' = lk_granted w;
  lp_unfreed : pid ≠ service → was_freed w' = was_freed w;
  lp_quit : lk_quit w = true → lk_quit w' = true;
  lp_quiet : lk_quit w = false → lk_quit w' = true → lk_lock w = Some client ∨ lk_started w = false;
  lp_started : lk_started w = true → lk_started w' = true;
  lp_lock : ∀ p, p ≠ pid → lk_lock w = Some p ↔ lk_lock w' = Some p }.
Lemma freed_no_access w : link_ok w → was_freed w = true → lk_access w = false.
Proof.
  intros Hok Hf. apply not_true_iff_false. intros Ha. destruct (ok_freed _ Hok Hf) as [Hq|Hg].
  - by rewrite (ok_quit _ Hok Hq) in Ha.
  - by rewrite (ok_access _ Hok Ha) in Hg.
Qed.
Lemma link_promise_refl pid w : link_promise pid w w.
Proof. split; auto; congruence. Qed.

Definition has (pid : nat) (fd : Z) (w : Link) : Prop := lk_files w !! fd = Some pid.
(** When a process may make a call. *)
Definition allowed (pid : nat) {B} (c : LinkCall B) (w : Link) : Prop :=
  match c with
  | LSend (URelease _) => pid = client ∧ lk_access w = false ∧ (lk_started w = true → lk_stop w = true) ∧
      (lk_lock w = Some client ∨ lk_started w = false)
  | LSend UHeartbeat => lk_quit w = false
  | LAttach fd => pid = client ∧ has pid fd w ∧ lk_granted w = true ∧ lk_quit w = false
  | LDetach fd => pid = client ∧ has pid fd w
  | LStart => pid = client ∧ lk_quit w = false
  | LSet _ | LStop => pid = client
  | LAdopt fd | LClose fd | HClaim _ fd => has pid fd w
  | HSend (DGranted _) _ => pid = service ∧ was_freed w = false
  | HRelease _ => pid = service ∧ (lk_quit w = true ∨ lk_granted w = false)
  | _ => True
  end.

(** Changes of the own files, of the messages, of the events. *)
Lemma files_insert_promise pid w fd : lk_files w !! fd = None →
  link_promise pid w (files_with (<[fd := pid]> (lk_files w)) w).
Proof. intros Hfd. split; simpl; auto; try congruence. intros fd' p Hp. rewrite lookup_insert_Some. naive_solver. Qed.
Lemma files_delete_promise pid w fd : has pid fd w →
  link_promise pid w (files_with (delete fd (lk_files w)) w).
Proof.
  intros Hfd. unfold has in Hfd. split; simpl; auto; try congruence.
  intros fd' p Hp. rewrite lookup_delete_Some. naive_solver.
Qed.
Lemma link_promise_trans pid w1 w2 w3 :
  lk_lock w2 = lk_lock w1 → lk_started w2 = lk_started w1 →
  link_promise pid w1 w2 → link_promise pid w2 w3 → link_promise pid w1 w3.
Proof.
  intros Hl Hs [F1 V1 G1 A1 B1 E1 Q1 Y1 S1 L1] [F2 V2 G2 A2 B2 E2 Q2 Y2 S2 L2]. split; auto.
  - intros fd p Hp. by rewrite F1, F2.
  - intros Hp. by rewrite V2, V1.
  - congruence.
  - intros Hp. by rewrite B2, B1.
  - intros Hp. by rewrite E2, E1.
  - intros H1 H3. destruct (lk_quit w2) eqn:H2; [by apply Y1|]. rewrite <- Hl, <- Hs. by apply Y2.
  - intros p Hp. by rewrite L1, L2.
Qed.
Lemma messages_promise pid w w' :
  lk_files w' = lk_files w → view w' = view w → lk_guard w' = lk_guard w → lk_granted w' = lk_granted w →
  lk_lock w' = lk_lock w → (pid ≠ service → was_freed w' = was_freed w) → link_promise pid w w'.
Proof.
  intros Hf Hv Hg Hgr Hl Hfr. injection Hv as ? ? ? ? ?.
  split; [intros fd p _; by rewrite Hf|..|intros p _; by rewrite Hl]; unfold view; try done; congruence.
Qed.
Lemma link_ok_same w w' :
  link_ok w → view w' = view w → lk_granted w' = lk_granted w → lk_up w' ⊆ lk_up w → lk_down w' ⊆ lk_down w →
  was_freed w' = was_freed w → Forall good (lk_events w') → link_ok w'.
Proof.
  intros [Q B A D U R V] Hv Hg Hu Hd Hfr He. injection Hv as _ Hacc Hq Hst Hsd.
  split; rewrite ?Hfr, ?Hg, ?Hacc, ?Hq, ?Hst, ?Hsd; auto.
  - intros m n Hm. eapply D. by apply Hd.
  - intros a Ha. eapply U. by apply Hu.
Qed.

Lemma does_keeps pid {B} (f : B → Link → Prop) w r w' : link_ok w →
  (∀ b w', f b w' → link_ok w' ∧ link_promise pid w w') → does f w r w' → link_ok w' ∧ link_promise pid w w'.
Proof. intros Hok Hf [(b & -> & Hb)|(e & -> & ->)]; [by eapply Hf|]. split; [done|apply link_promise_refl]. Qed.
Lemma new_file_keeps pid fd w w' : link_ok w → new_file pid fd w w' → link_ok w' ∧ link_promise pid w w'.
Proof. intros Hok [Hfd ->]. split; [|by apply files_insert_promise]. by apply (link_ok_same w); try apply Hok. Qed.
Lemma closing_keeps pid fd w e : link_ok w → has pid fd w → good e → is_freed e = false →
  link_ok (event e (files_with (delete fd (lk_files w)) w)) ∧
  link_promise pid w (event e (files_with (delete fd (lk_files w)) w)).
Proof.
  intros Hok Hfd He Hn.
  assert (was_freed (event e (files_with (delete fd (lk_files w)) w)) = was_freed w) as Hfr by (by rewrite was_freed_event).
  split.
  - apply (link_ok_same w); try done. simpl. apply Forall_app. split; [apply Hok|by constructor].
  - apply (link_promise_trans _ w (files_with (delete fd (lk_files w)) w) _ eq_refl eq_refl);
      [by apply files_delete_promise|by apply messages_promise].
Qed.
Lemma own_event pid fd w : has pid fd w → good (EvClose (bool_decide (lk_files w !! fd = Some pid))).
Proof. intros Hfd. simpl. by apply bool_decide_eq_true. Qed.
Lemma sent_keeps pid m w : link_ok w → allowed pid (LSend m) w → link_ok (sent pid m w) ∧ link_promise pid w (sent pid m w).
Proof.
  intros Hok Hal. destruct m as [claim pidfd| |activated]; simpl in *.
  - split; [|by apply messages_promise]. destruct Hok as [Q B A D U R V]. split; simpl; auto.
    intros a [Ha|Ha]%elem_of_app; [by eapply U|set_solver].
  - assert (was_freed (sent pid UHeartbeat w) = was_freed w) as Hfr by (simpl; by rewrite was_freed_event).
    split; [|by apply messages_promise]. destruct Hok as [Q B A D U R V]. split; simpl; auto.
    + intros a [Ha|Ha]%elem_of_app; [by eapply U|set_solver].
    + by rewrite was_freed_event.
    + apply Forall_app. split; [done|]. by constructor.
  - destruct Hal as (-> & Hacc & Hstop & Hlock). split.
    + destruct Hok as [Q B A D U R V]. split; simpl; auto.
    + split; simpl; auto; try congruence; try done.
Qed.
Lemma hsend_keeps pid m n w : link_ok w → (is_grant m = true → pid = service ∧ was_freed w = false) →
  let w1 := down_with (lk_down w ++ [(m, n)]) w in
  let w2 := match m with DGranted _ => granted w1 | _ => w1 end in
  link_ok w2 ∧ link_promise pid w w2.
Proof.
  intros [Q B A D U R V] Hm. destruct m; (split; [split; simpl; auto|]).
  - intros Hf. destruct (Hm eq_refl) as [_ Hn]. change (was_freed w = true) in Hf. congruence.
  - destruct (Hm eq_refl) as [-> _]. split; simpl; auto; congruence.
  - intros m' n' [Hin|Hin]%elem_of_app; [by eapply D|]. apply list_elem_of_singleton in Hin. by injection Hin as -> ->.
  - by apply messages_promise.
  - intros m' n' [Hin|Hin]%elem_of_app; [by eapply D|]. apply list_elem_of_singleton in Hin. by injection Hin as -> ->.
  - by apply messages_promise.
Qed.
Lemma client_view_promise w w' :
  lk_files w' = lk_files w → lk_guard w' = lk_guard w → lk_granted w' = lk_granted w →
  lk_lock w' = lk_lock w → lk_quit w' = lk_quit w → (lk_started w = true → lk_started w' = true) →
  was_freed w' = was_freed w → link_promise client w w'.
Proof.
  intros Hf Hg Hgr Hl Hq Hs Hfr.
  split; [intros fd p _; by rewrite Hf|..|intros p _; by rewrite Hl]; auto; congruence.
Qed.
Lemma lock_keeps pid l w : link_ok w → (∀ p, p ≠ pid → lk_lock w = Some p ↔ l = Some p) →
  link_ok (lock_with l w) ∧ link_promise pid w (lock_with l w).
Proof.
  intros Hok Hl. split; [by apply (link_ok_same w); try apply Hok|]. split; simpl; auto; congruence.
Qed.
Lemma receive_keeps pid fds rest w : link_ok w → rest ⊆ lk_down w →
  (∀ fd, fd ∈ fds → lk_files w !! fd = None) →
  let w' := files_with (list_to_map ((λ fd, (fd, pid)) <$> fds) ∪ lk_files w) (down_with rest w) in
  link_ok w' ∧ link_promise pid w w'.
Proof.
  intros Hok Hrest Hfds w'. split; [by apply (link_ok_same w); try apply Hok|].
  split; simpl; auto; try congruence. intros fd p Hp. rewrite lookup_union_Some_raw. split.
  - intros Hfd. right. split; [|done]. apply not_elem_of_list_to_map. intros Hin.
    rewrite <- list_fmap_compose, list_elem_of_fmap in Hin. destruct Hin as (x & -> & Hx). simpl in *.
    rewrite (Hfds x Hx) in Hfd. done.
  - intros [Hfd|[_ ?]]; [|done]. apply elem_of_list_to_map_2, list_elem_of_fmap in Hfd as (x & [= -> ->] & _). done.
Qed.
Lemma hreceive_keeps pid m rest w : link_ok w → lk_up w = m :: rest →
  link_ok (up_with rest w) ∧ link_promise pid w (up_with rest w).
Proof.
  intros Hok Hup. split; [|by apply messages_promise].
  apply (link_ok_same w); try apply Hok; try done. simpl. rewrite Hup. set_solver.
Qed.

(** Every call a process may make keeps the invariant and its promise; so does a death. *)
Lemma link_call_keeps pid B (c : LinkCall B) w r w' :
  link_ok w → allowed pid c w → link_sem pid B c w r w' → link_ok w' ∧ link_promise pid w w'.
Proof.
  intros Hok Hal Hc. assert (link_ok w ∧ link_promise pid w w) as Hsame by (split; [done|apply link_promise_refl]).
  destruct c; cbn [allowed] in Hal; cbn [link_sem] in Hc;
    try (eapply does_keeps; [done| |exact Hc]; intros b w1 H1; cbn beta in H1; first [by subst w1|by eapply new_file_keeps]).
  - destruct Hc as [(e & _ & ->)|[_ ->]]; [done|]. by apply sent_keeps.
  - destruct Hc as [(e & _ & ->)|(m & count & rest & Hdown & Hc)]; [done|].
    assert (rest ⊆ lk_down w) as Hsub by (rewrite Hdown; set_solver).
    destruct Hc as [(e & _ & ->)|(fds & _ & _ & _ & Hfds & ->)]; [|by apply receive_keeps].
    split; [by apply (link_ok_same w); try apply Hok|by apply messages_promise].
  - destruct Hal as (-> & Hfd & Hg & Hq). destruct Hc as [[_ ->]|(e & _ & ->)].
    + split; [|by apply client_view_promise]. destruct Hok as [Q V A D U R X]. split; simpl; auto. congruence.
    + apply closing_keeps; [done..| |done]. by apply own_event.
  - destruct Hal as [-> Hfd]. destruct Hc as [[_ ->]|(e & _ & ->)]; [|done].
    set (w1 := files_with (delete fd (lk_files w)) w).
    destruct (closing_keeps client fd w _ Hok Hfd (own_event _ _ _ Hfd) eq_refl) as [Hok1 Hp1]. split.
    + destruct Hok1 as [Q V A D U R X]. split; simpl in *; auto. done.
    + apply (link_promise_trans _ w (event (EvClose (bool_decide (lk_files w !! fd = Some client))) w1) _ eq_refl eq_refl);
        [done|]. by apply client_view_promise.
  - destruct Hal as [-> Hq]. eapply does_keeps; [done| |exact Hc]. intros b w1 ->.
    split; [|by apply client_view_promise]. destruct Hok as [Q V A D U R X]. split; simpl; auto. congruence.
  - eapply does_keeps; [done| |exact Hc]. intros b w1 ->.
    split; [by apply (link_ok_same w); try apply Hok|by apply files_delete_promise].
  - by destruct Hc as [_ ->].
  - subst pid. destruct Hc as [_ ->]. split; [destruct Hok; by split|by apply client_view_promise].
  - subst pid. destruct Hc as [_ ->]. split; [|by apply client_view_promise].
    destruct Hok as [Q V A D U R X]. by split.
  - destruct Hc as (_ & Hl & ->). apply lock_keeps; [done|]. intros p Hp. rewrite Hl. naive_solver.
  - destruct Hc as (_ & ->). case_decide as Hl; [|done]. apply lock_keeps; [done|]. intros p Hp. rewrite Hl. naive_solver.
  - by destruct Hc as (_ & _ & ->).
  - by destruct Hc as [_ ->].
  - by destruct Hc as [_ ->].
  - destruct Hc as [_ ->]. apply closing_keeps; [done..| |done]. by apply own_event.
  - destruct Hc as [(e & _ & ->)|(m & rest & Hup & Hc)]; [done|].
    destruct (hreceive_keeps pid m rest w Hok Hup) as [Hok1 Hp1].
    destruct Hc as [(e & _ & ->)|[[_ ->]|(_ & claim & fd & _ & _ & Hfd & ->)]]; [done..|].
    split; [by apply (link_ok_same (up_with rest w)); try apply Hok1|].
    apply (link_promise_trans _ w (up_with rest w) _ eq_refl eq_refl); [done|]. by apply files_insert_promise.
  - destruct Hc as [(e & _ & ->)|[_ ->]]; [done|]. apply (hsend_keeps pid m (length fds) w Hok). by destruct m.
  - by destruct Hc as [-> _].
  - eapply does_keeps; [done| |exact Hc]. intros [[spec pools] fd] w1 (_ & Hfd & ->).
    split; [by apply (link_ok_same w); try apply Hok|].
    apply (link_promise_trans _ w (files_with (delete pidfd (lk_files w)) w) _ eq_refl eq_refl);
      [by apply files_delete_promise|by apply files_insert_promise].
  - destruct Hal as [-> Hal]. destruct Hc as [(e & _ & ->)|[_ ->]]; [done|]. split; [|by apply messages_promise].
    assert (lk_access w = false) as Ha.
    { apply not_true_iff_false. intros Ha. destruct Hal as [Hq|Hg]; [by rewrite (ok_quit _ Hok Hq) in Ha|].
      by rewrite (ok_access _ Hok Ha) in Hg. }
    destruct Hok as [Q V A D U R X]. split; simpl; auto. apply Forall_app. split; [done|by constructor].
Qed.
Lemma link_death_keeps pid w : link_ok w → link_ok (link_dies pid w) ∧ link_promise pid w (link_dies pid w).
Proof.
  intros Hok. unfold link_dies. set (w1 := files_with (filter (λ x, x.2 ≠ pid) (lk_files w)) w).
  assert (link_ok w1) as Hok1 by (by apply (link_ok_same w); try apply Hok).
  assert (link_promise pid w w1) as Hp1.
  { split; simpl; auto; try congruence. intros fd p Hp. rewrite map_lookup_filter_Some. naive_solver. }
  case_decide as Hpid; [subst pid|done]. split.
  - destruct Hok1 as [Q V A D U R X]. split; simpl in *; auto. done.
  - apply (link_promise_trans _ w w1 _ eq_refl eq_refl); [done|]. by apply client_view_promise.
Qed.

(** ** What one process knows *)

Notation stable_link := (stable link_ok link_promise).
Notation link_triple := (ptriple link_sem link_ok link_promise).
Definition owns (pid : nat) (m : gset Z) (w : Link) : Prop := ∀ fd, lk_files w !! fd = Some pid ↔ fd ∈ m.
Lemma stable_has pid m : stable_link pid (owns pid m).
Proof.
  intros w w' (_ & _ & pid' & Hne & Hp) Hm fd. rewrite <- (Hm fd). symmetry. apply (lp_files _ _ _ Hp). congruence.
Qed.
Lemma owns_insert pid m fd w w' : owns pid m w → new_file pid fd w w' → fd ∉ m ∧ owns pid ({[fd]} ∪ m) w'.
Proof.
  intros Hm [Hfd ->]. split; [rewrite <- (Hm fd); congruence|]. intros fd'. simpl.
  rewrite lookup_insert_Some, elem_of_union, elem_of_singleton, <- (Hm fd'). naive_solver congruence.
Qed.
Lemma owns_delete pid m fd w : owns pid m w → owns pid (m ∖ {[fd]}) (files_with (delete fd (lk_files w)) w).
Proof.
  intros Hm fd'. simpl. rewrite lookup_delete_Some, elem_of_difference, elem_of_singleton, <- (Hm fd'). naive_solver.
Qed.
Lemma owns_has pid m fd w : owns pid m w → fd ∈ m → has pid fd w.
Proof. intros Hm Hfd. by apply Hm. Qed.
Lemma owns_union pid m fds rest w : owns pid m w → NoDup fds → (∀ fd, fd ∈ fds → lk_files w !! fd = None) →
  owns pid (list_to_set fds ∪ m) (files_with (list_to_map ((λ fd, (fd, pid)) <$> fds) ∪ lk_files w) (down_with rest w)) ∧
  (∀ fd, fd ∈ fds → fd ∉ m).
Proof.
  intros Hm Hnd Hfds. split; [|intros fd Hfd; rewrite <- (Hm fd), (Hfds fd Hfd); done].
  intros fd. simpl. rewrite lookup_union_Some_raw, elem_of_union, elem_of_list_to_set, <- (Hm fd). split.
  - intros [Hfd|[_ Hfd]]; [left|by right].
    apply elem_of_list_to_map_2, list_elem_of_fmap in Hfd as (x & [= ->] & ?). done.
  - intros [Hfd|Hfd].
    + left. apply elem_of_list_to_map_1; [by rewrite <- list_fmap_compose, list_fmap_id|].
      apply list_elem_of_fmap. by exists fd.
    + right. split; [|done]. apply not_elem_of_list_to_map. rewrite <- list_fmap_compose, list_fmap_id.
      intros Hin. rewrite (Hfds fd Hin) in Hfd. done.
Qed.

(** A call that leaves the files and variables of the process alone, and those that do not
    matter for its own knowledge [P]. *)
Lemma link_call {B} pid (c : LinkCall B) P (Q : B → Link → Prop) (E : exn → Link → Prop) :
  stable_link pid P → (∀ a, stable_link pid (Q a)) → (∀ e, stable_link pid (E e)) →
  (∀ w, link_ok w → P w → allowed pid c w) →
  (∀ w r w', link_ok w → P w → link_sem pid B c w r w' →
     match r with Ret a => Q a w' | Raise e => E e w' end) →
  link_triple pid P (call c) Q E.
Proof.
  intros HP HQ HE Hal Hc. apply ptriple_call; [done..|]. intros w r w' Hok Hw Hs.
  destruct (link_call_keeps pid _ c w r w' Hok (Hal w Hok Hw) Hs) as [? ?]. split_and!; [done..|].
  exact (Hc w r w' Hok Hw Hs).
Qed.

(** ** The client *)

Section Client.
Notation tr := (link_triple client).
Definition At (m : gset Z) (v : View) (w : Link) : Prop := owns client m w ∧ view w = v.
Lemma stable_view v : stable_link client (λ w, view w = v).
Proof. intros w w' (_ & _ & pid' & Hne & Hp) <-. apply (lp_view _ _ _ Hp). congruence. Qed.
Lemma stable_At m v : stable_link client (At m v).
Proof. apply stable_and; [apply stable_has|apply stable_view]. Qed.
Lemma stable_granted pid : stable_link pid (λ w, lk_granted w = true).
Proof. intros w w' (_ & _ & pid' & _ & Hp). apply (lp_granted _ _ _ Hp). Qed.
Lemma stable_lock pid : stable_link pid (λ w, lk_lock w = Some pid).
Proof. intros w w' (_ & _ & pid' & Hne & Hp) Hl. apply (lp_lock _ _ _ Hp); [congruence|done]. Qed.
#[local] Hint Resolve stable_At stable_granted stable_lock stable_pure stable_and stable_exists : stables.

(** Calls that change nothing here. *)
Lemma c_same {B} (c : LinkCall B) m v (Q : B → Prop) :
  (∀ w, allowed client c w) →
  (∀ w r w', link_sem client B c w r w' → lk_files w' = lk_files w ∧ view w' = view w ∧ (∀ a, r = Ret a → Q a)) →
  tr (At m v) (call c) (λ a w, Q a ∧ At m v w) (λ _, At m v).
Proof.
  intros Hal Hc. apply link_call; [by eauto 6 with stables..|by intros; apply Hal|].
  intros w r w' _ [Hm Hv] Hs. destruct (Hc w r w' Hs) as (Hf & Hv' & Ha).
  assert (At m v w') as Hat by (split; [by intros fd; rewrite Hf|congruence]).
  destruct r as [a|e]; [|done]. split; [by apply Ha|done].
Qed.
Lemma c_plain (c : LinkCall unit) m v :
  match c with LConnect | LAddress | LHangUp | LSend (UClaim _ _) => True | _ => False end →
  tr (At m v) (call c) (λ _, At m v) (λ _, At m v).
Proof.
  intros Hc. eapply ptriple_mono; [apply (c_same c m v (λ _, True))|done|by intros a w [_ ?]|done].
  - intros w. destruct c; try done. by destruct m0.
  - intros w r w'. destruct c; try done; cbn [link_sem].
    + intros [(b & _ & ->)|(e & _ & ->)]; by split_and!.
    + destruct m0; try done. intros [(e & _ & ->)|[_ ->]]; by split_and!.
    + intros [(b & _ & ->)|(e & _ & ->)]; by split_and!.
    + intros [(b & _ & ->)|(e & _ & ->)]; by split_and!.
Qed.
Lemma c_get m v : tr (At m v) (call LGet) (λ l w, l = vw_locals v ∧ At m v w) (λ _ _, False).
Proof.
  apply link_call; [by eauto 6 with stables..|done|]. intros w r w' _ [Hm Hv] [-> ->].
  split; [by rewrite <- Hv|done].
Qed.
Definition v_locals (l : Locals) (v : View) : View := mkView l (vw_access v) (vw_quit v) (vw_stop v) (vw_started v).
Definition v_access (b : bool) (v : View) : View := mkView (vw_locals v) b (vw_quit v) (vw_stop v) (vw_started v).
Definition v_quit (b : bool) (v : View) : View := mkView (vw_locals v) (vw_access v) b (vw_stop v) (vw_started v).
Definition v_stop (v : View) : View := mkView (vw_locals v) (vw_access v) (vw_quit v) true (vw_started v).
Definition v_started (v : View) : View := mkView (vw_locals v) (vw_access v) (vw_quit v) (vw_stop v) true.
Lemma c_set l m v : tr (At m v) (call (LSet l)) (λ _, At m (v_locals l v)) (λ _ _, False).
Proof.
  apply link_call; [by eauto 6 with stables..|done|]. intros w r w' _ [Hm <-] [-> ->]. by split.
Qed.
Lemma c_stop m v : tr (At m v) (call LStop) (λ _, At m (v_stop v)) (λ _ _, False).
Proof.
  apply link_call; [by eauto 6 with stables..|done|]. intros w r w' _ [Hm <-] [-> ->]. by split.
Qed.
Lemma c_start m v : vw_quit v = false → tr (At m v) (call LStart) (λ _, At m (v_started v)) (λ _, At m v).
Proof.
  intros Hq. apply link_call; [by eauto 6 with stables..|by intros w _ [_ <-]|].
  intros w r w' _ [Hm <-] [(b & -> & ->)|(e & -> & ->)]; by split.
Qed.
Lemma c_pidfd m v :
  tr (At m v) (call LPidfdOpen) (λ fd w, fd ∉ m ∧ At ({[fd]} ∪ m) v w) (λ _, At m v).
Proof.
  apply link_call; [by eauto 6 with stables..|done|].
  intros w r w' _ [Hm Hv] [(fd & -> & Hn)|(e & -> & ->)]; [|done].
  destruct (owns_insert _ _ _ _ _ Hm Hn) as [? ?]. split; [done|]. split; [done|]. by destruct Hn as [_ ->].
Qed.
Lemma c_close fd m v : fd ∈ m → tr (At m v) (call (LClose fd)) (λ _, At (m ∖ {[fd]}) v) (λ _ _, False).
Proof.
  intros Hfd. apply link_call; [by eauto 6 with stables..|intros w _ [Hm _]; by eapply owns_has|].
  intros w r w' _ [Hm Hv] [Hr ->]. rewrite decide_True in Hr by (by eapply owns_has). subst r.
  split; [by apply owns_delete|done].
Qed.
Lemma c_adopt fd m v : fd ∈ m → tr (At m v) (call (LAdopt fd)) (λ _, At (m ∖ {[fd]}) v) (λ _, At m v).
Proof.
  intros Hfd. apply link_call; [by eauto 6 with stables..|intros w _ [Hm _]; by eapply owns_has|].
  intros w r w' _ [Hm Hv] [(b & -> & ->)|(e & -> & ->)]; [|done]. split; [by apply owns_delete|done].
Qed.
Lemma c_attach fd m v : fd ∈ m → vw_quit v = false →
  tr (λ w, lk_granted w = true ∧ At m v w) (call (LAttach fd)) (λ _, At m (v_access true v)) (λ _, At (m ∖ {[fd]}) v).
Proof.
  intros Hfd Hq. apply link_call; [by eauto 6 with stables..| |].
  - intros w _ (Hg & Hm & <-). split_and!; [done|by eapply owns_has|done..].
  - intros w r w' _ (Hg & Hm & <-) [[-> ->]|(e & -> & ->)]; split; [done..|by apply owns_delete|done].
Qed.
Lemma c_detach fd m v : fd ∈ m →
  tr (At m v) (call (LDetach fd)) (λ _, At (m ∖ {[fd]}) (v_access false v)) (λ _, At m v).
Proof.
  intros Hfd. apply link_call; [by eauto 6 with stables..| |].
  - intros w _ [Hm _]. split; [done|by eapply owns_has].
  - intros w r w' _ [Hm <-] [[-> ->]|(e & -> & ->)]; split; [by apply owns_delete|done..].
Qed.
Lemma c_lock m v : tr (At m v) (call LLock) (λ _ w, lk_lock w = Some client ∧ At m v w) (λ _ _, False).
Proof.
  apply link_call; [by eauto 6 with stables..|done|]. intros w r w' _ [Hm Hv] (-> & _ & ->). by split_and!.
Qed.
Lemma c_unlock m v : tr (At m v) (call LUnlock) (λ _, At m v) (λ _ _, False).
Proof.
  apply link_call; [by eauto 6 with stables..|done|]. intros w r w' _ [Hm Hv] (-> & ->). by case_decide; split.
Qed.
(** Descriptors come only when they are asked for; a grant means that one was sent. *)
Lemma c_receive with_fds m v :
  tr (At m v) (call (LReceive with_fds))
    (λ a w, (is_grant a.1 = true → lk_granted w = true) ∧ (with_fds = false → a.2 = []) ∧ NoDup a.2 ∧
       (∀ fd, fd ∈ a.2 → fd ∉ m) ∧ At (list_to_set a.2 ∪ m) v w) (λ _, At m v).
Proof.
  apply link_call; [apply stable_At| | |done|].
  - intros a. apply stable_and; [|eauto 6 with stables].
    intros w w' Ho Hg Hi. eapply stable_granted; eauto.
  - intros e. apply stable_At.
  - intros w r w' Hok [Hm Hv] [(e & -> & ->)|(msg & count & rest & Hdown & Hc)]; [done|].
    destruct Hc as [(e & -> & ->)|(fds & -> & Hwith & Hnd & Hfds & ->)]; [by split|].
    destruct (owns_union _ _ _ rest _ Hm Hnd Hfds) as [Ho Hd]. cbn [fst snd]. split_and!; [|by intros ->|done..].
    intros Hg. simpl. eapply (ok_down _ Hok msg count); [rewrite Hdown; by left|done].
Qed.
(** Sending the release: it may have crossed when it raises. *)
Definition may_quit (v : View) (w : Link) : Prop := lk_lock w = Some client ∨ vw_started v = false.
Lemma stable_may_quit v : stable_link client (may_quit v).
Proof. intros w w' Ho [Hl|?]; [left; by eapply stable_lock|by right]. Qed.
Definition maybe_quit (m : gset Z) (v : View) (w : Link) : Prop := ∃ q, At m (v_quit q v) w.
Lemma send_release_spec activated m v :
  vw_access v = false → (vw_started v = true → vw_stop v = true) →
  tr (λ w, may_quit v w ∧ At m v w) (send_release activated) (λ _, At m (v_quit true v)) (λ _, maybe_quit m v).
Proof.
  intros Ha Hs. unfold send_release.
  eapply (ptriple_bind _ _ _ _ _ _ _ (λ _, At m (v_quit true v))).
  { apply link_call.
    - apply stable_and; [apply stable_may_quit|apply stable_At].
    - intros _. apply stable_At.
    - intros _. apply stable_exists. intros q. apply stable_At.
    - intros w _ (Hl & _ & <-). simpl in *. done.
    - intros w r w' _ (_ & Hm & <-) [(e & -> & ->)|[[->|(e & ->)] ->]]; [|by split|by exists true].
      exists (lk_quit w). by split. }
  intros _. eapply ptriple_bind.
  { eapply ptriple_mono; [apply c_receive|done|intros a w Hw; exact Hw|]. intros e w Hw. by exists true. }
  intros [reply fds] w (_ & Hfds & _ & _ & Hw). cbn [fst snd] in *. rewrite (Hfds eq_refl) in Hw.
  replace (list_to_set [] ∪ m) with m in Hw by set_solver. revert w Hw.
  destruct reply; [apply ptriple_fail|apply ptriple_ret|apply ptriple_fail]; try apply stable_At; try done;
    intros w Hw; by exists true.
Qed.

Definition opt_set (o : option Z) : gset Z := match o with Some fd => {[fd]} | None => ∅ end.
Lemma close_opt_spec o m v : opt_set o ⊆ m →
  tr (At m v) (close_opt o) (λ _, At (m ∖ opt_set o) v) (λ _ _, False).
Proof.
  intros Ho. destruct o as [fd|]; cbn [close_opt opt_set] in *.
  - unfold suppress_os. eapply ptriple_catch; [apply c_close; set_solver|]. by intros e w [].
  - apply ptriple_ret; [apply stable_At|]. intros w. by rewrite difference_empty_L.
Qed.
(** At the end nothing is left open, unless the mapping could not be given up. *)
Definition let_go (w : Link) : Prop := owns client ∅ w ∨ lk_access w = true.
Lemma stable_let_go : stable_link client let_go.
Proof.
  intros w w' Ho [H|H]; [left; by eapply stable_has|right].
  assert (view w' = view w) as Hv by (by eapply (stable_view (view w))). injection Hv as _ -> _ _ _. done.
Qed.
Lemma quietly_spec {P Q : Link → Prop} (p : LProg unit) :
  (∀ w, P w → Q w) → stable_link client Q → tr P p (λ _, Q) (λ _, Q) → tr P (quietly p) (λ _, Q) (λ _ _, False).
Proof. intros _ HQ Hp. eapply ptriple_catch; [exact Hp|]. intros e. by apply ptriple_ret. Qed.

(** The state in which [claim] may fail. *)
Definition failing (m : gset Z) (v : View) : Prop :=
  let l := vw_locals v in
  vw_started v = false ∧ vw_access v = bool_decide (is_Some (lv_attachment l)) ∧
  opt_set (lv_listener l) ⊆ m ∧ opt_set (lv_pool l) ⊆ m ∖ opt_set (lv_listener l) ∧
  opt_set (lv_attachment l) ⊆ m ∖ opt_set (lv_listener l) ∖ opt_set (lv_pool l) ∧
  m ⊆ opt_set (lv_listener l) ∪ opt_set (lv_pool l) ∪ opt_set (lv_attachment l).
Definition fails (w : Link) : Prop := ∃ m v, failing m v ∧ At m v w.
Lemma release_of_claim m v : vw_access v = false → vw_started v = false →
  tr (At m v) (quietly (send_release false)) (λ _, maybe_quit m v) (λ _ _, False).
Proof.
  intros Ha Hs. eapply quietly_spec.
  - intros w Hw. exists (vw_quit v). by destruct v.
  - apply stable_exists. intros q. apply stable_At.
  - eapply ptriple_mono; [apply send_release_spec; [done|congruence]| |by exists true|done].
    intros w Hw. split; [by right|done].
Qed.
Lemma claim_failed_spec {A} e (Q : A → Link → Prop) : tr fails (claim_failed e) Q (λ _, let_go).
Proof.
  intros w (m & v & (Hs & Hacc & Hl & Hp & Ha & Hm) & Hw). revert w Hw. unfold claim_failed.
  eapply ptriple_bind; [eapply ptriple_mono; [apply c_get|done|intros a w Hw; exact Hw|done]|].
  intros l w [-> Hw]. revert w Hw. set (l := vw_locals v) in *.
  eapply ptriple_bind; [eapply ptriple_mono; [by apply close_opt_spec|done..]|]. intros [].
  eapply ptriple_bind; [eapply ptriple_mono; [by apply close_opt_spec|done..]|]. intros [].
  set (m2 := m ∖ opt_set (lv_listener l) ∖ opt_set (lv_pool l)) in *.
  assert (m2 ∖ opt_set (lv_attachment l) = ∅) as Hempty by (unfold m2; set_solver).
  eapply (ptriple_bind _ _ _ _ _ _ _ (λ gone w, if gone : bool then ∃ v', vw_access v' = false ∧ vw_started v' = false ∧ At ∅ v' w
    else lk_access w = true)).
  { destruct (lv_attachment l) as [fd|]; cbn [opt_set] in *.
    - eapply ptriple_catch.
      + eapply ptriple_bind; [apply c_detach; set_solver|]. intros []. apply ptriple_ret; [apply stable_At|].
        intros w Hw. rewrite Hempty in Hw. by exists (v_access false v).
      + intros e'. apply ptriple_ret; [apply stable_At|]. intros w [_ <-]. exact Hacc.
    - apply ptriple_ret; [apply stable_At|]. intros w Hw. rewrite difference_empty_L in Hempty. rewrite Hempty in Hw.
      by exists v. }
  assert (∀ w, lk_access w = true → let_go w) as Hacc_go by (by right).
  intros gone. apply (ptriple_bind _ _ _ _ _ _ _ (λ _, let_go)).
  { destruct gone.
    - intros w (v' & Ha' & Hs' & Hw). revert w Hw.
      eapply ptriple_mono; [by apply (release_of_claim ∅ v')|done| |done].
      intros [] w (q & Hw & _). by left.
    - apply ptriple_mono with (P' := let_go) (Q' := λ _, let_go) (E' := λ _, let_go); [|done..].
      by apply ptriple_ret; [apply stable_let_go|]. }
  intros []. eapply (ptriple_bind _ _ _ _ _ _ _ (λ _, let_go)).
  { unfold close_quietly. eapply ptriple_mono with (P' := let_go) (Q' := λ _, let_go) (E' := λ _ _, False); [|done..].
    apply (quietly_spec (P := let_go)); [done|apply stable_let_go|].
    apply link_call; [apply stable_let_go|intros; apply stable_let_go..|done|].
    intros w r w' _ Hw [(b & -> & ->)|(e' & -> & ->)]; done. }
  intros []. destruct (_ && _); (apply ptriple_fail; [apply stable_let_go|done]).
Qed.

(** ** [claim] *)

Definition hold_view (listener : option Z) (pool : Z) (enabled on : bool) : View :=
  mkView (mkLocals None listener (Some pool) true enabled false) true false false on.
(** A hold: the mapping, and the listener unless it was handed on. *)
Definition held (w : Link) : Prop := ∃ listener pool enabled on,
  pool ∉ opt_set listener ∧ At (opt_set listener ∪ {[pool]}) (hold_view listener pool enabled on) w.
Lemma stable_held : stable_link client held.
Proof. do 4 (apply stable_exists; intros ?). apply stable_and; [apply stable_pure|apply stable_At]. Qed.
Definition fresh : View := mkView no_locals false false false false.

Section Claim.
Context (realpath : string → string) (page : Z).
Lemma fails_at m v w : failing m v → At m v w → fails w.
Proof. by exists m, v. Qed.
Lemma failing_fresh : failing ∅ fresh.
Proof. unfold failing. simpl. split_and!; set_solver. Qed.
Lemma send_claim request pidfd m v :
  tr (At m v) (call (LSend (UClaim request pidfd))) (λ _, At m v) (λ _, At m v).
Proof. by apply c_plain. Qed.
(** The descriptors of a reply that is refused. *)
Lemma close_all fds m v : (∀ fd, fd ∈ fds → fd ∈ m) → NoDup fds →
  tr (At m v) (each fds (λ fd, call (LClose fd))) (λ _, At (m ∖ list_to_set fds) v) (λ _ _, False).
Proof.
  revert m. induction fds as [|fd fds IH]; intros m Hfds Hnd; cbn [each].
  - apply ptriple_ret; [apply stable_At|]. intros w. by replace (m ∖ list_to_set []) with m by set_solver.
  - apply NoDup_cons in Hnd as [Hfd Hnd]. eapply ptriple_bind; [apply c_close, Hfds; by left|]. intros [].
    eapply ptriple_mono; [apply IH; [|done]|done| |done].
    + intros fd' Hfd'. apply elem_of_difference. split; [apply Hfds; by right|]. set_solver.
    + intros [] w Hw. by replace (m ∖ list_to_set (fd :: fds)) with (m ∖ {[fd]} ∖ list_to_set fds) by set_solver.
Qed.
Lemma refuse_reply {A} fds e v (Q : A → Link → Prop) : NoDup fds → failing ∅ v →
  tr (At (list_to_set fds ∪ ∅) v) (each fds (λ fd, call (LClose fd)) ;; fail e) Q (λ _, fails).
Proof.
  intros Hnd Hv. eapply ptriple_bind.
  { eapply ptriple_mono; [apply (close_all fds (list_to_set fds ∪ ∅) v); [set_solver|done]|done|intros a w Hw; exact Hw|done]. }
  intros []. apply ptriple_fail; [apply stable_At|]. intros w Hw.
  replace ((list_to_set fds ∪ ∅) ∖ list_to_set fds : gset Z) with (∅ : gset Z) in Hw by set_solver. by eapply fails_at.
Qed.
(** With a grant: the variables always say what is to be cleaned up. *)
Lemma grant_spec grant request pool listener : pool ≠ listener →
  tr (λ w, lk_granted w = true ∧ At {[pool; listener]} fresh w)
    (call (LSet (mkLocals (Some pool) (Some listener) None true (gr_heartbeat_enabled grant) false)) ;;
     layout ← Done (grant_layout page grant (cl_guard_index request) (cl_tier_config request));
     call (LSet (mkLocals None (Some listener) None true (gr_heartbeat_enabled grant) false)) ;;
     call (LAttach pool) ;;
     call (LSet (mkLocals None (Some listener) (Some pool) true (gr_heartbeat_enabled grant) false)) ;;
     call LAddress ;;
     (if gr_heartbeat_enabled grant then call LStart else mret tt) ;;
     mret layout) (λ _, held) (λ _, fails).
Proof.
  intros Hne.
  assert (∀ m v, stable_link client (λ w, lk_granted w = true ∧ At m v w)) as HG by (intros; apply stable_and; [apply stable_granted|apply stable_At]).
  assert (∀ l m v, tr (λ w, lk_granted w = true ∧ At m v w) (call (LSet l)) (λ _ w, lk_granted w = true ∧ At m (v_locals l v) w) (λ _ _, False)) as Hset.
  { intros l m v. apply link_call; [apply HG|intros; apply HG|intros ? ? ? ? []|done|].
    intros w r w' _ (Hg & Hm & <-) [-> ->]. by split_and!. }
  assert (∀ l m v A (k : unit → LProg A) Q E,
    tr (λ w, lk_granted w = true ∧ At m (v_locals l v) w) (k tt) Q E →
    tr (λ w, lk_granted w = true ∧ At m v w) (call (LSet l) ≫= k) Q E) as Hassign.
  { intros l m v A k Q E Hk. eapply ptriple_bind.
    - eapply ptriple_mono; [apply Hset|intros w Hw; exact Hw|intros a w Hw; exact Hw|by intros e w []].
    - by intros []. }
  apply Hassign. eapply ptriple_bind.
  { eapply ptriple_mono; [apply ptriple_done, HG|intros w Hw; exact Hw|intros a w [_ Hw]; exact Hw|].
    intros e w (_ & _ & Hw). eapply fails_at; [|exact Hw]. unfold failing. simpl. split_and!; set_solver. }
  intros layout. apply Hassign. eapply ptriple_bind.
  { eapply ptriple_mono; [|intros w Hw; exact Hw|intros a w Hw; exact Hw|]; [apply c_attach; [set_solver|done]|].
    intros e w Hw. eapply fails_at; [|exact Hw]. unfold failing. simpl. split_and!; set_solver. }
  intros []. eapply ptriple_bind; [eapply ptriple_mono; [apply c_set|done..]|]. intros [].
  set (v := v_locals _ _).
  assert (∀ w, At {[pool; listener]} v w → fails w) as Hf.
  { intros w. apply fails_at. unfold failing. simpl. split_and!; try done; set_solver. }
  assert (∀ b w, At {[pool; listener]} (if b : bool then v_started v else v) w → held w) as Hheld.
  { intros b w Hw. exists (Some listener), pool, (gr_heartbeat_enabled grant), b. split; [set_solver|].
    replace (opt_set (Some listener) ∪ {[pool]}) with ({[pool; listener]} : gset Z) by set_solver. by destruct b. }
  eapply ptriple_bind; [eapply ptriple_mono; [by apply c_plain|done|done|by intros e w; apply Hf]|]. intros [].
  eapply (ptriple_bind _ _ _ _ _ _ _ (λ _, held)).
  - destruct (gr_heartbeat_enabled grant).
    + eapply ptriple_mono; [by apply (c_start {[pool; listener]} v)|done|intros a w; apply (Hheld true)|by intros e w; apply Hf].
    + apply ptriple_ret; [apply stable_At|]. intros w. apply (Hheld false).
  - intros []. by apply ptriple_ret; [apply stable_held|].
Qed.
Lemma claim_body_spec request :
  tr (At ∅ fresh) (claim_exchange page request) (λ _, held) (λ _, fails).
Proof.
  assert (∀ w, At ∅ fresh w → fails w) as Hf0 by (intros w; apply fails_at, failing_fresh).
  unfold claim_exchange.
  eapply (ptriple_bind _ _ _ _ _ _ _ (λ pidfd, At (opt_set pidfd) fresh)).
  { eapply ptriple_catch.
    - eapply ptriple_bind; [apply c_pidfd|]. intros fd w [_ Hw]. revert w Hw. apply ptriple_ret; [apply stable_At|].
      intros w. simpl. by rewrite union_empty_r_L.
    - intros e. destruct e; try (apply ptriple_fail; [apply stable_At|done]).
      by apply ptriple_ret; [apply stable_At|]. }
  intros pidfd. eapply (ptriple_bind _ _ _ _ _ _ _ (λ _, At ∅ fresh)).
  { destruct pidfd as [fd|]; cbn [opt_set].
    - eapply ptriple_finally; [apply send_claim| |];
        intros a; (eapply ptriple_mono; [apply (c_close fd {[fd]} fresh); set_solver|done|intros [] w Hw|done]);
        replace ({[fd]} ∖ {[fd]} : gset Z) with (∅ : gset Z) in Hw by set_solver; [done|by apply Hf0].
    - eapply ptriple_mono; [apply send_claim|done..|by intros e w; apply Hf0]. }
  intros []. eapply ptriple_bind; [eapply ptriple_mono; [apply c_receive|done|intros a w Hw; exact Hw|by intros e w; apply Hf0]|].
  intros [reply fds] w (Hg & _ & Hnd & _ & Hw). cbn [fst snd] in *. revert w Hg Hw.
  assert (∀ e w, (is_grant reply = true → lk_granted w = true) → At (list_to_set fds ∪ ∅) fresh w →
    safe link_sem link_ok link_promise client (λ _ : PoolSpec * list PoolDescriptor, held) (λ _, fails)
      (each fds (λ fd, call (LClose fd)) ;; fail e) w) as Hrefuse.
  { intros e w _. apply (refuse_reply fds e fresh); [done|apply failing_fresh]. }
  destruct reply as [grant| |message]; [|apply Hrefuse|destruct fds; [|apply Hrefuse]].
  - destruct fds as [|pool [|listener [|? ?]]]; try apply Hrefuse.
    intros w Hg Hw. specialize (Hg eq_refl).
    assert (lk_granted w = true ∧ At {[pool; listener]} fresh w) as Hgw.
    { split; [done|]. by replace {[pool; listener]} with (list_to_set [pool; listener] ∪ ∅ : gset Z) by set_solver. }
    assert (pool ≠ listener) as Hne by (apply NoDup_cons in Hnd as [Hnd _]; set_solver).
    clear Hw Hg Hrefuse. revert w Hgw. apply grant_spec; done.
  - intros w _ Hw. replace (list_to_set [] ∪ ∅ : gset Z) with (∅ : gset Z) in Hw by set_solver. revert w Hw.
    by apply ptriple_fail; [apply stable_At|].
Qed.
Lemma fresh_let_go w : At ∅ fresh w → let_go w.
Proof. intros [Hm _]. by left. Qed.
(** A claim gives a hold, or lets go of everything. *)
Lemma client_claim_spec request :
  tr (At ∅ fresh) (client_claim realpath page request) (λ _, held) (λ _, let_go).
Proof.
  unfold client_claim. eapply ptriple_bind.
  { eapply ptriple_mono; [apply (ptriple_done _ _ _ _ (At ∅ fresh)), stable_At|done|intros a w [_ Hw]; exact Hw|].
    intros e w [_ Hw]. by apply fresh_let_go. }
  intros []. eapply ptriple_bind.
  { eapply ptriple_mono; [by apply (c_plain LConnect ∅ fresh)|done|done|intros e w; apply fresh_let_go]. }
  intros []. eapply ptriple_catch; [apply claim_body_spec|]. intros e. apply claim_failed_spec.
Qed.
End Claim.

(** ** [hand_listener_to] and [release] *)

Lemma held_spec {A} (p : LProg A) Q E :
  (∀ listener pool enabled on, pool ∉ opt_set listener →
    tr (At (opt_set listener ∪ {[pool]}) (hold_view listener pool enabled on)) p Q E) → tr held p Q E.
Proof. intros Hp w (listener & pool & enabled & on & Hne & Hw). by eapply Hp. Qed.
Lemma hand_listener_spec : tr held hand_listener_to (λ _, held) (λ _, held).
Proof.
  apply held_spec. intros listener pool enabled on Hne. unfold hand_listener_to.
  assert (∀ w, At (opt_set listener ∪ {[pool]}) (hold_view listener pool enabled on) w → held w) as Hh.
  { intros w Hw. by exists listener, pool, enabled, on. }
  eapply ptriple_bind; [eapply ptriple_mono; [apply c_get|done|intros a w Hw; exact Hw|done]|].
  intros l w [-> Hw]. revert w Hw. simpl.
  destruct listener as [fd|]; [|by apply ptriple_ret; [apply stable_At|]].
  eapply ptriple_bind.
  { eapply ptriple_mono; [apply (c_adopt fd (opt_set (Some fd) ∪ {[pool]}) (hold_view (Some fd) pool enabled on)); set_solver|
      done|intros a w Hw; exact Hw|by intros e w; apply Hh]. }
  intros []. eapply ptriple_mono; [apply c_set|intros w Hw; exact Hw| |done].
  intros [] w Hw. exists None, pool, enabled, on. split; [set_solver|].
  replace (opt_set None ∪ {[pool]}) with ((opt_set (Some fd) ∪ {[pool]}) ∖ {[fd]} : gset Z) by set_solver. exact Hw.
Qed.

(** A hold, or one whose release was attempted, which has nothing left. *)
Definition released (w : Link) : Prop := ∃ v, lv_release_attempted (vw_locals v) = true ∧ At ∅ v w.
Definition hold_ok (w : Link) : Prop := held w ∨ released w.
Lemma stable_released : stable_link client released.
Proof. apply stable_exists. intros v. apply stable_and; [apply stable_pure|apply stable_At]. Qed.
Lemma stable_hold_ok : stable_link client hold_ok.
Proof. intros w w' Ho [H|H]; [left; by eapply stable_held|right; by eapply stable_released]. Qed.
Lemma at_released v w : lv_release_attempted (vw_locals v) = true → maybe_quit ∅ v w → released w.
Proof. intros Hv (q & Hw). by exists (v_quit q v). Qed.
(** The message exchange of a release: everything is closed already. *)
Lemma exchange_spec activated v :
  vw_access v = false → vw_stop v = true → lv_release_attempted (vw_locals v) = true →
  tr (At ∅ v) (call LLock ;; finally (send_release activated) (call LUnlock) ;; call LHangUp) (λ _, released) (λ _, released).
Proof.
  intros Ha Hs Hv. assert (∀ w, maybe_quit ∅ v w → released w) as Hrel by (intros w; by apply at_released).
  assert (∀ q, tr (At ∅ (v_quit q v)) (call LUnlock) (λ _, At ∅ (v_quit q v)) (λ _ _, False)) as Hun by (intros; apply c_unlock).
  eapply ptriple_bind; [eapply ptriple_mono; [apply c_lock|intros w Hw; exact Hw|intros a w Hw; exact Hw|done]|]. intros [].
  eapply (ptriple_bind _ _ _ _ _ _ _ (λ _, At ∅ (v_quit true v))).
  - eapply ptriple_finally.
    + eapply ptriple_mono; [by apply (send_release_spec activated ∅ v)| |intros a w Hw; exact Hw|intros e w Hw; exact Hw].
      intros w [Hl Hw]. split; [by left|done].
    + intros []. eapply ptriple_mono; [apply (Hun true)|done..].
    + intros e w (q & Hw). revert w Hw. eapply ptriple_mono; [apply (Hun q)|done| |done].
      intros [] w Hw. apply Hrel. by exists q.
  - intros []. eapply ptriple_mono; [by apply (c_plain LHangUp ∅ (v_quit true v))|done|..];
      intros ? w Hw; apply Hrel; by exists true.
Qed.
Lemma hold_release_spec activated : tr hold_ok (hold_release activated) (λ _, released) (λ _, hold_ok).
Proof.
  intros w [Hw|(v & Hv & Hw)]; revert w Hw; unfold hold_release.
  2:{ eapply ptriple_bind; [eapply ptriple_mono; [apply (c_get ∅ v)|done|intros a w Hw; exact Hw|done]|].
      intros l w [-> Hw]. revert w Hw. rewrite Hv. apply ptriple_ret; [apply stable_At|]. intros w Hw. by exists v. }
  apply held_spec. intros listener pool enabled on Hne. set (v := hold_view listener pool enabled on).
  eapply ptriple_bind; [eapply ptriple_mono; [eapply (c_get _ v)|done|intros a w Hw; exact Hw|done]|].
  intros l w [-> Hw]. revert w Hw. cbn [v hold_view vw_locals lv_release_attempted lv_attachment]. fold v.
  set (m := opt_set listener ∪ {[pool]}).
  assert (m ∖ {[pool]} = opt_set listener) as Hm by (unfold m; set_solver).
  eapply (ptriple_bind _ _ _ _ _ _ _ (λ _, At (opt_set listener) (v_locals (set_attachment None (vw_locals v)) (v_access false v)))).
  { eapply ptriple_bind.
    - eapply ptriple_mono; [apply (c_detach pool m v); set_solver|done|intros a w Hw; exact Hw|].
      intros e w Hw. left. by exists listener, pool, enabled, on.
    - intros []. rewrite Hm. eapply ptriple_mono; [apply c_set|done..]. }
  intros []. set (v1 := v_locals _ _).
  eapply ptriple_bind; [eapply ptriple_mono; [eapply (c_stop _ v1)|done|intros a w Hw; exact Hw|done]|]. intros [].
  eapply ptriple_bind; [eapply ptriple_mono; [eapply (c_get _ (v_stop v1))|done|intros a w Hw; exact Hw|done]|].
  intros l w [-> Hw]. revert w Hw. cbn [v_stop v1 v_locals v hold_view vw_locals set_attachment lv_listener]. fold v v1.
  set (v2 := v_stop v1).
  eapply (ptriple_bind _ _ _ _ _ _ _ (λ _, At ∅ (v_locals (set_listener None (vw_locals v2)) v2))).
  { destruct listener as [fd|].
    - eapply ptriple_bind; [eapply ptriple_mono; [apply (close_opt_spec (Some fd) (opt_set (Some fd)) v2); done|done|
        intros a w Hw; exact Hw|done]|].
      intros []. eapply ptriple_mono; [apply c_set| |intros a w Hw; exact Hw|done].
      intros w Hw. by replace (opt_set (Some fd) ∖ opt_set (Some fd)) with (∅ : gset Z) in Hw by set_solver.
    - apply ptriple_ret; [apply stable_At|]. done. }
  intros []. set (v3 := v_locals _ _).
  eapply ptriple_bind; [eapply ptriple_mono; [eapply (c_get _ v3)|done|intros a w Hw; exact Hw|done]|].
  intros l w [-> Hw]. revert w Hw.
  eapply ptriple_bind; [eapply ptriple_mono; [eapply (c_set _ _ v3)|done|intros a w Hw; exact Hw|done]|]. intros [].
  eapply ptriple_catch; [by apply exchange_spec|]. intros e.
  eapply (ptriple_bind _ _ _ _ _ _ _ (λ _, released)).
  - eapply ptriple_mono with (P' := released) (Q' := λ _, released) (E' := λ _ _, False); [|done..].
    apply (quietly_spec (P := released)); [done|apply stable_released|].
    apply link_call; [apply stable_released|intros; apply stable_released..|done|].
    intros w r w' _ Hw [(b & -> & ->)|(e' & -> & ->)]; done.
  - intros []. destruct (connection_lost e); (apply ptriple_fail; [apply stable_released|by right]).
Qed.
Lemma release_until_spec tries activated : tr hold_ok (release_until tries activated) (λ _, hold_ok) (λ _ _, False).
Proof.
  induction tries as [|tries IH]; cbn [release_until]; [by apply ptriple_ret; [apply stable_hold_ok|]|].
  eapply ptriple_catch; [|intros e; apply IH].
  eapply ptriple_mono; [apply hold_release_spec|done|by right|intros e w Hw; exact Hw].
Qed.
Lemma hold_ok_let_go w : hold_ok w → let_go w.
Proof.
  intros [(listener & pool & enabled & on & _ & _ & Hv)|(v & _ & Hm & _)]; [right|by left].
  by injection Hv as _ -> _ _ _.
Qed.
End Client.

(** ** The heartbeat thread *)

Section Heartbeat.
Notation tr := (link_triple heartbeat_thread).
Definition running (w : Link) : Prop := lk_started w = true.
Lemma stable_running pid : stable_link pid running.
Proof. intros w w' (_ & _ & pid' & _ & Hp). apply (lp_started _ _ _ Hp). Qed.
(** Under the lock, before the stop: no release can be sent. *)
Definition beating (w : Link) : Prop :=
  running w ∧ lk_lock w = Some heartbeat_thread ∧ lk_quit w = false.
Lemma stable_beating : stable_link heartbeat_thread beating.
Proof.
  intros w w' Ho (Hr & Hl & Hq). split; [by eapply stable_running|]. split; [by eapply stable_lock|].
  destruct Ho as (_ & _ & pid' & Hne & Hp). destruct (lk_quit w') eqn:Hq'; [|done].
  destruct (lp_quiet _ _ _ Hp Hq Hq') as [Hl'|Hr']; [by rewrite Hl in Hl'|by unfold running in Hr; rewrite Hr in Hr'].
Qed.
Lemma beats_spec fuel : tr running (beats fuel) (λ _ _, True) (λ _ _, True).
Proof.
  assert (∀ (m : Up), (∀ w, beating w → allowed heartbeat_thread (LSend m) w) →
    tr beating (call (LSend m)) (λ _, running) (λ _, running)) as Hsend.
  { intros m Hm. apply link_call; [apply stable_beating|intros; apply stable_running..|by intros; apply Hm|].
    intros w r w' _ (Hr & _) [(e & -> & ->)|[Hres ->]]; [done|].
    assert (running (sent heartbeat_thread m w)) by (by destruct m). by destruct Hres as [->|[e ->]]. }
  assert (∀ (P : Link → Prop), (∀ w, P w → running w) → stable_link heartbeat_thread P →
    tr P (call LUnlock) (λ _, running) (λ _ _, False)) as Hunlock.
  { intros P HP Hst. apply link_call; [done|intros; apply stable_running|by intros ? ? ?|done|].
    intros w r w' _ Hw [-> ->]. specialize (HP w Hw). by case_decide. }
  induction fuel as [|fuel IH]; cbn [beats]; [apply ptriple_ret; [apply stable_running|done]|].
  eapply (ptriple_bind _ _ _ _ _ _ _ (λ _, running)).
  { apply link_call; [apply stable_running|intros; apply stable_running|intros; apply stable_pure|done|].
    by intros w r w' _ Hw [-> ->]. }
  intros [|]; [apply ptriple_ret; [apply stable_running|done]|].
  eapply (ptriple_bind _ _ _ _ _ _ _ (λ _ w, running w ∧ lk_lock w = Some heartbeat_thread)).
  { apply link_call; [apply stable_running|intros; apply stable_and; [apply stable_running|apply stable_lock]|
      intros; apply stable_pure|done|]. by intros w r w' _ Hw (-> & _ & ->). }
  intros []. eapply (ptriple_bind _ _ _ _ _ _ _ (λ _, running)).
  2:{ intros [|]; [apply IH|]. apply ptriple_ret; [apply stable_running|done]. }
  apply (ptriple_finally _ _ _ _ _ _ _ _ (λ _, running) _ (λ _, running)).
  - eapply (ptriple_bind _ _ _ _ _ _ _ (λ (stop : bool) w, if stop then running w else beating w)).
    + apply link_call; [apply stable_and; [apply stable_running|apply stable_lock]| |intros; apply stable_running|done|].
      { intros [|]; [apply stable_running|apply stable_beating]. }
      intros w r w' Hok [Hr Hl] [-> ->]. destruct (lk_stop w) eqn:Hs; [done|]. split_and!; [done..|].
      apply not_true_iff_false. intros Hq. by rewrite (ok_beats _ Hok Hq Hr) in Hs.
    + intros [|]; [by apply ptriple_ret; [apply stable_running|]|].
      eapply ptriple_catch.
      * eapply ptriple_bind; [apply Hsend; by intros w (_ & _ & ?)|]. intros []. by apply ptriple_ret; [apply stable_running|].
      * intros e. destruct e; (apply ptriple_ret || apply ptriple_fail); (apply stable_running || done).
  - intros a. eapply ptriple_mono; [by apply (Hunlock running); [|apply stable_running]|done..].
  - intros e. eapply ptriple_mono; [by apply (Hunlock running); [|apply stable_running]|done..].
Qed.
Lemma hold_heartbeat_spec fuel : tr (λ _, True) (hold_heartbeat fuel) (λ _ _, True) (λ _ _, True).
Proof.
  unfold hold_heartbeat. apply (ptriple_bind _ _ _ _ _ _ _ (λ _, running)); [|intros []; apply beats_spec].
  apply link_call; [apply stable_pure|intros; apply stable_running|intros; apply stable_pure|done|].
  by intros w r w' _ _ (-> & Hs & ->).
Qed.
End Heartbeat.

(** ** The service *)

Section Service.
Notation tr := (link_triple service).
(** Facts about the grant that was sent, the release that was, the Guard, and the lease. *)
Definition SFact := bool → bool → bool → bool → Prop.
Definition none_sent : SFact := λ granted _ _ freed, granted = false ∧ freed = false.
Definition has_quit : SFact := λ _ quit _ _, quit = true.
Definition no_fact : SFact := λ _ _ _ _, True.
Definition both (F F' : SFact) : SFact := λ g q h f, F g q h f ∧ F' g q h f.
Definition guarded (b : bool) : SFact := λ _ _ guard _, guard = b.
Definition SAt (m : gset Z) (F : SFact) (w : Link) : Prop :=
  owns service m w ∧ F (lk_granted w) (lk_quit w) (lk_guard w) (was_freed w).
Definition kept (F : SFact) : Prop := ∀ m, stable_link service (SAt m F).
Lemma kept_facts (F : SFact) : (∀ g q q' h f, (q = true → q' = true) → F g q h f → F g q' h f) → kept F.
Proof.
  intros HF m w w' Ho [Hm Hw]. split; [by eapply stable_has|]. destruct Ho as (_ & _ & pid' & Hne & Hp).
  rewrite (lp_guard _ _ _ Hp), (lp_ungranted _ _ _ Hp), (lp_unfreed _ _ _ Hp) by done. eapply HF; [apply (lp_quit _ _ _ Hp)|done].
Qed.
Lemma kept_none_sent : kept none_sent.
Proof. by apply kept_facts. Qed.
Lemma kept_has_quit : kept has_quit.
Proof. apply kept_facts. unfold has_quit. auto. Qed.
Lemma kept_no_fact : kept no_fact.
Proof. by apply kept_facts. Qed.
Lemma kept_guarded b : kept (both none_sent (guarded b)).
Proof. apply kept_facts. by intros g q q' h f _ [? ?]. Qed.
#[local] Hint Resolve kept_none_sent kept_has_quit kept_no_fact kept_guarded : kept.

Lemma s_same {B} (c : LinkCall B) m F (Q : B → Prop) : kept F → (∀ w, allowed service c w) →
  (∀ w r w', link_sem service B c w r w' → lk_files w' = lk_files w ∧ lk_granted w' = lk_granted w ∧
     lk_quit w' = lk_quit w ∧ lk_guard w' = lk_guard w ∧ was_freed w' = was_freed w ∧ (∀ a, r = Ret a → Q a)) →
  tr (SAt m F) (call c) (λ a w, Q a ∧ SAt m F w) (λ _, SAt m F).
Proof.
  intros HF Hal Hc. apply link_call; [apply HF|intros; apply stable_and; [apply stable_pure|apply HF]|intros; apply HF|
    by intros; apply Hal|].
  intros w r w' _ [Hm Hw] Hs. destruct (Hc w r w' Hs) as (Hf & Hg & Hq & Hh & Hfr & Ha).
  assert (SAt m F w') as Hat by (split; [intros fd; by rewrite Hf|by rewrite Hg, Hq, Hh, Hfr]).
  destruct r as [a|e]; [|done]. split; [by apply Ha|done].
Qed.
(** Calls of the service that leave its descriptors and the grant alone. *)
Definition plain {B} (c : LinkCall B) : Prop :=
  match c with
  | HPeerPid | HFdinfoPid _ | HFstat _ | HNoTimeout | HHeartbeat | HFail => True
  | HSend m _ => is_grant m = false
  | _ => False
  end.
Lemma s_plain {B} (c : LinkCall B) m F : kept F → plain c →
  tr (SAt m F) (call c) (λ _, SAt m F) (λ _, SAt m F).
Proof.
  intros HF Hp. eapply ptriple_mono; [apply (s_same c m F (λ _, True) HF)|done|by intros a w [_ ?]|done].
  - intros w. destruct c; try done. by destruct m0.
  - intros w r w'. destruct c; try done; cbn [link_sem];
      try (intros [(b & _ & ->)|(e & _ & ->)]; by split_and!).
    destruct m0; [done|..]; (intros [(e & _ & ->)|[_ ->]]; by split_and!).
Qed.
Lemma s_close fd m F : kept F → fd ∈ m →
  tr (SAt m F) (call (LClose fd)) (λ _, SAt (m ∖ {[fd]}) F) (λ _ _, False).
Proof.
  intros HF Hfd. apply link_call; [apply HF|intros; apply HF|by intros ? ? ?|intros w _ [Hm _]; by eapply owns_has|].
  intros w r w' _ [Hm Hw] [Hr ->]. rewrite decide_True in Hr by (by eapply owns_has). subst r.
  split; [by apply owns_delete|by rewrite was_freed_event].
Qed.
Lemma s_suppressed_close fd m F : kept F → fd ∈ m →
  tr (SAt m F) (suppress_os (call (LClose fd))) (λ _, SAt (m ∖ {[fd]}) F) (λ _ _, False).
Proof. intros HF Hfd. eapply ptriple_catch; [by apply s_close|]. by intros e w []. Qed.
Lemma s_open (c : LinkCall Z) m F : kept F → (∀ w, allowed service c w) →
  (∀ w r w', link_sem service Z c w r w' → does (λ fd w', new_file service fd w w') w r w') →
  tr (SAt m F) (call c) (λ fd w, fd ∉ m ∧ SAt ({[fd]} ∪ m) F w) (λ _, SAt m F).
Proof.
  intros HF Hal Hc. apply link_call; [apply HF|intros; apply stable_and; [apply stable_pure|apply HF]|intros; apply HF|
    by intros; apply Hal|].
  intros w r w' _ [Hm Hw] Hs. destruct (Hc w r w' Hs) as [(fd & -> & Hn)|(e & -> & ->)]; [|done].
  destruct (owns_insert _ _ _ _ _ Hm Hn) as [? ?]. split; [done|]. split; [done|]. by destruct Hn as [_ ->].
Qed.
Lemma send_error_spec message m F : kept F → tr (SAt m F) (send_error message) (λ _, SAt m F) (λ _, SAt m F).
Proof.
  intros HF. eapply ptriple_catch; [by apply s_plain|]. intros e.
  destruct e; (apply ptriple_fail || apply ptriple_ret); (apply HF || done).
Qed.
Lemma attempt_spec {A} P (p : LProg A) Q E : (∀ a, stable_link service (Q a)) → (∀ e, stable_link service (E e)) →
  tr P p Q E → tr P (attempt p) (λ r w, match r with inl a => Q a w | inr e => E e w end) (λ _ _, False).
Proof.
  intros HQ HE Hp. eapply ptriple_catch.
  - eapply ptriple_bind; [exact Hp|]. intros a. by apply ptriple_ret.
  - intros e. by apply ptriple_ret.
Qed.

Lemma verify_spec fd m F : kept F → tr (SAt m F) (verify_peer_pidfd fd) (λ _, SAt m F) (λ _, SAt m F).
Proof.
  intros HF. unfold verify_peer_pidfd. eapply (ptriple_bind _ _ _ _ _ _ _ (λ _, SAt m F)).
  - eapply ptriple_catch.
    + eapply ptriple_bind; [by apply s_plain|]. intros p. eapply ptriple_bind; [by apply s_plain|]. intros q.
      apply ptriple_ret; [apply HF|done].
    + intros e. destruct e; apply ptriple_fail; (apply HF || done).
  - intros pids. destruct (_ || _); [apply ptriple_fail|apply ptriple_ret]; (apply HF || done).
Qed.
Lemma close_transferred_spec worker m F : kept F → opt_set worker ⊆ m →
  tr (SAt m F) (close_transferred worker) (λ _, SAt (m ∖ opt_set worker) F) (λ _ _, False).
Proof.
  intros HF Hw. destruct worker as [fd|]; cbn [close_transferred opt_set] in *; [apply s_close; [done|set_solver]|].
  apply ptriple_ret; [apply HF|]. intros w. by rewrite difference_empty_L.
Qed.
(** The one pidfd that is kept is answered; whatever else there was is closed. *)
Lemma from_peer_socket_spec worker F : kept F →
  tr (SAt (opt_set worker) F) (from_peer_socket worker) (λ pidfd, SAt {[pidfd]} F) (λ _, SAt ∅ F).
Proof.
  intros HF. unfold from_peer_socket.
  apply (ptriple_bind _ _ _ _ _ _ _ (λ r w, if r.2 : bool then r.1 ∉ opt_set worker ∧ SAt ({[r.1]} ∪ opt_set worker) F w
    else worker = Some r.1 ∧ SAt (opt_set worker) F w)).
  - apply (ptriple_catch _ _ _ _ _ _ _ _ _ (λ _, SAt (opt_set worker) F)).
    + eapply ptriple_catch.
      * eapply ptriple_bind; [apply (s_open HPeerPidfd); [done|done|intros w r w' H; exact H]|].
        intros fd w [Hfd Hw]. revert w Hw. by apply ptriple_ret; [apply HF|].
      * intros e. destruct e; try (by apply ptriple_fail; [apply HF|]).
        destruct (negb _); [by apply ptriple_fail; [apply HF|]|].
        destruct worker as [fd|]; [|by apply ptriple_fail; [apply HF|]].
        eapply ptriple_bind; [by apply verify_spec|]. intros []. by apply ptriple_ret; [apply HF|].
    + intros e. eapply ptriple_bind; [eapply ptriple_mono; [by apply (close_transferred_spec worker (opt_set worker) F)|done..]|].
      intros []. apply ptriple_fail; [apply HF|]. intros w Hw.
      by replace (opt_set worker ∖ opt_set worker) with (∅ : gset Z) in Hw by set_solver.
  - intros [pidfd [|]] w [Hp Hw]; cbn [fst snd] in *; revert w Hw.
    + eapply ptriple_bind.
      { eapply ptriple_mono; [by apply (close_transferred_spec worker ({[pidfd]} ∪ opt_set worker) F); [|set_solver]|done|
          intros a w Hw; exact Hw|done]. }
      intros []. apply ptriple_ret; [apply HF|]. intros w Hw.
      by replace (({[pidfd]} ∪ opt_set worker) ∖ opt_set worker) with ({[pidfd]} : gset Z) in Hw by set_solver.
    + subst worker. eapply (ptriple_bind _ _ _ _ _ _ _ (λ _, SAt {[pidfd]} F)); [by apply ptriple_ret; [apply HF|]|].
      intros []. by apply ptriple_ret; [apply HF|].
Qed.
(** A refused claim leaves the pidfd with the handler, a granted one leaves the listener. *)
Lemma dispatch_spec digest request pidfd :
  tr (SAt {[pidfd]} none_sent) (server_dispatch digest request pidfd)
    (λ a, SAt {[a.2]} none_sent) (λ _, SAt {[pidfd]} none_sent).
Proof.
  unfold server_dispatch. destruct (negb _); [by apply ptriple_fail; [apply kept_none_sent|]|].
  eapply (ptriple_bind _ _ _ _ _ _ _ (λ g, SAt {[pidfd]} (both none_sent (guarded (bool_decide (is_Some g)))))).
  { apply link_call; [apply kept_none_sent|intros; apply kept_guarded|intros; apply kept_none_sent|done|].
    intros w r w' _ [Hm Hw] (-> & g & -> & Hg). by split_and!. }
  intros guard. eapply (ptriple_bind _ _ _ _ _ _ _ (λ a w, is_Some guard ∧ SAt {[a.2]} none_sent w)).
  { apply link_call; [apply kept_guarded|intros; apply stable_and; [apply stable_pure|apply kept_none_sent]|
      intros; apply kept_none_sent| |].
    - intros w _ [Hm _]. eapply owns_has; [done|set_solver].
    - intros w r w' _ (Hm & Hn & Hg) [([[spec pools] fd] & -> & Hguard & Hf)|(e & -> & ->)]; [|by split].
      unfold guarded in Hg. rewrite Hguard in Hg. symmetry in Hg. apply bool_decide_eq_true in Hg.
      split; [done|]. destruct (owns_insert service _ fd _ _ (owns_delete _ _ pidfd _ Hm) Hf) as [_ Ho]. split.
      + simpl. by replace ({[fd]} ∪ {[pidfd]} ∖ {[pidfd]} : gset Z) with ({[fd]} : gset Z) in Ho by set_solver.
      + by destruct Hf as [_ ->]. }
  intros [[spec pools] fd] w [[[dead enabled] ->] Hw]. revert w Hw. by apply ptriple_ret; [apply kept_none_sent|].
Qed.
Lemma open_pool_fd_spec spec m F : kept F →
  tr (SAt m F) (open_pool_fd spec) (λ fd w, fd ∉ m ∧ SAt ({[fd]} ∪ m) F w) (λ _, SAt m F).
Proof.
  intros HF. unfold open_pool_fd.
  eapply ptriple_bind; [apply (s_open (HOpenPool spec)); [done|done|intros w r w' H; exact H]|].
  intros fd w [Hfd Hw]. revert w Hw. eapply (ptriple_bind _ _ _ _ _ _ _ (λ _, SAt ({[fd]} ∪ m) F)).
  - eapply (ptriple_catch _ _ _ _ _ _ _ _ _ (λ _, SAt ({[fd]} ∪ m) F)).
    + eapply ptriple_bind; [by apply s_plain|]. intros identity.
      case_decide; [apply ptriple_ret|apply ptriple_fail]; (apply HF || done).
    + intros e. eapply ptriple_bind.
      { eapply ptriple_mono; [apply (s_close fd ({[fd]} ∪ m) F HF); set_solver|done|intros a w Hw; exact Hw|done]. }
      intros []. apply ptriple_fail; [apply HF|]. intros w Hw.
      by replace (({[fd]} ∪ m) ∖ {[fd]}) with m in Hw by set_solver.
  - intros []. by apply ptriple_ret; [apply HF|].
Qed.
(** A lease is only given back when the claimant cannot reach the pool. *)
Lemma release_or_fail_spec activated (F : SFact) :
  kept F → (∀ w, F (lk_granted w) (lk_quit w) (lk_guard w) (was_freed w) → lk_quit w = true ∨ lk_granted w = false) →
  tr (SAt ∅ F) (release_or_fail activated) (λ _, SAt ∅ no_fact) (λ _, SAt ∅ no_fact).
Proof.
  intros HF Hacc. unfold release_or_fail. eapply ptriple_catch.
  - eapply (ptriple_bind _ _ _ _ _ _ _ (λ _, SAt ∅ no_fact)).
    + apply link_call; [apply HF|intros; apply kept_no_fact..|intros w _ [_ Hw]; split; [done|by apply Hacc]|].
      intros w r w' _ [Hm Hw] [(e & -> & ->)|[[->|(e & ->)] ->]]; by split.
    + intros []. by apply ptriple_ret; [apply kept_no_fact|].
  - intros e. destruct (is_service_error e).
    + eapply ptriple_bind; [by apply send_error_spec, kept_no_fact|]. intros []. by apply ptriple_ret; [apply kept_no_fact|].
    + eapply ptriple_bind; [by apply s_plain; [apply kept_no_fact|]|]. intros []. by apply ptriple_ret; [apply kept_no_fact|].
Qed.
Lemma s_receive m F : kept F →
  tr (SAt m F) (call (HReceive false))
    (λ a w, a.2 = None ∧ (∀ activated, a.1 = URelease activated → SAt m has_quit w) ∧ SAt m F w) (λ _, SAt m F).
Proof.
  intros HF. apply link_call; [apply HF| |intros; apply HF|done|].
  { intros a. apply stable_and; [apply stable_pure|]. apply stable_and; [|apply HF].
    intros w w' Ho Hq activated Ha. eapply kept_has_quit; [done|by eapply Hq]. }
  intros w r w' Hok [Hm Hw] [(e & -> & ->)|(msg & rest & Hup & Hc)]; [done|].
  destruct Hc as [(e & -> & ->)|[[-> ->]|[? _]]]; [done| |done]. split; [done|]. split; [|done].
  intros activated Ha. simpl in Ha. subst msg. split; [done|]. simpl. unfold has_quit.
  eapply (ok_up _ Hok activated). rewrite Hup. by left.
Qed.
Lemma await_release_spec fuel : tr (SAt ∅ no_fact) (await_release fuel) (λ _, SAt ∅ no_fact) (λ _, SAt ∅ no_fact).
Proof.
  pose proof kept_no_fact as HF. induction fuel as [|fuel IH]; cbn [await_release]; [by apply ptriple_ret; [apply HF|]|].
  eapply ptriple_bind.
  { eapply ptriple_mono; [apply (attempt_spec (SAt ∅ no_fact) receive_hold
      (λ m w, SAt ∅ no_fact w ∧ (is_Some m → SAt ∅ has_quit w)) (λ _, SAt ∅ no_fact))|done|intros a w Hw; exact Hw|done].
    - intros m. apply stable_and; [apply HF|]. intros w w' Ho Hq Hi. eapply kept_has_quit; eauto.
    - intros; apply HF.
    - unfold receive_hold. eapply ptriple_bind; [by apply s_receive|]. intros [m fd] w (_ & Hq & Hw).
      cbn [fst snd] in *. destruct m as [claim pidfd| |activated].
      + revert w Hq Hw. intros w _ Hw. revert w Hw. by apply ptriple_fail; [apply HF|].
      + revert w Hq Hw. intros w _ Hw. revert w Hw. apply ptriple_ret; [apply HF|]. intros w Hw. split; [done|]. by intros [].
      + assert (SAt ∅ has_quit w) as Hw' by (by eapply Hq). clear Hq Hw. revert w Hw'.
        apply ptriple_ret; [apply kept_has_quit|]. intros w Hw. split; [by destruct Hw|done]. }
  intros [[activated|]|e].
  - intros w [_ Hq]. specialize (Hq (mk_is_Some _ _ eq_refl)). revert w Hq. eapply ptriple_bind.
    + apply (release_or_fail_spec activated has_quit kept_has_quit). intros w Hw. by left.
    + intros [|]; [|by apply ptriple_ret; [apply HF|]]. eapply ptriple_catch; [by apply s_plain|]. intros e.
      destruct e; (apply ptriple_fail || apply ptriple_ret); (apply HF || done).
  - intros w [Hw _]. revert w Hw. eapply ptriple_bind; [by apply s_plain|]. intros []. apply IH.
  - destruct (connection_lost e); [by apply ptriple_ret; [apply HF|]|].
    destruct (is_protocol_error e); [|by apply ptriple_fail; [apply HF|]].
    eapply ptriple_bind; [by apply send_error_spec|]. intros []. apply IH.
Qed.
Lemma s_grant grant fds m :
  tr (SAt m none_sent) (call (HSend (DGranted grant) fds)) (λ _, SAt m no_fact) (λ _, SAt m no_fact).
Proof.
  apply link_call; [apply kept_none_sent|intros; apply kept_no_fact..|by intros w _ (_ & _ & ?)|].
  intros w r w' _ [Hm Hw] [(e & -> & ->)|[[->|(e & ->)] ->]]; by split.
Qed.
Lemma deliver_grant_spec fuel grant listener :
  tr (SAt {[listener]} none_sent) (deliver_grant fuel grant listener) (λ _, SAt ∅ no_fact) (λ _, SAt ∅ no_fact).
Proof.
  pose proof kept_no_fact as HF. unfold deliver_grant. eapply ptriple_bind.
  { eapply ptriple_mono; [apply attempt_spec; [| |by apply open_pool_fd_spec, kept_none_sent]|done|intros a w Hw; exact Hw|done].
    - intros fd. apply stable_and; [apply stable_pure|apply kept_none_sent].
    - intros e. apply kept_none_sent. }
  intros [pool|e].
  - intros w [Hp Hw]. revert w Hw. eapply (ptriple_bind _ _ _ _ _ _ _ (λ _, SAt ∅ no_fact)); [|intros []; apply await_release_spec].
    assert (∀ A (Q : A → Prop), tr (SAt ({[pool]} ∪ {[listener]}) no_fact)
      (suppress_os (call (LClose pool)) ;; suppress_os (call (LClose listener))) (λ _, SAt ∅ no_fact) (λ _, SAt ∅ no_fact)) as Hclose.
    { intros _ _. eapply ptriple_bind.
      - eapply ptriple_mono; [apply (s_suppressed_close pool ({[pool]} ∪ {[listener]}) no_fact HF); set_solver|done|
          intros a w Hw; exact Hw|done].
      - intros []. eapply ptriple_mono; [apply (s_suppressed_close listener (({[pool]} ∪ {[listener]}) ∖ {[pool]}) no_fact HF); set_solver|
          done| |done].
        intros [] w Hw.
        by replace (({[pool]} ∪ {[listener]}) ∖ {[pool]} ∖ {[listener]}) with (∅ : gset Z) in Hw by set_solver. }
    eapply (ptriple_finally _ _ _ _ _ _ _ _ (λ _, SAt ({[pool]} ∪ {[listener]}) no_fact) _ (λ _, SAt ({[pool]} ∪ {[listener]}) no_fact)).
    + eapply ptriple_mono; [eapply (ptriple_catch _ _ _ _ _ _ _ (λ _, SAt ({[pool]} ∪ {[listener]}) no_fact) (λ _ _, False)
        (λ _, SAt ({[pool]} ∪ {[listener]}) no_fact))|done|done|done].
      * eapply ptriple_bind; [eapply ptriple_mono; [by apply s_plain; [apply kept_none_sent|]|done|intros a w Hw; exact Hw|]|].
        { intros e w [Hm _]. by split. }
        intros []. apply s_grant.
      * intros e. by apply ptriple_ret; [apply HF|].
    + intros a. by apply (Hclose unit (λ _, True)).
    + intros e. by apply (Hclose unit (λ _, True)).
  - eapply ptriple_bind.
    { eapply ptriple_mono; [apply (s_close listener {[listener]} none_sent kept_none_sent); set_solver|done|
        intros a w Hw; exact Hw|done]. }
    intros []. rewrite difference_diag_L. eapply ptriple_bind.
    + apply (release_or_fail_spec false none_sent kept_none_sent). intros w [Hw _]. by right.
    + intros committed. by apply send_error_spec.
Qed.
Lemma receive_claim_spec :
  tr (SAt ∅ none_sent) receive_claim (λ a, SAt (opt_set a.2) none_sent) (λ _, SAt ∅ none_sent).
Proof.
  pose proof kept_none_sent as HF. unfold receive_claim.
  eapply (ptriple_bind _ _ _ _ _ _ _ (λ a w, (is_Some a.2 → ∃ c b, a.1 = UClaim c b) ∧ SAt (opt_set a.2) none_sent w)).
  { apply link_call; [apply HF|intros; apply stable_and; [apply stable_pure|apply HF]|intros; apply HF|done|].
    intros w r w' _ [Hm Hw] [(e & -> & ->)|(msg & rest & Hup & Hc)]; [done|].
    destruct Hc as [(e & -> & ->)|[[-> ->]|(_ & claim & fd & -> & -> & Hf)]]; [done|by split; [intros []|]|].
    destruct (owns_insert _ _ _ (up_with rest w) _ Hm Hf) as [_ Ho]. split; [by intros _; eexists _, _|]. split.
    - simpl. by rewrite union_empty_r_L in Ho.
    - by destruct Hf as [_ ->]. }
  intros [m fd] w [Hi Hw]. cbn [fst snd] in *. destruct m as [claim pidfd| |activated].
  - clear Hi. revert w Hw. by apply ptriple_ret; [apply HF|].
  - destruct fd as [fd|]; [destruct Hi as (? & ? & [=]); by eexists|]. revert w Hw. by apply ptriple_fail; [apply HF|].
  - destruct fd as [fd|]; [destruct Hi as (? & ? & [=]); by eexists|]. revert w Hw. by apply ptriple_fail; [apply HF|].
Qed.
Lemma handle_spec digest fuel :
  tr (SAt ∅ none_sent) (handle digest fuel) (λ _, SAt ∅ no_fact) (λ _, SAt ∅ no_fact).
Proof.
  pose proof kept_none_sent as HN. pose proof kept_no_fact as HF.
  assert (∀ m w, SAt m none_sent w → SAt m no_fact w) as Hweak by (by intros m w [? _]).
  assert (∀ message, tr (SAt ∅ none_sent) (send_error message) (λ _, SAt ∅ no_fact) (λ _, SAt ∅ no_fact)) as Hsend.
  { intros message. eapply ptriple_mono; [by apply (send_error_spec message ∅ none_sent)|done|by intros ? w; apply Hweak..]. }
  unfold handle. eapply ptriple_bind.
  { eapply ptriple_mono; [apply attempt_spec; [| |apply receive_claim_spec]|done|intros a w Hw; exact Hw|done]; intros; apply HN. }
  intros [[request worker]|e].
  2:{ destruct (connection_lost e); [apply ptriple_ret; [apply HN|apply Hweak]|].
      destruct (is_protocol_error e); [apply Hsend|apply ptriple_fail; [apply HN|apply Hweak]]. }
  eapply ptriple_bind.
  { eapply ptriple_mono; [apply attempt_spec; [| |apply (from_peer_socket_spec worker none_sent HN)]|done|
      intros a w Hw; exact Hw|done]; intros; apply HN. }
  intros [pidfd|e]; [|apply Hsend]. eapply ptriple_bind.
  { eapply ptriple_mono; [apply attempt_spec; [| |apply (dispatch_spec digest request pidfd)]|done|
      intros a w Hw; exact Hw|done]; intros; apply HN. }
  intros [[grant listener]|e]; [apply deliver_grant_spec|].
  eapply ptriple_bind.
  { eapply ptriple_mono; [apply (s_suppressed_close pidfd {[pidfd]} none_sent HN); set_solver|done|intros a w Hw; exact Hw|done]. }
  intros []. rewrite difference_diag_L. apply Hsend.
Qed.
End Service.

(** ** The three together *)

Definition link_start (guard : bool) : Link :=
  mkLink [] [] ∅ no_locals guard None false false false false false [].
Lemma link_start_ok guard : link_ok (link_start guard).
Proof. by split; try set_solver. Qed.

Section Parties.
Context (realpath : string → string) (page : Z).
Notation party := (party realpath page).
(** What each of the three has at its end. *)
Definition ends (pid : nat) (w : Link) : Prop :=
  if decide (pid = client) then let_go w
  else if decide (pid = service) then owns service ∅ w else True.
Lemma claimant_spec request adopts activated tries guard :
  link_triple client (λ w, w = link_start guard) (party (PClaimant request adopts activated tries))
    (λ _, let_go) (λ _, let_go).
Proof.
  intros w ->. assert (At ∅ fresh (link_start guard)) as Hw by done. revert Hw. generalize (link_start guard).
  cbn [party]. eapply ptriple_bind; [apply client_claim_spec|]. intros layout.
  eapply (ptriple_bind _ _ _ _ _ _ _ (λ _, held)).
  - destruct adopts; [|by apply ptriple_ret; [apply stable_held|]].
    eapply ptriple_catch; [apply hand_listener_spec|]. intros e. by apply ptriple_ret; [apply stable_held|].
  - intros []. eapply ptriple_mono; [apply release_until_spec|by left|intros a w; apply hold_ok_let_go|done].
Qed.

(** C5: A claimant, its heartbeat thread and the thread of the service that answers it, with any
    message lost, any call raising and any of the three dying anywhere: the service gives a
    lease back only when the claimant cannot reach the pool, which it never can afterwards, nor
    after its release; no heartbeat follows a release; every descriptor is closed by the process that has it and
    so at most once; a handler that has ended has none left; a claimant that has ended, however
    it ended, has none left either, unless its mapping could not be given up, and then it has
    released nothing. *)
Theorem session_safe request adopts activated tries periods digest messages guard ps w :
  rtc (pstep link_sem link_dies)
    ({[client := party (PClaimant request adopts activated tries);
       heartbeat_thread := party (PHeartbeat periods);
       service := party (PHandler digest messages)]}, link_start guard) (ps, w) →
  Forall good (lk_events w) ∧
  (was_freed w = true ∨ lk_quit w = true → lk_access w = false) ∧
  (∀ r fd, ps !! service = Some (Done r) → lk_files w !! fd ≠ Some service) ∧
  (∀ r, ps !! client = Some (Done r) →
     (∀ fd, lk_files w !! fd ≠ Some client) ∨ (lk_access w = true ∧ lk_quit w = false)).
Proof.
  intros Hrun.
  destruct (run_safe link_sem link_dies link_ok link_promise (λ pid _, ends pid) (λ pid _, ends pid) _ _ _ _
    link_death_keeps Hrun (link_start_ok guard)) as [Hok Hps].
  { intros pid p Hp. rewrite !insert_union_singleton_l, !lookup_union_Some_raw in Hp.
    rewrite !lookup_singleton_Some, !lookup_singleton_None in Hp.
    destruct Hp as [[<- <-]|(Hc & [[<- <-]|(Hh & [<- <-])])].
    - by eapply (claimant_spec request adopts activated tries guard).
    - by apply hold_heartbeat_spec.
    - eapply safe_mono; [| |by apply (handle_spec digest messages)]; by intros ? w1 [? _]. }
  split_and!; [apply Hok|intros [?|?]; [by apply freed_no_access|by apply Hok]| |].
  - intros r fd Hr Hfd. assert (owns service ∅ w) as Ho.
    { specialize (Hps _ _ Hr w (rtc_refl _ _)). by destruct r. }
    by apply Ho in Hfd; apply not_elem_of_empty in Hfd.
  - intros r Hr. assert (let_go w) as [Ho|Ha].
    { specialize (Hps _ _ Hr w (rtc_refl _ _)). by destruct r. }
    + left. intros fd Hfd. by apply Ho in Hfd; apply not_elem_of_empty in Hfd.
    + right. split; [done|]. apply not_true_iff_false. intros Hq. by rewrite (ok_quit _ Hok Hq) in Ha.
Qed.
End Parties.
