(* ===== verification/SessionDemo.v ===== *)
(** * The session of a claimant: a run

    An executable reading of the calls of [Session], given what the system answers, and a
    session from the claim to the release with a heartbeat in between. *)

From Stdlib Require Import ZArith Lia.
From S2P Require Import Prelude Snapshot Interact Protocol Session SessionThm ProtocolThm.

(** What the system chooses: an error, descriptors, a pid, the Guard, what it gives to the
    claimant; or nothing. *)
Inductive Reply :=
  | RErr (e : exn) | ROk | RFds (fds : list Z) | RPid (pid : Z)
  | RGuard (guard : option (list string * bool)) | RClaimed (claimed : PoolSpec * list PoolDescriptor * Z).

Definition reply_with {A} (a : A) (w : Link) : option (result A * Link) := Some (Ret a, w).
Definition unopened (fd : Z) (w : Link) : bool := bool_decide (lk_files w !! fd = None).
Definition close_event (pid : nat) (fd : Z) (w : Link) : Link :=
  event (EvClose (bool_decide (lk_files w !! fd = Some pid))) (files_with (delete fd (lk_files w)) w).
Definition link_exec (pid : nat) {B} (c : LinkCall B) (a : Reply) (w : Link) : option (result B * Link) :=
  match a with
  | RErr e =>
      match c with
      | LConnect | LAddress | LHangUp | HFstat _ | HNoTimeout | HPeerPidfd | LPidfdOpen | LSend _ | LReceive _ =>
          Some (Raise e, w)
      | _ => None
      end
  | _ =>
  match c in LinkCall B return option (result B * Link) with
  | LConnect | LAddress | LHangUp | HNoTimeout | HHeartbeat | HFail => reply_with tt w
  | LPidfdOpen | HPeerPidfd | HOpenPool _ =>
      match a with
      | RFds [fd] => if unopened fd w then reply_with fd (files_with (<[fd := pid]> (lk_files w)) w) else None
      | _ => None
      end
  | LSend m => reply_with tt (sent pid m w)
  | LReceive with_fds =>
      match a, lk_down w with
      | RFds fds, (m, count) :: rest =>
          if bool_decide (NoDup fds) && forallb (λ fd, unopened fd w) fds &&
             (if with_fds then bool_decide (length fds = count) else bool_decide (fds = []))
          then reply_with (m, fds) (files_with (list_to_map ((λ fd, (fd, pid)) <$> fds) ∪ lk_files w) (down_with rest w))
          else None
      | _, _ => None
      end
  | LAttach _ => reply_with tt (access_with true w)
  | LDetach fd =>
      reply_with tt (event (EvClose (bool_decide (lk_files w !! fd = Some pid)))
                       (access_with false (files_with (delete fd (lk_files w)) w)))
  | LStart => reply_with tt (started w)
  | LAdopt fd => reply_with tt (files_with (delete fd (lk_files w)) w)
  | LGet => reply_with (lk_locals w) w
  | LSet l => reply_with tt (locals_with l w)
  | LStop => reply_with tt (stopped w)
  | LLock => if bool_decide (lk_lock w = None) then reply_with tt (lock_with (Some pid) w) else None
  | LUnlock => reply_with tt (if decide (lk_lock w = Some pid) then lock_with None w else w)
  | LBegin => if lk_started w then reply_with tt w else None
  | LWait | LIsStopped => reply_with (lk_stop w) w
  | LClose fd => if decide (lk_files w !! fd = Some pid) then reply_with tt (close_event pid fd w) else None
  | HReceive with_fds =>
      match a, lk_up w with
      | RFds [fd], UClaim claim true :: rest =>
          if with_fds && unopened fd w
          then reply_with (UClaim claim true, Some fd) (files_with (<[fd := pid]> (lk_files w)) (up_with rest w)) else None
      | _, m :: rest => reply_with (m, None) (up_with rest w)
      | _, [] => None
      end
  | HSend m fds =>
      let after := down_with (lk_down w ++ [(m, length fds)]) w in
      reply_with tt (match m with DGranted _ => granted after | _ => after end)
  | HPeerPid => match a with RPid pid => reply_with pid w | _ => None end
  | HFdinfoPid _ => match a with RPid pid => reply_with (Some pid) w | _ => None end
  | HFstat _ => match a with RFds [device; inode] => reply_with (device, inode) w | _ => None end
  | HGuard =>
      match a with
      | RGuard g => if bool_decide (bool_decide (is_Some g) = lk_guard w) then reply_with g w else None
      | _ => None
      end
  | HClaim _ pidfd =>
      match a with
      | RClaimed a => if lk_guard w && bool_decide (delete pidfd (lk_files w) !! a.2 = None)
          then reply_with a (files_with (<[a.2 := pid]> (delete pidfd (lk_files w))) w) else None
      | _ => None
      end
  | HRelease _ => reply_with tt (freed w)
  end
  end.

(** What the executable reading does, the system may do. *)
Lemma does_ret {B} (f : B → Link → Prop) w b w' : f b w' → does f w (Ret b) w'.
Proof. intros Hb. left. by exists b. Qed.
Lemma does_raise {B} (f : B → Link → Prop) w e : does f w (Raise e) w.
Proof. right. by exists e. Qed.
Lemma unopened_all fds w : forallb (λ fd, unopened fd w) fds = true → ∀ fd, fd ∈ fds → lk_files w !! fd = None.
Proof.
  rewrite forallb_forall. intros H fd Hfd. apply list_elem_of_In in Hfd. by apply H, bool_decide_eq_true in Hfd.
Qed.
Lemma link_exec_sound pid B (c : LinkCall B) a w r w' :
  link_exec pid c a w = Some (r, w') → link_sem pid B c w r w'.
Proof.
  unfold link_exec, reply_with. intros H. destruct c; cbn [link_sem]; repeat case_match; simplify_eq;
    repeat match goal with
    | H : _ && _ = true |- _ => apply andb_true_iff in H as [? ?]
    | H : forallb _ _ = true |- _ => pose proof (unopened_all _ _ H); clear H
    | H : unopened _ _ = true |- _ => apply bool_decide_eq_true in H
    | H : bool_decide _ = true |- _ => apply bool_decide_eq_true in H
    end;
    try (by apply does_raise); try (by apply does_ret); try (by left; eexists); try (by split_and!); try (by left);
    try (by right; split; [left|]); try (by split; [|eexists]);
    try (right; do 2 eexists; split; [reflexivity|]; right; left; split; reflexivity);
    try (right; do 3 eexists; split; [reflexivity|]; right; eexists; split; [reflexivity|]; by split_and!).
  right. do 2 eexists. split; [reflexivity|]. do 2 right. split; [done|]. do 2 eexists.
  split; [reflexivity|]. split; [reflexivity|]. by split.
Qed.

(** ** Schedules *)

Definition session_turn (ps : gmap nat (LProg unit)) (w : Link) (pid : nat) (a : Reply)
    : option (gmap nat (LProg unit) * Link) :=
  match ps !! pid with
  | Some (Call c k) =>
      match link_exec pid c a w with
      | Some (r, w') => Some (<[pid := k r]> ps, w')
      | None => None
      end
  | _ => None
  end.
Fixpoint session_play (sched : list (nat * Reply)) (ps : gmap nat (LProg unit)) (w : Link)
    : option (gmap nat (LProg unit) * Link) :=
  match sched with
  | [] => Some (ps, w)
  | (pid, a) :: sched =>
      match session_turn ps w pid a with Some (ps, w) => session_play sched ps w | None => None end
  end.
Lemma session_play_sound sched ps w ps' w' :
  session_play sched ps w = Some (ps', w') → rtc (pstep link_sem link_dies) (ps, w) (ps', w').
Proof.
  revert ps w. induction sched as [|[pid a] sched IH]; intros ps w; simpl; [by intros [= <- <-]|].
  unfold session_turn. destruct (ps !! pid) as [[r|B c k]|] eqn:Hp; [done| |done].
  destruct (link_exec pid c a w) as [[r w1]|] eqn:He; [|done]. intros H.
  eapply rtc_l; [|by apply IH]. eapply pstep_call; [done|]. by eapply link_exec_sound.
Qed.

Module SessionDemo.
Definition request : Claim := mkClaim 0 "digest" GrantDemo.tier "127.0.0.1" 7000 (Some "one").
Definition threads : gmap nat (LProg unit) :=
  {[client := party id 4096 (PClaimant request false true 2);
    heartbeat_thread := party id 4096 (PHeartbeat 3);
    service := party id 4096 (PHandler "digest" 3)]}.
(** The claim crosses with a pidfd the kernel does not replace; the pool and the listener cross
    back; one heartbeat is sent and read; the release is answered. *)
Definition c (a : Reply) : nat * Reply := (client, a).
Definition h (a : Reply) : nat * Reply := (heartbeat_thread, a).
Definition s (a : Reply) : nat * Reply := (service, a).
Definition schedule : list (nat * Reply) :=
  [c ROk; c (RFds [5%Z]); c ROk; c ROk;
   s (RFds [20%Z]); s (RErr (OSError 92)); s (RPid 41); s (RPid 41);
   s (RGuard (Some ([], true))); s (RClaimed (GrantDemo.spec, GrantDemo.pools, 21%Z));
   s (RFds [22%Z]); s (RFds [3; 4]%Z); s ROk; s ROk; s ROk; s ROk;
   c (RFds [6; 7]%Z); c ROk; c ROk; c ROk; c ROk; c ROk; c ROk;
   h ROk; h ROk; h ROk; c ROk; h ROk; h ROk; h ROk; s ROk; s ROk;
   c ROk; c ROk; c ROk; c ROk; c ROk; c ROk; c ROk; c ROk;
   h ROk; c ROk; c ROk; s ROk; s ROk; s ROk; c (RFds []); c ROk; c ROk].
Definition final := session_play schedule threads (link_start true).
Definition end_threads : gmap nat (LProg unit) := match final with Some (ps, _) => ps | None => ∅ end.
Definition end_link : Link := match final with Some (_, w) => w | None => link_start true end.
Lemma session_run : rtc (pstep link_sem link_dies) (threads, link_start true) (end_threads, end_link).
Proof.
  apply (session_play_sound schedule). change (final = Some (end_threads, end_link)).
  assert (match final with Some _ => true | None => false end = true) as Hs by (vm_compute; reflexivity).
  unfold end_threads, end_link. by destruct final as [[ps w]|].
Qed.
(** All three end; the lease went back once, after the heartbeat. *)
Lemma session_safe_witness :
  end_threads !! client = Some (Done (Ret tt)) ∧ end_threads !! service = Some (Done (Ret tt)) ∧
  lk_events end_link = [EvClose true; EvClose true; EvClose true; EvBeat false; EvClose true; EvClose true; EvFreed false] ∧
  lk_access end_link = false ∧ (∀ fd, lk_files end_link !! fd ≠ Some service).
Proof.
  pose proof (session_safe id 4096 request false true 2 3 "digest" 3 true end_threads end_link session_run)
    as (_ & Haccess & Hservice & _).
  assert (end_threads !! service = Some (Done (Ret tt))) as Hs by (vm_compute; reflexivity).
  split_and!; [vm_compute; reflexivity|exact Hs|vm_compute; reflexivity| |].
  - apply Haccess. left. vm_compute. reflexivity.
  - intros fd. exact (Hservice _ fd Hs).
Defined.
End SessionDemo.
