(* ===== verification/Service.v ===== *)
(** * The service

    The daemon of [src/src/kvcr/service/server.py] around its Guards: the registry that builds
    the pool groups and gives them back ([_PoolRegistry]), the server and the lifecycle wrapper
    ([_ThreadingUnixServer], [_KVCRService]) and [main]; with a Guard as it is seen from outside
    ([finish_close] and [close] of [guard.py]).  Every call outside (a Guard's operation, a
    socket, a file) is recorded with its answer, which the environment chooses from all that
    happened before.  Probes and the command line are in [Daemon]. *)

From Stdlib Require Import ZArith Lia.
From S2P Require Import Prelude.

(** ** Calls and state *)

Inductive Act :=
  (** the pool directory, and the pool groups by rank *)
  | APoolDir | APurge | AAllocate (rank : Z) | ABuild (rank : Z) | AOwnerClose (rank : Z) | AStart (rank : Z)
  | ABeginClose (rank : Z) | AStarted (rank : Z) | AJoin (rank : Z) | AAlive (rank : Z) | AClosedWell (rank : Z)
  | AReclaim (rank : Z) | ABarrier (rank : Z) | ARefuse
  | AClaim (rank : Z) | ARelease (rank : Z) | AHeartbeat (rank : Z) | AAbort (rank : Z)
  (** the server and its socket *)
  | APidfd | APidfdClose | ASocketDir | ALstat | AConnect | AProbeClose | AUnlink (identity : Z * Z)
  | AServer | ASocketStat | AServe | AShutdown | AConnections | AServerClose
  (** [main] *)
  | AHealth | AHealthClose.
(** What a call answers besides raising: nothing, a flag, or the identity of a file. *)
Inductive Answered := Nothing | Flag (b : bool) | Identity (i : Z * Z).
#[export] Instance Answered_eq_dec : EqDecision Answered.
Proof. solve_decision. Defined.
#[export] Instance Act_eq_dec : EqDecision Act.
Proof. solve_decision. Defined.
Definition History := list (Act * result Answered).

(** The registry ([_guards] in the order of insertion, [_guard_count], [_refusing]), the server
    ([_fatal_error]) if there is one, and the service ([_socket_identity], [_closed]); the
    history of calls. *)
Record Service := mkService {
  sv_guards : list Z;
  sv_guard_count : Z;
  sv_refusing : bool;
  sv_server : bool;
  sv_fatal_error : option exn;
  sv_socket_identity : Z * Z;
  sv_closed : bool;
  sv_acts : History }.
Definition set_guards (v : list Z) (s : Service) : Service :=
  mkService v (sv_guard_count s) (sv_refusing s) (sv_server s) (sv_fatal_error s) (sv_socket_identity s) (sv_closed s) (sv_acts s).
Definition refuse_new (s : Service) : Service :=
  mkService (sv_guards s) (sv_guard_count s) true (sv_server s) (sv_fatal_error s) (sv_socket_identity s) (sv_closed s) (sv_acts s).
Definition set_server (s : Service) : Service :=
  mkService (sv_guards s) (sv_guard_count s) (sv_refusing s) true (sv_fatal_error s) (sv_socket_identity s) (sv_closed s) (sv_acts s).
Definition set_fatal_error (e : exn) (s : Service) : Service :=
  mkService (sv_guards s) (sv_guard_count s) (sv_refusing s) (sv_server s) (Some e) (sv_socket_identity s) (sv_closed s) (sv_acts s).
Definition set_socket_identity (v : Z * Z) (s : Service) : Service :=
  mkService (sv_guards s) (sv_guard_count s) (sv_refusing s) (sv_server s) (sv_fatal_error s) v (sv_closed s) (sv_acts s).
Definition set_closed (s : Service) : Service :=
  mkService (sv_guards s) (sv_guard_count s) (sv_refusing s) (sv_server s) (sv_fatal_error s) (sv_socket_identity s) true (sv_acts s).
Definition record (a : Act) (r : result Answered) (s : Service) : Service :=
  mkService (sv_guards s) (sv_guard_count s) (sv_refusing s) (sv_server s) (sv_fatal_error s) (sv_socket_identity s) (sv_closed s)
    (sv_acts s ++ [(a, r)]).
(** Before [__init__]. *)
Definition unborn (guard_count : Z) : Service := mkService [] guard_count false false None (0, 0)%Z false [].

(** [TimeoutError] is an [OSError]. *)
Definition ETIMEDOUT : Z := 110.
Definition is_os_error (e : exn) : bool := match e with OSError _ => true | _ => false end.
(** [failure or error] *)
Definition first_failure (failure : option exn) (e : exn) : option exn :=
  match failure with Some _ => failure | None => Some e end.

Section Service.
Context (world : History → Act → result Answered).

Definition ask (a : Act) : M Service Answered := λ s,
  let r := world (sv_acts s) a in (r, record a r s).
Definition act (a : Act) : M Service unit := ask a ;; mret tt.
Definition ask_flag (a : Act) : M Service bool :=
  x ← ask a; mret (match x with Flag b => b | _ => false end).
Definition ask_identity (a : Act) : M Service (Z * Z) :=
  x ← ask a; mret (match x with Identity i => i | _ => (0, 0)%Z end).
(** Calls that only answer, or only happen. *)
Definition see (a : Act) : M Service bool := λ s,
  let r := world (sv_acts s) a in (Ret (bool_decide (r = Ret (Flag true))), record a r s).
Definition mark (a : Act) : M Service unit := modify (record a (Ret Nothing)).

(** ** A Guard from outside ([guard.py]) *)

(** [finish_close]; a thread that has ended says whether it closed well. *)
Definition finish_close (rank : Z) : M Service bool :=
  started ← see (AStarted rank);
  if negb started then mret false else
  act (AJoin rank) ;;
  alive ← see (AAlive rank);
  if alive : bool then mret true else
  act (AClosedWell rank) ;; mret false.
(** [_Guard.close] *)
Definition guard_close (rank : Z) : M Service unit :=
  try_except
    (act (ABeginClose rank) ;;
     wedged ← finish_close rank;
     if wedged : bool then raise (OSError ETIMEDOUT) else mret tt)
    (λ e,
      alive ← see (AAlive rank);
      (if alive : bool then mret tt else try_except (act (AReclaim rank)) (λ _, mret tt)) ;;
      raise e) ;;
  alive ← see (AAlive rank);
  if alive : bool then mret tt else act (AReclaim rank).

(** ** [_PoolRegistry] *)

(** [_release_pools] *)
Definition release_pools : M Service unit :=
  guards ← gets sv_guards;
  for_each guards (λ rank,
    try_except (guard_close rank ;; modify (λ s, set_guards (filter (λ g, g ≠ rank) (sv_guards s)) s)) (λ _, mret tt)).
(** One round of [__init__]. *)
Definition build_group (rank : Z) : M Service unit :=
  try_except
    (act (AAllocate rank) ;;
     try_except (act (ABuild rank)) (λ e, act (AOwnerClose rank) ;; raise e) ;;
     modify (λ s, set_guards (sv_guards s ++ [rank]) s) ;;
     act (AStart rank))
    (λ e, release_pools ;; raise e).
(** [__init__] *)
Definition registry_init : M Service unit :=
  is_dir ← ask_flag APoolDir;
  if negb is_dir then raise (ValueError "KVCR pool directory does not exist") else
  act APurge ;;
  guard_count ← gets sv_guard_count;
  for_each (seqZ 0 guard_count) build_group.
(** [_guard] *)
Definition registry_guard (guard_index : Z) : M Service Z :=
  guard_count ← gets sv_guard_count;
  if negb ((0 <=? guard_index)%Z && (guard_index <? guard_count)%Z)
  then raise (KVCRServiceError "guard_index is out of range") else
  guards ← gets sv_guards;
  if decide (guard_index ∈ guards) then mret guard_index
  else raise (KVCRServiceError "no claimable KVCR Guard").
Definition registry_claim (guard_index : Z) : M Service unit :=
  refusing ← gets sv_refusing;
  if refusing : bool then raise (KVCRServiceError "KVCR pool registry is closed") else
  guard ← registry_guard guard_index;
  act (AClaim guard).
Definition registry_release (guard_index : Z) : M Service unit :=
  guard ← registry_guard guard_index; act (ARelease guard).
Definition registry_heartbeat (guard_index : Z) : M Service unit :=
  guard ← registry_guard guard_index; act (AHeartbeat guard).
Definition registry_abort_grant (guard_index : Z) : M Service unit :=
  guard ← registry_guard guard_index; act (AAbort guard).
(** [refuse_claims] *)
Definition registry_refuse : M Service unit :=
  modify refuse_new ;; mark ARefuse ;;
  guards ← gets sv_guards;
  for_each guards (λ guard, mark (ABarrier guard)).
(** The three sweeps of [close]: what is known so far is the first failure, the wedged Guards
    and those to keep. *)
Record Sweep := mkSweep { sw_failure : option exn; sw_wedged : list Z; sw_kept : list Z }.
Definition begin_one (w : Sweep) (rank : Z) : M Service Sweep :=
  try_except (act (ABeginClose rank) ;; mret w)
    (λ e, mret (mkSweep (first_failure (sw_failure w) e) (sw_wedged w) (sw_kept w))).
Definition keep_failed (w : Sweep) (rank : Z) (e : exn) : Sweep :=
  mkSweep (first_failure (sw_failure w) e) (sw_wedged w) (rank :: sw_kept w).
Definition finish_one (w : Sweep) (rank : Z) : M Service Sweep :=
  try_except
    (wedged ← finish_close rank;
     mret (if wedged : bool then mkSweep (sw_failure w) (sw_wedged w ++ [rank]) (rank :: sw_kept w) else w))
    (λ e, mret (keep_failed w rank e)).
Definition reclaim_one (w : Sweep) (rank : Z) : M Service Sweep :=
  alive ← see (AAlive rank);
  if alive : bool then mret w else
  try_except (act (AReclaim rank) ;; mret w) (λ e, mret (keep_failed w rank e)).
(** [close] *)
Definition registry_close : M Service unit :=
  modify refuse_new ;; mark ARefuse ;;
  guards ← gets sv_guards;
  w ← fold_each begin_one (mkSweep None [] []) guards;
  w ← fold_each finish_one w (merge_sort Z.le guards);
  w ← fold_each reclaim_one w (merge_sort Z.le guards);
  modify (λ s, set_guards (filter (λ g, g ∈ sw_kept w) (sv_guards s)) s) ;;
  match sw_failure w with
  | Some e => raise e
  | None => if decide (sw_wedged w = []) then mret tt else raise (OSError ETIMEDOUT)
  end.

(** ** [_ThreadingUnixServer] and [_KVCRService] *)

(** [_ThreadingUnixServer.fail] *)
Definition server_fail (e : exn) : M Service unit :=
  fatal ← gets sv_fatal_error;
  match fatal with Some _ => mret tt | None => modify (set_fatal_error e) end ;;
  registry_refuse ;;
  act AShutdown.
Definition ECONNREFUSED : Z := 111.
Definition ENOENT_ : Z := 2.
(** [_unlink_stale_socket] *)
Definition unlink_stale_socket : M Service unit :=
  found ← try_except (x ← ask ALstat; mret (Some x)) (λ e, if is_os_error e then mret None else raise e);
  match found with
  | Some (Identity identity) =>
      stale ← try_finally
        (try_except (act AConnect ;; mret false) (λ e,
          match e with
          | OSError errno =>
              if bool_decide (errno = ECONNREFUSED ∨ errno = ENOENT_)
              then act (AUnlink identity) ;; mret true else raise (OSError 0)
          | _ => raise e
          end))
        (act AProbeClose);
      if stale : bool then mret tt else raise (OSError 0)
  | _ => mret tt
  end.
(** [_release_partial_construction] *)
Definition release_partial_construction : M Service unit :=
  server ← gets sv_server;
  (if server : bool then try_except (act AServerClose) (λ e, if is_os_error e then mret tt else raise e) else mret tt) ;;
  try_except registry_close (λ e, if is_os_error e then mret tt else raise e).
(** [_KVCRService.__init__] *)
Definition service_init : M Service unit :=
  try_except (act APidfd)
    (λ e, if is_os_error e then raise (KVCRServiceError "KVCR-Service requires pidfd_open (Linux 5.3+)") else raise e) ;;
  act APidfdClose ;;
  is_dir ← ask_flag ASocketDir;
  if negb is_dir then raise (ValueError "KVCR socket directory does not exist") else
  unlink_stale_socket ;;
  registry_init ;;
  try_except
    (act AServer ;; modify set_server ;;
     identity ← ask_identity ASocketStat;
     modify (set_socket_identity identity))
    (λ e, release_partial_construction ;; raise e).
(** What the threads of the requests and of the Guards do meanwhile. *)
Inductive ThreadOp :=
  | OpClaim (guard_index : Z) | OpRelease (guard_index : Z) | OpHeartbeat (guard_index : Z) | OpAbort (guard_index : Z)
  | OpFail (e : exn).
Definition thread_op (o : ThreadOp) : M Service unit :=
  match o with
  | OpClaim guard_index => registry_claim guard_index
  | OpRelease guard_index => registry_release guard_index
  | OpHeartbeat guard_index => registry_heartbeat guard_index
  | OpAbort guard_index => registry_abort_grant guard_index
  | OpFail e => server_fail e
  end.
Definition thread_ops (during : list ThreadOp) : M Service unit :=
  for_each during (λ o, try_except (thread_op o) (λ _, mret tt)).
(** [serve_forever]: [AServe] answers whether it returned; otherwise a signal asked to stop. *)
Definition serve_forever (during : list ThreadOp) : M Service unit :=
  thread_ops during ;;
  returned ← ask_flag AServe;
  if negb returned then mret tt else
  fatal ← gets sv_fatal_error;
  match fatal with Some e => raise e | None => mret tt end.
(** [shutdown] *)
Definition service_shutdown : M Service unit := registry_refuse ;; act AShutdown.
(** A step of [close]: which errors it takes. *)
Definition attempt_close (takes : exn → bool) (m : M Service unit) (first_error : option exn) : M Service (option exn) :=
  try_except (m ;; mret first_error) (λ e, if takes e then mret (first_failure first_error e) else raise e).
(** [_KVCRService.close] *)
Definition service_close : M Service unit :=
  closed ← gets sv_closed;
  if closed : bool then mret tt else
  first_error ← attempt_close is_os_error (act AConnections) None;
  first_error ← attempt_close is_os_error (act AServerClose) first_error;
  first_error ← attempt_close (λ _, true) registry_close first_error;
  identity ← gets sv_socket_identity;
  first_error ← attempt_close is_os_error (act (AUnlink identity)) first_error;
  match first_error with
  | Some e => raise e
  | None => modify set_closed
  end.
(** [main], once its arguments are parsed; signals are blocked but while it serves. *)
Definition main (during : list ThreadOp) : M Service unit :=
  act AHealth ;;
  try_finally
    (service_init ;; try_finally (serve_forever during) service_close)
    (act AHealthClose).
End Service.
