(* ===== verification/ServiceThm.v ===== *)
(** * The service: no pool group is forgotten

    Every pool the registry of [Service] allocated is listed, or was given back; a pool is given
    back only once its Guard's thread has ended; no claim reaches a Guard after the refusal. *)

From Stdlib Require Import ZArith Lia.
From S2P Require Import Prelude Service.

(** ** What the history says *)

Definition says (h : History) (a : Act) : Prop := ∃ r, (a, r) ∈ h.
Definition done_well (h : History) (a : Act) : Prop := ∃ x, (a, Ret x) ∈ h.
(** A thread that is seen not alive, or not started, stays so until it is started. *)
Definition is_up (r : result Answered) : Prop := r = Ret (Flag true).
Definition seen_down (rank : Z) (h : History) : Prop := ∃ h1 a r h2,
  h = h1 ++ (a, r) :: h2 ∧ (a = AAlive rank ∨ a = AStarted rank) ∧ ¬ is_up r ∧ ¬ says h2 (AStart rank).
Definition thread_rule (world : History → Act → result Answered) : Prop :=
  ∀ h rank, seen_down rank h → ¬ is_up (world h (AAlive rank)).

(** Given back: its owner was closed before it had a Guard, or it was reclaimed. *)
Definition given_back (rank : Z) (h : History) : Prop := says h (AOwnerClose rank) ∨ done_well h (AReclaim rank).
Record sound (but : option Z) (s : Service) : Prop := mk_sound {
  so_accounted : ∀ rank, Some rank ≠ but → done_well (sv_acts s) (AAllocate rank) →
    rank ∈ sv_guards s ∨ given_back rank (sv_acts s);
  so_reclaims : ∀ h1 rank r h2, sv_acts s = h1 ++ (AReclaim rank, r) :: h2 →
    ∃ h0 r0, h1 = h0 ++ [(AAlive rank, r0)] ∧ ¬ is_up r0;
  so_refused : says (sv_acts s) ARefuse → sv_refusing s = true;
  so_claims : ∀ h1 r h2 guard, sv_acts s = h1 ++ (ARefuse, r) :: h2 → ¬ says h2 (AClaim guard) }.

Lemma says_app h h' a : says (h ++ h') a ↔ says h a ∨ says h' a.
Proof. unfold says. setoid_rewrite elem_of_app. naive_solver. Qed.
Lemma done_app h h' a : done_well (h ++ h') a ↔ done_well h a ∨ done_well h' a.
Proof. unfold done_well. setoid_rewrite elem_of_app. naive_solver. Qed.
Lemma says_one b r a : says [(b, r)] a ↔ b = a.
Proof. unfold says. setoid_rewrite list_elem_of_singleton. naive_solver. Qed.
Lemma done_one b r a : done_well [(b, r)] a ↔ b = a ∧ ∃ x, r = Ret x.
Proof. unfold done_well. setoid_rewrite list_elem_of_singleton. naive_solver. Qed.
Lemma given_back_app rank h h' : given_back rank h → given_back rank (h ++ h').
Proof. unfold given_back. rewrite says_app, done_app. tauto. Qed.
Lemma seen_down_app rank h h' : seen_down rank h → ¬ says h' (AStart rank) → seen_down rank (h ++ h').
Proof.
  intros (h1 & a & r & h2 & -> & Ha & Hr & Hs) Hs'. exists h1, a, r, (h2 ++ h').
  split; [by rewrite <- app_assoc|]. split_and!; [done..|]. rewrite says_app. tauto.
Qed.
Lemma seen_down_now rank h a r : (a = AAlive rank ∨ a = AStarted rank) → ¬ is_up r → seen_down rank (h ++ [(a, r)]).
Proof. intros Ha Hr. exists h, a, r, []. split_and!; try done. by intros (? & ?%elem_of_nil). Qed.
(** Where a split of an extended history falls. *)
Lemma split_last {A} (h : list A) x h1 y h2 : h ++ [x] = h1 ++ y :: h2 →
  (h2 = [] ∧ h = h1 ∧ x = y) ∨ (∃ h2', h2 = h2' ++ [x] ∧ h = h1 ++ y :: h2').
Proof.
  intros H. destruct (decide (h2 = [])) as [->|Hne].
  - left. apply app_inj_tail in H as [? ?]. done.
  - right. destruct (exists_last Hne) as (h2' & z & ->). exists h2'.
    rewrite app_comm_cons, app_assoc in H. apply app_inj_tail in H as [-> ->]. done.
Qed.

(** What a call adds: [AAllocate] and [AStart] only while groups are built. *)
Definition quiet (a : Act) : Prop :=
  match a with AAllocate _ | AStart _ | AReclaim _ | AClaim _ => False | _ => True end.
Lemma sound_record but a r s :
  quiet a → (a = ARefuse → sv_refusing s = true) → sound but s → sound but (record a r s).
Proof.
  intros Ha Hr [A R F C]. split; simpl.
  - intros rank Hb. rewrite done_app, done_one. intros [H|[-> _]]; [|done].
    destruct (A rank Hb H) as [?|?]; [by left|right; by apply given_back_app].
  - intros h1 rank r' h2 [(-> & Hx & [= -> ->])|(h2' & -> & H)]%split_last; [done|]. by eapply R.
  - rewrite says_app, says_one. intros [H|H]; auto.
  - intros h1 r' h2 guard [(-> & Hx & [= -> ->])|(h2' & -> & H)]%split_last; [by intros (? & ?%elem_of_nil)|].
    rewrite says_app, says_one. intros [Hc|Hc]; [by eapply C|by subst a].
Qed.
Lemma sound_state but s s' : sound but s → sv_acts s' = sv_acts s → sv_guards s' = sv_guards s →
  (sv_refusing s = true → sv_refusing s' = true) → sound but s'.
Proof. intros [A R F C] Ha Hg Hr. split; rewrite Ha, ?Hg; auto. Qed.

Section Service.
Context (world : History → Act → result Answered) (Hthreads : thread_rule world).

(** ** Calls *)

(** An operation that adds quiet calls and changes no Guard. *)
Record calm (s s' : Service) : Prop := mk_calm {
  ca_guards : sv_guards s' = sv_guards s;
  ca_count : sv_guard_count s' = sv_guard_count s;
  ca_acts : ∃ new, sv_acts s' = sv_acts s ++ new ∧ (∀ rank, ¬ says new (AStart rank)) }.
Lemma calm_refl s : calm s s.
Proof. split; try done. exists []. split; [by rewrite app_nil_r|]. by intros rank (? & ?%elem_of_nil). Qed.
Lemma calm_trans s1 s2 s3 : calm s1 s2 → calm s2 s3 → calm s1 s3.
Proof.
  intros [G1 C1 (n1 & A1 & S1)] [G2 C2 (n2 & A2 & S2)]. split; [congruence..|].
  exists (n1 ++ n2). rewrite A2, A1, app_assoc. split; [done|]. intros rank. rewrite says_app. naive_solver.
Qed.
Lemma calm_record a r s : (∀ rank, a ≠ AStart rank) → calm s (record a r s).
Proof. intros Ha. split; try done. exists [(a, r)]. split; [done|]. intros rank. rewrite says_one. apply Ha. Qed.
Lemma calm_given s s' rank : calm s s' → given_back rank (sv_acts s) → given_back rank (sv_acts s').
Proof. intros [_ _ (new & -> & _)]. apply given_back_app. Qed.
Lemma calm_down s s' rank : calm s s' → seen_down rank (sv_acts s) → seen_down rank (sv_acts s').
Proof. intros [_ _ (new & -> & Hs)] Hd. by apply seen_down_app. Qed.
#[local] Hint Resolve calm_refl calm_trans : calm.

(** From [s0] on: sound, and calm. *)
Definition from (but : option Z) (s0 s : Service) : Prop := sound but s ∧ calm s0 s.
Lemma wp_ask {but s0} a (Q : Answered → Service → Prop) E s :
  quiet a → (a = ARefuse → sv_refusing s = true) → from but s0 s →
  (∀ x s', world (sv_acts s) a = Ret x → from but s0 s' → s' = record a (Ret x) s → Q x s') →
  (∀ e s', world (sv_acts s) a = Raise e → from but s0 s' → s' = record a (Raise e) s → E e s') →
  wp (ask world a) Q E s.
Proof.
  intros Ha Hr [Hs Hc] HQ HE. unfold wp, ask. set (r := world (sv_acts s) a).
  assert (from but s0 (record a r s)) as Hf.
  { split; [by apply sound_record|]. eapply calm_trans; [done|]. apply calm_record. intros rank ->. done. }
  destruct r as [x|e] eqn:Hr'; [by apply HQ|by apply HE].
Qed.
Lemma wp_act {but s0} a (Q : unit → Service → Prop) E s :
  quiet a → (a = ARefuse → sv_refusing s = true) → from but s0 s →
  (∀ s', done_well (sv_acts s') a → from but s0 s' → Q tt s') →
  (∀ e s', says (sv_acts s') a → from but s0 s' → E e s') →
  wp (act world a) Q E s.
Proof.
  intros Ha Hr Hf HQ HE. unfold act. apply wp_bind. eapply wp_ask; [done..| |].
  - intros x s' Hx Hf' ->. apply wp_ret, HQ; [|done]. exists x. simpl. apply elem_of_app. right. by left.
  - intros e s' Hx Hf' ->. apply HE; [|done]. exists (Raise e). simpl. apply elem_of_app. right. by left.
Qed.
Lemma wp_see {but s0} a (Q : bool → Service → Prop) E s :
  quiet a → a ≠ ARefuse → from but s0 s →
  (∀ b s', b = bool_decide (is_up (world (sv_acts s) a)) → from but s0 s' →
     s' = record a (world (sv_acts s) a) s → Q b s') →
  wp (see world a) Q E s.
Proof.
  intros Ha Hn [Hs Hc] HQ. unfold wp, see. apply HQ; [done| |done].
  split; [by apply sound_record|]. eapply calm_trans; [done|]. apply calm_record. by intros rank ->.
Qed.
(** A reclamation, right after the thread was seen to have ended. *)
Lemma wp_reclaim {but s0} rank (Q : unit → Service → Prop) E s h r0 :
  sv_acts s = h ++ [(AAlive rank, r0)] → ¬ is_up r0 → from but s0 s →
  (∀ s', given_back rank (sv_acts s') → from but s0 s' → Q tt s') →
  (∀ e s', from but s0 s' → E e s') →
  wp (act world (AReclaim rank)) Q E s.
Proof.
  intros Hh Hr0 [[A R F C] Hc] HQ HE. unfold act. apply wp_bind. unfold wp, ask.
  set (r := world (sv_acts s) (AReclaim rank)).
  assert (from but s0 (record (AReclaim rank) r s)) as Hf.
  { split; [split; simpl|].
    - intros rank' Hb. rewrite done_app, done_one. intros [H|[[=] _]].
      destruct (A rank' Hb H) as [?|?]; [by left|right; by apply given_back_app].
    - intros h1 rank' r' h2 [(-> & Hx & [= -> ->])|(h2' & -> & H)]%split_last; [exists h, r0; split; [congruence|done]|by eapply R].
    - rewrite says_app, says_one. intros [H|[=]]. auto.
    - intros h1 r' h2 guard [(-> & Hx & [=])|(h2' & -> & H)]%split_last.
      rewrite says_app, says_one. intros [Hc'|[=]]. by eapply C.
    - eapply calm_trans; [done|]. by apply calm_record. }
  destruct r as [x|e] eqn:Hr; [|by apply HE]. apply wp_ret, HQ; [|done].
  right. exists x. simpl. apply elem_of_app. right. by left.
Qed.

(** ** A Guard from outside *)

Lemma from_refl but s : sound but s → from but s s.
Proof. intros Hs. split; [done|apply calm_refl]. Qed.
Lemma from_trans but s0 s1 s : calm s0 s1 → from but s1 s → from but s0 s.
Proof. intros H [? ?]. split; [done|]. by eapply calm_trans. Qed.
(** Not wedged: the thread has ended. *)
Lemma finish_close_spec but s0 rank Q E s : from but s0 s →
  (∀ b s', from but s0 s' → (b = false → seen_down rank (sv_acts s')) → Q b s') →
  (∀ e s', from but s0 s' → E e s') → wp (finish_close world rank) Q E s.
Proof.
  intros Hf HQ HE. unfold finish_close. apply wp_bind. eapply wp_see; [done..|]. intros started s1 -> Hf1 Hs1.
  case_bool_decide as Hup; simpl.
  2:{ apply wp_ret, HQ; [done|]. intros _. rewrite Hs1. apply seen_down_now; [by right|done]. }
  apply wp_bind. eapply wp_act; [done..| |by intros; apply HE]. intros s2 _ Hf2.
  apply wp_bind. eapply wp_see; [done..|]. intros alive s3 -> Hf3 Hs3. case_bool_decide as Hup3.
  { apply wp_ret, HQ; [done|]. by intros. }
  assert (seen_down rank (sv_acts s3)) as Hd by (rewrite Hs3; apply seen_down_now; [by left|done]).
  apply wp_bind. eapply (wp_act (but := but) (s0 := s3)); [done..|by apply from_refl, Hf3| |].
  - intros s4 _ [Hs4 Hc4]. apply wp_ret, HQ; [|by intros _; eapply calm_down].
    split; [done|]. eapply calm_trans; [apply Hf3|done].
  - intros e s4 _ Hf4. apply HE. eapply from_trans; [apply Hf3|done].
Qed.
(** What was seen down is not up when it is looked at again, and may be reclaimed. *)
Lemma see_down but s0 rank (Q : bool → Service → Prop) E s : from but s0 s → seen_down rank (sv_acts s) →
  (∀ s' r0, from but s0 s' → ¬ is_up r0 → sv_acts s' = sv_acts s ++ [(AAlive rank, r0)] → Q false s') →
  wp (see world (AAlive rank)) Q E s.
Proof.
  intros Hf Hd HQ. eapply wp_see; [done..|]. intros b s' -> Hf' ->.
  rewrite bool_decide_false by (by apply Hthreads). eapply HQ; [done| |done]. by apply Hthreads.
Qed.
(** A Guard that is closed was given back. *)
Lemma guard_close_spec but s0 rank s : from but s0 s →
  wp (guard_close world rank) (λ _ s', from but s0 s' ∧ given_back rank (sv_acts s')) (λ _ s', from but s0 s') s.
Proof.
  intros Hf. unfold guard_close. apply wp_bind.
  assert (∀ (e : exn) s1, from but s0 s1 → wp (alive ← see world (AAlive rank);
     (if alive : bool then mret tt else try_except (act world (AReclaim rank)) (λ _, mret tt)) ;; raise e)
     (λ (_ : unit) s1, from but s0 s1 ∧ seen_down rank (sv_acts s1)) (λ _, from but s0) s1) as Hfail.
  { intros e s1 Hf1. apply wp_bind. eapply wp_see; [done..|]. intros alive s2 -> Hf2 Hs2.
    case_bool_decide as Hup; [by wp|]. apply wp_bind, wp_try_except. eapply wp_reclaim; [by rewrite Hs2|done..| |].
    - intros s3 _ Hf3. by wp.
    - intros e' s3 Hf3. by wp. }
  eapply (wp_mono _ _ (λ _ s1, from but s0 s1 ∧ seen_down rank (sv_acts s1)) _ (λ _, from but s0)).
  - apply wp_try_except, wp_bind. eapply wp_act; [done..| |by intros; apply Hfail]. intros s1 _ Hf1.
    apply wp_bind. eapply finish_close_spec; [done| |by intros; apply Hfail].
    intros [|] s2 Hf2 Hd; [by apply wp_raise, Hfail|]. apply wp_ret. split; [done|]. by apply Hd.
  - intros [] s1 [Hf1 Hd]. apply wp_bind. eapply see_down; [done..|]. intros s2 r0 Hf2 Hr0 Hs2.
    eapply wp_reclaim; [done..| |done]. intros s3 Hg Hf3. by split.
  - done.
Qed.

(** ** Building the registry *)

Lemma sound_drop s rank : sound None s → given_back rank (sv_acts s) →
  sound None (set_guards (filter (λ g, g ≠ rank) (sv_guards s)) s).
Proof.
  intros [A R F C] Hg. split; simpl; [|done..]. intros rank' Hb H. destruct (decide (rank' = rank)) as [->|Hne]; [by right|].
  destruct (A rank' Hb H) as [?|?]; [left|by right]. by apply list_elem_of_filter.
Qed.
Lemma release_pools_sound s : sound None s → wp (release_pools world) (λ _, sound None) (λ _, sound None) s.
Proof.
  intros Hs. unfold release_pools. wp. eapply (wp_for_each _ _ (λ _, sound None)); [done| |done].
  intros rank rest s1 Hs1. apply wp_try_except, wp_bind.
  eapply wp_mono; [by apply (guard_close_spec None s1), from_refl|..].
  - intros [] s2 [[Hs2 _] Hg]. wp. by apply sound_drop.
  - intros e s2 [Hs2 _]. by wp.
Qed.
(** The group that is being built is the one that is not accounted for. *)
Lemma sound_but s rank : sound None s → sound (Some rank) s.
Proof. intros [A R F C]. split; try done. intros rank' _. by apply A. Qed.
Lemma sound_back s rank : sound (Some rank) s → given_back rank (sv_acts s) ∨ rank ∈ sv_guards s → sound None s.
Proof.
  intros [A R F C] Hg. split; try done. intros rank' _ H. destruct (decide (rank' = rank)) as [->|Hne]; [tauto|].
  apply A; [congruence|done].
Qed.
Lemma wp_allocate rank (Q : unit → Service → Prop) E s :
  sound None s → (∀ s', sound (Some rank) s' → Q tt s') → (∀ e s', sound None s' → E e s') →
  wp (act world (AAllocate rank)) Q E s.
Proof.
  intros [A R F C] HQ HE. unfold act. apply wp_bind. unfold wp, ask. set (r := world (sv_acts s) (AAllocate rank)).
  assert (∀ but, (∀ x, r = Ret x → but = Some rank) → sound but (record (AAllocate rank) r s)) as Hs.
  { intros but Hb. split; simpl.
    - intros rank' Hne. rewrite done_app, done_one. intros [H|[[= ->] [x Hx]]].
      + destruct (A rank' ltac:(done) H) as [?|?]; [by left|right; by apply given_back_app].
      + by rewrite (Hb x Hx) in Hne.
    - intros h1 rank' r' h2 [(-> & Hx & [=])|(h2' & -> & H)]%split_last. by eapply R.
    - rewrite says_app, says_one. intros [H|[=]]. auto.
    - intros h1 r' h2 guard [(-> & Hx & [=])|(h2' & -> & H)]%split_last.
      rewrite says_app, says_one. intros [Hc'|[=]]. by eapply C. }
  destruct r as [x|e] eqn:Hr; [apply wp_ret, HQ, Hs|apply HE, Hs]; intros; congruence.
Qed.
Lemma wp_start rank (Q : unit → Service → Prop) E s :
  sound None s → (∀ s', sound None s' → Q tt s') → (∀ e s', sound None s' → E e s') →
  wp (act world (AStart rank)) Q E s.
Proof.
  intros [A R F C] HQ HE. unfold act. apply wp_bind. unfold wp, ask. set (r := world (sv_acts s) (AStart rank)).
  assert (sound None (record (AStart rank) r s)) as Hs.
  { split; simpl.
    - intros rank' Hne. rewrite done_app, done_one. intros [H|[[=] _]].
      destruct (A rank' Hne H) as [?|?]; [by left|right; by apply given_back_app].
    - intros h1 rank' r' h2 [(-> & Hx & [=])|(h2' & -> & H)]%split_last. by eapply R.
    - rewrite says_app, says_one. intros [H|[=]]. auto.
    - intros h1 r' h2 guard [(-> & Hx & [=])|(h2' & -> & H)]%split_last.
      rewrite says_app, says_one. intros [Hc'|[=]]. by eapply C. }
  destruct r as [x|e]; [by apply wp_ret, HQ|by apply HE].
Qed.
Lemma build_group_sound rank s : sound None s → wp (build_group world rank) (λ _, sound None) (λ _, sound None) s.
Proof.
  intros Hs. unfold build_group. apply wp_try_except.
  assert (∀ (e : exn) s1, sound None s1 → wp (release_pools world ;; raise e) (λ _ : unit, sound None) (λ _, sound None) s1) as Hsweep.
  { intros e s1 Hs1. apply wp_bind. eapply wp_mono; [by apply release_pools_sound| |done]. intros [] s2 Hs2. by wp. }
  apply wp_bind. eapply wp_allocate; [done| |by intros; apply Hsweep]. intros s1 Hs1.
  apply wp_bind, wp_try_except. eapply (wp_act (but := Some rank) (s0 := s1)); [done..|by apply from_refl| |].
  - intros s2 _ [Hs2 _]. wp. eapply wp_start; [|done|by intros; apply Hsweep].
    apply (sound_back _ rank); [|right; simpl; set_solver].
    destruct Hs2 as [A R F C]. split; try done. simpl. intros rank' Hne H.
    destruct (A rank' Hne H); [left; set_solver|by right].
  - intros e s2 _ [Hs2 _]. apply wp_bind. eapply (wp_act (but := Some rank) (s0 := s2)); [done..|by apply from_refl| |].
    + intros s3 Hd [Hs3 _]. apply wp_raise, Hsweep, (sound_back _ rank); [done|]. left. left.
      destruct Hd as [x Hx]. by exists (Ret x).
    + intros e' s3 Hd [Hs3 _]. apply Hsweep, (sound_back _ rank); [done|]. by left; left.
Qed.
Lemma registry_init_sound s : sound None s → wp (registry_init world) (λ _, sound None) (λ _, sound None) s.
Proof.
  intros Hs. unfold registry_init, ask_flag. apply wp_bind, wp_bind.
  eapply (wp_ask (but := None) (s0 := s)); [done..|by apply from_refl| |by intros e s1 _ [? _] _].
  intros x s1 _ [Hs1 _] _. apply wp_ret. destruct (negb _); [by wp|].
  apply wp_bind. eapply (wp_act (but := None) (s0 := s1)); [done..|by apply from_refl| |by intros e s2 _ [? _]].
  intros s2 _ [Hs2 _]. wp. eapply (wp_for_each _ _ (λ _, sound None)); [done| |done].
  intros rank rest s3 Hs3. by apply build_group_sound.
Qed.

(** ** Claims *)

Notation kept_sound := (preserves (sound None)).
Lemma act_kept a : quiet a → a ≠ ARefuse → kept_sound (act world a).
Proof.
  intros Ha Hn. apply triple_wp. intros s Hs. eapply (wp_act (but := None) (s0 := s)); [done..|by apply from_refl|by intros s1 _ [? _]|by intros e s1 _ [? _]].
Qed.
Lemma guard_sound guard_index (f : Z → M Service unit) :
  (∀ guard, kept_sound (f guard)) → kept_sound (registry_guard guard_index ≫= f).
Proof.
  intros Hf. apply triple_wp. intros s Hs. unfold registry_guard. apply wp_bind. wp. destruct (negb _); [by wp|]. wp.
  case_decide; wp; [by apply Hf|done].
Qed.
(** A claim reaches its Guard only while none was refused. *)
Lemma registry_claim_sound guard_index : kept_sound (registry_claim world guard_index).
Proof.
  apply triple_wp. intros s Hs. unfold registry_claim. wp. destruct (sv_refusing s) eqn:Hr; [by wp|].
  unfold registry_guard. wp. destruct (negb _); [by wp|]. wp. case_decide; wp; [|done].
  unfold act. apply wp_bind. unfold wp, ask. set (r := world (sv_acts s) (AClaim guard_index)).
  assert (sound None (record (AClaim guard_index) r s)) as Hs'.
  { destruct Hs as [A R F C]. split; simpl.
    - intros rank' Hne. rewrite done_app, done_one. intros [H'|[[=] _]].
      destruct (A rank' Hne H') as [?|?]; [by left|right; by apply given_back_app].
    - intros h1 rank' r' h2 [(-> & Hx & [=])|(h2' & -> & H')]%split_last. by eapply R.
    - rewrite says_app, says_one. intros [H'|[=]]. auto.
    - intros h1 r' h2 guard [(-> & Hx & [=])|(h2' & -> & H')]%split_last. exfalso.
      assert (says (sv_acts s) ARefuse) as Hsay by (exists r'; rewrite H'; set_solver).
      apply F in Hsay. congruence. }
  by destruct r.
Qed.
(** Once claims are refused. *)
Lemma sound_refuse s : sound None s → sound None (record ARefuse (Ret Nothing) (refuse_new s)).
Proof. intros Hs. apply sound_record; [done..|]. by eapply sound_state. Qed.
Lemma sound_mark rank s : sound None s → sound None (record (ABarrier rank) (Ret Nothing) s).
Proof. intros Hs. by apply sound_record. Qed.
Lemma registry_refuse_sound : kept_sound registry_refuse.
Proof.
  apply triple_wp. intros s Hs. unfold registry_refuse, mark. wp. eapply (wp_for_each _ _ (λ _, sound None)); [by apply sound_refuse| |done].
  intros rank rest s1 Hs1. wp. by apply sound_mark.
Qed.

(** ** Giving the registry back *)

(** The failures an operation of a sweep raised. *)
Definition sweeps (a : Act) : bool :=
  match a with ABeginClose _ | AJoin _ | AClosedWell _ | AReclaim _ => true | _ => false end.
Fixpoint first_raise (h : History) : option exn :=
  match h with
  | [] => None
  | (a, Raise e) :: h => if sweeps a then Some e else first_raise h
  | _ :: h => first_raise h
  end.
Lemma first_raise_app h h' :
  first_raise (h ++ h') = match first_raise h with Some e => Some e | None => first_raise h' end.
Proof. induction h as [|[a [x|e]] h IH]; simpl; [done..|]. by destruct (sweeps a). Qed.
(** From [s0] on: what was raised, and which Guards are kept. *)
Record sweeping (s0 : Service) (w : Sweep) (s : Service) : Prop := mk_sweeping {
  sg_from : from None s0 s;
  sg_failure : ∃ new, sv_acts s = sv_acts s0 ++ new ∧ sw_failure w = first_raise new;
  sg_wedged : sw_wedged w ≠ [] → sw_kept w ≠ [];
  sg_kept : sw_kept w ≠ [] → sw_failure w ≠ None ∨ sw_wedged w ≠ [];
  sg_guards : ∀ rank, rank ∈ sw_kept w → rank ∈ sv_guards s0 }.

(** What is raised is the first failure there was. *)
Definition raises (o : option exn) (s s' : Service) : Prop :=
  ∃ new, sv_acts s' = sv_acts s ++ new ∧ first_raise new = o.
Definition tells {A} (m : M Service A) : Prop := ∀ s, wp m (λ _, raises None s) (λ e, raises (Some e) s) s.
Lemma raises_trans o s1 s2 s3 : raises None s1 s2 → raises o s2 s3 → raises o s1 s3.
Proof.
  intros (n1 & A1 & F1) (n2 & A2 & F2). exists (n1 ++ n2). rewrite A2, A1, app_assoc, first_raise_app, F1. by split.
Qed.
Lemma raises_record a r s : (∀ e, r = Raise e → sweeps a = false) → raises None s (record a r s).
Proof. intros Ha. exists [(a, r)]. split; [done|]. simpl. destruct r; [done|]. by erewrite Ha. Qed.
Lemma tells_ret {A} (a : A) : tells (mret a).
Proof. intros s. wp. exists []. by rewrite app_nil_r. Qed.
Lemma tells_bind {A B} (m : M Service A) (f : A → M Service B) : tells m → (∀ a, tells (f a)) → tells (m ≫= f).
Proof.
  intros Hm Hf s. apply wp_bind. eapply wp_mono; [apply Hm| |done]. intros a s1 H1.
  eapply wp_mono; [apply Hf|..]; intros ? s2 H2; exact (raises_trans _ _ _ _ H1 H2).
Qed.
Lemma tells_act a : sweeps a = true → tells (act world a).
Proof.
  intros Ha s. unfold act. apply wp_bind. unfold wp, ask. destruct (world (sv_acts s) a) as [x|e].
  - apply wp_ret. apply raises_record. by intros ? [=].
  - exists [(a, Raise e)]. split; [done|]. simpl. by rewrite Ha.
Qed.
Lemma tells_see a : sweeps a = false → tells (see world a).
Proof. intros Ha s. unfold wp, see. apply raises_record. by intros. Qed.
Lemma finish_close_tells rank : tells (finish_close world rank).
Proof.
  apply tells_bind; [by apply tells_see|]. intros [|]; simpl; [|apply tells_ret].
  apply tells_bind; [by apply tells_act|]. intros []. apply tells_bind; [by apply tells_see|].
  intros [|]; [apply tells_ret|]. apply tells_bind; [by apply tells_act|]. intros []. apply tells_ret.
Qed.
Lemma wp_and {A} (m : M Service A) Q1 Q2 E1 E2 s :
  wp m Q1 E1 s → wp m Q2 E2 s → wp m (λ a s, Q1 a s ∧ Q2 a s) (λ e s, E1 e s ∧ E2 e s) s.
Proof. unfold wp. destruct (m s) as [[a|e] s']; auto. Qed.

(** A sweep that goes on, after its operation returned or raised. *)
Lemma sweeping_on s0 w s s' : sweeping s0 w s → from None s0 s' → raises None s s' → sweeping s0 w s'.
Proof.
  intros [_ (n1 & A1 & F1) W K G] Hf (n2 & A2 & F2). split; try done. exists (n1 ++ n2).
  rewrite A2, A1, app_assoc, first_raise_app, <- F1, F2. split; [done|]. by destruct (sw_failure w).
Qed.
Lemma sweeping_failed s0 w s s' e kept : sweeping s0 w s → from None s0 s' → raises (Some e) s s' →
  (∀ rank, rank ∈ kept → rank ∈ sw_kept w ∨ rank ∈ sv_guards s0) → (sw_kept w ≠ [] → kept ≠ []) →
  sweeping s0 (mkSweep (first_failure (sw_failure w) e) (sw_wedged w) kept) s'.
Proof.
  intros [_ (n1 & A1 & F1) W K G] Hf (n2 & A2 & F2) Hk Hk'. split; simpl; [done|..].
  - exists (n1 ++ n2). rewrite A2, A1, app_assoc, first_raise_app, <- F1, F2. split; [done|]. by destruct (sw_failure w).
  - auto.
  - intros _. left. by destruct (sw_failure w).
  - intros rank Hr. destruct (Hk rank Hr); auto.
Qed.
Lemma begin_one_spec s0 w rank s : sweeping s0 w s →
  wp (begin_one world w rank) (λ w' s', sweeping s0 w' s' ∧ sw_kept w' = sw_kept w ∧
      ∃ r, sv_acts s' = sv_acts s ++ [(ABeginClose rank, r)]) (λ _ _, False) s.
Proof.
  intros Hw. pose proof (sg_from _ _ _ Hw) as Hf. unfold begin_one, act. apply wp_try_except, wp_bind, wp_bind.
  eapply wp_ask; [done..| |].
  - intros x s1 _ Hf1 Hs1. wp. split; [|split; [done|by exists (Ret x); rewrite Hs1]].
    apply (sweeping_on s0 w s); [done..|]. rewrite Hs1. apply raises_record. by intros e [=].
  - intros e s1 _ Hf1 Hs1. wp. split; [|split; [done|by exists (Raise e); rewrite Hs1]].
    apply (sweeping_failed s0 w s); [done..| | |done].
    + exists [(ABeginClose rank, Raise e)]. by rewrite Hs1.
    + by left.
Qed.
Definition down (s : Service) (rank : Z) : Prop := seen_down rank (sv_acts s).
Lemma finish_one_spec s0 w rank s : sweeping s0 w s → rank ∈ sv_guards s0 →
  wp (finish_one world w rank) (λ w' s', sweeping s0 w' s' ∧ calm s s' ∧ (∀ g, g ∈ sw_kept w → g ∈ sw_kept w') ∧
      (rank ∈ sw_kept w' ∨ down s' rank)) (λ _ _, False) s.
Proof.
  intros Hw Hrank. pose proof (sg_from _ _ _ Hw) as Hf. unfold finish_one.
  assert (∀ s1, from None s s1 → from None s0 s1) as Htrans by (intros; eapply from_trans; [apply Hf|done]).
  apply wp_try_except, wp_bind. eapply wp_mono; [apply wp_and; [|apply (finish_close_tells rank s)]| |].
  - eapply (finish_close_spec None s rank (λ b s1, from None s s1 ∧ (b = false → down s1 rank)) (λ _, from None s));
      [apply from_refl, Hf|by intros; split|done].
  - intros b s1 [[Hf1 Hd] Hr]. wp. assert (sweeping s0 w s1) as Hw1 by (apply (sweeping_on s0 w s); auto).
    destruct b; split_and!; try done; try apply Hf1; try (by right; apply Hd); simpl.
    + destruct Hw1 as [A F W K G]. split; simpl; try done.
      * intros _. right. by destruct (sw_wedged w).
      * intros g [->|?]%elem_of_cons; auto.
    + intros g. by right.
    + left. by left.
  - intros e s1 [Hf1 Hr]. wp. split_and!; [|apply Hf1|by intros; right|left; by left].
    apply (sweeping_failed s0 w s); [done|auto|done| |done]. intros g [->|?]%elem_of_cons; auto.
Qed.
Lemma reclaim_one_spec s0 w rank s : sweeping s0 w s → rank ∈ sv_guards s0 → rank ∈ sw_kept w ∨ down s rank →
  wp (reclaim_one world w rank) (λ w' s', sweeping s0 w' s' ∧ calm s s' ∧ (∀ g, g ∈ sw_kept w → g ∈ sw_kept w') ∧
      (rank ∈ sw_kept w' ∨ given_back rank (sv_acts s'))) (λ _ _, False) s.
Proof.
  intros Hw Hrank Hd. pose proof (sg_from _ _ _ Hw) as Hf. unfold reclaim_one.
  assert (∀ s1, from None s s1 → from None s0 s1) as Htrans by (intros; eapply from_trans; [apply Hf|done]).
  apply wp_bind. eapply (wp_see (but := None) (s0 := s)); [done..|by apply from_refl, Hf|].
  intros alive s1 -> Hf1 Hs1.
  assert (sweeping s0 w s1) as Hw1.
  { apply (sweeping_on s0 w s); [done|auto|]. rewrite Hs1. by apply raises_record. }
  case_bool_decide as Hup.
  { wp. split_and!; [done|apply Hf1|done|]. destruct Hd as [?|Hd]; [by left|]. by apply Hthreads in Hd. }
  apply wp_try_except, wp_bind. eapply wp_mono; [apply wp_and; [|by apply (tells_act (AReclaim rank))]| |].
  - eapply (wp_reclaim rank (λ _ s2, given_back rank (sv_acts s2) ∧ from None s s2) (λ _ s2, from None s s2));
      [by rewrite Hs1|done..].
  - intros [] s2 [[Hg Hf2] Hr]. wp. split_and!; [|apply Hf2|done|by right].
    apply (sweeping_on s0 w s1); auto.
  - intros e s2 [Hf2 Hr]. wp. split_and!; [|apply Hf2|by intros; right|left; by left].
    apply (sweeping_failed s0 w s1); [done|auto|done| |done]. intros g [->|?]%elem_of_cons; auto.
Qed.

(** What the calls of an operation are. *)
Definition adds (P : Act → Prop) (s s' : Service) : Prop :=
  ∃ new, sv_acts s' = sv_acts s ++ new ∧ Forall (λ x, P x.1) new.
Definition just {A} (P : Act → Prop) (m : M Service A) : Prop := ∀ s, wp m (λ _, adds P s) (λ _, adds P s) s.
Lemma adds_none P s s' : sv_acts s' = sv_acts s → adds P s s'.
Proof. intros H. exists []. by rewrite app_nil_r. Qed.
Lemma adds_more P s1 s2 s3 : adds P s1 s2 → adds P s2 s3 → adds P s1 s3.
Proof. intros (n1 & A1 & F1) (n2 & A2 & F2). exists (n1 ++ n2). rewrite A2, A1, app_assoc, Forall_app. by split. Qed.
Lemma just_ret {A} P (a : A) : just P (mret a).
Proof. intros s. wp. by apply adds_none. Qed.
Lemma just_raise {A} P e : just P (raise (A:=A) e).
Proof. intros s. wp. by apply adds_none. Qed.
Lemma just_ask (P : Act → Prop) a : P a → just P (ask world a).
Proof.
  intros Ha s. unfold wp, ask.
  assert (adds P s (record a (world (sv_acts s) a) s)) by (exists [(a, world (sv_acts s) a)]; split; [done|by constructor]).
  by destruct (world (sv_acts s) a).
Qed.
Lemma just_see (P : Act → Prop) a : P a → just P (see world a).
Proof. intros Ha s. exists [(a, world (sv_acts s) a)]. split; [done|by constructor]. Qed.
Lemma just_bind {A B} P (m : M Service A) (f : A → M Service B) : just P m → (∀ a, just P (f a)) → just P (m ≫= f).
Proof.
  intros Hm Hf s. apply wp_bind. eapply wp_mono; [apply Hm| |done]. intros a s1 H1.
  eapply wp_mono; [apply Hf|..]; intros ? s2 H2; exact (adds_more _ _ _ _ H1 H2).
Qed.
Lemma just_try {A} P (m : M Service A) h : just P m → (∀ e, just P (h e)) → just P (try_except m h).
Proof.
  intros Hm Hh s. apply wp_try_except. eapply wp_mono; [apply Hm|done|]. intros e s1 H1.
  eapply wp_mono; [apply Hh|..]; intros ? s2 H2; exact (adds_more _ _ _ _ H1 H2).
Qed.
Lemma just_fold {A B} P (f : B → A → M Service B) l acc : (∀ acc x, just P (f acc x)) → just P (fold_each f acc l).
Proof.
  intros Hf. revert acc. induction l as [|x l IH]; intros acc; cbn [fold_each]; [apply just_ret|].
  apply just_bind; [apply Hf|intros; apply IH].
Qed.
Ltac follow_calls := repeat first
  [ apply just_ret | apply just_raise | apply just_bind; [|intros ?] | apply just_try; [|intros ?]
  | apply just_see; done | apply just_ask; done | case_match ].
(** Nobody is told to close any more. *)
Definition told (a : Act) : Prop := match a with ABeginClose _ => False | _ => True end.
Lemma finish_one_told w rank : just told (finish_one world w rank).
Proof. unfold finish_one, finish_close, act. follow_calls. Qed.
Lemma reclaim_one_told w rank : just told (reclaim_one world w rank).
Proof. unfold reclaim_one, act. follow_calls. Qed.

Lemma begin_sweep gs s0 w s : sweeping s0 w s →
  wp (fold_each (begin_one world) w gs) (λ w' s', sweeping s0 w' s' ∧ sw_kept w' = sw_kept w ∧
    ∃ begun, sv_acts s' = sv_acts s ++ begun ∧ begun.*1 = ABeginClose <$> gs) (λ _ _, False) s.
Proof.
  revert w s. induction gs as [|g gs IH]; intros w s Hw; cbn [fold_each].
  { wp. split_and!; [done..|]. exists []. by rewrite app_nil_r. }
  apply wp_bind. eapply wp_mono; [by apply (begin_one_spec s0 w g)| |done]. intros w1 s1 (Hw1 & Hk & r & Hr).
  eapply wp_mono; [by apply IH| |done]. intros w2 s2 (Hw2 & Hk2 & begun & Hb & Hgs). split_and!; [done|congruence|].
  exists ((ABeginClose g, r) :: begun). rewrite Hb, Hr, <- app_assoc. split; [done|]. cbn [fmap list_fmap fst]. by f_equal.
Qed.
Lemma finish_sweep gs s0 w s : sweeping s0 w s → (∀ g, g ∈ gs → g ∈ sv_guards s0) →
  wp (fold_each (finish_one world) w gs) (λ w' s', sweeping s0 w' s' ∧
    ∀ g, g ∈ gs → g ∈ sw_kept w' ∨ down s' g) (λ _ _, False) s.
Proof.
  intros Hw Hgs. eapply (wp_fold_each _ _ _ (λ w' rest s', (sweeping s0 w' s' ∧ (∀ g, g ∈ rest → g ∈ sv_guards s0)) ∧
    ∀ g, g ∈ gs → g ∈ rest ∨ g ∈ sw_kept w' ∨ down s' g)).
  - split; [done|]. by left.
  - intros w1 g rest s1 [[Hw1 Hr] Hd]. eapply wp_mono; [apply (finish_one_spec s0 w1 g); [done|apply Hr; by left]| |done].
    intros w2 s2 (Hw2 & Hc & Hk & Hg). split; [split; [done|intros ? ?; apply Hr; by right]|].
    intros g' Hg'. destruct (Hd g' Hg') as [[->|?]%elem_of_cons|[?|?]]; auto. right. right. by eapply calm_down.
  - intros w' s' [[Hw' _] Hd]. split; [done|]. intros g Hg. by destruct (Hd g Hg) as [?%elem_of_nil|?].
Qed.
Lemma reclaim_sweep gs s0 w s : sweeping s0 w s → (∀ g, g ∈ gs → g ∈ sv_guards s0) →
  (∀ g, g ∈ gs → g ∈ sw_kept w ∨ down s g) →
  wp (fold_each (reclaim_one world) w gs) (λ w' s', sweeping s0 w' s' ∧
    ∀ g, g ∈ gs → g ∈ sw_kept w' ∨ given_back g (sv_acts s')) (λ _ _, False) s.
Proof.
  intros Hw Hgs Hd. eapply (wp_fold_each _ _ _ (λ w' rest s', (sweeping s0 w' s' ∧ (∀ g, g ∈ rest → g ∈ gs) ∧
    (∀ g, g ∈ gs → g ∈ sw_kept w' ∨ down s' g)) ∧ ∀ g, g ∈ gs → g ∈ rest ∨ g ∈ sw_kept w' ∨ given_back g (sv_acts s'))).
  - split; [done|]. by left.
  - intros w1 g rest s1 [(Hw1 & Hr & Hd1) Hb].
    assert (g ∈ gs) as Hg by (apply Hr; by left).
    eapply wp_mono; [apply (reclaim_one_spec s0 w1 g); auto| |done].
    intros w2 s2 (Hw2 & Hc & Hk & Hg2). split; [split_and!; [done|intros ? ?; apply Hr; by right|]|].
    + intros g' Hg'. destruct (Hd1 g' Hg'); [left; auto|right; by eapply calm_down].
    + intros g' Hg'. destruct (Hb g' Hg') as [[->|?]%elem_of_cons|[?|?]]; auto. right. right. by eapply calm_given.
  - intros w' s' [(Hw' & _) Hb]. split; [done|]. intros g Hg. by destruct (Hb g Hg) as [?%elem_of_nil|?].
Qed.

Definition TimeoutError : exn := OSError ETIMEDOUT.
(** How a close of the registry ends, given what its calls raised. *)
Definition close_result (new : History) (s' : Service) : result unit :=
  match first_raise new with
  | Some e => Raise e
  | None => if decide (sv_guards s' = []) then Ret tt else Raise TimeoutError
  end.
Record closed_from (s : Service) (r : result unit) (s' : Service) : Prop := mk_closed_from {
  cf_sound : sound None s';
  cf_refusing : sv_refusing s' = true;
  cf_guards : ∀ g, g ∈ sv_guards s' → g ∈ sv_guards s;
  cf_given : ∀ g, g ∈ sv_guards s → g ∉ sv_guards s' → given_back g (sv_acts s');
  cf_acts : ∃ begun rest, sv_acts s' = sv_acts s ++ (ARefuse, Ret Nothing) :: begun ++ rest ∧
    begun.*1 = ABeginClose <$> sv_guards s ∧ Forall (λ x, told x.1) rest ∧ r = close_result (begun ++ rest) s' }.
Lemma registry_close_spec s : sound None s →
  wp (registry_close world) (λ _, closed_from s (Ret tt)) (λ e, closed_from s (Raise e)) s.
Proof.
  intros Hs. unfold registry_close, mark. wp. set (s0 := record ARefuse _ _).
  assert (sound None s0) as Hs0 by (by apply sound_refuse).
  assert (sweeping s0 (mkSweep None [] []) s0) as Hw0.
  { split; [by apply from_refl|exists []; by rewrite app_nil_r|done..|]. by intros g ?%elem_of_nil. }
  assert (∀ g, g ∈ merge_sort Z.le (sv_guards s0) ↔ g ∈ sv_guards s0) as Hsort.
  { intros g. by rewrite (merge_sort_Permutation Z.le (sv_guards s0)). }
  eapply wp_mono; [by apply (begin_sweep _ s0)| |done].
  intros w1 s1 (Hw1 & Hk1 & begun & Hbegun & Hgs).
  apply wp_bind. eapply wp_mono; [apply wp_and;
    [by apply (finish_sweep (merge_sort Z.le (sv_guards s0)) s0 w1 s1 Hw1); intros g ?%Hsort|
     apply (just_fold told (finish_one world)); intros; apply finish_one_told]| |by intros e s2 [[] _]].
  intros w2 s2 [(Hw2 & Hd2) Ha2].
  apply wp_bind. eapply wp_mono; [apply wp_and;
    [by apply (reclaim_sweep (merge_sort Z.le (sv_guards s0)) s0 w2 s2 Hw2); [intros g ?%Hsort|]|
     apply (just_fold told (reclaim_one world)); intros; apply reclaim_one_told]| |by intros e s3 [[] _]].
  intros w3 s3 [(Hw3 & Hb3) Ha3]. wp. set (s4 := set_guards _ s3).
  pose proof (sg_from _ _ _ Hw3) as [Hs3 Hc3].
  assert (sv_guards s3 = sv_guards s0) as Hg3 by apply Hc3.
  assert (∀ g, g ∈ sv_guards s4 ↔ g ∈ sw_kept w3) as Hg4.
  { intros g. unfold s4. simpl. rewrite list_elem_of_filter, Hg3. split; [tauto|]. intros Hg. split; [done|].
    by apply (sg_guards _ _ _ Hw3). }
  assert (∀ g, g ∈ sv_guards s0 → g ∉ sv_guards s4 → given_back g (sv_acts s4)) as Hgiven.
  { intros g Hg Hn. destruct (Hb3 g) as [Hk|?]; [by apply Hsort| |done]. by apply Hg4 in Hk. }
  assert (closed_from s (match sw_failure w3 with Some e => Raise e | None =>
    if decide (sw_wedged w3 = []) then Ret tt else Raise TimeoutError end) s4) as Hclosed.
  { split.
    - destruct Hs3 as [A R F C]. split; try done. intros rank Hne H. destruct (A rank Hne H) as [Hr|?]; [|by right].
      rewrite Hg3 in Hr. destruct (decide (rank ∈ sv_guards s4)); [by left|right; auto].
    - apply (so_refused _ _ Hs3). destruct Hc3 as [_ _ (new & -> & _)]. exists (Ret Nothing). unfold s0. simpl. set_solver.
    - intros g Hg%Hg4. by apply (sg_guards _ _ _ Hw3) in Hg.
    - done.
    - destruct (adds_more _ _ _ _ Ha2 Ha3) as (rest & Hrest & Htold). exists begun, rest.
      assert (sv_acts s4 = sv_acts s0 ++ begun ++ rest) as Hacts by (simpl; by rewrite Hrest, Hbegun, app_assoc).
      split; [rewrite Hacts; unfold s0; simpl; by rewrite <- app_assoc|]. split_and!; [done..|]. unfold close_result.
      destruct (sg_failure _ _ _ Hw3) as (new & Hnew & Hf). change (sv_acts s3) with (sv_acts s4) in Hnew.
      rewrite Hacts in Hnew. apply app_inv_head in Hnew as <-. rewrite <- Hf. destruct (sw_failure w3) eqn:Hf3; [done|].
      assert (sw_wedged w3 = [] ↔ sv_guards s4 = []) as Hiff.
      { split.
        - intros Hw. destruct (sv_guards s4) as [|g l] eqn:Hg; [done|]. exfalso.
          destruct (sg_kept _ _ _ Hw3) as [?|?]; [|done..]. intros Hk. specialize (Hg4 g). rewrite Hk in Hg4. set_solver.
        - intros Hg. destruct (decide (sw_wedged w3 = [])) as [|Hw]; [done|]. exfalso.
          apply (sg_wedged _ _ _ Hw3) in Hw. destruct (sw_kept w3) as [|g l] eqn:Hk; [done|].
          specialize (Hg4 g). rewrite Hg in Hg4. set_solver. }
      repeat case_decide; tauto. }
  destruct (sw_failure w3); [by wp|]. case_decide; by wp.
Qed.

(** ** The server and the service *)

Lemma ask_sound a : quiet a → a ≠ ARefuse → kept_sound (ask world a).
Proof.
  intros Ha Hn. apply triple_wp. intros s Hs.
  eapply (wp_ask (but := None) (s0 := s)); [done..|by apply from_refl|by intros x s1 _ [? _]|by intros e s1 _ [? _]].
Qed.
Lemma modify_sound (f : Service → Service) :
  (∀ s, sv_acts (f s) = sv_acts s ∧ sv_guards (f s) = sv_guards s ∧ (sv_refusing s = true → sv_refusing (f s) = true)) →
  kept_sound (modify f).
Proof. intros Hf. apply triple_wp. intros s Hs. wp. destruct (Hf s) as (? & ? & ?). by eapply sound_state. Qed.
Lemma registry_close_sound : kept_sound (registry_close world).
Proof.
  apply triple_wp. intros s Hs. eapply wp_mono; [by apply registry_close_spec|..]; intros ? s'; apply cf_sound.
Qed.
Lemma registry_init_kept : kept_sound (registry_init world).
Proof. apply triple_wp, registry_init_sound. Qed.
#[local] Hint Resolve registry_init_kept registry_close_sound registry_claim_sound registry_refuse_sound : kvcr.
Ltac service := repeat (statements; try first
  [ by eauto 2 with kvcr nocore | apply act_kept; [done|done] | apply ask_sound; [done|done]
  | by apply modify_sound | case_match ]).
Lemma unlink_stale_sound : kept_sound (unlink_stale_socket world).
Proof. unfold unlink_stale_socket. service. Qed.
Lemma release_partial_sound : kept_sound (release_partial_construction world).
Proof. unfold release_partial_construction. service. Qed.
#[local] Hint Resolve unlink_stale_sound release_partial_sound : kvcr.
Lemma service_init_sound : kept_sound (service_init world).
Proof. unfold service_init, ask_flag, ask_identity. service. Qed.
Lemma server_fail_sound e : kept_sound (server_fail world e).
Proof. unfold server_fail. service. Qed.
#[local] Hint Resolve server_fail_sound : kvcr.
Lemma registry_release_sound guard_index : kept_sound (registry_release world guard_index).
Proof. apply guard_sound. intros guard. by apply act_kept. Qed.
Lemma registry_heartbeat_sound guard_index : kept_sound (registry_heartbeat world guard_index).
Proof. apply guard_sound. intros guard. by apply act_kept. Qed.
Lemma registry_abort_sound guard_index : kept_sound (registry_abort_grant world guard_index).
Proof. apply guard_sound. intros guard. by apply act_kept. Qed.
#[local] Hint Resolve registry_release_sound registry_heartbeat_sound registry_abort_sound : kvcr.
Lemma thread_ops_sound during : kept_sound (thread_ops world during).
Proof. unfold thread_ops, thread_op. service. Qed.
#[local] Hint Resolve thread_ops_sound : kvcr.
Lemma serve_sound during : kept_sound (serve_forever world during).
Proof. unfold serve_forever, ask_flag. service. Qed.
Lemma shutdown_sound : kept_sound (service_shutdown world).
Proof. unfold service_shutdown. service. Qed.
Lemma service_close_sound : kept_sound (service_close world).
Proof. unfold service_close, attempt_close. service. Qed.
#[local] Hint Resolve service_init_sound server_fail_sound serve_sound shutdown_sound service_close_sound : kvcr.

(** A life of a service: it is made, and then used and closed in any order. *)
Inductive MainOp := DoThreads (during : list ThreadOp) | DoServe (during : list ThreadOp) | DoShutdown | DoClose.
Definition main_op (o : MainOp) : M Service unit :=
  match o with
  | DoThreads during => thread_ops world during
  | DoServe during => serve_forever world during
  | DoShutdown => service_shutdown world
  | DoClose => service_close world
  end.
Definition service_life (ops : list MainOp) : M Service unit :=
  try_except (service_init world) (λ _, mret tt) ;;
  for_each ops (λ o, try_except (main_op o) (λ _, mret tt)).
Lemma unborn_sound n : sound None (unborn n).
Proof.
  split; simpl.
  - by intros rank _ (? & ?%elem_of_nil).
  - by intros [] rank r h2.
  - by intros (? & ?%elem_of_nil).
  - by intros [] r h2 guard.
Qed.
Lemma life_sound n ops : sound None (service_life ops (unborn n)).2.
Proof.
  assert (kept_sound (service_life ops)) as Hp by (unfold service_life, main_op; service).
  specialize (Hp _ (unborn_sound n)). by destruct (service_life ops (unborn n)) as [[[]|e] s].
Qed.


(** C12: Closing the registry tells every Guard before it waits for any of them, gives back the
    pool of every Guard that has ended, keeps exactly the others listed for a later close, and
    raises the first failure of a call, or else reports those that did not end in time; it
    returns only when none is left. *)
Theorem registry_closes n ops :
  let s := (service_life ops (unborn n)).2 in
  let '(r, s') := registry_close world s in
  sv_refusing s' = true ∧
  (∀ rank, rank ∈ sv_guards s' → rank ∈ sv_guards s) ∧
  (∀ rank, rank ∈ sv_guards s → rank ∉ sv_guards s' → given_back rank (sv_acts s')) ∧
  ∃ begun rest, sv_acts s' = sv_acts s ++ (ARefuse, Ret Nothing) :: begun ++ rest ∧
    begun.*1 = ABeginClose <$> sv_guards s ∧ (∀ rank, ¬ says rest (ABeginClose rank)) ∧
    r = match first_raise (begun ++ rest) with
        | Some e => Raise e
        | None => if decide (sv_guards s' = []) then Ret tt else Raise TimeoutError
        end.
Proof.
  intros s. pose proof (registry_close_spec s (life_sound n ops)) as Hc. unfold wp in Hc.
  destruct (registry_close world s) as [r s'].
  assert (closed_from s r s') as [_ F G B (begun & rest & Ha & Hb & Ht & Hr)] by (by destruct r as [[]|e]).
  split_and!; [done..|]. exists begun, rest. split_and!; [done..| |done].
  intros rank (x & Hx). rewrite Forall_forall in Ht. by apply Ht in Hx.
Qed.

(** ** [main] *)

Context (guard_count : Z).
(** The Guards are these, and the service is open. *)
Definition named (gs : list Z) (s : Service) : Prop :=
  sv_guards s = gs ∧ sv_closed s = false ∧ sv_guard_count s = guard_count.
Notation keeps_named gs := (preserves (named gs)).
Lemma ask_named gs a : keeps_named gs (ask world a).
Proof. intros s Hs. unfold ask. by destruct (world (sv_acts s) a). Qed.
Lemma act_named gs a : keeps_named gs (act world a).
Proof. unfold act. statements. apply ask_named. Qed.
Lemma modify_named gs (f : Service → Service) :
  (∀ s, sv_guards (f s) = sv_guards s ∧ sv_closed (f s) = sv_closed s ∧ sv_guard_count (f s) = sv_guard_count s) →
  keeps_named gs (modify f).
Proof. intros Hf s (Hg & Hc & Hn). destruct (Hf s) as (Hg' & Hc' & Hn'). simpl. split_and!; congruence. Qed.
#[local] Hint Resolve ask_named act_named : kvcr.
Ltac names := repeat (statements; try first [ by eauto 2 with kvcr nocore | by apply modify_named | case_match ]).
Lemma guard_named gs guard_index : keeps_named gs (registry_guard guard_index).
Proof. unfold registry_guard. names. Qed.
Lemma registry_refuse_named gs : keeps_named gs registry_refuse.
Proof. unfold registry_refuse, mark. names. Qed.
#[local] Hint Resolve guard_named registry_refuse_named : kvcr.
Lemma server_fail_named gs e : keeps_named gs (server_fail world e).
Proof. unfold server_fail. names. Qed.
Lemma thread_ops_named gs during : keeps_named gs (thread_ops world during).
Proof.
  unfold thread_ops, thread_op, registry_claim, registry_release, registry_heartbeat, registry_abort_grant.
  names. apply server_fail_named.
Qed.
#[local] Hint Resolve thread_ops_named : kvcr.
Lemma serve_named gs during : keeps_named gs (serve_forever world during).
Proof. unfold serve_forever, ask_flag. names. Qed.
Lemma unlink_stale_named gs : keeps_named gs (unlink_stale_socket world).
Proof. unfold unlink_stale_socket. names. Qed.

Definition framed (gs : list Z) (s : Service) : Prop := sound None s ∧ named gs s.
Lemma wp_framed {A} gs (m : M Service A) s :
  kept_sound m → keeps_named gs m → framed gs s → wp m (λ _, framed gs) (λ _, framed gs) s.
Proof.
  intros Hs Hn [Hs0 Hn0]. specialize (Hs s Hs0). specialize (Hn s Hn0). unfold wp, framed.
  destruct (m s) as [[a|e] s']; by split.
Qed.
(** A group that was built is listed last. *)
Lemma build_group_named gs rank s : framed gs s →
  wp (build_group world rank) (λ _, framed (gs ++ [rank])) (λ _ _, True) s.
Proof.
  intros [Hs Hn]. eapply wp_mono; [apply (wp_and _ (λ _, sound None) (λ _, named (gs ++ [rank])) (λ _, sound None) (λ _ _, True));
    [by apply build_group_sound|]|done|done].
  unfold build_group. apply wp_try_except.
  assert (∀ (e : exn) s1, wp (release_pools world ;; raise e) (λ _ : unit, named (gs ++ [rank])) (λ _ _, True) s1) as Hfail.
  { intros e s1. apply wp_bind. unfold wp. destruct (release_pools world s1) as [[[]|e'] s2]; done. }
  apply wp_bind. eapply wp_mono; [apply (act_named gs _ s Hn)| |intros; apply Hfail]. intros [] s1 Hn1.
  apply wp_bind, wp_try_except. eapply wp_mono; [apply (act_named gs _ s1 Hn1)| |].
  - intros [] s2 (Hg & Hc & Hn2). wp. eapply wp_mono; [apply (act_named (gs ++ [rank]))|done|intros; apply Hfail].
    split_and!; [simpl; by rewrite Hg|done..].
  - intros e s2 _. apply wp_bind. unfold wp. destruct (act world (AOwnerClose rank) s2) as [[[]|e'] s3]; apply Hfail.
Qed.
Lemma registry_init_named s : framed [] s →
  wp (registry_init world) (λ _, framed (seqZ 0 guard_count)) (λ _ _, True) s.
Proof.
  intros Hs. unfold registry_init, ask_flag. apply wp_bind, wp_bind.
  eapply wp_mono; [apply (wp_framed [] (ask world APoolDir)); [by apply ask_sound|apply ask_named|done]| |done].
  intros x s1 Hs1. wp. destruct (negb _); [by wp|]. apply wp_bind.
  eapply wp_mono; [apply (wp_framed [] (act world APurge)); [by apply act_kept|apply act_named|done]| |done].
  intros [] s2 Hs2. wp. destruct (Hs2) as (_ & _ & _ & ->).
  assert (∀ pre rest s, framed pre s → wp (for_each rest (build_group world)) (λ _, framed (pre ++ rest)) (λ _ _, True) s) as Hall.
  { intros pre rest. revert pre. induction rest as [|rank rest IH]; intros pre s3 Hs3; cbn [for_each].
    - wp. by rewrite app_nil_r.
    - apply wp_bind. eapply wp_mono; [by apply build_group_named| |done]. intros [] s4 Hs4.
      rewrite cons_middle, app_assoc. by apply IH. }
  by apply (Hall []).
Qed.
Lemma service_init_named s : framed [] s →
  wp (service_init world) (λ _, framed (seqZ 0 guard_count)) (λ _ _, True) s.
Proof.
  intros Hs. unfold service_init, ask_flag, ask_identity.
  assert (∀ a gs s, quiet a → a ≠ ARefuse → framed gs s → wp (act world a) (λ _, framed gs) (λ _ _, True) s) as Hact.
  { intros a gs s1 Hq Hn Hf. eapply wp_mono; [apply (wp_framed gs (act world a)); [by apply act_kept|apply act_named|done]|done..]. }
  assert (∀ a gs s, quiet a → a ≠ ARefuse → framed gs s → wp (ask world a) (λ _, framed gs) (λ _ _, True) s) as Hask.
  { intros a gs s1 Hq Hn Hf. eapply wp_mono; [apply (wp_framed gs (ask world a)); [by apply ask_sound|apply ask_named|done]|done..]. }
  apply wp_bind, wp_try_except. eapply wp_mono; [by apply (Hact APidfd [])| |].
  2:{ intros e s1 _. destruct (is_os_error e); by wp. }
  intros [] s1 Hs1. apply wp_bind. eapply wp_mono; [by apply (Hact APidfdClose [])| |done].
  intros [] s2 Hs2. apply wp_bind, wp_bind. eapply wp_mono; [by apply (Hask ASocketDir [])| |done].
  intros x s3 Hs3. wp. destruct (negb _); [by wp|]. apply wp_bind.
  eapply wp_mono; [apply (wp_framed [] (unlink_stale_socket world)); [apply unlink_stale_sound|apply unlink_stale_named|done]| |done].
  intros [] s4 Hs4. apply wp_bind. eapply wp_mono; [by apply registry_init_named| |done].
  intros [] s5 Hs5. apply wp_try_except.
  assert (∀ (e : exn) s6, wp (release_partial_construction world ;; raise e) (λ _ : unit, framed (seqZ 0 guard_count)) (λ _ _, True) s6) as Hfail.
  { intros e s6. apply wp_bind. unfold wp. destruct (release_partial_construction world s6) as [[[]|e'] s7]; done. }
  apply wp_bind. eapply wp_mono; [by apply (Hact AServer)| |intros; apply Hfail].
  intros [] s6 Hs6. wp. eapply wp_mono; [apply (Hask ASocketStat (seqZ 0 guard_count)); [done|done|]| |intros; apply Hfail].
  - destruct Hs6 as [Hs6 Hn6]. split; [by eapply sound_state|done].
  - intros y s7 [Hs7 Hn7]. wp. split; [by eapply sound_state|done].
Qed.
Lemma wp_attempt takes m first_error (R : option exn → Service → Prop) s :
  wp m (λ _, R first_error) (λ e, R (first_failure first_error e)) s →
  wp (attempt_close takes m first_error) R (λ _ _, True) s.
Proof.
  intros Hm. unfold attempt_close. apply wp_try_except, wp_bind. eapply wp_mono; [exact Hm|by intros; wp|].
  intros e s' HR. destruct (takes e); by wp.
Qed.
(** A close that returns has given every group back. *)
Lemma service_close_named gs s : framed gs s →
  wp (service_close world) (λ _ s', sv_guards s' = [] ∧ ∀ rank, rank ∈ gs → given_back rank (sv_acts s')) (λ _ _, True) s.
Proof.
  intros [Hs (Hg & Hc & _)]. unfold service_close. wp. rewrite Hc.
  assert (∀ a s, quiet a → a ≠ ARefuse → sound None s ∧ sv_guards s = gs →
    wp (act world a) (λ _ s', sound None s' ∧ sv_guards s' = gs) (λ _ s', sound None s' ∧ sv_guards s' = gs) s) as Hact.
  { intros a s1 Hq Hn [Hs1 Hg1]. eapply (wp_act (but := None) (s0 := s1)); [done..|by apply from_refl| |];
      [intros s2 _ [Hs2 Hc2]|intros e s2 _ [Hs2 Hc2]]; (split; [done|rewrite <- Hg1; apply Hc2]). }
  apply wp_bind. eapply wp_mono; [apply (wp_attempt _ _ _ (λ _ s', sound None s' ∧ sv_guards s' = gs)), (Hact AConnections s); done| |done]. intros e1 s1 Hs1.
  apply wp_bind. eapply wp_mono; [apply (wp_attempt _ _ _ (λ _ s', sound None s' ∧ sv_guards s' = gs)), (Hact AServerClose s1); done| |done]. intros e2 s2 [Hs2 Hg2].
  set (R := λ (first : option exn) s', first = None → sv_guards s' = [] ∧ ∀ rank, rank ∈ gs → given_back rank (sv_acts s')).
  apply wp_bind. eapply (wp_mono _ _ R _ (λ _ _, True)); [apply wp_attempt| |done].
  { eapply wp_mono; [by apply registry_close_spec|..].
    - intros [] s3 [_ _ _ B (begun & rest & _ & _ & _ & Hr)] _. unfold close_result in Hr.
      destruct (first_raise _); [done|]. case_decide as Hnil; [|done]. split; [done|].
      intros rank Hrank. apply B; [by rewrite Hg2|]. rewrite Hnil. apply not_elem_of_nil.
    - intros e s3 _ H. by destruct e2. }
  intros e3 s3 HR. wp.
  eapply (wp_mono _ _ R _ (λ _ _, True)); [apply wp_attempt| |done].
  { unfold act. apply wp_bind. unfold wp, ask. destruct (world _ _) as [x|e].
    - intros H. destruct (HR H) as [? Hb]. split; [done|]. intros rank Hrank. by apply given_back_app, Hb.
    - intros H. by destruct e3. }
  intros e4 s4 HR4. destruct e4 as [e|]; [by wp|]. wp. by destruct (HR4 eq_refl).
Qed.
End Service.
