(* ===== verification/ServiceDemo.v ===== *)
(** * The service: runs

    An environment in which threads run from their start to the join, and some calls fail; a
    daemon that is started and stopped in it, and one whose start fails half way. *)

From Stdlib Require Import ZArith Lia.
From S2P Require Import Prelude Service ServiceThm.

Definition ends_thread (rank : Z) (x : Act * result Answered) : bool :=
  bool_decide (x.1 = AJoin rank) ||
  bool_decide ((x.1 = AAlive rank ∨ x.1 = AStarted rank) ∧ x.2 ≠ Ret (Flag true)).
Definition thread_turn (rank : Z) (alive : bool) (x : Act * result Answered) : bool :=
  if decide (x.1 = AStart rank) then true else if ends_thread rank x then false else alive.
Definition runs (rank : Z) (h : History) : bool := foldl (thread_turn rank) false h.
Definition demo_world (failing : list Act) (h : History) (a : Act) : result Answered :=
  if decide (a ∈ failing) then Raise (OSError 5) else
  match a with
  | AAlive rank | AStarted rank => Ret (Flag (runs rank h))
  | APoolDir | ASocketDir => Ret (Flag true)
  | ALstat => Raise (OSError 2)
  | ASocketStat => Ret (Identity (1, 9)%Z)
  | AServe => Ret (Flag false)
  | _ => Ret Nothing
  end.
Lemma ended_stays rank h : ¬ says h (AStart rank) → foldl (thread_turn rank) false h = false.
Proof.
  induction h as [|x h IH]; [done|]. intros Hs. simpl.
  assert (thread_turn rank false x = false) as ->.
  { unfold thread_turn. destruct (decide _) as [Hx|]; [|by destruct (ends_thread _ _)].
    exfalso. apply Hs. exists x.2. rewrite <- Hx. destruct x. by left. }
  apply IH. intros [r Hr]. apply Hs. exists r. by right.
Qed.
Lemma demo_threads failing : thread_rule (demo_world failing).
Proof.
  intros h rank (h1 & a & r & h2 & -> & Ha & Hr & Hs). unfold is_up, demo_world.
  destruct (decide _); [done|]. enough (runs rank (h1 ++ (a, r) :: h2) = false) as -> by done.
  unfold runs. rewrite foldl_app. cbn [foldl].
  assert (thread_turn rank (foldl (thread_turn rank) false h1) (a, r) = false) as ->; [|by apply ended_stays].
  unfold thread_turn. rewrite decide_False by (simpl; by destruct Ha as [->| ->]).
  unfold ends_thread. rewrite (bool_decide_true (_ ∧ _)) by done. by rewrite orb_true_r.
Qed.

Module ServiceDemo.
Definition requests : list ThreadOp := [OpClaim 0; OpHeartbeat 0; OpClaim 7; OpRelease 0; OpFail (RuntimeError "one"); OpClaim 1].
(** Closing once more, when the pool can still not be unlinked. *)
Lemma registry_closes_witness :
  let s := (service_life (demo_world [AReclaim 1]) [DoShutdown] (unborn 2)).2 in
  let '(r, s') := registry_close (demo_world [AReclaim 1]) s in
  r = Raise (OSError 5) ∧ sv_guards s = [0; 1]%Z ∧ sv_guards s' = [1%Z] ∧ given_back 0 (sv_acts s').
Proof.
  pose proof (registry_closes (demo_world [AReclaim 1]) (demo_threads _) 2 [DoShutdown]) as Hc. cbv zeta in *.
  set (s := (service_life (demo_world [AReclaim 1]) [DoShutdown] (unborn 2)).2) in *.
  set (rs := registry_close (demo_world [AReclaim 1]) s) in *.
  assert (rs.1 = Raise (OSError 5)) as Hr by (vm_compute; reflexivity).
  assert (sv_guards s = [0; 1]%Z) as Hs by (vm_compute; reflexivity).
  assert (sv_guards rs.2 = [1%Z]) as Hs' by (vm_compute; reflexivity).
  destruct rs as [r s']. simpl in *. destruct Hc as (_ & _ & Hg & _).
  split_and!; [exact Hr|exact Hs|exact Hs'|]. apply Hg; [rewrite Hs; set_solver|rewrite Hs'; set_solver].
Defined.
End ServiceDemo.
