(* ===== verification/Daemon.v ===== *)
(** * The daemon's probes and command line

    What [health.py] and [_KVCRService._health_status] answer, the sizes [_parse_pool_sizes_gb]
    takes and the checks of [_parse_args] ([src/src/kvcr/service/server.py]). *)

From Stdlib Require Import ZArith Lia.
From S2P Require Import Prelude.

(** ** Probes *)

(** A Guard as a probe sees it; times are in milliseconds. *)
Record GuardView := mkGuardView {
  gv_failure : bool; gv_alive : bool; gv_promoting : bool; gv_last_progress : Z }.
Record ServiceView := mkServiceView {
  hv_stopping : bool;          (** [_closed], or [_refusing] is set *)
  hv_fatal_error : bool;
  hv_last_progress : option Z;
  hv_guard_count : nat;
  hv_guards : list GuardView }.
Notation Status := (Z * string)%type.
Fixpoint guards_status (timeout now : Z) (ready : bool) (guards : list GuardView) : option Status :=
  match guards with
  | [] => None
  | g :: guards =>
      if gv_failure g || negb (gv_alive g) then Some (503, "guard failed")%Z
      else if ready && gv_promoting g then Some (503, "guard promoting")%Z
      else if ready && (timeout <? now - gv_last_progress g)%Z then Some (503, "guard stalled")%Z
      else guards_status timeout now ready guards
  end.
(** [_health_status] *)
Definition health_status (timeout now : Z) (ready : bool) (s : ServiceView) : Status :=
  if hv_stopping s then (503, "service stopping")%Z
  else if hv_fatal_error s then (503, "service failed")%Z
  else if match hv_last_progress s with Some p => (timeout <? now - p)%Z | None => false end then (503, "service stalled")%Z
  else if negb (bool_decide (length (hv_guards s) = hv_guard_count s)) then (503, "guards unavailable")%Z
  else match guards_status timeout now ready (hv_guards s) with
  | Some status => status
  | None => match hv_last_progress s with
            | None => (if ready then 503 else 200, "service starting")%Z
            | Some _ => (200, "ok")%Z
            end
  end.
(** [health_status] of [main] *)
Definition main_status (timeout now : Z) (stopping ready : bool) (server : option ServiceView) : Status :=
  if stopping then (503, "service stopping")%Z
  else match server with
  | None => (if ready then 503 else 200, "service starting")%Z
  | Some s => health_status timeout now ready s
  end.
(** [do_GET]; a dependency answers the status it was read with, or nothing if it cannot be. *)
Definition do_get (status : bool → Status) (dependency : option (option Z)) (path : string) : Status :=
  if negb (bool_decide (path = "/live" ∨ path = "/ready")) then (404, "not found")%Z else
  let ready := bool_decide (path = "/ready") in
  let '(code, reason) := status ready in
  match dependency with
  | Some answer =>
      if ready && (code =? 200)%Z && negb (bool_decide (answer = Some 200%Z))
      then (503, "dependency unavailable")%Z else (code, reason)
  | None => (code, reason)
  end.

(** ** Pool sizes *)

(** [decimal.Decimal]: an integer coefficient and an exponent of ten. *)
Inductive Dec := DFinite (negative : bool) (coefficient exponent : Z) | DInfinite (negative : bool) | DNaN.
Fixpoint count_digits (fuel : nat) (n : Z) : Z :=
  match fuel with
  | 0 => 1
  | S fuel => if (n <? 10)%Z then 1 else (1 + count_digits fuel (n / 10))%Z
  end.
(** [len(d.as_tuple().digits)] *)
Definition digits (n : Z) : Z := count_digits (Z.to_nat (Z.log2 n)) n.
(** Rounding to a precision, half to even. *)
Definition round_to (prec coefficient exponent : Z) : Z * Z :=
  let excess := (digits coefficient - prec)%Z in
  if (excess <=? 0)%Z then (coefficient, exponent) else
  let p := (10 ^ excess)%Z in
  let q := (coefficient / p)%Z in
  let twice := (2 * (coefficient mod p))%Z in
  let up := (p <? twice)%Z || ((twice =? p)%Z && Z.odd q) in
  ((if up then q + 1 else q)%Z, (exponent + excess)%Z).
(** [d * n] in a context, and [int] of a decimal that is not negative. *)
Definition dec_mul (prec coefficient exponent n : Z) : Z * Z := round_to prec (coefficient * n) exponent.
Definition dec_int (d : Z * Z) : Z :=
  if (0 <=? d.2)%Z then (d.1 * 10 ^ d.2)%Z else (d.1 / 10 ^ (- d.2))%Z.
Definition MAXSIZE : Z := 9223372036854775807.
(** [size > sys.maxsize], and [size > 0] *)
Definition dec_exceeds (coefficient exponent n : Z) : bool :=
  if (0 <=? exponent)%Z then (n <? coefficient * 10 ^ exponent)%Z else (n * 10 ^ (- exponent) <? coefficient)%Z.
Definition positive_finite (d : Dec) : option (Z * Z) :=
  match d with
  | DFinite negative coefficient exponent =>
      if negb negative && (0 <? coefficient)%Z then Some (coefficient, exponent) else None
  | _ => None
  end.
Definition GB : Z := 2 ^ 30.
Definition DEFAULT_JOURNAL_BYTES : Z := 100 * 2 ^ 20.
Definition sum_Z (l : list Z) : Z := foldr Z.add 0%Z l.
Section Sizes.
Context (page : Z).
Definition size_bytes (prec : Z) (d : Z * Z) : Z := (dec_int (dec_mul prec d.1 d.2 GB) / page * page)%Z.
(** [_parse_pool_sizes_gb]; an item that is no number is [None]. *)
Definition parse_pool_sizes_gb (items : list (option Dec)) : result (list Z) :=
  match mapM (λ item, match item with Some d => positive_finite d | None => None end) items with
  | None => Raise (ValueError "--pool-sizes-gb must contain positive, finite numbers")
  | Some sizes_gb =>
      guard_raise (existsb (λ d, dec_exceeds d.1 d.2 MAXSIZE) sizes_gb)
        (ValueError "--pool-sizes-gb describes an allocation that is too large") ;;
      let prec := (foldr Z.max 0 ((λ d, digits d.1) <$> sizes_gb) + 10)%Z in
      let sizes_bytes := size_bytes prec <$> sizes_gb in
      guard_raise (negb (forallb (λ size, page <=? size)%Z sizes_bytes))
        (ValueError "--pool-sizes-gb values must be at least one memory page") ;;
      guard_raise (MAXSIZE <? DEFAULT_JOURNAL_BYTES + sum_Z sizes_bytes)%Z
        (ValueError "--pool-sizes-gb describes an allocation that is too large") ;;
      mret sizes_bytes
  end.
End Sizes.

(** ** Arguments *)

(** A float: a rational (numerator, positive denominator), an infinity or a NaN. *)
Inductive PyFloat := FRat (num : Z) (den : positive) | FInf (negative : bool) | FNaN.
Definition float_lt (x y : PyFloat) : bool :=
  match x, y with
  | FRat a p, FRat b q => (a * Z.pos q <? b * Z.pos p)%Z
  | FInf true, (FRat _ _ | FInf false) | FRat _ _, FInf false => true
  | _, _ => false
  end.
Definition float_of (n : Z) : PyFloat := FRat n 1.
(** What [argparse] read; a dependency is its scheme, whether it has a host, and its port. *)
Record Args := mkArgs {
  ar_guard_count : Z;
  ar_health_port : option Z;
  ar_health_timeout_seconds : PyFloat;
  ar_health_dependency_url : option (result (string * bool * option Z));
  ar_heartbeat_timeout_ms : option PyFloat;
  ar_startup_timeout_seconds : option Z }.
Definition MIN_HEARTBEAT_MS : Z := 1000.
Definition valid_dependency (url : result (string * bool * option Z)) : bool :=
  match url with
  | Ret (scheme, host, port) =>
      bool_decide (scheme = "http" ∨ scheme = "https") && host &&
      match port with None => true | Some p => (0 <? p)%Z end
  | Raise _ => false
  end.
Definition float_le (x y : PyFloat) : bool :=
  match x, y with
  | FRat a p, FRat b q => (a * Z.pos q <=? b * Z.pos p)%Z
  | FInf n, FInf m => n || negb m
  | FInf true, FRat _ _ | FRat _ _, FInf false => true
  | _, _ => false
  end.
(** The checks of [_parse_args]: [parser.error] ends the program with its message. *)
Definition check_args (a : Args) : result unit :=
  guard_raise (ar_guard_count a <? 1)%Z (ValueError "--guard-count must be at least 1") ;;
  guard_raise (match ar_health_port a with Some p => negb ((1 <=? p)%Z && (p <=? 65535)%Z) | None => false end)
    (ValueError "--health-port must be between 1 and 65535") ;;
  guard_raise (negb (float_lt (float_of 1) (ar_health_timeout_seconds a) && float_lt (ar_health_timeout_seconds a) (FInf false)))
    (ValueError "--health-timeout-seconds must be finite and greater than 1") ;;
  guard_raise (match ar_health_dependency_url a with
               | Some url => bool_decide (ar_health_port a = None) || negb (valid_dependency url)
               | None => false end)
    (ValueError "--health-dependency-url requires --health-port and a valid HTTP(S) URL") ;;
  guard_raise (match ar_heartbeat_timeout_ms a with
               | Some t => negb (float_le (float_of MIN_HEARTBEAT_MS) t && float_lt t (FInf false))
               | None => false end)
    (ValueError "--heartbeat-timeout-ms must be at least 1000 and finite") ;;
  guard_raise (match ar_startup_timeout_seconds a with Some t => (t <=? 0)%Z | None => false end)
    (ValueError "--startup-timeout-seconds must be positive").

(** ** Facts *)

Lemma count_digits_bounds fuel n k : (0 <= n)%Z → (1 <= k)%Z → (n < 10 ^ k)%Z → (count_digits fuel n <= k)%Z.
Proof.
  revert n k. induction fuel as [|fuel IH]; intros n k Hn Hk Hlt; simpl; [done|].
  case_match eqn:Hten; [done|]. apply Z.ltb_ge in Hten.
  assert (1 < k)%Z as Hk1 by (destruct (decide (k = 1)%Z) as [->|]; [simpl in Hlt; lia|lia]).
  assert (n / 10 < 10 ^ (k - 1))%Z as Hd.
  { apply Z.div_lt_upper_bound; [lia|]. replace (10 ^ k)%Z with (10 * 10 ^ (k - 1))%Z in Hlt; [done|].
    rewrite <- Z.pow_succ_r by lia. f_equal. lia. }
  specialize (IH (n / 10)%Z (k - 1)%Z ltac:(apply Z.div_pos; lia) ltac:(lia) Hd). lia.
Qed.
Lemma count_digits_enough fuel n : (0 <= n)%Z → (Z.log2 n <= Z.of_nat fuel)%Z →
  (1 <= count_digits fuel n)%Z ∧ (n < 10 ^ count_digits fuel n)%Z.
Proof.
  revert n. induction fuel as [|fuel IH]; intros n Hn Hf; cbn [count_digits].
  - split; [done|]. assert (Z.log2 n = 0)%Z as Hl by (pose proof (Z.log2_nonneg n); lia).
    apply Z.log2_null in Hl. change (10 ^ 1)%Z with 10%Z. lia.
  - case_match eqn:Hten.
    + split; [done|]. apply Z.ltb_lt in Hten. done.
    + apply Z.ltb_ge in Hten.
      assert (Z.log2 (n / 10) <= Z.of_nat fuel)%Z as Hl.
      { assert (Z.log2 (n / 10) <= Z.log2 (n / 2))%Z as Hm.
        { apply Z.log2_le_mono. apply Z.div_le_compat_l; lia. }
        assert (Z.log2 (n / 2) = Z.log2 n - 1)%Z as Hh.
        { change (n / 2)%Z with (n / 2 ^ 1)%Z. rewrite <- Z.shiftr_div_pow2, Z.log2_shiftr by lia.
          assert (1 <= Z.log2 n)%Z by (apply Z.log2_le_pow2; [lia|simpl; lia]). lia. }
        lia. }
      destruct (IH (n / 10)%Z ltac:(apply Z.div_pos; lia) Hl) as [H1 H2]. split; [lia|].
      rewrite Z.pow_add_r by lia.
      pose proof (Z.mod_pos_bound n 10 ltac:(lia)). pose proof (Z.div_mod n 10 ltac:(lia)).
      change (10 ^ 1)%Z with 10%Z. lia.
Qed.
Lemma digits_enough n : (0 <= n)%Z → (1 <= digits n)%Z ∧ (n < 10 ^ digits n)%Z.
Proof.
  intros Hn. apply count_digits_enough; [done|]. rewrite Z2Nat.id; [done|]. apply Z.log2_nonneg.
Qed.
(** The precision of the context is enough: a size is never rounded. *)
Lemma size_not_rounded prec coefficient exponent : (0 <= coefficient)%Z → (digits coefficient + 10 <= prec)%Z →
  dec_mul prec coefficient exponent GB = ((coefficient * GB)%Z, exponent).
Proof.
  intros Hc Hp. destruct (digits_enough coefficient Hc) as [H1 Hlt]. unfold dec_mul, round_to.
  assert (digits (coefficient * GB) <= digits coefficient + 10)%Z as Hd.
  { apply count_digits_bounds; [unfold GB; lia|lia|]. rewrite Z.pow_add_r by lia.
    assert (GB < 10 ^ 10)%Z by done. unfold GB in *. nia. }
  by rewrite (proj2 (Z.leb_le _ _)) by lia.
Qed.

(** The exact number of bytes of a size, over a power of ten: whether a number of bytes is at
    most the size. *)
Definition scale_up (e : Z) : Z := (10 ^ Z.max 0 e)%Z.
Definition scale_down (e : Z) : Z := (10 ^ Z.max 0 (- e))%Z.
Definition at_most_size (bytes : Z) (d : Z * Z) : Prop := (bytes * scale_down d.2 <= d.1 * GB * scale_up d.2)%Z.
Definition exact_pages (page bytes : Z) (d : Z * Z) : Prop :=
  (page | bytes)%Z ∧ at_most_size bytes d ∧ ¬ at_most_size (bytes + page) d.
Lemma dec_int_spec coefficient exponent n : (0 <= coefficient)%Z →
  (n <= dec_int (coefficient, exponent))%Z ↔ (n * scale_down exponent <= coefficient * scale_up exponent)%Z.
Proof.
  intros Hc. unfold dec_int, scale_up, scale_down. cbn [fst snd]. destruct (0 <=? exponent)%Z eqn:He.
  - apply Z.leb_le in He. rewrite (Z.max_r 0 exponent), (Z.max_l 0 (- exponent)) by lia. rewrite Z.pow_0_r. lia.
  - apply Z.leb_gt in He. rewrite (Z.max_l 0 exponent), (Z.max_r 0 (- exponent)) by lia. rewrite Z.pow_0_r.
    assert (0 < 10 ^ - exponent)%Z by (apply Z.pow_pos_nonneg; lia). rewrite Z.mul_1_r. split.
    + intros Hn. pose proof (Z.mul_div_le coefficient (10 ^ - exponent) ltac:(lia)). nia.
    + intros Hn. apply Z.div_le_lower_bound; lia.
Qed.
Lemma size_bytes_exact page prec d : (0 < page)%Z → (0 <= d.1)%Z → (digits d.1 + 10 <= prec)%Z →
  exact_pages page (size_bytes page prec d) d.
Proof.
  intros Hpage Hd Hp. unfold size_bytes. rewrite size_not_rounded by done. destruct d as [c e]. cbn [fst snd] in *.
  set (n := dec_int (c * GB, e)%Z).
  assert (∀ m, (m <= n)%Z ↔ at_most_size m (c, e)) as Hn.
  { intros m. apply dec_int_spec. unfold GB. lia. }
  pose proof (Z.mul_div_le n page Hpage). pose proof (Z.mul_succ_div_gt n page Hpage).
  split_and!; [by apply Z.divide_factor_r|apply Hn; lia|]. rewrite <- Hn. nia.
Qed.

Section Sizes.
Context (page : Z) (Hpage : (0 < page)%Z).
(** An item that is taken: a positive number of gigabytes, at least a page. *)
Definition taken_size (item : option Dec) (bytes : Z) : Prop := ∃ coefficient exponent,
  item = Some (DFinite false coefficient exponent) ∧ (0 < coefficient)%Z ∧
  exact_pages page bytes (coefficient, exponent) ∧ (page <= bytes)%Z.
Lemma positive_finite_spec d c e : positive_finite d = Some (c, e) ↔ d = DFinite false c e ∧ (0 < c)%Z.
Proof.
  unfold positive_finite. destruct d as [[|] c' e'| |]; simpl; [naive_solver| |naive_solver..].
  case_match eqn:H; [apply Z.ltb_lt in H|apply Z.ltb_ge in H]; naive_solver lia.
Qed.
Lemma max_digits (sizes : list (Z * Z)) d : d ∈ sizes →
  (digits d.1 + 10 <= foldr Z.max 0 ((λ d, digits d.1) <$> sizes) + 10)%Z.
Proof.
  induction sizes as [|x sizes IH]; [by intros ?%elem_of_nil|]. rewrite fmap_cons. cbn [foldr].
  generalize dependent (foldr Z.max 0%Z ((λ d, digits d.1) <$> sizes)). intros m IH [->|Hd]%elem_of_cons.
  - pose proof (Z.le_max_l (digits x.1) m). lia.
  - pose proof (Z.le_max_r (digits x.1) m). specialize (IH Hd). lia.
Qed.

(** C35: The pool sizes of the command line: what is returned is, for each number of gigabytes,
    the greatest number of whole pages in it, exactly, however many digits it has; every size
    is positive and has at least one page, and with the journal the pools can be addressed. *)
Theorem pool_sizes_exact items sizes :
  parse_pool_sizes_gb page items = Ret sizes →
  Forall2 taken_size items sizes ∧ (DEFAULT_JOURNAL_BYTES + sum_Z sizes <= MAXSIZE)%Z.
Proof.
  unfold parse_pool_sizes_gb. destruct (mapM _ items) as [ds|] eqn:Hds; [|done].
  unfold guard_raise. destruct (existsb _ _) eqn:Hbig; [done|]. destruct (negb _) eqn:Hsmall; [done|].
  destruct (MAXSIZE <? _)%Z eqn:Htotal; [done|]. intros [= <-]. apply Z.ltb_ge in Htotal. split; [|done].
  apply negb_false_iff in Hsmall. rewrite forallb_forall in Hsmall. apply mapM_Some in Hds.
  apply Forall2_fmap_r.
  assert (∀ d, d ∈ ds → (digits d.1 + 10 <= foldr Z.max 0 ((λ d, digits d.1) <$> ds) + 10)%Z) as Hdig by apply max_digits.
  revert Hsmall Hdig. generalize (foldr Z.max 0 ((λ d, digits d.1) <$> ds) + 10)%Z. clear Htotal Hbig. intros prec.
  induction Hds as [|item [c e] items ds Hi Hds IH]; intros Hsmall Hdig; constructor.
  - destruct item as [d|]; [|done]. apply positive_finite_spec in Hi as [-> Hc].
    assert (page <= size_bytes page prec (c, e))%Z as Hmin by (apply Z.leb_le, Hsmall; by left).
    exists c, e. split_and!; [done..| |done]. apply size_bytes_exact; [done|simpl; lia|]. apply (Hdig (c, e)). by left.
  - apply IH; [intros x Hx; apply Hsmall; by right|intros d Hd; apply Hdig; by right].
Qed.
End Sizes.

(** Half a gigabyte, and 1.000000000000000000000000000001 gigabytes. *)
Lemma pool_sizes_exact_witness :
  parse_pool_sizes_gb 4096 [Some (DFinite false 5 (-1)); Some (DFinite false 1000000000000000000000000000001 (-30))] =
    Ret [536870912%Z; 1073741824%Z] ∧
  Forall2 (taken_size 4096) [Some (DFinite false 5 (-1)); Some (DFinite false 1000000000000000000000000000001 (-30))]
    [536870912%Z; 1073741824%Z].
Proof.
  assert (parse_pool_sizes_gb 4096 [Some (DFinite false 5 (-1)); Some (DFinite false 1000000000000000000000000000001 (-30))] =
    Ret [536870912%Z; 1073741824%Z]) as H by (vm_compute; reflexivity).
  split; [exact H|]. apply (pool_sizes_exact 4096 eq_refl _ _ H).
Defined.

(** A service that is ready is live. *)
Lemma guards_ready timeout now guards :
  guards_status timeout now true guards = None → guards_status timeout now false guards = None.
Proof. induction guards as [|g guards IH]; simpl; [done|]. repeat case_match; naive_solver. Qed.
Lemma ready_is_live timeout now stopping server dependency reason :
  do_get (λ ready, main_status timeout now stopping ready server) dependency "/ready" = (200%Z, reason) →
  do_get (λ ready, main_status timeout now stopping ready server) dependency "/live" = (200, "ok")%Z.
Proof.
  unfold do_get, main_status, health_status. simpl. destruct stopping; [by repeat case_match|].
  destruct server as [s|]; [|by repeat case_match]. destruct (hv_stopping s); [by repeat case_match|].
  destruct (hv_fatal_error s); [by repeat case_match|].
  destruct (hv_last_progress s) as [p|]; [destruct (timeout <? now - p)%Z; [by repeat case_match|]|];
    (destruct (negb (bool_decide (length (hv_guards s) = hv_guard_count s))); [by repeat case_match|]);
    destruct (guards_status timeout now true (hv_guards s)) as [[code text]|] eqn:Hg.
  2:{ apply guards_ready in Hg as ->. by repeat case_match. }
  3:{ by repeat case_match. }
  all: assert (code = 503%Z) as -> by (revert Hg; clear; induction (hv_guards s) as [|g l IH]; simpl; repeat case_match; naive_solver);
    by repeat case_match.
Qed.
