(* ===== verification/Startup.v ===== *)
(** * Starting and closing a cache

    The public object ([KVCR] of [src/src/kvcr/api.py]): its start with or without a pool of the
    service ([claim_guarded_pool], [adopt_claimed_pool] of [recovery_journal.py]), the checks a
    core makes of its configuration ([_KVCRCore.__init__], [_RemoteFWDram.__init__]), and its
    close.  Calls of parts modelled elsewhere are recorded with their answers, which the
    environment chooses from what happened before. *)

From Stdlib Require Import ZArith Lia.
From S2P Require Import Prelude Types Transfer Snapshot Protocol Daemon.

(** ** The configuration of a core *)

Record PinCallbacks := mkPinCallbacks {
  pc_request : bool; pc_poll_results : bool; pc_release : bool; pc_cancel : bool }.
Record CoreConfig := mkCoreConfig {
  cc_pool_layouts : PoolLayouts;
  cc_framework_regions : list RegionDescriptor;
  cc_operation_timeout_ms : Z;
  cc_abandon_timeout_ms : Z;
  cc_startup_timeout_seconds : option Z;
  cc_capacity_low_watermark_percent : PyFloat;
  cc_local_dram : bool;
  cc_g3 : bool;
  cc_required_tiers : option (gset CacheTier);  (** of the policy, if there is one *)
  cc_framework_control : bool;
  cc_pins : PinCallbacks;
  cc_metadata_retry_interval_ms : Z;
  cc_remote_backend : string }.
Definition with_local_dram (c : CoreConfig) : CoreConfig :=
  mkCoreConfig (cc_pool_layouts c) (cc_framework_regions c) (cc_operation_timeout_ms c) (cc_abandon_timeout_ms c)
    (cc_startup_timeout_seconds c) (cc_capacity_low_watermark_percent c) true (cc_g3 c) (cc_required_tiers c)
    (cc_framework_control c) (cc_pins c) (cc_metadata_retry_interval_ms c) (cc_remote_backend c).
Definition configured_tiers (c : CoreConfig) : gset CacheTier :=
  (if cc_local_dram c then {[LOCAL_G2]} else ∅) ∪ (if cc_g3 c then {[G3]} else ∅).
Definition required_tiers (c : CoreConfig) : gset CacheTier :=
  match cc_required_tiers c with
  | Some tiers => tiers
  | None => if cc_g3 c then {[G3]} else ∅
  end.
(** What [_KVCRCore.__init__] checks before it builds its parts. *)
Definition check_core (c : CoreConfig) : result unit :=
  validate_pool_layouts (cc_pool_layouts c) ;;
  validate_memory_regions ∅ (cc_framework_regions c) ;;
  guard_raise (bool_decide (¬ NoDup (rd_label <$> cc_framework_regions c)))
    (ValueError "framework registration names must be unique") ;;
  guard_raise (existsb (λ region, negb (bool_decide (assoc (pool_of (rd_label region)) (cc_pool_layouts c) = Some (rd_size region))))
    (cc_framework_regions c)) (ValueError "registration elements must match configured pool sizes") ;;
  guard_raise (cc_operation_timeout_ms c <=? 0)%Z (ValueError "operation_timeout_ms must be positive") ;;
  guard_raise (match cc_startup_timeout_seconds c with Some t => (t <=? 0)%Z | None => false end)
    (ValueError "startup_timeout_seconds must be a positive integer or None") ;;
  guard_raise (cc_abandon_timeout_ms c <? 2 * cc_operation_timeout_ms c)%Z
    (ValueError "abandon_timeout_ms must be at least twice operation_timeout_ms") ;;
  guard_raise (negb (float_le (float_of 0) (cc_capacity_low_watermark_percent c) &&
                     float_le (cc_capacity_low_watermark_percent c) (float_of 100)))
    (ValueError "capacity_low_watermark_percent must be between 0 and 100") ;;
  guard_raise (negb (bool_decide (required_tiers c ⊆ configured_tiers c))) (ValueError "policy requires configured tiers") ;;
  guard_raise (cc_g3 c && negb (cc_local_dram c)) (ValueError "G3 requires configured local DRAM").
(** [_RemoteFWDram.__init__] *)
Definition check_remote (c : CoreConfig) : result unit :=
  let p := cc_pins c in
  guard_raise (cc_metadata_retry_interval_ms c <=? 0)%Z (ValueError "metadata_retry_interval_ms must be positive") ;;
  guard_raise (bool_decide (cc_remote_backend c = "")) (ValueError "remote framework DRAM NIXL backend must be non-empty") ;;
  guard_raise (if pc_request p then negb (pc_poll_results p) || negb (pc_release p)
               else pc_poll_results p || pc_release p || pc_cancel p)
    (ValueError "framework pinning requires request_pin, poll_pin_results, and release_pin").

(** ** Calls and state *)

Inductive KAct :=
  | KLocalDram | KG3 | KBindAddress | KClaim | KReadHandback | KAttachJournal | KInstall | KHandListener
  | KStart | KCommit | KCoreClose | KQuiescent | KRelease (activated : bool).
Inductive KAnswer := KDone | KRegions (regions : list RegionDescriptor) | KYes (b : bool).
#[export] Instance KAct_eq_dec : EqDecision KAct.
Proof. solve_decision. Defined.
Definition KHistory := list (KAct * result KAnswer).

(** What an embedder asks for: whether a pool of the service, whether its control can share its
    endpoint, and what the grant says of incarnations. *)
Record StartInput := mkStartInput {
  si_config : CoreConfig;
  si_guarded : bool;
  si_can_share_control : bool;
  si_incarnation : option string;
  si_dead_incarnations : gset string }.
(** [core] and [pool_hold], the resources retained to the end of the process, what the core
    knows of incarnations, and the history. *)
Record Kvcr := mkKvcr {
  kv_core : bool;
  kv_hold : bool;
  kv_retained : bool;
  kv_incarnation : option string;
  kv_dead_incarnations : gset string;
  kv_acts : KHistory }.
Definition set_core (s : Kvcr) : Kvcr :=
  mkKvcr true (kv_hold s) (kv_retained s) (kv_incarnation s) (kv_dead_incarnations s) (kv_acts s).
Definition set_hold (v : bool) (s : Kvcr) : Kvcr :=
  mkKvcr (kv_core s) v (kv_retained s) (kv_incarnation s) (kv_dead_incarnations s) (kv_acts s).
Definition retain (s : Kvcr) : Kvcr :=
  mkKvcr (kv_core s) (kv_hold s) true (kv_incarnation s) (kv_dead_incarnations s) (kv_acts s).
Definition learn (incarnation : string) (dead : gset string) (s : Kvcr) : Kvcr :=
  mkKvcr (kv_core s) (kv_hold s) (kv_retained s) (Some incarnation) (dead ∪ kv_dead_incarnations s) (kv_acts s).
Definition krecord (a : KAct) (r : result KAnswer) (s : Kvcr) : Kvcr :=
  mkKvcr (kv_core s) (kv_hold s) (kv_retained s) (kv_incarnation s) (kv_dead_incarnations s) (kv_acts s ++ [(a, r)]).
Definition kvcr_fresh : Kvcr := mkKvcr false false false None ∅ [].

Section Startup.
Context (world : KHistory → KAct → result KAnswer).
Definition kask (a : KAct) : M Kvcr KAnswer := λ s,
  let r := world (kv_acts s) a in (r, krecord a r s).
Definition kact (a : KAct) : M Kvcr unit := kask a ;; mret tt.
Definition ksee (a : KAct) : M Kvcr bool := λ s,
  let r := world (kv_acts s) a in
  (Ret (match r with Ret (KYes b) => b | _ => false end), krecord a r s).

(** [_KVCRCore.__init__] *)
Definition new_core (c : CoreConfig) : M Kvcr unit :=
  lift (check_core c) ;;
  kvcr_regions ← (if cc_local_dram c then x ← kask KLocalDram; mret (match x with KRegions r => r | _ => [] end) else mret []);
  lift (check_remote c) ;;
  (if cc_g3 c && cc_local_dram c then kact KG3 else mret tt) ;;
  lift (validate_memory_regions ∅ (cc_framework_regions c ++ kvcr_regions)) ;;
  lift (guard_raise (negb (cc_local_dram c || cc_framework_control c))
    (ValueError "at least one DRAM backend must be configured")) ;;
  modify set_core.
(** [claim_guarded_pool] *)
Definition claim_guarded_pool (i : StartInput) : M Kvcr unit :=
  if cc_local_dram (si_config i) then raise (ValueError "guard_config conflicts with backend_configs.local_dram") else
  if negb (si_can_share_control i) then raise (ValueError "guard_config needs a framework control") else
  kact KBindAddress ;;
  kact KClaim ;;
  try_except (kact KReadHandback)
    (λ e, try_except (kact (KRelease false)) (λ _, mret tt) ;; raise e).
(** [adopt_claimed_pool]; the core has the local DRAM of the claim. *)
Definition adopt_claimed_pool (i : StartInput) : M Kvcr unit :=
  match si_incarnation i with
  | Some incarnation => modify (learn incarnation (si_dead_incarnations i))
  | None => mret tt
  end ;;
  kact KAttachJournal ;;
  kact KInstall ;;
  kact KHandListener.
(** [KVCR.__init__] *)
Definition kvcr_start (i : StartInput) : M Kvcr unit :=
  (if si_guarded i then
     claim_guarded_pool i ;;
     modify (set_hold true) ;;
     new_core (with_local_dram (si_config i)) ;;
     adopt_claimed_pool i
   else new_core (si_config i)) ;;
  kact KStart ;;
  (if si_guarded i then kact KCommit else mret tt).
(** Its [except]: a core that may still move keeps the pool to the end of the process. *)
Definition start_failed (e : exn) : M Kvcr unit :=
  core ← gets kv_core;
  close_failed ← (if core : bool then try_except (kact KCoreClose ;; mret false) (λ _, mret true) else mret false);
  moving ← (if core : bool then (if close_failed : bool then mret true else (q ← ksee KQuiescent; mret (negb q))) else mret false);
  if moving : bool then modify retain ;; raise (RuntimeError "KVCRStartupError") else
  hold ← gets kv_hold;
  (if hold : bool then try_except (kact (KRelease false)) (λ _, mret tt) else mret tt) ;;
  raise e.
Definition kvcr_init (i : StartInput) : M Kvcr unit := try_except (kvcr_start i) start_failed.
(** [_release_pool_hold] *)
Definition release_pool_hold : M Kvcr unit :=
  hold ← gets kv_hold;
  if hold : bool then kact (KRelease true) ;; modify (set_hold false) else mret tt.
(** [KVCR.close] *)
Definition kvcr_close : M Kvcr unit :=
  try_except (kact KCoreClose)
    (λ e,
      quiescent ← ksee KQuiescent;
      if negb quiescent then raise e else
      try_except release_pool_hold (λ _, mret tt) ;;
      raise e) ;;
  release_pool_hold.
(** A cache that is made, and closed so many times. *)
Definition kvcr_life (i : StartInput) (closes : nat) : M Kvcr unit :=
  kvcr_init i ;; for_each (replicate closes tt) (λ _, try_except kvcr_close (λ _, mret tt)).
End Startup.
