(* ===== verification/StartupThm.v ===== *)
(** * Starting and closing a cache: the pool outlives what uses it

    A pool leased from the service is given back once, never while its core may still reach it,
    and never kept by a start that failed unless it has to be. *)

From Stdlib Require Import ZArith Lia.
From S2P Require Import Prelude Types Transfer Snapshot Protocol Daemon Startup.

Definition is_release (a : KAct) : bool := match a with KRelease _ => true | _ => false end.
Definition happened (h : KHistory) (a : KAct) : Prop := ∃ r, (a, r) ∈ h.
Definition went_well (h : KHistory) (a : KAct) : Prop := ∃ x, (a, Ret x) ∈ h.
Definition releases (h : KHistory) : list KAct := filter (λ a, is_release a = true) h.*1.
(** The core was wired to the pool, or started. *)
Definition core_used (h : KHistory) : Prop := happened h KAttachJournal ∨ happened h KStart.
(** The last that happened: the core was closed, or seen quiescent. *)
Definition let_loose (h : KHistory) : Prop :=
  ∃ h0, (∃ x, h = h0 ++ [(KCoreClose, Ret x)]) ∨ h = h0 ++ [(KQuiescent, Ret (KYes true))].
Record history_ok (h : KHistory) : Prop := mk_history_ok {
  ho_safe : ∀ h1 a r h2, h = h1 ++ (KRelease a, r) :: h2 → core_used h1 → let_loose h1;
  ho_once : ∀ h1 a x h2 b, h = h1 ++ (KRelease a, Ret x) :: h2 → ¬ happened h2 (KRelease b);
  ho_commit : ∀ h1 r h2, h = h1 ++ (KCommit, r) :: h2 → went_well h1 KStart }.
(** While the cache lives: what its fields say of the history. *)
Record kvcr_ok (s : Kvcr) : Prop := mk_kvcr_ok {
  ko_history : history_ok (kv_acts s);
  ko_core : core_used (kv_acts s) → kv_core s = true;
  ko_hold : kv_hold s = true → ∀ a, ¬ went_well (kv_acts s) (KRelease a) }.

Lemma happened_snoc h a r b : happened (h ++ [(a, r)]) b ↔ happened h b ∨ a = b.
Proof. unfold happened. setoid_rewrite elem_of_app. setoid_rewrite list_elem_of_singleton. naive_solver. Qed.
Lemma well_snoc h a r b : went_well (h ++ [(a, r)]) b ↔ went_well h b ∨ (a = b ∧ is_ret r = true).
Proof.
  unfold went_well. setoid_rewrite elem_of_app. setoid_rewrite list_elem_of_singleton.
  destruct r; simpl; naive_solver.
Qed.
Lemma kvcr_split {A} (h : list A) x h1 y h2 : h ++ [x] = h1 ++ y :: h2 →
  (h2 = [] ∧ h = h1 ∧ x = y) ∨ (∃ h2', h2 = h2' ++ [x] ∧ h = h1 ++ y :: h2').
Proof.
  intros H. destruct (decide (h2 = [])) as [->|Hne].
  - left. apply app_inj_tail in H as [? ?]. done.
  - right. destruct (exists_last Hne) as (h2' & z & ->). exists h2'.
    rewrite app_comm_cons, app_assoc in H. apply app_inj_tail in H as [-> ->]. done.
Qed.
(** A call may be added. *)
Definition may_add (h : KHistory) (a : KAct) : Prop :=
  match a with
  | KRelease _ => (core_used h → let_loose h) ∧ ∀ b, ¬ went_well h (KRelease b)
  | KCommit => went_well h KStart
  | _ => True
  end.
Lemma history_snoc h a r : history_ok h → may_add h a → history_ok (h ++ [(a, r)]).
Proof.
  intros [S O C] Ha. split.
  - intros h1 b r' h2 [(-> & <- & [= -> ->])|(h2' & -> & H)]%kvcr_split; [by apply Ha|by eapply S].
  - intros h1 b x h2 c [(-> & <- & [= -> ->])|(h2' & -> & H)]%kvcr_split; [by intros (? & ?%elem_of_nil)|].
    rewrite happened_snoc. intros [Hc| ->]; [by eapply O|]. destruct Ha as [_ Ha]. apply (Ha b). exists x. rewrite H. set_solver.
  - intros h1 r' h2 [(-> & <- & [= -> ->])|(h2' & -> & H)]%kvcr_split; [done|by eapply C].
Qed.

Section Startup.
Context (world : KHistory → KAct → result KAnswer).

(** ** What a call does *)

Definition ordinary (a : KAct) : Prop :=
  match a with KRelease _ | KCommit | KAttachJournal | KStart => False | _ => True end.
Lemma wp_kask a (Q : KAnswer → Kvcr → Prop) E s :
  (∀ x, world (kv_acts s) a = Ret x → Q x (krecord a (Ret x) s)) →
  (∀ e, world (kv_acts s) a = Raise e → E e (krecord a (Raise e) s)) → wp (kask world a) Q E s.
Proof. intros HQ HE. unfold wp, kask. destruct (world _ _); auto. Qed.
Lemma wp_kact a (Q : unit → Kvcr → Prop) E s :
  (∀ x, world (kv_acts s) a = Ret x → Q tt (krecord a (Ret x) s)) →
  (∀ e, world (kv_acts s) a = Raise e → E e (krecord a (Raise e) s)) → wp (kact world a) Q E s.
Proof. intros HQ HE. unfold kact. apply wp_bind, wp_kask; [|done]. intros x Hx. by apply wp_ret, HQ. Qed.
Lemma wp_ksee a (Q : bool → Kvcr → Prop) E s :
  (∀ r, world (kv_acts s) a = r → Q (match r with Ret (KYes b) => b | _ => false end) (krecord a r s)) →
  wp (ksee world a) Q E s.
Proof. intros HQ. unfold wp, ksee. by apply HQ. Qed.
Lemma record_ok a r s : kvcr_ok s → may_add (kv_acts s) a →
  (a = KAttachJournal ∨ a = KStart → kv_core s = true) → (is_release a = true → kv_hold s = false) →
  kvcr_ok (krecord a r s).
Proof.
  intros [H C L] Ha Hc Hh. split; simpl.
  - by apply history_snoc.
  - unfold core_used. rewrite !happened_snoc. intros [[?| ->]|[?| ->]]; auto; apply C; [by left|by right].
  - intros Hold b. rewrite well_snoc. intros [Hw|[-> _]]; [by eapply L|]. specialize (Hh eq_refl). congruence.
Qed.
Lemma ordinary_ok a r s : ordinary a → kvcr_ok s → kvcr_ok (krecord a r s).
Proof. intros Ha Hs. apply record_ok; [done|by destruct a|by destruct a as [| | | | | | | | | | | |]; intros []|by destruct a]. Qed.
Lemma same_ok s s' : kvcr_ok s → kv_acts s' = kv_acts s → (kv_core s = true → kv_core s' = true) →
  (kv_hold s' = true → kv_hold s = true) → kvcr_ok s'.
Proof. intros [H C L] Ha Hc Hh. split; rewrite Ha; auto. Qed.

(** ** The start *)

(** Before anything was given back: what was claimed, built and is held. *)
Record starting (claimed core hold : bool) (s : Kvcr) : Prop := mk_starting {
  st_ok : kvcr_ok s;
  st_core : kv_core s = core;
  st_hold : kv_hold s = hold;
  st_retained : kv_retained s = false;
  st_none : releases (kv_acts s) = [];
  st_claimed : went_well (kv_acts s) KClaim ↔ claimed = true }.
Lemma releases_snoc h a r : releases (h ++ [(a, r)]) = releases h ++ (if is_release a then [a] else []).
Proof. unfold releases. rewrite fmap_app, filter_app. f_equal. by destruct a. Qed.
Lemma none_well h b : releases h = [] → ¬ happened h (KRelease b).
Proof.
  intros Hn (r & Hr). assert (KRelease b ∈ releases h) as Hin.
  { apply list_elem_of_filter. split; [done|]. exact (list_elem_of_fmap_2 fst _ (KRelease b, r) Hr). }
  rewrite Hn in Hin. by apply elem_of_nil in Hin.
Qed.
Lemma starting_record a r claimed core hold s : starting claimed core hold s → a ≠ KClaim → is_release a = false →
  may_add (kv_acts s) a → (a = KAttachJournal ∨ a = KStart → core = true) → starting claimed core hold (krecord a r s).
Proof.
  intros [O C H R N L] Hn Hr Ha Hc. split; simpl; try done.
  - apply record_ok; [done..|rewrite C; done|congruence].
  - by rewrite releases_snoc, N, Hr.
  - rewrite well_snoc. split; [intros [?|[? _]]; [by apply L|done]|intros Hl; left; by apply L].
Qed.
Lemma wp_starting a claimed core hold (Q : unit → Kvcr → Prop) E s :
  starting claimed core hold s → a ≠ KClaim → is_release a = false → may_add (kv_acts s) a →
  (a = KAttachJournal ∨ a = KStart → core = true) →
  (∀ s', starting claimed core hold s' → went_well (kv_acts s') a → Q tt s') →
  (∀ e s', starting claimed core hold s' → E e s') → wp (kact world a) Q E s.
Proof.
  intros Hs Hn Hr Ha Hc HQ HE. apply wp_kact; [intros x _; apply HQ|intros e _; apply HE]; try by apply starting_record.
  simpl. apply well_snoc. by right.
Qed.
Lemma wp_lift {A} (r : result A) (Q : A → Kvcr → Prop) E s :
  (∀ a, r = Ret a → Q a s) → (∀ e, r = Raise e → E e s) → wp (lift r) Q E s.
Proof. intros HQ HE. unfold wp, lift. destruct r; auto. Qed.
Lemma new_core_spec c claimed hold s : starting claimed false hold s →
  wp (new_core world c) (λ _, starting claimed true hold) (λ _, starting claimed false hold) s.
Proof.
  intros Hs. unfold new_core. apply wp_bind, wp_lift; [|done]. intros _ _.
  apply wp_bind. eapply (wp_mono _ _ (λ _, starting claimed false hold) _ (λ _, starting claimed false hold)).
  { destruct (cc_local_dram c); [|by wp]. apply wp_bind, wp_kask; [intros x _; wp|intros e _]; (apply starting_record; [done..|by intros []]). }
  2:{ done. }
  intros regions s1 Hs1. apply wp_bind, wp_lift; [|done]. intros _ _.
  apply wp_bind. eapply (wp_mono _ _ (λ _, starting claimed false hold) _ (λ _, starting claimed false hold)).
  { destruct (_ && _); [|by wp]. eapply wp_starting; [done..|by intros []|done|done]. }
  2:{ done. }
  intros [] s2 Hs2. apply wp_bind, wp_lift; [|done]. intros _ _. apply wp_bind, wp_lift; [|done]. intros _ _.
  wp. destruct Hs2 as [O C H R N L]. split; try done. by eapply same_ok.
Qed.

(** Given back, or kept to the end of the process; the cache is no more. *)
Definition ended (claimed : bool) (s : Kvcr) : Prop :=
  history_ok (kv_acts s) ∧ (went_well (kv_acts s) KClaim ↔ claimed = true) ∧
  if claimed
  then (kv_retained s = true ∧ kv_core s = true ∧ releases (kv_acts s) = []) ∨
       (kv_retained s = false ∧ releases (kv_acts s) = [KRelease false])
  else releases (kv_acts s) = [].
(** A claim that fails leaves nothing behind. *)
Definition unclaimed (s : Kvcr) : Prop :=
  starting false false false s ∨ (kv_core s = false ∧ kv_hold s = false ∧ ended true s).
Lemma release_record h : history_ok h → releases h = [] → (core_used h → let_loose h) → ∀ a r, history_ok (h ++ [(KRelease a, r)]).
Proof.
  intros H Hn Hl a r. apply history_snoc; [done|]. split; [done|]. intros b [x Hx]. apply (none_well _ b Hn). by exists (Ret x).
Qed.
Lemma claim_spec i s : starting false false false s →
  wp (claim_guarded_pool world i) (λ _, starting true false false) (λ _, unclaimed) s.
Proof.
  intros Hs. unfold claim_guarded_pool. assert (unclaimed s) by by left. destruct (cc_local_dram _); [by wp|].
  destruct (negb _); [by wp|]. apply wp_bind.
  eapply wp_starting; [done..|by intros []| |by intros; left]. intros s1 Hs1 _.
  apply wp_bind, wp_kact.
  2:{ intros e _. left. destruct Hs1 as [O C H' R N L]. split; simpl; try done; [by apply ordinary_ok|by rewrite releases_snoc, N|].
      rewrite well_snoc. simpl. split; [intros [?|[_ ?]]; [by apply L|done]|done]. }
  intros x _. assert (starting true false false (krecord KClaim (Ret x) s1)) as Hs2.
  { destruct Hs1 as [O C H' R N L]. split; simpl; try done; [by apply ordinary_ok|by rewrite releases_snoc, N|].
    rewrite well_snoc. split; [done|]. intros _. by right. }
  revert Hs2. generalize (krecord KClaim (Ret x) s1). intros s2 Hs2. apply wp_try_except.
  eapply wp_starting; [done..|by intros []|done|]. intros e s3 [O C H' R N L]. apply wp_bind, wp_try_except.
  assert (∀ r, unclaimed (krecord (KRelease false) r s3)) as Hend.
  { intros r. right. split_and!; [done..|]. split_and!; simpl.
    - apply release_record; [apply O|done|]. intros Hu. apply (ko_core _ O) in Hu. congruence.
    - rewrite well_snoc. rewrite L. simpl. naive_solver.
    - right. by rewrite releases_snoc, N. }
  apply wp_kact; intros; wp; apply Hend.
Qed.
Lemma adopt_spec i claimed hold s : starting claimed true hold s →
  wp (adopt_claimed_pool world i) (λ _, starting claimed true hold) (λ _, starting claimed true hold) s.
Proof.
  intros Hs. unfold adopt_claimed_pool. apply wp_bind.
  eapply (wp_mono _ _ (λ _, starting claimed true hold) _ (λ _, starting claimed true hold)); [| |done].
  { destruct (si_incarnation i); wp; [|done]. destruct Hs as [O C H R N L]. split; try done. by eapply same_ok. }
  intros [] s1 Hs1. apply wp_bind. eapply wp_starting; [done..| |done]. intros s2 Hs2 _.
  apply wp_bind. eapply wp_starting; [done..| |done]. intros s3 Hs3 _.
  by eapply wp_starting.
Qed.
Definition started_well (i : StartInput) (s : Kvcr) : Prop :=
  starting (si_guarded i) true (si_guarded i) s ∧ went_well (kv_acts s) KStart ∧
  (si_guarded i = true → went_well (kv_acts s) KCommit).
(** However far the start got. *)
Definition failed (s : Kvcr) : Prop :=
  (∃ claimed core hold, starting claimed core hold s ∧ hold = claimed) ∨ (kv_core s = false ∧ kv_hold s = false ∧ ended true s).
Lemma failed_at claimed core s : starting claimed core claimed s → failed s.
Proof. intros Hs. left. by exists claimed, core, claimed. Qed.
Lemma kvcr_start_spec i s : starting false false false s →
  wp (kvcr_start world i) (λ _, started_well i) (λ _, failed) s.
Proof.
  intros Hs. unfold kvcr_start. apply wp_bind.
  eapply (wp_mono _ _ (λ _, starting (si_guarded i) true (si_guarded i)) _ (λ _, failed)); [| |done].
  - destruct (si_guarded i).
    + apply wp_bind. eapply wp_mono; [by apply claim_spec| |].
      2:{ intros e s1 [H1|?]; [exact (failed_at _ _ _ H1)|by right]. }
      intros [] s1 Hs1. wp. assert (starting true false true (set_hold true s1)) as Hs2.
      { destruct Hs1 as [O C H R N L]. split; try done. split; [apply O|apply O|]. intros _ a [x Hx].
        apply (none_well _ a N). by exists (Ret x). }
      eapply wp_mono; [exact (new_core_spec _ _ _ _ Hs2)| |].
      2:{ intros e s3 Hs3. exact (failed_at _ _ _ Hs3). }
      intros [] s3 Hs3. eapply wp_mono; [exact (adopt_spec i _ _ _ Hs3)|done|]. intros e s4 Hs4. exact (failed_at _ _ _ Hs4).
    + eapply wp_mono; [exact (new_core_spec _ _ _ _ Hs)|done|]. intros e s1 Hs1. exact (failed_at _ _ _ Hs1).
  - intros [] s1 Hs1. apply wp_bind. eapply wp_starting; [done..| |].
    2:{ intros e s2 Hs2. exact (failed_at _ _ _ Hs2). }
    intros s2 Hs2 Hw. destruct (si_guarded i) eqn:Hg.
    + apply wp_kact; intros.
      * split_and!; [by rewrite Hg; apply starting_record|apply well_snoc; by left|].
        intros _. apply well_snoc. by right.
      * eapply failed_at. by apply starting_record.
    + wp. split_and!; [by rewrite Hg|done|congruence].
Qed.
(** What the [except] of a start leaves. *)
Lemma start_failed_spec e s : failed s →
  wp (start_failed world e) (λ _ _, False) (λ _ s', ∃ claimed, ended claimed s') s.
Proof.
  intros Hs. unfold start_failed. wp. destruct Hs as [(claimed & core & hold & Hs & ->)|(Hc & Hh & He)].
  2:{ rewrite Hc. wp. rewrite Hh. wp. by exists true. }
  pose proof (st_core _ _ _ _ Hs) as ->. destruct core.
  - assert (∀ s', starting claimed true claimed s' → ended claimed (retain s')) as Hret.
    { intros s' [O C H R N L]. split_and!; [apply O|done|]. destruct claimed; [by left|done]. }
    eapply (wp_mono _ _ (λ b s', starting claimed true claimed s' ∧
      (b = false → ∃ h x, kv_acts s' = h ++ [(KCoreClose, Ret x)])) _ (λ _ _, False)); [| |done].
    { apply wp_try_except, wp_bind, wp_kact; intros; wp; (split; [by apply starting_record|]); [|done].
      intros _. by eexists _, _. }
    intros close_failed s1 [Hs1 Hl]. destruct close_failed.
    { wp. exists claimed. by apply Hret. }
    apply wp_bind, wp_bind, wp_ksee. intros r Hr. wp.
    assert (starting claimed true claimed (krecord KQuiescent r s1)) as Hs2 by by apply starting_record.
    destruct r as [[|regions|[|]]|e']; simpl; wp; try (exists claimed; by apply Hret).
    rewrite (st_hold _ _ _ _ Hs2). destruct claimed; wp.
    + apply wp_try_except. destruct Hs2 as [O C H R N L].
      assert (∀ r, ended true (krecord (KRelease false) r (krecord KQuiescent (Ret (KYes true)) s1))) as Hend.
      { intros r. split_and!; simpl.
        - apply (release_record (kv_acts s1 ++ [(KQuiescent, Ret (KYes true))])); [apply O|done|].
          intros _. exists (kv_acts s1). by right.
        - rewrite well_snoc. simpl in L. rewrite L. simpl. naive_solver.
        - right. simpl in N. by rewrite releases_snoc, N. }
      apply wp_kact; intros; wp; exists true; apply Hend.
    + exists false. destruct Hs2 as [O C H R N L]. split_and!; [apply O|done|done].
  - wp. rewrite (st_hold _ _ _ _ Hs). destruct claimed; wp.
    + apply wp_try_except. destruct Hs as [O C H R N L].
      assert (∀ r, ended true (krecord (KRelease false) r s)) as Hend.
      { intros r. split_and!; simpl.
        - apply release_record; [apply O|done|]. intros Hu. apply (ko_core _ O) in Hu. congruence.
        - rewrite well_snoc, L. simpl. naive_solver.
        - right. by rewrite releases_snoc, N. }
      apply wp_kact; intros; wp; exists true; apply Hend.
    + exists false. destruct Hs as [O C H R N L]. split_and!; [apply O|done|done].
Qed.
Lemma fresh_starting : starting false false false kvcr_fresh.
Proof.
  assert (∀ a, ¬ happened [] a) as Hn by (by intros a (? & ?%elem_of_nil)).
  split; try done.
  - split; [split; intros []|intros [?|?]; by edestruct Hn|]; try done.
  - simpl. split; [intros (? & ?%elem_of_nil); done|done].
Qed.
Lemma kvcr_init_spec i :
  wp (kvcr_init world i) (λ _, started_well i) (λ _ s', ∃ claimed, ended claimed s') kvcr_fresh.
Proof.
  unfold kvcr_init. apply wp_try_except. eapply wp_mono; [apply kvcr_start_spec, fresh_starting|done|].
  intros e s Hs. eapply wp_mono; [by apply start_failed_spec|by intros ? ? []|done].
Qed.

(** ** The close *)

Lemma release_hold_spec s : kvcr_ok s → let_loose (kv_acts s) →
  wp (release_pool_hold world) (λ _, kvcr_ok) (λ _, kvcr_ok) s.
Proof.
  intros Hs Hl. unfold release_pool_hold. wp. destruct (kv_hold s) eqn:Hh; [|by wp].
  assert (may_add (kv_acts s) (KRelease true)) as Ha by (split; [done|by apply (ko_hold _ Hs)]).
  apply wp_bind, wp_kact; intros; wp.
  - destruct Hs as [H1 C L]. split; simpl; [by apply history_snoc| |done].
    unfold core_used. rewrite !happened_snoc. intros [[?|?]|[?|?]]; try done; apply C; [by left|by right].
  - destruct Hs as [H1 C L]. split; simpl; [by apply history_snoc| |].
    + unfold core_used. rewrite !happened_snoc. intros [[?|?]|[?|?]]; try done; apply C; [by left|by right].
    + intros _ b. rewrite well_snoc. simpl. intros [Hw|[_ ?]]; [by eapply L|done].
Qed.
Lemma kvcr_close_spec s : kvcr_ok s → wp (kvcr_close world) (λ _, kvcr_ok) (λ _, kvcr_ok) s.
Proof.
  intros Hs. unfold kvcr_close. apply wp_bind, wp_try_except, wp_kact; intros.
  - apply release_hold_spec; [by apply ordinary_ok|]. exists (kv_acts s). left. by eexists.
  - apply wp_bind, wp_ksee. intros r Hr.
    assert (kvcr_ok (krecord KCoreClose (Raise e) s)) as Hs1 by by apply ordinary_ok.
    assert (kvcr_ok (krecord KQuiescent r (krecord KCoreClose (Raise e) s))) as Hs2 by by apply ordinary_ok.
    destruct r as [[|regions|[|]]|e']; simpl; wp; try done. apply wp_try_except.
    eapply wp_mono; [apply release_hold_spec; [done|]|by intros; wp..].
    exists (kv_acts (krecord KCoreClose (Raise e) s)). by right.
Qed.

(** C11: A start that returns has claimed the pool it was asked to, started the core and only then
    committed the claim, and nothing was given back; a start that raises after its claim gives
    the pool back exactly once, as one that never served, or keeps it with its core to the end
    of the process; one that claimed nothing gives nothing back. *)
Theorem start_all_or_nothing i :
  let '(r, s) := kvcr_init world i kvcr_fresh in
  match r with
  | Ret _ => kv_core s = true ∧ kv_hold s = si_guarded i ∧ releases (kv_acts s) = [] ∧ went_well (kv_acts s) KStart ∧
      (si_guarded i = true → went_well (kv_acts s) KClaim ∧ went_well (kv_acts s) KCommit)
  | Raise _ =>
      (went_well (kv_acts s) KClaim ∧ kv_retained s = true ∧ kv_core s = true ∧ releases (kv_acts s) = []) ∨
      (went_well (kv_acts s) KClaim ∧ kv_retained s = false ∧ releases (kv_acts s) = [KRelease false]) ∨
      (¬ went_well (kv_acts s) KClaim ∧ releases (kv_acts s) = [])
  end.
Proof.
  pose proof (kvcr_init_spec i) as Hi. unfold wp in Hi. destruct (kvcr_init world i kvcr_fresh) as [[[]|e] s].
  - destruct Hi as ([O C H R N L] & Hw & Hc). split_and!; [done..|]. intros Hg. split; [by apply L|by apply Hc].
  - destruct Hi as ([|] & _ & Hcl & Hend).
    + assert (went_well (kv_acts s) KClaim) by by apply Hcl. destruct Hend as [(? & ? & ?)|[? ?]]; auto 6.
    + right. right. split; [|done]. intros Hw. by apply Hcl in Hw.
Qed.

(** C6: However a cache is started, and however often it is closed: its pool is given back only
    when its core was just closed or seen quiescent, if it was ever wired to the pool or started;
    once that has returned it is never done again; and what was recovered is only dropped from
    the pool after the core has started. *)
Theorem pool_outlives_core i closes :
  let h := kv_acts (kvcr_life world i closes kvcr_fresh).2 in
  (∀ h1 a r h2, h = h1 ++ (KRelease a, r) :: h2 → core_used h1 → let_loose h1) ∧
  (∀ h1 a x h2 b, h = h1 ++ (KRelease a, Ret x) :: h2 → ¬ happened h2 (KRelease b)) ∧
  (∀ h1 r h2, h = h1 ++ (KCommit, r) :: h2 → went_well h1 KStart).
Proof.
  assert (wp (kvcr_life world i closes) (λ _ s, history_ok (kv_acts s)) (λ _ s, history_ok (kv_acts s)) kvcr_fresh) as Hl.
  { unfold kvcr_life. apply wp_bind. eapply wp_mono; [apply kvcr_init_spec| |by intros e s (? & ? & _)].
    intros [] s [Hs _]. eapply (wp_mono _ _ (λ _, kvcr_ok) _ (λ _, kvcr_ok)); [|by intros ? ? []..].
    eapply (wp_for_each _ _ (λ _, kvcr_ok)); [apply Hs| |done].
    intros x rest s1 Hs1. apply wp_try_except. eapply wp_mono; [by apply kvcr_close_spec|done|by intros; wp]. }
  cbv zeta. unfold wp in Hl. destruct (kvcr_life world i closes kvcr_fresh) as [[[]|e] s]; destruct Hl; split_and!; done.
Qed.
End Startup.
