(* ===== verification/Channels.v ===== *)
(** * Control channels

    The descriptors that cross a [FramedConnection] and the sockets of the peer channel
    ([ZmqPeerControlChannel]), both of [src/src/kvcr/runtime/control_channels.py]; the frames
    themselves are in [Protocol]. *)

From Stdlib Require Import ZArith Lia.
From stdpp Require Import pretty.
From S2P Require Import Prelude Types Journal Protocol.

(** ** Frames with descriptors *)

Section Framing.
Context {T : Type} (encode : T → list Z) (decode : list Z → result T).
Context (chunk : nat → nat → nat).

(** The unread stream, and the descriptors that were closed; closing an open one succeeds. *)
Record Received := mkReceived { rx_stream : Stream; rx_closed : list Z }.
Definition on_stream {A} (m : M Stream A) : M Received A := λ s,
  let '(r, stream) := m (rx_stream s) in (r, mkReceived stream (rx_closed s)).
Definition close_received (fd : Z) : M Received unit := modify (λ s, mkReceived (rx_stream s) (rx_closed s ++ [fd])).
(** [array("i").frombytes] of whole items *)
Fixpoint frombytes (data : list Z) : list Z :=
  match data with a :: b :: c :: d :: data => unle [a; b; c; d] :: frombytes data | _ => [] end.
(** The control messages that came with the first byte: whether each carries descriptors, and
    its data. *)
Definition ancillary_descriptors (ancillary : list (bool * list Z)) : list Z :=
  mjoin ((λ x, if x.1 : bool then frombytes x.2 else []) <$> ancillary).
(** [receive_with_fd] *)
Definition receive_with_fd (ancillary : list (bool * list Z)) (truncated : bool) (expected_counts : T → list nat)
    : M Received (T * list Z) :=
  header ← on_stream (recv chunk 4);
  if decide (header = []) then raise EOFError else
  let descriptors := ancillary_descriptors ancillary in
  try_except
    (if truncated then raise (KVCRMsgFramingError "truncated ancillary data") else
     if existsb (λ x, negb x.1) ancillary then raise (KVCRMsgFramingError "unexpected ancillary data") else
     header ← (if decide (length header < 4)
               then try_except (rest ← on_stream (receive_exact chunk (4 - length header)); mret (header ++ rest))
                      (λ e, match e with EOFError => raise (KVCRMsgFramingError "truncated frame") | _ => raise e end)
               else mret header);
     message ← on_stream (receive_after_header decode chunk header);
     if decide (length descriptors ∈ expected_counts message) then mret (message, descriptors)
     else raise (KVCRMsgFramingError "unexpected number of file descriptors"))
    (λ e, for_each descriptors close_received ;; raise e).
(** [send_with_fd]: the descriptors go with what [send_fds] takes, the rest follows; what is
    sent is the frame. *)
Definition send_with_fd (taken : nat) (message : T) : result (list Z * list Z) :=
  frame ← encode_frame encode message;
  mret (take taken frame, if decide (taken < length frame) then drop taken frame else []).
End Framing.

(** ** The peer channel *)

Inductive ZAct :=
  | ZCreateServer | ZFromFd (fd : Z) | ZSockname | ZSocket | ZDup | ZUseFd | ZBind (endpoint : string)
  | ZConnect (endpoint : string) | ZSend (endpoint : string) (message : list Z) | ZPoll | ZRecv | ZClose (resource : Z).
(** What a call answers besides raising; [ZAgain] and [ZFailed] are [zmq.Again] and any other
    [zmq.ZMQError], where the code tells them apart. *)
Inductive ZAnswer := ZDone | ZAgain | ZFailed | ZReady (b : bool) | ZMessage (message : list Z) | ZAddress (host : string) (port : Z).
Definition ZHistory := list (ZAct * result ZAnswer).
(** The fields of the channel; sockets and descriptors are numbered as they are made, and for
    the proof it is recorded which are open, which were closed, and the calls. *)
Record Channel := mkChannel {
  ch_bind_host : string;
  ch_bind_port : Z;
  ch_advertise_host : string;
  ch_endpoint : option string;
  ch_bind_endpoint : string;
  ch_listener : option Z;
  ch_ctx : bool;
  ch_socket : option Z;
  ch_outgoing : list (string * Z);
  ch_next : Z;
  ch_open : gset Z;
  ch_closed : list Z;
  ch_acts : ZHistory }.
Definition set_listener (endpoint : option string) (bind_endpoint : string) (v : option Z) (s : Channel) : Channel :=
  mkChannel (ch_bind_host s) (ch_bind_port s) (ch_advertise_host s) endpoint bind_endpoint v (ch_ctx s) (ch_socket s)
    (ch_outgoing s) (ch_next s) (ch_open s) (ch_closed s) (ch_acts s).
Definition set_ctx (s : Channel) : Channel :=
  mkChannel (ch_bind_host s) (ch_bind_port s) (ch_advertise_host s) (ch_endpoint s) (ch_bind_endpoint s) (ch_listener s) true
    (ch_socket s) (ch_outgoing s) (ch_next s) (ch_open s) (ch_closed s) (ch_acts s).
Definition set_socket (v : option Z) (s : Channel) : Channel :=
  mkChannel (ch_bind_host s) (ch_bind_port s) (ch_advertise_host s) (ch_endpoint s) (ch_bind_endpoint s) (ch_listener s)
    (ch_ctx s) v (ch_outgoing s) (ch_next s) (ch_open s) (ch_closed s) (ch_acts s).
Definition set_outgoing (v : list (string * Z)) (s : Channel) : Channel :=
  mkChannel (ch_bind_host s) (ch_bind_port s) (ch_advertise_host s) (ch_endpoint s) (ch_bind_endpoint s) (ch_listener s)
    (ch_ctx s) (ch_socket s) v (ch_next s) (ch_open s) (ch_closed s) (ch_acts s).
Definition set_resources (next : Z) (open : gset Z) (closed : list Z) (s : Channel) : Channel :=
  mkChannel (ch_bind_host s) (ch_bind_port s) (ch_advertise_host s) (ch_endpoint s) (ch_bind_endpoint s) (ch_listener s)
    (ch_ctx s) (ch_socket s) (ch_outgoing s) next open closed (ch_acts s).
Definition zrecord (a : ZAct) (r : result ZAnswer) (s : Channel) : Channel :=
  mkChannel (ch_bind_host s) (ch_bind_port s) (ch_advertise_host s) (ch_endpoint s) (ch_bind_endpoint s) (ch_listener s)
    (ch_ctx s) (ch_socket s) (ch_outgoing s) (ch_next s) (ch_open s) (ch_closed s) (ch_acts s ++ [(a, r)]).
Definition tcp (host : string) (port : Z) : string := "tcp://" +:+ host +:+ ":" +:+ pretty port.
(** [__init__] *)
Definition make_channel (bind_host : string) (bind_port : Z) (advertise_host : string) : result Channel :=
  if (bind_port <=? 0)%Z then Raise (ValueError "KVCR control_port must be configured") else
  Ret (mkChannel bind_host bind_port advertise_host (Some (tcp advertise_host bind_port)) (tcp bind_host bind_port)
    None false None [] 0 ∅ [] []).
(** [control_bind_address] *)
Definition control_bind_address (s : Channel) : string * Z := (ch_bind_host s, ch_bind_port s).

Section Channel.
Context (world : ZHistory → ZAct → result ZAnswer).
Definition zask (a : ZAct) : M Channel ZAnswer := λ s,
  let r := world (ch_acts s) a in (r, zrecord a r s).
Definition zact (a : ZAct) : M Channel unit := zask a ;; mret tt.
(** A call that makes a socket or a descriptor. *)
Definition zmake (a : ZAct) : M Channel Z :=
  zask a ;;
  n ← gets ch_next;
  modify (λ s, set_resources (n + 1) ({[n]} ∪ ch_open s) (ch_closed s) s) ;;
  mret n.
(** A close is made once, whatever it answers; a descriptor may become another's. *)
Definition zclose (r : Z) : M Channel unit :=
  modify (λ s, set_resources (ch_next s) (ch_open s ∖ {[r]}) (ch_closed s ++ [r]) s) ;;
  zact (ZClose r).
Definition give_away (r : Z) : M Channel unit :=
  modify (λ s, set_resources (ch_next s) (ch_open s ∖ {[r]}) (ch_closed s) s).

(** [adopt_listener]; the descriptor is the channel's when it returns. *)
Definition adopt_listener (listener_fd : Z) : M Channel unit :=
  listener ← gets ch_listener;
  match listener with
  | Some _ => raise (RuntimeError "KVCR control channel already owns a listener")
  | None =>
      zact (ZFromFd listener_fd) ;;
      address ← zask ZSockname;
      let '(host, port) := match address with ZAddress host port => (host, port) | _ => ("", 0%Z) end in
      n ← gets ch_next;
      modify (λ s, set_resources (n + 1) ({[n]} ∪ ch_open s) (ch_closed s) s) ;;
      modify (λ s, set_listener (Some (tcp (ch_advertise_host s) port)) (tcp host port) (Some n) s)
  end.
(** [initialize] *)
Definition channel_initialize : M Channel unit :=
  listener ← gets ch_listener;
  match listener with
  | Some _ => mret tt
  | None => l ← zmake ZCreateServer; modify (λ s, set_listener (ch_endpoint s) (ch_bind_endpoint s) (Some l) s)
  end ;;
  modify set_ctx ;;
  socket ← zmake ZSocket;
  modify (set_socket (Some socket)) ;;
  adopted_fd ← zmake ZDup;
  endpoint ← gets ch_bind_endpoint;
  try_except (zact ZUseFd ;; zact (ZBind endpoint) ;; give_away adopted_fd)
    (λ e, zclose adopted_fd ;; zclose socket ;; modify (set_socket None) ;; raise e).
Fixpoint lookup_out (endpoint : string) (l : list (string * Z)) : option Z :=
  match l with [] => None | (k, v) :: l => if decide (k = endpoint) then Some v else lookup_out endpoint l end.
Definition remove_out (endpoint : string) (l : list (string * Z)) : list (string * Z) :=
  filter (λ x, x.1 ≠ endpoint) l.
(** [send] *)
Definition channel_send (endpoint : string) (message : list Z) : M Channel bool :=
  ctx ← gets ch_ctx;
  if negb ctx then raise (RuntimeError "KVCR control channel is not initialized") else
  outgoing ← gets ch_outgoing;
  socket ← match lookup_out endpoint outgoing with
    | Some socket => mret (Some socket)
    | None =>
        socket ← zmake ZSocket;
        connected ← zask (ZConnect endpoint);
        match connected with
        | ZFailed | ZAgain => zclose socket ;; mret None
        | _ => modify (λ s, set_outgoing (ch_outgoing s ++ [(endpoint, socket)]) s) ;; mret (Some socket)
        end
    end;
  match socket with
  | None => mret false
  | Some socket =>
      sent ← zask (ZSend endpoint message);
      match sent with
      | ZAgain | ZFailed =>
          zclose socket ;; modify (λ s, set_outgoing (remove_out endpoint (ch_outgoing s)) s) ;; mret false
      | _ => mret true
      end
  end.
Definition MAX_RECV_BATCH : nat := 64.
Fixpoint recv_batch (room : nat) (messages : list (list Z)) : M Channel (list (list Z)) :=
  match room with
  | 0 => mret messages
  | S room =>
      answer ← zask ZRecv;
      match answer with
      | ZMessage message => recv_batch room (messages ++ [message])
      | _ => mret messages
      end
  end.
(** [recv] *)
Definition channel_recv : M Channel (list (list Z)) :=
  socket ← gets ch_socket;
  match socket with
  | None => raise (RuntimeError "KVCR control channel is not initialized")
  | Some _ =>
      ready ← zask ZPoll;
      match ready with
      | ZReady false | ZAgain | ZFailed => mret []
      | _ => recv_batch MAX_RECV_BATCH []
      end
  end.
Definition opt_list (o : option Z) : list Z := match o with Some r => [r] | None => [] end.
(** Everything [close] gives up, in the order it is pushed. *)
Definition targets (s : Channel) : list Z := (ch_outgoing s).*2 ++ opt_list (ch_socket s) ++ opt_list (ch_listener s).
(** [ExitStack]: every callback runs, the last exception is raised. *)
Fixpoint unwind (pending : option exn) (l : list Z) : M Channel unit :=
  match l with
  | [] => match pending with Some e => raise e | None => mret tt end
  | r :: l =>
      pending ← try_except (zclose r ;; mret pending) (λ e, mret (Some e));
      unwind pending l
  end.
(** [close] *)
Definition channel_close : M Channel unit :=
  s ← get;
  modify (λ s, set_listener (ch_endpoint s) (ch_bind_endpoint s) None (set_socket None (set_outgoing [] s))) ;;
  unwind None (rev (targets s)).
End Channel.

(** A listener of the service as [from_shared_listener] sees it. *)
Record Listener := mkListener {
  ls_inet : bool; ls_stream : bool; ls_listening : bool; ls_host : string; ls_port : Z; ls_fd : Z }.
Definition clear_endpoint (s : Channel) : Channel :=
  mkChannel (ch_bind_host s) (ch_bind_port s) (ch_advertise_host s) None (ch_bind_endpoint s) (ch_listener s) (ch_ctx s)
    (ch_socket s) (ch_outgoing s) (ch_next s) (ch_open s) (ch_closed s) (ch_acts s).
Definition from_shared_listener (world : ZHistory → ZAct → result ZAnswer) (l : Listener) : result Channel :=
  guard_raise (negb (ls_inet l)) (ValueError "KVCR control listener must use TCP") ;;
  guard_raise (negb (ls_stream l)) (ValueError "KVCR control listener must be a stream socket") ;;
  guard_raise (negb (ls_listening l)) (ValueError "KVCR control listener must already be listening") ;;
  channel ← make_channel (ls_host l) (ls_port l) (ls_host l);
  match adopt_listener world (ls_fd l) channel with
  | (Ret _, channel) => mret (clear_endpoint channel)
  | (Raise e, _) => Raise e
  end.

(** ** A life of a channel *)

Inductive ChannelOp := OpAdopt (fd : Z) | OpInitialize | OpSend (endpoint : string) (message : list Z) | OpRecv | OpClose.
Section Life.
Context (world : ZHistory → ZAct → result ZAnswer).
(** It is initialized once, when it has no socket yet. *)
Definition channel_op (o : ChannelOp) : M Channel unit :=
  match o with
  | OpAdopt fd => adopt_listener world fd
  | OpInitialize =>
      socket ← gets ch_socket;
      match socket with None => channel_initialize world | Some _ => mret tt end
  | OpSend endpoint message => channel_send world endpoint message ;; mret tt
  | OpRecv => channel_recv world ;; mret tt
  | OpClose => channel_close world
  end.
Definition channel_life (ops : list ChannelOp) : M Channel unit :=
  for_each ops (λ o, try_except (channel_op o) (λ _, mret tt)).
End Life.
