(* ===== verification/ChannelsThm.v ===== *)
(** * Channels and descriptors: nothing is leaked, nothing is closed twice

    Every socket and descriptor of the peer channel of [Channels] is one its [close] gives up,
    whatever failed before; descriptors that came with a frame are handed out or closed. *)

From Stdlib Require Import ZArith Lia.
From S2P Require Import Prelude Types Journal Protocol ProtocolThm Channels.

(** ** The sockets of a channel *)

Definition no_failed_close (h : ZHistory) : Prop := ∀ r e, (ZClose r, Raise e) ∉ h.
Lemma no_failed_close_app h h' : no_failed_close (h ++ h') → no_failed_close h.
Proof. intros H r e Hin. apply (H r e), elem_of_app. by left. Qed.

(** What is open is a target of [close] or in [x], the resources an operation holds. *)
Record owns (x : list Z) (s : Channel) : Prop := mk_owns {
  ow_open : ∀ r, r ∈ ch_open s → r ∈ x ++ targets s;
  ow_next : ∀ r, r ∈ (x ++ targets s) ++ ch_closed s → (r < ch_next s)%Z;
  ow_keys : NoDup (ch_outgoing s).*1;
  ow_once : no_failed_close (ch_acts s) → NoDup ((x ++ targets s) ++ ch_closed s) }.

(** Only what is owned matters, not by whom. *)
Lemma owns_move x y s s' : owns x s → x ++ targets s ≡ₚ y ++ targets s' →
  ch_open s' = ch_open s → ch_closed s' = ch_closed s → ch_next s' = ch_next s → ch_acts s' = ch_acts s →
  NoDup (ch_outgoing s').*1 → owns y s'.
Proof.
  intros [O N K C] Hp Ho Hc Hn Ha Hk. split; rewrite ?Ho, ?Hc, ?Hn, ?Ha; [..|done|]; setoid_rewrite <- Hp; done.
Qed.
Lemma owns_act x a r s : owns x s → owns x (zrecord a r s).
Proof. intros [O N K C]. split; try done. simpl. intros H%no_failed_close_app. by apply C. Qed.
Lemma owns_made x s : owns x s → owns (ch_next s :: x) (set_resources (ch_next s + 1) ({[ch_next s]} ∪ ch_open s) (ch_closed s) s).
Proof.
  intros [O N K C]. split; simpl; [..|done|].
  - intros r [->%elem_of_singleton|Hr]%elem_of_union; [by left|]. right. by apply O.
  - intros r [->|Hr]%elem_of_cons; [lia|]. specialize (N r Hr). lia.
  - intros Hq. constructor; [|by apply C]. intros Hin%N. lia.
Qed.
Lemma owns_closed r x s : owns (r :: x) s → owns x (set_resources (ch_next s) (ch_open s ∖ {[r]}) (ch_closed s ++ [r]) s).
Proof.
  intros [O N K C]. split; simpl; [..|done|].
  - intros r' [Hr Hne]%elem_of_difference. apply O in Hr. rewrite elem_of_singleton in Hne.
    apply elem_of_cons in Hr as [->|Hr]; [done|exact Hr].
  - intros r' Hr. apply N. rewrite !elem_of_app in *. rewrite !elem_of_cons. rewrite list_elem_of_singleton in Hr. tauto.
  - intros Hq. specialize (C Hq). change (NoDup ((x ++ targets s) ++ ch_closed s ++ [r])).
    by rewrite app_assoc, <- Permutation_cons_append.
Qed.
Lemma owns_given r x s : owns (r :: x) s → owns x (set_resources (ch_next s) (ch_open s ∖ {[r]}) (ch_closed s) s).
Proof.
  intros [O N K C]. split; simpl; [..|done|].
  - intros r' [Hr Hne]%elem_of_difference. apply O in Hr. rewrite elem_of_singleton in Hne.
    apply elem_of_cons in Hr as [->|Hr]; [done|exact Hr].
  - intros r' Hr. apply N. simpl. by right.
  - intros Hq. specialize (C Hq). by apply NoDup_cons in C as [_ C].
Qed.

Lemma targets_outgoing v s : targets (set_outgoing v s) = v.*2 ++ opt_list (ch_socket s) ++ opt_list (ch_listener s).
Proof. done. Qed.
Lemma remove_out_split endpoint l r : NoDup l.*1 → lookup_out endpoint l = Some r →
  l.*2 ≡ₚ r :: (remove_out endpoint l).*2 ∧ NoDup (remove_out endpoint l).*1.
Proof.
  unfold remove_out. induction l as [|[k v] l IH]; [done|]. simpl. intros [Hk Hl]%NoDup_cons. case_decide as Hd.
  - intros [= ->]. subst k. rewrite filter_cons_False by naive_solver.
    assert (filter (λ x : string * Z, x.1 ≠ endpoint) l = l) as ->; [|done].
    clear -Hk. induction l as [|[k v] l IH]; [done|]. simpl in Hk. apply not_elem_of_cons in Hk as [Hne Hk].
    rewrite filter_cons_True by (simpl; congruence). by rewrite IH.
  - intros Hr. rewrite filter_cons_True by done. destruct (IH Hl Hr) as [Hp Hn]. simpl. split.
    + rewrite Hp. apply Permutation_swap.
    + constructor; [|done]. intros Hin. apply list_elem_of_fmap in Hin as ([k' v'] & -> & Hin).
      apply list_elem_of_filter in Hin as [_ Hin]. apply Hk, list_elem_of_fmap. by exists (k', v').
Qed.
Lemma lookup_out_none endpoint l : lookup_out endpoint l = None → endpoint ∉ l.*1.
Proof.
  induction l as [|[k v] l IH]; simpl; [by intros _ ?%elem_of_nil|]. case_decide; [done|].
  intros Hl. rewrite not_elem_of_cons. split; [done|]. by apply IH.
Qed.

(** What [pyzmq] reports of a [connect] is a [ZMQError]. *)
Definition connect_answers (world : ZHistory → ZAct → result ZAnswer) : Prop :=
  ∀ h endpoint e, world h (ZConnect endpoint) ≠ Raise e.

Section Channel.
Context (world : ZHistory → ZAct → result ZAnswer) (Hconnect : connect_answers world).
Notation zask := (zask world).
Notation zact := (zact world).
Notation zmake := (zmake world).
Notation zclose := (zclose world).

(** ** Calls *)

Lemma wp_zask x a (Q : ZAnswer → Channel → Prop) (E : exn → Channel → Prop) s : owns x s →
  (∀ r s', owns x s' → s' = zrecord a (Ret r) s → Q r s') → (∀ e s', owns x s' → s' = zrecord a (Raise e) s → E e s') →
  wp (zask a) Q E s.
Proof.
  intros Hs HQ HE. unfold wp, Channels.zask. destruct (world (ch_acts s) a) as [r|e]; [eapply HQ|eapply HE]; try done; by apply owns_act.
Qed.
Lemma wp_zact x a (Q : unit → Channel → Prop) (E : exn → Channel → Prop) s : owns x s →
  (∀ r s', owns x s' → s' = zrecord a (Ret r) s → Q tt s') → (∀ e s', owns x s' → s' = zrecord a (Raise e) s → E e s') →
  wp (zact a) Q E s.
Proof.
  intros Hs HQ HE. unfold Channels.zact. apply wp_bind. eapply wp_zask; [done| |done].
  intros r s' Hs' Heq. wp. by eapply HQ.
Qed.
Definition made (n : Z) (a : ZAct) (r : ZAnswer) (s : Channel) : Channel :=
  set_resources (n + 1) ({[n]} ∪ ch_open s) (ch_closed s) (zrecord a (Ret r) s).
Lemma wp_zmake x a (Q : Z → Channel → Prop) (E : exn → Channel → Prop) s : owns x s →
  (∀ n r s', owns (n :: x) s' → s' = made n a r s → Q n s') → (∀ e s', owns x s' → s' = zrecord a (Raise e) s → E e s') →
  wp (zmake a) Q E s.
Proof.
  intros Hs HQ HE. unfold Channels.zmake. apply wp_bind. eapply wp_zask; [done| |done].
  intros r s' Hs' ->. wp. eapply HQ; [by apply owns_made|done].
Qed.
Definition was_closed (r : Z) (res : result ZAnswer) (s : Channel) : Channel :=
  zrecord (ZClose r) res (set_resources (ch_next s) (ch_open s ∖ {[r]}) (ch_closed s ++ [r]) s).
Lemma owns_was_closed r res x s : owns (r :: x) s → owns x (was_closed r res s).
Proof. intros H. by apply owns_act, owns_closed. Qed.
Lemma wp_zclose r (Q : unit → Channel → Prop) (E : exn → Channel → Prop) s :
  (∀ a s', s' = was_closed r (Ret a) s → Q tt s') → (∀ e s', s' = was_closed r (Raise e) s → E e s') →
  wp (zclose r) Q E s.
Proof.
  intros HQ HE. unfold Channels.zclose. wp. unfold wp, Channels.zact, mbind, M_bind, Channels.zask. simpl.
  destruct (world _ _) as [a|e]; [by eapply HQ|by eapply HE].
Qed.
Lemma wp_zclose_held r x (Q : unit → Channel → Prop) (E : exn → Channel → Prop) s : owns (r :: x) s →
  (∀ a s', owns x s' → s' = was_closed r (Ret a) s → Q tt s') → (∀ e s', owns x s' → s' = was_closed r (Raise e) s → E e s') →
  wp (zclose r) Q E s.
Proof. intros Hs HQ HE. apply wp_zclose; intros; [eapply HQ|eapply HE]; try done; subst; by apply owns_was_closed. Qed.

(** ** The operations *)

Notation safe m s := (wp m (λ _, owns []) (λ _, owns []) s).
Ltac move_to H := eapply owns_move; [exact H| |done|done|done|done|exact (ow_keys _ _ H)].

Lemma adopt_owns fd s : owns [] s → safe (adopt_listener world fd) s.
Proof.
  intros Hs. unfold adopt_listener. wp. destruct (ch_listener s) as [l|] eqn:Hl; [by wp|]. wp.
  eapply wp_zact; [done| |done]. intros r1 s1 H1 ->. wp. eapply wp_zask; [exact H1| |done].
  intros r2 s2 H2 ->. destruct (match r2 with ZAddress host port => _ | _ => _ end) as [host port]. wp.
  apply owns_made in H2. move_to H2. unfold targets; simpl. rewrite Hl. simpl. by rewrite app_nil_r, app_assoc, <- Permutation_cons_append.
Qed.
(** The bind failed: the duplicate and the socket are given up. *)
Lemma bind_failed_owns adopted socket e s' : owns [adopted] s' → ch_socket s' = Some socket →
  safe (zclose adopted ;; zclose socket ;; modify (set_socket None) ;; raise (A:=unit) e) s'.
Proof.
  intros Hs' Hsk. wp. eapply wp_zclose_held; [done| |done].
  intros a1 s4 H4 E4. wp. assert (owns [socket] (set_socket None s4)) as H4'.
  { move_to H4. unfold targets; simpl. subst s4. simpl. rewrite Hsk. simpl. by rewrite Permutation_middle. }
  apply wp_zclose.
  - intros a2 s5 ->. wp. exact (owns_was_closed _ _ _ _ H4').
  - intros e' s5 ->. destruct H4 as [O N K C]. destruct H4' as [O' N' K' C']. split.
    + intros r0 Hr0. simpl in Hr0. apply elem_of_difference in Hr0 as [Hr0 _]. by apply O.
    + intros r0 Hr0. apply N. simpl in Hr0. revert Hr0. unfold targets; simpl. rewrite !elem_of_app, list_elem_of_singleton.
      intros [?|[?| ->]]; [by left|by right|]. left. subst s4. simpl. rewrite Hsk. set_solver.
    + done.
    + intros Hq. exfalso. apply (Hq socket e'). simpl. apply elem_of_app. right. by left.
Qed.
Lemma initialize_owns s : owns [] s → ch_socket s = None → safe (channel_initialize world) s.
Proof.
  intros Hs Hn. unfold channel_initialize. wp.
  set (mid := λ s : Channel, owns [] s ∧ ch_socket s = None).
  eapply (wp_mono _ _ (λ _, mid) _ (λ _, owns [])); [| |done].
  { destruct (ch_listener s) as [l|] eqn:Hl; [by wp; split|]. wp. eapply wp_zmake; [done| |done].
    intros n r s1 H1 ->. wp. split; [|done]. move_to H1. unfold targets; simpl. rewrite Hl. simpl.
    by rewrite app_nil_r, app_assoc, <- Permutation_cons_append. }
  intros _ s1 [H1 Hn1]. wp. assert (owns [] (set_ctx s1)) as H1' by (by move_to H1).
  eapply wp_zmake; [exact H1'| |done]. intros socket r s2 H2 E2. wp.
  assert (owns [] (set_socket (Some socket) s2)) as H2'.
  { subst s2. move_to H2. unfold targets; simpl. rewrite Hn1. simpl. by rewrite Permutation_middle. }
  eapply wp_zmake; [exact H2'| |done]. intros adopted r' s3 H3 E3. wp. apply wp_try_except.
  assert (ch_socket s3 = Some socket) as Hsk. { rewrite E3. reflexivity. }
  wp. eapply wp_zact; [exact H3| |intros e s4 H4 ->; by apply bind_failed_owns]. intros r4 s4 H4 E4. wp.
  eapply wp_zact; [exact H4| |intros e s5 H5 ->; apply bind_failed_owns; [done|rewrite E4; exact Hsk]]. intros r5 s5 H5 E5. unfold give_away. wp.
  by apply owns_given in H5.
Qed.

(** A socket that could not take a message is dropped, closed. *)
Lemma drop_socket_owns endpoint socket s : owns [] s → lookup_out endpoint (ch_outgoing s) = Some socket →
  wp (zclose socket ;; modify (λ s, set_outgoing (remove_out endpoint (ch_outgoing s)) s) ;; mret false)
    (λ _, owns []) (λ _, owns []) s.
Proof.
  intros Hs Hl. destruct (remove_out_split _ _ _ (ow_keys _ _ Hs) Hl) as [Hp Hk].
  assert (owns [socket] (set_outgoing (remove_out endpoint (ch_outgoing s)) s)) as Hh.
  { eapply owns_move; [exact Hs| |done..]. rewrite targets_outgoing. unfold targets at 1. by rewrite Hp. }
  wp. apply wp_zclose.
  - intros a s' ->. wp. exact (owns_was_closed _ _ _ _ Hh).
  - intros e s' ->. destruct Hs as [O N K C], Hh as [O' N' K' C']. split; [| |done|].
    + intros r [Hr _]%elem_of_difference. by apply O.
    + intros r Hr. apply (N' r). rewrite targets_outgoing. unfold targets in Hr. simpl in Hr. rewrite Hp in Hr.
      simpl. clear -Hr. set_solver.
    + intros Hq. exfalso. apply (Hq socket e). simpl. apply elem_of_app. right. by left.
Qed.
Lemma send_owns endpoint message s : owns [] s → safe (channel_send world endpoint message) s.
Proof.
  intros Hs. unfold channel_send. wp. destruct (negb _); [by wp|]. wp.
  eapply (wp_mono _ _ (λ o s, owns [] s ∧ ∀ socket, o = Some socket → lookup_out endpoint (ch_outgoing s) = Some socket) _ (λ _, owns [])); [| |done].
  { destruct (lookup_out endpoint (ch_outgoing s)) as [socket|] eqn:Hl; [wp; split; [done|congruence]|]. wp.
    eapply wp_zmake; [done| |done]. intros n r s1 H1 E1. wp.
    pose proof (Hconnect (ch_acts s1) endpoint) as Hc1.
    unfold wp at 1, Channels.zask. destruct (world (ch_acts s1) (ZConnect endpoint)) as [c|e] eqn:Hc; [clear Hc1|by destruct (Hc1 e)].
    set (s2 := zrecord (ZConnect endpoint) (Ret c) s1). assert (owns [n] s2) as H2 by (by apply owns_act).
    assert (owns [] (set_outgoing (ch_outgoing s2 ++ [(endpoint, n)]) s2) ∧
      lookup_out endpoint (ch_outgoing s2 ++ [(endpoint, n)]) = Some n) as [H3 H4].
    { subst s1. simpl. split.
      - eapply owns_move; [exact H2| |done..|].
        + rewrite targets_outgoing. unfold targets. simpl. rewrite fmap_app, <- app_assoc. simpl. by rewrite <- Permutation_middle.
        + simpl. rewrite fmap_app. apply NoDup_app. split_and!; [apply (ow_keys _ _ Hs)| |apply NoDup_singleton].
          intros k Hk ->%list_elem_of_singleton. by eapply lookup_out_none.
      - clear -Hl. induction (ch_outgoing s) as [|[k v] l IH]; simpl in *; [by rewrite decide_True|]. case_decide; [done|by apply IH]. }
    assert (wp (zclose n ;; mret None) (λ o s, owns [] s ∧ ∀ socket, o = Some socket → lookup_out endpoint (ch_outgoing s) = Some socket)
      (λ _, owns []) s2) as Hfail.
    { wp. eapply wp_zclose_held; [exact H2| |done]. intros a s3 H5 _. wp. by split. }
    destruct c; try exact Hfail; wp; (split; [exact H3|by intros ? [= <-]]). }
  intros [socket|] s1 [H1 Hl]; wp; [|done]. specialize (Hl _ eq_refl).
  eapply wp_zask; [exact H1| |done]. intros sent s2 H2 E2.
  assert (lookup_out endpoint (ch_outgoing s2) = Some socket) as Hl' by (rewrite E2; exact Hl).
  destruct sent; try (by wp); by apply drop_socket_owns.
Qed.
Lemma recv_batch_owns room messages s : owns [] s →
  wp (recv_batch world room messages) (λ ms s, owns [] s ∧ length ms ≤ length messages + room) (λ _, owns []) s.
Proof.
  revert messages s. induction room as [|room IH]; intros messages s Hs; [wp; split; [done|lia]|]. simpl. wp.
  eapply wp_zask; [done| |done]. intros r s1 H1 _.
  destruct r; try (wp; split; [done|lia]). eapply wp_mono; [by apply IH| |done].
  intros ms s2 [H2 Hl]. split; [done|]. rewrite length_app in Hl. simpl in Hl. lia.
Qed.
Lemma recv_owns s : owns [] s →
  wp (channel_recv world) (λ ms s, owns [] s ∧ length ms ≤ MAX_RECV_BATCH) (λ _, owns []) s.
Proof.
  intros Hs. unfold channel_recv. wp. destruct (ch_socket s); [|by wp]. wp.
  eapply wp_zask; [done| |done]. intros r s1 H1 _.
  assert (wp (recv_batch world MAX_RECV_BATCH []) (λ ms s, owns [] s ∧ length ms ≤ MAX_RECV_BATCH) (λ _, owns []) s1) as Hb
    by (exact (recv_batch_owns MAX_RECV_BATCH [] s1 H1)).
  destruct r as [| | |[]| |]; try exact Hb; wp; (split; [done|simpl; lia]).
Qed.

Lemma rev_elem (l : list Z) x : x ∈ rev l ↔ x ∈ l.
Proof. by rewrite !list_elem_of_In, <- in_rev. Qed.
(** Everything on the stack is closed, once, whatever raises. *)
Lemma unwind_run pending l s : let '(_, s') := unwind world pending l s in
  ch_closed s' = ch_closed s ++ l ∧ ch_open s' = ch_open s ∖ list_to_set l ∧ ch_outgoing s' = ch_outgoing s ∧
  ch_socket s' = ch_socket s ∧ ch_listener s' = ch_listener s ∧ ch_next s' = ch_next s ∧ ∃ new, ch_acts s' = ch_acts s ++ new.
Proof.
  revert pending s. induction l as [|r l IH]; intros pending s; simpl.
  { rewrite app_nil_r, difference_empty_L. destruct pending; simpl; split_and!; try done; exists []; by rewrite app_nil_r. }
  unfold mbind at 1, M_bind at 1, try_except.
  assert (∀ res pending, let '(_, s') := unwind world pending l (was_closed r res s) in
    ch_closed s' = ch_closed s ++ r :: l ∧ ch_open s' = ch_open s ∖ ({[r]} ∪ list_to_set l) ∧ ch_outgoing s' = ch_outgoing s ∧
    ch_socket s' = ch_socket s ∧ ch_listener s' = ch_listener s ∧ ch_next s' = ch_next s ∧ ∃ new, ch_acts s' = ch_acts s ++ new) as H.
  { intros res p. specialize (IH p (was_closed r res s)). destruct (unwind _ _ _ _) as [_ s'].
    destruct IH as (-> & -> & -> & -> & -> & -> & new & ->). simpl. rewrite <- !app_assoc. split_and!; try done; [set_solver|by eexists]. }
  assert (∃ res, Channels.zclose world r s = (x ← res; Ret tt, was_closed r res s)) as (res & Hr).
  { exists (world (ch_acts s) (ZClose r)). unfold Channels.zclose, modify, Channels.zact, Channels.zask, mbind, M_bind. simpl.
    by destruct (world (ch_acts s) (ZClose r)). }
  unfold mbind at 1, M_bind at 1. rewrite Hr. destruct res as [a|e]; [exact (H (Ret a) pending)|exact (H (Raise e) (Some e))].
Qed.
Lemma close_run s : owns [] s → let '(_, s') := channel_close world s in
  ch_open s' = ∅ ∧ targets s' = [] ∧ ch_closed s' = ch_closed s ++ rev (targets s) ∧ ch_next s' = ch_next s ∧ ch_outgoing s' = [] ∧
  (no_failed_close (ch_acts s') → no_failed_close (ch_acts s)).
Proof.
  intros [O N K C]. unfold channel_close, mbind, M_bind, get, modify. cbn beta iota.
  pose proof (unwind_run None (rev (targets s)) (set_listener (ch_endpoint s) (ch_bind_endpoint s) None (set_socket None (set_outgoing [] s)))) as H.
  destruct (unwind _ _ _ _) as [_ s']. destruct H as (Hc & Ho & Hout & Hs & Hl & Hn & new & Ha). simpl in *.
  split_and!; try done.
  - rewrite Ho. apply set_eq. intros r. rewrite elem_of_difference, elem_of_list_to_set, rev_elem. set_solver.
  - unfold targets. by rewrite Hout, Hs, Hl.
  - rewrite Ha. apply no_failed_close_app.
Qed.

(** ** Lives *)

Lemma channel_op_owns o s : owns [] s → safe (channel_op world o) s.
Proof.
  intros Hs. destruct o as [fd| |endpoint message| |]; simpl.
  - by apply adopt_owns.
  - wp. destruct (ch_socket s) as [socket|] eqn:Hn; [by wp|]. by apply initialize_owns.
  - wp. eapply wp_mono; [by apply send_owns| |done]. intros b s' H. by wp.
  - wp. eapply wp_mono; [by apply recv_owns| |done]. intros ms s' [H _]. by wp.
  - pose proof (close_run s Hs) as H. unfold wp. destruct (channel_close world s) as [r s'].
    destruct H as (Ho & Ht & Hc & Hn & Hk & Hm), Hs as [O N K C]. assert (owns [] s'); [|by destruct r].
    split.
    + intros r' Hr'. rewrite Ho in Hr'. set_solver.
    + intros r' Hr'. rewrite Hn. apply N. rewrite Ht, Hc in Hr'. simpl in *. rewrite elem_of_app, rev_elem in Hr'. set_solver.
    + rewrite Hk. constructor.
    + rewrite Ht, Hc. intros Hq%Hm%C. simpl in *. by rewrite <- Permutation_rev, Permutation_app_comm.
Qed.
Lemma channel_life_owns ops s : owns [] s → owns [] (channel_life world ops s).2.
Proof.
  intros Hs. unfold channel_life.
  assert (wp (for_each ops (λ o, try_except (channel_op world o) (λ _, mret tt))) (λ _, owns []) (λ _, owns []) s) as H.
  { apply (wp_for_each _ _ (λ _, owns [])); [done| |done]. intros o r s' Hs'. apply wp_try_except.
    eapply wp_mono; [by apply channel_op_owns|done|done]. }
  unfold wp in H. by destruct (for_each _ _ s) as [[[]|e] s'].
Qed.
Lemma make_channel_owns host port advertise c : make_channel host port advertise = Ret c → owns [] c.
Proof.
  unfold make_channel. destruct (_ <=? _)%Z; [done|]. intros [= <-]. split; simpl.
  - set_solver.
  - by intros r ?%elem_of_nil.
  - constructor.
  - constructor.
Qed.

(** One [recv] takes no more than a batch, however many messages wait. *)
Lemma recv_is_bounded s : owns [] s → match channel_recv world s with (Ret ms, _) => length ms ≤ MAX_RECV_BATCH | _ => True end.
Proof. intros Hs. pose proof (recv_owns s Hs) as H. unfold wp in H. destruct (channel_recv world s) as [[ms|e] s']; [apply H|done]. Qed.
End Channel.

(** ** Frames with descriptors *)

Section Framing.
Context {T : Type} (encode : T → list Z) (decode : list Z → result T) (chunk : nat → nat → nat).

Lemma close_all_run l s : for_each l close_received s = (Ret tt, mkReceived (rx_stream s) (rx_closed s ++ l)).
Proof.
  revert s. induction l as [|fd l IH]; intros s; simpl; [rewrite app_nil_r; by destruct s|].
  unfold mbind, M_bind, close_received, modify. rewrite IH. simpl. by rewrite <- app_assoc.
Qed.
Lemma wp_on_stream {A} (m : M Stream A) (Q : A → Received → Prop) (E : exn → Received → Prop) s :
  (∀ a s', rx_closed s' = rx_closed s → Q a s') → (∀ e s', rx_closed s' = rx_closed s → E e s') → wp (on_stream m) Q E s.
Proof. intros HQ HE. unfold wp, on_stream. destruct (m (rx_stream s)) as [[a|e] st]; [by apply HQ|by apply HE]. Qed.

(** C36: a frame that comes with descriptors is handed out with exactly the descriptors its message
    expects, nothing of them closed and no other control message beside it; whatever else
    happens, every descriptor received is closed once, in order, before the exception leaves,
    unless the stream had ended, when none had come. *)
Theorem descriptors_accounted ancillary truncated expected_counts s :
  match receive_with_fd decode chunk ancillary truncated expected_counts s with
  | (Ret (message, descriptors), s') =>
      descriptors = ancillary_descriptors ancillary ∧ length descriptors ∈ expected_counts message ∧ truncated = false ∧
      Forall (λ x, x.1 = true) ancillary ∧ rx_closed s' = rx_closed s
  | (Raise e, s') =>
      rx_closed s' = rx_closed s ++ ancillary_descriptors ancillary ∨
      e = EOFError ∧ (recv chunk 4 (rx_stream s)).1 = Ret [] ∧ rx_closed s' = rx_closed s
  end.
Proof.
  set (Q := λ (x : T * list Z) s', x.2 = ancillary_descriptors ancillary ∧ length x.2 ∈ expected_counts x.1 ∧ truncated = false ∧
    Forall (λ x, x.1 = true) ancillary ∧ rx_closed s' = rx_closed s).
  set (E := λ e s', rx_closed s' = rx_closed s ++ ancillary_descriptors ancillary ∨
      e = EOFError ∧ (recv chunk 4 (rx_stream s)).1 = Ret [] ∧ rx_closed s' = rx_closed s).
  assert (wp (receive_with_fd decode chunk ancillary truncated expected_counts) Q E s) as H.
  2:{ unfold wp in H. destruct (receive_with_fd _ _ _ _ _ s) as [[[message ds]|e] s']; exact H. }
  unfold receive_with_fd. apply wp_bind. unfold wp at 1, on_stream at 1.
  destruct (recv chunk 4 (rx_stream s)) as [[header|e] st] eqn:Hr.
  2:{ destruct (rx_stream s) as [bytes calls]. discriminate Hr. }
  case_decide as Hh; [subst header; right; by rewrite ?Hr|]. apply wp_try_except.
  eapply (wp_mono _ _ Q _ (λ _ s', rx_closed s' = rx_closed s)); [|done|].
  2:{ intros e s' H. unfold wp, mbind, M_bind. rewrite close_all_run. left. simpl. by rewrite H. }
  destruct truncated; [by wp|]. destruct (existsb _ ancillary) eqn:Hx; [by wp|].
  assert (Forall (λ x, x.1 = true) ancillary) as Hf.
  { apply Forall_forall. intros [[] d] Hin; [done|]. exfalso.
    assert (existsb (λ x : bool * list Z, negb x.1) ancillary = true); [|congruence].
    apply existsb_exists. exists (false, d). split; [by apply list_elem_of_In|done]. }
  wp. eapply (wp_mono _ _ (λ _ s', rx_closed s' = rx_closed s) _ (λ _ s', rx_closed s' = rx_closed s)); [| |done].
  { case_decide; [|by wp]. apply wp_try_except. wp. apply wp_on_stream; intros; [by wp|]. destruct e; by wp. }
  intros header' s2 H2. wp. apply wp_on_stream; [|by intros ? ? ->]. intros message s3 H3.
  case_decide as Hd; wp; [|congruence]. split_and!; try done. congruence.
Qed.

Lemma frombytes_le fds : Forall (λ fd, 0 <= fd < 2 ^ 32)%Z fds → frombytes (mjoin (le 4 <$> fds)) = fds.
Proof.
  induction 1 as [|fd fds Hfd _ IH]; [done|].
  change (unle (le 4 fd) :: frombytes (mjoin (le 4 <$> fds)) = fd :: fds). by rewrite IH, unle_le by lia.
Qed.
(** A frame sent with its descriptors arrives whole with them, whatever [send_fds] took of it and
    whatever pieces the socket delivers. *)
Lemma descriptors_delivered taken message sent rest fds expected_counts tail calls closed :
  sendable encode decode message → send_with_fd encode taken message = Ret (sent, rest) →
  Forall (λ fd, 0 <= fd < 2 ^ 32)%Z fds → length fds ∈ expected_counts message →
  ∃ calls', receive_with_fd decode chunk [(true, mjoin (le 4 <$> fds))] false expected_counts
      (mkReceived ((sent ++ rest) ++ tail, calls) closed) =
    (Ret (message, fds), mkReceived (tail, calls') closed).
Proof.
  intros Hm Hs Hf Hc. unfold send_with_fd in Hs. destruct (encode_frame encode message) as [frame|e] eqn:He; [|done].
  simpl in Hs. injection Hs as <- <-.
  assert (take taken frame ++ (if decide (taken < length frame) then drop taken frame else []) = frame) as ->.
  { case_decide; [apply take_drop|]. rewrite app_nil_r. apply take_ge. lia. }
  assert (ancillary_descriptors [(true, mjoin (le 4 <$> fds))] = fds) as Hd.
  { change (frombytes (mjoin (le 4 <$> fds)) ++ [] = fds). rewrite app_nil_r. by apply frombytes_le. }
  pose proof (λ c, receive_body encode decode chunk message frame tail c Hm He) as Hb. destruct (Hb 0) as [Hl _].
  unfold receive_with_fd, mbind at 1, M_bind at 1. unfold on_stream at 1. cbn [rx_stream rx_closed].
  destruct (recv_some chunk 4 (frame ++ tail) calls) as (got & Hg & Hgl & ->); [lia|destruct frame; simpl in *; [lia|done]|].
  assert (length (take got (frame ++ tail)) = got) as Hlt by (rewrite length_take; lia).
  rewrite decide_False by (intros Hx; rewrite Hx in Hlt; simpl in Hlt; lia). rewrite Hd.
  assert (∃ c, (if decide (length (take got (frame ++ tail)) < 4)
    then try_except (rest ← on_stream (receive_exact chunk (4 - length (take got (frame ++ tail)))); mret (take got (frame ++ tail) ++ rest))
      (λ e, match e with EOFError => raise (KVCRMsgFramingError "truncated frame") | _ => raise e end)
    else mret (take got (frame ++ tail))) (mkReceived (drop got (frame ++ tail), S calls) closed) =
    (Ret (take 4 frame), mkReceived (drop 4 frame ++ tail, c) closed)) as (c & Hheader).
  { rewrite Hlt, <- (take_app_le frame tail 4), <- (drop_app_le frame tail 4) by done. case_decide.
    - unfold try_except, mbind, M_bind, on_stream. cbn [rx_stream rx_closed].
      destruct (receive_exact_run chunk (4 - got) (drop got (frame ++ tail)) (S calls)) as (c & ->).
      { rewrite length_drop, length_app. lia. }
      exists c. cbn. rewrite take_take_drop, drop_drop. by replace (got + (4 - got)) with 4 by lia.
    - assert (got = 4) as -> by lia. by exists (S calls). }
  destruct (Hb c) as [_ (c' & Hbody)]. exists c'.
  unfold try_except at 1. cbn [existsb negb fst orb]. unfold mbind at 1, M_bind at 1. rewrite Hheader.
  unfold mbind, M_bind, on_stream. cbn [rx_stream rx_closed]. rewrite Hbody. cbn. by rewrite decide_True.
Qed.
End Framing.

(** ** A concrete channel: one of its peers takes nothing, and it is closed in use *)

Module ChannelDemo.
Definition world (h : ZHistory) (a : ZAct) : result ZAnswer :=
  match a with
  | ZSend endpoint _ => Ret (if decide (endpoint = "tcp://b:1") then ZAgain else ZDone)
  | ZPoll => Ret (ZReady true)
  | ZRecv => Ret (ZMessage [7%Z])
  | _ => Ret ZDone
  end.
Definition channel : Channel :=
  mkChannel "0.0.0.0" 5555 "host" (Some "tcp://host:5555") "tcp://0.0.0.0:5555" None false None [] 0 ∅ [] [].
Definition ops : list ChannelOp := [OpInitialize; OpSend "tcp://a:1" [1]%Z; OpSend "tcp://b:1" [1]%Z; OpRecv].
Lemma connects : connect_answers world.
Proof. done. Qed.
End ChannelDemo.

