(* ===== verification/Mapping.v ===== *)
(** * Mappings of a pool file

    How a pool's file is mapped ([map_pool], [AlignedSharedMapping],
    [try_aligned_shared_mapping] of [src/src/kvcr/service/memmap.py]): aligned to huge pages over
    a reservation where the system can, plainly where it cannot.  An address is backed by
    nothing, by anonymous memory, or by a byte of the file. *)

From Stdlib Require Import ZArith Lia.
From S2P Require Import Prelude Types Journal Snapshot.

Inductive Backing := Nowhere | Anonymous | FileByte (n : Z).
#[export] Instance Backing_eq_dec : EqDecision Backing.
Proof. solve_decision. Defined.
Inductive Advice := DontFork | HugePage | Collapse.
Inductive MAct :=
  | MPmdSize | MFilesystem | MBlockSize | MReserve (n : Z) | MFixed (addr n : Z) | MMapFile (n : Z)
  | MAdvise (advice : Advice) (addr n : Z).
(** The memory of the process, the bytes of the file, and how many calls were made. *)
Record Space := mkSpace { sp_mem : Z → Backing; sp_file : Z → Z; sp_calls : nat }.
(** [AlignedSharedMapping]: where its reservation is and how long, [_offset] and [_length]. *)
Record Aligned := mkAligned { am_base : Z; am_reserved : Z; am_offset : Z; am_length : Z }.
Inductive PoolMapping := PAligned (m : Aligned) | PPlain (base length : Z).

Section Mapping.
(** [mmap.PAGESIZE]; whether the system is Linux, and whether its runtime can overlay. *)
Context (page : Z) (linux overlays : bool).
Context (world : Space → MAct → result Z).

(** The kernel maps whole pages. *)
Definition fill (addr n : Z) (f : Z → Backing) (mem : Z → Backing) : Z → Backing := λ a,
  if ((addr <=? a) && (a <? addr + round_up n page))%Z then f (a - addr)%Z else mem a.
Definition with_mem (f : (Z → Backing) → Z → Backing) (s : Space) : Space :=
  mkSpace (f (sp_mem s)) (sp_file s) (sp_calls s).
Definition mcall (a : MAct) : M Space Z := λ s,
  (world s a, mkSpace (sp_mem s) (sp_file s) (S (sp_calls s))).
Definition reserve_range (n : Z) : M Space Z :=
  base ← mcall (MReserve n); modify (with_mem (fill base n (λ _, Anonymous))) ;; mret base.
(** [mmap] with [MAP_SHARED | MAP_FIXED]: what was there is replaced. *)
Definition map_fixed (addr n : Z) : M Space unit :=
  mcall (MFixed addr n) ;; modify (with_mem (fill addr n FileByte)).
Definition map_file (n : Z) : M Space Z :=
  base ← mcall (MMapFile n); modify (with_mem (fill base n FileByte)) ;; mret base.
Definition unmap (addr n : Z) : M Space unit := modify (with_mem (fill addr n (λ _, Nowhere))).

Definition HUGETLBFS_MAGIC : Z := 0x958458F6.
(** [hugetlb_page_size] *)
Definition hugetlb_page_size : M Space Z :=
  if negb linux then mret 0%Z else
  f_type ← mcall MFilesystem;
  if (Z.land f_type 0xFFFFFFFF =? HUGETLBFS_MAGIC)%Z then mcall MBlockSize else mret 0%Z.
(** [thp_page_size] *)
Definition thp_page_size : M Space Z :=
  size ← mcall MPmdSize;
  if (size <? page)%Z || negb (Z.land size (size - 1) =? 0)%Z then raise (ValueError "invalid THP page size") else
  mret size.
(** [align] *)
Definition align_file (size : Z) : M Space Z := huge ← hugetlb_page_size; mret (align huge size).

(** ** [AlignedSharedMapping] *)

(** [madvise] *)
Definition aligned_madvise (m : Aligned) (advice : Advice) (length : option Z) : M Space unit :=
  mcall (MAdvise advice (am_base m + am_offset m)
    (match length with Some n => if (n =? 0)%Z then am_length m else n | None => am_length m end)) ;;
  mret tt.
(** [close], when no view of it is alive. *)
Definition aligned_close (m : Aligned) : M Space unit := unmap (am_base m) (am_reserved m).
(** [__init__] *)
Definition new_aligned (length page_bytes : Z) : M Space Aligned :=
  base ← reserve_range (length + page_bytes);
  let m := mkAligned base (length + page_bytes) ((- base) mod page_bytes) length in
  try_except
    (mcall (MAdvise DontFork base (length + page_bytes)) ;;
     map_fixed (base + am_offset m) length ;;
     aligned_madvise m DontFork None ;;
     mret m)
    (λ e, aligned_close m ;; raise e).
Definition load (s : Space) (a : Z) : option Z :=
  match sp_mem s a with FileByte n => Some (sp_file s n) | Anonymous => Some 0%Z | Nowhere => None end.
(** A slice as Python reads it: from the end if negative, cut to what there is. *)
Definition slice_bound (length i : Z) : Z := if (i <? 0)%Z then Z.max 0 (i + length) else Z.min i length.
(** [__getitem__]; an access outside the memory is a fault. *)
Definition aligned_get (m : Aligned) (start stop : Z) : M Space (list Z) := λ s,
  let a := slice_bound (am_length m) start in
  let b := slice_bound (am_length m) stop in
  match mapM (load s) (seqZ (am_base m + am_offset m + a) (b - a)) with
  | Some bytes => (Ret bytes, s)
  | None => (Raise (RuntimeError "fault"), s)
  end.
Fixpoint store_bytes (a : Z) (value : list Z) (s : Space) : option Space :=
  match value with
  | [] => Some s
  | x :: value =>
      match sp_mem s a with
      | FileByte n => store_bytes (a + 1) value (mkSpace (sp_mem s) (λ i, if decide (i = n) then x else sp_file s i) (sp_calls s))
      | _ => None
      end
  end.
(** [__setitem__] of a slice. *)
Definition aligned_set (m : Aligned) (start stop : Z) (value : list Z) : M Space unit := λ s,
  let a := slice_bound (am_length m) start in
  let b := slice_bound (am_length m) stop in
  if decide (zlen value = Z.max 0 (b - a)) then
    match store_bytes (am_base m + am_offset m + a) value s with
    | Some s => (Ret tt, s)
    | None => (Raise (RuntimeError "fault"), s)
    end
  else (Raise (ValueError "memoryview assignment: lvalue and rvalue have different structures"), s).

(** ** Choosing a mapping *)

Definition is_os (e : exn) : bool := match e with OSError _ => true | _ => false end.
Definition is_os_or_value (e : exn) : bool := match e with OSError _ | ValueError _ => true | _ => false end.
(** [try: m except ...: return None] *)
Definition or_none {A} (takes : exn → bool) (m : M Space A) : M Space (option A) :=
  try_except (x ← m; mret (Some x)) (λ e, if takes e then mret None else raise e).
(** [try_aligned_shared_mapping] *)
Definition try_aligned_shared_mapping (length : Z) (collapse : bool) : M Space (option Aligned) :=
  if negb overlays then mret None else
  page_bytes ← or_none is_os_or_value thp_page_size;
  match page_bytes with
  | None => mret None
  | Some page_bytes =>
      let collapse_bytes := (length / page_bytes * page_bytes)%Z in
      if (collapse_bytes =? 0)%Z then mret None else
      huge ← hugetlb_page_size;
      if negb (huge =? 0)%Z then mret None else
      mapping ← or_none is_os (new_aligned length page_bytes);
      match mapping with
      | None => mret None
      | Some m =>
          try_except
            (aligned_madvise m HugePage None ;;
             if collapse then aligned_madvise m Collapse (Some collapse_bytes) else mret tt)
            (λ e, if is_os e then mret tt else raise e) ;;
          mret (Some m)
      end
  end.
(** [map_pool] *)
Definition map_pool (length : Z) (collapse : bool) : M Space PoolMapping :=
  mapping ← try_aligned_shared_mapping length collapse;
  match mapping with
  | Some m => mret (PAligned m)
  | None =>
      n ← align_file length;
      base ← map_file n;
      try_except (mcall (MAdvise DontFork base n) ;; mret (PPlain base n))
        (λ e, unmap base n ;; raise e)
  end.
Definition close_mapping (m : PoolMapping) : M Space unit :=
  match m with PAligned m => aligned_close m | PPlain base n => unmap base n end.
Definition mapping_start (m : PoolMapping) : Z :=
  match m with PAligned m => am_base m + am_offset m | PPlain base _ => base end%Z.
End Mapping.
