(* ===== verification/MappingThm.v ===== *)
(** * Mappings of a pool file: the pool, and nothing else

    Whatever mapping [map_pool] of [Mapping] chooses, its bytes are those of the file from the
    first on, and the memory around it, and after its close all of the memory, is as it was. *)

From Stdlib Require Import ZArith Lia.
From S2P Require Import Prelude Types Journal Snapshot Mapping.

(** What the kernel promises of a new mapping: it is where nothing is, on a page; of a block
    size, that it is a number of bytes; and of [madvise], that it refuses with an [OSError]. *)
Record kernel_rules (page : Z) (world : Space → MAct → result Z) : Prop := mk_kernel_rules {
  kr_reserve : ∀ s n base, world s (MReserve n) = Ret base → (base mod page = 0)%Z ∧
    ∀ a, (base <= a < base + round_up n page)%Z → sp_mem s a = Nowhere;
  kr_map : ∀ s n base, world s (MMapFile n) = Ret base → (base mod page = 0)%Z ∧
    ∀ a, (base <= a < base + round_up n page)%Z → sp_mem s a = Nowhere;
  kr_block : ∀ s n, world s MBlockSize = Ret n → (0 <= n)%Z;
  kr_advise : ∀ s advice addr n e, world s (MAdvise advice addr n) = Raise e → is_os e = true }.

Lemma page_round_up n p : (0 < p)%Z → (n <= round_up n p < n + p)%Z ∧ (round_up n p mod p = 0)%Z.
Proof.
  intros Hp. unfold round_up. pose proof (Z.mul_div_le (n + p - 1) p Hp). pose proof (Z.mul_succ_div_gt (n + p - 1) p Hp).
  split; [nia|]. apply Z.mod_mul. lia.
Qed.
(** A power of two is a multiple of a smaller one. *)
Lemma power_of_two n : (0 < n)%Z → Z.land n (n - 1) = 0%Z → n = (2 ^ Z.log2 n)%Z.
Proof.
  intros Hn Hl. destruct (Z.log2_spec n Hn) as [Hlo Hhi]. destruct (Z.eq_dec n (2 ^ Z.log2 n)%Z) as [|Hne]; [done|]. exfalso.
  assert (0 < n - 1)%Z as Hn1 by (pose proof (Z.pow_pos_nonneg 2 (Z.log2 n))%Z; pose proof (Z.log2_nonneg n); lia).
  assert (Z.log2 (n - 1) = Z.log2 n) as Hlog by (apply Z.log2_unique; [apply Z.log2_nonneg|]; rewrite Z.pow_succ_r in * by apply Z.log2_nonneg; lia).
  pose proof (Z.bit_log2 n Hn) as H1. pose proof (Z.bit_log2 (n - 1) Hn1) as H2. rewrite Hlog in H2.
  pose proof (Z.land_spec n (n - 1) (Z.log2 n)) as H3. rewrite Hl, H1, H2, Z.bits_0 in H3. done.
Qed.
Lemma power_divides k n : (0 <= k)%Z → (2 ^ k <= n)%Z → Z.land n (n - 1) = 0%Z → (n mod 2 ^ k = 0)%Z.
Proof.
  intros Hk Hle Hl. pose proof (Z.pow_pos_nonneg 2 k ltac:(lia) Hk)%Z. assert (0 < n)%Z as Hn by lia.
  assert (k <= Z.log2 n)%Z as Hlog by (apply Z.log2_le_pow2; lia). rewrite (power_of_two n Hn Hl).
  generalize dependent (Z.log2 n). intros l Hlog. replace l with ((l - k) + k)%Z by lia. rewrite Z.pow_add_r by lia. apply Z.mod_mul. lia.
Qed.

Section Mapping.
Context (bits : Z) (Hbits : (0 <= bits)%Z) (linux overlays : bool).
Notation page := (2 ^ bits)%Z.
Context (world : Space → MAct → result Z) (Hkernel : kernel_rules page world).
Implicit Types s : Space.

Lemma page_positive : (0 < page)%Z.
Proof. apply Z.pow_pos_nonneg; lia. Qed.

(** ** Where memory is *)

(** The range a mapping was given of the address space. *)
Definition range (m : PoolMapping) : Z * Z :=
  match m with PAligned m => (am_base m, am_reserved m) | PPlain base n => (base, n) end.
Definition within (r : Z * Z) (a : Z) : Prop := (r.1 <= a < r.1 + round_up r.2 page)%Z.
#[local] Instance within_dec r a : Decision (within r a).
Proof. unfold within. apply _. Defined.
(** [s] is [s0] with something mapped in [r], where nothing was. *)
Record mapped_in (r : Z * Z) (s0 s : Space) : Prop := mk_mapped_in {
  mi_file : sp_file s = sp_file s0;
  mi_free : ∀ a, within r a → sp_mem s0 a = Nowhere;
  mi_else : ∀ a, ¬ within r a → sp_mem s a = sp_mem s0 a }.
Definition unchanged (s0 s : Space) : Prop := sp_file s = sp_file s0 ∧ ∀ a, sp_mem s a = sp_mem s0 a.

Lemma fill_in addr n f mem a : within (addr, n) a → fill page addr n f mem a = f (a - addr)%Z.
Proof. unfold within, fill. simpl. intros H. destruct (_ && _) eqn:E; [done|]. apply andb_false_iff in E as [E|E]; lia. Qed.
Lemma fill_out addr n f mem a : ¬ within (addr, n) a → fill page addr n f mem a = mem a.
Proof. unfold within, fill. simpl. intros H. destruct (_ && _) eqn:E; [|done]. apply andb_true_iff in E as [E1 E2]. lia. Qed.

Lemma wp_mcall a (Q : Z → Space → Prop) (E : exn → Space → Prop) s :
  (∀ x s', world s a = Ret x → sp_mem s' = sp_mem s → sp_file s' = sp_file s → Q x s') →
  (∀ e s', world s a = Raise e → sp_mem s' = sp_mem s → sp_file s' = sp_file s → E e s') →
  wp (mcall world a) Q E s.
Proof. intros HQ HE. unfold wp, mcall. destruct (world s a) as [x|e]; [by apply HQ|by apply HE]. Qed.
(** A question changes nothing. *)
Definition asks {A} (m : M Space A) : Prop := ∀ s, wp m (λ _, unchanged s) (λ _, unchanged s) s.
Lemma unchanged_trans s1 s2 s3 : unchanged s1 s2 → unchanged s2 s3 → unchanged s1 s3.
Proof. intros [F1 M1] [F2 M2]. split; [congruence|]. intros a. by rewrite M2. Qed.
Lemma asks_call a : asks (mcall world a).
Proof. intros s. apply wp_mcall; intros x s' _ Hm Hf; (split; [done|intros; by rewrite Hm]). Qed.
Lemma asks_ret {A} (x : A) : asks (mret x).
Proof. by intros s. Qed.
Lemma asks_raise {A} e : asks (raise (A:=A) e).
Proof. by intros s. Qed.
Lemma asks_bind {A B} (m : M Space A) (f : A → M Space B) : asks m → (∀ x, asks (f x)) → asks (x ← m; f x).
Proof.
  intros Hm Hf s. apply wp_bind. eapply wp_mono; [apply Hm| |done]. intros x s1 H1.
  eapply wp_mono; [apply Hf| |]; intros ? s2 H2; exact (unchanged_trans _ _ _ H1 H2).
Qed.
Lemma asks_or_none {A} takes (m : M Space A) : asks m → asks (or_none takes m).
Proof.
  intros Hm s. unfold or_none. apply wp_try_except. apply wp_bind. eapply wp_mono; [apply Hm| |]; intros x s1 H1; [by wp|].
  destruct (takes x); by wp.
Qed.
Lemma asks_hugetlb : asks (hugetlb_page_size linux world).
Proof. unfold hugetlb_page_size. destruct (negb linux); [apply asks_ret|]. apply asks_bind; [apply asks_call|]. intros x. case_match; [apply asks_call|apply asks_ret]. Qed.
Lemma asks_thp : asks (thp_page_size page world).
Proof. apply asks_bind; [apply asks_call|]. intros x. destruct (_ || _); [apply asks_raise|apply asks_ret]. Qed.
Lemma asks_align n : asks (align_file linux world n).
Proof. apply asks_bind; [apply asks_hugetlb|]. intros x. apply asks_ret. Qed.
Lemma align_spec n s : wp (align_file linux world n) (λ x s', unchanged s s' ∧ (n <= x)%Z) (λ _, unchanged s) s.
Proof.
  unfold align_file. apply wp_bind.
  eapply (wp_mono _ _ (λ h s', unchanged s s' ∧ (0 <= h)%Z) _ (λ _, unchanged s)); [| |done].
  - unfold hugetlb_page_size. destruct (negb linux); [by wp|]. apply wp_bind. eapply wp_mono; [apply asks_call| |done].
    intros t s1 H1. cbn beta. destruct (_ =? _)%Z; [|by wp].
    apply wp_mcall; intros x s2 Hw Hm Hf; [split; [|by eapply kr_block]|]; (eapply unchanged_trans; [exact H1|split; [done|intros a; by rewrite Hm]]).
  - intros h s1 [H1 Hh]. wp. split; [done|]. unfold align. case_decide; [done|]. by apply page_round_up; lia.
Qed.
Lemma asks_madvise m advice n : asks (aligned_madvise world m advice n).
Proof. apply asks_bind; [apply asks_call|]. intros x. apply asks_ret. Qed.
(** The page size that is taken is a power of two of at least a page. *)
Lemma thp_spec s : wp (thp_page_size page world)
  (λ p s', unchanged s s' ∧ (page <= p)%Z ∧ (p mod page = 0)%Z) (λ _, unchanged s) s.
Proof.
  unfold thp_page_size. apply wp_bind. eapply wp_mono; [apply asks_call| |done]. intros p s1 H1. cbn beta.
  destruct (_ || _) eqn:Hc; wp; [done|]. apply orb_false_iff in Hc as [Hp%Z.ltb_ge Hl%negb_false_iff%Z.eqb_eq].
  split_and!; [done..|]. by apply power_divides.
Qed.

(** ** The mappings *)

(** What a mapping of [length] bytes is. *)
Record maps (length : Z) (m : PoolMapping) (s0 s : Space) : Prop := mk_maps {
  mp_in : mapped_in (range m) s0 s;
  mp_bytes : ∀ i, (0 <= i < length)%Z → within (range m) (mapping_start m + i)%Z ∧ sp_mem s (mapping_start m + i)%Z = FileByte i }.
Lemma mapped_unchanged r s0 s s' : mapped_in r s0 s → unchanged s s' → mapped_in r s0 s'.
Proof. intros [F N E] [F' E']. split; [congruence|done|]. intros a Ha. rewrite E'. by apply E. Qed.
Lemma maps_unchanged length m s0 s s' : maps length m s0 s → unchanged s s' → maps length m s0 s'.
Proof. intros [I B] H. split; [by eapply mapped_unchanged|]. intros i Hi. destruct H as [_ H]. rewrite H. by apply B. Qed.
Lemma maps_from length m s0 s1 s : unchanged s0 s1 → maps length m s1 s → maps length m s0 s.
Proof.
  intros [F' M'] [[F N El] B]. split; [split|done]; [congruence| |]; intros a Ha; rewrite <- M'; auto.
Qed.
Lemma unmap_restores addr n s0 s (Q : unit → Space → Prop) E : mapped_in (addr, n) s0 s →
  (∀ s', unchanged s0 s' → Q tt s') → wp (unmap page addr n) Q E s.
Proof.
  intros [F N El] HQ. unfold unmap. wp. apply HQ. split; [done|]. intros a. simpl.
  destruct (decide (within (addr, n) a)) as [Ha|Ha]; [rewrite fill_in by done; symmetry; by apply N|].
  rewrite fill_out by done. by apply El.
Qed.

Lemma reserve_spec n s (Q : Z → Space → Prop) (E : exn → Space → Prop) :
  (∀ base s', (base mod page = 0)%Z → mapped_in (base, n) s s' → Q base s') → (∀ e s', unchanged s s' → E e s') →
  wp (reserve_range page world n) Q E s.
Proof.
  intros HQ HE. unfold reserve_range. apply wp_bind. apply wp_mcall.
  - intros base s1 Hw Hm Hf. apply (kr_reserve _ _ Hkernel) in Hw as [Hb Hn]. wp. apply HQ; [done|]. split; simpl; [done| |].
    + intros a Ha. by apply Hn.
    + intros a Ha. by rewrite fill_out, Hm.
  - intros e s1 _ Hm Hf. apply HE. split; [done|]. intros a. by rewrite Hm.
Qed.
(** The overlay lies inside its reservation, on whole pages. *)
Lemma overlay_inside base length page_bytes : (0 < page_bytes)%Z → (page_bytes mod page = 0)%Z → (base mod page = 0)%Z →
  let offset := ((- base) mod page_bytes)%Z in
  ((base + offset) mod page_bytes = 0)%Z ∧ ∀ a, within (base + offset, length)%Z a → within (base, length + page_bytes)%Z a.
Proof.
  intros Hp Hpp Hb offset. pose proof page_positive as Hpage.
  pose proof (Z.mod_pos_bound (- base) page_bytes Hp) as Hoff. change (0 <= offset < page_bytes)%Z in Hoff.
  pose proof (Z.div_mod (- base) page_bytes ltac:(lia)) as Hdiv. change (- base = page_bytes * (- base / page_bytes) + offset)%Z in Hdiv.
  set (q := (- base / page_bytes)%Z) in *. clearbody q offset.
  apply Z.mod_divide in Hpp as [k ->]; [|lia]. apply Z.mod_divide in Hb as [l ->]; [|lia].
  split; [replace (l * page + offset)%Z with (- q * (k * page))%Z by lia; apply Z.mod_mul; lia|].
  intros a. unfold within. simpl.
  assert (round_up (length + k * page) page = round_up length page + k * page)%Z as ->.
  { unfold round_up. replace (length + k * page + page - 1)%Z with (length + page - 1 + k * page)%Z by lia.
    rewrite Z.div_add by lia. lia. }
  assert (offset <= k * page - page)%Z; [|lia].
  assert (offset = (- l - k * q) * page)%Z as Ho by (transitivity (- (l * page) - k * page * q)%Z; [lia|ring]).
  rewrite Ho in Hoff |- *. assert (- l - k * q < k)%Z by (apply (Z.mul_lt_mono_pos_r page); lia). nia.
Qed.
Lemma new_aligned_spec length page_bytes s : (0 < length)%Z → (0 < page_bytes)%Z → (page_bytes mod page = 0)%Z →
  wp (new_aligned page world length page_bytes)
    (λ m s', maps length (PAligned m) s s' ∧ am_length m = length ∧ (mapping_start (PAligned m) mod page_bytes = 0)%Z) (λ _, unchanged s) s.
Proof.
  intros Hl Hp Hpp. pose proof page_positive as Hpage. unfold new_aligned. apply wp_bind. apply reserve_spec; [|done]. intros base s1 Hb H1. cbn beta zeta.
  destruct (overlay_inside base length page_bytes Hp Hpp Hb) as [Hstart Hinside].
  set (offset := ((- base) mod page_bytes)%Z) in *. set (m := mkAligned base (length + page_bytes) offset length).
  apply wp_try_except. eapply (wp_mono _ _ (λ m' s', m' = m ∧ maps length (PAligned m) s s') _ (λ _, mapped_in (base, length + page_bytes)%Z s)).
  - apply wp_bind. eapply wp_mono; [apply asks_call| |intros e s2 H2; exact (mapped_unchanged _ _ _ _ H1 H2)].
    intros x2 s2 H2. apply (mapped_unchanged _ _ _ _ H1) in H2. cbn beta. wp. unfold map_fixed. wp. apply wp_mcall.
    2:{ intros e s3 _ Hm Hf. eapply mapped_unchanged; [exact H2|]. split; [done|]. intros a. by rewrite Hm. }
    intros _ s3 _ Hm Hf. wp.
    assert (maps length (PAligned m) s (with_mem (fill page (base + offset) length FileByte) s3)) as H4.
    { destruct H2 as [F N El]. split; [split; simpl; [congruence|exact N|]|].
      - intros a Ha. rewrite fill_out by (intros Hw; by apply Ha, Hinside). rewrite Hm. by apply El.
      - intros i Hi. simpl. assert (within (base + offset, length)%Z (base + offset + i)%Z) as Hw.
        { unfold within. simpl. pose proof (page_round_up length page Hpage). lia. }
        split; [by apply Hinside|]. rewrite fill_in by done. f_equal. lia. }
    eapply wp_mono; [apply asks_madvise| |].
    + intros x5 s5 H5. wp. split; [done|]. exact (maps_unchanged _ _ _ _ _ H4 H5).
    + intros e s5 H5. exact (mp_in _ _ _ _ (maps_unchanged _ _ _ _ _ H4 H5)).
  - intros m' s' [-> H]. split_and!; [exact H|done|exact Hstart].
  - intros e s' H. wp. eapply unmap_restores; [exact H|]. intros s3 H3. by wp.
Qed.
Lemma try_aligned_spec length collapse s : (0 < length)%Z →
  wp (try_aligned_shared_mapping page linux overlays world length collapse)
    (λ o s', match o with
             | Some m => maps length (PAligned m) s s' ∧ am_length m = length ∧
                 ∃ page_bytes, (page <= page_bytes <= length)%Z ∧ (mapping_start (PAligned m) mod page_bytes = 0)%Z
             | None => unchanged s s'
             end) (λ _, unchanged s) s.
Proof.
  intros Hl. pose proof page_positive as Hpage. unfold try_aligned_shared_mapping. destruct (negb overlays); [by wp|]. apply wp_bind.
  eapply (wp_mono _ _ (λ o s', unchanged s s' ∧ ∀ p, o = Some p → (page <= p)%Z ∧ (p mod page = 0)%Z) _ (λ _, unchanged s)); [| |done].
  { unfold or_none. apply wp_try_except. apply wp_bind. eapply wp_mono; [apply thp_spec| |].
    - intros p s1 (H1 & Hp & Hd). wp. split; [done|]. by intros ? [= <-].
    - intros e s1 H1. destruct (is_os_or_value e); wp; [by split|done]. }
  intros [p|] s1 [H1 Hp]; [|by wp]. destruct (Hp p eq_refl) as [Hle Hd]. cbn zeta.
  destruct (_ =? 0)%Z eqn:Hz; [by wp|]. apply Z.eqb_neq in Hz. apply wp_bind.
  eapply wp_mono; [apply asks_hugetlb| |intros e s2 H2; exact (unchanged_trans _ _ _ H1 H2)].
  intros huge s2 H2. apply (unchanged_trans _ _ _ H1) in H2. destruct (negb _); [by wp|]. apply wp_bind.
  eapply (wp_mono _ _ (λ o s', match o with Some m => maps length (PAligned m) s s' ∧ am_length m = length ∧
    (mapping_start (PAligned m) mod p = 0)%Z | None => unchanged s s' end) _ (λ _, unchanged s)); [| |done].
  { unfold or_none. apply wp_try_except. apply wp_bind. eapply wp_mono; [apply new_aligned_spec; [done|lia|done]| |].
    - intros m s3 (H3 & H4 & H5). wp. split_and!; [exact (maps_from _ _ _ _ _ H2 H3)|done..].
    - intros e s3 H3. apply (unchanged_trans _ _ _ H2) in H3. destruct (is_os e); by wp. }
  intros [m|] s3 H3; [|by wp]. destruct H3 as (H3 & Hlen & Hal). apply wp_bind.
  eapply (wp_mono _ _ (λ _ s', maps length (PAligned m) s s') _ (λ _ _, False)).
  - apply wp_try_except. apply wp_bind. unfold aligned_madvise at 1. wp. apply wp_mcall.
    + intros x s4 _ Hm Hf. wp. assert (maps length (PAligned m) s s4) as H4.
      { eapply maps_unchanged; [exact H3|]. split; [done|]. intros a. by rewrite Hm. }
      destruct collapse; [|by wp]. unfold aligned_madvise. wp. apply wp_mcall.
      * intros x' s5 _ Hm' Hf'. wp. eapply maps_unchanged; [exact H4|]. split; [done|]. intros a. by rewrite Hm'.
      * intros e s5 He Hm' Hf'. rewrite (kr_advise _ _ Hkernel _ _ _ _ _ He). wp.
        eapply maps_unchanged; [exact H4|]. split; [done|]. intros a. by rewrite Hm'.
    + intros e s4 He Hm Hf. rewrite (kr_advise _ _ Hkernel _ _ _ _ _ He). wp.
      eapply maps_unchanged; [exact H3|]. split; [done|]. intros a. by rewrite Hm.
  - intros _ s4 H4. wp. split_and!; [done..|]. exists p. split; [|done]. split; [done|].
    assert (0 < length / p)%Z; [|pose proof (Z.mul_div_le length p); nia].
    pose proof (Z.div_pos length p). destruct (Z.eq_dec (length / p)%Z 0%Z) as [H0|H0]; [rewrite H0 in Hz; lia|lia].
  - done.
Qed.

(** ** The properties *)

(** C37: A pool mapped is the pool's file, byte for byte from the first on, whichever mapping was
    chosen and whatever was refused on the way; an aligned one starts on a huge page and has at
    least one; no other address of the process changes, and closing the mapping leaves the
    memory as it was, as does a failure to map. *)
Theorem map_pool_exact length collapse s : (0 < length)%Z →
  let '(r, s') := map_pool page linux overlays world length collapse s in
  sp_file s' = sp_file s ∧
  match r with
  | Ret m =>
      (∀ i, (0 <= i < length)%Z → sp_mem s' (mapping_start m + i)%Z = FileByte i) ∧
      (∀ a, sp_mem s' a = sp_mem s a ∨ within (range m) a ∧ sp_mem s a = Nowhere) ∧
      (∀ a, sp_mem (close_mapping page m s').2 a = sp_mem s a) ∧
      (∀ m', m = PAligned m' → ∃ page_bytes, (page <= page_bytes <= length)%Z ∧ (mapping_start m mod page_bytes = 0)%Z)
  | Raise _ => ∀ a, sp_mem s' a = sp_mem s a
  end.
Proof.
  intros Hl. pose proof page_positive as Hpage.
  assert (wp (map_pool page linux overlays world length collapse)
    (λ m s', maps length m s s' ∧ ∀ m', m = PAligned m' →
       ∃ page_bytes, (page <= page_bytes <= length)%Z ∧ (mapping_start m mod page_bytes = 0)%Z) (λ _, unchanged s) s) as H.
  { unfold map_pool. apply wp_bind. eapply wp_mono; [by apply try_aligned_spec| |done].
    intros [m|] s1 H1; [destruct H1 as (H1 & _ & H2); wp; split; [done|by intros m' [= <-]]|].
    apply wp_bind. eapply wp_mono; [apply align_spec| |intros e s2 H2; exact (unchanged_trans _ _ _ H1 H2)].
    intros n s2 [H2 Hn]. apply (unchanged_trans _ _ _ H1) in H2. apply wp_bind. unfold map_file. apply wp_bind. apply wp_mcall.
    2:{ intros e s3 _ Hm Hf. eapply unchanged_trans; [exact H2|]. split; [done|]. intros a. by rewrite Hm. }
    intros base s3 Hw Hm Hf. apply (kr_map _ _ Hkernel) in Hw as [Hb Hfree]. wp.
    assert (maps length (PPlain base n) s (with_mem (fill page base n FileByte) s3)) as H4.
    { apply (maps_from _ _ _ _ _ H2). split; [split; simpl; [congruence|intros a Ha; by apply Hfree|]|].
      - intros a Ha. by rewrite fill_out, Hm.
      - intros i Hi. simpl. assert (within (base, n) (base + i)%Z) as Hwi.
        { unfold within. simpl. pose proof (page_round_up n page Hpage). lia. }
        split; [done|]. rewrite fill_in by done. f_equal. lia. }
    apply wp_try_except. apply wp_bind. apply wp_mcall.
    - intros x s5 _ Hm' Hf'. wp. split; [|done]. eapply maps_unchanged; [exact H4|]. split; [done|]. intros a. by rewrite Hm'.
    - intros e s5 _ Hm' Hf'. wp. eapply unmap_restores; [|intros s6 H6; by wp].
      eapply mapped_unchanged; [exact (mp_in _ _ _ _ H4)|]. split; [done|]. intros a. by rewrite Hm'. }
  unfold wp in H. destruct (map_pool _ _ _ _ _ _ s) as [[m|e] s'].
  - destruct H as [[I B] Ha]. pose proof I as [F N El]. split_and!; [done|intros i Hi; by apply B| | |exact Ha].
    + intros a. destruct (decide (within (range m) a)) as [Hw|Hw]; [right; split; [done|by apply N]|left; by apply El].
    + intros a. assert (wp (close_mapping page m) (λ _, unchanged s) (λ _ _, False) s') as Hc.
      { destruct m; (eapply unmap_restores; [exact I|done]). }
      unfold wp in Hc. destruct (close_mapping page m s') as [[u|e] s2]; [by destruct Hc|done].
  - by destruct H.
Qed.
End Mapping.

(** What is read and written through a mapping is the file. *)
Section Bytes.
Context (m : Aligned) (s : Space).
Hypothesis Hmapped : ∀ i, (0 <= i < am_length m)%Z → sp_mem s (am_base m + am_offset m + i)%Z = FileByte i.

Lemma slice_bound_range length i : (0 <= length)%Z → (0 <= slice_bound length i <= length)%Z.
Proof. intros Hl. unfold slice_bound. destruct (i <? 0)%Z eqn:Hi; [apply Z.ltb_lt in Hi|apply Z.ltb_ge in Hi]; lia. Qed.
Lemma load_file base a n : (∀ i, (a <= i < a + n)%Z → sp_mem s (base + i)%Z = FileByte i) →
  mapM (load s) (seqZ (base + a) n) = Some (sp_file s <$> seqZ a n).
Proof.
  intros Hm. apply mapM_Some. apply Forall2_fmap_r, Forall2_same_length_lookup. rewrite !length_seqZ. split; [done|].
  intros i x y Hx%lookup_seqZ Hy%lookup_seqZ. unfold load. destruct Hx as [-> Hi], Hy as [-> _].
  rewrite <- Z.add_assoc, Hm by lia. done.
Qed.
Lemma aligned_get_file start stop : (0 <= am_length m)%Z →
  let a := slice_bound (am_length m) start in let b := slice_bound (am_length m) stop in
  aligned_get m start stop s = (Ret (sp_file s <$> seqZ a (b - a)), s).
Proof.
  intros Hl a b. unfold aligned_get. fold a b. rewrite load_file; [done|]. intros i Hi.
  pose proof (slice_bound_range _ start Hl). pose proof (slice_bound_range _ stop Hl). apply Hmapped. unfold a, b in Hi. lia.
Qed.
End Bytes.
(** A store reaches exactly its bytes of the file. *)
Lemma store_bytes_file base value a s :
  (∀ i, (a <= i < a + zlen value)%Z → sp_mem s (base + i)%Z = FileByte i) →
  ∃ s', store_bytes (base + a) value s = Some s' ∧ sp_mem s' = sp_mem s ∧
    (sp_file s' <$> seqZ a (zlen value)) = value ∧ ∀ i, ¬ (a <= i < a + zlen value)%Z → sp_file s' i = sp_file s i.
Proof.
  revert a s. induction value as [|x value IH]; intros a s Hm; [by exists s|].
  assert (zlen (x :: value) = 1 + zlen value)%Z as Hz by (unfold zlen; simpl; lia).
  assert (0 <= zlen value)%Z by (unfold zlen; lia). simpl. rewrite Hm by lia.
  set (s1 := mkSpace _ _ _). replace (base + a + 1)%Z with (base + (a + 1))%Z by lia.
  destruct (IH (a + 1)%Z s1) as (s' & -> & Hmem & Hv & Ho); [intros i Hi; apply Hm; lia|].
  exists s'. split_and!; [done..| |].
  - rewrite Hz. rewrite seqZ_cons by lia. replace (Z.pred (1 + zlen value))%Z with (zlen value) by lia.
    rewrite fmap_cons. replace (Z.succ a) with (a + 1)%Z by lia. rewrite Hv. f_equal.
    rewrite Ho by lia. simpl. by rewrite decide_True.
  - intros i Hi. rewrite Ho by lia. simpl. rewrite decide_False; [done|lia].
Qed.

(** ** A concrete system: pages of 4 bytes, huge pages of 16, and one place for each mapping *)

Module MappingDemo.
Definition free (s : Space) (base n : Z) : bool := forallb (λ a, bool_decide (sp_mem s a = Nowhere)) (seqZ base (round_up n 4)).
Definition place (s : Space) (base n : Z) : result Z := if free s base n then Ret base else Raise (OSError 12).
Definition world (s : Space) (a : MAct) : result Z :=
  match a with
  | MPmdSize => Ret 16 | MFilesystem => Ret 0x01021994 | MBlockSize => Ret 4
  | MReserve n => place s 100 n
  | MMapFile n => place s 400 n
  | MFixed _ _ => Ret 0
  | MAdvise Collapse _ _ => Raise (OSError 22)
  | MAdvise _ _ _ => Ret 0
  end%Z.
Definition space : Space := mkSpace (λ _, Nowhere) (λ i, i) 0.
Lemma place_free s base n x : place s base n = Ret x → x = base ∧ ∀ a, (base <= a < base + round_up n 4)%Z → sp_mem s a = Nowhere.
Proof.
  unfold place, free. destruct (forallb _ _) eqn:H; [|done]. intros [= <-]. split; [done|]. intros a Ha.
  rewrite forallb_forall in H. apply (bool_decide_eq_true (sp_mem s a = Nowhere)), H, list_elem_of_In, elem_of_seqZ. lia.
Qed.
Lemma rules : kernel_rules (2 ^ 2) world.
Proof.
  split.
  - by intros s n base [-> Hf]%place_free.
  - by intros s n base [-> Hf]%place_free.
  - intros s n. simpl. intros [= <-]. lia.
  - intros s [] addr n e; simpl; [done..|]. by intros [= <-].
Qed.
End MappingDemo.

Lemma map_pool_exact_witness :
  let run := map_pool (2 ^ 2) true true MappingDemo.world 40 true MappingDemo.space in
  run.1 = Ret (PAligned (mkAligned 100 56 12 40)) ∧
  (∀ i, (0 <= i < 40)%Z → sp_mem run.2 (112 + i)%Z = FileByte i) ∧
  (∀ a, sp_mem (close_mapping (2 ^ 2) (PAligned (mkAligned 100 56 12 40)) run.2).2 a = Nowhere).
Proof.
  pose proof (map_pool_exact 2 ltac:(lia) true true MappingDemo.world MappingDemo.rules 40 true MappingDemo.space eq_refl) as H.
  assert ((map_pool (2 ^ 2) true true MappingDemo.world 40 true MappingDemo.space).1 = Ret (PAligned (mkAligned 100 56 12 40))) as Hr
    by (vm_compute; reflexivity).
  cbv zeta. destruct (map_pool (2 ^ 2) true true MappingDemo.world 40 true MappingDemo.space) as [r s'].
  simpl fst in *. simpl snd. subst r. destruct H as (_ & Hb & _ & Hc & _).
  split_and!; [reflexivity|exact Hb|exact Hc].
Defined.
