(* ===== verification/Tracing.v ===== *)
(** * Profiler annotations

    The optional NVTX annotations of [src/src/kvcr/_nvtx]: the storage their payloads are emitted
    from ([payload.py]), the trace of a framework pin ([pin.py]) and the trace of an operation
    ([_LifecycleTrace] of [__init__.py]).  The profiler answers every call as the environment
    says: with a range identifier, or by raising. *)

From Stdlib Require Import ZArith Lia.
From S2P Require Import Prelude Types Journal.

(** ** Status and reason *)

Inductive Status := PENDING | SUCCESS | PARTIAL | FAILED | TIMEOUT | CANCELLED | REJECTED | AMBIGUOUS | UNRESOLVED.
Inductive Reason :=
  | R_UNKNOWN | R_NONE | R_CALLBACK_ERROR | R_DUPLICATE_REQUEST | R_INVALID_RESULT | R_DEADLINE | R_CANCELLED | R_SHUTDOWN
  | R_NO_WAITERS | R_SUBMIT_REJECTED | R_SUBMIT_AMBIGUOUS | R_CREATE_ERROR | R_PROGRESS_ERROR | R_RELEASE_ERROR
  | R_CONTROL_ERROR | R_INVALID_NOTIFICATION | R_REMOTE_FAILURE | R_ROUTE_CHANGED | R_SOURCE_STALLED
  | R_HINT_UNAVAILABLE | R_HINT_CONFLICT.
#[export] Instance Status_eq_dec : EqDecision Status.
Proof. solve_decision. Defined.
#[export] Instance Reason_eq_dec : EqDecision Reason.
Proof. solve_decision. Defined.
Definition NON_FAILURE_REASONS : list Reason := [R_NONE; R_UNKNOWN; R_RELEASE_ERROR; R_SHUTDOWN].

(** ** Payload storage *)

(** A field holds a number, or bytes. *)
Inductive Value := Num (n : Z) | Bytes (l : list Z).
Notation Payload := (gmap string Value).
Definition Fields := list (string * Value).
(** What names a pool of slots: the thread whose buffers they are, the event, its category,
    whether it is a context, and (for other events) the names of its fields. *)
Record BufferKey := mkBufferKey {
  bk_thread : Z; bk_name : string; bk_category : Z; bk_context : bool; bk_fields : list string }.
#[export] Instance BufferKey_eq_dec : EqDecision BufferKey.
Proof. solve_decision. Defined.
#[export] Instance BufferKey_countable : Countable BufferKey.
Proof.
  apply (inj_countable' (λ k, (bk_thread k, bk_name k, bk_category k, bk_context k, bk_fields k))
    (λ '(t, n, c, x, f), mkBufferKey t n c x f)). by intros [].
Defined.
(** An emission under way: its key, its slot, and what it is to show. *)
Record Emission := mkEmission { em_key : BufferKey; em_slot : nat; em_trace_id : Z; em_fields : Fields }.
(** The slots' payloads, the slots available, and the emissions of all threads under way, the
    innermost of each thread first. *)
Record Emitter := mkEmitter {
  em_payloads : gmap nat Payload; em_available : gmap BufferKey (list nat); em_next : nat; em_live : list Emission }.

Section Emitter.
(** [_defaults] without [trace_id], and [_context_template]. *)
Context (defaults template : Payload).

(** [updates[()] = (trace_id, *fields.values())] *)
Definition assign (trace_id : Z) (fields : Fields) (p : Payload) : Payload :=
  foldl (λ p x, <[x.1 := x.2]> p) (<["trace_id" := Num trace_id]> p) fields.
(** The payload of an event, as a reader of it is to see it. *)
Definition shown (context : bool) (trace_id : Z) (fields : Fields) : Payload :=
  assign trace_id fields (if context then template else defaults).
(** A new slot: the defaults, and zeros in the other fields. *)
Definition new_payload (context : bool) (names : list string) : Payload :=
  if context then ∅ else foldr (λ n p, match p !! n with Some _ => p | None => <[n := Num 0]> p end) defaults ("trace_id" :: names).
Definition buffer_key (thread : Z) (name : string) (category : Z) (context : bool) (fields : Fields) : BufferKey :=
  mkBufferKey thread name category context (if context then [] else fields.*1).
(** [_emit] up to the call of the profiler: [slot] is popped or made, and written. *)
Definition emit_begin (thread : Z) (name : string) (category : Z) (context : bool) (trace_id : Z) (fields : Fields)
    (s : Emitter) : Emitter :=
  let key := buffer_key thread name category context fields in
  let available := default [] (em_available s !! key) in
  let '(slot, payload, available, next) :=
    match rev available with
    | slot :: rest => (slot, default ∅ (em_payloads s !! slot), rev rest, em_next s)
    | [] => (em_next s, new_payload context fields.*1, [], S (em_next s))
    end in
  let payload := if context then template else payload in
  mkEmitter (<[slot := assign trace_id fields payload]> (em_payloads s)) (<[key := available]> (em_available s)) next
    (mkEmission key slot trace_id fields :: em_live s).
(** Its [finally], for the innermost emission of a thread. *)
Fixpoint pop_live (thread : Z) (live : list Emission) : option (Emission * list Emission) :=
  match live with
  | [] => None
  | e :: live =>
      if decide (bk_thread (em_key e) = thread) then Some (e, live)
      else '(e', live) ← pop_live thread live; Some (e', e :: live)
  end.
Definition emit_end (thread : Z) (s : Emitter) : Emitter :=
  match pop_live thread (em_live s) with
  | Some (e, live) =>
      mkEmitter (em_payloads s) (<[em_key e := default [] (em_available s !! em_key e) ++ [em_slot e]]> (em_available s))
        (em_next s) live
  | None => s
  end.
(** Threads emit, also from within the profiler's call, and leave it by returning or raising. *)
Inductive EmitStep :=
  | EBegin (thread : Z) (name : string) (category : Z) (context : bool) (trace_id : Z) (fields : Fields)
  | EEnd (thread : Z).
Definition emit_step (s : Emitter) (e : EmitStep) : Emitter :=
  match e with
  | EBegin thread name category context trace_id fields => emit_begin thread name category context trace_id fields s
  | EEnd thread => emit_end thread s
  end.
Definition new_emitter : Emitter := mkEmitter ∅ ∅ 0 [].
Definition emit_steps (steps : list EmitStep) : Emitter := foldl emit_step new_emitter steps.
End Emitter.

(** ** Calls of the profiler *)

(** The fields of an event; a mark also says if it is made once. *)
Record EventFields := mkEventFields {
  ef_status : option Status; ef_reason : option Reason; ef_blocks : option Z; ef_bytes : option Z; ef_more : list (string * Z) }.
Definition no_fields : EventFields := mkEventFields None None None None [].
Definition because (status : Status) (reason : Reason) : EventFields := mkEventFields (Some status) (Some reason) None None [].
Inductive NAct :=
  | NContext | NMark (once : bool) (name : string) (fields : EventFields)
  | NStart (name : string) (fields : EventFields) | NPush (name : string) | NEnd (range_id : Z) | NPop.
Definition NHistory := list (NAct * result Z).

(** ** The trace of an operation *)

(** The fields of [_LifecycleTrace] and the calls made. *)
Record Trace := mkTrace {
  tc_medium : bool;
  tc_requested_blocks : Z;
  tc_selected_bytes : Z;
  tc_requested_bytes : Z;
  tc_observed : gset string;
  tc_failure_reason : Reason;
  tc_completion_fields : EventFields;
  tc_ranges : list (string * Z);
  tc_acts : NHistory }.
Definition tset_observed (v : gset string) (t : Trace) : Trace :=
  mkTrace (tc_medium t) (tc_requested_blocks t) (tc_selected_bytes t) (tc_requested_bytes t) v (tc_failure_reason t)
    (tc_completion_fields t) (tc_ranges t) (tc_acts t).
Definition tset_failure_reason (v : Reason) (t : Trace) : Trace :=
  mkTrace (tc_medium t) (tc_requested_blocks t) (tc_selected_bytes t) (tc_requested_bytes t) (tc_observed t) v
    (tc_completion_fields t) (tc_ranges t) (tc_acts t).
Definition tset_completion (v : EventFields) (t : Trace) : Trace :=
  mkTrace (tc_medium t) (tc_requested_blocks t) (tc_selected_bytes t) (tc_requested_bytes t) (tc_observed t)
    (tc_failure_reason t) v (tc_ranges t) (tc_acts t).
Definition tset_ranges (v : list (string * Z)) (t : Trace) : Trace :=
  mkTrace (tc_medium t) (tc_requested_blocks t) (tc_selected_bytes t) (tc_requested_bytes t) (tc_observed t)
    (tc_failure_reason t) (tc_completion_fields t) v (tc_acts t).
Definition trecord (a : NAct) (r : result Z) (t : Trace) : Trace :=
  mkTrace (tc_medium t) (tc_requested_blocks t) (tc_selected_bytes t) (tc_requested_bytes t) (tc_observed t)
    (tc_failure_reason t) (tc_completion_fields t) (tc_ranges t) (tc_acts t ++ [(a, r)]).
Fixpoint range_of (name : string) (l : list (string * Z)) : option Z :=
  match l with [] => None | (k, v) :: l => if decide (k = name) then Some v else range_of name l end.
Definition without_range (name : string) (l : list (string * Z)) : list (string * Z) := filter (λ x, x.1 ≠ name) l.

Section Trace.
Context (world : NHistory → NAct → result Z).
Definition tcall (a : NAct) : M Trace Z := λ t, let r := world (tc_acts t) a in (r, trecord a r t).
(** [try: ... except Exception: pass] *)
Definition tquiet (m : M Trace unit) : M Trace unit := try_except m (λ _, mret tt).
(** [__init__]; the display of the request is part of the context. *)
Definition new_trace (medium : bool) (requested_blocks selected_bytes requested_bytes : Z) : Trace :=
  (tquiet (tcall NContext ;; mret tt)
     (mkTrace medium requested_blocks selected_bytes requested_bytes ∅ R_UNKNOWN no_fields [] [])).2.
(** [start] *)
Definition trace_start (name : string) (fields : EventFields) : M Trace unit :=
  ranges ← gets tc_ranges;
  match range_of name ranges with
  | Some _ => mret tt
  | None => tquiet (range_id ← tcall (NStart name fields); modify (λ t, tset_ranges (tc_ranges t ++ [(name, range_id)]) t))
  end.
(** [end] *)
Definition trace_end (name : string) : M Trace unit :=
  ranges ← gets tc_ranges;
  modify (tset_ranges (without_range name ranges)) ;;
  match range_of name ranges with
  | Some range_id => tquiet (tcall (NEnd range_id) ;; mret tt)
  | None => mret tt
  end.
Definition terminal_marks : list string := ["op.completion_returned"; "op.rejected"; "op.shutdown_unreturned"].
(** [mark] *)
Definition trace_mark (name : string) (once detail retain_cause : bool) (fields : EventFields) : M Trace unit :=
  let reason := default R_NONE (ef_reason fields) in
  (if negb retain_cause && bool_decide (reason ∉ NON_FAILURE_REASONS) then modify (tset_failure_reason reason) else mret tt) ;;
  medium ← gets tc_medium;
  if detail && negb medium then mret tt else
  observed ← gets tc_observed;
  if once && bool_decide (name ∈ observed) then mret tt else
  (if once : bool then modify (λ t, tset_observed ({[name]} ∪ tc_observed t) t) else mret tt) ;;
  try_finally (tquiet (tcall (NMark once name fields) ;; mret tt))
    (if decide (name ∈ terminal_marks) then trace_end "op.deliver.lifecycle" else mret tt).
(** [push]; [pop] of the tracer takes what it answered. *)
Definition trace_push (name : string) : M Trace bool :=
  try_except (tcall (NPush name) ;; mret true) (λ _, mret false).
Definition trace_pop (pushed : bool) : M Trace unit :=
  if pushed then tquiet (tcall NPop ;; mret tt) else mret tt.
Definition shutdown_unresolved (name : string) : M Trace unit := trace_mark name true false false (because UNRESOLVED R_SHUTDOWN).
Definition trace_reject (name : string) (reason : Reason) (status : Status) : M Trace unit :=
  trace_mark name true false false (because status reason).
Definition cancel_requested (name : string) (cancelled : bool) : M Trace unit :=
  trace_mark name true false false
    (because (if cancelled then CANCELLED else TIMEOUT) (if cancelled then R_CANCELLED else R_DEADLINE)).
(** What [completed] says of the successes of the entries. *)
Definition completion_of (requested_bytes : Z) (failure_reason : Reason) (entries : list bool) : EventFields :=
  let completed := zlen (filter (λ b, b = true) entries) in
  let all_completed := (completed =? zlen entries)%Z in
  mkEventFields
    (Some (if all_completed then SUCCESS else if (completed =? 0)%Z then FAILED else PARTIAL))
    (Some (if all_completed then R_NONE else failure_reason))
    (Some completed)
    (Some (if all_completed then requested_bytes else if (completed =? 0)%Z then 0%Z else (-1)%Z)) [].
(** [completed] *)
Definition trace_completed (entries : list bool) : M Trace unit :=
  t ← get;
  let fields := completion_of (tc_requested_bytes t) (tc_failure_reason t) entries in
  modify (tset_completion fields) ;;
  trace_mark "op.completion_queued" true false false fields.
(** [returned] *)
Definition trace_returned : M Trace unit :=
  fields ← gets tc_completion_fields;
  try_except (trace_mark "op.completion_returned" true false false fields) (λ _, trace_end "op.deliver.lifecycle").
(** [target_result]: the operation's blocks, those completed, its success, and the bytes of the
    completed ones, which may not be known. *)
Definition target_result (blocks completed : Z) (success : bool) (bytes : result Z) (reason : Reason) : M Trace unit :=
  tquiet
    (medium ← gets tc_medium;
     byte_count ← (if medium : bool then lift bytes else mret (if (completed =? 0)%Z then 0%Z else (-1)%Z));
     trace_mark "target.write_done.received" true false false
       (mkEventFields
          (Some (if success && (completed =? blocks)%Z then SUCCESS else if (completed =? 0)%Z then FAILED else PARTIAL))
          (Some reason) (Some completed) (Some byte_count) [])).
(** [complete_source] *)
Definition source_status (success : bool) (blocks requested : Z) : Status :=
  if success && (blocks <? requested)%Z then (if (blocks =? 0)%Z then FAILED else PARTIAL)
  else if success then SUCCESS else FAILED.
Definition complete_source (success : bool) (blocks : Z) (reason : option Reason) : M Trace unit :=
  t ← get;
  let reason := match reason with
    | Some r => r
    | None => if success && (tc_requested_blocks t <=? blocks)%Z then R_NONE else tc_failure_reason t
    end in
  try_finally
    (trace_mark "source.write.completed" true false false
       (mkEventFields (Some (source_status success blocks (tc_requested_blocks t))) (Some reason)
          (Some (if success then blocks else 0%Z)) (Some (if success then tc_selected_bytes t else 0%Z)) []))
    (trace_end "source.write").

Inductive TraceOp :=
  | OStart (name : string) (fields : EventFields) | OEnd (name : string)
  | OMark (name : string) (once detail retain_cause : bool) (fields : EventFields) | OPush (name : string)
  | OPop (pushed : bool) | OShutdown (name : string) | OReject (name : string) (reason : Reason) (status : Status)
  | OCancel (name : string) (cancelled : bool) | OCompleted (entries : list bool) | OReturned
  | OTarget (blocks completed : Z) (success : bool) (bytes : result Z) (reason : Reason)
  | OSource (success : bool) (blocks : Z) (reason : option Reason).
Definition trace_op (o : TraceOp) : M Trace unit :=
  match o with
  | OStart name fields => trace_start name fields
  | OEnd name => trace_end name
  | OMark name once detail retain_cause fields => trace_mark name once detail retain_cause fields
  | OPush name => trace_push name ;; mret tt
  | OPop pushed => trace_pop pushed
  | OShutdown name => shutdown_unresolved name
  | OReject name reason status => trace_reject name reason status
  | OCancel name cancelled => cancel_requested name cancelled
  | OCompleted entries => trace_completed entries
  | OReturned => trace_returned
  | OTarget blocks completed success bytes reason => target_result blocks completed success bytes reason
  | OSource success blocks reason => complete_source success blocks reason
  end.
Definition trace_life (ops : list TraceOp) : M Trace unit := for_each ops trace_op.
End Trace.

(** ** The trace of a framework pin *)

Record PinTrace := mkPinTrace {
  pt_requested_blocks : Z;
  pt_request_id : option Z;
  pt_finished : bool;
  pt_context_emitted : bool;
  pt_wait_range_id : option Z;
  pt_acts : NHistory }.
Definition precord (a : NAct) (r : result Z) (p : PinTrace) : PinTrace :=
  mkPinTrace (pt_requested_blocks p) (pt_request_id p) (pt_finished p) (pt_context_emitted p) (pt_wait_range_id p)
    (pt_acts p ++ [(a, r)]).
Definition pset_request (v : Z) (p : PinTrace) : PinTrace :=
  mkPinTrace (pt_requested_blocks p) (Some v) (pt_finished p) (pt_context_emitted p) (pt_wait_range_id p) (pt_acts p).
Definition pset_finished (p : PinTrace) : PinTrace :=
  mkPinTrace (pt_requested_blocks p) (pt_request_id p) true (pt_context_emitted p) (pt_wait_range_id p) (pt_acts p).
Definition pset_context (p : PinTrace) : PinTrace :=
  mkPinTrace (pt_requested_blocks p) (pt_request_id p) (pt_finished p) true (pt_wait_range_id p) (pt_acts p).

Section Pin.
Context (medium : bool) (world : NHistory → NAct → result Z).
Definition pcall (a : NAct) : M PinTrace Z := λ p, let r := world (pt_acts p) a in (r, precord a r p).
Definition pquiet (a : NAct) : M PinTrace unit := try_except (pcall a ;; mret tt) (λ _, mret tt).
(** [begin] of the tracer *)
Definition begin_pin (block_count : Z) : PinTrace :=
  let r := world [] (NStart "source.pin.wait" no_fields) in
  mkPinTrace block_count None false false (match r with Ret range_id => Some range_id | Raise _ => None end)
    [(NStart "source.pin.wait" no_fields, r)].
(** [_context] *)
Definition pin_context : M PinTrace unit :=
  emitted ← gets pt_context_emitted;
  if emitted : bool then mret tt else modify pset_context ;; pquiet NContext.
Definition pin_mark (name : string) (fields : EventFields) : M PinTrace unit := pquiet (NMark false name fields).
Definition registered (request_id : Z) : M PinTrace unit :=
  modify (pset_request request_id) ;; pin_context ;; pin_mark "source.pin.registered" no_fields.
Definition waiter (source_op_id op_handle : Z) : M PinTrace unit :=
  pin_mark "source.pin.waiter" (mkEventFields None None None None [("source_op_id", source_op_id); ("op_handle", op_handle)]).
Definition detached (source_op_id op_handle : Z) : M PinTrace unit :=
  if medium then
    pin_mark "source.pin.detached" (mkEventFields None None None None [("source_op_id", source_op_id); ("op_handle", op_handle)])
  else mret tt.
(** [_PIN_RESULTS] *)
Definition pin_result (result : string) : Status * Reason :=
  if decide (result = "success") then (SUCCESS, R_NONE)
  else if decide (result = "failed") then (FAILED, R_UNKNOWN)
  else if decide (result = "timeout") then (TIMEOUT, R_DEADLINE)
  else if decide (result = "cancelled") then (CANCELLED, R_CANCELLED)
  else (UNRESOLVED, R_UNKNOWN).
(** What [finish] marks. *)
Definition pin_outcome (result : string) (reason : option Reason) (completed_blocks requested_blocks : Z) : Status * Reason :=
  let '(status, default_reason) := pin_result result in
  let status :=
    if decide (status = SUCCESS ∧ (0 <= completed_blocks < requested_blocks)%Z)
    then (if (completed_blocks =? 0)%Z then FAILED else PARTIAL) else status in
  let reason := default default_reason reason in
  (status, if decide ((status = PARTIAL ∨ status = FAILED) ∧ reason = R_NONE) then R_UNKNOWN else reason).
(** [finish]: the flag is taken under its lock. *)
Definition finish_pin (result : string) (reason : option Reason) (completed_blocks : Z) : M PinTrace unit :=
  finished ← gets pt_finished;
  if finished : bool then mret tt else
  modify pset_finished ;;
  pin_context ;;
  requested ← gets pt_requested_blocks;
  let '(status, reason) := pin_outcome result reason completed_blocks requested in
  pin_mark "source.pin.completed" (mkEventFields (Some status) (Some reason) (Some completed_blocks) None []) ;;
  wait_range ← gets pt_wait_range_id;
  match wait_range with Some range_id => pquiet (NEnd range_id) | None => mret tt end.
Inductive PinOp :=
  | PRegistered (request_id : Z) | PWaiter (source_op_id op_handle : Z) | PDetached (source_op_id op_handle : Z)
  | PFinish (result : string) (reason : option Reason) (completed_blocks : Z).
Definition pin_op (o : PinOp) : M PinTrace unit :=
  match o with
  | PRegistered request_id => registered request_id
  | PWaiter source_op_id op_handle => waiter source_op_id op_handle
  | PDetached source_op_id op_handle => detached source_op_id op_handle
  | PFinish result reason completed_blocks => finish_pin result reason completed_blocks
  end.
Definition pin_life (ops : list PinOp) : M PinTrace unit := for_each ops pin_op.
End Pin.

(** ** What a trace says of memory and names *)

(** [identity]; BLAKE2b is a parameter. *)
Definition big_endian (l : list Z) : Z := unle (rev l).
Definition identity (blake2b : string → list Z) (value : option string) : Z * Z :=
  match value with
  | None => (0, 0)%Z
  | Some v => (big_endian (take 8 (blake2b v)), big_endian (drop 8 (blake2b v)))
  end.
(** The one element of a set, if there is one. *)
Definition only_kind (kinds : gset Z) (none several : Z) : Z :=
  match elements kinds with [] => none | [k] => k | _ => several end.
(** [tier] of references, each by whether it is of the framework. *)
Definition tier (refs : list bool) : Z := only_kind (list_to_set ((λ framework, if framework : bool then 1 else 2)%Z <$> refs)) 0 3.
Definition MEMORY_KINDS (mem_type : string) : Z :=
  if decide (mem_type = "DRAM") then 1 else if decide (mem_type = "VRAM") then 2 else if decide (mem_type = "FILE") then 3 else 0.
(** [memory_kind]: the memory type of the region of each reference, by its label or its pool's. *)
Definition kind_of (framework_regions kvcr_regions : gmap string string) (ref : bool * label) : Z :=
  let table := if ref.1 : bool then framework_regions else kvcr_regions in
  let region := match table !! ref.2 with
    | Some mem_type => Some mem_type
    | None => table !! (pool_of ref.2 +:+ (if ref.1 : bool then ":*" else ""))
    end in
  match region with Some mem_type => MEMORY_KINDS mem_type | None => 0 end.
Definition memory_kind (framework_regions kvcr_regions : gmap string string) (refs : list (bool * label)) : Z :=
  only_kind (list_to_set (kind_of framework_regions kvcr_regions <$> refs)) 0 0.
(** [pin_result_blocks]: of the pieces a result holds, those that are there. *)
Definition pin_result_blocks {A} (result : option (list (option A))) : Z :=
  match result with Some l => zlen (omap id l) | None => -1 end.
(** [create_tracer]: the level of the environment, and whether the libraries load. *)
Definition create_tracer (level : option string) (loads : bool) : option bool :=
  let level := default "off" level in
  if decide (level = "off") then None
  else if decide (level = "low" ∨ level = "medium") then (if loads then Some (bool_decide (level = "medium")) else None)
  else None.
