(* ===== verification/TracingThm.v ===== *)
(** * Profiler annotations: harmless, and exact

    What a profiler is shown by [Tracing] is what was traced, whatever emissions run within or
    beside each other; and no trace ever raises, nor leaves or ends a range twice. *)

From Stdlib Require Import ZArith Lia.
From S2P Require Import Prelude Types Journal Tracing.

(** ** Payload storage *)

Section Emitter.
Context (defaults template : Payload).
Notation shown := (shown defaults template).

(** Fields are written over whatever was there. *)
Lemma assign_lookup trace_id fields p q : (∀ n, n ∉ "trace_id" :: fields.*1 → p !! n = q !! n) →
  assign trace_id fields p = assign trace_id fields q.
Proof.
  unfold assign. intros H.
  assert (∀ n, n ∉ fields.*1 → <["trace_id":=Num trace_id]> p !! n = <["trace_id":=Num trace_id]> q !! n) as H'.
  { intros n Hn. destruct (decide (n = "trace_id")) as [->|Hne]; [by rewrite !lookup_insert_eq|].
    rewrite !lookup_insert_ne by done. apply H. by apply not_elem_of_cons. }
  revert H'. generalize (<["trace_id":=Num trace_id]> p), (<["trace_id":=Num trace_id]> q). clear H p q.
  induction fields as [|[k v] fields IH]; intros p q H; simpl.
  - apply map_eq. intros n. apply H, not_elem_of_nil.
  - apply IH. intros n Hn. destruct (decide (n = k)) as [->|Hne]; [by rewrite !lookup_insert_eq|].
    rewrite !lookup_insert_ne by done. apply H. by apply not_elem_of_cons.
Qed.
(** A slot that can be taken for a key: but for the fields, the defaults. *)
Definition clean (k : BufferKey) (p : Payload) : Prop :=
  bk_context k = false → ∀ n, n ∉ "trace_id" :: bk_fields k → p !! n = defaults !! n.
Lemma new_payload_clean context names n : context = false → n ∉ "trace_id" :: names → new_payload defaults context names !! n = defaults !! n.
Proof.
  intros ->. unfold new_payload. generalize ("trace_id" :: names). clear names. intros names Hn.
  induction names as [|k names IH]; simpl; [done|]. apply not_elem_of_cons in Hn as [Hne Hn].
  case_match; [by apply IH|]. rewrite lookup_insert_ne by done. by apply IH.
Qed.
Lemma assign_other trace_id fields p n : n ∉ "trace_id" :: fields.*1 → assign trace_id fields p !! n = p !! n.
Proof.
  unfold assign. intros [Hn Hf]%not_elem_of_cons. rewrite <- (lookup_insert_ne p "trace_id" n (Num trace_id)) by done.
  generalize (<["trace_id":=Num trace_id]> p). clear p. induction fields as [|[k v] fields IH]; intros p; simpl; [done|].
  apply not_elem_of_cons in Hf as [Hne Hf]. rewrite IH by done. by rewrite lookup_insert_ne.
Qed.

Definition slots_of (s : Emitter) (k : BufferKey) : list nat := default [] (em_available s !! k).
Definition fields_of_key (e : Emission) : Prop :=
  bk_context (em_key e) = false → bk_fields (em_key e) = (em_fields e).*1.
Record isolated (s : Emitter) : Prop := mk_isolated {
  is_bound : ∀ k slot, slot ∈ slots_of s k → slot < em_next s;
  is_live_bound : ∀ e, e ∈ em_live s → em_slot e < em_next s;
  is_keys : ∀ k k' slot, slot ∈ slots_of s k → slot ∈ slots_of s k' → k = k';
  is_once : ∀ k, NoDup (slots_of s k);
  is_live_once : NoDup (em_slot <$> em_live s);
  is_apart : ∀ k slot, slot ∈ slots_of s k → slot ∉ em_slot <$> em_live s;
  is_clean : ∀ k slot, slot ∈ slots_of s k → clean k (default ∅ (em_payloads s !! slot));
  is_live_fields : ∀ e, e ∈ em_live s → fields_of_key e;
  is_shown : ∀ e, e ∈ em_live s →
    em_payloads s !! em_slot e = Some (shown (bk_context (em_key e)) (em_trace_id e) (em_fields e)) }.

Lemma slots_insert s k l k' p n live :
  slots_of (mkEmitter p (<[k := l]> (em_available s)) n live) k' = if decide (k = k') then l else slots_of s k'.
Proof. unfold slots_of. simpl. case_decide; [subst; by rewrite lookup_insert_eq|by rewrite lookup_insert_ne]. Qed.
Lemma rev_cons_last {A} (l : list A) x r : rev l = x :: r → l = rev r ++ [x].
Proof. intros H. by rewrite <- (rev_involutive l), H. Qed.

(** Taking a slot that is nobody's, for a key, and writing it. *)
Lemma take_isolated s key slot payload available next trace_id fields :
  isolated s → slot ∉ em_slot <$> em_live s → (∀ k, slot ∉ (if decide (key = k) then available else slots_of s k)) →
  slot < next → em_next s ≤ next → (∀ x, x ∈ available → x ∈ slots_of s key) → NoDup available →
  clean key payload → (bk_context key = false → bk_fields key = fields.*1) → bk_context key = true ∨ bk_context key = false →
  isolated (mkEmitter (<[slot := assign trace_id fields (if bk_context key then template else payload)]> (em_payloads s))
    (<[key := available]> (em_available s)) next (mkEmission key slot trace_id fields :: em_live s)).
Proof.
  intros [B LB K O LO A C LF SH] Hl Ha Hn Hle Hsub Hnd Hc Hf _.
  assert (∀ k x, x ∈ (if decide (key = k) then available else slots_of s k) → x ∈ slots_of s k) as Hin.
  { intros k x. case_decide; [subst; apply Hsub|done]. }
  split; simpl; setoid_rewrite slots_insert || idtac.
  - intros k x Hx%Hin%B. lia.
  - intros e [->|He%LB]%elem_of_cons; simpl; lia.
  - intros k k' x Hx%Hin Hx'%Hin. by eapply K.
  - intros k. case_decide; [done|apply O].
  - by constructor.
  - intros k x Hx. rewrite not_elem_of_cons. split; [intros ->; by eapply Ha|]. apply Hin in Hx. by eapply A.
  - intros k x Hx. rewrite lookup_insert_ne by (intros ->; by eapply Ha). by apply C, Hin.
  - intros e [->|He]%elem_of_cons; [exact Hf|by apply LF].
  - intros e [->|He]%elem_of_cons; simpl.
    + rewrite lookup_insert_eq. f_equal. unfold Tracing.shown. destruct (bk_context key) eqn:Hx; [done|].
      apply assign_lookup. intros n Hn'. apply Hc; [done|]. by rewrite Hf.
    + rewrite lookup_insert_ne; [by apply SH|]. intros ->. apply Hl. by apply list_elem_of_fmap_2.
Qed.
Lemma begin_isolated s thread name category context trace_id fields :
  isolated s → isolated (emit_begin defaults template thread name category context trace_id fields s).
Proof.
  intros Hs. pose proof Hs as [B LB K O LO A C LF SH]. unfold emit_begin. fold (slots_of s).
  set (key := buffer_key thread name category context fields). change context with (bk_context key).
  assert (bk_context key = false → bk_fields key = fields.*1) as Hf by (unfold key; simpl; by intros ->).
  fold (slots_of s key). destruct (rev (slots_of s key)) as [|slot rest] eqn:Hr.
  - assert (slots_of s key = []) as He by (rewrite <- (rev_involutive (slots_of s key)), Hr; done).
    apply take_isolated; try done.
    + intros Hin%list_elem_of_fmap. destruct Hin as (e & He' & Hin%LB). lia.
    + intros k. case_decide; [apply not_elem_of_nil|]. intros Hin%B. lia.
    + lia.
    + lia.
    + by intros x ?%elem_of_nil.
    + constructor.
    + intros Hx n Hn. apply new_payload_clean; [exact Hx|]. by rewrite <- Hf.
    + by destruct (bk_context key); [left|right].
  - apply rev_cons_last in Hr. pose proof (O key) as Hnd. rewrite Hr in Hnd. apply NoDup_app in Hnd as (Hnd & Hx & _).
    assert (slot ∈ slots_of s key) as Hin by (rewrite Hr; set_solver).
    apply take_isolated; try done.
    + by eapply A.
    + intros k. case_decide as Hk; [intros Hi; by apply Hx in Hi; set_solver|]. intros Hi. by apply Hk, (K _ _ slot).
    + by eapply B.
    + intros x Hi. rewrite Hr. set_solver.
    + by apply C.
    + by destruct (bk_context key); [left|right].
Qed.
Lemma pop_live_split thread live e rest : pop_live thread live = Some (e, rest) → live ≡ₚ e :: rest.
Proof.
  revert rest. induction live as [|x live IH]; intros rest; simpl; [done|]. case_decide; [by intros [= <- <-]|].
  destruct (pop_live thread live) as [[e' l]|]; simpl; [|done]. intros [= <- <-]. rewrite IH by done. apply Permutation_swap.
Qed.
Lemma end_isolated s thread : isolated s → isolated (emit_end thread s).
Proof.
  intros Hs. unfold emit_end. destruct (pop_live thread (em_live s)) as [[e rest]|] eqn:Hp; [|done].
  apply pop_live_split in Hp. destruct Hs as [B LB K O LO A C LF SH]. fold (slots_of s (em_key e)).
  assert (e ∈ em_live s) as He by (rewrite Hp; by left).
  assert (em_slot e ∉ em_slot <$> rest) as Hne by (rewrite Hp in LO; by apply NoDup_cons in LO as [? _]).
  assert (∀ k, em_slot e ∉ slots_of s k) as Hav by (intros k Hin%A; apply Hin; by apply list_elem_of_fmap_2).
  split; simpl; setoid_rewrite slots_insert || idtac.
  - intros k x. case_decide; [|apply B]. intros [Hx%B| ->%list_elem_of_singleton]%elem_of_app; [done|by apply LB].
  - intros x Hx. apply LB. rewrite Hp. by right.
  - intros k k' x Hk Hk'. repeat case_decide; subst; try done; first
      [ by eapply K
      | apply elem_of_app in Hk as [Hk| ->%list_elem_of_singleton]; [by eapply K|by apply Hav in Hk']
      | apply elem_of_app in Hk' as [Hk'| ->%list_elem_of_singleton]; [by eapply K|by apply Hav in Hk] ].
  - intros k. case_decide as Hk; [|apply O]. apply NoDup_app. split_and!; [apply O| |apply NoDup_singleton].
    intros x Hx ->%list_elem_of_singleton. by apply Hav in Hx.
  - rewrite Hp in LO. by apply NoDup_cons in LO as [_ ?].
  - intros k x. case_decide; [|intros Hx%A; rewrite Hp in Hx; set_solver].
    intros [Hx%A| ->%list_elem_of_singleton]%elem_of_app; [rewrite Hp in Hx; set_solver|done].
  - intros k x. case_decide as Hk; [|apply C]. intros [Hx%C| ->%list_elem_of_singleton]%elem_of_app; [by subst k|]. subst k.
    rewrite SH by done. simpl. intros Hc n Hn. unfold Tracing.shown. rewrite Hc. apply assign_other.
    by rewrite <- (LF e He Hc).
  - intros x Hx. apply LF. rewrite Hp. by right.
  - intros x Hx. apply SH. rewrite Hp. by right.
Qed.

End Emitter.

(** ** The trace of an operation *)

Definition once_names (h : NHistory) : list string := omap (λ x, match x.1 with NMark true name _ => Some name | _ => None end) h.
Definition started (h : NHistory) : list Z := omap (λ x, match x with (NStart _ _, Ret range_id) => Some range_id | _ => None end) h.
Definition ended (h : NHistory) : list Z := omap (λ x, match x.1 with NEnd range_id => Some range_id | _ => None end) h.
Lemma once_names_app h h' : once_names (h ++ h') = once_names h ++ once_names h'.
Proof. apply omap_app. Qed.
Lemma started_app h h' : started (h ++ h') = started h ++ started h'.
Proof. apply omap_app. Qed.
Lemma ended_app h h' : ended (h ++ h') = ended h ++ ended h'.
Proof. apply omap_app. Qed.

(** The ranges under way are those started and not ended; what is made once was made once. *)
Record well_traced (t : Trace) : Prop := mk_well_traced {
  wt_keys : NoDup (tc_ranges t).*1;
  wt_ranges : started (tc_acts t) ≡ₚ ended (tc_acts t) ++ (tc_ranges t).*2;
  wt_once : NoDup (once_names (tc_acts t));
  wt_observed : ∀ name, name ∈ once_names (tc_acts t) → name ∈ tc_observed t }.
Lemma range_of_none name l : range_of name l = None → name ∉ l.*1.
Proof.
  induction l as [|[k v] l IH]; simpl; [by intros _ ?%elem_of_nil|]. case_decide; [done|].
  intros Hl. rewrite not_elem_of_cons. split; [done|]. by apply IH.
Qed.
Lemma without_range_id name l : name ∉ l.*1 → without_range name l = l.
Proof.
  unfold without_range. induction l as [|[k v] l IH]; simpl; [done|]. intros [Hne Hl]%not_elem_of_cons.
  rewrite filter_cons_True by (simpl; congruence). by rewrite IH.
Qed.
Lemma without_range_split name l r : NoDup l.*1 → range_of name l = Some r →
  l.*2 ≡ₚ r :: (without_range name l).*2.
Proof.
  induction l as [|[k v] l IH]; [done|]. simpl. intros [Hk Hl]%NoDup_cons. case_decide as Hd.
  - intros [= ->]. subst k. unfold without_range. rewrite filter_cons_False by naive_solver.
    change (r :: l.*2 ≡ₚ r :: (without_range name l).*2). by rewrite without_range_id.
  - intros Hr. unfold without_range. rewrite filter_cons_True by done. simpl. rewrite IH by done. apply Permutation_swap.
Qed.
Lemma without_range_keys name l : NoDup l.*1 → NoDup (without_range name l).*1.
Proof.
  unfold without_range. induction l as [|[k v] l IH]; [done|]. simpl. intros [Hk Hl]%NoDup_cons.
  rewrite filter_cons. case_decide; [|by apply IH]. simpl. constructor; [|by apply IH].
  intros Hin. apply list_elem_of_fmap in Hin as ([k' v'] & -> & Hin). apply list_elem_of_filter in Hin as [_ Hin].
  apply Hk, list_elem_of_fmap. by exists (k', v').
Qed.

Section Trace.
Context (world : NHistory → NAct → result Z).
(** It ends well traced, and never raises. *)
Definition harmless {A} (m : M Trace A) : Prop := ∀ t, well_traced t → wp m (λ _, well_traced) (λ _ _, False) t.
Lemma harmless_ret {A} (a : A) : harmless (mret a).
Proof. by intros t Ht. Qed.
Lemma harmless_bind {A B} (m : M Trace A) (f : A → M Trace B) : harmless m → (∀ a, harmless (f a)) → harmless (a ← m; f a).
Proof. intros Hm Hf t Ht. apply wp_bind. eapply wp_mono; [by apply Hm| |done]. intros a t' Ht'. by apply Hf. Qed.
Lemma harmless_gets {A} (f : Trace → A) : harmless (gets f).
Proof. by intros t Ht. Qed.
Lemma harmless_get : harmless get.
Proof. by intros t Ht. Qed.
Lemma harmless_state f : (∀ t, tc_acts (f t) = tc_acts t ∧ tc_ranges (f t) = tc_ranges t ∧ tc_observed t ⊆ tc_observed (f t)) → harmless (modify f).
Proof. intros Hf t [K R O S]. wp. destruct (Hf t) as (Ha & Hr & Ho). split; rewrite ?Ha, ?Hr; try done. intros n Hn. by apply Ho, S. Qed.
Lemma harmless_finally {A} (m : M Trace A) f : harmless m → harmless f → harmless (try_finally m f).
Proof.
  intros Hm Hf t Ht. apply wp_try_finally. eapply wp_mono; [by apply Hm| |done].
  intros a t' Ht'. eapply wp_mono; [by apply Hf|done|done].
Qed.
(** Calls that start, end and mark nothing once. *)
Definition plain (a : NAct) : bool := match a with NMark true _ _ | NStart _ _ | NEnd _ => false | _ => true end.
Lemma well_traced_record a r t : plain a = true → well_traced t → well_traced (trecord a r t).
Proof.
  intros Ha [K R O S]. split; simpl; rewrite ?once_names_app, ?started_app, ?ended_app.
  - done.
  - destruct a as [|[]| | | |]; try done; destruct r; simpl; by rewrite !app_nil_r.
  - destruct a as [|[]| | | |]; try done; simpl; by rewrite app_nil_r.
  - destruct a as [|[]| | | |]; try done; simpl; rewrite app_nil_r; exact S.
Qed.
Lemma harmless_call a : plain a = true → harmless (tquiet (tcall world a ;; mret tt)).
Proof.
  intros Ha t Ht. unfold tquiet. apply wp_try_except, wp_bind. unfold wp, tcall.
  pose proof (well_traced_record a (world (tc_acts t) a) t Ha Ht) as H. by destruct (world (tc_acts t) a).
Qed.
Lemma start_harmless name fields : harmless (trace_start world name fields).
Proof.
  intros t [K R O S]. unfold trace_start. wp. destruct (range_of name (tc_ranges t)) as [r|] eqn:Hr; [by wp|].
  unfold tquiet. apply wp_try_except, wp_bind. unfold wp, tcall. destruct (world (tc_acts t) _) as [range_id|e] eqn:Hw.
  - simpl. split; simpl; rewrite ?once_names_app, ?started_app, ?ended_app; simpl; rewrite ?app_nil_r; try done.
    + rewrite fmap_app. apply NoDup_app. split_and!; [done| |apply NoDup_singleton].
      intros n Hn ->%list_elem_of_singleton. by eapply range_of_none.
    + by rewrite fmap_app, app_assoc, <- R.
  - simpl. split; simpl; rewrite ?once_names_app, ?started_app, ?ended_app; simpl; by rewrite ?app_nil_r.
Qed.
Lemma end_harmless name : harmless (trace_end world name).
Proof.
  intros t [K R O S]. unfold trace_end. wp. destruct (range_of name (tc_ranges t)) as [r|] eqn:Hr.
  - unfold tquiet. apply wp_try_except, wp_bind. unfold wp, tcall. simpl.
    assert (∀ x, well_traced (trecord (NEnd r) x (tset_ranges (without_range name (tc_ranges t)) t))) as H.
    { intros x. split; simpl; rewrite ?once_names_app, ?started_app, ?ended_app; simpl; rewrite ?app_nil_r; try done.
      - by apply without_range_keys.
      - rewrite <- app_assoc. rewrite R, (without_range_split name) by done. done. }
    destruct (world (tc_acts t) _) as [x|e]; apply H.
  - wp. split; simpl; rewrite ?without_range_id by (by apply range_of_none); done.
Qed.
Lemma mark_harmless name once detail retain_cause fields : harmless (trace_mark world name once detail retain_cause fields).
Proof.
  unfold trace_mark. apply harmless_bind.
  { destruct (_ && _); [by apply harmless_state|apply harmless_ret]. }
  intros _. apply harmless_bind; [apply harmless_gets|]. intros medium. destruct (detail && negb medium); [apply harmless_ret|].
  destruct once.
  2:{ apply harmless_bind; [apply harmless_gets|]. intros observed. apply harmless_bind; [apply harmless_ret|]. intros _.
      apply harmless_finally; [by apply harmless_call|]. case_decide; [apply end_harmless|apply harmless_ret]. }
  intros t Ht. wp. simpl. case_bool_decide as Ho; [by wp|]. wp. apply wp_try_finally. unfold tquiet. apply wp_try_except, wp_bind.
  unfold wp at 1, tcall. simpl.
  assert (∀ x, well_traced (trecord (NMark true name fields) x (tset_observed ({[name]} ∪ tc_observed t) t))) as H.
  { intros x. destruct Ht as [K R O S]. split; simpl; rewrite ?once_names_app, ?started_app, ?ended_app; simpl; rewrite ?app_nil_r; try done.
    - apply NoDup_app. split_and!; [done| |apply NoDup_singleton]. intros n Hn ->%list_elem_of_singleton. by apply Ho, S.
    - intros n [Hn%S| ->%list_elem_of_singleton]%elem_of_app; set_solver. }
  assert (harmless (if decide (name ∈ terminal_marks) then trace_end world "op.deliver.lifecycle" else mret tt)) as Hf
    by (case_decide; [apply end_harmless|apply harmless_ret]).
  destruct (world (tc_acts t) _) as [x|e]; cbn beta; apply wp_ret; (eapply wp_mono; [by apply Hf, H|done|done]).
Qed.
Lemma op_harmless o : harmless (trace_op world o).
Proof.
  destruct o; simpl; unfold shutdown_unresolved, trace_reject, cancel_requested; try apply mark_harmless.
  - apply start_harmless.
  - apply end_harmless.
  - apply harmless_bind; [|intros b; apply harmless_ret]. intros t Ht. unfold trace_push. apply wp_try_except, wp_bind. unfold wp, tcall.
    pose proof (well_traced_record (NPush name) (world (tc_acts t) (NPush name)) t eq_refl Ht) as H. by destruct (world (tc_acts t) (NPush name)).
  - unfold trace_pop. destruct pushed; [by apply harmless_call|apply harmless_ret].
  - unfold trace_completed. apply harmless_bind; [apply harmless_get|]. intros t. cbn zeta.
    apply harmless_bind; [by apply harmless_state|]. intros _. apply mark_harmless.
  - unfold trace_returned. apply harmless_bind; [apply harmless_gets|]. intros fields t Ht. apply wp_try_except.
    eapply wp_mono; [by apply mark_harmless|done|done].
  - intros t Ht. unfold target_result, tquiet. apply wp_try_except. wp.
    eapply (wp_mono _ _ (λ _, well_traced) _ (λ _, well_traced)).
    + destruct (tc_medium t); [unfold wp, lift; by destruct bytes|by wp].
    + intros n t' Ht'. eapply wp_mono; [by apply mark_harmless|done|done].
    + intros e t' Ht'. by wp.
  - unfold complete_source. apply harmless_bind; [apply harmless_get|]. intros t. cbn zeta.
    apply harmless_finally; [apply mark_harmless|apply end_harmless].
Qed.

(** C38: Whatever an operation's trace is asked, and however the profiler answers: no call of the
    trace raises, the ranges the profiler started are those it was told to end, each once, and
    those still under way, and an event made once is never made again. *)
Theorem traces_are_harmless medium requested_blocks selected_bytes requested_bytes ops :
  let '(r, t) := trace_life world ops (new_trace world medium requested_blocks selected_bytes requested_bytes) in
  r = Ret tt ∧ started (tc_acts t) ≡ₚ ended (tc_acts t) ++ (tc_ranges t).*2 ∧ NoDup (tc_ranges t).*1 ∧
  NoDup (once_names (tc_acts t)).
Proof.
  set (t0 := new_trace _ _ _ _ _).
  assert (well_traced t0) as H0.
  { unfold t0, new_trace. set (t := mkTrace _ _ _ _ _ _ _ _ _).
    assert (well_traced t) as Ht by (split; simpl; try constructor; intros ? ?%elem_of_nil; done).
    pose proof (harmless_call NContext eq_refl t Ht) as H. unfold wp in H. by destruct (tquiet _ t) as [[u|e] t']. }
  assert (wp (trace_life world ops) (λ _, well_traced) (λ _ _, False) t0) as H.
  { unfold trace_life. apply (wp_for_each _ _ (λ _, well_traced)); [done| |done]. intros o rest t Ht. by apply op_harmless. }
  unfold wp in H. destruct (trace_life world ops t0) as [[[]|e] t]; [|done]. destruct H as [K R O S]. by split_and!.
Qed.
End Trace.

(** ** The trace of a framework pin *)

Definition completions (h : NHistory) : list (option Status * option Reason) :=
  omap (λ x, match x.1 with
             | NMark _ name fields => if decide (name = "source.pin.completed") then Some (ef_status fields, ef_reason fields) else None
             | _ => None end) h.
Definition contexts (h : NHistory) : nat := length (omap (λ x, match x.1 with NContext => Some tt | _ => None end) h).
(** The first end of a pin that is asked for. *)
Fixpoint first_finish (ops : list PinOp) : option (string * option Reason * Z) :=
  match ops with
  | [] => None
  | PFinish result reason completed_blocks :: _ => Some (result, reason, completed_blocks)
  | _ :: ops => first_finish ops
  end.

Section Pin.
Context (medium : bool) (world : NHistory → NAct → result Z).
(** What is left: a trace with more calls. *)
Record after (calls : list NAct) (p p' : PinTrace) : Prop := mk_after {
  af_acts : (pt_acts p').*1 = (pt_acts p).*1 ++ calls;
  af_wait : pt_wait_range_id p' = pt_wait_range_id p;
  af_blocks : pt_requested_blocks p' = pt_requested_blocks p }.
Lemma pquiet_run a p : pquiet world a p = (Ret tt, precord a (world (pt_acts p) a) p).
Proof. unfold pquiet, try_except, mbind, M_bind, pcall. by destruct (world (pt_acts p) a). Qed.
Lemma context_run p : ∃ p', pin_context world p = (Ret tt, p') ∧ pt_context_emitted p' = true ∧ pt_finished p' = pt_finished p ∧
  after (if pt_context_emitted p then [] else [NContext]) p p'.
Proof.
  unfold pin_context, gets, modify, mbind, M_bind. cbn beta iota. destruct (pt_context_emitted p) eqn:He.
  - exists p. split_and!; try done. split; [by rewrite app_nil_r|done..].
  - rewrite pquiet_run. eexists. split; [reflexivity|]. split_and!; try done. split; simpl; [by rewrite fmap_app|done..].
Qed.
(** The calls of an operation, by whether the pin is finished and its context was made. *)
Definition calls_of (p : PinTrace) (o : PinOp) : list NAct :=
  let context := if pt_context_emitted p then [] else [NContext] in
  match o with
  | PRegistered _ => context ++ [NMark false "source.pin.registered" no_fields]
  | PWaiter source_op_id op_handle =>
      [NMark false "source.pin.waiter" (mkEventFields None None None None [("source_op_id", source_op_id); ("op_handle", op_handle)])]
  | PDetached source_op_id op_handle =>
      if medium then
        [NMark false "source.pin.detached" (mkEventFields None None None None [("source_op_id", source_op_id); ("op_handle", op_handle)])]
      else []
  | PFinish result reason completed_blocks =>
      if pt_finished p then [] else
      let outcome := pin_outcome result reason completed_blocks (pt_requested_blocks p) in
      context ++ NMark false "source.pin.completed" (mkEventFields (Some outcome.1) (Some outcome.2) (Some completed_blocks) None []) ::
        match pt_wait_range_id p with Some range_id => [NEnd range_id] | None => [] end
  end.
Definition finishes (o : PinOp) : bool := match o with PFinish _ _ _ => true | _ => false end.
Definition makes_context (o : PinOp) : bool := match o with PRegistered _ | PFinish _ _ _ => true | _ => false end.
Lemma op_run o p : ∃ p', pin_op medium world o p = (Ret tt, p') ∧ after (calls_of p o) p p' ∧
  pt_finished p' = pt_finished p || finishes o ∧
  pt_context_emitted p' = pt_context_emitted p || (makes_context o && negb (pt_finished p && finishes o)).
Proof.
  destruct o as [request_id|source_op_id op_handle|source_op_id op_handle|result reason completed_blocks]; simpl.
  - unfold registered, modify, mbind, M_bind. cbn beta iota.
    destruct (context_run (pset_request request_id p)) as (p1 & -> & Hc & Hf & [A W B]). unfold pin_mark. rewrite pquiet_run.
    eexists. split; [reflexivity|]. split; [|split; [by rewrite orb_false_r|simpl; rewrite Hc, andb_false_r; by rewrite orb_true_r]].
    split; simpl; [|done..]. rewrite fmap_app, A. by rewrite <- app_assoc.
  - unfold waiter, pin_mark. rewrite pquiet_run. eexists. split; [reflexivity|].
    split; [split; simpl; [by rewrite fmap_app|done..]|split; simpl; by rewrite orb_false_r].
  - unfold detached, pin_mark. destruct medium.
    + rewrite pquiet_run. eexists. split; [reflexivity|].
      split; [split; simpl; [by rewrite fmap_app|done..]|split; simpl; by rewrite orb_false_r].
    + exists p. split; [done|]. split; [split; [by rewrite app_nil_r|done..]|split; by rewrite orb_false_r].
  - unfold finish_pin, gets, modify, mbind, M_bind. cbn beta iota. destruct (pt_finished p) eqn:Hfin.
    + exists p. split; [done|]. split; [split; [by rewrite app_nil_r|done..]|split; simpl; [done|by rewrite orb_false_r]].
    + destruct (context_run (pset_finished p)) as (p1 & -> & Hc & Hf & [A W B]). simpl in A, W, B. rewrite B.
      destruct (pin_outcome _ _ _ _) as [status why]. unfold pin_mark. rewrite pquiet_run. simpl. rewrite W.
      destruct (pt_wait_range_id p) as [range_id|] eqn:Hw.
      * rewrite pquiet_run. eexists. split; [reflexivity|]. split; [|split; simpl; [done|rewrite Hc; by rewrite orb_true_r]].
        split; simpl; [|congruence..]. by rewrite !fmap_app, A, <- !app_assoc.
      * eexists. split; [reflexivity|]. split; [|split; simpl; [done|rewrite Hc; by rewrite orb_true_r]].
        split; simpl; [|congruence..]. by rewrite !fmap_app, A, <- !app_assoc.
Qed.

(** The same of calls without their answers. *)
Definition completions_of (l : list NAct) : list (option Status * option Reason) := completions ((λ a, (a, Raise EOFError)) <$> l).
Definition ended_of (l : list NAct) : list Z := ended ((λ a, (a, Raise EOFError)) <$> l).
Definition contexts_of (l : list NAct) : nat := contexts ((λ a, (a, Raise EOFError)) <$> l).
Lemma omap_fst {A B C} (f : A → option C) (b : B) (h : list (A * B)) : omap (λ x, f x.1) h = omap (λ x, f x.1) ((λ a, (a, b)) <$> h.*1).
Proof. induction h as [|[a b'] h IH]; [done|]. simpl. destruct (f a); [f_equal|]; exact IH. Qed.
Lemma completions_calls h : completions h = completions_of h.*1.
Proof. apply (omap_fst (λ a, match a with NMark _ name fields => if decide (name = "source.pin.completed") then Some (ef_status fields, ef_reason fields) else None | _ => None end)). Qed.
Lemma ended_calls h : ended h = ended_of h.*1.
Proof. apply (omap_fst (λ a, match a with NEnd range_id => Some range_id | _ => None end)). Qed.
Lemma contexts_calls h : contexts h = contexts_of h.*1.
Proof. unfold contexts_of, contexts. f_equal. apply (omap_fst (λ a, match a with NContext => Some tt | _ => None end)). Qed.
Lemma completions_of_app l l' : completions_of (l ++ l') = completions_of l ++ completions_of l'.
Proof. unfold completions_of, completions. by rewrite fmap_app, omap_app. Qed.
Lemma ended_of_app l l' : ended_of (l ++ l') = ended_of l ++ ended_of l'.
Proof. unfold ended_of, ended. by rewrite fmap_app, omap_app. Qed.
Lemma contexts_of_app l l' : contexts_of (l ++ l') = contexts_of l + contexts_of l'.
Proof. unfold contexts_of, contexts. by rewrite fmap_app, omap_app, length_app. Qed.

(** What a life adds, from any point. *)
Definition outcome_of (p : PinTrace) (ops : list PinOp) : list (option Status * option Reason) :=
  match first_finish ops with
  | Some (result, reason, completed_blocks) =>
      let outcome := pin_outcome result reason completed_blocks (pt_requested_blocks p) in [(Some outcome.1, Some outcome.2)]
  | None => []
  end.
Lemma finished_life ops p : pt_finished p = true → pt_context_emitted p = true →
  ∃ p', pin_life medium world ops p = (Ret tt, p') ∧ ∃ calls, after calls p p' ∧
    completions_of calls = [] ∧ ended_of calls = [] ∧ contexts_of calls = 0.
Proof.
  revert p. induction ops as [|o ops IH]; intros p Hf Hc.
  { exists p. split; [done|]. exists []. split; [split; [by rewrite app_nil_r|done..]|done]. }
  unfold pin_life. cbn [for_each]. unfold mbind, M_bind. destruct (op_run o p) as (p1 & -> & [A W B] & F & C).
  destruct (IH p1) as (p2 & H2 & calls & [A2 W2 B2] & Hcs & He & Hx); [by rewrite F, Hf|by rewrite C, Hc|].
  exists p2. split; [exact H2|]. exists (calls_of p o ++ calls). split; [split; [by rewrite A2, A, app_assoc|congruence..]|].
  rewrite completions_of_app, ended_of_app, contexts_of_app, Hcs, He, Hx.
  destruct o; simpl; rewrite ?Hf, ?Hc; simpl; try done. by destruct medium.
Qed.
Lemma pin_run ops p : pt_finished p = false →
  ∃ p', pin_life medium world ops p = (Ret tt, p') ∧ ∃ calls, after calls p p' ∧
    completions_of calls = outcome_of p ops ∧
    ended_of calls = match first_finish ops, pt_wait_range_id p with Some _, Some range_id => [range_id] | _, _ => [] end ∧
    contexts_of calls ≤ (if pt_context_emitted p then 0 else 1).
Proof.
  revert p. induction ops as [|o ops IH]; intros p Hf.
  { exists p. split; [done|]. exists []. split; [split; [by rewrite app_nil_r|done..]|]. split_and!; try done. unfold contexts_of, contexts. simpl. lia. }
  unfold pin_life. cbn [for_each]. unfold mbind, M_bind. destruct (op_run o p) as (p1 & -> & [A W B] & F & C).
  destruct (finishes o) eqn:Ho.
  - destruct o as [| | |result reason completed_blocks]; try done.
    destruct (finished_life ops p1) as (p2 & H2 & calls & [A2 W2 B2] & Hcs & He & Hx); [by rewrite F, orb_true_r|by rewrite C, Hf, orb_true_r|].
    exists p2. split; [exact H2|]. exists (calls_of p (PFinish result reason completed_blocks) ++ calls).
    split; [split; [by rewrite A2, A, app_assoc|congruence..]|]. rewrite completions_of_app, ended_of_app, contexts_of_app, Hcs, He, Hx.
    unfold outcome_of. simpl. rewrite Hf. destruct (pt_context_emitted p), (pt_wait_range_id p); split_and!; try done; vm_compute; lia.
  - destruct (IH p1) as (p2 & H2 & calls & [A2 W2 B2] & Hcs & He & Hx); [by rewrite F, Hf|].
    exists p2. split; [exact H2|]. exists (calls_of p o ++ calls). split; [split; [by rewrite A2, A, app_assoc|congruence..]|].
    rewrite completions_of_app, ended_of_app, contexts_of_app, Hcs, He. unfold outcome_of. rewrite W, B.
    assert (first_finish (o :: ops) = first_finish ops) as -> by (by destruct o).
    assert (completions_of (calls_of p o) = [] ∧ ended_of (calls_of p o) = []) as [-> ->].
    { destruct o; simpl; try done; [by destruct (pt_context_emitted p)|by destruct medium]. }
    split_and!; try done. revert Hx. rewrite C. destruct o; try done; simpl; rewrite ?Hf; simpl.
    + rewrite orb_true_r. intros Hx. destruct (pt_context_emitted p); [change (contexts_of calls ≤ 0)|change (S (contexts_of calls) ≤ 1)]; lia.
    + rewrite orb_false_r. intros Hx. change (contexts_of calls ≤ if pt_context_emitted p then 0 else 1). done.
    + rewrite orb_false_r. intros Hx. destruct medium; change (contexts_of calls ≤ if pt_context_emitted p then 0 else 1); done.
Qed.

(** However a pin's trace is used, from however many threads that may end it: no call raises,
    its end is shown once, as the first end asked for says of the blocks that came, its wait is
    ended with it if it was begun and at no other time, and its context is shown at most once. *)
Theorem pin_reported_once blocks ops :
  let p0 := begin_pin world blocks in
  let '(r, p) := pin_life medium world ops p0 in
  r = Ret tt ∧ completions (pt_acts p) = outcome_of p0 ops ∧
  ended (pt_acts p) = match first_finish ops, pt_wait_range_id p0 with Some _, Some range_id => [range_id] | _, _ => [] end ∧
  contexts (pt_acts p) ≤ 1.
Proof.
  intros p0. destruct (pin_run ops p0 eq_refl) as (p & -> & calls & [A _ _] & Hc & He & Hx).
  rewrite completions_calls, ended_calls, contexts_calls, A. simpl. split_and!; [done|exact Hc|exact He|exact Hx].
Qed.
End Pin.

(** A pin succeeds in the trace only if it succeeded with all the blocks asked for, or said
    nothing of their number. *)
Lemma pin_success result reason completed_blocks requested_blocks why :
  pin_outcome result reason completed_blocks requested_blocks = (SUCCESS, why) →
  result = "success" ∧ ¬ (0 <= completed_blocks < requested_blocks)%Z.
Proof.
  unfold pin_outcome, pin_result. repeat case_decide; simpl in *; try naive_solver; repeat case_match; naive_solver.
Qed.
